(* ===== verification/_CoqProject ===== *)
-Q . S2P
Prelude.v
IR.v
CFGNode.v
CFGTraversal.v
CFGGraph.v
CFGDominators.v
CFGVisit.v
CFGForward.v
CFGReachability.v
CFGFrontier.v
CFGSearch.v
CFGTheorems.v
SpvBuilder.v
Instrumentation.v
SPIRVModule.v
BDAValidation.v
CFGQueries.v
CFGLoops.v
LoopTheorems.v
Passes.v
SSAPasses.v
PhiInsertion.v
CFGRewrite.v
SelectionMerges.v
Serialization.v
Switches.v
LoopConstructs.v
Ladders.v
Structurize.v
StructuredCode.v
SSATheorems.v
SinkTheorems.v
BuilderView.v
SpvEval.v
BDATheorems.v
Emission.v
EmissionSpec.v
EmissionTheorems.v
StructurizeTheorems.v
MemoryStream.v
DxilContainer.v
LLVMType.v
LLVMValue.v
ModuleContext.v
ModuleConstants.v
ModuleFunction.v
ModuleParser.v
ModuleInvariant.v
ModuleTheorems.v
Converter.v
ConverterReads.v
LLVMBuiltins.v
Instructions.v
Arithmetic.v
OpEval.v
BuilderMakes.v
EmitLogic.v
IntrinsicTheorems.v
BitScanTheorems.v
Dispatch.v
FunctionConversion.v
EmitFrame.v
BlockOrder.v
ConversionTheorems.v
WaveHelpers.v
WaveEval.v
WaveLogic.v
WaveMasks.v
WaveLoops.v
WaveTheorems.v
WavePrefix.v
WaveVotes.v
WaveQuads.v
ModuleAnalysis.v
PrecisePropagation.v
DxilCommon.v
RawAccess.v
