(* ===== verification/Prelude.v ===== *)
(** * dxil-spirv: from DXIL containers to structured SPIR-V

    dxil-spirv turns DXIL, an LLVM bitcode dialect inside a DXBC container, into SPIR-V.
    A conversion runs through four stages:

    - dxil_parser.cpp cuts the container into parts (program, signatures, runtime data,
      root signatures) with the cursor of memory_stream.cpp;
    - bc/module.cpp reads the bitcode of the program into look-alikes of the LLVM classes
      (bc/type, bc/value, bc/instruction, bc/function, bc/metadata); the bit-level
      decoder in third_party/bc-decoder is vendored, its tree of blocks and records is
      the input of this stage;
    - dxil_converter.cpp and opcodes/ translate instructions to the operations of ir.hpp in
      the blocks of a graph of [CFGNode]s (node.cpp);
    - cfg_structurizer.cpp analyses and rewrites that graph until it is structured control
      flow, and spirv_module.cpp emits it block by block through the builder of
      third_party/glslang-spirv.

    The stages meet in data: the reader leaves a heap of values ([VState]) in which no
    placeholder remains, the converter leaves a pool of nodes with operations in SSA form,
    the structurizer leaves merge information in the nodes, the emission registers a SPIR-V
    block for each.  The definitions keep the names of the code.

    ** Conventions

    A C++ routine is a computation in [res] ([Ok], [Fail] for an error the caller sees,
    [UB] for an execution without a defined result: out-of-bounds access, null
    dereference, failed [assert], [abort]) or in the state monad [M S] over it (Prelude.v).
    Each component has its state and its own instance of the monad: [NM] on a pool of
    nodes, [SM] on the structurizer, [PM] on what its passes see, [BM] on the builder, [MM]
    on the SPIR-V module, [CM] on the converter.  A call of a component from another runs
    on the part of the state that is the callee's.
    Integers are [Z] with [u8], [u32], [u64], [s64] written where the code wraps.
    Pointers to objects of a class are indices into the heap of that class: aliasing is
    sharing of an index.

    Where C++ leaves an order open, one is fixed: arguments of a call are evaluated from
    left to right, [std::sort] is a stable sort, an unordered set is traversed in the order
    of insertion or of its elements.  The environment variable that dumps graphs is unset.
    The numbers of opcodes, storage classes and the like are those of the SPIR-V registry.

    Recursive routines take fuel.  Running out of fuel is [UB], so a theorem that a
    routine returns [Ok] includes that the fuel is enough.  The amounts:

    - a walk along parents or a search with a cache gets one more than the number of nodes
      ([search_fuel], [traversal_fuel]); the mutual recursion of [find_common_dominator]
      gets [dominator_fuel], quadratic in it; [escaping_fuel] the product of a few of them;
    - loops over strings and records get their length, walks along values, types and
      constant expressions the size of the heap, [ValueProxy_resolve] the number of values;
      [composite_walk] gets 33 (n + 1), since it goes on from one of the n values only
      after it marked one more of the value's 32 components;
    - loops of the passes that start over after a change run through [repeat_pow], which
      allows 2 to the power of its argument rounds; loops over the bits of a word get 64.

    The correctness theorems prove them sufficient wherever they state an [Ok] result.
    [execution_fuel] bounds the length of the runs [structurizer_correct] compares, which
    end by themselves because the blocks count.

    ** Files

    - Prelude.v: outcomes, the state monad with [runs] (total correctness of a
      computation), loops, integer and list lemmas, tactics.

    Blocks and graphs:
    - IR.v: ir.hpp.  CFGNode.v: node.hpp, node.cpp, node_pool.cpp.
    - CFGTraversal.v: the analyses of cfg_structurizer.cpp that [recompute_cfg] runs, the
      merging of back edges, the helper blocks.
    - CFGGraph.v, CFGDominators.v, CFGVisit.v, CFGForward.v, CFGReachability.v,
      CFGFrontier.v, CFGSearch.v: the proofs about them.  The class [forward_graph]
      (CFGGraph.v) is the interface: what the depth-first search leaves behind
      (CFGVisit.v, CFGForward.v establish it) and all the later analyses rely on.
      CFGTheorems.v states the results.

    The SPIR-V side:
    - SpvBuilder.v: the part of SpvBuilder.h/.cpp and spvIR.h that the rest calls.
    - SPIRVModule.v: spirv_module.hpp/.cpp, its state and services; Instrumentation.v and
      BDAValidation.v: spirv_module_instrumentation.cpp (reports of non-finite values and
      failed assumptions; the race check of buffer accesses).
    - BuilderView.v, SpvEval.v: how proofs see the builder, and a meaning of straight-line
      SPIR-V; BDATheorems.v: what the generated race check computes.
    - Emission.v: [CFGStructurizer::traverse] and the emission of functions and blocks in
      spirv_module.cpp, with the class [BlockEmissionInterface] between the two.
      EmissionSpec.v is the reference, EmissionTheorems.v the refinement.

    The structurizer (cfg_structurizer.cpp), a file for each part, in the order of calls:
    - CFGQueries.v (breaks, continues, merge candidates, convergence), CFGLoops.v
      (analysis of loops and exits; LoopTheorems.v), Passes.v (state of the passes),
      SSAPasses.v (passes over instructions; SSATheorems.v, SinkTheorems.v),
      PhiInsertion.v, CFGRewrite.v (splitting, copying, redirecting), SelectionMerges.v,
      Serialization.v (interleaved merges), Switches.v, LoopConstructs.v, Ladders.v,
      Structurize.v ([structurize], [run]).
    - StructuredCode.v: meaning of graphs before and after, and the rules for structured
      control flow; StructurizeTheorems.v: both hold of what the code produces.

    The readers:
    - MemoryStream.v: memory_stream.hpp/.cpp.  DxilContainer.v: dxil.hpp, dxil_parser.*.
    - LLVMType.v: bc/type.*, the type cache of bc/context.hpp.
    - LLVMValue.v: bc/value.*, bc/instruction.*, bc/function.*, bc/metadata.*, bc/cast.hpp.
    - ModuleContext.v, ModuleConstants.v, ModuleFunction.v, ModuleParser.v: bc/module.cpp,
      in that order; [ModuleParseContext] is the state of all handlers.
      ModuleInvariant.v proves that every handler keeps [inv]; ModuleTheorems.v states
      what the reader guarantees.

    The converter:
    - Converter.v: the part of [Converter::Impl] (converter_impl.hpp, dxil_converter.cpp)
      that the emitters call.
    - LLVMBuiltins.v, Instructions.v: opcodes_llvm_builtins.cpp.
    - Arithmetic.v: dxil/dxil_arithmetic.cpp.
    - OpEval.v: the meaning of emitted operations; EmitLogic.v: symbolic execution of an
      emitter; IntrinsicTheorems.v (bit fields), BitScanTheorems.v (first set bit): what the
      emitted code computes.
    - Dispatch.v: opcodes_dxil_builtins.cpp, the table of translations with the entries for
      arithmetic; [OpcodeEmitter] is the interface for the others.
    - FunctionConversion.v: the conversion of functions (dxil_converter.cpp).  EmitFrame.v:
      what emitters leave alone ([frame], the law [FramedEmitters] of the parameters).
      BlockOrder.v: the traversals; ConversionTheorems.v: the nodes of a converted function.
    - ModuleAnalysis.v: of the analysis before the conversion (dxil_converter.cpp) the values
      that are used, the precise operations, the missing barriers; PrecisePropagation.v:
      the search for precise operations.
    - ConverterReads.v: what reading the module gives while it is converted.
    - WaveHelpers.v: the helper functions for waves and quads (spirv_module.cpp), monad [HM].
      WaveEval.v: SPIR-V functions run by the lanes of a wave, which part at branches and meet
      again at merge blocks; WaveLogic.v: its rules ([has], [put], [goes]); WaveLoops.v: the
      shapes of the functions (early returns, [rounds]); WaveMasks.v: ballots as numbers.
      WaveTheorems.v, WavePrefix.v, WaveVotes.v, WaveQuads.v: the functions are right.
    - DxilCommon.v: offsets, indices of elements and memory qualifiers
      (opcodes/dxil/dxil_common.cpp); RawAccess.v: the indices are right.
    ** What the theorems show

    - Byte level: the cursor never leaves its window, reads what the window holds, and
      the string readers end; a container of any bytes is parsed without an access
      outside it ([parse_container_safe]); which blob, name and payload are stored.
    - Types: the factories share structurally equal types, so the pointer comparisons of
      the code compare structure ([factories_hash_cons], [type_pointer_equality]).
    - Values and modules: a module that is read without an error has typed values, no
      placeholder left among them, and every placeholder in use is pending until
      [resolve_forward_references] removes it ([parseIR_invariant],
      [forward_references_resolved]); function bodies leave no local value behind
      ([function_body_scope]); records of the type table, attributes and signed numbers
      mean what LLVM's writer wrote ([parse_type_spec], [attribute_group_roundtrip],
      [sign_rotated_roundtrip]); malformed records with no defined behaviour are
      exhibited ([malformed_records_crash]).
    - Blocks: the argument buffer of [Operation] implements a list, whatever fresh memory
      contains ([operation_refines_list]).
    - Graphs: on a reducible graph the forward half of [recompute_cfg] completes; its
      visit order, back edges, dominators, reachability bits and dominance frontiers are
      the ones the literature defines by paths ([traversal_correct], [dominators_correct],
      [reachability_correct], [dominance_frontier_correct]), the blocks and exits of loops
      are those of natural loops ([natural_loop_correct]), and the searches of node.cpp
      answer the questions their names ask.
    - Passes: sinking permutes the operations of a function and keeps it in SSA form
      ([sink_ssa_constructs_correct]); the removal of unused values removes exactly those
      ([remove_unused_ssa_correct]).
    - The structurizer as a whole: for every control-flow graph of a class of graphs of up
      to five blocks, with operations, branches and PHIs in it, the emitted function is
      structured and behaves as the graph did ([structurizer_correct]); graphs outside the
      class on which it fails are exhibited ([structurizer_failures]).
    - Emission: for every structured function, of any size, the SPIR-V blocks hold what
      their nodes say ([emission_correct]).
    - Generated code: the race check answers exactly when two accesses conflict and overlap
      ([hazard_detection_exact], [access_masks_correct], [build_u64_add_u32_correct]); the
      code for bit fields and bit scans computes what Direct3D specifies, for all values
      ([bit_field_extract_correct], [bit_field_insert_correct], [first_bit_correct]).
    - Functions: both traversals end and list exactly the blocks that can be reached when
      branches with a known condition go one way ([visit_order_correct],
      [analysis_order_correct]); the nodes of a converted function have the terminators,
      merge information, PHIs and edges of its blocks ([convert_function_correct]).
    - Buffers: an offset is split into constants and a rest that make up the same number of
      elements ([raw_access_split_correct]), and the code for the index computes it
      ([index_divider_correct]); [reads] says which offsets these hold for, and RawAccess.v
      shows two kinds of offset outside it that are split wrongly.
    - Precision: the operations that precise ones depend on, and no others, become precise
      ([propagate_precise_correct]).
    - Waves: the generated code of WaveMatch, of the multi-prefix operations and of the votes
      gives every lane what Direct3D says, for all sets of active lanes and all values
      ([wave_match_correct], [wave_multi_prefix_op_correct], [quad_uniform_correct], ...): for
      the function generated in a new module, on a machine that runs the lanes of one branch
      after those of the other and joins them at the merge block, which is what the code counts
      on.  [call_function] has fuel; each theorem gives a bound from which on it returns.

    ** Not modelled

    The opcodes that go through the tables of resources (resources, buffers, sampling), wave
    operations (but their helper functions are), ray tracing, work graphs and the vendor extensions (AGS, NVAPI: the
    converter's hooks for them are unused); getelementptr,
    load, store and alloca (parameters with the law [FramedEmitters]); resources, entry points,
    options and the analyses of single instructions before they are converted; the reader for DXBC, which
    depends on a submodule that is not in the repository; descriptor instrumentation; the
    remaining helper functions of the SPIR-V module; the disassembler, logging, the C API
    and the command line tools; raw memory management (arenas, thread-local allocation). *)
From Stdlib Require Export ZArith Lia.
From stdpp Require Export base option list gmap strings numbers.

Set Default Proof Using "Type".

(** * Outcomes of a C++ routine

    [Ok a]: the routine ran to completion and produced [a].
    [Fail]: the routine reported an error ([return false], [return nullptr]
    where every caller propagates it).
    [UB]: the execution has no defined result: an access outside an object, a
    null pointer dereference, a failed [assert] or a [std::terminate] of a
    checked cast. *)
Inductive res (A : Type) : Type :=
| Ok (a : A)
| Fail
| UB.
Arguments Ok {A} a.
Arguments Fail {A}.
Arguments UB {A}.

#[export] Instance res_ret : MRet res := fun A a => Ok a.
#[export] Instance res_bind : MBind res := fun A B f m =>
  match m with Ok a => f a | Fail => Fail | UB => UB end.
#[export] Instance res_fmap : FMap res := fun A B f m =>
  match m with Ok a => Ok (f a) | Fail => Fail | UB => UB end.

(** [if (!c) return false;] *)
Definition guard_res (c : bool) : res unit := if c then Ok tt else Fail.
(** [assert(c)]; also an access the standard only defines when [c]. *)
Definition assert_res (c : bool) : res unit := if c then Ok tt else UB.
(** [if (!ptr) return false;] *)
Definition some_or_fail {A} (o : option A) : res A :=
  match o with Some a => Ok a | None => Fail end.
(** Dereference of a pointer or index that may be invalid. *)
Definition some_or_ub {A} (o : option A) : res A :=
  match o with Some a => Ok a | None => UB end.

(** The weakest condition under which a routine has a defined outcome and, when
    it succeeds, a result satisfying [Q]. *)
Definition wp {A} (m : res A) (Q : A -> Prop) : Prop :=
  match m with Ok a => Q a | Fail => True | UB => False end.

(** A routine without undefined behaviour. *)
Definition safe {A} (m : res A) : Prop := m <> UB.

Section wp.
Context {A B : Type}.
Implicit Types (m : res A) (Q : A -> Prop).

Lemma wp_ret (a : A) Q : Q a -> wp (Ok a) Q.
Proof. done. Qed.

Lemma wp_bind m (f : A -> res B) (Q : B -> Prop) :
  wp m (fun a => wp (f a) Q) -> wp (m ≫= f) Q.
Proof. by destruct m. Qed.

Lemma wp_mono m (Q R : A -> Prop) :
  wp m Q -> (forall a, Q a -> R a) -> wp m R.
Proof. destruct m; simpl; eauto. Qed.

Lemma wp_safe m Q : wp m Q -> safe m.
Proof. destruct m; done. Qed.

Lemma wp_Ok m Q a : wp m Q -> m = Ok a -> Q a.
Proof. by intros H ->. Qed.

Lemma wp_some_or_fail (o : option A) Q :
  (forall a, o = Some a -> Q a) -> wp (some_or_fail o) Q.
Proof. destruct o; simpl; eauto. Qed.

Lemma wp_some_or_ub (o : option A) Q :
  (exists a, o = Some a /\ Q a) -> wp (some_or_ub o) Q.
Proof. by intros (a & -> & ?). Qed.
End wp.

Lemma wp_guard c Q : (c = true -> Q tt) -> wp (guard_res c) Q.
Proof. destruct c; simpl; eauto. Qed.

Lemma wp_assert c Q : c = true -> Q tt -> wp (assert_res c) Q.
Proof. by intros ->. Qed.

(** Inversion of a successful sequence. *)
Lemma bind_Ok {A B} (m : res A) (f : A -> res B) (b : B) :
  m ≫= f = Ok b <-> exists a, m = Ok a /\ f a = Ok b.
Proof.
  destruct m as [a| |]; split; simpl.
  - eauto.
  - by intros (? & [= ->] & ?).
  - done.
  - by intros (? & ? & ?).
  - done.
  - by intros (? & ? & ?).
Qed.

Lemma guard_Ok c u : guard_res c = Ok u <-> c = true.
Proof. destruct c, u; split; done. Qed.

Lemma some_or_fail_Ok {A} (o : option A) a : some_or_fail o = Ok a <-> o = Some a.
Proof. destruct o; split; simpl; congruence. Qed.

Lemma some_or_ub_Ok {A} (o : option A) a : some_or_ub o = Ok a <-> o = Some a.
Proof. destruct o; split; simpl; congruence. Qed.

(** * Counted loops

    [for (i = 0; i < n; i++) s = body(i, s)], where [body] may leave the
    routine. *)
Section loop.
Context {S : Type} (body : Z -> S -> res S).

Fixpoint for_from (i : Z) (n : nat) (s : S) : res S :=
  match n with
  | O => Ok s
  | Datatypes.S n' => s' ← body i s; for_from (i + 1)%Z n' s'
  end.

Definition for_range (n : Z) (s : S) : res S := for_from 0 (Z.to_nat n) s.

(** Invariants of a loop that ran to completion. *)
Lemma for_from_inv (I : S -> Prop) i n s s' :
  (forall j t t', body j t = Ok t' -> I t -> I t') ->
  for_from i n s = Ok s' -> I s -> I s'.
Proof.
  intros Hbody. revert i s; induction n as [|n IH]; intros i s; simpl.
  - by intros [= <-].
  - destruct (body i s) as [t| |] eqn:Hb; simpl; try done. eauto.
Qed.

Lemma for_range_inv (I : S -> Prop) n s s' :
  (forall j t t', body j t = Ok t' -> I t -> I t') ->
  for_range n s = Ok s' -> I s -> I s'.
Proof. apply for_from_inv. Qed.

(** Invariant rule. *)
Lemma wp_for_from (I : Z -> S -> Prop) i n s :
  I i s ->
  (forall j s', (i <= j < i + Z.of_nat n)%Z -> I j s' ->
     wp (body j s') (I (j + 1)%Z)) ->
  wp (for_from i n s) (I (i + Z.of_nat n)%Z).
Proof.
  revert i s; induction n as [|n IH]; intros i s Hs Hbody; simpl.
  - by rewrite Z.add_0_r.
  - apply wp_bind. eapply wp_mono; [apply Hbody; [lia|done]|].
    intros s' Hs'. replace (i + Z.of_nat (Datatypes.S n))%Z
      with ((i + 1) + Z.of_nat n)%Z by lia.
    apply IH; [done|]. intros j s'' Hj. apply Hbody. lia.
Qed.

Lemma wp_for_range (I : Z -> S -> Prop) n s :
  (0 <= n)%Z -> I 0%Z s ->
  (forall j s', (0 <= j < n)%Z -> I j s' -> wp (body j s') (I (j + 1)%Z)) ->
  wp (for_range n s) (I n).
Proof.
  intros Hn Hs Hbody. unfold for_range.
  replace n with (0 + Z.of_nat (Z.to_nat n))%Z at 2 by lia.
  apply wp_for_from; [done|]. intros j s' Hj. apply Hbody. lia.
Qed.
End loop.

(** [for (auto &x : l) s = body(x, s)]. *)
Section each.
Context {X S : Type} (body : X -> S -> res S).

Fixpoint for_each (l : list X) (s : S) : res S :=
  match l with
  | [] => Ok s
  | x :: l' => s' ← body x s; for_each l' s'
  end.

Lemma wp_for_each (I : S -> Prop) l s :
  I s -> (forall x s', x ∈ l -> I s' -> wp (body x s') I) ->
  wp (for_each l s) I.
Proof.
  revert s; induction l as [|x l IH]; intros s Hs Hbody; simpl; [done|].
  apply wp_bind. eapply wp_mono; [apply Hbody; [left|done]|].
  intros s' Hs'. apply IH; [done|]. intros y t Hy. apply Hbody. by right.
Qed.

Lemma for_each_inv (I : S -> Prop) l s s' :
  (forall x t t', body x t = Ok t' -> I t -> I t') ->
  for_each l s = Ok s' -> I s -> I s'.
Proof.
  intros Hbody. revert s; induction l as [|x l IH]; intros s; simpl.
  - by intros [= <-].
  - destruct (body x s) as [t| |] eqn:Hb; simpl; try done. eauto.
Qed.

Lemma for_each_app l1 l2 s :
  for_each (l1 ++ l2) s = for_each l1 s ≫= for_each l2.
Proof.
  revert s; induction l1 as [|x l1 IH]; intros s; simpl; [done|].
  destruct (body x s); simpl; auto.
Qed.
End each.

(** * Machine integers: unsigned values of [w] bits, with wrap-around *)
Definition wrap (w x : Z) : Z := (x mod 2 ^ w)%Z.
Definition u32 (x : Z) : Z := wrap 32 x.
Definition u64 (x : Z) : Z := wrap 64 x.

(** Reinterpretation of a [w]-bit pattern as a signed number. *)
Definition signed (w x : Z) : Z :=
  if (2 ^ (w - 1) <=? wrap w x)%Z then (wrap w x - 2 ^ w)%Z else wrap w x.
Definition s64 (x : Z) : Z := signed 64 x.

Lemma wrap_range w x : (0 <= w)%Z -> (0 <= wrap w x < 2 ^ w)%Z.
Proof. intros. unfold wrap. apply Z.mod_pos_bound. by apply Z.pow_pos_nonneg. Qed.

Lemma wrap_small w x : (0 <= x < 2 ^ w)%Z -> wrap w x = x.
Proof. apply Z.mod_small. Qed.

Lemma u32_range x : (0 <= u32 x < 2 ^ 32)%Z.
Proof. by apply wrap_range. Qed.
Lemma u64_range x : (0 <= u64 x < 2 ^ 64)%Z.
Proof. by apply wrap_range. Qed.
Lemma u32_small x : (0 <= x < 2 ^ 32)%Z -> u32 x = x.
Proof. apply wrap_small. Qed.
Lemma u64_small x : (0 <= x < 2 ^ 64)%Z -> u64 x = x.
Proof. apply wrap_small. Qed.

(** Largest size of an object: the address space of the 64-bit targets. *)
Definition max_object : Z := 2 ^ 62.

(** Element of a vector at an unsigned index; [None] out of range. *)
Definition zlookup {A} (l : list A) (i : Z) : option A :=
  if (0 <=? i)%Z then l !! Z.to_nat i else None.
Definition zlength {A} (l : list A) : Z := Z.of_nat (length l).

Lemma zlookup_Some_lt {A} (l : list A) i x :
  zlookup l i = Some x -> (0 <= i < zlength l)%Z.
Proof.
  unfold zlookup, zlength. destruct (Z.leb_spec 0 i); [|done].
  intros ?%lookup_lt_Some. lia.
Qed.

Lemma zlookup_is_Some {A} (l : list A) i :
  is_Some (zlookup l i) <-> (0 <= i < zlength l)%Z.
Proof.
  split.
  - intros [x Hx]. by eapply zlookup_Some_lt.
  - unfold zlookup, zlength. intros. destruct (Z.leb_spec 0 i); [|lia].
    apply lookup_lt_is_Some. lia.
Qed.

Lemma zlookup_app_l {A} (l k : list A) i x :
  zlookup l i = Some x -> zlookup (l ++ k) i = Some x.
Proof.
  unfold zlookup. destruct (Z.leb_spec 0 i); [|done]. by apply lookup_app_l_Some.
Qed.

Lemma zlookup_snoc {A} (l : list A) x : zlookup (l ++ [x]) (zlength l) = Some x.
Proof.
  unfold zlookup, zlength. destruct (Z.leb_spec 0 (Z.of_nat (length l))); [|lia].
  rewrite Nat2Z.id. by apply list_lookup_middle.
Qed.

Lemma zlength_nonneg {A} (l : list A) : (0 <= zlength l)%Z.
Proof. unfold zlength. lia. Qed.

Lemma zlength_app {A} (l k : list A) : zlength (l ++ k) = (zlength l + zlength k)%Z.
Proof. unfold zlength. rewrite length_app. lia. Qed.

Create HintDb dxil.
#[export] Hint Resolve wp_ret u32_range u64_range zlength_nonneg : dxil.

(** Case analysis on the boolean tests of the code. *)
Ltac bool_case :=
  repeat match goal with
  | H : context [(?a <? ?b)%Z] |- _ => destruct (Z.ltb_spec a b)
  | H : context [(?a <=? ?b)%Z] |- _ => destruct (Z.leb_spec a b)
  | H : context [(?a =? ?b)%Z] |- _ => destruct (Z.eqb_spec a b)
  | |- context [(?a <? ?b)%Z] => destruct (Z.ltb_spec a b)
  | |- context [(?a <=? ?b)%Z] => destruct (Z.leb_spec a b)
  | |- context [(?a =? ?b)%Z] => destruct (Z.eqb_spec a b)
  end.

(** Decompose [m ≫= f = Ok b] hypotheses. *)
Ltac inv_ok :=
  repeat match goal with
  | H : _ ≫= _ = Ok _ |- _ => apply bind_Ok in H as (? & ? & H)
  | H : guard_res _ = Ok _ |- _ => apply guard_Ok in H
  | H : some_or_fail _ = Ok _ |- _ => apply some_or_fail_Ok in H
  | H : some_or_ub _ = Ok _ |- _ => apply some_or_ub_Ok in H
  | H : Ok _ = Ok _ |- _ => injection H; clear H; intros; subst
  | H : Fail = Ok _ |- _ => discriminate H
  | H : UB = Ok _ |- _ => discriminate H
  | H : mret _ = Ok _ |- _ => unfold mret, res_ret in H
  | H : (let '(_, _) := (_, _) in _) = Ok _ |- _ => cbv beta iota in H
  | H : (let '(_, _) := ?p in _) = Ok _ |- _ => is_var p; destruct p
  end.

(** One structural step of a [wp] goal. *)
Ltac wp_step :=
  match goal with
  | |- wp (Ok _) _ => apply wp_ret
  | |- wp (mret _) _ => apply wp_ret
  | |- wp Fail _ => exact I
  | |- wp (_ ≫= _) _ => apply wp_bind
  | |- wp (guard_res _) _ => apply wp_guard; intros
  | |- wp (some_or_fail _) _ => apply wp_some_or_fail; intros
  end.

(** * Stateful routines

    [M S A]: a routine over the mutable state [S].  On [Fail] the state is not
    kept: the code that uses these routines abandons the object being built. *)
Definition M (S A : Type) : Type := S -> res (A * S).

#[export] Instance M_ret {S} : MRet (M S) := fun A a s => Ok (a, s).
#[export] Instance M_bind {S} : MBind (M S) := fun A B f m s =>
  match m s with Ok (a, s') => f a s' | Fail => Fail | UB => UB end.
#[export] Instance M_fmap {S} : FMap (M S) := fun A B f m s =>
  match m s with Ok (a, s') => Ok (f a, s') | Fail => Fail | UB => UB end.

Section monad.
Context {S : Type}.

Definition lift {A} (r : res A) : M S A := fun s =>
  match r with Ok a => Ok (a, s) | Fail => Fail | UB => UB end.
Definition gets {A} (f : S -> A) : M S A := fun s => Ok (f s, s).
Definition modify (f : S -> S) : M S unit := fun s => Ok (tt, f s).
Definition failM {A} : M S A := fun _ => Fail.
Definition ubM {A} : M S A := fun _ => UB.
(** [if (!c) return false;] *)
Definition guardM (c : bool) : M S unit := lift (guard_res c).
(** [assert(c)] *)
Definition assertM (c : bool) : M S unit := lift (assert_res c).
(** Dereference a pointer that may be null. *)
Definition derefM {A} (o : option A) : M S A := lift (some_or_ub o).
(** [if (!ptr) return false;] *)
Definition checkM {A} (o : option A) : M S A := lift (some_or_fail o).

(** Run a routine of a component on its part of the state. *)
Definition zoom {T A} (get : S -> T) (set : T -> S -> S) (m : M T A) : M S A := fun s =>
  match m (get s) with Ok (a, t) => Ok (a, set t s) | Fail => Fail | UB => UB end.

Fixpoint for_eachM {X} (body : X -> M S unit) (l : list X) : M S unit :=
  match l with
  | [] => mret tt
  | x :: l' => _ ← body x; for_eachM body l'
  end.

(** A loop that collects the result of each iteration. *)
Fixpoint mapM_list {X Y} (body : X -> M S Y) (l : list X) : M S (list Y) :=
  match l with
  | [] => mret []
  | x :: l' => y ← body x; ys ← mapM_list body l'; mret (y :: ys)
  end.

(** [triple P m Q]: from a state satisfying [P], whenever [m] completes, its
    result and final state satisfy [Q]. *)
Definition triple {A} (P : S -> Prop) (m : M S A) (Q : A -> S -> Prop) : Prop :=
  forall s a s', P s -> m s = Ok (a, s') -> Q a s'.

Lemma triple_ret {A} (a : A) (P : S -> Prop) (Q : A -> S -> Prop) :
  (forall s, P s -> Q a s) -> triple P (mret a) Q.
Proof. intros H s b s' HP [= <- <-]. auto. Qed.

Lemma triple_bind {A B} (m : M S A) (f : A -> M S B) P Q R :
  triple P m Q -> (forall a, triple (Q a) (f a) R) -> triple P (m ≫= f) R.
Proof.
  intros Hm Hf s b s' HP. unfold mbind, M_bind.
  destruct (m s) as [[a s1]| |] eqn:E; [|done..]. intros H.
  eapply Hf; [|exact H]. eapply Hm; eauto.
Qed.

Lemma triple_conseq {A} (m : M S A) (P P' : S -> Prop) (Q Q' : A -> S -> Prop) :
  triple P' m Q' -> (forall s, P s -> P' s) -> (forall a s, Q' a s -> Q a s) ->
  triple P m Q.
Proof. intros H HP HQ s a s' ? ?. eapply HQ, H; eauto. Qed.

Lemma triple_pre {A} (m : M S A) (P : S -> Prop) (Q : A -> S -> Prop) :
  (forall s0, P s0 -> triple (fun s => s = s0) m Q) -> triple P m Q.
Proof. intros H s a s' HP E. eapply (H s HP); eauto. Qed.

Lemma triple_lift {A} (r : res A) (P : S -> Prop) (Q : A -> S -> Prop) :
  (forall a s, r = Ok a -> P s -> Q a s) -> triple P (lift r) Q.
Proof. intros H s a s' HP. unfold lift. destruct r; try done. intros [= <- <-]. auto. Qed.

Lemma triple_gets {A} (f : S -> A) (P : S -> Prop) (Q : A -> S -> Prop) :
  (forall s, P s -> Q (f s) s) -> triple P (gets f) Q.
Proof. intros H s a s' HP [= <- <-]. auto. Qed.

Lemma triple_modify (f : S -> S) (P : S -> Prop) (Q : unit -> S -> Prop) :
  (forall s, P s -> Q tt (f s)) -> triple P (modify f) Q.
Proof. intros H s a s' HP [= <- <-]. auto. Qed.

Lemma triple_fail {A} (P : S -> Prop) (Q : A -> S -> Prop) : triple P failM Q.
Proof. by intros s a s' _. Qed.

Lemma triple_ub {A} (P : S -> Prop) (Q : A -> S -> Prop) : triple P ubM Q.
Proof. by intros s a s' _. Qed.

Lemma triple_for_each {X} (body : X -> M S unit) (I : S -> Prop) l :
  (forall x, x ∈ l -> triple I (body x) (fun _ => I)) ->
  triple I (for_eachM body l) (fun _ => I).
Proof.
  induction l as [|x l IH]; intros Hb; simpl; [by apply triple_ret|].
  eapply triple_bind; [apply Hb; left|]. intros []. apply IH. intros y Hy. apply Hb. by right.
Qed.

Lemma triple_mapM {X Y} (body : X -> M S Y) (I : S -> Prop) (R : Y -> S -> Prop) l :
  (forall y s, R y s -> I s) ->
  (forall x, x ∈ l -> triple I (body x) R) ->
  triple I (mapM_list body l) (fun _ => I).
Proof.
  intros HR. induction l as [|x l IH]; intros Hb; simpl; [by apply triple_ret|].
  eapply triple_bind; [apply Hb; left|]. intros y.
  eapply triple_bind.
  - eapply triple_conseq; [apply IH| |].
    + intros z Hz. apply Hb. by right.
    + apply HR.
    + intros; eassumption.
  - intros ys. by apply triple_ret.
Qed.

(** A first step whose result is known. *)
Lemma bindM_run {A B} (m : M S A) (f : A -> M S B) s a s1 :
  m s = Ok (a, s1) -> (m ≫= f) s = f a s1.
Proof. unfold mbind, M_bind. by intros ->. Qed.

(** The fact every proof about a completed run starts from. *)
Lemma bindM_Ok {A B} (m : M S A) (f : A -> M S B) s b s' :
  (m ≫= f) s = Ok (b, s') <-> exists a s1, m s = Ok (a, s1) /\ f a s1 = Ok (b, s').
Proof.
  unfold mbind, M_bind. destruct (m s) as [[a s1]| |].
  - split; [eauto|]. by intros (? & ? & [= <- <-] & ?).
  - split; [done|]. by intros (? & ? & ? & _).
  - split; [done|]. by intros (? & ? & ? & _).
Qed.
End monad.

Lemma triple_zoom {S T A} (get : S -> T) (set : T -> S -> S) (m : M T A)
    (P : S -> Prop) (Q : A -> S -> Prop) :
  (forall s a t, P s -> m (get s) = Ok (a, t) -> Q a (set t s)) ->
  triple P (zoom get set m) Q.
Proof.
  intros H s a s' HP. unfold zoom. destruct (m (get s)) as [[b t]| |] eqn:E; [|done..].
  intros [= <- <-]. eauto.
Qed.

(** One structural step of a [triple] goal whose condition is an invariant. *)
Ltac triple_step :=
  match goal with
  | |- triple _ (mret _) _ => apply triple_ret
  | |- triple _ failM _ => apply triple_fail
  | |- triple _ ubM _ => apply triple_ub
  | |- triple _ (gets _) _ => apply triple_gets
  | |- triple _ (modify _) _ => apply triple_modify
  | |- triple _ (guardM _) _ => apply triple_lift
  | |- triple _ (assertM _) _ => apply triple_lift
  | |- triple _ (derefM _) _ => apply triple_lift
  | |- triple _ (checkM _) _ => apply triple_lift
  | |- triple _ (lift _) _ => apply triple_lift
  end.

(** * Invariant and history

    [spec Pre m Q] for an invariant [inv] and a preorder [R] on states: a completed
    run of [m] from a state with [inv] and [Pre] keeps [inv], only moves the state
    along [R], and establishes [Q].  Facts that are monotone along [R] survive
    every later step. *)
Class Mono {S : Type} (R : S -> S -> Prop) (Pre : S -> Prop) : Prop :=
  mono s s' : R s s' -> Pre s -> Pre s'.

#[export] Instance mono_const {S} (R : S -> S -> Prop) (Q : Prop) : Mono R (fun _ => Q) | 1.
Proof. by intros s s' _. Qed.
#[export] Instance mono_and {S} (R : S -> S -> Prop) P Q :
  Mono R P -> Mono R Q -> Mono R (fun s => P s /\ Q s).
Proof. intros HP HQ s s' HR []. split; [by eapply HP|by eapply HQ]. Qed.
#[export] Instance mono_Forall {S A} (R : S -> S -> Prop) (Q : A -> S -> Prop) (l : list A) :
  (forall a, Mono R (Q a)) -> Mono R (fun s => Forall (fun a => Q a s) l).
Proof. intros H s s' HR Hl. eapply list.Forall_impl; [exact Hl|]. intros a Ha. by eapply H. Qed.

Section spec.
Context {S : Type} (inv : S -> Prop) (R : S -> S -> Prop).
Context {HR : PreOrder R}.

Definition spec {A} (Pre : S -> Prop) (m : M S A) (Q : A -> S -> Prop) : Prop :=
  forall s a s', inv s -> Pre s -> m s = Ok (a, s') -> inv s' /\ R s s' /\ Q a s'.

Lemma spec_ret {A} (a : A) Pre (Q : A -> S -> Prop) :
  (forall s, Pre s -> Q a s) -> spec Pre (mret a) Q.
Proof using HR. intros H s b s' Hi HP [= <- <-]. split_and!; [done|done|auto]. Qed.

Lemma spec_bind {A B} (m : M S A) (f : A -> M S B) Pre Q T :
  Mono R Pre -> spec Pre m Q -> (forall a, spec (fun s => Pre s /\ Q a s) (f a) T) ->
  spec Pre (m ≫= f) T.
Proof using HR.
  intros HM Hm Hf s b s' Hi HP (a & s1 & E1 & E2)%bindM_Ok.
  destruct (Hm _ _ _ Hi HP E1) as (Hi1 & HR1 & HQ).
  destruct (Hf a _ _ _ Hi1 (conj (HM _ _ HR1 HP) HQ) E2) as (? & ? & ?).
  split_and!; [done|by etrans|done].
Qed.

Lemma spec_conseq {A} (m : M S A) (Pre Pre' : S -> Prop) (Q Q' : A -> S -> Prop) :
  spec Pre' m Q' -> (forall s, Pre s -> Pre' s) -> (forall a s, Q' a s -> Q a s) ->
  spec Pre m Q.
Proof. intros H HP HQ s a s' Hi HPre E. destruct (H s a s') as (? & ? & ?); auto. Qed.

Lemma spec_post {A} (m : M S A) Pre (Q Q' : A -> S -> Prop) :
  Mono R Pre -> spec Pre m Q' -> (forall a s, Pre s -> Q' a s -> Q a s) -> spec Pre m Q.
Proof.
  intros HM H HQ s a s' Hi HP E. destruct (H s a s' Hi HP E) as (? & ? & ?).
  split_and!; [done|done|]. apply HQ; [by eapply HM|done].
Qed.

(** The precondition may be used to choose the proof. *)
Lemma spec_pre {A} (m : M S A) (Pre : S -> Prop) (Q : A -> S -> Prop) :
  (forall s0, Pre s0 -> spec Pre m Q) -> spec Pre m Q.
Proof. intros H s a s' Hi HP E. eapply (H s HP); eauto. Qed.

Lemma spec_lift {A} (r : res A) Pre (Q : A -> S -> Prop) :
  (forall a s, r = Ok a -> Pre s -> Q a s) -> spec Pre (lift r) Q.
Proof using HR.
  intros H s a s' Hi HP. unfold lift. destruct r; try done. intros [= <- <-].
  split_and!; [done|done|auto].
Qed.

Lemma spec_gets {A} (f : S -> A) Pre (Q : A -> S -> Prop) :
  (forall s, inv s -> Pre s -> Q (f s) s) -> spec Pre (gets f) Q.
Proof using HR. intros H s a s' Hi HP [= <- <-]. split_and!; [done|done|auto]. Qed.

Lemma spec_modify (f : S -> S) Pre (Q : unit -> S -> Prop) :
  (forall s, inv s -> Pre s -> inv (f s) /\ R s (f s) /\ Q tt (f s)) -> spec Pre (modify f) Q.
Proof. intros H s a s' Hi HP [= <- <-]. auto. Qed.

Lemma spec_fail {A} Pre (Q : A -> S -> Prop) : spec Pre failM Q.
Proof. by intros s a s' _ _. Qed.

Lemma spec_ub {A} Pre (Q : A -> S -> Prop) : spec Pre ubM Q.
Proof. by intros s a s' _ _. Qed.

Lemma spec_for_each {X} (body : X -> M S unit) l Pre :
  Mono R Pre -> (forall x, x ∈ l -> spec Pre (body x) (fun _ _ => True)) ->
  spec Pre (for_eachM body l) (fun _ _ => True).
Proof using HR.
  intros HM. induction l as [|x l IH]; intros Hb; simpl; [by apply spec_ret|].
  eapply spec_bind; [done|apply Hb; left|]. intros [].
  eapply spec_conseq; [apply IH; intros y Hy; apply Hb; by right|by intros s []|done].
Qed.

Lemma spec_mapM {X Y} (body : X -> M S Y) l Pre (Q : Y -> S -> Prop) :
  Mono R Pre -> (forall y, Mono R (Q y)) ->
  (forall x, x ∈ l -> spec Pre (body x) Q) ->
  spec Pre (mapM_list body l) (fun ys s => Forall (fun y => Q y s) ys).
Proof using HR.
  intros HM HQ. induction l as [|x l IH]; intros Hb; simpl.
  { apply spec_ret. intros s _. by constructor. }
  eapply spec_bind; [done|apply Hb; left|]. intros y.
  eapply spec_bind; [by apply mono_and|eapply spec_conseq;
    [apply IH; intros z Hz; apply Hb; by right|by intros s []|intros a s Ha; exact Ha]|].
  intros ys. apply spec_ret. intros s [[_ Hy] Hys]. by constructor.
Qed.
End spec.

(** Steps of a [spec] goal, naming the invariant and the relation for resolution. *)
Ltac spec_bind_true :=
  match goal with |- @spec ?S ?I ?R _ _ (@mbind _ _ ?A _ _ _) _ =>
    apply (spec_bind I R) with (Q := fun (_ : A) (_ : S) => True); [apply _| |] end.
Ltac spec_bind_step :=
  match goal with |- spec ?I ?R _ _ _ => eapply (spec_bind I R); [apply _| |] end.
Ltac spec_weaken L :=
  match goal with |- spec ?I ?R _ _ _ => eapply (spec_conseq I R); [apply L| |] end.

Lemma spec_weaken_pre {S A} (inv : S -> Prop) R (m : M S A) (Pre Pre' : S -> Prop)
    (Q : A -> S -> Prop) :
  (forall s, Pre s -> Pre' s) -> spec inv R Pre' m Q -> spec inv R Pre m Q.
Proof. intros HP H s a s' Hi HPre. apply H; auto. Qed.

(** A fact proved without a precondition, used under any. *)
Lemma spec_any {S A} (inv : S -> Prop) R (m : M S A) (Pre : S -> Prop) (Q : A -> S -> Prop) :
  spec inv R (fun _ => True) m Q -> spec inv R Pre m Q.
Proof. intros H s a s' Hi _. by apply H. Qed.

Section spec_prims.
Context {S : Type} (inv : S -> Prop) (R : S -> S -> Prop).
Context {HR : PreOrder R}.

Lemma lift_spec {A} (r : res A) Pre : spec inv R Pre (lift r) (fun a _ => r = Ok a).
Proof using HR. by apply spec_lift. Qed.
Lemma derefM_spec {A} (o : option A) Pre : spec inv R Pre (derefM o) (fun a _ => o = Some a).
Proof using HR. apply spec_lift; [done|]. intros a s H _. by apply some_or_ub_Ok in H. Qed.
Lemma checkM_spec {A} (o : option A) Pre : spec inv R Pre (checkM o) (fun a _ => o = Some a).
Proof using HR. apply spec_lift; [done|]. intros a s H _. by apply some_or_fail_Ok in H. Qed.
Lemma guardM_spec c Pre : spec inv R Pre (guardM c) (fun _ _ => c = true).
Proof using HR. apply spec_lift; [done|]. intros a s H _. by apply guard_Ok in H. Qed.
Lemma assertM_spec c Pre : spec inv R Pre (assertM c) (fun _ _ => c = true).
Proof using HR. apply spec_lift; [done|]. intros a s H _. by destruct c. Qed.
Lemma gets_spec {A} (f : S -> A) Pre : spec inv R Pre (gets f) (fun _ _ => True).
Proof using HR. by apply spec_gets. Qed.
Lemma failM_spec {A} Pre (Q : A -> S -> Prop) : spec inv R Pre failM Q.
Proof. apply spec_fail. Qed.
Lemma ubM_spec {A} Pre (Q : A -> S -> Prop) : spec inv R Pre ubM Q.
Proof. apply spec_ub. Qed.
Lemma spec_mapM_true {X Y} (body : X -> M S Y) l Pre :
  Mono R Pre -> (forall x, x ∈ l -> spec inv R Pre (body x) (fun _ _ => True)) ->
  spec inv R Pre (mapM_list body l) (fun _ _ => True).
Proof using HR.
  intros HM Hb. eapply spec_post; [done|apply spec_mapM with (Q := fun _ _ => True)|done];
    [done|done|intros y; apply (mono_const R True)|done].
Qed.
End spec_prims.

Create HintDb spec.
#[export] Hint Resolve lift_spec derefM_spec checkM_spec guardM_spec assertM_spec gets_spec
  failM_spec ubM_spec : spec.

(** A known step, found in the [spec] database. *)
Ltac spec_known := solve [eauto 3 with spec typeclass_instances].

(** The facts gathered so far imply what is asked. *)
Ltac spec_facts :=
  intros; repeat match goal with H : _ /\ _ |- _ => destruct H end;
  subst; cbv beta in * |- *; try exact I; eauto with spec.

(** Symbolic execution of a routine whose steps all have a [spec]. *)
Ltac spec_run :=
  cbv beta zeta;
  lazymatch goal with
  | |- spec _ _ _ (mret _) _ => apply spec_ret; [apply _|spec_facts]
  | |- spec _ _ _ failM _ => apply spec_fail
  | |- spec _ _ _ ubM _ => apply spec_ub
  | |- spec _ _ _ (failM ≫= _) _ => intros ? ? ? _ _ ?; discriminate
  | |- spec _ _ _ (ubM ≫= _) _ => intros ? ? ? _ _ ?; discriminate
  | |- spec _ _ _ (_ ≫= _) _ =>
      first [ spec_bind_step; [spec_known|intros ?; spec_run]
            | spec_bind_true; [spec_run|intros ?; spec_run] ]
  | |- spec _ _ _ (match ?x with _ => _ end) _ => destruct x eqn:?; simplify_eq; spec_run
  | |- spec _ _ _ (for_eachM _ _) _ =>
      first [ apply spec_for_each; [apply _|apply _|intros ? ?; spec_run]
            | spec_weaken spec_for_each; [apply _|intros ? ?; spec_run|..] ]
  | |- spec _ _ _ (mapM_list _ _) (fun _ _ => True) =>
      apply spec_mapM_true; [apply _|apply _|intros ? ?; spec_run]
  | |- spec _ _ _ _ _ => first [ spec_known | spec_leaf ]
  end
with spec_leaf :=
  match goal with |- spec ?I ?R _ _ _ =>
    eapply (spec_post I R); [apply _|spec_known|spec_facts] end.

(** Inversion of the elementary steps of a completed run. *)
Section inversion.
Context {S : Type}.
Implicit Types (s : S).

Lemma guardM_inv c s u s' : guardM c s = Ok (u, s') -> c = true /\ s' = s.
Proof. unfold guardM, lift. destruct c; simpl; [|done]. by intros [= _ ->]. Qed.
Lemma assertM_inv c s u s' : assertM c s = Ok (u, s') -> c = true /\ s' = s.
Proof. unfold assertM, lift. destruct c; simpl; [|done]. by intros [= _ ->]. Qed.
Lemma derefM_inv {A} (o : option A) s a s' : derefM o s = Ok (a, s') -> o = Some a /\ s' = s.
Proof. unfold derefM, lift. destruct o; simpl; [|done]. by intros [= -> ->]. Qed.
Lemma checkM_inv {A} (o : option A) s a s' : checkM o s = Ok (a, s') -> o = Some a /\ s' = s.
Proof. unfold checkM, lift. destruct o; simpl; [|done]. by intros [= -> ->]. Qed.
Lemma lift_inv {A} (r : res A) s a s' : lift r s = Ok (a, s') -> r = Ok a /\ s' = s.
Proof. unfold lift. destruct r; simpl; [|done..]. by intros [= -> ->]. Qed.
Lemma gets_inv {A} (f : S -> A) s a s' : gets f s = Ok (a, s') -> a = f s /\ s' = s.
Proof. by intros [= <- <-]. Qed.
Lemma modify_inv (f : S -> S) s u s' : modify f s = Ok (u, s') -> s' = f s.
Proof. by intros [= _ <-]. Qed.
Lemma mret_inv {A} (x : A) s a s' : mret (M := M S) x s = Ok (a, s') -> a = x /\ s' = s.
Proof. by intros [= <- <-]. Qed.
End inversion.

Ltac inv_run :=
  repeat match goal with
  | H : (_ ≫= _) _ = Ok _ |- _ =>
      let E := fresh "E" in apply bindM_Ok in H as (? & ? & E & H)
  | H : guardM _ _ = Ok _ |- _ => apply guardM_inv in H as [? ?]; subst
  | H : assertM _ _ = Ok _ |- _ => apply assertM_inv in H as [? ?]; subst
  | H : derefM _ _ = Ok _ |- _ => apply derefM_inv in H as [? ?]; subst
  | H : checkM _ _ = Ok _ |- _ => apply checkM_inv in H as [? ?]; subst
  | H : lift _ _ = Ok _ |- _ => apply lift_inv in H as [? ?]; subst
  | H : gets _ _ = Ok _ |- _ => apply gets_inv in H as [? ?]; subst
  | H : modify _ _ = Ok _ |- _ => apply modify_inv in H; subst
  | H : mret _ _ = Ok _ |- _ => apply mret_inv in H as [? ?]; subst
  | H : failM _ = Ok _ |- _ => discriminate H
  | H : ubM _ = Ok _ |- _ => discriminate H
  end.

(** * Conditions that are computed

    [a <&&> b] and [a <||> b]: the operands are routines, and the second one only runs
    when the first one does not decide. *)
Declare Scope dxil_scope.
Section conditions.
Context {F : Type -> Type} `{!MRet F, !MBind F}.

Definition notm (a : F bool) : F bool := x ← a; mret (negb x).

(** [for (auto *x : l) if (f(x)) return true; return false;] *)
Fixpoint any_of {X} (f : X -> F bool) (l : list X) : F bool :=
  match l with
  | [] => mret false
  | x :: l' => b ← f x; if (b : bool) then mret true else any_of f l'
  end.
Definition all_of {X} (f : X -> F bool) (l : list X) : F bool := notm (any_of (fun x => notm (f x)) l).

(** [std::find_if] *)
Fixpoint find_m {X} (f : X -> F bool) (l : list X) : F (option X) :=
  match l with
  | [] => mret None
  | x :: l' => b ← f x; if (b : bool) then mret (Some x) else find_m f l'
  end.

(** [std::copy_if] *)
Fixpoint filter_m {X} (f : X -> F bool) (l : list X) : F (list X) :=
  match l with
  | [] => mret []
  | x :: l' => b ← f x; l'' ← filter_m f l'; mret (if (b : bool) then x :: l'' else l'')
  end.

(** The loop over [l] that threads a value. *)
Fixpoint fold_m {X A} (f : X -> A -> F A) (l : list X) (a : A) : F A :=
  match l with
  | [] => mret a
  | x :: l' => a' ← f x a; fold_m f l' a'
  end.

(** A loop of at most [2 ^ n] steps.  A step yields the next state or leaves with a result. *)
Fixpoint repeat_pow {A B} (n : nat) (body : A -> F (A + B)) (a : A) : F (A + B) :=
  match n with
  | O => body a
  | S n' =>
      r ← repeat_pow n' body a;
      match r with
      | inl a' => repeat_pow n' body a'
      | inr b => mret (inr b)
      end
  end.
End conditions.
Notation "a '<&&>' b" := (x ← a; if (x : bool) then b else mret false)
  (at level 40, left associativity) : dxil_scope.
Notation "a '<||>' b" := (x ← a; if (x : bool) then mret true else b)
  (at level 50, left associativity) : dxil_scope.
(** [if (a) return b; return c;] *)
Notation "'ifm' a 'then' b 'else' c" := (x ← a; if (x : bool) then b else c)
  (at level 10, a at level 200, b at level 200, c at level 200) : dxil_scope.

(** * Total correctness

    [runs m s Q]: from [s] the routine completes, and its result and final state satisfy
    [Q]. *)
Definition runs {S A} (m : M S A) (s : S) (Q : A -> S -> Prop) : Prop :=
  exists a s', m s = Ok (a, s') /\ Q a s'.

Section runs.
Context {S : Type}.
Implicit Types (s : S).

Lemma runs_ret {A} (a : A) s (Q : A -> S -> Prop) : Q a s -> runs (mret a) s Q.
Proof. intros H. by exists a, s. Qed.

Lemma runs_bind {A B} (m : M S A) (f : A -> M S B) s Q :
  runs m s (fun a s' => runs (f a) s' Q) -> runs (m ≫= f) s Q.
Proof.
  intros (a & s1 & E & b & s2 & E2 & HQ). exists b, s2. split; [|done].
  by rewrite (bindM_run _ _ _ _ _ E).
Qed.

Lemma runs_mono {A} (m : M S A) s (Q Q' : A -> S -> Prop) :
  runs m s Q -> (forall a s', Q a s' -> Q' a s') -> runs m s Q'.
Proof. intros (a & s' & ? & ?) HQ. exists a, s'. auto. Qed.

Lemma runs_gets {A} (f : S -> A) s (Q : A -> S -> Prop) : Q (f s) s -> runs (gets f) s Q.
Proof. intros H. by exists (f s), s. Qed.

Lemma runs_modify (f : S -> S) s (Q : unit -> S -> Prop) : Q tt (f s) -> runs (modify f) s Q.
Proof. intros H. by exists tt, (f s). Qed.

Lemma runs_lift {A} (r : res A) a s (Q : A -> S -> Prop) : r = Ok a -> Q a s -> runs (lift r) s Q.
Proof. intros -> ?. by exists a, s. Qed.

Lemma runs_assert c s (Q : unit -> S -> Prop) : c = true -> Q tt s -> runs (assertM c) s Q.
Proof. intros -> ?. by exists tt, s. Qed.

Lemma runs_deref {A} (o : option A) a s (Q : A -> S -> Prop) :
  o = Some a -> Q a s -> runs (derefM o) s Q.
Proof. intros -> ?. by exists a, s. Qed.

(** A loop with an invariant on the part of the list that was processed. *)
Lemma runs_for_each {X} (body : X -> M S unit) (I : list X -> S -> Prop) l s :
  I [] s ->
  (forall pre x post s, l = pre ++ x :: post -> I pre s ->
     runs (body x) s (fun _ s' => I (pre ++ [x]) s')) ->
  runs (for_eachM body l) s (fun _ s' => I l s').
Proof.
  intros H0 Hb.
  assert (forall post pre s, l = pre ++ post -> I pre s ->
    runs (for_eachM body post) s (fun _ s' => I l s')) as H; [|by apply (H l [])].
  clear H0 s. induction post as [|x post IH]; intros pre s E HI; simpl.
  - apply runs_ret. by rewrite app_nil_r in E; subst.
  - apply runs_bind. eapply runs_mono; [by eapply Hb|]. intros [] s' HI'.
    apply (IH (pre ++ [x])); [by rewrite <- app_assoc|done].
Qed.

(** A loop with a value and an invariant on the part that was processed. *)
Lemma runs_fold {X A} (f : X -> A -> M S A) (I : list X -> A -> S -> Prop) l a s :
  I [] a s ->
  (forall pre x post a s, l = pre ++ x :: post -> I pre a s ->
     runs (f x a) s (fun a' s' => I (pre ++ [x]) a' s')) ->
  runs (fold_m f l a) s (fun a' s' => I l a' s').
Proof.
  intros H0 Hf.
  assert (forall post pre a s, l = pre ++ post -> I pre a s ->
    runs (fold_m f post a) s (fun a' s' => I l a' s')) as H; [|by apply (H l [])].
  clear H0 a s. induction post as [|x post IH]; intros pre a s E HI; simpl.
  - apply runs_ret. by rewrite app_nil_r in E; subst.
  - apply runs_bind. eapply runs_mono; [by eapply Hf|]. intros a' s' HI'.
    apply (IH (pre ++ [x])); [by rewrite <- app_assoc|done].
Qed.

(** The loop [for_eachM] when it is known to complete. *)
Lemma for_eachM_Ok_inv {X} (body : X -> M S unit) (I : list X -> S -> Prop) l s u s' :
  for_eachM body l s = Ok (u, s') -> I [] s ->
  (forall pre x post s s' u, l = pre ++ x :: post -> I pre s -> body x s = Ok (u, s') ->
     I (pre ++ [x]) s') ->
  I l s'.
Proof.
  intros E H0 Hb.
  assert (forall post pre s, l = pre ++ post -> I pre s ->
    for_eachM body post s = Ok (u, s') -> I l s') as H; [|by apply (H l [] s)].
  clear H0 E s. induction post as [|x post IH]; intros pre s E HI; simpl.
  - intros [= _ <-]. by rewrite app_nil_r in E; subst.
  - intros ([] & s1 & E1 & E2)%bindM_Ok.
    eapply (IH (pre ++ [x])); [by rewrite <- app_assoc| |exact E2]. by eapply Hb.
Qed.
End runs.

Lemma runs_zoom {S T A} (get : S -> T) (set : T -> S -> S) (m : M T A) s (Q : A -> S -> Prop) :
  runs m (get s) (fun a t => Q a (set t s)) -> runs (zoom get set m) s Q.
Proof.
  intros (a & t & E & H). exists a, (set t s). split; [|done]. unfold zoom. by rewrite E.
Qed.

Lemma zoom_Ok {S T A} (get : S -> T) (set : T -> S -> S) (m : M T A) s a s' :
  zoom get set m s = Ok (a, s') <-> exists t, m (get s) = Ok (a, t) /\ s' = set t s.
Proof.
  unfold zoom. destruct (m (get s)) as [[b t]| |].
  - split; [intros [= -> <-]; eauto|]. by intros (? & [= -> ->] & ->).
  - split; [done|]. by intros (? & ? & _).
  - split; [done|]. by intros (? & ? & _).
Qed.

(** A counted loop that cannot fail. *)
Lemma for_from_total {S} (body : Z -> S -> res S) (I : Z -> S -> Prop) n i s :
  I i s ->
  (forall j s', (i <= j < i + Z.of_nat n)%Z -> I j s' ->
     exists s'', body j s' = Ok s'' /\ I (j + 1)%Z s'') ->
  exists s', for_from body i n s = Ok s' /\ I (i + Z.of_nat n)%Z s'.
Proof.
  revert i s; induction n as [|n IH]; intros i s Hs Hb; simpl.
  - exists s. by rewrite Z.add_0_r.
  - destruct (Hb i s) as (s1 & -> & H1); [lia|done|]. simpl.
    destruct (IH (i + 1)%Z s1 H1) as (s' & E & H'); [intros j t ?; apply Hb; lia|].
    exists s'. split; [done|]. replace (i + Z.of_nat (Datatypes.S n))%Z with (i + 1 + Z.of_nat n)%Z by lia.
    done.
Qed.

(** [(w & (1 << i)) != 0] *)
Lemma land_bit w i : (0 <= i)%Z -> negb (Z.land w (Z.shiftl 1 i) =? 0)%Z = Z.testbit w i.
Proof.
  intros Hi. rewrite Z.shiftl_1_l. destruct (Z.testbit w i) eqn:E.
  - apply negb_true_iff, Z.eqb_neq. intros Ez.
    assert (Z.testbit (Z.land w (2 ^ i)) i = false) as Hbit by (rewrite Ez; apply Z.bits_0).
    rewrite Z.land_spec, E, Z.pow2_bits_true in Hbit by lia. done.
  - apply negb_false_iff, Z.eqb_eq, Z.bits_inj'. intros j Hj.
    rewrite Z.land_spec, Z.bits_0, Z.pow2_bits_eqb by lia.
    destruct (Z.eqb_spec i j) as [<-|]; [by rewrite E|by rewrite andb_false_r].
Qed.
