(* ===== verification/IR.v ===== *)
(** The block representation the CFG passes work on (ir.hpp).

    [Operation] keeps its arguments in one buffer: [argument_capacity] words
    followed by a packed bit mask that tells literals from ids.  The buffer is
    modelled word by word, with the contents of fresh memory unspecified; the
    theorems show that it implements a list of arguments.  Which memory the buffer
    lives in (inline or allocated) and its release have no effect on the contents
    and are left out. *)
From S2P Require Import Prelude.
Local Open Scope Z_scope.

(** A [CFGNode *]: the index of the node in the pool. *)
Abbreviation nodref := nat (only parsing).
(** An [Operation *]: the index of the operation in the pool of the SPIR-V module.  A pass
    may put one operation into several blocks. *)
Abbreviation opref := nat (only parsing).

(** * enum MergeType, PHI nodes and terminators *)

Inductive MergeType := MergeNone | MergeLoop | MergeSelection.

#[export] Instance MergeType_eq_dec : EqDecision MergeType.
Proof. solve_decision. Defined.

Record MergeInfo := mkMergeInfo {
  merge_type : MergeType;
  merge_block : option nodref;
  continue_block : option nodref;
  loop_control_mask : Z;
  selection_control_mask : Z;
}.

Record IncomingValue := mkIncoming { incoming_block : option nodref; incoming_id : Z }.

Record PHI := mkPHI {
  phi_id : Z;
  phi_type_id : Z;
  phi_relaxed : bool;
  phi_incoming : list IncomingValue;
}.

Inductive TerminatorType :=
  TUnreachable | TBranch | TCondition | TSwitch | TReturn | TKill.

#[export] Instance TerminatorType_eq_dec : EqDecision TerminatorType.
Proof. solve_decision. Defined.

Record Case := mkCase {
  case_node : option nodref;
  global_order : Z;
  case_value : Z;
  is_default : bool;
}.

Record Terminator := mkTerminator {
  conditional_id : Z;
  term_type : TerminatorType;
  direct_block : option nodref;
  true_block : option nodref;
  false_block : option nodref;
  cases : list Case;
  return_value : Z;
  force_unroll : bool;
  force_loop : bool;
  force_flatten : bool;
  force_branch : bool;
}.

Definition Terminator_default : Terminator :=
  mkTerminator 0 TUnreachable None None None [] 0 false false false false.

Definition MergeInfo_default : MergeInfo := mkMergeInfo MergeNone None None 0 0.

(** * struct Operation *)

Record Operation := mkOperation {
  op : Z;
  op_id : Z;
  op_type_id : Z;
  flags : Z;
  arguments : list Z;
  argument_count : Z;
  argument_capacity : Z;
}.

Record IRBlock := mkIRBlock {
  phi : list PHI;
  operations : list opref;
  merge_info : MergeInfo;
  terminator : Terminator;
}.

Definition IRBlock_default : IRBlock := mkIRBlock [] [] MergeInfo_default Terminator_default.

Definition InlineArguments : Z := 7.

Definition get_literal_word_count (count : Z) : Z := u32 (count + 31) / 32.

Definition set_buffer (o : Operation) (words : list Z) (count capacity : Z) : Operation :=
  mkOperation (op o) (op_id o) (op_type_id o) (flags o) words count capacity.

(** [buffer[i] = v] *)
Definition store (words : list Z) (i v : Z) : res (list Z) :=
  _ ← assert_res ((0 <=? i) && (i <? zlength words));
  Ok (<[Z.to_nat i := v]> words).

(** [memcpy(dst + d, src + s, 4 * n)] between different buffers. *)
Definition copy_words (dst : list Z) (d : Z) (src : list Z) (s n : Z) : res (list Z) :=
  _ ← assert_res ((0 <=? s) && (0 <=? n) && (s + n <=? zlength src) &&
                  (0 <=? d) && (d + n <=? zlength dst));
  Ok (take (Z.to_nat d) dst ++ take (Z.to_nat n) (drop (Z.to_nat s) src) ++
      drop (Z.to_nat (d + n)) dst).

(** [memset(dst + d, 0, 4 * n)] *)
Definition zero_words (dst : list Z) (d n : Z) : res (list Z) :=
  copy_words dst d (replicate (Z.to_nat n) 0) 0 n.

Section with_memory.
(** The contents of [n] words of memory that was not written to yet. *)
Variable fresh : nat -> list Z.

Definition Operation_new (code id type_id : Z) : Operation :=
  mkOperation code id type_id 0
    (fresh (Z.to_nat (InlineArguments + get_literal_word_count InlineArguments)))
    0 InlineArguments.

Definition reserve_arguments (o : Operation) (count : Z) : res Operation :=
  if count <=? argument_capacity o then Ok o
  else
    let literal_word_count := get_literal_word_count count in
    let new_values := fresh (Z.to_nat (count + literal_word_count)) in
    new_values ← copy_words new_values 0 (arguments o) 0 (argument_count o);
    new_values ← zero_words new_values count literal_word_count;
    new_values ← copy_words new_values count (arguments o) (argument_capacity o)
                   (get_literal_word_count (argument_count o));
    Ok (set_buffer o new_values (argument_count o) count).

(** The private [add_argument]. *)
Definition add_argument (o : Operation) (value : Z) (literal : bool) : res Operation :=
  o ← (if argument_count o =? argument_capacity o
       then reserve_arguments o (u32 (argument_capacity o * 2)) else Ok o);
  let index := argument_count o in
  words ← store (arguments o) index value;
  let at_ := argument_capacity o + index / 32 in
  literal_word ← some_or_ub (zlookup words at_);
  let literal_bit := Z.shiftl 1 (index mod 32) in
  words ← store words at_ (if literal then Z.lor literal_word literal_bit
                           else Z.land literal_word (u32 (Z.lnot literal_bit)));
  Ok (set_buffer o words (index + 1) (argument_capacity o)).

Definition add_id (o : Operation) (arg : Z) : res Operation :=
  _ ← assert_res (negb (arg =? 0));
  add_argument o arg false.

Definition add_literal (o : Operation) (lit : Z) : res Operation := add_argument o lit true.

Definition add_ids (o : Operation) (args : list Z) : res Operation :=
  o ← reserve_arguments o (u32 (argument_count o + zlength args));
  for_each (fun arg o => add_id o arg) args o.

Definition num_arguments (o : Operation) : Z := argument_count o.

Definition argument (o : Operation) (index : Z) : res Z :=
  _ ← assert_res (index <? argument_count o);
  some_or_ub (zlookup (arguments o) index).

Definition argument_is_literal (o : Operation) (index : Z) : res bool :=
  _ ← assert_res (index <? argument_count o);
  word ← some_or_ub (zlookup (arguments o) (argument_capacity o + index / 32));
  Ok (negb (Z.land word (Z.shiftl 1 (index mod 32)) =? 0)).

Definition set_argument (o : Operation) (index value : Z) : res Operation :=
  _ ← assert_res (index <? argument_count o);
  literal ← argument_is_literal o index;
  _ ← assert_res (literal || negb (value =? 0));
  words ← store (arguments o) index value;
  Ok (set_buffer o words (argument_count o) (argument_capacity o)).

Definition copy_from (o other : Operation) : res Operation :=
  let o := mkOperation (op other) (op_id other) (op_type_id other) (flags other)
             (arguments o) (argument_count o) (argument_capacity o) in
  o ← reserve_arguments o (argument_count other);
  words ← copy_words (arguments o) 0 (arguments other) 0 (argument_count other);
  words ← copy_words words (argument_capacity o) (arguments other) (argument_capacity other)
            (get_literal_word_count (argument_count other));
  Ok (set_buffer o words (argument_count other) (argument_capacity o)).

End with_memory.

(** * What the buffer stands for *)

(** The [i]-th argument and its literal bit. *)
Definition word (o : Operation) (i : Z) : Z := default 0 (zlookup (arguments o) i).
Definition arg_at (o : Operation) (i : Z) : Z * bool :=
  (word o i, Z.testbit (word o (argument_capacity o + i / 32)) (i mod 32)).

(** The argument list: values paired with whether they are literals. *)
Definition contents (o : Operation) : list (Z * bool) :=
  (fun i => arg_at o (Z.of_nat i)) <$> seq 0 (Z.to_nat (argument_count o)).

Definition op_wf (o : Operation) : Prop :=
  0 <= argument_count o <= argument_capacity o /\
  InlineArguments <= argument_capacity o < 2 ^ 31 /\
  zlength (arguments o) = argument_capacity o + get_literal_word_count (argument_capacity o).

Definition same_header (o o' : Operation) : Prop :=
  op o' = op o /\ op_id o' = op_id o /\ op_type_id o' = op_type_id o /\ flags o' = flags o.

#[export] Instance same_header_po : PreOrder same_header.
Proof. split; [done|]. intros a b c (?&?&?&?) (?&?&?&?). unfold same_header. intuition congruence. Qed.

(** The argument interface as a type, and the list semantics each call should have:
    [None] when an [assert] of the code rejects it. *)
Inductive OpCall :=
| AddId (arg : Z)
| AddLiteral (lit : Z)
| AddIds (args : list Z)
| Reserve (count : Z)
| SetArgument (index value : Z)
| CopyFrom (other : Operation).

Definition run_call (fresh : nat -> list Z) (o : Operation) (c : OpCall) : res Operation :=
  match c with
  | AddId arg => add_id fresh o arg
  | AddLiteral lit => add_literal fresh o lit
  | AddIds args => add_ids fresh o args
  | Reserve count => reserve_arguments fresh o count
  | SetArgument index value => set_argument o index value
  | CopyFrom other => copy_from fresh o other
  end.

Definition list_call (l : list (Z * bool)) (c : OpCall) : option (list (Z * bool)) :=
  match c with
  | AddId arg => if arg =? 0 then None else Some (l ++ [(arg, false)])
  | AddLiteral lit => Some (l ++ [(lit, true)])
  | AddIds args => if existsb (Z.eqb 0) args then None
                   else Some (l ++ ((fun a => (a, false)) <$> args))
  | Reserve _ => Some l
  | SetArgument index value =>
      '(_, literal) ← zlookup l index;
      if literal || negb (value =? 0)
      then Some (<[Z.to_nat index := (value, literal)]> l) else None
  | CopyFrom other => Some (contents other)
  end.

(** Sizes that stay below 2^31: [unsigned] arithmetic does not wrap. *)
Definition call_fits (l : list (Z * bool)) (c : OpCall) : Prop :=
  match c with
  | AddId _ | AddLiteral _ => zlength l < 2 ^ 30
  | AddIds args => zlength l + zlength args < 2 ^ 30
  | Reserve count => count < 2 ^ 31
  | SetArgument index _ => 0 <= index
  | CopyFrom other => op_wf other
  end.

(** * Buffer lemmas *)

Lemma word_count_small c : 0 <= c < 2 ^ 31 -> get_literal_word_count c = (c + 31) / 32.
Proof. intros. unfold get_literal_word_count. rewrite u32_small by lia. done. Qed.

(** Every index below the capacity has its mask word. *)
Lemma mask_index i c : 0 <= i < c -> 0 <= i / 32 < (c + 31) / 32.
Proof. intros. Z.to_euclidean_division_equations; lia. Qed.

Lemma zlookup_lt_Some {A} (l : list A) i :
  0 <= i < zlength l -> exists x, zlookup l i = Some x.
Proof. intros. by apply zlookup_is_Some. Qed.

Lemma zlookup_insert {A} (l : list A) i j (x : A) :
  0 <= i < zlength l -> 0 <= j ->
  zlookup (<[Z.to_nat i := x]> l) j = if i =? j then Some x else zlookup l j.
Proof.
  unfold zlookup, zlength. intros Hi Hj. destruct (Z.leb_spec 0 j); [|lia].
  destruct (Z.eqb_spec i j) as [->|].
  - apply list_lookup_insert_eq. lia.
  - apply list_lookup_insert_ne. lia.
Qed.

Lemma store_spec words i v :
  0 <= i < zlength words ->
  exists words', store words i v = Ok words' /\ zlength words' = zlength words /\
    forall j, 0 <= j -> zlookup words' j = if i =? j then Some v else zlookup words j.
Proof.
  intros Hi. unfold store.
  replace ((0 <=? i) && (i <? zlength words)) with true by (symmetry; bool_case; done || lia).
  eexists. split; [reflexivity|]. split.
  - unfold zlength. by rewrite length_insert.
  - intros j Hj. by apply zlookup_insert.
Qed.

Lemma zlookup_copy {A} (dst src : list A) d s n j :
  0 <= s -> 0 <= n -> s + n <= zlength src -> 0 <= d -> d + n <= zlength dst -> 0 <= j ->
  zlookup (take (Z.to_nat d) dst ++ take (Z.to_nat n) (drop (Z.to_nat s) src) ++
           drop (Z.to_nat (d + n)) dst) j =
  if (d <=? j) && (j <? d + n) then zlookup src (s + (j - d)) else zlookup dst j.
Proof.
  unfold zlookup, zlength. intros Hs Hn Hsn Hd Hdn Hj.
  destruct (Z.leb_spec 0 j); [|lia].
  assert (length (take (Z.to_nat d) dst) = Z.to_nat d) as Hl1 by (rewrite length_take; lia).
  assert (length (take (Z.to_nat n) (drop (Z.to_nat s) src)) = Z.to_nat n) as Hl2
    by (rewrite length_take, length_drop; lia).
  destruct (Z.leb_spec d j); simpl.
  - rewrite lookup_app_r by lia. rewrite Hl1. destruct (Z.ltb_spec j (d + n)).
    + destruct (Z.leb_spec 0 (s + (j - d))); [|lia].
      rewrite lookup_app_l by lia. rewrite lookup_take, lookup_drop.
      case_decide; [|lia]. f_equal. lia.
    + rewrite lookup_app_r by lia. rewrite Hl2, lookup_drop. f_equal. lia.
  - rewrite lookup_app_l by lia. rewrite lookup_take. case_decide; [done|lia].
Qed.

Lemma copy_words_spec dst d src s n :
  0 <= s -> 0 <= n -> s + n <= zlength src -> 0 <= d -> d + n <= zlength dst ->
  exists r, copy_words dst d src s n = Ok r /\ zlength r = zlength dst /\
    forall j, 0 <= j ->
      zlookup r j = if (d <=? j) && (j <? d + n) then zlookup src (s + (j - d)) else zlookup dst j.
Proof.
  intros Hs Hn Hsn Hd Hdn. unfold copy_words.
  replace (_ && _ && _ && _ && _) with true.
  2:{ symmetry. rewrite !andb_true_iff, !Z.leb_le. lia. }
  eexists. split; [reflexivity|]. split.
  - unfold zlength in *. rewrite !length_app, !length_take, !length_drop. lia.
  - intros j Hj. by apply zlookup_copy.
Qed.

Section with_memory_laws.
Variable fresh : nat -> list Z.
Hypothesis fresh_length : forall n, length (fresh n) = n.

Lemma zlength_fresh n : 0 <= n -> zlength (fresh (Z.to_nat n)) = n.
Proof using fresh_length. intros. unfold zlength. rewrite fresh_length. lia. Qed.

Lemma contents_ext o o' :
  argument_count o' = argument_count o ->
  (forall i, 0 <= i < argument_count o -> arg_at o' i = arg_at o i) ->
  contents o' = contents o.
Proof using Type.
  intros Hc H. unfold contents. rewrite Hc. apply list_fmap_ext.
  intros k i [-> Hi]%lookup_seq. apply H. lia.
Qed.

Lemma zlength_contents o : 0 <= argument_count o -> zlength (contents o) = argument_count o.
Proof using Type. intros. unfold contents, zlength. rewrite length_fmap, length_seq. lia. Qed.

Lemma reserve_arguments_spec o count :
  op_wf o -> count < 2 ^ 31 ->
  exists o', reserve_arguments fresh o count = Ok o' /\ op_wf o' /\ contents o' = contents o /\
    argument_count o' = argument_count o /\ argument_capacity o' = Z.max (argument_capacity o) count /\
    same_header o o'.
Proof using fresh_length.
  intros Hwf Hcount. unfold reserve_arguments.
  destruct (Z.leb_spec count (argument_capacity o)).
  { exists o. split_and!; [done..|lia|done]. }
  destruct Hwf as (Hn & Hcap & Hlen). unfold InlineArguments in *.
  rewrite (word_count_small count) by lia. rewrite word_count_small in Hlen |- * by lia.
  set (N := argument_count o) in *. set (C := argument_capacity o) in *.
  assert (0 <= (count + 31) / 32) by (apply Z.div_pos; lia).
  assert ((N + 31) / 32 <= (C + 31) / 32) by (apply Z.div_le_mono; lia).
  assert ((C + 31) / 32 <= (count + 31) / 32) by (apply Z.div_le_mono; lia).
  assert (0 <= (N + 31) / 32) by (apply Z.div_pos; lia).
  destruct (copy_words_spec (fresh (Z.to_nat (count + (count + 31) / 32))) 0 (arguments o) 0 N)
    as (r1 & -> & L1 & E1); rewrite ?zlength_fresh in * by lia; [lia..|]. simpl.
  unfold zero_words.
  destruct (copy_words_spec r1 count (replicate (Z.to_nat ((count + 31) / 32)) 0) 0 ((count + 31) / 32))
    as (r2 & -> & L2 & E2); [try (unfold zlength; rewrite length_replicate); lia..|]. simpl.
  destruct (copy_words_spec r2 count (arguments o) C ((N + 31) / 32))
    as (r3 & -> & L3 & E3); [lia..|]. simpl.
  eexists. split; [reflexivity|]. split.
  { unfold op_wf, InlineArguments. simpl. rewrite word_count_small by lia. lia. }
  split; [|simpl; split_and!; [done|lia|done]].
  apply contents_ext; [done|]. fold N. intros i Hi. unfold arg_at, word. simpl. fold C.
  destruct (mask_index i N Hi). rewrite E3, E2, E1, E3 by lia.
  repeat match goal with |- context [?b && ?c] =>
    let H := fresh in destruct (b && c) eqn:H;
    rewrite ?andb_true_iff, ?andb_false_iff, ?Z.leb_le, ?Z.leb_gt, ?Z.ltb_lt, ?Z.ltb_ge in H end;
    try lia.
  f_equal; [do 2 f_equal; lia|]. f_equal. do 2 f_equal. lia.
Qed.

(** Setting or clearing bit [i] of a mask word. *)
Lemma testbit_mask w (literal : bool) i j :
  0 <= i < 32 -> 0 <= j < 32 ->
  Z.testbit (if literal then Z.lor w (Z.shiftl 1 i) else Z.land w (u32 (Z.lnot (Z.shiftl 1 i)))) j =
  if i =? j then literal else Z.testbit w j.
Proof using Type.
  intros Hi Hj.
  assert (forall x, Z.testbit (u32 x) j = Z.testbit x j) as Hu
    by (intros; unfold u32, wrap; rewrite Z.mod_pow2_bits_low by lia; done).
  assert (Z.testbit (Z.shiftl 1 i) j = (i =? j)) as Hb.
  { rewrite Z.shiftl_1_l, Z.pow2_bits_eqb by lia. done. }
  destruct literal; rewrite ?Z.lor_spec, ?Z.land_spec, ?Hu, ?Z.lnot_spec, ?Hb by lia;
    destruct (i =? j), (Z.testbit w j); done.
Qed.

Lemma add_argument_spec o value literal :
  op_wf o -> argument_count o < 2 ^ 30 ->
  exists o', add_argument fresh o value literal = Ok o' /\ op_wf o' /\
    contents o' = contents o ++ [(value, literal)] /\ same_header o o'.
Proof using fresh_length.
  intros Hwf0 Hsmall. unfold add_argument.
  assert (exists o1, (if argument_count o =? argument_capacity o
      then reserve_arguments fresh o (u32 (argument_capacity o * 2)) else Ok o) = Ok o1 /\
    op_wf o1 /\ contents o1 = contents o /\ argument_count o1 = argument_count o /\
    argument_count o1 < argument_capacity o1 /\ same_header o o1) as
    (o1 & -> & Hwf & <- & HN & Hlt & Hh).
  { destruct (Z.eqb_spec (argument_count o) (argument_capacity o)) as [E|E].
    - pose proof Hwf0 as (Hn & Hcap & Hlen). unfold InlineArguments in Hcap. rewrite u32_small by lia.
      destruct (reserve_arguments_spec o (argument_capacity o * 2)) as
        (o1 & -> & ? & ? & ? & ? & ?); [done|lia|].
      exists o1. split_and!; [done..|lia|done].
    - exists o. split_and!; [done..|destruct Hwf0; lia|done]. }
  destruct Hwf as (Hn & Hcap & Hlen). simpl. unfold InlineArguments in Hcap.
  rewrite word_count_small in Hlen by lia.
  set (N := argument_count o1) in *. set (C := argument_capacity o1) in *.
  destruct (mask_index N C) as [Hm1 Hm2]; [lia|].
  destruct (store_spec (arguments o1) N value) as (w1 & -> & L1 & E1); [lia|]. simpl.
  destruct (zlookup_lt_Some w1 (C + N / 32)) as [lw Hlw]; [lia|]. rewrite Hlw. simpl.
  destruct (store_spec w1 (C + N / 32)
    (if literal then Z.lor lw (Z.shiftl 1 (N mod 32))
     else Z.land lw (u32 (Z.lnot (Z.shiftl 1 (N mod 32)))))) as (w2 & -> & L2 & E2); [lia|]. simpl.
  eexists. split; [reflexivity|].
  split; [unfold op_wf, InlineArguments; simpl; rewrite word_count_small by lia; lia|].
  split; [|done].
  pose proof (Z.mod_pos_bound N 32 ltac:(lia)) as Hmod.
  unfold contents. simpl. fold N. replace (Z.to_nat (N + 1)) with (S (Z.to_nat N)) by lia.
  rewrite seq_S, fmap_app. f_equal.
  - apply list_fmap_ext. intros k i [-> Hi]%lookup_seq. rewrite Nat.add_0_l in *.
    unfold arg_at, word. simpl. fold C.
    destruct (mask_index (Z.of_nat k) N) as [Hi1 Hi2]; [lia|].
    rewrite !E2 by lia. destruct (Z.eqb_spec (C + N / 32) (Z.of_nat k)); [lia|].
    rewrite E1 by lia. destruct (Z.eqb_spec N (Z.of_nat k)); [lia|]. f_equal.
    destruct (Z.eqb_spec (C + N / 32) (C + Z.of_nat k / 32)) as [Eq|Eq]; simpl.
    + rewrite testbit_mask by (try lia; apply Z.mod_pos_bound; lia).
      destruct (Z.eqb_spec (N mod 32) (Z.of_nat k mod 32)).
      { exfalso. Z.to_euclidean_division_equations; lia. }
      f_equal. rewrite E1 in Hlw by lia.
      destruct (Z.eqb_spec N (C + N / 32)); [lia|]. by rewrite <- Eq, Hlw.
    + rewrite E1 by lia. by destruct (Z.eqb_spec N (C + Z.of_nat k / 32)); [lia|].
  - simpl. unfold arg_at, word. simpl. fold C. rewrite Z2Nat.id by lia.
    rewrite !E2, E1, Z.eqb_refl by lia. destruct (Z.eqb_spec (C + N / 32) N); [lia|].
    rewrite Z.eqb_refl. simpl. by rewrite testbit_mask, Z.eqb_refl by lia.
Qed.

Lemma add_id_spec o arg :
  op_wf o -> argument_count o < 2 ^ 30 -> arg <> 0 ->
  exists o', add_id fresh o arg = Ok o' /\ op_wf o' /\
    contents o' = contents o ++ [(arg, false)] /\ same_header o o'.
Proof using fresh_length.
  intros Hwf Hs Ha. unfold add_id. replace (arg =? 0) with false by (by destruct (Z.eqb_spec arg 0)).
  by apply add_argument_spec.
Qed.

Lemma count_of_contents o o' k :
  op_wf o -> op_wf o' -> zlength (contents o') = zlength (contents o) + k ->
  argument_count o' = argument_count o + k.
Proof using Type. intros [? _] [? _]. by rewrite !zlength_contents by lia. Qed.

(** The loop of [add_ids]: it stops at the first zero id. *)
Lemma add_ids_loop args o :
  op_wf o -> argument_count o + zlength args < 2 ^ 30 ->
  if existsb (Z.eqb 0) args
  then for_each (fun arg o => add_id fresh o arg) args o = UB
  else exists o', for_each (fun arg o => add_id fresh o arg) args o = Ok o' /\ op_wf o' /\
    contents o' = contents o ++ ((fun a => (a, false)) <$> args) /\ same_header o o'.
Proof using fresh_length.
  revert o; induction args as [|a args IH]; intros o Hwf Hs; cbn [existsb for_each].
  { exists o. split_and!; [done..|by rewrite app_nil_r|done]. }
  destruct (Z.eqb_spec 0 a) as [<-|Ha]; cbn [orb]; [done|].
  unfold zlength in Hs. simpl in Hs. pose proof Hwf as [? _].
  destruct (add_id_spec o a) as (o1 & E & Hwf1 & Hc & Hh); [done|lia|done|].
  rewrite E. cbn [mbind res_bind].
  assert (argument_count o1 = argument_count o + 1) as Hn.
  { apply count_of_contents; [done..|]. rewrite Hc, zlength_app. done. }
  specialize (IH o1 Hwf1). unfold zlength in IH. specialize (IH ltac:(lia)).
  destruct (existsb _ args); [done|]. destruct IH as (o' & -> & ? & Hc' & ?).
  exists o'. split_and!; [done..|by rewrite Hc', Hc, <- app_assoc|by etrans].
Qed.

Lemma argument_spec o i :
  op_wf o -> 0 <= i ->
  argument o i = (match zlookup (contents o) i with Some (v, _) => Ok v | None => UB end) /\
  argument_is_literal o i = (match zlookup (contents o) i with Some (_, l) => Ok l | None => UB end).
Proof using Type.
  intros (Hn & Hcap & Hlen) Hi. unfold argument, argument_is_literal, InlineArguments in *.
  rewrite word_count_small in Hlen by lia.
  assert (zlookup (contents o) i = if i <? argument_count o then Some (arg_at o i) else None) as ->.
  { unfold zlookup, contents. destruct (Z.leb_spec 0 i); [|lia]. rewrite list_lookup_fmap.
    destruct (Z.ltb_spec i (argument_count o)).
    - rewrite lookup_seq_lt by lia. simpl. do 2 f_equal. lia.
    - rewrite lookup_seq_ge by lia. done. }
  destruct (Z.ltb_spec i (argument_count o)); simpl; [|done].
  destruct (mask_index i (argument_count o)); [lia|].
  assert ((argument_count o + 31) / 32 <= (argument_capacity o + 31) / 32) by (apply Z.div_le_mono; lia).
  unfold arg_at, word.
  destruct (zlookup_lt_Some (arguments o) i) as [x ->]; [lia|].
  destruct (zlookup_lt_Some (arguments o) (argument_capacity o + i / 32)) as [y ->]; [lia|].
  simpl. split; [done|]. f_equal. apply land_bit. apply Z.mod_pos_bound. lia.
Qed.

Lemma zlookup_contents_Some o i x :
  op_wf o -> zlookup (contents o) i = Some x -> 0 <= i < argument_count o.
Proof using Type. intros [Hn _] H%zlookup_Some_lt. by rewrite zlength_contents in H by lia. Qed.

Lemma set_argument_spec o i v :
  op_wf o -> 0 <= i ->
  match zlookup (contents o) i with
  | Some (_, literal) =>
      if literal || negb (v =? 0)
      then exists o', set_argument o i v = Ok o' /\ op_wf o' /\
             contents o' = <[Z.to_nat i := (v, literal)]> (contents o) /\ same_header o o'
      else set_argument o i v = UB
  | None => set_argument o i v = UB
  end.
Proof using Type.
  intros Hwf Hi. destruct (argument_spec o i Hwf Hi) as [_ Hlit]. unfold set_argument.
  destruct (zlookup (contents o) i) as [[w literal]|] eqn:E.
  2:{ destruct (i <? argument_count o); [simpl; by rewrite Hlit|done]. }
  pose proof (zlookup_contents_Some _ _ _ Hwf E) as Hr.
  destruct (Z.ltb_spec i (argument_count o)); [simpl|lia]. rewrite Hlit. simpl.
  destruct (literal || negb (v =? 0)); [simpl|done].
  pose proof Hwf as (Hn & Hcap & Hlen). unfold InlineArguments in *.
  rewrite word_count_small in Hlen by lia.
  assert (0 <= (argument_capacity o + 31) / 32) by (apply Z.div_pos; lia).
  destruct (store_spec (arguments o) i v) as (w1 & -> & L1 & E1); [lia|]. simpl.
  eexists. split; [reflexivity|].
  split; [unfold op_wf, InlineArguments; simpl; rewrite word_count_small by lia; lia|].
  split; [|done]. apply list_eq. intros k.
  assert (forall j, 0 <= j < argument_count o -> 0 <= j / 32) as Hdiv by (intros; apply Z.div_pos; lia).
  destruct (decide (k < Z.to_nat (argument_count o))%nat) as [Hk|Hk].
  - unfold contents at 1. rewrite list_lookup_fmap, lookup_seq_lt by (simpl; lia). simpl.
    specialize (Hdiv (Z.of_nat k) ltac:(lia)).
    unfold arg_at at 1, word. simpl. rewrite !E1 by lia.
    destruct (Z.eqb_spec i (argument_capacity o + Z.of_nat k / 32)); [lia|].
    assert (contents o !! k = Some (arg_at o (Z.of_nat k))) as Ek
      by (unfold contents; by rewrite list_lookup_fmap, lookup_seq_lt by lia).
    destruct (Z.eqb_spec i (Z.of_nat k)) as [->|].
    + rewrite Nat2Z.id, list_lookup_insert_eq by (apply lookup_lt_is_Some; by rewrite Ek).
      simpl. unfold zlookup in E. destruct (Z.leb_spec 0 (Z.of_nat k)); [|lia].
      rewrite Nat2Z.id, Ek in E. injection E as <- <-. done.
    + rewrite list_lookup_insert_ne by lia. by rewrite Ek.
  - rewrite !lookup_ge_None_2; [done|rewrite length_insert|];
      unfold contents; rewrite length_fmap, length_seq; simpl; lia.
Qed.

Lemma copy_from_spec o other :
  op_wf o -> op_wf other ->
  exists o', copy_from fresh o other = Ok o' /\ op_wf o' /\
    contents o' = contents other /\ same_header other o'.
Proof using fresh_length.
  intros Hwf Hother. unfold copy_from.
  pose proof Hother as (Hn2 & Hcap2 & Hlen2). unfold InlineArguments in Hcap2.
  edestruct (reserve_arguments_spec (mkOperation (op other) (op_id other) (op_type_id other)
    (flags other) (arguments o) (argument_count o) (argument_capacity o)) (argument_count other))
    as (o1 & -> & (Hn & Hcap & Hlen) & _ & _ & Hmax & Hh); [exact Hwf|lia|].
  simpl in *. unfold InlineArguments in Hcap.
  rewrite word_count_small in Hlen, Hlen2 by lia. rewrite word_count_small by lia.
  set (N := argument_count other) in *. set (C := argument_capacity o1) in *.
  set (C2 := argument_capacity other) in *.
  assert ((N + 31) / 32 <= (C2 + 31) / 32) by (apply Z.div_le_mono; lia).
  assert ((N + 31) / 32 <= (C + 31) / 32) by (apply Z.div_le_mono; lia).
  assert (0 <= (N + 31) / 32) by (apply Z.div_pos; lia).
  destruct (copy_words_spec (arguments o1) 0 (arguments other) 0 N) as (w1 & -> & L1 & E1); [lia..|].
  simpl.
  destruct (copy_words_spec w1 C (arguments other) C2 ((N + 31) / 32)) as (w2 & -> & L2 & E2); [lia..|].
  simpl. eexists. split; [reflexivity|].
  split; [unfold op_wf, InlineArguments; simpl; rewrite word_count_small by lia; lia|].
  split; [|exact Hh]. apply contents_ext; [done|]. fold N. intros i Hi.
  unfold arg_at, word. simpl. fold C C2. destruct (mask_index i N Hi).
  rewrite !E2, !E1 by lia.
  repeat match goal with |- context [?b && ?c] =>
    let H := fresh in destruct (b && c) eqn:H;
    rewrite ?andb_true_iff, ?andb_false_iff, ?Z.leb_le, ?Z.leb_gt, ?Z.ltb_lt, ?Z.ltb_ge in H end;
    try lia.
  f_equal; [do 2 f_equal; lia|]. f_equal. do 2 f_equal. lia.
Qed.

Lemma add_ids_spec o args :
  op_wf o -> argument_count o + zlength args < 2 ^ 30 ->
  if existsb (Z.eqb 0) args then add_ids fresh o args = UB
  else exists o', add_ids fresh o args = Ok o' /\ op_wf o' /\
    contents o' = contents o ++ ((fun a => (a, false)) <$> args) /\ same_header o o'.
Proof using fresh_length.
  intros Hwf Hs. pose proof (zlength_nonneg args). unfold add_ids.
  pose proof Hwf as [Hn _]. rewrite u32_small by lia.
  destruct (reserve_arguments_spec o (argument_count o + zlength args)) as
    (o1 & -> & Hwf1 & <- & Hc & _ & Hh); [done|lia|]. simpl.
  pose proof (add_ids_loop args o1 Hwf1 ltac:(lia)) as Hl.
  destruct (existsb _ args); [done|]. destruct Hl as (o' & -> & ? & ? & ?).
  exists o'. split_and!; [done..|by etrans].
Qed.

End with_memory_laws.

(** C35. The argument buffer of [Operation] implements a list.  Whatever fresh memory
    contains, every call of its interface on a well-formed operation does to the
    arguments exactly what the list semantics says, keeps the operation well-formed, and
    is rejected (a failed [assert]) exactly when the list semantics rejects it. *)
Theorem operation_refines_list fresh o c :
  (forall n, length (fresh n) = n) -> op_wf o -> call_fits (contents o) c ->
  match list_call (contents o) c with
  | Some l => exists o', run_call fresh o c = Ok o' /\ op_wf o' /\ contents o' = l
  | None => run_call fresh o c = UB
  end.
Proof.
  intros Hf Hwf. pose proof Hwf as [Hn _]. destruct c as [a|a|args|n|i v|other]; simpl; intros Hs;
    rewrite ?zlength_contents in Hs by lia.
  - destruct (Z.eqb_spec a 0) as [->|]; [done|].
    destruct (add_id_spec fresh Hf o a) as (o' & ? & ? & ? & _); eauto.
  - destruct (add_argument_spec fresh Hf o a true) as (o' & ? & ? & ? & _); eauto.
  - pose proof (add_ids_spec fresh Hf o args Hwf Hs).
    destruct (existsb _ args); [done|]. naive_solver.
  - destruct (reserve_arguments_spec fresh Hf o n) as (o' & ? & ? & ? & _); eauto.
  - pose proof (set_argument_spec o i v Hwf Hs).
    destruct (zlookup (contents o) i) as [[w l]|]; simpl; [|done].
    destruct (l || _); naive_solver.
  - destruct (copy_from_spec fresh Hf o other) as (o' & ? & ? & ? & _); eauto.
Qed.

(** Fresh memory full of ones. *)
Definition dirty_memory (n : nat) : list Z := replicate n (2 ^ 32 - 1).

Definition sample_operation : Operation :=
  match for_each (fun a o => add_argument dirty_memory o a (Z.odd a)) [1; 2; 3; 4; 5; 6; 7]
          (Operation_new dirty_memory 61 9 4) with
  | Ok o => o
  | _ => Operation_new dirty_memory 0 0 0
  end.

Lemma operation_refines_list_witness :
  match list_call (contents sample_operation) (AddIds [8; 9]) with
  | Some l => exists o', run_call dirty_memory sample_operation (AddIds [8; 9]) = Ok o' /\
                op_wf o' /\ contents o' = l
  | None => run_call dirty_memory sample_operation (AddIds [8; 9]) = UB
  end.
Proof.
  apply (operation_refines_list dirty_memory sample_operation (AddIds [8; 9])).
  - intros n. apply length_replicate.
  - vm_compute. intuition congruence.
  - vm_compute. reflexivity.
Defined.

(** Reading an argument or its literal bit gives the entry of the list; an index past
    the end fails the [assert]. *)
Theorem operation_reads_list o i :
  op_wf o -> 0 <= i ->
  argument o i = (match zlookup (contents o) i with Some (v, _) => Ok v | None => UB end) /\
  argument_is_literal o i = (match zlookup (contents o) i with Some (_, l) => Ok l | None => UB end).
Proof. apply argument_spec. Qed.

Lemma operation_reads_list_witness :
  argument sample_operation 6 = Ok 7 /\ argument_is_literal sample_operation 6 = Ok true.
Proof.
  apply (operation_reads_list sample_operation 6); [vm_compute; intuition congruence|done].
Defined.
