(* ===== verification/CFGNode.v ===== *)
(** Control-flow graph nodes (node.hpp, node.cpp, node_pool.cpp).

    The nodes live in a pool, the list of all nodes ever created; a [CFGNode *] is an
    index into it.  Member functions that change nodes are [NM] routines over the pool;
    [const] member functions are functions of the pool.  Recursive searches and walks
    along immediate dominators carry fuel; a walk longer than the number of nodes
    repeats a node and does not end in the code either.  [userdata] is the SPIR-V block
    that was registered for a node, an index into the blocks of the builder. *)
From S2P Require Import Prelude.
From S2P Require Import IR.
Local Open Scope Z_scope.

(** * struct CFGNode *)

Record CFGNode := mkNode {
  name : string;
  node_id : Z;
  userdata : option nat;
  ir : IRBlock;
  forward_post_visit_order : Z;
  backward_post_visit_order : Z;
  visited : bool;
  backward_visited : bool;
  traversing : bool;
  freeze_structured_analysis : bool;
  is_pseudo_back_edge : bool;
  merge : MergeType;
  loop_merge_block : option nodref;
  loop_ladder_block : option nodref;
  selection_merge_block : option nodref;
  headers : list nodref;
  immediate_dominator : option nodref;
  immediate_post_dominator : option nodref;
  succ : list nodref;
  pred : list nodref;
  fake_succ : list nodref;
  fake_pred : list nodref;
  pred_back_edge : option nodref;
  succ_back_edge : option nodref;
  dominance_frontier : list nodref;
  post_dominance_frontier : list nodref;
}.

(** The member initialisers. *)
Definition CFGNode_new : CFGNode := mkNode EmptyString 0 None IRBlock_default 0 0 false false false
    false false MergeNone None None None [] None None [] [] [] [] None None [] [].

(** Assignments to single members. *)
Definition set_name (x : string) (n : CFGNode) : CFGNode := mkNode x (node_id n) (userdata n)
    (ir n) (forward_post_visit_order n) (backward_post_visit_order n) (visited n)
    (backward_visited n) (traversing n) (freeze_structured_analysis n) (is_pseudo_back_edge n)
    (merge n) (loop_merge_block n) (loop_ladder_block n) (selection_merge_block n) (headers n)
    (immediate_dominator n) (immediate_post_dominator n) (succ n) (pred n) (fake_succ n)
    (fake_pred n) (pred_back_edge n) (succ_back_edge n) (dominance_frontier n)
    (post_dominance_frontier n).
Definition set_node_id (x : Z) (n : CFGNode) : CFGNode := mkNode (name n) x (userdata n) (ir n)
    (forward_post_visit_order n) (backward_post_visit_order n) (visited n) (backward_visited n)
    (traversing n) (freeze_structured_analysis n) (is_pseudo_back_edge n) (merge n)
    (loop_merge_block n) (loop_ladder_block n) (selection_merge_block n) (headers n)
    (immediate_dominator n) (immediate_post_dominator n) (succ n) (pred n) (fake_succ n)
    (fake_pred n) (pred_back_edge n) (succ_back_edge n) (dominance_frontier n)
    (post_dominance_frontier n).
Definition set_userdata (x : option nat) (n : CFGNode) : CFGNode := mkNode (name n) (node_id n) x
    (ir n) (forward_post_visit_order n) (backward_post_visit_order n) (visited n)
    (backward_visited n) (traversing n) (freeze_structured_analysis n) (is_pseudo_back_edge n)
    (merge n) (loop_merge_block n) (loop_ladder_block n) (selection_merge_block n) (headers n)
    (immediate_dominator n) (immediate_post_dominator n) (succ n) (pred n) (fake_succ n)
    (fake_pred n) (pred_back_edge n) (succ_back_edge n) (dominance_frontier n)
    (post_dominance_frontier n).
Definition set_ir (x : IRBlock) (n : CFGNode) : CFGNode := mkNode (name n) (node_id n)
    (userdata n) x (forward_post_visit_order n) (backward_post_visit_order n) (visited n)
    (backward_visited n) (traversing n) (freeze_structured_analysis n) (is_pseudo_back_edge n)
    (merge n) (loop_merge_block n) (loop_ladder_block n) (selection_merge_block n) (headers n)
    (immediate_dominator n) (immediate_post_dominator n) (succ n) (pred n) (fake_succ n)
    (fake_pred n) (pred_back_edge n) (succ_back_edge n) (dominance_frontier n)
    (post_dominance_frontier n).
Definition set_forward_post_visit_order (x : Z) (n : CFGNode) : CFGNode := mkNode (name n)
    (node_id n) (userdata n) (ir n) x (backward_post_visit_order n) (visited n)
    (backward_visited n) (traversing n) (freeze_structured_analysis n) (is_pseudo_back_edge n)
    (merge n) (loop_merge_block n) (loop_ladder_block n) (selection_merge_block n) (headers n)
    (immediate_dominator n) (immediate_post_dominator n) (succ n) (pred n) (fake_succ n)
    (fake_pred n) (pred_back_edge n) (succ_back_edge n) (dominance_frontier n)
    (post_dominance_frontier n).
Definition set_backward_post_visit_order (x : Z) (n : CFGNode) : CFGNode := mkNode (name n)
    (node_id n) (userdata n) (ir n) (forward_post_visit_order n) x (visited n)
    (backward_visited n) (traversing n) (freeze_structured_analysis n) (is_pseudo_back_edge n)
    (merge n) (loop_merge_block n) (loop_ladder_block n) (selection_merge_block n) (headers n)
    (immediate_dominator n) (immediate_post_dominator n) (succ n) (pred n) (fake_succ n)
    (fake_pred n) (pred_back_edge n) (succ_back_edge n) (dominance_frontier n)
    (post_dominance_frontier n).
Definition set_visited (x : bool) (n : CFGNode) : CFGNode := mkNode (name n) (node_id n)
    (userdata n) (ir n) (forward_post_visit_order n) (backward_post_visit_order n) x
    (backward_visited n) (traversing n) (freeze_structured_analysis n) (is_pseudo_back_edge n)
    (merge n) (loop_merge_block n) (loop_ladder_block n) (selection_merge_block n) (headers n)
    (immediate_dominator n) (immediate_post_dominator n) (succ n) (pred n) (fake_succ n)
    (fake_pred n) (pred_back_edge n) (succ_back_edge n) (dominance_frontier n)
    (post_dominance_frontier n).
Definition set_backward_visited (x : bool) (n : CFGNode) : CFGNode := mkNode (name n) (node_id n)
    (userdata n) (ir n) (forward_post_visit_order n) (backward_post_visit_order n) (visited n) x
    (traversing n) (freeze_structured_analysis n) (is_pseudo_back_edge n) (merge n)
    (loop_merge_block n) (loop_ladder_block n) (selection_merge_block n) (headers n)
    (immediate_dominator n) (immediate_post_dominator n) (succ n) (pred n) (fake_succ n)
    (fake_pred n) (pred_back_edge n) (succ_back_edge n) (dominance_frontier n)
    (post_dominance_frontier n).
Definition set_traversing (x : bool) (n : CFGNode) : CFGNode := mkNode (name n) (node_id n)
    (userdata n) (ir n) (forward_post_visit_order n) (backward_post_visit_order n) (visited n)
    (backward_visited n) x (freeze_structured_analysis n) (is_pseudo_back_edge n) (merge n)
    (loop_merge_block n) (loop_ladder_block n) (selection_merge_block n) (headers n)
    (immediate_dominator n) (immediate_post_dominator n) (succ n) (pred n) (fake_succ n)
    (fake_pred n) (pred_back_edge n) (succ_back_edge n) (dominance_frontier n)
    (post_dominance_frontier n).
Definition set_freeze_structured_analysis (x : bool) (n : CFGNode) : CFGNode := mkNode (name n)
    (node_id n) (userdata n) (ir n) (forward_post_visit_order n) (backward_post_visit_order n)
    (visited n) (backward_visited n) (traversing n) x (is_pseudo_back_edge n) (merge n)
    (loop_merge_block n) (loop_ladder_block n) (selection_merge_block n) (headers n)
    (immediate_dominator n) (immediate_post_dominator n) (succ n) (pred n) (fake_succ n)
    (fake_pred n) (pred_back_edge n) (succ_back_edge n) (dominance_frontier n)
    (post_dominance_frontier n).
Definition set_is_pseudo_back_edge (x : bool) (n : CFGNode) : CFGNode := mkNode (name n)
    (node_id n) (userdata n) (ir n) (forward_post_visit_order n) (backward_post_visit_order n)
    (visited n) (backward_visited n) (traversing n) (freeze_structured_analysis n) x (merge n)
    (loop_merge_block n) (loop_ladder_block n) (selection_merge_block n) (headers n)
    (immediate_dominator n) (immediate_post_dominator n) (succ n) (pred n) (fake_succ n)
    (fake_pred n) (pred_back_edge n) (succ_back_edge n) (dominance_frontier n)
    (post_dominance_frontier n).
Definition set_merge (x : MergeType) (n : CFGNode) : CFGNode := mkNode (name n) (node_id n)
    (userdata n) (ir n) (forward_post_visit_order n) (backward_post_visit_order n) (visited n)
    (backward_visited n) (traversing n) (freeze_structured_analysis n) (is_pseudo_back_edge n) x
    (loop_merge_block n) (loop_ladder_block n) (selection_merge_block n) (headers n)
    (immediate_dominator n) (immediate_post_dominator n) (succ n) (pred n) (fake_succ n)
    (fake_pred n) (pred_back_edge n) (succ_back_edge n) (dominance_frontier n)
    (post_dominance_frontier n).
Definition set_loop_merge_block (x : option nodref) (n : CFGNode) : CFGNode := mkNode (name n)
    (node_id n) (userdata n) (ir n) (forward_post_visit_order n) (backward_post_visit_order n)
    (visited n) (backward_visited n) (traversing n) (freeze_structured_analysis n)
    (is_pseudo_back_edge n) (merge n) x (loop_ladder_block n) (selection_merge_block n)
    (headers n) (immediate_dominator n) (immediate_post_dominator n) (succ n) (pred n)
    (fake_succ n) (fake_pred n) (pred_back_edge n) (succ_back_edge n) (dominance_frontier n)
    (post_dominance_frontier n).
Definition set_loop_ladder_block (x : option nodref) (n : CFGNode) : CFGNode := mkNode (name n)
    (node_id n) (userdata n) (ir n) (forward_post_visit_order n) (backward_post_visit_order n)
    (visited n) (backward_visited n) (traversing n) (freeze_structured_analysis n)
    (is_pseudo_back_edge n) (merge n) (loop_merge_block n) x (selection_merge_block n) (headers n)
    (immediate_dominator n) (immediate_post_dominator n) (succ n) (pred n) (fake_succ n)
    (fake_pred n) (pred_back_edge n) (succ_back_edge n) (dominance_frontier n)
    (post_dominance_frontier n).
Definition set_selection_merge_block (x : option nodref) (n : CFGNode) : CFGNode := mkNode
    (name n) (node_id n) (userdata n) (ir n) (forward_post_visit_order n)
    (backward_post_visit_order n) (visited n) (backward_visited n) (traversing n)
    (freeze_structured_analysis n) (is_pseudo_back_edge n) (merge n) (loop_merge_block n)
    (loop_ladder_block n) x (headers n) (immediate_dominator n) (immediate_post_dominator n)
    (succ n) (pred n) (fake_succ n) (fake_pred n) (pred_back_edge n) (succ_back_edge n)
    (dominance_frontier n) (post_dominance_frontier n).
Definition set_headers (x : list nodref) (n : CFGNode) : CFGNode := mkNode (name n) (node_id n)
    (userdata n) (ir n) (forward_post_visit_order n) (backward_post_visit_order n) (visited n)
    (backward_visited n) (traversing n) (freeze_structured_analysis n) (is_pseudo_back_edge n)
    (merge n) (loop_merge_block n) (loop_ladder_block n) (selection_merge_block n) x
    (immediate_dominator n) (immediate_post_dominator n) (succ n) (pred n) (fake_succ n)
    (fake_pred n) (pred_back_edge n) (succ_back_edge n) (dominance_frontier n)
    (post_dominance_frontier n).
Definition set_immediate_dominator (x : option nodref) (n : CFGNode) : CFGNode := mkNode (name n)
    (node_id n) (userdata n) (ir n) (forward_post_visit_order n) (backward_post_visit_order n)
    (visited n) (backward_visited n) (traversing n) (freeze_structured_analysis n)
    (is_pseudo_back_edge n) (merge n) (loop_merge_block n) (loop_ladder_block n)
    (selection_merge_block n) (headers n) x (immediate_post_dominator n) (succ n) (pred n)
    (fake_succ n) (fake_pred n) (pred_back_edge n) (succ_back_edge n) (dominance_frontier n)
    (post_dominance_frontier n).
Definition set_immediate_post_dominator (x : option nodref) (n : CFGNode) : CFGNode := mkNode
    (name n) (node_id n) (userdata n) (ir n) (forward_post_visit_order n)
    (backward_post_visit_order n) (visited n) (backward_visited n) (traversing n)
    (freeze_structured_analysis n) (is_pseudo_back_edge n) (merge n) (loop_merge_block n)
    (loop_ladder_block n) (selection_merge_block n) (headers n) (immediate_dominator n) x (succ n)
    (pred n) (fake_succ n) (fake_pred n) (pred_back_edge n) (succ_back_edge n)
    (dominance_frontier n) (post_dominance_frontier n).
Definition set_succ (x : list nodref) (n : CFGNode) : CFGNode := mkNode (name n) (node_id n)
    (userdata n) (ir n) (forward_post_visit_order n) (backward_post_visit_order n) (visited n)
    (backward_visited n) (traversing n) (freeze_structured_analysis n) (is_pseudo_back_edge n)
    (merge n) (loop_merge_block n) (loop_ladder_block n) (selection_merge_block n) (headers n)
    (immediate_dominator n) (immediate_post_dominator n) x (pred n) (fake_succ n) (fake_pred n)
    (pred_back_edge n) (succ_back_edge n) (dominance_frontier n) (post_dominance_frontier n).
Definition set_pred (x : list nodref) (n : CFGNode) : CFGNode := mkNode (name n) (node_id n)
    (userdata n) (ir n) (forward_post_visit_order n) (backward_post_visit_order n) (visited n)
    (backward_visited n) (traversing n) (freeze_structured_analysis n) (is_pseudo_back_edge n)
    (merge n) (loop_merge_block n) (loop_ladder_block n) (selection_merge_block n) (headers n)
    (immediate_dominator n) (immediate_post_dominator n) (succ n) x (fake_succ n) (fake_pred n)
    (pred_back_edge n) (succ_back_edge n) (dominance_frontier n) (post_dominance_frontier n).
Definition set_fake_succ (x : list nodref) (n : CFGNode) : CFGNode := mkNode (name n) (node_id n)
    (userdata n) (ir n) (forward_post_visit_order n) (backward_post_visit_order n) (visited n)
    (backward_visited n) (traversing n) (freeze_structured_analysis n) (is_pseudo_back_edge n)
    (merge n) (loop_merge_block n) (loop_ladder_block n) (selection_merge_block n) (headers n)
    (immediate_dominator n) (immediate_post_dominator n) (succ n) (pred n) x (fake_pred n)
    (pred_back_edge n) (succ_back_edge n) (dominance_frontier n) (post_dominance_frontier n).
Definition set_fake_pred (x : list nodref) (n : CFGNode) : CFGNode := mkNode (name n) (node_id n)
    (userdata n) (ir n) (forward_post_visit_order n) (backward_post_visit_order n) (visited n)
    (backward_visited n) (traversing n) (freeze_structured_analysis n) (is_pseudo_back_edge n)
    (merge n) (loop_merge_block n) (loop_ladder_block n) (selection_merge_block n) (headers n)
    (immediate_dominator n) (immediate_post_dominator n) (succ n) (pred n) (fake_succ n) x
    (pred_back_edge n) (succ_back_edge n) (dominance_frontier n) (post_dominance_frontier n).
Definition set_pred_back_edge (x : option nodref) (n : CFGNode) : CFGNode := mkNode (name n)
    (node_id n) (userdata n) (ir n) (forward_post_visit_order n) (backward_post_visit_order n)
    (visited n) (backward_visited n) (traversing n) (freeze_structured_analysis n)
    (is_pseudo_back_edge n) (merge n) (loop_merge_block n) (loop_ladder_block n)
    (selection_merge_block n) (headers n) (immediate_dominator n) (immediate_post_dominator n)
    (succ n) (pred n) (fake_succ n) (fake_pred n) x (succ_back_edge n) (dominance_frontier n)
    (post_dominance_frontier n).
Definition set_succ_back_edge (x : option nodref) (n : CFGNode) : CFGNode := mkNode (name n)
    (node_id n) (userdata n) (ir n) (forward_post_visit_order n) (backward_post_visit_order n)
    (visited n) (backward_visited n) (traversing n) (freeze_structured_analysis n)
    (is_pseudo_back_edge n) (merge n) (loop_merge_block n) (loop_ladder_block n)
    (selection_merge_block n) (headers n) (immediate_dominator n) (immediate_post_dominator n)
    (succ n) (pred n) (fake_succ n) (fake_pred n) (pred_back_edge n) x (dominance_frontier n)
    (post_dominance_frontier n).
Definition set_dominance_frontier (x : list nodref) (n : CFGNode) : CFGNode := mkNode (name n)
    (node_id n) (userdata n) (ir n) (forward_post_visit_order n) (backward_post_visit_order n)
    (visited n) (backward_visited n) (traversing n) (freeze_structured_analysis n)
    (is_pseudo_back_edge n) (merge n) (loop_merge_block n) (loop_ladder_block n)
    (selection_merge_block n) (headers n) (immediate_dominator n) (immediate_post_dominator n)
    (succ n) (pred n) (fake_succ n) (fake_pred n) (pred_back_edge n) (succ_back_edge n) x
    (post_dominance_frontier n).
Definition set_post_dominance_frontier (x : list nodref) (n : CFGNode) : CFGNode := mkNode
    (name n) (node_id n) (userdata n) (ir n) (forward_post_visit_order n)
    (backward_post_visit_order n) (visited n) (backward_visited n) (traversing n)
    (freeze_structured_analysis n) (is_pseudo_back_edge n) (merge n) (loop_merge_block n)
    (loop_ladder_block n) (selection_merge_block n) (headers n) (immediate_dominator n)
    (immediate_post_dominator n) (succ n) (pred n) (fake_succ n) (fake_pred n) (pred_back_edge n)
    (succ_back_edge n) (dominance_frontier n) x.

Abbreviation CFGNodePool := (list CFGNode) (only parsing).
Definition NM : Type -> Type := M CFGNodePool.

Definition node_at (r : nodref) : NM CFGNode := n ← gets (fun p : CFGNodePool => p !! r); derefM n.

(** Read one member through a pointer. *)
Definition field {A} (f : CFGNode -> A) (r : nodref) : NM A := n ← node_at r; mret (f n).

(** Assign members through a pointer. *)
Definition update (r : nodref) (f : CFGNode -> CFGNode) : NM unit :=
  n ← node_at r; modify (fun p : CFGNodePool => <[r := f n]> p).

(** [CFGNodePool::create_node] *)
Definition create_node : NM nodref :=
  r ← gets (fun p : CFGNodePool => length p);
  _ ← modify (fun p : CFGNodePool => p ++ [CFGNode_new]);
  mret r.

(** * Edges *)

(** [if (find(v, x) == end) v.push_back(x)] *)
Definition push_unique (x : nodref) (l : list nodref) : list nodref :=
  if bool_decide (x ∈ l) then l else l ++ [x].

(** [v.erase(find(v, x))], when there is one. *)
Fixpoint erase_first (x : nodref) (l : list nodref) : list nodref :=
  match l with
  | [] => []
  | y :: l' => if decide (y = x) then l' else y :: erase_first x l'
  end.

(** [*find(v, x) = y], when there is one. *)
Fixpoint replace_first (x y : nodref) (l : list nodref) : list nodref :=
  match l with
  | [] => []
  | z :: l' => if decide (z = x) then y :: l' else z :: replace_first x y l'
  end.

Definition add_unique_pred (this node : nodref) : NM unit :=
  update this (fun n => set_pred (push_unique node (pred n)) n).

Definition add_unique_fake_pred (this node : nodref) : NM unit :=
  update this (fun n => set_fake_pred (push_unique node (fake_pred n)) n).

Definition add_unique_header (this node : nodref) : NM unit :=
  update this (fun n => set_headers (push_unique node (headers n)) n).

Definition add_unique_succ (this node : nodref) : NM unit :=
  fs ← field fake_succ this;
  _ ← assertM (bool_decide (node ∉ fs));
  update this (fun n => set_succ (push_unique node (succ n)) n).

Definition add_unique_fake_succ (this node : nodref) : NM unit :=
  update this (fun n => set_fake_succ (push_unique node (fake_succ n)) n).

Definition add_branch (this to : nodref) : NM unit :=
  _ ← add_unique_succ this to;
  add_unique_pred to this.

Definition add_fake_branch (this to : nodref) : NM unit :=
  ss ← field succ this;
  if bool_decide (to ∈ ss) then mret tt
  else
    _ ← add_unique_fake_succ this to;
    add_unique_fake_pred to this.

(** A successor without the matching predecessor (a stale edge) is left alone. *)
Definition clear_branches (this : nodref) : NM unit :=
  ss ← field succ this;
  _ ← for_eachM (fun s => update s (fun n => set_pred (erase_first this (pred n)) n)) ss;
  update this (set_succ []).

Definition num_forward_preds (n : CFGNode) : Z := u32 (zlength (pred n)).

Definition has_pred_back_edges (n : CFGNode) : bool := bool_decide (pred_back_edge n <> None).

(** * Dominance by immediate dominators *)

Section walks.
Variable pool : CFGNodePool.

Definition node (r : nodref) : res CFGNode := some_or_ub (pool !! r).

(** The loop [while (target != x) { if (!x->parent || x == x->parent) break; x = x->parent; }]
    followed by [target == x]. *)
Fixpoint walk_to (parent : CFGNode -> option nodref) (fuel : nat) (target x : nodref) : res bool :=
  match fuel with
  | O => UB
  | S fuel' =>
      if decide (target = x) then Ok true
      else
        n ← node x;
        match parent n with
        | None => Ok false
        | Some d => if decide (d = x) then Ok false else walk_to parent fuel' target d
        end
  end.

Definition dominates (this other : nodref) : res bool :=
  walk_to immediate_dominator (S (length pool)) this other.

Definition post_dominates (this start_node : nodref) : res bool :=
  walk_to immediate_post_dominator (S (length pool)) this start_node.

(** [for (auto *x : l) if (f(x)) return true; return false;] *)
Fixpoint any (f : nodref -> res bool) (l : list nodref) : res bool :=
  match l with
  | [] => Ok false
  | x :: l' => b ← f x; if (b : bool) then Ok true else any f l'
  end.

Definition reaches_domination_frontier_before_merge (this merge : nodref) : res bool :=
  n ← node this;
  any (fun frontier => if decide (merge = frontier) then Ok false
                       else post_dominates merge frontier)
      (dominance_frontier n).

(** The loop of [dominates_outer_continue] from the header's immediate dominator. *)
Fixpoint outer_continue_loop (fuel : nat) (this : nodref) (loop_header : option nodref) : res bool :=
  match fuel, loop_header with
  | O, _ => UB
  | S _, None => Ok false
  | S fuel', Some h =>
      n ← node h;
      d ← match pred_back_edge n with Some c => dominates this c | None => Ok false end;
      if (d : bool) then Ok true
      else if bool_decide (pred n = []) then Ok false
      else outer_continue_loop fuel' this (immediate_dominator n)
  end.

Definition dominates_outer_continue (this loop_header : nodref) : res bool :=
  n ← node loop_header;
  if bool_decide (pred n = []) then Ok false
  else outer_continue_loop (S (length pool)) this (immediate_dominator n).

Definition can_loop_merge_to (this other : nodref) : res bool :=
  d ← dominates this other;
  if negb d then Ok false
  else
    n ← node this;
    match pred_back_edge n with
    | None => Ok true
    | Some c =>
        cn ← node c;
        if bool_decide (succ cn = []) then
          Ok (match fake_succ cn with [f] => bool_decide (f = other) | _ => true end)
        else Ok (bool_decide (other ∈ succ cn))
    end.

Definition post_dominates_perfect_structured_construct (this : nodref) : res bool :=
  n ← node this;
  idom ← some_or_ub (immediate_dominator n);
  d ← post_dominates this idom;
  if negb d then Ok false
  else
    b ← any (fun p => negb <$> post_dominates this p) (pred n);
    Ok (negb b).

(** * Cached searches

    The recursive member functions with a set of visited nodes share one shape: leave
    a cached node, cache it, let [verdict] decide the node on its own, otherwise look
    at the neighbours in order, where [target] stops the search at an edge. *)
Section search.
Variable verdict : CFGNode -> nodref -> res (option bool).
Variable target : nodref -> res bool.
Variable next : CFGNode -> list nodref.

(** The loop over the neighbours: it leaves at the first hit and threads the cache. *)
Fixpoint search_each (visit : nodref -> gset nodref -> res (bool * gset nodref))
    (l : list nodref) (cache : gset nodref) : res (bool * gset nodref) :=
  match l with
  | [] => Ok (false, cache)
  | x :: l' =>
      t ← target x;
      if (t : bool) then Ok (true, cache)
      else
        r ← visit x cache;
        let '(b, cache) := (r : bool * gset nodref) in
        if b then Ok (true, cache) else search_each visit l' cache
  end.

Fixpoint search (fuel : nat) (this : nodref) (cache : gset nodref) : res (bool * gset nodref) :=
  match fuel with
  | O => UB
  | S fuel' =>
      if decide (this ∈ cache) then Ok (false, cache)
      else
        let cache := {[this]} ∪ cache in
        n ← node this;
        v ← verdict n this;
        match v with
        | Some b => Ok (b, cache)
        | None => search_each (search fuel') (next n) cache
        end
  end.
End search.

Definition search_fuel : nat := S (length pool).

(** The recursive [can_backtrace_to]. *)
Definition can_backtrace_to_cached (this parent : nodref) (cache : gset nodref)
    : res (bool * gset nodref) :=
  search (fun _ _ => Ok None) (fun p => Ok (bool_decide (p = parent))) pred search_fuel this cache.

Definition can_backtrace_to (this parent : nodref) : res bool :=
  pn ← node parent;
  n ← node this;
  if forward_post_visit_order pn <? forward_post_visit_order n then Ok false
  else fst <$> can_backtrace_to_cached this parent ∅.

Definition can_backtrace_to_with_blockers_cached (this parent : nodref)
    (block_nodes : list nodref) (cache : gset nodref) : res (bool * gset nodref) :=
  search (fun _ x => Ok (if decide (x ∈ block_nodes) then Some false else None))
         (fun p => Ok (bool_decide (p = parent))) pred search_fuel this cache.

Definition can_backtrace_to_with_blockers (this parent : nodref) (block_nodes : list nodref)
    : res bool :=
  pn ← node parent;
  n ← node this;
  if forward_post_visit_order pn <? forward_post_visit_order n then Ok false
  else fst <$> can_backtrace_to_with_blockers_cached this parent block_nodes ∅.

(** Does a block hold instructions or PHIs? *)
Definition has_work (n : CFGNode) : bool :=
  negb (bool_decide (length (operations (ir n)) = O)) || negb (bool_decide (length (phi (ir n)) = O)).

(** The recursive [post_dominates_any_work]. *)
Definition post_dominates_any_work_cached (this parent : nodref) (cache : gset nodref)
    : res (bool * gset nodref) :=
  search (fun n x => if has_work n then Some <$> post_dominates this x else Ok None)
         (fun _ => Ok false) pred search_fuel parent cache.

(** The trivial back-trace that starts [count_post_dominates_work_from_incoming_preds]. *)
Fixpoint trivial_backtrace (fuel : nat) (start_node : nodref) : res nodref :=
  match fuel with
  | O => UB
  | S fuel' =>
      n ← node start_node;
      match pred n with
      | [p] =>
          if has_work n then Ok start_node
          else
            d ← post_dominates start_node p;
            if (d : bool) then trivial_backtrace fuel' p else Ok start_node
      | _ => Ok start_node
      end
  end.

(** [for (auto *p : pred) if (post_dominates_any_work(p, cache)) num++;] *)
Fixpoint count_work (this : nodref) (l : list nodref) (cache : gset nodref) (num : Z) : res Z :=
  match l with
  | [] => Ok num
  | p :: l' =>
      r ← post_dominates_any_work_cached this p cache;
      let '(b, cache) := (r : bool * gset nodref) in
      count_work this l' cache (if b then num + 1 else num)
  end.

Definition count_post_dominates_work_from_incoming_preds (this : nodref) : res Z :=
  start_node ← trivial_backtrace (S (length pool)) this;
  n ← node start_node;
  if has_work n then Ok 1 else count_work start_node (pred n) ∅ 0.

Definition post_dominates_any_work (this : nodref) : res bool :=
  c ← count_post_dominates_work_from_incoming_preds this;
  Ok (negb (c =? 0)).

(** The search looks for a reason to answer [false]. *)
Definition dominates_all_reachable_exits_cached (header this : nodref) (cache : gset nodref)
    : res (bool * gset nodref) :=
  search (fun n _ =>
            match succ_back_edge n with
            | Some b => d ← dominates header b; Ok (if (d : bool) then None else Some true)
            | None => Ok None
            end)
         (fun x => negb <$> dominates header x) succ search_fuel this cache.

Definition dominates_all_reachable_exits (this : nodref) : res bool :=
  negb <$> (fst <$> dominates_all_reachable_exits_cached this this ∅).

Definition reaches_backward_visited_node (this : nodref) : res bool :=
  fst <$> search (fun n _ => Ok (if backward_visited n then Some true else None))
            (fun _ => Ok false) (fun n => succ n ++ fake_succ n) search_fuel this ∅.

(** * Enclosing constructs *)

Fixpoint loop_header_walk (fuel : nat) (x : nodref) : res (option nodref) :=
  match fuel with
  | O => UB
  | S fuel' =>
      n ← node x;
      if has_pred_back_edges n then Ok (Some x)
      else if bool_decide (pred n = []) then Ok None
      else d ← some_or_ub (immediate_dominator n); loop_header_walk fuel' d
  end.

Definition get_immediate_dominator_loop_header (this : nodref) : res (option nodref) :=
  n ← node this;
  _ ← assert_res (bool_decide (immediate_dominator n <> None));
  loop_header_walk (S (length pool)) this.

(** [while (node is a merge block of its immediate dominator) node = idom;] *)
Fixpoint skip_merges (fuel : nat) (x : nodref) : res nodref :=
  match fuel with
  | O => UB
  | S fuel' =>
      n ← node x;
      match immediate_dominator n with
      | Some d => if decide (d ∈ headers n) then skip_merges fuel' d else Ok x
      | None => Ok x
      end
  end.

Definition is_switch (n : CFGNode) : bool := bool_decide (term_type (terminator (ir n)) = TSwitch).

Fixpoint outer_selection_walk (fuel : nat) (this x : nodref) : res nodref :=
  match fuel with
  | O => UB
  | S fuel' =>
      n ← node x;
      if is_switch n then Ok x
      else
        d ← post_dominates this x;
        if negb d then Ok x
        else if bool_decide (pred n = []) then Ok x
        else
          y ← skip_merges (S (length pool)) x;
          d ← post_dominates this y;
          if (d : bool)
          then yn ← node y; i ← some_or_ub (immediate_dominator yn); outer_selection_walk fuel' this i
          else outer_selection_walk fuel' this y
  end.

Definition get_outer_selection_dominator (this : nodref) : res nodref :=
  n ← node this;
  d ← some_or_ub (immediate_dominator n);
  outer_selection_walk (S (length pool)) this d.

Fixpoint outer_header_walk (fuel : nat) (x : nodref) : res nodref :=
  match fuel with
  | O => UB
  | S fuel' =>
      n ← node x;
      if (zlength (succ n) =? 1) && negb (is_switch n) && negb (has_pred_back_edges n) then
        if bool_decide (pred n = []) then Ok x
        else d ← some_or_ub (immediate_dominator n); outer_header_walk fuel' d
      else Ok x
  end.

Definition get_outer_header_dominator (this : nodref) : res nodref :=
  n ← node this;
  d ← some_or_ub (immediate_dominator n);
  outer_header_walk (S (length pool)) d.

Definition block_is_jump_thread_ladder (this : nodref) : res bool :=
  n ← node this;
  match operations (ir n), term_type (terminator (ir n)), phi (ir n) with
  | [], TCondition, [p] => Ok (conditional_id (terminator (ir n)) =? phi_id p)
  | _, _, _ => Ok false
  end.
End walks.

(** Call a [const] member function. *)
Definition observe {A} (f : CFGNodePool -> res A) : NM A := fun p =>
  match f p with Ok a => Ok (a, p) | Fail => Fail | UB => UB end.

(** * Common dominators and recomputation *)

(** Fuel for the mutual recursion of the [find_common_*] and [recompute_*] functions. *)
Definition dominator_fuel (pool : CFGNodePool) : nat :=
  (S (length pool) * (2 * length pool + 4))%nat.

Fixpoint find_common_dominator (fuel : nat) (a b : nodref) : NM nodref :=
  match fuel with
  | O => ubM
  | S fuel =>
      if decide (a = b) then mret a
      else
        let recompute x :=
          n ← node_at x;
          match immediate_dominator n with
          | Some _ => mret tt
          | None =>
              _ ← for_eachM (recompute_immediate_dominator fuel) (pred n);
              recompute_immediate_dominator fuel x
          end in
        _ ← recompute a;
        _ ← recompute b;
        na ← node_at a;
        nb ← node_at b;
        if forward_post_visit_order na =? forward_post_visit_order nb then
          ba ← observe (fun p => dominates p b a);
          if (ba : bool) then mret b
          else
            ab ← observe (fun p => dominates p a b);
            if (ab : bool) then mret a
            else
              ia ← derefM (immediate_dominator na);
              ib ← derefM (immediate_dominator nb);
              if decide (a = ia) then mret b
              else if decide (b = ib) then mret a
              else find_common_dominator fuel ia ib
        else if forward_post_visit_order na <? forward_post_visit_order nb then
          ia ← derefM (immediate_dominator na);
          if decide (a = ia) then mret b else find_common_dominator fuel ia b
        else
          ib ← derefM (immediate_dominator nb);
          if decide (b = ib) then mret a else find_common_dominator fuel a ib
  end
with recompute_immediate_dominator (fuel : nat) (this : nodref) : NM unit :=
  match fuel with
  | O => ubM
  | S fuel =>
      n ← node_at this;
      if bool_decide (pred n = []) then update this (set_immediate_dominator (Some this))
      else
        _ ← update this (set_immediate_dominator None);
        for_eachM (fun edge =>
          idom ← field immediate_dominator this;
          match idom with
          | Some d =>
              c ← find_common_dominator fuel d edge;
              update this (set_immediate_dominator (Some c))
          | None => update this (set_immediate_dominator (Some edge))
          end) (pred n)
  end.

Fixpoint find_common_post_dominator (fuel : nat) (a b : nodref) : NM nodref :=
  match fuel with
  | O => ubM
  | S fuel =>
      if decide (a = b) then mret a
      else
        let recompute x :=
          n ← node_at x;
          match immediate_post_dominator n with
          | Some _ => mret tt
          | None =>
              _ ← for_eachM (recompute_immediate_post_dominator fuel) (succ n);
              recompute_immediate_post_dominator fuel x
          end in
        _ ← recompute a;
        _ ← recompute b;
        na ← node_at a;
        nb ← node_at b;
        if backward_post_visit_order na =? backward_post_visit_order nb then
          ba ← observe (fun p => post_dominates p b a);
          if (ba : bool) then mret b
          else
            ab ← observe (fun p => post_dominates p a b);
            if (ab : bool) then mret a
            else
              ia ← derefM (immediate_post_dominator na);
              ib ← derefM (immediate_post_dominator nb);
              find_common_post_dominator fuel ia ib
        else if backward_post_visit_order na <? backward_post_visit_order nb then
          ia ← derefM (immediate_post_dominator na);
          find_common_post_dominator fuel ia b
        else
          ib ← derefM (immediate_post_dominator nb);
          find_common_post_dominator fuel a ib
  end
with recompute_immediate_post_dominator (fuel : nat) (this : nodref) : NM unit :=
  match fuel with
  | O => ubM
  | S fuel =>
      n ← node_at this;
      if bool_decide (succ n = []) && bool_decide (fake_succ n = []) then mret tt
      else
        _ ← update this (set_immediate_post_dominator None);
        for_eachM (fun edge =>
          ipdom ← field immediate_post_dominator this;
          match ipdom with
          | Some d =>
              c ← find_common_post_dominator fuel d edge;
              update this (set_immediate_post_dominator (Some c))
          | None => update this (set_immediate_post_dominator (Some edge))
          end) (succ n ++ fake_succ n)
  end.

Definition recompute_dominator (this : nodref) : NM unit :=
  fuel ← gets dominator_fuel; recompute_immediate_dominator fuel this.

Definition recompute_post_dominator (this : nodref) : NM unit :=
  fuel ← gets dominator_fuel; recompute_immediate_post_dominator fuel this.

(** * Branch rewriting *)

Definition retarget_ptr (from to : nodref) (o : option nodref) : option nodref :=
  if decide (o = Some from) then Some to else o.

Definition retarget_case (from to : nodref) (c : Case) : Case :=
  mkCase (retarget_ptr from to (case_node c)) (global_order c) (case_value c) (is_default c).

(** Replace [from] by [to] in every target of a terminator. *)
Definition retarget_terminator (from to : nodref) (t : Terminator) : Terminator :=
  mkTerminator (conditional_id t) (term_type t) (retarget_ptr from to (direct_block t))
    (retarget_ptr from to (true_block t)) (retarget_ptr from to (false_block t))
    (retarget_case from to <$> cases t) (return_value t)
    (force_unroll t) (force_loop t) (force_flatten t) (force_branch t).

Definition set_terminator (t : Terminator) (n : CFGNode) : CFGNode :=
  set_ir (mkIRBlock (phi (ir n)) (operations (ir n)) (merge_info (ir n)) t) n.

(** A terminator that branches to [to]; the other members keep their values. *)
Definition branch_terminator (to : nodref) (t : Terminator) : Terminator :=
  mkTerminator (conditional_id t) TBranch (Some to) (true_block t) (false_block t) (cases t)
    (return_value t) (force_unroll t) (force_loop t) (force_flatten t) (force_branch t).

Definition retarget_branch_pre_traversal (this to_prev to_next : nodref) : NM unit :=
  n ← node_at this;
  np ← node_at to_prev;
  nn ← node_at to_next;
  _ ← assertM (bool_decide (to_prev ∈ succ n));
  _ ← assertM (bool_decide (this ∈ pred np));
  _ ← assertM (bool_decide (to_next ∉ succ n));
  _ ← assertM (bool_decide (this ∉ pred nn));
  _ ← update to_prev (fun n => set_pred (erase_first this (pred n)) n);
  _ ← update this (fun n => set_succ (replace_first to_prev to_next (succ n)) n);
  np ← node_at to_prev;
  nn ← node_at to_next;
  _ ← (if bool_decide (pred np = []) && negb (has_pred_back_edges np) &&
          bool_decide (to_prev ∈ pred nn)
       then update to_next (fun n => set_pred (replace_first to_prev this (pred n)) n)
       else add_unique_pred to_next this);
  update this (fun n => set_terminator (retarget_terminator to_prev to_next (terminator (ir n))) n).

Definition retarget_branch (this to_prev to_next : nodref) : NM unit :=
  _ ← retarget_branch_pre_traversal this to_prev to_next;
  op ← field forward_post_visit_order to_prev;
  on ← field forward_post_visit_order to_next;
  _ ← (if on <? op
       then _ ← recompute_dominator to_prev; recompute_dominator to_next
       else _ ← recompute_dominator to_next; recompute_dominator to_prev);
  recompute_post_dominator this.

Definition rewrite_branch_through_intermediate_node (this to_prev to_next : nodref) : NM nodref :=
  n ← node_at this;
  _ ← assertM (bool_decide (to_next ∈ succ n));
  intermediate ← create_node;
  nn ← node_at to_next;
  _ ← update intermediate (set_name (name n +:+ ".intermediate." +:+ name nn));
  _ ← update intermediate (fun i => set_terminator (branch_terminator to_next (terminator (ir i))) i);
  _ ← add_branch intermediate to_next;
  _ ← update intermediate (fun i =>
        set_immediate_post_dominator (Some to_next)
          (set_immediate_dominator (Some this)
             (set_forward_post_visit_order (forward_post_visit_order n)
                (set_backward_post_visit_order (backward_post_visit_order n) i))));
  _ ← retarget_branch this to_prev intermediate;
  _ ← recompute_dominator to_next;
  mret intermediate.

Definition retarget_branch_with_intermediate_node (this to_prev to_next : nodref) : NM unit :=
  ss ← field succ this;
  if bool_decide (to_next ∉ ss) then retarget_branch this to_prev to_next
  else _ ← rewrite_branch_through_intermediate_node this to_prev to_next; mret tt.

(** The last [add_unique_fake_pred] leaves [to_prev] with a stale fake predecessor. *)
Definition retarget_fake_succ (this to_prev to_next : nodref) : NM unit :=
  fp ← field fake_pred to_prev;
  _ ← assertM (bool_decide (this ∈ fp));
  fs ← field fake_succ this;
  _ ← assertM (bool_decide (to_prev ∈ fs));
  _ ← (if bool_decide (to_next ∈ fs)
       then update this (set_fake_succ (erase_first to_prev fs))
       else
         _ ← update this (set_fake_succ (replace_first to_prev to_next fs));
         fpn ← field fake_pred to_next;
         assertM (bool_decide (this ∉ fpn)));
  _ ← add_unique_fake_pred to_next this;
  recompute_post_dominator this.

Definition fixup_merge_info_after_branch_rewrite (this from to : nodref) : NM unit :=
  hs ← field headers from;
  if bool_decide (this ∈ hs) then
    _ ← add_unique_header to this;
    update this (fun n =>
      set_selection_merge_block (retarget_ptr from to (selection_merge_block n))
        (set_loop_merge_block (retarget_ptr from to (loop_merge_block n))
           (set_loop_ladder_block (retarget_ptr from to (loop_ladder_block n)) n)))
  else mret tt.

(** * Traversal of dominated blocks *)

(** The loop reads the successors one by one, because [op] may replace entries in place. *)
Fixpoint traverse_dominated_blocks_cached (op : nodref -> NM bool) (fuel : nat) (header this : nodref)
    (completed : gset nodref) : NM (gset nodref) :=
  match fuel with
  | O => ubM
  | S fuel' =>
      ss ← field succ this;
      (fix loop (i n : nat) (completed : gset nodref) : NM (gset nodref) :=
         match n with
         | O => mret completed
         | S n' =>
             ss ← field succ this;
             x ← derefM (ss !! i);
             if decide (x ∈ completed) then loop (S i) n' completed
             else
               let completed := {[x]} ∪ completed in
               d ← observe (fun p => dominates p header x);
               if (d : bool) then
                 go ← op x;
                 completed ← (if (go : bool)
                              then traverse_dominated_blocks_cached op fuel' header x completed
                              else mret completed);
                 loop (S i) n' completed
               else loop (S i) n' completed
         end) O (length ss) completed
  end.

Definition traverse_dominated_blocks (op : nodref -> NM bool) (this : nodref) : NM unit :=
  fuel ← gets (fun p : CFGNodePool => S (length p));
  _ ← traverse_dominated_blocks_cached op fuel this this ∅;
  mret tt.
