(* ===== verification/CFGTraversal.v ===== *)
(** The analyses of the CFG structurizer (cfg_structurizer.cpp): traversal and visit
    orders, back edges, immediate dominators and post-dominators, reachability, loop
    exits, dominance frontiers, and [recompute_cfg], which runs them all.

    The rewriting passes of the structurizer are not part of this file, apart from the
    helper blocks they insert. *)
From S2P Require Import Prelude.
From S2P Require Import IR.
From S2P Require Import CFGNode.
Local Open Scope Z_scope.

(** * class CFGStructurizer: the members the analyses use *)

Record CFGStructurizer := mkStructurizer {
  pool : CFGNodePool;
  entry_block : nodref;
  exit_block : nodref;
  forward_order : list nodref;
  backward_order : list nodref;
  reachability_bitset : list Z;
  reachability_stride : Z;
  reachable_nodes : gset nodref;
}.

Definition SM : Type -> Type := M CFGStructurizer.

Definition set_pool (p : CFGNodePool) (s : CFGStructurizer) : CFGStructurizer :=
  mkStructurizer p (entry_block s) (exit_block s) (forward_order s) (backward_order s)
    (reachability_bitset s) (reachability_stride s) (reachable_nodes s).
Definition set_entry_block (e : nodref) (s : CFGStructurizer) : CFGStructurizer :=
  mkStructurizer (pool s) e (exit_block s) (forward_order s) (backward_order s)
    (reachability_bitset s) (reachability_stride s) (reachable_nodes s).
Definition set_forward_order (l : list nodref) (s : CFGStructurizer) : CFGStructurizer :=
  mkStructurizer (pool s) (entry_block s) (exit_block s) l (backward_order s)
    (reachability_bitset s) (reachability_stride s) (reachable_nodes s).
Definition set_backward_order (l : list nodref) (s : CFGStructurizer) : CFGStructurizer :=
  mkStructurizer (pool s) (entry_block s) (exit_block s) (forward_order s) l
    (reachability_bitset s) (reachability_stride s) (reachable_nodes s).
Definition set_bitset (b : list Z) (stride : Z) (s : CFGStructurizer) : CFGStructurizer :=
  mkStructurizer (pool s) (entry_block s) (exit_block s) (forward_order s) (backward_order s)
    b stride (reachable_nodes s).
Definition set_reachable (r : gset nodref) (s : CFGStructurizer) : CFGStructurizer :=
  mkStructurizer (pool s) (entry_block s) (exit_block s) (forward_order s) (backward_order s)
    (reachability_bitset s) (reachability_stride s) r.

Definition on_pool {A} (m : NM A) : SM A := zoom pool set_pool m.
Definition observe_all {A} (f : CFGStructurizer -> res A) : SM A := fun s =>
  match f s with Ok a => Ok (a, s) | Fail => Fail | UB => UB end.

(** The constructor. *)
Definition CFGStructurizer_new (entry : nodref) (p : CFGNodePool) : CFGStructurizer :=
  mkStructurizer (p ++ [set_name "EXIT"%string CFGNode_new]) entry (length p) [] [] [] 0 ∅.

(** * Resetting *)

Definition append_opt (l : list nodref) (o : option nodref) : list nodref :=
  match o with Some x => l ++ [x] | None => l end.

(** The body of the loop over the pool: back edges become ordinary edges again. *)
Definition reset_node (n : CFGNode) : CFGNode :=
  let n := set_visited false (set_backward_visited false (set_traversing false n)) in
  let n := set_immediate_dominator None (set_immediate_post_dominator None n) in
  let n := set_fake_pred [] (set_fake_succ [] (set_headers [] n)) in
  let n := if freeze_structured_analysis n then n
           else set_merge MergeNone (set_loop_merge_block None
                  (set_loop_ladder_block None (set_selection_merge_block None n))) in
  let n := set_succ (append_opt (succ n) (succ_back_edge n)) n in
  let n := set_pred (append_opt (pred n) (pred_back_edge n)) n in
  set_succ_back_edge None (set_pred_back_edge None n).

Definition reset_traversal : SM unit :=
  _ ← modify (set_reachable ∅);
  _ ← modify (set_forward_order []);
  _ ← modify (set_backward_order []);
  on_pool (modify (fun p : CFGNodePool => reset_node <$> p)).

(** * Forward traversal *)

Definition begin_visit (entry : nodref) : SM unit :=
  _ ← on_pool (update entry (fun n => set_visited true (set_traversing true n)));
  modify (fun s => set_reachable ({[entry]} ∪ reachable_nodes s) s).

(** An edge to a block that is still being traversed closes a loop. *)
Definition record_back_edge (entry header : nodref) : SM unit :=
  n ← on_pool (node_at entry);
  _ ← assertM (bool_decide (succ_back_edge n = None) || bool_decide (succ_back_edge n = Some header));
  _ ← on_pool (update entry (set_succ_back_edge (Some header)));
  h ← on_pool (node_at header);
  _ ← assertM (bool_decide (pred_back_edge h = None) || bool_decide (pred_back_edge h = Some entry));
  on_pool (update header (set_pred_back_edge (Some entry))).

Definition erase_opt (o : option nodref) (l : list nodref) : list nodref :=
  match o with Some x => erase_first x l | None => l end.

(** The end of [visit]: back edges leave [succ] and [pred], the block gets its number. *)
Definition end_visit (entry : nodref) : SM unit :=
  _ ← on_pool (update entry (fun n => set_succ (erase_opt (succ_back_edge n) (succ n)) n));
  _ ← on_pool (update entry (fun n => set_pred (erase_opt (pred_back_edge n) (pred n)) n));
  order ← gets forward_order;
  _ ← on_pool (update entry (fun n =>
        set_forward_post_visit_order (u32 (zlength order)) (set_traversing false n)));
  modify (set_forward_order (order ++ [entry])).

Fixpoint visit (fuel : nat) (entry : nodref) : SM unit :=
  match fuel with
  | O => ubM
  | S fuel' =>
      _ ← begin_visit entry;
      ss ← on_pool (field succ entry);
      _ ← for_eachM (fun s =>
            n ← on_pool (node_at s);
            if traversing n then record_back_edge entry s
            else if visited n then mret tt
            else visit fuel' s) ss;
      end_visit entry
  end.

(** The recursion of a traversal visits every block at most once. *)
Definition traversal_fuel (s : CFGStructurizer) : nat := S (length (pool s)).

(** [remove_if(pred, not reachable)] on every visited block. *)
Definition prune_dead_preds : SM unit :=
  order ← gets forward_order;
  reachable ← gets reachable_nodes;
  for_eachM (fun r =>
    on_pool (update r (fun n => set_pred (filter (fun p => p ∈ reachable) (pred n)) n))) order.

(** The last index of a vector is numbered highest: iterate from the back. *)
Definition build_immediate_dominators : SM unit :=
  order ← gets forward_order;
  for_eachM (fun r => on_pool (recompute_dominator r)) (reverse order).

(** * Merging multiple back edges before the main traversal *)

Fixpoint visit_for_back_edge_analysis (fuel : nat) (entry : nodref) : SM unit :=
  match fuel with
  | O => ubM
  | S fuel' =>
      _ ← begin_visit entry;
      ss ← on_pool (field succ entry);
      _ ← for_eachM (fun s =>
            n ← on_pool (node_at s);
            if traversing n
            then on_pool (update s (fun n => set_fake_pred (fake_pred n ++ [entry]) n))
            else if visited n then mret tt
            else visit_for_back_edge_analysis fuel' s) ss;
      _ ← on_pool (update entry (set_traversing false));
      n ← on_pool (node_at entry);
      if 2 <=? zlength (fake_pred n) then
        new_back_edge ← on_pool create_node;
        _ ← on_pool (update new_back_edge (set_name (name n +:+ ".back-edge-merge")));
        _ ← on_pool (for_eachM (fun b =>
              retarget_branch_pre_traversal b entry new_back_edge) (fake_pred n));
        _ ← on_pool (update new_back_edge (fun b => set_succ (succ b ++ [entry]) b));
        _ ← on_pool (update new_back_edge (fun b =>
              set_terminator (branch_terminator entry (terminator (ir b))) b));
        on_pool (add_branch new_back_edge entry)
      else mret tt
  end.

Definition rewrite_multiple_back_edges : SM unit :=
  _ ← reset_traversal;
  e ← gets entry_block;
  fuel ← gets traversal_fuel;
  visit_for_back_edge_analysis fuel e.

(** * Reachability *)

(** [for (i = 0; i < stride; i++) bits[dst + i] |= bits[src + i];] *)
Definition or_words (dst src stride : Z) (bits : list Z) : res (list Z) :=
  for_range (fun i bits =>
    d ← some_or_ub (zlookup bits (dst + i));
    s ← some_or_ub (zlookup bits (src + i));
    Ok (<[Z.to_nat (dst + i) := Z.lor d s]> bits)) stride bits.

(** [bits[i] |= 1u << b] *)
Definition set_bit (i b : Z) (bits : list Z) : res (list Z) :=
  w ← some_or_ub (zlookup bits i);
  Ok (<[Z.to_nat i := Z.lor w (Z.shiftl 1 b)]> bits).

Definition visit_reachability (r : nodref) : SM unit :=
  n ← on_pool (node_at r);
  stride ← gets reachability_stride;
  let dst := forward_post_visit_order n * stride in
  _ ← for_eachM (fun x =>
        sn ← on_pool (node_at x);
        bits ← gets reachability_bitset;
        bits ← lift (or_words dst (forward_post_visit_order sn * stride) stride bits);
        modify (set_bitset bits stride)) (succ n);
  bits ← gets reachability_bitset;
  bits ← lift (set_bit (dst + forward_post_visit_order n / 32)
                       (Z.land (forward_post_visit_order n) 31) bits);
  modify (set_bitset bits stride).

Definition build_reachability : SM unit :=
  order ← gets forward_order;
  let stride := (zlength order + 31) / 32 in
  _ ← modify (set_bitset (replicate (Z.to_nat (stride * zlength order)) 0) stride);
  for_eachM visit_reachability order.

Definition query_reachability (s : CFGStructurizer) (from to : nodref) : res bool :=
  if decide (from = to) then Ok true
  else
    f ← node (pool s) from;
    t ← node (pool s) to;
    w ← some_or_ub (zlookup (reachability_bitset s)
          (forward_post_visit_order f * reachability_stride s + forward_post_visit_order t / 32));
    Ok (negb (Z.land w (Z.shiftl 1 (Z.land (forward_post_visit_order t) 31)) =? 0)).

Definition query_reachability_through_back_edges (s : CFGStructurizer) (from to : nodref)
    : res bool :=
  d ← dominates (pool s) to from;
  if (d : bool) then
    t ← node (pool s) to;
    match pred_back_edge t with
    | Some c => query_reachability s from c
    | None => Ok false
    end
  else query_reachability s from to.

Definition query_reachability_split_loop_header (s : CFGStructurizer) (from to end_node : nodref)
    : res bool :=
  e ← node (pool s) end_node;
  if negb (has_pred_back_edges e) then query_reachability s from to
  else
    f ← query_reachability s from end_node;
    t ← query_reachability s to end_node;
    if negb (bool_decide ((f : bool) = t)) then Ok false else query_reachability s from to.

(** [get_innermost_loop_header_for(header, other)] *)
Fixpoint innermost_loop_header_walk (fuel : nat) (s : CFGStructurizer) (header block other : nodref)
    : res nodref :=
  match fuel with
  | O => UB
  | S fuel' =>
      if decide (header = other) then Ok other
      else
        o ← node (pool s) other;
        if bool_decide (pred o = []) then Ok other
        else
          stop ← match pred_back_edge o with
                 | None => Ok false
                 | Some c => if decide (c = block) then Ok true
                             else negb <$> query_reachability s c block
                 end;
          if (stop : bool) then Ok other
          else d ← some_or_ub (immediate_dominator o); innermost_loop_header_walk fuel' s header block d
  end.

Definition get_innermost_loop_header_for (s : CFGStructurizer) (header other : nodref) : res nodref :=
  innermost_loop_header_walk (S (length (pool s))) s header other other.

(** * Backward traversal *)

Section tracers.
Variable p : CFGNodePool.

(** [LoopBacktracer::trace_to_parent] *)
Fixpoint trace_to_parent (fuel : nat) (header block : nodref) (traced_blocks : gset nodref)
    : res (gset nodref) :=
  match fuel with
  | O => UB
  | S fuel' =>
      if decide (block = header) then Ok ({[block]} ∪ traced_blocks)
      else if decide (block ∈ traced_blocks) then Ok traced_blocks
      else
        let traced_blocks := {[block]} ∪ traced_blocks in
        n ← node p block;
        traced_blocks ← for_each (trace_to_parent fuel' header) (pred n) traced_blocks;
        match pred_back_edge n with
        | Some c => trace_to_parent fuel' header c traced_blocks
        | None => Ok traced_blocks
        end
  end.

(** [LoopMergeTracer::trace_from_parent]; the state is [loop_exits] and [traced_blocks]. *)
Fixpoint trace_from_parent (backtraced : gset nodref) (fuel : nat) (header : nodref)
    (st : list nodref * gset nodref) : res (list nodref * gset nodref) :=
  match fuel with
  | O => UB
  | S fuel' =>
      let '(loop_exits, traced_blocks) := st in
      if decide (header ∉ backtraced) then Ok (push_unique header loop_exits, traced_blocks)
      else
        n ← node p header;
        for_each (fun x (st : list nodref * gset nodref) =>
          if decide (x ∈ snd st) then Ok st
          else
            st ← trace_from_parent backtraced fuel' x st;
            Ok (fst (st : list nodref * gset nodref), {[x]} ∪ snd st)) (succ n)
          (loop_exits, traced_blocks)
  end.
End tracers.

(** [std::sort] by descending key, for distinct keys. *)
Fixpoint insert_descending (key : nodref -> Z) (x : nodref) (l : list nodref) : list nodref :=
  match l with
  | [] => [x]
  | y :: l' => if key y <? key x then x :: l else y :: insert_descending key x l'
  end.
Definition sort_descending (key : nodref -> Z) (l : list nodref) : list nodref :=
  foldr (insert_descending key) [] l.

Definition order_in (p : CFGNodePool) (r : nodref) : Z :=
  match p !! r with Some n => forward_post_visit_order n | None => 0 end.

Fixpoint backwards_visit_from (fuel : nat) (entry : nodref) : SM unit :=
  match fuel with
  | O => ubM
  | S fuel' =>
      _ ← on_pool (update entry (set_backward_visited true));
      n ← on_pool (node_at entry);
      _ ← for_eachM (fun x =>
            xn ← on_pool (node_at x);
            if backward_visited xn then mret tt else backwards_visit_from fuel' x)
            (pred n ++ fake_pred n);
      order ← gets backward_order;
      _ ← on_pool (update entry (set_backward_post_visit_order (u32 (zlength order))));
      modify (set_backward_order (order ++ [entry]))
  end.

(** Should the single exit of an infinite loop be turned into its merge block? *)
Definition transpose_loop_exit (s : CFGStructurizer) (header : nodref) (exits : list nodref)
    : res bool :=
  match exits with
  | [exit_node] =>
      d ← dominates_all_reachable_exits (pool s) exit_node;
      if (d : bool) then
        innermost ← get_innermost_loop_header_for s header exit_node;
        Ok (bool_decide (innermost = header))
      else Ok false
  | _ => Ok false
  end.

(** The edges a continue block that no leaf reaches backwards gets to the loop exits. *)
Definition link_exit (transpose : bool) (header continue exit : nodref) : SM unit :=
  if transpose then
    f ← on_pool (node_at exit);
    real ← match immediate_dominator f with
           | None => mret false
           | Some i =>
               idom ← on_pool (node_at i);
               if is_switch idom then observe_all (fun s => dominates (pool s) header i)
               else mret false
           end;
    if (real : bool) then on_pool (add_branch continue exit)
    else on_pool (add_fake_branch continue exit)
  else
    b ← observe_all (fun s => reaches_backward_visited_node (pool s) exit);
    if (b : bool) then on_pool (add_fake_branch continue exit) else mret tt.

Definition link_infinite_loop (header continue : nodref) : SM unit :=
  fuel ← gets traversal_fuel;
  traced ← observe_all (fun s => trace_to_parent (pool s) fuel header continue ∅);
  st ← observe_all (fun s => trace_from_parent (pool s) traced fuel header ([], ∅));
  key ← gets (fun s => order_in (pool s));
  let exits := sort_descending key (fst (st : list nodref * gset nodref)) in
  transpose ← observe_all (fun s => transpose_loop_exit s header exits);
  _ ← for_eachM (link_exit transpose header continue) exits;
  c ← on_pool (node_at continue);
  if bool_decide (succ c = []) && bool_decide (fake_succ c = []) then mret tt
  else on_pool (update continue (set_backward_visited true)).

(** One header of the second loop; the result says whether a revisit is needed. *)
Definition link_header (r : nodref) (need_revisit : bool) : SM bool :=
  n ← on_pool (node_at r);
  match pred_back_edge n with
  | None => mret need_revisit
  | Some c =>
      cn ← on_pool (node_at c);
      if backward_visited cn then mret need_revisit
      else _ ← link_infinite_loop r c; mret true
  end.

Fixpoint link_headers (l : list nodref) (need_revisit : bool) : SM bool :=
  match l with
  | [] => mret need_revisit
  | r :: l' => b ← link_header r need_revisit; link_headers l' b
  end.

Definition clear_backward (reset_order : bool) : SM unit :=
  order ← gets forward_order;
  for_eachM (fun r => on_pool (update r (fun n =>
    let n := set_backward_visited false (set_traversing false n) in
    if reset_order then set_backward_post_visit_order 0 n else n))) order.

Definition is_leaf (p : CFGNodePool) (r : nodref) : Prop :=
  match p !! r with
  | Some n => succ n = [] /\ succ_back_edge n = None
  | None => False
  end.
#[export] Instance is_leaf_dec p r : Decision (is_leaf p r).
Proof. unfold is_leaf. destruct (p !! r); apply _. Defined.

(** In the code a second traversal appends to the order of the first one. *)
Definition backwards_visit : SM unit :=
  order ← gets forward_order;
  _ ← clear_backward false;
  leaf_nodes ← gets (fun s => filter (is_leaf (pool s)) order);
  fuel ← gets traversal_fuel;
  _ ← for_eachM (backwards_visit_from fuel) leaf_nodes;
  need_revisit ← link_headers (reverse order) false;
  _ ← (if (need_revisit : bool)
       then _ ← clear_backward true; for_eachM (backwards_visit_from fuel) leaf_nodes
       else mret tt);
  exit ← gets exit_block;
  bo ← gets backward_order;
  _ ← on_pool (update exit (fun n =>
        set_backward_post_visit_order (u32 (zlength bo))
          (set_immediate_post_dominator (Some exit) (set_backward_visited true n))));
  for_eachM (fun leaf => on_pool (update leaf (set_immediate_post_dominator (Some exit)))) leaf_nodes.

Definition build_immediate_post_dominators : SM unit :=
  order ← gets backward_order;
  for_eachM (fun r => on_pool (recompute_post_dominator r)) (reverse order).

(** * Dominance frontiers *)

(** One frontier block moves up to the immediate dominator unless that dominates it. *)
Definition propagate_frontier (idom frontier_node : nodref) : NM unit :=
  d ← observe (fun p => dominates p idom frontier_node);
  if (d : bool) then mret tt
  else update idom (fun n => set_dominance_frontier
                              (push_unique frontier_node (dominance_frontier n)) n).

Definition recompute_dominance_frontier (r : nodref) : NM unit :=
  ss ← field succ r;
  for_eachM (fun s =>
    sn ← node_at s;
    _ ← (if bool_decide (immediate_dominator sn <> Some r)
         then update r (fun n => set_dominance_frontier (push_unique s (dominance_frontier n)) n)
         else mret tt);
    n ← node_at r;
    match immediate_dominator n with
    | Some idom => for_eachM (propagate_frontier idom) (dominance_frontier n)
    | None => mret tt
    end) ss.

Definition propagate_post_frontier (ipdom frontier_node : nodref) : NM unit :=
  d ← observe (fun p => post_dominates p ipdom frontier_node);
  if (d : bool) then mret tt
  else update ipdom (fun n => set_post_dominance_frontier
                               (push_unique frontier_node (post_dominance_frontier n)) n).

Definition recompute_post_dominance_frontier (r : nodref) : NM unit :=
  ps ← field pred r;
  for_eachM (fun p =>
    pn ← node_at p;
    _ ← (if bool_decide (immediate_post_dominator pn <> Some r)
         then update r (fun n => set_post_dominance_frontier
                                   (push_unique p (post_dominance_frontier n)) n)
         else mret tt);
    n ← node_at r;
    match immediate_post_dominator n with
    | Some ipdom => for_eachM (propagate_post_frontier ipdom) (post_dominance_frontier n)
    | None => mret tt
    end) ps.

Definition compute_dominance_frontier : SM unit :=
  order ← gets forward_order;
  _ ← for_eachM (fun r => on_pool (update r (set_dominance_frontier []))) order;
  for_eachM (fun r => on_pool (recompute_dominance_frontier r)) order.

Definition compute_post_dominance_frontier : SM unit :=
  order ← gets backward_order;
  _ ← for_eachM (fun r => on_pool (update r (set_post_dominance_frontier []))) order;
  for_eachM (fun r => on_pool (recompute_post_dominance_frontier r)) order.

(** * recompute_cfg *)

Definition visit_entry : SM unit :=
  e ← gets entry_block;
  fuel ← gets traversal_fuel;
  visit fuel e.

(** The part of [recompute_cfg] that looks at forward edges. *)
Definition forward_analysis : SM unit :=
  _ ← reset_traversal;
  _ ← visit_entry;
  _ ← prune_dead_preds;
  _ ← build_immediate_dominators;
  build_reachability.

Definition recompute_cfg : SM unit :=
  _ ← forward_analysis;
  _ ← backwards_visit;
  _ ← build_immediate_post_dominators;
  _ ← compute_dominance_frontier;
  compute_post_dominance_frontier.

(** * Structured ranges *)

Fixpoint isolate_structured (p : CFGNodePool) (fuel : nat) (header merge : nodref)
    (nodes : gset nodref) : res (gset nodref) :=
  match fuel with
  | O => UB
  | S fuel' =>
      n ← node p merge;
      for_each (fun x nodes =>
        if decide (x = header \/ x ∈ nodes) then Ok nodes
        else isolate_structured p fuel' header x ({[x]} ∪ nodes)) (pred n) nodes
  end.

Definition isolate_structured_sorted (p : CFGNodePool) (header merge : nodref) : res (list nodref) :=
  nodes ← isolate_structured p (S (S (length p))) header merge ∅;
  Ok (sort_descending (order_in p) (elements nodes)).

Definition merge_to_succ (r : nodref) (index : nat) : NM unit :=
  n ← node_at r;
  x ← derefM (succ n !! index);
  _ ← add_unique_header x r;
  update r (fun n => set_merge MergeSelection (set_selection_merge_block (Some x) n)).

(** * Helper blocks *)

Definition replace_all (from to : nodref) (l : list nodref) : list nodref :=
  (fun x => if decide (x = from) then to else x) <$> l.

Definition retarget_pred_from (new_node old_succ : nodref) : SM unit :=
  n ← on_pool (node_at new_node);
  _ ← for_eachM (fun p => on_pool (update p (fun n =>
        set_terminator (retarget_terminator old_succ new_node (terminator (ir n)))
          (set_succ (replace_all old_succ new_node (succ n)) n)))) (pred n);
  order ← gets forward_order;
  for_eachM (fun r => on_pool (update r (fun n =>
    set_immediate_post_dominator
      (retarget_ptr old_succ new_node (immediate_post_dominator n)) n))) order.

Definition retarget_succ_from (new_node old_pred : nodref) : SM unit :=
  n ← on_pool (node_at new_node);
  _ ← for_eachM (fun s => on_pool (update s (fun n =>
        set_pred (replace_all old_pred new_node (pred n)) n))) (succ n);
  order ← gets forward_order;
  _ ← for_eachM (fun r =>
        if decide (r = old_pred) then mret tt
        else on_pool (update r (fun n =>
               set_immediate_dominator (retarget_ptr old_pred new_node (immediate_dominator n)) n)))
        order;
  on_pool (update new_node (set_immediate_dominator (Some old_pred))).

Definition create_helper_pred_block (r : nodref) : SM nodref :=
  pred_node ← on_pool create_node;
  n ← on_pool (node_at r);
  _ ← on_pool (update pred_node (fun x =>
        set_name (name n +:+ ".pred")
          (set_forward_post_visit_order (forward_post_visit_order n)
             (set_backward_post_visit_order (backward_post_visit_order n)
                (set_pred (pred n) x)))));
  _ ← on_pool (update r (set_pred []));
  _ ← on_pool (for_eachM (fun h => fixup_merge_info_after_branch_rewrite h r pred_node) (headers n));
  _ ← on_pool (update r (set_headers []));
  _ ← on_pool (update pred_node (fun x =>
        set_immediate_post_dominator (Some r)
          (set_immediate_dominator
             (if decide (immediate_dominator n = Some r) then Some pred_node
              else immediate_dominator n) x)));
  _ ← on_pool (update r (set_immediate_dominator (Some pred_node)));
  _ ← retarget_pred_from pred_node r;
  _ ← on_pool (add_branch pred_node r);
  e ← gets entry_block;
  _ ← (if decide (r = e) then modify (set_entry_block pred_node) else mret tt);
  _ ← on_pool (update pred_node (fun x =>
        set_terminator (branch_terminator r (terminator (ir x))) x));
  mret pred_node.

Definition set_merge_info (m : MergeInfo) (n : CFGNode) : CFGNode :=
  set_ir (mkIRBlock (phi (ir n)) (operations (ir n)) m (terminator (ir n))) n.

Definition create_helper_succ_block (r : nodref) : SM nodref :=
  succ_node ← on_pool create_node;
  n ← on_pool (node_at r);
  let t := terminator (ir n) in
  _ ← on_pool (update succ_node (fun x =>
        set_name (name n +:+ ".succ")
          (set_forward_post_visit_order (forward_post_visit_order n)
             (set_backward_post_visit_order (backward_post_visit_order n)
                (set_succ (succ n)
                   (set_immediate_post_dominator (immediate_post_dominator n)
                      (set_terminator t x)))))));
  _ ← on_pool (update r (fun x =>
        set_succ [] (set_immediate_post_dominator (Some succ_node)
          (set_terminator (branch_terminator succ_node t) x))));
  _ ← (if bool_decide (term_type t = TCondition)
       then on_pool (update succ_node (fun x =>
              let m := merge_info (ir x) in
              set_merge_info (mkMergeInfo (merge_type m) (merge_block m) (continue_block m)
                (loop_control_mask m) (selection_control_mask (merge_info (ir n)))) x))
       else mret tt);
  _ ← retarget_succ_from succ_node r;
  _ ← on_pool (add_branch r succ_node);
  mret succ_node.

(** * Small samples *)

(** A pool from successor lists, built by [add_branch]. *)
Definition sample_pool (edges : list (list nodref)) : CFGNodePool :=
  match for_eachM (fun e : nodref * list nodref => for_eachM (add_branch (fst e)) (snd e))
          (zip (seq 0 (length edges)) edges) (replicate (length edges) CFGNode_new) with
  | Ok (_, p) => p
  | _ => []
  end.

Definition sample_cfg (edges : list (list nodref)) : CFGStructurizer :=
  CFGStructurizer_new 0%nat (sample_pool edges).

Definition run_on {A} (m : SM A) (s : CFGStructurizer) : CFGStructurizer :=
  match m s with Ok (_, s') => s' | _ => s end.
