(* ===== verification/CFGGraph.v ===== *)
(** The graph the analyses work on: members of nodes as functions of the pool, the
    interface a traversed graph offers ([forward_graph]), paths, reachability and
    dominance as statements about paths. *)
From S2P Require Import Prelude.
From S2P Require Import IR.
From S2P Require Import CFGNode.
From S2P Require Import CFGTraversal.
Local Open Scope Z_scope.

(** * Members as functions of the pool *)

Definition get {A} (f : CFGNode -> A) (d : A) (p : CFGNodePool) (x : nodref) : A :=
  match p !! x with Some n => f n | None => d end.

Abbreviation succ_of := (get succ []).
Abbreviation pred_of := (get pred []).
Abbreviation order_of := (get forward_post_visit_order 0).
Abbreviation visited_of := (get visited false).
Abbreviation traversing_of := (get traversing false).
Abbreviation back_from := (get succ_back_edge None).
Abbreviation back_to := (get pred_back_edge None).
Abbreviation idom_of := (get immediate_dominator None).
Abbreviation df_of := (get dominance_frontier []).

Lemma get_insert {A} (f : CFGNode -> A) d p r n m x :
  p !! r = Some m -> get f d (<[r := n]> p) x = if decide (x = r) then f n else get f d p x.
Proof.
  intros Hr. unfold get. case_decide as E.
  - subst. rewrite list_lookup_insert_eq; [done|]. by eapply lookup_lt_Some.
  - by rewrite list_lookup_insert_ne.
Qed.

(** A member an assignment does not touch. *)
Lemma get_insert_same {A} (f : CFGNode -> A) d p r n m x :
  p !! r = Some m -> f n = f m -> get f d (<[r := n]> p) x = get f d p x.
Proof.
  intros Hr E. rewrite (get_insert _ _ _ _ _ _ _ Hr). case_decide; [|done].
  subst. unfold get. by rewrite Hr.
Qed.

Lemma get_at {A} (f : CFGNode -> A) d p r n : p !! r = Some n -> get f d p r = f n.
Proof. intros H. unfold get. by rewrite H. Qed.

(** * Elementary routines on the pool *)

Lemma node_at_run p r n : p !! r = Some n -> node_at r p = Ok (n, p).
Proof. intros H. unfold node_at, mbind, M_bind, gets, derefM, lift. by rewrite H. Qed.

Lemma field_run {A} (f : CFGNode -> A) p r n : p !! r = Some n -> field f r p = Ok (f n, p).
Proof. intros H. unfold field. by rewrite (bindM_run _ _ _ _ _ (node_at_run _ _ _ H)). Qed.

Lemma update_run p r n f : p !! r = Some n -> update r f p = Ok (tt, <[r := f n]> p).
Proof. intros H. unfold update. by rewrite (bindM_run _ _ _ _ _ (node_at_run _ _ _ H)). Qed.

Lemma node_at_inv p r n p' : node_at r p = Ok (n, p') -> p !! r = Some n /\ p' = p.
Proof.
  unfold node_at, mbind, M_bind, gets, derefM, lift, some_or_ub.
  destruct (p !! r); simpl; [|done]. by intros [= -> ->].
Qed.

Lemma field_inv {A} (f : CFGNode -> A) p r a p' :
  field f r p = Ok (a, p') -> exists n, p !! r = Some n /\ a = f n /\ p' = p.
Proof.
  unfold field. intros (n & p1 & E & [= <- <-])%bindM_Ok. apply node_at_inv in E as [? ->]. eauto.
Qed.

Lemma update_inv p r f u p' :
  update r f p = Ok (u, p') -> exists n, p !! r = Some n /\ p' = <[r := f n]> p.
Proof.
  unfold update. intros (n & p1 & E & [= _ <-])%bindM_Ok. apply node_at_inv in E as [? ->]. eauto.
Qed.

Lemma observe_inv {A} (f : CFGNodePool -> res A) p a p' :
  observe f p = Ok (a, p') -> f p = Ok a /\ p' = p.
Proof. unfold observe. destruct (f p); [|done..]. by intros [= -> ->]. Qed.

Lemma runs_node_at p r n (Q : CFGNode -> CFGNodePool -> Prop) :
  p !! r = Some n -> Q n p -> runs (node_at r) p Q.
Proof. intros H ?. exists n, p. by rewrite (node_at_run _ _ _ H). Qed.

Lemma runs_field {A} (f : CFGNode -> A) p r n (Q : A -> CFGNodePool -> Prop) :
  p !! r = Some n -> Q (f n) p -> runs (field f r) p Q.
Proof. intros H ?. exists (f n), p. by rewrite (field_run _ _ _ _ H). Qed.

Lemma runs_update p r n f (Q : unit -> CFGNodePool -> Prop) :
  p !! r = Some n -> Q tt (<[r := f n]> p) -> runs (update r f) p Q.
Proof. intros H ?. exists tt, (<[r := f n]> p). by rewrite (update_run _ _ _ _ H). Qed.

Lemma runs_observe {A} (f : CFGNodePool -> res A) p a (Q : A -> CFGNodePool -> Prop) :
  f p = Ok a -> Q a p -> runs (observe f) p Q.
Proof. intros E ?. exists a, p. unfold observe. by rewrite E. Qed.

(** Only the pool differs. *)
Definition same_but_pool (s s' : CFGStructurizer) : Prop := set_pool [] s' = set_pool [] s.

#[export] Instance same_but_pool_po : PreOrder same_but_pool.
Proof. split; [done|]. intros a b c ??. unfold same_but_pool in *. congruence. Qed.

Lemma set_pool_id s : set_pool (pool s) s = s.
Proof. by destruct s. Qed.

Lemma on_pool_node_at_inv s r n s' :
  on_pool (node_at r) s = Ok (n, s') -> pool s !! r = Some n /\ s' = s.
Proof.
  intros (p & E & ->)%zoom_Ok. apply node_at_inv in E as [? ->]. by rewrite set_pool_id.
Qed.

Lemma on_pool_field_inv {A} (f : CFGNode -> A) s r a s' :
  on_pool (field f r) s = Ok (a, s') -> exists n, pool s !! r = Some n /\ a = f n /\ s' = s.
Proof.
  intros (p & E & ->)%zoom_Ok. apply field_inv in E as (n & ? & ? & ->). rewrite set_pool_id. eauto.
Qed.

Lemma on_pool_update_inv s r f u s' :
  on_pool (update r f) s = Ok (u, s') ->
  exists n, pool s !! r = Some n /\ s' = set_pool (<[r := f n]> (pool s)) s.
Proof. intros (p & E & ->)%zoom_Ok. apply update_inv in E as (n & ? & ->). eauto. Qed.

Lemma runs_on_pool_node_at s r n (Q : CFGNode -> CFGStructurizer -> Prop) :
  pool s !! r = Some n -> Q n s -> runs (on_pool (node_at r)) s Q.
Proof. intros H ?. apply runs_zoom. eapply runs_node_at; [done|]. by rewrite set_pool_id. Qed.

Lemma runs_on_pool_field {A} (f : CFGNode -> A) s r n (Q : A -> CFGStructurizer -> Prop) :
  pool s !! r = Some n -> Q (f n) s -> runs (on_pool (field f r)) s Q.
Proof. intros H ?. apply runs_zoom. eapply runs_field; [done|]. by rewrite set_pool_id. Qed.

Lemma runs_on_pool_update s r n f (Q : unit -> CFGStructurizer -> Prop) :
  pool s !! r = Some n -> Q tt (set_pool (<[r := f n]> (pool s)) s) -> runs (on_pool (update r f)) s Q.
Proof. intros H ?. apply runs_zoom. by eapply runs_update. Qed.

(** Inversion of the steps of a routine over the structurizer. *)
Ltac inv_cfg :=
  repeat match goal with
  | H : on_pool (node_at _) _ = Ok _ |- _ => apply on_pool_node_at_inv in H as [? ->]
  | H : on_pool (field _ _) _ = Ok _ |- _ => apply on_pool_field_inv in H as (? & ? & -> & ->)
  | H : on_pool (update _ _) _ = Ok _ |- _ => apply on_pool_update_inv in H as (? & ? & ->)
  | _ => progress inv_run
  end.

(** * The traversed graph

    What a traversal from [e] leaves behind, with [L] the visited blocks in post-order:
    forward edges go from later to earlier positions, predecessors mirror them, and
    every block but the entry has one. *)
Class forward_graph (p : CFGNodePool) (e : nodref) (L : list nodref) : Prop := {
  fg_nodup : NoDup L;
  fg_order i x : L !! i = Some x -> order_of p x = Z.of_nat i;
  fg_range x : x ∈ L -> is_Some (p !! x);
  fg_entry : e ∈ L;
  fg_edge x y : x ∈ L -> y ∈ succ_of p x ->
    y ∈ L /\ x ∈ pred_of p y /\ order_of p y < order_of p x;
  fg_pred x y : y ∈ L -> x ∈ pred_of p y -> x ∈ L /\ y ∈ succ_of p x;
  fg_root : pred_of p e = [];
  fg_inner y : y ∈ L -> y <> e -> pred_of p y <> [];
}.

(** The graph of a pool only depends on these members. *)
Definition same_shape (p p' : CFGNodePool) : Prop :=
  (length p' = length p /\
   forall x, back_from p' x = back_from p x /\ back_to p' x = back_to p x) /\
  forall x, succ_of p' x = succ_of p x /\ pred_of p' x = pred_of p x /\
    order_of p' x = order_of p x.

#[export] Instance same_shape_po : PreOrder same_shape.
Proof.
  split; [by intros p|]. intros p q r [[L1 B1] H1] [[L2 B2] H2]. split; [split; [lia|]|]; intros x.
  - destruct (B1 x), (B2 x). split; congruence.
  - destruct (H1 x) as (?&?&?), (H2 x) as (?&?&?). repeat split; congruence.
Qed.

Lemma same_shape_insert p r n m :
  p !! r = Some m -> succ n = succ m -> pred n = pred m ->
  forward_post_visit_order n = forward_post_visit_order m ->
  succ_back_edge n = succ_back_edge m -> pred_back_edge n = pred_back_edge m ->
  same_shape p (<[r := n]> p).
Proof.
  intros Hr Hs Hp Ho Hf Ht. split; [split; [apply length_insert|]|]; intros x;
    by rewrite !(get_insert_same _ _ _ _ _ _ _ Hr).
Qed.

Lemma forward_graph_shape p p' e L :
  same_shape p p' -> forward_graph p e L -> forward_graph p' e L.
Proof.
  intros [[Hl _] H] G. split.
  - apply G.
  - intros i x Hx. destruct (H x) as (_ & _ & ->). by eapply fg_order.
  - intros x Hx. apply lookup_lt_is_Some. rewrite Hl. apply lookup_lt_is_Some. by apply G.
  - apply G.
  - intros x y Hx. destruct (H x) as (-> & _ & ->), (H y) as (_ & -> & ->). by apply G.
  - intros x y Hy. destruct (H x) as (-> & _ & _), (H y) as (_ & -> & _). by apply G.
  - destruct (H e) as (_ & -> & _). apply G.
  - intros y. destruct (H y) as (_ & -> & _). apply G.
Qed.

(** * Paths *)

Definition edge (p : CFGNodePool) (x y : nodref) : Prop := y ∈ succ_of p x.
Definition reaches (p : CFGNodePool) : nodref -> nodref -> Prop := rtc (edge p).

(** [path_from p e l x]: [l] lists the blocks of a path from [e] to [x], the last first. *)
Inductive path_from (p : CFGNodePool) (e : nodref) : list nodref -> nodref -> Prop :=
| path_entry : path_from p e [e] e
| path_step l x y : path_from p e l x -> y ∈ succ_of p x -> path_from p e (y :: l) y.

(** [a] lies on every path from the entry to [b]. *)
Definition on_every_path (p : CFGNodePool) (e a b : nodref) : Prop :=
  forall l, path_from p e l b -> a ∈ l.

Lemma path_from_head p e l x : path_from p e l x -> x ∈ l.
Proof. destruct 1; left. Qed.

Lemma path_from_shape p p' e l x : same_shape p p' -> path_from p e l x -> path_from p' e l x.
Proof.
  intros [_ H]. induction 1 as [|l x y _ IH Hy]; [constructor|].
  econstructor; [exact IH|]. by destruct (H x) as (-> & _ & _).
Qed.

Lemma same_shape_sym p p' : same_shape p p' -> same_shape p' p.
Proof.
  intros [[L B] H]. split; [split; [done|]|]; intros x.
  - by destruct (B x).
  - destruct (H x) as (?&?&?). by repeat split.
Qed.

Lemma on_every_path_shape p p' e a b :
  same_shape p p' -> on_every_path p e a b -> on_every_path p' e a b.
Proof. intros H Hd l Hl. apply Hd. eapply path_from_shape; [by apply same_shape_sym|done]. Qed.

Lemma reaches_shape p p' x y : same_shape p p' -> reaches p x y -> reaches p' x y.
Proof.
  intros [_ H]. induction 1 as [|x y z Hxy _ IH]; [apply rtc_refl|].
  eapply rtc_l; [|exact IH]. unfold edge in *. by destruct (H x) as (-> & _ & _).
Qed.

Section graph.
Context (p : CFGNodePool) (e : nodref) (L : list nodref) `{G : !forward_graph p e L}.

Lemma order_bounds x : x ∈ L -> 0 <= order_of p x < zlength L.
Proof using G.
  intros [i Hi]%list_elem_of_lookup. rewrite (fg_order _ _ Hi).
  apply lookup_lt_Some in Hi. unfold zlength. lia.
Qed.

Lemma order_lookup x : x ∈ L -> L !! Z.to_nat (order_of p x) = Some x.
Proof using G. intros [i Hi]%list_elem_of_lookup. by rewrite (fg_order _ _ Hi), Nat2Z.id. Qed.

Lemma order_inj x y : x ∈ L -> y ∈ L -> order_of p x = order_of p y -> x = y.
Proof using G.
  intros Hx Hy E. apply order_lookup in Hx, Hy. rewrite E, Hy in Hx. by injection Hx.
Qed.

Lemma zlength_L : zlength L <= zlength p.
Proof using G.
  unfold zlength. assert (L ⊆+ seq 0 (length p)) as H%submseteq_length.
  { apply NoDup_submseteq; [apply fg_nodup|]. intros x Hx. apply elem_of_seq.
    pose proof (fg_range x Hx) as Hr%lookup_lt_is_Some. lia. }
  rewrite length_seq in H. lia.
Qed.

Lemma reaches_order x y : x ∈ L -> reaches p x y -> y ∈ L /\ (x = y \/ order_of p y < order_of p x).
Proof using G.
  intros Hx H. revert Hx. induction H as [x|x y z Hxy _ IH]; intros Hx; [auto|].
  destruct (fg_edge x y Hx Hxy) as (Hy & _ & Ho). destruct (IH Hy) as (Hz & [->|]); split; auto; right; lia.
Qed.

(** Induction along forward edges, from the entry down. *)
Lemma graph_ind (P : nodref -> Prop) :
  (forall y, y ∈ L -> (forall x, x ∈ L -> order_of p y < order_of p x -> P x) -> P y) ->
  forall y, y ∈ L -> P y.
Proof using G.
  intros H y Hy. remember (Z.to_nat (zlength L - order_of p y)) as k eqn:Hk.
  revert y Hy Hk. induction k as [k IH] using lt_wf_ind. intros y Hy ->.
  apply H; [done|]. intros x Hx Ho. eapply IH; [|done|reflexivity].
  pose proof (order_bounds x Hx). pose proof (order_bounds y Hy). lia.
Qed.

Lemma inner_pred y : y ∈ L -> y <> e -> exists x, x ∈ pred_of p y /\ x ∈ L /\ y ∈ succ_of p x /\
  order_of p y < order_of p x.
Proof using G.
  intros Hy Hne. pose proof (fg_inner y Hy Hne). destruct (pred_of p y) as [|x ps] eqn:E; [done|].
  exists x. assert (x ∈ pred_of p y) as Hx by (rewrite E; left).
  destruct (fg_pred x y Hy Hx) as [HxL Hs]. destruct (fg_edge x y HxL Hs) as (_ & _ & ?).
  split_and!; try done. left.
Qed.

Lemma entry_path x : x ∈ L -> exists l, path_from p e l x.
Proof using G.
  revert x. apply graph_ind. intros y Hy IH. destruct (decide (y = e)) as [->|Hne].
  - exists [e]. constructor.
  - destruct (inner_pred y Hy Hne) as (x & _ & HxL & Hs & Ho).
    destruct (IH x HxL Ho) as [l Hl]. exists (y :: l). by econstructor.
Qed.

Lemma path_in_graph l x : path_from p e l x -> x ∈ L.
Proof using G.
  induction 1 as [|l x y _ IH Hy]; [apply fg_entry|]. by apply (fg_edge x y IH Hy).
Qed.

Lemma entry_reaches x : x ∈ L -> reaches p e x.
Proof using G.
  intros [l Hl]%entry_path. induction Hl as [|l x y _ IH Hy]; [apply rtc_refl|].
  eapply rtc_r; [exact IH|exact Hy].
Qed.

Lemma on_every_path_entry a : on_every_path p e a e <-> a = e.
Proof using G.
  split.
  - intros H. specialize (H [e] (path_entry p e)). by apply list_elem_of_singleton in H.
  - intros -> l Hl. by eapply path_from_head.
Qed.

(** The equation dominators satisfy. *)
Lemma on_every_path_pred a y : y ∈ L -> y <> e ->
  on_every_path p e a y <-> a = y \/ forall x, x ∈ pred_of p y -> on_every_path p e a x.
Proof using G.
  intros Hy Hne. split.
  - intros H. destruct (decide (a = y)) as [->|Ha]; [by left|]. right. intros x Hx l Hl.
    destruct (fg_pred x y Hy Hx) as [_ Hs].
    specialize (H _ (path_step p e l x y Hl Hs)). apply elem_of_cons in H as [?|?]; done.
  - intros [->|H] l Hl; [by eapply path_from_head|].
    inversion Hl as [|l' x y' Hl' Hs]; subst; [done|]. right.
    assert (x ∈ L) as Hx by by eapply path_in_graph.
    destruct (fg_edge x y Hx Hs) as (_ & Hp & _). by apply (H x Hp).
Qed.

(** A dominator of a block precedes it. *)
Lemma on_every_path_order a b : b ∈ L -> on_every_path p e a b -> a ∈ L /\ (a = b \/ order_of p b < order_of p a).
Proof using G.
  intros Hb. revert a. pattern b. revert b Hb. apply graph_ind.
  intros y Hy IH a Ha. destruct (decide (y = e)) as [->|Hne].
  - apply on_every_path_entry in Ha as ->. auto.
  - apply on_every_path_pred in Ha as [->|H]; [by auto| |done..].
    destruct (inner_pred y Hy Hne) as (x & Hx & HxL & _ & Ho).
    destruct (IH x HxL Ho a (H x Hx)) as (? & [->|]); split; auto. right. lia.
Qed.
End graph.

(** In a list with its positions as orders, earlier positions have smaller orders. *)
Lemma earlier_in_prefix p e L pre x post y :
  forward_graph p e L -> L = pre ++ x :: post -> y ∈ L -> order_of p y < order_of p x -> y ∈ pre.
Proof.
  intros G E Hy Ho. apply list_elem_of_lookup in Hy as [i Hi].
  assert (order_of p x = Z.of_nat (length pre)) as Ox.
  { apply fg_order. rewrite E. by apply list_lookup_middle. }
  pose proof (fg_order i y Hi) as Oy. rewrite E in Hi.
  rewrite lookup_app_l in Hi by lia. by eapply list_elem_of_lookup_2.
Qed.

Lemma prefix_smaller p e L pre x post y :
  forward_graph p e L -> L = pre ++ x :: post -> y ∈ pre -> order_of p y < order_of p x.
Proof.
  intros G E [i Hi]%list_elem_of_lookup.
  assert (order_of p x = Z.of_nat (length pre)) as ->.
  { apply fg_order. rewrite E. by apply list_lookup_middle. }
  assert (order_of p y = Z.of_nat i) as ->.
  { apply fg_order. rewrite E. by apply lookup_app_l_Some. }
  apply lookup_lt_Some in Hi. lia.
Qed.
