(* ===== verification/CFGDominators.v ===== *)
(** [build_immediate_dominators] computes dominators.

    On a traversed graph ([forward_graph]) every call of [find_common_dominator] finds
    the nearest common ancestor in the part of the dominator tree built so far, and the
    finished tree answers [dominates] exactly as "lies on every path from the entry". *)
From S2P Require Import Prelude.
From S2P Require Import IR.
From S2P Require Import CFGNode.
From S2P Require Import CFGTraversal.
From S2P Require Import CFGGraph.
Local Open Scope Z_scope.

(** * The tree of immediate dominators *)

Inductive ancestor (p : CFGNodePool) (a : nodref) : nodref -> Prop :=
| ancestor_refl : ancestor p a a
| ancestor_up b d : idom_of p b = Some d -> d <> b -> ancestor p a d -> ancestor p a b.

(** A block whose immediate dominator is set and right; [P]: the blocks finished so far. *)
Definition idom_correct (p : CFGNodePool) (e : nodref) (P : nodref -> Prop) (x : nodref) : Prop :=
  exists d, idom_of p x = Some d /\
    (x = e /\ d = e \/ x <> e /\ P d /\ order_of p x < order_of p d) /\
    forall a, ancestor p a x <-> on_every_path p e a x.

Definition idom_tree (p : CFGNodePool) (e : nodref) (L : list nodref) (P : nodref -> Prop) : Prop :=
  forall x, P x -> x ∈ L /\ idom_correct p e P x.

(** What the tree depends on. *)
Definition same_tree (P : nodref -> Prop) (p p' : CFGNodePool) : Prop :=
  same_shape p p' /\ forall x, P x -> idom_of p' x = idom_of p x.

Section tree.
Context (e : nodref) (L : list nodref) (P : nodref -> Prop).

Lemma parent_in_tree p x d : idom_tree p e L P -> P x -> idom_of p x = Some d -> P d.
Proof using Type.
  intros T Hx Hd. destruct (T x Hx) as (_ & d' & E & H & _). rewrite Hd in E. injection E as <-.
  by destruct H as [[-> ->]|(_ & ? & _)].
Qed.

Lemma ancestor_frame p p' a x :
  same_tree P p p' -> idom_tree p e L P -> P x -> ancestor p a x <-> ancestor p' a x.
Proof using Type.
  intros [_ HI] T Hx. split; intros H; revert Hx; induction H as [|b d Hd Hne _ IH]; intros Hx;
    [constructor| |constructor|].
  - apply (ancestor_up _ _ _ d); [by rewrite HI|done|]. apply IH. by eapply parent_in_tree.
  - rewrite HI in Hd by done. apply (ancestor_up _ _ _ d); [done..|]. apply IH. by eapply parent_in_tree.
Qed.

Lemma idom_tree_frame p p' : same_tree P p p' -> idom_tree p e L P -> idom_tree p' e L P.
Proof using Type.
  intros Hst T x Hx. destruct (T x Hx) as (HL & d & Hd & Hcase & Hanc). split; [done|].
  pose proof Hst as [Hsh HI]. exists d. split_and!.
  - by rewrite HI.
  - destruct Hcase as [?|(?&?&?)]; [by left|right]. split_and!; [done..|].
    by destruct Hsh as [_ Hs], (Hs x) as (_ & _ & ->), (Hs d) as (_ & _ & ->).
  - intros a. rewrite <- (ancestor_frame p p'), Hanc by done.
    split; apply on_every_path_shape; [done|by apply same_shape_sym].
Qed.
End tree.

Section walks.
Context (p : CFGNodePool) (e : nodref) (L : list nodref) `{G : !forward_graph p e L}.
Context (P : nodref -> Prop) (T : idom_tree p e L P).

Lemma tree_L x : P x -> x ∈ L.
Proof using T G. intros Hx. by destruct (T x Hx). Qed.

Lemma tree_parent x : P x -> x <> e ->
  exists d, idom_of p x = Some d /\ P d /\ order_of p x < order_of p d.
Proof using T G.
  intros Hx Hne. destruct (T x Hx) as (_ & d & Hd & [[? _]|(_ & ? & ?)] & _); [done|]. by exists d.
Qed.

Lemma tree_root : P e -> idom_of p e = Some e.
Proof using T G.
  intros He. destruct (T e He) as (_ & d & Hd & [[_ ->]|(? & _)] & _); done.
Qed.

Lemma ancestor_order a x : P x -> ancestor p a x -> P a /\ (a = x \/ order_of p x < order_of p a).
Proof using T G.
  intros Hx H. induction H as [|b d Hd Hne H IH]; [auto|].
  destruct (decide (b = e)) as [->|Hbe].
  { rewrite (tree_root Hx) in Hd. by injection Hd as ->. }
  destruct (tree_parent b Hx Hbe) as (d' & Hd' & HPd & Ho). rewrite Hd in Hd'. injection Hd' as <-.
  destruct (IH HPd) as (? & [->|]); split; auto; right; lia.
Qed.

(** A strict ancestor is an ancestor of the parent. *)
Lemma ancestor_parent a x d : P x -> x <> e -> idom_of p x = Some d -> a <> x ->
  ancestor p a x <-> ancestor p a d.
Proof using T G.
  intros Hx Hne Hd Ha. destruct (tree_parent x Hx Hne) as (d' & Hd' & _ & Ho).
  rewrite Hd in Hd'. injection Hd' as <-. split.
  - intros H. inversion H as [|b d' Hd' _ H']; subst; [done|]. rewrite Hd in Hd'. by injection Hd' as <-.
  - intros H. eapply ancestor_up; [exact Hd| |exact H]. intros ->. lia.
Qed.

Lemma ancestor_root a : P e -> ancestor p a e -> a = e.
Proof using T G.
  intros He H. inversion H as [|b d Hd Hne _]; subst; [done|].
  rewrite (tree_root He) in Hd. by injection Hd as ->.
Qed.

(** The walk of [dominates] decides ancestry, and ends. *)
Lemma walk_to_spec fuel a x :
  P x -> zlength L - order_of p x < Z.of_nat fuel ->
  exists b, walk_to p immediate_dominator fuel a x = Ok b /\ (b = true <-> ancestor p a x).
Proof using T G.
  revert x; induction fuel as [|fuel IH]; intros x Hx Hf.
  { pose proof (order_bounds p e L x (tree_L x Hx)). lia. }
  simpl. case_decide as E.
  { subst. exists true. split; [done|]. split; [constructor|done]. }
  destruct (fg_range x (tree_L x Hx)) as [n Hn]. unfold node. rewrite Hn. simpl.
  destruct (decide (x = e)) as [->|Hne].
  - pose proof (tree_root Hx) as Hr. rewrite (get_at _ _ _ _ _ Hn) in Hr. rewrite Hr.
    case_decide; [|done]. exists false. split; [done|]. split; [done|].
    intros H1%ancestor_root; done.
  - destruct (tree_parent x Hx Hne) as (d & Hd & HPd & Ho).
    rewrite (get_at _ _ _ _ _ Hn) in Hd. rewrite Hd.
    case_decide as E2; [subst; lia|].
    destruct (IH d HPd) as (b & -> & Hb); [lia|]. exists b. split; [done|].
    rewrite Hb. symmetry. apply ancestor_parent; [done..| |done]. by rewrite (get_at _ _ _ _ _ Hn).
Qed.

Lemma dominates_run a x :
  P x -> exists b, dominates p a x = Ok b /\ (b = true <-> ancestor p a x).
Proof using T G.
  intros Hx. apply walk_to_spec; [done|].
  pose proof (order_bounds p e L x (tree_L x Hx)). pose proof (zlength_L p e L). unfold zlength in *. lia.
Qed.

(** [find_common_dominator] returns the nearest common ancestor and changes nothing. *)
Lemma find_common_dominator_spec fuel a b :
  P a -> P b ->
  (zlength L - order_of p a) + (zlength L - order_of p b) < Z.of_nat fuel ->
  exists c, find_common_dominator fuel a b p = Ok (c, p) /\ P c /\
    order_of p a <= order_of p c /\
    forall z, ancestor p z c <-> ancestor p z a /\ ancestor p z b.
Proof using T G.
  revert a b; induction fuel as [|fuel IH]; intros a b Ha Hb Hf.
  { pose proof (order_bounds p e L a (tree_L a Ha)). pose proof (order_bounds p e L b (tree_L b Hb)). lia. }
  cbn [find_common_dominator]. case_decide as E.
  { subst. exists b. split_and!; [done..|lia|tauto]. }
  destruct (fg_range a (tree_L a Ha)) as [na Hna]. destruct (fg_range b (tree_L b Hb)) as [nb Hnb].
  assert (forall x n, P x -> p !! x = Some n -> exists d, immediate_dominator n = Some d) as Hset.
  { intros x n Hx Hn. destruct (T x Hx) as (_ & d & Hd & _). exists d.
    by rewrite (get_at _ _ _ _ _ Hn) in Hd. }
  destruct (Hset a na Ha Hna) as [ia Hia]. destruct (Hset b nb Hb Hnb) as [ib Hib].
  rewrite (bindM_run _ _ p tt p).
  2:{ rewrite (bindM_run _ _ _ _ _ (node_at_run _ _ _ Hna)). by rewrite Hia. }
  rewrite (bindM_run _ _ p tt p).
  2:{ rewrite (bindM_run _ _ _ _ _ (node_at_run _ _ _ Hnb)). by rewrite Hib. }
  rewrite (bindM_run _ _ _ _ _ (node_at_run _ _ _ Hna)), (bindM_run _ _ _ _ _ (node_at_run _ _ _ Hnb)).
  pose proof (get_at forward_post_visit_order 0 _ _ _ Hna) as Oa.
  pose proof (get_at forward_post_visit_order 0 _ _ _ Hnb) as Ob.
  pose proof (get_at immediate_dominator None _ _ _ Hna) as Ia. rewrite Hia in Ia.
  pose proof (get_at immediate_dominator None _ _ _ Hnb) as Ib. rewrite Hib in Ib.
  rewrite <- Oa, <- Ob.
  destruct (Z.eqb_spec (order_of p a) (order_of p b)) as [Eo|No].
  { exfalso. apply E. eapply order_inj; [exact G|by apply tree_L..|done]. }
  pose proof (ancestor_order) as AO.
  destruct (Z.ltb_spec (order_of p a) (order_of p b)) as [Lo|Lo].
  - rewrite Hia, (bindM_run _ _ p ia p) by done.
    assert (a <> e) as Hae.
    { intros ->. destruct (on_every_path_order p e L e b (tree_L b Hb)) as (_ & [?|?]); [|done|lia].
      destruct (T b Hb) as (HbL & _).
      intros l Hl. clear -Hl. induction Hl; [left|by right]. }
    destruct (tree_parent a Ha Hae) as (d & Hd & HPd & Ho). rewrite Ia in Hd. injection Hd as <-.
    case_decide as E2; [subst; lia|].
    destruct (IH ia b HPd Hb) as (c & -> & Hc & Hoc & Hz); [lia|].
    exists c. split_and!; [done..|lia|]. intros z. rewrite Hz. split.
    + intros [H1 H2]. split; [|done]. by eapply ancestor_up.
    + intros [H1 H2]. split; [|done]. apply (ancestor_parent z a ia Ha Hae Ia); [|done].
      intros ->. destruct (AO a b Hb H2) as (_ & [?|?]); [done|lia].
  - rewrite Hib, (bindM_run _ _ p ib p) by done.
    assert (b <> e) as Hbe.
    { intros ->. destruct (on_every_path_order p e L e a (tree_L a Ha)) as (_ & [?|?]); [|done|lia].
      destruct (T a Ha) as (HaL & _).
      intros l Hl. clear -Hl. induction Hl; [left|by right]. }
    destruct (tree_parent b Hb Hbe) as (d & Hd & HPd & Ho). rewrite Ib in Hd. injection Hd as <-.
    case_decide as E2; [subst; lia|].
    destruct (IH a ib Ha HPd) as (c & -> & Hc & Hoc & Hz); [lia|].
    exists c. split_and!; [done..|lia|]. intros z. rewrite Hz. split.
    + intros [H1 H2]. split; [done|]. by eapply ancestor_up.
    + intros [H1 H2]. split; [done|]. apply (ancestor_parent z b ib Hb Hbe Ib); [|done].
      intros ->. destruct (AO b a Ha H1) as (_ & [?|?]); [done|lia].
Qed.
End walks.

(** * Adding one block to the tree *)

Section extend.
Context (p : CFGNodePool) (e : nodref) (L : list nodref) `{G : !forward_graph p e L}.
Context (P : nodref -> Prop) (T : idom_tree p e L P).
Context (r : nodref) (n : CFGNode) (Hr : p !! r = Some n) (HrL : r ∈ L) (HrP : ~ P r).
Context (Hpreds : forall x, x ∈ pred_of p r -> P x).

(** The pool while [r] is recomputed. *)
Let with_idom (o : option nodref) : CFGNodePool := <[r := set_immediate_dominator o n]> p.

Lemma with_idom_shape o : same_shape p (with_idom o).
Proof using Hr. by apply (same_shape_insert _ _ _ n). Qed.

Lemma with_idom_tree o : same_tree P p (with_idom o).
Proof using Hr HrP.
  split; [apply with_idom_shape|]. intros x Hx. unfold with_idom.
  rewrite (get_insert _ _ _ _ _ _ _ Hr). case_decide; [by subst|done].
Qed.

Lemma with_idom_lookup o : with_idom o !! r = Some (set_immediate_dominator o n).
Proof using Hr. apply list_lookup_insert_eq. by eapply lookup_lt_Some. Qed.

Lemma with_idom_twice o o' : <[r := set_immediate_dominator o' (set_immediate_dominator o n)]> (with_idom o) = with_idom o'.
Proof using Type. apply list_insert_insert_eq. Qed.

(** The immediate dominator of the predecessors seen so far. *)
Definition common_of (pre : list nodref) (o : option nodref) : Prop :=
  match o with
  | None => pre = []
  | Some c => pre <> [] /\ P c /\ order_of p r < order_of p c /\
      forall z, ancestor p z c <-> forall x, x ∈ pre -> ancestor p z x
  end.

Lemma recompute_loop_step fuel pre x :
  2 * zlength L < Z.of_nat fuel -> x ∈ pred_of p r ->
  forall o, common_of pre o ->
  runs (idom ← field immediate_dominator r;
        match idom with
        | Some d =>
            c ← find_common_dominator fuel d x;
            update r (set_immediate_dominator (Some c))
        | None => update r (set_immediate_dominator (Some x))
        end) (with_idom o)
    (fun _ s' => exists o', s' = with_idom o' /\ common_of (pre ++ [x]) o').
Proof using G T Hr HrP HrL Hpreds.
  intros Hf Hx o Ho. apply runs_bind, (runs_field _ _ _ _ _ (with_idom_lookup o)). simpl.
  pose proof (Hpreds x Hx) as HPx.
  assert (order_of p r < order_of p x) as Hox.
  { destruct (fg_pred x r HrL Hx) as [HxL Hs]. by destruct (fg_edge x r HxL Hs) as (_ & _ & ?). }
  destruct o as [d|].
  - destruct Ho as (Hne & HPd & Hod & Hz).
    assert (forward_graph (with_idom (Some d)) e L) as G'
      by (eapply forward_graph_shape; [apply with_idom_shape|done]).
    pose proof (idom_tree_frame e L P _ _ (with_idom_tree (Some d)) T) as T'.
    assert (forall y, order_of (with_idom (Some d)) y = order_of p y) as Hoeq
      by (intros y; by destruct (with_idom_shape (Some d)) as [_ H], (H y) as (_ & _ & ->)).
    destruct (find_common_dominator_spec (with_idom (Some d)) e L P T' fuel d x HPd HPx)
      as (c & E & HPc & Hoc & Hzc).
    { pose proof (order_bounds _ e L d (tree_L _ e L P T' d HPd)).
      pose proof (order_bounds _ e L x (tree_L _ e L P T' x HPx)). lia. }
    apply runs_bind. exists c, (with_idom (Some d)). split; [exact E|].
    eapply runs_update; [apply with_idom_lookup|]. exists (Some c).
    split; [apply with_idom_twice|]. rewrite !Hoeq in Hoc.
    split; [by destruct pre|]. split; [done|]. split; [lia|]. intros z.
    rewrite (ancestor_frame e L P _ _ z c (with_idom_tree (Some d)) T HPc), Hzc.
    rewrite <- !(ancestor_frame e L P _ _ z _ (with_idom_tree (Some d)) T) by done.
    rewrite Hz. setoid_rewrite elem_of_app. setoid_rewrite list_elem_of_singleton. naive_solver.
  - rewrite Ho. eapply runs_update; [apply with_idom_lookup|]. exists (Some x).
    split; [apply with_idom_twice|]. split; [done|]. split_and!; [done..|].
    intros z. setoid_rewrite list_elem_of_singleton. naive_solver.
Qed.

Lemma recompute_immediate_dominator_spec fuel :
  2 * zlength L + 1 < Z.of_nat fuel ->
  runs (recompute_immediate_dominator fuel r) p
    (fun _ p' => same_shape p p' /\ (forall x, x <> r -> idom_of p' x = idom_of p x) /\
                 idom_tree p' e L (fun x => P x \/ x = r)).
Proof using G T Hr HrP HrL Hpreds.
  intros Hf. destruct fuel as [|fuel]; [pose proof (zlength_nonneg L); lia|].
  cbn [recompute_immediate_dominator].
  apply runs_bind, (runs_node_at _ _ _ _ Hr).
  assert (exists c, runs (if bool_decide (pred n = [])
            then update r (set_immediate_dominator (Some r))
            else _ ← update r (set_immediate_dominator None);
                 for_eachM (fun edge => idom ← field immediate_dominator r;
                   match idom with
                   | Some d => c ← find_common_dominator fuel d edge;
                               update r (set_immediate_dominator (Some c))
                   | None => update r (set_immediate_dominator (Some edge))
                   end) (pred n)) p (fun _ p' => p' = with_idom (Some c)) /\
      (r = e /\ c = e \/ r <> e /\ P c /\ order_of p r < order_of p c /\
        forall z, ancestor p z c <-> forall x, x ∈ pred_of p r -> ancestor p z x))
    as (c & Hrun & Hc).
  { pose proof (get_at pred [] _ _ _ Hr) as Hp. case_bool_decide as E.
    - exists r. split; [by eapply runs_update|]. left. split; [|].
      + destruct (decide (r = e)); [done|]. exfalso. eapply (fg_inner r); eauto. by rewrite Hp.
      + destruct (decide (r = e)); [done|]. exfalso. eapply (fg_inner r); eauto. by rewrite Hp.
    - destruct (runs_for_each (fun edge => idom ← field immediate_dominator r;
                   match idom with
                   | Some d => c ← find_common_dominator fuel d edge;
                               update r (set_immediate_dominator (Some c))
                   | None => update r (set_immediate_dominator (Some edge))
                   end) (fun pre s => exists o, s = with_idom o /\ common_of pre o)
                  (pred n) (with_idom None)) as ([] & s' & Erun & o & -> & Ho).
      { by exists None. }
      { intros pre x post s Epre (o & -> & Ho). apply recompute_loop_step; [lia| |done].
        rewrite Hp, Epre. apply elem_of_app. right. left. }
      destruct o as [c|]; [|done]. exists c. split.
      + apply runs_bind. eapply runs_update; [done|]. by exists tt, (with_idom (Some c)).
      + right. destruct Ho as (_ & ? & ? & Hz). rewrite Hp. split_and!; [|done..].
        intros ->. pose proof fg_root as Hroot. rewrite Hp in Hroot. done. }
  eapply runs_mono; [exact Hrun|]. intros _ p' ->.
  split; [apply with_idom_shape|]. split.
  { intros x Hx. unfold with_idom. rewrite (get_insert _ _ _ _ _ _ _ Hr). by case_decide. }
  pose proof (idom_tree_frame e L P _ _ (with_idom_tree (Some c)) T) as T'.
  pose proof (with_idom_shape (Some c)) as Hsh.
  assert (forall y, order_of (with_idom (Some c)) y = order_of p y) as Hoeq
    by (intros y; by destruct Hsh as [_ H], (H y) as (_ & _ & ->)).
  assert (idom_of (with_idom (Some c)) r = Some c) as Hidom
    by (unfold with_idom; rewrite (get_insert _ _ _ _ _ _ _ Hr); by case_decide).
  intros x [Hx| ->].
  - destruct (T' x Hx) as (HxL & d & Hd & Hcase & Hanc). split; [done|]. exists d.
    split_and!; [done| |done]. destruct Hcase as [?|(?&?&?)]; [by left|right]. auto.
  - split; [done|]. exists c. split; [done|]. destruct Hc as [[-> ->]|(Hne & HPc & Ho & Hz)].
    + split; [by left|]. intros a. split.
      * intros H. inversion H as [|b d Hd Hnd _]; subst; [|by rewrite Hidom in Hd; injection Hd as <-].
        by apply (on_every_path_shape _ _ _ _ _ Hsh), (on_every_path_entry p e L).
      * intros H. apply (on_every_path_shape _ _ _ _ _ (same_shape_sym _ _ Hsh)) in H.
        apply (on_every_path_entry p e L) in H as ->. constructor.
    + split; [right; rewrite !Hoeq; auto|]. intros a.
      assert (on_every_path (with_idom (Some c)) e a r <-> on_every_path p e a r) as ->.
      { split; apply on_every_path_shape; [by apply same_shape_sym|done]. }
      rewrite (on_every_path_pred p e L a r HrL Hne). split.
      * intros H. inversion H as [|b d Hd Hnd Ha]; subst; [by left|]. right. intros x Hx.
        rewrite Hidom in Hd. injection Hd as <-.
        rewrite <- (ancestor_frame e L P _ _ a c (with_idom_tree (Some c)) T HPc) in Ha.
        pose proof (proj1 (Hz a) Ha x Hx) as Hax.
        destruct (T x (Hpreds x Hx)) as (_ & _ & _ & _ & Hanc). by apply Hanc.
      * intros [->|H]; [constructor|]. eapply ancestor_up; [exact Hidom| |].
        -- intros ->. by apply HrP.
        -- rewrite <- (ancestor_frame e L P _ _ a c (with_idom_tree (Some c)) T HPc).
           apply Hz. intros x Hx. destruct (T x (Hpreds x Hx)) as (_ & _ & _ & _ & Hanc).
           apply Hanc. by apply H.
Qed.
End extend.

(** * The whole tree *)

Lemma dominator_fuel_enough p e L : forward_graph p e L ->
  2 * zlength L + 1 < Z.of_nat (dominator_fuel p).
Proof.
  intros G. pose proof (zlength_L p e L). unfold dominator_fuel, zlength in *. lia.
Qed.

(** In a list with its positions as orders, the reverse visits larger orders first. *)
Lemma reverse_later p e L pre x post y :
  forward_graph p e L -> reverse L = pre ++ x :: post -> y ∈ L ->
  order_of p x < order_of p y -> y ∈ pre.
Proof.
  intros G E Hy Ho.
  assert (L = reverse post ++ x :: reverse pre) as EL.
  { rewrite <- (reverse_involutive L), E, reverse_app, reverse_cons, <- app_assoc. done. }
  apply list_elem_of_lookup in Hy as [i Hi].
  assert (order_of p x = Z.of_nat (length (reverse post))) as Ox.
  { apply fg_order. rewrite EL. by apply list_lookup_middle. }
  pose proof (fg_order i y Hi) as Oy. rewrite EL in Hi.
  rewrite lookup_app_r, lookup_cons in Hi by lia.
  destruct (i - length (reverse post))%nat as [|k] eqn:Ek; [lia|]. simpl in Hi.
  apply list_elem_of_lookup_2 in Hi. by rewrite elem_of_reverse in Hi.
Qed.

Lemma build_immediate_dominators_spec s e L :
  forward_graph (pool s) e L -> forward_order s = L ->
  runs build_immediate_dominators s (fun _ s' =>
    same_but_pool s s' /\ same_shape (pool s) (pool s') /\
    idom_tree (pool s') e L (fun x => x ∈ L)).
Proof.
  intros G EL. unfold build_immediate_dominators. apply runs_bind, runs_gets. rewrite EL.
  eapply runs_mono.
  - apply (runs_for_each _ (fun pre s' => same_but_pool s s' /\ same_shape (pool s) (pool s') /\
      idom_tree (pool s') e L (fun x => x ∈ pre))).
    + split_and!; [done..|]. intros x Hx. by apply elem_of_nil in Hx.
    + intros pre x post s1 E (Hs & Hsh & T).
      assert (forward_graph (pool s1) e L) as G1 by (by eapply forward_graph_shape).
      assert (x ∈ L) as HxL.
      { rewrite <- elem_of_reverse, E. apply elem_of_app. right. left. }
      destruct (fg_range x HxL) as [n Hn].
      apply runs_zoom. unfold recompute_dominator. apply runs_bind, runs_gets.
      eapply runs_mono.
      * apply (recompute_immediate_dominator_spec (pool s1) e L (fun y => y ∈ pre) T x n Hn HxL).
        -- assert (NoDup (reverse L)) as Hnd by (rewrite reverse_Permutation; apply (fg_nodup (p := pool s) (e := e))).
           rewrite E in Hnd. apply list.NoDup_app in Hnd as (_ & Hd & _).
           intros Hx. apply (Hd x Hx). left.
        -- intros y Hy. destruct (fg_pred y x HxL Hy) as [HyL Hs1].
           destruct (fg_edge y x HyL Hs1) as (_ & _ & Ho). by eapply reverse_later.
        -- by eapply dominator_fuel_enough.
      * intros _ p' (Hsh' & _ & T'). simpl. split_and!; [done|by etrans|].
        intros y Hy. apply elem_of_app in Hy. rewrite list_elem_of_singleton in Hy.
        destruct (T' y Hy) as (HyL & d & Hd & Hcase & Ha). split; [done|]. exists d.
        split_and!; [done| |done]. destruct Hcase as [?|(?&Hd'&?)]; [by left|right].
        split_and!; [done| |done]. apply elem_of_app. by rewrite list_elem_of_singleton.
  - intros _ s' (?&?&T). split_and!; [done..|].
    intros x Hx. destruct (T x) as (HL & d & Hd & Hcase & Ha); [by rewrite elem_of_reverse|].
    split; [done|]. exists d. split_and!; [done| |done].
    destruct Hcase as [?|(?&Hd'&?)]; [by left|right]. by rewrite elem_of_reverse in Hd'.
Qed.

(** The finished tree answers [dominates] by paths. *)
Lemma dominates_correct p e L a b :
  forward_graph p e L -> idom_tree p e L (fun x => x ∈ L) -> b ∈ L ->
  exists r, dominates p a b = Ok r /\ (r = true <-> on_every_path p e a b).
Proof.
  intros G T Hb. destruct (dominates_run p e L _ T a b Hb) as (r & E & Hr).
  exists r. split; [done|]. rewrite Hr. by destruct (T b Hb) as (_ & _ & _ & _ & ?).
Qed.
