(* ===== verification/CFGVisit.v ===== *)
(** The forward traversal [visit] turns the control-flow graph into a [forward_graph].

    [dfs_inv] is the invariant of the depth-first search, with the blocks that are being
    traversed as a ghost stack; [visit] keeps it, whatever the graph looks like.  On a
    reducible graph in which every block has at most one incoming and one outgoing back
    edge no [assert] fails and the search completes. *)
From S2P Require Import Prelude.
From S2P Require Import IR.
From S2P Require Import CFGNode.
From S2P Require Import CFGTraversal.
From S2P Require Import CFGGraph.
Local Open Scope Z_scope.

(** * What the three steps of a visit do to the members *)

Definition same_order_graph (s s' : CFGStructurizer) : Prop :=
  length (pool s') = length (pool s) /\ entry_block s' = entry_block s /\
  exit_block s' = exit_block s.

Lemma begin_visit_effect u s r s1 :
  begin_visit u s = Ok (r, s1) ->
  same_order_graph s s1 /\ forward_order s1 = forward_order s /\
  reachable_nodes s1 = {[u]} ∪ reachable_nodes s /\ is_Some (pool s !! u) /\
  forall x,
    visited_of (pool s1) x = (if decide (x = u) then true else visited_of (pool s) x) /\
    traversing_of (pool s1) x = (if decide (x = u) then true else traversing_of (pool s) x) /\
    succ_of (pool s1) x = succ_of (pool s) x /\ pred_of (pool s1) x = pred_of (pool s) x /\
    order_of (pool s1) x = order_of (pool s) x /\
    back_from (pool s1) x = back_from (pool s) x /\ back_to (pool s1) x = back_to (pool s) x.
Proof.
  unfold begin_visit. intros (v & s2 & E & [= _ <-])%bindM_Ok.
  apply zoom_Ok in E as (p & E & ->). apply update_inv in E as (n & Hn & ->). simpl.
  split; [split_and!; [apply length_insert|done..]|].
  split; [done|]. split; [done|]. split; [by eexists|]. intros x.
  by rewrite !(get_insert visited _ _ _ _ _ _ Hn), !(get_insert traversing _ _ _ _ _ _ Hn),
    !(get_insert_same _ _ _ _ _ _ _ Hn).
Qed.

Lemma record_back_edge_effect u h s r s1 :
  record_back_edge u h s = Ok (r, s1) ->
  (back_from (pool s) u = None \/ back_from (pool s) u = Some h) /\
  (back_to (pool s) h = None \/ back_to (pool s) h = Some u) /\
  same_order_graph s s1 /\ forward_order s1 = forward_order s /\
  reachable_nodes s1 = reachable_nodes s /\
  forall x,
    visited_of (pool s1) x = visited_of (pool s) x /\
    traversing_of (pool s1) x = traversing_of (pool s) x /\
    succ_of (pool s1) x = succ_of (pool s) x /\ pred_of (pool s1) x = pred_of (pool s) x /\
    order_of (pool s1) x = order_of (pool s) x /\
    back_from (pool s1) x = (if decide (x = u) then Some h else back_from (pool s) x) /\
    back_to (pool s1) x = (if decide (x = h) then Some u else back_to (pool s) x).
Proof.
  unfold record_back_edge. intros H. inv_cfg. simpl in *.
  repeat match goal with H : (_ || _) = true |- _ =>
    apply orb_true_iff in H; rewrite !bool_decide_eq_true in H end.
  match goal with
  | Hu : pool s !! u = Some ?a, Hu' : pool s !! u = Some ?b |- _ =>
      rewrite Hu in Hu'; injection Hu' as <-; rename Hu into Hn
  end.
  match goal with
  | Hh : <[u := _]> _ !! h = Some ?a, Hh' : <[u := _]> _ !! h = Some ?b |- _ =>
      rewrite Hh in Hh'; injection Hh' as <-; rename Hh into Hm
  end.
  rewrite (get_at succ_back_edge _ _ _ _ Hn).
  assert (back_to (pool s) h = pred_back_edge x5) as ->.
  { rewrite <- (get_at pred_back_edge None _ _ _ Hm). by rewrite (get_insert_same _ _ _ _ _ _ _ Hn). }
  split; [done|]. split; [done|].
  split; [split_and!; simpl; [by rewrite !length_insert|done..]|].
  split; [done|]. split; [done|]. intros y.
  rewrite !(get_insert pred_back_edge _ _ _ _ _ _ Hm), !(get_insert_same _ _ _ _ _ _ _ Hm) by done.
  by rewrite !(get_insert succ_back_edge _ _ _ _ _ _ Hn), !(get_insert_same _ _ _ _ _ _ _ Hn) by done.
Qed.

Lemma end_visit_effect u s r s1 :
  end_visit u s = Ok (r, s1) ->
  same_order_graph s s1 /\ forward_order s1 = forward_order s ++ [u] /\
  reachable_nodes s1 = reachable_nodes s /\
  forall x,
    visited_of (pool s1) x = visited_of (pool s) x /\
    traversing_of (pool s1) x = (if decide (x = u) then false else traversing_of (pool s) x) /\
    succ_of (pool s1) x = (if decide (x = u) then erase_opt (back_from (pool s) u) (succ_of (pool s) u)
                           else succ_of (pool s) x) /\
    pred_of (pool s1) x = (if decide (x = u) then erase_opt (back_to (pool s) u) (pred_of (pool s) u)
                           else pred_of (pool s) x) /\
    order_of (pool s1) x = (if decide (x = u) then u32 (zlength (forward_order s))
                            else order_of (pool s) x) /\
    back_from (pool s1) x = back_from (pool s) x /\ back_to (pool s1) x = back_to (pool s) x.
Proof.
  unfold end_visit. intros H. inv_cfg. simpl in *.
  match goal with Hn : pool s !! u = Some ?n |- _ => rename n into m, Hn into Hm end.
  repeat match goal with Hx : <[u := _]> _ !! u = Some ?a |- _ =>
    rewrite list_lookup_insert_eq in Hx by (rewrite ?length_insert; by eapply lookup_lt_Some);
    injection Hx as <- end.
  rewrite !list_insert_insert_eq. simpl.
  split; [split_and!; simpl; [by rewrite !length_insert|done..]|].
  split; [done|]. split; [done|]. intros y.
  rewrite !(get_insert _ _ _ _ _ _ _ Hm). simpl. rewrite !(get_at _ _ _ _ _ Hm).
  split_and!; case_decide; subst; rewrite ?(get_at _ _ _ _ _ Hm); done.
Qed.

(** * The invariant of the search *)

(** Edges of a graph before the search: targets exist, lists hold no duplicates,
    predecessors mirror successors as far as the entry reaches. *)
Record edges_ok (p : CFGNodePool) (e : nodref) : Prop := {
  eo_entry : is_Some (p !! e);
  eo_range x y : y ∈ succ_of p x -> is_Some (p !! y);
  eo_succ_nodup x : NoDup (succ_of p x);
  eo_pred_nodup x : NoDup (pred_of p x);
  eo_pred x y : reaches p e x -> y ∈ succ_of p x -> x ∈ pred_of p y;
  eo_succ x y : x ∈ pred_of p y -> y ∈ succ_of p x;
}.

Section dfs.
Context (p0 : CFGNodePool) (e : nodref) (E0 : edges_ok p0 e) (Hsize : zlength p0 < 2 ^ 32).

Record dfs_inv (s : CFGStructurizer) (stack : list nodref) : Prop := {
  di_length : length (pool s) = length p0;
  di_nodup : NoDup (forward_order s);
  di_number i x : forward_order s !! i = Some x -> order_of (pool s) x = Z.of_nat i;
  di_black x : x ∈ forward_order s <-> visited_of (pool s) x = true /\ x ∉ stack;
  di_stack x : x ∈ stack -> visited_of (pool s) x = true;
  di_stack_nodup : NoDup stack;
  di_grey x : traversing_of (pool s) x = true <-> x ∈ stack;
  di_reachable x : x ∈ reachable_nodes s <-> visited_of (pool s) x = true;
  di_chain : stack = [] \/ exists x, path_from p0 e stack x;
  di_white x : x ∉ forward_order s ->
    succ_of (pool s) x = succ_of p0 x /\ pred_of (pool s) x = pred_of p0 x;
  di_lists x : x ∈ forward_order s ->
    succ_of (pool s) x = erase_opt (back_from (pool s) x) (succ_of p0 x) /\
    pred_of (pool s) x = erase_opt (back_to (pool s) x) (pred_of p0 x);
  di_back x y : back_from (pool s) x = Some y <-> back_to (pool s) y = Some x;
  di_back_edge x y : back_from (pool s) x = Some y ->
    y ∈ succ_of p0 x /\ visited_of (pool s) x = true /\ visited_of (pool s) y = true /\
    (y ∈ stack \/ x ∈ forward_order s /\ y ∈ forward_order s /\
                  order_of (pool s) x <= order_of (pool s) y);
  di_edges x y : x ∈ forward_order s -> y ∈ succ_of p0 x ->
    back_from (pool s) x = Some y \/
    y ∈ forward_order s /\ order_of (pool s) y < order_of (pool s) x;
  di_tree y : y ∈ forward_order s -> y = e \/ exists x, y ∈ succ_of p0 x /\
    (x ∈ stack \/ x ∈ forward_order s /\ order_of (pool s) y < order_of (pool s) x);
}.

(** How the search moves on: visited blocks stay visited and keep their back edge. *)
Record dfs_step (s s' : CFGStructurizer) : Prop := {
  ds_static : same_order_graph s s';
  ds_visited x : visited_of (pool s) x = true -> visited_of (pool s') x = true;
  ds_back x : visited_of (pool s) x = true -> back_from (pool s') x = back_from (pool s) x;
  ds_order : forward_order s `prefix_of` forward_order s';
}.

#[export] Instance dfs_step_po : PreOrder dfs_step.
Proof using Type.
  split.
  - intros s. by split.
  - intros s1 s2 s3 [(?&?&?) V1 B1 O1] [(?&?&?) V2 B2 O2]. split.
    + split_and!; congruence.
    + auto.
    + intros x Hx. rewrite B2, B1; auto.
    + by etrans.
Qed.

Lemma visited_range s x : visited_of (pool s) x = true -> is_Some (pool s !! x).
Proof using Type. unfold get. destruct (pool s !! x); [by eexists|done]. Qed.

Lemma order_length s stack : dfs_inv s stack -> zlength (forward_order s) <= zlength p0.
Proof using Type.
  intros I. unfold zlength. assert (forward_order s ⊆+ seq 0 (length p0)) as H%submseteq_length.
  { apply NoDup_submseteq; [apply I|]. intros x Hx. apply elem_of_seq.
    apply (di_black _ _ I) in Hx as [Hv _]. apply visited_range, lookup_lt_is_Some in Hv.
    rewrite (di_length _ _ I) in Hv. lia. }
  rewrite length_seq in H. lia.
Qed.

Lemma back_unvisited s stack x u :
  dfs_inv s stack -> visited_of (pool s) u = false -> back_from (pool s) x <> Some u.
Proof using Type. intros I Hu Hx. apply (di_back_edge _ _ I) in Hx as (_ & _ & Hv & _). congruence. Qed.

Lemma begin_visit_inv u s stack r s1 :
  dfs_inv s stack -> visited_of (pool s) u = false -> path_from p0 e (u :: stack) u ->
  begin_visit u s = Ok (r, s1) -> dfs_inv s1 (u :: stack) /\ dfs_step s s1.
Proof using Type.
  intros I Hu Hp E. apply begin_visit_effect in E as (Hst & HF & HR & _ & Hx).
  assert (u ∉ stack) as Hns by (intros H; apply (di_stack _ _ I) in H; congruence).
  assert (u ∉ forward_order s) as HnF by (intros H; apply (di_black _ _ I) in H as [? _]; congruence).
  split.
  - split; rewrite ?HF, ?HR.
    + destruct Hst as (-> & _). apply I.
    + apply I.
    + intros i x Hi. destruct (Hx x) as (_&_&_&_&->&_). by apply I.
    + intros x. destruct (Hx x) as (->&_). rewrite (di_black _ _ I), elem_of_cons.
      case_decide; [subst|]; intuition congruence.
    + intros x. destruct (Hx x) as (->&_). rewrite elem_of_cons. case_decide; [done|].
      intros [?|?]; [done|]. by apply (di_stack _ _ I).
    + constructor; [done|apply I].
    + intros x. destruct (Hx x) as (_&->&_). rewrite elem_of_cons. case_decide; [tauto|].
      rewrite (di_grey _ _ I). tauto.
    + intros x. destruct (Hx x) as (->&_). rewrite elem_of_union, elem_of_singleton, (di_reachable _ _ I).
      case_decide; tauto.
    + right. by exists u.
    + intros x HxF. destruct (Hx x) as (_&_&->&->&_). by apply I.
    + intros x HxF. destruct (Hx x) as (_&_&->&->&_&->&->). by apply I.
    + intros x y. destruct (Hx x) as (_&_&_&_&_&->&_), (Hx y) as (_&_&_&_&_&_&->). apply I.
    + intros x y. destruct (Hx x) as (->&_&_&_&->&->&_), (Hx y) as (->&_&_&_&->&_). intros H.
      apply (di_back_edge _ _ I) in H as (?&?&?&[?|?]); split_and!; try done;
        try (by case_decide); [left; by right|by right].
    + intros x y. destruct (Hx x) as (_&_&_&_&->&->&_), (Hx y) as (_&_&_&_&->&_). apply I.
    + intros y Hy. destruct (Hx y) as (_&_&_&_&->&_).
      destruct (di_tree _ _ I y Hy) as [?|(x & ? & [?|?])]; [by left|right; exists x..].
      * split; [done|]. left. by right.
      * destruct (Hx x) as (_&_&_&_&->&_). auto.
  - split; [done| | |by rewrite HF].
    + intros x Hv. destruct (Hx x) as (->&_). by case_decide.
    + intros x Hv. by destruct (Hx x) as (_&_&_&_&_&->&_).
Qed.

Lemma record_back_edge_inv u y s stack r s1 :
  dfs_inv s (u :: stack) -> y ∈ succ_of p0 u -> traversing_of (pool s) y = true ->
  record_back_edge u y s = Ok (r, s1) ->
  dfs_inv s1 (u :: stack) /\ same_order_graph s s1 /\ forward_order s1 = forward_order s /\
  (back_from (pool s) u = None \/ back_from (pool s) u = Some y) /\
  forall x, visited_of (pool s1) x = visited_of (pool s) x /\
    back_from (pool s1) x = if decide (x = u) then Some y else back_from (pool s) x.
Proof using Type.
  intros I Hy Hg E. apply record_back_edge_effect in E as (A1 & A2 & Hst & HF & HR & Hx).
  apply (di_grey _ _ I) in Hg.
  assert (u ∉ forward_order s) as HuF.
  { intros H. apply (di_black _ _ I) in H as [_ H]. apply H. left. }
  assert (y ∉ forward_order s) as HyF.
  { intros H. by apply (di_black _ _ I) in H as [_ H]. }
  split_and!; [|done..|].
  - split; rewrite ?HF, ?HR.
    + destruct Hst as (-> & _). apply I.
    + apply I.
    + intros i x Hi. destruct (Hx x) as (_&_&_&_&->&_). by apply I.
    + intros x. destruct (Hx x) as (->&_). apply I.
    + intros x. destruct (Hx x) as (->&_). apply I.
    + apply I.
    + intros x. destruct (Hx x) as (_&->&_). apply I.
    + intros x. destruct (Hx x) as (->&_). apply I.
    + apply I.
    + intros x HxF. destruct (Hx x) as (_&_&->&->&_). by apply I.
    + intros x HxF. destruct (Hx x) as (_&_&->&->&_&->&->).
      rewrite !decide_False by (intros ->; done). by apply I.
    + intros x z. destruct (Hx x) as (_&_&_&_&_&->&_), (Hx z) as (_&_&_&_&_&_&->).
      pose proof (di_back _ _ I u y) as D1. pose proof (di_back _ _ I x z) as D2.
      pose proof (di_back _ _ I u z) as D3. pose proof (di_back _ _ I x y) as D4.
      repeat case_decide; subst; intuition congruence.
    + intros x z. destruct (Hx x) as (->&_&_&_&->&->&_), (Hx z) as (->&_&_&_&->&_).
      case_decide as Ex.
      * subst. intros [= <-]. split_and!; [done| |by apply (di_stack _ _ I)|by left].
        apply (di_stack _ _ I). left.
      * apply I.
    + intros x z HxF. destruct (Hx x) as (_&_&_&_&->&->&_), (Hx z) as (_&_&_&_&->&_).
      rewrite decide_False by (intros ->; done). by apply I.
    + intros z Hz. destruct (Hx z) as (_&_&_&_&->&_).
      destruct (di_tree _ _ I z Hz) as [?|(x & ? & ?)]; [by left|right; exists x].
      by destruct (Hx x) as (_&_&_&_&->&_).
  - intros x. by destruct (Hx x) as (?&_&_&_&_&?&_).
Qed.

Lemma number_bound s stack x :
  dfs_inv s stack -> x ∈ forward_order s -> order_of (pool s) x < zlength (forward_order s).
Proof using Type.
  intros I [i Hi]%list_elem_of_lookup. rewrite (di_number _ _ I i x Hi).
  apply lookup_lt_Some in Hi. unfold zlength. lia.
Qed.

(** Facts about the block on top of the stack. *)
Lemma top_facts s u stack :
  dfs_inv s (u :: stack) ->
  (u ∉ forward_order s) /\ (u ∉ stack) /\ visited_of (pool s) u = true /\
  ((stack = [] /\ u = e) \/ (exists x, x ∈ stack /\ u ∈ succ_of p0 x)) /\
  (stack = [] \/ (exists x, path_from p0 e stack x)) /\ path_from p0 e (u :: stack) u.
Proof using Type.
  intros I. pose proof (di_stack_nodup _ _ I) as Hnd. apply list.NoDup_cons in Hnd as [Hns _].
  destruct (di_chain _ _ I) as [?|[x Hx]]; [done|].
  split_and!; try done.
  - intros H. apply (di_black _ _ I) in H as [_ H]. apply H. left.
  - apply (di_stack _ _ I). left.
  - inversion Hx as [|l y z Hl Hz]; subst; [by left|]. right. exists y.
    split; [by eapply path_from_head|done].
  - inversion Hx as [|l y z Hl Hz]; subst; [by left|]. right. by exists y.
  - inversion Hx; subst; [constructor|by econstructor].
Qed.

Lemma end_visit_inv u s stack r s1 :
  dfs_inv s (u :: stack) ->
  (forall y, y ∈ succ_of p0 u -> back_from (pool s) u = Some y \/ y ∈ forward_order s) ->
  (forall x, x ∈ stack -> back_from (pool s) x <> Some u) ->
  end_visit u s = Ok (r, s1) ->
  dfs_inv s1 stack /\ dfs_step s s1 /\ visited_of (pool s1) u = true.
Proof using Hsize.
  intros I Hsucc Hback E. apply end_visit_effect in E as (Hst & HF & HR & Hx).
  destruct (top_facts _ _ _ I) as (HuF & Hus & Huv & Hpar & Hchain & _).
  pose proof (order_length _ _ I) as HN. set (N := zlength (forward_order s)) in *.
  rewrite (u32_small N) in Hx by (pose proof (zlength_nonneg (forward_order s)); lia).
  assert (forall x, x ∈ forward_order s -> x <> u) as Hne by (intros x ? ->; done).
  assert (forall x, x ∈ forward_order s -> order_of (pool s) x < N) as HoN
    by (intros x; by eapply number_bound).
  assert (forall x, x ∈ forward_order s1 <-> x ∈ forward_order s \/ x = u) as HFx
    by (intros x; by rewrite HF, elem_of_app, list_elem_of_singleton).
  assert (forall x, x ∈ forward_order s -> order_of (pool s1) x = order_of (pool s) x) as Ho.
  { intros x HxF. destruct (Hx x) as (_&_&_&_&->&_). by rewrite decide_False by auto. }
  assert (order_of (pool s1) u = N) as HoU.
  { destruct (Hx u) as (_&_&_&_&->&_). by rewrite decide_True. }
  split_and!; [split|split|].
  - destruct Hst as (-> & _). apply I.
  - rewrite HF. apply list.NoDup_app. split_and!; [apply I| |apply NoDup_singleton].
    intros x HxF ->%list_elem_of_singleton. done.
  - intros i x. rewrite HF. intros [Hi|[Hl Hi]]%lookup_app_Some.
    + rewrite Ho by by eapply list_elem_of_lookup_2. by apply I.
    + apply list_lookup_singleton_Some in Hi as [Hi <-]. rewrite HoU. unfold N, zlength. lia.
  - intros x. rewrite HFx, (di_black _ _ I), elem_of_cons. destruct (Hx x) as (->&_).
    destruct (decide (x = u)) as [->|]; tauto.
  - intros x Hxs. destruct (Hx x) as (->&_). apply (di_stack _ _ I). by right.
  - pose proof (di_stack_nodup _ _ I) as Hnd. by apply list.NoDup_cons in Hnd as [_ ?].
  - intros x. destruct (Hx x) as (_&->&_). pose proof (di_grey _ _ I x) as Hg.
    rewrite elem_of_cons in Hg. case_decide; [subst; intuition congruence|tauto].
  - intros x. rewrite HR. destruct (Hx x) as (->&_). apply I.
  - done.
  - intros x. rewrite HFx. intros HxF. destruct (Hx x) as (_&_&->&->&_).
    rewrite !decide_False by tauto. apply I. tauto.
  - intros x. rewrite HFx. destruct (Hx x) as (_&_&->&->&_&->&->). intros [HxF| ->].
    + rewrite !decide_False by auto. by apply I.
    + rewrite !decide_True by done. by destruct (di_white _ _ I u HuF) as [-> ->].
  - intros x y. destruct (Hx x) as (_&_&_&_&_&->&_), (Hx y) as (_&_&_&_&_&_&->). apply I.
  - intros x y. destruct (Hx x) as (->&_&_&_&_&->&_), (Hx y) as (->&_). intros Hxy.
    destruct (di_back_edge _ _ I x y Hxy) as (?&Hxv&?&Hcase). split_and!; [done..|].
    rewrite elem_of_cons in Hcase. rewrite !HFx. destruct Hcase as [[->|?]|(?&?&?)]; [right|by left|right].
    + destruct (decide (x = u)) as [->|Hxu]; [split_and!; [by right..|lia]|].
      assert (x ∈ forward_order s) as HxF.
      { apply (di_black _ _ I). rewrite elem_of_cons. split; [done|]. intros [?|?]; [done|].
        by eapply Hback. }
      rewrite Ho, HoU by done. split_and!; [by left|by right|]. apply HoN in HxF. lia.
    + rewrite !Ho by done. auto.
  - intros x y. rewrite !HFx. destruct (Hx x) as (_&_&_&_&_&->&_). intros [HxF| ->] Hy.
    + destruct (di_edges _ _ I x y HxF Hy) as [?|[??]]; [by left|right].
      rewrite !Ho by done. auto.
    + destruct (Hsucc y Hy) as [?|HyF]; [by left|right]. rewrite Ho, HoU by done. auto.
  - intros y. rewrite HFx. intros [HyF| ->].
    + destruct (di_tree _ _ I y HyF) as [?|(x & Hs & Hcase)]; [by left|right; exists x].
      split; [done|]. rewrite elem_of_cons in Hcase. rewrite HFx, (Ho y HyF).
      destruct Hcase as [[->|?]|[??]]; [right|by left|right; rewrite Ho by done; auto].
      rewrite HoU. auto.
    + destruct Hpar as [[_ ->]|(x & ? & ?)]; [by left|right]. exists x. auto.
  - done.
  - intros x. by destruct (Hx x) as (->&_).
  - intros x _. by destruct (Hx x) as (_&_&_&_&_&->&_).
  - rewrite HF. by eexists.
  - by destruct (Hx u) as (->&_).
Qed.

(** * The search keeps the invariant *)

(** What holds in the loop over the successors of [u], after those in [pre]. *)
Definition loop_inv (u : nodref) (stack : list nodref) (s1 : CFGStructurizer) (pre : list nodref)
    (s : CFGStructurizer) : Prop :=
  dfs_inv s (u :: stack) /\ same_order_graph s1 s /\ forward_order s1 `prefix_of` forward_order s /\
  (forall x, visited_of (pool s1) x = true -> visited_of (pool s) x = true) /\
  (forall x, visited_of (pool s1) x = true -> x <> u -> back_from (pool s) x = back_from (pool s1) x) /\
  (forall y, y ∈ pre -> back_from (pool s) u = Some y \/ y ∈ forward_order s).

(** What a call of [visit] that completes has done. *)
Definition visit_ok (fuel : nat) : Prop := forall u stack s r s',
  dfs_inv s stack -> visited_of (pool s) u = false -> path_from p0 e (u :: stack) u ->
  visit fuel u s = Ok (r, s') ->
  dfs_inv s' stack /\ dfs_step s s' /\ visited_of (pool s') u = true.

(** One successor. *)
Definition visit_succ (fuel : nat) (u y : nodref) : SM unit :=
  n ← on_pool (node_at y);
  if traversing n then record_back_edge u y
  else if visited n then mret tt
  else visit fuel y.

Lemma same_order_graph_trans s1 s2 s3 :
  same_order_graph s1 s2 -> same_order_graph s2 s3 -> same_order_graph s1 s3.
Proof using Type. intros (?&?&?) (?&?&?). split_and!; congruence. Qed.

Lemma visit_succ_inv fuel u stack s1 pre y t r t' :
  visit_ok fuel -> y ∈ succ_of p0 u -> loop_inv u stack s1 pre t ->
  visit_succ fuel u y t = Ok (r, t') -> loop_inv u stack s1 (pre ++ [y]) t'.
Proof using Type.
  intros IH Hy (It & Hst & Hpr & Hv & Hb & Hs) Hrun.
  apply bindM_Ok in Hrun as (m & t0 & En & Hrun). apply on_pool_node_at_inv in En as [Hm ->].
  pose proof (get_at traversing false _ _ _ Hm) as Htr.
  pose proof (get_at visited false _ _ _ Hm) as Hvi.
  destruct (traversing m); [|destruct (visited m)].
  - destruct (record_back_edge_inv _ _ _ _ _ _ It Hy Htr Hrun) as (It' & Hst' & HF' & Hone & Hx').
    split; [done|]. rewrite HF'. split_and!; [by eapply same_order_graph_trans|done| | |].
    + intros x Hxv. destruct (Hx' x) as [-> _]. auto.
    + intros x Hxv Hxu. destruct (Hx' x) as [_ ->]. rewrite decide_False by done. auto.
    + intros z Hz. destruct (Hx' u) as [_ ->]. rewrite decide_True by done.
      rewrite elem_of_app, list_elem_of_singleton in Hz. destruct Hz as [Hz| ->]; [|by left].
      destruct (Hs z Hz) as [Hbz|?]; [|by right]. left. destruct Hone; congruence.
  - apply mret_inv in Hrun as [-> ->]. split_and!; try done.
    intros z. rewrite elem_of_app, list_elem_of_singleton. intros [?| ->]; [auto|right].
    apply (di_black _ _ It). split; [done|]. intros Hst'. apply (di_grey _ _ It) in Hst'. congruence.
  - destruct (top_facts _ _ _ It) as (HuF' & _ & Huv' & _ & _ & Hpath).
    destruct (IH y (u :: stack) t r t' It Hvi (path_step _ _ _ _ _ Hpath Hy) Hrun) as (It' & St' & Hyv).
    split; [done|]. split_and!.
    + eapply same_order_graph_trans; [done|apply St'].
    + etrans; [done|]. apply St'.
    + intros x Hxv. by apply (ds_visited _ _ St'), Hv.
    + intros x Hxv Hxu. rewrite (ds_back _ _ St') by auto. auto.
    + intros z. rewrite elem_of_app, list_elem_of_singleton. rewrite (ds_back _ _ St') by done.
      intros [Hz| ->].
      * destruct (Hs z Hz) as [?|?]; [by left|right]. eapply elem_of_prefix; [done|apply St'].
      * right. apply (di_black _ _ It'). split; [done|]. intros Hst''.
        apply (di_stack _ _ It) in Hst''. congruence.
Qed.

(** The end of a visit whose loop went well. *)
Lemma visit_end_inv u stack s s1 s2 r s' :
  dfs_inv s stack -> visited_of (pool s) u = false -> dfs_step s s1 ->
  loop_inv u stack s1 (succ_of p0 u) s2 -> visited_of (pool s1) u = true ->
  end_visit u s2 = Ok (r, s') ->
  dfs_inv s' stack /\ dfs_step s s' /\ visited_of (pool s') u = true.
Proof using Hsize.
  intros I Hu S1 (I2 & Hst2 & Hp2 & Hv2 & Hb2 & Hs2) Huv Ee.
  destruct (top_facts _ _ _ I2) as (_ & Hus & _).
  destruct (end_visit_inv u s2 stack r s' I2) as (I3 & S3 & Hu3).
  { exact Hs2. }
  { intros x Hxs. assert (visited_of (pool s) x = true) as Hxv by by apply (di_stack _ _ I).
    rewrite Hb2; [|by apply (ds_visited _ _ S1)|intros ->; done].
    rewrite (ds_back _ _ S1) by done. by eapply back_unvisited. }
  { exact Ee. }
  split_and!; [done| |done]. split.
  - eapply same_order_graph_trans; [apply S1|].
    eapply same_order_graph_trans; [exact Hst2|apply S3].
  - intros x Hxv. apply (ds_visited _ _ S3), Hv2, (ds_visited _ _ S1). done.
  - intros x Hxv. assert (visited_of (pool s1) x = true) by by apply (ds_visited _ _ S1).
    rewrite (ds_back _ _ S3) by auto. rewrite Hb2; [|done|intros ->; congruence].
    by rewrite (ds_back _ _ S1).
  - etrans; [apply S1|]. etrans; [exact Hp2|apply S3].
Qed.

Lemma loop_inv_start u stack s1 : dfs_inv s1 (u :: stack) -> loop_inv u stack s1 [] s1.
Proof using Type. intros I. split_and!; try done. intros y Hy. by apply elem_of_nil in Hy. Qed.

Lemma top_successors s u stack n :
  dfs_inv s (u :: stack) -> pool s !! u = Some n -> succ n = succ_of p0 u.
Proof using Type.
  intros I Hn. destruct (top_facts _ _ _ I) as (HuF & _). rewrite <- (get_at succ [] _ _ _ Hn).
  by destruct (di_white _ _ I u HuF).
Qed.

Lemma visit_spec fuel : visit_ok fuel.
Proof using E0 Hsize.
  induction fuel as [|fuel IH]; intros u stack s r s' I Hu Hp; [done|].
  cbn [visit]. intros (v1 & s1 & Eb & H)%bindM_Ok.
  destruct (begin_visit_inv _ _ _ _ _ I Hu Hp Eb) as [I1 S1].
  destruct (top_facts _ _ _ I1) as (_ & _ & Huv & _).
  apply bindM_Ok in H as (ss & s1' & Es & H). apply on_pool_field_inv in Es as (n & Hn & -> & ->).
  pose proof (top_successors _ _ _ _ I1 Hn) as Ess.
  apply bindM_Ok in H as ([] & s2 & El & Ee).
  assert (loop_inv u stack s1 (succ n) s2) as I2.
  { eapply (for_eachM_Ok_inv (visit_succ fuel u) (loop_inv u stack s1));
      [exact El|by apply loop_inv_start|].
    intros pre y post t t' w Epre. apply visit_succ_inv; [done|].
    rewrite <- Ess, Epre. apply elem_of_app. right. left. }
  rewrite Ess in I2. by eapply visit_end_inv.
Qed.

(** * Termination, and no failed assertion on reducible graphs *)

(** [back]: the back edges. Every block has at most one of them going out and at most
    one coming in, its target dominates its source, and the other edges form no cycle. *)
Record reducible (back : nodref -> option nodref) : Prop := {
  rd_in u v h : back u = Some h -> back v = Some h -> u = v;
  rd_dominates u h : back u = Some h -> on_every_path p0 e h u;
  rd_acyclic : exists rank : nodref -> nat, forall u v,
    v ∈ succ_of p0 u -> back u <> Some v -> (rank v < rank u)%nat;
}.

Section total.
Context (back : nodref -> option nodref) (Hred : reducible back).

(** A path without repetition uses no back edge, so an edge that closes a cycle is one. *)
Lemma closing_edge_is_back l u y :
  path_from p0 e l u -> NoDup l -> y ∈ l -> y ∈ succ_of p0 u -> back u = Some y.
Proof using Hred.
  intros Hp Hnd Hyl Hy. destruct (rd_acyclic _ Hred) as [rank Hrank].
  assert (forall z, z ∈ l -> (rank u <= rank z)%nat) as Hle.
  { clear y Hyl Hy. induction Hp as [|l x y Hp IH Hy]; intros z Hz.
    - by apply list_elem_of_singleton in Hz as ->.
    - apply list.NoDup_cons in Hnd as [Hyl Hnd]. apply elem_of_cons in Hz as [->|Hz]; [done|].
      specialize (IH Hnd z Hz). assert (rank y < rank x)%nat; [|lia].
      apply Hrank; [done|]. intros Hb. apply Hyl. by apply (rd_dominates _ Hred _ _ Hb). }
  destruct (decide (back u = Some y)) as [?|Hb]; [done|].
  specialize (Hrank u y Hy Hb). specialize (Hle y Hyl). lia.
Qed.

Definition unvisited (s : CFGStructurizer) : gset nodref :=
  filter (fun x => visited_of (pool s) x = false) (set_seq 0 (length p0)).

Lemma elem_of_unvisited s x :
  x ∈ unvisited s <-> (x < length p0)%nat /\ visited_of (pool s) x = false.
Proof using Type.
  unfold unvisited. rewrite elem_of_filter, elem_of_set_seq. split; intros [??]; split; try done; lia.
Qed.

Lemma unvisited_mono s s' :
  (forall x, visited_of (pool s) x = true -> visited_of (pool s') x = true) ->
  (size (unvisited s') <= size (unvisited s))%nat.
Proof using Type.
  intros H. apply subseteq_size. intros x. rewrite !elem_of_unvisited. intros [? Hx].
  split; [done|]. specialize (H x). destruct (visited_of (pool s) x); [by rewrite H in Hx|done].
Qed.

Lemma unvisited_less s s' u :
  (forall x, visited_of (pool s) x = true -> visited_of (pool s') x = true) ->
  (u < length p0)%nat -> visited_of (pool s) u = false -> visited_of (pool s') u = true ->
  (size (unvisited s') < size (unvisited s))%nat.
Proof using Type.
  intros H Hu Hf Ht. apply subset_size. split.
  - intros x. rewrite !elem_of_unvisited. intros [? Hx]. split; [done|].
    specialize (H x). destruct (visited_of (pool s) x); [by rewrite H in Hx|done].
  - intros Hsub. specialize (Hsub u). rewrite !elem_of_unvisited in Hsub. intuition congruence.
Qed.

(** The recorded back edges are back edges of the graph. *)
Definition recorded (s : CFGStructurizer) : Prop :=
  forall x y, back_from (pool s) x = Some y -> back x = Some y.

Lemma begin_visit_run u s :
  is_Some (pool s !! u) -> exists s1, begin_visit u s = Ok (tt, s1).
Proof using Type.
  intros [n Hn]. unfold begin_visit.
  destruct (runs_on_pool_update s u n (fun n => set_visited true (set_traversing true n))
    (fun _ _ => True) Hn I) as ([] & s1 & E & _).
  rewrite (bindM_run _ _ _ _ _ E). by eexists.
Qed.

Lemma end_visit_run u s :
  is_Some (pool s !! u) -> exists s1, end_visit u s = Ok (tt, s1).
Proof using Type.
  intros [n Hn]. assert (runs (end_visit u) s (fun _ _ => True)) as ([] & s1 & E & _); [|by exists s1].
  assert (u < length (pool s))%nat as Hl by by eapply lookup_lt_Some.
  unfold end_visit. do 2 (apply runs_bind; eapply runs_on_pool_update;
    [simpl; rewrite ?list_lookup_insert_eq by done; done|]; simpl).
  apply runs_bind, runs_gets. simpl. apply runs_bind. eapply runs_on_pool_update.
  { simpl. rewrite list_insert_insert_eq, list_lookup_insert_eq by done. done. }
  by apply runs_modify.
Qed.

Lemma record_back_edge_run u y s :
  is_Some (pool s !! u) -> is_Some (pool s !! y) ->
  (back_from (pool s) u = None \/ back_from (pool s) u = Some y) ->
  (back_to (pool s) y = None \/ back_to (pool s) y = Some u) ->
  exists s1, record_back_edge u y s = Ok (tt, s1).
Proof using Type.
  intros [n Hn] [m Hm] H1 H2.
  assert (runs (record_back_edge u y) s (fun _ _ => True)) as ([] & s1 & E & _); [|by exists s1].
  rewrite (get_at succ_back_edge _ _ _ _ Hn) in H1.
  unfold record_back_edge. apply runs_bind. eapply runs_on_pool_node_at; [exact Hn|].
  apply runs_bind, runs_assert. { rewrite orb_true_iff, !bool_decide_eq_true. done. }
  apply runs_bind. eapply runs_on_pool_update; [exact Hn|].
  assert (exists m', <[u := set_succ_back_edge (Some y) n]> (pool s) !! y = Some m') as [m' Hm'].
  { apply lookup_lt_is_Some. rewrite length_insert. by eapply lookup_lt_Some. }
  apply runs_bind. eapply runs_on_pool_node_at; [exact Hm'|].
  apply runs_bind, runs_assert.
  { rewrite orb_true_iff, !bool_decide_eq_true.
    rewrite <- (get_at pred_back_edge None _ _ _ Hm'). by rewrite (get_insert_same _ _ _ _ _ _ _ Hn). }
  by eapply runs_on_pool_update.
Qed.

Lemma node_exists s stack x : dfs_inv s stack -> is_Some (p0 !! x) -> is_Some (pool s !! x).
Proof using Type. rewrite !lookup_lt_is_Some. intros I. by rewrite (di_length _ _ I). Qed.

(** A visit of an unvisited block completes, given fuel for the unvisited blocks. *)
Definition visit_completes (fuel : nat) : Prop := forall u stack s,
  dfs_inv s stack -> visited_of (pool s) u = false -> path_from p0 e (u :: stack) u ->
  is_Some (p0 !! u) -> recorded s -> (size (unvisited s) <= fuel)%nat ->
  exists s', visit fuel u s = Ok (tt, s') /\ recorded s'.

Lemma visit_succ_completes fuel u stack s1 pre y t :
  visit_completes fuel -> y ∈ succ_of p0 u -> loop_inv u stack s1 pre t -> recorded t ->
  (size (unvisited t) <= fuel)%nat ->
  exists t', visit_succ fuel u y t = Ok (tt, t') /\ recorded t'.
Proof using E0 Hred.
  intros IH Hy (It & _) Hrec Hsz. pose proof (eo_range _ _ E0 u y Hy) as Hyr.
  destruct (node_exists _ _ y It Hyr) as [m Hm]. unfold visit_succ.
  assert (on_pool (node_at y) t = Ok (m, t)) as En.
  { destruct (runs_on_pool_node_at t y m (fun a s' => a = m /\ s' = t) Hm) as (a & s' & E & -> & ->); done. }
  rewrite (bindM_run _ _ _ _ _ En).
  pose proof (get_at traversing false _ _ _ Hm) as Htr.
  pose proof (get_at visited false _ _ _ Hm) as Hvi.
  destruct (top_facts _ _ _ It) as (HuF & _ & Huv & _ & _ & Hpath).
  destruct (traversing m); [|destruct (visited m); [by exists t|]].
  - assert (back u = Some y) as Hb.
    { apply (closing_edge_is_back (u :: stack)); [done|apply It| |done]. by apply (di_grey _ _ It). }
    destruct (record_back_edge_run u y t) as [t' E'].
    + by apply visited_range.
    + by eexists.
    + destruct (back_from (pool t) u) as [h|] eqn:Eh; [|by left]. apply Hrec in Eh. right. congruence.
    + destruct (back_to (pool t) y) as [z|] eqn:Ez; [|by left]. apply (di_back _ _ It), Hrec in Ez.
      right. f_equal. by eapply (rd_in _ Hred).
    + exists t'. split; [done|]. intros x z.
      destruct (record_back_edge_inv _ _ _ _ _ _ It Hy Htr E') as (_ & _ & _ & _ & Hx').
      destruct (Hx' x) as [_ ->]. case_decide as E2; [subst; by intros [= <-]|apply Hrec].
  - apply (IH y (u :: stack)); try done. by econstructor.
Qed.

Lemma visit_total fuel : visit_completes fuel.
Proof using E0 Hsize Hred.
  induction fuel as [|fuel IH]; intros u stack s I Hu Hp Hr Hrec Hsz.
  { assert (u ∈ unvisited s) as Hin.
    { apply elem_of_unvisited. split; [|done]. by apply lookup_lt_is_Some. }
    assert (size (unvisited s) = 0)%nat as Hz by lia. apply size_empty_inv in Hz. set_solver. }
  destruct (begin_visit_run u s (node_exists _ _ u I Hr)) as [s1 Eb].
  cbn [visit]. rewrite (bindM_run _ _ _ _ _ Eb).
  destruct (begin_visit_inv _ _ _ _ _ I Hu Hp Eb) as [I1 S1].
  destruct (top_facts _ _ _ I1) as (_ & _ & Huv & _).
  assert (recorded s1) as Hrec1.
  { apply begin_visit_effect in Eb as (_ & _ & _ & _ & Hx). intros x y.
    destruct (Hx x) as (_&_&_&_&_&->&_). apply Hrec. }
  assert (size (unvisited s1) <= fuel)%nat as Hsz1.
  { assert (size (unvisited s1) < size (unvisited s))%nat; [|lia].
    apply (unvisited_less s s1 u); [apply S1|by apply lookup_lt_is_Some|done..]. }
  destruct (node_exists _ _ u I1 Hr) as [n Hn].
  pose proof (top_successors _ _ _ _ I1 Hn) as Ess.
  destruct (runs_for_each (visit_succ fuel u) (fun pre t => loop_inv u stack s1 pre t /\ recorded t)
    (succ n) s1) as ([] & s2 & El & I2 & Hrec2).
  { split; [by apply loop_inv_start|done]. }
  { intros pre y post t Epre [It Ht].
    assert (y ∈ succ_of p0 u) as Hy by (rewrite <- Ess, Epre; apply elem_of_app; right; left).
    destruct (visit_succ_completes fuel u stack s1 pre y t IH Hy It Ht) as (t' & Et & Ht').
    { etrans; [|exact Hsz1]. apply unvisited_mono, It. }
    exists tt, t'. split; [done|]. split; [|done].
    eapply visit_succ_inv; [apply visit_spec|done..]. }
  assert (on_pool (field succ u) s1 = Ok (succ n, s1)) as Ef.
  { destruct (runs_on_pool_field succ s1 u n (fun a s' => a = succ n /\ s' = s1) Hn)
      as (a & s' & E & -> & ->); done. }
  rewrite (bindM_run _ _ _ _ _ Ef), (bindM_run _ _ _ _ _ El).
  destruct I2 as (I2 & _). destruct (end_visit_run u s2 (node_exists _ _ u I2 Hr)) as [s' Ee].
  exists s'. split; [exact Ee|].
  apply end_visit_effect in Ee as (_ & _ & _ & Hx). intros x y.
  destruct (Hx x) as (_&_&_&_&_&->&_). apply Hrec2.
Qed.
End total.

End dfs.
