(* ===== verification/CFGForward.v ===== *)
(** From the finished search to a [forward_graph]: resetting, the end of the traversal and
    the pruning of dead predecessors. *)
From S2P Require Import Prelude.
From S2P Require Import IR.
From S2P Require Import CFGNode.
From S2P Require Import CFGTraversal.
From S2P Require Import CFGGraph.
From S2P Require Import CFGVisit.
Local Open Scope Z_scope.

(** * Removing one element *)

Lemma elem_of_erase_first b l x : NoDup l -> x ∈ erase_first b l <-> x ∈ l /\ x <> b.
Proof.
  induction l as [|y l IH]; intros Hnd; simpl.
  - rewrite !elem_of_nil. tauto.
  - apply list.NoDup_cons in Hnd as [Hy Hnd]. case_decide as E.
    + subst. rewrite elem_of_cons. split; [|tauto]. intros Hx. split; [by right|]. congruence.
    + rewrite !elem_of_cons, IH by done. split; [intuition congruence|tauto].
Qed.

Lemma elem_of_erase_opt o l x : NoDup l -> x ∈ erase_opt o l <-> x ∈ l /\ o <> Some x.
Proof.
  intros Hnd. destruct o as [b|]; simpl.
  - rewrite elem_of_erase_first by done. split; intros [? H]; split; congruence.
  - split; [done|tauto].
Qed.

Lemma erase_opt_nodup o l : NoDup l -> NoDup (erase_opt o l).
Proof.
  intros Hnd. destruct o as [b|]; [|done]. simpl. induction l as [|y l IH]; simpl; [done|].
  apply list.NoDup_cons in Hnd as [Hy Hnd]. case_decide; [done|]. apply list.NoDup_cons.
  rewrite elem_of_erase_first by done. tauto.
Qed.

(** * Resetting *)

(** The graph before the search: back edges are ordinary edges, marks are cleared. *)
Definition reset_pool (p : CFGNodePool) : CFGNodePool := reset_node <$> p.

Lemma reset_traversal_run s : exists s', reset_traversal s = Ok (tt, s') /\
  pool s' = reset_pool (pool s) /\ forward_order s' = [] /\ backward_order s' = [] /\
  reachable_nodes s' = ∅ /\ entry_block s' = entry_block s /\ exit_block s' = exit_block s.
Proof. by eexists. Qed.

Lemma get_reset {A} (f : CFGNode -> A) d p x :
  get f d (reset_pool p) x = match p !! x with Some n => f (reset_node n) | None => d end.
Proof. unfold get, reset_pool. rewrite list_lookup_fmap. by destruct (p !! x). Qed.

(** No block is marked and no back edge recorded. *)
Definition unmarked (p : CFGNodePool) : Prop := forall x,
  visited_of p x = false /\ traversing_of p x = false /\ back_from p x = None /\ back_to p x = None.

Lemma reset_unmarked p : unmarked (reset_pool p).
Proof.
  intros x. rewrite !get_reset. destruct (p !! x) as [n|]; [|done].
  unfold reset_node. simpl. by destruct (freeze_structured_analysis n).
Qed.

Lemma reset_succ p x : succ_of (reset_pool p) x = append_opt (succ_of p x) (back_from p x).
Proof.
  rewrite get_reset. unfold get. destruct (p !! x) as [n|]; [|done].
  unfold reset_node. simpl. by destruct (freeze_structured_analysis n).
Qed.

Lemma reset_pred p x : pred_of (reset_pool p) x = append_opt (pred_of p x) (back_to p x).
Proof.
  rewrite get_reset. unfold get. destruct (p !! x) as [n|]; [|done].
  unfold reset_node. simpl. by destruct (freeze_structured_analysis n).
Qed.

(** * The end of the traversal *)

Section finish.
Context (p0 : CFGNodePool) (e : nodref) (E0 : edges_ok p0 e) (Hsize : zlength p0 < 2 ^ 32).
Context (H0 : unmarked p0).

Lemma dfs_start s : pool s = p0 -> forward_order s = [] -> reachable_nodes s = ∅ -> dfs_inv p0 e s [].
Proof using H0.
  intros Hp HF HR. split; rewrite ?Hp, ?HF, ?HR; try done.
  - apply NoDup_nil_2.
  - intros x. destruct (H0 x) as (-> & _). rewrite elem_of_nil. intuition congruence.
  - intros x Hx. by apply elem_of_nil in Hx.
  - apply NoDup_nil_2.
  - intros x. destruct (H0 x) as (_ & -> & _). rewrite elem_of_nil. intuition congruence.
  - intros x. destruct (H0 x) as (-> & _). rewrite elem_of_empty. intuition congruence.
  - by left.
  - intros x Hx. by apply elem_of_nil in Hx.
  - intros x y. destruct (H0 x) as (_ & _ & -> & _), (H0 y) as (_ & _ & _ & ->). done.
  - intros x y. by destruct (H0 x) as (_ & _ & -> & _).
  - intros x y Hx. by apply elem_of_nil in Hx.
  - intros x Hx. by apply elem_of_nil in Hx.
Qed.

(** The finished search, before and after pruning. *)
Section finished.
Context (s : CFGStructurizer) (I : dfs_inv p0 e s []) (He : visited_of (pool s) e = true).

Lemma done_black x : x ∈ forward_order s <-> visited_of (pool s) x = true.
Proof using I. rewrite (di_black _ _ _ _ I). split; [tauto|]. intros ?. split; [done|]. apply not_elem_of_nil. Qed.

Lemma done_back_edge x y : back_from (pool s) x = Some y ->
  y ∈ succ_of p0 x /\ x ∈ forward_order s /\ y ∈ forward_order s /\
  order_of (pool s) x <= order_of (pool s) y.
Proof using I.
  intros H. destruct (di_back_edge _ _ _ _ I x y H) as (? & _ & _ & [Hn|(?&?&?)]); [|done].
  by apply elem_of_nil in Hn.
Qed.

Lemma done_closed x y : x ∈ forward_order s -> y ∈ succ_of p0 x -> y ∈ forward_order s.
Proof using I.
  intros Hx Hy. destruct (di_edges _ _ _ _ I x y Hx Hy) as [Hb|[? _]]; [|done].
  by apply done_back_edge in Hb as (_ & _ & ? & _).
Qed.

Lemma done_closed_rtc x y : x ∈ forward_order s -> reaches p0 x y -> y ∈ forward_order s.
Proof using I.
  intros Hx H. revert Hx. induction H as [|x y z Hxy _ IH]; intros Hx; [done|].
  apply IH. by eapply done_closed.
Qed.

Lemma done_reached x : x ∈ forward_order s <-> reaches p0 e x.
Proof using I He.
  split.
  - intros Hx. remember (Z.to_nat (zlength (forward_order s) - order_of (pool s) x)) as k eqn:Hk.
    revert x Hx Hk. induction k as [k IH] using lt_wf_ind. intros x Hx ->.
    destruct (di_tree _ _ _ _ I x Hx) as [->|(y & Hy & [Hn|[HyF Ho]])]; [apply rtc_refl|by apply elem_of_nil in Hn|].
    eapply rtc_r; [|exact Hy]. eapply IH; [|done|reflexivity].
    pose proof (number_bound _ _ _ _ _ I HyF). lia.
  - apply done_closed_rtc. by apply done_black.
Qed.

Lemma done_lists x : x ∈ forward_order s ->
  (forall y, y ∈ succ_of (pool s) x <-> y ∈ succ_of p0 x /\ back_from (pool s) x <> Some y) /\
  (forall y, y ∈ pred_of (pool s) x <-> y ∈ pred_of p0 x /\ back_from (pool s) y <> Some x).
Proof using E0 I.
  intros Hx. destruct (di_lists _ _ _ _ I x Hx) as [-> ->]. split; intros y.
  - apply elem_of_erase_opt, E0.
  - rewrite elem_of_erase_opt by apply E0. by rewrite (di_back _ _ _ _ I y x).
Qed.

Lemma done_nodup x : NoDup (succ_of (pool s) x) /\ NoDup (pred_of (pool s) x).
Proof using E0 I.
  destruct (decide (x ∈ forward_order s)) as [Hx|Hx].
  - destruct (di_lists _ _ _ _ I x Hx) as [-> ->]. split; apply erase_opt_nodup; apply E0.
  - destruct (di_white _ _ _ _ I x Hx) as [-> ->]. split; apply E0.
Qed.

Lemma done_edge x y : x ∈ forward_order s -> y ∈ succ_of (pool s) x ->
  y ∈ forward_order s /\ x ∈ pred_of (pool s) y /\ order_of (pool s) y < order_of (pool s) x.
Proof using E0 I He.
  intros Hx Hy. destruct (done_lists x Hx) as [Hs _]. apply Hs in Hy as [Hy Hb].
  pose proof (done_closed x y Hx Hy) as HyF. split; [done|]. split.
  - destruct (done_lists y HyF) as [_ Hp]. apply Hp. split; [|done].
    apply (eo_pred _ _ E0); [|done]. by apply done_reached.
  - by destruct (di_edges _ _ _ _ I x y Hx Hy) as [?|[_ ?]].
Qed.

Lemma done_pred x y : y ∈ forward_order s -> x ∈ pred_of (pool s) y -> x ∈ forward_order s ->
  y ∈ succ_of (pool s) x.
Proof using E0 I.
  intros Hy Hx HxF. destruct (done_lists y Hy) as [_ Hp], (done_lists x HxF) as [Hs _].
  apply Hp in Hx as [Hx Hb]. apply Hs. split; [|done]. by apply (eo_succ _ _ E0).
Qed.

Lemma done_inner y : y ∈ forward_order s -> y <> e ->
  exists x, x ∈ forward_order s /\ y ∈ succ_of (pool s) x.
Proof using E0 I.
  intros Hy Hne. destruct (di_tree _ _ _ _ I y Hy) as [->|(x & Hs & [Hn|[HxF Ho]])];
    [done|by apply elem_of_nil in Hn|].
  exists x. split; [done|]. apply (done_lists x HxF). split; [done|].
  intros (_ & _ & _ & ?)%done_back_edge. lia.
Qed.

(** The entry carries the largest number. *)
Lemma done_root x : x ∈ forward_order s -> order_of (pool s) x <= order_of (pool s) e.
Proof using E0 I He.
  intros Hx. destruct (decide (x = e)) as [->|Hne]; [lia|].
  remember (Z.to_nat (zlength (forward_order s) - order_of (pool s) x)) as k eqn:Hk.
  revert x Hx Hne Hk. induction k as [k IH] using lt_wf_ind. intros x Hx Hne ->.
  destruct (done_inner x Hx Hne) as (y & HyF & Hy).
  destruct (done_edge y x HyF Hy) as (_ & _ & Ho).
  destruct (decide (y = e)) as [->|Hye]; [lia|].
  assert (order_of (pool s) y <= order_of (pool s) e); [|lia].
  eapply (IH _); [|exact HyF|exact Hye|reflexivity].
  pose proof (number_bound _ _ _ _ _ I HyF). lia.
Qed.

End finished.
End finish.

(** * Pruning *)

Lemma prune_dead_preds_spec s :
  (forall x, x ∈ forward_order s -> is_Some (pool s !! x)) ->
  runs prune_dead_preds s (fun _ s' =>
    same_but_pool s s' /\ length (pool s') = length (pool s) /\ forall x,
      succ_of (pool s') x = succ_of (pool s) x /\ order_of (pool s') x = order_of (pool s) x /\
      back_from (pool s') x = back_from (pool s) x /\ back_to (pool s') x = back_to (pool s) x /\
      (x ∉ forward_order s -> pred_of (pool s') x = pred_of (pool s) x) /\
      (NoDup (pred_of (pool s) x) -> NoDup (pred_of (pool s') x)) /\
      forall y, y ∈ pred_of (pool s') x <->
        y ∈ pred_of (pool s) x /\ (x ∈ forward_order s -> y ∈ reachable_nodes s)).
Proof.
  intros Hr. unfold prune_dead_preds. apply runs_bind, runs_gets, runs_bind, runs_gets.
  eapply runs_mono.
  - apply (runs_for_each _ (fun pre s' =>
      same_but_pool s s' /\ length (pool s') = length (pool s) /\ forall x,
      succ_of (pool s') x = succ_of (pool s) x /\ order_of (pool s') x = order_of (pool s) x /\
      back_from (pool s') x = back_from (pool s) x /\ back_to (pool s') x = back_to (pool s) x /\
      (x ∉ pre -> pred_of (pool s') x = pred_of (pool s) x) /\
      (NoDup (pred_of (pool s) x) -> NoDup (pred_of (pool s') x)) /\
      forall y, y ∈ pred_of (pool s') x <->
        y ∈ pred_of (pool s) x /\ (x ∈ pre -> y ∈ reachable_nodes s))).
    + split_and!; [done..|]. intros x. split_and!; [done..|]. intros y. split; [|tauto].
      intros Hy. split; [done|]. intros Hx. by apply elem_of_nil in Hx.
    + intros pre x post t E (Hst & Hl & Hx).
      assert (is_Some (pool s !! x)) as Hsx.
      { apply Hr. rewrite E. apply elem_of_app. right. left. }
      assert (is_Some (pool t !! x)) as [n Hn] by (rewrite lookup_lt_is_Some, Hl; by apply lookup_lt_is_Some).
      eapply runs_on_pool_update; [exact Hn|]. simpl.
      split; [done|]. split; [by rewrite length_insert|]. intros z.
      destruct (Hx z) as (Es & Eo & Ef & Et & Ew & En & Ep).
      rewrite (get_insert pred _ _ _ _ _ _ Hn), !(get_insert_same _ _ _ _ _ _ _ Hn) by done.
      setoid_rewrite elem_of_app. setoid_rewrite list_elem_of_singleton.
      split_and!; [done..| | |]; [| |intros y]; case_decide as Ez; simpl.
      * tauto.
      * intros ?. apply Ew. tauto.
      * subst. intros H. apply list.NoDup_filter. rewrite <- (get_at pred [] _ _ _ Hn). auto.
      * done.
      * subst. rewrite list_elem_of_filter. rewrite <- (get_at pred [] _ _ _ Hn), Ep. tauto.
      * rewrite Ep. split; intros [? H]; split; try done; intros; apply H; tauto.
  - intros _ s' (?&?&?). done.
Qed.

(** * The traversed graph *)

(** What [reset_traversal], [visit] and [prune_dead_preds] establish: a forward graph whose
    blocks are exactly those the entry reaches, and whose edges are those of the original
    graph without the recorded back edges, which are exactly the retreating ones. *)
Record traversed (p0 : CFGNodePool) (e : nodref) (s : CFGStructurizer) : Prop := {
  tr_graph : forward_graph (pool s) e (forward_order s);
  tr_reached x : x ∈ forward_order s <-> reaches p0 e x;
  tr_edges x y : x ∈ forward_order s ->
    y ∈ succ_of (pool s) x <-> y ∈ succ_of p0 x /\ back_from (pool s) x <> Some y;
  tr_back x y : x ∈ forward_order s -> y ∈ succ_of p0 x ->
    back_from (pool s) x = Some y <-> order_of (pool s) x <= order_of (pool s) y;
  tr_back_to x y : back_from (pool s) x = Some y <-> back_to (pool s) y = Some x;
  tr_back_edge x y : back_from (pool s) x = Some y -> x ∈ forward_order s /\ y ∈ succ_of p0 x;
  tr_preds x y : y ∈ forward_order s ->
    x ∈ pred_of (pool s) y <-> x ∈ forward_order s /\ y ∈ succ_of (pool s) x;
  tr_other x : x ∉ forward_order s ->
    succ_of (pool s) x = succ_of p0 x /\ pred_of (pool s) x = pred_of p0 x;
  tr_nodup x : NoDup (succ_of (pool s) x) /\ NoDup (pred_of (pool s) x);
  tr_length : length (pool s) = length p0;
}.

Lemma traversed_shape p0 e s s' :
  forward_order s' = forward_order s -> same_shape (pool s) (pool s') ->
  traversed p0 e s -> traversed p0 e s'.
Proof.
  intros HF Hsh [G R E B T D P O N Hl]. pose proof Hsh as [[_ Hb] Hx]. split; rewrite ?HF.
  - by eapply forward_graph_shape.
  - done.
  - intros x y. destruct (Hx x) as (-> & _), (Hb x) as [-> _]. apply E.
  - intros x y. destruct (Hx x) as (_ & _ & ->), (Hx y) as (_ & _ & ->), (Hb x) as [-> _]. apply B.
  - intros x y. destruct (Hb x) as [-> _], (Hb y) as [_ ->]. apply T.
  - intros x y. destruct (Hb x) as [-> _]. apply D.
  - intros x y. destruct (Hx x) as (-> & _), (Hx y) as (_ & -> & _). apply P.
  - intros x. destruct (Hx x) as (-> & -> & _). apply O.
  - intros x. destruct (Hx x) as (-> & -> & _). apply N.
  - by destruct Hsh as [[-> _] _].
Qed.

Lemma prune_traversed p0 e s :
  edges_ok p0 e -> dfs_inv p0 e s [] -> visited_of (pool s) e = true ->
  runs prune_dead_preds s (fun _ s' => same_but_pool s s' /\ traversed p0 e s' /\
    forall x, back_from (pool s') x = back_from (pool s) x).
Proof.
  intros E0 I He.
  assert (forall x, x ∈ forward_order s -> is_Some (pool s !! x)) as Hr.
  { intros x Hx. apply visited_range. by apply (done_black p0 e s I). }
  eapply runs_mono; [by apply prune_dead_preds_spec|]. intros _ s' (Hs & Hl & Hx).
  split; [done|]. assert (forward_order s' = forward_order s) as HF.
  { unfold same_but_pool, set_pool in Hs. by injection Hs. }
  assert (forall x y, x ∈ forward_order s -> y ∈ pred_of (pool s') x <->
    y ∈ pred_of (pool s) x /\ y ∈ forward_order s) as Hp.
  { intros x y HxF. destruct (Hx x) as (_&_&_&_&_&_&->). rewrite (di_reachable _ _ _ _ I), (done_black p0 e s I y). tauto. }
  split; [|by intros x; destruct (Hx x) as (_&_&->&_)]. split; rewrite ?HF.
  - split.
    + apply I.
    + intros i x Hi. destruct (Hx x) as (_&->&_). by eapply di_number.
    + intros x HxF. rewrite lookup_lt_is_Some, Hl. apply lookup_lt_is_Some. auto.
    + by apply (done_black p0 e s I).
    + intros x y HxF. destruct (Hx x) as (->&->&_), (Hx y) as (_&->&_). intros Hy.
      destruct (done_edge p0 e E0 s I He x y HxF Hy) as (HyF & Hpy & Ho).
      split_and!; [done| |done]. by apply Hp.
    + intros x y HyF. rewrite Hp by done. intros [Hpx HxF]. split; [done|].
      destruct (Hx x) as (->&_). by apply (done_pred p0 e E0 s I).
    + destruct (pred_of (pool s') e) as [|x l] eqn:El; [done|].
      assert (x ∈ pred_of (pool s') e) as Hxe by (rewrite El; left).
      assert (e ∈ forward_order s) as HeF by by apply (done_black p0 e s I).
      apply Hp in Hxe as [Hxe HxF]; [|done].
      pose proof (done_pred p0 e E0 s I x e HeF Hxe HxF) as Hs'.
      destruct (done_edge p0 e E0 s I He x e HxF Hs') as (_ & _ & Ho).
      pose proof (done_root p0 e E0 s I He x HxF). lia.
    + intros y HyF Hne. destruct (done_inner p0 e E0 s I y HyF Hne) as (x & HxF & Hs').
      destruct (done_edge p0 e E0 s I He x y HxF Hs') as (_ & Hpx & _).
      intros El. assert (x ∈ pred_of (pool s') y) as Hin by by apply Hp. rewrite El in Hin.
      by apply elem_of_nil in Hin.
  - apply (done_reached p0 e s I He).
  - intros x y HxF. destruct (Hx x) as (->&_&->&_). by apply (done_lists p0 e E0 s I).
  - intros x y HxF Hy. destruct (Hx x) as (_&->&->&_), (Hx y) as (_&->&_). split.
    + intros (_ & _ & _ & ?)%(done_back_edge p0 e s I). done.
    + intros Ho. destruct (di_edges _ _ _ _ I x y HxF Hy) as [?|[_ ?]]; [done|lia].
  - intros x y. destruct (Hx x) as (_&_&->&_), (Hx y) as (_&_&_&->&_). apply I.
  - intros x y. destruct (Hx x) as (_&_&->&_). intros (?&?&_)%(done_back_edge p0 e s I). done.
  - intros x y HyF. rewrite Hp by done. destruct (Hx x) as (->&_). split.
    + intros [Hpx HxF]. split; [done|]. by apply (done_pred p0 e E0 s I).
    + intros [HxF Hs']. split; [|done]. by destruct (done_edge p0 e E0 s I He x y HxF Hs') as (_ & ? & _).
  - intros x HxF. destruct (Hx x) as (->&_&_&_&Hw&_). rewrite Hw by done. by apply (di_white _ _ _ _ I).
  - intros x. destruct (Hx x) as (->&_&_&_&_&Hn&_).
    destruct (done_nodup p0 e E0 s I x) as [? ?]. auto.
  - rewrite Hl. apply I.
Qed.
