(* ===== verification/CFGReachability.v ===== *)
(** [build_reachability] computes reachability.

    The bit matrix has one row of 32-bit words per block; on a traversed graph a bit of it
    is set exactly when there is a path of forward edges. *)
From S2P Require Import Prelude.
From S2P Require Import IR.
From S2P Require Import CFGNode.
From S2P Require Import CFGTraversal.
From S2P Require Import CFGGraph.
Local Open Scope Z_scope.

(** * The bit matrix *)

Definition word_at (bits : list Z) (k : Z) : Z := default 0 (zlookup bits k).
Definition row_bit (bits : list Z) (stride i j : Z) : bool :=
  Z.testbit (word_at bits (i * stride + j / 32)) (j mod 32).

Lemma zlookup_word bits k : 0 <= k < zlength bits -> zlookup bits k = Some (word_at bits k).
Proof. intros [x Hx]%zlookup_is_Some. unfold word_at. by rewrite Hx. Qed.

Lemma word_at_insert bits i k v :
  0 <= i < zlength bits -> 0 <= k ->
  word_at (<[Z.to_nat i := v]> bits) k = if i =? k then v else word_at bits k.
Proof. intros Hi Hk. unfold word_at. rewrite zlookup_insert by done. by destruct (i =? k). Qed.

Lemma zlength_insert {A} (l : list A) i x : zlength (<[i := x]> l) = zlength l.
Proof. unfold zlength. by rewrite length_insert. Qed.

Lemma or_words_spec dst src stride bits :
  0 <= stride -> 0 <= src -> src + stride <= dst -> dst + stride <= zlength bits ->
  exists bits', or_words dst src stride bits = Ok bits' /\ zlength bits' = zlength bits /\
    forall k, 0 <= k -> word_at bits' k =
      if (dst <=? k) && (k <? dst + stride) then Z.lor (word_at bits k) (word_at bits (src + (k - dst)))
      else word_at bits k.
Proof.
  intros Hst Hs Hsd Hd. unfold or_words, for_range.
  match goal with |- context [for_from ?b] => set (body := b) end.
  destruct (for_from_total body (fun n b => zlength b = zlength bits /\ forall k, 0 <= k -> word_at b k =
    if (dst <=? k) && (k <? dst + n) then Z.lor (word_at bits k) (word_at bits (src + (k - dst)))
    else word_at bits k) (Z.to_nat stride) 0 bits) as (b' & E & Hl & Hw).
  - split; [done|]. intros k Hk. bool_case; simpl; try done; lia.
  - intros j b Hj [Hl Hw]. unfold body. rewrite !zlookup_word by lia. simpl.
    eexists. split; [reflexivity|].
    split; [by rewrite zlength_insert|]. intros k Hk. rewrite word_at_insert by lia.
    rewrite !Hw by lia.
    destruct (Z.eqb_spec (dst + j) k) as [<-|]; bool_case; simpl; try lia; try done.
    f_equal. f_equal. lia.
  - exists b'. split_and!; [done..|]. rewrite Z2Nat.id in Hw by lia. exact Hw.
Qed.

Lemma set_bit_spec i b bits :
  0 <= i < zlength bits ->
  exists bits', set_bit i b bits = Ok bits' /\ zlength bits' = zlength bits /\
    forall k, 0 <= k -> word_at bits' k =
      if i =? k then Z.lor (word_at bits i) (Z.shiftl 1 b) else word_at bits k.
Proof.
  intros Hi. unfold set_bit. rewrite zlookup_word by done. simpl. eexists. split; [reflexivity|].
  split; [by rewrite zlength_insert|]. intros k Hk. by apply word_at_insert.
Qed.

Lemma land_31 x : 0 <= x -> Z.land x 31 = x mod 32.
Proof. intros. change 31 with (Z.ones 5). by rewrite Z.land_ones. Qed.

(** The word of column [j] lies in the row. *)
Lemma column_word j n : 0 <= j < n -> 0 <= j / 32 < (n + 31) / 32.
Proof. intros. Z.to_euclidean_division_equations; lia. Qed.

(** Distinct rows share no word. *)
Lemma row_disjoint i i' stride w w' :
  0 <= w < stride -> 0 <= w' < stride -> i * stride + w = i' * stride + w' -> i = i' /\ w = w'.
Proof. intros. assert (i = i') by nia. subst. lia. Qed.

Section build.
Context (p : CFGNodePool) (e : nodref) (L : list nodref) `{G : !forward_graph p e L}.

Definition stride : Z := (zlength L + 31) / 32.

(** The matrix has its size, and holds the rows of the blocks [P], as far as [R] says. *)
Definition matrix (bits : list Z) (R : nodref -> nodref -> Prop) : Prop :=
  zlength bits = stride * zlength L /\
  forall x z, x ∈ L -> z ∈ L -> row_bit bits stride (order_of p x) (order_of p z) = true <-> R x z.

Lemma matrix_ext bits (R R' : nodref -> nodref -> Prop) :
  matrix bits R -> (forall x z, x ∈ L -> z ∈ L -> R x z <-> R' x z) -> matrix bits R'.
Proof using Type. intros [Hl H] HR. split; [done|]. intros x z Hx Hz. by rewrite H, HR. Qed.

Lemma row_range x : x ∈ L ->
  0 <= order_of p x * stride /\ order_of p x * stride + stride <= stride * zlength L /\ 0 <= stride.
Proof using G.
  intros Hx. pose proof (order_bounds p e L x Hx). assert (0 <= stride); [|nia].
  unfold stride. pose proof (zlength_nonneg L). apply Z.div_pos; lia.
Qed.

(** Inheriting the row of a successor. *)
Lemma matrix_or bits R x y :
  matrix bits R -> x ∈ L -> y ∈ L -> order_of p y < order_of p x ->
  exists bits', or_words (order_of p x * stride) (order_of p y * stride) stride bits = Ok bits' /\
    matrix bits' (fun a z => R a z \/ a = x /\ R y z).
Proof using G.
  intros [Hl HR] Hx Hy Ho. pose proof (row_range x Hx) as (? & ? & ?).
  pose proof (row_range y Hy) as (? & _ & _).
  destruct (or_words_spec (order_of p x * stride) (order_of p y * stride) stride bits)
    as (bits' & E & Hl' & Hw); [lia|lia|nia|lia|].
  exists bits'. split; [done|]. split; [lia|]. intros a z Ha Hz.
  pose proof (order_bounds p e L z Hz). pose proof (order_bounds p e L a Ha) as Hab.
  pose proof (column_word (order_of p z) (zlength L) ltac:(lia)) as Hc. fold stride in Hc.
  pose proof (row_range a Ha) as (? & _ & _).
  assert (row_bit bits' stride (order_of p a) (order_of p z) =
    row_bit bits stride (order_of p a) (order_of p z) ||
    (bool_decide (a = x) && row_bit bits stride (order_of p y) (order_of p z))) as ->.
  { unfold row_bit. rewrite Hw by lia. case_bool_decide as Eax.
    - subst. replace ((_ <=? _) && _) with true by (symmetry; bool_case; simpl; lia || done).
      rewrite Z.lor_spec. simpl. do 3 f_equal. lia.
    - rewrite andb_false_l, orb_false_r.
      destruct ((_ <=? _) && _) eqn:Eb; [|done]. exfalso. apply Eax.
      rewrite andb_true_iff, Z.leb_le, Z.ltb_lt in Eb.
      apply (order_inj p e L); [done..|]. nia. }
  rewrite orb_true_iff, andb_true_iff, bool_decide_eq_true, !HR by done. tauto.
Qed.

(** A block reaches itself. *)
Lemma matrix_self bits R x :
  matrix bits R -> x ∈ L ->
  exists bits', set_bit (order_of p x * stride + order_of p x / 32) (Z.land (order_of p x) 31) bits = Ok bits' /\
    matrix bits' (fun a z => R a z \/ a = x /\ z = x).
Proof using G.
  intros [Hl HR] Hx. pose proof (row_range x Hx) as (? & ? & ?).
  pose proof (order_bounds p e L x Hx). pose proof (column_word _ _ ltac:(eassumption)) as Hcx.
  fold stride in Hcx. rewrite land_31 by lia.
  destruct (set_bit_spec (order_of p x * stride + order_of p x / 32) (order_of p x mod 32) bits)
    as (bits' & E & Hl' & Hw); [lia|].
  exists bits'. split; [done|]. split; [lia|]. intros a z Ha Hz.
  pose proof (order_bounds p e L z Hz). pose proof (row_range a Ha) as (? & _ & _).
  pose proof (column_word (order_of p z) (zlength L) ltac:(lia)) as Hc. fold stride in Hc.
  pose proof (Z.mod_pos_bound (order_of p x) 32 ltac:(lia)) as Hmx.
  pose proof (Z.mod_pos_bound (order_of p z) 32 ltac:(lia)) as Hmz.
  assert (row_bit bits' stride (order_of p a) (order_of p z) =
    row_bit bits stride (order_of p a) (order_of p z) || bool_decide (a = x /\ z = x)) as ->.
  { unfold row_bit. rewrite Hw by lia.
    destruct (Z.eqb_spec (order_of p x * stride + order_of p x / 32)
                         (order_of p a * stride + order_of p z / 32)) as [Ew|Nw].
    - apply row_disjoint in Ew as [Eo Ec]; [|done..].
      assert (x = a) as <- by (eapply order_inj; eauto).
      rewrite Z.lor_spec, <- Ec, Z.shiftl_1_l, Z.pow2_bits_eqb by lia. f_equal.
      apply eq_bool_prop_intro. rewrite bool_decide_spec, Is_true_true, Z.eqb_eq.
      split; [|by intros [_ ->]]. intros Em. split; [done|].
      apply (order_inj p e L); [done..|].
      rewrite (Z.div_mod (order_of p z) 32), (Z.div_mod (order_of p x) 32) by lia. lia.
    - rewrite bool_decide_false; [by rewrite orb_false_r|]. by intros [-> ->]. }
  rewrite orb_true_iff, bool_decide_eq_true, !HR by done. tauto.
Qed.
End build.

(** * The routines *)

Definition same_but_bits (s s' : CFGStructurizer) : Prop := set_bitset [] 0 s' = set_bitset [] 0 s.

#[export] Instance same_but_bits_po : PreOrder same_but_bits.
Proof. split; [done|]. intros a b c ??. unfold same_but_bits in *. congruence. Qed.

Lemma same_but_bits_pool s s' : same_but_bits s s' -> pool s' = pool s /\ forward_order s' = forward_order s.
Proof. unfold same_but_bits, set_bitset. intros H. by injection H. Qed.

Lemma reaches_step p x z :
  reaches p x z <-> z = x \/ exists y, y ∈ succ_of p x /\ reaches p y z.
Proof.
  split.
  - intros H. inversion H as [|a y b Hxy Hyz]; subst; [by left|]. right. by exists y.
  - intros [->|(y & Hy & H)]; [apply rtc_refl|]. by eapply rtc_l.
Qed.

Lemma visit_reachability_spec s e L P x :
  forward_graph (pool s) e L -> reachability_stride s = stride L -> x ∈ L ->
  (forall y, y ∈ succ_of (pool s) x -> P y) -> ~ P x ->
  matrix (pool s) L (reachability_bitset s) (fun a z => P a /\ reaches (pool s) a z) ->
  runs (visit_reachability x) s (fun _ s' => same_but_bits s s' /\ reachability_stride s' = stride L /\
    matrix (pool s) L (reachability_bitset s') (fun a z => (P a \/ a = x) /\ reaches (pool s) a z)).
Proof.
  intros G Hstr Hx HP HnP Hm. destruct (fg_range x Hx) as [n Hn]. unfold visit_reachability.
  apply runs_bind. eapply runs_on_pool_node_at; [exact Hn|]. apply runs_bind, runs_gets. rewrite Hstr.
  pose proof (get_at forward_post_visit_order 0 _ _ _ Hn) as Ox. rewrite <- Ox.
  pose proof (get_at succ [] _ _ _ Hn) as Es. set (p := pool s) in *.
  apply runs_bind. eapply runs_mono.
  { apply (runs_for_each _ (fun pre t => same_but_bits s t /\ reachability_stride t = stride L /\
      matrix p L (reachability_bitset t)
        (fun a z => P a /\ reaches p a z \/ a = x /\ exists y, y ∈ pre /\ reaches p y z))).
    { split_and!; [done..|]. eapply matrix_ext; [exact Hm|]. intros a z _ _.
      split; [by left|]. intros [?|(_ & y & Hy & _)]; [done|]. by apply elem_of_nil in Hy. }
    intros pre y post t E (Hs & Ht & Hmt). apply same_but_bits_pool in Hs as Hp. destruct Hp as [Hp _].
    assert (y ∈ succ_of p x) as Hy by (rewrite Es, E; apply elem_of_app; right; left).
    destruct (fg_edge x y Hx Hy) as (HyL & _ & Ho). destruct (fg_range y HyL) as [m Hmy].
    apply runs_bind. eapply runs_on_pool_node_at; [by rewrite Hp|]. apply runs_bind, runs_gets.
    rewrite <- (get_at forward_post_visit_order 0 _ _ _ Hmy).
    destruct (matrix_or p e L _ _ x y Hmt Hx HyL Ho) as (bits' & Eb & Hm').
    apply runs_bind. eapply runs_lift; [exact Eb|]. apply runs_modify. simpl.
    split; [by etrans; [exact Hs|]|]. split; [done|].
    eapply matrix_ext; [exact Hm'|]. intros a z Ha Hz. setoid_rewrite elem_of_app.
    setoid_rewrite list_elem_of_singleton. specialize (HP y Hy).
    assert (y <> x) by (intros ->; lia). naive_solver. }
  intros _ t (Hs & Ht & Hmt). apply runs_bind, runs_gets.
  destruct (matrix_self p e L _ _ x Hmt Hx) as (bits' & Eb & Hm').
  apply runs_bind. eapply runs_lift; [exact Eb|]. apply runs_modify. simpl.
  split; [by etrans; [exact Hs|]|]. split; [done|].
  eapply matrix_ext; [exact Hm'|]. intros a z Ha Hz. rewrite Es in HP. rewrite <- Es.
  split.
  - intros [[[? ?]|[-> (y & Hy & Hr)]]|[-> ->]].
    + tauto.
    + split; [by right|]. apply reaches_step. right. by exists y.
    + split; [by right|apply rtc_refl].
  - intros [[Hpa| ->] Hr]; [by left; left|].
    apply reaches_step in Hr as [->|(y & Hy & Hr)]; [by right|]. left. right. split; [done|]. by exists y.
Qed.

Lemma build_reachability_spec s e L :
  forward_graph (pool s) e L -> forward_order s = L ->
  runs build_reachability s (fun _ s' => same_but_bits s s' /\ reachability_stride s' = stride L /\
    matrix (pool s) L (reachability_bitset s') (reaches (pool s))).
Proof.
  intros G EL. unfold build_reachability. apply runs_bind, runs_gets. rewrite EL. fold (stride L).
  apply runs_bind, runs_modify. eapply runs_mono.
  - apply (runs_for_each _ (fun pre t => same_but_bits s t /\ reachability_stride t = stride L /\
      matrix (pool s) L (reachability_bitset t) (fun a z => a ∈ pre /\ reaches (pool s) a z))).
    + simpl. split; [done|]. split; [done|]. split.
      { unfold zlength at 1. rewrite length_replicate.
        pose proof (zlength_nonneg L). unfold stride. assert (0 <= (zlength L + 31) / 32) by (apply Z.div_pos; lia). nia. }
      intros x z _ _. split; [|by intros [Hx%elem_of_nil _]].
      unfold row_bit, word_at. unfold zlookup. case_match; [|by rewrite Z.testbit_0_l].
      match goal with |- context [replicate ?n 0 !! ?k] => destruct (replicate n 0 !! k) as [w|] eqn:Ew end.
      * apply lookup_replicate in Ew as [-> _]. simpl. by rewrite Z.testbit_0_l.
      * simpl. by rewrite Z.testbit_0_l.
    + intros pre x post t E (Hs & Ht & Hm). apply same_but_bits_pool in Hs as Hp. destruct Hp as [Hp _].
      assert (x ∈ L) as Hx by (rewrite E; apply elem_of_app; right; left).
      eapply runs_mono; [apply (visit_reachability_spec t e L (fun y => y ∈ pre) x); rewrite ?Hp; try done|].
      * intros y Hy. destruct (fg_edge x y Hx Hy) as (HyL & _ & Ho). by eapply earlier_in_prefix.
      * pose proof (fg_nodup (p := pool s) (e := e) (L := L)) as Hnd. rewrite E in Hnd.
        apply list.NoDup_app in Hnd as (_ & Hd & _). intros Hxp. apply (Hd x Hxp). left.
      * intros _ t' (Hs' & Ht' & Hm'). rewrite Hp in Hm'. split; [by etrans|]. split; [done|].
        eapply matrix_ext; [exact Hm'|]. intros a z _ _. simpl.
        by rewrite elem_of_app, list_elem_of_singleton.
  - intros _ t (Hs & Ht & Hm). split_and!; [done..|]. eapply matrix_ext; [exact Hm|].
    intros x z Hx _. simpl. tauto.
Qed.

(** What the matrix answers. *)
Lemma query_reachability_spec s e L x z :
  forward_graph (pool s) e L -> reachability_stride s = stride L ->
  matrix (pool s) L (reachability_bitset s) (reaches (pool s)) -> x ∈ L -> z ∈ L ->
  exists b, query_reachability s x z = Ok b /\ (b = true <-> reaches (pool s) x z).
Proof.
  intros G Hstr [Hl Hm] Hx Hz. unfold query_reachability. case_decide as E.
  { subst. exists true. split; [done|]. split; [intros _; apply rtc_refl|done]. }
  destruct (fg_range x Hx) as [n Hn], (fg_range z Hz) as [m Hmz].
  unfold node. rewrite Hn, Hmz. simpl. rewrite Hstr.
  rewrite <- (get_at forward_post_visit_order 0 _ _ _ Hn), <- (get_at forward_post_visit_order 0 _ _ _ Hmz).
  pose proof (order_bounds _ e L z Hz). pose proof (column_word (order_of (pool s) z) (zlength L) ltac:(lia)) as Hc.
  fold (stride L) in Hc. pose proof (row_range _ e L x Hx) as (? & ? & _).
  rewrite zlookup_word by lia. simpl. eexists. split; [reflexivity|].
  rewrite land_31 by lia. rewrite land_bit by (apply Z.mod_pos_bound; lia).
  by rewrite <- (Hm x z Hx Hz).
Qed.
