(* ===== verification/CFGFrontier.v ===== *)
(** [compute_dominance_frontier] computes dominance frontiers.

    On a traversed graph with its dominator tree, [y] ends up in the frontier of [x] exactly
    when [x] dominates a predecessor of [y] but not [y]. *)
From S2P Require Import Prelude.
From S2P Require Import IR.
From S2P Require Import CFGNode.
From S2P Require Import CFGTraversal.
From S2P Require Import CFGGraph.
From S2P Require Import CFGDominators.
Local Open Scope Z_scope.

Lemma elem_of_push_unique x l y : y ∈ push_unique x l <-> y ∈ l \/ y = x.
Proof.
  unfold push_unique. case_bool_decide as E; [split; [by left|intros [?| ->]; done]|].
  by rewrite elem_of_app, list_elem_of_singleton.
Qed.

Section frontier.
Context (q : CFGNodePool) (e : nodref) (L : list nodref) `{G : !forward_graph q e L}.
Context (T : idom_tree q e L (fun x => x ∈ L)).

(** Dominance, by paths, and the dominance frontier of the textbooks. *)
Definition dom (a b : nodref) : Prop := on_every_path q e a b.
Definition in_frontier (x y : nodref) : Prop :=
  (exists p, p ∈ L /\ y ∈ succ_of q p /\ dom x p) /\ ~ dom x y.

Lemma dom_ancestor a b : b ∈ L -> dom a b <-> ancestor q a b.
Proof using T. intros Hb. destruct (T b Hb) as (_ & _ & _ & _ & H). unfold dom. by rewrite H. Qed.

Lemma dom_refl a : dom a a.
Proof using Type. intros l Hl. by eapply path_from_head. Qed.

Lemma ancestor_trans a b c : ancestor q a b -> ancestor q b c -> ancestor q a c.
Proof using Type. intros H1 H2. induction H2; [done|]. by eapply ancestor_up. Qed.

Lemma dom_trans a b c : c ∈ L -> dom a b -> dom b c -> dom a c.
Proof using T G.
  intros Hc Hab Hbc. destruct (on_every_path_order q e L b c Hc Hbc) as [Hb _].
  apply dom_ancestor in Hab, Hbc; [|done..]. apply dom_ancestor; [done|]. by eapply ancestor_trans.
Qed.

Lemma dom_entry b : b ∈ L -> dom e b.
Proof using Type. intros _ l Hl. induction Hl; [left|by right]. Qed.

Lemma dom_order a b : b ∈ L -> dom a b -> a ∈ L /\ (a = b \/ order_of q b < order_of q a).
Proof using G. apply on_every_path_order. done. Qed.

Lemma dom_dec a b : b ∈ L -> dom a b \/ ~ dom a b.
Proof using T G.
  intros Hb. destruct (dominates_correct q e L a b G T Hb) as (r & _ & Hr).
  unfold dom. rewrite <- Hr. destruct r; [by left|by right].
Qed.

(** The immediate dominator of a block other than the entry. *)
Lemma idom_facts x d : x ∈ L -> idom_of q x = Some d ->
  d ∈ L /\ (x = e /\ d = e \/ x <> e /\ order_of q x < order_of q d).
Proof using T.
  intros Hx Hd. destruct (T x Hx) as (_ & d' & Hd' & Hcase & _). rewrite Hd in Hd'. injection Hd' as <-.
  destruct Hcase as [[-> ->]|(?&?&?)]; [|by auto]. split; [done|by left].
Qed.

Lemma idom_set x : x ∈ L -> exists d, idom_of q x = Some d.
Proof using T. intros Hx. destruct (T x Hx) as (_ & d & ? & _). by exists d. Qed.

Lemma idom_dom x d : x ∈ L -> idom_of q x = Some d -> dom d x.
Proof using T.
  intros Hx Hd. apply dom_ancestor; [done|]. destruct (decide (d = x)) as [->|Hne]; [constructor|].
  eapply ancestor_up; [exact Hd|done|constructor].
Qed.

(** A strict dominator dominates the immediate dominator. *)
Lemma dom_idom a x d : x ∈ L -> idom_of q x = Some d -> dom a x -> a <> x -> dom a d.
Proof using T G.
  intros Hx Hd Ha Hne. destruct (idom_facts x d Hx Hd) as [HdL _].
  apply dom_ancestor in Ha; [|done]. apply dom_ancestor; [done|].
  inversion Ha as [|b d' Hd' _ H]; subst; [done|]. rewrite Hd in Hd'. by injection Hd' as <-.
Qed.

(** The local part of the frontier: a successor [y] of [x] is dominated by [x] exactly when
    [x] is its immediate dominator. *)
Lemma local_frontier x y : x ∈ L -> y ∈ succ_of q x -> dom x y <-> idom_of q y = Some x.
Proof using T G.
  intros Hx Hy. destruct (fg_edge x y Hx Hy) as (HyL & Hp & Ho). split.
  - intros Hd. destruct (idom_set y HyL) as [d Ed]. rewrite Ed. f_equal.
    destruct (idom_facts y d HyL Ed) as [HdL [[-> ->]|[Hne Hod]]].
    { pose proof fg_root as Hr. rewrite Hr in Hp. by apply elem_of_nil in Hp. }
    assert (dom x d) as Hxd by (apply (dom_idom x y d); [done..|]; intros ->; lia).
    assert (dom d x) as Hdx.
    { pose proof (idom_dom y d HyL Ed) as Hdy. apply (on_every_path_pred q e L) in Hdy as [->|H];
        [lia|by apply H|done|done]. }
    destruct (dom_order d x Hx Hdx) as [_ [?|?]]; [done|].
    destruct (dom_order x d HdL Hxd) as [_ [?|?]]; [done|lia].
  - intros Hi. by apply idom_dom.
Qed.

(** The frontier from the successors and from the children in the dominator tree. *)
Lemma in_frontier_split x y : x ∈ L ->
  in_frontier x y <->
  (y ∈ succ_of q x /\ idom_of q y <> Some x) \/
  (exists c, c ∈ L /\ c <> x /\ idom_of q c = Some x /\ in_frontier c y /\ ~ dom x y).
Proof using T G.
  intros Hx. split.
  - intros [(p & HpL & Hy & Hxp) Hn]. destruct (decide (p = x)) as [->|Hpx].
    { left. split; [done|]. intros Hi. apply Hn. by apply local_frontier. }
    right. assert (exists c, c ∈ L /\ c <> x /\ idom_of q c = Some x /\ dom c p) as (c & HcL & Hcx & Hc & Hcp).
    { apply dom_ancestor in Hxp; [|done]. clear -T G Hxp Hpx HpL. revert HpL Hpx.
      induction Hxp as [|b d Hd Hne H IH]; intros Hb Hbx; [done|].
      destruct (idom_facts b d Hb Hd) as [HdL _].
      destruct (decide (d = x)) as [->|Hdx].
      - exists b. split_and!; [done..|apply dom_refl].
      - destruct (IH HdL Hdx) as (c & ? & ? & ? & Hcd). exists c. split_and!; [done..|].
        eapply dom_trans; [done|exact Hcd|by apply idom_dom]. }
    exists c. split_and!; [done..| |done]. split; [by exists p|]. intros Hcy. apply Hn.
    destruct (fg_edge p y HpL Hy) as (HyL & _).
    eapply dom_trans; [done|by apply (idom_dom c)|done].
  - intros [[Hy Hi]|(c & HcL & _ & Hc & [(p & HpL & Hy & Hcp) _] & Hn)].
    + split; [by exists x; split_and!; [done..|apply dom_refl]|]. by rewrite local_frontier.
    + split; [|done]. exists p. split_and!; [done..|]. eapply dom_trans; [done|by apply (idom_dom c)|done].
Qed.

Lemma in_frontier_L x y : in_frontier x y -> y ∈ L.
Proof using G. intros [(p & Hp & Hy & _) _]. by destruct (fg_edge p y Hp Hy). Qed.

(** A block that ends the program has an empty frontier. *)
Lemma in_frontier_leaf x y : x ∈ L -> succ_of q x = [] -> ~ in_frontier x y.
Proof using T G.
  intros Hx Hs [(p & HpL & Hy & Hxp) Hn]. destruct (decide (p = x)) as [->|Hne].
  { rewrite Hs in Hy. by apply elem_of_nil in Hy. }
  assert (forall b, b ∈ L -> reaches q b p -> dom x b \/ reaches q x p -> True) as _ by done.
  destruct (entry_path q e L p HpL) as [l Hl]. specialize (Hxp l Hl).
  clear Hy Hn. induction Hl as [|l a b Hl IH Hb].
  - apply list_elem_of_singleton in Hxp as ->. done.
  - apply elem_of_cons in Hxp as [->|Hxl]; [done|].
    destruct (decide (a = x)) as [->|Hax]; [rewrite Hs in Hb; by apply elem_of_nil in Hb|].
    apply IH; [by eapply path_in_graph|done..].
Qed.

(** * The loops *)

(** Only frontiers have changed. *)
Definition frame (p : CFGNodePool) : Prop := same_shape q p /\ forall x, idom_of p x = idom_of q x.

Lemma frame_update p r n m :
  frame p -> p !! r = Some n -> succ m = succ n -> pred m = pred n ->
  forward_post_visit_order m = forward_post_visit_order n ->
  immediate_dominator m = immediate_dominator n ->
  succ_back_edge m = succ_back_edge n -> pred_back_edge m = pred_back_edge n ->
  frame (<[r := m]> p).
Proof using Type.
  intros [Hs Hi] Hn ??????. split.
  - etrans; [exact Hs|]. by eapply same_shape_insert.
  - intros x. rewrite (get_insert_same _ _ _ _ _ _ _ Hn) by done. apply Hi.
Qed.

Lemma frame_dominates p a b : frame p -> b ∈ L ->
  exists r, dominates p a b = Ok r /\ (r = true <-> dom a b).
Proof using T G.
  intros [Hs Hi] Hb.
  destruct (dominates_correct p e L a b) as (r & E & Hr); [by eapply forward_graph_shape| |done|].
  { eapply idom_tree_frame; [|exact T]. split; [done|auto]. }
  exists r. split; [done|]. rewrite Hr. unfold dom.
  split; apply on_every_path_shape; [by apply same_shape_sym|done].
Qed.

Lemma frame_range p x : frame p -> x ∈ L -> is_Some (p !! x).
Proof using G.
  intros [[[Hl _] _] _] Hx. rewrite lookup_lt_is_Some, Hl. apply lookup_lt_is_Some. by apply fg_range.
Qed.

Lemma propagate_spec d fs p :
  frame p -> d ∈ L -> (forall f, f ∈ fs -> f ∈ L) ->
  runs (for_eachM (propagate_frontier d) fs) p (fun _ p' => frame p' /\
    (forall x, x <> d -> df_of p' x = df_of p x) /\
    forall y, y ∈ df_of p' d <-> y ∈ df_of p d \/ y ∈ fs /\ ~ dom d y).
Proof using T G.
  intros Hf Hd Hfs. eapply (runs_for_each _ (fun pre p' => frame p' /\
    (forall x, x <> d -> df_of p' x = df_of p x) /\
    forall y, y ∈ df_of p' d <-> y ∈ df_of p d \/ y ∈ pre /\ ~ dom d y)).
  { split_and!; [done..|]. intros y. rewrite elem_of_nil. tauto. }
  intros pre f post t E (Ht & Hne & Heq).
  assert (f ∈ L) as HfL by (apply Hfs; rewrite E; apply elem_of_app; right; left).
  destruct (frame_dominates t d f Ht HfL) as (r & Er & Hr).
  unfold propagate_frontier. apply runs_bind. eapply runs_observe; [exact Er|].
  destruct r.
  - apply runs_ret. split_and!; [done..|]. intros y. rewrite Heq, elem_of_app, list_elem_of_singleton.
    assert (dom d f) by by apply Hr. split; [tauto|]. intros [?|[[?| ->] ?]]; tauto.
  - destruct (frame_range t d Ht Hd) as [n Hn]. eapply runs_update; [exact Hn|].
    split; [by eapply frame_update|]. split.
    + intros x Hx. rewrite (get_insert _ _ _ _ _ _ _ Hn). case_decide; [done|]. by apply Hne.
    + intros y. rewrite (get_insert _ _ _ _ _ _ _ Hn). case_decide; [|done]. simpl.
      rewrite elem_of_push_unique, elem_of_app, list_elem_of_singleton.
      rewrite <- (get_at dominance_frontier [] _ _ _ Hn), Heq.
      assert (~ dom d f) by (rewrite <- Hr; done). split; [|tauto].
      intros [[?|?]| ->]; tauto.
Qed.

(** What one block contributes; [A]: the frontier of [x] before. *)
Definition local_of (A pre : list nodref) (x y : nodref) : Prop :=
  y ∈ A \/ y ∈ pre /\ idom_of q y <> Some x.

Lemma recompute_dominance_frontier_spec x d p :
  frame p -> x ∈ L -> idom_of q x = Some d -> (forall y, y ∈ df_of p x -> y ∈ L) ->
  runs (recompute_dominance_frontier x) p (fun _ p' => frame p' /\
    (forall z, z <> x -> z <> d -> df_of p' z = df_of p z) /\
    (forall y, y ∈ df_of p' x <-> local_of (df_of p x) (succ_of q x) x y) /\
    (d <> x -> forall y, y ∈ df_of p' d <-> y ∈ df_of p d \/
       succ_of q x <> [] /\ local_of (df_of p x) (succ_of q x) x y /\ ~ dom d y)).
Proof using T G.
  intros Hf Hx Hd HA. destruct (frame_range p x Hf Hx) as [n Hn].
  destruct (idom_facts x d Hx Hd) as [HdL Hcase].
  unfold recompute_dominance_frontier. apply runs_bind. eapply runs_field; [exact Hn|].
  assert (succ n = succ_of q x) as ->.
  { rewrite <- (get_at succ [] _ _ _ Hn). destruct Hf as [[_ Hs] _]. by destruct (Hs x) as (-> & _). }
  set (A := df_of p x) in *.
  eapply (runs_for_each _ (fun pre p' => frame p' /\
    (forall z, z <> x -> z <> d -> df_of p' z = df_of p z) /\
    (forall y, y ∈ df_of p' x <-> local_of A pre x y) /\
    (d <> x -> forall y, y ∈ df_of p' d <-> y ∈ df_of p d \/
       pre <> [] /\ local_of A pre x y /\ ~ dom d y))).
  { split_and!; [done..| |].
    - intros y. unfold local_of. rewrite elem_of_nil. fold A. tauto.
    - intros _ y. tauto. }
  intros pre s post t E (Ht & Hother & Hxx & Hdd).
  assert (s ∈ succ_of q x) as Hs by (rewrite E; apply elem_of_app; right; left).
  destruct (fg_edge x s Hx Hs) as (HsL & _ & Hso).
  destruct (frame_range t s Ht HsL) as [sn Hsn].
  apply runs_bind. eapply runs_node_at; [exact Hsn|].
  assert (immediate_dominator sn = idom_of q s) as ->.
  { rewrite <- (get_at immediate_dominator None _ _ _ Hsn). by destruct Ht as [_ ->]. }
  assert (runs (if bool_decide (idom_of q s <> Some x)
    then update x (fun n => set_dominance_frontier (push_unique s (dominance_frontier n)) n)
    else mret tt) t (fun _ t' => frame t' /\ (forall z, z <> x -> df_of t' z = df_of t z) /\
      forall y, y ∈ df_of t' x <-> local_of A (pre ++ [s]) x y)) as Hstep.
  { destruct (frame_range t x Ht Hx) as [xn Hxn]. unfold local_of in *.
    case_bool_decide as Ei.
    - eapply runs_update; [exact Hxn|]. split; [by eapply frame_update|]. split.
      + intros z Hz. rewrite (get_insert _ _ _ _ _ _ _ Hxn). by case_decide.
      + intros y. rewrite (get_insert _ _ _ _ _ _ _ Hxn). case_decide; [|done]. simpl.
        rewrite elem_of_push_unique, <- (get_at dominance_frontier [] _ _ _ Hxn), Hxx.
        rewrite elem_of_app, list_elem_of_singleton.
        split; [intros [[?|?]| ->]|]; tauto.
    - apply runs_ret. split_and!; [done..|]. intros y.
      rewrite Hxx, elem_of_app, list_elem_of_singleton. split; [tauto|]. intros [?|[[?| ->] ?]]; tauto. }
  apply runs_bind. eapply runs_mono; [exact Hstep|]. intros _ t1 (Ht1 & Hother1 & Hxx1).
  destruct (frame_range t1 x Ht1 Hx) as [xn Hxn]. apply runs_bind. eapply runs_node_at; [exact Hxn|].
  assert (immediate_dominator xn = Some d) as ->.
  { rewrite <- (get_at immediate_dominator None _ _ _ Hxn). destruct Ht1 as [_ ->]. done. }
  rewrite (get_at dominance_frontier [] _ _ _ Hxn) in Hxx1.
  assert (forall f, f ∈ dominance_frontier xn -> f ∈ L) as HfL.
  { intros f Hf'. apply Hxx1 in Hf' as [?|[Hf' _]]; [by apply HA|].
    assert (f ∈ succ_of q x) as Hfs.
    { rewrite E. rewrite elem_of_app in Hf' |- *. rewrite list_elem_of_singleton in Hf'.
      rewrite elem_of_cons. tauto. }
    by destruct (fg_edge x f Hx Hfs). }
  eapply runs_mono; [by apply (propagate_spec d)|]. intros _ t2 (Ht2 & Hne2 & Heq2).
  split; [done|]. split.
  { intros z Hzx Hzd. by rewrite Hne2, Hother1, Hother. }
  split.
  - intros y. destruct (decide (x = d)) as [<-|Hxd].
    + rewrite Heq2. rewrite (get_at dominance_frontier [] _ _ _ Hxn), Hxx1. tauto.
    + rewrite Hne2 by done. by rewrite (get_at dominance_frontier [] _ _ _ Hxn), Hxx1.
  - intros Hdx y. rewrite Heq2, Hother1, Hdd, Hxx1 by done.
    assert (pre ++ [s] <> []) as Hnn by (by destruct pre). split.
    + intros [[?|(?&Hl&?)]|?]; [by left| |right; tauto]. right. split_and!; [done| |done].
      unfold local_of in *. rewrite elem_of_app. tauto.
    + intros [?|(_&?&?)]; [by left; left|]. right. tauto.
Qed.

(** * The whole computation *)

Lemma clear_frontiers_spec s :
  frame (pool s) -> forward_order s = L ->
  runs (for_eachM (fun r => on_pool (update r (set_dominance_frontier []))) L) s (fun _ s' =>
    same_but_pool s s' /\ frame (pool s') /\ forall x, x ∈ L -> df_of (pool s') x = []).
Proof using G.
  intros Hf EL. eapply (runs_for_each _ (fun pre s' =>
    same_but_pool s s' /\ frame (pool s') /\ forall x, x ∈ pre -> df_of (pool s') x = [])).
  { split_and!; [done..|]. intros x Hx. by apply elem_of_nil in Hx. }
  intros pre x post t E (Hs & Ht & Hdf).
  assert (x ∈ L) as Hx by (rewrite E; apply elem_of_app; right; left).
  destruct (frame_range _ x Ht Hx) as [n Hn]. eapply runs_on_pool_update; [exact Hn|]. simpl.
  split; [done|]. split; [by eapply frame_update|]. intros z Hz.
  rewrite (get_insert _ _ _ _ _ _ _ Hn). case_decide; [done|]. apply Hdf.
  apply elem_of_app in Hz as [?|Hz]; [done|]. by apply list_elem_of_singleton in Hz.
Qed.

(** Frontiers after the blocks of [pre]: finished for those, and for the others what their
    children in [pre] passed on. *)
Definition frontier_inv (pre : list nodref) (p : CFGNodePool) : Prop :=
  frame p /\ forall x y, x ∈ L ->
    y ∈ df_of p x <->
      x ∈ pre /\ in_frontier x y \/
      (x ∉ pre) /\ exists c, c ∈ pre /\ c <> x /\ idom_of q c = Some x /\ in_frontier c y /\ ~ dom x y.

Lemma frontier_inv_step pre x post p :
  L = pre ++ x :: post -> frontier_inv pre p ->
  runs (recompute_dominance_frontier x) p (fun _ p' => frontier_inv (pre ++ [x]) p').
Proof using T G.
  intros E [Hf HI]. assert (x ∈ L) as Hx by (rewrite E; apply elem_of_app; right; left).
  destruct (idom_set x Hx) as [d Hd]. destruct (idom_facts x d Hx Hd) as [HdL Hdcase].
  assert (x ∉ pre) as Hxpre by (intros H; pose proof (prefix_smaller q e L pre x post x G E H); lia).
  assert (forall y, y ∈ df_of p x <->
    exists c, c ∈ L /\ c <> x /\ idom_of q c = Some x /\ in_frontier c y /\ ~ dom x y) as HA.
  { intros y. rewrite (HI x y Hx). split.
    - intros [[? _]|(_ & c & Hc & ?)]; [done|]. exists c. split; [|done].
      rewrite E. apply elem_of_app. by left.
    - intros (c & HcL & Hcx & Hci & Hrest). right. split; [done|]. exists c. split; [|done].
      destruct (idom_facts c x HcL Hci) as [_ [[-> ->]|[_ Ho]]]; [done|].
      by eapply earlier_in_prefix. }
  assert (forall y, local_of (df_of p x) (succ_of q x) x y <-> in_frontier x y) as Hloc.
  { intros y. unfold local_of. rewrite HA, (in_frontier_split x y Hx). tauto. }
  eapply runs_mono; [apply (recompute_dominance_frontier_spec x d p Hf Hx Hd)|].
  { intros y Hy. apply HA in Hy as (c & _ & _ & _ & Hc & _). by eapply in_frontier_L. }
  intros _ p' (Hf' & Hother & Hxx & Hdd). split; [done|]. intros z y Hz.
  setoid_rewrite elem_of_app. setoid_rewrite list_elem_of_singleton.
  destruct (decide (z = x)) as [->|Hzx]; [rewrite Hxx, Hloc; tauto|].
  destruct (decide (z = d)) as [->|Hzd].
  - rewrite (Hdd ltac:(done) y), Hloc, (HI d y Hz).
    assert (d ∉ pre) as Hdpre.
    { intros H. pose proof (prefix_smaller q e L pre x post d G E H).
      destruct Hdcase as [[-> ->]|[_ ?]]; [done|lia]. }
    assert (in_frontier x y -> succ_of q x <> []) as Hleaf
      by (intros HF Hs; by apply (in_frontier_leaf x y Hx Hs)).
    split.
    + intros [[[? _]|(_ & c & Hc & ?)]|(_ & HF & Hn)]; [done|right|right].
      * split; [tauto|]. exists c. tauto.
      * split; [tauto|]. exists x. split_and!; [by right|done..].
    + intros [[[?|?] _]|(_ & c & [Hc| ->] & Hrest)]; [done|done| |].
      * left. right. split; [done|]. exists c. tauto.
      * right. tauto.
  - rewrite Hother, (HI z y Hz) by done. split.
    + intros [?|(? & c & ?)]; [tauto|]. right. split; [tauto|]. exists c. tauto.
    + intros [[[?|?] ?]|(? & c & [Hc| ->] & ? & Hi & ?)]; [tauto|done| |congruence].
      right. split; [tauto|]. exists c. tauto.
Qed.

Lemma compute_dominance_frontier_spec s :
  frame (pool s) -> forward_order s = L ->
  runs compute_dominance_frontier s (fun _ s' =>
    same_but_pool s s' /\ frame (pool s') /\
    forall x y, x ∈ L -> y ∈ df_of (pool s') x <-> in_frontier x y).
Proof using T G.
  intros Hf EL. unfold compute_dominance_frontier. apply runs_bind, runs_gets. rewrite EL.
  apply runs_bind. eapply runs_mono; [by apply clear_frontiers_spec|]. intros _ s1 (Hs1 & Hf1 & Hdf1).
  eapply runs_mono.
  - apply (runs_for_each _ (fun pre t => same_but_pool s1 t /\ frontier_inv pre (pool t))).
    + split; [done|]. split; [done|]. intros x y Hx. rewrite Hdf1 by done. rewrite elem_of_nil.
      split; [done|]. intros [[Hn _]|(_ & c & Hn & _)]; by apply elem_of_nil in Hn.
    + intros pre x post t E [Hs Hi]. apply runs_zoom.
      eapply runs_mono; [exact (frontier_inv_step pre x post (pool t) E Hi)|]. intros [] p' Hp'. by split.
  - intros _ s' [Hs [Hf' HI]]. split; [by etrans|]. split; [done|]. intros x y Hx.
    rewrite (HI x y Hx). tauto.
Qed.
End frontier.
