(* ===== verification/CFGSearch.v ===== *)
(** The cached searches of node.cpp.

    [search_spec]: a search over blocks on which its tests are defined ends, whatever the
    cycles of the graph, and answers whether a hit can be reached.  Its instances give
    [can_backtrace_to] and [dominates_all_reachable_exits]. *)
From S2P Require Import Prelude.
From S2P Require Import IR.
From S2P Require Import CFGNode.
From S2P Require Import CFGTraversal.
From S2P Require Import CFGGraph.
From S2P Require Import CFGDominators.
From S2P Require Import CFGVisit.
From S2P Require Import CFGForward.
Local Open Scope Z_scope.

Section search.
Context (p : CFGNodePool) (verdict : CFGNode -> nodref -> res (option bool)).
Context (target : nodref -> res bool) (next : CFGNode -> list nodref).

(** The tests are defined on the blocks [V], which the search does not leave. *)
Context (V : nodref -> Prop).
Context (total : forall x, V x -> exists n v, p !! x = Some n /\ verdict n x = Ok v /\
  (v = None -> forall y, y ∈ next n -> V y /\ exists b, target y = Ok b)).

(** A hit can be reached from [x]. *)
Inductive hits : nodref -> Prop :=
| hit_here x n : p !! x = Some n -> verdict n x = Ok (Some true) -> hits x
| hit_edge x n y : p !! x = Some n -> verdict n x = Ok None -> y ∈ next n -> target y = Ok true -> hits x
| hit_next x n y : p !! x = Some n -> verdict n x = Ok None -> y ∈ next n -> hits y -> hits x.

(** A block the search is done with: no hit at it, and its neighbours are cached. *)
Definition closed (C : gset nodref) (x : nodref) : Prop := exists n, p !! x = Some n /\
  (verdict n x = Ok (Some false) \/
   verdict n x = Ok None /\ forall y, y ∈ next n -> target y = Ok false /\ y ∈ C).

Lemma closed_mono C C' x : C ⊆ C' -> closed C x -> closed C' x.
Proof using Type.
  intros HC (n & Hn & [H|[H H2]]); exists n; split; [done|by left|done|right].
  split; [done|]. intros y Hy. destruct (H2 y Hy). split; [done|by apply HC].
Qed.

Lemma closed_no_hits C x : (forall z, z ∈ C -> closed C z) -> x ∈ C -> ~ hits x.
Proof using Type.
  intros HC Hx H. induction H as [x n Hn Hv|x n y Hn Hv Hy Ht|x n y Hn Hv Hy _ IH];
    destruct (HC x Hx) as (n' & Hn' & Hcase); rewrite Hn in Hn'; injection Hn' as <-; rewrite Hv in Hcase;
    destruct Hcase as [?|[? Hnext]]; try congruence.
  - destruct (Hnext y Hy). congruence.
  - apply IH. by destruct (Hnext y Hy).
Qed.

(** The blocks that are not cached yet. *)
Definition uncached (C : gset nodref) : gset nodref := set_seq 0 (length p) ∖ C.

Lemma uncached_mono C C' : C ⊆ C' -> (size (uncached C') <= size (uncached C))%nat.
Proof using Type. intros H. apply subseteq_size. unfold uncached. clear -H. set_solver. Qed.

Lemma uncached_less C x : is_Some (p !! x) -> x ∉ C ->
  (size (uncached ({[x]} ∪ C)) < size (uncached C))%nat.
Proof using Type.
  intros Hx HC. apply lookup_lt_is_Some in Hx. apply subset_size. unfold uncached.
  clear -Hx HC. split; [set_solver|]. intros H. assert (x ∈ (set_seq 0 (length p) ∖ C : gset nodref)) as Hin.
  { apply elem_of_difference. split; [|done]. apply elem_of_set_seq. lia. }
  apply H in Hin. set_solver.
Qed.

(** The result of a search from [x] with cache [C]. *)
Definition search_result (C : gset nodref) (x : nodref) (b : bool) (C' : gset nodref) : Prop :=
  if b then hits x
  else C ⊆ C' /\ x ∈ C' /\ forall z, z ∈ C' -> z ∉ C -> closed C' z.

Lemma search_each_spec fuel l C :
  (forall x C, V x -> (size (uncached C) < fuel)%nat ->
     exists b C', search p verdict target next fuel x C = Ok (b, C') /\ search_result C x b C') ->
  (forall y, y ∈ l -> V y /\ exists b, target y = Ok b) ->
  (size (uncached C) < fuel)%nat ->
  exists b C', search_each target (search p verdict target next fuel) l C = Ok (b, C') /\
    if b then exists y, y ∈ l /\ (target y = Ok true \/ hits y)
    else C ⊆ C' /\ (forall y, y ∈ l -> target y = Ok false /\ y ∈ C') /\
         forall z, z ∈ C' -> z ∉ C -> closed C' z.
Proof using total.
  intros IH. revert C; induction l as [|x l IHl]; intros C Hl Hf; simpl.
  { exists false, C. split; [done|]. split; [done|]. split; [|done]. intros y Hy. by apply elem_of_nil in Hy. }
  destruct (Hl x ltac:(left)) as [Vx [t Ht]]. rewrite Ht. simpl. destruct t.
  { exists true, C. split; [done|]. exists x. split; [left|by left]. }
  destruct (IH x C Vx Hf) as (b & C1 & -> & H1). simpl. destruct b.
  { exists true, C1. split; [done|]. exists x. split; [left|by right]. }
  destruct H1 as (Hsub & Hx & Hcl).
  destruct (IHl C1) as (b & C2 & -> & H2).
  { intros y Hy. apply Hl. by right. }
  { eapply Nat.le_lt_trans; [by apply uncached_mono|done]. }
  exists b, C2. split; [done|]. destruct b.
  - destruct H2 as (y & Hy & H). exists y. split; [by right|done].
  - destruct H2 as (Hsub2 & Hall & Hcl2). split; [set_solver|]. split.
    + intros y Hy. apply elem_of_cons in Hy as [->|Hy]; [|auto]. split; [done|set_solver].
    + intros z Hz HzC. destruct (decide (z ∈ C1)) as [H|H]; [|auto].
      eapply closed_mono; [exact Hsub2|auto].
Qed.

Lemma search_cached_spec fuel x C :
  V x -> (size (uncached C) < fuel)%nat ->
  exists b C', search p verdict target next fuel x C = Ok (b, C') /\ search_result C x b C'.
Proof using total.
  revert x C; induction fuel as [|fuel IH]; intros x C Vx Hf; [lia|]. simpl.
  case_decide as Hc.
  { exists false, C. split; [done|]. split_and!; [done..|]. intros z ??. done. }
  destruct (total x Vx) as (n & v & Hn & Hv & Hnext). unfold node. rewrite Hn. simpl. rewrite Hv. simpl.
  assert (size (uncached ({[x]} ∪ C)) < fuel)%nat as Hf'.
  { pose proof (uncached_less C x ltac:(by eexists) Hc). lia. }
  destruct v as [b|].
  - exists b, ({[x]} ∪ C). split; [done|]. destruct b; [by eapply hit_here|].
    split; [set_solver|]. split; [set_solver|]. intros z Hz HzC.
    assert (z = x) as -> by set_solver. exists n. split; [done|by left].
  - destruct (search_each_spec fuel (next n) ({[x]} ∪ C) IH (Hnext eq_refl) Hf')
      as (b & C' & -> & H). exists b, C'. split; [done|]. destruct b.
    + destruct H as (y & Hy & [Ht|Hh]); [by eapply hit_edge|by eapply hit_next].
    + destruct H as (Hsub & Hall & Hcl). split; [set_solver|]. split; [set_solver|].
      intros z Hz HzC. destruct (decide (z = x)) as [->|Hzx]; [|apply Hcl; set_solver].
      exists n. split; [done|]. right. auto.
Qed.

(** With the fuel of the code's searches and an empty cache. *)
Lemma search_spec x :
  V x -> exists b C, search p verdict target next (search_fuel p) x ∅ = Ok (b, C) /\ (b = true <-> hits x).
Proof using total.
  intros Vx. destruct (search_cached_spec (search_fuel p) x ∅ Vx) as (b & C & E & H).
  { unfold search_fuel, uncached. rewrite difference_empty_L, size_set_seq. lia. }
  exists b, C. split; [done|]. destruct b; [done|]. split; [done|]. intros Hh. exfalso.
  destruct H as (_ & Hx & Hcl). eapply (closed_no_hits C x); [|done|done].
  intros z Hz. apply Hcl; [done|set_solver].
Qed.
End search.

(** * can_backtrace_to *)

(** A path of one or more edges, followed backwards. *)
Definition leads_to (p : CFGNodePool) : nodref -> nodref -> Prop := tc (fun a b => a ∈ pred_of p b).

Lemma can_backtrace_to_cached_spec p this parent :
  (forall x y, x ∈ pred_of p y -> is_Some (p !! x)) -> is_Some (p !! this) ->
  exists b C, can_backtrace_to_cached p this parent ∅ = Ok (b, C) /\
    (b = true <-> leads_to p parent this).
Proof.
  intros Hr Hthis.
  destruct (search_spec p (fun _ _ => Ok None) (fun q => Ok (bool_decide (q = parent))) pred
    (fun x => is_Some (p !! x))) with (x := this) as (b & C & E & Hb); [|done|].
  { intros x [n Hn]. exists n, None. split; [done|]. split; [done|]. intros _ y Hy. split; [|by eexists].
    apply (Hr y x). by rewrite (get_at pred _ _ _ _ Hn). }
  exists b, C. split; [done|]. rewrite Hb. clear E Hb. unfold leads_to. split.
  - intros H. induction H as [x n Hn Hv|x n y Hn _ Hy Ht|x n y Hn _ Hy _ IH]; [done| |].
    + injection Ht as Ht. apply bool_decide_eq_true in Ht as ->. apply tc_once.
      by rewrite (get_at pred _ _ _ _ Hn).
    + eapply tc_r; [|by rewrite (get_at pred _ _ _ _ Hn)].
      apply IH, (Hr y x). by rewrite (get_at pred _ _ _ _ Hn).
  - intros H. revert Hthis. pattern this. revert this H. apply tc_ind_r.
    + intros x Hx [n Hn]. eapply (hit_edge _ _ _ _ _ n parent); [done..| |by rewrite bool_decide_true].
      by rewrite (get_at pred _ _ _ _ Hn) in Hx.
    + intros y x _ Hyx IH [n Hn]. eapply (hit_next _ _ _ _ _ n y); [done..| |].
      * by rewrite (get_at pred _ _ _ _ Hn) in Hyx.
      * apply IH. by eapply Hr.
Qed.

(** On a traversed graph backtracing is reachability: the early exit on the visit orders
    never hides a path. *)
Lemma can_backtrace_to_graph p e L this parent :
  forward_graph p e L -> (forall x y, x ∈ pred_of p y -> is_Some (p !! x)) ->
  this ∈ L -> parent ∈ L ->
  exists b, can_backtrace_to p this parent = Ok b /\
    (b = true <-> parent <> this /\ reaches p parent this).
Proof.
  intros G Hr Hthis Hparent.
  assert (leads_to p parent this <-> parent <> this /\ reaches p parent this) as Hiff.
  { assert (forall x, leads_to p parent x -> x ∈ L -> reaches p parent x /\ order_of p x < order_of p parent) as H1.
    { apply (tc_ind_r (fun x => x ∈ L -> reaches p parent x /\ order_of p x < order_of p parent)).
      - intros x Hx HxL. destruct (fg_pred parent x HxL Hx) as [_ Hs].
        destruct (fg_edge parent x Hparent Hs) as (_ & _ & ?). split; [by apply rtc_once|done].
      - intros y x _ Hyx IH HxL. destruct (fg_pred y x HxL Hyx) as [HyL Hs].
        destruct (fg_edge y x HyL Hs) as (_ & _ & ?). destruct (IH HyL). split; [by eapply rtc_r|lia]. }
    split.
    - intros H. destruct (H1 this H Hthis). split; [intros ->; lia|done].
    - intros [Hne H]. apply rtc_tc in H as [?|H]; [done|]. clear -G H Hparent. revert Hparent.
      induction H as [x y Hxy|x y z Hxy _ IH]; intros Hx; destruct (fg_edge x y Hx Hxy) as (Hy & Hp & _).
      + by apply tc_once.
      + eapply tc_l; [exact Hp|exact (IH Hy)]. }
  unfold can_backtrace_to. destruct (fg_range parent Hparent) as [pn Hpn], (fg_range this Hthis) as [n Hn].
  unfold node. rewrite Hpn, Hn. simpl.
  rewrite <- (get_at forward_post_visit_order 0 _ _ _ Hpn), <- (get_at forward_post_visit_order 0 _ _ _ Hn).
  destruct (Z.ltb_spec (order_of p parent) (order_of p this)) as [Hlt|Hge].
  - exists false. split; [done|]. split; [done|]. intros [_ H].
    destruct (reaches_order p e L parent this Hparent H) as [_ [->|?]]; lia.
  - destruct (can_backtrace_to_cached_spec p this parent Hr ltac:(by eexists)) as (b & C & -> & Hb).
    exists b. split; [done|]. by rewrite Hb.
Qed.

(** * dominates_all_reachable_exits *)

Section exits.
Context (p : CFGNodePool) (e : nodref) (L : list nodref) `{G : !forward_graph p e L}.
Context (T : idom_tree p e L (fun x => x ∈ L)).
Context (HB : forall x h, x ∈ L -> back_from p x = Some h -> h ∈ L).

(** Every block that can be reached, also through one back edge, is dominated. *)
Definition owns_exits (this : nodref) : Prop := forall z, reaches p this z ->
  on_every_path p e this z /\
  forall h, back_from p z = Some h -> on_every_path p e this h.

Lemma dominates_all_reachable_exits_spec this :
  this ∈ L -> exists b, dominates_all_reachable_exits p this = Ok b /\ (b = true <-> owns_exits this).
Proof using T G HB.
  intros Hthis. unfold dominates_all_reachable_exits, dominates_all_reachable_exits_cached.
  match goal with |- context [search p ?v ?t ?nx _ _ _] => set (verdict := v); set (target := t) end.
  assert (forall b, b ∈ L -> exists r, target b = Ok (negb r) /\ (r = true <-> on_every_path p e this b)) as Htarget.
  { intros b Hb. destruct (dominates_correct p e L this b G T Hb) as (r & E & Hr).
    exists r. split; [|done]. unfold target. by rewrite E. }
  assert (forall x n, x ∈ L -> p !! x = Some n ->
    (verdict n x = Ok None /\ forall h, back_from p x = Some h -> on_every_path p e this h) \/
    (verdict n x = Ok (Some true) /\ exists h, back_from p x = Some h /\ ~ on_every_path p e this h)) as Hverdict.
  { intros x n Hx Hn. rewrite (get_at succ_back_edge _ _ _ _ Hn). unfold verdict.
    destruct (succ_back_edge n) as [h|] eqn:Eh; [|by left].
    destruct (dominates_correct p e L this h G T) as (r & -> & Hr).
    { apply (HB x); [done|]. by rewrite (get_at succ_back_edge _ _ _ _ Hn). }
    simpl. destruct r; [left|right]; (split; [done|]).
    - intros h' [= <-]. by apply Hr.
    - exists h. split; [done|]. by rewrite <- Hr. }
  destruct (search_spec p verdict target succ (fun x => x ∈ L)) with (x := this) as (b & C & -> & Hb); [|done|].
  { intros x Hx. destruct (fg_range x Hx) as [n Hn].
    assert (exists v, verdict n x = Ok v) as [v Hv]
      by (destruct (Hverdict x n Hx Hn) as [[-> _]|[-> _]]; by eexists).
    exists n, v. split_and!; [done..|]. intros _ y Hy.
    rewrite <- (get_at succ [] _ _ _ Hn) in Hy. destruct (fg_edge x y Hx Hy) as (HyL & _).
    split; [done|]. destruct (Htarget y HyL) as (r & -> & _). by eexists. }
  exists (negb b). split; [done|]. rewrite negb_true_iff, <- not_true_iff_false, Hb. split.
  - intros Hno.
    assert (forall x z, reaches p x z -> x ∈ L -> on_every_path p e this x -> ~ hits p verdict target succ x ->
      on_every_path p e this z /\ forall h, back_from p z = Some h -> on_every_path p e this h) as H.
    { intros x z H. induction H as [x|x y z Hxy _ IH]; intros Hx Hd Hh; destruct (fg_range x Hx) as [n Hn].
      - split; [done|]. destruct (Hverdict x n Hx Hn) as [[_ ?]|[Hv _]]; [done|].
        exfalso. apply Hh. by eapply hit_here.
      - destruct (fg_edge x y Hx Hxy) as (HyL & _). unfold edge in Hxy. rewrite (get_at succ _ _ _ _ Hn) in Hxy.
        destruct (Hverdict x n Hx Hn) as [[Hv _]|[Hv _]]; [|exfalso; apply Hh; by eapply hit_here].
        destruct (Htarget y HyL) as (r & Ht & Hr). apply IH; [done| |].
        + apply Hr. destruct r; [done|]. exfalso. apply Hh. by eapply hit_edge.
        + intros H. apply Hh. by eapply hit_next. }
    intros z Hz. apply (H this z); [done..| |done]. intros l Hl. by eapply path_from_head.
  - intros Hown Hh.
    assert (forall x, hits p verdict target succ x -> reaches p this x -> x ∈ L -> False) as H;
      [|by apply (H this Hh (rtc_refl _ _))].
    clear Hh. intros x Hh. induction Hh as [x n Hn Hv|x n y Hn Hv Hy Ht|x n y Hn Hv Hy _ IH]; intros Hx HxL.
    + destruct (Hverdict x n HxL Hn) as [[? _]|[_ (h & Hbk & Hnd)]]; [congruence|].
      destruct (Hown x Hx) as [_ Hback]. by apply Hnd, Hback.
    + rewrite <- (get_at succ [] _ _ _ Hn) in Hy. destruct (fg_edge x y HxL Hy) as (HyL & _).
      destruct (Htarget y HyL) as (r & Ht' & Hr). rewrite Ht in Ht'. injection Ht' as Ht'.
      destruct r; [done|]. destruct (Hown y) as [Hd _]; [by eapply rtc_r|]. by apply Hr in Hd.
    + rewrite <- (get_at succ [] _ _ _ Hn) in Hy. destruct (fg_edge x y HxL Hy) as (HyL & _).
      apply IH; [by eapply rtc_r|done].
Qed.
End exits.
