(* ===== verification/CFGTheorems.v ===== *)
(** The properties of the control-flow graph component: traversal, dominators,
    reachability, dominance frontiers, searches, and edge maintenance. *)
From S2P Require Import Prelude.
From S2P Require Import IR.
From S2P Require Import CFGNode.
From S2P Require Import CFGTraversal.
From S2P Require Import CFGGraph.
From S2P Require Import CFGDominators.
From S2P Require Import CFGVisit.
From S2P Require Import CFGForward.
From S2P Require Import CFGReachability.
From S2P Require Import CFGFrontier.
From S2P Require Import CFGSearch.
Local Open Scope Z_scope.

(** * Checking the edges of a concrete graph *)

(** Mirrored edges everywhere, by computation. *)
Definition edges_mirrored (p : CFGNodePool) : bool :=
  bool_decide (Forall (fun x =>
    NoDup (succ_of p x) /\ NoDup (pred_of p x) /\
    Forall (fun y => (y < length p)%nat /\ x ∈ pred_of p y) (succ_of p x) /\
    Forall (fun y => x ∈ succ_of p y) (pred_of p x)) (seq 0 (length p))).

Lemma edges_mirrored_ok p e : edges_mirrored p = true -> (e < length p)%nat -> edges_ok p e.
Proof.
  intros H He. apply bool_decide_eq_true in H. rewrite list.Forall_forall in H.
  assert (forall A (f : CFGNode -> list A) x y, y ∈ get f [] p x -> (x < length p)%nat) as Hin.
  { intros A f x y Hy. unfold get in Hy. destruct (p !! x) eqn:E; [by eapply lookup_lt_Some|].
    by apply elem_of_nil in Hy. }
  assert (forall x, (x < length p)%nat -> x ∈ seq 0 (length p)) as Hseq
    by (intros x Hx; apply elem_of_seq; lia).
  assert (forall (f : CFGNode -> list nat) x, (length p <= x)%nat -> get f [] p x = []) as Hout.
  { intros f x Hx. unfold get. by rewrite lookup_ge_None_2. }
  split.
  - by apply lookup_lt_is_Some.
  - intros x y Hy. destruct (H x) as (_ & _ & Hs & _); [by eapply Hseq, Hin|].
    rewrite list.Forall_forall in Hs. apply lookup_lt_is_Some. by apply Hs.
  - intros x. destruct (decide (x < length p)%nat) as [Hx|Hx].
    + by destruct (H x (Hseq x Hx)).
    + rewrite Hout by lia. constructor.
  - intros x. destruct (decide (x < length p)%nat) as [Hx|Hx].
    + by destruct (H x (Hseq x Hx)) as (_ & ? & _).
    + rewrite Hout by lia. constructor.
  - intros x y _ Hy. destruct (H x) as (_ & _ & Hs & _); [by eapply Hseq, Hin|].
    rewrite list.Forall_forall in Hs. by apply Hs.
  - intros x y Hx. destruct (H y) as (_ & _ & _ & Hp); [by eapply Hseq, Hin|].
    rewrite list.Forall_forall in Hp. by apply Hp.
Qed.

(** * The forward half of recompute_cfg *)

(** The graph a structurizer starts an analysis from. *)
Definition start_graph (s : CFGStructurizer) : CFGNodePool := reset_pool (pool s).

Definition graph_ok (s : CFGStructurizer) : Prop :=
  edges_ok (start_graph s) (entry_block s) /\ zlength (pool s) < 2 ^ 32.

Lemma start_size s : zlength (start_graph s) = zlength (pool s).
Proof. unfold start_graph, reset_pool, zlength. by rewrite length_fmap. Qed.

(** What the forward analysis leaves behind. *)
Definition analysed (p0 : CFGNodePool) (e : nodref) (s : CFGStructurizer) : Prop :=
  traversed p0 e s /\ idom_tree (pool s) e (forward_order s) (fun x => x ∈ forward_order s) /\
  reachability_stride s = stride (forward_order s) /\
  matrix (pool s) (forward_order s) (reachability_bitset s) (reaches (pool s)) /\
  entry_block s = e.

(** The part after the search always completes. *)
Lemma after_visit_runs p0 e s :
  edges_ok p0 e -> dfs_inv p0 e s [] -> visited_of (pool s) e = true -> entry_block s = e ->
  runs (_ ← prune_dead_preds; _ ← build_immediate_dominators; build_reachability) s
    (fun _ s' => analysed p0 e s' /\ forall x, back_from (pool s') x = back_from (pool s) x).
Proof.
  intros E0 I He Hentry. apply runs_bind. eapply runs_mono; [by apply prune_traversed|].
  intros _ s1 (Hs1 & T1 & Hb1). pose proof (tr_graph _ _ _ T1) as G1.
  assert (entry_block s1 = e) as He1.
  { unfold same_but_pool, set_pool in Hs1. injection Hs1; congruence. }
  apply runs_bind. eapply runs_mono; [by apply (build_immediate_dominators_spec s1 e (forward_order s1))|].
  intros _ s2 (Hs2 & Hsh & HT).
  assert (forward_order s2 = forward_order s1 /\ entry_block s2 = entry_block s1) as [HF He2].
  { unfold same_but_pool, set_pool in Hs2. injection Hs2; auto. }
  pose proof (traversed_shape _ _ _ _ HF Hsh T1) as T2. rewrite <- HF in HT.
  eapply runs_mono; [apply (build_reachability_spec s2 e (forward_order s2)); [apply T2|done]|].
  intros _ s3 (Hs3 & Hst & Hm). apply same_but_bits_pool in Hs3 as Hp. destruct Hp as [Hp HF3].
  assert (entry_block s3 = entry_block s2) as He3.
  { unfold same_but_bits, set_bitset in Hs3. injection Hs3; auto. }
  split.
  - unfold analysed. rewrite Hp, HF3. split_and!; [|done..|congruence].
    eapply traversed_shape; [exact HF3| |exact T2]. by rewrite Hp.
  - intros x. rewrite Hp, <- Hb1. destruct Hsh as [[_ Hbb] _]. by destruct (Hbb x).
Qed.

Lemma forward_analysis_analysed s r s' :
  graph_ok s -> forward_analysis s = Ok (r, s') -> analysed (start_graph s) (entry_block s) s'.
Proof.
  intros [E0 Hsz] H. rewrite <- start_size in Hsz. unfold forward_analysis in H.
  destruct (reset_traversal_run s) as (s1 & E1 & Hp1 & HF1 & _ & HR1 & He1 & _).
  rewrite (bindM_run _ _ _ _ _ E1) in H. apply bindM_Ok in H as (r2 & s2 & E2 & H).
  unfold visit_entry in E2.
  rewrite (bindM_run _ _ s1 (entry_block s1) s1), (bindM_run _ _ s1 (traversal_fuel s1) s1), He1 in E2 by done.
  pose proof (reset_unmarked (pool s)) as Hun. fold (start_graph s) in Hun, Hp1.
  pose proof (dfs_start _ (entry_block s) Hun s1 Hp1 HF1 HR1) as I1.
  destruct (visit_spec (start_graph s) (entry_block s) E0 Hsz (traversal_fuel s1) (entry_block s) [] s1 r2 s2 I1)
    as (I2 & S2 & He2); [|constructor|exact E2|].
  { rewrite Hp1. apply Hun. }
  destruct (ds_static _ _ S2) as (_ & Hent & _).
  destruct (after_visit_runs _ _ s2 E0 I2 He2 ltac:(congruence)) as (r3 & s3 & E3 & HA & _).
  rewrite H in E3. injection E3 as _ <-. done.
Qed.

Lemma forward_analysis_runs s back :
  graph_ok s -> reducible (start_graph s) (entry_block s) back ->
  runs forward_analysis s (fun _ s' => analysed (start_graph s) (entry_block s) s' /\
    forall x y, back_from (pool s') x = Some y -> back x = Some y).
Proof.
  intros [E0 Hsz] Hred. rewrite <- start_size in Hsz. unfold forward_analysis.
  destruct (reset_traversal_run s) as (s1 & E1 & Hp1 & HF1 & _ & HR1 & He1 & _).
  apply runs_bind. exists tt, s1. split; [exact E1|].
  pose proof (reset_unmarked (pool s)) as Hun. fold (start_graph s) in Hun, Hp1.
  pose proof (dfs_start _ (entry_block s) Hun s1 Hp1 HF1 HR1) as I1.
  assert (visited_of (pool s1) (entry_block s) = false) as Hv by (rewrite Hp1; apply Hun).
  destruct (visit_total (start_graph s) (entry_block s) E0 Hsz back Hred (traversal_fuel s1)
    (entry_block s) [] s1 I1 Hv (path_entry _ _) (eo_entry _ _ E0)) as (s2 & E2 & Hrec).
  { intros x y. rewrite Hp1. by destruct (Hun x) as (_ & _ & -> & _). }
  { transitivity (size (set_seq 0 (length (start_graph s)) : gset nodref)).
    { apply subseteq_size. intros x Hx. by apply elem_of_filter in Hx as [_ ?]. }
    rewrite size_set_seq. unfold traversal_fuel.
    rewrite Hp1. lia. }
  destruct (visit_spec (start_graph s) (entry_block s) E0 Hsz (traversal_fuel s1) (entry_block s) [] s1 tt s2 I1 Hv)
    as (I2 & S2 & He2); [constructor|exact E2|].
  destruct (ds_static _ _ S2) as (_ & Hent & _).
  apply runs_bind. exists tt, s2. split.
  { unfold visit_entry.
    rewrite (bindM_run _ _ s1 (entry_block s1) s1), (bindM_run _ _ s1 (traversal_fuel s1) s1), He1 by done.
    exact E2. }
  eapply runs_mono; [apply (after_visit_runs (start_graph s) (entry_block s)); [done..|congruence]|].
  intros _ s3 [HA Hb]. split; [done|]. intros x y. rewrite Hb. apply Hrec.
Qed.

(** * Dominance in the original graph *)

(** On a reducible graph loops can be cut out of a path: what remains uses forward edges only. *)
Lemma forward_path p0 e s back l x :
  analysed p0 e s -> reducible p0 e back ->
  (forall x y, back_from (pool s) x = Some y -> back x = Some y) ->
  path_from p0 e l x ->
  forall z, z ∈ l -> exists l', path_from (pool s) e l' z /\ forall a, a ∈ l' -> a ∈ l.
Proof.
  intros (T & _) Hred Hrec Hl. induction Hl as [|l x y Hl IH Hy]; intros z Hz.
  { apply list_elem_of_singleton in Hz as ->. exists [e]. split; [constructor|done]. }
  apply elem_of_cons in Hz as [->|Hz].
  2:{ destruct (IH z Hz) as (l' & ? & Hsub). exists l'. split; [done|]. intros a Ha. right. auto. }
  destruct (IH x (path_from_head _ _ _ _ Hl)) as (l' & Hl' & Hsub).
  destruct (decide (back_from (pool s) x = Some y)) as [Hb|Hb].
  - apply Hrec, (rd_dominates _ _ _ Hred) in Hb. destruct (IH y (Hb l Hl)) as (l2 & ? & Hsub2).
    exists l2. split; [done|]. intros a Ha. right. auto.
  - exists (y :: l'). split.
    + econstructor; [exact Hl'|]. pose proof (tr_graph _ _ _ T) as G.
      apply (tr_edges _ _ _ T); [by eapply path_in_graph|done].
    + intros a Ha. apply elem_of_cons in Ha as [->|Ha]; [left|right; auto].
Qed.

Lemma forward_path_original p0 e s l x :
  analysed p0 e s -> path_from (pool s) e l x -> path_from p0 e l x.
Proof.
  intros (T & _) Hl. pose proof (tr_graph _ _ _ T) as G.
  induction Hl as [|l x y Hl IH Hy]; [constructor|]. econstructor; [exact IH|].
  apply (tr_edges _ _ _ T) in Hy; [tauto|]. by eapply path_in_graph.
Qed.

Lemma dominance_original p0 e s back a b :
  analysed p0 e s -> reducible p0 e back ->
  (forall x y, back_from (pool s) x = Some y -> back x = Some y) ->
  on_every_path (pool s) e a b <-> on_every_path p0 e a b.
Proof.
  intros A Hred Hrec. split; intros H l Hl.
  - destruct (forward_path _ _ _ _ _ _ A Hred Hrec Hl b) as (l' & Hl' & Hsub); [by eapply path_from_head|].
    by apply Hsub, H.
  - by apply H, (forward_path_original _ _ s).
Qed.

(** * The properties *)

(** A loop around a diamond: 0 -> 1, 1 -> 2 and 3, both to 4, 4 back to 1 or on to 5. *)
Definition sample_loop : CFGStructurizer :=
  sample_cfg [[1]; [2; 3]; [4]; [4]; [1; 5]; []]%nat.

Lemma sample_loop_ok : graph_ok sample_loop.
Proof.
  split; [|vm_compute; done]. apply edges_mirrored_ok; [vm_compute; reflexivity|vm_compute; lia].
Qed.

Definition sample_back (x : nodref) : option nodref := if decide (x = 4)%nat then Some 1%nat else None.

Lemma sample_loop_reducible : reducible (start_graph sample_loop) (entry_block sample_loop) sample_back.
Proof.
  assert (forall u, (7 <= u)%nat -> succ_of (start_graph sample_loop) u = []) as Hout.
  { intros u Hu. unfold get. rewrite lookup_ge_None_2; [done|]. vm_compute. lia. }
  split.
  - intros u v h. unfold sample_back. repeat case_decide; congruence.
  - intros u h. unfold sample_back. case_decide as Eu; [|done]. intros [= <-]. subst u. intros l Hl.
    assert (forall l x, path_from (start_graph sample_loop) (entry_block sample_loop) l x ->
      x = 0%nat \/ 1%nat ∈ l) as H.
    { clear l Hl. intros l x Hl. induction Hl as [|l x y Hl [->|IH] Hy]; [by left| |right; by right].
      right. vm_compute in Hy. apply list_elem_of_singleton in Hy as ->. left. }
    by destruct (H _ _ Hl).
  - exists (fun x => nth x [6; 5; 4; 4; 3; 2]%nat 0%nat). intros u v Hv Hb.
    assert (Forall (fun u => Forall (fun v => sample_back u = Some v \/
      (nth v [6; 5; 4; 4; 3; 2] 0 < nth u [6; 5; 4; 4; 3; 2] 0)%nat)
      (succ_of (start_graph sample_loop) u)) (seq 0 7)) as H
      by (apply (bool_decide_unpack _); vm_compute; exact I).
    rewrite list.Forall_forall in H. destruct (decide (7 <= u)%nat) as [Hu|Hu].
    { rewrite Hout in Hv by done. by apply elem_of_nil in Hv. }
    specialize (H u ltac:(apply elem_of_seq; lia)). rewrite list.Forall_forall in H.
    by destruct (H v Hv).
Qed.

(** C9. On a reducible graph (at most one back edge into and out of a block, each to a block
    that dominates its source) the forward half of [recompute_cfg] completes: no assertion
    fails and no loop runs forever.  Afterwards [dominates] answers, for every block the
    entry reaches, exactly whether the first block lies on every path from the entry to
    the second one in the original graph. *)
Theorem dominators_correct s back :
  graph_ok s -> reducible (start_graph s) (entry_block s) back ->
  exists s', forward_analysis s = Ok (tt, s') /\
    forall a b, reaches (start_graph s) (entry_block s) b ->
      exists d, dominates (pool s') a b = Ok d /\
        (d = true <-> on_every_path (start_graph s) (entry_block s) a b).
Proof.
  intros Hok Hred. destruct (forward_analysis_runs s back Hok Hred) as ([] & s' & E & A & Hrec).
  exists s'. split; [done|]. intros a b Hb. pose proof A as (T & HT & _).
  apply (tr_reached _ _ _ T) in Hb.
  destruct (dominates_correct _ _ _ a b (tr_graph _ _ _ T) HT Hb) as (d & Ed & Hd).
  exists d. split; [done|]. rewrite Hd. by eapply dominance_original.
Qed.

Lemma dominators_correct_witness :
  exists s', forward_analysis sample_loop = Ok (tt, s') /\
    forall a b, reaches (start_graph sample_loop) (entry_block sample_loop) b ->
      exists d, dominates (pool s') a b = Ok d /\
        (d = true <-> on_every_path (start_graph sample_loop) (entry_block sample_loop) a b).
Proof. exact (dominators_correct sample_loop sample_back sample_loop_ok sample_loop_reducible). Defined.



(** C11. After the forward half of [recompute_cfg], [query_reachability] on the bit matrix
    answers exactly whether a path of forward edges leads from one block to the other. *)
Theorem reachability_correct s r s' x z :
  graph_ok s -> forward_analysis s = Ok (r, s') ->
  reaches (start_graph s) (entry_block s) x -> reaches (start_graph s) (entry_block s) z ->
  exists b, query_reachability s' x z = Ok b /\ (b = true <-> reaches (pool s') x z).
Proof.
  intros Hok E Hx Hz. destruct (forward_analysis_analysed _ _ _ Hok E) as (T & _ & Hst & Hm & _).
  apply (tr_reached _ _ _ T) in Hx, Hz.
  by apply (query_reachability_spec s' (entry_block s) (forward_order s')); [apply T|..].
Qed.

Lemma reachability_correct_witness :
  exists b, query_reachability (run_on forward_analysis sample_loop) 0%nat 0%nat = Ok b /\
    (b = true <-> reaches (pool (run_on forward_analysis sample_loop)) 0%nat 0%nat).
Proof.
  apply (reachability_correct sample_loop tt (run_on forward_analysis sample_loop) 0%nat 0%nat sample_loop_ok).
  - vm_compute. reflexivity.
  - apply rtc_refl.
  - apply rtc_refl.
Defined.

(** C12. The dominance frontiers that [compute_dominance_frontier] leaves on an analysed graph
    are the textbook ones: [y] is in the frontier of [x] exactly when [x] dominates a
    predecessor of [y] without dominating [y]. *)
Theorem dominance_frontier_correct s0 r s :
  graph_ok s0 -> forward_analysis s0 = Ok (r, s) ->
  let e := entry_block s0 in
  exists s', compute_dominance_frontier s = Ok (tt, s') /\
    forall x y, x ∈ forward_order s ->
      y ∈ df_of (pool s') x <->
        (exists b, b ∈ forward_order s /\ y ∈ succ_of (pool s) b /\ on_every_path (pool s) e x b) /\
        ~ on_every_path (pool s) e x y.
Proof.
  intros Hok (T & HT & _)%forward_analysis_analysed e; [|done]. pose proof (tr_graph _ _ _ T) as G.
  destruct (compute_dominance_frontier_spec (pool s) e (forward_order s) HT s) as ([] & s' & E & _ & _ & H);
    [by split|done|].
  exists s'. split; [done|]. intros x y Hx. by rewrite H.
Qed.

Lemma dominance_frontier_correct_witness :
  let s := run_on forward_analysis sample_loop in
  exists s', compute_dominance_frontier s = Ok (tt, s') /\
    forall x y, x ∈ forward_order s ->
      y ∈ df_of (pool s') x <->
        (exists b, b ∈ forward_order s /\ y ∈ succ_of (pool s) b /\ on_every_path (pool s) 0%nat x b) /\
        ~ on_every_path (pool s) 0%nat x y.
Proof.
  apply (dominance_frontier_correct sample_loop tt _ sample_loop_ok). vm_compute. reflexivity.
Defined.

(** [find_common_dominator] on an analysed graph ends without changing a block and returns
    the nearest common dominator: it dominates both blocks, and every block that dominates
    both dominates it. *)
Theorem find_common_dominator_correct s0 r s a b :
  graph_ok s0 -> forward_analysis s0 = Ok (r, s) -> a ∈ forward_order s -> b ∈ forward_order s ->
  exists c, find_common_dominator (dominator_fuel (pool s)) a b (pool s) = Ok (c, pool s) /\
    forall z, on_every_path (pool s) (entry_block s0) z c <->
      on_every_path (pool s) (entry_block s0) z a /\ on_every_path (pool s) (entry_block s0) z b.
Proof.
  intros Hok (T & HT & _)%forward_analysis_analysed Ha Hb; [|done]. set (e := entry_block s0) in *. pose proof (tr_graph _ _ _ T) as G.
  destruct (find_common_dominator_spec (pool s) e (forward_order s) _ HT
    (dominator_fuel (pool s)) a b Ha Hb) as (c & E & Hc & _ & Hz).
  { pose proof (dominator_fuel_enough _ _ _ G). pose proof (order_bounds _ _ _ a Ha).
    pose proof (order_bounds _ _ _ b Hb). lia. }
  exists c. split; [done|]. intros z.
  destruct (HT a Ha) as (_ & _ & _ & _ & Aa), (HT b Hb) as (_ & _ & _ & _ & Ab),
    (HT c Hc) as (_ & _ & _ & _ & Ac).
  rewrite <- Aa, <- Ab, <- Ac. apply Hz.
Qed.

Lemma find_common_dominator_correct_witness :
  let s := run_on forward_analysis sample_loop in
  exists c, find_common_dominator (dominator_fuel (pool s)) 2%nat 5%nat (pool s) = Ok (c, pool s) /\
    forall z, on_every_path (pool s) 0%nat z c <->
      on_every_path (pool s) 0%nat z 2%nat /\ on_every_path (pool s) 0%nat z 5%nat.
Proof.
  apply (find_common_dominator_correct sample_loop tt _ _ _ sample_loop_ok).
  - vm_compute. reflexivity.
  - apply (bool_decide_unpack _). vm_compute. exact I.
  - apply (bool_decide_unpack _). vm_compute. exact I.
Defined.

(** C34. On an analysed graph [can_backtrace_to] ends and answers whether a path of one or more
    forward edges leads from [parent] to the block: the early exit on the visit orders
    loses nothing. *)
Theorem can_backtrace_to_correct s0 r s this parent :
  graph_ok s0 -> forward_analysis s0 = Ok (r, s) -> this ∈ forward_order s -> parent ∈ forward_order s ->
  exists b, can_backtrace_to (pool s) this parent = Ok b /\
    (b = true <-> parent <> this /\ reaches (pool s) parent this).
Proof.
  intros Hok (T & _)%forward_analysis_analysed Hthis Hparent; [|done]. destruct Hok as [E0 _].
  set (e := entry_block s0) in *. set (p0 := start_graph s0) in *.
  apply (can_backtrace_to_graph _ e (forward_order s)); [apply T| |done..].
  intros x y Hx. assert (forall z, is_Some (p0 !! z) -> is_Some (pool s !! z)) as Hr.
  { intros z. rewrite !lookup_lt_is_Some. by rewrite (tr_length _ _ _ T). }
  destruct (decide (y ∈ forward_order s)) as [Hy|Hy].
  - apply (tr_preds _ _ _ T) in Hx as [Hx _]; [|done]. by apply (fg_range (forward_graph := tr_graph _ _ _ T)).
  - destruct (tr_other _ _ _ T y Hy) as [_ Hp]. rewrite Hp in Hx.
    apply (eo_succ _ _ E0) in Hx. apply Hr. unfold get in Hx.
    destruct (p0 !! x); [by eexists|by apply elem_of_nil in Hx].
Qed.

Lemma can_backtrace_to_correct_witness :
  let s := run_on forward_analysis sample_loop in
  exists b, can_backtrace_to (pool s) 4%nat 2%nat = Ok b /\
    (b = true <-> 2%nat <> 4%nat /\ reaches (pool s) 2%nat 4%nat).
Proof.
  apply (can_backtrace_to_correct sample_loop tt _ _ _ sample_loop_ok).
  - vm_compute. reflexivity.
  - apply (bool_decide_unpack _). vm_compute. exact I.
  - apply (bool_decide_unpack _). vm_compute. exact I.
Defined.

(** On an analysed graph [dominates_all_reachable_exits] ends and answers whether the block
    dominates every block it reaches, and the header of every back edge that leaves such
    a block. *)
Theorem dominates_all_reachable_exits_correct s0 r s this :
  graph_ok s0 -> forward_analysis s0 = Ok (r, s) -> this ∈ forward_order s ->
  let e := entry_block s0 in
  exists b, dominates_all_reachable_exits (pool s) this = Ok b /\
    (b = true <-> forall z, reaches (pool s) this z ->
       on_every_path (pool s) e this z /\
       forall h, back_from (pool s) z = Some h -> on_every_path (pool s) e this h).
Proof.
  intros Hok (T & HT & _)%forward_analysis_analysed Hthis e; [|done]. pose proof (tr_graph _ _ _ T) as G.
  apply (dominates_all_reachable_exits_spec (pool s) e (forward_order s)); [done| |done].
  intros x h Hx Hb. apply (tr_back_edge _ _ _ T) in Hb as [_ Hb].
  apply (tr_reached _ _ _ T). apply (tr_reached _ _ _ T) in Hx. by eapply rtc_r.
Qed.

Lemma dominates_all_reachable_exits_correct_witness :
  let s := run_on forward_analysis sample_loop in
  exists b, dominates_all_reachable_exits (pool s) 1%nat = Ok b /\
    (b = true <-> forall z, reaches (pool s) 1%nat z ->
       on_every_path (pool s) 0%nat 1%nat z /\
       forall h, back_from (pool s) z = Some h -> on_every_path (pool s) 0%nat 1%nat h).
Proof.
  apply (dominates_all_reachable_exits_correct sample_loop tt _ _ sample_loop_ok).
  - vm_compute. reflexivity.
  - apply (bool_decide_unpack _). vm_compute. exact I.
Defined.

(** Resetting an analysed graph restores the edges. *)
Section repeat.
Context (p0 : CFGNodePool) (e : nodref) (s : CFGStructurizer).
Context (E0 : edges_ok p0 e) (T : traversed p0 e s).

Lemma reset_succ_iff x y : y ∈ succ_of (start_graph s) x <-> y ∈ succ_of p0 x.
Proof using T.
  assert (y ∈ succ_of (start_graph s) x <-> y ∈ succ_of (pool s) x \/ back_from (pool s) x = Some y) as ->.
  { unfold start_graph. rewrite reset_succ. destruct (back_from (pool s) x); simpl; [|intuition congruence].
    rewrite elem_of_app, list_elem_of_singleton. intuition congruence. }
  destruct (decide (x ∈ forward_order s)) as [Hx|Hx].
  - rewrite (tr_edges _ _ _ T x y Hx). split.
    + intros [[? _]|Hb]; [done|]. by apply (tr_back_edge _ _ _ T) in Hb as [_ ?].
    + intros Hy. destruct (decide (back_from (pool s) x = Some y)); [by right|by left].
  - destruct (tr_other _ _ _ T x Hx) as [-> _]. split; [|by left]. intros [?|Hb]; [done|].
    by apply (tr_back_edge _ _ _ T) in Hb as [? _].
Qed.

Lemma reset_pred_iff x y :
  y ∈ pred_of (start_graph s) x <-> y ∈ pred_of (pool s) x \/ back_from (pool s) y = Some x.
Proof using T.
  unfold start_graph. rewrite reset_pred, (tr_back_to _ _ _ T y x).
  destruct (back_to (pool s) x); simpl; [|intuition congruence].
  rewrite elem_of_app, list_elem_of_singleton. intuition congruence.
Qed.

Lemma reset_succ_nodup x : NoDup (succ_of (start_graph s) x).
Proof using T.
  unfold start_graph. rewrite reset_succ. destruct (back_from (pool s) x) as [h|] eqn:Eb; simpl;
    [|apply (tr_nodup _ _ _ T)].
  apply list.NoDup_app. split_and!; [apply (tr_nodup _ _ _ T)| |apply NoDup_singleton].
  intros y Hy ->%list_elem_of_singleton.
  destruct (tr_back_edge _ _ _ T x h Eb) as [Hx _]. apply (tr_edges _ _ _ T x h Hx) in Hy. tauto.
Qed.

Lemma reset_pred_nodup x : NoDup (pred_of (start_graph s) x).
Proof using T.
  unfold start_graph. rewrite reset_pred. destruct (back_to (pool s) x) as [u|] eqn:Eb; simpl;
    [|apply (tr_nodup _ _ _ T)].
  apply list.NoDup_app. split_and!; [apply (tr_nodup _ _ _ T)| |apply NoDup_singleton].
  intros y Hy ->%list_elem_of_singleton. apply (tr_back_to _ _ _ T) in Eb.
  destruct (tr_back_edge _ _ _ T u x Eb) as [Hu Hsu].
  assert (x ∈ forward_order s) as Hx.
  { apply (tr_reached _ _ _ T). apply (tr_reached _ _ _ T) in Hu. by eapply rtc_r. }
  apply (tr_preds _ _ _ T u x Hx) in Hy as [_ Hy]. apply (tr_edges _ _ _ T u x Hu) in Hy. tauto.
Qed.

Lemma reset_length : length (start_graph s) = length p0.
Proof using T. unfold start_graph, reset_pool. by rewrite length_fmap, (tr_length _ _ _ T). Qed.

Lemma reset_edges_ok : edges_ok (start_graph s) e.
Proof using E0 T.
  pose proof (tr_graph _ _ _ T) as G. split.
  - rewrite lookup_lt_is_Some, reset_length. apply lookup_lt_is_Some. apply (eo_entry _ _ E0).
  - intros x y Hy. apply reset_succ_iff, (eo_range _ _ E0) in Hy. revert Hy.
    by rewrite !lookup_lt_is_Some, reset_length.
  - apply reset_succ_nodup.
  - apply reset_pred_nodup.
  - intros x y Hx Hy. apply reset_pred_iff. apply reset_succ_iff in Hy.
    assert (x ∈ forward_order s) as HxF.
    { apply (tr_reached _ _ _ T). revert Hx. apply rtc_subrel. intros a b. apply reset_succ_iff. }
    destruct (decide (back_from (pool s) x = Some y)) as [?|Hb]; [by right|left].
    by apply (fg_edge x y HxF), (tr_edges _ _ _ T x y HxF).
  - intros x y Hx. apply reset_succ_iff. apply reset_pred_iff in Hx as [Hx|Hb].
    + destruct (decide (y ∈ forward_order s)) as [Hy|Hy].
      * apply (tr_preds _ _ _ T x y Hy) in Hx as [HxF Hx]. by apply (tr_edges _ _ _ T x y HxF) in Hx as [? _].
      * destruct (tr_other _ _ _ T y Hy) as [_ Hpy]. rewrite Hpy in Hx. by apply (eo_succ _ _ E0).
    + by apply (tr_back_edge _ _ _ T) in Hb as [_ ?].
Qed.
End repeat.

(** The analysis can be repeated: after it completes, resetting puts every back edge back
    where it was, so the graph is well-formed again and every block the entry reaches has
    exactly its original successors. *)
Theorem analysis_repeatable s r s' :
  graph_ok s -> forward_analysis s = Ok (r, s') ->
  graph_ok s' /\
  forall x y, reaches (start_graph s) (entry_block s) x ->
    y ∈ succ_of (start_graph s') x <-> y ∈ succ_of (start_graph s) x.
Proof.
  intros Hok E. destruct (forward_analysis_analysed _ _ _ Hok E) as (T & _ & _ & _ & He).
  destruct Hok as [E0 Hsz]. split.
  - split; [rewrite He; by apply (reset_edges_ok (start_graph s))|].
    rewrite <- start_size in Hsz. unfold zlength in *. by rewrite (tr_length _ _ _ T).
  - intros x y _. by apply (reset_succ_iff _ (entry_block s)).
Qed.

Lemma analysis_repeatable_witness :
  graph_ok (run_on forward_analysis sample_loop) /\
  forall x y, reaches (start_graph sample_loop) (entry_block sample_loop) x ->
    y ∈ succ_of (start_graph (run_on forward_analysis sample_loop)) x <->
    y ∈ succ_of (start_graph sample_loop) x.
Proof.
  apply (analysis_repeatable sample_loop tt (run_on forward_analysis sample_loop) sample_loop_ok).
  vm_compute. reflexivity.
Defined.
