(* ===== verification/SpvBuilder.v ===== *)
(** The SPIR-V builder, as far as the passes and the block emission use it
    (third_party/glslang-spirv/SpvBuilder.h, SpvBuilder.cpp, spvIR.h).

    Blocks and functions live in lists, a [Block *] or [Function *] is an index.
    Types and constants are found again when they were made before; every other
    instruction gets a fresh id from a 32-bit counter.  The numbers of opcodes, storage
    classes and the like are those of the SPIR-V specification. *)
From S2P Require Import Prelude.
Local Open Scope Z_scope.

(** A [spv::Block *] and a [spv::Function *]. *)
Abbreviation blockref := nat (only parsing).
Abbreviation funcref := nat (only parsing).

(** * Enumerants of the SPIR-V specification *)

Definition OpNop : Z := 0.
Definition OpUndef : Z := 1.
Definition OpTypeVoid : Z := 19.
Definition OpTypeBool : Z := 20.
Definition OpExtInstImport : Z := 11.
Definition OpExtInst : Z := 12.
Definition OpTypeInt : Z := 21.
Definition OpTypeFloat : Z := 22.
Definition OpTypeVector : Z := 23.
Definition OpTypeMatrix : Z := 24.
Definition OpTypeImage : Z := 25.
Definition OpTypeSampler : Z := 26.
Definition OpTypeArray : Z := 28.
Definition OpTypeRuntimeArray : Z := 29.
Definition OpTypeStruct : Z := 30.
Definition OpTypePointer : Z := 32.
Definition OpTypeFunction : Z := 33.
Definition OpTypeAccelerationStructureKHR : Z := 5341.
Definition OpConstantTrue : Z := 41.
Definition OpConstantFalse : Z := 42.
Definition OpConstant : Z := 43.
Definition OpConstantComposite : Z := 44.
Definition OpConstantNull : Z := 46.
Definition OpFunction : Z := 54.
Definition OpFunctionParameter : Z := 55.
Definition OpFunctionCall : Z := 57.
Definition OpVariable : Z := 59.
Definition OpLoad : Z := 61.
Definition OpStore : Z := 62.
Definition OpAccessChain : Z := 65.
Definition OpInBoundsAccessChain : Z := 66.
Definition OpArrayLength : Z := 68.
Definition OpDecorate : Z := 71.
Definition OpMemberDecorate : Z := 72.
Definition OpVectorExtractDynamic : Z := 77.
Definition OpVectorInsertDynamic : Z := 78.
Definition OpVectorShuffle : Z := 79.
Definition OpCompositeConstruct : Z := 80.
Definition OpCompositeExtract : Z := 81.
Definition OpCompositeInsert : Z := 82.
Definition OpCopyObject : Z := 83.
Definition OpSampledImage : Z := 86.
Definition OpImageSampleImplicitLod : Z := 87.
Definition OpImageSampleDrefImplicitLod : Z := 89.
Definition OpImageSampleProjImplicitLod : Z := 91.
Definition OpImageSampleProjDrefImplicitLod : Z := 93.
Definition OpImageGather : Z := 96.
Definition OpImageDrefGather : Z := 97.
Definition OpImageQueryLod : Z := 105.
Definition OpFConvert : Z := 115.
Definition OpQuantizeToF16 : Z := 116.
Definition OpBitcast : Z := 124.
Definition OpIAdd : Z := 128.
Definition OpISub : Z := 130.
Definition OpIMul : Z := 132.
Definition OpIAddCarry : Z := 149.
Definition OpIsNan : Z := 156.
Definition OpIsInf : Z := 157.
Definition OpLogicalOr : Z := 166.
Definition OpLogicalAnd : Z := 167.
Definition OpLogicalNot : Z := 168.
Definition OpSelect : Z := 169.
Definition OpIEqual : Z := 170.
Definition OpINotEqual : Z := 171.
Definition OpShiftRightLogical : Z := 194.
Definition OpShiftLeftLogical : Z := 196.
Definition OpBitwiseOr : Z := 197.
Definition OpBitwiseXor : Z := 198.
Definition OpBitwiseAnd : Z := 199.
Definition OpBitFieldUExtract : Z := 203.
Definition OpDPdx : Z := 207.
Definition OpDPdy : Z := 208.
Definition OpFwidth : Z := 209.
Definition OpDPdxFine : Z := 210.
Definition OpDPdyFine : Z := 211.
Definition OpFwidthFine : Z := 212.
Definition OpDPdxCoarse : Z := 213.
Definition OpDPdyCoarse : Z := 214.
Definition OpFwidthCoarse : Z := 215.
Definition OpControlBarrier : Z := 224.
Definition OpMemoryBarrier : Z := 225.
Definition OpAtomicStore : Z := 228.
Definition OpAtomicExchange : Z := 229.
Definition OpAtomicCompareExchange : Z := 230.
Definition OpAtomicCompareExchangeWeak : Z := 231.
Definition OpAtomicIIncrement : Z := 232.
Definition OpAtomicIDecrement : Z := 233.
Definition OpAtomicIAdd : Z := 234.
Definition OpAtomicISub : Z := 235.
Definition OpAtomicSMin : Z := 236.
Definition OpAtomicUMin : Z := 237.
Definition OpAtomicSMax : Z := 238.
Definition OpAtomicUMax : Z := 239.
Definition OpAtomicAnd : Z := 240.
Definition OpAtomicOr : Z := 241.
Definition OpAtomicXor : Z := 242.
Definition OpPhi : Z := 245.
Definition OpLoopMerge : Z := 246.
Definition OpSelectionMerge : Z := 247.
Definition OpLabel : Z := 248.
Definition OpBranch : Z := 249.
Definition OpBranchConditional : Z := 250.
Definition OpSwitch : Z := 251.
Definition OpKill : Z := 252.
Definition OpReturn : Z := 253.
Definition OpReturnValue : Z := 254.
Definition OpUnreachable : Z := 255.
Definition OpImageSparseSampleImplicitLod : Z := 305.
Definition OpImageSparseSampleDrefImplicitLod : Z := 307.
Definition OpImageSparseSampleProjImplicitLod : Z := 309.
Definition OpImageSparseSampleProjDrefImplicitLod : Z := 311.
Definition OpImageSparseGather : Z := 314.
Definition OpImageSparseDrefGather : Z := 315.
Definition OpGroupNonUniformElect : Z := 333.
Definition OpGroupNonUniformAll : Z := 334.
Definition OpGroupNonUniformAny : Z := 335.
Definition OpGroupNonUniformAllEqual : Z := 336.
Definition OpGroupNonUniformBroadcast : Z := 337.
Definition OpGroupNonUniformBroadcastFirst : Z := 338.
Definition OpGroupNonUniformBallot : Z := 339.
Definition OpGroupNonUniformInverseBallot : Z := 340.
Definition OpGroupNonUniformBallotBitExtract : Z := 341.
Definition OpGroupNonUniformBallotBitCount : Z := 342.
Definition OpGroupNonUniformBallotFindLSB : Z := 343.
Definition OpGroupNonUniformBallotFindMSB : Z := 344.
Definition OpGroupNonUniformShuffle : Z := 345.
Definition OpGroupNonUniformShuffleXor : Z := 346.
Definition OpGroupNonUniformShuffleUp : Z := 347.
Definition OpGroupNonUniformShuffleDown : Z := 348.
Definition OpGroupNonUniformIAdd : Z := 349.
Definition OpGroupNonUniformFAdd : Z := 350.
Definition OpGroupNonUniformIMul : Z := 351.
Definition OpGroupNonUniformFMul : Z := 352.
Definition OpGroupNonUniformSMin : Z := 353.
Definition OpGroupNonUniformUMin : Z := 354.
Definition OpGroupNonUniformFMin : Z := 355.
Definition OpGroupNonUniformSMax : Z := 356.
Definition OpGroupNonUniformUMax : Z := 357.
Definition OpGroupNonUniformFMax : Z := 358.
Definition OpGroupNonUniformBitwiseAnd : Z := 359.
Definition OpGroupNonUniformBitwiseOr : Z := 360.
Definition OpGroupNonUniformBitwiseXor : Z := 361.
Definition OpGroupNonUniformLogicalAnd : Z := 362.
Definition OpGroupNonUniformLogicalOr : Z := 363.
Definition OpGroupNonUniformLogicalXor : Z := 364.
Definition OpGroupNonUniformQuadBroadcast : Z := 365.
Definition OpGroupNonUniformQuadSwap : Z := 366.
Definition OpIgnoreIntersectionKHR : Z := 4448.
Definition OpTerminateRayKHR : Z := 4449.
Definition OpTypeCooperativeMatrixKHR : Z := 4456.
Definition OpCooperativeMatrixLoadKHR : Z := 4457.
Definition OpCooperativeMatrixStoreKHR : Z := 4458.
Definition OpCooperativeMatrixMulAddKHR : Z := 4459.
Definition OpAbortKHR : Z := 5121.
Definition OpConstantDataKHR : Z := 5147.
Definition OpEmitMeshTasksEXT : Z := 5294.
Definition OpBeginInvocationInterlockEXT : Z := 5364.
Definition OpEndInvocationInterlockEXT : Z := 5365.
Definition OpDemoteToHelperInvocationEXT : Z := 5380.
Definition OpIsHelperInvocationEXT : Z := 5381.
Definition OpAtomicFMinEXT : Z := 5614.
Definition OpAtomicFMaxEXT : Z := 5615.
Definition OpAssumeTrueKHR : Z := 5630.
Definition OpAtomicFAddEXT : Z := 6035.

Definition StorageClassInput : Z := 1.
Definition StorageClassOutput : Z := 3.
Definition StorageClassPrivate : Z := 6.
Definition StorageClassFunction : Z := 7.
Definition StorageClassStorageBuffer : Z := 12.
Definition DecorationBlock : Z := 2.
Definition DecorationBinding : Z := 33.
Definition DecorationDescriptorSet : Z := 34.
Definition DecorationOffset : Z := 35.
Definition DecorationUTFEncodedKHR : Z := 5145.
Definition ScopeDevice : Z := 1.
Definition ScopeQueueFamily : Z := 5.
Definition MemorySemanticsUniformMemoryMask : Z := 0x40.
Definition MemoryAccessNonPrivatePointerMask : Z := 0x20.
Definition GLSLstd450FindUMsb : Z := 75.
Definition CapabilityInt64Atomics : Z := 12.
Definition CapabilityAbortKHR : Z := 5120.
Definition CapabilityConstantDataKHR : Z := 5146.
Definition DecorationArrayStride : Z := 6.
Definition DecorationFlat : Z := 14.
Definition DecorationVolatile : Z := 21.
Definition ScopeSubgroup : Z := 3.
Definition MemorySemanticsAcquireReleaseMask : Z := 0x8.
Definition MemorySemanticsWorkgroupMemoryMask : Z := 0x100.
Definition MemorySemanticsMakeAvailableMask : Z := 0x2000.
Definition MemorySemanticsMakeVisibleMask : Z := 0x4000.
Definition DecorationRelaxedPrecision : Z := 0.
Definition DecorationBuiltIn : Z := 11.
Definition DecorationFPFastMathMode : Z := 40.
Definition DecorationNoContraction : Z := 42.
Definition DecorationNonUniform : Z := 5300.
Definition FPFastMathModeAllowRecipMask : Z := 8.
Definition SelectionControlFlattenMask : Z := 1.
Definition SelectionControlDontFlattenMask : Z := 2.
Definition LoopControlUnrollMask : Z := 1.
Definition LoopControlDontUnrollMask : Z := 2.
Definition CapabilityShader : Z := 1.
Definition CapabilityFloat16 : Z := 9.
Definition CapabilityFloat64 : Z := 10.
Definition CapabilityGroupNonUniform : Z := 61.
Definition CapabilityFloat8EXT : Z := 4212.
Definition CapabilityFloat8CooperativeMatrixEXT : Z := 4213.
Definition CapabilityVulkanMemoryModel : Z := 5345.
Definition CapabilityDemoteToHelperInvocationEXT : Z := 5379.
Definition CapabilityLongVectorEXT : Z := 5425.
Definition CapabilityInt8 : Z := 39.
Definition CapabilityInt16 : Z := 22.
Definition CapabilityInt64 : Z := 11.

(** * class Instruction, Block and Function *)

Record Instruction := mkInstruction {
  resultId : Z;
  typeId : Z;
  opCode : Z;
  operands : list Z;
}.

Record Block := mkBlock {
  instructions : list Instruction;
  localVariables : list Instruction;
  predecessors : list blockref;
  successors : list blockref;
  unreachable : bool;
  parent : funcref;
}.

Definition set_instructions (x : list Instruction) (k : Block) : Block := mkBlock x
    (localVariables k) (predecessors k) (successors k) (unreachable k) (parent k).
Definition set_localVariables (x : list Instruction) (k : Block) : Block := mkBlock
    (instructions k) x (predecessors k) (successors k) (unreachable k) (parent k).
Definition set_predecessors (x : list blockref) (k : Block) : Block := mkBlock (instructions k)
    (localVariables k) x (successors k) (unreachable k) (parent k).
Definition set_successors (x : list blockref) (k : Block) : Block := mkBlock (instructions k)
    (localVariables k) (predecessors k) x (unreachable k) (parent k).
Definition set_unreachable (x : bool) (k : Block) : Block := mkBlock (instructions k)
    (localVariables k) (predecessors k) (successors k) x (parent k).

Record Function_ := mkFunction {
  functionInstruction : Instruction;
  parameterInstructions : list Instruction;
  function_blocks : list blockref;
}.

Definition set_function_blocks (x : list blockref) (f : Function_) : Function_ := mkFunction
    (functionInstruction f) (parameterInstructions f) x.

(** * class Builder *)

Record Builder := mkBuilder {
  uniqueId : Z;
  buildPoint : option blockref;
  blocks : list Block;
  functions : list Function_;
  groupedTypes : gmap Z (list Instruction);
  groupedConstants : gmap Z (list Instruction);
  constantsTypesGlobals : list Instruction;
  names : list (Z * option Z * string);
  decorations : list Instruction;
  idToInstruction : gmap Z Instruction;
  capabilities : gset Z;
  extensions : gset string;
  importIDCache : list (string * Z);
  switchMerges : list blockref;
}.

Definition set_uniqueId (x : Z) (b : Builder) : Builder := mkBuilder x (buildPoint b) (blocks b)
    (functions b) (groupedTypes b) (groupedConstants b) (constantsTypesGlobals b) (names b)
    (decorations b) (idToInstruction b) (capabilities b) (extensions b) (importIDCache b)
    (switchMerges b).
Definition set_buildPoint (x : option blockref) (b : Builder) : Builder := mkBuilder (uniqueId b)
    x (blocks b) (functions b) (groupedTypes b) (groupedConstants b) (constantsTypesGlobals b)
    (names b) (decorations b) (idToInstruction b) (capabilities b) (extensions b)
    (importIDCache b) (switchMerges b).
Definition set_blocks (x : list Block) (b : Builder) : Builder := mkBuilder (uniqueId b)
    (buildPoint b) x (functions b) (groupedTypes b) (groupedConstants b) (constantsTypesGlobals b)
    (names b) (decorations b) (idToInstruction b) (capabilities b) (extensions b)
    (importIDCache b) (switchMerges b).
Definition set_functions (x : list Function_) (b : Builder) : Builder := mkBuilder (uniqueId b)
    (buildPoint b) (blocks b) x (groupedTypes b) (groupedConstants b) (constantsTypesGlobals b)
    (names b) (decorations b) (idToInstruction b) (capabilities b) (extensions b)
    (importIDCache b) (switchMerges b).
Definition set_groupedTypes (x : gmap Z (list Instruction)) (b : Builder) : Builder := mkBuilder
    (uniqueId b) (buildPoint b) (blocks b) (functions b) x (groupedConstants b)
    (constantsTypesGlobals b) (names b) (decorations b) (idToInstruction b) (capabilities b)
    (extensions b) (importIDCache b) (switchMerges b).
Definition set_groupedConstants (x : gmap Z (list Instruction)) (b : Builder) : Builder :=
    mkBuilder (uniqueId b) (buildPoint b) (blocks b) (functions b) (groupedTypes b) x
    (constantsTypesGlobals b) (names b) (decorations b) (idToInstruction b) (capabilities b)
    (extensions b) (importIDCache b) (switchMerges b).
Definition set_constantsTypesGlobals (x : list Instruction) (b : Builder) : Builder := mkBuilder
    (uniqueId b) (buildPoint b) (blocks b) (functions b) (groupedTypes b) (groupedConstants b) x
    (names b) (decorations b) (idToInstruction b) (capabilities b) (extensions b)
    (importIDCache b) (switchMerges b).
Definition set_names (x : list (Z * option Z * string)) (b : Builder) : Builder := mkBuilder
    (uniqueId b) (buildPoint b) (blocks b) (functions b) (groupedTypes b) (groupedConstants b)
    (constantsTypesGlobals b) x (decorations b) (idToInstruction b) (capabilities b)
    (extensions b) (importIDCache b) (switchMerges b).
Definition set_decorations (x : list Instruction) (b : Builder) : Builder := mkBuilder
    (uniqueId b) (buildPoint b) (blocks b) (functions b) (groupedTypes b) (groupedConstants b)
    (constantsTypesGlobals b) (names b) x (idToInstruction b) (capabilities b) (extensions b)
    (importIDCache b) (switchMerges b).
Definition set_idToInstruction (x : gmap Z Instruction) (b : Builder) : Builder := mkBuilder
    (uniqueId b) (buildPoint b) (blocks b) (functions b) (groupedTypes b) (groupedConstants b)
    (constantsTypesGlobals b) (names b) (decorations b) x (capabilities b) (extensions b)
    (importIDCache b) (switchMerges b).
Definition set_capabilities (x : gset Z) (b : Builder) : Builder := mkBuilder (uniqueId b)
    (buildPoint b) (blocks b) (functions b) (groupedTypes b) (groupedConstants b)
    (constantsTypesGlobals b) (names b) (decorations b) (idToInstruction b) x (extensions b)
    (importIDCache b) (switchMerges b).
Definition set_extensions (x : gset string) (b : Builder) : Builder := mkBuilder (uniqueId b)
    (buildPoint b) (blocks b) (functions b) (groupedTypes b) (groupedConstants b)
    (constantsTypesGlobals b) (names b) (decorations b) (idToInstruction b) (capabilities b) x
    (importIDCache b) (switchMerges b).
Definition set_importIDCache (x : list (string * Z)) (b : Builder) : Builder := mkBuilder
    (uniqueId b) (buildPoint b) (blocks b) (functions b) (groupedTypes b) (groupedConstants b)
    (constantsTypesGlobals b) (names b) (decorations b) (idToInstruction b) (capabilities b)
    (extensions b) x (switchMerges b).
Definition set_switchMerges (x : list blockref) (b : Builder) : Builder := mkBuilder (uniqueId b)
    (buildPoint b) (blocks b) (functions b) (groupedTypes b) (groupedConstants b)
    (constantsTypesGlobals b) (names b) (decorations b) (idToInstruction b) (capabilities b)
    (extensions b) (importIDCache b) x.

(** The constructor; the members left out have no effect on blocks. *)
Definition Builder_new : Builder := mkBuilder 0 None [] [] ∅ ∅ [] [] [] ∅ ∅ ∅ [] [].

Definition BM : Type -> Type := M Builder.

Definition getUniqueId : BM Z :=
  n ← gets uniqueId;
  _ ← modify (set_uniqueId (u32 (n + 1)));
  mret (u32 (n + 1)).

Definition getUniqueIds (numIds : Z) : BM Z :=
  n ← gets uniqueId;
  _ ← modify (set_uniqueId (u32 (n + numIds)));
  mret (u32 (n + 1)).

Definition mapInstruction (i : Instruction) : BM unit :=
  modify (fun b => set_idToInstruction (<[resultId i := i]> (idToInstruction b)) b).

Definition hasCapability (b : Builder) (c : Z) : bool := bool_decide (c ∈ capabilities b).
Definition addCapability (c : Z) : BM unit := modify (fun b => set_capabilities ({[c]} ∪ capabilities b) b).
Definition addExtension (e : string) : BM unit := modify (fun b => set_extensions ({[e]} ∪ extensions b) b).

Definition addName (id : Z) (s : string) : BM unit := modify (fun b => set_names (names b ++ [(id, None, s)]) b).
Definition addMemberName (id member : Z) (s : string) : BM unit :=
  modify (fun b => set_names (names b ++ [(id, Some member, s)]) b).

(** The extended instruction sets, by name; their import instructions are not kept apart. *)
Definition import (name : string) : BM Z :=
  l ← gets importIDCache;
  match list_find (fun x => x.1 = name) l with
  | Some (_, (_, id)) => mret id
  | None =>
      id ← getUniqueId;
      _ ← modify (fun b => set_importIDCache (importIDCache b ++ [(name, id)]) b);
      mret id
  end.

(** [module.getInstruction(id)], null when the id was never mapped. *)
Definition getInstruction (b : Builder) (id : Z) : option Instruction := idToInstruction b !! id.

Definition getTypeClass (b : Builder) (type_id : Z) : res Z :=
  i ← some_or_ub (getInstruction b type_id); Ok (opCode i).

Definition getTypeId (b : Builder) (id : Z) : res Z :=
  i ← some_or_ub (getInstruction b id); Ok (typeId i).

(** The storage class of a pointer value. *)
Definition getStorageClass (b : Builder) (id : Z) : res Z :=
  t ← getTypeId b id;
  i ← some_or_ub (getInstruction b t);
  _ ← assert_res (opCode i =? OpTypePointer);
  some_or_ub (operands i !! 0%nat).

Definition getContainedTypeId (b : Builder) (type_id : Z) (member : nat) : res Z :=
  i ← some_or_ub (getInstruction b type_id);
  if bool_decide (opCode i ∈ [OpTypeVector; OpTypeMatrix; OpTypeArray; OpTypeRuntimeArray;
                              OpTypeCooperativeMatrixKHR])
  then some_or_ub (operands i !! 0%nat)
  else if opCode i =? OpTypePointer then some_or_ub (operands i !! 1%nat)
  else if opCode i =? OpTypeStruct then some_or_ub (operands i !! member)
  else UB.

(** A type contains types that were made before it, so the ids bound the recursion. *)
Fixpoint scalar_type_walk (b : Builder) (fuel : nat) (type_id : Z) : res Z :=
  match fuel with
  | O => UB
  | S fuel' =>
      i ← some_or_ub (getInstruction b type_id);
      if bool_decide (opCode i ∈ [OpTypeVoid; OpTypeBool; OpTypeInt; OpTypeFloat; OpTypeStruct])
      then Ok (resultId i)
      else if bool_decide (opCode i ∈ [OpTypeVector; OpTypeMatrix; OpTypeArray; OpTypeRuntimeArray;
                                       OpTypePointer])
      then c ← getContainedTypeId b type_id 0; scalar_type_walk b fuel' c
      else UB
  end.
Definition getScalarTypeId (b : Builder) (type_id : Z) : res Z :=
  scalar_type_walk b (S (size (idToInstruction b))) type_id.

Definition getScalarTypeWidth (b : Builder) (type_id : Z) : res Z :=
  s ← getScalarTypeId b type_id;
  c ← getTypeClass b s;
  _ ← assert_res ((c =? OpTypeInt) || (c =? OpTypeFloat));
  i ← some_or_ub (getInstruction b s);
  some_or_ub (head (operands i)).

Definition isPointerType (b : Builder) (type_id : Z) : res bool :=
  c ← getTypeClass b type_id; Ok (c =? OpTypePointer).
Definition isScalarType (b : Builder) (type_id : Z) : res bool :=
  c ← getTypeClass b type_id; Ok (bool_decide (c ∈ [OpTypeFloat; OpTypeInt; OpTypeBool])).
Definition isVectorType (b : Builder) (type_id : Z) : res bool :=
  c ← getTypeClass b type_id; Ok (c =? OpTypeVector).
Definition isStructType (b : Builder) (type_id : Z) : res bool :=
  c ← getTypeClass b type_id; Ok (c =? OpTypeStruct).
Definition isArrayType (b : Builder) (type_id : Z) : res bool :=
  c ← getTypeClass b type_id; Ok (bool_decide (c ∈ [OpTypeArray; OpTypeRuntimeArray])).

(** The length of an array is the first word of its constant. *)
Definition getNumTypeConstituents (b : Builder) (type_id : Z) : res Z :=
  i ← some_or_ub (getInstruction b type_id);
  if bool_decide (opCode i ∈ [OpTypeBool; OpTypeInt; OpTypeFloat]) then Ok 1
  else if bool_decide (opCode i ∈ [OpTypeVector; OpTypeMatrix]) then some_or_ub (operands i !! 1%nat)
  else if opCode i =? OpTypeArray then
    len ← some_or_ub (operands i !! 1%nat);
    c ← some_or_ub (getInstruction b len);
    some_or_ub (operands c !! 0%nat)
  else if opCode i =? OpTypeStruct then Ok (zlength (operands i))
  else UB.

(** * Types and constants *)

Definition group (m : gmap Z (list Instruction)) (op : Z) : list Instruction := default [] (m !! op).

(** The shared tail of the [make...] functions: a new instruction that goes to the globals. *)
Definition new_global (type_id op : Z) (ops : list Z) : BM Instruction :=
  id ← getUniqueId;
  let i := mkInstruction id type_id op ops in
  _ ← modify (fun b => set_constantsTypesGlobals (constantsTypesGlobals b ++ [i]) b);
  _ ← mapInstruction i;
  mret i.

Definition new_type (op : Z) (ops : list Z) : BM Z :=
  i ← new_global 0 op ops;
  _ ← modify (fun b => set_groupedTypes (<[op := group (groupedTypes b) op ++ [i]]> (groupedTypes b)) b);
  mret (resultId i).

Definition new_constant (cls type_id op : Z) (ops : list Z) : BM Z :=
  i ← new_global type_id op ops;
  _ ← modify (fun b => set_groupedConstants
        (<[cls := group (groupedConstants b) cls ++ [i]]> (groupedConstants b)) b);
  mret (resultId i).

Definition operand_is (i : Instruction) (n : nat) (v : Z) : bool := bool_decide (operands i !! n = Some v).

(** A type of the class [op] with these first operands, or a new one. *)
Definition find_or_make (op : Z) (ops : list Z) : BM Z :=
  l ← gets (fun b => group (groupedTypes b) op);
  match list_find (fun i => bool_decide (operands i = ops)) l with
  | Some (_, i) => mret (resultId i)
  | None => new_type op ops
  end.

Definition makeVoidType : BM Z := find_or_make OpTypeVoid [].
Definition makeBoolType : BM Z := find_or_make OpTypeBool [].

Definition makeIntegerType (width : Z) (hasSign : bool) : BM Z :=
  l ← gets (fun b => group (groupedTypes b) OpTypeInt);
  let ops := [width; if hasSign then 1 else 0] in
  match list_find (fun i => bool_decide (operands i = ops)) l with
  | Some (_, i) => mret (resultId i)
  | None =>
      id ← new_type OpTypeInt ops;
      _ ← (if width =? 8 then addCapability CapabilityInt8
           else if width =? 16 then addCapability CapabilityInt16
           else if width =? 64 then addCapability CapabilityInt64
           else mret tt);
      mret id
  end.

Definition makeUintType (width : Z) : BM Z := makeIntegerType width false.
Definition makeIntType (width : Z) : BM Z := makeIntegerType width true.

(** A new type each time. *)
Definition makeStructType (members : list Z) (name : string) : BM Z :=
  id ← new_type OpTypeStruct members;
  _ ← addName id name;
  mret id.
Definition makeRuntimeArray (element : Z) : BM Z :=
  i ← new_global 0 OpTypeRuntimeArray [element]; mret (resultId i).

Definition makePointer (storageClass pointee : Z) : BM Z := find_or_make OpTypePointer [storageClass; pointee].

Definition makeFunctionType (returnType : Z) (paramTypes : list Z) : BM Z :=
  find_or_make OpTypeFunction (returnType :: paramTypes).

(** A negative [encoding] means that the type has none. *)
Definition makeFloatType (width encoding : Z) : BM Z :=
  l ← gets (fun b => group (groupedTypes b) OpTypeFloat);
  let ops := if 0 <=? encoding then [width; encoding] else [width] in
  match list_find (fun i => bool_decide (operands i = ops)) l with
  | Some (_, i) => mret (resultId i)
  | None =>
      id ← new_type OpTypeFloat ops;
      _ ← (if width =? 8 then
             if 0 <=? encoding then
               _ ← addExtension "SPV_EXT_float8";
               _ ← addCapability CapabilityFloat8EXT;
               addCapability CapabilityFloat8CooperativeMatrixEXT
             else mret tt
           else if width =? 16 then addCapability CapabilityFloat16
           else if width =? 64 then addCapability CapabilityFloat64
           else mret tt);
      mret id
  end.

Definition makeVectorType (component size : Z) : BM Z :=
  _ ← assertM ((1 <=? size) && (size <=? 1024));
  _ ← (if (size =? 1) || (4 <? size) then
         _ ← addExtension "SPV_EXT_long_vector"; addCapability CapabilityLongVectorEXT
       else mret tt);
  find_or_make OpTypeVector [component; size].

Definition maxMatrixSize : Z := 4.

Definition makeMatrixType (component cols rows : Z) : BM Z :=
  _ ← assertM ((cols <=? maxMatrixSize) && (rows <=? maxMatrixSize));
  column ← makeVectorType component rows;
  find_or_make OpTypeMatrix [column; cols].

Definition decorated (ds : list Instruction) (id decoration : Z) : bool :=
  existsb (fun i => operand_is i 0 id && operand_is i 1 decoration) ds.

(** Only an array without a stride can be shared. *)
Definition makeArrayType (element sizeId stride : Z) : BM Z :=
  l ← gets (fun b => group (groupedTypes b) OpTypeArray);
  ds ← gets decorations;
  let found := if stride =? 0
    then list_find (fun i => operands i = [element; sizeId] /\
                             decorated ds (resultId i) DecorationArrayStride = false) l
    else None in
  match found with
  | Some (_, i) => mret (resultId i)
  | None => new_type OpTypeArray [element; sizeId]
  end.

(** The search keeps the last match. *)
Definition makeBoolConstant (v : bool) : BM Z :=
  type_id ← makeBoolType;
  let opcode := if v then OpConstantTrue else OpConstantFalse in
  l ← gets (fun b => group (groupedConstants b) OpTypeBool);
  match list.last (filter (fun i => typeId i = type_id /\ opCode i = opcode) l) with
  | Some i => if resultId i =? 0 then new_constant OpTypeBool type_id opcode [] else mret (resultId i)
  | None => new_constant OpTypeBool type_id opcode []
  end.

Definition makeIntConstant (type_id value : Z) : BM Z :=
  l ← gets (fun b => group (groupedConstants b) OpTypeInt);
  match list_find (fun i => opCode i = OpConstant /\ typeId i = type_id /\ operands i !! 0%nat = Some value) l with
  | Some (_, i) => if resultId i =? 0 then new_constant OpTypeInt type_id OpConstant [value] else mret (resultId i)
  | None => new_constant OpTypeInt type_id OpConstant [value]
  end.

Definition makeUintConstant (u : Z) : BM Z := t ← makeUintType 32; makeIntConstant t u.

(** [makeIntConstant(int)] *)
Definition makeSignedConstant (i : Z) : BM Z := t ← makeIntType 32; makeIntConstant t (u32 i).

Definition makeInt64Constant (type_id value : Z) : BM Z :=
  let op1 := Z.land value 0xFFFFFFFF in
  let op2 := Z.shiftr value 32 in
  l ← gets (fun b => group (groupedConstants b) OpTypeInt);
  match list_find (fun i => opCode i = OpConstant /\ typeId i = type_id /\
                            operands i !! 0%nat = Some op1 /\ operands i !! 1%nat = Some op2) l with
  | Some (_, i) => if resultId i =? 0 then new_constant OpTypeInt type_id OpConstant [op1; op2]
                   else mret (resultId i)
  | None => new_constant OpTypeInt type_id OpConstant [op1; op2]
  end.
Definition makeUint64Constant (u : Z) : BM Z := t ← makeUintType 64; makeInt64Constant t u.
Definition makeInt16Constant (i : Z) : BM Z := t ← makeIntType 16; makeIntConstant t (u32 i).
Definition makeUint16Constant (u : Z) : BM Z := t ← makeUintType 16; makeIntConstant t (wrap 16 u).

(** A constant of a type of floats: its words, the low one first. *)
Definition makeFloatWords (type_id : Z) (words : list Z) : BM Z :=
  l ← gets (fun b => group (groupedConstants b) OpTypeFloat);
  match list_find (fun i => opCode i = OpConstant /\ typeId i = type_id /\ operands i = words) l with
  | Some (_, i) => if resultId i =? 0 then new_constant OpTypeFloat type_id OpConstant words else mret (resultId i)
  | None => new_constant OpTypeFloat type_id OpConstant words
  end.

(** The bits of the value. *)
Definition makeFloat16Constant (f16 : Z) : BM Z := t ← makeFloatType 16 (-1); makeFloatWords t [f16].
Definition makeFloatConstant (f : Z) : BM Z := t ← makeFloatType 32 (-1); makeFloatWords t [f].
Definition makeDoubleConstant (d : Z) : BM Z :=
  t ← makeFloatType 64 (-1); makeFloatWords t [Z.land d 0xFFFFFFFF; Z.shiftr d 32].

(** The search for an old constant compares the members and the class of the type, not the
    type. *)
Definition makeCompositeConstant (type_id : Z) (members : list Z) : BM Z :=
  _ ← assertM (negb (type_id =? 0));
  b ← gets (fun b => b);
  typeClass ← lift (getTypeClass b type_id);
  _ ← assertM (bool_decide (typeClass ∈ [OpTypeVector; OpTypeArray; OpTypeStruct; OpTypeMatrix]));
  match list_find (fun i => operands i = members) (group (groupedConstants b) typeClass) with
  | Some (_, i) => if resultId i =? 0 then new_constant typeClass type_id OpConstantComposite members
                   else mret (resultId i)
  | None => new_constant typeClass type_id OpConstantComposite members
  end.

(** Bytes as little-endian words, the last one padded with zeros. *)
Fixpoint constant_words (data : list Z) : list Z :=
  match data with
  | a :: b :: c :: d :: data' => (a + 2 ^ 8 * b + 2 ^ 16 * c + 2 ^ 24 * d) :: constant_words data'
  | [] => []
  | [a] => [a]
  | [a; b] => [a + 2 ^ 8 * b]
  | [a; b; c] => [a + 2 ^ 8 * b + 2 ^ 16 * c]
  end.

(** The instruction is not entered into the map of ids. *)
Definition addConstantData (type_id : Z) (data : list Z) : BM Z :=
  id ← getUniqueId;
  _ ← modify (fun b => set_constantsTypesGlobals (constantsTypesGlobals b ++
        [mkInstruction id type_id OpConstantDataKHR (constant_words data)]) b);
  mret id.

Definition makeNullConstant (type_id : Z) : BM Z := i ← new_global type_id OpConstantNull []; mret (resultId i).
Definition createUndefinedConstant (type_id : Z) : BM Z := i ← new_global type_id OpUndef []; mret (resultId i).

(** * Decorations *)

Definition hasDecoration (b : Builder) (id decoration : Z) : bool :=
  decorated (decorations b) id decoration.

(** A negative number means that the decoration has no operand. *)
Definition addDecoration (id decoration num : Z) : BM unit :=
  modify (fun b => set_decorations (decorations b ++
    [mkInstruction 0 0 OpDecorate ([id; decoration] ++ (if 0 <=? num then [num] else []))]) b).

Definition addMemberDecoration (id member decoration num : Z) : BM unit :=
  modify (fun b => set_decorations (decorations b ++
    [mkInstruction 0 0 OpMemberDecorate ([id; member; decoration] ++ (if 0 <=? num then [num] else []))]) b).

Definition removeDecorations (ids : gset Z) : BM unit :=
  modify (fun b => set_decorations (filter (fun i =>
    ~ (opCode i = OpDecorate /\ default 0 (operands i !! 0%nat) ∈ ids)) (decorations b)) b).

(** * Blocks *)

Definition block_at (r : blockref) : BM Block := k ← gets (fun b => blocks b !! r); derefM k.

Definition update_block (r : blockref) (f : Block -> Block) : BM unit :=
  k ← block_at r; modify (fun b => set_blocks (<[r := f k]> (blocks b)) b).

Definition getBuildPoint : BM blockref := p ← gets buildPoint; derefM p.
Definition setBuildPoint (r : blockref) : BM unit := modify (set_buildPoint (Some r)).

(** [Block::addInstruction] *)
Definition addInstruction (r : blockref) (i : Instruction) : BM unit :=
  _ ← update_block r (fun k => set_instructions (instructions k ++ [i]) k);
  if resultId i =? 0 then mret tt else mapInstruction i.

(** [new Block(id, function)] *)
Definition new_Block (id : Z) (f : funcref) : BM blockref :=
  let label := mkInstruction id 0 OpLabel [] in
  r ← gets (fun b => length (blocks b));
  _ ← modify (fun b => set_blocks (blocks b ++ [mkBlock [label] [] [] [] false f]) b);
  _ ← mapInstruction label;
  mret r.

(** [Block::getId]: the id of the label. *)
Definition block_id (r : blockref) : BM Z :=
  k ← block_at r; i ← derefM (head (instructions k)); mret (resultId i).

Definition addPredecessor (this pred : blockref) : BM unit :=
  _ ← update_block this (fun k => set_predecessors (predecessors k ++ [pred]) k);
  update_block pred (fun k => set_successors (successors k ++ [this]) k).

Definition function_at (f : funcref) : BM Function_ := x ← gets (fun b => functions b !! f); derefM x.

Definition addBlock (f : funcref) (r : blockref) : BM unit :=
  x ← function_at f;
  modify (fun b => set_functions (<[f := set_function_blocks (function_blocks x ++ [r]) x]> (functions b)) b).

(** Every second operand of a phi from the second one on is a block id. *)
Fixpoint rewrite_phi_operands (from_id to_id : Z) (l : list Z) : list Z :=
  match l with
  | v :: i :: l' => v :: (if i =? from_id then to_id else i) :: rewrite_phi_operands from_id to_id l'
  | _ => l
  end.

Definition rewritePhiIncoming (r : blockref) (from_id to_id : Z) : BM unit :=
  _ ← update_block r (fun k => set_instructions
    ((fun i => if opCode i =? OpPhi
               then mkInstruction (resultId i) (typeId i) (opCode i)
                      (rewrite_phi_operands from_id to_id (operands i))
               else i) <$> instructions k) k);
  k ← block_at r;
  for_eachM mapInstruction (filter (fun i => opCode i = OpPhi) (instructions k)).

Definition is_terminator (op : Z) : bool :=
  bool_decide (op ∈ [OpBranch; OpBranchConditional; OpSwitch; OpKill; OpReturn; OpReturnValue; OpUnreachable]).

(** * Instructions at the build point *)

Definition at_build_point (i : Instruction) : BM unit := p ← getBuildPoint; addInstruction p i.

(** An [Instruction *] into a block: the block and the position. *)
Record instref := mkInstref { in_block : blockref; position : nat }.

(** [Builder::addInstruction(type, op)] and [Builder::addInstruction(op)]; operands follow. *)
Definition append_instruction (i : Instruction) : BM instref :=
  p ← getBuildPoint;
  k ← block_at p;
  _ ← addInstruction p i;
  mret (mkInstref p (length (instructions k))).
Definition add_op (type_id op : Z) : BM instref :=
  id ← getUniqueId; append_instruction (mkInstruction id type_id op []).
Definition add_op_no_result (op : Z) : BM instref := append_instruction (mkInstruction 0 0 op []).

Definition instruction_at (h : instref) : BM Instruction :=
  k ← block_at (in_block h); derefM (instructions k !! position h).

(** [h->getResultId()] *)
Definition result_of (h : instref) : BM Z := i ← instruction_at h; mret (resultId i).

(** [h->addIdOperand(v)] and [h->addImmediateOperand(v)] *)
Definition add_operand (h : instref) (v : Z) : BM unit :=
  i ← instruction_at h;
  let i := mkInstruction (resultId i) (typeId i) (opCode i) (operands i ++ [v]) in
  _ ← update_block (in_block h) (fun k => set_instructions (<[position h := i]> (instructions k)) k);
  if resultId i =? 0 then mret tt else mapInstruction i.

Definition createBranch (r : blockref) : BM unit :=
  id ← block_id r;
  _ ← at_build_point (mkInstruction 0 0 OpBranch [id]);
  p ← getBuildPoint;
  addPredecessor r p.

Definition createSelectionMerge (mergeBlock : blockref) (control : Z) : BM unit :=
  id ← block_id mergeBlock;
  at_build_point (mkInstruction 0 0 OpSelectionMerge [id; control]).

Definition createLoopMerge (mergeBlock continueBlock : blockref) (control : Z) : BM unit :=
  m ← block_id mergeBlock;
  c ← block_id continueBlock;
  at_build_point (mkInstruction 0 0 OpLoopMerge [m; c; control]).

Definition createConditionalBranch (condition : Z) (thenBlock elseBlock : blockref) : BM unit :=
  t ← block_id thenBlock;
  e ← block_id elseBlock;
  _ ← at_build_point (mkInstruction 0 0 OpBranchConditional [condition; t; e]);
  p ← getBuildPoint;
  _ ← addPredecessor thenBlock p;
  addPredecessor elseBlock p.

Definition createUnreachable : BM unit := at_build_point (mkInstruction 0 0 OpUnreachable []).

Definition createStore (rValue lValue : Z) : BM unit := at_build_point (mkInstruction 0 0 OpStore [lValue; rValue]).

Definition createUndefined (type_id : Z) : BM Z :=
  id ← getUniqueId;
  _ ← at_build_point (mkInstruction id type_id OpUndef []);
  mret id.

Definition createFunctionCall (f : funcref) (args : list Z) : BM Z :=
  id ← getUniqueId;
  x ← function_at f;
  let fi := functionInstruction x in
  _ ← at_build_point (mkInstruction id (typeId fi) OpFunctionCall (resultId fi :: args));
  mret id.

(** The block after a return; nothing branches to it. *)
Definition createAndSetNoPredecessorBlock : BM unit :=
  id ← getUniqueId;
  p ← getBuildPoint;
  k ← block_at p;
  r ← new_Block id (parent k);
  _ ← update_block r (set_unreachable true);
  _ ← addBlock (parent k) r;
  setBuildPoint r.

Definition makeReturn (implicit : bool) (retVal : Z) : BM unit :=
  _ ← at_build_point (if retVal =? 0 then mkInstruction 0 0 OpReturn []
                      else mkInstruction 0 0 OpReturnValue [retVal]);
  if implicit then mret tt else createAndSetNoPredecessorBlock.

(** * Variables and functions *)

Definition createVariableWithInitializer (storageClass type_id initializer : Z) (name : option string) : BM Z :=
  pointerType ← makePointer storageClass type_id;
  id ← getUniqueId;
  let i := mkInstruction id pointerType OpVariable
             (storageClass :: (if initializer =? 0 then [] else [initializer])) in
  _ ← (if storageClass =? StorageClassFunction then
         p ← getBuildPoint;
         k ← block_at p;
         f ← function_at (parent k);
         entry ← derefM (head (function_blocks f));
         update_block entry (fun k => set_localVariables (localVariables k ++ [i]) k)
       else modify (fun b => set_constantsTypesGlobals (constantsTypesGlobals b ++ [i]) b));
  _ ← mapInstruction i;
  _ ← match name with Some s => addName id s | None => mret tt end;
  mret id.

Definition createVariable (storageClass type_id : Z) (name : option string) : BM Z :=
  createVariableWithInitializer storageClass type_id 0 name.

Definition getDerefTypeId (b : Builder) (id : Z) : res Z :=
  t ← getTypeId b id;
  p ← isPointerType b t;
  _ ← assert_res p;
  i ← some_or_ub (getInstruction b t);
  some_or_ub (operands i !! 1%nat).

Definition createLoad (lValue : Z) : BM Z :=
  id ← getUniqueId;
  b ← gets (fun b => b);
  t ← lift (getDerefTypeId b lValue);
  _ ← at_build_point (mkInstruction id t OpLoad [lValue]);
  mret id.

(** [new Function(id, resultType, functionType, firstParamId, module)] *)
Definition new_Function (id resultType functionType firstParamId : Z) : BM funcref :=
  let fi := mkInstruction id resultType OpFunction [0; functionType] in
  _ ← mapInstruction fi;
  t ← gets (fun b => getInstruction b functionType);
  t ← derefM t;
  let params := imap (fun p ty => mkInstruction (u32 (firstParamId + Z.of_nat p)) ty OpFunctionParameter [])
                     (tail (operands t)) in
  _ ← for_eachM mapInstruction params;
  f ← gets (fun b => length (functions b));
  _ ← modify (fun b => set_functions (functions b ++ [mkFunction fi params []]) b);
  mret f.

(** A function without precision and parameter decorations, with its entry block as the
    build point. *)
Definition makeFunctionEntry (returnType : Z) (name : option string) (paramTypes : list Z)
    : BM (funcref * blockref) :=
  type_id ← makeFunctionType returnType paramTypes;
  firstParamId ← (if bool_decide (paramTypes = []) then mret 0 else getUniqueIds (zlength paramTypes));
  id ← getUniqueId;
  f ← new_Function id returnType type_id firstParamId;
  entry_id ← getUniqueId;
  entry ← new_Block entry_id f;
  _ ← addBlock f entry;
  _ ← setBuildPoint entry;
  _ ← match name with Some s => addName id s | None => mret tt end;
  mret (f, entry).

Definition getParamId (f : funcref) (p : nat) : BM Z :=
  x ← function_at f;
  i ← derefM (parameterInstructions x !! p);
  mret (resultId i).

Definition getEntryBlock (f : funcref) : BM blockref :=
  x ← function_at f; derefM (head (function_blocks x)).

(** [Block::isTerminated] *)
Definition isTerminated (k : Block) : bool :=
  match list.last (instructions k) with Some i => is_terminator (opCode i) | None => false end.

Definition leaveFunction : BM unit :=
  p ← getBuildPoint;
  k ← block_at p;
  if isTerminated k then mret tt
  else
    f ← function_at (parent k);
    v ← makeVoidType;
    let r := typeId (functionInstruction f) in
    if r =? v then makeReturn true 0
    else u ← createUndefined r; makeReturn true u.

Definition getWorkgroupBarrierSemanticsId : BM Z :=
  b ← gets (fun b => b);
  let semantics := Z.lor MemorySemanticsAcquireReleaseMask MemorySemanticsWorkgroupMemoryMask in
  makeUintConstant (if hasCapability b CapabilityVulkanMemoryModel
    then Z.lor semantics (Z.lor MemorySemanticsMakeAvailableMask MemorySemanticsMakeVisibleMask)
    else semantics).

Definition getAtomicDeviceScope (b : Builder) : Z :=
  if hasCapability b CapabilityVulkanMemoryModel then ScopeQueueFamily else ScopeDevice.
Definition getAtomicDeviceScopeId : BM Z := s ← gets getAtomicDeviceScope; makeUintConstant s.

(** * Switches *)

Definition nth_block (l : list blockref) (i : nat) : BM blockref := derefM (l !! i).

(** The cases with the segments they go to. *)
Definition makeSwitch (selector control : Z) (numSegments : nat) (caseValues : list (Z * nat))
    (defaultSegment : nat) : BM (list blockref) :=
  p ← getBuildPoint;
  k ← block_at p;
  segments ← mapM_list (fun _ => id ← getUniqueId; new_Block id (parent k)) (seq 0 numSegments);
  id ← getUniqueId;
  mergeBlock ← new_Block id (parent k);
  _ ← createSelectionMerge mergeBlock control;
  d ← nth_block segments defaultSegment;
  d_id ← block_id d;
  _ ← addPredecessor d p;
  targets ← mapM_list (fun c : Z * nat =>
    r ← nth_block segments c.2;
    i ← block_id r;
    _ ← addPredecessor r p;
    mret [u32 c.1; i]) caseValues;
  _ ← addInstruction p (mkInstruction 0 0 OpSwitch (selector :: d_id :: concat targets));
  _ ← modify (fun b => set_switchMerges (mergeBlock :: switchMerges b) b);
  mret segments.

Definition top_merge : BM blockref := l ← gets switchMerges; derefM (head l).

Definition addSwitchBreak : BM unit :=
  m ← top_merge; _ ← createBranch m; createAndSetNoPredecessorBlock.

Definition endSwitch : BM unit :=
  p ← getBuildPoint;
  k ← block_at p;
  _ ← (if isTerminated k then mret tt else addSwitchBreak);
  m ← top_merge;
  km ← block_at m;
  _ ← addBlock (parent km) m;
  _ ← setBuildPoint m;
  modify (fun b => set_switchMerges (tail (switchMerges b)) b).
