(* ===== verification/Instrumentation.v ===== *)
(** The functions that instrumented shaders call to report their first non-finite value or
    failed assumption (spirv_module_instrumentation.cpp, the state of descriptor_qa.hpp).

    They build SPIR-V with the builder only.  Where C++ leaves the order of the arguments
    of a call open, they are evaluated from left to right. *)
From S2P Require Import Prelude.
From S2P Require Import SpvBuilder.
Local Open Scope Z_scope.

Inductive InstructionInstrumentationType :=
  FullNanInf | ExternallyVisibleWriteNanInf | FlushNaNToZero | ExpectAssume | BufferSynchronizationValidation.
#[export] Instance InstructionInstrumentationType_eq_dec : EqDecision InstructionInstrumentationType.
Proof. solve_decision. Defined.

Record InstructionInstrumentationInfo := mkInstrumentationInfo {
  enabled : bool;
  shader_abort : bool;
  control_desc_set : Z;
  control_binding : Z;
  payload_desc_set : Z;
  payload_binding : Z;
  shader_hash : Z;
  instrumentation_type : InstructionInstrumentationType;
}.

(** The member initialisers. *)
Definition InstructionInstrumentationInfo_new : InstructionInstrumentationInfo :=
  mkInstrumentationInfo false false 0 0 0 0 0 FullNanInf.

(** The ids of the functions that instructions call, by what they report. *)
Inductive CallSite := CallFp16 | CallFp32 | CallFp64 | CallAssumeTrue.
#[export] Instance CallSite_eq_dec : EqDecision CallSite.
Proof. solve_decision. Defined.

Record InstructionInstrumentationState := mkInstrumentationState {
  instruction_count : Z;
  nan_inf_instrument_fp16_call_id : Z;
  nan_inf_instrument_fp32_call_id : Z;
  nan_inf_instrument_fp64_call_id : Z;
  assume_true_call_id : Z;
  should_report_instrumentation_id : Z;
  global_nan_inf_control_var_id : Z;
  global_nan_inf_data_var_id : Z;
  info : InstructionInstrumentationInfo;
}.

Definition InstructionInstrumentationState_new : InstructionInstrumentationState :=
  mkInstrumentationState 0 0 0 0 0 0 0 0 InstructionInstrumentationInfo_new.

(** [*call_id] *)
Definition call_id_at (c : CallSite) (t : InstructionInstrumentationState) : Z :=
  match c with
  | CallFp16 => nan_inf_instrument_fp16_call_id t
  | CallFp32 => nan_inf_instrument_fp32_call_id t
  | CallFp64 => nan_inf_instrument_fp64_call_id t
  | CallAssumeTrue => assume_true_call_id t
  end.
Definition set_call_id (c : CallSite) (id : Z) (t : InstructionInstrumentationState)
    : InstructionInstrumentationState :=
  let pick d v := if decide (c = d) then id else v in
  mkInstrumentationState (instruction_count t)
    (pick CallFp16 (nan_inf_instrument_fp16_call_id t)) (pick CallFp32 (nan_inf_instrument_fp32_call_id t))
    (pick CallFp64 (nan_inf_instrument_fp64_call_id t)) (pick CallAssumeTrue (assume_true_call_id t))
    (should_report_instrumentation_id t) (global_nan_inf_control_var_id t)
    (global_nan_inf_data_var_id t) (info t).
Definition set_instruction_count (n : Z) (t : InstructionInstrumentationState)
    : InstructionInstrumentationState :=
  mkInstrumentationState n (nan_inf_instrument_fp16_call_id t) (nan_inf_instrument_fp32_call_id t)
    (nan_inf_instrument_fp64_call_id t) (assume_true_call_id t) (should_report_instrumentation_id t)
    (global_nan_inf_control_var_id t) (global_nan_inf_data_var_id t) (info t).
Definition set_report_vars (report control data : Z) (t : InstructionInstrumentationState)
    : InstructionInstrumentationState :=
  mkInstrumentationState (instruction_count t) (nan_inf_instrument_fp16_call_id t)
    (nan_inf_instrument_fp32_call_id t) (nan_inf_instrument_fp64_call_id t) (assume_true_call_id t)
    report control data (info t).

(** [h->addIdOperand(m1); h->addIdOperand(m2); ...] *)
Definition add_operands (h : instref) (l : list (BM Z)) : BM unit :=
  for_eachM (fun m => v ← m; add_operand h v) l.

(** [uint32_t(hash)] and [uint32_t(hash >> 32)] *)
Definition hash_lo (h : Z) : Z := u32 h.
Definition hash_hi (h : Z) : Z := u32 (Z.shiftr h 32).

(** The block after the current one that a function goes on in. *)
Definition new_block_in (f : funcref) : BM blockref := id ← getUniqueId; new_Block id f.

(** The dispatch id, which lies in the second last word of the control buffer, and the hash
    that it is mixed into. *)
Definition emit_cookie_hash (t : InstructionInstrumentationState) (u32_type : Z) (hash : instref)
    : BM (Z * instref) :=
  len ← add_op u32_type OpArrayLength;
  _ ← add_operands len [mret (global_nan_inf_control_var_id t); mret 0];
  len_minus_2 ← add_op u32_type OpISub;
  _ ← add_operands len_minus_2 [result_of len; makeUintConstant 2];
  ptr ← makePointer StorageClassStorageBuffer u32_type;
  cookie_chain ← add_op ptr OpAccessChain;
  _ ← add_operands cookie_chain [mret (global_nan_inf_control_var_id t); makeUintConstant 0;
                                 result_of len_minus_2];
  load ← add_op u32_type OpLoad;
  _ ← add_operands load [result_of cookie_chain];
  value_id ← result_of load;
  mul ← add_op u32_type OpIMul;
  _ ← add_operands mul [mret value_id; makeUintConstant 51329];
  ext_hash ← add_op u32_type OpBitwiseXor;
  _ ← add_operands ext_hash [result_of hash; result_of mul];
  mret (value_id, ext_hash).

(** What the invocation that set the bit writes into the payload buffer. *)
Definition emit_payload (t : InstructionInstrumentationState) (func : funcref) (u32_type value_id : Z)
    (mask_id control_mask_id control_chain_id : Z) : BM unit :=
  let h := shader_hash (info t) in
  let semantics := makeUintConstant (Z.lor MemorySemanticsUniformMemoryMask MemorySemanticsAcquireReleaseMask) in
  uvec4_type ← makeVectorType u32_type 4;
  composite ← add_op uvec4_type OpCompositeConstruct;
  shift_16 ← add_op u32_type OpShiftLeftLogical;
  ptr ← makePointer StorageClassStorageBuffer uvec4_type;
  access_chain ← add_op ptr OpAccessChain;
  store_op ← add_op_no_result OpStore;
  barrier_op ← add_op_no_result OpMemoryBarrier;
  atomic_or ← add_op u32_type OpAtomicOr;
  barrier_op2 ← add_op_no_result OpMemoryBarrier;
  _ ← add_operands composite [makeUintConstant (hash_lo h); makeUintConstant (hash_hi h);
                              getParamId func 1; mret value_id];
  _ ← add_operands shift_16 [mret control_mask_id; makeUintConstant 16];
  _ ← add_operands access_chain [mret (global_nan_inf_data_var_id t); makeUintConstant 0; mret mask_id];
  _ ← add_operands store_op [result_of access_chain; result_of composite];
  b ← gets (fun b => b);
  _ ← (if hasCapability b CapabilityVulkanMemoryModel
       then add_operand store_op MemoryAccessNonPrivatePointerMask else mret tt);
  _ ← add_operands barrier_op [getAtomicDeviceScopeId; semantics];
  _ ← add_operands barrier_op2 [getAtomicDeviceScopeId; semantics];
  add_operands atomic_or [mret control_chain_id; getAtomicDeviceScopeId; makeUintConstant 0;
                          result_of shift_16].

(** Each site reports once: it sets its bit in the control buffer and writes its value when the
    bit was clear.  A [value_id] of zero asks for the dispatch id instead of a value. *)
Definition emit_instrumentation_hash (t : InstructionInstrumentationState) (func : funcref)
    (value_id instruction_id : Z) : BM unit :=
  let h := shader_hash (info t) in
  write_payload_path ← new_block_in func;
  merge_payload_path ← new_block_in func;
  u32_type ← makeUintType 32;
  bool_type ← makeBoolType;
  prime_mul ← add_op u32_type OpIMul;
  hash ← add_op u32_type OpBitwiseXor;
  _ ← add_operands prime_mul [mret instruction_id; makeUintConstant 97];
  _ ← add_operands hash [result_of prime_mul; makeUintConstant (Z.lxor (hash_lo h) (hash_hi h))];
  vh ← (if value_id =? 0 then emit_cookie_hash t u32_type hash else mret (value_id, hash));
  let '(value_id, hash) := (vh : Z * instref) in
  payload_size ← add_op u32_type OpArrayLength;
  sub_1 ← add_op u32_type OpISub;
  mask ← add_op u32_type OpBitwiseAnd;
  control_word ← add_op u32_type OpShiftRightLogical;
  control_bit ← add_op u32_type OpBitwiseAnd;
  control_mask ← add_op u32_type OpShiftLeftLogical;
  ptr ← makePointer StorageClassStorageBuffer u32_type;
  access_chain ← add_op ptr OpAccessChain;
  atomic_or ← add_op u32_type OpAtomicOr;
  atomic_result_mask ← add_op u32_type OpBitwiseAnd;
  atomic_need_write ← add_op bool_type OpIEqual;
  store_op ← add_op_no_result OpStore;
  _ ← add_operands payload_size [mret (global_nan_inf_data_var_id t); mret 0];
  _ ← add_operands sub_1 [result_of payload_size; makeUintConstant 1];
  _ ← add_operands mask [result_of hash; result_of sub_1];
  mask_id ← result_of mask;
  _ ← add_operands control_word [result_of mask; makeUintConstant 4];
  _ ← add_operands control_bit [result_of mask; makeUintConstant 15];
  _ ← add_operands control_mask [makeUintConstant 1; result_of control_bit];
  _ ← add_operands access_chain [mret (global_nan_inf_control_var_id t); makeUintConstant 0;
                                 result_of control_word];
  _ ← add_operands atomic_or [result_of access_chain; getAtomicDeviceScopeId; makeUintConstant 0;
                              result_of control_mask];
  _ ← add_operands atomic_result_mask [result_of atomic_or; result_of control_mask];
  _ ← add_operands atomic_need_write [result_of atomic_result_mask; makeUintConstant 0];
  _ ← add_operands store_op [mret (should_report_instrumentation_id t); makeBoolConstant false];
  cond_id ← result_of atomic_need_write;
  control_mask_id ← result_of control_mask;
  control_chain_id ← result_of access_chain;
  _ ← createSelectionMerge merge_payload_path 0;
  _ ← createConditionalBranch cond_id write_payload_path merge_payload_path;
  _ ← setBuildPoint write_payload_path;
  _ ← emit_payload t func u32_type value_id mask_id control_mask_id control_chain_id;
  _ ← createBranch merge_payload_path;
  setBuildPoint merge_payload_path.

(** The bytes of ["ABRTMSG"], the terminator included. *)
Definition abort_message : list Z := [65; 66; 82; 84; 77; 83; 71; 0].

Definition emit_shader_abort (t : InstructionInstrumentationState) (value_id instruction_id : Z) : BM unit :=
  let h := shader_hash (info t) in
  char_type ← makeIntType 8;
  _ ← addCapability CapabilityInt8;
  n ← makeUintConstant 8;
  char_array_type ← makeArrayType char_type n 0;
  n ← makeUintConstant 8;
  char_decorated_array_type ← makeArrayType char_type n 1;
  _ ← addDecoration char_decorated_array_type DecorationArrayStride 1;
  _ ← addDecoration char_array_type DecorationUTFEncodedKHR (-1);
  _ ← addDecoration char_decorated_array_type DecorationUTFEncodedKHR (-1);
  u32_type ← makeUintType 32;
  logical_type_id ← makeStructType [char_array_type; u32_type; u32_type; u32_type; u32_type] "AbortLogical";
  physical_type_id ← makeStructType [char_decorated_array_type; u32_type; u32_type; u32_type; u32_type]
                       "AbortPhysical";
  _ ← addMemberDecoration physical_type_id 0 DecorationOffset 0;
  _ ← addMemberDecoration physical_type_id 1 DecorationOffset 8;
  _ ← addMemberDecoration physical_type_id 2 DecorationOffset 12;
  _ ← addMemberDecoration physical_type_id 3 DecorationOffset 16;
  _ ← addMemberDecoration physical_type_id 4 DecorationOffset 20;
  composite ← add_op logical_type_id OpCompositeConstruct;
  _ ← add_operands composite [addConstantData char_array_type abort_message;
        makeUintConstant (hash_lo h); makeUintConstant (hash_hi h);
        (if value_id =? 0 then makeUintConstant 0 else mret value_id); mret instruction_id];
  _ ← addCapability CapabilityConstantDataKHR;
  _ ← addCapability CapabilityAbortKHR;
  _ ← addExtension "SPV_KHR_abort";
  _ ← addExtension "SPV_KHR_constant_data";
  abort_op ← add_op_no_result OpAbortKHR;
  add_operands abort_op [mret physical_type_id; result_of composite].

(** [func->getId()] *)
Definition function_id (f : funcref) : BM Z := x ← function_at f; mret (resultId (functionInstruction x)).

(** [void AssumeTrue(bool value, uint inst[, uint code])] *)
Definition build_assume_true_call_function (t : InstructionInstrumentationState) (has_code_id : bool) : BM Z :=
  current_build_point ← gets buildPoint;
  bool_type ← makeBoolType;
  u32_type ← makeUintType 32;
  void_type ← makeVoidType;
  fe ← makeFunctionEntry void_type (Some "AssumeTrue"%string)
         ([bool_type; u32_type] ++ if has_code_id then [u32_type] else []);
  let '(func, entry) := (fe : funcref * blockref) in
  value ← getParamId func 0;
  _ ← addName value "value";
  inst ← getParamId func 1;
  _ ← addName inst "inst";
  code ← (if has_code_id then c ← getParamId func 2; _ ← addName c "code"; mret c else mret 0);
  merge_block ← new_block_in func;
  fail_block ← new_block_in func;
  _ ← setBuildPoint entry;
  should_report ← add_op bool_type OpLogicalNot;
  _ ← add_operands should_report [mret value];
  cond_id ← (if shader_abort (info t) then result_of should_report
             else loaded ← add_op bool_type OpLoad;
                  _ ← add_operands loaded [mret (should_report_instrumentation_id t)];
                  will_report ← add_op bool_type OpLogicalAnd;
                  _ ← add_operands will_report [result_of should_report; result_of loaded];
                  result_of will_report);
  _ ← createSelectionMerge merge_block 0;
  _ ← createConditionalBranch cond_id fail_block merge_block;
  _ ← setBuildPoint fail_block;
  _ ← (if shader_abort (info t) then emit_shader_abort t code inst
       else _ ← emit_instrumentation_hash t func code inst; createBranch merge_block);
  _ ← setBuildPoint merge_block;
  _ ← makeReturn false 0;
  _ ← modify (set_buildPoint current_build_point);
  function_id func.

(** [void NanInfInstrumentation(float value, uint inst)] *)
Definition build_nan_inf_instrument_call_function (t : InstructionInstrumentationState) (type_id : Z) : BM Z :=
  current_build_point ← gets buildPoint;
  bool_type ← makeBoolType;
  u32_type ← makeUintType 32;
  void_type ← makeVoidType;
  fe ← makeFunctionEntry void_type (Some "NanInfInstrumentation"%string) [type_id; u32_type];
  let '(func, entry) := (fe : funcref * blockref) in
  merge_block ← new_block_in func;
  first_nan_inf_path ← new_block_in func;
  value ← getParamId func 0;
  _ ← addName value "value";
  inst ← getParamId func 1;
  _ ← addName inst "inst";
  _ ← setBuildPoint entry;
  is_nan ← getUniqueId;
  is_inf ← getUniqueId;
  is_not_normal ← getUniqueId;
  should_report ← getUniqueId;
  will_report ← getUniqueId;
  _ ← addInstruction entry (mkInstruction is_nan bool_type OpIsNan [value]);
  _ ← addInstruction entry (mkInstruction is_inf bool_type OpIsInf [value]);
  _ ← addInstruction entry (mkInstruction is_not_normal bool_type OpLogicalOr [is_nan; is_inf]);
  _ ← addInstruction entry (mkInstruction should_report bool_type OpLoad [should_report_instrumentation_id t]);
  _ ← addInstruction entry (mkInstruction will_report bool_type OpLogicalAnd [should_report; is_not_normal]);
  _ ← createSelectionMerge merge_block 0;
  _ ← createConditionalBranch will_report first_nan_inf_path merge_block;
  _ ← setBuildPoint first_nan_inf_path;
  b ← gets (fun b => b);
  width ← lift (getScalarTypeWidth b type_id);
  value_id ← (if width =? 32 then mret value
              else conv ← getUniqueId;
                   f32 ← makeFloatType 32 (-1);
                   _ ← addInstruction first_nan_inf_path (mkInstruction conv f32 OpFConvert [value]);
                   mret conv);
  bitcast ← getUniqueId;
  _ ← addInstruction first_nan_inf_path (mkInstruction bitcast u32_type OpBitcast [value_id]);
  _ ← emit_instrumentation_hash t func bitcast inst;
  _ ← createBranch merge_block;
  _ ← setBuildPoint merge_block;
  _ ← makeReturn false 0;
  _ ← modify (set_buildPoint current_build_point);
  function_id func.
