(* ===== verification/SPIRVModule.v ===== *)
(** The SPIR-V module (spirv_module.hpp, spirv_module.cpp): its state, the classification
    of opcodes, allocation of ids and operations, variables and builtins, and the helper
    functions that discard and demote call.

    The routines are [MM] computations over [SPIRVModule]; those of the builder run on its
    part of the state.  The remaining helper functions and the assembly of the binary
    ([Builder::dump]) are not modelled. *)
From S2P Require Import Prelude.
From S2P Require Import IR.
From S2P Require Import SpvBuilder.
From S2P Require Import Instrumentation.
Local Open Scope Z_scope.

(** Contents of memory that was not written to yet (see [with_memory] in IR.v). *)
Class FreshMemory := fresh_words : nat -> list Z.

(** * Opcodes *)

Definition PseudoOpReturnCond : Z := 0x100000.
Definition PseudoOpInstrumentExternallyVisibleStore : Z := 0x100001.
Definition PseudoOpMaskedLoad : Z := 0x100002.
Definition PseudoOpMaskedStore : Z := 0x100003.

Definition opcode_has_side_effect_and_result (opcode : Z) : bool :=
  bool_decide (opcode ∈ [OpAtomicIAdd; OpAtomicIDecrement; OpAtomicIIncrement; OpAtomicISub; OpAtomicAnd;
    OpAtomicOr; OpAtomicXor; OpAtomicUMax; OpAtomicUMin; OpAtomicSMax; OpAtomicSMin; OpAtomicFAddEXT;
    OpAtomicFMaxEXT; OpAtomicFMinEXT; OpAtomicCompareExchange; OpAtomicCompareExchangeWeak;
    OpAtomicExchange; OpAtomicStore; OpFunctionCall]).

Definition opcode_is_denorm_invariant (opcode : Z) : bool :=
  bool_decide (opcode ∈ [OpCompositeConstruct; OpCompositeExtract; OpCompositeInsert;
    OpVectorExtractDynamic; OpVectorInsertDynamic; OpBitcast]).

(** Opcodes affected by the other invocations of the subgroup. *)
Definition opcode_is_control_dependent (opcode : Z) : bool :=
  bool_decide (opcode ∈ [
    (* derivatives *)
    OpDPdx; OpDPdxCoarse; OpDPdxFine; OpDPdy; OpDPdyCoarse; OpDPdyFine; OpFwidth; OpFwidthCoarse;
    OpFwidthFine;
    (* implicit LOD *)
    OpImageSampleImplicitLod; OpImageSampleDrefImplicitLod; OpImageSampleProjImplicitLod;
    OpImageSampleProjDrefImplicitLod; OpImageSparseSampleImplicitLod;
    OpImageSparseSampleDrefImplicitLod; OpImageSparseSampleProjImplicitLod;
    OpImageSparseSampleProjDrefImplicitLod; OpImageQueryLod; OpImageDrefGather; OpImageGather;
    OpImageSparseDrefGather; OpImageSparseGather;
    (* subgroups *)
    OpGroupNonUniformElect; OpGroupNonUniformAll; OpGroupNonUniformAny; OpGroupNonUniformAllEqual;
    OpGroupNonUniformBroadcast; OpGroupNonUniformBroadcastFirst; OpGroupNonUniformBallot;
    OpGroupNonUniformInverseBallot; OpGroupNonUniformBallotBitExtract;
    OpGroupNonUniformBallotBitCount; OpGroupNonUniformBallotFindLSB; OpGroupNonUniformBallotFindMSB;
    OpGroupNonUniformShuffle; OpGroupNonUniformShuffleXor; OpGroupNonUniformShuffleUp;
    OpGroupNonUniformShuffleDown; OpGroupNonUniformIAdd; OpGroupNonUniformFAdd;
    OpGroupNonUniformIMul; OpGroupNonUniformFMul; OpGroupNonUniformSMin; OpGroupNonUniformUMin;
    OpGroupNonUniformFMin; OpGroupNonUniformSMax; OpGroupNonUniformUMax; OpGroupNonUniformFMax;
    OpGroupNonUniformBitwiseAnd; OpGroupNonUniformBitwiseOr; OpGroupNonUniformBitwiseXor;
    OpGroupNonUniformLogicalAnd; OpGroupNonUniformLogicalOr; OpGroupNonUniformLogicalXor;
    OpGroupNonUniformQuadBroadcast; OpGroupNonUniformQuadSwap;
    (* barriers, helper functions, cooperative matrices *)
    OpControlBarrier; OpMemoryBarrier; OpFunctionCall;
    OpCooperativeMatrixLoadKHR; OpCooperativeMatrixStoreKHR; OpCooperativeMatrixMulAddKHR]).

(** * Execution models and builtins *)

Definition ExecutionModelFragment : Z := 4.
Definition ExecutionModelRayGenerationKHR : Z := 5313.
Definition ExecutionModelIntersectionKHR : Z := 5314.
Definition ExecutionModelAnyHitKHR : Z := 5315.
Definition ExecutionModelClosestHitKHR : Z := 5316.
Definition ExecutionModelMissKHR : Z := 5317.
Definition ExecutionModelCallableKHR : Z := 5318.
Definition ExecutionModelTaskEXT : Z := 5364.
Definition ExecutionModelMeshEXT : Z := 5365.
Definition ExecutionModelMax : Z := 0x7fffffff.

Definition BuiltInPrimitiveId : Z := 7.
Definition BuiltInInvocationId : Z := 8.
Definition BuiltInInstanceId : Z := 6.
Definition BuiltInTessCoord : Z := 13.
Definition BuiltInPatchVertices : Z := 14.
Definition BuiltInSampleId : Z := 18.
Definition BuiltInSampleMask : Z := 20.
Definition BuiltInHelperInvocation : Z := 23.
Definition BuiltInNumWorkgroups : Z := 24.
Definition BuiltInWorkgroupId : Z := 26.
Definition BuiltInLocalInvocationId : Z := 27.
Definition BuiltInGlobalInvocationId : Z := 28.
Definition BuiltInLocalInvocationIndex : Z := 29.
Definition BuiltInSubgroupSize : Z := 36.
Definition BuiltInNumSubgroups : Z := 38.
Definition BuiltInSubgroupId : Z := 40.
Definition BuiltInSubgroupLocalInvocationId : Z := 41.
Definition BuiltInVertexIndex : Z := 42.
Definition BuiltInInstanceIndex : Z := 43.
Definition BuiltInSubgroupEqMask : Z := 4416.
Definition BuiltInSubgroupGeMask : Z := 4417.
Definition BuiltInSubgroupGtMask : Z := 4418.
Definition BuiltInSubgroupLeMask : Z := 4419.
Definition BuiltInSubgroupLtMask : Z := 4420.
Definition BuiltInBaseVertex : Z := 4424.
Definition BuiltInBaseInstance : Z := 4425.
Definition BuiltInDrawIndex : Z := 4426.
Definition BuiltInPrimitiveShadingRateKHR : Z := 4432.
Definition BuiltInViewIndex : Z := 4440.
Definition BuiltInShadingRateKHR : Z := 4444.
Definition BuiltInFullyCoveredEXT : Z := 5264.
Definition BuiltInLaunchIdKHR : Z := 5319.
Definition BuiltInLaunchSizeKHR : Z := 5320.
Definition BuiltInWorldRayOriginKHR : Z := 5321.
Definition BuiltInWorldRayDirectionKHR : Z := 5322.
Definition BuiltInObjectRayOriginKHR : Z := 5323.
Definition BuiltInObjectRayDirectionKHR : Z := 5324.
Definition BuiltInRayTminKHR : Z := 5325.
Definition BuiltInRayTmaxKHR : Z := 5326.
Definition BuiltInInstanceCustomIndexKHR : Z := 5327.
Definition BuiltInObjectToWorldKHR : Z := 5330.
Definition BuiltInWorldToObjectKHR : Z := 5331.
Definition BuiltInHitKindKHR : Z := 5333.
Definition BuiltInIncomingRayFlagsKHR : Z := 5351.
Definition BuiltInRayGeometryIndexKHR : Z := 5352.
Definition BuiltInClusterIDNV : Z := 5436.

(** * class SPIRVModule *)

Record SPIRVModule := mkModule {
  builder : Builder;
  operation_pool : list Operation;
  entry_function : option funcref;
  active_function : option funcref;
  entry_point : list Z;
  discard_function : option funcref;
  discard_function_cond : option funcref;
  demote_function_cond : option funcref;
  discard_state_var_id : Z;
  execution_model : Z;
  supports_demote : bool;
  min16float_min_spec_simulation : bool;
  builtins_input : gmap Z Z;
  id_to_builtin_input : gmap Z Z;
  builtins_output : gmap Z Z;
  id_to_builtin_output : gmap Z Z;
  mark_error : bool;
  override_spirv_version : Z;
  instruction_instrumentation : InstructionInstrumentationState;
}.

Definition set_builder (x : Builder) (m : SPIRVModule) : SPIRVModule := mkModule x
    (operation_pool m) (entry_function m) (active_function m) (entry_point m) (discard_function m)
    (discard_function_cond m) (demote_function_cond m) (discard_state_var_id m)
    (execution_model m) (supports_demote m) (min16float_min_spec_simulation m) (builtins_input m)
    (id_to_builtin_input m) (builtins_output m) (id_to_builtin_output m) (mark_error m)
    (override_spirv_version m) (instruction_instrumentation m).
Definition set_operation_pool (x : list Operation) (m : SPIRVModule) : SPIRVModule := mkModule
    (builder m) x (entry_function m) (active_function m) (entry_point m) (discard_function m)
    (discard_function_cond m) (demote_function_cond m) (discard_state_var_id m)
    (execution_model m) (supports_demote m) (min16float_min_spec_simulation m) (builtins_input m)
    (id_to_builtin_input m) (builtins_output m) (id_to_builtin_output m) (mark_error m)
    (override_spirv_version m) (instruction_instrumentation m).
Definition set_entry_function (x : option funcref) (m : SPIRVModule) : SPIRVModule := mkModule
    (builder m) (operation_pool m) x (active_function m) (entry_point m) (discard_function m)
    (discard_function_cond m) (demote_function_cond m) (discard_state_var_id m)
    (execution_model m) (supports_demote m) (min16float_min_spec_simulation m) (builtins_input m)
    (id_to_builtin_input m) (builtins_output m) (id_to_builtin_output m) (mark_error m)
    (override_spirv_version m) (instruction_instrumentation m).
Definition set_active_function (x : option funcref) (m : SPIRVModule) : SPIRVModule := mkModule
    (builder m) (operation_pool m) (entry_function m) x (entry_point m) (discard_function m)
    (discard_function_cond m) (demote_function_cond m) (discard_state_var_id m)
    (execution_model m) (supports_demote m) (min16float_min_spec_simulation m) (builtins_input m)
    (id_to_builtin_input m) (builtins_output m) (id_to_builtin_output m) (mark_error m)
    (override_spirv_version m) (instruction_instrumentation m).
Definition set_entry_point (x : list Z) (m : SPIRVModule) : SPIRVModule := mkModule (builder m)
    (operation_pool m) (entry_function m) (active_function m) x (discard_function m)
    (discard_function_cond m) (demote_function_cond m) (discard_state_var_id m)
    (execution_model m) (supports_demote m) (min16float_min_spec_simulation m) (builtins_input m)
    (id_to_builtin_input m) (builtins_output m) (id_to_builtin_output m) (mark_error m)
    (override_spirv_version m) (instruction_instrumentation m).
Definition set_discard_function (x : option funcref) (m : SPIRVModule) : SPIRVModule := mkModule
    (builder m) (operation_pool m) (entry_function m) (active_function m) (entry_point m) x
    (discard_function_cond m) (demote_function_cond m) (discard_state_var_id m)
    (execution_model m) (supports_demote m) (min16float_min_spec_simulation m) (builtins_input m)
    (id_to_builtin_input m) (builtins_output m) (id_to_builtin_output m) (mark_error m)
    (override_spirv_version m) (instruction_instrumentation m).
Definition set_discard_function_cond (x : option funcref) (m : SPIRVModule) : SPIRVModule :=
    mkModule (builder m) (operation_pool m) (entry_function m) (active_function m) (entry_point m)
    (discard_function m) x (demote_function_cond m) (discard_state_var_id m) (execution_model m)
    (supports_demote m) (min16float_min_spec_simulation m) (builtins_input m)
    (id_to_builtin_input m) (builtins_output m) (id_to_builtin_output m) (mark_error m)
    (override_spirv_version m) (instruction_instrumentation m).
Definition set_demote_function_cond (x : option funcref) (m : SPIRVModule) : SPIRVModule :=
    mkModule (builder m) (operation_pool m) (entry_function m) (active_function m) (entry_point m)
    (discard_function m) (discard_function_cond m) x (discard_state_var_id m) (execution_model m)
    (supports_demote m) (min16float_min_spec_simulation m) (builtins_input m)
    (id_to_builtin_input m) (builtins_output m) (id_to_builtin_output m) (mark_error m)
    (override_spirv_version m) (instruction_instrumentation m).
Definition set_discard_state_var_id (x : Z) (m : SPIRVModule) : SPIRVModule := mkModule
    (builder m) (operation_pool m) (entry_function m) (active_function m) (entry_point m)
    (discard_function m) (discard_function_cond m) (demote_function_cond m) x (execution_model m)
    (supports_demote m) (min16float_min_spec_simulation m) (builtins_input m)
    (id_to_builtin_input m) (builtins_output m) (id_to_builtin_output m) (mark_error m)
    (override_spirv_version m) (instruction_instrumentation m).
Definition set_execution_model (x : Z) (m : SPIRVModule) : SPIRVModule := mkModule (builder m)
    (operation_pool m) (entry_function m) (active_function m) (entry_point m) (discard_function m)
    (discard_function_cond m) (demote_function_cond m) (discard_state_var_id m) x
    (supports_demote m) (min16float_min_spec_simulation m) (builtins_input m)
    (id_to_builtin_input m) (builtins_output m) (id_to_builtin_output m) (mark_error m)
    (override_spirv_version m) (instruction_instrumentation m).
Definition set_supports_demote (x : bool) (m : SPIRVModule) : SPIRVModule := mkModule (builder m)
    (operation_pool m) (entry_function m) (active_function m) (entry_point m) (discard_function m)
    (discard_function_cond m) (demote_function_cond m) (discard_state_var_id m)
    (execution_model m) x (min16float_min_spec_simulation m) (builtins_input m)
    (id_to_builtin_input m) (builtins_output m) (id_to_builtin_output m) (mark_error m)
    (override_spirv_version m) (instruction_instrumentation m).
Definition set_min16float_min_spec_simulation (x : bool) (m : SPIRVModule) : SPIRVModule :=
    mkModule (builder m) (operation_pool m) (entry_function m) (active_function m) (entry_point m)
    (discard_function m) (discard_function_cond m) (demote_function_cond m)
    (discard_state_var_id m) (execution_model m) (supports_demote m) x (builtins_input m)
    (id_to_builtin_input m) (builtins_output m) (id_to_builtin_output m) (mark_error m)
    (override_spirv_version m) (instruction_instrumentation m).
Definition set_builtins_input (x : gmap Z Z) (m : SPIRVModule) : SPIRVModule := mkModule
    (builder m) (operation_pool m) (entry_function m) (active_function m) (entry_point m)
    (discard_function m) (discard_function_cond m) (demote_function_cond m)
    (discard_state_var_id m) (execution_model m) (supports_demote m)
    (min16float_min_spec_simulation m) x (id_to_builtin_input m) (builtins_output m)
    (id_to_builtin_output m) (mark_error m) (override_spirv_version m)
    (instruction_instrumentation m).
Definition set_id_to_builtin_input (x : gmap Z Z) (m : SPIRVModule) : SPIRVModule := mkModule
    (builder m) (operation_pool m) (entry_function m) (active_function m) (entry_point m)
    (discard_function m) (discard_function_cond m) (demote_function_cond m)
    (discard_state_var_id m) (execution_model m) (supports_demote m)
    (min16float_min_spec_simulation m) (builtins_input m) x (builtins_output m)
    (id_to_builtin_output m) (mark_error m) (override_spirv_version m)
    (instruction_instrumentation m).
Definition set_builtins_output (x : gmap Z Z) (m : SPIRVModule) : SPIRVModule := mkModule
    (builder m) (operation_pool m) (entry_function m) (active_function m) (entry_point m)
    (discard_function m) (discard_function_cond m) (demote_function_cond m)
    (discard_state_var_id m) (execution_model m) (supports_demote m)
    (min16float_min_spec_simulation m) (builtins_input m) (id_to_builtin_input m) x
    (id_to_builtin_output m) (mark_error m) (override_spirv_version m)
    (instruction_instrumentation m).
Definition set_id_to_builtin_output (x : gmap Z Z) (m : SPIRVModule) : SPIRVModule := mkModule
    (builder m) (operation_pool m) (entry_function m) (active_function m) (entry_point m)
    (discard_function m) (discard_function_cond m) (demote_function_cond m)
    (discard_state_var_id m) (execution_model m) (supports_demote m)
    (min16float_min_spec_simulation m) (builtins_input m) (id_to_builtin_input m)
    (builtins_output m) x (mark_error m) (override_spirv_version m)
    (instruction_instrumentation m).
Definition set_mark_error (x : bool) (m : SPIRVModule) : SPIRVModule := mkModule (builder m)
    (operation_pool m) (entry_function m) (active_function m) (entry_point m) (discard_function m)
    (discard_function_cond m) (demote_function_cond m) (discard_state_var_id m)
    (execution_model m) (supports_demote m) (min16float_min_spec_simulation m) (builtins_input m)
    (id_to_builtin_input m) (builtins_output m) (id_to_builtin_output m) x
    (override_spirv_version m) (instruction_instrumentation m).
Definition set_override_spirv_version (x : Z) (m : SPIRVModule) : SPIRVModule := mkModule
    (builder m) (operation_pool m) (entry_function m) (active_function m) (entry_point m)
    (discard_function m) (discard_function_cond m) (demote_function_cond m)
    (discard_state_var_id m) (execution_model m) (supports_demote m)
    (min16float_min_spec_simulation m) (builtins_input m) (id_to_builtin_input m)
    (builtins_output m) (id_to_builtin_output m) (mark_error m) x (instruction_instrumentation m).
Definition set_instruction_instrumentation (x : InstructionInstrumentationState) (m : SPIRVModule)
    : SPIRVModule := mkModule (builder m) (operation_pool m) (entry_function m)
    (active_function m) (entry_point m) (discard_function m) (discard_function_cond m)
    (demote_function_cond m) (discard_state_var_id m) (execution_model m) (supports_demote m)
    (min16float_min_spec_simulation m) (builtins_input m) (id_to_builtin_input m)
    (builtins_output m) (id_to_builtin_output m) (mark_error m) (override_spirv_version m) x.

(** The member initialisers. *)
Definition SPIRVModule_new : SPIRVModule := mkModule Builder_new [] None None [] None None None 0
  ExecutionModelMax false false ∅ ∅ ∅ ∅ false 0 InstructionInstrumentationState_new.

Definition MM : Type -> Type := M SPIRVModule.

Definition on_builder {A} (m : BM A) : MM A := zoom builder set_builder m.
Definition ask_builder {A} (f : Builder -> res A) : MM A := b ← gets builder; lift (f b).

Definition allocate_id : MM Z := on_builder getUniqueId.
Definition allocate_ids (count : Z) : MM Z := on_builder (getUniqueIds count).

(** [operation_pool.allocate(op, id, type_id)] *)
Definition allocate_op `{FreshMemory} (code id type_id : Z) : MM opref :=
  r ← gets (fun m => length (operation_pool m));
  _ ← modify (fun m => set_operation_pool (operation_pool m ++ [Operation_new fresh_words code id type_id]) m);
  mret r.

Definition op_at (r : opref) : MM Operation := o ← gets (fun m => operation_pool m !! r); derefM o.

Definition update_op (r : opref) (f : Operation -> Operation) : MM unit :=
  o ← op_at r; modify (fun m => set_operation_pool (<[r := f o]> (operation_pool m)) m).

(** * Variables *)

Definition execution_model_is_ray_tracing (m : SPIRVModule) : bool :=
  bool_decide (execution_model m ∈ [ExecutionModelRayGenerationKHR; ExecutionModelAnyHitKHR;
    ExecutionModelIntersectionKHR; ExecutionModelMissKHR; ExecutionModelClosestHitKHR;
    ExecutionModelCallableKHR]).

Definition Version_1_3 : Z := 0x00010300.
Definition Version_1_4 : Z := 0x00010400.

Definition spirv_requires_14 (m : SPIRVModule) : bool :=
  if negb (override_spirv_version m =? 0) then Version_1_4 <=? override_spirv_version m
  else execution_model_is_ray_tracing m || (execution_model m =? ExecutionModelMeshEXT) ||
       (execution_model m =? ExecutionModelTaskEXT).

Definition SPIRVModule_set_override_spirv_version (version : Z) : MM unit :=
  modify (fun m => set_override_spirv_version (Z.max (override_spirv_version m) version) m).

Definition register_active_variable (storage id : Z) : MM unit :=
  m ← gets (fun m => m);
  let register_entry_point :=
    if spirv_requires_14 m then negb (storage =? StorageClassFunction)
    else (storage =? StorageClassOutput) || (storage =? StorageClassInput) in
  if register_entry_point then modify (fun m => set_entry_point (entry_point m ++ [id]) m) else mret tt.

Definition create_variable_with_initializer (storage type_id initializer : Z) (name : option string)
    : MM Z :=
  id ← on_builder (createVariableWithInitializer storage type_id initializer name);
  _ ← register_active_variable storage id;
  mret id.

Definition create_variable (storage type_id : Z) (name : option string) : MM Z :=
  id ← on_builder (createVariable storage type_id name);
  _ ← register_active_variable storage id;
  mret id.

(** The type of a builtin and whether it needs flat interpolation. *)
Definition get_type_for_builtin (builtin : Z) : BM (Z * bool) :=
  if builtin =? BuiltInSampleMask then
    c ← makeUintConstant 1; t ← makeUintType 32; a ← makeArrayType t c 0; mret (a, true)
  else if builtin =? BuiltInTessCoord then
    t ← makeFloatType 32 (-1); v ← makeVectorType t 3; mret (v, false)
  else if bool_decide (builtin ∈ [BuiltInLocalInvocationIndex; BuiltInDrawIndex; BuiltInSampleId;
      BuiltInVertexIndex; BuiltInInstanceIndex; BuiltInBaseVertex; BuiltInBaseInstance;
      BuiltInInvocationId; BuiltInPrimitiveId; BuiltInShadingRateKHR; BuiltInPrimitiveShadingRateKHR;
      BuiltInViewIndex; BuiltInPatchVertices]) then
    t ← makeUintType 32; mret (t, true)
  else if bool_decide (builtin ∈ [BuiltInSubgroupSize; BuiltInNumSubgroups;
      BuiltInSubgroupLocalInvocationId; BuiltInSubgroupId]) then
    _ ← addCapability CapabilityGroupNonUniform; t ← makeUintType 32; mret (t, true)
  else if bool_decide (builtin ∈ [BuiltInGlobalInvocationId; BuiltInLocalInvocationId;
      BuiltInWorkgroupId; BuiltInLaunchIdKHR; BuiltInLaunchSizeKHR; BuiltInNumWorkgroups]) then
    t ← makeUintType 32; v ← makeVectorType t 3; mret (v, false)
  else if bool_decide (builtin ∈ [BuiltInObjectRayOriginKHR; BuiltInWorldRayOriginKHR;
      BuiltInObjectRayDirectionKHR; BuiltInWorldRayDirectionKHR]) then
    t ← makeFloatType 32 (-1); v ← makeVectorType t 3; mret (v, false)
  else if bool_decide (builtin ∈ [BuiltInRayTminKHR; BuiltInRayTmaxKHR]) then
    t ← makeFloatType 32 (-1); mret (t, false)
  else if bool_decide (builtin ∈ [BuiltInWorldToObjectKHR; BuiltInObjectToWorldKHR]) then
    t ← makeFloatType 32 (-1); v ← makeMatrixType t 4 3; mret (v, false)
  else if bool_decide (builtin ∈ [BuiltInInstanceCustomIndexKHR; BuiltInInstanceId;
      BuiltInRayGeometryIndexKHR; BuiltInIncomingRayFlagsKHR; BuiltInHitKindKHR]) then
    t ← makeUintType 32; mret (t, true)
  else if bool_decide (builtin ∈ [BuiltInHelperInvocation; BuiltInFullyCoveredEXT]) then
    t ← makeBoolType; mret (t, false)
  else if builtin =? BuiltInClusterIDNV then t ← makeUintType 32; mret (t, false)
  else mret (0, false).

Definition register_builtin_shader_input (id builtin : Z) : MM unit :=
  modify (fun m => set_builtins_input (<[builtin := id]> (builtins_input m))
                     (set_id_to_builtin_input (<[id := builtin]> (id_to_builtin_input m)) m)).

Definition register_builtin_shader_output (id builtin : Z) : MM unit :=
  modify (fun m => set_builtins_output (<[builtin := id]> (builtins_output m))
                     (set_id_to_builtin_output (<[id := builtin]> (id_to_builtin_output m)) m)).

Definition query_builtin_shader_input (m : SPIRVModule) (id : Z) : option Z := id_to_builtin_input m !! id.
Definition query_builtin_shader_output (m : SPIRVModule) (id : Z) : option Z := id_to_builtin_output m !! id.
Definition has_builtin_shader_input (m : SPIRVModule) (builtin : Z) : bool :=
  bool_decide (is_Some (builtins_input m !! builtin)).
Definition has_builtin_shader_output (m : SPIRVModule) (builtin : Z) : bool :=
  bool_decide (is_Some (builtins_output m !! builtin)).

Definition builtin_requires_volatile (m : SPIRVModule) (builtin : Z) : bool :=
  if negb (execution_model_is_ray_tracing m) then false
  else if bool_decide (builtin ∈ [BuiltInSubgroupId; BuiltInSubgroupLocalInvocationId;
      BuiltInSubgroupEqMask; BuiltInSubgroupLtMask; BuiltInSubgroupLeMask; BuiltInSubgroupGtMask;
      BuiltInSubgroupGeMask]) then true
  else if builtin =? BuiltInRayTmaxKHR then execution_model m =? ExecutionModelIntersectionKHR
  else false.

Definition get_builtin_shader_input (builtin : Z) : MM Z :=
  found ← gets (fun m => builtins_input m !! builtin);
  match found with
  | Some id => mret id
  | None =>
      t ← on_builder (get_type_for_builtin builtin);
      let '(type_id, requires_flat) := (t : Z * bool) in
      var_id ← create_variable StorageClassInput type_id None;
      _ ← on_builder (addDecoration var_id DecorationBuiltIn builtin);
      m ← gets (fun m => m);
      _ ← (if builtin_requires_volatile m builtin &&
              negb (hasCapability (builder m) CapabilityVulkanMemoryModel)
           then on_builder (addDecoration var_id DecorationVolatile (-1)) else mret tt);
      _ ← (if requires_flat && (execution_model m =? ExecutionModelFragment)
           then on_builder (addDecoration var_id DecorationFlat (-1)) else mret tt);
      _ ← register_builtin_shader_input var_id builtin;
      mret var_id
  end.

Definition get_builtin_shader_output (m : SPIRVModule) (builtin : Z) : Z :=
  default 0 (builtins_output m !! builtin).

(** * Instructions, with the rewriting that instrumentation asks for *)

Definition set_instrumentation (f : InstructionInstrumentationState -> InstructionInstrumentationState)
    : MM unit :=
  modify (fun m => set_instruction_instrumentation (f (instruction_instrumentation m)) m).
Definition get_instrumentation : MM InstructionInstrumentationState := gets instruction_instrumentation.

(** A storage buffer that holds a runtime array. *)
Definition create_instrumentation_buffer (array_type : Z) (member block variable : string)
    (desc_set binding : Z) (offset_first : bool) : MM Z :=
  block_type ← on_builder (makeStructType [array_type] block);
  let name := on_builder (addMemberName block_type 0 member) in
  let offset := on_builder (addMemberDecoration block_type 0 DecorationOffset 0) in
  _ ← (if offset_first then _ ← offset; name else _ ← name; offset);
  _ ← on_builder (addDecoration block_type DecorationBlock (-1));
  id ← create_variable StorageClassStorageBuffer block_type (Some variable);
  _ ← on_builder (addDecoration id DecorationDescriptorSet desc_set);
  _ ← on_builder (addDecoration id DecorationBinding binding);
  mret id.

(** The variables that the reports use, made for the first of them. *)
Definition create_report_variables : MM unit :=
  t ← get_instrumentation;
  let i := info t in
  bool_type ← on_builder makeBoolType;
  c ← on_builder (makeBoolConstant true);
  report ← create_variable_with_initializer StorageClassPrivate bool_type c
             (Some "ShouldReportInstrumentation"%string);
  u32_type ← on_builder (makeUintType 32);
  uvec4_type ← on_builder (makeVectorType u32_type 4);
  u32_array_type ← on_builder (makeRuntimeArray u32_type);
  _ ← on_builder (addDecoration u32_array_type DecorationArrayStride 4);
  control ← create_instrumentation_buffer u32_array_type "atomics" "InstrumentationControlDataSSBO"
              "InstrumentationControlData" (control_desc_set i) (control_binding i) true;
  payload_data_array ← on_builder (makeRuntimeArray uvec4_type);
  _ ← on_builder (addDecoration payload_data_array DecorationArrayStride 16);
  data ← create_instrumentation_buffer payload_data_array "data" "InstrumentationDataSSBO"
           "InstrumentationData" (payload_desc_set i) (payload_binding i) false;
  set_instrumentation (set_report_vars report control data).

(** Which function reports a value of this type; none does for other floats. *)
Definition float_call_site (width : Z) : option CallSite :=
  if width =? 16 then Some CallFp16 else if width =? 32 then Some CallFp32
  else if width =? 64 then Some CallFp64 else None.

Definition add_instrumented_instruction (op : Z) (bb : blockref) (id code_id : Z) : MM unit :=
  t ← get_instrumentation;
  if (id =? 0) || negb (enabled (info t)) then mret tt
  else
    site ← (if op =? OpAssumeTrueKHR then mret (Some (Some CallAssumeTrue, 0))
            else type_id ← ask_builder (fun b => getTypeId b id);
                 c ← ask_builder (fun b => getTypeClass b type_id);
                 if negb (c =? OpTypeFloat) then mret None
                 else w ← ask_builder (fun b => getScalarTypeWidth b type_id);
                      mret (Some (float_call_site w, type_id)));
    match site : option (option CallSite * Z) with
    | None => mret tt
    | Some (call_id, type_id) =>
        _ ← (if (should_report_instrumentation_id t =? 0) &&
                (negb (op =? OpAssumeTrueKHR) || negb (shader_abort (info t)))
             then create_report_variables else mret tt);
        match call_id with
        | None => mret tt
        | Some site =>
            t ← get_instrumentation;
            _ ← (if call_id_at site t =? 0 then
                   f ← on_builder (if op =? OpAssumeTrueKHR
                         then build_assume_true_call_function t (negb (code_id =? 0))
                         else build_nan_inf_instrument_call_function t type_id);
                   set_instrumentation (set_call_id site f)
                 else mret tt);
            t ← get_instrumentation;
            if call_id_at site t =? 0 then mret tt
            else
              call ← on_builder getUniqueId;
              void_type ← on_builder makeVoidType;
              let count := u32 (instruction_count t + 1) in
              _ ← set_instrumentation (set_instruction_count count);
              c ← on_builder (makeUintConstant count);
              on_builder (addInstruction bb (mkInstruction call void_type OpFunctionCall
                ([call_id_at site t; id; c] ++
                 if (op =? OpAssumeTrueKHR) && negb (code_id =? 0) then [code_id] else [])))
        end
    end.

Definition set_result_id (id : Z) (i : Instruction) : Instruction :=
  mkInstruction id (typeId i) (opCode i) (operands i).

Definition add_instruction (bb : blockref) (inst : Instruction) : MM unit :=
  m ← gets (fun m => m);
  flush ← (if negb (resultId inst =? 0) && enabled (info (instruction_instrumentation m)) &&
              bool_decide (instrumentation_type (info (instruction_instrumentation m)) = FlushNaNToZero)
           then c ← ask_builder (fun b => getTypeClass b (typeId inst));
                mret ((c =? OpTypeFloat) && negb (opCode inst =? OpPhi))
           else mret false);
  if (flush : bool) then
    new_id ← on_builder getUniqueId;
    nan_id ← on_builder getUniqueId;
    null_const ← on_builder (makeNullConstant (typeId inst));
    bool_type ← on_builder makeBoolType;
    _ ← on_builder (addInstruction bb (set_result_id new_id inst));
    _ ← on_builder (addInstruction bb (mkInstruction nan_id bool_type OpIsNan [new_id]));
    on_builder (addInstruction bb
      (mkInstruction (resultId inst) (typeId inst) OpSelect [nan_id; null_const; new_id]))
  else
    _ ← on_builder (addInstruction bb inst);
    if enabled (info (instruction_instrumentation m)) &&
       bool_decide (instrumentation_type (info (instruction_instrumentation m)) = FullNanInf) &&
       negb (opCode inst =? OpPhi)
    then add_instrumented_instruction (opCode inst) bb (resultId inst) 0
    else mret tt.

(** * Discard and demote *)

Definition enable_shader_discard (support : bool) : MM unit :=
  _ ← modify (set_supports_demote support);
  m ← gets (fun m => m);
  if (discard_state_var_id m =? 0) && negb (supports_demote m) then
    p ← gets (fun m => buildPoint (builder m));
    t ← on_builder makeBoolType;
    id ← create_variable StorageClassPrivate t (Some "discard_state"%string);
    _ ← modify (set_discard_state_var_id id);
    f ← derefM (entry_function m);
    e ← on_builder (getEntryBlock f);
    _ ← on_builder (setBuildPoint e);
    v ← on_builder (makeBoolConstant false);
    _ ← on_builder (createStore v id);
    modify (fun m => set_builder (set_buildPoint p (builder m)) m)
  else mret tt.

Definition build_discard_call_early : MM unit :=
  v ← on_builder (makeBoolConstant true);
  id ← gets discard_state_var_id;
  on_builder (createStore v id).

(** [new spv::Block(builder.getUniqueId(), function)] *)
Definition fresh_block (f : funcref) : MM blockref := on_builder (id ← getUniqueId; new_Block id f).

(** The functions demote_cond and discard_cond: [if (cond) body; return;] *)
Definition build_cond_function (name : string) (body : blockref -> MM unit) : MM funcref :=
  v ← on_builder makeVoidType;
  t ← on_builder makeBoolType;
  e ← on_builder (makeFunctionEntry v (Some name) [t]);
  let '(f, entry) := (e : funcref * blockref) in
  true_block ← fresh_block f;
  false_block ← fresh_block f;
  _ ← on_builder (setBuildPoint entry);
  _ ← on_builder (createSelectionMerge false_block 0);
  p ← on_builder (getParamId f 0);
  _ ← on_builder (createConditionalBranch p true_block false_block);
  _ ← body true_block;
  _ ← on_builder (createBranch false_block);
  _ ← on_builder (setBuildPoint false_block);
  _ ← on_builder (makeReturn false 0);
  mret f.

Definition build_demote_call_cond (cond : Z) : MM unit :=
  p ← gets (fun m => buildPoint (builder m));
  found ← gets demote_function_cond;
  f ← match found with
      | Some f => mret f
      | None =>
          f ← build_cond_function "demote_cond" (fun true_block =>
                _ ← add_instruction true_block (mkInstruction 0 0 OpDemoteToHelperInvocationEXT []);
                on_builder (setBuildPoint true_block));
          _ ← modify (set_demote_function_cond (Some f));
          mret f
      end;
  _ ← modify (fun m => set_builder (set_buildPoint p (builder m)) m);
  _ ← on_builder (createFunctionCall f [cond]);
  mret tt.

Definition build_discard_call_early_cond (cond : Z) : MM unit :=
  p ← gets (fun m => buildPoint (builder m));
  found ← gets discard_function_cond;
  f ← match found with
      | Some f => mret f
      | None =>
          f ← build_cond_function "discard_cond" (fun true_block =>
                _ ← on_builder (setBuildPoint true_block);
                build_discard_call_early);
          _ ← modify (set_discard_function_cond (Some f));
          mret f
      end;
  _ ← modify (fun m => set_builder (set_buildPoint p (builder m)) m);
  _ ← on_builder (createFunctionCall f [cond]);
  mret tt.

Definition build_discard_call_exit : MM unit :=
  p ← gets (fun m => buildPoint (builder m));
  found ← gets discard_function;
  f ← match found with
      | Some f => mret f
      | None =>
          v ← on_builder makeVoidType;
          e ← on_builder (makeFunctionEntry v (Some "discard_exit"%string) []);
          let '(f, entry) := (e : funcref * blockref) in
          true_block ← fresh_block f;
          false_block ← fresh_block f;
          _ ← on_builder (setBuildPoint entry);
          id ← gets discard_state_var_id;
          loaded_state ← on_builder (createLoad id);
          _ ← on_builder (createSelectionMerge false_block 0);
          _ ← on_builder (createConditionalBranch loaded_state true_block false_block);
          _ ← add_instruction true_block (mkInstruction 0 0 OpKill []);
          _ ← on_builder (setBuildPoint false_block);
          _ ← on_builder (makeReturn false 0);
          _ ← modify (set_discard_function (Some f));
          mret f
      end;
  _ ← modify (fun m => set_builder (set_buildPoint p (builder m)) m);
  _ ← on_builder (createFunctionCall f []);
  mret tt.

(** * The result of a conversion *)

(** [finalize_spirv]: the second word of the binary is the version.  [dump] is the
    assembler of the builder; the result tells whether the binary may be used. *)
Definition finalize_spirv (dump : Builder -> list Z) (m : SPIRVModule) : list Z * bool * SPIRVModule :=
  let m := set_mark_error false m in
  let spirv := dump (builder m) in
  let version := if negb (override_spirv_version m =? 0) then override_spirv_version m
                 else if spirv_requires_14 m then Version_1_4 else Version_1_3 in
  let spirv := if 2 <=? zlength spirv then <[1%nat := version]> spirv else spirv in
  (spirv, negb (mark_error m), m).
