(* ===== verification/BDAValidation.v ===== *)
(** The functions that check buffer accesses for races (spirv_module_instrumentation.cpp): each
    access sets bits in a Bloom filter in memory and looks for the bits of conflicting ones.

    These routines generate SPIR-V.  BDATheorems.v evaluates what they generate. *)
From S2P Require Import Prelude.
From S2P Require Import SpvBuilder.
From S2P Require Import Instrumentation.
From S2P Require Import SPIRVModule.
Local Open Scope Z_scope.

(** enum class BDAOperation *)
Definition BDALoad : nat := 0.
Definition BDAStore : nat := 1.
Definition BDAAtomicRMW : nat := 2.
Definition BDAIndirectRead : nat := 3.

Definition build_instrumentation_ssbo (data_type stride : Z) (member_name block_name variable_name : string)
    (desc_set binding : Z) : MM Z :=
  data_array_type ← on_builder (makeRuntimeArray data_type);
  _ ← on_builder (addDecoration data_array_type DecorationArrayStride stride);
  create_instrumentation_buffer data_array_type member_name block_name variable_name desc_set binding false.

(** [a] is a vector of the low and the high word, [b] one word. *)
Definition build_u64_add_u32 (a b : Z) : BM Z :=
  u32_type ← makeUintType 32;
  extract_lo ← add_op u32_type OpCompositeExtract;
  _ ← add_operands extract_lo [mret a; mret 0];
  extract_hi ← add_op u32_type OpCompositeExtract;
  _ ← add_operands extract_hi [mret a; mret 1];
  struct_type ← makeStructType [u32_type; u32_type] "IAddCarryResult";
  add_carry ← add_op struct_type OpIAddCarry;
  _ ← add_operands add_carry [result_of extract_lo; mret b];
  extract_carry_lo ← add_op u32_type OpCompositeExtract;
  _ ← add_operands extract_carry_lo [result_of add_carry; mret 0];
  extract_carry ← add_op u32_type OpCompositeExtract;
  _ ← add_operands extract_carry [result_of add_carry; mret 1];
  add_hi ← add_op u32_type OpIAdd;
  _ ← add_operands add_hi [result_of extract_hi; result_of extract_carry];
  uvec2_type ← makeVectorType u32_type 2;
  combine ← add_op uvec2_type OpCompositeConstruct;
  _ ← add_operands combine [result_of extract_carry_lo; result_of add_hi];
  result_of combine.

(** The bytes an access touches in its 16 byte granule. *)
Definition build_byte_mask (addr_lo_id byte_count : Z) : BM Z :=
  u32_type ← makeUintType 32;
  extract ← add_op u32_type OpBitFieldUExtract;
  and_op ← add_op u32_type OpBitwiseAnd;
  shift_op ← add_op u32_type OpShiftLeftLogical;
  and2_op ← add_op u32_type OpBitwiseAnd;
  _ ← add_operands extract [makeUintConstant 0xffffffff; makeUintConstant 0; mret byte_count];
  _ ← add_operands and_op [mret addr_lo_id; makeUintConstant 15];
  _ ← add_operands shift_op [result_of extract; result_of and_op];
  _ ← add_operands and2_op [result_of shift_op; makeUintConstant 0xffff];
  result_of and2_op.

(** The 32-bit words an access touches in its granule. *)
Definition build_word_mask (addr_lo_id byte_count : Z) : BM Z :=
  u32_type ← makeUintType 32;
  mask_op ← add_op u32_type OpBitwiseAnd;
  add_op1 ← add_op u32_type OpIAdd;
  add3_op ← add_op u32_type OpIAdd;
  slr2 ← add_op u32_type OpShiftRightLogical;
  extract_shift ← add_op u32_type OpBitFieldUExtract;
  extract ← add_op u32_type OpBitFieldUExtract;
  shifted ← add_op u32_type OpShiftLeftLogical;
  final_mask ← add_op u32_type OpBitwiseAnd;
  _ ← add_operands mask_op [mret addr_lo_id; makeUintConstant 3];
  _ ← add_operands add_op1 [result_of mask_op; mret byte_count];
  _ ← add_operands add3_op [result_of add_op1; makeUintConstant 3];
  _ ← add_operands slr2 [result_of add3_op; makeUintConstant 2];
  _ ← add_operands extract_shift [mret addr_lo_id; makeUintConstant 2; makeUintConstant 2];
  _ ← add_operands extract [makeUintConstant 0xffffffff; makeUintConstant 0; result_of slr2];
  _ ← add_operands shifted [result_of extract; result_of extract_shift];
  _ ← add_operands final_mask [result_of shifted; makeUintConstant 0xf];
  result_of final_mask.

(** One round of the hash. *)
Definition hash_round (uvec2_type const8_splat splat_id ret_id : Z) : BM Z :=
  shuffle ← add_op uvec2_type OpVectorShuffle;
  _ ← add_operands shuffle [mret ret_id; mret ret_id; mret 1; mret 0];
  shifted ← add_op uvec2_type OpShiftRightLogical;
  _ ← add_operands shifted [mret ret_id; mret const8_splat];
  xor_op ← add_op uvec2_type OpBitwiseXor;
  _ ← add_operands xor_op [result_of shifted; result_of shuffle];
  mult ← add_op uvec2_type OpIMul;
  _ ← add_operands mult [result_of xor_op; mret splat_id];
  result_of mult.

(** [uint AddrHash(uvec2 addr, uint prime)] *)
Definition build_hash_call : BM Z :=
  current_build_point ← gets buildPoint;
  uint_type ← makeUintType 32;
  uvec2_type ← makeVectorType uint_type 2;
  fe ← makeFunctionEntry uint_type (Some "AddrHash"%string) [uvec2_type; uint_type];
  let '(func, _) := (fe : funcref * blockref) in
  addr ← getParamId func 0;
  _ ← addName addr "addr";
  prime ← getParamId func 1;
  _ ← addName prime "prime";
  extract0 ← add_op uint_type OpCompositeExtract;
  extract1 ← add_op uint_type OpCompositeExtract;
  shift_lo ← add_op uint_type OpShiftRightLogical;
  mask_hi ← add_op uint_type OpBitwiseAnd;
  construct ← add_op uvec2_type OpCompositeConstruct;
  splat ← add_op uvec2_type OpCompositeConstruct;
  _ ← add_operands extract0 [mret addr; mret 0];
  _ ← add_operands extract1 [mret addr; mret 1];
  _ ← add_operands shift_lo [result_of extract0; makeUintConstant 4];
  _ ← add_operands mask_hi [result_of extract1; makeUintConstant 0xffff];
  _ ← add_operands construct [result_of shift_lo; result_of mask_hi];
  _ ← add_operands splat [mret prime; mret prime];
  ret_id ← result_of construct;
  splat_id ← result_of splat;
  const8 ← makeUintConstant 8;
  const8_splat ← makeCompositeConstant uvec2_type [const8; const8];
  ret_id ← fold_m (fun (_ : nat) r => hash_round uvec2_type const8_splat splat_id r) (seq 0 6) ret_id;
  extract ← add_op uint_type OpCompositeExtract;
  _ ← add_operands extract [mret ret_id; mret 0];
  ret_id ← result_of extract;
  _ ← makeReturn false ret_id;
  _ ← modify (set_buildPoint current_build_point);
  function_id func.

(** All bits below the highest bit of the length of the filter. *)
Definition build_hash_mask (var_id : Z) : BM Z :=
  u32_type ← makeUintType 32;
  len ← add_op u32_type OpArrayLength;
  u32_type ← makeUintType 32;
  find_msb ← add_op u32_type OpExtInst;
  u32_type ← makeUintType 32;
  extract ← add_op u32_type OpBitFieldUExtract;
  glsl ← import "GLSL.std.450";
  _ ← add_operands len [mret var_id; mret 0];
  _ ← add_operands find_msb [mret glsl; mret GLSLstd450FindUMsb; result_of len];
  _ ← add_operands extract [makeUintConstant 0xffffffff; makeUintConstant 0; result_of find_msb];
  result_of extract.

(** The length without its highest bit, less one. *)
Definition build_hash_offset (var_id : Z) : BM Z :=
  u32_type ← makeUintType 32;
  len ← add_op u32_type OpArrayLength;
  u32_type ← makeUintType 32;
  find_msb ← add_op u32_type OpExtInst;
  u32_type ← makeUintType 32;
  extract ← add_op u32_type OpBitFieldUExtract;
  u32_type ← makeUintType 32;
  extract_minus_1 ← add_op u32_type OpISub;
  glsl ← import "GLSL.std.450";
  _ ← add_operands len [mret var_id; mret 0];
  _ ← add_operands find_msb [mret glsl; mret GLSLstd450FindUMsb; result_of len];
  _ ← add_operands extract [result_of len; makeUintConstant 0; result_of find_msb];
  _ ← add_operands extract_minus_1 [result_of extract; makeUintConstant 1];
  result_of extract_minus_1.

(** The bits an access sets, by operation: in the granule's word, bits 0-15 say which bytes may
    not be read any more, 16-31 which may not be written, 32-35 and 36-39 which words are
    closed to atomics and indirect reads. *)
Definition invalidation_masks : list Z := [0x0fffff0000; 0xffffffffff; 0xf0ffffffff; 0x0fffff0000].

Definition build_get_invalidation_mask (id byte_mask_id word_mask_id : Z) : BM Z :=
  u32_type ← makeUintType 32;
  u64_type ← makeUintType 64;
  u64vec4_type ← makeVectorType u64_type 4;
  elems ← mapM_list makeUint64Constant invalidation_masks;
  invalidation_table ← makeCompositeConstant u64vec4_type elems;
  extract ← add_op u64_type OpVectorExtractDynamic;
  _ ← add_operands extract [mret invalidation_table; mret id];
  byte_mask_shift ← add_op u32_type OpShiftLeftLogical;
  word_mask_shift ← add_op u32_type OpShiftLeftLogical;
  _ ← add_operands byte_mask_shift [mret byte_mask_id; makeUintConstant 16];
  _ ← add_operands word_mask_shift [mret word_mask_id; makeUintConstant 4];
  byte_mask_or ← add_op u32_type OpBitwiseOr;
  word_mask_or ← add_op u32_type OpBitwiseOr;
  _ ← add_operands byte_mask_or [mret byte_mask_id; result_of byte_mask_shift];
  _ ← add_operands word_mask_or [mret word_mask_id; result_of word_mask_shift];
  uvec2_type ← makeVectorType u32_type 2;
  composite ← add_op uvec2_type OpCompositeConstruct;
  _ ← add_operands composite [result_of byte_mask_or; result_of word_mask_or];
  bitcast ← add_op u64_type OpBitcast;
  _ ← add_operands bitcast [result_of composite];
  mask ← add_op u64_type OpBitwiseAnd;
  _ ← add_operands mask [result_of extract; result_of bitcast];
  r ← result_of mask;
  _ ← addName r "invalidation_mask";
  mret r.

Definition build_takes_exclusive_ownership (atomic_result byte_mask : Z) : BM Z :=
  u32_type ← makeUintType 32;
  shift ← add_op u32_type OpShiftRightLogical;
  _ ← add_operands shift [mret atomic_result; makeUintConstant 16];
  u32_type ← makeUintType 32;
  and_op ← add_op u32_type OpBitwiseAnd;
  _ ← add_operands and_op [result_of shift; mret byte_mask];
  bool_type ← makeBoolType;
  cmp ← add_op bool_type OpIEqual;
  _ ← add_operands cmp [result_of and_op; makeUintConstant 0];
  result_of cmp.

(** [uint AllocateInvocationID()] *)
Definition build_allocate_invocation_id_function (desc_set binding : Z) : MM Z :=
  current_build_point ← gets (fun m => buildPoint (builder m));
  uint_type ← on_builder (makeUintType 32);
  bloom_var_id ← build_instrumentation_ssbo uint_type 4 "atomics" "BloomBufferInvocationSSBO"
                   "BloomBufferInvocation" desc_set binding;
  on_builder (
    fe ← makeFunctionEntry uint_type (Some "AllocateInvocationID"%string) [];
    let '(func, _) := (fe : funcref * blockref) in
    len ← add_op uint_type OpArrayLength;
    _ ← add_operands len [mret bloom_var_id; mret 0];
    len_minus_1 ← add_op uint_type OpISub;
    _ ← add_operands len_minus_1 [result_of len; makeUintConstant 1];
    ptr ← makePointer StorageClassStorageBuffer uint_type;
    chain ← add_op ptr OpAccessChain;
    _ ← add_operands chain [mret bloom_var_id; makeUintConstant 0; result_of len_minus_1];
    atomic_add ← add_op uint_type OpAtomicIAdd;
    _ ← add_operands atomic_add [result_of chain; getAtomicDeviceScopeId; makeUintConstant 0;
                                 makeUintConstant 1103633207];
    r ← result_of atomic_add;
    _ ← makeReturn false r;
    _ ← modify (set_buildPoint current_build_point);
    function_id func).

(** * bool ValidateBDALoadStore(...) *)

Definition NumHashes : nat := 16.
Definition NumLockHashes : nat := 8.
Definition noise_primes : list Z :=
  [1103515245; 1103518333; 1103539331; 1103633207; 10006121; 4004951; 5005159; 6004811;
   383; 821; 661; 1091; 1117; 3947; 4253; 7691].

(** [builder.addName(h->getResultId(), name)], with the id as result. *)
Definition named (h : instref) (name : string) : BM Z := r ← result_of h; _ ← addName r name; mret r.

(** An index into the filter for each prime. *)
Definition build_bloom_index (uint_type hash_call_id addr_id hash_mask hash_offset prime : Z) : BM Z :=
  call ← add_op uint_type OpFunctionCall;
  _ ← add_operands call [mret hash_call_id; mret addr_id; makeUintConstant prime];
  mask ← add_op uint_type OpBitwiseAnd;
  _ ← add_operands mask [result_of call; mret hash_mask];
  add_offset ← add_op uint_type OpIAdd;
  _ ← add_operands add_offset [result_of mask; mret hash_offset];
  named add_offset "bloom_index".

(** Sets the bits of the access at one index; the bits set before at all the indices. *)
Definition build_prev_hazard (u64_type bloom_var_id_64 invalidation_mask : Z) (hash atomic_result : Z) : BM Z :=
  ptr ← makePointer StorageClassStorageBuffer u64_type;
  chain ← add_op ptr OpInBoundsAccessChain;
  _ ← add_operands chain [mret bloom_var_id_64; makeUintConstant 0; mret hash];
  atom ← add_op u64_type OpAtomicOr;
  _ ← add_operands atom [result_of chain; getAtomicDeviceScopeId; makeUintConstant 0; mret invalidation_mask];
  a ← named atom "prev_hazard_partial";
  r ← (if atomic_result =? 0 then mret a
       else and_op ← add_op u64_type OpBitwiseAnd;
            _ ← add_operands and_op [mret atomic_result; mret a];
            result_of and_op);
  _ ← addCapability CapabilityInt64Atomics;
  mret r.

(** The first of the bits of the invocation id that lock [i] uses. *)
Definition lock_base_bit (i : Z) : Z :=
  if i <? 4 then Z.min (9 * i) 23 else Z.min (8 * Z.land i 3 + 1) 22.

(** Three bits of the invocation id pick one of eight bits of a byte. *)
Definition build_lock_bit (uint_type invocation_id base_bit : Z) (j lock_mask_id : Z) : BM Z :=
  extract ← add_op uint_type OpBitFieldUExtract;
  _ ← add_operands extract [mret invocation_id; makeSignedConstant (base_bit + 3 * j); makeSignedConstant 3];
  shift ← add_op uint_type OpShiftLeftLogical;
  _ ← add_operands shift [makeUintConstant (Z.shiftl 1 (8 + 8 * j)); result_of extract];
  if lock_mask_id =? 0 then result_of shift
  else or_op ← add_op uint_type OpBitwiseOr;
       _ ← add_operands or_op [mret lock_mask_id; result_of shift];
       result_of or_op.

(** Takes the lock bits of the invocation when it has the bytes for itself; tells whether they
    were its own already. *)
Definition build_lock (uint_type bool_type bloom_var_id_32 invocation_id has_exclusive : Z) (hashes : list Z)
    (i : Z) (has_complete_self_lock : Z) : BM Z :=
  lock_mask_id ← fold_m (build_lock_bit uint_type invocation_id (lock_base_bit i)) [0; 1; 2] 0;
  _ ← addName lock_mask_id "lock_mask";
  sel ← add_op uint_type OpSelect;
  _ ← add_operands sel [mret has_exclusive; mret lock_mask_id; makeUintConstant 0];
  ptr ← makePointer StorageClassStorageBuffer uint_type;
  chain ← add_op ptr OpInBoundsAccessChain;
  hash ← derefM (zlookup hashes i);
  _ ← add_operands chain [mret bloom_var_id_32; makeUintConstant 0; mret hash; makeUintConstant 1];
  atom ← add_op uint_type OpAtomicOr;
  _ ← add_operands atom [result_of chain; getAtomicDeviceScopeId; makeUintConstant 0; result_of sel];
  lock_feedback ← named atom "prev_lock";
  and_op ← add_op uint_type OpBitwiseAnd;
  _ ← add_operands and_op [mret lock_feedback; mret lock_mask_id];
  eq_op ← add_op bool_type OpIEqual;
  _ ← add_operands eq_op [result_of and_op; mret lock_mask_id];
  if has_complete_self_lock =? 0 then result_of eq_op
  else logical_and ← add_op bool_type OpLogicalAnd;
       _ ← add_operands logical_and [mret has_complete_self_lock; result_of eq_op];
       result_of logical_and.

(** [(hazard & mask) != 0], with the mask shifted first when [shift] is not zero. *)
Definition build_hazard_segment (uint_type bool_type : Z) (segment merge : blockref) (hazard mask_id shift : Z)
    : BM Z :=
  _ ← setBuildPoint segment;
  shifted ← (if shift =? 0 then mret None
             else h ← add_op uint_type OpShiftLeftLogical;
                  _ ← add_operands h [mret mask_id; makeUintConstant shift];
                  mret (Some h));
  mask ← add_op uint_type OpBitwiseAnd;
  neq ← add_op bool_type OpINotEqual;
  _ ← add_operands mask [mret hazard; match shifted with Some h => result_of h | None => mret mask_id end];
  _ ← add_operands neq [result_of mask; makeUintConstant 0];
  r ← result_of neq;
  _ ← createBranch merge;
  mret r.

(** The hazard of the access by its operation. *)
Definition build_hazard (uint_type bool_type op_id hazard_lo hazard_hi byte_mask_id word_mask_id : Z) : BM Z :=
  segments ← makeSwitch op_id 0 4 [(0, 0%nat); (1, 1%nat); (2, 2%nat)] 3;
  _ ← endSwitch;
  merge ← getBuildPoint;
  load ← nth_block segments BDALoad;
  hazard0 ← build_hazard_segment uint_type bool_type load merge hazard_lo byte_mask_id 0;
  store ← nth_block segments BDAStore;
  hazard1 ← build_hazard_segment uint_type bool_type store merge hazard_lo byte_mask_id 16;
  atomic ← nth_block segments BDAAtomicRMW;
  hazard2 ← build_hazard_segment uint_type bool_type atomic merge hazard_hi word_mask_id 0;
  indirect ← nth_block segments BDAIndirectRead;
  hazard3 ← build_hazard_segment uint_type bool_type indirect merge hazard_hi word_mask_id 4;
  _ ← setBuildPoint merge;
  hazard_phi ← add_op bool_type OpPhi;
  _ ← add_operands hazard_phi
        [mret hazard0; block_id load; mret hazard1; block_id store;
         mret hazard2; block_id atomic; mret hazard3; block_id indirect];
  named hazard_phi "hazard".

Definition build_validate_bda_load_store_function (desc_set binding : Z) : MM Z :=
  hash_call_id ← on_builder build_hash_call;
  current_build_point ← gets (fun m => buildPoint (builder m));
  uint_type ← on_builder (makeUintType 32);
  u64_type ← on_builder (makeUintType 64);
  uvec2_type ← on_builder (makeVectorType uint_type 2);
  bool_type ← on_builder makeBoolType;
  bloom_var_id_64 ← build_instrumentation_ssbo u64_type 8 "atomics" "BloomBufferSSBO" "BloomBuffer"
                      desc_set binding;
  bloom_var_id_32 ← build_instrumentation_ssbo uvec2_type 8 "atomics" "BloomBuffer32SSBO" "BloomBuffer32"
                      desc_set binding;
  on_builder (
    fe ← makeFunctionEntry bool_type (Some "ValidateBDALoadStore"%string)
           [uvec2_type; uint_type; uint_type; uint_type; uint_type; bool_type];
    let '(func, entry) := (fe : funcref * blockref) in
    params ← mapM_list (fun x : nat * string => p ← getParamId func x.1; _ ← addName p x.2; mret p)
               [(0%nat, "BDA"%string); (1%nat, "offset"%string); (2%nat, "len"%string);
                (3%nat, "type"%string); (4%nat, "invocation_id"%string); (5%nat, "in_bounds"%string)];
    let param i := default 0 (params !! i) in
    _ ← setBuildPoint entry;
    early_return_block ← new_block_in func;
    body ← new_block_in func;
    _ ← createSelectionMerge body 0;
    _ ← createConditionalBranch (param 5%nat) body early_return_block;
    _ ← setBuildPoint early_return_block;
    t ← makeBoolConstant true;
    _ ← makeReturn false t;
    _ ← setBuildPoint body;
    addr_id ← build_u64_add_u32 (param 0%nat) (param 1%nat);
    _ ← addName addr_id "addr";
    extract_lo ← add_op uint_type OpCompositeExtract;
    _ ← add_operands extract_lo [mret addr_id; mret 0];
    addr_lo_id ← named extract_lo "addr_lo";
    byte_mask_id ← build_byte_mask addr_lo_id (param 2%nat);
    word_mask_id ← build_word_mask addr_lo_id (param 2%nat);
    _ ← addName byte_mask_id "byte_mask";
    _ ← addName word_mask_id "word_mask";
    hash_mask ← build_hash_mask bloom_var_id_64;
    hash_offset ← build_hash_offset bloom_var_id_64;
    _ ← addName hash_mask "hash_mask";
    _ ← addName hash_offset "hash_offset";
    hashes ← mapM_list (build_bloom_index uint_type hash_call_id addr_id hash_mask hash_offset) noise_primes;
    invalidation_mask ← build_get_invalidation_mask (param 3%nat) byte_mask_id word_mask_id;
    atomic_result ← fold_m (build_prev_hazard u64_type bloom_var_id_64 invalidation_mask) hashes 0;
    atomic_result_uvec2 ← add_op uvec2_type OpBitcast;
    _ ← add_operands atomic_result_uvec2 [mret atomic_result];
    prev_hazard ← named atomic_result_uvec2 "prev_hazard";
    atomic_result_lo ← add_op uint_type OpCompositeExtract;
    _ ← add_operands atomic_result_lo [mret prev_hazard; mret 0];
    hazard_lo ← named atomic_result_lo "prev_hazard_lo";
    atomic_result_hi ← add_op uint_type OpCompositeExtract;
    _ ← add_operands atomic_result_hi [mret prev_hazard; mret 1];
    hazard_hi ← named atomic_result_hi "prev_hazard_hi";
    has_exclusive ← build_takes_exclusive_ownership hazard_lo byte_mask_id;
    _ ← addName has_exclusive "has_exclusive_access";
    has_complete_self_lock ←
      fold_m (build_lock uint_type bool_type bloom_var_id_32 (param 4%nat) has_exclusive hashes)
        (Z.of_nat <$> seq 0 NumLockHashes) 0;
    _ ← addName has_complete_self_lock "has_complete_self_lock";
    hazard_phi ← build_hazard uint_type bool_type (param 3%nat) hazard_lo hazard_hi byte_mask_id word_mask_id;
    inv_hazard ← add_op bool_type OpLogicalNot;
    _ ← add_operands inv_hazard [mret hazard_phi];
    ret ← add_op bool_type OpLogicalOr;
    _ ← add_operands ret [result_of inv_hazard; mret has_complete_self_lock];
    r ← result_of ret;
    _ ← makeReturn false r;
    _ ← modify (set_buildPoint current_build_point);
    function_id func).
