(* ===== verification/CFGQueries.v ===== *)
(** The questions the rewriting passes of the structurizer ask about the graph
    (cfg_structurizer.cpp): is a block a break, a continue, a merge candidate; where does
    control flow converge; which blocks leave a loop and how.

    The [const] queries are functions of the structurizer [s]; [ops] is the pool of
    operations of the module.  [find_common_post_dominator] may complete the
    post-dominator tree, so whatever calls it is a routine over the structurizer. *)
From S2P Require Import Prelude.
From S2P Require Import IR.
From S2P Require Import CFGNode.
From S2P Require Import CFGTraversal.
From S2P Require Import SpvBuilder.
From S2P Require Import SPIRVModule.
Local Open Scope Z_scope.
Local Open Scope dxil_scope.

(** [has_element(c, x)] *)
Definition has_element (l : list nodref) (x : nodref) : bool := bool_decide (x ∈ l).

(** [std::unique]: of equal neighbours, the first one stays. *)
Fixpoint unique (l : list nodref) : list nodref :=
  match l with
  | x :: ((y :: _) as l') => if decide (x = y) then unique l' else x :: unique l'
  | _ => l
  end.

(** [std::sort] by ascending key. *)
Definition sort_ascending (key : nodref -> Z) (l : list nodref) : list nodref :=
  sort_descending (fun r => - key r) l.

Definition backward_order_in (p : CFGNodePool) (r : nodref) : Z :=
  match p !! r with Some n => backward_post_visit_order n | None => 0 end.

Section queries.
Variable s : CFGStructurizer.
Variable ops : list Operation.

Definition member {A} (f : CFGNode -> A) (r : nodref) : res A := n ← node (pool s) r; Ok (f n).

Definition block_is_control_dependent (r : nodref) : res bool :=
  n ← node (pool s) r;
  any_of (fun o => o ← some_or_ub (ops !! o); Ok (opcode_is_control_dependent (op o)))
    (operations (ir n)).

(** * Loops *)

(** [get_innermost_loop_header_for(other)] *)
Definition innermost_loop_header (other : nodref) : res nodref :=
  get_innermost_loop_header_for s (entry_block s) other.

Definition loop_exit_supports_infinite_loop (header loop_exit : nodref) : res bool :=
  inner_header ← get_innermost_loop_header_for s header loop_exit;
  ifm dominates (pool s) inner_header header then Ok false
  else dominates_all_reachable_exits (pool s) loop_exit.

Definition block_is_plain_continue (n : CFGNode) (r : nodref) : bool :=
  match succ_back_edge n with Some b => bool_decide (r <> b) | None => false end.

(** [while (...) node = node->immediate_post_dominator;] *)
Fixpoint scan_plain_continue_walk (fuel : nat) (base x : nodref) : res nodref :=
  match fuel with
  | O => UB
  | S fuel' =>
      n ← node (pool s) x;
      if block_is_plain_continue n x then Ok x
      else
        ifm dominates (pool s) base x then
          match succ_back_edge n, pred_back_edge n, immediate_post_dominator n with
          | None, None, Some d => if decide (d = x) then Ok x else scan_plain_continue_walk fuel' base d
          | _, _, _ => Ok x
          end
        else Ok x
  end.

Definition scan_plain_continue_block (r : nodref) : res nodref :=
  scan_plain_continue_walk (S (length (pool s))) r r.

(** * Paths that avoid a block *)

(** Does [frontier], all of whose useful paths go through the promoted blocks, stand for
    the block it was promoted from? *)
Definition all_succs_must_go_via (promoted : gset nodref) (must_reach frontier : nodref) : res bool :=
  n ← node (pool s) frontier;
  all_of (fun x =>
    ifm query_reachability s x must_reach
    then any_of (fun pdom => post_dominates (pool s) pdom x) (elements promoted)
    else Ok true) (succ n).

(** One round of the loop over the frontiers; its state is [frontiers] and
    [promoted_post_dominators]. *)
Definition promote_frontier (must_reach : nodref) (must_reach_frontier : option nodref)
    (st : list nodref * gset nodref) : res (list nodref * gset nodref + option nodref) :=
  let '(frontiers, promoted) := st in
  match frontiers with
  | [] => Ok (inr None)
  | _ =>
      frontiers ← match must_reach_frontier with
                  | Some f => filter_m (query_reachability s f) frontiers
                  | None => Ok frontiers
                  end;
      let frontiers := if 1 <? zlength frontiers
        then unique (sort_ascending (backward_order_in (pool s)) frontiers) else frontiers in
      match list.last frontiers with
      | None => Ok (inr None)
      | Some frontier =>
          all ← all_succs_must_go_via promoted must_reach frontier;
          if negb all then Ok (inr (Some frontier))
          else
            n ← node (pool s) frontier;
            Ok (inl (removelast frontiers ++ post_dominance_frontier n, {[frontier]} ∪ promoted))
      end
  end.

Definition get_post_dominance_frontier_with_cfg_subset_that_reaches
    (r must_reach : nodref) (must_reach_frontier : option nodref) : res (option nodref) :=
  n ← node (pool s) r;
  reaches ← query_reachability s r must_reach;
  _ ← assert_res reaches;
  out ← repeat_pow (length (pool s)) (promote_frontier must_reach must_reach_frontier)
          (post_dominance_frontier n, {[r]});
  match out with inl _ => UB | inr frontier => Ok frontier end.

Definition exists_path_in_cfg_without_intermediate_node (start_block end_block stop_block : nodref)
    : res bool :=
  e ← node (pool s) end_block;
  end_block ← match pred_back_edge e with
              | Some c =>
                  ifm (notm (query_reachability s stop_block end_block)) <&&>
                      (notm (query_reachability s start_block end_block))
                  then Ok c else Ok end_block
              | None => Ok end_block
              end;
  ifm (query_reachability s start_block end_block) <&&> (query_reachability s start_block stop_block) <&&>
      (query_reachability s stop_block end_block)
  then
    frontier ← get_post_dominance_frontier_with_cfg_subset_that_reaches stop_block end_block
                 (Some start_block);
    Ok (bool_decide (frontier <> None))
  else query_reachability_through_back_edges s start_block end_block.

(** * Escaping control flow *)

Definition control_flow_is_escaping_from_loop (r merge : nodref) : res bool :=
  if decide (r = merge) then Ok false
  else
    pd ← post_dominates (pool s) merge r;
    _ ← assert_res pd;
    h ← innermost_loop_header r;
    hn ← node (pool s) h;
    match pred_back_edge hn with
    | None => Ok false
    | Some c =>
        n ← node (pool s) r;
        dominates_merge ← dominates (pool s) r merge;
        can_reach_continue ← query_reachability s r c;
        continue_can_reach ← query_reachability s c r;
        pdf_can_reach_continue ← all_of (fun frontier =>
          d ← dominates (pool s) h frontier;
          i ← query_reachability s frontier c;
          Ok (d && i)) (post_dominance_frontier n);
        Ok (negb dominates_merge && negb continue_can_reach && negb can_reach_continue &&
            pdf_can_reach_continue)
    end.

(** [for (frontier : pdf) if (frontier is a switch) n++;] *)
Definition switch_frontiers (l : list nodref) : res Z :=
  fold_m (fun f k => n ← node (pool s) f; Ok (if is_switch n then k + 1 else k)) l 0.

(** [while (pred != node && !reach(pred, node) && !reach(node, pred)) pred = idom(pred);] *)
Fixpoint backtrace_unrelated (fuel : nat) (r pred : nodref) : res nodref :=
  match fuel with
  | O => UB
  | S fuel' =>
      if decide (pred = r) then Ok pred
      else
        ifm (query_reachability s pred r) <||> (query_reachability s r pred) then Ok pred
        else
          n ← node (pool s) pred;
          d ← some_or_ub (immediate_dominator n);
          backtrace_unrelated fuel' r d
  end.

(** The loop over the predecessors of the merge block that looks for a false positive. *)
Fixpoint find_false_positive (r idom : nodref) (l : list nodref) (found : bool) : res bool :=
  match l with
  | [] => Ok found
  | x :: l' =>
      ifm dominates (pool s) idom x then
        x ← backtrace_unrelated (S (length (pool s))) r x;
        if decide (x = r) then find_false_positive r idom l' found
        else
          ifm query_reachability s x r then find_false_positive r idom l' true else Ok false
      else find_false_positive r idom l' found
  end.

(** The end of [control_flow_is_escaping], once the block is known not to bear load. *)
Definition escapes_by_frontiers (r merge : nodref) : res bool :=
  n ← node (pool s) r;
  switches ← switch_frontiers (post_dominance_frontier n);
  if 2 <=? switches then Ok true
  else
    reaches ← reaches_domination_frontier_before_merge (pool s) r merge;
    if (reaches : bool) then Ok false
    else
      ifm any_of (fun frontier =>
            dominates (pool s) frontier r <&&>
            reaches_domination_frontier_before_merge (pool s) frontier merge)
          (post_dominance_frontier n)
      then Ok true
      else
        ifm (match succ n with
             | [x] => member (fun xn => bool_decide (succ_back_edge xn <> None)) x
             | _ => Ok false
             end)
        then Ok true
        else
          ifm (if has_work n then Ok false
               else c ← count_post_dominates_work_from_incoming_preds (pool s) r; Ok (c <=? 1))
          then Ok true
          else if 2 <=? zlength (pred n) then
            idom ← some_or_ub (immediate_dominator n);
            m ← node (pool s) merge;
            notm (find_false_positive r idom (pred m) false)
          else Ok true.

Fixpoint merge_candidate_is_on_breaking_path (fuel : nat) (r : nodref) : res bool :=
  match fuel with
  | O => UB
  | S fuel' =>
      n ← node (pool s) r;
      match succ n with
      | [x] =>
          if 2 <=? zlength (pred n) then
            (notm (dominates (pool s) r x)) <&&> (post_dominates (pool s) x r) <&&>
            (control_flow_is_escaping fuel' r x) <&&>
            (notm (post_dominates_perfect_structured_construct (pool s) r))
          else Ok false
      | _ => Ok false
      end
  end
with control_flow_is_escaping (fuel : nat) (r merge : nodref) : res bool :=
  match fuel with
  | O => UB
  | S fuel' =>
      if decide (r = merge) then Ok false
      else
        ifm control_flow_is_escaping_from_loop r merge then Ok true
        else
          ifm block_is_load_bearing fuel' r merge then Ok false
          else escapes_by_frontiers r merge
  end
with block_is_load_bearing (fuel : nat) (r merge : nodref) : res bool :=
  match fuel with
  | O => UB
  | S fuel' =>
      merge ← skip_breaking_merges fuel' merge;
      n ← node (pool s) r;
      if 2 <=? zlength (pred n) then
        d ← some_or_ub (immediate_dominator n);
        notm (exists_path_in_cfg_without_intermediate_node d merge r)
      else Ok false
  end
(** The loop at the start of [block_is_load_bearing] that looks past blocks that will go. *)
with skip_breaking_merges (fuel : nat) (merge : nodref) : res nodref :=
  match fuel with
  | O => UB
  | S fuel' =>
      m ← node (pool s) merge;
      match succ m with
      | [x] =>
          breaking ← merge_candidate_is_on_breaking_path fuel' merge;
          ifm (Ok ((breaking : bool) && negb (bool_decide (operations (ir m) = [])))) <&&>
              (notm (block_is_control_dependent merge))
          then skip_breaking_merges fuel' x
          else Ok merge
      | _ => Ok merge
      end
  end.

(** Four calls lead from a block to one of its successors. *)
Definition escaping_fuel : nat := (4 * S (length (pool s)))%nat.

(** The answers asked from outside. *)
Definition is_escaping (r merge : nodref) : res bool := control_flow_is_escaping escaping_fuel r merge.
Definition is_breaking_merge_candidate (r : nodref) : res bool :=
  merge_candidate_is_on_breaking_path escaping_fuel r.
Definition is_load_bearing (r merge : nodref) : res bool := block_is_load_bearing escaping_fuel r merge.

(** * Merge candidates *)

Definition merge_candidate_is_inside_continue_construct (r : nodref) : res bool :=
  n ← node (pool s) r;
  _ ← assert_res (zlength (succ n) =? 1);
  x ← some_or_ub (head (succ n));
  any_of (fun q =>
    qn ← node (pool s) q;
    match succ_back_edge qn with
    | Some b => (post_dominates (pool s) x b) <&&> (dominates (pool s) b x) <&&>
                (notm (dominates (pool s) q r))
    | None => Ok false
    end) (pred n).

(** Does one of the headers of [x] merge there with a plain selection? *)
Definition succ_is_plain_selection_merge (x : nodref) : res bool :=
  xn ← node (pool s) x;
  any_of (fun h =>
    hn ← node (pool s) h;
    Ok (negb (is_switch hn) && bool_decide (merge hn = MergeSelection) &&
        bool_decide (selection_merge_block hn = Some x))) (headers xn).

Definition selection_requires_structured_header (r : nodref) : res bool :=
  n ← node (pool s) r;
  match succ n, succ_back_edge n with
  | [x; y], None =>
      ifm (query_reachability s x y) <||> (member (fun xn => block_is_plain_continue xn x) x) <||>
          (query_reachability s y x) <||> (member (fun yn => block_is_plain_continue yn y) y)
      then Ok true
      else notm ((succ_is_plain_selection_merge x) <||> (succ_is_plain_selection_merge y))
  | _, _ => UB
  end.

Definition is_strictly_dominance_ordered (a b c : nodref) : res bool :=
  (Ok (bool_decide (a <> b))) <&&> (dominates (pool s) a b) <&&>
  (Ok (bool_decide (b <> c))) <&&> (dominates (pool s) b c).

Definition is_reachability_ordered (a b c : nodref) : res bool :=
  (Ok (bool_decide (a <> b))) <&&> (query_reachability s a b) <&&>
  (Ok (bool_decide (b <> c))) <&&> (query_reachability s b c).

Definition earliest_dominance_frontier_post_visit_order (r : nodref) : res Z :=
  n ← node (pool s) r;
  fold_m (fun df k => d ← node (pool s) df; Ok (Z.max (forward_post_visit_order d) k))
    (dominance_frontier n) 0.

(** The first and the last block of every post-dominance frontier. *)
Definition build_pdf_ranges (candidates : list nodref) : res (list (nodref * nodref)) :=
  fold_m (fun c acc =>
    n ← node (pool s) c;
    f ← some_or_ub (head (post_dominance_frontier n));
    range ← fold_m (fun x (range : nodref * nodref) =>
        let '(first, last) := range in
        xn ← node (pool s) x;
        fn ← node (pool s) first;
        ln ← node (pool s) last;
        Ok (if forward_post_visit_order fn <? forward_post_visit_order xn then x else first,
            if forward_post_visit_order xn <? forward_post_visit_order ln then x else last))
      (post_dominance_frontier n) (f, f);
    Ok (acc ++ [range])) candidates [].

Definition pdf_ranges_have_strict_dominance_ordering (ranges : list (nodref * nodref)) : res bool :=
  let indexed := imap (fun i r => (i, r)) ranges in
  any_of (fun '(i, (first, last)) =>
    any_of (fun '(j, (first', _)) =>
      if decide (i = j) then Ok false else is_strictly_dominance_ordered first first' last) indexed)
    indexed.

(** [ladder_chain_has_phi_dependencies(chain, incoming)] *)
Fixpoint ladder_chain_walk (fuel : nat) (chain incoming : nodref) : res bool :=
  match fuel with
  | O => UB
  | S fuel' =>
      n ← node (pool s) chain;
      if existsb (fun f => existsb (fun v => bool_decide (incoming_block v = Some incoming))
                             (phi_incoming f)) (phi (ir n))
      then Ok true
      else match succ n with [x] => ladder_chain_walk fuel' x incoming | _ => Ok false end
  end.
Definition ladder_chain_has_phi_dependencies (chain incoming : nodref) : res bool :=
  ladder_chain_walk (S (length (pool s))) chain incoming.

Definition is_trivially_no_split_node (r : nodref) : res bool :=
  n ← node (pool s) r;
  Ok (((zlength (headers n) <=? 1) && negb (block_is_plain_continue n r)) ||
      bool_decide (headers n = [])).

Definition is_rewind_candidate_split_node (visited_orphans : list nodref) (r candidate : nodref)
    : res bool :=
  n ← node (pool s) r;
  c ← node (pool s) candidate;
  if negb (forward_post_visit_order n =? forward_post_visit_order c) then Ok false
  else
    ifm is_trivially_no_split_node candidate then Ok false
    else if has_element visited_orphans candidate then Ok false
    else
      ifm any_of (fun h => notm (can_backtrace_to (pool s) candidate h)) (headers c) then Ok false
      else if bool_decide (succ c <> [r]) then
        notm (any_of (fun h =>
          hn ← node (pool s) h;
          Ok (bool_decide (loop_ladder_block hn = Some r) || bool_decide (loop_merge_block hn = Some r)))
          (headers c))
      else Ok true.

Definition block_is_breaking_phi_construct (r : nodref) : res bool :=
  n ← node (pool s) r;
  if negb (bool_decide (operations (ir n) = [])) then Ok false
  else if zlength (pred n) <=? 1 then Ok false
  else
    ifm post_dominates_perfect_structured_construct (pool s) r then Ok false
    else if bool_decide (succ_back_edge n <> None) || bool_decide (pred_back_edge n <> None) then Ok false
    else if negb (if zlength (succ n) =? 1 then bool_decide (term_type (terminator (ir n)) = TBranch)
                  else (zlength (succ n) =? 2) && bool_decide (term_type (terminator (ir n)) = TCondition))
    then Ok false
    else
      ifm any_of (fun x => (dominates (pool s) r x) <||>
                           (notm (ladder_chain_has_phi_dependencies x r))) (succ n)
      then Ok false
      else
        ifm any_of (fun q => member (fun qn => bool_decide (succ_back_edge qn <> None)) q) (pred n)
        then Ok false
        else
          h ← innermost_loop_header r;
          hn ← node (pool s) h;
          match pred_back_edge hn with
          | None => Ok true
          | Some c =>
              cn ← node (pool s) c;
              ifm (dominates (pool s) h r) <&&> (Ok (bool_decide (succ cn = []))) <&&>
                  (notm (query_reachability s r c))
              then
                if existsb (fun df => bool_decide (immediate_post_dominator cn = Some df))
                     (dominance_frontier n)
                then Ok true
                else notm (any_of (fun pdf => query_reachability s pdf c) (post_dominance_frontier n))
              else Ok true
          end.

End queries.
