(* ===== verification/CFGLoops.v ===== *)
(** The analysis of loops and of the merge points of control flow
    (cfg_structurizer.cpp): which blocks form the natural loop of a header, which blocks
    control flow leaves it to, and where the exits converge. *)
From S2P Require Import Prelude.
From S2P Require Import IR.
From S2P Require Import CFGNode.
From S2P Require Import CFGTraversal.
From S2P Require Import SPIRVModule.
From S2P Require Import CFGQueries.
Local Open Scope Z_scope.
Local Open Scope dxil_scope.

(** * Common post-dominators *)

(** [CFGNode::find_common_post_dominator(a, b)] *)
Definition common_post_dominator (a b : nodref) : SM nodref :=
  on_pool (fuel ← gets dominator_fuel; find_common_post_dominator fuel a b).

(** [CFGNode::find_common_dominator(a, b)] *)
Definition common_dominator (a b : nodref) : SM nodref :=
  on_pool (fuel ← gets dominator_fuel; find_common_dominator fuel a b).

(** [CFGStructurizer::find_common_post_dominator(candidates)] *)
Definition find_common_post_dominator_of (candidates : list nodref) : SM (option nodref) :=
  match candidates with
  | [] => mret None
  | [x] => mret (Some x)
  | x :: y :: l =>
      c ← common_post_dominator x y;
      c ← fold_m (fun z c => common_post_dominator c z) l c;
      n ← on_pool (node_at c);
      mret (if decide (immediate_post_dominator n = Some c) then None else Some c)
  end.

Section ignored_break.
Variable p : CFGNodePool.
Variable ignored : nodref.

Definition add_unique_next_node (l : list nodref) (r : nodref) : list nodref :=
  if decide (r = ignored) then l else push_unique r l.

(** [while (candidates.size() != 1)].  [front] of an empty vector is undefined. *)
Fixpoint ignored_break_walk (fuel : nat) (candidates : list nodref) : res (option nodref) :=
  match fuel with
  | O => UB
  | S fuel' =>
      match candidates with
      | [x] => Ok (Some x)
      | _ =>
          match sort_descending (order_in p) candidates with
          | [] => UB
          | front :: rest =>
              n ← node p front;
              if bool_decide (succ n = []) && bool_decide (succ_back_edge n = None) then Ok None
              else ignored_break_walk fuel'
                     (foldl add_unique_next_node (foldl add_unique_next_node [] (succ n)) rest)
          end
      end
  end.

(** After the first round the candidates differ, and the latest one moves forward. *)
Definition find_common_post_dominator_with_ignored_break (candidates : list nodref)
    : res (option nodref) :=
  match candidates with
  | [] => Ok None
  | _ => ignored_break_walk (S (S (S (length p + length candidates)))) candidates
  end.
End ignored_break.

(** * The targets of breaks out of a selection *)

Section break_targets.
Variable s : CFGStructurizer.

(** One block of the visit queue; the state is the visited set, the next queue and the
    candidates. *)
Definition visit_break_block (idom merge r : nodref)
    (st : gset nodref * list nodref * list nodref) : res (gset nodref * list nodref * list nodref) :=
  let '(visited, queue, candidates) := st in
  if decide (r ∈ visited) then Ok st
  else
    let visited := {[r]} ∪ visited in
    ifm query_reachability s merge r then Ok (visited, queue, candidates)
    else
      ifm query_reachability s r merge then
        n ← node (pool s) r; Ok (visited, queue ++ succ n, candidates)
      else
        inner ← innermost_loop_header s r;
        ifm (Ok (bool_decide (inner <> entry_block s))) <&&> (query_reachability s idom inner)
        then Ok (visited, queue, candidates)
        else
          ifm (notm (dominates_all_reachable_exits (pool s) r)) <||> (notm (dominates (pool s) idom r))
          then Ok (visited, queue, candidates ++ [r])
          else Ok (visited, queue, candidates).

(** The breadth-first search; every round but the last one visits a new block. *)
Fixpoint break_candidates (fuel : nat) (idom merge : nodref) (queue : list nodref)
    (visited : gset nodref) (candidates : list nodref) : res (list nodref) :=
  match fuel with
  | O => UB
  | S fuel' =>
      st ← fold_m (visit_break_block idom merge) queue (visited, [], candidates);
      let '(visited, queue, candidates) := (st : gset nodref * list nodref * list nodref) in
      match queue with
      | [] => Ok candidates
      | _ => break_candidates fuel' idom merge queue visited candidates
      end
  end.
End break_targets.

Definition find_break_target_for_selection_construct (idom merge : nodref) : SM (option nodref) :=
  candidates ← observe_all (fun s =>
    break_candidates s (S (S (length (pool s)))) idom merge [idom] ∅ []);
  match candidates with
  | [] => mret None
  | _ => find_common_post_dominator_of candidates
  end.

(** * The exits of a loop *)

Inductive LoopExitType :=
  LExit | LMerge | LEscape | LMergeToOuterBackEdge | LInnerLoopExit | LInnerLoopMerge
| LInnerLoopFalsePositive.

Definition get_loop_exit_type (header r : nodref) : SM LoopExitType :=
  s ← gets (fun s => s);
  innermost ← lift (get_innermost_loop_header_for s header r);
  let is_innermost_loop_header := bool_decide (header = innermost) in
  h ← on_pool (node_at header);
  back_edge_reaches ← lift (match pred_back_edge h with
    | Some c => (query_reachability s c r) <||> (can_loop_merge_to (pool s) header r)
    | None => Ok false
    end);
  dominated ← lift (dominates (pool s) header r);
  if negb dominated then mret LEscape
  else
    exits ← (if (back_edge_reaches : bool) then mret false
             else lift (dominates_all_reachable_exits (pool s) r));
    if (exits : bool) then mret (if is_innermost_loop_header then LExit else LInnerLoopExit)
    else if is_innermost_loop_header then
      can_merge ← lift (can_loop_merge_to (pool s) header r);
      if (can_merge : bool) then mret LMerge
      else
        i ← on_pool (node_at innermost);
        d ← derefM (immediate_dominator i);
        outer_loop ← lift (get_innermost_loop_header_for s (entry_block s) d);
        o ← on_pool (node_at outer_loop);
        match pred_back_edge o with
        | None => mret LEscape
        | Some oc =>
            pd ← lift (post_dominates (pool s) oc r);
            if negb pd then mret LEscape
            else
              n ← on_pool (node_at r);
              match pred_back_edge n with
              | None => mret LMergeToOuterBackEdge
              | Some c =>
                  cn ← on_pool (node_at c);
                  outer ← (if bool_decide (succ cn = []) then mret false
                           else lift (query_reachability s c oc));
                  mret (if (outer : bool) then LEscape else LMergeToOuterBackEdge)
              end
        end
    else
      i ← on_pool (node_at innermost);
      match pred_back_edge i with
      | None => mret LInnerLoopMerge
      | Some c =>
          cn ← on_pool (node_at c);
          if negb (bool_decide (term_type (terminator (ir cn)) = TBranch)) then mret LInnerLoopMerge
          else
            post ← find_common_post_dominator_of [r; c];
            mret (if decide (post = Some c) then LInnerLoopFalsePositive else LInnerLoopMerge)
      end.

Record LoopAnalysis := mkLoopAnalysis {
  direct_exits : list nodref;
  inner_direct_exits : list nodref;
  dominated_exit : list nodref;
  inner_dominated_exit : list nodref;
  non_dominated_exit : list nodref;
  dominated_continue_exit : list nodref;
}.

Definition LoopAnalysis_empty : LoopAnalysis := mkLoopAnalysis [] [] [] [] [] [].

(** The switch over the exit type. *)
Definition add_exit (t : LoopExitType) (r : nodref) (a : LoopAnalysis) : LoopAnalysis :=
  let '(mkLoopAnalysis d i m im e c) := a in
  match t with
  | LExit => mkLoopAnalysis (d ++ [r]) i m im e c
  | LInnerLoopExit => mkLoopAnalysis d (i ++ [r]) m im e c
  | LMerge => mkLoopAnalysis d i (m ++ [r]) im e c
  | LInnerLoopMerge => mkLoopAnalysis d i m (im ++ [r]) e c
  | LInnerLoopFalsePositive => a
  | LEscape => mkLoopAnalysis d i m im (e ++ [r]) c
  | LMergeToOuterBackEdge => mkLoopAnalysis d i m im e (c ++ [r])
  end.

(** The blocks of the natural loop of [r], and the blocks it is left to, in the order in
    which the search from the header meets them. *)
Definition loop_blocks (p : CFGNodePool) (r back_edge : nodref) : res (gset nodref) :=
  trace_to_parent p (S (length p)) r back_edge ∅.
Definition loop_exits (p : CFGNodePool) (r : nodref) (blocks : gset nodref) : res (list nodref) :=
  st ← trace_from_parent p blocks (S (length p)) r ([], ∅);
  Ok (fst (st : list nodref * gset nodref)).

Definition takes_convergent_path (s : CFGStructurizer) (outer_loop_back_edge candidate exit_node : nodref)
    : res bool :=
  c ← node (pool s) candidate;
  e ← node (pool s) exit_node;
  (query_reachability s candidate exit_node) <||>
  (Ok (bool_decide (immediate_post_dominator c = immediate_post_dominator e))) <||>
  (Ok (existsb (has_element (dominance_frontier e)) (dominance_frontier c))) <||>
  (query_reachability s exit_node outer_loop_back_edge).

(** The loop over the exits to an outer continue: those that converge with another exit
    become escapes.  The result is the exits that stay and the escapes. *)
Fixpoint demote_continue_exits (s : CFGStructurizer) (outer_loop_back_edge : option nodref)
    (dominated candidates kept non_dominated : list nodref) : res (list nodref * list nodref) :=
  match candidates with
  | [] => Ok (kept, non_dominated)
  | c :: l =>
      outer ← some_or_ub outer_loop_back_edge;
      ifm any_of (takes_convergent_path s outer c) (dominated ++ non_dominated)
      then demote_continue_exits s outer_loop_back_edge dominated l kept (non_dominated ++ [c])
      else demote_continue_exits s outer_loop_back_edge dominated l (kept ++ [c]) non_dominated
  end.

(** Several exits to an outer continue are one if they merge in a block the header
    dominates, otherwise they are escapes. *)
Definition unify_continue_exits (r : nodref) (a : LoopAnalysis) : SM LoopAnalysis :=
  let '(mkLoopAnalysis d i m im e c) := a in
  if 1 <? zlength c then
    common ← find_common_post_dominator_of c;
    keep ← match common with
           | Some x => dom ← observe_all (fun s => dominates (pool s) r x); mret (if (dom : bool) then Some x else None)
           | None => mret None
           end;
    mret (match keep with
          | Some x => mkLoopAnalysis d i m im e [x]
          | None => mkLoopAnalysis d i m im (e ++ c) []
          end)
  else mret a.

(** Better candidates are missing: weaker ones take their place. *)
Definition promote_inner_merges (a : LoopAnalysis) : LoopAnalysis :=
  let '(mkLoopAnalysis d i m im e c) := a in
  match m, im with [], _ :: _ => mkLoopAnalysis d i im m e c | _, _ => a end.
Definition promote_inner_exits (a : LoopAnalysis) : LoopAnalysis :=
  let '(mkLoopAnalysis d i m im e c) := a in
  match d with [] => mkLoopAnalysis i d m im e c | _ => a end.
Definition promote_direct_exits (a : LoopAnalysis) : LoopAnalysis :=
  let '(mkLoopAnalysis d i m im e c) := a in
  match m, d with [], _ :: _ => mkLoopAnalysis m i d im e c | _, _ => a end.

Definition promote_single_exit (s : CFGStructurizer) (r : nodref) (a : LoopAnalysis) : res LoopAnalysis :=
  let '(mkLoopAnalysis d i m im e c) := a in
  match d, m, e with
  | [x], [], [] =>
      ifm dominates (pool s) r x then Ok (mkLoopAnalysis m i d im e c)
      else Ok (mkLoopAnalysis e i m im d c)
  | _, _, _ => Ok a
  end.

(** The exits may converge in one of themselves. *)
Definition reduce_dominated_exits (a : LoopAnalysis) : SM LoopAnalysis :=
  let '(mkLoopAnalysis d i m im e c) := a in
  if 2 <=? zlength m then
    post_dominator ← find_common_post_dominator_of m;
    mret (match post_dominator with
          | Some x => if has_element m x then mkLoopAnalysis d i [x] im e c else a
          | None => a
          end)
  else mret a.

Definition analyze_loop (r : nodref) : SM LoopAnalysis :=
  n ← on_pool (node_at r);
  back_edge ← derefM (pred_back_edge n);
  blocks ← observe_all (fun s => loop_blocks (pool s) r back_edge);
  exits ← observe_all (fun s => loop_exits (pool s) r blocks);
  a ← fold_m (fun x a => t ← get_loop_exit_type r x; mret (add_exit t x a)) exits LoopAnalysis_empty;
  d ← derefM (immediate_dominator n);
  s ← gets (fun s => s);
  outer ← lift (get_innermost_loop_header_for s (entry_block s) d);
  o ← on_pool (node_at outer);
  demoted ← lift (demote_continue_exits s (pred_back_edge o) (dominated_exit a)
                    (dominated_continue_exit a) [] (non_dominated_exit a));
  let '(kept, non_dominated) := (demoted : list nodref * list nodref) in
  a ← unify_continue_exits r (mkLoopAnalysis (direct_exits a) (inner_direct_exits a)
        (dominated_exit a) (inner_dominated_exit a) non_dominated kept);
  a ← observe_all (fun s => promote_single_exit s r
        (promote_direct_exits (promote_inner_exits (promote_inner_merges a))));
  reduce_dominated_exits a.

(** * Where the exits of a loop merge *)

Record LoopMergeAnalysis := mkLoopMergeAnalysis {
  lm_merge : option nodref;
  lm_weak_merge : option nodref;
  lm_dominated_merge : option nodref;
  lm_infinite_continue_ladder : option nodref;
}.

Section merges.
Variable ops : list Operation.

(** The candidate for the merge block of a loop that leaves through several exits. *)
Definition tie_break_merge (r merge : nodref) (a : LoopAnalysis) : SM (option nodref) :=
  non_breaking_exits ← filter_m (fun x => notm (observe_all (fun s => is_escaping s ops x merge)))
                         (dominated_exit a);
  dominated_merge ← match non_breaking_exits with
                    | [] => mret None
                    | _ => find_common_post_dominator_of non_breaking_exits
                    end;
  match dominated_merge with
  | Some _ => mret dominated_merge
  | None =>
      n ← on_pool (node_at r);
      d ← derefM (immediate_dominator n);
      innermost_header ← observe_all (fun s => innermost_loop_header s d);
      h ← on_pool (node_at innermost_header);
      match pred_back_edge h with
      | None => mret None
      | Some c =>
          continue_exits ← filter_m (fun x => observe_all (fun s => query_reachability s x c))
                             (dominated_exit a);
          match continue_exits with
          | [] => mret None
          | _ => find_common_post_dominator_of continue_exits
          end
      end
  end.

Definition find_dominated_merge (r : nodref) (merge : option nodref) (a : LoopAnalysis)
    : SM (option nodref) :=
  n ← on_pool (node_at r);
  continue_succ ← match pred_back_edge n with
    | Some c =>
        cn ← on_pool (node_at c);
        mret (match succ cn with
              | [x] => if has_element (dominated_exit a) x then Some x else None
              | _ => None
              end)
    | None => mret None
    end;
  match continue_succ with
  | Some x => mret (Some x)
  | None =>
      undominated ← match merge with
                    | Some m => if 1 <? zlength (dominated_exit a)
                                then d ← observe_all (fun s => dominates (pool s) r m);
                                     mret (if (d : bool) then None else Some m)
                                else mret None
                    | None => mret None
                    end;
      match undominated with
      | Some m => tie_break_merge r m a
      | None => find_common_post_dominator_of (dominated_exit a)
      end
  end.

(** The innermost frontier all exits reach. *)
Definition find_weak_merge (s : CFGStructurizer) (merges : list nodref) : res (option nodref) :=
  frontiers ← fold_m (fun m acc => n ← node (pool s) m; Ok (acc ++ dominance_frontier n)) merges [];
  find_m (fun front => all_of (fun m => query_reachability s m front) merges)
    (unique (sort_descending (order_in (pool s)) frontiers)).

Definition analyze_loop_merge (r : nodref) (a : LoopAnalysis) : SM LoopMergeAnalysis :=
  let merges := inner_dominated_exit a ++ dominated_exit a ++ non_dominated_exit a in
  merge ← find_common_post_dominator_of merges;
  dominated_merge ← find_dominated_merge r merge a;
  dominated_merge ← match dominated_merge with
    | Some m => d ← observe_all (fun s => dominates (pool s) r m);
                mret (if (d : bool) then Some m else None)
    | None => mret None
    end;
  weak_merge ← match merge with
    | Some _ => mret merge
    | None => observe_all (fun s => find_weak_merge s merges)
    end;
  ladder ← match dominated_continue_exit a with
    | [] => mret None
    | [x] => mret (Some x)
    | _ => ubM
    end;
  mret (mkLoopMergeAnalysis merge weak_merge dominated_merge ladder).
End merges.

(** * Candidates for serialization *)

(** The first filter: [itr] is dropped when a later candidate other than the common
    dominator dominates it and is not post-dominated by it. *)
Fixpoint drop_inner_constructs (s : CFGStructurizer) (common_idom : nodref) (l : list nodref)
    : res (list nodref) :=
  match l with
  | [] => Ok []
  | x :: l' =>
      eliminated ← any_of (fun c =>
        (Ok (bool_decide (c <> common_idom))) <&&> (dominates (pool s) c x) <&&>
        (notm (post_dominates (pool s) x c))) l';
      rest ← drop_inner_constructs s common_idom l';
      Ok (if (eliminated : bool) then rest else x :: rest)
  end.

(** The second filter: a candidate may not reach an earlier one, and its dominator has to
    reach another one. *)
Definition valid_construct (s : CFGStructurizer) (candidates : list nodref) (i : nat) (x : nodref)
    : res bool :=
  ifm any_of (query_reachability s x) (take i candidates) then Ok false
  else
    any_of (fun y =>
      n ← node (pool s) x;
      d ← some_or_ub (immediate_dominator n);
      query_reachability s d y) (take i candidates ++ drop (S i) candidates).

Definition filter_serialization_candidates (candidates : list nodref) : SM (list nodref) :=
  key ← gets (fun s => order_in (pool s));
  match sort_ascending key candidates with
  | [] => ubM
  | x :: l =>
      common_idom ← fold_m (fun y c => common_dominator c y) l x;
      candidates ← observe_all (fun s => drop_inner_constructs s common_idom (x :: l));
      valid ← observe_all (fun s =>
        filter_m (fun '(i, y) => valid_construct s candidates i y) (imap (fun i y => (i, y)) candidates));
      mret (snd <$> valid)
  end.

(** * Blocks under a header *)

(** [traverse_dominated_blocks] with an [op] that only changes its captures. *)
Section traverse_const.
Context {A : Type}.
Variable p : CFGNodePool.
Variable op : nodref -> A -> res (bool * A).

Fixpoint traverse_dominated_const (fuel : nat) (header this : nodref) (st : gset nodref * A)
    : res (gset nodref * A) :=
  match fuel with
  | O => UB
  | S fuel' =>
      n ← node p this;
      fold_m (fun x (st : gset nodref * A) =>
        let '(completed, a) := st in
        if decide (x ∈ completed) then Ok st
        else
          let completed := {[x]} ∪ completed in
          ifm dominates p header x then
            r ← op x a;
            let '(go, a) := (r : bool * A) in
            if go then traverse_dominated_const fuel' header x (completed, a) else Ok (completed, a)
          else Ok (completed, a)) (succ n) st
  end.

Definition traverse_dominated_blocks_const (header : nodref) (a : A) : res A :=
  st ← traverse_dominated_const (S (length p)) header header (∅, a);
  Ok (snd (st : gset nodref * A)).
End traverse_const.

Section entry_exit.
Variable s : CFGStructurizer.

Definition is_earlier (candidate : nodref) (existing : option nodref) : res bool :=
  match existing with
  | None => Ok true
  | Some e => c ← node (pool s) candidate; e ← node (pool s) e;
              Ok (forward_post_visit_order e <? forward_post_visit_order c)
  end.
Definition is_later (candidate : nodref) (existing : option nodref) : res bool :=
  match existing with
  | None => Ok true
  | Some e => c ← node (pool s) candidate; e ← node (pool s) e;
              Ok (forward_post_visit_order c <? forward_post_visit_order e)
  end.

(** The first traversal: is there a merge with the header as its dominator, and which is
    the last block that merges inside. *)
Definition find_inner_merge (header merge r : nodref) (st : bool * option nodref)
    : res (bool * (bool * option nodref)) :=
  let '(found, potential) := st in
  n ← node (pool s) r;
  if decide (r = merge) then Ok (false, st)
  else if bool_decide (pred_back_edge n <> None) then Ok (false, st)
  else if num_forward_preds n <=? 1 then Ok (true, st)
  else
    idom ← some_or_ub (immediate_dominator n);
    if decide (idom = header) then Ok (false, (true, potential))
    else
      i ← node (pool s) idom;
      ifm (is_later r potential) <&&> (Ok (bool_decide (immediate_post_dominator i = Some merge))) <&&>
          (notm (exists_path_in_cfg_without_intermediate_node s header r idom))
      then Ok (true, (found, Some r)) else Ok (true, st).

(** The first and the last block that breaks to the outer and to the inner merge. *)
Record Breaks := mkBreaks {
  first_outer : option nodref; first_inner : option nodref;
  last_outer : option nodref; last_inner : option nodref;
}.

Definition find_breaks (merge inner r : nodref) (b : Breaks) : res (bool * Breaks) :=
  if decide (r = merge) then Ok (false, b)
  else if decide (r = inner) then Ok (false, b)
  else
    ifm (query_reachability s r merge) <&&> (query_reachability s r inner) then
      n ← node (pool s) r;
      if zlength (succ n) <? 2 then Ok (true, b)
      else
        to_outer ← any_of (post_dominates (pool s) merge) (succ n);
        to_inner ← any_of (post_dominates (pool s) inner) (succ n);
        if (to_inner : bool) then
          e ← is_earlier r (first_inner b);
          l ← is_later r (last_inner b);
          Ok (true, mkBreaks (first_outer b) (if (e : bool) then Some r else first_inner b)
                      (last_outer b) (if (l : bool) then Some r else last_inner b))
        else if (to_outer : bool) then
          e ← is_earlier r (first_outer b);
          l ← is_later r (last_outer b);
          Ok (true, mkBreaks (if (e : bool) then Some r else first_outer b) (first_inner b)
                      (if (l : bool) then Some r else last_outer b) (last_inner b))
        else Ok (true, b)
    else Ok (false, b).

Definition header_and_merge_block_have_entry_exit_relationship (header merge : nodref) : res bool :=
  ifm post_dominates (pool s) merge header then
    st ← traverse_dominated_blocks_const (pool s) (find_inner_merge header merge) header (false, None);
    let '(found, potential) := (st : bool * option nodref) in
    if found then Ok true
    else match potential with
         | None => Ok false
         | Some inner =>
             b ← traverse_dominated_blocks_const (pool s) (find_breaks merge inner) header
                   (mkBreaks None None None None);
             match first_outer b, first_inner b, last_outer b, last_inner b with
             | Some fo, Some fi, Some lo, Some li =>
                 (is_strictly_dominance_ordered s fi fo li) <||>
                 (is_strictly_dominance_ordered s fo fi lo)
             | _, _, _, _ => Ok false
             end
         end
  else Ok false.
End entry_exit.
