(* ===== verification/LoopTheorems.v ===== *)
(** The blocks and the exits [analyze_loop] finds are those of the natural loop.

    The traces of [LoopBacktracer] and [LoopMergeTracer] run on the pruned graph of the
    analysis; the result is stated on the original edges. *)
From S2P Require Import Prelude.
From S2P Require Import IR.
From S2P Require Import CFGNode.
From S2P Require Import CFGTraversal.
From S2P Require Import CFGGraph.
From S2P Require Import CFGDominators.
From S2P Require Import CFGVisit.
From S2P Require Import CFGForward.
From S2P Require Import CFGSearch.
From S2P Require Import CFGTheorems.
From S2P Require Import CFGLoops.
Local Open Scope Z_scope.

Section backtrace.
Context (p : CFGNodePool) (h : nodref) (V : nodref -> Prop).

(** The blocks a trace goes on to. *)
Definition before (x : nodref) : list nodref :=
  pred_of p x ++ match back_to p x with Some c => [c] | None => [] end.
Definition back_step (a b : nodref) : Prop := a ∈ before b /\ b <> h.

(** A trace does not leave the blocks [V]. *)
Definition stays : Prop := forall x, V x -> is_Some (p !! x) /\ forall y, y ∈ before x -> V y.

Definition traced (C : gset nodref) (x : nodref) (C' : gset nodref) : Prop :=
  C ⊆ C' /\ x ∈ C' /\ (forall z, z ∈ C' -> z ∉ C -> z <> h -> forall y, y ∈ before z -> y ∈ C') /\
  forall z, z ∈ C' -> z ∈ C \/ rtc back_step z x.

Lemma trace_each_spec fuel l C :
  (forall x C, V x -> (size (uncached p C) < fuel)%nat -> exists C',
     trace_to_parent p fuel h x C = Ok C' /\ traced C x C') ->
  (forall y, y ∈ l -> V y) -> (size (uncached p C) < fuel)%nat ->
  exists C', for_each (trace_to_parent p fuel h) l C = Ok C' /\
    C ⊆ C' /\ (forall y, y ∈ l -> y ∈ C') /\
    (forall z, z ∈ C' -> z ∉ C -> z <> h -> forall y, y ∈ before z -> y ∈ C') /\
    (forall z, z ∈ C' -> z ∈ C \/ exists y, y ∈ l /\ rtc back_step z y).
Proof using Type.
  intros IH. revert C. induction l as [|x l IHl]; intros C Hl Hf.
  { exists C. split_and!; try done; [by intros y ?%elem_of_nil|by left]. }
  destruct (IH x C ltac:(apply Hl; left) Hf) as (C1 & E1 & Hsub & Hx & Hcl & Hs).
  destruct (IHl C1) as (C2 & E2 & Hsub2 & Hall & Hcl2 & Hs2).
  { intros y Hy. apply Hl. by right. }
  { eapply Nat.le_lt_trans; [by apply uncached_mono|done]. }
  exists C2. cbn [for_each]. rewrite E1. cbn [mbind res_bind]. split; [done|]. split_and!.
  - set_solver.
  - intros y [->|Hy]%elem_of_cons; [set_solver|auto].
  - intros z Hz HzC Hzh y Hy. destruct (decide (z ∈ C1)) as [H|H]; [|by eapply Hcl2].
    apply Hsub2. by eapply Hcl.
  - intros z Hz. destruct (Hs2 z Hz) as [Hz1|(y & Hy & Hr)].
    + destruct (Hs z Hz1) as [?|?]; [by left|right; exists x; split; [left|done]].
    + right. exists y. split; [by right|done].
Qed.

Lemma trace_to_parent_spec fuel x C : stays -> V x -> (size (uncached p C) < fuel)%nat ->
  exists C', trace_to_parent p fuel h x C = Ok C' /\ traced C x C'.
Proof using Type.
  intros closedV. revert x C. induction fuel as [|fuel IH]; intros x C Vx Hf; [lia|]. cbn [trace_to_parent].
  case_decide as Eh.
  { subst x. exists ({[h]} ∪ C). split; [done|]. split_and!; [set_solver..| |].
    - intros z Hz HzC Hzh. by apply elem_of_union in Hz as [->%elem_of_singleton|?].
    - intros z [->%elem_of_singleton|?]%elem_of_union; [by right|by left]. }
  case_decide as Ec.
  { exists C. split; [done|]. split_and!; try done. by left. }
  destruct (closedV x Vx) as [Hex Hnext]. pose proof Hex as [n Hn]. unfold node. rewrite Hn. cbn [some_or_ub mbind res_bind].
  assert (size (uncached p ({[x]} ∪ C)) < fuel)%nat as Hf'.
  { pose proof (uncached_less p C x Hex Ec). lia. }
  assert (before x = pred n ++ match pred_back_edge n with Some c => [c] | None => [] end) as Eb
    by (unfold before; by rewrite !(get_at _ _ _ _ _ Hn)).
  destruct (trace_each_spec fuel (pred n) ({[x]} ∪ C) IH) as (C1 & -> & Hsub & Hall & Hcl & Hs); [|done|].
  { intros y Hy. apply Hnext. rewrite Eb. apply elem_of_app. by left. }
  cbn [mbind res_bind].
  destruct (trace_each_spec fuel match pred_back_edge n with Some c => [c] | None => [] end C1 IH)
    as (C2 & E2 & Hsub2 & Hall2 & Hcl2 & Hs2).
  { intros y Hy. apply Hnext. rewrite Eb. apply elem_of_app. by right. }
  { eapply Nat.le_lt_trans; [by apply uncached_mono|done]. }
  exists C2. split.
  { destruct (pred_back_edge n); [|done]. cbn [for_each] in E2. by destruct (trace_to_parent _ _ _ _ _). }
  split_and!; [set_solver|set_solver| |].
  - intros z Hz HzC Hzh y Hy. destruct (decide (z = x)) as [->|Hzx].
    + rewrite Eb in Hy. apply elem_of_app in Hy as [Hy|Hy]; auto.
    + destruct (decide (z ∈ C1)) as [Hz1|Hz1]; [|by eapply Hcl2].
      apply Hsub2. eapply Hcl; [done| |done..].
      by intros [?%elem_of_singleton|?]%elem_of_union.
  - intros z Hz. assert (forall y, y ∈ before x -> rtc back_step z y -> rtc back_step z x) as Hstep.
    { intros y Hy Hr. eapply rtc_r; [exact Hr|done]. }
    destruct (Hs2 z Hz) as [Hz1|(y & Hy & Hr)].
    + destruct (Hs z Hz1) as [Hz0|(y & Hy & Hr)].
      * apply elem_of_union in Hz0 as [->%elem_of_singleton|?]; [by right|by left].
      * right. eapply Hstep; [|exact Hr]. rewrite Eb. apply elem_of_app. by left.
    + right. eapply Hstep; [|exact Hr]. rewrite Eb. apply elem_of_app. by right.
Qed.

(** Exactly the blocks with a way to [c] that does not come back to [h]. *)
Lemma loop_blocks_spec c : stays -> V c -> exists B, loop_blocks p h c = Ok B /\
  forall x, x ∈ B <-> rtc back_step x c.
Proof using Type.
  intros HV Vc. destruct (trace_to_parent_spec (S (length p)) c ∅ HV Vc) as (B & E & _ & Hc & Hcl & Hs).
  { unfold uncached. rewrite difference_empty_L, size_set_seq. lia. }
  exists B. split; [exact E|]. intros x. split; intros Hx.
  - by destruct (Hs x Hx) as [?%elem_of_empty|?].
  - revert Hx. apply (rtc_ind_l (fun x => x ∈ B)); [done|].
    intros a b [Hab Hbh] _ Hb. by eapply (Hcl b Hb).
Qed.
End backtrace.

Section exits.
Context (p : CFGNodePool) (B : gset nodref) (V : nodref -> Prop).
Context (forward : forall x, V x -> 0 <= order_of p x /\ exists n, p !! x = Some n /\
  forall y, y ∈ succ n -> V y /\ order_of p y < order_of p x).

(** What can be reached from [x] by forward edges out of blocks of the loop. *)
Definition inside_step (a b : nodref) : Prop := a ∈ B /\ b ∈ succ_of p a.
Definition exit_of (x w : nodref) : Prop := (w ∉ B) /\ rtc inside_step x w.

(** The exits below the traced blocks are found. *)
Definition exits_inv (st : list nodref * gset nodref) : Prop :=
  NoDup st.1 /\ forall z w, z ∈ st.2 -> exit_of z w -> w ∈ st.1.

Definition exits_result (P : nodref -> Prop) (st st' : list nodref * gset nodref) : Prop :=
  exits_inv st' /\ (forall w, w ∈ st.1 -> w ∈ st'.1) /\ st.2 ⊆ st'.2 /\
  (forall w, P w -> w ∈ st'.1) /\ forall w, w ∈ st'.1 -> w ∈ st.1 \/ P w.

Lemma exits_each_spec fuel l st :
  (forall x st, V x -> order_of p x < Z.of_nat fuel -> exits_inv st -> exists st',
     trace_from_parent p B fuel x st = Ok st' /\ exits_result (exit_of x) st st') ->
  (forall x, x ∈ l -> V x /\ order_of p x < Z.of_nat fuel) -> exits_inv st ->
  exists st', for_each (fun x (st : list nodref * gset nodref) =>
      if decide (x ∈ snd st) then Ok st
      else st ← trace_from_parent p B fuel x st;
           Ok (fst (st : list nodref * gset nodref), {[x]} ∪ snd st)) l st = Ok st' /\
    exits_result (fun w => exists x, x ∈ l /\ exit_of x w) st st'.
Proof using Type.
  intros IH. revert st. induction l as [|x l IHl]; intros st Hl HI.
  { exists st. split; [done|]. split_and!; try done; [by intros w (x & ?%elem_of_nil & _)|by left]. }
  assert (exists st1, (if decide (x ∈ snd st) then Ok st
      else st ← trace_from_parent p B fuel x st;
           Ok (fst (st : list nodref * gset nodref), {[x]} ∪ snd st)) = Ok st1 /\
    exits_result (exit_of x) st st1) as (st1 & E1 & R1).
  { case_decide as Hx.
    - exists st. split; [done|]. split_and!; try done; [|by left]. intros w Hw. by eapply HI.
    - destruct (Hl x ltac:(left)) as [Vx Hox]. destruct (IH x st Vx Hox HI) as (st' & -> & R).
      cbn [mbind res_bind]. eexists. split; [done|]. destruct R as ([Hnd Hc] & Hk & Hs & Hf & Ho).
      split_and!; try done; [split; [done|]|].
      + intros z w Hz Hw. simpl in Hz. apply elem_of_union in Hz as [->%elem_of_singleton|Hz]; [by apply Hf|by eapply Hc].
      + etrans; [exact Hs|]. simpl. intros z. rewrite elem_of_union. auto. }
  cbn [for_each]. rewrite E1. cbn [mbind res_bind].
  destruct R1 as (HI1 & Hk1 & Hs1 & Hf1 & Ho1).
  destruct (IHl st1) as (st2 & -> & HI2 & Hk2 & Hs2 & Hf2 & Ho2); [intros y Hy; apply Hl; by right|done|].
  exists st2. split; [done|]. split_and!; [done|auto|by etrans| |].
  - intros w (y & [->|Hy]%elem_of_cons & Hw); [auto|]. apply Hf2. by exists y.
  - intros w Hw. destruct (Ho2 w Hw) as [Hw1|(y & Hy & Hyw)].
    + destruct (Ho1 w Hw1) as [?|?]; [by left|]. right. exists x. split; [left|done].
    + right. exists y. split; [by right|done].
Qed.

Lemma trace_from_parent_spec fuel x st : V x -> order_of p x < Z.of_nat fuel -> exits_inv st ->
  exists st', trace_from_parent p B fuel x st = Ok st' /\ exits_result (exit_of x) st st'.
Proof using forward.
  revert x st. induction fuel as [|fuel IH]; intros x [E T] Vx Hf HI.
  { destruct (forward x Vx). lia. }
  cbn [trace_from_parent]. case_decide as Hb.
  - assert (forall w, exit_of x w -> w = x) as Honly.
    { intros w [_ Hr]. inversion Hr as [|? ? ? [Hin _]]; subst; [done|]. by destruct Hb. }
    exists (push_unique x E, T). split; [done|]. destruct HI as [Hnd Hc]. unfold push_unique. simpl in *.
    split_and!; [split| | | |]; simpl.
    + case_decide; [done|]. apply list.NoDup_app. split_and!; [done| |apply NoDup_singleton].
      intros y Hy ->%list_elem_of_singleton. done.
    + intros z w Hz Hw. case_decide; [by eapply Hc|]. apply elem_of_app. left. by eapply Hc.
    + intros w Hw. case_decide; [done|]. apply elem_of_app. by left.
    + done.
    + intros w Hw. rewrite (Honly w Hw). case_decide; [done|]. apply elem_of_app. right. left.
    + intros w Hw. case_decide; [by left|]. apply elem_of_app in Hw as [?| ->%list_elem_of_singleton]; [by left|].
      right. by split.
  - destruct (decide (x ∈ B)) as [HxB|]; [|done].
    destruct (forward x Vx) as (_ & n & Hn & Hsucc). unfold node. rewrite Hn. cbn [some_or_ub mbind res_bind].
    destruct (exits_each_spec fuel (succ n) (E, T)) as (st' & -> & HI' & Hk & Hs & Hff & Ho).
    + intros y st Vy Hoy HIy. by apply IH.
    + intros y Hy. destruct (Hsucc y Hy). split; [done|lia].
    + done.
    + exists st'. split; [done|]. split_and!; try done.
      * intros w [HwB Hr]. inversion Hr as [|? y ? [_ Hy] Hyw]; subst; [done|].
        rewrite (get_at _ _ _ _ _ Hn) in Hy. apply Hff. by exists y.
      * intros w Hw. destruct (Ho w Hw) as [?|(y & Hy & HwB & Hyw)]; [by left|]. right. split; [done|].
        eapply rtc_l; [|exact Hyw]. split; [done|]. by rewrite (get_at _ _ _ _ _ Hn).
Qed.

Lemma loop_exits_spec x : V x -> order_of p x <= zlength p ->
  exists E, loop_exits p x B = Ok E /\ NoDup E /\ forall w, w ∈ E <-> exit_of x w.
Proof using forward.
  intros Vx Ho. destruct (trace_from_parent_spec (S (length p)) x ([], ∅) Vx) as (st' & E & [Hnd _] & _ & _ & Hf & Hs).
  { unfold zlength in Ho. lia. }
  { split; [constructor|]. intros z w Hz. by apply elem_of_empty in Hz. }
  exists (fst st'). unfold loop_exits. rewrite E. split; [done|]. split; [done|].
  intros w. split; [|apply Hf]. intros Hw. destruct (Hs w Hw) as [?%elem_of_nil|?]; done.
Qed.
End exits.

(** * The natural loop *)

Section natural.
Context (p0 : CFGNodePool) (e : nodref) (s : CFGStructurizer) (back : nodref -> option nodref).
Context (A : analysed p0 e s) (Hred : reducible p0 e back).
Context (Hrec : forall x y, back_from (pool s) x = Some y -> back x = Some y).
Context (h c : nodref) (Hhc : back_to (pool s) h = Some c).
#[local] Abbreviation p := (pool s).
#[local] Abbreviation L := (forward_order s).

(** From [x] there is a way to the back edge that does not come back to the header. *)
Definition in_loop (x : nodref) : Prop :=
  reaches p0 e x /\ rtc (fun a b => b ∈ succ_of p0 a /\ b <> h) x c.

Lemma before_original x y : x ∈ L -> y ∈ before p x <-> y ∈ L /\ x ∈ succ_of p0 y.
Proof using A.
  destruct A as (T & _). intros Hx. unfold before. rewrite elem_of_app. split.
  - intros [Hy|Hy].
    + apply (tr_preds _ _ _ T) in Hy as [Hy Hs]; [|done]. split; [done|]. by apply (tr_edges _ _ _ T) in Hs as [? _].
    + destruct (back_to p x) as [z|] eqn:E; [|by apply elem_of_nil in Hy].
      apply list_elem_of_singleton in Hy as ->. by apply (tr_back_to _ _ _ T), (tr_back_edge _ _ _ T) in E.
  - intros [Hy Hs]. destruct (decide (back_from p y = Some x)) as [Hb|Hb].
    + right. apply (tr_back_to _ _ _ T) in Hb. rewrite Hb. left.
    + left. apply (tr_preds _ _ _ T); [done|]. split; [done|]. by apply (tr_edges _ _ _ T).
Qed.

Lemma trace_stays : stays p (fun x => x ∈ L).
Proof using A.
  intros x Hx. split.
  - destruct A as (T & _). pose proof (tr_graph _ _ _ T). by apply fg_range.
  - intros y Hy. by apply before_original in Hy as [? _].
Qed.

Lemma back_source : c ∈ L /\ h ∈ succ_of p0 c /\ on_every_path p0 e h c.
Proof using A Hhc Hrec Hred.
  destruct A as (T & _). apply (tr_back_to _ _ _ T) in Hhc as Hb.
  destruct (tr_back_edge _ _ _ T _ _ Hb). split_and!; [done..|]. by eapply rd_dominates, Hrec.
Qed.

Lemma in_loop_back x : x ∈ L -> rtc (back_step p h) x c <-> rtc (fun a b => b ∈ succ_of p0 a /\ b <> h) x c.
Proof using A Hhc Hrec Hred.
  destruct back_source as (Hc & _). pose proof A as (T & _). intros Hx. split.
  - intros H. apply (rtc_ind_l (fun x => x ∈ L /\ rtc (fun a b => b ∈ succ_of p0 a /\ b <> h) x c)) in H; [tauto|done|].
    intros a b [Hab Hbh] _ [Hb IH]. apply before_original in Hab as [Ha Hs]; [|done].
    split; [done|]. by eapply rtc_l; [split|].
  - intros H. revert Hx. induction H as [x|a b c' [Hab Hbh] _ IH]; intros Ha; [apply rtc_refl|].
    assert (b ∈ L) as Hb.
    { apply (tr_reached _ _ _ T). apply (tr_reached _ _ _ T) in Ha. eapply rtc_r; [exact Ha|done]. }
    eapply rtc_l; [split; [by apply before_original|exact Hbh]|]. by apply IH.
Qed.

(** The header lies on every path to a block of the loop. *)
Lemma in_loop_dominated x : in_loop x -> on_every_path p0 e h x.
Proof using A Hhc Hrec Hred.
  destruct back_source as (_ & _ & Hdc). intros [_ H].
  apply (rtc_ind_l (fun x => on_every_path p0 e h x)) in H; [done|done|].
  intros a b [Hab Hbh] _ IH l Hl. specialize (IH (b :: l) ltac:(by econstructor)).
  by apply elem_of_cons in IH as [?|?].
Qed.

Lemma header_in_loop : in_loop h.
Proof using A Hhc Hrec Hred.
  destruct back_source as (Hc & _ & Hdc). pose proof A as (T & _).
  apply (tr_reached _ _ _ T) in Hc. assert (exists l, path_from p0 e l c) as [l Hl].
  { revert Hc. apply (rtc_ind_r (fun c => exists l, path_from p0 e l c)); [by eexists; constructor|].
    intros a b _ Hab [l Hl]. exists (b :: l). by econstructor. }
  specialize (Hdc l Hl). clear Hc.
  assert (forall l x, path_from p0 e l x -> h ∈ l ->
    reaches p0 e h /\ rtc (fun a b => b ∈ succ_of p0 a /\ b <> h) h x) as H; [|by eapply H].
  clear l c Hhc Hl Hdc. intros l x Hl. induction Hl as [|l x y Hl IH Hy].
  - intros ->%list_elem_of_singleton. split; apply rtc_refl.
  - intros Hh. destruct (decide (h = y)) as [<-|Hne].
    + split; [|apply rtc_refl]. assert (reaches p0 e x) as Hx; [|by eapply rtc_r].
      clear -Hl. induction Hl; [apply rtc_refl|by eapply rtc_r].
    + apply elem_of_cons in Hh as [?|Hh]; [done|]. destruct (IH Hh) as [H1 H2].
      split; [done|]. eapply rtc_r; [exact H2|]. done.
Qed.

(** Inside the loop all its blocks are reached from the header. *)
Lemma inside_from_header (B : gset nodref) l y : (forall x, x ∈ B <-> in_loop x) ->
  path_from p e l y -> h ∈ l -> y ∈ B -> rtc (inside_step p B) h y.
Proof using A Hhc.
  intros HB Hl. pose proof A as (T & _). pose proof (tr_graph _ _ _ T) as G.
  induction Hl as [|l x y Hl IH Hy]; intros Hh Hyb.
  - apply list_elem_of_singleton in Hh as ->. apply rtc_refl.
  - destruct (decide (h = y)) as [<-|Hne]; [apply rtc_refl|]. apply elem_of_cons in Hh as [?|Hh]; [done|].
    pose proof (path_in_graph p e L _ _ Hl) as Hx.
    assert (x ∈ B) as HxB.
    { apply HB. apply HB in Hyb as [_ Hr]. split; [by apply (tr_reached _ _ _ T)|].
      eapply rtc_l; [|exact Hr]. split; [by apply (tr_edges _ _ _ T) in Hy as [? _]|done]. }
    eapply rtc_r; [by apply IH|]. by split.
Qed.

Lemma exit_of_loop (B : gset nodref) w : (forall x, x ∈ B <-> in_loop x) ->
  exit_of p B h w <-> (w ∉ B) /\ exists y, y ∈ B /\ w ∈ succ_of p y.
Proof using A Hhc Hrec Hred.
  intros HB. pose proof A as (T & _). pose proof (tr_graph _ _ _ T) as G. split; intros [Hw H]; (split; [done|]).
  - assert (h ∈ B) as Hh by (apply HB, header_in_loop).
    apply rtc_inv_r in H as [->|(y & _ & Hy & Hyw)]; [done|]. by exists y.
  - destruct H as (y & Hy & Hyw). eapply rtc_r; [|by split].
    apply HB in Hy as Hyl. pose proof (in_loop_dominated y Hyl) as Hd.
    destruct Hyl as [Hry _]. apply (tr_reached _ _ _ T) in Hry.
    destruct (entry_path p e L y Hry) as [l Hl]. eapply inside_from_header; [done|exact Hl| |done].
    by apply (dominance_original p0 e s back h y A Hred Hrec).
Qed.
End natural.


