(* ===== verification/Passes.v ===== *)
(** The state the passes of the structurizer work on: the graph of CFGTraversal.v, the SPIR-V
    module with its operations, and the members of [CFGStructurizer] only the passes use.

    A pass is a [PM] routine.  Blocks hold pointers to operations, so a pass that changes
    an operation changes it in every block that holds it. *)
From S2P Require Import Prelude.
From S2P Require Import IR.
From S2P Require Import CFGNode.
From S2P Require Import CFGTraversal.
From S2P Require Import CFGGraph.
From S2P Require Import SpvBuilder.
From S2P Require Import SPIRVModule.
Local Open Scope Z_scope.

(** [CFGStructurizer::PHINode] *)
Record PHINode := mkPHINode { phi_block : nodref; phi_index : nat }.

Record Passes := mkPasses {
  cfg : CFGStructurizer;
  module : SPIRVModule;
  structured_loop_merge_targets : gset nodref;
  phi_nodes : list PHINode;
  value_id_to_block : gmap Z nodref;
}.

Definition set_cfg (x : CFGStructurizer) (s : Passes) : Passes := mkPasses x (module s)
    (structured_loop_merge_targets s) (phi_nodes s) (value_id_to_block s).
Definition set_module (x : SPIRVModule) (s : Passes) : Passes := mkPasses (cfg s) x
    (structured_loop_merge_targets s) (phi_nodes s) (value_id_to_block s).
Definition set_structured_loop_merge_targets (x : gset nodref) (s : Passes) : Passes := mkPasses
    (cfg s) (module s) x (phi_nodes s) (value_id_to_block s).
Definition set_phi_nodes (x : list PHINode) (s : Passes) : Passes := mkPasses (cfg s) (module s)
    (structured_loop_merge_targets s) x (value_id_to_block s).
Definition set_value_id_to_block (x : gmap Z nodref) (s : Passes) : Passes := mkPasses (cfg s)
    (module s) (structured_loop_merge_targets s) (phi_nodes s) x.

(** The constructor of [CFGStructurizer]. *)
Definition Passes_new (entry : nodref) (p : CFGNodePool) (m : SPIRVModule) : Passes :=
  mkPasses (CFGStructurizer_new entry p) m ∅ [] ∅.

Definition PM : Type -> Type := M Passes.

Definition on_cfg {A} (m : SM A) : PM A := zoom cfg set_cfg m.
Definition on_nodes {A} (m : NM A) : PM A := on_cfg (on_pool m).
Definition on_module {A} (m : MM A) : PM A := zoom module set_module m.

(** Reads: of the structurizer, with the pool of operations at hand. *)
Definition ask {A} (f : CFGStructurizer -> res A) : PM A := s ← gets cfg; lift (f s).
Definition ask_ops {A} (f : CFGStructurizer -> list Operation -> res A) : PM A :=
  s ← gets cfg; m ← gets module; lift (f s (operation_pool m)).

Definition get_node (r : nodref) : PM CFGNode := on_nodes (node_at r).
Definition set_node (r : nodref) (f : CFGNode -> CFGNode) : PM unit := on_nodes (update r f).
Definition order : PM (list nodref) := s ← gets cfg; mret (forward_order s).

(** * The instructions of a block *)

Definition set_phi (l : list PHI) (n : CFGNode) : CFGNode :=
  set_ir (mkIRBlock l (operations (ir n)) (merge_info (ir n)) (terminator (ir n))) n.
Definition set_operations (l : list opref) (n : CFGNode) : CFGNode :=
  set_ir (mkIRBlock (phi (ir n)) l (merge_info (ir n)) (terminator (ir n))) n.

(** The operations of a block with their pointers. *)
Definition load_ops (l : list opref) : PM (list (opref * Operation)) :=
  mapM_list (fun r => o ← on_module (op_at r); mret (r, o)) l.
Definition block_ops (r : nodref) : PM (list (opref * Operation)) :=
  n ← get_node r; load_ops (operations (ir n)).

(** * enum Operation::flags *)

Definition SinkableBit : Z := 1.
Definition DependencySinkableBit : Z := 2.
Definition AutoGroupSharedBarrier : Z := 4.
Definition SubgroupSyncPre : Z := 8.
Definition SubgroupSyncPost : Z := 16.

Definition has_flag (o : Operation) (f : Z) : bool := negb (Z.land (flags o) f =? 0).
Definition set_flags (f : Z) (o : Operation) : Operation :=
  mkOperation (op o) (op_id o) (op_type_id o) f (arguments o) (argument_count o) (argument_capacity o).
(** [op->flags |= f] and [op->flags &= ~f]; the flags are 8 bits wide. *)
Definition add_flag (f : Z) (o : Operation) : Operation := set_flags (Z.lor (flags o) f) o.
Definition clear_flag (f : Z) (o : Operation) : Operation := set_flags (Z.ldiff (flags o) f) o.

(** The non-literal arguments: [for (i) if (!op->argument_is_literal(i)) ... op->argument(i)]. *)
Definition id_arguments (o : Operation) : res (list Z) :=
  for_range (fun i acc =>
    l ← argument_is_literal o i;
    if (l : bool) then Ok acc else v ← argument o i; Ok (acc ++ [v])) (num_arguments o) [].

(** * Elementary steps *)

Abbreviation nodes s := (pool (cfg s)) (only parsing).
Abbreviation ops_of s := (operation_pool (module s)) (only parsing).

(** Replace the nodes, the operations. *)
Definition with_nodes (p : CFGNodePool) (s : Passes) : Passes := set_cfg (set_pool p (cfg s)) s.
Definition with_ops (l : list Operation) (s : Passes) : Passes :=
  set_module (set_operation_pool l (module s)) s.

Lemma set_cfg_id s : set_cfg (cfg s) s = s.
Proof. by destruct s. Qed.
Lemma set_module_id s : set_module (module s) s = s.
Proof. by destruct s. Qed.

Lemma runs_on_nodes {A} (m : NM A) s (Q : A -> Passes -> Prop) :
  runs m (nodes s) (fun a p => Q a (with_nodes p s)) -> runs (on_nodes m) s Q.
Proof. intros H. by apply runs_zoom, runs_zoom. Qed.

Lemma runs_get_node s r n (Q : CFGNode -> Passes -> Prop) :
  nodes s !! r = Some n -> Q n s -> runs (get_node r) s Q.
Proof.
  intros H HQ. apply runs_on_nodes. eapply runs_node_at; [exact H|].
  unfold with_nodes. by rewrite set_pool_id, set_cfg_id.
Qed.

Lemma runs_set_node s r n f (Q : unit -> Passes -> Prop) :
  nodes s !! r = Some n -> Q tt (with_nodes (<[r := f n]> (nodes s)) s) -> runs (set_node r f) s Q.
Proof. intros H HQ. apply runs_on_nodes. by eapply runs_update. Qed.

Lemma runs_op_at s o x (Q : Operation -> Passes -> Prop) :
  operation_pool (module s) !! o = Some x -> Q x s -> runs (on_module (op_at o)) s Q.
Proof.
  intros H HQ. apply runs_zoom. unfold op_at. apply runs_bind, runs_gets. eapply runs_deref; [exact H|].
  by rewrite set_module_id.
Qed.

Lemma runs_order s (Q : list nodref -> Passes -> Prop) :
  Q (forward_order (cfg s)) s -> runs order s Q.
Proof. intros H. by apply runs_bind, runs_gets, runs_ret. Qed.

Lemma get_node_inv s r n s' : get_node r s = Ok (n, s') -> nodes s !! r = Some n /\ s' = s.
Proof.
  intros (c & E & ->)%zoom_Ok. apply on_pool_node_at_inv in E as [? ->]. by rewrite set_cfg_id.
Qed.

Lemma set_node_inv s r f u s' : set_node r f s = Ok (u, s') ->
  exists n, nodes s !! r = Some n /\ s' = with_nodes (<[r := f n]> (nodes s)) s.
Proof. intros (c & E & ->)%zoom_Ok. apply on_pool_update_inv in E as (n & ? & ->). eauto. Qed.

Lemma op_at_inv s o x s' : on_module (op_at o) s = Ok (x, s') ->
  operation_pool (module s) !! o = Some x /\ s' = s.
Proof.
  intros (m & E & ->)%zoom_Ok. unfold op_at in E. inv_run. by rewrite set_module_id.
Qed.

Lemma update_op_inv s o f u s' : on_module (update_op o f) s = Ok (u, s') ->
  exists x, operation_pool (module s) !! o = Some x /\
    s' = with_ops (<[o := f x]> (operation_pool (module s))) s.
Proof.
  intros (m & E & ->)%zoom_Ok. unfold update_op in E. apply bindM_Ok in E as (x & m' & E & E2).
  unfold op_at in E. inv_run. exists x. split; [done|]. done.
Qed.

Lemma order_inv s l s' : order s = Ok (l, s') -> l = forward_order (cfg s) /\ s' = s.
Proof. unfold order. intros H. by inv_run. Qed.

Lemma ask_inv {A} (f : CFGStructurizer -> res A) s a s' : ask f s = Ok (a, s') -> f (cfg s) = Ok a /\ s' = s.
Proof. unfold ask. intros H. by inv_run. Qed.

Lemma ask_ops_inv {A} (f : CFGStructurizer -> list Operation -> res A) s a s' :
  ask_ops f s = Ok (a, s') -> f (cfg s) (operation_pool (module s)) = Ok a /\ s' = s.
Proof. unfold ask_ops. intros H. by inv_run. Qed.

(** Inversion of the steps of a pass. *)
Ltac inv_pass :=
  repeat match goal with
  | H : get_node _ _ = Ok _ |- _ => apply get_node_inv in H as [? ->]
  | H : set_node _ _ _ = Ok _ |- _ => apply set_node_inv in H as (? & ? & ->)
  | H : on_module (op_at _) _ = Ok _ |- _ => apply op_at_inv in H as [? ->]
  | H : on_module (update_op _ _) _ = Ok _ |- _ => apply update_op_inv in H as (? & ? & ->)
  | H : order _ = Ok _ |- _ => apply order_inv in H as [-> ->]
  | H : ask _ _ = Ok _ |- _ => apply ask_inv in H as [? ->]
  | H : ask_ops _ _ = Ok _ |- _ => apply ask_ops_inv in H as [? ->]
  | _ => progress inv_run
  end.

(** A loop that is known to complete. *)
Lemma fold_m_Ok_inv {S X A} (f : X -> A -> M S A) (I : A -> S -> Prop) l a (s : S) a' s' :
  fold_m f l a s = Ok (a', s') -> I a s ->
  (forall x a s a' s', x ∈ l -> I a s -> f x a s = Ok (a', s') -> I a' s') -> I a' s'.
Proof.
  revert a s; induction l as [|x l IH]; intros a s; simpl.
  { intros [= <- <-]. done. }
  intros (a1 & s1 & E1 & E2)%bindM_Ok HI Hf. eapply IH; [exact E2| |].
  - eapply Hf; [left|done|exact E1].
  - intros y b t b' t' Hy. apply Hf. by right.
Qed.

Lemma for_eachM_Ok_keep {S X} (f : X -> M S unit) (I : S -> Prop) l (s : S) u s' :
  for_eachM f l s = Ok (u, s') -> I s ->
  (forall x s u s', x ∈ l -> I s -> f x s = Ok (u, s') -> I s') -> I s'.
Proof.
  revert s; induction l as [|x l IH]; intros s; simpl.
  { intros [= _ <-]. done. }
  intros (a1 & s1 & E1 & E2)%bindM_Ok HI Hf. eapply IH; [exact E2| |].
  - eapply Hf; [left|done|exact E1].
  - intros y b t b' Hy. apply Hf. by right.
Qed.

(** * The arguments of a well-formed operation *)

Definition ids_of (x : Operation) : list Z := (filter (fun a : Z * bool => a.2 = false) (contents x)).*1.

Lemma id_arguments_run x : op_wf x -> id_arguments x = Ok (ids_of x).
Proof.
  intros Hwf. pose proof Hwf as [Hn _]. unfold id_arguments, num_arguments, for_range, ids_of.
  assert (forall n i acc, 0 <= i -> i + Z.of_nat n = argument_count x ->
    for_from (fun i acc => l ← argument_is_literal x i;
      if (l : bool) then Ok acc else v ← argument x i; Ok (acc ++ [v])) i n acc =
    Ok (acc ++ (filter (fun a : Z * bool => a.2 = false) (drop (Z.to_nat i) (contents x))).*1)) as H.
  { induction n as [|n IH]; intros i acc Hi E; cbn [for_from].
    - rewrite drop_ge; [by rewrite app_nil_r|]. pose proof (zlength_contents x ltac:(lia)) as Hz.
      unfold zlength in Hz. lia.
    - assert (is_Some (zlookup (contents x) i)) as [[v l] Hv].
      { apply zlookup_is_Some. rewrite zlength_contents; lia. }
      destruct (argument_spec x i Hwf Hi) as [Ha Hl]. rewrite Hv in Ha, Hl.
      assert (contents x !! Z.to_nat i = Some (v, l)) as Hv'.
      { unfold zlookup in Hv. by destruct (0 <=? i). }
      rewrite (drop_S _ _ _ Hv'), filter_cons. simpl.
      rewrite Hl. cbn [mbind res_bind].
      replace (S (Z.to_nat i)) with (Z.to_nat (i + 1)) by lia.
      destruct l; simpl.
      + rewrite IH by lia. done.
      + rewrite Ha. cbn [mbind res_bind]. rewrite IH by lia. by rewrite <- app_assoc. }
  rewrite H by lia. done.
Qed.

Lemma elem_of_ids_of x v : op_wf x ->
  v ∈ ids_of x <-> exists i, argument x i = Ok v /\ argument_is_literal x i = Ok false.
Proof.
  intros Hwf. unfold ids_of. rewrite list_elem_of_fmap. split.
  - intros ([w l] & -> & [Hl Hin]%list_elem_of_filter). simpl in *. subst.
    apply list_elem_of_lookup in Hin as [i Hi]. exists (Z.of_nat i).
    destruct (argument_spec x (Z.of_nat i) Hwf ltac:(lia)) as [-> ->]. unfold zlookup.
    destruct (Z.leb_spec 0 (Z.of_nat i)); [|lia]. by rewrite Nat2Z.id, Hi.
  - intros (i & Ha & Hl). assert (0 <= i) as Hi.
    { destruct (Z.leb_spec 0 i); [done|]. exfalso. unfold argument, zlookup in Ha.
      destruct (Z.leb_spec 0 i); [lia|]. by destruct (i <? argument_count x). }
    destruct (argument_spec x i Hwf Hi) as [Ea El]. rewrite Ha in Ea. rewrite Hl in El.
    destruct (zlookup (contents x) i) as [[w l]|] eqn:E; [|done]. injection Ea as ->. injection El as <-.
    exists (w, false). split; [done|]. apply list_elem_of_filter. split; [done|].
    unfold zlookup in E. destruct (0 <=? i); [|done]. by eapply list_elem_of_lookup_2.
Qed.
