(* ===== verification/SSAPasses.v ===== *)
(** The passes over the instructions of the blocks (cfg_structurizer.cpp): the region that
    is locked for raster order views, the workarounds for shuffles and group shared
    memory, sinking, branch hints, and the removal of unused values. *)
From S2P Require Import Prelude.
From S2P Require Import IR.
From S2P Require Import CFGNode.
From S2P Require Import CFGTraversal.
From S2P Require Import SpvBuilder.
From S2P Require Import SPIRVModule.
From S2P Require Import CFGQueries.
From S2P Require Import CFGLoops.
From S2P Require Import Passes.
Local Open Scope Z_scope.
Local Open Scope dxil_scope.

(** * The lock region of raster order views *)

Abbreviation op_entry := (opref * Operation)%type (only parsing).

Definition is_op (code : Z) (e : op_entry) : bool := op (snd e) =? code.
Definition is_begin (e : op_entry) : bool := is_op OpBeginInvocationInterlockEXT e.
Definition is_end (e : op_entry) : bool := is_op OpEndInvocationInterlockEXT e.
Definition without (f : op_entry -> bool) (l : list op_entry) : list op_entry :=
  filter (fun e => f e = false) l.

(** [scrub_rov_begin_lock]: all or all but the first begin go. *)
Definition scrub_rov_begin_lock (preserve_first_begin : bool) (l : list op_entry) : res (list op_entry) :=
  if preserve_first_begin then
    match list_find (fun e => is_begin e = true) l with
    | Some (i, _) => Ok (take (S i) l ++ without is_begin (drop (S i) l))
    | None => UB
    end
  else Ok (without is_begin l).

(** [scrub_rov_end_lock]: all or all but the last end go. *)
Definition scrub_rov_end_lock (preserve_last_end : bool) (l : list op_entry) : list op_entry :=
  if preserve_last_end then
    match list_find (fun e => is_end e = true) (reverse l) with
    | Some (i, _) =>
        let end_ := (length l - S i)%nat in
        without is_end (take end_ l) ++ drop end_ l
    | None => without is_end l
    end
  else without is_end l.

Definition scrub_rov_lock_regions (r : nodref) (preserve_first_begin preserve_last_end : bool) : PM unit :=
  l ← block_ops r;
  l ← lift (scrub_rov_begin_lock preserve_first_begin l);
  set_node r (set_operations (scrub_rov_end_lock preserve_last_end l).*1).

(** [while (pdom != idom) { if (pdom->pred_back_edge) return false; pdom = idom(pdom); }] *)
Fixpoint no_back_edge_walk (p : CFGNodePool) (fuel : nat) (idom pdom : nodref) : res bool :=
  match fuel with
  | O => UB
  | S fuel' =>
      if decide (pdom = idom) then Ok true
      else
        n ← node p pdom;
        if bool_decide (pred_back_edge n <> None) then Ok false
        else d ← some_or_ub (immediate_dominator n); no_back_edge_walk p fuel' idom d
  end.

Definition execution_path_is_single_entry_and_dominates_exit (idom pdom : nodref) : SM bool :=
  exits ← observe_all (fun s => dominates_all_reachable_exits (pool s) idom);
  if negb exits then mret false
  else
    pdom ← common_post_dominator pdom idom;
    n ← on_pool (node_at pdom);
    if bool_decide (immediate_post_dominator n = Some pdom) then mret false
    else
      i ← on_pool (node_at idom);
      d ← observe_all (fun s => dominates (pool s) idom pdom);
      if bool_decide (pred_back_edge i <> None) || negb d then mret false
      else observe_all (fun s => no_back_edge_walk (pool s) (S (length (pool s))) idom pdom).

(** The loop that looks for the outermost loop header around a block. *)
Fixpoint outermost_loop_walk (s : CFGStructurizer) (fuel : nat) (outermost : nodref) : res nodref :=
  match fuel with
  | O => UB
  | S fuel' =>
      if decide (outermost = entry_block s) then Ok outermost
      else
        n ← node (pool s) outermost;
        d ← some_or_ub (immediate_dominator n);
        innermost ← get_innermost_loop_header_for s (entry_block s) d;
        if decide (innermost = entry_block s) then Ok outermost
        else outermost_loop_walk s fuel' innermost
  end.

(** The result holds the new [idom] and [pdom], or tells that there is no such region. *)
Definition find_single_entry_exit_lock_region (ops : list Operation) (idom pdom : nodref)
    (rov_blocks : list nodref) : SM (option (nodref * nodref)) :=
  outermost ← observe_all (fun s =>
    h ← get_innermost_loop_header_for s (entry_block s) idom;
    outermost_loop_walk s (S (length (pool s))) h);
  entry ← gets entry_block;
  if decide (outermost = entry) then mret (Some (idom, pdom))
  else
    h ← on_pool (node_at outermost);
    outside ← observe_all (fun s => any_of (fun rov =>
      (notm (dominates (pool s) outermost rov)) <||>
      (c ← some_or_ub (pred_back_edge h); notm (query_reachability s rov c))) rov_blocks);
    if (outside : bool) then
      single ← execution_path_is_single_entry_and_dominates_exit idom pdom;
      mret (if (single : bool) then Some (idom, pdom) else None)
    else
      analysis ← analyze_loop outermost;
      m ← analyze_loop_merge ops outermost analysis;
      match lm_merge m, lm_dominated_merge m, lm_infinite_continue_ladder m with
      | Some merge, Some dominated_merge, None =>
          if decide (merge = dominated_merge) then
            match pred h with
            | [q] =>
                qn ← on_pool (node_at q);
                mret (if bool_decide (term_type (terminator (ir qn)) = TBranch)
                      then Some (q, merge) else None)
            | _ => mret None
            end
          else mret None
      | _, _, _ => mret None
      end.

(** [while (idom && idom != entry && !idom->post_dominates(entry)) idom = idom(idom);] *)
Fixpoint stretch_to_entry (s : CFGStructurizer) (fuel : nat) (idom : nodref) : res (option nodref) :=
  match fuel with
  | O => UB
  | S fuel' =>
      if decide (idom = entry_block s) then Ok (Some idom)
      else
        ifm post_dominates (pool s) idom (entry_block s) then Ok (Some idom)
        else
          n ← node (pool s) idom;
          match immediate_dominator n with
          | Some d => stretch_to_entry s fuel' d
          | None => Ok None
          end
  end.

Definition find_rov_blocks : PM (list nodref) :=
  l ← order;
  filter_m (fun r => l ← block_ops r; mret (existsb is_begin l)) l.

(** The first and the last block of the region, or nothing when it is not trivial. *)
Definition find_lock_region (rov_blocks : list nodref) : PM (option (nodref * nodref)) :=
  first ← derefM (head rov_blocks);
  idom ← on_cfg (fold_m (fun r d => common_dominator d r) (tail rov_blocks) first);
  idom ← ask (fun s => stretch_to_entry s (S (length (pool s))) idom);
  pdom ← on_cfg (find_common_post_dominator_of rov_blocks);
  ops ← gets (fun s => operation_pool (module s));
  region ← match idom, pdom with
           | Some i, Some p => on_cfg (find_single_entry_exit_lock_region ops i p rov_blocks)
           | _, _ => mret None
           end;
  match region with
  | None => mret None
  | Some (i, p) =>
      d ← ask (fun s => dominates (pool s) i p);
      if negb d then mret None
      else
        p ← on_cfg (common_post_dominator p i);
        n ← get_node p;
        mret (if bool_decide (immediate_post_dominator n = Some p) then None else Some (i, p))
  end.

Section with_fresh.
Context `{FreshMemory}.

(** Lock from [i] to [p]. *)
Definition insert_lock (rov_blocks : list nodref) (i p : nodref) : PM unit :=
  _ ← for_eachM (fun r => scrub_rov_lock_regions r (bool_decide (r = i)) (bool_decide (r = p))) rov_blocks;
  _ ← (if has_element rov_blocks i then mret tt
       else
         b ← on_module (allocate_op OpBeginInvocationInterlockEXT 0 0);
         set_node i (fun n => set_operations (operations (ir n) ++ [b]) n));
  if has_element rov_blocks p then mret tt
  else
    e ← on_module (allocate_op OpEndInvocationInterlockEXT 0 0);
    set_node p (fun n => set_operations (e :: operations (ir n)) n).

Definition rewrite_rov_lock_region : PM bool :=
  _ ← on_cfg recompute_cfg;
  rov_blocks ← find_rov_blocks;
  match rov_blocks with
  | [] => mret true
  | _ =>
      region ← find_lock_region rov_blocks;
      match region with
      | None =>
          _ ← for_eachM (fun r => scrub_rov_lock_regions r false false) rov_blocks;
          mret false
      | Some (i, p) => _ ← insert_lock rov_blocks i p; mret true
      end
  end.
End with_fresh.

(** * Shuffles in small branches *)

Definition is_shuffle (o : Operation) : bool :=
  (op o =? OpGroupNonUniformShuffle) || (op o =? OpGroupNonUniformBroadcast).

(** [sibling != succ && sibling != n && !sibling->ir.operations.empty()] *)
Definition sibling_works (succ n sibling : nodref) : PM bool :=
  if decide (sibling = succ \/ sibling = n) then mret false
  else x ← get_node sibling; mret (negb (bool_decide (operations (ir x) = []))).

(** The blocks that may hand their operations to their predecessor: [if (c) { n } succ]. *)
Definition flatten_candidate (r : nodref) : PM (option (nodref * nodref)) :=
  n ← get_node r;
  match succ n, dominance_frontier n, pred n with
  | [x], [f], [q] =>
      if negb (bool_decide (f = x)) then mret None
      else
        d ← ask (fun s => dominates (pool s) q x);
        qn ← get_node q;
        match (d : bool), succ qn with
        | true, [sibling0; sibling1] =>
            if 4 <? zlength (operations (ir n)) then mret None
            else
              ifm (sibling_works x r sibling0) <||> (sibling_works x r sibling1)
              then mret None else mret (Some (q, x))
        | _, _ => mret None
        end
  | _, _, _ => mret None
  end.

(** May the operation run for both sides of the branch? *)
Definition can_hoist (ds : list Instruction) (o : Operation) : res bool :=
  if is_shuffle o then Ok true
  else
    plain ← (if op o =? OpLoad then a ← argument o 0; Ok (decorated ds a DecorationBuiltIn) else Ok true);
    Ok (plain && negb (opcode_is_control_dependent (op o)) && negb (op_id o =? 0) &&
        negb (opcode_has_side_effect_and_result (op o))).

Definition flatten_block (r : nodref) : PM unit :=
  candidate ← flatten_candidate r;
  match candidate with
  | None => mret tt
  | Some (q, x) =>
      l ← block_ops r;
      xn ← get_node x;
      let used := fun id => existsb (fun f => existsb (fun v => incoming_id v =? id) (phi_incoming f)) (phi (ir xn)) in
      if existsb (fun e : op_entry => is_shuffle (snd e) && used (op_id (snd e))) l then
        ds ← gets (fun s => decorations (builder (module s)));
        safe ← lift (all_of (fun e : op_entry => can_hoist ds (snd e)) l);
        if (safe : bool) then
          n ← get_node r;
          _ ← set_node q (fun qn => set_operations (operations (ir qn) ++ operations (ir n)) qn);
          set_node r (set_operations [])
        else mret tt
      else mret tt
  end.

Definition flatten_subgroup_shuffles : PM unit :=
  _ ← on_cfg recompute_cfg;
  l ← order;
  for_eachM flatten_block l.

(** * Barriers for group shared memory *)

Inductive Kind := KNone | KLoad | KStore | KAtomic.
#[export] Instance Kind_eq_dec : EqDecision Kind.
Proof. solve_decision. Defined.

Record SharedBlock := mkShared {
  sb_node : nodref; innermost_loop : nodref; pre_kind : Kind; post_kind : Kind }.

Definition kind_of (code : Z) : Kind :=
  if (code =? OpLoad) || (code =? PseudoOpMaskedLoad) then KLoad
  else if (code =? OpStore) || (code =? PseudoOpMaskedStore) then KStore
  else KAtomic.

Definition or_flag (f : Z) (o : opref) : PM unit := on_module (update_op o (add_flag f)).
Definition flag_front (f : Z) (r : nodref) : PM unit :=
  n ← get_node r; o ← derefM (head (operations (ir n))); or_flag f o.
Definition flag_back (f : Z) (r : nodref) : PM unit :=
  n ← get_node r; o ← derefM (list.last (operations (ir n))); or_flag f o.

Definition find_shared_blocks : PM (list SharedBlock) :=
  l ← order;
  fold_m (fun r acc =>
    l ← block_ops r;
    if existsb (fun e : op_entry => has_flag (snd e) AutoGroupSharedBarrier) l then
      h ← ask (fun s => innermost_loop_header s r);
      mret (acc ++ [mkShared r h KNone KNone])
    else mret acc) (reverse l) [].

(** One operation of the loop over hazards inside a block: [pending] and [pre_kind]. *)
Definition local_hazard (o : opref) (st : Kind * Kind) : PM (Kind * Kind) :=
  let '(pending, pre) := st in
  x ← on_module (op_at o);
  if has_flag x AutoGroupSharedBarrier then
    let k := kind_of (op x) in
    _ ← (if decide (pending <> k /\ pending <> KNone) then or_flag SubgroupSyncPre o else mret tt);
    mret (k, if decide (pre = KNone) then k else pre)
  else mret st.

Definition local_hazards (b : SharedBlock) : PM SharedBlock :=
  n ← get_node (sb_node b);
  st ← fold_m local_hazard (operations (ir n)) (KNone, pre_kind b);
  mret (mkShared (sb_node b) (innermost_loop b) (snd (st : Kind * Kind)) (fst st)).

(** The walk to an intermediate block between [first] and [second]. *)
Fixpoint intermediate_walk (s : CFGStructurizer) (fuel : nat) (second : nodref) (pdom : option nodref)
    : res (option nodref) :=
  match fuel, pdom with
  | O, _ => UB
  | S _, None => Ok None
  | S fuel', Some x =>
      n ← node (pool s) x;
      ifm (query_reachability s x second) <&&> (notm (dominates (pool s) x second)) then
        match immediate_post_dominator n with
        | Some d => if decide (d = x) then Ok (Some x) else intermediate_walk s fuel' second (Some d)
        | None => Ok (Some x)
        end
      else Ok (Some x)
  end.

Section with_fresh_barrier.
Context `{FreshMemory}.

Definition insert_barrier (first second : nodref) : PM unit :=
  ifm ask (fun s => post_dominates (pool s) second first) then flag_front SubgroupSyncPre second
  else
    ifm ask (fun s => dominates (pool s) first second) then flag_back SubgroupSyncPost first
    else
      f ← get_node first;
      pdom ← ask (fun s => intermediate_walk s (S (length (pool s))) second (immediate_post_dominator f));
      match pdom with
      | None => mret tt
      | Some x =>
          if decide (x = second) then flag_front SubgroupSyncPre second
          else
            n ← get_node x;
            match operations (ir n) with
            | [] =>
                nop ← on_module (allocate_op OpNop 0 0);
                _ ← or_flag SubgroupSyncPost nop;
                set_node x (set_operations [nop])
            | _ => flag_back SubgroupSyncPost x
            end
      end.

(** The first later block that [first] reaches: hazards between the two. *)
Fixpoint next_hazard (blocks : list SharedBlock) (first : SharedBlock) (j : nat) (n : nat)
    : PM (list SharedBlock) :=
  match n with
  | O => mret blocks
  | S n' =>
      second ← derefM (blocks !! j);
      reach ← ask (fun s => query_reachability s (sb_node first) (sb_node second));
      if negb reach then next_hazard blocks first (S j) n'
      else if decide (post_kind first = pre_kind second) then mret blocks
      else
        _ ← insert_barrier (sb_node first) (sb_node second);
        mret (<[j := mkShared (sb_node second) (innermost_loop second) KNone (post_kind second)]> blocks)
  end.

(** Memory that an earlier iteration of the innermost loop wrote. *)
Definition loop_hazard (first : SharedBlock) (later : list SharedBlock) : PM unit :=
  if decide (pre_kind first = KNone) then mret tt
  else
    entry ← gets (fun s => entry_block (cfg s));
    if decide (innermost_loop first = entry) then mret tt
    else
      h ← get_node (innermost_loop first);
      match pred_back_edge h with
      | None => mret tt
      | Some c =>
          complex ← ask (fun s => any_of (fun b => query_reachability s (sb_node b) c) later);
          if (complex : bool) then flag_front SubgroupSyncPre (sb_node first)
          else if decide (pre_kind first = post_kind first) then mret tt
          else flag_back SubgroupSyncPost (sb_node first)
      end.

Fixpoint shared_hazards (blocks : list SharedBlock) (i n : nat) : PM unit :=
  match n with
  | O => mret tt
  | S n' =>
      first ← derefM (blocks !! i);
      blocks ← next_hazard blocks first (S i) (length blocks - S i);
      _ ← loop_hazard first (drop (S i) blocks);
      shared_hazards blocks (S i) n'
  end.

Definition rewrite_auto_group_shared_barrier : PM unit :=
  _ ← on_cfg recompute_cfg;
  blocks ← find_shared_blocks;
  blocks ← mapM_list local_hazards blocks;
  shared_hazards blocks 0 (length blocks).
End with_fresh_barrier.

(** * Sinking *)

(** The block that uses a value, when there is one, and the operation that makes it. *)
Record RewriteState := mkRewrite { consumed_block : option nodref; rw_op : opref }.

Abbreviation sink_map := (gmap Z RewriteState) (only parsing).

Definition unsinkable (o : opref) : PM unit :=
  on_module (update_op o (clear_flag (Z.lor SinkableBit DependencySinkableBit))).

(** One operation of the first loop; the state is [sinkable_ops] and [sinks]. *)
Definition find_sinkable (o : opref) (st : list Z * sink_map) : PM (list Z * sink_map) :=
  let '(sinkable_ops, sinks) := st in
  x ← on_module (op_at o);
  if has_flag x SinkableBit then
    mret (sinkable_ops ++ [op_id x], <[op_id x := mkRewrite None o]> sinks)
  else if negb (op_id x =? 0) && negb (opcode_is_control_dependent (op x)) &&
          negb (opcode_has_side_effect_and_result (op x)) then
    ids ← lift (id_arguments x);
    if existsb (fun id => bool_decide (id ∈ sinkable_ops)) ids then
      _ ← on_module (update_op o (add_flag DependencySinkableBit));
      mret (sinkable_ops ++ [op_id x], <[op_id x := mkRewrite None o]> sinks)
    else mret st
  else if (op x =? OpControlBarrier) || (op x =? OpMemoryBarrier) then
    _ ← for_eachM (fun id => rw ← derefM (sinks !! id); unsinkable (rw_op rw)) sinkable_ops;
    mret ([], sinks)
  else mret st.

Definition find_sinkables : PM sink_map :=
  l ← order;
  fold_m (fun r sinks =>
    n ← get_node r;
    st ← fold_m find_sinkable (operations (ir n)) ([], sinks);
    mret (snd (st : list Z * sink_map))) l ∅.

(** Inputs of PHIs stay where they are. *)
Definition keep_phi_inputs (sinks : sink_map) (r : nodref) : PM unit :=
  n ← get_node r;
  for_eachM (fun f => for_eachM (fun v =>
    match sinks !! incoming_id v with
    | Some rw => unsinkable (rw_op rw)
    | None => mret tt
    end) (phi_incoming f)) (phi (ir n)).

Definition consume_id (id : Z) (r : nodref) (sinks : sink_map) : PM sink_map :=
  match sinks !! id with
  | None => mret sinks
  | Some rw =>
      match consumed_block rw with
      | None => mret (<[id := mkRewrite (Some r) (rw_op rw)]> sinks)
      | Some b => _ ← (if decide (b = r) then mret tt else unsinkable (rw_op rw)); mret sinks
      end
  end.

Definition is_barrier (o : Operation) : bool :=
  (op o =? OpControlBarrier) || (op o =? OpMemoryBarrier).

(** The walk back from the target of a sink over single predecessors. *)
Fixpoint reorderable_walk (s : CFGStructurizer) (ops : list Operation) (fuel : nat) (src dst : nodref)
    : res bool :=
  match fuel with
  | O => UB
  | S fuel' =>
      if decide (src = dst) then Ok true
      else
        n ← node (pool s) dst;
        if (1 <? zlength (pred n)) || bool_decide (pred_back_edge n <> None) then Ok false
        else
          ifm any_of (fun o => o ← some_or_ub (ops !! o); Ok (is_barrier o)) (operations (ir n))
          then Ok false
          else q ← some_or_ub (head (pred n)); reorderable_walk s ops fuel' src q
  end.

Definition path_is_reorderable (s : CFGStructurizer) (ops : list Operation) (src dst : nodref) : res bool :=
  ifm post_dominates (pool s) dst src then Ok false
  else
    n ← node (pool s) dst;
    if bool_decide (pred_back_edge n <> None) then Ok false
    else if 1 <? zlength (pred n) then Ok false
    else d ← some_or_ub (immediate_dominator n);
         reorderable_walk s ops (S (length (pool s))) src d.

(** [ops.erase(ops.begin() + i)] *)
Definition erase_at (i : nat) (l : list opref) : list opref := take i l ++ drop (S i) l.

(** Where the operation goes: the block that uses it, or nowhere. *)
Definition sink_target (sinks : sink_map) (r : nodref) (x : Operation) : PM (option nodref) :=
  match sinks !! op_id x with
  | Some (mkRewrite (Some b) _) =>
      if decide (b = r) then mret None
      else
        ok ← ask_ops (fun s ops => path_is_reorderable s ops r b);
        mret (if (ok : bool) then Some b else None)
  | _ => mret None
  end.

(** Move the operation at index [i] to the front of [b]. *)
Definition move_op (r : nodref) (i : nat) (o : opref) (b : nodref) : PM unit :=
  _ ← set_node b (fun bn => set_operations (o :: operations (ir bn)) bn);
  set_node r (fun n => set_operations (erase_at i (operations (ir n))) n).

(** Decide about an operation; the result is the block its operands are used in. *)
Definition place_op (dry_run : bool) (r : nodref) (i : nat) (o : opref) (x : Operation)
    (sinks : sink_map) : PM nodref :=
  if negb (op_id x =? 0) && has_flag x (Z.lor SinkableBit DependencySinkableBit) then
    target ← sink_target sinks r x;
    match target with
    | Some b => _ ← (if dry_run then mret tt else move_op r i o b); mret b
    | None => _ ← on_module (update_op o (clear_flag SinkableBit)); mret r
    end
  else mret r.

(** The operation at index [i] of the block. *)
Definition sink_op (dry_run : bool) (r : nodref) (i : nat) (sinks : sink_map) : PM sink_map :=
  n ← get_node r;
  o ← derefM (operations (ir n) !! i);
  x ← on_module (op_at o);
  target ← place_op dry_run r i o x sinks;
  x ← on_module (op_at o);
  ids ← lift (id_arguments x);
  fold_m (fun id sinks => consume_id id target sinks) ids sinks.

(** [for (i = ops.size(); i; i--)] *)
Fixpoint sink_ops (dry_run : bool) (r : nodref) (n : nat) (sinks : sink_map) : PM sink_map :=
  match n with
  | O => mret sinks
  | S i => sinks ← sink_op dry_run r i sinks; sink_ops dry_run r i sinks
  end.

Definition sink_block (dry_run : bool) (r : nodref) (sinks : sink_map) : PM sink_map :=
  n ← get_node r;
  let t := terminator (ir n) in
  sinks ← match term_type t with
          | TCondition | TSwitch => consume_id (conditional_id t) r sinks
          | TReturn => if return_value t =? 0 then mret sinks else consume_id (return_value t) r sinks
          | _ => mret sinks
          end;
  sink_ops dry_run r (length (operations (ir n))) sinks.

Definition sink_ssa_constructs_run (dry_run : bool) : PM unit :=
  l ← order;
  sinks ← find_sinkables;
  _ ← for_eachM (keep_phi_inputs sinks) l;
  _ ← fold_m (sink_block dry_run) l sinks;
  if dry_run then
    for_eachM (fun r =>
      n ← get_node r;
      for_eachM (fun o => on_module (update_op o (clear_flag DependencySinkableBit))) (operations (ir n))) l
  else mret tt.

Definition sink_ssa_constructs : PM unit :=
  _ ← sink_ssa_constructs_run true;
  sink_ssa_constructs_run false.

(** * Branch hints *)

Definition set_loop_control_mask (x : Z) (m : MergeInfo) : MergeInfo :=
  mkMergeInfo (merge_type m) (merge_block m) (continue_block m) x (selection_control_mask m).
Definition set_selection_control_mask (x : Z) (m : MergeInfo) : MergeInfo :=
  mkMergeInfo (merge_type m) (merge_block m) (continue_block m) (loop_control_mask m) x.
Definition update_merge_info (f : MergeInfo -> MergeInfo) (n : CFGNode) : CFGNode :=
  set_merge_info (f (merge_info (ir n))) n.

Definition propagate_hints (r : nodref) : PM unit :=
  n ← get_node r;
  _ ← match pred_back_edge n with
      | None => mret tt
      | Some c =>
          cn ← get_node c;
          if force_loop (terminator (ir cn))
          then set_node r (update_merge_info (set_loop_control_mask LoopControlDontUnrollMask))
          else if force_unroll (terminator (ir cn))
          then set_node r (update_merge_info (set_loop_control_mask LoopControlUnrollMask))
          else mret tt
      end;
  let t := terminator (ir n) in
  if bool_decide (term_type t = TCondition) then
    if force_flatten t
    then set_node r (update_merge_info (set_selection_control_mask SelectionControlFlattenMask))
    else if force_branch t
    then set_node r (update_merge_info (set_selection_control_mask SelectionControlDontFlattenMask))
    else mret tt
  else mret tt.

Definition propagate_branch_control_hints : PM unit := l ← order; for_eachM propagate_hints l.

(** * Unused values *)

(** The ids a block uses. *)
Definition used_by_block (r : nodref) (used : gset Z) : PM (gset Z) :=
  n ← get_node r;
  let used := foldl (fun used f => foldl (fun used v => {[incoming_id v]} ∪ used) used (phi_incoming f))
                    used (phi (ir n)) in
  used ← fold_m (fun o used =>
    x ← on_module (op_at o);
    ids ← lift (id_arguments x);
    mret (foldl (fun used id => {[id]} ∪ used) used ids)) (operations (ir n)) used;
  let t := terminator (ir n) in
  let used := if conditional_id t =? 0 then used else {[conditional_id t]} ∪ used in
  mret (if bool_decide (term_type t = TReturn) && negb (return_value t =? 0)
        then {[return_value t]} ∪ used else used).

Definition is_unused (used : gset Z) (o : Operation) : bool :=
  negb (op_id o =? 0) && negb (opcode_has_side_effect_and_result (op o)) && bool_decide (op_id o ∉ used).

(** Drop what is unused from a block; the state is [removed_ids]. *)
Definition remove_unused_from_block (used : gset Z) (r : nodref) (removed : gset Z) : PM (gset Z) :=
  _ ← set_node r (fun n => set_phi (filter (fun f => phi_id f ∈ used) (phi (ir n))) n);
  l ← block_ops r;
  _ ← set_node r (set_operations
        (filter (fun e : op_entry => is_unused used (snd e) = false) l).*1);
  mret (foldl (fun removed e => {[op_id (snd e)]} ∪ removed) removed
          (filter (fun e : op_entry => is_unused used (snd e) = true) l)).

Definition remove_unused_ssa : PM unit :=
  l ← order;
  used ← fold_m used_by_block l ∅;
  removed ← fold_m (remove_unused_from_block used) l ∅;
  on_module (on_builder (removeDecorations removed)).
