(* ===== verification/PhiInsertion.v ===== *)
(** PHI nodes after the CFG was rewritten (cfg_structurizer.cpp): values whose definition
    does not dominate their use any more are passed through variables or made again, and
    every PHI is rebuilt for the predecessors its block has now.

    [std::sort] is a stable sort here; the standard leaves the order of equal elements open. *)
From S2P Require Import Prelude.
From S2P Require Import IR.
From S2P Require Import CFGNode.
From S2P Require Import CFGTraversal.
From S2P Require Import SpvBuilder.
From S2P Require Import SPIRVModule.
From S2P Require Import CFGQueries.
From S2P Require Import Passes.
Local Open Scope Z_scope.
Local Open Scope dxil_scope.

(** * Sorting and access to the PHIs of a block *)

Fixpoint insert_by {A} (key : A -> Z) (x : A) (l : list A) : list A :=
  match l with
  | [] => [x]
  | y :: l' => if key x <=? key y then x :: l else y :: insert_by key x l'
  end.
(** [std::sort] with [key(a) < key(b)]. *)
Definition sort_by {A} (key : A -> Z) (l : list A) : list A := foldr (insert_by key) [] l.

Definition phi_at (x : PHINode) : PM PHI :=
  n ← get_node (phi_block x); derefM (phi (ir n) !! phi_index x).
Definition update_phi (x : PHINode) (f : PHI -> PHI) : PM unit :=
  set_node (phi_block x) (fun n => set_phi (alter f (phi_index x) (phi (ir n))) n).
Definition set_phi_id (id : Z) (f : PHI) : PHI :=
  mkPHI id (phi_type_id f) (phi_relaxed f) (phi_incoming f).
Definition set_incoming (l : list IncomingValue) (f : PHI) : PHI :=
  mkPHI (phi_id f) (phi_type_id f) (phi_relaxed f) l.
Definition push_phi (f : PHI) (r : nodref) : PM unit :=
  set_node r (fun n => set_phi (phi (ir n) ++ [f]) n).
Definition push_op (o : opref) (r : nodref) : PM unit :=
  set_node r (fun n => set_operations (operations (ir n) ++ [o]) n).
Definition push_op_front (o : opref) (r : nodref) : PM unit :=
  set_node r (fun n => set_operations (o :: operations (ir n)) n).

(** An operation of the pool is changed by a method that may fail. *)
Definition modify_op (o : opref) (f : Operation -> res Operation) : PM unit :=
  x ← on_module (op_at o); y ← lift (f x); on_module (update_op o (fun _ => y)).

Definition set_op_id (id : Z) (o : Operation) : Operation :=
  mkOperation (op o) id (op_type_id o) (flags o) (arguments o) (argument_count o) (argument_capacity o).

(** * Incoming values *)

Section queries.
Variable s : CFGStructurizer.

(** The incoming value whose block dominates [frontier_pred] and comes last in the CFG. *)
Definition closer_incoming (frontier_pred : nodref) (v : IncomingValue) (candidate : option IncomingValue)
    : res (option IncomingValue) :=
  b ← some_or_ub (incoming_block v);
  d ← dominates (pool s) b frontier_pred;
  if negb d then Ok candidate
  else
    match candidate with
    | None => Ok (Some v)
    | Some c =>
        cb ← some_or_ub (incoming_block c);
        n ← node (pool s) b;
        cn ← node (pool s) cb;
        Ok (if forward_post_visit_order n <? forward_post_visit_order cn then Some v else candidate)
    end.

Definition find_incoming_value (frontier_pred : nodref) (incoming : list IncomingValue)
    : res (option IncomingValue) :=
  fold_m (closer_incoming frontier_pred) incoming None.

Definition phi_incoming_blocks_find_block (incomings : list IncomingValue) (r : nodref)
    : option (nat * IncomingValue) :=
  list_find (fun v => incoming_block v = Some r) incomings.

Definition is_linear_frontier (end_node b : nodref) (v : IncomingValue) : res bool :=
  c ← some_or_ub (incoming_block v);
  if decide (b = c) then Ok false
  else
    cn ← node (pool s) c;
    if bool_decide (pred_back_edge cn <> None) then Ok false
    else
      (dominates (pool s) b c) <&&> (post_dominates (pool s) c b) <&&>
      (x ← query_reachability s end_node c;
       y ← query_reachability s end_node b; Ok (bool_decide ((x : bool) = y))).

Definition find_linear_phi_control_flow_frontier (incoming : IncomingValue)
    (incoming_values : list IncomingValue) (end_node : nodref) : res (option nodref) :=
  b ← some_or_ub (incoming_block incoming);
  n ← node (pool s) b;
  if bool_decide (pred_back_edge n <> None) then Ok None
  else
    v ← find_m (is_linear_frontier end_node b) incoming_values;
    Ok (v ≫= incoming_block).

(** No predecessor of [n] and not its back edge is dominated by the incoming block. *)
Definition dominates_no_pred (n : CFGNode) (v : IncomingValue) : res bool :=
  b ← some_or_ub (incoming_block v);
  (notm (any_of (dominates (pool s) b) (pred n))) <&&>
  (match pred_back_edge n with
   | None => Ok true
   | Some c => notm (dominates (pool s) b c)
   end).

Definition can_complete_phi_insertion (f : PHI) (r : nodref) : res bool :=
  n ← node (pool s) r;
  ifm any_of (dominates_no_pred n) (phi_incoming f)
  then Ok false
  else
    notm (any_of (fun v =>
      c ← find_linear_phi_control_flow_frontier v (phi_incoming f) r;
      Ok (bool_decide (c <> None))) (phi_incoming f)).

Definition phi_frontier_makes_forward_progress (f : PHI) (frontier end_node : nodref) : res bool :=
  ifm any_of (fun v =>
        b ← some_or_ub (incoming_block v);
        if decide (frontier = b) then Ok false
        else notm (exists_path_in_cfg_without_intermediate_node s b end_node frontier)) (phi_incoming f)
  then Ok true
  else
    notm (any_of (fun v =>
      b ← some_or_ub (incoming_block v);
      query_reachability_split_loop_header s frontier b end_node) (phi_incoming f)).

(** * The next frontier *)

(** The state of the search: the earliest frontier so far and the blocks not to try again. *)
Abbreviation search_state := (option nodref * gset nodref)%type (only parsing).

(** [update_frontier] *)
Definition update_frontier (candidate : nodref) (frontier : option nodref) : res (option nodref) :=
  match frontier with
  | None => Ok (Some candidate)
  | Some x =>
      c ← node (pool s) candidate;
      n ← node (pool s) x;
      Ok (if forward_post_visit_order n <? forward_post_visit_order c then Some candidate else frontier)
  end.

Definition try_candidate (f : PHI) (r candidate : nodref) (st : search_state) : res search_state :=
  let '(frontier, placed) := st in
  if decide (candidate ∈ placed) then Ok st
  else
    progress ← phi_frontier_makes_forward_progress f candidate r;
    if negb progress then Ok (frontier, {[candidate]} ∪ placed)
    else
      n ← node (pool s) candidate;
      if bool_decide (succ_back_edge n <> None) && bool_decide (term_type (terminator (ir n)) = TBranch) &&
         negb (bool_decide (succ_back_edge n = Some r))
      then Ok (frontier, {[candidate]} ∪ placed)
      else
        reach ← query_reachability_through_back_edges s candidate r;
        if (reach : bool) then frontier ← update_frontier candidate frontier; Ok (frontier, placed)
        else Ok st.

Definition try_dominance_frontier (f : PHI) (r : nodref) (v : IncomingValue) (st : search_state)
    : res search_state :=
  b ← some_or_ub (incoming_block v);
  n ← node (pool s) b;
  fold_m (try_candidate f r) (dominance_frontier n) st.

Definition try_linear_frontier (f : PHI) (r : nodref) (v : IncomingValue) (frontier : option nodref)
    : res (option nodref) :=
  c ← find_linear_phi_control_flow_frontier v (phi_incoming f) r;
  match c with
  | Some c => update_frontier c frontier
  | None => Ok frontier
  end.

(** The frontier of an iteration with the blocks not to try again. *)
Definition pick_frontier (f : PHI) (r : nodref) (placed : gset nodref) : res (nodref * gset nodref) :=
  ifm can_complete_phi_insertion f r
  then Ok (r, placed)
  else
    st ← fold_m (try_dominance_frontier f r) (phi_incoming f) (None, placed);
    frontier ← (if bool_decide (fst st = None)
                then fold_m (try_linear_frontier f r) (phi_incoming f) None
                else Ok (fst (st : search_state)));
    x ← some_or_ub frontier;
    Ok (x, {[x]} ∪ snd st).

(** * What remains after a frontier was merged *)

(** The exhausted values move to the end, behind the first [alive] ones. *)
Fixpoint drop_exhausted (n : nat) (frontier end_node : nodref) (l : list IncomingValue) (i alive : nat)
    : res (list IncomingValue) :=
  match n with
  | O => Ok (take alive l)
  | S n' =>
      if (i <? alive)%nat then
        v ← some_or_ub (l !! i);
        b ← some_or_ub (incoming_block v);
        keep ← exists_path_in_cfg_without_intermediate_node s b end_node frontier;
        if (keep : bool) then drop_exhausted n' frontier end_node l (S i) alive
        else
          w ← some_or_ub (l !! (alive - 1)%nat);
          drop_exhausted n' frontier end_node (<[i := w]> (<[(alive - 1)%nat := v]> l)) i (alive - 1)
      else Ok (take alive l)
  end.

(** The value in a block below the frontier that every path from the frontier must pass. *)
Definition find_dominated_incoming (frontier end_node : nodref) (l : list IncomingValue)
    : res (option nat) :=
  fold_m (fun i found =>
    v ← some_or_ub (l !! i);
    b ← some_or_ub (incoming_block v);
    c ← (dominates (pool s) frontier b) <&&>
        (notm (exists_path_in_cfg_without_intermediate_node s frontier end_node b));
    if (c : bool) then _ ← assert_res (bool_decide (found = None)); Ok (Some i)
    else Ok found) (seq 0 (length l)) None.

(** Is the branch from [input] to the frontier one that needs no override? *)
Definition input_is_normal_edge (frontier : nodref) (l : list IncomingValue) (input : nodref) : res bool :=
  v ← find_incoming_value input l;
  if bool_decide (v = None) then Ok true
  else
    d ← dominates (pool s) input frontier;
    if (d : bool) then Ok true
    else any_of (fun w => b ← some_or_ub (incoming_block w); dominates (pool s) b input) l.

End queries.

(** * Inserting one PHI *)

(** The values of the predecessors, undefined where no incoming value reaches one. *)
Definition value_for (type_id : Z) (l : list IncomingValue) (input : nodref) : PM IncomingValue :=
  v ← ask (fun s => find_incoming_value s input l);
  id ← match v with
       | Some v => mret (incoming_id v)
       | None => on_module (on_builder (createUndefined type_id))
       end;
  mret (mkIncoming (Some input) id).

Section with_fresh.
Context `{FreshMemory}.

Definition op_add_id (id : Z) (o : Operation) : res Operation := add_id fresh_words o id.

(** [allocate_op] followed by calls of [add_id]. *)
Definition make_op (code id type_id : Z) (args : list Z) : PM opref :=
  o ← on_module (allocate_op code id type_id);
  _ ← for_eachM (fun a => modify_op o (op_add_id a)) args;
  mret o.

(** The final merge at the block of the PHI. *)
Definition complete_phi (x : PHINode) : PM unit :=
  let r := phi_block x in
  f ← phi_at x;
  n ← get_node r;
  match pred n, pred_back_edge n with
  | [q], None =>
      v ← ask (fun s => find_incoming_value s q (phi_incoming f));
      v ← derefM v;
      o ← make_op OpCopyObject (phi_id f) (phi_type_id f) [incoming_id v];
      _ ← push_op o q;
      update_phi x (set_phi_id 0)
  | _, _ =>
      l ← mapM_list (value_for (phi_type_id f) (phi_incoming f)) (pred n);
      back ← match pred_back_edge n with
             | Some c => v ← value_for (phi_type_id f) (phi_incoming f) c; mret [v]
             | None => mret []
             end;
      update_phi x (set_incoming (l ++ back))
  end.

(** The value that an edge of the frontier contributes to the PHI that selects between the
    two values. *)
Definition merge_phi_value (frontier : nodref) (l : list IncomingValue) (input : nodref)
    (st : list IncomingValue * nat) : PM (list IncomingValue * nat) :=
  normal ← ask (fun s => input_is_normal_edge s frontier l input);
  id ← on_module (on_builder (makeBoolConstant normal));
  mret (fst st ++ [mkIncoming (Some input) id], if (normal : bool) then S (snd st) else snd st).

(** The frontier dominates the [i]-th incoming block: where an edge overrides its value, an
    [OpSelect] takes the frontier's instead. *)
Definition merge_with_dominated (x : PHINode) (frontier : nodref) (frontier_phi : PHI) (i : nat) : PM unit :=
  f ← phi_at x;
  n ← get_node frontier;
  st ← fold_m (merge_phi_value frontier (phi_incoming f)) (pred n) ([], O);
  if (snd (st : list IncomingValue * nat) =? length (pred n))%nat then mret tt
  else
    merge_id ← on_module allocate_id;
    type_id ← on_module (on_builder makeBoolType);
    v ← derefM (phi_incoming f !! i);
    b ← derefM (incoming_block v);
    select_id ← on_module allocate_id;
    o ← make_op OpSelect select_id (phi_type_id f) [merge_id; incoming_id v; phi_id frontier_phi];
    _ ← push_op o b;
    _ ← update_phi x (fun f => set_incoming (<[i := mkIncoming (Some b) select_id]> (phi_incoming f)) f);
    bn ← get_node b;
    _ ← on_module (on_builder (addName merge_id ("merged_phi_" +:+ name bn)));
    push_phi (mkPHI merge_id type_id (phi_relaxed f) (fst st)) frontier.

(** Merge the incoming values that meet at [frontier]. *)
Definition merge_at_frontier (x : PHINode) (frontier : nodref) : PM unit :=
  f ← phi_at x;
  id ← on_module allocate_id;
  n ← get_node frontier;
  _ ← on_module (on_builder (addName id ("frontier_phi_" +:+ name n)));
  _ ← assertM (bool_decide (pred_back_edge n = None));
  values ← mapM_list (value_for (phi_type_id f) (phi_incoming f)) (pred n);
  let frontier_phi := mkPHI id (phi_type_id f) (phi_relaxed f) values in
  let count := length (phi_incoming f) in
  rest ← ask (fun s => drop_exhausted s count frontier (phi_block x) (phi_incoming f) 0 count);
  _ ← update_phi x (set_incoming rest);
  dominated ← ask (fun s => find_dominated_incoming s frontier (phi_block x) rest);
  _ ← match dominated with
      | Some i => merge_with_dominated x frontier frontier_phi i
      | None => update_phi x (set_incoming (rest ++ [mkIncoming (Some frontier) id]))
      end;
  push_phi frontier_phi frontier.

(** One iteration of [for (;;)]. *)
Definition insert_phi_step (x : PHINode) (placed : gset nodref) : PM (gset nodref + unit) :=
  f ← phi_at x;
  st ← ask (fun s => pick_frontier s f (phi_block x) placed);
  if decide (fst (st : nodref * gset nodref) = phi_block x)
  then _ ← complete_phi x; mret (inr tt)
  else _ ← merge_at_frontier x (fst st); mret (inl (snd st)).

(** Nothing in the code bounds the iterations; the model gives up after [2 ^ length nodes]. *)
Definition insert_phi_node (x : PHINode) : PM unit :=
  k ← gets (fun s => length (nodes s));
  out ← repeat_pow k (insert_phi_step x) ∅;
  match out with inl _ => ubM | inr _ => mret tt end.

(** * fixup_phi *)

(** [hoist_incoming] *)
Definition may_hoist_incoming (source b : nodref) (f : PHI) : PM bool :=
  n ← get_node b;
  back ← match succ_back_edge n with
         | Some h => ask (fun s => query_reachability s source h)
         | None => mret false
         end;
  mret (bool_decide (phi_incoming_blocks_find_block (phi_incoming f) source = None) && negb back).

Definition set_incoming_at (x : PHINode) (i : nat) (v : IncomingValue) : PM unit :=
  update_phi x (fun f => set_incoming (<[i := v]> (phi_incoming f)) f).

(** A value that must stay where it is passes through a variable. *)
Definition spill_incoming (x : PHINode) (i : nat) (source b : nodref) (id type_id : Z) : PM unit :=
  var_id ← on_module (create_variable StorageClassFunction type_id (Some "phi_fixup"));
  store_op ← make_op OpStore 0 0 [var_id; id];
  _ ← push_op store_op source;
  loaded_id ← on_module allocate_id;
  load_op ← make_op OpLoad loaded_id type_id [var_id];
  _ ← push_op load_op b;
  set_incoming_at x i (mkIncoming (Some b) loaded_id).

Definition fixup_incoming (x : PHINode) (i : nat) : PM unit :=
  f ← phi_at x;
  v ← derefM (phi_incoming f !! i);
  m ← gets value_id_to_block;
  match m !! incoming_id v with
  | None => mret tt
  | Some source =>
      b ← derefM (incoming_block v);
      d ← ask (fun s => dominates (pool s) source b);
      if (d : bool) then mret tt
      else
        hoist ← may_hoist_incoming source b f;
        if (hoist : bool) then set_incoming_at x i (mkIncoming (Some source) (incoming_id v))
        else spill_incoming x i source b (incoming_id v) (phi_type_id f)
  end.

Definition fixup_phi (x : PHINode) : PM unit :=
  f ← phi_at x;
  for_eachM (fixup_incoming x) (seq 0 (length (phi_incoming f))).

(** * Values whose definition does not dominate their use *)

Record Origin := mkOrigin {
  origin_node : nodref; origin_type_id : Z; rematerialize_op : option opref }.

Abbreviation origin_map := (gmap Z Origin) (only parsing).
Abbreviation consumer_map := (gmap Z (list nodref)) (only parsing).

Definition type_class_is_opaque (type_op : Z) : bool :=
  (type_op =? OpTypeImage) || (type_op =? OpTypeSampler) || (type_op =? OpTypeAccelerationStructureKHR).

Definition is_opaque_type (type_id : Z) : PM bool :=
  c ← on_module (ask_builder (fun b => getTypeClass b type_id)); mret (type_class_is_opaque c).

(** [if (op->argument(i) == from) op->set_argument(i, to)] over the arguments that are ids. *)
Definition rewrite_arguments (from to : Z) (o : Operation) : res Operation :=
  for_range (fun i o =>
    l ← argument_is_literal o i;
    if (l : bool) then Ok o
    else v ← argument o i; if v =? from then set_argument o i to else Ok o) (num_arguments o) o.

Definition rewrite_id (from to id : Z) : Z := if id =? from then to else id.

Definition rewrite_terminator_ids (from to : Z) (t : Terminator) : Terminator :=
  mkTerminator (rewrite_id from to (conditional_id t)) (term_type t) (direct_block t) (true_block t)
    (false_block t) (cases t) (rewrite_id from to (return_value t)) (force_unroll t) (force_loop t)
    (force_flatten t) (force_branch t).

Definition rewrite_consumed_ids (r : nodref) (from to : Z) : PM unit :=
  n ← get_node r;
  _ ← for_eachM (fun o => modify_op o (rewrite_arguments from to)) (operations (ir n));
  set_node r (fun n => set_terminator (rewrite_terminator_ids from to (terminator (ir n))) n).

Definition record_origins (r : nodref) (origin : origin_map) : PM origin_map :=
  n ← get_node r;
  l ← block_ops r;
  let origin := foldl (fun origin (e : opref * Operation) =>
    let '(o, x) := e in
    if (op x =? OpVariable) || (op_id x =? 0) then origin
    else <[op_id x := mkOrigin r (op_type_id x) (if op x =? OpSampledImage then Some o else None)]> origin)
    origin l in
  mret (foldl (fun origin f => <[phi_id f := mkOrigin r (phi_type_id f) None]> origin) origin (phi (ir n))).

Definition mark_node_value_access (origin : origin_map) (r : nodref) (id : Z) (m : consumer_map)
    : PM consumer_map :=
  match origin !! id with
  | None => mret m
  | Some g =>
      d ← ask (fun s => dominates (pool s) (origin_node g) r);
      mret (if negb d || (bool_decide (rematerialize_op g <> None) && negb (bool_decide (r = origin_node g)))
            then <[id := default [] (m !! id) ++ [r]]> m else m)
  end.

(** The consumers with copies of the loads of opaque objects and of the access chains. *)
Record Accesses := mkAccesses {
  consumers : consumer_map; opaque_loads : list Operation; access_chains : list Operation }.
Definition set_consumers (m : consumer_map) (a : Accesses) : Accesses :=
  mkAccesses m (opaque_loads a) (access_chains a).

Definition record_operation (origin : origin_map) (r : nodref) (x : Operation) (a : Accesses) : PM Accesses :=
  ids ← lift (id_arguments x);
  m ← fold_m (mark_node_value_access origin r) ids (consumers a);
  opaque ← (if op x =? OpLoad then is_opaque_type (op_type_id x) else mret false);
  copy ← lift (copy_from fresh_words (Operation_new fresh_words OpNop 0 0) x);
  mret (mkAccesses m (if (opaque : bool) then opaque_loads a ++ [copy] else opaque_loads a)
          (if op x =? OpAccessChain then access_chains a ++ [copy] else access_chains a)).

Definition mark_if_used (origin : origin_map) (r : nodref) (id : Z) (m : consumer_map) : PM consumer_map :=
  if id =? 0 then mret m else mark_node_value_access origin r id m.

Definition record_accesses (origin : origin_map) (r : nodref) (a : Accesses) : PM Accesses :=
  n ← get_node r;
  l ← block_ops r;
  a ← fold_m (fun (e : opref * Operation) => record_operation origin r (snd e)) l a;
  let t := terminator (ir n) in
  m ← mark_if_used origin r (conditional_id t) (consumers a);
  m ← mark_if_used origin r (return_value t) m;
  mret (set_consumers m a).

(** A new operation that copies [x] under a fresh id. *)
Definition duplicate_value (x : Operation) : PM (opref * Z) :=
  o ← on_module (allocate_op OpNop 0 0);
  _ ← modify_op o (fun y => copy_from fresh_words y x);
  id ← on_module allocate_id;
  _ ← on_module (update_op o (set_op_id id));
  b ← gets (fun s => builder (module s));
  _ ← (if hasDecoration b (op_id x) DecorationNonUniform
       then on_module (on_builder (addDecoration id DecorationNonUniform (-1))) else mret tt);
  mret (o, id).

(** Opaque objects and access chains are made again in every block that uses them. *)
Definition sink_variable_op (origin : origin_map) (x : Operation) (m : consumer_map) : PM consumer_map :=
  match m !! op_id x with
  | None => mret m
  | Some l =>
      p ← gets (fun s => nodes s);
      let l := sort_by (order_in p) l in
      ids ← lift (id_arguments x);
      m ← fold_m (fun id => fold_m (fun r => mark_node_value_access origin r id) l) ids m;
      _ ← for_eachM (fun r =>
            e ← duplicate_value x;
            _ ← rewrite_consumed_ids r (op_id x) (snd (e : opref * Z));
            push_op_front (fst e) r) l;
      mret m
  end.

(** Sort the consumers and drop duplicates. *)
Definition sort_unique_node_vector (p : CFGNodePool) (l : list nodref) : list nodref :=
  unique (sort_by (fun r => - order_in p r) l).

Definition rewrite_value (origin : origin_map) (id : Z) (consumers : list nodref) : PM unit :=
  g ← derefM (origin !! id);
  pointer ← on_module (ask_builder (fun b => isPointerType b (origin_type_id g)));
  rematerialized ← (if (pointer : bool) then mret true else is_opaque_type (origin_type_id g));
  match rematerialize_op g with
  | Some o =>
      x ← on_module (op_at o);
      e ← duplicate_value x;
      for_eachM (fun r =>
        _ ← rewrite_consumed_ids r id (snd (e : opref * Z));
        push_op_front (fst e) r) consumers
  | None =>
      if (rematerialized : bool) then mret tt
      else
        var_id ← on_module (create_variable StorageClassFunction (origin_type_id g) None);
        store_op ← make_op OpStore 0 0 [var_id; id];
        _ ← push_op store_op (origin_node g);
        for_eachM (fun r =>
          loaded_id ← on_module allocate_id;
          load_op ← make_op OpLoad loaded_id (origin_type_id g) [var_id];
          _ ← rewrite_consumed_ids r id loaded_id;
          push_op_front load_op r) consumers
  end.

Definition fixup_broken_value_dominance : PM unit :=
  l ← order;
  origin ← fold_m record_origins l ∅;
  a ← fold_m (record_accesses origin) l (mkAccesses ∅ [] []);
  m ← fold_m (sink_variable_op origin) (opaque_loads a ++ access_chains a) (consumers a);
  p ← gets (fun s => nodes s);
  for_eachM (fun e : Z * list nodref => rewrite_value origin (fst e) (sort_unique_node_vector p (snd e)))
    (sort_by fst (map_to_list (m : consumer_map))).

(** * All PHIs *)

(** The branch from a back edge that only serves the analysis goes. *)
Definition prune_dummy_branch (r : nodref) : PM unit :=
  n ← get_node r;
  match pred_back_edge n with
  | None => mret tt
  | Some c =>
      cn ← get_node c;
      let t := terminator (ir cn) in
      match succ cn with
      | [x] =>
          if bool_decide (term_type t = TBranch) && bool_decide (succ_back_edge cn = direct_block t) then
            _ ← set_node c (set_succ []);
            xn ← get_node x;
            _ ← assertM (bool_decide (c ∈ pred xn));
            _ ← set_node x (fun n => set_pred (erase_first c (pred n)) n);
            on_nodes (recompute_dominator x)
          else mret tt
      | _ => mret tt
      end
  end.

Definition record_values (r : nodref) : PM unit :=
  n ← get_node r;
  _ ← for_eachM (fun e : nat * PHI =>
        let '(i, f) := e in
        _ ← modify (fun s => set_phi_nodes (phi_nodes s ++ [mkPHINode r i]) s);
        if phi_id f =? 0 then mret tt
        else modify (fun s => set_value_id_to_block (<[phi_id f := r]> (value_id_to_block s)) s))
        (zip (seq 0 (length (phi (ir n)))) (phi (ir n)));
  l ← block_ops r;
  for_eachM (fun e : opref * Operation =>
    if op_id (snd e) =? 0 then mret tt
    else modify (fun s => set_value_id_to_block (<[op_id (snd e) := r]> (value_id_to_block s)) s)) l.

Definition sort_phi_nodes : PM unit :=
  p ← gets (fun s => nodes s);
  modify (fun s => set_phi_nodes (sort_by (fun x => - order_in p (phi_block x)) (phi_nodes s)) s).

Definition insert_phi : PM unit :=
  l ← order;
  _ ← for_eachM prune_dummy_branch l;
  _ ← on_cfg prune_dead_preds;
  _ ← fixup_broken_value_dominance;
  _ ← for_eachM record_values l;
  _ ← sort_phi_nodes;
  xs ← gets phi_nodes;
  for_eachM (fun x => _ ← fixup_phi x; insert_phi_node x) xs.

(** * fixup_loop_header_undef_phis *)

Definition fixup_undef_incoming (r : nodref) (x : PHINode) (i : nat) : PM unit :=
  f ← phi_at x;
  v ← derefM (phi_incoming f !! i);
  if bool_decide (incoming_block v = Some r) then mret tt
  else
    b ← derefM (incoming_block v);
    d ← ask (fun s => dominates (pool s) b r);
    if negb d then mret tt
    else
      inst ← gets (fun s => getInstruction (builder (module s)) (incoming_id v));
      match inst with
      | Some inst =>
          if opCode inst =? OpUndef then
            id ← on_module (on_builder (makeNullConstant (phi_type_id f)));
            set_incoming_at x i (mkIncoming (Some b) id)
          else mret tt
      | None => mret tt
      end.

Definition fixup_loop_header_undef_phis : PM unit :=
  _ ← on_cfg recompute_cfg;
  l ← order;
  for_eachM (fun r =>
    n ← get_node r;
    if has_pred_back_edges n then
      for_eachM (fun i =>
        let x := mkPHINode r i in
        f ← phi_at x;
        for_eachM (fixup_undef_incoming r x) (seq 0 (length (phi_incoming f))))
        (seq 0 (length (phi (ir n))))
    else mret tt) l.

End with_fresh.
