(* ===== verification/CFGRewrite.v ===== *)
(** The passes that rewrite the CFG before it is structurized (cfg_structurizer.cpp): blocks
    are split or copied for their predecessors, ladder blocks are removed again, branches
    are redirected in the part of the graph a block dominates. *)
From S2P Require Import Prelude.
From S2P Require Import IR.
From S2P Require Import CFGNode.
From S2P Require Import CFGTraversal.
From S2P Require Import SpvBuilder.
From S2P Require Import SPIRVModule.
From S2P Require Import CFGQueries.
From S2P Require Import CFGLoops.
From S2P Require Import Passes.
From S2P Require Import SSAPasses.
From S2P Require Import PhiInsertion.
Local Open Scope Z_scope.
Local Open Scope dxil_scope.

(** * Redirecting branches in a dominated region *)

Section rewrite_branch.
Variables (dominator from to : nodref).
(** [op] and [barrier] *)
Variable filter_op : nodref -> SM bool.
Variable barrier : list nodref.

Definition introduces_cycle (candidate : nodref) : SM bool :=
  c ← on_pool (node_at candidate);
  f ← on_pool (node_at from);
  t ← on_pool (node_at to);
  let same := fun (x : CFGNode) (r : nodref) =>
    (forward_post_visit_order x =? forward_post_visit_order c) && negb (bool_decide (r = candidate)) in
  if same t to || same f from then on_pool (observe (fun p => can_backtrace_to p candidate to))
  else observe_all (fun s => query_reachability s to candidate).

(** The branch of [candidate] to [from]. *)
Definition rewrite_edge (candidate : nodref) : SM unit :=
  cycle ← introduces_cycle candidate;
  if (cycle : bool) then mret tt
  else on_pool (retarget_branch_with_intermediate_node candidate from to).

Definition rewrite_fake_edge (candidate : nodref) : SM unit :=
  fs ← on_pool (field fake_succ candidate);
  if bool_decide (from ∈ fs) then on_pool (retarget_fake_succ candidate from to) else mret tt.

Definition may_traverse (x : nodref) : SM bool :=
  d ← observe_all (fun s => dominates (pool s) dominator x);
  mret ((d : bool) && negb (bool_decide (x = to)) && negb (bool_decide (x ∈ barrier))).

(** The successors are read one by one, because branches are replaced in place. *)
Fixpoint rewrite_branches_from (fuel : nat) (candidate : nodref) (visited : gset nodref)
    : SM (gset nodref) :=
  match fuel with
  | O => ubM
  | S fuel' =>
      ss ← on_pool (field succ candidate);
      visited ←
        (fix loop (i n : nat) (visited : gset nodref) : SM (gset nodref) :=
           match n with
           | O => mret visited
           | S n' =>
               ss ← on_pool (field succ candidate);
               x ← derefM (ss !! i);
               go ← filter_op x;
               if negb go then loop (S i) n' visited
               else if decide (x = from) then _ ← rewrite_edge candidate; loop (S i) n' visited
               else
                 down ← may_traverse x;
                 if (down : bool) && negb (bool_decide (x ∈ visited))
                 then visited ← rewrite_branches_from fuel' x visited; loop (S i) n' visited
                 else loop (S i) n' visited
           end) O (length ss) ({[candidate]} ∪ visited);
      _ ← rewrite_fake_edge candidate;
      mret visited
  end.

(** Blocks whose post dominator was the old target forget it.  Returns those to recompute. *)
Definition forget_post_dominator (r : nodref) (l : list nodref) : SM (list nodref) :=
  n ← on_pool (node_at r);
  if bool_decide (immediate_post_dominator n = Some from) then
    if bool_decide (fake_succ n = []) then
      _ ← on_pool (update r (set_immediate_post_dominator None)); mret (l ++ [r])
    else _ ← on_pool (update r (set_immediate_post_dominator (Some to))); mret l
  else mret l.

Definition traverse_dominated_blocks_and_rewrite_branch_if : SM unit :=
  if decide (from = to) then mret tt
  else
    fuel ← gets (fun s => S (length (pool s)));
    visited ← rewrite_branches_from fuel dominator ∅;
    _ ← on_pool (fixup_merge_info_after_branch_rewrite dominator from to);
    l ← fold_m forget_post_dominator (elements visited) [];
    p ← gets pool;
    _ ← for_eachM (fun r =>
          n ← on_pool (node_at r);
          if bool_decide (immediate_post_dominator n = None)
          then on_pool (recompute_post_dominator r) else mret tt) (sort_by (order_in p) l);
    on_pool (recompute_post_dominator dominator).

End rewrite_branch.

Definition traverse_dominated_blocks_and_rewrite_branch (dominator from to : nodref) : SM unit :=
  traverse_dominated_blocks_and_rewrite_branch_if dominator from to (fun _ => mret true) [].

(** The ladder branches to [true_block] when it was entered from a block with [path_cb]. *)
Definition set_condition (id : Z) (true_b false_b : nodref) (t : Terminator) : Terminator :=
  mkTerminator id TCondition None (Some true_b) (Some false_b) (cases t) (return_value t)
    (force_unroll t) (force_loop t) (force_flatten t) (force_branch t).

Definition rewrite_ladder_conditional_branch_from_incoming_blocks (ladder true_b false_b : nodref)
    (path_cb : nodref -> bool) (phi_name : string) : PM unit :=
  _ ← on_nodes (add_branch ladder true_b);
  _ ← on_nodes (add_branch ladder false_b);
  id ← on_module allocate_id;
  _ ← set_node ladder (fun n => set_terminator (set_condition id true_b false_b (terminator (ir n))) n);
  type_id ← on_module (on_builder makeBoolType);
  _ ← on_module (on_builder (addName id phi_name));
  n ← get_node ladder;
  l ← mapM_list (fun q =>
        c ← on_module (on_builder (makeBoolConstant (path_cb q))); mret (mkIncoming (Some q) c)) (pred n);
  push_phi (mkPHI id type_id false l) ladder.

(** * Blocks that only merge values before a break *)

(** The PHIs of a split block see [break_node] instead of [q].  A condition that is one of the
    PHIs becomes the value from [q]. *)
Definition relink_incoming (q break_node : nodref) (id : Z) (v : IncomingValue)
    (st : list IncomingValue * Z) : list IncomingValue * Z :=
  let '(l, cond) := st in
  if bool_decide (incoming_block v = Some q)
  then (l ++ [mkIncoming (Some break_node) (incoming_id v)], if id =? cond then incoming_id v else cond)
  else (l ++ [v], cond).
Definition relink_phi (q break_node : nodref) (f : PHI) (st : list PHI * Z) : list PHI * Z :=
  let '(l, cond) := st in
  let '(vs, cond) := foldl (fun st v => relink_incoming q break_node (phi_id f) v st) ([], cond) (phi_incoming f) in
  (l ++ [set_incoming vs f], cond).

Definition set_conditional_id (id : Z) (t : Terminator) : Terminator :=
  mkTerminator id (term_type t) (direct_block t) (true_block t) (false_block t) (cases t)
    (return_value t) (force_unroll t) (force_loop t) (force_flatten t) (force_branch t).

(** A copy of the branch of [r] for its predecessor [q]. *)
Definition split_for_pred (r : nodref) (succs : list nodref) (q : nodref) : PM nodref :=
  b ← on_nodes create_node;
  n ← get_node r;
  qn ← get_node q;
  _ ← set_node b (fun x => set_name (name n +:+ ".break." +:+ name qn) (set_terminator (terminator (ir n)) x));
  _ ← for_eachM (fun x => on_nodes (add_branch b x)) succs;
  n ← get_node r;
  _ ← set_node b (fun x => set_immediate_dominator (Some q)
        (set_immediate_post_dominator (immediate_post_dominator n) x));
  _ ← on_nodes (retarget_branch q r b);
  n ← get_node r;
  bn ← get_node b;
  let st := foldl (fun st f => relink_phi q b f st) ([], conditional_id (terminator (ir bn))) (phi (ir n)) in
  _ ← set_node r (set_phi (fst st));
  _ ← set_node b (fun x => set_terminator (set_conditional_id (snd st) (terminator (ir x))) x);
  mret b.

Fixpoint erase_incoming (r : nodref) (l : list IncomingValue) : list IncomingValue :=
  match l with
  | [] => []
  | v :: l' => if bool_decide (incoming_block v = Some r) then l' else v :: erase_incoming r l'
  end.

(** A PHI behind the split block [r] takes the values of the copies. *)
Definition split_incoming (r : nodref) (phis : list PHI) (break_nodes : list nodref) (f : PHI) : res PHI :=
  '(_, v) ← some_or_ub (phi_incoming_blocks_find_block (phi_incoming f) r);
  let rest := erase_incoming r (phi_incoming f) in
  Ok (set_incoming
    (rest ++ match list_find (fun g => phi_id g = incoming_id v) phis with
             | Some (_, g) => phi_incoming g
             | None => (fun b => mkIncoming (Some b) (incoming_id v)) <$> break_nodes
             end) f).

Definition eliminate_node_link_preds_to_succ (r : nodref) : PM unit :=
  n ← get_node r;
  _ ← assertM (bool_decide (length (succ n) = 1%nat) || bool_decide (length (succ n) = 2%nat));
  break_nodes ← mapM_list (split_for_pred r (succ n)) (pred n);
  n ← get_node r;
  _ ← assertM (bool_decide (pred n = []));
  _ ← for_eachM (fun x =>
        n ← get_node r;
        xn ← get_node x;
        l ← lift (fold_m (fun f l => g ← split_incoming r (phi (ir n)) break_nodes f; Ok (l ++ [g]))
                    (phi (ir xn)) []);
        set_node x (fun xn => set_pred (erase_first r (pred xn)) (set_phi l xn))) (succ n);
  set_node r (set_phi []).

Definition cleanup_breaking_phi_constructs : PM unit :=
  l ← order;
  did_work ← fold_m (fun r did_work =>
      b ← ask (fun s => block_is_breaking_phi_construct s r);
      if (b : bool) then _ ← eliminate_node_link_preds_to_succ r; mret true
      else mret did_work) (reverse l) false;
  if (did_work : bool) then on_cfg recompute_cfg else mret tt.

(** * Early returns *)

(** The candidate for splitting and the number of returns that post-dominate something. *)
Definition classify_return (s : CFGStructurizer) (r : nodref) (st : option nodref * Z)
    : res (option nodref * Z) :=
  n ← node (pool s) r;
  if negb (bool_decide (term_type (terminator (ir n)) = TReturn)) then Ok st
  else
    ifm Ok (bool_decide (operations (ir n) = []) && (1 <? num_forward_preds n)) <&&>
        (notm (post_dominates_any_work (pool s) r))
    then Ok (Some r, snd st)
    else
      found ← any_of (post_dominates (pool s) r) (pred n);
      Ok (fst st, if (found : bool) then snd st + 1 else snd st).

Definition set_term_type (x : TerminatorType) (t : Terminator) : Terminator :=
  mkTerminator (conditional_id t) x (direct_block t) (true_block t) (false_block t) (cases t)
    (return_value t) (force_unroll t) (force_loop t) (force_flatten t) (force_branch t).

Definition duplicate_return (r q : nodref) : PM unit :=
  d ← on_nodes create_node;
  n ← get_node r;
  exit ← gets (fun s => exit_block (cfg s));
  _ ← set_node d (fun x => set_name (name n +:+ ".dup") (set_immediate_dominator (immediate_dominator n)
        (set_immediate_post_dominator (Some exit) (set_forward_post_visit_order (forward_post_visit_order n)
          (set_backward_post_visit_order (backward_post_visit_order n)
            (set_terminator (set_term_type TReturn (terminator (ir x))) x))))));
  on_nodes (retarget_branch q r d).

Definition cleanup_breaking_return_constructs : PM bool :=
  l ← order;
  st ← ask (fun s => fold_m (classify_return s) l (None, 0));
  match st with
  | (Some r, count) =>
      if count =? 0 then mret false
      else
        n ← get_node r;
        _ ← for_eachM (duplicate_return r) (pred n);
        _ ← on_cfg recompute_cfg;
        mret true
  | (None, _) => mret false
  end.

(** * Back edges that leave several loops *)

Definition validate_header_suitability (s : CFGStructurizer) (r header : nodref) : res bool :=
  h ← node (pool s) header;
  c ← some_or_ub (pred_back_edge h);
  (notm (query_reachability s r c)) <&&> (notm (can_loop_merge_to (pool s) header r)) <&&>
  (notm (query_reachability s c r)).

(** Walk out of the inner loops.  Returns the last header and the one around it. *)
Fixpoint outer_header_search (s : CFGStructurizer) (r target : nodref) (fuel : nat) (header : nodref)
    : res (nodref * nodref) :=
  match fuel with
  | O => UB
  | S fuel' =>
      h ← node (pool s) header;
      d ← some_or_ub (immediate_dominator h);
      next ← innermost_loop_header s d;
      if decide (next = target) then Ok (header, next)
      else
        ifm validate_header_suitability s r next
        then outer_header_search s r target fuel' next
        else Ok (header, next)
  end.

(** The block to branch to instead, behind the loop that is left on the way. *)
Definition impossible_back_edge (s : CFGStructurizer) (r target : nodref) : res (option nodref) :=
  header ← innermost_loop_header s r;
  if decide (header = target) then Ok None
  else
    '(header, next) ← outer_header_search s r target (S (length (pool s))) header;
    ifm Ok (bool_decide (next = target)) <&&> (validate_header_suitability s r header)
    then
      h ← node (pool s) header;
      c ← some_or_ub (pred_back_edge h);
      cn ← node (pool s) c;
      Ok (match succ cn with [x] => Some x | _ => None end)
    else Ok None.

Definition rewrite_impossible_back_edge (r : nodref) : PM bool :=
  n ← get_node r;
  match succ_back_edge n with
  | None => mret false
  | Some target =>
      x ← ask (fun s => impossible_back_edge s r target);
      match x with
      | None => mret false
      | Some x =>
          ladder ← on_cfg (create_helper_pred_block x);
          n ← get_node r;
          _ ← on_cfg (traverse_dominated_blocks_and_rewrite_branch target r ladder);
          _ ← rewrite_ladder_conditional_branch_from_incoming_blocks ladder r x
                (has_element (pred n)) "tranpose_continue_phi";
          mret true
      end
  end.

Definition rewrite_impossible_back_edges : PM bool :=
  l ← order;
  did_rewrite ← any_of rewrite_impossible_back_edge l;
  if (did_rewrite : bool) then _ ← on_cfg recompute_cfg; mret true else mret false.

(** * The natural merge block of a switch *)

Definition set_global_order (x : Z) (c : Case) : Case := mkCase (case_node c) x (case_value c) (is_default c).
Definition set_cases (l : list Case) (t : Terminator) : Terminator :=
  mkTerminator (conditional_id t) (term_type t) (direct_block t) (true_block t) (false_block t) l
    (return_value t) (force_unroll t) (force_loop t) (force_flatten t) (force_branch t).

Section natural_merge.
Variable s : CFGStructurizer.
Variable post_dominator : option nodref.

Definition case_block (c : Case) : res nodref := some_or_ub (case_node c).

Definition number_cases (l : list Case) : list Case :=
  imap (fun i c => set_global_order (u64 ((Z.of_nat i + 1) * zlength l)) c) l.

(** The first later label that post-dominates [parent], else the last label. *)
Fixpoint max_candidate_index (parent : nodref) (l : list Case) (j : nat) : res (option nat) :=
  match l with
  | [] => Ok None
  | c :: l' =>
      child ← case_block c;
      ifm Ok (negb (bool_decide (child = parent))) <&&> (post_dominates (pool s) child parent)
      then Ok (Some j)
      else max_candidate_index parent l' (S j)
  end.

(** Does [parent] fall through to [child]? *)
Definition is_fallthrough (parent child : nodref) : res bool :=
  c ← node (pool s) child;
  if bool_decide (post_dominator = Some child) || bool_decide (parent = child) ||
     bool_decide (succ_back_edge c <> None) || is_pseudo_back_edge c
  then Ok false else query_reachability s parent child.

(** The order of the [i]-th label: right before the last label it falls through to. *)
Definition fallthrough_order (l : list Case) (i : nat) (c : Case) : res Case :=
  parent ← case_block c;
  let later := drop (S i) l in
  m ← max_candidate_index parent later 0;
  let tested := match m with Some j => take (S j) later | None => later end in
  x ← find_m (fun c' => child ← case_block c'; is_fallthrough parent child) (reverse tested);
  Ok (match x with Some c' => set_global_order (u64 (global_order c' - 1)) c | None => c end).

Fixpoint reassign_orders (l : list Case) (i n : nat) : res (list Case) :=
  match n with
  | O => Ok l
  | S n' =>
      c ← some_or_ub (l !! i);
      c ← fallthrough_order l i c;
      reassign_orders (<[i := c]> l) (S i) n'
  end.

(** The cases in the order of the fallthrough between them. *)
Definition sort_cases (l : list Case) : res (list Case) :=
  _ ← fold_m (fun c _ => _ ← case_block c; Ok tt) l tt;
  let key := fun c => - order_in (pool s) (default O (case_node c)) in
  let l := sort_by key (number_cases l) in
  l ← reassign_orders l 0 (length l);
  Ok (sort_by global_order l).

(** Two labels that would have to come right before the same label. *)
Fixpoint impossible_order (l : list Case) : option Z :=
  match l with
  | c :: (d :: _) as l' =>
      if global_order d =? global_order c then Some (u64 (global_order d + 1)) else impossible_order l'
  | _ => None
  end.

(** All but one label lead to the continue block of one loop.  Returns the other label and
    the loop header. *)
Fixpoint single_break_label (l : list Case) (candidate header : option nodref)
    : res (option nodref * option nodref) :=
  match l with
  | [] => Ok (candidate, header)
  | c :: l' =>
      b ← case_block c;
      back_edge ← scan_plain_continue_block s b;
      n ← node (pool s) back_edge;
      match succ_back_edge n with
      | None =>
          match candidate with
          | Some _ => Ok (None, header)
          | None => single_break_label l' (Some b) header
          end
      | Some h =>
          if bool_decide (header <> None) && negb (bool_decide (header = Some h)) then Ok (candidate, None)
          else single_break_label l' candidate (Some h)
      end
  end.

Definition later_candidate (front : nodref) (candidate : option nodref) : res (option nodref) :=
  match candidate with
  | None => Ok (Some front)
  | Some x =>
      f ← node (pool s) front;
      n ← node (pool s) x;
      Ok (if forward_post_visit_order n <? forward_post_visit_order f then Some front else candidate)
  end.

(** A frontier of a label that another label reaches as well. *)
Definition shared_frontier (cases : list Case) (labels_allowed : bool) (b front : nodref)
    (candidate : option nodref) : res (option nodref) :=
  f ← node (pool s) front;
  if bool_decide (succ_back_edge f <> None) || is_pseudo_back_edge f then Ok candidate
  else if negb labels_allowed && existsb (fun c => bool_decide (case_node c = Some front)) cases then Ok candidate
  else
    before ← match post_dominator with
             | None => Ok true
             | Some pd =>
                 pn ← node (pool s) pd;
                 if forward_post_visit_order f =? forward_post_visit_order pn then Ok false
                 else query_reachability s front pd
             end;
    if negb before then Ok candidate
    else
      fold_m (fun c candidate =>
        ic ← case_block c;
        ifm Ok (negb (bool_decide (ic = b))) <&&> (query_reachability s ic front)
        then later_candidate front candidate else Ok candidate) cases candidate.

Definition find_shared_frontier (cases : list Case) (labels_allowed : bool) (candidate : option nodref)
    : res (option nodref) :=
  fold_m (fun c candidate =>
    b ← case_block c;
    n ← node (pool s) b;
    fold_m (shared_frontier cases labels_allowed b) (dominance_frontier n) candidate) cases candidate.

Definition natural_merge_of (r : nodref) (cases : list Case) : res (option nodref) :=
  let impossible := impossible_order cases in
  let candidate := o ← impossible; '(_, c) ← list_find (fun c => global_order c = o) cases; case_node c in
  let labels_allowed := bool_decide (impossible <> None) && bool_decide (candidate = None) in
  early ← (if bool_decide (candidate = None) then
             pd ← some_or_ub post_dominator;
             d ← dominates (pool s) r pd;
             if (d : bool) then Ok None
             else
               '(break_label, header) ← single_break_label cases None None;
               Ok (if bool_decide (header = None) then None else break_label)
           else Ok None);
  match early with
  | Some x => Ok (Some x)
  | None =>
      candidate ← find_shared_frontier cases labels_allowed candidate;
      Ok (match candidate with Some x => Some x | None => post_dominator end)
  end.
End natural_merge.

(** The cases of the switch are sorted in place. *)
Definition find_natural_switch_merge_block (r : nodref) (post_dominator : option nodref)
    : SM (option nodref) :=
  n ← on_pool (node_at r);
  cases ← observe_all (fun s => sort_cases s post_dominator (cases (terminator (ir n))));
  _ ← on_pool (update r (fun n => set_terminator (set_cases cases (terminator (ir n))) n));
  observe_all (fun s => natural_merge_of s post_dominator r cases).

(** * Ladders in front of continue blocks *)

(** A switch whose natural merge is not the continue block it post-dominates at. *)
Definition switch_blocks_merge (r header : nodref) : SM bool :=
  h ← on_pool (node_at header);
  if is_switch h then
    merge ← find_common_post_dominator_of (succ h);
    natural_merge ← find_natural_switch_merge_block header merge;
    mret (bool_decide (merge = Some r) && negb (bool_decide (natural_merge = merge)))
  else mret false.

(** The loop over the predecessors that looks for a selection merge.  [None] is
    [return false]. *)
Fixpoint find_pred_candidate (r header : nodref) (l : list nodref) (candidate : option nodref)
    : SM (option (option nodref)) :=
  match l with
  | [] => mret (Some candidate)
  | q :: l' =>
      n ← on_pool (node_at r);
      qn ← on_pool (node_at q);
      merges ← observe_all (fun s =>
        Ok ((2 <=? num_forward_preds qn) && (2 <=? length (succ qn))%nat && negb (bool_decide (header = q)))
          <&&> (notm (dominates (pool s) q r)) <&&> (notm (post_dominates (pool s) r q)));
      candidate ← (if (merges : bool) then
                     d ← common_post_dominator r q;
                     mret (if has_element (succ n) d then candidate else Some q)
                   else mret candidate);
      stop ← (if is_switch qn then observe_all (fun s => notm (post_dominates (pool s) r q)) else mret false);
      if (stop : bool) then mret None else find_pred_candidate r header l' candidate
  end.

Definition continue_block_can_merge (r : nodref) : SM bool :=
  n ← on_pool (node_at r);
  header ← derefM (succ_back_edge n);
  inner ← observe_all (fun s => any_of (fun q =>
    qn ← node (pool s) q;
    match succ_back_edge qn with
    | Some h => if decide (header = h) then Ok false else dominates (pool s) header h
    | None => Ok false
    end) (pred n));
  if (inner : bool) then mret true
  else if bool_decide (operations (ir n) = []) && bool_decide (term_type (terminator (ir n)) = TBranch)
  then mret false
  else
    blocked ← switch_blocks_merge r header;
    if (blocked : bool) then mret false
    else
      candidate ← find_pred_candidate r header (pred n) None;
      match candidate with
      | None => mret false
      | Some None => mret true
      | Some (Some x) =>
          escape ← observe_all (fun s => any_of (fun q =>
            if decide (q = header \/ q = x) then Ok false else notm (dominates (pool s) q r)) (pred n));
          mret (negb escape)
      end.

Definition create_continue_block_ladders : SM unit :=
  l ← gets forward_order;
  need ← fold_m (fun r need =>
    n ← on_pool (node_at r);
    can ← (if block_is_plain_continue n r then continue_block_can_merge r else mret false);
    if (can : bool) then _ ← create_helper_pred_block r; mret true else mret need) l false;
  if (need : bool) then recompute_cfg else mret tt.

Definition insert_merge_targets : PM unit :=
  l ← order;
  for_eachM (fun r =>
    n ← get_node r;
    modify (fun s => set_structured_loop_merge_targets
      (list_to_set (option_list (loop_merge_block n) ++ option_list (loop_ladder_block n)) ∪
       structured_loop_merge_targets s) s)) l.

Definition update_structured_loop_merge_targets : PM unit :=
  _ ← modify (set_structured_loop_merge_targets ∅);
  _ ← insert_merge_targets;
  _ ← on_cfg recompute_cfg;
  insert_merge_targets.

(** * Copies of a block for each predecessor *)

Section with_fresh.
Context `{FreshMemory}.

Definition get_remapped_id_for_duplicated_block (id : Z) (remap : gmap Z Z) : Z := default id (remap !! id).

(** The arguments of the copy.  The flags of the operation are not copied. *)
Definition duplicate_arguments (x : Operation) (remap : gmap Z Z) (d : Operation) : res Operation :=
  d ← reserve_arguments fresh_words d (num_arguments x);
  for_range (fun i d =>
    l ← argument_is_literal x i;
    v ← argument x i;
    if (l : bool) then add_literal fresh_words d v
    else add_id fresh_words d (get_remapped_id_for_duplicated_block v remap)) (num_arguments x) d.

Definition duplicate_op (o : opref) (remap : gmap Z Z) : PM (opref * gmap Z Z) :=
  x ← on_module (op_at o);
  d ← (if op_id x =? 0 then on_module (allocate_op (op x) 0 0)
       else id ← on_module allocate_id; on_module (allocate_op (op x) id (op_type_id x)));
  _ ← modify_op d (duplicate_arguments x remap);
  y ← on_module (op_at d);
  mret (d, if op_id x =? 0 then remap else <[op_id x := op_id y]> remap).

Definition can_duplicate_phis (s : CFGStructurizer) (r : nodref) : res bool :=
  n ← node (pool s) r;
  missing ← any_of (fun q => any_of (fun f =>
    v ← find_incoming_value s q (phi_incoming f); Ok (bool_decide (v = None))) (phi (ir n))) (pred n);
  if (missing : bool) then Ok false
  else
    notm (any_of (fun f => any_of (fun v =>
      b ← some_or_ub (incoming_block v);
      notm (any_of (dominates (pool s) b) (pred n))) (phi_incoming f)) (phi (ir n))).

(** A decoration of the original moves to the copy. *)
Definition move_decoration (id copy_id decoration num : Z) (removed : gset Z) : PM (gset Z) :=
  b ← gets (fun s => builder (module s));
  if hasDecoration b id decoration
  then _ ← on_module (on_builder (addDecoration copy_id decoration num)); mret ({[id]} ∪ removed)
  else mret removed.

Definition duplicate_op_into (b : nodref) (o : opref) (st : gmap Z Z * gset Z) : PM (gmap Z Z * gset Z) :=
  let '(remap, removed) := st in
  e ← duplicate_op o remap;
  x ← on_module (op_at o);
  d ← on_module (op_at (fst (e : opref * gmap Z Z)));
  removed ← move_decoration (op_id x) (op_id d) DecorationNoContraction (-1) removed;
  removed ← move_decoration (op_id x) (op_id d) DecorationFPFastMathMode FPFastMathModeAllowRecipMask removed;
  _ ← push_op (fst e) b;
  mret (snd e, removed).

Definition copy_terminator (t : Terminator) (remap : gmap Z Z) (d : Terminator) : Terminator :=
  mkTerminator (if conditional_id t =? 0 then conditional_id d
                else get_remapped_id_for_duplicated_block (conditional_id t) remap)
    (term_type t) (direct_block t) (true_block t) (false_block t) (cases d) (return_value d)
    (force_unroll d) (force_loop d) (force_flatten d) (force_branch d).

(** The copy of [r] for [q] with the ids that stand for the values of [r]. *)
Definition duplicate_for_pred (r : nodref) (succs : list nodref) (q : nodref) : PM (nodref * gmap Z Z) :=
  b ← on_nodes create_node;
  n ← get_node r;
  qn ← get_node q;
  _ ← set_node b (fun x => set_name (name n +:+ ".dup." +:+ name qn)
        (set_immediate_post_dominator (immediate_post_dominator n) (set_immediate_dominator (Some q) x)));
  _ ← on_nodes (retarget_branch q r b);
  _ ← for_eachM (fun x => on_nodes (add_branch b x)) succs;
  n ← get_node r;
  remap ← ask (fun s => fold_m (fun f remap =>
    v ← find_incoming_value s q (phi_incoming f);
    v ← some_or_ub v;
    Ok (<[phi_id f := incoming_id v]> remap)) (phi (ir n)) ∅);
  st ← fold_m (duplicate_op_into b) (operations (ir n)) (remap, ∅);
  _ ← on_module (on_builder (removeDecorations (snd (st : gmap Z Z * gset Z))));
  _ ← set_node b (fun x => set_terminator (copy_terminator (terminator (ir n)) (fst st) (terminator (ir x))) x);
  mret (b, fst st).

(** The blocks along the chain of single successors, with the headers of back edges. *)
Fixpoint phi_chain (p : CFGNodePool) (fuel : nat) (x : nodref) : res (list nodref) :=
  match fuel with
  | O => UB
  | S fuel' =>
      n ← node p x;
      rest ← match succ n with [y] => phi_chain p fuel' y | _ => Ok [] end;
      Ok (option_list (succ_back_edge n) ++ [x] ++ rest)
  end.

Definition duplicate_incoming (r : nodref) (copies : list (nodref * gmap Z Z)) (f : PHI) : PHI :=
  match phi_incoming_blocks_find_block (phi_incoming f) r with
  | Some (_, v) =>
      set_incoming (erase_incoming r (phi_incoming f) ++
        ((fun e : nodref * gmap Z Z =>
          mkIncoming (Some (fst e)) (get_remapped_id_for_duplicated_block (incoming_id v) (snd e))) <$> copies)) f
  | None => f
  end.

Definition duplicate_node (r : nodref) : PM unit :=
  n ← get_node r;
  _ ← assertM (bool_decide (term_type (terminator (ir n)) ∈ [TBranch; TCondition]));
  _ ← assertM (2 <=? length (pred n))%nat;
  all ← ask (fun s => all_of (fun x => notm (dominates (pool s) r x)) (succ n));
  _ ← assertM all;
  copies ← mapM_list (duplicate_for_pred r (succ n)) (pred n);
  n' ← get_node r;
  _ ← assertM (bool_decide (pred n' = []));
  chains ← ask (fun s => fold_m (fun x l =>
    c ← phi_chain (pool s) (S (length (pool s))) x; Ok (l ++ c)) (succ n) []);
  for_eachM (fun x => set_node x (fun xn => set_phi (duplicate_incoming r copies <$> phi (ir xn)) xn)) chains.

End with_fresh.

(** * Merge blocks that cannot stay one block *)

Definition block_is_ambiguous_switch_merge_block (r : nodref) : SM bool :=
  n ← on_pool (node_at r);
  dominating ← observe_all (fun s => any_of (dominates (pool s) r) (succ n));
  if (dominating : bool) then mret false
  else
    any_of (fun pdf =>
      f ← on_pool (node_at pdf);
      if negb (is_switch f) || negb (has_element (dominance_frontier f) r) then mret false
      else
        pdom ← common_post_dominator r pdf;
        observe_all (fun s => any_of (fun c =>
          b ← case_block c;
          ifm (notm (query_reachability s b r)) <&&> (notm (query_reachability s r b))
          then
            cn ← node (pool s) b;
            any_of (fun df =>
              (notm (dominates (pool s) pdf df)) <&&>
              (Ok (negb (bool_decide (df = pdom)) && has_element (dominance_frontier n) df)))
              (dominance_frontier cn)
          else Ok false) (cases (terminator (ir f))))) (post_dominance_frontier n).

Definition must_duplicate (r : nodref) : PM bool :=
  n ← get_node r;
  if bool_decide (succ_back_edge n <> None) then mret false
  else
    ops ← gets (fun s => ops_of s);
    breaking ← ask (fun s => is_breaking_merge_candidate s ops r);
    breaking ← (if negb breaking && (1 <? num_forward_preds n)
                then on_cfg (block_is_ambiguous_switch_merge_block r) else mret breaking);
    if (breaking : bool) && negb (bool_decide (operations (ir n) = []))
    then ask (fun s => notm (block_is_control_dependent s ops r))
    else mret false.

Definition duplicate_impossible_merge_constructs `{FreshMemory} : PM unit :=
  l ← order;
  duplicate_queue ← filter_m must_duplicate (reverse l);
  match duplicate_queue with
  | [] => mret tt
  | _ =>
      _ ← for_eachM (fun r =>
            can ← ask (fun s => can_duplicate_phis s r);
            if (can : bool) then duplicate_node r else mret tt) duplicate_queue;
      on_cfg recompute_cfg
  end.

(** * Ladder blocks that do nothing *)

Section degenerate.
Variable s : CFGStructurizer.
Variable r x : nodref.

(** [check_is_load_bearing_continue_succ], with [x] the successor of [r]. *)
Definition is_load_bearing_continue (q : nodref) : res bool :=
  n ← node (pool s) q;
  match succ_back_edge n with
  | None => Ok false
  | Some h =>
      (notm (post_dominates (pool s) x h)) <||> (notm (dominates (pool s) h x)) <||>
      (dominates (pool s) q r)
  end.

(** [continue;] of the loop: the block may serve as a merge target. *)
Definition is_load_bearing_ladder (n : CFGNode) : res bool :=
  (any_of is_load_bearing_continue (pred n)) <||>
  (match pred n with
   | [q] =>
       qn ← node (pool s) q;
       match pred_back_edge qn with
       | Some c => cn ← node (pool s) c; Ok (bool_decide (succ cn = []))
       | None => Ok false
       end
   | _ => Ok false
   end) <||>
  (any_of (fun y => yn ← node (pool s) y; Ok (bool_decide (succ_back_edge yn <> None))) (succ n)).
End degenerate.

Definition does_nothing (n : CFGNode) : bool :=
  bool_decide (operations (ir n) = []) && bool_decide (phi (ir n) = []) &&
  bool_decide (pred_back_edge n = None) && bool_decide (succ_back_edge n = None) &&
  negb (is_pseudo_back_edge n) && bool_decide (length (succ n) = 1%nat) &&
  bool_decide (term_type (terminator (ir n)) = TBranch) && bool_decide (merge n = MergeNone).

Definition reset_frontier (r : nodref) : PM unit :=
  set_node r (set_dominance_frontier []).

(** The only predecessor branches to the successor at once. *)
Definition bypass_single (r q x : nodref) : PM unit :=
  _ ← on_nodes (retarget_branch q r x);
  _ ← reset_frontier q;
  _ ← on_nodes (recompute_dominance_frontier x);
  on_nodes (recompute_dominance_frontier q).

Definition bypass_all (r : nodref) (preds : list nodref) : PM unit :=
  _ ← for_eachM (fun q =>
        n ← get_node r;
        x ← derefM (head (succ n));
        on_nodes (retarget_branch_with_intermediate_node q r x)) preds;
  p ← gets (fun s => nodes s);
  for_eachM (fun q => _ ← reset_frontier q; on_nodes (recompute_dominance_frontier q))
    (sort_by (order_in p) preds).

(** The result tells whether the block went. *)
Definition eliminate_degenerate_block (r : nodref) : PM bool :=
  n ← get_node r;
  targets ← gets structured_loop_merge_targets;
  match succ n with
  | [x] =>
      if negb (does_nothing n) || bool_decide (r ∈ targets) then mret false
      else
        keep ← ask (fun s => (ladder_chain_has_phi_dependencies s x r) <||> (is_load_bearing_ladder s r x n));
        if (keep : bool) then mret false
        else
          single ← match pred n with
                   | [q] => d ← ask (fun s => post_dominates (pool s) r q); mret (if (d : bool) then Some q else None)
                   | _ => mret None
                   end;
          match single with
          | Some q => _ ← bypass_single r q x; mret true
          | None =>
              ops ← gets (fun s => ops_of s);
              go ← ask (fun s => (merge_candidate_is_inside_continue_construct s r) <||>
                                 (is_breaking_merge_candidate s ops r));
              if (go : bool) then _ ← bypass_all r (pred n); mret true else mret false
          end
  | _ => mret false
  end.

Definition eliminate_degenerate_blocks : PM unit :=
  l ← order;
  did_work ← fold_m (fun r did_work =>
    b ← eliminate_degenerate_block r; mret (did_work || b)) l false;
  if (did_work : bool) then on_cfg recompute_cfg else mret tt.

(** * run_trivial *)

Definition run_trivial : PM bool :=
  _ ← on_cfg recompute_cfg;
  _ ← sink_ssa_constructs;
  _ ← propagate_branch_control_hints;
  _ ← remove_unused_ssa;
  mret true.
