(* ===== verification/SelectionMerges.v ===== *)
(** Selection constructs (cfg_structurizer.cpp): which block a branch merges to when no
    merge candidate was found from below, and ladder blocks for the paths that leave a
    construct past its merge block. *)
From S2P Require Import Prelude.
From S2P Require Import IR.
From S2P Require Import CFGNode.
From S2P Require Import CFGTraversal.
From S2P Require Import CFGQueries.
From S2P Require Import CFGLoops.
From S2P Require Import Passes.
From S2P Require Import SSAPasses.
From S2P Require Import PhiInsertion.
From S2P Require Import CFGRewrite.
Local Open Scope Z_scope.
Local Open Scope dxil_scope.

(** * Elementary steps *)

Definition merge_to (r : nodref) (i : nat) : PM unit := on_nodes (merge_to_succ r i).

(** [node->merge = MergeType::Selection; node->selection_merge_block = m;] *)
Definition set_selection (r : nodref) (m : option nodref) : PM unit :=
  set_node r (fun n => set_merge MergeSelection (set_selection_merge_block m n)).
Definition select_merge (r m : nodref) : PM unit :=
  _ ← set_selection r (Some m); on_nodes (add_unique_header m r).

Definition is_unmerged (r : nodref) : PM bool :=
  n ← get_node r; mret (bool_decide (merge n = MergeNone)).

(** [block_is_plain_continue] of a block of the pool. *)
Definition is_plain_continue (s : CFGStructurizer) (r : nodref) : res bool :=
  n ← node (pool s) r; Ok (block_is_plain_continue n r).
Definition leads_to_continue (s : CFGStructurizer) (r : nodref) : res bool :=
  x ← scan_plain_continue_block s r; is_plain_continue s x.

(** The frontier of a block that comes first in the CFG. *)
Definition earliest_frontier (p : CFGNodePool) (r : nodref) : res (option nodref) :=
  n ← node p r;
  Ok (foldl (fun best x =>
    match best with
    | None => Some x
    | Some b => if order_in p b <? order_in p x then Some x else best
    end) None (dominance_frontier n)).

(** A new block in front of [target]. *)
Definition new_branch_block (name_ : string) (target : nodref) : PM nodref :=
  l ← on_nodes create_node;
  _ ← set_node l (set_name name_);
  _ ← on_nodes (add_branch l target);
  _ ← set_node l (fun x => set_terminator (branch_terminator target (terminator (ir x))) x);
  mret l.

(** * fixup_broken_selection_merges *)

(** Both paths break: merge to the one from which the continue block is out of reach. *)
Definition tie_break_by_continue (r a b : nodref) : PM unit :=
  ha ← ask (fun s => innermost_loop_header s a);
  hb ← ask (fun s => innermost_loop_header s b);
  h ← get_node ha;
  match pred_back_edge h with
  | Some c =>
      if decide (ha = hb) then
        ra ← ask (fun s => query_reachability s a c);
        rb ← ask (fun s => query_reachability s b c);
        if (ra : bool) && negb rb then merge_to r 1
        else if negb ra && rb then merge_to r 0
        else mret tt
      else mret tt
  | None => mret tt
  end.

Definition tie_break_by_frontier_order (r a b : nodref) : PM unit :=
  p ← gets (fun s => nodes s);
  x ← ask (fun s => earliest_frontier (pool s) a);
  y ← ask (fun s => earliest_frontier (pool s) b);
  match x, y with
  | Some x, Some y =>
      if order_in p y <? order_in p x then merge_to r 0
      else if order_in p x <? order_in p y then merge_to r 1
      else mret tt
  | _, _ => mret tt
  end.

Definition merge_of_two_breaks (r a b : nodref) (both_continue : bool) : PM unit :=
  _ ← tie_break_by_continue r a b;
  u ← is_unmerged r;
  _ ← (if (u : bool) && both_continue then tie_break_by_frontier_order r a b else mret tt);
  u ← is_unmerged r;
  if (u : bool) then set_selection r None else mret tt.

(** The header that merges at a block the other path breaks to becomes a loop header. *)
Definition promote_to_loop_header (inner : nodref) : PM unit :=
  n ← get_node inner;
  match headers n with
  | [h] =>
      hn ← get_node h;
      if bool_decide (merge hn = MergeSelection) && negb (freeze_structured_analysis hn) then
        set_node h (fun hn => set_freeze_structured_analysis true (set_selection_merge_block None
          (set_loop_merge_block (selection_merge_block hn) (set_merge MergeLoop hn))))
      else mret tt
  | _ => mret tt
  end.

(** [node->merge] is set by choosing one of two frontiers that do not reach each other. *)
Definition pick_arbitrary_merge (r : nodref) (a_front b_front : option nodref) : PM (option nodref) :=
  _ ← set_selection r None;
  match a_front, b_front with
  | Some x, Some y =>
      xn ← get_node x;
      yn ← get_node y;
      match headers xn, headers yn with
      | [hx], [hy] =>
          p ← gets (fun s => nodes s);
          let a_is_earlier := order_in p hy <? order_in p hx in
          _ ← merge_to r (if a_is_earlier then 1 else 0)%nat;
          mret (Some (if a_is_earlier then x else y))
      | _, _ => mret None
      end
  | _, _ => mret None
  end.

Definition reaches_opt (x y : option nodref) : PM bool :=
  match x, y with
  | Some x, Some y => ask (fun s => query_reachability s x y)
  | _, _ => ubM
  end.

(** Neither path breaks: the path whose frontier reaches the other's frontier merges. *)
Definition tie_break_by_frontiers (r a b : nodref) : PM unit :=
  x ← ask (fun s => earliest_frontier (pool s) a);
  y ← ask (fun s => earliest_frontier (pool s) b);
  let '(x, y) := if decide (x = y) then (None, None) else (x, y) in
  inner ←
    (if bool_decide (x = None) && bool_decide (y = None) then pick_arbitrary_merge r x y
     else
       first ← (if bool_decide (y = None) then mret true
                else if bool_decide (x <> None) then reaches_opt x y else mret false);
       if (first : bool) then _ ← merge_to r 0; mret y
       else
         second ← (if bool_decide (x = None) then mret true else reaches_opt y x);
         if (second : bool) then _ ← merge_to r 1; mret x
         else pick_arbitrary_merge r x y);
  match inner with
  | Some i => promote_to_loop_header i
  | None => mret tt
  end.

(** Both successors could be the merge block, and [m] post-dominates both. *)
Definition merge_with_post_dominator (pass : Z) (r a b m : nodref) : PM unit :=
  d ← ask (fun s => dominates (pool s) r m);
  mn ← get_node m;
  let to_continue := block_is_plain_continue mn m in
  let has_headers := negb (bool_decide (headers mn = [])) in
  let ambiguous := (negb to_continue && (d : bool) && has_headers) || ((pass =? 1) && negb d) in
  let mark := negb to_continue && (negb has_headers || (pass =? 0)) in
  a_break ← ask_ops (fun s ops => is_escaping s ops a m);
  a_continue ← ask (fun s => leads_to_continue s a);
  b_break ← ask_ops (fun s ops => is_escaping s ops b m);
  b_continue ← ask (fun s => leads_to_continue s b);
  let differ := negb (bool_decide ((a_continue : bool) = b_continue)) in
  let a_leaves := ((a_break : bool) || a_continue) && negb (differ && b_continue) in
  let b_leaves := ((b_break : bool) || b_continue) && negb (differ && a_continue) in
  if ambiguous || negb mark || differ then
    if a_leaves && b_leaves then
      an ← get_node a;
      bn ← get_node b;
      merge_of_two_breaks r a b (a_continue && b_continue &&
        negb (bool_decide (dominance_frontier an = [])) && negb (bool_decide (dominance_frontier bn = [])))
    else if b_leaves then merge_to r 0
    else if a_leaves then merge_to r 1
    else tie_break_by_frontiers r a b
  else select_merge r m.

Definition node_is_degenerate_merge_block (n : CFGNode) : bool :=
  bool_decide (term_type (terminator (ir n)) = TUnreachable) ||
  (bool_decide (term_type (terminator (ir n)) = TReturn) && bool_decide (operations (ir n) = [])).

(** Two paths with one frontier each, neither of which post-dominates. *)
Definition tie_break_exits (r x y : nodref) : PM unit :=
  if decide (x = y) then mret tt
  else
    xy ← ask (fun s => query_reachability s x y);
    if (xy : bool) then merge_to r 0
    else
      yx ← ask (fun s => query_reachability s y x);
      if (yx : bool) then merge_to r 1
      else
        xn ← get_node x;
        yn ← get_node y;
        let differ := negb (bool_decide (immediate_dominator xn = immediate_dominator yn)) in
        dxy ← (if differ then reaches_opt (immediate_dominator xn) (immediate_dominator yn) else mret false);
        if (dxy : bool) then merge_to r 1
        else
          dyx ← (if differ then reaches_opt (immediate_dominator yn) (immediate_dominator xn) else mret false);
          if (dyx : bool) then merge_to r 0
          else if bool_decide (succ xn = []) && negb (bool_decide (succ yn = [])) then merge_to r 0
          else if bool_decide (succ yn = []) && negb (bool_decide (succ xn = [])) then merge_to r 1
          else mret tt.

(** Nothing post-dominates both successors: a path leads to an exit. *)
Definition merge_of_exits (r a b : nodref) : PM unit :=
  a_exits ← ask (fun s => dominates_all_reachable_exits (pool s) a);
  b_exits ← ask (fun s => dominates_all_reachable_exits (pool s) b);
  if negb a_exits && (b_exits : bool) then merge_to r 0
  else if negb b_exits && (a_exits : bool) then merge_to r 1
  else
    _ ← set_selection r None;
    an ← get_node a;
    bn ← get_node b;
    match dominance_frontier an, dominance_frontier bn with
    | [x], [y] => tie_break_exits r x y
    | _, _ =>
        if node_is_degenerate_merge_block bn && negb (node_is_degenerate_merge_block an) then merge_to r 0
        else if node_is_degenerate_merge_block an && negb (node_is_degenerate_merge_block bn) then merge_to r 1
        else mret tt
    end.

(** No successor can be the merge block. *)
Definition merge_at_post_dominator (r a b : nodref) : PM unit :=
  m ← on_cfg (find_common_post_dominator_of [a; b]);
  match m with
  | None => mret tt
  | Some m =>
      h ← ask (fun s => get_outer_header_dominator (pool s) r);
      hn ← get_node h;
      if bool_decide (merge hn = MergeSelection) && bool_decide (selection_merge_block hn = Some m)
      then mret tt else select_merge r m
  end.

(** [trivial_merge_index] *)
Definition choose_merge (pass : Z) (r a b : nodref) (da db ha hb : bool) : PM (option nat) :=
  if da && negb db && negb ha then _ ← merge_to r 0; mret (Some 0%nat)
  else if db && negb da && negb hb then _ ← merge_to r 1; mret (Some 1%nat)
  else if da && db && negb ha && hb then _ ← merge_to r 0; mret (Some 0%nat)
  else if da && db && negb hb && ha then _ ← merge_to r 1; mret (Some 1%nat)
  else if da && db && negb ha && negb hb then
    m ← on_cfg (find_common_post_dominator_of [a; b]);
    _ ← match m with
        | Some m => merge_with_post_dominator pass r a b m
        | None => merge_of_exits r a b
        end;
    mret None
  else _ ← (if pass =? 0 then merge_at_post_dominator r a b else mret tt); mret None.

Definition is_loop_merge_candidate (other : nodref) : PM bool :=
  n ← get_node other;
  match headers n with
  | [h] =>
      hn ← get_node h;
      mret (bool_decide (merge hn = MergeLoop) &&
        (bool_decide (loop_merge_block hn = Some other) || bool_decide (loop_ladder_block hn = Some other)))
  | _ => mret false
  end.

Definition other_candidate_escapes (r other m : nodref) : PM bool :=
  plain ← (if decide (other = m) then mret true else ask (fun s => is_plain_continue s other));
  if (plain : bool) then mret true
  else
    e ← ask_ops (fun s ops => is_escaping s ops other m);
    if negb e then mret false
    else
      d ← ask (fun s => dominates (pool s) r other);
      if (d : bool) then mret true else is_loop_merge_candidate other.

(** Only the current candidate branches to the merge block at once. *)
Definition current_breaks_directly (current other m : nodref) : PM bool :=
  cn ← get_node current;
  on_ ← get_node other;
  if has_element (succ cn) m && negb (has_element (succ on_) m) then
    reach ← ask (fun s => any_of (fun f =>
      if decide (f = other) then Ok false else query_reachability s f other) (dominance_frontier cn));
    mret (negb reach)
  else mret false.

(** A block between [r] and the other candidate, to merge to. *)
Definition insert_interim_block (r target : nodref) : PM unit :=
  n ← get_node r;
  tn ← get_node target;
  l ← new_branch_block (name n +:+ "." +:+ name tn +:+ ".interim") target;
  _ ← set_node l (fun x =>
        set_immediate_dominator (Some r) (set_immediate_post_dominator (Some target)
          (set_dominance_frontier (dominance_frontier x ++ [target])
            (set_forward_post_visit_order (forward_post_visit_order n)
              (set_backward_post_visit_order (backward_post_visit_order n) x)))));
  _ ← on_nodes (retarget_branch r target l);
  set_node r (set_selection_merge_block (Some l)).

(** The merge was trivial, but the other path might be the one that merges. *)
Definition check_trivial_merge (r current other : nodref) (succs : list nodref) : PM unit :=
  m ← on_cfg (find_common_post_dominator_of succs);
  match m with
  | None => mret tt
  | Some m =>
      skip ← ask (fun s => (dominates (pool s) r m) <||> (is_plain_continue s m));
      if (skip : bool) then mret tt
      else
        mn ← get_node m;
        _ ← (if bool_decide (headers mn = []) then mret tt else on_nodes (add_unique_header m r));
        current_escapes ← (if decide (current = m) then mret true
                           else ask_ops (fun s ops => is_escaping s ops current m));
        other_escapes ← other_candidate_escapes r other m;
        current_escapes ← (if negb current_escapes && negb other_escapes
                           then current_breaks_directly current other m else mret current_escapes);
        if (current_escapes : bool) && negb other_escapes then insert_interim_block r other else mret tt
  end.

Definition has_header_already (r : nodref) : PM bool :=
  n ← get_node r; mret (negb (bool_decide (headers n = [])) || block_is_plain_continue n r).

Definition fixup_broken_selection_merge (pass : Z) (r : nodref) : PM unit :=
  n ← get_node r;
  match succ n with
  | [a; b] =>
      if negb (bool_decide (merge n = MergeNone)) || bool_decide (succ_back_edge n <> None) then mret tt
      else
        da ← ask (fun s => dominates (pool s) r a);
        db ← ask (fun s => dominates (pool s) r b);
        ha ← has_header_already a;
        hb ← has_header_already b;
        go ← (if pass =? 1 then ask (fun s => selection_requires_structured_header s r) else mret true);
        if negb go then mret tt
        else
          index ← choose_merge pass r a b da db ha hb;
          match index with
          | Some i =>
              if pass =? 0
              then (if decide (i = 0%nat) then check_trivial_merge r a b [a; b] else check_trivial_merge r b a [a; b])
              else mret tt
          | None => mret tt
          end
  | _ => mret tt
  end.

Definition fixup_broken_selection_merges (pass : Z) : PM unit :=
  l ← order; for_eachM (fixup_broken_selection_merge pass) l.

(** * rewrite_selection_breaks *)

(** The continue block of the innermost loop around the header, where branches must stay. *)
Record InnerContinue := mkInnerContinue {
  inner_continue_block : option nodref;
  ladder_to_dominates_continue : bool;
  break_post_dominates_ladder_to : bool;
}.

Definition find_inner_continue (s : CFGStructurizer) (header ladder_to : nodref) : res InnerContinue :=
  h ← innermost_loop_header s header;
  hn ← node (pool s) h;
  match pred_back_edge hn with
  | None => Ok (mkInnerContinue None false false)
  | Some c =>
      cn ← node (pool s) c;
      match succ cn with
      | [x] =>
          breaks ← post_dominates (pool s) x ladder_to;
          d ← dominates (pool s) ladder_to c;
          Ok (mkInnerContinue (Some c) d breaks)
      | _ => Ok (mkInnerContinue (Some c) false false)
      end
  end.

(** The callback of the traversal collects the branches whose paths meet at the header. *)
Definition collect_selection (s : CFGStructurizer) (header ladder_to : nodref) (c : InnerContinue)
    (r : nodref) (construct : gset nodref) : res (bool * gset nodref) :=
  if decide (r = ladder_to) then Ok (false, construct)
  else
    reach ← query_reachability s r ladder_to;
    if negb reach then Ok (false, construct)
    else
      n ← node (pool s) r;
      splits ← (if break_post_dominates_ladder_to c && negb (ladder_to_dominates_continue c)
                then b ← some_or_ub (inner_continue_block c); dominates (pool s) r b
                else Ok false);
      if (splits : bool) then Ok (false, construct)
      else if (2 <=? length (succ n))%nat && bool_decide (pred_back_edge n = None) && negb (is_switch n) then
        outer ← get_post_dominance_frontier_with_cfg_subset_that_reaches s r ladder_to None;
        Ok (true, if bool_decide (outer = Some header) then {[r]} ∪ construct else construct)
      else Ok (true, construct).

(** A loop whose continue block is not behind the ladder block, or a switch. *)
Definition keeps_selection_breaks (s : CFGStructurizer) (header ladder_to : nodref) : res bool :=
  n ← node (pool s) header;
  loop ← match pred_back_edge n with
         | Some c => notm (can_backtrace_to (pool s) c ladder_to)
         | None => Ok false
         end;
  Ok ((loop : bool) || is_switch n).

Definition find_selections (s : CFGStructurizer) (header ladder_to : nodref) : res (list nodref) :=
  c ← find_inner_continue s header ladder_to;
  construct ← traverse_dominated_blocks_const (pool s) (collect_selection s header ladder_to c) header ∅;
  Ok (sort_by (order_in (pool s)) (elements (construct : gset nodref))).

(** The merge block for the branches inside [inner]. *)
Definition create_selection_ladder (inner ladder_to : nodref) : PM nodref :=
  t ← get_node ladder_to;
  i ← get_node inner;
  l ← new_branch_block (name t +:+ "." +:+ name i +:+ ".ladder") ladder_to;
  _ ← set_node l (fun x =>
        set_immediate_post_dominator (Some ladder_to)
          (set_dominance_frontier (dominance_frontier x ++ [ladder_to])
            (set_forward_post_visit_order (forward_post_visit_order t)
              (set_backward_post_visit_order (backward_post_visit_order t) x))));
  mret l.

Definition is_not_selection_merge_of (inner x : nodref) : SM bool :=
  n ← on_pool (node_at inner); mret (negb (bool_decide (selection_merge_block n = Some x))).

(** Every level of the recursion goes to a block that the last header dominates. *)
Fixpoint rewrite_selection_breaks_from (fuel : nat) (header ladder_to : nodref) : PM unit :=
  match fuel with
  | O => ubM
  | S fuel' =>
      keeps ← ask (fun s => keeps_selection_breaks s header ladder_to);
      if (keeps : bool) then mret tt
      else
        l ← ask (fun s => find_selections s header ladder_to);
        for_eachM (fun inner =>
          ladder ← create_selection_ladder inner ladder_to;
          _ ← on_cfg (traverse_dominated_blocks_and_rewrite_branch_if inner ladder_to ladder
                        (is_not_selection_merge_of inner) []);
          _ ← on_nodes (recompute_dominator ladder);
          rewrite_selection_breaks_from fuel' inner ladder) l
  end.

Definition rewrite_selection_breaks (header ladder_to : nodref) : PM unit :=
  k ← gets (fun s => length (nodes s));
  rewrite_selection_breaks_from (S k) header ladder_to.

(** * split_merge_scopes *)

(** The dominator of a merge block, which has to branch. *)
Definition natural_header (r : nodref) : PM nodref :=
  n ← get_node r;
  idom ← derefM (immediate_dominator n);
  i ← get_node idom;
  _ ← assertM (2 <=? length (succ i))%nat;
  mret idom.

Definition register_merge_scope (r : nodref) : PM unit :=
  n ← get_node r;
  if (num_forward_preds n <=? 1) || block_is_plain_continue n r then mret tt
  else
    idom ← natural_header r;
    i ← get_node idom;
    _ ← (if bool_decide (merge i = MergeNone) then set_selection idom (Some r) else mret tt);
    on_nodes (add_unique_header r idom).

Definition split_merge_scope (r : nodref) : PM unit :=
  n ← get_node r;
  if (num_forward_preds n <=? 1) || bool_decide (succ_back_edge n <> None) then mret tt
  else
    idom ← natural_header r;
    i ← get_node idom;
    if bool_decide (merge i = MergeLoop) && bool_decide (loop_merge_block i = Some r) then mret tt
    else
      related ← ask (fun s => header_and_merge_block_have_entry_exit_relationship s idom r);
      if (related : bool) then mret tt else rewrite_selection_breaks idom r.

Definition split_merge_scopes : PM unit :=
  l ← order;
  _ ← for_eachM register_merge_scope l;
  for_eachM split_merge_scope l.
