(* ===== verification/Serialization.v ===== *)
(** Interleaved merges (cfg_structurizer.cpp): when the paths to several merge blocks cross
    each other, the control flow is collected in one block that dispatches to them with a
    selector. *)
From S2P Require Import Prelude.
From S2P Require Import IR.
From S2P Require Import CFGNode.
From S2P Require Import CFGTraversal.
From S2P Require Import SpvBuilder.
From S2P Require Import SPIRVModule.
From S2P Require Import CFGQueries.
From S2P Require Import CFGLoops.
From S2P Require Import Passes.
From S2P Require Import SSAPasses.
From S2P Require Import PhiInsertion.
From S2P Require Import CFGRewrite.
From S2P Require Import SelectionMerges.
Local Open Scope Z_scope.
Local Open Scope dxil_scope.

(** * Elementary steps *)

Definition index_of (l : list nodref) (x : nodref) : option nat := fst <$> list_find (fun y => y = x) l.

(** The blocks that [iterate_dominated_node_range_bottom_up] calls its argument on. *)
Definition dominated_range (s : CFGStructurizer) (start end_ : nodref) : res (list nodref) :=
  d ← dominates (pool s) start end_;
  _ ← assert_res d;
  b ← some_or_ub (index_of (forward_order s) end_);
  e ← some_or_ub (index_of (forward_order s) start);
  if (b <=? e)%nat then
    filter_m (fun r => (dominates (pool s) start r) <&&> (query_reachability s r end_))
      (take (e - b) (drop b (forward_order s)))
  else UB.

Definition bool_constant (b : bool) : PM Z := on_module (on_builder (makeBoolConstant b)).
Definition bool_type : PM Z := on_module (on_builder makeBoolType).

(** The incoming values with one boolean for all the blocks. *)
Definition bool_incoming (b : bool) (l : list nodref) : PM (list IncomingValue) :=
  mapM_list (fun r => c ← bool_constant b; mret (mkIncoming (Some r) c)) l.

(** A boolean PHI that tells the first [cutoff] predecessors from the others. *)
Definition cutoff_phi (preds : list nodref) (cutoff : nat) : PM PHI :=
  id ← on_module allocate_id;
  t ← bool_type;
  l1 ← bool_incoming true (take cutoff preds);
  l2 ← bool_incoming false (drop cutoff preds);
  mret (mkPHI id t false (l1 ++ l2)).

Definition branch_condition (id : Z) (true_b false_b : nodref) (r : nodref) : PM unit :=
  set_node r (fun n =>
    let t := terminator (ir n) in
    set_terminator (mkTerminator id TCondition (direct_block t) (Some true_b) (Some false_b) (cases t)
      (return_value t) (force_unroll t) (force_loop t) (force_flatten t) (force_branch t)) n).

Definition set_direct_block (b : option nodref) (t : Terminator) : Terminator :=
  mkTerminator (conditional_id t) (term_type t) b (true_block t) (false_block t) (cases t)
    (return_value t) (force_unroll t) (force_loop t) (force_flatten t) (force_branch t).

(** * collect_and_dispatch_control_flow_from_anchor *)

(** The path from the anchor to one of the constructs. *)
Definition anchor_path (anchor construct terminator_block : nodref) (r : nodref) (suffix : string) : PM unit :=
  a ← get_node anchor;
  c ← get_node construct;
  _ ← set_node r (fun x =>
        set_name (name a +:+ suffix) (set_immediate_dominator (Some anchor)
          (set_immediate_post_dominator (Some construct)
            (set_forward_post_visit_order (forward_post_visit_order c)
              (set_backward_post_visit_order (backward_post_visit_order c) x)))));
  _ ← on_nodes (add_branch r terminator_block);
  set_node r (fun x => set_terminator (branch_terminator terminator_block (terminator (ir x))) x).

Definition post_dominates_branch (s : CFGStructurizer) (t : Terminator) (c : nodref) : res bool :=
  (x ← some_or_ub (true_block t); post_dominates (pool s) c x) <||>
  (x ← some_or_ub (false_block t); post_dominates (pool s) c x).

Definition dominator_of (r : nodref) : PM nodref := n ← get_node r; derefM (immediate_dominator n).

Definition num_preds (r : nodref) : PM nat := n ← get_node r; mret (length (pred n)).

(** The branches to the constructs that do not come from the anchor go to [anchor_pred].
    Returns how many predecessors it had before, and before the second construct. *)
Definition redirect_to_anchor (anchor c0 c1 to0 to1 anchor_pred : nodref) : PM (nat * nat) :=
  _ ← on_cfg (traverse_dominated_blocks_and_rewrite_branch anchor c0 to0);
  _ ← on_cfg (traverse_dominated_blocks_and_rewrite_branch anchor c1 to1);
  cutoff_normal_path ← num_preds anchor_pred;
  d0 ← dominator_of c0;
  _ ← on_cfg (traverse_dominated_blocks_and_rewrite_branch d0 c0 anchor_pred);
  cutoff_path0 ← num_preds anchor_pred;
  d1 ← dominator_of c1;
  _ ← on_cfg (traverse_dominated_blocks_and_rewrite_branch d1 c1 anchor_pred);
  mret (cutoff_normal_path, cutoff_path0).

Definition check_anchor (anchor c0 c1 : nodref) : PM unit :=
  a ← get_node anchor;
  let t := terminator (ir a) in
  _ ← assertM (bool_decide (term_type t = TCondition));
  p0 ← ask (fun s => post_dominates_branch s t c0);
  _ ← assertM p0;
  p1 ← ask (fun s => post_dominates_branch s t c1);
  assertM p1.

(** The PHI that selects the path when control came through the anchor. *)
Definition terminator_selector_phi (to0 to1 : nodref) : PM PHI :=
  id ← on_module allocate_id;
  t ← bool_type;
  l0 ← bool_incoming true [to0];
  l1 ← bool_incoming false [to1];
  mret (mkPHI id t false (l0 ++ l1)).

Definition dispatch_from_anchor (anchor c0 c1 anchor_pred anchor_terminator dispatcher : nodref)
    (selector : PHI) (cutoffs : nat * nat) : PM unit :=
  n ← get_node anchor_pred;
  let preds := pred n in
  take_anchor ← cutoff_phi preds (fst cutoffs);
  _ ← on_nodes (add_branch anchor_pred anchor);
  _ ← on_nodes (add_branch anchor_pred dispatcher);
  _ ← branch_condition (phi_id take_anchor) anchor dispatcher anchor_pred;
  _ ← set_node anchor_pred (fun x => set_terminator (set_direct_block None (terminator (ir x))) x);
  outside_true ← cutoff_phi preds (snd cutoffs);
  id ← on_module allocate_id;
  t ← bool_type;
  let cond := mkPHI id t false
    [mkIncoming (Some anchor) (phi_id selector); mkIncoming (Some anchor_pred) (phi_id outside_true)] in
  _ ← push_phi take_anchor anchor_pred;
  _ ← push_phi outside_true anchor_pred;
  _ ← push_phi selector anchor_terminator;
  _ ← branch_condition id c0 c1 dispatcher;
  _ ← on_nodes (add_branch dispatcher c0);
  _ ← on_nodes (add_branch dispatcher c1);
  push_phi cond dispatcher.

Definition collect_and_dispatch_control_flow_from_anchor (anchor : nodref) (constructs : list nodref)
    : PM unit :=
  match constructs with
  | [c0; c1] =>
      _ ← check_anchor anchor c0 c1;
      anchor_pred ← on_cfg (create_helper_pred_block anchor);
      to0 ← on_nodes create_node;
      to1 ← on_nodes create_node;
      anchor_terminator ← on_nodes create_node;
      dispatcher ← on_nodes create_node;
      _ ← anchor_path anchor c0 anchor_terminator to0 ".anchor0";
      _ ← anchor_path anchor c1 anchor_terminator to1 ".anchor1";
      a ← get_node anchor;
      _ ← set_node anchor_terminator (set_name (name a +:+ ".anchor-term"));
      _ ← on_nodes (add_branch anchor_terminator dispatcher);
      _ ← set_node anchor_terminator (fun x =>
            set_terminator (branch_terminator dispatcher (terminator (ir x))) x);
      _ ← set_node dispatcher (set_name (name a +:+ ".anchor-dispatch"));
      selector ← terminator_selector_phi to0 to1;
      cutoffs ← redirect_to_anchor anchor c0 c1 to0 to1 anchor_pred;
      n0 ← get_node c0;
      _ ← assertM (bool_decide (pred n0 = []));
      n1 ← get_node c1;
      _ ← assertM (bool_decide (pred n1 = []));
      dispatch_from_anchor anchor c0 c1 anchor_pred anchor_terminator dispatcher selector cutoffs
  | _ => ubM
  end.

(** * collect_and_dispatch_control_flow *)

Section freeze.
Variable s : CFGStructurizer.
Variable constructs : list nodref.

Definition can_reach_any_construct (r : nodref) : res bool := any_of (query_reachability s r) constructs.
Definition any_succ_escapes_constructs (r : nodref) : res bool :=
  n ← node (pool s) r; any_of (fun x => notm (can_reach_any_construct x)) (succ n).

(** A block between the two that branches back before [common_idom] or past the constructs. *)
Definition leaves_scope (common_idom : nodref) (collect_all : bool) (r : nodref) : res bool :=
  n ← node (pool s) r;
  backwards ← match succ_back_edge n with
              | Some h => if decide (h = common_idom) then Ok false else query_reachability s h common_idom
              | None => Ok false
              end;
  if (backwards : bool) then Ok true
  else if collect_all || has_element constructs r then Ok false
  else (can_reach_any_construct r) <&&> (any_succ_escapes_constructs r).

Definition freeze_control_flow (common_idom common_pdom : nodref) (collect_all : bool) : res bool :=
  i ← node (pool s) common_idom;
  ifm Ok (bool_decide (pred_back_edge i = None)) <&&> (post_dominates (pool s) common_pdom common_idom) <&&>
      (Ok (negb (is_switch i)))
  then
    escapes ← (if collect_all then Ok false else any_succ_escapes_constructs common_idom);
    range ← dominated_range s common_idom common_pdom;
    if (escapes : bool) then Ok false
    else notm (any_of (leaves_scope common_idom collect_all) range)
  else Ok false.
End freeze.

(** The block that collects the paths: a new block in front of the post dominator ... *)
Definition create_dispatcher_before (common_pdom : nodref) (constructs : list nodref) : PM nodref :=
  dispatcher ← on_cfg (create_helper_pred_block common_pdom);
  _ ← for_eachM (fun c => on_cfg (traverse_dominated_blocks_and_rewrite_branch c dispatcher common_pdom)) constructs;
  mret dispatcher.

(** ... or one that only the constructs' paths reach. *)
Definition create_collector (common_idom common_pdom : nodref) : PM nodref :=
  dispatcher ← on_nodes create_node;
  i ← get_node common_idom;
  p ← get_node common_pdom;
  _ ← set_node dispatcher (fun x =>
        set_name (name i +:+ ".collector") (set_immediate_dominator (Some common_idom)
          (set_immediate_post_dominator (Some common_pdom)
            (set_forward_post_visit_order (forward_post_visit_order p)
              (set_backward_post_visit_order (backward_post_visit_order p) x)))));
  mret dispatcher.

Definition int_constant (i : Z) : PM Z := on_module (on_builder (makeSignedConstant i)).

(** Redirect the paths to the [i]-th construct and give their edges its selector. *)
Definition collect_construct (common_idom dispatcher : nodref) (constructs : list nodref)
    (plain_branch allow_crossing : bool) (e : nat * nodref) (st : nat * list IncomingValue)
    : PM (nat * list IncomingValue) :=
  let '(i, candidate) := e in
  let '(cutoff, l) := st in
  _ ← on_cfg (if allow_crossing
              then traverse_dominated_blocks_and_rewrite_branch_if common_idom candidate dispatcher
                     (fun _ => mret true) constructs
              else traverse_dominated_blocks_and_rewrite_branch common_idom candidate dispatcher);
  n ← get_node dispatcher;
  new ← mapM_list (fun q =>
          c ← (if plain_branch then bool_constant (negb (bool_decide (i = 0%nat)))
               else int_constant (Z.of_nat i));
          mret (mkIncoming (Some q) c)) (drop cutoff (pred n));
  mret (length (pred n), l ++ new).

Definition push_case (c : Case) (r : nodref) : PM unit :=
  set_node r (fun n => let t := terminator (ir n) in set_terminator (set_cases (cases t ++ [c]) t) n).

(** The switch of the dispatcher.  Without a default case the first construct is the default. *)
Definition dispatch_switch (dispatcher common_pdom : nodref) (constructs : list nodref)
    (need_default allow_crossing : bool) : PM unit :=
  first ← derefM (head constructs);
  let d := if need_default then common_pdom else first in
  _ ← set_node dispatcher (fun n => set_terminator (set_term_type TSwitch (terminator (ir n))) n);
  _ ← push_case (mkCase (Some d) 0 0 true) dispatcher;
  _ ← on_nodes (add_branch dispatcher d);
  for_eachM (fun e : nat * nodref =>
    let '(i, candidate) := e in
    n ← get_node candidate;
    _ ← assertM (allow_crossing || bool_decide (pred n = []) || bool_decide (candidate = d));
    _ ← on_nodes (add_branch dispatcher candidate);
    if need_default || negb (bool_decide (i = 0%nat))
    then push_case (mkCase (Some candidate) 0 (Z.of_nat i) false) dispatcher else mret tt)
    (imap pair constructs).

(** Where the collected blocks come from, with the edges that belong to no construct. *)
Record Dispatch := mkDispatch {
  dispatcher_block : nodref;
  need_default_case : bool;
  plain_branch : bool;
  start_incoming : list IncomingValue;
}.

Definition two_constructs (constructs : list nodref) : bool := bool_decide (length constructs = 2%nat).

Definition start_dispatch (common_idom common_pdom : nodref) (constructs : list nodref) (collect_all : bool)
    : PM Dispatch :=
  if collect_all then
    dispatcher ← create_dispatcher_before common_pdom constructs;
    n ← get_node dispatcher;
    let need_default := negb (bool_decide (pred n = [])) in
    let plain := negb need_default && two_constructs constructs in
    l ← (if plain then _ ← bool_type; mret []
         else
           l ← mapM_list (fun q => c ← int_constant (-1); mret (mkIncoming (Some q) c)) (pred n);
           _ ← on_module (on_builder (makeIntType 32));
           mret l);
    mret (mkDispatch dispatcher need_default plain l)
  else
    dispatcher ← create_collector common_idom common_pdom;
    mret (mkDispatch dispatcher false (two_constructs constructs) []).

Definition finish_dispatch (common_pdom : nodref) (constructs : list nodref) (allow_crossing : bool)
    (d : Dispatch) (f : PHI) : PM unit :=
  let r := dispatcher_block d in
  _ ← set_node r (fun n => set_terminator (set_conditional_id (phi_id f) (terminator (ir n))) n);
  _ ← push_phi f r;
  p ← get_node common_pdom;
  _ ← on_module (on_builder (addName (phi_id f) ("selector_" +:+ name p)));
  _ ← set_node r (fun n => set_terminator (set_direct_block None (terminator (ir n))) n);
  _ ← on_nodes (clear_branches r);
  match plain_branch d, constructs with
  | true, c0 :: c1 :: _ =>
      _ ← branch_condition (phi_id f) c1 c0 r;
      _ ← on_nodes (add_branch r c0);
      on_nodes (add_branch r c1)
  | true, _ => ubM
  | false, _ => dispatch_switch r common_pdom constructs (need_default_case d) allow_crossing
  end.

Definition collect_and_dispatch_control_flow (common_idom common_pdom : nodref) (constructs : list nodref)
    (collect_all allow_crossing : bool) : PM unit :=
  _ ← assertM (2 <=? length constructs)%nat;
  freeze ← ask (fun s => freeze_control_flow s constructs common_idom common_pdom collect_all);
  id ← on_module allocate_id;
  d ← start_dispatch common_idom common_pdom constructs collect_all;
  type_id ← (if plain_branch d then bool_type else on_module (on_builder (makeIntType 32)));
  let r := dispatcher_block d in
  n ← get_node r;
  let cutoff := if collect_all then length (pred n) else 0%nat in
  st ← fold_m (collect_construct common_idom r constructs (plain_branch d) allow_crossing)
         (imap pair constructs) (cutoff, start_incoming d);
  _ ← (if (freeze : bool)
       then set_node common_idom (fun n => set_freeze_structured_analysis true
              (set_merge MergeLoop (set_loop_merge_block (Some r) n)))
       else mret tt);
  finish_dispatch common_pdom constructs allow_crossing d (mkPHI id type_id false (snd st)).

(** * serialize_interleaved_early_returns *)

(** The block to dispatch at for an early return that merges at [r]. *)
Definition early_return_target (r : nodref) : SM (option (nodref * nodref)) :=
  n ← on_pool (node_at r);
  if (num_forward_preds n <=? 1) || block_is_plain_continue n r then mret None
  else
    idom ← derefM (immediate_dominator n);
    candidate ← common_post_dominator idom r;
    cn ← on_pool (node_at candidate);
    e ← gets entry_block;
    terminating ← (if bool_decide (immediate_post_dominator cn = Some candidate)
                   then observe_all (fun s => dominates_all_reachable_exits (pool s) r) else mret false);
    main ← (if (terminating : bool) then observe_all (fun s => post_dominates (pool s) idom e) else mret false);
    if (terminating : bool) && negb main then
      target ← find_break_target_for_selection_construct idom r;
      mret ((fun t => (idom, t)) <$> target)
    else mret None.

(** Did the block need a dispatch?  The loop ends at the first one. *)
Definition serialize_early_return (r : nodref) : PM bool :=
  t ← on_cfg (early_return_target r);
  match t with
  | None => mret false
  | Some (idom, target) =>
      _ ← collect_and_dispatch_control_flow idom target [target; r] false false;
      _ ← on_cfg recompute_cfg;
      mret true
  end.

Definition serialize_interleaved_early_returns : PM bool :=
  l ← order; any_of serialize_early_return l.

(** * serialize_interleaved_merge_scopes_aggressive *)

Definition PredThreshold : Z := 32.

Definition crowded_constructs (s : CFGStructurizer) (idom r : nodref) : res (list nodref) :=
  range ← dominated_range s idom r;
  filter_m (fun c =>
    cn ← node (pool s) c;
    if num_forward_preds cn <? PredThreshold then Ok false
    else
      d ← dominates (pool s) idom c;
      Ok ((d : bool) && has_element (dominance_frontier cn) r)) range.

Definition serialize_crowded (r : nodref) : PM bool :=
  n ← get_node r;
  if (num_forward_preds n <? PredThreshold) || block_is_plain_continue n r then mret false
  else
    idom ← derefM (immediate_dominator n);
    d ← ask (fun s => post_dominates (pool s) r idom);
    if negb d then mret false
    else
      constructs ← ask (fun s => crowded_constructs s idom r);
      constructs ← (if (2 <=? length constructs)%nat
                    then on_cfg (filter_serialization_candidates constructs) else mret constructs);
      match constructs with
      | [] => mret false
      | _ =>
          _ ← collect_and_dispatch_control_flow idom r (constructs ++ [r]) false true;
          _ ← on_cfg recompute_cfg;
          mret true
      end.

Definition serialize_interleaved_merge_scopes_aggressive : PM bool :=
  l ← order; any_of serialize_crowded l.

(** * serialize_interleaved_merge_scopes *)

(** The ways in which the paths to the constructs are entangled. *)
Section deinterleave.
Variable s : CFGStructurizer.
Variables idom r : nodref.
Variable constructs : list nodref.
Variable pdf_ranges : list (nodref * nodref).

Definition count_reached (x : nodref) : res nat :=
  fold_m (fun c k => b ← query_reachability s x c; Ok (if (b : bool) then S k else k)) constructs O.

Definition nth_range (i : nat) : res (nodref * nodref) := some_or_ub (pdf_ranges !! i).

(** A block through which all paths of all constructs go. *)
Definition find_common_anchor : res (option nodref) :=
  range0 ← nth_range 0;
  let anchor := snd range0 in
  n ← node (pool s) anchor;
  can_be_anchor ← (if (2 <=? length (pred n))%nat then Ok true
                   else match pred n with
                        | [q] => qn ← node (pool s) q; Ok (bool_decide (succ_back_edge qn <> None))
                        | _ => Ok false
                        end);
  if bool_decide (length (dominance_frontier n) = length constructs) &&
     bool_decide (length (succ n) = length constructs) &&
     bool_decide (term_type (terminator (ir n)) = TCondition) && (can_be_anchor : bool)
  then
    ok ← all_of (fun e : nat * nodref =>
      let '(i, c) := e in
      range ← nth_range i;
      reach ← query_reachability s (fst range) (snd range);
      Ok ((reach : bool) && bool_decide (snd range0 = snd range) && has_element (dominance_frontier n) c))
      (imap pair constructs);
    Ok (if (ok : bool) then Some anchor else None)
  else Ok None.

(** Loop exits that reach more constructs than the back edge.  [inl] is [break]. *)
Fixpoint scan_loop_exits (l : list nodref) (exit_loop : option nodref)
    : res (bool * option nodref) :=
  match l with
  | [] => Ok (false, exit_loop)
  | x :: l' =>
      inner ← get_innermost_loop_header_for s idom x;
      if bool_decide (inner = idom) || bool_decide (exit_loop = Some inner) then scan_loop_exits l' exit_loop
      else
        nested ← match exit_loop with
                 | Some y => query_reachability s inner y
                 | None => Ok false
                 end;
        if (nested : bool) then scan_loop_exits l' exit_loop
        else
          h ← node (pool s) inner;
          c ← some_or_ub (pred_back_edge h);
          reach ← query_reachability s x c;
          if negb reach then scan_loop_exits l' exit_loop
          else
            back ← count_reached c;
            pdf ← count_reached x;
            if bool_decide (back = 1%nat) && bool_decide (pdf = length constructs)
            then Ok (bool_decide (exit_loop <> None), Some inner)
            else scan_loop_exits l' exit_loop
  end.

Fixpoint interleaved_loop_exits (l : list nodref) (exit_loop : option nodref) : res bool :=
  match l with
  | [] => Ok false
  | c :: l' =>
      n ← node (pool s) c;
      st ← scan_loop_exits (post_dominance_frontier n) exit_loop;
      if fst (st : bool * option nodref) then Ok true else interleaved_loop_exits l' (snd st)
  end.

Definition all_in_frontier (x : nodref) : res bool :=
  n ← node (pool s) x; Ok (forallb (has_element (dominance_frontier n)) constructs).

(** Ranges that lie in each other by reachability, in front of all constructs. *)
Definition reachability_interleaved : res bool :=
  let indexed := imap pair pdf_ranges in
  any_of (fun '(i, (first, last)) =>
    any_of (fun '(j, (first', _)) =>
      if decide (i = j) then Ok false
      else (is_reachability_ordered s first first' last) <&&> (all_in_frontier last)) indexed) indexed.

Definition same_pdfs : bool :=
  match pdf_ranges with
  | [] => true
  | p :: l => forallb (fun q => bool_decide (q = p)) l
  end.

(** No range connects its ends. *)
Definition unreachable_pdf_ranges : res bool :=
  if same_pdfs then Ok false
  else
    all_of (fun '(first, last) =>
      (notm (query_reachability s first last)) <&&> (notm (query_reachability s last first))) pdf_ranges.

End deinterleave.

(** All ranges are the same, with ends under different dominators. *)
Definition crossing_ranges (constructs : list nodref) (pdf_ranges : list (nodref * nodref)) : SM bool :=
  p ← derefM (head pdf_ranges);
  let '(first, last) := (p : nodref * nodref) in
  if decide (first = last) then mret false
  else
    fn ← on_pool (node_at first);
    ln ← on_pool (node_at last);
    x ← derefM (immediate_dominator fn);
    y ← derefM (immediate_dominator ln);
    c ← common_dominator x y;
    crossing ← observe_all (fun s =>
      (Ok (negb (bool_decide (x = y)) && negb (bool_decide (x = c)) && negb (bool_decide (y = c)))) <&&>
      ((query_reachability s x y) <||> (query_reachability s y x)));
    if same_pdfs pdf_ranges && (crossing : bool)
    then observe_all (fun s => (all_in_frontier s constructs first) <&&> (all_in_frontier s constructs last))
    else mret false.

(** Are the merges entangled, and is there an anchor to dispatch from? *)
Definition need_deinterleave (idom r : nodref) (constructs : list nodref) : SM (option (option nodref)) :=
  pdf_ranges ← observe_all (fun s => build_pdf_ranges s constructs);
  let many := (3 <=? length constructs)%nat in
  strict ← observe_all (fun s => pdf_ranges_have_strict_dominance_ordering s pdf_ranges);
  if (strict : bool) then mret (Some None)
  else
    anchor ← observe_all (fun s => find_common_anchor s constructs pdf_ranges);
    if bool_decide (anchor <> None) then mret (Some anchor)
    else
      need ← observe_all (fun s =>
        (interleaved_loop_exits s idom constructs constructs None) <||>
        (if many then reachability_interleaved s constructs pdf_ranges else Ok false) <||>
        (if many then unreachable_pdf_ranges s pdf_ranges else Ok false));
      need ← (if (need : bool) then mret true else crossing_ranges constructs pdf_ranges);
      mret (if (need : bool) then Some None else None).

(** The merge blocks between [idom] and [r] whose only frontier is [r], and the others. *)
Definition inner_constructs (s : CFGStructurizer) (idom r : nodref) (potential : list nodref)
    : res (list nodref * list nodref) :=
  fold_m (fun c (st : list nodref * list nodref) =>
    ifm Ok (negb (bool_decide (c = idom))) <&&> (dominates (pool s) idom c) <&&> (post_dominates (pool s) r c) <&&>
        (notm (post_dominates_perfect_structured_construct (pool s) c)) <&&>
        (h ← get_innermost_loop_header_for s idom c; Ok (bool_decide (h = idom)))
    then
      cn ← node (pool s) c;
      Ok (if bool_decide (dominance_frontier cn = [r]) then (fst st ++ [c], snd st) else (fst st, snd st ++ [c]))
    else Ok st) potential ([], []).

(** The candidates that no earlier candidate reaches. *)
Definition unreached_constructs (s : CFGStructurizer) (l : list nodref) : res (list nodref) :=
  fst <$> fold_m (fun x (st : list nodref * list nodref) =>
    let '(kept, seen) := st in
    reached ← any_of (fun y => query_reachability s y x) seen;
    Ok (if (reached : bool) then kept else kept ++ [x], seen ++ [x])) l ([], []).

(** One plain and several complex constructs: merge at the complex ones when every path
    goes through them. *)
Definition promote_complex (r inner : nodref) (complex : list nodref) : SM (option (list nodref)) :=
  promote ← observe_all (fun s =>
    (all_of (fun c => query_reachability s c inner) complex) <&&>
    (notm (any_of (fun c => post_dominates (pool s) inner c) complex)));
  if negb promote then mret None
  else
    p ← gets pool;
    constructs ← observe_all (fun s => unreached_constructs s (sort_by (fun x => - order_in p x) complex));
    if (2 <=? length constructs)%nat then
      common_idom ← fold_m (fun x c => common_dominator c x) constructs inner;
      around ← observe_all (fun s => can_backtrace_to_with_blockers (pool s) r common_idom constructs);
      mret (if (around : bool) then None else Some constructs)
    else mret (Some constructs).

Definition find_constructs (idom r : nodref) (potential : list nodref) : SM (option (list nodref * bool)) :=
  st ← observe_all (fun s => inner_constructs s idom r potential);
  match st with
  | ([inner], complex) =>
      if (2 <=? length complex)%nat then
        c ← promote_complex r inner complex;
        mret ((fun l => (l, false)) <$> c)
      else mret (Some ([inner], true))
  | (l, _) => mret (Some (l, true))
  end.

Definition serialize_merge_scope (potential : list nodref) (r : nodref) : PM bool :=
  n ← get_node r;
  if (num_forward_preds n <=? 1) || block_is_plain_continue n r then mret false
  else
    idom ← derefM (immediate_dominator n);
    found ← on_cfg (find_constructs idom r potential);
    match found with
    | None => mret false
    | Some (constructs, collect_all) =>
        if (length constructs <? 2)%nat then mret false
        else
          constructs ← on_cfg (filter_serialization_candidates constructs);
          if (length constructs <? 2)%nat then mret false
          else
            need ← on_cfg (need_deinterleave idom r constructs);
            match need with
            | None => mret false
            | Some anchor =>
                _ ← match anchor with
                    | Some a => collect_and_dispatch_control_flow_from_anchor a constructs
                    | None => collect_and_dispatch_control_flow idom r constructs collect_all false
                    end;
                _ ← on_cfg recompute_cfg;
                mret true
            end
    end.

Definition serialize_interleaved_merge_scopes : PM bool :=
  l ← order;
  potential ← filter_m (fun r =>
    n ← get_node r; mret ((2 <=? num_forward_preds n) && negb (block_is_plain_continue n r))) l;
  any_of (serialize_merge_scope potential) l.
