(* ===== verification/Switches.v ===== *)
(** Switch constructs (cfg_structurizer.cpp): the merge block of every switch, with the
    rewrites for switches whose labels leave to several places.

    [process_switch_blocks] changes the CFG while it goes over the blocks and starts over
    after a large change. *)
From S2P Require Import Prelude.
From S2P Require Import IR.
From S2P Require Import CFGNode.
From S2P Require Import CFGTraversal.
From S2P Require Import SpvBuilder.
From S2P Require Import SPIRVModule.
From S2P Require Import CFGQueries.
From S2P Require Import CFGLoops.
From S2P Require Import Passes.
From S2P Require Import SSAPasses.
From S2P Require Import PhiInsertion.
From S2P Require Import CFGRewrite.
From S2P Require Import SelectionMerges.
From S2P Require Import Serialization.
Local Open Scope Z_scope.
Local Open Scope dxil_scope.

(** * Ladder blocks *)

(** The orders and the post dominator of a block in front of [target]. *)
Definition place_before (target : nodref) (t : CFGNode) (x : CFGNode) : CFGNode :=
  set_immediate_post_dominator (Some target)
    (set_forward_post_visit_order (forward_post_visit_order t)
      (set_backward_post_visit_order (backward_post_visit_order t) x)).

Definition create_ladder_block (header r : nodref) (tag : string) : PM nodref :=
  n ← get_node r;
  ladder ← new_branch_block (name n +:+ tag) r;
  _ ← set_node ladder (fun x =>
        set_dominance_frontier (dominance_frontier x ++ [r]) (place_before r n x));
  _ ← on_cfg (traverse_dominated_blocks_and_rewrite_branch header r ladder);
  _ ← on_nodes (recompute_dominator ladder);
  mret ladder.

Definition create_switch_merge_ladder (header merge : nodref) : PM nodref :=
  create_ladder_block header merge ".switch-merge".

Definition check_transpose (s : CFGStructurizer) (header merge path : nodref) : res unit :=
  ok ← (dominates (pool s) header merge) <&&>
       ((dominates (pool s) header path) <||>
        (h ← node (pool s) header; Ok (has_element (dominance_frontier h) path)));
  _ ← assert_res ok;
  r ← query_reachability s merge path;
  _ ← assert_res r;
  d ← dominates (pool s) merge path;
  assert_res (negb d && negb (bool_decide (header = merge)) && negb (bool_decide (merge = path)) &&
              negb (bool_decide (header = path))).

(** [merge] is only entered on the normal paths; the others go on to [path]. *)
Definition transpose_code_path_through_ladder_block (header merge path : nodref) : PM nodref :=
  _ ← ask (fun s => check_transpose s header merge path);
  ladder ← create_ladder_block header merge ".transpose";
  n ← get_node ladder;
  _ ← on_cfg (traverse_dominated_blocks_and_rewrite_branch header path ladder);
  _ ← rewrite_ladder_conditional_branch_from_incoming_blocks ladder path merge
        (fun q => negb (has_element (pred n) q)) ("transpose_ladder_phi_" +:+ name n);
  mret ladder.

(** * Branches out of a switch before it is entered *)

Section with_fresh.
Context `{FreshMemory}.

(** A new boolean operation at the end of a block. *)
Definition push_bool_op (code : Z) (args : list Z) (r : nodref) : PM Z :=
  id ← on_module allocate_id;
  t ← bool_type;
  o ← make_op code id t args;
  _ ← push_op o r;
  mret id.

Definition uint_constant (v : Z) : PM Z := on_module (on_builder (makeUintConstant v)).

Definition push_label_test (code selector v : Z) (r : nodref) : PM Z :=
  id ← on_module allocate_id;
  t ← bool_type;
  o ← on_module (allocate_op code id t);
  _ ← modify_op o (op_add_id selector);
  c ← uint_constant v;
  _ ← modify_op o (op_add_id c);
  _ ← push_op o r;
  mret id.

(** The id of the test; there is none for a default label without other labels. *)
Definition build_switch_case_equal_check (header insert_node : nodref) (c : Case) : PM (option Z) :=
  h ← get_node header;
  let t := terminator (ir h) in
  if is_default c then
    fold_m (fun label neq_and =>
      if is_default label then mret neq_and
      else
        neq ← push_label_test OpINotEqual (conditional_id t) (case_value label) insert_node;
        match neq_and with
        | Some x => id ← push_bool_op OpLogicalAnd [x; neq] insert_node; mret (Some id)
        | None => mret (Some neq)
        end) (cases t) None
  else id ← push_label_test OpIEqual (conditional_id t) (case_value c) insert_node; mret (Some id).

(** The condition under which the switch goes to [x]; [0] when no label does. *)
Definition label_condition (r q x : nodref) : PM Z :=
  n ← get_node r;
  fold_m (fun c cond_id =>
    if bool_decide (case_node c = Some x) then
      id ← build_switch_case_equal_check r q c;
      id ← derefM id;
      if cond_id =? 0 then mret id else push_bool_op OpLogicalOr [cond_id; id] q
    else mret cond_id) (cases (terminator (ir n))) 0.

Definition retarget_incoming (from to : nodref) (f : PHI) : PHI :=
  set_incoming ((fun v => if bool_decide (incoming_block v = Some from)
                          then mkIncoming (Some to) (incoming_id v) else v) <$> phi_incoming f) f.

(** The edge from the switch [r] to [x] starts at [q] instead, and the labels go to [merge]. *)
Definition move_label (r q x merge : nodref) : PM unit :=
  _ ← set_node x (fun xn => set_pred (replace_all r q (pred xn)) xn);
  _ ← set_node r (fun n =>
        let t := terminator (ir n) in
        set_terminator (set_cases ((fun c => mkCase (retarget_ptr x merge (case_node c)) (global_order c)
          (case_value c) (is_default c)) <$> cases t) t)
          (set_succ (erase_first x (succ n)) n));
  _ ← on_nodes (add_branch r merge);
  on_nodes (add_branch q x).

Definition hoist_label (r merge candidate q x : nodref) : PM unit :=
  cond_id ← label_condition r q x;
  _ ← (if decide (x = candidate)
       then set_node candidate (fun n => set_phi (retarget_incoming r q <$> phi (ir n)) n) else mret tt);
  _ ← move_label r q x merge;
  x ← (if decide (x = candidate)
       then on_nodes (rewrite_branch_through_intermediate_node q candidate candidate) else mret x);
  set_node q (fun n => set_terminator (set_condition cond_id x r (terminator (ir n))) n).

Definition hoist_switch_branches_to_frontier (r merge candidate : nodref) : PM unit :=
  q ← on_cfg (create_helper_pred_block r);
  qn ← get_node q;
  n ← get_node r;
  _ ← set_node q (set_operations (operations (ir n)));
  _ ← set_node r (set_operations (operations (ir qn)));
  n ← get_node r;
  x ← ask (fun s => find_m (fun x => query_reachability s x candidate) (succ n));
  match x with
  | Some x => hoist_label r merge candidate q x
  | None => mret tt
  end.

End with_fresh.

(** * The merge block *)

(** The post dominator of the paths that do not exit. *)
Definition merge_without_exits (succs : list nodref) : SM (option nodref) :=
  fold_m (fun x pdom =>
    exits ← observe_all (fun s => dominates_all_reachable_exits (pool s) x);
    if (exits : bool) then mret pdom
    else match pdom with
         | None => mret (Some x)
         | Some d => c ← common_post_dominator d x; mret (Some c)
         end) succs None.

(** [merge] and [natural_merge] *)
Definition find_switch_merges (r : nodref) : SM (option (nodref * nodref)) :=
  n ← on_pool (node_at r);
  merge ← find_common_post_dominator_of (succ n);
  natural ← find_natural_switch_merge_block r merge;
  match merge, natural with
  | Some m, Some x => mret (Some (m, x))
  | None, Some x => mret (Some (x, x))
  | Some _, None => ubM
  | None, None => d ← merge_without_exits (succ n); mret ((fun x => (x, x)) <$> d)
  end.

(** The first block in the frontier of the natural merge that merges inside the switch. *)
Definition find_inner_switch_merge (s : CFGStructurizer) (r merge natural : nodref) : res nodref :=
  n ← node (pool s) natural;
  fold_m (fun x inner =>
    ifm (dominates (pool s) r x) <&&> (post_dominates (pool s) merge x) <&&>
        (xn ← node (pool s) x; i ← node (pool s) inner;
         Ok (forward_post_visit_order i <? forward_post_visit_order xn))
    then Ok x else Ok inner) (dominance_frontier n) merge.

(** * Inner merges *)

Section inner_merges.
Variable s : CFGStructurizer.
Variables r merge natural inner : nodref.

Definition switch_exits : res (list nodref) :=
  i ← node (pool s) inner;
  l ← filter_m (fun q => (notm (query_reachability s q natural)) <&&> (notm (query_reachability s natural q))) (pred i);
  Ok (natural :: l).

(** A branch past the constructs that still leads to the inner merge. *)
Definition has_inner_merge_in_df (constructs : list nodref) : res bool :=
  any_of (fun c =>
    cn ← node (pool s) c;
    any_of (fun pdf =>
      pn ← node (pool s) pdf;
      ((notm (all_of (query_reachability s pdf) constructs)) <||>
       (Ok (bool_decide (length constructs = 1%nat)))) <&&>
      (Ok (negb (bool_decide (pdf = r)) && has_element (dominance_frontier pn) inner)) <&&>
      (query_reachability s pdf natural)) (post_dominance_frontier cn)) constructs.

Definition has_secondary_inner_merge : res bool :=
  i ← node (pool s) inner;
  any_of (fun df =>
    (dominates (pool s) r df) <&&> (query_reachability s df merge) <&&> (Ok (negb (bool_decide (df = merge)))))
    (dominance_frontier i).

(** One frontier block: [new_frontiers] and [block_new_frontier]. *)
Definition capture_frontier (captured : list nodref) (df : nodref) (st : list nodref * list nodref)
    : res (list nodref * list nodref) :=
  let '(new, blocked) := st in
  take_it ← (dominates (pool s) r df) <&&>
    (Ok (negb (has_element captured df) && negb (has_element new df) && negb (has_element blocked df))) <&&>
    (can_backtrace_to_with_blockers (pool s) df r captured) <&&> (Ok (negb (bool_decide (df = merge))));
  Ok (if (take_it : bool) then new ++ [df] else new,
      if has_element blocked df then blocked else blocked ++ [df]).

(** Every round but the last one blocks another block. *)
Fixpoint capture_frontiers (fuel : nat) (captured new blocked : list nodref) : res (list nodref) :=
  match fuel with
  | O => UB
  | S fuel' =>
      let captured := captured ++ new in
      st ← fold_m (fun x st => n ← node (pool s) x; fold_m (capture_frontier captured) (dominance_frontier n) st)
             captured ([], blocked);
      match st with
      | ([], _) => Ok captured
      | (new, blocked) => capture_frontiers fuel' captured new blocked
      end
  end.

(** The layered merges that together capture every path to the merge block. *)
Definition captured_merges : res (option (list nodref)) :=
  secondary ← has_secondary_inner_merge;
  if negb secondary then Ok None
  else
    l ← capture_frontiers (S (S (length (pool s)))) [natural; inner] [] [];
    if (2 <? length l)%nat then
      b ← can_backtrace_to_with_blockers (pool s) merge r l;
      Ok (if (b : bool) then None else Some l)
    else Ok None.

(** What to dispatch to, and whether branches may cross. *)
Definition inner_merge_dispatch : res (option (list nodref * bool)) :=
  constructs ← switch_exits;
  has_df ← has_inner_merge_in_df constructs;
  simple ← (Ok (negb has_df)) <||> (notm (post_dominates (pool s) merge r));
  allow ← (Ok (negb simple)) <||> (dominates (pool s) r merge);
  if negb allow || (bool_decide (length constructs = 1%nat) && (simple : bool)) then Ok None
  else if (simple : bool) then
    captured ← captured_merges;
    Ok (Some (match captured with Some l => (l, true) | None => (constructs, false) end))
  else Ok (Some (constructs ++ [merge; inner], true)).
End inner_merges.

(** * Labels *)

(** A new block with one branch to [target], dominated by [r]. *)
Definition new_label_block (name_ : string) (r target : nodref) : PM nodref :=
  n ← get_node r;
  b ← on_nodes create_node;
  _ ← set_node b (fun x =>
        set_name name_ (set_immediate_dominator (Some r) (set_immediate_post_dominator (Some target)
          (set_forward_post_visit_order (forward_post_visit_order n)
            (set_backward_post_visit_order (backward_post_visit_order n)
              (set_terminator (branch_terminator target (terminator (ir x))) x))))));
  _ ← on_nodes (add_branch b target);
  mret b.

(** A loop around the switch, so that its labels can break to [merge]. *)
Definition wrap_switch_in_loop (r merge natural : nodref) : PM unit :=
  outer ← on_cfg (create_helper_pred_block r);
  _ ← set_node outer (fun n => set_freeze_structured_analysis true
        (set_loop_merge_block (Some merge) (set_merge MergeLoop n)));
  _ ← on_nodes (add_unique_header merge outer);
  n ← get_node r;
  _ ← (if has_element (succ n) natural then
         x ← get_node natural;
         b ← new_label_block (name x +:+ ".pred") r natural;
         on_nodes (retarget_branch r natural b)
       else mret tt);
  set_node r (set_freeze_structured_analysis true).

Definition label_needs_fixup (s : CFGStructurizer) (r merge natural x : nodref) (can_merge : bool) : res bool :=
  n ← node (pool s) r;
  if decide (x = merge) then
    if decide (merge = natural) then
      match pred_back_edge n with
      | Some c => notm (query_reachability s x c)
      | None => Ok false
      end
    else Ok can_merge
  else
    (notm (dominates (pool s) r x)) <||>
    (xn ← node (pool s) x; Ok (bool_decide (succ_back_edge xn <> None))).

Definition fixup_label (r merge natural : nodref) (can_merge : bool) (x : nodref) : PM unit :=
  need ← ask (fun s => label_needs_fixup s r merge natural x can_merge);
  n ← get_node r;
  xn ← get_node x;
  if (need : bool) && has_element (succ n) x then
    let continues := bool_decide (succ_back_edge xn <> None) in
    b ← new_label_block (name n +:+ (if continues then ".continue" else ".break")) r x;
    _ ← set_node b (set_is_pseudo_back_edge continues);
    on_nodes (retarget_branch r x b)
  else mret tt.

(** * process_switch_blocks *)

Inductive SwitchProgressMode := SwitchDone | SimpleModify | IterativeModify.

Section process.
Context `{FreshMemory}.

(** The frontier of the switch where another path joins before the merge block. *)
Definition hoist_candidate (s : CFGStructurizer) (r merge : nodref) : res (option nodref) :=
  n ← node (pool s) r;
  m ← node (pool s) merge;
  fold_m (fun x candidate =>
    xn ← node (pool s) x;
    ifm Ok (negb (forward_post_visit_order xn =? forward_post_visit_order m)) <&&> (query_reachability s x merge)
    then Ok (Some x) else Ok candidate) (dominance_frontier n) None.

(** The merge block differs from the natural one.  [None] is [IterativeModify]. *)
Definition resolve_inner_merge (r merge natural : nodref) : PM (option (nodref * nodref)) :=
  inner ← ask (fun s => find_inner_switch_merge s r merge natural);
  dispatch ← (if negb (bool_decide (merge = inner)) && negb (bool_decide (inner = natural))
              then ask (fun s => inner_merge_dispatch s r merge natural inner) else mret None);
  match dispatch with
  | Some (constructs, crossing) =>
      _ ← collect_and_dispatch_control_flow r merge constructs false crossing;
      mret None
  | None =>
      d ← ask (fun s => dominates (pool s) r merge);
      n ← get_node r;
      di ← (if bool_decide (pred_back_edge n = None) then mret false
            else ask (fun s => dominates (pool s) r inner));
      natural ← (if (di : bool) then transpose_code_path_through_ladder_block r natural inner else mret natural);
      mret (Some (if (d : bool) then merge else inner, natural))
  end.

Definition resolve_outer_frontier (r merge : nodref) : PM unit :=
  d ← ask (fun s => dominates (pool s) r merge);
  if (d : bool) then mret tt
  else
    c ← ask (fun s => hoist_candidate s r merge);
    match c with
    | Some c => hoist_switch_branches_to_frontier r merge c
    | None => mret tt
    end.

(** The outer merge block gets a loop, and the labels stay inside the switch.  The result
    tells whether a ladder was made. *)
Definition contain_switch (r merge natural : nodref) : PM bool :=
  d ← ask (fun s => dominates (pool s) r merge);
  m ← get_node merge;
  n ← get_node r;
  let can_merge := (d : bool) && bool_decide (headers m = []) in
  let differ := negb (bool_decide (merge = natural)) in
  let ladder := differ && negb can_merge && bool_decide (dominance_frontier n = [merge]) in
  merge ← (if ladder then
             x ← create_switch_merge_ladder r merge;
             d ← ask (fun s => dominates (pool s) r x);
             _ ← assertM d;
             mret x
           else mret merge);
  let can_merge := can_merge || ladder in
  let differ := negb (bool_decide (merge = natural)) in
  _ ← (if differ && can_merge && bool_decide (pred_back_edge n = None)
       then wrap_switch_in_loop r merge natural else mret tt);
  n ← get_node r;
  _ ← for_eachM (fixup_label r merge natural can_merge) (succ n);
  mret ladder.

(** The work of the first pass.  The result is the natural merge and whether the CFG was
    changed; [None] is [IterativeModify]. *)
Definition prepare_switch (r merge natural : nodref) : PM (option (nodref * bool)) :=
  st ← (if decide (merge = natural) then _ ← resolve_outer_frontier r merge; mret (Some (merge, natural))
        else resolve_inner_merge r merge natural);
  match st with
  | None => mret None
  | Some (merge, natural) =>
      modified ← contain_switch r merge natural;
      mret (Some (natural, modified))
  end.

(** The selection merge of the switch; the result tells whether the CFG was changed. *)
Definition merge_switch (pass : Z) (r natural : nodref) : PM bool :=
  need ← (if pass =? 0
          then ask (fun s => (notm (dominates (pool s) r natural)) <||> (is_plain_continue s natural))
          else mret false);
  st ← (if (need : bool) then
          ladder ← create_switch_merge_ladder r natural;
          n ← get_node r;
          m ← on_cfg (find_common_post_dominator_of (succ n));
          mret (default ladder m, Some ladder)
        else mret (natural, None));
  let '(merge, ladder) := (st : nodref * option nodref) in
  d ← ask (fun s => dominates (pool s) r merge);
  _ ← (if (d : bool) then select_merge r merge
       else
         n ← get_node r;
         t ← ask (fun s => find_common_post_dominator_with_ignored_break (pool s) merge (succ n));
         target ← derefM (match t with Some x => Some x | None => ladder end);
         d ← ask (fun s => dominates (pool s) r target);
         if (d : bool) then
           _ ← set_selection r (Some merge);
           _ ← on_nodes (add_unique_header target r);
           on_nodes (add_unique_header merge r)
         else mret tt);
  n ← get_node r;
  if (pass =? 0) && bool_decide (pred_back_edge n <> None)
  then _ ← on_cfg (create_helper_succ_block r); mret true
  else mret need.

Definition process_switch_block (pass : Z) (r : nodref) : PM SwitchProgressMode :=
  n ← get_node r;
  if negb (is_switch n) then mret SwitchDone
  else
    merges ← on_cfg (find_switch_merges r);
    match merges with
    | None => _ ← set_node r (set_merge MergeSelection); mret SwitchDone
    | Some (merge_, natural) =>
        n ← get_node r;
        st ← (if freeze_structured_analysis n && bool_decide (merge n = MergeSelection)
              then x ← derefM (selection_merge_block n); mret (Some (x, false))
              else if pass =? 0 then prepare_switch r merge_ natural
              else mret (Some (natural, false)));
        match st with
        | None => mret IterativeModify
        | Some (natural, modified) =>
            m ← merge_switch pass r natural;
            mret (if (m : bool) || modified then SimpleModify else SwitchDone)
        end
    end.

Fixpoint process_switches (pass : Z) (l : list nodref) (modified : bool) : PM SwitchProgressMode :=
  match l with
  | [] => mret (if modified then SimpleModify else SwitchDone)
  | r :: l' =>
      m ← process_switch_block pass r;
      match m with
      | IterativeModify => mret IterativeModify
      | SimpleModify => process_switches pass l' true
      | SwitchDone => process_switches pass l' modified
      end
  end.

Definition process_switch_blocks (pass : Z) : PM SwitchProgressMode :=
  l ← order; process_switches pass (reverse l) false.

End process.

(** * rewrite_complex_loop_header_switch_constructs *)

(** A switch that is a loop header as well: the natural merge moves in front of the block
    the labels break to. *)
Definition rewrite_complex_loop_header_switch (r : nodref) : PM bool :=
  n ← get_node r;
  if negb (is_switch n) || bool_decide (pred_back_edge n = None) then mret false
  else
    merge ← on_cfg (find_common_post_dominator_of (succ n));
    natural ← on_cfg (find_natural_switch_merge_block r merge);
    match (match merge with Some m => Some m | None => natural end), natural with
    | Some merge, Some natural =>
        go ← ask (fun s => (Ok (negb (bool_decide (merge = natural)))) <&&>
                           (notm (dominates (pool s) r merge)) <&&> (dominates (pool s) r natural));
        if negb go then mret false
        else
          inner ← ask (fun s => find_inner_switch_merge s r merge natural);
          if decide (merge = inner) then
            _ ← transpose_code_path_through_ladder_block r natural inner;
            _ ← on_cfg recompute_cfg;
            mret true
          else mret false
    | _, _ => mret false
    end.

Definition rewrite_complex_loop_header_switch_constructs : PM bool :=
  l ← order; any_of rewrite_complex_loop_header_switch l.

(** * find_selection_merges *)

(** The switch block itself, or one of its labels that is reached by fallthrough. *)
Definition is_handled_by_switch (s : CFGStructurizer) (r : nodref) : res bool :=
  h ← get_outer_selection_dominator (pool s) r;
  hn ← node (pool s) h;
  Ok (is_switch hn && (bool_decide (selection_merge_block hn = Some r) || has_element (succ hn) r)).

(** The header of the construct that merges at [r]. *)
Definition find_selection_header (s : CFGStructurizer) (r : nodref) : res nodref :=
  n ← node (pool s) r;
  idom ← some_or_ub (immediate_dominator n);
  i ← node (pool s) idom;
  _ ← assert_res (2 <=? length (succ i))%nat;
  Ok idom.

(** The innermost header that is registered, or a loop header with a ladder at [r]. *)
Definition innermost_registered_header (s : CFGStructurizer) (r idom : nodref) : res nodref :=
  n ← node (pool s) r;
  idom ← fold_m (fun h idom =>
    hn ← node (pool s) h;
    i ← node (pool s) idom;
    Ok (if forward_post_visit_order i <? forward_post_visit_order hn then h else idom)) (headers n) idom;
  i ← node (pool s) idom;
  if bool_decide (pred_back_edge i = None) then
    h ← innermost_loop_header s idom;
    hn ← node (pool s) h;
    Ok (if bool_decide (loop_ladder_block hn = Some r) then h else idom)
  else Ok idom.

(** The outer selection becomes a loop, and its branch moves to a new block. *)
Definition outer_selection_to_loop (idom : nodref) : PM nodref :=
  i ← get_node idom;
  m ← derefM (selection_merge_block i);
  c ← on_cfg (common_post_dominator m idom);
  _ ← (if decide (c = m) then set_node idom (set_loop_merge_block (Some m))
       else set_node idom (fun n => set_loop_merge_block (Some c) (set_loop_ladder_block (Some m) n)));
  i ← get_node idom;
  m ← derefM (loop_merge_block i);
  _ ← on_nodes (add_unique_header m idom);
  _ ← set_node idom (fun n => set_freeze_structured_analysis true
        (set_selection_merge_block None (set_merge MergeLoop n)));
  on_cfg (create_helper_succ_block idom).

Definition merge_selection_at (pass : Z) (r idom : nodref) : PM unit :=
  i ← get_node idom;
  if is_switch i then mret tt
  else
    idom ← (if bool_decide (merge i = MergeSelection) && (pass =? 0) then outer_selection_to_loop idom
            else mret idom);
    n ← get_node r;
    i ← get_node idom;
    if (pass =? 1) && (2 <? num_forward_preds n) && bool_decide (merge i = MergeNone) then
      _ ← set_node idom (set_merge MergeLoop);
      _ ← on_nodes (add_unique_header r idom);
      set_node idom (fun n => set_freeze_structured_analysis true (set_loop_merge_block (Some r) n))
    else
      _ ← set_node idom (set_merge MergeSelection);
      _ ← on_nodes (add_unique_header r idom);
      set_node idom (set_selection_merge_block (Some r)).

(** The header is a loop: merge in a loop around it or in a selection inside. *)
Definition merge_loop_header_at (r idom : nodref) : PM unit :=
  i ← get_node idom;
  let merges_here := bool_decide (loop_merge_block i = Some r) in
  if merges_here && bool_decide (loop_ladder_block i <> None) then
    loop ← on_cfg (create_helper_pred_block idom);
    _ ← set_node loop (fun n => set_freeze_structured_analysis true
          (set_loop_merge_block (Some r) (set_merge MergeLoop n)));
    on_nodes (add_unique_header r loop)
  else if negb merges_here && negb (bool_decide (loop_ladder_block i = Some r)) then
    x ← on_cfg (create_helper_succ_block idom);
    select_merge x r
  else mret tt.

Definition find_selection_merge (pass : Z) (r : nodref) : PM unit :=
  n ← get_node r;
  if (num_forward_preds n <=? 1) || block_is_plain_continue n r then mret tt
  else
    idom ← ask (fun s => find_selection_header s r);
    handled ← ask (fun s => is_handled_by_switch s r);
    if (handled : bool) then mret tt
    else
      idom ← ask (fun s => innermost_registered_header s r idom);
      i ← get_node idom;
      match merge i with
      | MergeNone | MergeSelection => merge_selection_at pass r idom
      | MergeLoop => if pass =? 0 then merge_loop_header_at r idom else mret tt
      end.

Definition find_selection_merges (pass : Z) : PM unit :=
  l ← order; for_eachM (find_selection_merge pass) l.
