(* ===== verification/LoopConstructs.v ===== *)
(** Loop constructs (cfg_structurizer.cpp): the merge block of every loop, and the rewrites
    for loops whose exits leave to several scopes. *)
From S2P Require Import Prelude.
From S2P Require Import IR.
From S2P Require Import CFGNode.
From S2P Require Import CFGTraversal.
From S2P Require Import SpvBuilder.
From S2P Require Import SPIRVModule.
From S2P Require Import CFGQueries.
From S2P Require Import CFGLoops.
From S2P Require Import Passes.
From S2P Require Import SSAPasses.
From S2P Require Import PhiInsertion.
From S2P Require Import CFGRewrite.
From S2P Require Import SelectionMerges.
From S2P Require Import Serialization.
From S2P Require Import Switches.
Local Open Scope Z_scope.
Local Open Scope dxil_scope.

(** [analyze_loop_merge] with the operations of the module at hand. *)
Definition analyze_merge (r : nodref) (a : LoopAnalysis) : PM LoopMergeAnalysis :=
  ops ← gets (fun s => ops_of s); on_cfg (analyze_loop_merge ops r a).

(** * Transposed loops *)

(** The impossible target can be reached from the merge block: its branches go through a new
    block in front of the merge block. *)
Definition rewrite_transposed_loop_outer (r target dominated_merge : nodref) : PM unit :=
  t ← get_node target;
  let impossible_preds := pred t in
  replaced ← on_cfg (create_helper_pred_block dominated_merge);
  d ← get_node dominated_merge;
  _ ← set_node replaced (set_name (name d +:+ ".transposed-merge-outer"));
  _ ← for_eachM (fun q =>
        reach ← ask (fun s => query_reachability s dominated_merge q);
        if (reach : bool) then mret tt else on_nodes (retarget_branch q target replaced)) impossible_preds;
  n ← get_node r;
  rewrite_ladder_conditional_branch_from_incoming_blocks replaced target dominated_merge
    (has_element impossible_preds) ("transposed_selector_" +:+ name n).

(** The merge block cannot reach the target: both go through a new selection. *)
Definition rewrite_transposed_loop_inner (r target merge dominated_merge : nodref) : PM unit :=
  n ← get_node r;
  t ← get_node target;
  ladder_break ← on_nodes create_node;
  _ ← set_node ladder_break (fun x =>
        set_name (name n +:+ ".transposed-merge-inner.break")
          (set_terminator (branch_terminator target (terminator (ir x))) (place_before target t x)));
  ladder_selection ← on_nodes create_node;
  _ ← set_node ladder_selection (fun x =>
        set_name (name n +:+ ".transposed-merge-inner") (place_before merge t x));
  _ ← set_node ladder_break (set_immediate_dominator (Some ladder_selection));
  d ← get_node dominated_merge;
  let ladder_preds := pred d in
  _ ← on_nodes (add_branch ladder_selection ladder_break);
  _ ← on_nodes (add_branch ladder_selection dominated_merge);
  _ ← on_cfg (traverse_dominated_blocks_and_rewrite_branch r target ladder_selection);
  _ ← on_nodes (recompute_dominator ladder_selection);
  _ ← on_nodes (add_branch ladder_break target);
  _ ← for_eachM (fun q => on_nodes (retarget_branch q dominated_merge ladder_selection)) ladder_preds;
  rewrite_ladder_conditional_branch_from_incoming_blocks ladder_selection dominated_merge ladder_break
    (has_element ladder_preds) ("transposed_selector_" +:+ name n).

(** The common target of the exits that the header does not dominate, when it lies in another
    scope than the merge block. *)
Definition common_break_target (r merge dominated_merge : nodref) (exits : list nodref)
    : SM (option nodref) :=
  match exits with
  | [] => mret None
  | _ =>
      t ← find_common_post_dominator_of exits;
      match t with
      | None => mret None
      | Some t =>
          ok ← observe_all (fun s =>
            (Ok (negb (bool_decide (t = merge)))) <&&> (notm (query_reachability s dominated_merge t)) <&&>
            (notm (query_reachability s t dominated_merge)) <&&>
            ((reaches_domination_frontier_before_merge (pool s) t merge) <||>
             (dominates_outer_continue (pool s) t r)));
          mret (if (ok : bool) then Some t else None)
      end
  end.

(** [find_shared_df_node] *)
Definition find_shared_df_node (s : CFGStructurizer) (a : LoopAnalysis) (exits : list nodref) (x y : nodref)
    : res (option nodref) :=
  xn ← node (pool s) x;
  yn ← node (pool s) y;
  Ok (head (filter (fun f =>
    negb (has_element exits f) && negb (has_element (dominated_exit a) f) &&
    negb (has_element (inner_dominated_exit a) f) && has_element (dominance_frontier yn) f = true)
    (dominance_frontier xn))).

Fixpoint first_shared (s : CFGStructurizer) (a : LoopAnalysis) (exits : list nodref) (x : nodref)
    (inner : list nodref) : res (option nodref) :=
  match inner with
  | [] => Ok None
  | y :: l =>
      f ← find_shared_df_node s a exits x y;
      match f with Some f => Ok (Some f) | None => first_shared s a exits x l end
  end.

(** Exits move on to a frontier they share with an inner exit. *)
Fixpoint advance_exits (s : CFGStructurizer) (a : LoopAnalysis) (dominated_merge : nodref)
    (exits : list nodref) (i n : nat) : res (list nodref) :=
  match n with
  | O => Ok exits
  | S n' =>
      x ← some_or_ub (exits !! i);
      reach ← query_reachability s dominated_merge x;
      f ← (if (reach : bool) then Ok None else first_shared s a exits x (inner_dominated_exit a));
      advance_exits s a dominated_merge (match f with Some f => <[i := f]> exits | None => exits end) (S i) n'
  end.

(** A block behind an exit to which the merge block would branch back. *)
Fixpoint backward_target (s : CFGStructurizer) (r merge dominated_merge : nodref) (fuel : nat) (candidate : nodref)
    : res (option nodref) :=
  match fuel with
  | O => UB
  | S fuel' =>
      if decide (candidate = merge \/ candidate = dominated_merge) then Ok None
      else
        ifm (query_reachability s dominated_merge candidate) <&&> (notm (dominates (pool s) dominated_merge candidate))
        then Ok (Some candidate)
        else
          n ← node (pool s) candidate;
          ifm (dominates (pool s) r candidate) <&&>
              (Ok (negb (bool_decide (immediate_post_dominator n = Some candidate))))
          then d ← some_or_ub (immediate_post_dominator n); backward_target s r merge dominated_merge fuel' d
          else Ok None
  end.

Fixpoint first_backward_target (s : CFGStructurizer) (r merge dominated_merge : nodref) (l : list nodref)
    : res (option nodref) :=
  match l with
  | [] => Ok None
  | x :: l' =>
      t ← backward_target s r merge dominated_merge (S (S (length (pool s)))) x;
      match t with Some t => Ok (Some t) | None => first_backward_target s r merge dominated_merge l' end
  end.

(** The target with the exits that are used from then on. *)
Definition find_impossible_target (r merge dominated_merge : nodref) (a : LoopAnalysis)
    (m : LoopMergeAnalysis) : PM (option nodref * list nodref) :=
  let exits := non_dominated_exit a in
  t ← match lm_infinite_continue_ladder m with
      | Some x => mret (Some x)
      | None => on_cfg (common_break_target r merge dominated_merge exits)
      end;
  match t with
  | Some t => mret (Some t, exits)
  | None =>
      exits ← ask (fun s => advance_exits s a dominated_merge exits 0 (length exits));
      t ← ask (fun s => first_backward_target s r merge dominated_merge exits);
      match t with
      | None => mret (None, exits)
      | Some t =>
          d ← ask (fun s => dominates (pool s) r t);
          t ← (if (d : bool) then mret t else create_ladder_block r t ".impossible-ladder");
          mret (Some t, exits)
      end
  end.

(** Does one of the blocks dominate a later one? *)
Definition related_frontiers (s : CFGStructurizer) (l : list nodref) : res bool :=
  any_of (fun '(i, x) => any_of (fun y => dominates (pool s) x y) (drop (S i) l)) (imap pair l).

(** The frontier is shared by the header and all exits. *)
Definition is_shared_frontier (s : CFGStructurizer) (r : nodref) (exits : list nodref) (c : nodref) : res bool :=
  n ← node (pool s) r;
  if negb (has_element (dominance_frontier n) c) then Ok false
  else
    all_of (fun x =>
      xn ← node (pool s) x;
      d ← dominates (pool s) r x;
      Ok ((d : bool) && has_element (dominance_frontier xn) c)) exits.

(** The exits and the merge block go to the same frontiers. *)
Definition exits_share_frontiers (s : CFGStructurizer) (r dominated_merge : nodref) (exits : list nodref)
    : res bool :=
  d ← node (pool s) dominated_merge;
  related ← related_frontiers s (sort_by (fun x => - order_in (pool s) x) (dominance_frontier d));
  if (related : bool) then Ok false else all_of (is_shared_frontier s r exits) (dominance_frontier d).

(** The frontier of a block that the header dominates, if there is just one. *)
Definition next_frontier (s : CFGStructurizer) (r x : nodref) : res (option nodref) :=
  d ← dominates (pool s) r x;
  if (d : bool) then
    n ← node (pool s) x;
    Ok (match dominance_frontier n with [f] => Some f | _ => None end)
  else Ok (Some x).

Fixpoint next_frontiers (s : CFGStructurizer) (r : nodref) (l : list nodref) : res (option (list nodref)) :=
  match l with
  | [] => Ok (Some [])
  | x :: l' =>
      f ← next_frontier s r x;
      match f with
      | None => Ok None
      | Some f =>
          rest ← next_frontiers s r l';
          Ok (match rest with Some rest => Some (f :: rest) | None => None end)
      end
  end.

Definition crossing_branches (s : CFGStructurizer) (l : list nodref) : res bool :=
  any_of (fun '(i, x) => any_of (fun y =>
    (query_reachability s x y) <||> (query_reachability s y x)) (take i l)) (imap pair l).

(** The exits moved on to their frontiers, the anchor first. *)
Definition anchored_frontiers (s : CFGStructurizer) (r dominated_merge : nodref) (exits : list nodref)
    : res (option (nodref * list nodref)) :=
  moved ← next_frontiers s r (exits ++ [dominated_merge]);
  match sort_by (fun x => - order_in (pool s) x) (default [] moved) with
  | [] => Ok None
  | anchor :: rest =>
      n ← node (pool s) anchor;
      if forallb (has_element (dominance_frontier n)) rest then
        crossing ← crossing_branches s rest;
        Ok (if (crossing : bool) then None else Some (anchor, rest))
      else Ok None
  end.

(** No impossible target was found: the exits may still need one dispatch. *)
Definition dispatch_loop_exits (r dominated_merge : nodref) (exits : list nodref) : PM bool :=
  d ← get_node dominated_merge;
  if negb (bool_decide (exits = [])) && (2 <=? length (dominance_frontier d))%nat then
    shared ← ask (fun s => exits_share_frontiers s r dominated_merge exits);
    if (shared : bool) then
      _ ← collect_and_dispatch_control_flow r dominated_merge (exits ++ [dominated_merge]) false false; mret true
    else mret false
  else if (2 <=? length exits)%nat then
    a ← ask (fun s => anchored_frontiers s r dominated_merge exits);
    match a with
    | Some (anchor, rest) => _ ← collect_and_dispatch_control_flow_from_anchor anchor rest; mret true
    | None => mret false
    end
  else mret false.

Definition rewrite_transposed_loop (r : nodref) : PM bool :=
  n ← get_node r;
  if (freeze_structured_analysis n && bool_decide (merge n = MergeLoop)) || negb (has_pred_back_edges n)
  then mret false
  else
    a ← on_cfg (analyze_loop r);
    m ← analyze_merge r a;
    match lm_merge m, lm_dominated_merge m with
    | Some merge, Some dominated_merge =>
        st ← find_impossible_target r merge dominated_merge a m;
        match st with
        | (Some target, _) =>
            reach ← ask (fun s => query_reachability s dominated_merge target);
            _ ← (if (reach : bool) then rewrite_transposed_loop_outer r target dominated_merge
                 else rewrite_transposed_loop_inner r target merge dominated_merge);
            mret true
        | (None, exits) => dispatch_loop_exits r dominated_merge exits
        end
    | _, _ => mret false
    end.

Definition rewrite_transposed_loops : PM bool :=
  l ← order;
  did_rewrite ← any_of rewrite_transposed_loop (reverse l);
  if (did_rewrite : bool) then _ ← on_cfg recompute_cfg; mret true else mret false.

(** * rewrite_complex_loop_exits *)

(** A block other than the merge block that is in the frontier of every exit. *)
Definition has_common_frontier (s : CFGStructurizer) (merge : nodref) (exits : list nodref) : res bool :=
  frontiers ← fold_m (fun x acc => n ← node (pool s) x; Ok (acc ++ dominance_frontier n)) exits [];
  any_of (fun f =>
    if (length exits <=? length (filter (fun g => g = f) frontiers))%nat && negb (bool_decide (f = merge))
    then query_reachability s f merge else Ok false) frontiers.

(** The only frontier of an exit, outside the loop. *)
Definition clean_frontier (s : CFGStructurizer) (r x : nodref) : res (option nodref) :=
  n ← node (pool s) x;
  match dominance_frontier n with
  | [f] => d ← dominates (pool s) r f; Ok (if (d : bool) then None else Some f)
  | _ => Ok None
  end.

Fixpoint clean_frontiers (s : CFGStructurizer) (r : nodref) (l : list nodref) : res (list nodref) :=
  match l with
  | [] => Ok []
  | x :: l' =>
      f ← clean_frontier s r x;
      match f with
      | None => Ok []
      | Some f =>
          match l' with
          | [] => Ok [f]
          | _ => rest ← clean_frontiers s r l'; Ok (match rest with [] => [] | _ => f :: rest end)
          end
      end
  end.

Fixpoint has_dup_frontier (merge : nodref) (l : list nodref) : bool :=
  match l with
  | x :: (y :: _) as l' => bool_decide (y = x) || bool_decide (y = merge) || has_dup_frontier merge l'
  | _ => false
  end.

(** The frontiers of the exits when they are all different and dominate all predecessors of
    the merge block. *)
Definition separate_frontiers (s : CFGStructurizer) (r merge : nodref) (exits : list nodref) : res (list nodref) :=
  l ← clean_frontiers s r exits;
  let l := sort_by (fun x => - order_in (pool s) x) l in
  if has_dup_frontier merge l then Ok []
  else
    m ← node (pool s) merge;
    all ← all_of (fun q => any_of (fun f => dominates (pool s) f q) l) (pred m);
    Ok (if (all : bool) then l else []).

Definition clear_fake_edges (r : nodref) : PM unit :=
  n ← get_node r;
  c ← derefM (pred_back_edge n);
  set_node c (fun cn => set_fake_pred [] (set_fake_succ [] cn)).

Definition rewrite_complex_loop_exits (r : nodref) (merge : option nodref) (exits : list nodref) : PM bool :=
  n ← get_node r;
  match merge with
  | None => mret false
  | Some merge =>
      c ← derefM (pred_back_edge n);
      cn ← get_node c;
      if negb (bool_decide (succ cn = [])) || (length exits <? 2)%nat then mret false
      else
        clean ← ask (fun s => can_loop_merge_to (pool s) r merge);
        if (clean : bool) then
          common ← ask (fun s => has_common_frontier s merge exits);
          if (common : bool) then
            _ ← clear_fake_edges r;
            _ ← collect_and_dispatch_control_flow r merge exits false false;
            mret true
          else mret false
        else
          frontiers ← ask (fun s => separate_frontiers s r merge exits);
          match frontiers with
          | [] => mret false
          | _ =>
              _ ← clear_fake_edges r;
              _ ← collect_and_dispatch_control_flow r merge exits false false;
              _ ← on_cfg recompute_cfg;
              m ← get_node merge;
              idom ← derefM (immediate_dominator m);
              _ ← clear_fake_edges r;
              _ ← collect_and_dispatch_control_flow idom merge frontiers false false;
              mret true
          end
  end.

(** * find_loops *)

Definition set_loop_merge (r : nodref) (merge ladder : option nodref) : PM unit :=
  set_node r (fun n => set_loop_merge_block merge (set_loop_ladder_block ladder n)).

(** The merge block is known; its ladder block is left as it is. *)
Definition merge_loop_to (r merge : nodref) : PM unit :=
  _ ← set_node r (set_loop_merge_block (Some merge)); on_nodes (add_unique_header merge r).

(** The only exit of a loop is one that its header dominates. *)
Definition is_trivial_exit_loop (s : CFGStructurizer) (r : nodref) (a : LoopAnalysis) : res bool :=
  match dominated_exit a, non_dominated_exit a, inner_dominated_exit a, direct_exits a, inner_direct_exits a with
  | [x], [], [], [], [] =>
      n ← node (pool s) r;
      c ← some_or_ub (pred_back_edge n);
      xn ← node (pool s) x;
      d ← match immediate_dominator xn with
          | Some d => dominates (pool s) d c
          | None => Ok false
          end;
      h ← get_innermost_loop_header_for s r x;
      if decide (h = r) then Ok true
      else
        hn ← node (pool s) h;
        hc ← some_or_ub (pred_back_edge hn);
        hcn ← node (pool s) hc;
        Ok (bool_decide (succ hcn = []) && (d : bool))
  | _, _, _, _, _ => Ok false
  end.

(** No exit of the loop can be merged at. *)
Definition force_infinite_loop (s : CFGStructurizer) (r : nodref) (a : LoopAnalysis) : res bool :=
  trivial ← is_trivial_exit_loop s r a;
  n ← node (pool s) r;
  c ← some_or_ub (pred_back_edge n);
  cn ← node (pool s) c;
  if bool_decide (succ cn = []) && negb trivial then
    all_of (loop_exit_supports_infinite_loop s r)
      (dominated_exit a ++ non_dominated_exit a ++ inner_dominated_exit a ++ direct_exits a ++
       inner_direct_exits a)
  else Ok false.

(** One exit that the header dominates, and maybe exits that leave the function. *)
Definition merge_single_exit (r x : nodref) (a : LoopAnalysis) : PM unit :=
  pdom ← (match direct_exits a with
          | [] => mret None
          | l => on_cfg (find_common_post_dominator_of l)
          end);
  ladder ← match pdom with
           | None => mret None
           | Some p => reach ← ask (fun s => query_reachability s x p); mret (if (reach : bool) then Some p else None)
           end;
  match ladder with
  | Some p => _ ← set_node r (set_loop_ladder_block (Some x)); merge_loop_to r p
  | None => merge_loop_to r x
  end.

(** A block in front of the continue block of an outer header that can serve as ladder. *)
Definition ladder_candidate (s : CFGStructurizer) (r : nodref) (exits : list nodref) (innermost : option nodref)
    (h : nodref) : res (option nodref) :=
  hn ← node (pool s) h;
  match pred_back_edge hn with
  | None => Ok None
  | Some c =>
      outer ← match innermost with
              | Some i => query_reachability s h i
              | None => Ok false
              end;
      cn ← node (pool s) c;
      match (outer : bool), pred cn with
      | false, [q] =>
          ok ← (post_dominates (pool s) c q) <&&> (dominates (pool s) r q) <&&>
               (any_of (post_dominates (pool s) q) exits);
          Ok (if (ok : bool) then Some q else None)
      | _, _ => Ok None
      end
  end.

Definition find_ladder_in_headers (r merge : nodref) (exits : list nodref) : PM unit :=
  m ← get_node merge;
  _ ← fold_m (fun h innermost =>
        x ← ask (fun s => ladder_candidate s r exits innermost h);
        match x with
        | Some x => _ ← set_node r (set_loop_ladder_block (Some x)); mret (Some h)
        | None => mret innermost
        end) (headers m) None;
  mret tt.

Definition with_frontier_keys (s : CFGStructurizer) (l : list nodref) : res (list (Z * nodref)) :=
  fold_m (fun x acc => k ← earliest_dominance_frontier_post_visit_order s x; Ok (acc ++ [(k, x)])) l [].

(** The exit with the earliest frontier, if there is one such exit. *)
Definition least_breaking_exit (s : CFGStructurizer) (exits : list nodref) : res (option nodref) :=
  l ← with_frontier_keys s exits;
  Ok (match sort_by (fun e : Z * nodref => - fst e) l with
      | (k, x) :: (k', _) :: _ => if k =? k' then None else Some x
      | _ => None
      end).

(** The header cannot merge to the merge block: the ladder block is in between. *)
Definition merge_loop_with_ladder (r merge : nodref) (dominated_merge : option nodref) (exits : list nodref)
    : PM unit :=
  n ← get_node r;
  c ← derefM (pred_back_edge n);
  cn ← get_node c;
  ladder ← match dominated_merge, succ cn with
           | None, [x] => l ← create_ladder_block c x ".merge"; mret (Some l)
           | None, [] => if (1 <? length exits)%nat then ask (fun s => least_breaking_exit s exits) else mret None
           | d, _ => mret d
           end;
  _ ← set_loop_merge r (Some merge) ladder;
  on_nodes (add_unique_header merge r).

(** Several exits.  The result tells whether the CFG was rewritten. *)
Definition merge_many_exits (pass : Z) (r : nodref) (a : LoopAnalysis) : PM bool :=
  m ← analyze_merge r a;
  rewritten ← (if pass =? 0 then rewrite_complex_loop_exits r (lm_merge m) (dominated_exit a) else mret false);
  if (rewritten : bool) then mret true
  else
    match (match lm_merge m with Some x => Some x | None => lm_weak_merge m end) with
    | None => mret false
    | Some merge =>
        clean ← ask (fun s => can_loop_merge_to (pool s) r merge);
        _ ← (if (clean : bool) then
               mn ← get_node merge;
               _ ← (if negb (bool_decide (headers mn = [])) && bool_decide (lm_dominated_merge m = Some merge)
                    then find_ladder_in_headers r merge (dominated_exit a) else mret tt);
               merge_loop_to r merge
             else merge_loop_with_ladder r merge (lm_dominated_merge m) (dominated_exit a));
        mret false
    end.

Definition merge_loop (pass : Z) (r : nodref) : PM bool :=
  _ ← set_node r (set_merge MergeLoop);
  a ← on_cfg (analyze_loop r);
  _ ← assertM (bool_decide (dominated_continue_exit a = []));
  infinite ← ask (fun s => force_infinite_loop s r a);
  match (infinite : bool), dominated_exit a, inner_dominated_exit a, non_dominated_exit a with
  | true, _, _, _ | false, [], [], [] => _ ← set_node r (set_loop_merge_block None); mret false
  | false, [x], [], [] => _ ← merge_single_exit r x a; mret false
  | false, [], [], [x] =>
      ladder ← create_ladder_block r x ".merge";
      _ ← set_loop_merge r (Some ladder) None;
      _ ← on_nodes (add_unique_header ladder r);
      mret false
  | _, _, _, _ => merge_many_exits pass r a
  end.

Definition find_loop (pass : Z) (r : nodref) : PM bool :=
  n ← get_node r;
  if freeze_structured_analysis n && bool_decide (merge n = MergeLoop) then
    m ← derefM (loop_merge_block n); _ ← on_nodes (add_unique_header m r); mret false
  else if negb (has_pred_back_edges n) then mret false
  else merge_loop pass r.

(** The result tells that the CFG was rewritten and has to be analysed again. *)
Definition find_loops (pass : Z) : PM bool :=
  l ← order; any_of (find_loop pass) (reverse l).
