(* ===== verification/Ladders.v ===== *)
(** Ladder blocks (cfg_structurizer.cpp): a block that several constructs merge to is split
    into a chain of merge blocks, the inner one in front of the outer one. *)
From S2P Require Import Prelude.
From S2P Require Import IR.
From S2P Require Import CFGNode.
From S2P Require Import CFGTraversal.
From S2P Require Import SpvBuilder.
From S2P Require Import SPIRVModule.
From S2P Require Import CFGQueries.
From S2P Require Import CFGLoops.
From S2P Require Import Passes.
From S2P Require Import SSAPasses.
From S2P Require Import PhiInsertion.
From S2P Require Import CFGRewrite.
From S2P Require Import SelectionMerges.
From S2P Require Import Serialization.
From S2P Require Import Switches.
From S2P Require Import LoopConstructs.
Local Open Scope Z_scope.
Local Open Scope dxil_scope.

(** * The loop to break out to *)

(** Where a branch out of a loop goes: its ladder block, or its merge block. *)
Definition break_block (h : CFGNode) : option nodref :=
  match loop_ladder_block h with Some l => Some l | None => loop_merge_block h end.

Definition encloses (s : CFGStructurizer) (inner_header candidate : nodref) : res bool :=
  h ← node (pool s) candidate;
  match merge h, break_block h with
  | MergeLoop, Some m => (notm (query_reachability s m inner_header)) <&&> (dominates (pool s) candidate inner_header)
  | _, _ => Ok false
  end.

(** The innermost loop among the headers before [header_index] that encloses the header. *)
Definition get_target_break_block_for_inner_header (s : CFGStructurizer) (r : nodref) (header_index : nat)
    : res (option nodref) :=
  n ← node (pool s) r;
  inner_header ← some_or_ub (headers n !! header_index);
  find_m (encloses s inner_header) (rev (take header_index (headers n))).

Definition get_or_create_ladder_block (r : nodref) (header_index : nat) : PM (option nodref) :=
  n ← get_node r;
  header ← derefM (headers n !! header_index);
  h ← get_node header;
  match loop_ladder_block h with
  | Some l => mret (Some l)
  | None =>
      ladder ← create_ladder_block header r ".merge";
      _ ← set_node header (set_loop_ladder_block (Some ladder));
      mret (if decide (1 < header_index)%nat then Some ladder else None)
  end.

(** * The break target of a ladder block *)

Definition id_is_generated_by_block (r : nodref) (id : Z) : PM bool :=
  l ← block_ops r;
  n ← get_node r;
  mret (existsb (fun x => op_id (snd x) =? id) l || existsb (fun f => phi_id f =? id) (phi (ir n))).

(** The first incoming value from the block [from] comes from [to] instead. *)
Definition retarget_phi_incoming_block (from to : nodref) (f : PHI) : PHI :=
  match phi_incoming_blocks_find_block (phi_incoming f) from with
  | Some (i, v) => set_incoming (<[i := mkIncoming (Some to) (incoming_id v)]> (phi_incoming f)) f
  | None => f
  end.

(** Chase through dummy ladders. *)
Fixpoint chase_ladders (s : CFGStructurizer) (fuel : nat) (x : nodref) : res nodref :=
  match fuel with
  | O => UB
  | S fuel' =>
      n ← node (pool s) x;
      match phi (ir n), succ n with
      | [], [y] => chase_ladders s fuel' y
      | _, _ => Ok x
      end
  end.

Definition takes_from (f : PHI) (r : nodref) : bool :=
  bool_decide (phi_incoming_blocks_find_block (phi_incoming f) r <> None).

(** The dominator of the ladder block, when a PHI takes a value from the ladder block that
    can come from the dominator instead. *)
Definition hoisted_incoming (s : CFGStructurizer) (loop_ladder x : nodref) : res (option nodref) :=
  n ← node (pool s) x;
  l ← node (pool s) loop_ladder;
  Ok (match phi (ir n) with
      | f :: _ =>
          match immediate_dominator l with
          | Some idom =>
              if takes_from f loop_ladder && negb (bool_decide (idom = loop_ladder)) && negb (takes_from f idom)
              then Some idom else None
          | None => None
          end
      | [] => None
      end).

(** The PHIs of [x] take their values from [idom], unless the ladder block defines one. *)
Definition retarget_phis (loop_ladder x idom : nodref) : PM bool :=
  n ← get_node x;
  is_generated ← any_of (fun f =>
    match phi_incoming_blocks_find_block (phi_incoming f) loop_ladder with
    | Some (_, v) => id_is_generated_by_block loop_ladder (incoming_id v)
    | None => mret false
    end) (phi (ir n));
  if (is_generated : bool) then mret false
  else _ ← set_node x (fun n => set_phi (retarget_phi_incoming_block loop_ladder idom <$> phi (ir n)) n); mret true.

Definition ladder_to_merge_is_trivial (r loop_ladder : nodref) : PM bool :=
  l ← get_node loop_ladder;
  if negb (bool_decide (succ l = [r])) then mret false
  else
    x ← ask (fun s => chase_ladders s (S (length (pool s))) r);
    idom ← ask (fun s => hoisted_incoming s loop_ladder x);
    match idom with
    | Some idom => retarget_phis loop_ladder x idom
    | None => mret true
    end.

(** The outer selection is wrapped in a loop.  Returns the block that replaces [r] and the
    break target. *)
Definition build_enclosing_break_target_for_loop_ladder (r loop_ladder : nodref)
    : PM (nodref * option nodref) :=
  trivial ← ladder_to_merge_is_trivial r loop_ladder;
  if (trivial : bool) then mret (r, None)
  else
    new_selection_merge ← on_cfg (create_helper_pred_block r);
    n ← get_node new_selection_merge;
    h ← derefM (head (headers n));
    loop ← on_cfg (create_helper_pred_block h);
    n ← get_node new_selection_merge;
    h ← derefM (head (headers n));
    hn ← get_node h;
    _ ← assertM (bool_decide (merge hn = MergeSelection));
    _ ← set_node h (set_selection_merge_block (Some new_selection_merge));
    _ ← set_node new_selection_merge (fun n => set_headers (<[0%nat := loop]> (headers n)) n);
    _ ← set_node loop (fun n => set_freeze_structured_analysis true
          (set_loop_merge_block (Some r) (set_merge MergeLoop n)));
    _ ← on_cfg (traverse_dominated_blocks_and_rewrite_branch loop_ladder new_selection_merge r);
    mret (new_selection_merge, Some r).

(** * The ladder block in front of a loop's merge block *)

(** Outer scopes never branch to the ladder block of an inner scope. *)
Definition may_pass (r : nodref) (header_index : nat) (x : nodref) : SM bool :=
  n ← on_pool (node_at r);
  notm (any_of (fun h =>
    hn ← on_pool (node_at h); mret (bool_decide (loop_ladder_block hn = Some x)))
    (take header_index (headers n))).

Definition breaking_block (target_header full_break_target : option nodref) : PM (option nodref) :=
  b ← match target_header with
      | Some h => hn ← get_node h; mret (break_block hn)
      | None => mret None
      end;
  mret (match b with Some b => Some b | None => full_break_target end).

(** A conditional branch with equal targets is a direct one. *)
Definition fold_condition (n : CFGNode) : CFGNode :=
  let t := terminator (ir n) in
  if bool_decide (true_block t = false_block t)
  then set_terminator (mkTerminator (conditional_id t) TBranch (true_block t) (true_block t) (false_block t)
         (cases t) (return_value t) (force_unroll t) (force_loop t) (force_flatten t) (force_branch t)) n
  else n.

Definition break_from_ladder (ladder true_b loop_ladder : nodref) (normal_preds : list nodref) : PM unit :=
  l ← get_node loop_ladder;
  rewrite_ladder_conditional_branch_from_incoming_blocks ladder true_b loop_ladder
    (fun q => negb (has_element normal_preds q)) ("ladder_phi_" +:+ name l).

Definition ladder_to_outer_scope (r header loop_ladder : nodref)
    (target_header full_break_target : option nodref) (normal_preds : list nodref) : PM nodref :=
  ladder ← on_cfg (create_helper_pred_block loop_ladder);
  n ← get_node r;
  header_index ← derefM (index_of (headers n) header);
  _ ← (if negb (bool_decide (header_index = 0%nat)) || block_is_plain_continue n r
       then on_cfg (traverse_dominated_blocks_and_rewrite_branch_if header r ladder (may_pass r header_index) [])
       else mret tt);
  true_b ← breaking_block target_header full_break_target;
  match true_b with
  | None => mret ladder
  | Some true_b =>
      _ ← break_from_ladder ladder true_b loop_ladder normal_preds;
      _ ← set_node ladder fold_condition;
      mret ladder
  end.

(** The branches to [r] must not run the ladder block's operations. *)
Definition ladder_around_operations (r header loop_ladder : nodref) (normal_preds : list nodref) : PM nodref :=
  ladder_pre ← on_cfg (create_helper_pred_block loop_ladder);
  ladder_post ← on_cfg (create_helper_succ_block loop_ladder);
  _ ← on_cfg (traverse_dominated_blocks_and_rewrite_branch header r ladder_pre);
  _ ← break_from_ladder ladder_pre ladder_post loop_ladder normal_preds;
  mret ladder_pre.

Definition build_ladder_block_for_escaping_edge_handling (r header loop_ladder : nodref)
    (target_header full_break_target : option nodref) (normal_preds : list nodref) : PM (option nodref) :=
  match target_header, full_break_target with
  | None, None =>
      l ← get_node loop_ladder;
      match operations (ir l) with
      | [] => _ ← on_cfg (traverse_dominated_blocks_and_rewrite_branch header r loop_ladder); mret None
      | _ => x ← ladder_around_operations r header loop_ladder normal_preds; mret (Some x)
      end
  | _, _ =>
      x ← ladder_to_outer_scope r header loop_ladder target_header full_break_target normal_preds;
      mret (Some x)
  end.

(** * Splitting a merge block *)

(** The order of the headers: outer scopes first. *)
Definition header_before (s : CFGStructurizer) (a b : nodref) : res bool :=
  ifm dominates (pool s) a b then Ok true
  else
    ifm dominates (pool s) b a then Ok false
    else
      x ← node (pool s) a;
      y ← node (pool s) b;
      Ok (forward_post_visit_order y <? forward_post_visit_order x).

Fixpoint insert_header (s : CFGStructurizer) (x : nodref) (l : list nodref) : res (list nodref) :=
  match l with
  | [] => Ok [x]
  | y :: l' =>
      before ← header_before s x y;
      if (before : bool) then Ok (x :: y :: l') else rest ← insert_header s x l'; Ok (y :: rest)
  end.

(** [std::sort] of the headers. *)
Definition sort_headers (r : nodref) : PM unit :=
  n ← get_node r;
  l ← ask (fun s => fold_m (insert_header s) (headers n) []);
  set_node r (set_headers l).

(** The predecessors of the ladder blocks, before branches are rewritten. *)
Definition ladder_preds (h : nodref) : PM (list nodref) :=
  hn ← get_node h;
  match loop_ladder_block hn with
  | Some l => ln ← get_node l; mret (pred ln)
  | None => mret []
  end.

(** [node], [full_break_target] and [has_rewrites_to_outer_ladder] *)
Record SplitState := mkSplit {
  split_node : nodref; full_break_target : option nodref; rewrites_to_outer : bool;
}.

Definition set_full_break_target (t : option nodref) (st : SplitState) : SplitState :=
  mkSplit (split_node st) t (rewrites_to_outer st).

Definition note_outer_rewrite (target_header : option nodref) (st : SplitState) : PM SplitState :=
  n ← get_node (split_node st);
  h ← derefM (head (headers n));
  mret (if bool_decide (target_header = Some h)
        then mkSplit (split_node st) (full_break_target st) true else st).

(** The header will not be analysed again: it gets its new merge block at once. *)
Definition settle_frozen_header (header : nodref) (new_ladder_block : option nodref) : PM unit :=
  h ← get_node header;
  if freeze_structured_analysis h then
    _ ← match new_ladder_block with
        | Some l => set_node header (set_loop_ladder_block (Some l))
        | None => mret tt
        end;
    set_node header (fun h => set_loop_ladder_block None (set_loop_merge_block (loop_ladder_block h) h))
  else mret tt.

(** A loop that merges to the block. *)
Definition split_loop (i : nat) (header : nodref) (target_header : option nodref)
    (normal_preds : list nodref) (st : SplitState) : PM SplitState :=
  loop_ladder ← get_or_create_ladder_block (split_node st) i;
  match loop_ladder with
  | None => _ ← settle_frozen_header header None; mret st
  | Some loop_ladder =>
      st ← match target_header, full_break_target st with
           | None, None =>
               x ← build_enclosing_break_target_for_loop_ladder (split_node st) loop_ladder;
               mret (mkSplit (fst x) (snd x) (rewrites_to_outer st))
           | _, _ => mret st
           end;
      new_ladder_block ← build_ladder_block_for_escaping_edge_handling (split_node st) header loop_ladder
        target_header (full_break_target st) normal_preds;
      st ← note_outer_rewrite target_header st;
      _ ← settle_frozen_header header new_ladder_block;
      mret st
  end.

(** The outermost selection must become a loop. *)
Definition promote_outer_selection (r : nodref) : PM unit :=
  n ← get_node r;
  h ← derefM (head (headers n));
  hn ← get_node h;
  _ ← assertM (bool_decide (merge hn = MergeSelection));
  _ ← assertM (bool_decide (selection_merge_block hn = Some r));
  set_node h (fun hn => set_selection_merge_block None (set_loop_merge_block (Some r)
    (set_freeze_structured_analysis true (set_merge MergeLoop hn)))).

(** A selection that merges to the block. *)
Definition split_selection (header : nodref) (target_header : option nodref) (st : SplitState) : PM SplitState :=
  match target_header, full_break_target st with
  | Some t, _ =>
      tn ← get_node t;
      match break_block tn with
      | Some to =>
          if decide (to = split_node st) then mret st
          else
            _ ← on_cfg (traverse_dominated_blocks_and_rewrite_branch header (split_node st) to);
            note_outer_rewrite target_header st
      | None => mret st
      end
  | None, Some to =>
      _ ← on_cfg (traverse_dominated_blocks_and_rewrite_branch header (split_node st) to); mret st
  | None, None =>
      _ ← promote_outer_selection (split_node st);
      mret (set_full_break_target (Some (split_node st)) st)
  end.

Definition split_header (normal_preds : list (list nodref)) (i : nat) (st : SplitState) : PM SplitState :=
  n ← get_node (split_node st);
  header ← derefM (headers n !! i);
  target_header ← (if decide (i = 0%nat) then mret None
                   else ask (fun s => get_target_break_block_for_inner_header s (split_node st) i));
  preds ← derefM (normal_preds !! i);
  h ← get_node header;
  match merge h with
  | MergeLoop => split_loop i header target_header preds st
  | MergeSelection => split_selection header target_header st
  | MergeNone => mret st
  end.

(** Branches meant for the outermost loop's merge block may have gone to its ladder block. *)
Definition fixup_outer_ladder (normal_preds : list (list nodref)) (st : SplitState) : PM unit :=
  let r := split_node st in
  n ← get_node r;
  outer ← derefM (head (headers n));
  o ← get_node outer;
  match rewrites_to_outer st, merge o, loop_ladder_block o, loop_merge_block o with
  | true, MergeLoop, Some ladder, Some m =>
      d ← ask (fun s => dominates (pool s) ladder m);
      l ← get_node ladder;
      non_trivial ← (if (d : bool) then
                       if negb (bool_decide (operations (ir l) = [])) then mret true
                       else ask (fun s => ladder_chain_has_phi_dependencies s ladder m)
                     else mret false);
      if (non_trivial : bool) then
        preds ← derefM (head normal_preds);
        _ ← build_ladder_block_for_escaping_edge_handling r outer ladder None (Some m) preds;
        mret tt
      else mret tt
  | _, _, _, _ => mret tt
  end.

(** [split_merge_blocks(node)]: the headers from the innermost to the outermost one, which is
    left out unless the block is a continue block. *)
Definition split_merge_block (r : nodref) : PM bool :=
  skip ← ask (fun s => is_trivially_no_split_node s r);
  if (skip : bool) then mret false
  else
    _ ← sort_headers r;
    n ← get_node r;
    let plain := block_is_plain_continue n r in
    normal_preds ← mapM_list ladder_preds (headers n);
    let indices := seq 0 (length (headers n)) in
    st ← fold_m (split_header normal_preds) (rev (if plain then indices else tail indices))
           (mkSplit r (if plain then Some r else None) false);
    _ ← fixup_outer_ladder normal_preds st;
    mret true.

(** A split block that is no longer in the traversal order is split from its successor.  The
    predecessors are read one by one, because splitting one may change them. *)
Fixpoint split_merge_blocks_and_visit_orphan_preds (fuel : nat) (merge r : nodref)
    (visited_orphans : list nodref) : PM (list nodref) :=
  match fuel with
  | O => ubM
  | S fuel' =>
      done ← split_merge_block r;
      if (done : bool) then mret visited_orphans
      else
        n ← get_node r;
        (fix loop (i k : nat) (visited_orphans : list nodref) : PM (list nodref) :=
           match k with
           | O => mret visited_orphans
           | S k' =>
               n ← get_node r;
               q ← derefM (pred n !! i);
               rewind ← ask (fun s => is_rewind_candidate_split_node s visited_orphans merge q);
               visited_orphans ←
                 (if (rewind : bool)
                  then split_merge_blocks_and_visit_orphan_preds fuel' merge q (visited_orphans ++ [q])
                  else mret visited_orphans);
               loop (S i) k' visited_orphans
           end) 0%nat (length (pred n)) visited_orphans
  end.

(** A block that is visited as an orphan is always split, so the recursion is two deep. *)
Definition split_merge_blocks : PM unit :=
  l ← order;
  _ ← fold_m (fun r visited_orphans => split_merge_blocks_and_visit_orphan_preds 2 r r visited_orphans) l [];
  mret tt.

(** * The second pass *)

(** Selections inside of a loop that merge to the loop's merge block have no merge block. *)
Definition eliminate_degenerate_switch_merge (r : nodref) : PM unit :=
  n ← get_node r;
  if (length (headers n) <=? 1)%nat then mret tt
  else
    _ ← sort_headers r;
    n ← get_node r;
    outer ← derefM (head (headers n));
    o ← get_node outer;
    if bool_decide (merge o = MergeLoop) && bool_decide (loop_merge_block o = Some r) then
      for_eachM (fun h =>
        hn ← get_node h;
        if bool_decide (merge hn = MergeSelection) && bool_decide (selection_merge_block hn = Some r)
        then set_node h (set_selection_merge_block None) else mret tt) (tail (headers n))
    else mret tt.

Definition eliminate_degenerate_switch_merges : PM unit :=
  l ← order; for_eachM eliminate_degenerate_switch_merge l.
