(* ===== verification/Structurize.v ===== *)
(** The structurizer (cfg_structurizer.cpp): the two structurization passes, the last repairs
    of the breaks, and [run], which composes all the passes. *)
From S2P Require Import Prelude.
From S2P Require Import IR.
From S2P Require Import CFGNode.
From S2P Require Import CFGTraversal.
From S2P Require Import SpvBuilder.
From S2P Require Import SPIRVModule.
From S2P Require Import CFGQueries.
From S2P Require Import CFGLoops.
From S2P Require Import Passes.
From S2P Require Import SSAPasses.
From S2P Require Import PhiInsertion.
From S2P Require Import CFGRewrite.
From S2P Require Import SelectionMerges.
From S2P Require Import Serialization.
From S2P Require Import Switches.
From S2P Require Import LoopConstructs.
From S2P Require Import Ladders.
Local Open Scope Z_scope.
Local Open Scope dxil_scope.

(** [while (body) after;], for fewer than [2 ^ loop_bits] rounds. *)
Definition loop_bits : nat := 64.
Definition while_ (body : PM bool) (after : PM unit) : PM unit :=
  repeat_pow loop_bits (fun _ : unit =>
    b ← body;
    if (b : bool) then _ ← after; mret (inl tt) else mret (inr tt)) tt ≫= fun x =>
  match x with inr _ => mret tt | inl _ => ubM end.

(** * structurize *)

Section structurize.
Context `{FreshMemory}.

(** [switch_mode] after the large changes to the CFG. *)
Definition iterate_switch_blocks (pass : Z) : PM SwitchProgressMode :=
  m ← process_switch_blocks pass;
  x ← repeat_pow loop_bits (fun m =>
        match m with
        | IterativeModify =>
            _ ← on_cfg recompute_cfg;
            m ← process_switch_blocks pass;
            mret (inl m)
        | _ => mret (inr m)
        end) m;
  match x with inr m => mret m | inl _ => ubM end.

(** [abort] when the switches do not settle is undefined here. *)
Definition settle_switch_blocks (pass : Z) : PM unit :=
  m ← iterate_switch_blocks pass;
  match m with
  | SimpleModify =>
      _ ← on_cfg recompute_cfg;
      m ← process_switch_blocks pass;
      match m with SwitchDone => mret tt | _ => ubM end
  | _ => mret tt
  end.

(** The result tells that the CFG has to be analysed again. *)
Definition structurize (pass : Z) : PM bool :=
  _ ← settle_switch_blocks pass;
  again ← find_loops pass;
  if (again : bool) then mret true
  else
    _ ← find_selection_merges pass;
    _ ← fixup_broken_selection_merges pass;
    _ ← (if pass =? 0 then split_merge_blocks else eliminate_degenerate_switch_merges);
    mret false.

End structurize.

(** * rewrite_invalid_switch_breaks *)

Definition structurally_dominates (s : CFGStructurizer) (r x : nodref) : res bool :=
  d ← dominates (pool s) r x;
  n ← node (pool s) x;
  Ok ((d : bool) && forallb (fun h => bool_decide (h = r)) (headers n)).

Definition interpose_break (r x : nodref) : PM unit :=
  n ← get_node r;
  xn ← get_node x;
  let continues := bool_decide (succ_back_edge xn <> None) in
  b ← new_label_block (name n +:+ (if continues then ".continue" else ".break")) r x;
  _ ← set_node b (set_is_pseudo_back_edge continues);
  on_nodes (retarget_branch r x b).

(** The successors are read one by one, because they are replaced in place. *)
Definition fixup_switch_breaks (r : nodref) (did_rewrite : bool) : PM bool :=
  n ← get_node r;
  if negb (is_switch n) then mret did_rewrite
  else
    fold_m (fun i did_rewrite =>
      n ← get_node r;
      x ← derefM (succ n !! i);
      ok ← ask (fun s => structurally_dominates s r x);
      if (ok : bool) then mret did_rewrite else _ ← interpose_break r x; mret true)
      (seq 0 (length (succ n))) did_rewrite.

Definition rewrite_invalid_switch_breaks : PM bool :=
  l ← order; fold_m fixup_switch_breaks l false.

(** * rewrite_invalid_loop_breaks *)

(** The search looks for common post-dominators, which fills in missing ones. *)
Section search.
Variable merge_ : nodref.

Definition some_reaches (s : CFGStructurizer) (l : list nodref) : res bool :=
  any_of (fun x => query_reachability s x merge_) l.

(** The continue block of the loop around [r], when it post-dominates [r]. *)
Definition closing_continue (s : CFGStructurizer) (r : nodref) : res (option nodref) :=
  h ← innermost_loop_header s r;
  hn ← node (pool s) h;
  match pred_back_edge hn with
  | Some c => d ← post_dominates (pool s) c r; Ok (if (d : bool) then Some c else None)
  | None => Ok None
  end.

(** An infinite loop that is left for the merge block: nothing to look for inside. *)
Definition is_closed_chain (s : CFGStructurizer) (r : nodref) : res bool :=
  reach ← query_reachability s r merge_;
  if (reach : bool) then Ok false
  else
    c ← closing_continue s r;
    match c with
    | Some c => cn ← node (pool s) c; some_reaches s (fake_succ cn)
    | None => Ok false
    end.

Definition candidate_continue (s : CFGStructurizer) (x : nodref) : res nodref :=
  c ← scan_plain_continue_block s x;
  cn ← node (pool s) c;
  if bool_decide (succ_back_edge cn <> None) then Ok c
  else d ← closing_continue s x; Ok (default c d).

Definition can_reach_merge (s : CFGStructurizer) (x : nodref) : res bool :=
  reach ← query_reachability s x merge_;
  c ← candidate_continue s x;
  cn ← node (pool s) c;
  if negb reach && bool_decide (succ_back_edge cn <> None) then some_reaches s (fake_succ cn)
  else Ok reach.

(** Does [x] leave the loop construct without returning? *)
Definition leaves_construct (x : nodref) : SM bool :=
  reach ← observe_all (fun s => can_reach_merge s x);
  if (reach : bool) then mret false
  else
    pdom ← common_post_dominator x merge_;
    n ← on_pool (node_at pdom);
    mret (negb (bool_decide (pred n = []))).

(** The callback of the traversal; the last successor that leaves the construct is kept. *)
Definition scan_candidate (candidate : nodref) (invalid_target : option nodref)
    : SM (bool * option nodref) :=
  if bool_decide (candidate = merge_) || bool_decide (invalid_target <> None) then mret (false, invalid_target)
  else
    closed ← observe_all (fun s => is_closed_chain s candidate);
    if (closed : bool) then mret (false, invalid_target)
    else
      n ← on_pool (node_at candidate);
      t ← fold_m (fun x t =>
            b ← leaves_construct x; mret (if (b : bool) then Some x else t)) (succ n) invalid_target;
      mret (true, t).

Fixpoint scan_dominated (fuel : nat) (header this : nodref) (st : gset nodref * option nodref)
    : SM (gset nodref * option nodref) :=
  match fuel with
  | O => ubM
  | S fuel' =>
      n ← on_pool (node_at this);
      fold_m (fun x (st : gset nodref * option nodref) =>
        let '(completed, t) := st in
        if decide (x ∈ completed) then mret st
        else
          let completed := {[x]} ∪ completed in
          d ← observe_all (fun s => dominates (pool s) header x);
          if (d : bool) then
            r ← scan_candidate x t;
            let '(go, t) := (r : bool * option nodref) in
            if go then scan_dominated fuel' header x (completed, t) else mret (completed, t)
          else mret (completed, t)) (succ n) st
  end.

Definition find_invalid_target (header : nodref) : SM (option nodref) :=
  fuel ← gets (fun s => S (length (pool s)));
  st ← scan_dominated fuel header header (∅, None);
  mret (snd st).
End search.

(** [rewrite_header] with [invalid_target], or [invalid_merge] *)
Inductive InvalidBreak := NoInvalid | InvalidTarget (header target : nodref) | InvalidMerge (header : nodref).

Definition check_loop_breaks (r : nodref) : PM InvalidBreak :=
  n ← get_node r;
  match merge n, freeze_structured_analysis n, loop_merge_block n with
  | MergeLoop, true, None => mret NoInvalid
  | MergeLoop, true, Some m =>
      clean ← ask (fun s => post_dominates (pool s) m r);
      if (clean : bool) then mret NoInvalid
      else
        t ← on_cfg (find_invalid_target m r);
        mret (match t with Some t => InvalidTarget r t | None => NoInvalid end)
  | MergeLoop, false, Some m =>
      match pred_back_edge n with
      | Some c =>
          cn ← get_node c;
          d ← ask (fun s => dominates (pool s) r m);
          mret (if bool_decide (succ cn = []) && negb d then InvalidMerge r else NoInvalid)
      | None => mret NoInvalid
      end
  | _, _, _ => mret NoInvalid
  end.

Fixpoint first_invalid_break (l : list nodref) : PM InvalidBreak :=
  match l with
  | [] => mret NoInvalid
  | r :: l' =>
      b ← check_loop_breaks r;
      match b with NoInvalid => first_invalid_break l' | _ => mret b end
  end.

(** ** The three repairs *)

Definition dispatch_all_exits (header : nodref) : PM unit :=
  a ← on_cfg (analyze_loop header);
  n ← get_node header;
  m ← derefM (loop_merge_block n);
  _ ← collect_and_dispatch_control_flow header m (dominated_exit a ++ non_dominated_exit a) false false;
  on_cfg recompute_cfg.

(** Only loops merge at the target, and the break leaves one loop only. *)
Definition valid_exit_to_outer_loop (s : CFGStructurizer) (target outer_merge : nodref) : res bool :=
  t ← node (pool s) target;
  if bool_decide (outer_merge = target) || has_element (dominance_frontier t) outer_merge then
    all_of (fun h => hn ← node (pool s) h; Ok (bool_decide (merge hn = MergeLoop))) (headers t)
  else Ok false.

(** A switch inside that may break to the header's merge block. *)
Definition has_inner_complex_switch (s : CFGStructurizer) (header : nodref) : res bool :=
  n ← node (pool s) header;
  m ← some_or_ub (loop_merge_block n);
  l ← dominated_range s header m;
  fold_m (fun x found =>
    if decide (x = header) then Ok found
    else
      xn ← node (pool s) x;
      if is_switch xn then
        y ← some_or_ub (selection_merge_block xn);
        d ← post_dominates (pool s) y x;
        Ok (negb d || found)
      else Ok found) l false.

(** May the loop become a switch, so that its breaks can pass through? *)
Definition can_become_switch (s : CFGStructurizer) (header target : nodref) : res bool :=
  outer ← innermost_loop_header s header;
  o ← node (pool s) outer;
  match loop_merge_block o with
  | None => Ok false
  | Some m =>
      (post_dominates (pool s) m target) <&&> (valid_exit_to_outer_loop s target m) <&&>
      (notm (has_inner_complex_switch s header))
  end.

Definition default_switch (id : Z) (t : Terminator) : Terminator :=
  mkTerminator id TSwitch None (true_block t) (false_block t)
    (cases t ++ [mkCase (direct_block t) 0 0 true]) (return_value t)
    (force_unroll t) (force_loop t) (force_flatten t) (force_branch t).

Definition set_merge_target (ty : MergeType) (b : option nodref) (m : MergeInfo) : MergeInfo :=
  mkMergeInfo ty b (continue_block m) (loop_control_mask m) (selection_control_mask m).

(** The loop header is put into a switch with a default label only. *)
Definition demote_to_switch (header : nodref) : PM unit :=
  q ← on_cfg (create_helper_pred_block header);
  n ← get_node header;
  let m := loop_merge_block n in
  _ ← set_node q (fun x => update_merge_info (set_merge_target MergeSelection m)
        (set_freeze_structured_analysis true (set_selection_merge_block m (set_merge MergeSelection x))));
  t ← on_module (on_builder (makeUintType 32));
  id ← on_module (on_builder (makeNullConstant t));
  _ ← set_node q (fun x => set_terminator (default_switch id (terminator (ir x))) x);
  _ ← set_node header (fun x => update_merge_info (set_merge_target MergeNone None)
        (set_freeze_structured_analysis false (set_loop_ladder_block None
          (set_loop_merge_block None (set_merge MergeNone x)))));
  on_cfg recompute_cfg.

(** The breaks to the target go through a dispatcher in front of the merge block. *)
Definition dispatch_invalid_target (header target : nodref) : PM unit :=
  n ← get_node header;
  m ← derefM (loop_merge_block n);
  dispatcher ← on_cfg (create_helper_pred_block m);
  _ ← set_node header (set_loop_merge_block (Some dispatcher));
  natural_preds ← num_preds dispatcher;
  _ ← on_cfg (traverse_dominated_blocks_and_rewrite_branch header target dispatcher);
  mn ← get_node m;
  id ← on_module allocate_id;
  t ← bool_type;
  _ ← on_module (on_builder (addName id ("break_selector_" +:+ name mn)));
  d ← get_node dispatcher;
  normal ← bool_incoming true (take natural_preds (pred d));
  rewritten ← bool_incoming false (drop natural_preds (pred d));
  _ ← set_node dispatcher (fun x => set_terminator (set_condition id m target (terminator (ir x))) x);
  _ ← push_phi (mkPHI id t false (normal ++ rewritten)) dispatcher;
  _ ← on_nodes (add_branch dispatcher target);
  on_cfg recompute_cfg.

Definition rewrite_invalid_loop_breaks : PM bool :=
  l ← order;
  b ← first_invalid_break l;
  match b with
  | NoInvalid => mret false
  | InvalidMerge header => _ ← dispatch_all_exits header; mret true
  | InvalidTarget header target =>
      demote ← ask (fun s => can_become_switch s header target);
      _ ← (if (demote : bool) then demote_to_switch header else dispatch_invalid_target header target);
      mret true
  end.

(** * run *)

Section run.
Context `{FreshMemory}.

(** The rewrites that leave the CFG without crossing branches. *)
Definition prepare_cfg : PM unit :=
  _ ← on_cfg rewrite_multiple_back_edges;
  _ ← on_cfg recompute_cfg;
  _ ← sink_ssa_constructs;
  _ ← propagate_branch_control_hints;
  _ ← cleanup_breaking_phi_constructs;
  _ ← while_ cleanup_breaking_return_constructs (mret tt);
  _ ← on_cfg create_continue_block_ladders;
  _ ← while_ serialize_interleaved_early_returns (mret tt);
  _ ← while_ serialize_interleaved_merge_scopes_aggressive (mret tt);
  _ ← while_ serialize_interleaved_merge_scopes (mret tt);
  _ ← split_merge_scopes;
  _ ← on_cfg recompute_cfg;
  _ ← eliminate_degenerate_blocks;
  _ ← duplicate_impossible_merge_constructs;
  _ ← while_ rewrite_complex_loop_header_switch_constructs (mret tt);
  _ ← while_ rewrite_transposed_loops (mret tt);
  while_ rewrite_impossible_back_edges (mret tt).

Definition restructure : PM unit := _ ← structurize 1; mret tt.

Definition repair_breaks : PM unit :=
  need_restructure ← rewrite_invalid_loop_breaks;
  _ ← (if (need_restructure : bool)
       then _ ← while_ rewrite_invalid_loop_breaks (mret tt); restructure else mret tt);
  need_restructure ← rewrite_invalid_switch_breaks;
  if (need_restructure : bool) then _ ← on_cfg recompute_cfg; restructure else mret tt.

Definition run : PM bool :=
  _ ← prepare_cfg;
  _ ← while_ (structurize 0) (on_cfg recompute_cfg);
  _ ← update_structured_loop_merge_targets;
  _ ← eliminate_degenerate_blocks;
  _ ← restructure;
  _ ← repair_breaks;
  _ ← insert_phi;
  mret true.

End run.
