(* ===== verification/StructuredCode.v ===== *)
(** What the result of the structurizer has to be: the meaning of a control-flow graph of
    operations, before and after, and the rules of SPIR-V for structured control flow.

    A [Program] is a list of labelled blocks.  [cfg_program] reads one off the nodes of the
    structurizer's input, [spirv_program] off the blocks of a SPIR-V function.  [execute]
    runs either on the same inputs, and [structured] checks the rules on the latter. *)
From S2P Require Import Prelude.
From S2P Require Import IR.
From S2P Require Import CFGNode.
From S2P Require Import CFGTraversal.
From S2P Require Import SpvBuilder.
From S2P Require Import SPIRVModule.
From S2P Require Import Passes.
Local Open Scope Z_scope.
Local Open Scope dxil_scope.

(** * Programs *)

Inductive Jump :=
  | Goto (l : Z)
  | Choose (c t f : Z)
  | Select (c default : Z) (labels : list (Z * Z))
  | Leave.

Record Code := mkCode {
  code_label : Z;
  code_phis : list (Z * list (Z * Z));  (** a result, and values with the blocks they come from *)
  code_body : list Instruction;
  code_merge : option (Z * option Z);   (** a merge block, and a loop's continue block *)
  code_jump : Jump;
}.

Abbreviation Program := (list Code).

Definition code_at (p : Program) (l : Z) : option Code := snd <$> list_find (fun c => code_label c = l) p.

(** ** The program of a graph of nodes *)

Definition block_label (r : nodref) : Z := Z.of_nat r.

Definition phi_code (f : PHI) : Z * list (Z * Z) :=
  (phi_id f, phi_incoming f ≫= fun v =>
     match incoming_block v with Some b => [(incoming_id v, block_label b)] | None => [] end).

Definition op_code (o : Operation) : Instruction :=
  mkInstruction (op_id o) (op_type_id o) (op o) (contents o).*1.

Definition terminator_code (t : Terminator) : option Jump :=
  match term_type t with
  | TBranch => Goto ∘ block_label <$> direct_block t
  | TCondition =>
      match true_block t, false_block t with
      | Some x, Some y => Some (Choose (conditional_id t) (block_label x) (block_label y))
      | _, _ => None
      end
  | TSwitch =>
      let targets := cases t ≫= fun c =>
        match case_node c with Some x => [(is_default c, case_value c, block_label x)] | None => [] end in
      match filter (fun x : bool * Z * Z => x.1.1 = true) targets with
      | x :: _ => Some (Select (conditional_id t) x.2
                          ((fun x : bool * Z * Z => (x.1.2, x.2)) <$> filter (fun x : bool * Z * Z => x.1.1 = false) targets))
      | [] => None
      end
  | _ => Some Leave
  end.

Definition node_code (ops : list Operation) (r : nodref) (n : CFGNode) : option Code :=
  body ← mapM (fun o : opref => op_code <$> ops !! o) (operations (ir n));
  j ← terminator_code (terminator (ir n));
  Some (mkCode (block_label r) (phi_code <$> phi (ir n)) body None j).

Definition cfg_program (s : Passes) : option Program :=
  mapM (fun e : nat * CFGNode => node_code (ops_of s) e.1 e.2) (imap pair (nodes s)).

(** ** The program of a SPIR-V function *)

Fixpoint pairs (l : list Z) : list (Z * Z) :=
  match l with x :: y :: l' => (x, y) :: pairs l' | _ => [] end.

Definition jump_code (i : Instruction) : option Jump :=
  let code := opCode i in
  if code =? OpBranch then match operands i with [l] => Some (Goto l) | _ => None end
  else if code =? OpBranchConditional then
    match operands i with [c; t; f] => Some (Choose c t f) | _ => None end
  else if code =? OpSwitch then
    match operands i with c :: d :: l => Some (Select c d (pairs l)) | _ => None end
  else if (code =? OpReturn) || (code =? OpUnreachable) || (code =? OpKill) then Some Leave
  else None.

Definition merge_code (i : Instruction) : option (Z * option Z) :=
  if opCode i =? OpSelectionMerge then m ← operands i !! 0%nat; Some (m, None)
  else if opCode i =? OpLoopMerge then
    m ← operands i !! 0%nat; c ← operands i !! 1%nat; Some (m, Some c)
  else None.

Definition is_label_or_phi (i : Instruction) : bool := (opCode i =? OpLabel) || (opCode i =? OpPhi).

(** A merge instruction is the last but one of a block. *)
Definition spirv_code (l : list Instruction) : option Code :=
  match l with
  | head :: _ =>
      let body := filter (fun i => is_label_or_phi i = false) l in
      let phis := (fun i => (resultId i, pairs (operands i))) <$> filter (fun i => opCode i = OpPhi) l in
      last ← list.last body;
      j ← jump_code last;
      let init := take (length body - 1) body in
      if opCode head =? OpLabel then
        Some (match list.last init ≫= merge_code with
              | Some m => mkCode (resultId head) phis (take (length init - 1) init) (Some m) j
              | None => mkCode (resultId head) phis init None j
              end)
      else None
  | [] => None
  end.

(** Blocks without terminator are left out: [leaveFunction] makes one that nothing branches to. *)
Definition spirv_program (b : Builder) : Program :=
  omap (fun k => spirv_code (instructions k)) (blocks b).

(** * Execution *)

(** Values, and the ids of what has no value here (pointers, undefined values). *)
Inductive word := Val (z : Z) | Ref (id : Z).
#[export] Instance word_eq_dec : EqDecision word.
Proof. solve_decision. Defined.

(** An operation that the rest of the world sees: its opcode and arguments. *)
Definition event : Type := Z * list word.

Inductive Ending := Returned | Starved | Broken.
#[export] Instance ending_eq_dec : EqDecision Ending.
Proof. solve_decision. Defined.

Record State := mkState { env : gmap Z word; inputs : list Z; events : list event }.

Section execute.
Variable b : Builder.
Variable p : Program.

Definition constant_word (id : Z) : word :=
  match getInstruction b id with
  | Some i =>
      if opCode i =? OpConstantTrue then Val 1
      else if (opCode i =? OpConstantFalse) || (opCode i =? OpConstantNull) then Val 0
      else if opCode i =? OpConstant then
        match operands i with [v] => Val v | _ => Ref id end
      else Ref id
  | None => Ref id
  end.

Definition read (e : gmap Z word) (id : Z) : word :=
  match e !! id with Some v => v | None => constant_word id end.

Definition truth (c : bool) : word := Val (if c then 1 else 0).

(** The operations that the structurizer adds. *)
Definition evaluate (code : Z) (args : list word) : option word :=
  match args with
  | [x] => if code =? OpCopyObject then Some x else None
  | [Val x; Val y] =>
      if code =? OpIEqual then Some (truth (x =? y))
      else if code =? OpINotEqual then Some (truth (negb (x =? y)))
      else if code =? OpLogicalAnd then Some (Val (Z.land x y))
      else if code =? OpLogicalOr then Some (Val (Z.lor x y))
      else None
  | [Val c; x; y] => if code =? OpSelect then Some (if c =? 0 then y else x) else None
  | _ => None
  end.

Definition is_variable (id : Z) : bool :=
  match getInstruction b id with Some i => opCode i =? OpVariable | None => false end.

(** The result of an event is the next input. *)
Definition execute_event (i : Instruction) (args : list word) (s : State) : option State :=
  match inputs s with
  | v :: l => Some (mkState (<[resultId i := Val v]> (env s)) l (events s ++ [(opCode i, args)]))
  | [] => None
  end.

Definition execute_instruction (s : State) (i : Instruction) : option State :=
  let args := read (env s) <$> operands i in
  let set id v := Some (mkState (<[id := v]> (env s)) (inputs s) (events s)) in
  if opCode i =? OpUndef then Some s
  else
    match evaluate (opCode i) args with
    | Some v => set (resultId i) v
    | None =>
        match operands i, args with
        | [x], [v] => if (opCode i =? OpLoad) && is_variable x then set (resultId i) v else execute_event i args s
        | [x; _], [_; v] => if (opCode i =? OpStore) && is_variable x then set x v else execute_event i args s
        | _, _ => execute_event i args s
        end
    end.

(** The state where the inputs end, if they do. *)
Fixpoint execute_body (l : list Instruction) (s : State) : State * bool :=
  match l with
  | [] => (s, true)
  | i :: l' => match execute_instruction s i with Some s => execute_body l' s | None => (s, false) end
  end.

(** All PHIs read the values of before.  PHI [0] was replaced by a copy in the predecessor. *)
Definition execute_phis (from : Z) (l : list (Z * list (Z * Z))) (s : State) : State :=
  let e := foldl (fun e (f : Z * list (Z * Z)) =>
    match list_find (fun v : Z * Z => v.2 = from) f.2 with
    | Some (_, v) => if f.1 =? 0 then e else <[f.1 := read (env s) v.1]> e
    | None => delete f.1 e
    end) (env s) l in
  mkState e (inputs s) (events s).

Definition jump_target (j : Jump) (s : State) : option (option Z) :=
  match j with
  | Goto l => Some (Some l)
  | Choose c t f => match read (env s) c with Val v => Some (Some (if v =? 0 then f else t)) | Ref _ => None end
  | Select c d labels =>
      match read (env s) c with
      | Val v => Some (Some (match list_find (fun x : Z * Z => x.1 = v) labels with Some (_, x) => x.2 | None => d end))
      | Ref _ => None
      end
  | Leave => Some None
  end.

(** How the execution ends and the events on the way. *)
Fixpoint execute_from (fuel : nat) (from l : Z) (s : State) : Ending * list event :=
  match fuel with
  | O => (Broken, events s)
  | S fuel' =>
      match code_at p l with
      | None => (Broken, events s)
      | Some c =>
          let '(s, alive) := execute_body (code_body c) (execute_phis from (code_phis c) s) in
          if alive then
            match jump_target (code_jump c) s with
            | Some (Some l') => execute_from fuel' l l' s
            | Some None => (Returned, events s)
            | None => (Broken, events s)
            end
          else (Starved, events s)
      end
  end.

(** Between two events every block is entered at most once, before and after the rewrites. *)
Definition execution_fuel (inputs : list Z) : nat := S (length inputs) * S (length p).

Definition execute (l : Z) (inputs : list Z) : Ending * list event :=
  execute_from (execution_fuel inputs) (-1) l (mkState ∅ inputs []).
End execute.

(** * Structured control flow *)

Definition jump_targets (j : Jump) : list Z :=
  match j with
  | Goto l => [l]
  | Choose _ t f => remove_dups [t; f]
  | Select _ d labels => remove_dups (d :: labels.*2)
  | Leave => []
  end.

Section structured.
Variable p : Program.
Variable entry : Z.

Definition targets (l : Z) : list Z := match code_at p l with Some c => jump_targets (code_jump c) | None => [] end.
Definition merge_of (l : Z) : option Z := c ← code_at p l; fst <$> code_merge c.
Definition continue_of (l : Z) : option Z := c ← code_at p l; m ← code_merge c; m.2.

(** The edges of the structural control-flow graph. *)
Definition structural_targets (l : Z) : list Z :=
  targets l ++ option_list (merge_of l) ++ option_list (continue_of l).

Definition without (x : Z) (l : list Z) : list Z := filter (fun y => y <> x) l.

(** What is reached from [l] with the edges of [next], [n] steps. *)
Fixpoint reach_in (next : Z -> list Z) (n : nat) (seen new : list Z) : list Z :=
  match n, new with
  | O, _ | _, [] => seen
  | S n', _ =>
      let new := filter (fun y => y ∉ seen) (remove_dups (new ≫= next)) in
      reach_in next n' (seen ++ new) new
  end.
Definition reach (next : Z -> list Z) (l : Z) : list Z := reach_in next (length p) [l] [l].

(** The blocks that count: those with a path of structural edges from the entry. *)
Definition live : list Z := reach structural_targets entry.

(** The blocks that [a] structurally dominates. *)
Definition dominated (a : Z) : list Z :=
  if a =? entry then live
  else let others := reach (fun l => without a (structural_targets l)) entry in
       filter (fun l => l ∉ others) live.

(** The blocks of a construct, a loop with its continue construct for a loop header. *)
Definition scope (dom : Z -> list Z) (h : Z) : list Z :=
  match merge_of h with Some m => filter (fun l => l ∉ dom m) (dom h) | None => [] end.

Definition is_select (l : Z) : bool :=
  match code_at p l with Some c => match code_jump c with Select _ _ _ => true | _ => false end | None => false end.

(** The innermost of the headers with [l] in their scope. *)
Definition innermost (dom : Z -> list Z) (headers : list Z) (l : Z) : option Z :=
  let around := filter (fun h => l ∈ scope dom h) headers in
  head (filter (fun h => Forall (fun h' => h ∈ dom h') around) around).

(** ** Rules *)

Section rules.
Variable dom : Z -> list Z.
Definition headers : list Z := filter (fun l => merge_of l <> None) live.
Definition loop_headers : list Z := filter (fun l => continue_of l <> None) live.
Definition select_headers : list Z := filter (fun l => is_select l = true) headers.

(** Every block is there, and the entry is not a target. *)
Definition targets_exist : bool :=
  forallb (fun l => bool_decide (code_at p l <> None) && negb (bool_decide (entry ∈ structural_targets l))) live.

(** The PHIs of a block have a value for every predecessor, and no other. *)
Definition phis_complete : bool :=
  forallb (fun l =>
    let preds := filter (fun q => l ∈ targets q) live in
    match code_at p l with
    | Some c => forallb (fun f : Z * list (Z * Z) =>
        bool_decide (NoDup f.2.*2) && bool_decide (Forall (fun q => q ∈ f.2.*2) preds) &&
        bool_decide (length f.2 = length preds)) (code_phis c)
    | None => false
    end) live.

(** A merge block belongs to one header, which strictly dominates it, as a loop header
    dominates its continue block. *)
Definition merges_dominated : bool :=
  bool_decide (NoDup (omap merge_of headers)) &&
  forallb (fun h =>
    forallb (fun m => negb (m =? h) && bool_decide (m ∈ dom h)) (option_list (merge_of h)) &&
    forallb (fun c => bool_decide (c ∈ dom h)) (option_list (continue_of h)) &&
    negb (bool_decide (merge_of h = continue_of h))) headers.

Definition back_edge (a l : Z) : bool := bool_decide (a ∈ dom l).

(** Back edges go to loop headers, one to each, from the blocks that the continue block
    dominates. *)
Definition back_edges_to_headers : bool :=
  forallb (fun a => forallb (fun l =>
    negb (back_edge a l) ||
    match continue_of l with Some c => bool_decide (a ∈ dom c) | None => false end) (targets a)) live &&
  forallb (fun h => (length (filter (fun a => back_edge a h = true /\ h ∈ targets a) live) <=? 1)%nat) loop_headers.

(** Without the back edges there are no cycles. *)
Definition forward_targets (l : Z) : list Z := filter (fun x => back_edge l x = false) (targets l).
Definition no_other_cycles : bool :=
  forallb (fun l => negb (bool_decide (l ∈ (forward_targets l ≫= reach forward_targets)))) live.

(** Where a block may go out of a construct: the merge block and the continue block of the
    loop it is in, the merge block of the switch it is in, and the header of the loop that
    the block closes. *)
Definition exits (l : Z) : list Z :=
  let loop := innermost dom loop_headers l in
  let switch := innermost dom select_headers l in
  let inner := match switch, loop with
               | Some x, Some y => bool_decide (x ∈ dom y)
               | Some _, None => true
               | None, _ => false
               end in
  option_list (loop ≫= merge_of) ++ option_list (loop ≫= continue_of) ++ option_list loop ++
  (if inner then option_list (switch ≫= merge_of) else []).

Definition case_targets (h : Z) : list Z := if is_select h then without (default h (merge_of h)) (targets h) else [].

(** Branches leave a construct to its merge block or by one of the exits; a switch may fall
    through from one label to the next. *)
Definition branches_stay : bool :=
  forallb (fun h => let inside := scope dom h in
    forallb (fun a => forallb (fun l =>
      bool_decide (l ∈ inside) || bool_decide (merge_of h = Some l) || bool_decide (l ∈ exits a))
      (targets a)) inside) headers.

(** A construct is entered at its header. *)
Definition entered_at_header : bool :=
  forallb (fun h => let inside := scope dom h in
    forallb (fun a => bool_decide (a ∈ inside) ||
      forallb (fun l => (l =? h) || negb (bool_decide (l ∈ inside))) (targets a)) live) headers.

(** A branch without merge block has one target at most that is no exit, and a switch has a
    merge block. *)
Definition selections_structured : bool :=
  forallb (fun l =>
    bool_decide (merge_of l <> None) ||
    (negb (is_select l) &&
     (let around := omap merge_of (filter (fun h => l ∈ scope dom h) headers) in
      (length (filter (fun x => x ∉ exits l ++ around) (targets l)) <=? 1)%nat))) live.

Definition rules : list bool :=
  [targets_exist; phis_complete; merges_dominated; back_edges_to_headers; no_other_cycles;
   entered_at_header; branches_stay; selections_structured].
End rules.

Definition dominated_table : list (Z * list Z) := (fun l => (l, dominated l)) <$> live.
Definition lookup_table (t : list (Z * list Z)) (l : Z) : list Z :=
  match list_find (fun e : Z * list Z => e.1 = l) t with Some (_, e) => e.2 | None => [] end.

Definition structured_rules : list bool := let t := dominated_table in rules (lookup_table t).
Definition structured : bool := forallb id structured_rules.
End structured.
