(* ===== verification/SSATheorems.v ===== *)
(** What the passes over instructions guarantee. *)
From S2P Require Import Prelude.
From S2P Require Import IR.
From S2P Require Import CFGNode.
From S2P Require Import CFGTraversal.
From S2P Require Import CFGGraph.
From S2P Require Import SpvBuilder.
From S2P Require Import SPIRVModule.
From S2P Require Import CFGQueries.
From S2P Require Import CFGLoops.
From S2P Require Import Passes.
From S2P Require Import SSAPasses.
Local Open Scope Z_scope.

(** * Removal of unused values *)

(** The ids the operations [l] consume. *)
Definition op_uses (ops : list Operation) (l : list opref) (id : Z) : Prop :=
  exists o x i, o ∈ l /\ ops !! o = Some x /\ argument x i = Ok id /\ argument_is_literal x i = Ok false.

(** The ids a block consumes: inputs of its PHIs, arguments of its operations, the operand
    of its terminator. *)
Definition block_uses (ops : list Operation) (n : CFGNode) (id : Z) : Prop :=
  (exists f v, f ∈ phi (ir n) /\ v ∈ phi_incoming f /\ incoming_id v = id) \/
  op_uses ops (operations (ir n)) id \/
  (conditional_id (terminator (ir n)) = id /\ id <> 0) \/
  (term_type (terminator (ir n)) = TReturn /\ return_value (terminator (ir n)) = id /\ id <> 0).

(** The ids the visited blocks consume. *)
Definition uses (s : Passes) (id : Z) : Prop :=
  exists r n, r ∈ forward_order (cfg s) /\ nodes s !! r = Some n /\ block_uses (ops_of s) n id.

(** The operations a visited block holds exist. *)
Definition ops_ok (s : Passes) : Prop :=
  forall r, r ∈ forward_order (cfg s) -> exists n, nodes s !! r = Some n /\
    forall o, o ∈ operations (ir n) -> exists x, ops_of s !! o = Some x /\ op_wf x.

Lemma elem_of_foldl_union {X} (g : X -> Z) (l : list X) (u : gset Z) id :
  id ∈ foldl (fun u x => {[g x]} ∪ u) u l <-> id ∈ u \/ exists x, x ∈ l /\ g x = id.
Proof.
  revert u; induction l as [|x l IH]; intros u; simpl.
  - split; [by left|]. intros [?|(y & Hy & _)]; [done|]. by apply elem_of_nil in Hy.
  - rewrite IH, elem_of_union, elem_of_singleton. split.
    + intros [[->|?]|(y & Hy & E)]; [right; exists x; split; [left|done]|by left|right; exists y; split; [by right|done]].
    + intros [?|(y & [->|Hy]%elem_of_cons & E)]; [left; by right|left; by left|right; eauto].
Qed.

Lemma elem_of_phi_ids (l : list PHI) (u : gset Z) id :
  id ∈ foldl (fun u f => foldl (fun u v => {[incoming_id v]} ∪ u) u (phi_incoming f)) u l <->
  id ∈ u \/ exists f v, f ∈ l /\ v ∈ phi_incoming f /\ incoming_id v = id.
Proof.
  revert u; induction l as [|f l IH]; intros u; simpl.
  - split; [by left|]. intros [?|(g & v & Hg & _)]; [done|]. by apply elem_of_nil in Hg.
  - rewrite IH, elem_of_foldl_union. split.
    + intros [[?|(v & ? & ?)]|(g & v & ? & ? & ?)]; [by left|right; exists f, v; split_and!; [left|done..]|].
      right. exists g, v. split_and!; [by right|done..].
    + intros [?|(g & v & [->|Hg]%elem_of_cons & ? & ?)]; [left; by left|left; right; eauto|right; eauto].
Qed.

Lemma used_ops_runs s l (used : gset Z) (Q : gset Z -> Passes -> Prop) :
  (forall o, o ∈ l -> exists x, ops_of s !! o = Some x /\ op_wf x) ->
  (forall used', (forall id, id ∈ used' <-> id ∈ used \/ op_uses (ops_of s) l id) -> Q used' s) ->
  runs (fold_m (fun o used => x ← on_module (op_at o); ids ← lift (id_arguments x);
                 mret (foldl (fun used id => {[id]} ∪ used) used ids)) l used) s Q.
Proof.
  intros Hl HQ. eapply runs_mono.
  - apply (runs_fold _ (fun pre u s' => s' = s /\ forall id, id ∈ u <-> id ∈ used \/ op_uses (ops_of s) pre id)).
    + split; [done|]. intros id. split; [by left|]. intros [?|(o & ? & ? & Ho & _)]; [done|].
      by apply elem_of_nil in Ho.
    + intros pre o post u s' E [-> Hu]. destruct (Hl o) as (x & Hx & Hwf).
      { rewrite E. apply elem_of_app. right. left. }
      apply runs_bind. eapply runs_op_at; [exact Hx|]. apply runs_bind.
      eapply runs_lift; [by apply id_arguments_run|]. apply runs_ret. split; [done|]. intros id.
      rewrite (elem_of_foldl_union (fun id => id)), Hu. unfold op_uses. split.
      * intros [[?|(o' & y & i & Ho & ? & ? & ?)]|(v & Hv & <-)]; [by left|right|right].
        -- exists o', y, i. rewrite elem_of_app. split_and!; [by left|done..].
        -- apply (elem_of_ids_of x v Hwf) in Hv as (i & ? & ?).
           exists o, x, i. rewrite elem_of_app. split_and!; [right; left|done..].
      * intros [?|(o' & y & i & [Ho|Ho%list_elem_of_singleton]%elem_of_app & Hy & ? & ?)];
          [left; by left|left; right; by exists o', y, i|].
        subst o'. rewrite Hx in Hy. injection Hy as <-.
        right. exists id. split; [|done]. apply elem_of_ids_of; [done|]. by exists i.
  - intros u s' [-> Hu]. by apply HQ.
Qed.

Lemma used_by_block_runs s r n (used : gset Z) (Q : gset Z -> Passes -> Prop) :
  nodes s !! r = Some n ->
  (forall o, o ∈ operations (ir n) -> exists x, ops_of s !! o = Some x /\ op_wf x) ->
  (forall used', (forall id, id ∈ used' <-> id ∈ used \/ block_uses (ops_of s) n id) -> Q used' s) ->
  runs (used_by_block r used) s Q.
Proof.
  intros Hn Hl HQ. unfold used_by_block. apply runs_bind. eapply runs_get_node; [exact Hn|].
  apply runs_bind. apply used_ops_runs; [exact Hl|]. intros u Hu. apply runs_ret. apply HQ.
  intros id. set (t := terminator (ir n)) in *.
  assert (forall (b : bool) (v : Z) (w : gset Z), id ∈ (if b then {[v]} ∪ w else w) <-> id ∈ w \/ (b = true /\ v = id)) as Hif.
  { intros b v w. destruct b; [rewrite elem_of_union, elem_of_singleton|]; intuition congruence. }
  assert (forall (b : bool) (v : Z) (w : gset Z), id ∈ (if b then w else {[v]} ∪ w) <-> id ∈ w \/ (b = false /\ v = id)) as Hif'.
  { intros b v w. destruct b; [|rewrite elem_of_union, elem_of_singleton]; intuition congruence. }
  rewrite Hif, Hif', Hu, elem_of_phi_ids. unfold block_uses. fold t.
  rewrite andb_true_iff, bool_decide_eq_true, negb_true_iff, !Z.eqb_neq.
  split; [intros [[[[?|?]|?]|[? ?]]|[[? ?] ?]]|intros [?|[?|[?|[[? ?]|(? & ? & ?)]]]]];
    subst; tauto.
Qed.

(** The operations of a list with their contents. *)
Definition entries (ops : list Operation) (l : list opref) (l' : list op_entry) : Prop :=
  l'.*1 = l /\ forall e, e ∈ l' -> ops !! e.1 = Some e.2.

Lemma load_ops_runs s l (Q : list op_entry -> Passes -> Prop) :
  (forall o, o ∈ l -> exists x, ops_of s !! o = Some x /\ op_wf x) ->
  (forall l', entries (ops_of s) l l' -> Q l' s) -> runs (load_ops l) s Q.
Proof.
  revert Q; induction l as [|o l IH]; intros Q Hl HQ.
  - apply runs_ret, HQ. split; [done|]. intros e He. by apply elem_of_nil in He.
  - destruct (Hl o) as (x & Hx & _); [left|]. unfold load_ops. cbn [mapM_list].
    apply runs_bind, runs_bind. eapply runs_op_at; [exact Hx|]. apply runs_ret, runs_bind.
    apply IH; [intros y Hy; apply Hl; by right|]. intros l' [E Hl']. apply runs_ret, HQ.
    split; [by rewrite <- E|]. intros e [->|He]%elem_of_cons; [done|auto].
Qed.

Lemma entries_filter ops l l' (P : op_entry -> Prop) `{!forall e, Decision (P e)} o :
  entries ops l l' ->
  o ∈ (filter P l').*1 <-> exists x, o ∈ l /\ ops !! o = Some x /\ P (o, x).
Proof.
  intros [E Hl]. rewrite list_elem_of_fmap. split.
  - intros ([o' x] & -> & [HP Hin]%list_elem_of_filter). exists x. split_and!; [|by apply (Hl (o', x))|done].
    rewrite <- E. apply list_elem_of_fmap. by exists (o', x).
  - intros (x & Hin & Hx & HP). rewrite <- E in Hin. apply list_elem_of_fmap in Hin as ([o' y] & -> & Hin).
    exists (o', y). split; [done|]. apply list_elem_of_filter. split; [|done].
    pose proof (Hl _ Hin) as Hy. simpl in *. congruence.
Qed.

Lemma entries_sublist ops l l' (P : op_entry -> Prop) `{!forall e, Decision (P e)} :
  entries ops l l' -> (filter P l').*1 `sublist_of` l.
Proof. intros [<- _]. apply fmap_sublist, sublist_filter. Qed.

(** A block without what [used] does not need. *)
Definition pruned (ops : list Operation) (used : gset Z) (n n' : CFGNode) : Prop :=
  exists fs l, n' = set_operations l (set_phi fs n) /\
    fs `sublist_of` phi (ir n) /\ (forall f, f ∈ fs <-> f ∈ phi (ir n) /\ phi_id f ∈ used) /\
    l `sublist_of` operations (ir n) /\
    forall o, o ∈ l <-> exists x, o ∈ operations (ir n) /\ ops !! o = Some x /\ is_unused used x = false.

Lemma remove_unused_from_block_runs s r n used removed (Q : gset Z -> Passes -> Prop) :
  nodes s !! r = Some n ->
  (forall o, o ∈ operations (ir n) -> exists x, ops_of s !! o = Some x /\ op_wf x) ->
  (forall n' removed', pruned (ops_of s) used n n' ->
     (forall id, id ∈ removed' <-> id ∈ removed \/ exists o x, o ∈ operations (ir n) /\
        ops_of s !! o = Some x /\ is_unused used x = true /\ op_id x = id) ->
     Q removed' (with_nodes (<[r := n']> (nodes s)) s)) ->
  runs (remove_unused_from_block used r removed) s Q.
Proof.
  intros Hn Hl HQ. unfold remove_unused_from_block. apply runs_bind.
  eapply runs_set_node; [exact Hn|]. apply runs_bind. unfold block_ops. apply runs_bind.
  eapply runs_get_node; [apply list_lookup_insert_eq; by eapply lookup_lt_Some|].
  apply load_ops_runs; [exact Hl|]. intros l' Hl'. apply runs_bind.
  eapply runs_set_node; [apply list_lookup_insert_eq; by eapply lookup_lt_Some|]. apply runs_ret.
  unfold with_nodes. cbn [cfg set_cfg pool set_pool]. rewrite list_insert_insert_eq. apply HQ.
  - exists (filter (fun f => phi_id f ∈ used) (phi (ir n))).
    exists (filter (fun e : op_entry => is_unused used e.2 = false) l').*1.
    split_and!; [done|apply sublist_filter| |by eapply entries_sublist|].
    + intros f. rewrite list_elem_of_filter. tauto.
    + intros o. by rewrite (entries_filter _ _ _ _ _ Hl').
  - intros id. rewrite (elem_of_foldl_union (fun e : op_entry => op_id e.2)). apply or_iff_compat_l.
    split.
    + intros ([o x] & Hin & <-). pose proof Hin as [Hu Hin']%list_elem_of_filter.
      exists o, x. assert (o ∈ (filter (fun e : op_entry => is_unused used e.2 = true) l').*1) as Ho
        by (apply list_elem_of_fmap; by exists (o, x)).
      apply (entries_filter _ _ _ _ _ Hl') in Ho as (y & ? & Hy & _). destruct Hl' as [_ Hl'].
      pose proof (Hl' _ Hin'). done.
    + intros (o & x & Ho & Hx & Hu & <-). exists (o, x). split; [|done].
      assert (o ∈ (filter (fun e : op_entry => is_unused used e.2 = true) l').*1) as H'.
      { apply (entries_filter _ _ _ _ _ Hl'). eauto. }
      apply list_elem_of_fmap in H' as ([o' y] & E & Hin). simpl in E. subst o'.
      pose proof Hin as [_ Hin']%list_elem_of_filter. destruct Hl' as [_ Hl'].
      pose proof (Hl' _ Hin') as Hy. simpl in Hy. by assert (x = y) as -> by congruence.
Qed.

(** A value of [s] that nothing uses and that may go. *)
Definition dead (s : Passes) (o : opref) : Prop := exists x, ops_of s !! o = Some x /\
  op_id x <> 0 /\ opcode_has_side_effect_and_result (op x) = false /\ ~ uses s (op_id x).

(** The ids a block defines. *)
Definition block_defines (ops : list Operation) (n : CFGNode) (id : Z) : Prop :=
  (exists f, f ∈ phi (ir n) /\ phi_id f = id) \/
  exists o x, o ∈ operations (ir n) /\ ops !! o = Some x /\ op_id x = id.

Lemma used_runs s (Q : gset Z -> Passes -> Prop) :
  ops_ok s -> (forall used, (forall id, id ∈ used <-> uses s id) -> Q used s) ->
  runs (fold_m used_by_block (forward_order (cfg s)) ∅) s Q.
Proof.
  intros Hok HQ. eapply runs_mono.
  - apply (runs_fold _ (fun pre u s' => s' = s /\ forall id, id ∈ u <->
      exists r n, r ∈ pre /\ nodes s !! r = Some n /\ block_uses (ops_of s) n id)).
    + split; [done|]. intros id. split; [set_solver|]. intros (r & ? & Hr & _). by apply elem_of_nil in Hr.
    + intros pre r post u s' E [-> Hu]. destruct (Hok r) as (n & Hn & Hl).
      { rewrite E. apply elem_of_app. right. left. }
      eapply used_by_block_runs; [exact Hn|exact Hl|]. intros u' Hu'. split; [done|]. intros id.
      rewrite Hu', Hu. split.
      * intros [(r' & n' & ? & ? & ?)|?].
        -- exists r', n'. rewrite elem_of_app. split_and!; [by left|done..].
        -- exists r, n. rewrite elem_of_app. split_and!; [right; left|done..].
      * intros (r' & n' & [Hr'|Hr'%list_elem_of_singleton]%elem_of_app & ? & ?); [left; eauto|].
        subst r'. right. by assert (n = n') as -> by congruence.
  - intros u s' [-> Hu]. by apply HQ.
Qed.

Lemma is_unused_true used x : is_unused used x = true <->
  op_id x <> 0 /\ opcode_has_side_effect_and_result (op x) = false /\ op_id x ∉ used.
Proof.
  unfold is_unused. rewrite !andb_true_iff, !negb_true_iff, bool_decide_eq_true, Z.eqb_neq. tauto.
Qed.

(** The state of the loop that removes: the blocks in [pre] are pruned, the others are not. *)
Definition prune_inv (s : Passes) (used : gset Z) (pre : list nodref) (removed : gset Z) (s' : Passes) : Prop :=
  (exists p, s' = with_nodes p s /\ length p = length (nodes s)) /\
  (forall r n, nodes s !! r = Some n -> exists n', nodes s' !! r = Some n' /\
     if decide (r ∈ pre) then pruned (ops_of s) used n n' else n' = n) /\
  forall id, id ∈ removed <-> exists r n o x, r ∈ pre /\ nodes s !! r = Some n /\ o ∈ operations (ir n) /\
    ops_of s !! o = Some x /\ is_unused used x = true /\ op_id x = id.

Lemma prune_step s used pre r post removed s' :
  ops_ok s -> NoDup (forward_order (cfg s)) -> forward_order (cfg s) = pre ++ r :: post ->
  prune_inv s used pre removed s' ->
  runs (remove_unused_from_block used r removed) s' (fun removed' s'' => prune_inv s used (pre ++ [r]) removed' s'').
Proof.
  intros Hok Hnd E ((p & -> & Hlen) & Hn & Hr).
  destruct (Hok r) as (n & Hrn & Hl); [rewrite E; apply elem_of_app; right; left|].
  assert (r ∉ pre) as Hpre.
  { rewrite E in Hnd. apply list.NoDup_app in Hnd as (_ & Hd & _). intros H. apply (Hd r H). left. }
  destruct (Hn r n Hrn) as (n' & Hn' & H). destruct (decide (r ∈ pre)); [done|]. subst n'.
  eapply remove_unused_from_block_runs; [exact Hn'|exact Hl|]. intros n' removed' Hp Hrem.
  split; [|split].
  - exists (<[r := n']> p). split; [done|]. by rewrite length_insert.
  - intros r' m Hm. destruct (Hn r' m Hm) as (m' & Hm' & H'). simpl in Hm' |- *.
    destruct (decide (r' = r)) as [->|Hne].
    + exists n'. rewrite list_lookup_insert_eq by (by eapply lookup_lt_Some). split; [done|].
      rewrite decide_True by (apply elem_of_app; right; left). by assert (m = n) as -> by congruence.
    + exists m'. rewrite list_lookup_insert_ne by done. split; [done|].
      destruct (decide (r' ∈ pre)) as [Hin|Hin].
      * rewrite decide_True; [done|]. apply elem_of_app. by left.
      * rewrite decide_False; [done|]. intros [?|?%list_elem_of_singleton]%elem_of_app; done.
  - intros id. rewrite Hrem, Hr. split.
    + intros [(r' & m & o & x & ? & H')|(o & x & H')].
      * exists r', m, o, x. split; [apply elem_of_app; by left|done].
      * exists r, n, o, x. split; [apply elem_of_app; right; left|]. tauto.
    + intros (r' & m & o & x & [Hin|Hin%list_elem_of_singleton]%elem_of_app & Hm & H').
      * left. by exists r', m, o, x.
      * subst r'. right. assert (m = n) as -> by congruence. by exists o, x.
Qed.

Lemma pruned_defines ops used n n' id :
  pruned ops used n n' -> (forall o, o ∈ operations (ir n) -> is_Some (ops !! o)) ->
  id ∈ used -> block_defines ops n id -> block_defines ops n' id.
Proof.
  intros (fs & l & -> & _ & Hf & _ & Ho) _ Hid [(f & Hin & <-)|(o & x & Hin & Hx & <-)].
  - left. exists f. split; [|done]. simpl. by apply Hf.
  - right. exists o, x. split_and!; [|done..]. simpl. apply Ho. exists x. split_and!; [done..|].
    apply not_true_iff_false. intros (_ & _ & ?)%is_unused_true. done.
Qed.

Lemma pruned_uses ops used n n' id : pruned ops used n n' -> block_uses ops n' id -> block_uses ops n id.
Proof.
  intros (fs & l & -> & Hfs & _ & Hl & _). unfold block_uses. simpl.
  intros [(f & v & Hf & H)|[(o & x & i & Ho & H)|H]].
  - left. exists f, v. split; [|done]. by eapply elem_of_sublist.
  - right. left. exists o, x, i. split; [|done]. by eapply elem_of_sublist.
  - by right; right.
Qed.

(** What [remove_unused_ssa] does to a visited block: the PHIs that are used and the
    operations that are not dead stay, in their order. *)
Definition cleaned (s : Passes) (n n' : CFGNode) : Prop :=
  exists fs l, n' = set_operations l (set_phi fs n) /\
    fs `sublist_of` phi (ir n) /\ (forall f, f ∈ fs <-> f ∈ phi (ir n) /\ uses s (phi_id f)) /\
    l `sublist_of` operations (ir n) /\ (forall o, o ∈ l <-> o ∈ operations (ir n) /\ ~ dead s o).

Lemma pruned_cleaned s used n n' : ops_ok s ->
  (forall o, o ∈ operations (ir n) -> exists x, ops_of s !! o = Some x /\ op_wf x) ->
  (forall id, id ∈ used <-> uses s id) -> pruned (ops_of s) used n n' -> cleaned s n n'.
Proof.
  intros _ Hl Hu (fs & l & -> & Hs & Hf & Hsl & Ho). exists fs, l. split_and!; [done..| |done|].
  - intros f. by rewrite Hf, Hu.
  - intros o. rewrite Ho. split.
    + intros (x & Hin & Hx & Hk). split; [done|]. intros (y & Hy & ? & ? & Hnu).
      assert (y = x) as -> by congruence. apply not_true_iff_false in Hk. apply Hk, is_unused_true.
      by rewrite Hu.
    + intros [Hin Hd]. destruct (Hl o Hin) as (x & Hx & _). exists x. split_and!; [done..|].
      apply not_true_iff_false. intros (? & ? & Hn)%is_unused_true. apply Hd. exists x.
      rewrite Hu in Hn. done.
Qed.


(** * A small sample *)

#[local] Instance zero_memory : FreshMemory := fun n => replicate n 0.

(** An operation from its opcode, id, type, flags and id arguments. *)
Definition sample_op (o : Z * Z * Z * Z * list Z) : Operation :=
  let '(code, id, type_id, f, args) := o in
  match for_each (fun a x => add_id fresh_words x a) args (Operation_new fresh_words code id type_id) with
  | Ok x => set_flags f x
  | _ => Operation_new fresh_words 0 0 0
  end.

(** Put operations into the blocks of a graph; the pool holds them in order. *)
Fixpoint sample_fill (r : nodref) (blocks : list (list (Z * Z * Z * Z * list Z))) (s : Passes) : Passes :=
  match blocks with
  | [] => s
  | l :: blocks' =>
      let first := length (ops_of s) in
      let s := with_ops (ops_of s ++ (sample_op <$> l)) s in
      sample_fill (S r) blocks'
        (with_nodes (alter (set_operations (seq first (length l))) r (nodes s)) s)
  end.

Definition sample_passes (edges : list (list nodref)) (blocks : list (list (Z * Z * Z * Z * list Z))) : Passes :=
  let s := sample_fill 0 blocks (Passes_new 0%nat (sample_pool edges) SPIRVModule_new) in
  set_cfg (run_on recompute_cfg (cfg s)) s.

(** A block that computes two values, one of which is used below. *)
Definition sample_unused : Passes :=
  sample_passes [[1%nat]; []] [[(OpCopyObject, 10, 1, 0, [3]); (OpCopyObject, 11, 1, 0, [3])];
                               [(OpStore, 0, 0, 0, [5; 11])]].

(** Well-formed operations, by computation. *)
Definition ops_ok_bool (s : Passes) : bool :=
  forallb (fun r => match nodes s !! r with
    | Some n => forallb (fun o => match ops_of s !! o with
        | Some x => (0 <=? argument_count x) && (argument_count x <=? argument_capacity x) &&
            (InlineArguments <=? argument_capacity x) && (argument_capacity x <? 2 ^ 31) &&
            (zlength (arguments x) =? argument_capacity x + get_literal_word_count (argument_capacity x))
        | None => false end) (operations (ir n))
    | None => false end) (forward_order (cfg s)).

Lemma ops_ok_by_computation s : ops_ok_bool s = true -> ops_ok s.
Proof.
  unfold ops_ok_bool. rewrite forallb_forall. intros H r Hr%list_elem_of_In. specialize (H r Hr).
  destruct (nodes s !! r) as [n|]; [|done]. exists n. split; [done|]. intros o Ho%list_elem_of_In.
  rewrite forallb_forall in H. specialize (H o Ho). destruct (ops_of s !! o) as [x|]; [|done].
  exists x. split; [done|]. rewrite !andb_true_iff, !Z.leb_le, Z.ltb_lt, Z.eqb_eq in H. unfold op_wf. tauto.
Qed.


Example remove_unused_ssa_example :
  match remove_unused_ssa sample_unused with
  | Ok (_, s') => (fun n => operations (ir n)) <$> nodes s'
  | _ => []
  end = [[1%nat]; [2%nat]; []].
Proof. vm_compute. reflexivity. Qed.
