(* ===== verification/SinkTheorems.v ===== *)
(** Sinking keeps a shader in SSA form.

    [sink_ssa_constructs] moves an operation to the front of the only block that uses its
    value.  The order of the traversal makes this work: when an operation is looked at,
    all its uses were looked at before, in the blocks they are in after their own moves. *)
From S2P Require Import Prelude.
From S2P Require Import IR.
From S2P Require Import CFGNode.
From S2P Require Import CFGTraversal.
From S2P Require Import CFGGraph.
From S2P Require Import CFGDominators.
From S2P Require Import CFGForward.
From S2P Require Import CFGTheorems.
From S2P Require Import SpvBuilder.
From S2P Require Import SPIRVModule.
From S2P Require Import CFGQueries.
From S2P Require Import CFGLoops.
From S2P Require Import Passes.
From S2P Require Import SSAPasses.
From S2P Require Import SSATheorems.
Local Open Scope Z_scope.

(** * SSA form *)

Definition idf (s : Passes) (o : opref) : Z := match ops_of s !! o with Some x => op_id x | None => 0 end.
Definition argf (s : Passes) (o : opref) : list Z :=
  match ops_of s !! o with Some x => ids_of x | None => [] end.
(** The operations of a block. *)
Definition ops_at (s : Passes) : nodref -> list opref := get (fun n => operations (ir n)) [] (nodes s).
(** The id the terminator of a block consumes. *)
Definition term_uses (n : CFGNode) (id : Z) : Prop :=
  match term_type (terminator (ir n)) with
  | TCondition | TSwitch => conditional_id (terminator (ir n)) = id
  | TReturn => return_value (terminator (ir n)) = id
  | _ => False
  end.

(** The operations are placed as [W] says, and every value is made once, before its uses:
    earlier in the block or in a block that dominates. *)
Record placed (s : Passes) (W : nodref -> list opref) : Prop := {
  pl_ids : NoDup (filter (fun id => id <> 0) (idf s <$> (forward_order (cfg s) ≫= W)));
  pl_args r pre u post d r' : r ∈ forward_order (cfg s) -> W r = pre ++ u :: post ->
    idf s d ∈ argf s u -> idf s d <> 0 -> r' ∈ forward_order (cfg s) -> d ∈ W r' ->
    if decide (r' = r) then d ∈ pre else on_every_path (nodes s) (entry_block (cfg s)) r' r;
  pl_term r n d r' : r ∈ forward_order (cfg s) -> nodes s !! r = Some n -> term_uses n (idf s d) ->
    idf s d <> 0 -> r' ∈ forward_order (cfg s) -> d ∈ W r' ->
    on_every_path (nodes s) (entry_block (cfg s)) r' r;
  pl_phi r n f v q d r' : r ∈ forward_order (cfg s) -> nodes s !! r = Some n -> f ∈ phi (ir n) ->
    v ∈ phi_incoming f -> incoming_block v = Some q -> incoming_id v = idf s d -> idf s d <> 0 ->
    r' ∈ forward_order (cfg s) -> d ∈ W r' -> on_every_path (nodes s) (entry_block (cfg s)) r' q;
}.

Definition ssa (s : Passes) : Prop := placed s (ops_at s).

(** * Lists *)

Lemma nodup_ids_unique (f : opref -> Z) l A d B d' :
  NoDup (filter (fun id => id <> 0) (f <$> l)) -> l = A ++ d :: B -> f d <> 0 -> d' ∈ A ++ B ->
  f d' <> f d.
Proof.
  intros Hnd -> Hd Hin E. rewrite fmap_app, fmap_cons, list.filter_app, list.filter_cons_True in Hnd by done.
  assert (f d ∈ filter (fun id => id <> 0) (f <$> A) \/ f d ∈ filter (fun id => id <> 0) (f <$> B)) as H.
  { rewrite <- E. rewrite !list_elem_of_filter, !list_elem_of_fmap.
    apply elem_of_app in Hin as [?|?]; [left|right]; (split; [congruence|eauto]). }
  apply list.NoDup_app in Hnd as (_ & Hdis & Hnd). destruct H as [H|H].
  - apply (Hdis _ H). left.
  - apply list.NoDup_cons in Hnd as [? _]. done.
Qed.

Lemma bind_split {X Y} (W : X -> list Y) L y x A B :
  x ∈ L -> W x = A ++ y :: B ->
  exists C E, L ≫= W = C ++ y :: E /\ (forall z, z ∈ A \/ z ∈ B -> z ∈ C ++ E) /\
    forall x' z, x' ∈ L -> x' <> x -> z ∈ W x' -> z ∈ C ++ E.
Proof.
  intros Hx HW. apply list_elem_of_split in Hx as (l1 & l2 & ->).
  exists ((l1 ≫= W) ++ A), (B ++ (l2 ≫= W)). rewrite bind_app, bind_cons, HW. split_and!.
  - by rewrite <- !app_assoc.
  - intros z. rewrite !elem_of_app. tauto.
  - intros x' z [H|[->|H]%elem_of_cons]%elem_of_app Hne Hz; [|done|]; rewrite !elem_of_app.
    + left. left. apply list_elem_of_bind. eauto.
    + right. right. apply list_elem_of_bind. eauto.
Qed.

Lemma elem_of_mid {X} (l A B : list X) x : l = A ++ x :: B -> x ∈ l.
Proof. intros ->. apply elem_of_app. right. left. Qed.

(** A split of a list from which one element was taken. *)
Lemma split_erase {X} (A B pre post : list X) o u :
  A ++ B = pre ++ u :: post ->
  exists pre' post', A ++ o :: B = pre' ++ u :: post' /\ forall d, d ∈ pre' -> d <> o -> d ∈ pre.
Proof.
  intros E. apply app_eq_app in E as (l & [[-> E]|[-> E]]).
  - destruct l as [|v l].
    + simpl in E. subst B. exists (pre ++ [o]), post. rewrite <- !app_assoc. split; [done|].
      intros d [?|?%list_elem_of_singleton]%elem_of_app; done.
    + injection E as <- ->. exists pre, (l ++ o :: B). rewrite <- app_assoc. done.
  - subst B. exists (A ++ o :: l), post. rewrite <- app_assoc. split; [done|].
    intros d. rewrite !elem_of_app, elem_of_cons. tauto.
Qed.

Lemma bind_ext_in {X Y} (f g : X -> list Y) l : (forall x, x ∈ l -> f x = g x) -> l ≫= f = l ≫= g.
Proof.
  induction l as [|x l IH]; intros H; [done|]. rewrite !bind_cons, H, IH; [done| |left].
  intros y Hy. apply H. by right.
Qed.

(** * Moving one operation *)

Section placement.
Context (s : Passes).
#[local] Abbreviation L := (forward_order (cfg s)).
#[local] Abbreviation D := (on_every_path (nodes s) (entry_block (cfg s))).
Context `{G : !forward_graph (nodes s) (entry_block (cfg s)) (forward_order (cfg s))}.

Lemma path_prefix p e l c b : path_from p e l c -> b ∈ l ->
  exists l', path_from p e l' b /\ forall x, x ∈ l' -> x ∈ l.
Proof.
  induction 1 as [|l x y Hl IH Hy].
  - intros ->%list_elem_of_singleton. exists [e]. split; [constructor|done].
  - intros [->|Hb]%elem_of_cons.
    + exists (y :: l). split; [by econstructor|done].
    + destruct (IH Hb) as (l' & ? & Hsub). exists l'. split; [done|]. intros z Hz. right. by apply Hsub.
Qed.

Lemma every_path_trans a b c : D a b -> D b c -> D a c.
Proof using Type.
  intros Hab Hbc l Hl. destruct (path_prefix _ _ _ _ b Hl (Hbc l Hl)) as (l' & Hl' & Hsub). auto.
Qed.

Lemma every_path_refl a : D a a.
Proof using Type. intros l. apply path_from_head. Qed.

Lemma every_path_antisym a b : a ∈ L -> b ∈ L -> D a b -> D b a -> a = b.
Proof using G.
  intros Ha Hb Hab Hba.
  destruct (on_every_path_order (nodes s) (entry_block (cfg s)) L a b Hb Hab) as (_ & [?|?]); [done|].
  destruct (on_every_path_order (nodes s) (entry_block (cfg s)) L b a Ha Hba) as (_ & [?|?]); [done|]. lia.
Qed.

(** [o] moves from between [A] and [B] to the front of [b]. *)
Definition move_to (W : nodref -> list opref) (r b : nodref) (A : list opref) (o : opref) (B : list opref)
    (x : nodref) : list opref :=
  if decide (x = b) then o :: W b else if decide (x = r) then A ++ B else W x.

Lemma elem_of_move_to W r b A o B x d : r <> b -> W r = A ++ o :: B ->
  d ∈ move_to W r b A o B x -> (d = o /\ x = b) \/ d ∈ W x.
Proof.
  intros Hne HW. unfold move_to. case_decide as E; [subst|case_decide as E2; [subst|]].
  - intros [->|?]%elem_of_cons; [by left|by right].
  - rewrite HW, !elem_of_app, elem_of_cons. tauto.
  - by right.
Qed.

Lemma move_to_permutation W r b A o B : r ∈ L -> b ∈ L -> r <> b -> W r = A ++ o :: B ->
  L ≫= move_to W r b A o B ≡ₚ L ≫= W.
Proof using G.
  intros Hr Hb Hne HW. pose proof (fg_nodup (forward_graph := G)) as Hnd.
  apply list_elem_of_split in Hr as (l1 & l2 & E). assert (b ∈ l1 ++ l2) as Hb'.
  { rewrite E in Hb. apply elem_of_app in Hb as [?|[?|?]%elem_of_cons]; [|done|];
      apply elem_of_app; auto. }
  assert (L ≡ₚ r :: (l1 ++ l2)) as HL by (rewrite E; by rewrite Permutation_middle).
  apply list_elem_of_split in Hb' as (k1 & k2 & E2).
  assert (L ≡ₚ r :: b :: (k1 ++ k2)) as HL2.
  { rewrite HL, E2. apply Permutation_skip. by rewrite Permutation_middle. }
  assert (NoDup (r :: b :: (k1 ++ k2))) as Hnd2 by by rewrite <- HL2.
  rewrite HL2, !bind_cons. unfold move_to at 1 2. rewrite decide_False by done.
  rewrite !(decide_True (P := r = r)), (decide_True (P := b = b)) by done. rewrite HW.
  assert ((k1 ++ k2) ≫= move_to W r b A o B = (k1 ++ k2) ≫= W) as ->.
  { apply list.NoDup_cons in Hnd2 as [H1 H2]. apply list.NoDup_cons in H2 as [H2 _].
    rewrite not_elem_of_cons in H1. destruct H1 as [_ H1]. clear -H1 H2.
    induction (k1 ++ k2) as [|x l IH]; [done|]. rewrite not_elem_of_cons in H1, H2.
    rewrite !bind_cons, IH by tauto. unfold move_to.
    rewrite !decide_False by (intros ->; tauto). done. }
  rewrite <- !app_assoc. apply Permutation_app_head. cbn [app]. symmetry. apply Permutation_middle.
Qed.

(** The definition of a value is found in one place. *)
Lemma placed_unique W r A o B r' d : placed s W -> r ∈ L -> W r = A ++ o :: B -> idf s o <> 0 ->
  r' ∈ L -> d ∈ W r' -> idf s d = idf s o -> d = o /\ r' = r /\ (o ∉ A) /\ (o ∉ B).
Proof.
  intros P Hr HW Ho Hr' Hd E. destruct (bind_split W L o r A B Hr HW) as (C & F & EL & HAB & Hother).
  assert (forall z, z ∈ C ++ F -> idf s z <> idf s o) as Hu
    by (intros z; by eapply nodup_ids_unique; [apply (pl_ids _ _ P)|exact EL|]).
  assert (r' = r) as ->.
  { destruct (decide (r' = r)) as [|Hne]; [done|]. by destruct (Hu d (Hother r' d Hr' Hne Hd)). }
  rewrite HW in Hd. split_and!; [|done|intros H; by destruct (Hu o (HAB o (or_introl H)))
    |intros H; by destruct (Hu o (HAB o (or_intror H)))].
  apply elem_of_app in Hd as [Hd|[->|Hd]%elem_of_cons]; [|done|].
  - by destruct (Hu d (HAB d (or_introl Hd))).
  - by destruct (Hu d (HAB d (or_intror Hd))).
Qed.

(** Moving an operation to the only block that uses its value keeps SSA form. *)
Lemma placed_move W r b A o B : placed s W -> r ∈ L -> b ∈ L -> r <> b -> W r = A ++ o :: B ->
  idf s o <> 0 -> D r b ->
  (forall x u, x ∈ L -> u ∈ W x -> idf s o ∈ argf s u -> x = b) ->
  (forall x n, x ∈ L -> nodes s !! x = Some n -> term_uses n (idf s o) -> x = b) ->
  (forall x n f v, x ∈ L -> nodes s !! x = Some n -> f ∈ phi (ir n) -> v ∈ phi_incoming f ->
     incoming_id v <> idf s o) ->
  placed s (move_to W r b A o B).
Proof using G.
  intros P Hr Hb Hne HW Ho HD Hargs Hterm Hphi.
  assert (forall x d, x ∈ L -> d ∈ move_to W r b A o B x -> idf s d <> 0 ->
    (d = o /\ x = b) \/ (d ∈ W x /\ idf s d <> idf s o)) as Hmem.
  { intros x d Hx Hd Hd0. destruct (decide (d = o)) as [->|Hdo].
    - left. split; [done|]. unfold move_to in Hd. case_decide; [done|]. case_decide as E2.
      + destruct (placed_unique W r A o B r o P) as (_ & _ & H1 & H2); [done..|by eapply elem_of_mid|done|].
        apply elem_of_app in Hd. tauto.
      + destruct (placed_unique W r A o B x o P) as (_ & ? & _); done.
    - right. apply elem_of_move_to in Hd as [[? _]|Hd]; [done| |done|done]. split; [done|].
      intros E. destruct (placed_unique W r A o B x d P) as (? & _); done. }
  split.
  - rewrite (move_to_permutation W r b A o B) by done. apply P.
  - intros x pre u post d x' Hx E Hd Hd0 Hx' Hd'.
    destruct (Hmem x' d Hx' Hd' Hd0) as [[-> ->]|[Hd2 Hdo]].
    + (* a use of the operation that moved *)
      assert (u ∈ move_to W r b A o B x) as Hu by by eapply elem_of_mid.
      apply elem_of_move_to in Hu as [[-> ->]|Hu]; [| |done|done].
      * (* it does not use itself *)
        pose proof (pl_args _ _ P r A o B o r Hr HW Hd Ho Hr (elem_of_mid _ _ _ _ HW)) as H.
        rewrite decide_True in H by done.
        destruct (placed_unique W r A o B r o P) as (_ & _ & H1 & _); [done..|by eapply elem_of_mid|done|done].
      * assert (x = b) as -> by by eapply Hargs. rewrite decide_True by done.
        unfold move_to in E. rewrite decide_True in E by done. destruct pre as [|v pre].
        -- simpl in E. injection E as <- _.
           pose proof (pl_args _ _ P r A o B o r Hr HW Hd Ho Hr (elem_of_mid _ _ _ _ HW)) as H.
           rewrite decide_True in H by done.
           destruct (placed_unique W r A o B r o P) as (_ & _ & H1 & _); [done..|by eapply elem_of_mid|done|done].
        -- simpl in E. injection E as <- _. left.
    + unfold move_to in E. case_decide as Exb; [subst x|case_decide as Exr; [subst x|]].
      * destruct pre as [|v pre]; simpl in E.
        -- (* the operands of the operation that moved *)
           injection E as <- <-.
           pose proof (pl_args _ _ P r A o B d x' Hr HW Hd Hd0 Hx' Hd2) as H. case_decide as Er.
           ++ subst x'. by rewrite decide_False.
           ++ rewrite decide_False; [by eapply every_path_trans|]. intros ->.
              by apply Hne, every_path_antisym.
        -- injection E as <- E.
           pose proof (pl_args _ _ P b pre u post d x' Hb E Hd Hd0 Hx' Hd2) as H.
           case_decide; [by right|done].
      * destruct (split_erase A B pre post o u E) as (pre' & post' & E' & Hsub).
        pose proof (pl_args _ _ P r pre' u post' d x' Hr ltac:(by rewrite HW) Hd Hd0 Hx' Hd2) as H.
        case_decide; [|done]. apply Hsub; [done|]. intros ->. done.
      * by apply (pl_args _ _ P x pre u post d x').
  - intros x n d x' Hx Hn Ht Hd0 Hx' Hd'. destruct (Hmem x' d Hx' Hd' Hd0) as [[-> ->]|[Hd2 _]].
    + rewrite (Hterm x n Hx Hn Ht). apply every_path_refl.
    + by apply (pl_term _ _ P x n d x').
  - intros x n f v q d x' Hx Hn Hf Hv Hq Ev Hd0 Hx' Hd'. destruct (Hmem x' d Hx' Hd' Hd0) as [[-> ->]|[Hd2 _]].
    + by destruct (Hphi x n f v Hx Hn Hf Hv).
    + by apply (pl_phi _ _ P x n f v q d x').
Qed.
End placement.

(** * The state during the pass *)

Definition flagged (s : Passes) (o : opref) : bool :=
  match ops_of s !! o with Some x => has_flag x (Z.lor SinkableBit DependencySinkableBit) | None => false end.

(** Some flags were cleared or set, nothing else changed in the pool of operations. *)
Definition same_ops (l0 l : list Operation) : Prop := set_flags 0 <$> l = set_flags 0 <$> l0.

#[export] Instance same_ops_po : PreOrder same_ops.
Proof. split; [done|]. intros a b c ??. unfold same_ops in *. congruence. Qed.

Lemma same_ops_lookup l0 l o x0 : same_ops l0 l -> l0 !! o = Some x0 ->
  exists f, l !! o = Some (set_flags f x0).
Proof.
  intros H Hx. assert ((set_flags 0 <$> l) !! o = Some (set_flags 0 x0)) as E
    by by rewrite H, list_lookup_fmap, Hx.
  rewrite list_lookup_fmap in E. destruct (l !! o) as [x|]; [|done]. simpl in E.
  exists (flags x). f_equal. destruct x, x0. unfold set_flags in *. simpl in *. congruence.
Qed.

Lemma same_ops_insert l o x f : l !! o = Some x -> same_ops l (<[o := set_flags f x]> l).
Proof.
  intros Hx. unfold same_ops. rewrite list_fmap_insert. apply list_insert_id.
  rewrite list_lookup_fmap, Hx. done.
Qed.

Definition sinkable (s : Passes) (o : opref) : bool :=
  match ops_of s !! o with Some x => has_flag x SinkableBit | None => false end.

(** Operations the pass may move: the front end marked them, or they only compute a value. *)
Definition movable (s : Passes) (o : opref) : bool :=
  match ops_of s !! o with
  | Some x => negb (op_id x =? 0) && (has_flag x SinkableBit ||
      negb (opcode_is_control_dependent (op x)) && negb (opcode_has_side_effect_and_result (op x)))
  | None => false
  end.

Lemma has_flag_ldiff x f g : has_flag (clear_flag f x) g = true -> has_flag x g = true.
Proof.
  unfold has_flag, clear_flag. cbn [flags set_flags]. rewrite !negb_true_iff, !Z.eqb_neq.
  intros H E. apply H. apply Z.bits_inj'. intros n Hn.
  assert (Z.testbit (Z.land (flags x) g) n = false) as Hb by (rewrite E; apply Z.bits_0).
  rewrite Z.land_spec in Hb. rewrite Z.land_spec, Z.ldiff_spec, Z.bits_0.
  destruct (Z.testbit (flags x) n), (Z.testbit g n), (Z.testbit f n); done.
Qed.

Lemma has_flag_clear x f : has_flag (clear_flag f x) f = false.
Proof.
  unfold has_flag, clear_flag. cbn [flags set_flags]. rewrite negb_false_iff, Z.eqb_eq.
  apply Z.bits_inj'. intros n Hn. rewrite Z.land_spec, Z.ldiff_spec, Z.bits_0.
  destruct (Z.testbit (flags x) n), (Z.testbit f n); done.
Qed.

(** [s] is [s0] with the operations placed as [W] says and other flags. *)
Record agree (s0 : Passes) (W : nodref -> list opref) (s : Passes) : Prop := {
  ag_shape : exists p l, s = with_ops l (with_nodes p s0);
  ag_nodes r : nodes s !! r = set_operations (W r) <$> nodes s0 !! r;
  ag_ops : same_ops (ops_of s0) (ops_of s);
  ag_sinkable o : sinkable s o = true -> sinkable s0 o = true;
}.

Lemma agree_refl s : agree s (ops_at s) s.
Proof.
  split; [|intros r|done|done].
  - exists (nodes s), (ops_of s). by destruct s as [[] []].
  - unfold ops_at, get. destruct (nodes s !! r) as [n|] eqn:E; [|done].
    simpl. f_equal. unfold set_operations. by destruct n as [? ? ? [] ].
Qed.

Lemma agree_ext s0 W W' s : (forall x, W x = W' x) -> agree s0 W s -> agree s0 W' s.
Proof. intros H [A N O B]. split; [done| |done|done]. intros r. by rewrite N, H. Qed.

(** The operations of one block change. *)
Lemma agree_set s0 W s b n l : agree s0 W s -> nodes s !! b = Some n ->
  agree s0 (fun x => if decide (x = b) then l else W x)
    (with_nodes (<[b := set_operations l n]> (nodes s)) s).
Proof.
  intros [(p & q & E) N O B] Hn. split; [|intros r|done|done].
  - eexists _, q. rewrite E. reflexivity.
  - cbn [with_nodes cfg set_cfg pool set_pool]. case_decide as Er; [subst r|by rewrite list_lookup_insert_ne].
    rewrite list_lookup_insert_eq by (by eapply lookup_lt_Some).
    rewrite N in Hn. destruct (nodes s0 !! b); [|done]. simpl in *. by injection Hn as <-.
Qed.

Lemma agree_get {A} s0 W s (f : CFGNode -> A) d r : agree s0 W s ->
  (forall l n, f (set_operations l n) = f n) -> get f d (nodes s) r = get f d (nodes s0) r.
Proof. intros H Hf. unfold get. rewrite (ag_nodes _ _ _ H). destruct (nodes s0 !! r); simpl; auto. Qed.

Lemma agree_cfg s0 W s : agree s0 W s ->
  forward_order (cfg s) = forward_order (cfg s0) /\ entry_block (cfg s) = entry_block (cfg s0).
Proof. by intros [(p & l & ->) _ _]. Qed.

Lemma agree_length s0 W s : agree s0 W s -> length (nodes s) = length (nodes s0).
Proof.
  intros H. destruct (lt_eq_lt_dec (length (nodes s)) (length (nodes s0))) as [[Hlt|E]|Hlt]; [|done|].
  - apply lookup_lt_is_Some in Hlt as Hs. pose proof (ag_nodes _ _ _ H (length (nodes s))) as E.
    rewrite (lookup_ge_None_2 (nodes s)) in E by done. destruct Hs as [n Hn]. by rewrite Hn in E.
  - pose proof (ag_nodes _ _ _ H (length (nodes s0))) as E.
    rewrite (lookup_ge_None_2 (nodes s0)) in E by done. simpl in E.
    apply lookup_ge_None_1 in E. lia.
Qed.

Lemma agree_op s0 W s o x0 : agree s0 W s -> ops_of s0 !! o = Some x0 ->
  exists f, ops_of s !! o = Some (set_flags f x0).
Proof. intros H. apply same_ops_lookup, H. Qed.

Lemma agree_node s0 W s r n : agree s0 W s -> nodes s0 !! r = Some n ->
  nodes s !! r = Some (set_operations (W r) n).
Proof. intros H Hn. by rewrite (ag_nodes _ _ _ H), Hn. Qed.

Lemma agree_flags s0 W s o x f : agree s0 W s -> ops_of s !! o = Some x ->
  (has_flag (set_flags f x) SinkableBit = true -> has_flag x SinkableBit = true) ->
  agree s0 W (with_ops (<[o := set_flags f x]> (ops_of s)) s).
Proof.
  intros [(p & l & E) Hn Ho Hs] Hx Hf. split; [|done| |].
  - eexists p, _. subst s. reflexivity.
  - simpl. etrans; [exact Ho|]. by apply same_ops_insert.
  - intros o' H. apply Hs. revert H. unfold sinkable, with_ops.
    cbn [module set_module operation_pool set_operation_pool].
    destruct (decide (o = o')) as [->|Hne]; [|by rewrite list_lookup_insert_ne].
    rewrite list_lookup_insert_eq by (by eapply lookup_lt_Some). by rewrite Hx.
Qed.

Lemma agree_ids s0 W s o : agree s0 W s -> idf s o = idf s0 o /\ argf s o = argf s0 o.
Proof.
  intros H. unfold idf, argf. destruct (ops_of s0 !! o) as [x0|] eqn:E.
  - destruct (agree_op _ _ _ _ _ H E) as [f ->]. done.
  - assert (ops_of s !! o = None) as ->; [|done].
    assert ((set_flags 0 <$> ops_of s) !! o = None) as E2 by by rewrite (ag_ops _ _ _ H), list_lookup_fmap, E.
    rewrite list_lookup_fmap in E2. by destruct (ops_of s !! o).
Qed.

(** Walks along a member that is the same in two pools. *)
Lemma walk_to_ext p p' f fuel a x :
  (forall r, f <$> p !! r = f <$> p' !! r) -> walk_to p f fuel a x = walk_to p' f fuel a x.
Proof.
  intros H. revert x; induction fuel as [|fuel IH]; intros x; simpl; [done|].
  case_decide; [done|]. unfold node. specialize (H x).
  destruct (p !! x), (p' !! x); simpl in H; try done. simpl. injection H as ->.
  destruct (f _); [|done]. case_decide; [done|]. apply IH.
Qed.

Lemma agree_post_dominates s0 W s a b : agree s0 W s ->
  post_dominates (nodes s) a b = post_dominates (nodes s0) a b.
Proof.
  intros H. unfold post_dominates. rewrite (agree_length _ _ _ H). apply walk_to_ext. intros r.
  rewrite (ag_nodes _ _ _ H). by destruct (nodes s0 !! r).
Qed.

(** * The pass *)

Section sinking.
Context (s0 : Passes).
#[local] Abbreviation L := (forward_order (cfg s0)).
#[local] Abbreviation e := (entry_block (cfg s0)).
#[local] Abbreviation D := (on_every_path (nodes s0) e).
Context (G : forward_graph (nodes s0) e L).
Context (T : idom_tree (nodes s0) e L (fun x => x ∈ L)).
Context (Hpost : forall a b, a ∈ L -> b ∈ L -> exists v, post_dominates (nodes s0) a b = Ok v).
Context (Hops : ops_ok s0).

(** Every operation of a visited block exists. *)
Definition ops_exist (W : nodref -> list opref) : Prop :=
  forall r o, r ∈ L -> o ∈ W r -> exists x, ops_of s0 !! o = Some x /\ op_wf x.

Lemma ops_exist_start : ops_exist (ops_at s0).
Proof using Hops.
  intros r o Hr Ho. destruct (Hops r Hr) as (n & Hn & Hl). apply Hl. unfold ops_at, get in Ho. by rewrite Hn in Ho.
Qed.

Lemma ops_exist_perm W W' : L ≫= W' ≡ₚ L ≫= W -> ops_exist W -> ops_exist W'.
Proof using Type.
  intros HP H r o Hr Ho. assert (o ∈ L ≫= W') as Hin by (apply list_elem_of_bind; eauto).
  rewrite HP in Hin. apply list_elem_of_bind in Hin as (r' & Ho' & Hr'). by eapply H.
Qed.

Lemma visited_node r : r ∈ L -> exists n, nodes s0 !! r = Some n.
Proof using G. intros Hr. by destruct (fg_range r Hr) as [n ?]; exists n. Qed.

Lemma reorderable_walk_total W s fuel r x : agree s0 W s -> ops_exist W -> r ∈ L -> x ∈ L -> D r x ->
  (Z.to_nat (zlength L - order_of (nodes s0) x) <= fuel)%nat ->
  exists v, reorderable_walk (cfg s) (ops_of s) fuel r x = Ok v.
Proof using G.
  intros HA HE Hr. revert x. induction fuel as [|fuel IH]; intros x Hx HD Hf.
  { pose proof (order_bounds (nodes s0) e L x Hx). lia. }
  simpl. case_decide as Erx; [by eexists|]. destruct (visited_node x Hx) as [n Hn].
  pose proof (agree_node _ _ _ _ _ HA Hn) as Hn'. unfold node. rewrite Hn'. cbn [some_or_ub mbind res_bind].
  destruct (_ || _) eqn:Eg; [by eexists|]. apply orb_false_iff in Eg as [Eg _]. simpl in Eg.
  assert (exists v, any_of (fun o => o ← some_or_ub (ops_of s !! o); Ok (is_barrier o)) (W x) = Ok v) as [v Hv].
  { assert (forall o, o ∈ W x -> exists y, ops_of s !! o = Some y) as Hw.
    { intros o Ho. destruct (HE x o Hx Ho) as (y & Hy & _). destruct (agree_op _ _ _ _ _ HA Hy) as [f ->]. by eexists. }
    clear -Hw. induction (W x) as [|o l IHl]; [by eexists|]. cbn [any_of].
    destruct (Hw o ltac:(left)) as [y ->]. cbn [some_or_ub mbind res_bind].
    destruct (is_barrier y); [by eexists|]. apply IHl. intros o' Ho'. apply Hw. by right. }
  cbn [operations ir set_operations set_ir]. rewrite Hv. cbn [mbind res_bind]. destruct v; [by eexists|].
  assert (pred_of (nodes s0) x = pred n) as Hpn by by rewrite (get_at _ _ _ _ _ Hn).
  assert (x <> e) as Hxe.
  { intros ->. apply (on_every_path_entry (nodes s0) e L) in HD. done. }
  destruct (inner_pred (nodes s0) e L x Hx Hxe) as (q & Hq & HqL & _ & Ho).
  apply (on_every_path_pred (nodes s0) e L) in HD as [?|HD]; [done| |done|done].
  rewrite Hpn in Hq, HD. cbn [pred set_operations set_ir].
  destruct (pred n) as [|q' l] eqn:El; [by apply elem_of_nil in Hq|].
  assert (l = []) as ->.
  { apply Z.ltb_ge in Eg. unfold zlength in Eg. destruct l; [done|simpl in Eg; lia]. }
  apply list_elem_of_singleton in Hq as ->. cbn [head some_or_ub mbind res_bind].
  apply IH; [done|apply HD; left|]. pose proof (order_bounds (nodes s0) e L q' HqL).
  pose proof (order_bounds (nodes s0) e L x Hx). lia.
Qed.

Lemma path_is_reorderable_total W s r b : agree s0 W s -> ops_exist W -> r ∈ L -> b ∈ L -> r <> b -> D r b ->
  exists v, path_is_reorderable (cfg s) (ops_of s) r b = Ok v.
Proof using G T Hpost.
  intros HA HE Hr Hb Hne HD. unfold path_is_reorderable. rewrite (agree_post_dominates _ _ _ _ _ HA).
  destruct (Hpost b r Hb Hr) as [v ->]. cbn [mbind res_bind]. destruct v; [by eexists|].
  destruct (visited_node b Hb) as [n Hn]. pose proof (agree_node _ _ _ _ _ HA Hn) as Hn'.
  unfold node. rewrite Hn'. cbn [some_or_ub mbind res_bind].
  destruct (bool_decide _); [by eexists|]. destruct (1 <? _); [by eexists|].
  destruct (T b Hb) as (_ & d & Hd & Hcase & Hanc). rewrite (get_at _ _ _ _ _ Hn) in Hd.
  cbn [immediate_dominator set_operations set_ir]. rewrite Hd. cbn [some_or_ub mbind res_bind].
  apply Hanc in HD. inversion HD as [|b' d' Hd' Hdb Hrd]; subst; [done|].
  rewrite (get_at _ _ _ _ _ Hn), Hd in Hd'. injection Hd' as <-.
  destruct Hcase as [[-> ->]|(_ & HdL & _)]; [done|].
  eapply reorderable_walk_total; [done..| |].
  - destruct (T d HdL) as (_ & ? & _ & _ & Hd2). by apply Hd2.
  - rewrite (agree_length _ _ _ HA). pose proof (order_bounds (nodes s0) e L d HdL).
    pose proof (zlength_L (nodes s0) e L) as Hz. unfold zlength in *. lia.
Qed.

(** An entry of [sinks] is an operation of the function that may move. *)
Definition key_ok (id : Z) (rw : RewriteState) : Prop :=
  idf s0 (rw_op rw) = id /\ (exists r, r ∈ L /\ rw_op rw ∈ ops_at s0 r) /\
  (id <> 0 -> movable s0 (rw_op rw) = true).

(** What holds between two operations.  [seen id b]: a use of [id] in [b] was looked at. *)
Record core (seen : Z -> nodref -> Prop) (W : nodref -> list opref) (sinks : gmap Z RewriteState)
    (s : Passes) : Prop := {
  co_agree : agree s0 W s;
  co_placed : placed s0 W;
  co_perm : L ≫= W ≡ₚ L ≫= ops_at s0;
  co_fixed r : r ∈ L ->
    filter (fun o => movable s0 o = false) (W r) = filter (fun o => movable s0 o = false) (ops_at s0 r);
  co_keys id rw : sinks !! id = Some rw -> key_ok id rw;
  co_phi r n f v rw : r ∈ L -> nodes s0 !! r = Some n -> f ∈ phi (ir n) -> v ∈ phi_incoming f ->
    sinks !! incoming_id v = Some rw -> flagged s (rw_op rw) = false;
  co_seen id b rw : seen id b -> sinks !! id = Some rw ->
    flagged s (rw_op rw) = false \/ consumed_block rw = Some b;
  co_consumed id b rw : sinks !! id = Some rw -> consumed_block rw = Some b -> seen id b;
  co_dom id b : seen id b -> b ∈ L /\
    forall d r, r ∈ L -> d ∈ W r -> idf s0 d = id -> id <> 0 -> D r b;
}.

Lemma core_exist seen W sinks s : core seen W sinks s -> ops_exist W.
Proof using Hops. intros C. eapply ops_exist_perm; [apply C|]. apply ops_exist_start. Qed.

(** The operation a value is made by, found through the map. *)
Lemma core_key_op seen W sinks s id rw : core seen W sinks s -> sinks !! id = Some rw ->
  exists x, ops_of s !! rw_op rw = Some x.
Proof using Hops.
  intros C H. destruct (co_keys _ _ _ _ C id rw H) as (_ & (r & Hr & Ho) & _).
  destruct (ops_exist_start r _ Hr Ho) as (x & Hx & _).
  destruct (agree_op _ _ _ _ _ (co_agree _ _ _ _ C) Hx) as [f Hf]. by eexists.
Qed.

Lemma flagged_clear s o x f o' : ops_of s !! o = Some x ->
  flagged (with_ops (<[o := clear_flag f x]> (ops_of s)) s) o' = true -> flagged s o' = true.
Proof.
  intros Hx. unfold flagged, with_ops. cbn [module set_module operation_pool set_operation_pool].
  destruct (decide (o = o')) as [->|Hne].
  - rewrite list_lookup_insert_eq by (by eapply lookup_lt_Some). rewrite Hx. apply has_flag_ldiff.
  - by rewrite list_lookup_insert_ne.
Qed.

(** Clearing flags of one operation. *)
Lemma core_clear seen W sinks s o x f : core seen W sinks s -> ops_of s !! o = Some x ->
  core seen W sinks (with_ops (<[o := clear_flag f x]> (ops_of s)) s).
Proof using Type.
  intros C Hx. assert (forall o', flagged s o' = false ->
    flagged (with_ops (<[o := clear_flag f x]> (ops_of s)) s) o' = false) as Hf.
  { intros o' H. apply not_true_iff_false. intros H'%flagged_clear; [|done]. congruence. }
  destruct C as [A P M Fx K F S C2 Dm]. split; [by apply agree_flags; [..|apply has_flag_ldiff]|done..| | |done|done].
  - intros r n g v rw ? ? ? ? ?. eapply Hf, F; eauto.
  - intros id b rw Hs Hr. destruct (S id b rw Hs Hr); auto.
Qed.

Lemma core_weaken seen seen' W sinks s : (forall i x, seen i x <-> seen' i x) ->
  core seen W sinks s -> core seen' W sinks s.
Proof using Type.
  intros H [A P M Fx K F S C2 Dm]. split; try done.
  - intros i x rw Hs. apply H in Hs. by eapply S.
  - intros i x rw Hi Hx. by eapply H, C2.
  - intros i x Hs. apply H in Hs. by apply Dm.
Qed.

(** A use of [id] in [b]. *)
Lemma consume_id_runs seen W sinks s id b :
  core seen W sinks s -> b ∈ L ->
  (forall d r, r ∈ L -> d ∈ W r -> idf s0 d = id -> id <> 0 -> D r b) ->
  runs (consume_id id b sinks) s (fun sinks' s' =>
    core (fun i x => seen i x \/ (i = id /\ x = b)) W sinks' s').
Proof using Hops.
  intros C Hb Hdom.
  assert (forall sinks' s', core seen W sinks' s' ->
    (forall rw, sinks' !! id = Some rw -> flagged s' (rw_op rw) = false \/ consumed_block rw = Some b) ->
    core (fun i x => seen i x \/ (i = id /\ x = b)) W sinks' s') as Hadd.
  { intros sinks' s' [A P M Fx K F S C2 Dm] Hid. split; try done.
    - intros i x rw [?|[-> ->]] Hi; eauto.
    - intros i x rw Hi Hx. left. eauto.
    - intros i x [Hs|[-> ->]]; [by apply Dm|]. done. }
  unfold consume_id. destruct (sinks !! id) as [rw|] eqn:Hid.
  2:{ apply runs_ret, Hadd; [done|]. intros rw Hr. congruence. }
  destruct (consumed_block rw) as [b'|] eqn:Hc.
  - case_decide as E.
    + subst b'. apply runs_bind, runs_ret, runs_ret, Hadd; [done|]. intros rw' Hr.
      right. congruence.
    + destruct (core_key_op _ _ _ _ _ _ C Hid) as [x Hx].
      assert (runs (unsinkable (rw_op rw)) s (fun _ s' => s' =
        with_ops (<[rw_op rw := clear_flag (Z.lor SinkableBit DependencySinkableBit) x]> (ops_of s)) s)) as Hu.
      { apply runs_zoom. unfold update_op, op_at. apply runs_bind, runs_bind, runs_gets.
        eapply runs_deref; [exact Hx|]. apply runs_modify. done. }
      apply runs_bind. eapply runs_mono; [exact Hu|]. intros _ s' ->. apply runs_ret, Hadd.
      * by apply core_clear.
      * intros rw' Hr. left. assert (rw' = rw) as -> by congruence. unfold flagged. simpl.
        rewrite list_lookup_insert_eq by (by eapply lookup_lt_Some). apply has_flag_clear.
  - apply runs_ret. pose proof C as [A P M Fx K F S C2 Dm]. split; try done.
    + intros i rw' Hi. destruct (decide (i = id)) as [->|Hne].
      * rewrite lookup_insert_eq in Hi. injection Hi as <-. exact (K id rw Hid).
      * rewrite lookup_insert_ne in Hi by done. by apply K.
    + intros r n g v rw' Hr Hn Hg Hv Hi. destruct (decide (incoming_id v = id)) as [E|Hne].
      * rewrite E, lookup_insert_eq in Hi. injection Hi as <-. simpl.
        eapply F; [done..|]. by rewrite E.
      * rewrite lookup_insert_ne in Hi by done. by eapply F.
    + intros i x rw' Hs Hi. destruct (decide (i = id)) as [->|Hne].
      * rewrite lookup_insert_eq in Hi. injection Hi as <-. simpl. destruct Hs as [Hs|[_ ->]]; [|by right].
        destruct (S id x rw Hs Hid) as [?|?]; [by left|congruence].
      * rewrite lookup_insert_ne in Hi by done. destruct Hs as [Hs|[? _]]; [by eapply S|done].
    + intros i x rw' Hi Hx. destruct (decide (i = id)) as [->|Hne].
      * rewrite lookup_insert_eq in Hi. injection Hi as <-. simpl in Hx. right. split; congruence.
      * rewrite lookup_insert_ne in Hi by done. left. by eapply C2.
    + intros i x [Hs|[-> ->]]; [by apply Dm|]. done.
Qed.

(** All operands of an operation. *)
Lemma consume_ids_runs seen W sinks s ids b :
  core seen W sinks s -> b ∈ L ->
  (forall d r, r ∈ L -> d ∈ W r -> idf s0 d ∈ ids -> idf s0 d <> 0 -> D r b) ->
  runs (fold_m (fun id sinks => consume_id id b sinks) ids sinks) s (fun sinks' s' =>
    core (fun i x => seen i x \/ (i ∈ ids /\ x = b)) W sinks' s').
Proof using Hops.
  intros C Hb Hdom. eapply runs_mono.
  - apply (runs_fold _ (fun pre sinks' s' => core (fun i x => seen i x \/ (i ∈ pre /\ x = b)) W sinks' s')).
    + eapply core_weaken; [|exact C]. intros i x. rewrite elem_of_nil. tauto.
    + intros pre id post sinks' s' E C'. eapply runs_mono; [apply consume_id_runs; [exact C'|done|]|].
      * intros d r Hr Hd <- Hn. apply (Hdom d r Hr Hd); [|done]. rewrite E. apply elem_of_app. right. left.
      * intros sinks2 s2. apply core_weaken. intros i x. rewrite elem_of_app, list_elem_of_singleton. tauto.
  - done.
Qed.

(** A value is made in a block that dominates the block of a use. *)
Lemma arg_dom W r u d r' : placed s0 W -> r ∈ L -> u ∈ W r -> r' ∈ L -> d ∈ W r' ->
  idf s0 d ∈ argf s0 u -> idf s0 d <> 0 -> D r' r.
Proof using Type.
  intros P Hr Hu Hr' Hd Ha H0. apply list_elem_of_split in Hu as (pre & post & E).
  pose proof (pl_args _ _ P r pre u post d r' Hr E Ha H0 Hr' Hd) as H.
  case_decide; [subst; apply every_path_refl|done].
Qed.

(** The block an operation may go to. *)
Lemma sink_target_runs seen W sinks s r o x : core seen W sinks s -> r ∈ L -> o ∈ W r ->
  ops_of s !! o = Some x -> op_id x <> 0 ->
  runs (sink_target sinks r x) s (fun t s' => s' = s /\ forall b, t = Some b ->
    b <> r /\ b ∈ L /\ D r b /\ seen (op_id x) b /\
    exists rw, sinks !! op_id x = Some rw /\ consumed_block rw = Some b).
Proof using G T Hpost Hops.
  intros C Hr Ho Hx H0. unfold sink_target.
  destruct (sinks !! op_id x) as [[[b|] o']|] eqn:Hs; try (apply runs_ret; split; [done|]; congruence).
  case_decide as Eb; [apply runs_ret; split; [done|]; congruence|].
  pose proof (co_consumed _ _ _ _ C _ _ _ Hs eq_refl) as Hseen.
  destruct (co_dom _ _ _ _ C _ _ Hseen) as [Hb Hdom].
  assert (D r b) as HD.
  { apply (Hdom o r Hr Ho); [|done]. destruct (agree_ids _ _ _ o (co_agree _ _ _ _ C)) as [<- _].
    unfold idf. by rewrite Hx. }
  destruct (path_is_reorderable_total W s r b (co_agree _ _ _ _ C) (core_exist _ _ _ _ C) Hr Hb
    ltac:(done) HD) as [v Hv].
  unfold ask_ops. apply runs_bind, runs_bind, runs_gets, runs_bind, runs_gets.
  eapply runs_lift; [exact Hv|].
  apply runs_ret. split; [done|]. intros b' E. destruct v; [|done]. injection E as <-.
  split_and!; try done. by eexists.
Qed.

(** The operands of an operation are consumed in a block that the operation's dominates. *)
Lemma consume_operands_runs seen W sinks s o x r b :
  core seen W sinks s -> r ∈ L -> o ∈ W r -> b ∈ L -> D r b -> ops_of s !! o = Some x ->
  runs (x ← on_module (op_at o); ids ← lift (id_arguments x);
        fold_m (fun id sinks => consume_id id b sinks) ids sinks) s (fun sinks' s' =>
    core (fun i y => seen i y \/ (i ∈ argf s0 o /\ y = b)) W sinks' s').
Proof using Hops.
  intros C Hr Ho Hb HD Hx. apply runs_bind. eapply runs_op_at; [exact Hx|]. apply runs_bind.
  destruct (core_exist _ _ _ _ C r o Hr Ho) as (x0 & Hx0 & Hwf).
  destruct (agree_op _ _ _ _ _ (co_agree _ _ _ _ C) Hx0) as [f Hf].
  assert (x = set_flags f x0) as -> by congruence.
  assert (ids_of (set_flags f x0) = argf s0 o) as Ea by (unfold argf; by rewrite Hx0).
  eapply (runs_lift _ (argf s0 o)).
  { rewrite <- Ea. by apply id_arguments_run. }
  eapply consume_ids_runs; [done..|]. intros d r' Hr' Hd Hin H0. eapply every_path_trans; [|exact HD].
  eapply arg_dom; [by eapply co_placed|exact Hr|exact Ho|..]; done.
Qed.

(** * One operation *)

(** The uses in the processed blocks [pre], and behind the operation at hand in [r]. *)
Definition complete (seen : Z -> nodref -> Prop) (W : nodref -> list opref) (pre : list nodref)
    (r : nodref) (B : list opref) : Prop :=
  (forall x u id, (x ∈ pre /\ u ∈ W x) \/ (x = r /\ u ∈ B) -> id ∈ argf s0 u -> seen id x) /\
  (forall x n id, x ∈ pre \/ x = r -> nodes s0 !! x = Some n -> term_uses n id -> id <> 0 -> seen id x).

Lemma idf_at W s o x : agree s0 W s -> ops_of s !! o = Some x -> idf s0 o = op_id x.
Proof using Type.
  intros HA Hx. destruct (agree_ids _ _ _ o HA) as [<- _]. unfold idf. by rewrite Hx.
Qed.

Lemma split_unique {X} (A B A' B' : list X) o : A ++ o :: B = A' ++ o :: B' -> o ∉ A -> o ∉ B ->
  A = A' /\ B = B'.
Proof.
  intros E HA HB. apply app_eq_app in E as (l & [[-> E]|[-> E]]); destruct l as [|y l]; simpl in E.
  - injection E as ->. by rewrite app_nil_r.
  - injection E as <- ->. destruct HA. apply elem_of_app. right. left.
  - injection E as ->. by rewrite app_nil_r.
  - injection E as <- ->. destruct HB. apply elem_of_app. right. left.
Qed.

Lemma dominated_in_prefix pre r post x : L = pre ++ r :: post -> r ∈ L -> x ∈ L -> D r x -> x = r \/ x ∈ pre.
Proof using G.
  intros E Hr Hx HD. destruct (on_every_path_order (nodes s0) e L r x Hx HD) as (_ & [?|?]); [by left|].
  right. by eapply earlier_in_prefix.
Qed.

(** The entry of an operation that is found is its own. *)
Lemma key_unique seen W sinks s id rw r A o B : core seen W sinks s -> sinks !! id = Some rw ->
  r ∈ L -> W r = A ++ o :: B -> idf s0 o = id -> id <> 0 -> rw_op rw = o /\ (o ∉ A) /\ (o ∉ B).
Proof using Type.
  intros C Hs Hr HW Ho H0. destruct (co_keys _ _ _ _ C id rw Hs) as (Hid & (r0 & Hr0 & Hin) & _).
  assert (rw_op rw ∈ L ≫= W) as Hw.
  { rewrite (co_perm _ _ _ _ C). apply list_elem_of_bind. eauto. }
  apply list_elem_of_bind in Hw as (r' & Hw & Hr').
  destruct (placed_unique s0 W r A o B r' (rw_op rw)) as (? & _ & ? & ?); try done.
  - apply C.
  - congruence.
  - congruence.
Qed.

(** Who uses the value of [o] was looked at, so all uses are in [b]. *)
Lemma uses_seen seen W sinks s pre r post A o B id rw b :
  core seen W sinks s -> complete seen W pre r B -> L = pre ++ r :: post -> r ∈ L -> W r = A ++ o :: B ->
  idf s0 o = id -> id <> 0 -> sinks !! id = Some rw -> consumed_block rw = Some b ->
  flagged s o = true ->
  (forall x u, x ∈ L -> u ∈ W x -> id ∈ argf s0 u -> x = b) /\
  (forall x n, x ∈ L -> nodes s0 !! x = Some n -> term_uses n id -> x = b).
Proof using G.
  intros C [Hargs Hterm] EL Hr HW Ho H0 Hs Hb Hf.
  destruct (key_unique _ _ _ _ _ _ _ _ _ _ C Hs Hr HW Ho H0) as (Erw & HA & HB).
  assert (forall x, seen id x -> x = b) as Hone.
  { intros x Hx. destruct (co_seen _ _ _ _ C _ _ _ Hx Hs) as [Hff|Hc]; congruence. }
  assert (o ∈ W r) as HoW by by eapply elem_of_mid.
  split.
  - intros x u Hx Hu Hin. apply Hone, (Hargs x u); [|done].
    apply list_elem_of_split in Hu as (p1 & p2 & E).
    pose proof (pl_args _ _ (co_placed _ _ _ _ C) x p1 u p2 o r Hx E ltac:(by rewrite Ho)
      ltac:(by rewrite Ho) Hr HoW) as H.
    case_decide as Erx.
    + subst x. right. split; [done|]. apply list_elem_of_split in H as (q1 & q2 & ->).
      rewrite HW, <- app_assoc in E. simpl in E. destruct (split_unique _ _ _ _ _ E HA HB) as [_ ->].
      apply elem_of_app. right. left.
    + left. split; [|rewrite E; apply elem_of_app; right; left].
      destruct (dominated_in_prefix pre r post x EL Hr Hx H) as [?|?]; [congruence|done].
  - intros x n Hx Hn Ht. apply Hone, (Hterm x n); [|done..].
    pose proof (pl_term _ _ (co_placed _ _ _ _ C) x n o r Hx Hn ltac:(by rewrite Ho)
      ltac:(by rewrite Ho) Hr HoW) as HD.
    destruct (dominated_in_prefix pre r post x EL Hr Hx HD); auto.
Qed.

(** The state after an operation moved. *)
Lemma core_move seen W sinks s s' pre r post A o B x rw b :
  core seen W sinks s -> complete seen W pre r B -> L = pre ++ r :: post -> r ∈ L -> W r = A ++ o :: B ->
  ops_of s !! o = Some x -> op_id x <> 0 -> flagged s o = true ->
  b <> r -> b ∈ L -> D r b -> sinks !! op_id x = Some rw -> consumed_block rw = Some b ->
  agree s0 (move_to W r b A o B) s' -> ops_of s' = ops_of s ->
  core seen (move_to W r b A o B) sinks s' /\ complete (fun i y => seen i y \/ (i ∈ argf s0 o /\ y = b))
    (move_to W r b A o B) pre r B.
Proof using G.
  intros C Hc EL Hr HW Hx H0 Hf Hne Hb HD Hs Hcb HA' Eops.
  pose proof (idf_at _ _ _ _ (co_agree _ _ _ _ C) Hx) as Ho.
  destruct (key_unique _ _ _ _ _ _ _ _ _ _ C Hs Hr HW Ho H0) as (Erw & _).
  destruct (uses_seen _ _ _ _ _ _ _ _ _ _ _ _ _ C Hc EL Hr HW Ho H0 Hs Hcb Hf) as [Hu1 Hu2].
  assert (forall o', flagged s' o' = flagged s o') as Efl by (intros o'; unfold flagged; by rewrite Eops).
  pose proof C as [HA P M Fx K F S C2 Dm].
  assert (movable s0 o = true) as Hmov by (rewrite <- Erw; by apply (K _ _ Hs)).
  assert (forall y, y ∈ L -> filter (fun o => movable s0 o = false) (move_to W r b A o B y) =
    filter (fun o => movable s0 o = false) (W y)) as Hfix.
  { intros y _. unfold move_to. case_decide as E1; [subst y|case_decide as E2; [subst y|done]].
    - rewrite filter_cons_False by congruence. done.
    - rewrite HW, !list.filter_app, (filter_cons_False _ o) by congruence. done. }
  split.
  - split; try done.
    + apply placed_move; try done; [congruence..| | |].
      * intros y u Hy Hu. rewrite Ho. by apply Hu1.
      * intros y n Hy Hn. rewrite Ho. by apply Hu2.
      * intros y n f v Hy Hn Hf' Hv E. rewrite Ho in E.
        pose proof (F y n f v rw Hy Hn Hf' Hv ltac:(by rewrite E)) as Hff. congruence.
    + rewrite (move_to_permutation s0); done.
    + intros y Hy. rewrite Hfix by done. by apply Fx.
    + intros y n f v rw' Hy Hn Hf' Hv Hs'. rewrite Efl. eapply F; eauto.
    + intros id y rw' Hse Hs'. rewrite Efl. eapply S; eauto.
    + intros id y Hse. destruct (Dm id y Hse) as [Hy Hdom]. split; [done|].
      intros d r' Hr' Hd Hid Hn0. apply elem_of_move_to in Hd as [[-> ->]|Hd]; [| |done|done].
      * assert (y = b) as ->; [|apply every_path_refl]. assert (id = op_id x) as -> by congruence.
        destruct (S _ _ _ Hse Hs); congruence.
      * by eapply Hdom.
  - destruct Hc as [H1 H2]. split; [|intros y n id Hy Hn Ht Hi; left; by eapply H2].
    intros y u id [[Hy Hu]|[-> Hu]] Hid.
    + assert (y <> r) as Hyr.
      { intros ->. pose proof (fg_nodup (forward_graph := G)) as Hnd. rewrite EL in Hnd.
        apply list.NoDup_app in Hnd as (_ & Hdis & _). apply (Hdis r Hy). left. }
      apply elem_of_move_to in Hu as [[-> ->]|Hu]; [by right| |done|done]. left. eapply H1; eauto.
    + left. eapply H1; eauto.
Qed.

Lemma erase_at_middle (A : list opref) o B : erase_at (length A) (A ++ o :: B) = A ++ B.
Proof.
  unfold erase_at. rewrite take_app_length. f_equal.
  replace (S (length A)) with (length (A ++ [o])) by (rewrite length_app; simpl; lia).
  rewrite (cons_middle o A B), app_assoc. by rewrite drop_app_length.
Qed.

Lemma move_op_runs W s r b A o B : agree s0 W s -> r ∈ L -> b ∈ L -> r <> b -> W r = A ++ o :: B ->
  runs (move_op r (length A) o b) s (fun _ s' => agree s0 (move_to W r b A o B) s' /\ ops_of s' = ops_of s).
Proof using G.
  intros HA Hr Hb Hne HW. destruct (visited_node r Hr) as [n Hn]. destruct (visited_node b Hb) as [m Hm].
  unfold move_op. apply runs_bind.
  pose proof (agree_node _ _ _ _ _ HA Hm) as Hm'.
  eapply runs_set_node; [exact Hm'|].
  pose proof (agree_set _ _ _ _ _ (o :: W b) HA Hm') as HA1.
  pose proof (agree_node _ _ _ _ _ HA1 Hn) as Hn'. cbn beta in Hn'. rewrite decide_False in Hn' by done.
  eapply runs_set_node; [exact Hn'|]. split; [|done].
  cbn [operations ir set_operations set_ir]. rewrite HW, erase_at_middle, <- HW.
  eapply agree_ext; [|by eapply (agree_set _ _ _ _ _ (A ++ B) HA1)]. intros y. unfold move_to.
  destruct (decide (y = r)), (decide (y = b)); subst; done.
Qed.

(** What a step leaves behind when nothing moves in the dry run. *)
Lemma place_op_dry seen W sinks s r i o x : core seen W sinks s -> r ∈ L -> o ∈ W r -> ops_of s !! o = Some x ->
  runs (place_op true r i o x sinks) s (fun b s' => core seen W sinks s' /\ b ∈ L /\ D r b).
Proof using G T Hpost Hops.
  intros C Hr Ho Hx. unfold place_op.
  destruct (_ && _) eqn:E; [|apply runs_ret; split_and!; [done..|apply every_path_refl]].
  apply andb_true_iff in E as [E%negb_true_iff _]. apply Z.eqb_neq in E.
  apply runs_bind. eapply runs_mono; [by eapply sink_target_runs|].
  intros [b|] s' [-> H]; apply runs_bind.
  - apply runs_ret, runs_ret. by destruct (H b eq_refl) as (_ & ? & ? & _).
  - apply runs_zoom. unfold update_op, op_at. apply runs_bind, runs_bind, runs_gets.
    eapply runs_deref; [exact Hx|]. apply runs_modify, runs_ret. split_and!; [|done|apply every_path_refl].
    by apply core_clear.
Qed.

(** ... and when operations move. *)
Lemma place_op_wet seen W sinks s pre r post A o B x :
  core seen W sinks s -> complete seen W pre r B -> L = pre ++ r :: post -> r ∈ L -> W r = A ++ o :: B ->
  ops_of s !! o = Some x ->
  runs (place_op false r (length A) o x sinks) s (fun b s' => exists W' B',
    core seen W' sinks s' /\ W' r = A ++ B' /\ o ∈ W' b /\ b ∈ L /\
    complete (fun i y => seen i y \/ (i ∈ argf s0 o /\ y = b)) W' pre r B').
Proof using G T Hpost Hops.
  intros C Hc EL Hr HW Hx. assert (o ∈ W r) as Ho by by eapply elem_of_mid.
  assert (forall s', core seen W sinks s' -> exists W' B', core seen W' sinks s' /\ W' r = A ++ B' /\
    o ∈ W' r /\ r ∈ L /\ complete (fun i y => seen i y \/ (i ∈ argf s0 o /\ y = r)) W' pre r B') as Hstay.
  { intros s' C'. exists W, (o :: B). split_and!; try done.
    destruct Hc as [H1 H2]. split; [|intros y n id Hy Hn Ht Hi; left; by eapply H2].
    intros y u id [?|[-> [->|?]%elem_of_cons]] Hid; [|by right|]; left; eapply H1; eauto. }
  unfold place_op. destruct (_ && _) eqn:E; [|by apply runs_ret, Hstay].
  apply andb_true_iff in E as [E%negb_true_iff Hf]. apply Z.eqb_neq in E.
  apply runs_bind. eapply runs_mono; [by eapply sink_target_runs|].
  intros [b|] s' [-> H]; apply runs_bind.
  - destruct (H b eq_refl) as (Hne & Hb & HD & _ & rw & Hs & Hcb).
    eapply runs_mono; [eapply move_op_runs; [by apply C|exact Hr|exact Hb|done|exact HW]|].
    intros _ s' [HA' Eops]. apply runs_ret. exists (move_to W r b A o B), B.
    edestruct core_move as [C' Hc']; [exact C|exact Hc|exact EL|exact Hr|exact HW|exact Hx|done| |exact Hne|
      exact Hb|exact HD|exact Hs|exact Hcb|exact HA'|exact Eops|].
    { unfold flagged. by rewrite Hx. }
    split_and!; try done.
    + unfold move_to. rewrite decide_False by done. by rewrite decide_True.
    + unfold move_to. rewrite decide_True by done. left.
  - apply runs_zoom. unfold update_op, op_at. apply runs_bind, runs_bind, runs_gets.
    eapply runs_deref; [exact Hx|]. apply runs_modify, runs_ret. apply Hstay. by apply core_clear.
Qed.

Lemma sink_op_dry seen W sinks s r i o : core seen W sinks s -> r ∈ L -> W r !! i = Some o ->
  runs (sink_op true r i sinks) s (fun sinks' s' => exists seen', core seen' W sinks' s').
Proof using G T Hpost Hops.
  intros C Hr Hi. pose proof (list_elem_of_lookup_2 _ _ _ Hi) as Ho. destruct (visited_node r Hr) as [n Hn].
  destruct (core_exist _ _ _ _ C r o Hr Ho) as (x0 & Hx0 & _).
  destruct (agree_op _ _ _ _ _ (co_agree _ _ _ _ C) Hx0) as [f Hf].
  unfold sink_op. apply runs_bind. eapply runs_get_node; [by eapply agree_node; [apply C|]|].
  apply runs_bind. eapply runs_deref; [exact Hi|]. apply runs_bind. eapply runs_op_at; [exact Hf|].
  apply runs_bind. eapply runs_mono; [by eapply place_op_dry|]. intros b s' (C' & Hb & HD).
  destruct (agree_op _ _ _ _ _ (co_agree _ _ _ _ C') Hx0) as [f' Hf'].
  eapply runs_mono; [eapply (consume_operands_runs _ _ _ _ _ _ r b); [exact C'|done..|exact Hf']|].
  intros sinks' s2 C2. by eexists.
Qed.

Lemma sink_op_wet seen W sinks s pre r post A o B :
  core seen W sinks s -> complete seen W pre r B -> L = pre ++ r :: post -> r ∈ L -> W r = A ++ o :: B ->
  runs (sink_op false r (length A) sinks) s (fun sinks' s' => exists seen' W' B',
    core seen' W' sinks' s' /\ W' r = A ++ B' /\ complete seen' W' pre r B').
Proof using G T Hpost Hops.
  intros C Hc EL Hr HW. destruct (visited_node r Hr) as [n Hn].
  assert (o ∈ W r) as Ho by by eapply elem_of_mid.
  destruct (core_exist _ _ _ _ C r o Hr Ho) as (x0 & Hx0 & _).
  destruct (agree_op _ _ _ _ _ (co_agree _ _ _ _ C) Hx0) as [f Hf].
  unfold sink_op. apply runs_bind. eapply runs_get_node; [by eapply agree_node; [apply C|]|].
  apply runs_bind. eapply runs_deref; [cbn [operations ir set_operations set_ir]; rewrite HW; by apply list_lookup_middle|].
  apply runs_bind. eapply runs_op_at; [exact Hf|].
  apply runs_bind. eapply runs_mono; [by eapply place_op_wet|].
  intros b s' (W' & B' & C' & HW' & Hob & Hb & Hc').
  destruct (agree_op _ _ _ _ _ (co_agree _ _ _ _ C') Hx0) as [f' Hf'].
  eapply runs_mono; [eapply (consume_operands_runs _ _ _ _ _ _ b b); [exact C'|done..|apply every_path_refl|exact Hf']|].
  intros sinks' s2 C2. by eexists _, W', B'.
Qed.

(** * A block *)

Lemma sink_ops_dry seen W sinks s r n : core seen W sinks s -> r ∈ L -> (n <= length (W r))%nat ->
  runs (sink_ops true r n sinks) s (fun sinks' s' => exists seen', core seen' W sinks' s').
Proof using G T Hpost Hops.
  revert seen sinks s. induction n as [|n IH]; intros seen sinks s C Hr Hl; simpl.
  - apply runs_ret. by eexists.
  - destruct (lookup_lt_is_Some_2 (W r) n ltac:(lia)) as [o Ho]. apply runs_bind.
    eapply runs_mono; [by eapply sink_op_dry|]. intros sinks' s' [seen' C']. eapply IH; [done..|lia].
Qed.

Lemma sink_ops_wet seen W sinks s pre r post A B :
  core seen W sinks s -> complete seen W pre r B -> L = pre ++ r :: post -> r ∈ L -> W r = A ++ B ->
  runs (sink_ops false r (length A) sinks) s (fun sinks' s' => exists seen' W' B',
    core seen' W' sinks' s' /\ W' r = B' /\ complete seen' W' pre r B').
Proof using G T Hpost Hops.
  revert seen W sinks s B. induction A as [|o A IH] using rev_ind; intros seen W sinks s B C Hc EL Hr HW.
  - apply runs_ret. by eexists _, W, B.
  - rewrite length_app, Nat.add_1_r. cbn [sink_ops]. rewrite <- app_assoc in HW. apply runs_bind.
    eapply runs_mono; [by eapply sink_op_wet|]. intros sinks' s' (seen' & W' & B' & C' & HW' & Hc').
    by eapply IH.
Qed.

(** The terminator. *)
Definition consume_terminator (n : CFGNode) (r : nodref) (sinks : gmap Z RewriteState)
    : PM (gmap Z RewriteState) :=
  let t := terminator (ir n) in
  match term_type t with
  | TCondition | TSwitch => consume_id (conditional_id t) r sinks
  | TReturn => if return_value t =? 0 then mret sinks else consume_id (return_value t) r sinks
  | _ => mret sinks
  end.

Lemma consume_terminator_runs seen W sinks s r n : core seen W sinks s -> r ∈ L -> nodes s0 !! r = Some n ->
  runs (consume_terminator (set_operations (W r) n) r sinks) s (fun sinks' s' => exists seen',
    core seen' W sinks' s' /\ (forall i y, seen i y -> seen' i y) /\
    (forall id, term_uses n id -> id <> 0 -> seen' id r)).
Proof using Hops.
  intros C Hr Hn.
  assert (forall id, (forall i, term_uses n i -> i <> 0 -> i = id) -> term_uses n id ->
    runs (consume_id id r sinks) s (fun sinks' s' => exists seen',
      core seen' W sinks' s' /\ (forall i y, seen i y -> seen' i y) /\
      (forall id, term_uses n id -> id <> 0 -> seen' id r))) as Hconsume.
  { intros id Hid Hu. eapply runs_mono; [eapply consume_id_runs; [exact C|exact Hr|]|].
    - intros d r' Hr' Hd <- H0. by eapply (pl_term _ _ (co_placed _ _ _ _ C) r n d r').
    - intros sinks' s' C'. eexists. split; [exact C'|]. split; [by left|].
      intros i Hi H0. right. split; [by apply Hid|done]. }
  assert ((forall i, term_uses n i -> i = 0) -> exists seen',
      core seen' W sinks s /\ (forall i y, seen i y -> seen' i y) /\
      (forall id, term_uses n id -> id <> 0 -> seen' id r)) as Hnone.
  { intros H. exists seen. split_and!; [done..|]. intros i Hi. by apply H in Hi. }
  unfold consume_terminator. cbn [terminator ir set_operations set_ir].
  unfold term_uses in *. destruct (term_type (terminator (ir n))) eqn:E;
    try (apply runs_ret, Hnone; done); try (by apply Hconsume).
  destruct (Z.eqb_spec (return_value (terminator (ir n))) 0) as [E0|E0].
  - apply runs_ret, Hnone. intros i <-. done.
  - by apply Hconsume.
Qed.

Lemma sink_block_unfold dry r sinks s n : nodes s !! r = Some n ->
  forall Q, runs (consume_terminator n r sinks) s (fun sinks' s' =>
    runs (sink_ops dry r (length (operations (ir n))) sinks') s' Q) ->
  runs (sink_block dry r sinks) s Q.
Proof using Type.
  intros Hn Q H. unfold sink_block. apply runs_bind. eapply runs_get_node; [exact Hn|]. apply runs_bind. exact H.
Qed.

(** * The traversal *)

Lemma sink_blocks_dry sinks s : core (fun _ _ => False) (ops_at s0) sinks s ->
  runs (fold_m (sink_block true) L sinks) s (fun sinks' s' => exists seen', core seen' (ops_at s0) sinks' s').
Proof using G T Hpost Hops.
  intros C. apply (runs_fold _ (fun _ sinks s => exists seen', core seen' (ops_at s0) sinks s)); [by eexists|].
  intros pre r post sinks1 s1 EL [seen C1].
  assert (r ∈ L) as Hr by (rewrite EL; apply elem_of_app; right; left).
  destruct (visited_node r Hr) as [n Hn]. eapply sink_block_unfold; [by eapply agree_node; [apply C1|]|].
  eapply runs_mono; [by eapply consume_terminator_runs|]. intros sinks2 s2 (seen2 & C2 & _).
  by eapply sink_ops_dry.
Qed.

(** All uses in the processed blocks were looked at. *)
Definition settled (seen : Z -> nodref -> Prop) (W : nodref -> list opref) (pre : list nodref) : Prop :=
  (forall x u id, x ∈ pre -> u ∈ W x -> id ∈ argf s0 u -> seen id x) /\
  (forall x n id, x ∈ pre -> nodes s0 !! x = Some n -> term_uses n id -> id <> 0 -> seen id x).

Lemma sink_block_wet seen W sinks s pre r post : core seen W sinks s -> settled seen W pre ->
  L = pre ++ r :: post ->
  runs (sink_block false r sinks) s (fun sinks' s' => exists seen' W',
    core seen' W' sinks' s' /\ settled seen' W' (pre ++ [r])).
Proof using G T Hpost Hops.
  intros C [H1 H2] EL. assert (r ∈ L) as Hr by (rewrite EL; apply elem_of_app; right; left).
  destruct (visited_node r Hr) as [n Hn]. eapply sink_block_unfold; [by eapply agree_node; [apply C|]|].
  eapply runs_mono; [by eapply consume_terminator_runs|]. intros sinks2 s2 (seen2 & C2 & Hsub & Hterm).
  eapply runs_mono; [eapply (sink_ops_wet _ _ _ _ pre r post (W r) []); [exact C2| |exact EL|exact Hr|]|].
  - split.
    + intros x u id [[Hx Hu]|[_ Hu]] Hid; [|by apply elem_of_nil in Hu]. eapply Hsub, H1; eauto.
    + intros x m id [Hx| ->] Hm Ht H0; [eapply Hsub, H2; by eauto|]. apply Hterm; [|done].
      by assert (m = n) as -> by congruence.
  - by rewrite app_nil_r.
  - intros sinks3 s3 (seen3 & W3 & B3 & C3 & HW3 & [H3 H4]). exists seen3, W3. split; [done|]. split.
    + intros x u id [Hx| ->%list_elem_of_singleton]%elem_of_app Hu Hid; eapply H3; eauto.
      right. split; [done|congruence].
    + intros x m id [Hx| ->%list_elem_of_singleton]%elem_of_app Hm Ht H0; eapply H4; eauto.
Qed.

Lemma sink_blocks_wet sinks s : core (fun _ _ => False) (ops_at s0) sinks s ->
  runs (fold_m (sink_block false) L sinks) s (fun sinks' s' => exists seen' W', core seen' W' sinks' s').
Proof using G T Hpost Hops.
  intros C. eapply runs_mono.
  - apply (runs_fold _ (fun pre sinks s => exists seen W, core seen W sinks s /\ settled seen W pre)).
    + exists (fun _ _ => False), (ops_at s0). split; [done|]. split; by intros ??? ?%elem_of_nil.
    + intros pre r post sinks1 s1 EL (seen & W & C1 & H1). by eapply sink_block_wet.
  - intros sinks' s' (seen & W & C' & _). by exists seen, W.
Qed.

(** * The candidates *)

Definition found (st : list Z * gmap Z RewriteState) : Prop :=
  (forall id, id ∈ st.1 -> is_Some (st.2 !! id)) /\
  (forall id rw, st.2 !! id = Some rw -> key_ok id rw /\ consumed_block rw = None).

Lemma found_nil sinks ids : found (ids, sinks) -> found ([], sinks).
Proof using Type. intros [_ H]. split; [by intros ? ?%elem_of_nil|done]. Qed.

Lemma found_insert ids sinks id o : found (ids, sinks) -> key_ok id (mkRewrite None o) ->
  found (ids ++ [id], <[id := mkRewrite None o]> sinks).
Proof using Type.
  intros [H1 H2] Hk. split; simpl in *.
  - intros i [Hi| ->%list_elem_of_singleton]%elem_of_app; [|rewrite lookup_insert_eq; by eexists].
    destruct (decide (i = id)) as [->|Hne]; [rewrite lookup_insert_eq; by eexists|].
    rewrite lookup_insert_ne by done. by apply H1.
  - intros i rw Hi. destruct (decide (i = id)) as [->|Hne].
    + rewrite lookup_insert_eq in Hi. by injection Hi as <-.
    + rewrite lookup_insert_ne in Hi by done. by apply H2.
Qed.

(** Flags are cleared. *)
Lemma unsinkable_runs W s o x0 : agree s0 W s -> ops_of s0 !! o = Some x0 ->
  runs (unsinkable o) s (fun _ s' => agree s0 W s' /\ flagged s' o = false /\
    forall o', flagged s o' = false -> flagged s' o' = false).
Proof using Type.
  intros HA Hx0. destruct (agree_op _ _ _ _ _ HA Hx0) as [f Hx].
  apply runs_zoom. unfold update_op, op_at. apply runs_bind, runs_bind, runs_gets.
  eapply runs_deref; [exact Hx|]. apply runs_modify. split_and!.
  - apply agree_flags; [done..|apply has_flag_ldiff].
  - unfold flagged. simpl. rewrite list_lookup_insert_eq by (by eapply lookup_lt_Some). apply has_flag_clear.
  - intros o' H. apply not_true_iff_false. intros H'. apply (flagged_clear s _ _ _ o' Hx) in H'. congruence.
Qed.

Lemma key_exists id rw : key_ok id rw -> exists x0, ops_of s0 !! rw_op rw = Some x0.
Proof using Hops.
  intros (_ & (r & Hr & Ho) & _). destruct (ops_exist_start r _ Hr Ho) as (x & ? & _). by exists x.
Qed.

Lemma has_flag_add x f g : Z.land f g = 0 -> has_flag (add_flag f x) g = true -> has_flag x g = true.
Proof.
  intros H. unfold has_flag, add_flag. cbn [flags set_flags]. by rewrite Z.land_lor_distr_l, H, Z.lor_0_r.
Qed.

Lemma find_sinkable_runs st s r o : agree s0 (ops_at s0) s -> found st -> r ∈ L -> o ∈ ops_at s0 r ->
  runs (find_sinkable o st) s (fun st' s' => agree s0 (ops_at s0) s' /\ found st').
Proof using Hops.
  intros HA HF Hr Ho. destruct st as [ids sinks].
  destruct (ops_exist_start r o Hr Ho) as (x0 & Hx0 & Hwf).
  destruct (agree_op _ _ _ _ _ HA Hx0) as [f Hf]. unfold find_sinkable. apply runs_bind.
  eapply runs_op_at; [exact Hf|]. set (x := set_flags f x0) in *.
  pose proof (idf_at _ _ _ _ HA Hf) as Hid.
  assert ((op_id x <> 0 -> movable s0 o = true) -> key_ok (op_id x) (mkRewrite None o)) as Hkey.
  { intros H. split; [done|]. split; [by exists r|done]. }
  destruct (has_flag x SinkableBit) eqn:E1.
  - apply runs_ret. split; [done|]. apply found_insert; [done|]. apply Hkey. intros H0.
    assert (sinkable s0 o = true) as Hs by (apply (ag_sinkable _ _ _ HA); unfold sinkable; by rewrite Hf).
    unfold sinkable in Hs. rewrite Hx0 in Hs. unfold movable. rewrite Hx0, Hs. apply andb_true_iff.
    split; [|done]. apply negb_true_iff, Z.eqb_neq. done.
  - destruct (_ && _) eqn:E2.
    + apply runs_bind. eapply runs_lift; [by apply id_arguments_run|].
      destruct (existsb _ _); [|by apply runs_ret].
      apply runs_bind, runs_zoom. unfold update_op, op_at. apply runs_bind, runs_bind, runs_gets.
      eapply runs_deref; [exact Hf|]. apply runs_modify, runs_ret. split.
      * apply agree_flags; [done..|by apply (has_flag_add _ DependencySinkableBit)].
      * apply found_insert; [done|]. apply Hkey. intros H0. unfold movable. rewrite Hx0.
        apply andb_true_iff in E2 as [[E2a E2b]%andb_true_iff E2c]. cbn in E2a, E2b, E2c.
        rewrite E2a, E2b, E2c. by rewrite orb_true_r.
    + destruct (_ || _); [|by apply runs_ret]. apply runs_bind.
      eapply runs_mono; [apply (runs_for_each _ (fun _ s => agree s0 (ops_at s0) s)); [done|]|].
      * intros pre id post s1 E HA1. assert (id ∈ ids) as Hin by (by eapply elem_of_mid). destruct HF as [H1 H2]. destruct (H1 id Hin) as [rw Hrw]. simpl in Hrw.
        apply runs_bind. eapply runs_deref; [exact Hrw|].
        destruct (key_exists id rw (proj1 (H2 id rw Hrw))) as [y0 Hy0].
        eapply runs_mono; [by eapply unsinkable_runs|]. by intros _ s2 (? & _).
      * intros ? s1 HA1. apply runs_ret. split; [done|]. by eapply found_nil.
Qed.

Lemma find_sinkables_runs s : agree s0 (ops_at s0) s ->
  runs find_sinkables s (fun sinks s' => agree s0 (ops_at s0) s' /\
    forall id rw, sinks !! id = Some rw -> key_ok id rw /\ consumed_block rw = None).
Proof using G Hops.
  intros HA. unfold find_sinkables. apply runs_bind, runs_order.
  destruct (agree_cfg _ _ _ HA) as [EL _]. rewrite EL.
  eapply runs_mono; [apply (runs_fold _ (fun _ sinks s => agree s0 (ops_at s0) s /\ found ([], sinks)))|].
  - split; [done|]. by split; [intros ? ?%elem_of_nil|intros ???].
  - intros pre r post sinks s1 E [HA1 HF]. assert (r ∈ L) as Hr by by eapply elem_of_mid.
    destruct (visited_node r Hr) as [n Hn].
    apply runs_bind. eapply runs_get_node; [by eapply agree_node|]. apply runs_bind.
    cbn [operations ir set_operations set_ir].
    eapply runs_mono; [apply (runs_fold _ (fun _ st s => agree s0 (ops_at s0) s /\ found st)); [done|]|].
    + intros pre' o post' st s2 E' [HA2 HF2]. eapply find_sinkable_runs; [done..|by eapply elem_of_mid].
    + intros [ids sinks'] s2 [HA2 HF2]. apply runs_ret. split; [done|]. by eapply found_nil.
  - intros sinks s' [HA' [_ HF]]. done.
Qed.

Lemma keep_phi_inputs_runs sinks s r : agree s0 (ops_at s0) s -> r ∈ L ->
  (forall id rw, sinks !! id = Some rw -> key_ok id rw) ->
  runs (keep_phi_inputs sinks r) s (fun _ s' => agree s0 (ops_at s0) s' /\
    (forall o, flagged s o = false -> flagged s' o = false) /\
    forall n f v rw, nodes s0 !! r = Some n -> f ∈ phi (ir n) -> v ∈ phi_incoming f ->
      sinks !! incoming_id v = Some rw -> flagged s' (rw_op rw) = false).
Proof using G Hops.
  intros HA Hr HK. destruct (visited_node r Hr) as [n Hn]. unfold keep_phi_inputs. apply runs_bind.
  eapply runs_get_node; [by eapply agree_node|]. cbn [phi ir set_operations set_ir].
  set (I := fun (P : IncomingValue -> Prop) (s' : Passes) => agree s0 (ops_at s0) s' /\
    (forall o, flagged s o = false -> flagged s' o = false) /\
    forall v rw, P v -> sinks !! incoming_id v = Some rw -> flagged s' (rw_op rw) = false).
  eapply runs_mono; [apply (runs_for_each _ (fun pre => I (fun v => exists f, f ∈ pre /\ v ∈ phi_incoming f)))|].
  - split; [done|]. split; [done|]. by intros v rw (f & ?%elem_of_nil & _).
  - intros pre f post s1 _ HI.
    eapply runs_mono; [apply (runs_for_each _ (fun pre' => I (fun v =>
      (exists f, f ∈ pre /\ v ∈ phi_incoming f) \/ v ∈ pre')))|].
    + destruct HI as (? & ? & H). split; [done|]. split; [done|].
      intros v rw [?|?%elem_of_nil] Hv; [by eapply H|done].
    + intros pre' v post' s2 _ (HA2 & Hm2 & H2).
      assert (forall s3, agree s0 (ops_at s0) s3 -> (forall o, flagged s2 o = false -> flagged s3 o = false) ->
        (forall rw, sinks !! incoming_id v = Some rw -> flagged s3 (rw_op rw) = false) ->
        I (fun w => (exists f, f ∈ pre /\ w ∈ phi_incoming f) \/ w ∈ pre' ++ [v]) s3) as Hstep.
      { intros s3 HA3 Hm3 Hv. split; [done|]. split; [by auto|].
        intros w rw Hw Hs. rewrite elem_of_app, list_elem_of_singleton in Hw.
        destruct Hw as [Hw|[Hw| ->]]; [| |by apply Hv]; eapply Hm3, H2; eauto. }
      destruct (sinks !! incoming_id v) as [rw|] eqn:Hs.
      * destruct (key_exists _ _ (HK _ _ Hs)) as [x0 Hx0].
        eapply runs_mono; [by eapply unsinkable_runs|]. intros ? s3 (HA3 & Hf & Hm3).
        apply Hstep; [done..|]. intros rw' E. by injection E as <-.
      * apply runs_ret, Hstep; done.
    + intros ? s2 (HA2 & Hm2 & H2). split; [done|]. split; [done|]. intros v rw (g & Hg & Hv) Hs.
      apply (H2 v rw); [|done]. apply elem_of_app in Hg as [Hg| ->%list_elem_of_singleton]; [left; by eauto|by right].
  - intros ? s1 (HA1 & Hm & H). split; [done|]. split; [done|]. intros n' f v rw Hn' Hf Hv Hs.
    assert (n' = n) as -> by congruence. eapply H; eauto.
Qed.

(** The state in which the traversal starts. *)
Lemma candidates_core {A} s (k : gmap Z RewriteState -> PM A) Q :
  agree s0 (ops_at s0) s -> placed s0 (ops_at s0) ->
  (forall sinks s', core (fun _ _ => False) (ops_at s0) sinks s' -> runs (k sinks) s' Q) ->
  runs (sinks ← find_sinkables; _ ← for_eachM (keep_phi_inputs sinks) L; k sinks) s Q.
Proof using G Hops.
  intros HA HP HQ. apply runs_bind. eapply runs_mono; [by apply find_sinkables_runs|].
  intros sinks s1 [HA1 HK]. apply runs_bind.
  eapply runs_mono; [apply (runs_for_each _ (fun pre s => agree s0 (ops_at s0) s /\
    forall r n f v rw, r ∈ pre -> nodes s0 !! r = Some n -> f ∈ phi (ir n) -> v ∈ phi_incoming f ->
      sinks !! incoming_id v = Some rw -> flagged s (rw_op rw) = false))|].
  - split; [done|]. by intros ????? ?%elem_of_nil.
  - intros pre r post s2 E [HA2 H2].
    eapply runs_mono; [apply keep_phi_inputs_runs; [done|by eapply elem_of_mid|intros; by eapply HK]|].
    intros ? s3 (HA3 & Hm & H3). split; [done|].
    intros r' n f v rw [Hr| ->%list_elem_of_singleton]%elem_of_app Hn Hf Hv Hs; [|by eapply H3].
    eapply Hm, H2; eauto.
  - intros ? s2 [HA2 H2]. apply HQ. split; try done.
    + intros id rw Hs. by apply HK.
    + intros id b rw Hs Hc. destruct (HK id rw Hs) as [_ ?]. congruence.
Qed.

(** * Both runs *)

Lemma dry_run_runs : placed s0 (ops_at s0) ->
  runs (sink_ssa_constructs_run true) s0 (fun _ s' => agree s0 (ops_at s0) s').
Proof using G T Hpost Hops.
  intros HP. unfold sink_ssa_constructs_run. apply runs_bind, runs_order.
  apply candidates_core; [apply agree_refl|done|]. intros sinks s1 C1. apply runs_bind.
  eapply runs_mono; [by apply sink_blocks_dry|]. intros sinks2 s2 [seen C2].
  apply (runs_for_each _ (fun _ s => agree s0 (ops_at s0) s)); [apply C2|].
  intros pre r post s3 E HA3. assert (r ∈ L) as Hr by by eapply elem_of_mid.
  destruct (visited_node r Hr) as [n Hn].
  apply runs_bind. eapply runs_get_node; [by eapply agree_node|]. cbn [operations ir set_operations set_ir].
  apply (runs_for_each _ (fun _ s => agree s0 (ops_at s0) s)); [done|].
  intros pre' o post' s4 E' HA4. destruct (ops_exist_start r o Hr ltac:(by eapply elem_of_mid)) as (x0 & Hx0 & _).
  destruct (agree_op _ _ _ _ _ HA4 Hx0) as [f Hf].
  apply runs_zoom. unfold update_op, op_at. apply runs_bind, runs_bind, runs_gets.
  eapply runs_deref; [exact Hf|]. apply runs_modify.
  apply agree_flags; [done..|apply has_flag_ldiff].
Qed.

Lemma wet_run_runs s : agree s0 (ops_at s0) s -> placed s0 (ops_at s0) ->
  runs (sink_ssa_constructs_run false) s (fun _ s' => exists seen W sinks, core seen W sinks s').
Proof using G T Hpost Hops.
  intros HA HP. unfold sink_ssa_constructs_run. apply runs_bind, runs_order.
  destruct (agree_cfg _ _ _ HA) as [-> _].
  apply candidates_core; [done..|]. intros sinks s1 C1. apply runs_bind.
  eapply runs_mono; [by apply sink_blocks_wet|]. intros sinks2 s2 (seen & W & C2).
  apply runs_ret. by exists seen, W, sinks2.
Qed.
End sinking.

Lemma agree_ops_at s0 W s r : agree s0 W s -> is_Some (nodes s0 !! r) -> ops_at s r = W r.
Proof. intros H [n Hn]. unfold ops_at, get. by rewrite (agree_node _ _ _ _ _ H Hn). Qed.

Lemma agree_shape s0 W s : agree s0 W s -> same_shape (nodes s) (nodes s0).
Proof.
  intros H. split; [split; [by rewrite (agree_length _ _ _ H)|]|]; intros x;
    by rewrite !(agree_get _ _ _ _ _ _ H).
Qed.

(** The placement of the result, read off its state. *)
Lemma agree_ssa s0 W s : (forall r, r ∈ forward_order (cfg s0) -> is_Some (nodes s0 !! r)) ->
  agree s0 W s -> placed s0 W -> ssa s.
Proof.
  intros Hex H P. destruct (agree_cfg _ _ _ H) as [EL Ee].
  assert (forall r, r ∈ forward_order (cfg s0) -> ops_at s r = W r) as HW
    by (intros r Hr; by eapply agree_ops_at; [|apply Hex]).
  assert (forall o, idf s o = idf s0 o) as Hid by (intros o; by apply (agree_ids _ _ _ o H)).
  assert (forall o, argf s o = argf s0 o) as Harg by (intros o; by apply (agree_ids _ _ _ o H)).
  assert (forall a b, on_every_path (nodes s0) (entry_block (cfg s0)) a b ->
    on_every_path (nodes s) (entry_block (cfg s)) a b) as HD.
  { intros a b. rewrite Ee. apply on_every_path_shape, same_shape_sym. by eapply agree_shape. }
  assert (forall r n, nodes s !! r = Some n -> exists n0, nodes s0 !! r = Some n0 /\
    phi (ir n) = phi (ir n0) /\ terminator (ir n) = terminator (ir n0)) as Hnode.
  { intros r n Hn. rewrite (ag_nodes _ _ _ H) in Hn. destruct (nodes s0 !! r) as [n0|]; [|done].
    injection Hn as <-. by exists n0. }
  split; rewrite EL.
  - rewrite (list_fmap_ext _ (idf s0)) by (intros; apply Hid).
    rewrite (bind_ext_in _ W) by done. apply P.
  - intros r pre u post d r' Hr E Ha H0 Hr' Hd. rewrite HW in E by done. rewrite HW in Hd by done.
    rewrite Hid, Harg in Ha. rewrite Hid in H0. pose proof (pl_args _ _ P r pre u post d r' Hr E Ha H0 Hr' Hd) as HP.
    case_decide; [done|by apply HD].
  - intros r n d r' Hr Hn Ht H0 Hr' Hd. rewrite HW in Hd by done. rewrite Hid in Ht, H0.
    destruct (Hnode r n Hn) as (n0 & Hn0 & _ & Et). unfold term_uses in Ht. rewrite Et in Ht.
    apply HD. by eapply (pl_term _ _ P r n0 d r').
  - intros r n f v q d r' Hr Hn Hf Hv Hq Ev H0 Hr' Hd. rewrite HW in Hd by done. rewrite Hid in Ev, H0.
    destruct (Hnode r n Hn) as (n0 & Hn0 & Ef & _). rewrite Ef in Hf.
    apply HD. by eapply (pl_phi _ _ P r n0 f v q d r').
Qed.

(** C14. On an analysed graph whose operations are in SSA form, [sink_ssa_constructs] completes
    and leaves the function in SSA form: every value is still made once, before its uses.
    The operations are permuted over the blocks, none is lost or doubled, and those that may
    not move (no result, a side effect, a dependence on control flow; not marked by the front
    end) stay in their block in their order.  Apart from that only flags of operations change. *)
Theorem sink_ssa_constructs_correct s :
  forward_graph (nodes s) (entry_block (cfg s)) (forward_order (cfg s)) ->
  idom_tree (nodes s) (entry_block (cfg s)) (forward_order (cfg s)) (fun x => x ∈ forward_order (cfg s)) ->
  (forall a b, a ∈ forward_order (cfg s) -> b ∈ forward_order (cfg s) ->
     exists v, post_dominates (nodes s) a b = Ok v) ->
  ops_ok s -> ssa s ->
  runs sink_ssa_constructs s (fun _ s' =>
    ssa s' /\ forward_order (cfg s) ≫= ops_at s' ≡ₚ forward_order (cfg s) ≫= ops_at s /\
    (forall r, r ∈ forward_order (cfg s) ->
       filter (fun o => movable s o = false) (ops_at s' r) = filter (fun o => movable s o = false) (ops_at s r)) /\
    same_ops (ops_of s) (ops_of s') /\
    (forall r, nodes s' !! r = set_operations (ops_at s' r) <$> nodes s !! r) /\
    exists p l, s' = with_ops l (with_nodes p s)).
Proof.
  intros G T Hpost Hops Hssa. unfold sink_ssa_constructs. apply runs_bind.
  eapply runs_mono; [by apply (dry_run_runs s)|]. intros ? s1 HA1.
  eapply runs_mono; [by apply (wet_run_runs s)|]. intros ? s2 (seen & W & sinks & C).
  pose proof (co_agree _ _ _ _ _ C) as HA.
  assert (forall r, is_Some (nodes s !! r) -> ops_at s2 r = W r) as HW by (intros; by eapply agree_ops_at).
  assert (forall r, r ∈ forward_order (cfg s) -> is_Some (nodes s !! r)) as Hex by apply fg_range.
  split_and!.
  - by eapply agree_ssa; [|exact HA|apply C].
  - rewrite <- (co_perm _ _ _ _ _ C). by rewrite (bind_ext_in _ W) by auto.
  - intros r Hr. rewrite HW by auto. by apply (co_fixed _ _ _ _ _ C).
  - apply HA.
  - intros r. rewrite (ag_nodes _ _ _ HA). destruct (nodes s !! r) eqn:E; [|done]. simpl.
    by rewrite HW by (rewrite E; by eexists).
  - apply HA.
Qed.

(** * A sample *)

(** The analysis of a concrete graph, checked on the state [recompute_cfg] computes. *)
Definition same_tree_bool (p p' : CFGNodePool) : bool :=
  bool_decide ((succ <$> p') = (succ <$> p) /\ (pred <$> p') = (pred <$> p) /\
    (forward_post_visit_order <$> p') = (forward_post_visit_order <$> p) /\
    (succ_back_edge <$> p') = (succ_back_edge <$> p) /\ (pred_back_edge <$> p') = (pred_back_edge <$> p) /\
    (immediate_dominator <$> p') = (immediate_dominator <$> p)).

Lemma get_fmap {A} (f : CFGNode -> A) d p p' x : f <$> p' = f <$> p -> get f d p' x = get f d p x.
Proof.
  intros H. assert ((f <$> p') !! x = (f <$> p) !! x) as E by by rewrite H. rewrite !list_lookup_fmap in E.
  unfold get. destruct (p' !! x), (p !! x); simpl in E; congruence.
Qed.

Lemma same_tree_by_computation p p' P : same_tree_bool p p' = true -> same_tree P p p'.
Proof.
  intros (Hs & Hp & Ho & Hb & Hb' & Hi)%bool_decide_eq_true.
  split; [split; [split|]|]; [|intros x..|intros x _]; [|by rewrite ?(get_fmap _ _ p p')..].
  apply (f_equal length) in Hs. by rewrite !length_fmap in Hs.
Qed.

Lemma recomputed_analysed s s1 s2 : graph_ok s -> forward_analysis s = Ok (tt, s1) ->
  same_tree_bool (pool s1) (pool s2) = true -> forward_order s2 = forward_order s1 ->
  entry_block s2 = entry_block s ->
  forward_graph (pool s2) (entry_block s2) (forward_order s2) /\
  idom_tree (pool s2) (entry_block s2) (forward_order s2) (fun x => x ∈ forward_order s2).
Proof.
  intros Hok E Hst -> ->. destruct (forward_analysis_analysed _ _ _ Hok E) as (T & HT & _).
  pose proof (same_tree_by_computation _ _ (fun x => x ∈ forward_order s1) Hst) as H. split.
  - eapply forward_graph_shape; [apply H|]. apply (tr_graph _ _ _ T).
  - by eapply idom_tree_frame.
Qed.

(** SSA form, by computation. *)
Definition term_ids (n : CFGNode) : list Z :=
  let t := terminator (ir n) in
  match term_type t with
  | TCondition | TSwitch => [conditional_id t]
  | TReturn => [return_value t]
  | _ => []
  end.

Definition dominates_bool (s : Passes) (a b : nodref) : bool :=
  match dominates (nodes s) a b with Ok d => d | _ => false end.

(** Every operation that makes [id] satisfies [P], given its block. *)
Definition defs_satisfy (s : Passes) (id : Z) (P : nodref -> opref -> bool) : bool :=
  forallb (fun r' => forallb (fun d => (id =? 0) || negb (idf s d =? id) || P r' d) (ops_at s r'))
    (forward_order (cfg s)).

Definition ssa_bool (s : Passes) : bool :=
  let l := forward_order (cfg s) in
  bool_decide (NoDup (filter (fun id => id <> 0) (idf s <$> (l ≫= ops_at s)))) &&
  forallb (fun r =>
    forallb (fun i => match ops_at s r !! i with
      | Some u => forallb (fun id => defs_satisfy s id (fun r' d =>
          if decide (r' = r) then bool_decide (d ∈ take i (ops_at s r)) else dominates_bool s r' r)) (argf s u)
      | None => true
      end) (seq 0 (length (ops_at s r))) &&
    match nodes s !! r with
    | Some n =>
        forallb (fun id => defs_satisfy s id (fun r' _ => dominates_bool s r' r)) (term_ids n) &&
        forallb (fun f => forallb (fun v => match incoming_block v with
          | Some q => bool_decide (q ∈ l) && defs_satisfy s (incoming_id v) (fun r' _ => dominates_bool s r' q)
          | None => true
          end) (phi_incoming f)) (phi (ir n))
    | None => true
    end) l.

Lemma forallb_elem {A} (f : A -> bool) l x : forallb f l = true -> x ∈ l -> f x = true.
Proof. rewrite forallb_forall. intros H Hx%list_elem_of_In. auto. Qed.

Lemma defs_satisfy_spec s id P r d : defs_satisfy s id P = true -> r ∈ forward_order (cfg s) ->
  d ∈ ops_at s r -> id = idf s d -> idf s d <> 0 -> P r d = true.
Proof.
  intros H Hr Hd -> H0. pose proof (forallb_elem _ _ _ (forallb_elem _ _ _ H Hr) Hd) as HP. simpl in HP.
  apply orb_true_iff in HP as [HP|HP]; [|done]. rewrite Z.eqb_refl, orb_false_r in HP.
  by apply Z.eqb_eq in HP.
Qed.

Lemma ssa_by_computation s :
  forward_graph (nodes s) (entry_block (cfg s)) (forward_order (cfg s)) ->
  idom_tree (nodes s) (entry_block (cfg s)) (forward_order (cfg s)) (fun x => x ∈ forward_order (cfg s)) ->
  ssa_bool s = true -> ssa s.
Proof.
  intros G T [Hnd%bool_decide_eq_true H]%andb_true_iff.
  assert (forall a b, b ∈ forward_order (cfg s) -> dominates_bool s a b = true ->
    on_every_path (nodes s) (entry_block (cfg s)) a b) as HD.
  { intros a b Hb Hab. destruct (dominates_correct _ _ _ a b G T Hb) as (v & Ev & Hv).
    unfold dominates_bool in Hab. rewrite Ev in Hab. by apply Hv. }
  split; [done|..]; intros r; [intros pre u post d r' Hr|intros n d r' Hr|intros n f v q d r' Hr];
    pose proof (forallb_elem _ _ _ H Hr) as [Hops Hn]%andb_true_iff.
  - intros E Ha H0 Hr' Hd.
    pose proof (forallb_elem _ _ (length pre) Hops) as Hi. cbn beta in Hi.
    rewrite E, list_lookup_middle, take_app_length in Hi by done.
    assert (length pre ∈ seq 0 (length (pre ++ u :: post))) as Hin
      by (apply elem_of_seq; rewrite length_app; simpl; lia).
    pose proof (defs_satisfy_spec _ _ _ _ _ (forallb_elem _ _ _ (Hi Hin) Ha) Hr' Hd eq_refl H0) as HP. simpl in HP.
    case_decide; [by apply bool_decide_eq_true in HP|by apply HD].
  - intros En Ht H0 Hr' Hd. rewrite En in Hn. apply andb_true_iff in Hn as [Hn _]. apply HD; [done|].
    apply (defs_satisfy_spec s (idf s d) (fun r' _ => dominates_bool s r' r) r' d); [|done..]. apply (forallb_elem _ _ _ Hn). unfold term_uses in Ht. unfold term_ids.
    destruct (term_type _); try done; rewrite Ht; left.
  - intros En Hf Hv Hq Ev H0 Hr' Hd. rewrite En in Hn. apply andb_true_iff in Hn as [_ Hn].
    pose proof (forallb_elem _ _ _ (forallb_elem _ _ _ Hn Hf) Hv) as HP. simpl in HP. rewrite Hq in HP.
    apply andb_true_iff in HP as [Hql%bool_decide_eq_true HP]. apply HD; [done|].
    by apply (defs_satisfy_spec s (incoming_id v) (fun r' _ => dominates_bool s r' q) r' d).
Qed.

(** A branch around a block: the first block computes two values; one is used in block 1, the
    other in blocks 1 and 2. *)
Definition sample_branch : Passes :=
  sample_passes [[1; 2]; [2]; []]%nat
    [[(OpCopyObject, 10, 1, SinkableBit, [3]); (OpIsNan, 11, 1, SinkableBit, [10]); (OpCopyObject, 12, 1, SinkableBit, [3])];
     [(OpStore, 0, 0, 0, [5; 11]); (OpStore, 0, 0, 0, [5; 12])];
     [(OpStore, 0, 0, 0, [6; 12])]].

Example sink_ssa_constructs_example :
  match sink_ssa_constructs sample_branch with
  | Ok (_, s') => (fun n => operations (ir n)) <$> nodes s'
  | _ => []
  end = [[2]; [0; 1; 3; 4]; [5]; []]%nat.
Proof. vm_compute. reflexivity. Qed.

Lemma sample_branch_ok :
  forward_graph (nodes sample_branch) (entry_block (cfg sample_branch)) (forward_order (cfg sample_branch)) /\
  idom_tree (nodes sample_branch) (entry_block (cfg sample_branch)) (forward_order (cfg sample_branch))
    (fun x => x ∈ forward_order (cfg sample_branch)).
Proof.
  apply (recomputed_analysed (sample_cfg [[1; 2]; [2]; []]%nat)
    (run_on forward_analysis (sample_cfg [[1; 2]; [2]; []]%nat))).
  - split; [|vm_compute; done]. apply edges_mirrored_ok; [vm_compute; reflexivity|vm_compute; lia].
  - vm_compute. reflexivity.
  - vm_compute. reflexivity.
  - vm_compute. reflexivity.
  - vm_compute. reflexivity.
Qed.

(** A property of all pairs of visited blocks, by computation. *)
Lemma post_dominates_by_computation s :
  forallb (fun a => forallb (fun b => match post_dominates (nodes s) a b with Ok _ => true | _ => false end)
    (forward_order (cfg s))) (forward_order (cfg s)) = true ->
  forall a b, a ∈ forward_order (cfg s) -> b ∈ forward_order (cfg s) ->
    exists v, post_dominates (nodes s) a b = Ok v.
Proof.
  intros H a b Ha Hb. pose proof (forallb_elem _ _ _ (forallb_elem _ _ _ H Ha) Hb) as Hab. simpl in Hab.
  destruct (post_dominates _ a b) as [v| |]; [by exists v|done..].
Qed.

Lemma sink_ssa_constructs_correct_witness :
  ssa sample_branch /\
  runs sink_ssa_constructs sample_branch (fun _ s' =>
    ssa s' /\ forward_order (cfg sample_branch) ≫= ops_at s' ≡ₚ
              forward_order (cfg sample_branch) ≫= ops_at sample_branch /\
    (forall r, r ∈ forward_order (cfg sample_branch) ->
       filter (fun o => movable sample_branch o = false) (ops_at s' r) =
       filter (fun o => movable sample_branch o = false) (ops_at sample_branch r)) /\
    same_ops (ops_of sample_branch) (ops_of s') /\
    (forall r, nodes s' !! r = set_operations (ops_at s' r) <$> nodes sample_branch !! r) /\
    exists p l, s' = with_ops l (with_nodes p sample_branch)).
Proof.
  assert (ssa sample_branch) as H.
  { apply ssa_by_computation; [apply sample_branch_ok|apply sample_branch_ok|vm_compute; reflexivity]. }
  split; [exact H|].
  apply sink_ssa_constructs_correct; [apply sample_branch_ok|apply sample_branch_ok| | |exact H].
  - apply post_dominates_by_computation. vm_compute. reflexivity.
  - apply ops_ok_by_computation. vm_compute. reflexivity.
Defined.
