(* ===== verification/BuilderView.v ===== *)
(** What the emission of blocks needs to know of the builder: the instructions and the parents
    of the blocks, the functions and the build point.

    A routine is [quiet] when it always completes and changes none of them; the makers of
    types and constants are.  The lemmas [runs_...] say what the other routines do to the
    view; [runs_quiet] and they are all the proofs about emission use of the builder. *)
From S2P Require Import Prelude.
From S2P Require Import SpvBuilder.
From S2P Require Import Instrumentation.
Local Open Scope Z_scope.

Record view := mkView {
  code : list (list Instruction);
  parents : list funcref;
  v_functions : list Function_;
  point : option blockref;
}.

Definition view_of (b : Builder) : view :=
  mkView (instructions <$> blocks b) (parent <$> blocks b) (functions b) (buildPoint b).

(** The steps. *)
Definition append (r : blockref) (i : Instruction) (v : view) : view :=
  mkView (alter (fun c => c ++ [i]) r (code v)) (parents v) (v_functions v) (point v).
Definition at_point (p : blockref) (v : view) : view := mkView (code v) (parents v) (v_functions v) (Some p).
Definition label (id : Z) : Instruction := mkInstruction id 0 OpLabel [].
Definition with_new_block (id : Z) (f : funcref) (v : view) : view :=
  mkView (code v ++ [[label id]]) (parents v ++ [f]) (v_functions v) (point v).
Definition with_block_of (f : funcref) (r : blockref) (v : view) : view :=
  mkView (code v) (parents v)
    (alter (fun x => set_function_blocks (function_blocks x ++ [r]) x) f (v_functions v)) (point v).

Lemma alter_as_insert {A} (f : A -> A) (l : list A) i x : l !! i = Some x -> alter f i l = <[i := f x]> l.
Proof. revert i; induction l as [|a l IH]; intros [|i] H; simplify_eq/=; f_equal; auto. Qed.

Definition quiet {A} (m : BM A) : Prop := forall b, runs m b (fun _ b' => view_of b' = view_of b).

Section quiet.
Context {A B : Type}.

Lemma quiet_ret (a : A) : quiet (mret a).
Proof. intros b. by apply runs_ret. Qed.
Lemma quiet_gets (f : Builder -> A) : quiet (gets f).
Proof. intros b. by apply runs_gets. Qed.
Lemma quiet_modify f : (forall b, view_of (f b) = view_of b) -> quiet (modify f).
Proof. intros H b. by apply runs_modify. Qed.
Lemma quiet_bind (m : BM A) (k : A -> BM B) : quiet m -> (forall a, quiet (k a)) -> quiet (m ≫= k).
Proof.
  intros Hm Hk b. apply runs_bind. eapply runs_mono; [apply Hm|]. intros a b1 H1.
  eapply runs_mono; [apply Hk|]. intros c b2 H2. by rewrite H2.
Qed.
End quiet.

Create HintDb quiet.
#[export] Hint Resolve quiet_ret quiet_gets : quiet.
#[export] Hint Extern 1 (quiet (modify _)) => apply quiet_modify; intros ?; reflexivity : quiet.
#[export] Hint Extern 2 (quiet (_ ≫= _)) => apply quiet_bind; [|intros ?] : quiet.
#[export] Hint Extern 2 (quiet (if ?b then _ else _)) => destruct b : quiet.
#[export] Hint Extern 2 (quiet (match ?b with Some _ => _ | None => _ end)) => destruct b as [[??]|] : quiet.
#[export] Hint Extern 3 (quiet (let _ := _ in _)) => cbv zeta : quiet.

Ltac solve_quiet := unfold find_or_make, makeIntConstant; cbv zeta; auto 20 with quiet.

Lemma quiet_getUniqueId : quiet getUniqueId.
Proof. unfold getUniqueId. solve_quiet. Qed.
#[export] Hint Resolve quiet_getUniqueId : quiet.
Lemma quiet_mapInstruction i : quiet (mapInstruction i).
Proof. unfold mapInstruction. solve_quiet. Qed.
#[export] Hint Resolve quiet_mapInstruction : quiet.
Lemma quiet_addCapability c : quiet (addCapability c).
Proof. unfold addCapability. solve_quiet. Qed.
Lemma quiet_addExtension e : quiet (addExtension e).
Proof. unfold addExtension. solve_quiet. Qed.
Lemma quiet_addDecoration a d n : quiet (addDecoration a d n).
Proof. unfold addDecoration. solve_quiet. Qed.
#[export] Hint Resolve quiet_addCapability quiet_addExtension quiet_addDecoration : quiet.
Lemma quiet_new_global t o l : quiet (new_global t o l).
Proof. unfold new_global. solve_quiet. Qed.
#[export] Hint Resolve quiet_new_global : quiet.
Lemma quiet_new_type o l : quiet (new_type o l).
Proof. unfold new_type. solve_quiet. Qed.
Lemma quiet_new_constant c t o l : quiet (new_constant c t o l).
Proof. unfold new_constant. solve_quiet. Qed.
#[export] Hint Resolve quiet_new_type quiet_new_constant : quiet.
Lemma quiet_makeUintType w : quiet (makeUintType w).
Proof. unfold makeUintType, makeIntegerType. solve_quiet. Qed.
#[export] Hint Resolve quiet_makeUintType : quiet.
Lemma quiet_makeUintConstant u : quiet (makeUintConstant u).
Proof. unfold makeUintConstant. solve_quiet. Qed.
#[export] Hint Resolve quiet_makeUintConstant : quiet.
Lemma quiet_getWorkgroupBarrierSemanticsId : quiet getWorkgroupBarrierSemanticsId.
Proof. unfold getWorkgroupBarrierSemanticsId. solve_quiet. Qed.
#[export] Hint Resolve quiet_getWorkgroupBarrierSemanticsId : quiet.

(** * The other steps *)

Lemma runs_quiet {A} (m : BM A) b v (Q : A -> Builder -> Prop) :
  quiet m -> view_of b = v -> (forall a b', view_of b' = v -> Q a b') -> runs m b Q.
Proof. intros Hm <- HQ. eapply runs_mono; [apply Hm|]. auto. Qed.

Lemma code_lookup b r k : blocks b !! r = Some k -> code (view_of b) !! r = Some (instructions k).
Proof. intros H. simpl. by rewrite list_lookup_fmap, H. Qed.

Lemma block_of_code b r c : code (view_of b) !! r = Some c -> exists k, blocks b !! r = Some k /\ instructions k = c.
Proof. simpl. rewrite list_lookup_fmap. destruct (blocks b !! r) as [k|]; [|done]. intros [= <-]. eauto. Qed.

Lemma runs_block_at b r c (Q : Block -> Builder -> Prop) :
  code (view_of b) !! r = Some c ->
  (forall k, blocks b !! r = Some k -> instructions k = c -> Q k b) -> runs (block_at r) b Q.
Proof.
  intros (k & E & Ek)%block_of_code HQ. unfold block_at. apply runs_bind, runs_gets.
  eapply runs_deref; [exact E|]. by apply HQ.
Qed.

Lemma runs_block_id b r i c (Q : Z -> Builder -> Prop) :
  code (view_of b) !! r = Some (i :: c) -> Q (resultId i) b -> runs (block_id r) b Q.
Proof.
  intros H HQ. unfold block_id. apply runs_bind. eapply runs_block_at; [exact H|]. intros k Ek Hk.
  apply runs_bind. eapply runs_deref; [by rewrite Hk|]. by apply runs_ret.
Qed.

Lemma runs_update_block b r c f (Q : unit -> Builder -> Prop) :
  code (view_of b) !! r = Some c ->
  (forall k, blocks b !! r = Some k -> instructions k = c -> Q tt (set_blocks (<[r := f k]> (blocks b)) b)) ->
  runs (update_block r f) b Q.
Proof.
  intros H HQ. unfold update_block. apply runs_bind. eapply runs_block_at; [exact H|]. intros k Ek Hk.
  apply runs_modify. by apply HQ.
Qed.

(** A change of a block that keeps its instructions and its parent. *)
Lemma view_insert_same b r k k' : blocks b !! r = Some k -> instructions k' = instructions k ->
  parent k' = parent k -> view_of (set_blocks (<[r := k']> (blocks b)) b) = view_of b.
Proof.
  intros E Hi Hp. unfold view_of. simpl. rewrite !list_fmap_insert, Hi, Hp, !list_insert_id; [done| |].
  - by rewrite list_lookup_fmap, E.
  - by rewrite list_lookup_fmap, E.
Qed.

Lemma runs_addInstruction b v r c i (Q : unit -> Builder -> Prop) :
  view_of b = v -> code v !! r = Some c -> (forall b', view_of b' = append r i v -> Q tt b') ->
  runs (addInstruction r i) b Q.
Proof.
  intros Hv H HQ. subst v. unfold addInstruction. apply runs_bind. eapply runs_update_block; [exact H|].
  intros k Ek Hk.
  assert (view_of (set_blocks (<[r := set_instructions (instructions k ++ [i]) k]> (blocks b)) b) =
          append r i (view_of b)) as E.
  { unfold view_of, append. simpl. f_equal.
    - rewrite list_fmap_insert. symmetry. by rewrite (alter_as_insert _ _ _ c H), <- Hk.
    - rewrite list_fmap_insert. simpl. apply list_insert_id. by rewrite list_lookup_fmap, Ek. }
  destruct (resultId i =? 0).
  - apply runs_ret. by apply HQ.
  - eapply runs_quiet; [apply quiet_mapInstruction|exact E|]. intros [] b' H'. by apply HQ.
Qed.

Lemma runs_setBuildPoint b v p (Q : unit -> Builder -> Prop) :
  view_of b = v -> (forall b', view_of b' = at_point p v -> Q tt b') -> runs (setBuildPoint p) b Q.
Proof. intros <- HQ. apply runs_modify. by apply HQ. Qed.

Lemma runs_getBuildPoint b v p (Q : blockref -> Builder -> Prop) :
  view_of b = v -> point v = Some p -> Q p b -> runs getBuildPoint b Q.
Proof. intros <- Hp HQ. unfold getBuildPoint. apply runs_bind, runs_gets. by eapply runs_deref. Qed.

Lemma runs_at_build_point b v p c i (Q : unit -> Builder -> Prop) :
  view_of b = v -> point v = Some p -> code v !! p = Some c ->
  (forall b', view_of b' = append p i v -> Q tt b') -> runs (at_build_point i) b Q.
Proof.
  intros Hv Hp Hc HQ. unfold at_build_point. apply runs_bind. eapply runs_getBuildPoint; [done..|].
  by eapply runs_addInstruction.
Qed.

Lemma runs_addPredecessor b v x y cx cy (Q : unit -> Builder -> Prop) :
  view_of b = v -> code v !! x = Some cx -> code v !! y = Some cy ->
  (forall b', view_of b' = v -> Q tt b') -> runs (addPredecessor x y) b Q.
Proof.
  intros <- Hx Hy HQ. unfold addPredecessor. apply runs_bind. eapply runs_update_block; [exact Hx|].
  intros k Ek Hk.
  pose proof (view_insert_same b x k (set_predecessors (predecessors k ++ [y]) k) Ek eq_refl eq_refl) as E.
  eapply runs_update_block; [by rewrite E|]. intros k' Ek' Hk'. apply HQ.
  rewrite <- E. by eapply view_insert_same.
Qed.

(** [new Block(getUniqueId(), f)] *)
Lemma runs_new_block_in b v f (Q : blockref -> Builder -> Prop) :
  view_of b = v ->
  (forall b', view_of b' = with_new_block (u32 (uniqueId b + 1)) f v ->
     uniqueId b' = u32 (uniqueId b + 1) -> Q (length (code v)) b') ->
  runs (new_block_in f) b Q.
Proof.
  intros <- HQ. unfold new_block_in, getUniqueId, new_Block, mapInstruction.
  repeat (apply runs_bind || apply runs_gets || apply runs_modify || apply runs_ret).
  simpl. replace (length (blocks b)) with (length (code (view_of b))) by (simpl; by rewrite length_fmap).
  apply HQ; [|done]. unfold view_of, with_new_block. simpl. by rewrite !fmap_app.
Qed.

Lemma runs_addBlock b v f r x (Q : unit -> Builder -> Prop) :
  view_of b = v -> v_functions v !! f = Some x ->
  (forall b', view_of b' = with_block_of f r v -> uniqueId b' = uniqueId b -> Q tt b') ->
  runs (addBlock f r) b Q.
Proof.
  intros <- Hf HQ. unfold addBlock, function_at. apply runs_bind, runs_bind, runs_gets.
  eapply runs_deref; [exact Hf|]. apply runs_modify. apply HQ; [|done].
  unfold view_of, with_block_of. simpl. f_equal. simpl in Hf. by rewrite (alter_as_insert _ _ _ _ Hf).
Qed.

(** * Terminators and merges *)

Lemma lookup_append r i v x : code (append r i v) !! x =
  (if decide (x = r) then (fun c => c ++ [i]) <$> code v !! x else code v !! x).
Proof.
  simpl. destruct (decide (x = r)) as [->|Hne]; [by rewrite list_lookup_alter_eq|].
  by rewrite list_lookup_alter_ne.
Qed.

Lemma is_Some_append r i v x : is_Some (code v !! x) -> is_Some (code (append r i v) !! x).
Proof. rewrite lookup_append. destruct (decide (x = r)); [|done]. intros [c ->]. eauto. Qed.

(** The label of a block survives additions to it. *)
Definition labelled (v : view) (r : blockref) (id : Z) : Prop := exists c, code v !! r = Some (label id :: c).

Lemma labelled_append r i v x id : labelled v x id -> labelled (append r i v) x id.
Proof.
  intros [c H]. unfold labelled. rewrite lookup_append. destruct (decide (x = r)); [|by eauto].
  rewrite H. simpl. eauto.
Qed.
Lemma labelled_at_point p v x id : labelled v x id -> labelled (at_point p v) x id.
Proof. done. Qed.
Lemma labelled_with_new_block id' f v x id : labelled v x id -> labelled (with_new_block id' f v) x id.
Proof. intros [c H]. exists c. simpl. by apply lookup_app_l_Some. Qed.
Lemma labelled_with_block_of f r v x id : labelled v x id -> labelled (with_block_of f r v) x id.
Proof. done. Qed.
Lemma labelled_new_block id f v : labelled (with_new_block id f v) (length (code v)) id.
Proof. exists []. simpl. by rewrite lookup_app_r, Nat.sub_diag by done. Qed.
Create HintDb view.
#[export] Hint Resolve labelled_append labelled_at_point labelled_with_new_block labelled_with_block_of
  labelled_new_block : view.

Lemma runs_label b v r id (Q : Z -> Builder -> Prop) :
  view_of b = v -> labelled v r id -> Q id b -> runs (block_id r) b Q.
Proof. intros <- [c Hc] HQ. by eapply runs_block_id. Qed.

Section ends.
Variables (b : Builder) (v : view) (p : blockref) (idp : Z).
Hypotheses (Hv : view_of b = v) (Hp : point v = Some p) (Hl : labelled v p idp).

Lemma runs_createBranch r id (Q : unit -> Builder -> Prop) :
  labelled v r id -> (forall b', view_of b' = append p (mkInstruction 0 0 OpBranch [id]) v -> Q tt b') ->
  runs (createBranch r) b Q.
Proof.
  intros Hr HQ. destruct Hl as [cp Hcp]. unfold createBranch. apply runs_bind.
  eapply runs_label; [done..|]. apply runs_bind. eapply runs_at_build_point; [done..|].
  intros b1 E1. apply runs_bind. eapply runs_getBuildPoint; [exact E1|done|].
  apply (labelled_append p (mkInstruction 0 0 OpBranch [id])) in Hr as [cr Hr].
  destruct (labelled_append p (mkInstruction 0 0 OpBranch [id]) v p idp) as [cp' Hcp']; [by eexists|].
  by eapply runs_addPredecessor.
Qed.

Lemma runs_createConditionalBranch c rt re t e (Q : unit -> Builder -> Prop) :
  labelled v rt t -> labelled v re e ->
  (forall b', view_of b' = append p (mkInstruction 0 0 OpBranchConditional [c; t; e]) v -> Q tt b') ->
  runs (createConditionalBranch c rt re) b Q.
Proof.
  intros Ht He HQ. destruct Hl as [cp Hcp]. unfold createConditionalBranch.
  apply runs_bind. eapply runs_label; [done..|]. apply runs_bind. eapply runs_label; [done|exact He|].
  apply runs_bind. eapply runs_at_build_point; [done..|].
  intros b1 E1. apply runs_bind. eapply runs_getBuildPoint; [exact E1|done|].
  set (i := mkInstruction 0 0 OpBranchConditional [c; t; e]) in *.
  apply (labelled_append p i) in Ht as [ct Ht]. apply (labelled_append p i) in He as [ce He].
  destruct (labelled_append p i v p idp) as [cp' Hcp']; [by eexists|].
  apply runs_bind. eapply runs_addPredecessor; [done..|]. intros b2 E2. by eapply runs_addPredecessor.
Qed.

Lemma runs_createSelectionMerge m id control (Q : unit -> Builder -> Prop) :
  labelled v m id ->
  (forall b', view_of b' = append p (mkInstruction 0 0 OpSelectionMerge [id; control]) v -> Q tt b') ->
  runs (createSelectionMerge m control) b Q.
Proof.
  intros Hm HQ. destruct Hl as [cp Hcp]. apply runs_bind. eapply runs_label; [done..|].
  by eapply runs_at_build_point.
Qed.

Lemma runs_createLoopMerge m c idm idc control (Q : unit -> Builder -> Prop) :
  labelled v m idm -> labelled v c idc ->
  (forall b', view_of b' = append p (mkInstruction 0 0 OpLoopMerge [idm; idc; control]) v -> Q tt b') ->
  runs (createLoopMerge m c control) b Q.
Proof.
  intros Hm Hc HQ. destruct Hl as [cp Hcp]. apply runs_bind. eapply runs_label; [done..|].
  apply runs_bind. eapply runs_label; [done|exact Hc|]. by eapply runs_at_build_point.
Qed.

Lemma runs_createUnreachable (Q : unit -> Builder -> Prop) :
  (forall b', view_of b' = append p (mkInstruction 0 0 OpUnreachable []) v -> Q tt b') ->
  runs createUnreachable b Q.
Proof. intros HQ. destruct Hl as [cp Hcp]. by eapply runs_at_build_point. Qed.

Lemma runs_createUndefined t (Q : Z -> Builder -> Prop) :
  (forall id b', view_of b' = append p (mkInstruction id t OpUndef []) v -> Q id b') ->
  runs (createUndefined t) b Q.
Proof.
  intros HQ. destruct Hl as [cp Hcp]. unfold createUndefined. apply runs_bind.
  eapply runs_quiet; [apply quiet_getUniqueId|exact Hv|]. intros id b1 E1.
  apply runs_bind. eapply runs_at_build_point; [done..|]. intros b2 E2. by apply runs_ret, HQ.
Qed.
End ends.

(** The return of a function, which goes on in a fresh block. *)
Definition return_instruction (ret_val : Z) : Instruction :=
  if ret_val =? 0 then mkInstruction 0 0 OpReturn [] else mkInstruction 0 0 OpReturnValue [ret_val].

Lemma runs_makeReturn b v p idp f x ret_val (Q : unit -> Builder -> Prop) :
  view_of b = v -> point v = Some p -> labelled v p idp -> parents v !! p = Some f ->
  v_functions v !! f = Some x ->
  (forall id b', view_of b' = at_point (length (code v)) (with_block_of f (length (code v))
       (with_new_block id f (append p (return_instruction ret_val) v))) -> Q tt b') ->
  runs (makeReturn false ret_val) b Q.
Proof.
  intros Hv Hp [c Hc] Hpar Hf HQ. unfold makeReturn. apply runs_bind.
  eapply runs_at_build_point; [done..|]. intros b1 E1. fold (return_instruction ret_val) in E1.
  unfold createAndSetNoPredecessorBlock. apply runs_bind.
  unfold getUniqueId. apply runs_bind, runs_gets, runs_bind, runs_modify, runs_ret.
  set (id := u32 (uniqueId b1 + 1)). apply runs_bind. eapply runs_getBuildPoint; [exact E1|done|].
  apply runs_bind. eapply runs_block_at.
  { change (view_of (set_uniqueId id b1)) with (view_of b1). rewrite E1, lookup_append.
    destruct (decide (p = p)); [by rewrite Hc|done]. }
  intros k Ek _. simpl in Ek. assert (parent k = f) as Hk.
  { assert (parents (view_of b1) !! p = Some (parent k)) as H by (simpl; by rewrite list_lookup_fmap, Ek).
    rewrite E1 in H. simpl in H. congruence. }
  apply runs_bind. unfold new_Block, mapInstruction.
  apply runs_bind, runs_gets, runs_bind, runs_modify, runs_bind, runs_modify, runs_ret. simpl.
  assert (length (blocks b1) = length (code v)) as Hlen.
  { transitivity (length (code (view_of b1))); [simpl; by rewrite length_fmap|]. rewrite E1. simpl.
    by rewrite length_alter. }
  rewrite Hlen, Hk. set (b2 := set_idToInstruction _ _).
  assert (view_of b2 = with_new_block id f (view_of b1)) as E2.
  { unfold view_of, with_new_block. simpl. by rewrite !fmap_app. }
  apply runs_bind. eapply runs_update_block.
  { rewrite E2, E1. simpl. rewrite lookup_app_r by (rewrite length_alter; done).
    by rewrite length_alter, Nat.sub_diag. }
  intros k2 Ek2 _. pose proof (view_insert_same b2 _ k2 (set_unreachable true k2) Ek2 eq_refl eq_refl) as E3.
  apply runs_bind. eapply runs_addBlock; [exact E3| |].
  - rewrite E2, E1. exact Hf.
  - intros b4 E4 _. eapply runs_setBuildPoint; [exact E4|]. intros b5 E5. apply (HQ id).
    by rewrite E5, E2, E1.
Qed.
