(* ===== verification/SpvEval.v ===== *)
(** The meaning of straight-line SPIR-V over integers: the instructions that the access checks of
    BDAValidation.v are made of, with the undefined cases of the specification undefined.

    [exec] runs the instructions of a block that was built, [asm] says what a block under
    construction holds, and the lemmas [asm_...] and [running_...] are the symbolic steps for the
    one and for the other. *)
From S2P Require Import Prelude.
From S2P Require Import SpvBuilder.
From S2P Require Import Instrumentation.
From S2P Require Import BuilderView.
Local Open Scope Z_scope.

(** * Values and instructions *)

#[warnings="-register-all"] Inductive value := VInt (v : Z) | VBool (v : bool) | VComposite (l : list value).

Abbreviation environment := (gmap Z value).

(** The width of an integer type. *)
Definition int_width (b : Builder) (type_id : Z) : option Z :=
  i ← getInstruction b type_id;
  if opCode i =? OpTypeInt then operands i !! 0%nat else None.

(** The members of a struct type. *)
Definition struct_members (b : Builder) (type_id : Z) : option (list Z) :=
  i ← getInstruction b type_id;
  if opCode i =? OpTypeStruct then Some (operands i) else None.

(** The literal words of a constant, the low one first. *)
Definition literal (words : list Z) : option Z :=
  match words with
  | [v] => Some v
  | [lo; hi] => Some (lo + 2 ^ 32 * hi)
  | _ => None
  end.

(** Composites are made of constants that are none. *)
Definition scalar_constant (b : Builder) (id : Z) : option value :=
  i ← getInstruction b id;
  if opCode i =? OpConstant then VInt <$> literal (operands i) else None.
Definition constant_value (b : Builder) (id : Z) : option value :=
  i ← getInstruction b id;
  if opCode i =? OpConstantComposite then VComposite <$> mapM (scalar_constant b) (operands i)
  else scalar_constant b id.

Definition value_of (b : Builder) (env : environment) (id : Z) : option value :=
  match env !! id with Some v => Some v | None => constant_value b id end.

(** The integer operations of two operands, for the width [w] of the result. *)
Definition int_op (op w x y : Z) : option Z :=
  if op =? OpIAdd then Some ((x + y) mod 2 ^ w)
  else if op =? OpISub then Some ((x - y) mod 2 ^ w)
  else if op =? OpIMul then Some ((x * y) mod 2 ^ w)
  else if op =? OpBitwiseAnd then Some (Z.land x y)
  else if op =? OpBitwiseOr then Some (Z.lor x y)
  else if op =? OpBitwiseXor then Some (Z.lxor x y)
  else if op =? OpShiftLeftLogical then if y <? w then Some (Z.shiftl x y mod 2 ^ w) else None
  else if op =? OpShiftRightLogical then if y <? w then Some (Z.shiftr x y) else None
  else None.

Definition compare_op (op x y : Z) : option bool :=
  if op =? OpIEqual then Some (x =? y)
  else if op =? OpINotEqual then Some (negb (x =? y))
  else None.

(** [count] bits from the bit [offset] on. *)
Definition extract_bits (w base offset count : Z) : option Z :=
  if offset + count <=? w then Some (Z.shiftr base offset mod 2 ^ count) else None.

Definition bitcast (b : Builder) (type_id : Z) (v : value) : option value :=
  match v with
  | VComposite [VInt lo; VInt hi] =>
      match int_width b type_id with
      | Some 64 => Some (VInt (lo + 2 ^ 32 * hi))
      | _ => None
      end
  | VInt x => Some (VComposite [VInt (x mod 2 ^ 32); VInt (x / 2 ^ 32)])
  | _ => None
  end.

Definition member (v : value) (i : Z) : option value :=
  match v with VComposite l => if 0 <=? i then l !! Z.to_nat i else None | _ => None end.

Section instructions.
Variables (b : Builder) (env : environment) (i : Instruction).

Definition operand (n : nat) : option value := id ← operands i !! n; value_of b env id.
Definition int_operand (n : nat) : option Z :=
  match operand n with Some (VInt v) => Some v | _ => None end.

Definition eval_instruction : option value :=
  let op := opCode i in
  if op =? OpCompositeExtract then
    c ← operand 0; k ← operands i !! 1%nat; member c k
  else if op =? OpVectorExtractDynamic then
    c ← operand 0; k ← int_operand 1; member c k
  else if op =? OpCompositeConstruct then VComposite <$> mapM (value_of b env) (operands i)
  else if op =? OpBitcast then c ← operand 0; bitcast b (typeId i) c
  else if op =? OpIAddCarry then
    l ← struct_members b (typeId i);
    t ← l !! 0%nat;
    w ← int_width b t;
    x ← int_operand 0; y ← int_operand 1;
    Some (VComposite [VInt ((x + y) mod 2 ^ w); VInt ((x + y) / 2 ^ w)])
  else if op =? OpBitFieldUExtract then
    w ← int_width b (typeId i);
    x ← int_operand 0; o ← int_operand 1; c ← int_operand 2;
    VInt <$> extract_bits w x o c
  else if bool_decide (op ∈ [OpIEqual; OpINotEqual]) then
    x ← int_operand 0; y ← int_operand 1;
    VBool <$> compare_op op x y
  else
    w ← int_width b (typeId i);
    x ← int_operand 0; y ← int_operand 1;
    VInt <$> int_op op w x y.
End instructions.

(** The instructions of a block, one after another. *)
Fixpoint exec (b : Builder) (l : list Instruction) (env : environment) : option environment :=
  match l with
  | [] => Some env
  | i :: l' => v ← eval_instruction b env i; exec b l' (<[resultId i := v]> env)
  end.

(** Only the instructions behind the ids matter. *)
Lemma exec_same b b' l env : idToInstruction b' = idToInstruction b -> exec b' l env = exec b l env.
Proof.
  intros E. revert env. induction l as [|i l IH]; intros env; [done|]. simpl.
  assert (eval_instruction b' env i = eval_instruction b env i) as ->.
  { unfold eval_instruction, int_operand, operand, bitcast, value_of, constant_value, scalar_constant,
      struct_members, int_width, getInstruction. by rewrite E. }
  destruct (eval_instruction b env i); [apply IH|done].
Qed.

(** * Symbolic execution

    While a block runs, [l] is the list of the values that were computed and [rest] the
    instructions still to run.  No id is used twice. *)

Definition ids (l : list Instruction) : list Z := resultId <$> l.

Record running (b : Builder) (env : environment) (l : list (Z * value)) (rest : list Instruction) : Prop := {
  rn_facts : forall x, x ∈ l -> env !! x.1 = Some x.2;
  rn_nodup : NoDup (ids rest);
  rn_apart : forall x, x ∈ l -> x.1 ∉ ids rest;
  rn_globals : forall i, i ∈ constantsTypesGlobals b -> env !! resultId i = None /\ resultId i ∉ ids rest;
}.

Lemma running_step b env l i rest v :
  running b env l (i :: rest) -> running b (<[resultId i := v]> env) ((resultId i, v) :: l) rest.
Proof.
  intros [A B C D]. simpl in B. apply list.NoDup_cons in B as [Bi B]. split; [|done| |].
  - intros x [-> |Hx]%elem_of_cons; [simpl; by rewrite lookup_insert_eq|]. rewrite lookup_insert_ne; [by apply A|].
    intros E. apply (C x Hx). rewrite <- E. left.
  - intros x [-> |Hx]%elem_of_cons; [done|]. intros Hr. apply (C x Hx). by right.
  - intros g Hg. destruct (D g Hg) as [Hn Hr]. simpl in Hr. apply not_elem_of_cons in Hr as [Hr Hr'].
    split; [|done]. by rewrite lookup_insert_ne.
Qed.

Lemma running_fact b env l rest id v : running b env l rest -> (id, v) ∈ l -> value_of b env id = Some v.
Proof. intros H Hin. unfold value_of. pose proof (rn_facts _ _ _ _ H _ Hin) as E. simpl in E. by rewrite E. Qed.

(** * What a builder under construction holds *)

(** The words that an integer constant of the width [w] takes. *)
Definition literal_length (w : Z) : nat := if w <=? 32 then 1 else 2.

Record wf_builder (b : Builder) : Prop := {
  wb_types : forall op i, i ∈ group (groupedTypes b) op -> i ∈ constantsTypesGlobals b /\ opCode i = op;
  wb_constants : forall cls i, i ∈ group (groupedConstants b) cls ->
    i ∈ constantsTypesGlobals b /\ (cls = OpTypeVector -> opCode i = OpConstantComposite);
  wb_globals : forall i, i ∈ constantsTypesGlobals b -> getInstruction b (resultId i) = Some i;
  wb_ints : forall i, i ∈ group (groupedConstants b) OpTypeInt -> exists ty w s, ty ∈ constantsTypesGlobals b /\
    resultId ty = typeId i /\ opCode ty = OpTypeInt /\ operands ty = [w; s] /\
    length (operands i) = literal_length w;
}.

(** The ids of the instructions: positive and not above the last one given out. *)
Definition ids_given (u : Z) (l : list Instruction) : Prop := forall i, i ∈ l -> 0 < resultId i <= u.

(** The block [k] held [c0] when the construction began in [b0]; since then it got [body], and at
    most [n] ids were given out.  [known] are globals: id, opcode and operands. *)
Record asm (k : blockref) (c0 : list Instruction) (b0 : Builder)
    (n : Z) (known : list (Z * Z * list Z)) (body : list Instruction) (b : Builder) : Prop := {
  as_wf : wf_builder b;
  as_point : buildPoint b = Some k;
  as_code : code (view_of b) !! k = Some (c0 ++ body);
  as_others : forall r, r <> k -> code (view_of b) !! r = code (view_of b0) !! r;
  as_known : forall x, x ∈ known -> exists i, i ∈ constantsTypesGlobals b /\
    resultId i = x.1.1 /\ opCode i = x.1.2 /\ operands i = x.2;
  as_ids : uniqueId b0 <= uniqueId b <= uniqueId b0 + n;
  as_globals : ids_given (uniqueId b) (constantsTypesGlobals b);
  as_new : forall i, i ∈ constantsTypesGlobals b -> i ∈ constantsTypesGlobals b0 \/ uniqueId b0 < resultId i;
  as_old : forall i, i ∈ constantsTypesGlobals b0 -> i ∈ constantsTypesGlobals b;
  as_body : forall i, i ∈ body -> uniqueId b0 < resultId i <= uniqueId b;
  as_nodup : NoDup (ids body);
  as_fresh : forall i, i ∈ constantsTypesGlobals b -> resultId i ∉ ids body;
}.

(** Before the construction. *)
Record ready_builder (k : blockref) (c0 : list Instruction) (b : Builder) : Prop := {
  rb_wf : wf_builder b;
  rb_point : buildPoint b = Some k;
  rb_code : code (view_of b) !! k = Some c0;
  rb_globals : ids_given (uniqueId b) (constantsTypesGlobals b);
}.

Lemma asm_start k c0 b : ready_builder k c0 b -> asm k c0 b 0 [] [] b.
Proof.
  intros [A B C D]. split; try done; try (intros i Hi; by apply elem_of_nil in Hi).
  - by rewrite app_nil_r.
  - lia.
  - by left.
  - constructor.
  - intros i Hi Hx. by apply elem_of_nil in Hx.
Qed.

(** The values that a block has before: of no id still to come and of no global. *)
Definition environment_ok (b : Builder) (env : environment) : Prop :=
  forall id, is_Some (env !! id) -> id <= uniqueId b /\ (forall i, i ∈ constantsTypesGlobals b -> resultId i <> id).

Definition arguments (env : environment) (args : list (Z * value)) : Prop :=
  forall x, x ∈ args -> env !! x.1 = Some x.2.

Lemma running_start k c0 b n known body b' args env :
  asm k c0 b n known body b' -> environment_ok b env -> arguments env args ->
  running b' env args body.
Proof.
  intros H Henv Hargs. split; [done|apply (as_nodup _ _ _ _ _ _ _ H)| |].
  - intros y Hy Hx. apply list_elem_of_fmap in Hx as (i & E & Hi).
    pose proof (as_body _ _ _ _ _ _ _ H i Hi).
    destruct (Henv y.1) as [Hle _]; [rewrite (Hargs y Hy); eauto|]. lia.
  - intros i Hi. split; [|by eapply as_fresh].
    destruct (env !! resultId i) as [v|] eqn:E; [|done]. destruct (Henv (resultId i)) as [Hle Hne]; [eauto|].
    destruct (as_new _ _ _ _ _ _ _ H i Hi) as [Hg|Hg]; [by destruct (Hne i Hg)|lia].
Qed.

(** The routine leaves code in the block that computes [r] from the arguments. *)
Definition computes (m : BM Z) (k : blockref) (c0 : list Instruction) (b : Builder) (args : list (Z * value))
    (r : value) : Prop :=
  runs m b (fun id b' => exists body, code (view_of b') !! k = Some (c0 ++ body) /\
    forall env, environment_ok b env -> arguments env args ->
      exists env', exec b' body env = Some env' /\ env' !! id = Some r).

Lemma computes_by m k c0 b args r :
  runs m b (fun id b' => exists n known body, asm k c0 b n known body b' /\
    forall env, running b' env args body -> exists env', exec b' body env = Some env' /\ env' !! id = Some r) ->
  computes m k c0 b args r.
Proof.
  intros H. eapply runs_mono; [exact H|]. intros id b' (n & known & body & Hasm & Hex). exists body.
  split; [by eapply as_code|]. intros env Henv Hargs. apply Hex. by eapply running_start.
Qed.

(** ** The instructions *)

Section evaluation.
Variables (b : Builder) (env : environment).

Lemma exec_step l i rest v (P : option environment -> Prop) :
  running b env l (i :: rest) -> eval_instruction b env i = Some v ->
  (forall env', running b env' ((resultId i, v) :: l) rest -> P (exec b rest env')) -> P (exec b (i :: rest) env).
Proof. intros H E HP. simpl. rewrite E. simpl. apply HP. by apply running_step. Qed.

Lemma exec_end l id v : running b env l [] -> (id, v) ∈ l -> exists env', exec b [] env = Some env' /\ env' !! id = Some v.
Proof. intros H Hin. exists env. split; [done|]. exact (rn_facts _ _ _ _ H _ Hin). Qed.

Lemma eval_int_op id t op x y w u v r :
  op ∈ [OpIAdd; OpISub; OpIMul; OpBitwiseAnd; OpBitwiseOr; OpBitwiseXor; OpShiftLeftLogical; OpShiftRightLogical] ->
  int_width b t = Some w -> value_of b env x = Some (VInt u) -> value_of b env y = Some (VInt v) ->
  int_op op w u v = Some r -> eval_instruction b env (mkInstruction id t op [x; y]) = Some (VInt r).
Proof.
  intros Hop Hw Hx Hy Hr. transitivity (VInt <$> int_op op w u v); [|by rewrite Hr].
  unfold eval_instruction, int_operand, operand. simpl. rewrite Hw, Hx, Hy.
  repeat (apply elem_of_cons in Hop as [-> |Hop]; [done|]). by apply elem_of_nil in Hop.
Qed.

Lemma eval_compare id t op x y u v r :
  op ∈ [OpIEqual; OpINotEqual] -> value_of b env x = Some (VInt u) -> value_of b env y = Some (VInt v) ->
  compare_op op u v = Some r -> eval_instruction b env (mkInstruction id t op [x; y]) = Some (VBool r).
Proof.
  intros Hop Hx Hy Hr. transitivity (VBool <$> compare_op op u v); [|by rewrite Hr].
  unfold eval_instruction, int_operand, operand. simpl. rewrite Hx, Hy.
  repeat (apply elem_of_cons in Hop as [-> |Hop]; [done|]). by apply elem_of_nil in Hop.
Qed.

Lemma eval_extract id t c i v r :
  value_of b env c = Some v -> member v i = Some r ->
  eval_instruction b env (mkInstruction id t OpCompositeExtract [c; i]) = Some r.
Proof. intros Hc Hr. unfold eval_instruction, operand. simpl. by rewrite Hc. Qed.

Lemma eval_extract_dynamic id t c i v j r :
  value_of b env c = Some v -> value_of b env i = Some (VInt j) -> member v j = Some r ->
  eval_instruction b env (mkInstruction id t OpVectorExtractDynamic [c; i]) = Some r.
Proof. intros Hc Hi Hr. unfold eval_instruction, int_operand, operand. simpl. by rewrite Hc, Hi. Qed.

Lemma eval_construct2 id t x y u v :
  value_of b env x = Some u -> value_of b env y = Some v ->
  eval_instruction b env (mkInstruction id t OpCompositeConstruct [x; y]) = Some (VComposite [u; v]).
Proof. intros Hx Hy. unfold eval_instruction. simpl. by rewrite Hx, Hy. Qed.

Lemma eval_bitcast id t x v r :
  value_of b env x = Some v -> bitcast b t v = Some r ->
  eval_instruction b env (mkInstruction id t OpBitcast [x]) = Some r.
Proof. intros Hx Hr. unfold eval_instruction, operand. simpl. by rewrite Hx. Qed.

Lemma eval_add_carry id t m l w x y u v :
  struct_members b t = Some (m :: l) -> int_width b m = Some w ->
  value_of b env x = Some (VInt u) -> value_of b env y = Some (VInt v) ->
  eval_instruction b env (mkInstruction id t OpIAddCarry [x; y]) =
    Some (VComposite [VInt ((u + v) mod 2 ^ w); VInt ((u + v) / 2 ^ w)]).
Proof.
  intros Hm Hw Hx Hy. unfold eval_instruction, int_operand, operand. simpl.
  rewrite Hm. simpl. rewrite Hw. simpl. by rewrite Hx, Hy.
Qed.

Lemma eval_bits id t x o c w u off count r :
  int_width b t = Some w -> value_of b env x = Some (VInt u) -> value_of b env o = Some (VInt off) ->
  value_of b env c = Some (VInt count) -> extract_bits w u off count = Some r ->
  eval_instruction b env (mkInstruction id t OpBitFieldUExtract [x; o; c]) = Some (VInt r).
Proof.
  intros Hw Hx Ho Hc Hr. unfold eval_instruction, int_operand, operand. simpl.
  rewrite Hw. simpl. rewrite Hx, Ho, Hc. simpl. by rewrite Hr.
Qed.
End evaluation.

(** * The steps of a construction *)

Section construction.
Variables (k : blockref) (c0 : list Instruction) (b0 : Builder).
Hypothesis Hu0 : 0 <= uniqueId b0.
Abbreviation at_ := (asm k c0 b0) (only parsing).

(** Changes that nothing here depends on. *)
Lemma asm_same n F B b b' : at_ n F B b -> view_of b' = view_of b -> uniqueId b' = uniqueId b ->
  groupedTypes b' = groupedTypes b -> groupedConstants b' = groupedConstants b ->
  constantsTypesGlobals b' = constantsTypesGlobals b -> idToInstruction b' = idToInstruction b -> at_ n F B b'.
Proof.
  intros [[W1 W2 W3 W4] A2 A3 AO A4 A5 A6 A7 A8 A9 A10 A11] Ev Eu Et Ec Eg Ei.
  assert (buildPoint b' = buildPoint b) as Ep by apply (f_equal point Ev).
  split; unfold ids_given in *; rewrite ?Ev, ?Eu, ?Eg, ?Ep; try done.
  split; unfold getInstruction in *; rewrite ?Et, ?Ec, ?Eg, ?Ei; done.
Qed.

Lemma runs_new_global t op ops n F B b (Q : Instruction -> Builder -> Prop) :
  at_ n F B b -> uniqueId b0 + n + 1 < 2 ^ 32 ->
  (forall id b', at_ (n + 1) ((id, op, ops) :: F) B b' -> mkInstruction id t op ops ∈ constantsTypesGlobals b' ->
     groupedTypes b' = groupedTypes b -> groupedConstants b' = groupedConstants b ->
     Q (mkInstruction id t op ops) b') ->
  runs (new_global t op ops) b Q.
Proof.
  intros [[W1 W2 W3 W4] A2 A3 AO A4 A5 A6 A7 A8 A9 A10 A11] Hn HQ.
  assert (u32 (uniqueId b + 1) = uniqueId b + 1) as Hw by (unfold u32, wrap; rewrite Z.mod_small; lia).
  unfold new_global, getUniqueId, mapInstruction.
  repeat (apply runs_bind || apply runs_gets || apply runs_modify || apply runs_ret).
  rewrite Hw. set (i := mkInstruction (uniqueId b + 1) t op ops). apply HQ; [|simpl; apply elem_of_app; right; left|done|done].
  assert (forall j, j ∈ constantsTypesGlobals b ++ [i] -> j ∈ constantsTypesGlobals b \/ j = i) as Hg.
  { intros j [Hj|Hj%list_elem_of_singleton]%elem_of_app; auto. }
  split; simpl; try done.
  - split; simpl.
    + intros o j [Hj ?]%W1. split; [|done]. apply elem_of_app. by left.
    + intros c j [Hj ?]%W2. split; [|done]. apply elem_of_app. by left.
    + unfold getInstruction in *. simpl. intros j [Hj| ->]%Hg; [|by rewrite lookup_insert_eq].
      rewrite lookup_insert_ne; [by apply W3|]. simpl. specialize (A6 j Hj). lia.
    + intros j (ty & w & s & Hty & ?)%W4. exists ty, w, s. split; [apply elem_of_app; by left|done].
  - intros x [-> |Hx]%elem_of_cons.
    + exists i. split; [apply elem_of_app; right; left|done].
    + destruct (A4 x Hx) as (j & Hj & ?). exists j. split; [apply elem_of_app; by left|done].
  - lia.
  - intros j [Hj| ->]%Hg; [specialize (A6 j Hj); lia|simpl; lia].
  - intros j [Hj| ->]%Hg; [by apply A7|right; simpl; lia].
  - intros j Hj%A8. apply elem_of_app. by left.
  - intros j Hj%A9. lia.
  - intros j [Hj| ->]%Hg; [by apply A11|]. intros (x & E & Hx)%list_elem_of_fmap. specialize (A9 x Hx). simpl in E. lia.
Qed.

Lemma elem_of_group (m : gmap Z (list Instruction)) key op i j :
  j ∈ group (<[key := group m key ++ [i]]> m) op -> j ∈ group m op \/ (op = key /\ j = i).
Proof.
  unfold group at 1. destruct (decide (op = key)) as [->|Hne].
  - rewrite lookup_insert_eq. simpl. intros [Hj|Hj%list_elem_of_singleton]%elem_of_app; auto.
  - rewrite lookup_insert_ne by done. auto.
Qed.

Lemma runs_new_type op ops n F B b (Q : Z -> Builder -> Prop) :
  at_ n F B b -> uniqueId b0 + n + 1 < 2 ^ 32 ->
  (forall id b', at_ (n + 1) ((id, op, ops) :: F) B b' -> Q id b') -> runs (new_type op ops) b Q.
Proof.
  intros H Hn HQ. unfold new_type. apply runs_bind. eapply runs_new_global; [exact H|done|].
  intros id b' H' Hin _ _. apply runs_bind, runs_modify, runs_ret. simpl. apply HQ.
  destruct H' as [[W1 W2 W3 W4] A2 A3 AO A4 A5 A6 A7 A8 A9 A10 A11]. split; try done. split; try done.
  simpl. intros o j [Hj|[-> ->]]%elem_of_group; [by apply W1|done].
Qed.

(** An integer constant has the words of its type. *)
Definition constant_ok (F : list (Z * Z * list Z)) (cls t op : Z) (ops : list Z) : Prop :=
  (cls = OpTypeVector -> op = OpConstantComposite) /\
  (cls = OpTypeInt -> exists w s, (t, OpTypeInt, [w; s]) ∈ F /\ length ops = literal_length w).

Lemma runs_new_constant cls t op ops n F B b (Q : Z -> Builder -> Prop) :
  at_ n F B b -> uniqueId b0 + n + 1 < 2 ^ 32 -> constant_ok F cls t op ops ->
  (forall id b', at_ (n + 1) ((id, op, ops) :: F) B b' -> Q id b') -> runs (new_constant cls t op ops) b Q.
Proof.
  intros H Hn [Hvec Hint] HQ. unfold new_constant. apply runs_bind. eapply runs_new_global; [exact H|done|].
  intros id b' H' Hin _ _. apply runs_bind, runs_modify, runs_ret. simpl. apply HQ.
  destruct H' as [[W1 W2 W3 W4] A2 A3 AO A4 A5 A6 A7 A8 A9 A10 A11]. split; try done. split; try done.
  - simpl. intros o j [Hj|[-> ->]]%elem_of_group; [by apply W2|done].
  - simpl. intros j [Hj|[<- ->]]%elem_of_group; [by apply W4|].
    destruct (Hint eq_refl) as (w & s & Hw & Hlen).
    destruct (A4 (t, OpTypeInt, [w; s])) as (ty & Hty & ? & ? & ?); [by right|]. by exists ty, w, s.
Qed.

(** An old global becomes known. *)
Lemma asm_found i n F B b : at_ n F B b -> i ∈ constantsTypesGlobals b ->
  at_ (n + 1) ((resultId i, opCode i, operands i) :: F) B b.
Proof.
  intros [A1 A2 A3 AO A4 A5 A6 A7 A8 A9 A10 A11] Hi. split; try done; [|lia].
  intros x [-> |Hx]%elem_of_cons; [by exists i|by apply A4].
Qed.

Lemma runs_find_or_make op ops n F B b (Q : Z -> Builder -> Prop) :
  at_ n F B b -> uniqueId b0 + n + 1 < 2 ^ 32 ->
  (forall id b', at_ (n + 1) ((id, op, ops) :: F) B b' -> Q id b') -> runs (find_or_make op ops) b Q.
Proof.
  intros H Hn HQ. unfold find_or_make. apply runs_bind, runs_gets.
  destruct (list_find _ _) as [[j i]|] eqn:E; [|by eapply runs_new_type].
  apply list_find_Some in E as (Hj & Hops & _). apply bool_decide_unpack in Hops.
  destruct (wb_types _ (as_wf _ _ _ _ _ _ _ H) op i) as [Hi Hop]; [by eapply list_elem_of_lookup_2|].
  apply runs_ret, HQ. rewrite <- Hop, <- Hops. by apply asm_found.
Qed.

(** A global that the caller knows. *)
Definition has_global (b : Builder) (id op : Z) (ops : list Z) : Prop :=
  exists i, i ∈ constantsTypesGlobals b /\ resultId i = id /\ opCode i = op /\ operands i = ops.

Lemma asm_global n F B b id op ops : at_ n F B b -> has_global b id op ops -> at_ n ((id, op, ops) :: F) B b.
Proof.
  intros [A1 A2 A3 AO A4 A5 A6 A7 A8 A9 A10 A11] Hi. split; try done.
  intros x [-> |Hx]%elem_of_cons; [exact Hi|by apply A4].
Qed.

Lemma runs_addName id name n F B b (Q : unit -> Builder -> Prop) :
  at_ n F B b -> (forall b', at_ n F B b' -> Q tt b') -> runs (addName id name) b Q.
Proof. intros H HQ. apply runs_modify, HQ. by eapply asm_same; [exact H|..]. Qed.

Lemma runs_makeIntegerType w (sign : bool) n F B b (Q : Z -> Builder -> Prop) :
  at_ n F B b -> uniqueId b0 + n + 1 < 2 ^ 32 ->
  (forall id b', at_ (n + 1) ((id, OpTypeInt, [w; if sign then 1 else 0]) :: F) B b' -> Q id b') ->
  runs (makeIntegerType w sign) b Q.
Proof.
  intros H Hn HQ. unfold makeIntegerType. apply runs_bind, runs_gets. cbv zeta.
  destruct (list_find _ _) as [[j i]|] eqn:E.
  - apply list_find_Some in E as (Hj & Hops & _). apply bool_decide_unpack in Hops.
    destruct (wb_types _ (as_wf _ _ _ _ _ _ _ H) OpTypeInt i) as [Hi Hop]; [by eapply list_elem_of_lookup_2|].
    apply runs_ret, HQ. rewrite <- Hop, <- Hops. by apply asm_found.
  - apply runs_bind. eapply runs_new_type; [exact H|done|]. intros id b' H'. apply runs_bind.
    unfold addCapability. repeat case_match; (apply runs_modify || apply runs_ret); apply runs_ret, HQ; [..|done];
      by eapply asm_same; [exact H'|..].
Qed.

Lemma runs_makeUintType w n F B b (Q : Z -> Builder -> Prop) :
  at_ n F B b -> uniqueId b0 + n + 1 < 2 ^ 32 ->
  (forall id b', at_ (n + 1) ((id, OpTypeInt, [w; 0]) :: F) B b' -> Q id b') -> runs (makeUintType w) b Q.
Proof. apply (runs_makeIntegerType w false). Qed.

Lemma runs_makeBoolType n F B b (Q : Z -> Builder -> Prop) :
  at_ n F B b -> uniqueId b0 + n + 1 < 2 ^ 32 ->
  (forall id b', at_ (n + 1) ((id, OpTypeBool, []) :: F) B b' -> Q id b') -> runs makeBoolType b Q.
Proof. apply runs_find_or_make. Qed.

Lemma runs_makeVectorType t w n F B b (Q : Z -> Builder -> Prop) :
  at_ n F B b -> uniqueId b0 + n + 1 < 2 ^ 32 -> 2 <= w <= 4 ->
  (forall id b', at_ (n + 1) ((id, OpTypeVector, [t; w]) :: F) B b' -> Q id b') -> runs (makeVectorType t w) b Q.
Proof.
  intros H Hn Hw HQ. unfold makeVectorType. apply runs_bind, runs_assert; [lia|].
  rewrite (proj2 (Z.eqb_neq w 1)), (proj2 (Z.ltb_ge 4 w)) by lia. apply runs_bind, runs_ret.
  by eapply runs_find_or_make.
Qed.

Lemma runs_makeStructType l name n F B b (Q : Z -> Builder -> Prop) :
  at_ n F B b -> uniqueId b0 + n + 1 < 2 ^ 32 ->
  (forall id b', at_ (n + 1) ((id, OpTypeStruct, l) :: F) B b' -> Q id b') -> runs (makeStructType l name) b Q.
Proof.
  intros H Hn HQ. unfold makeStructType. apply runs_bind. eapply runs_new_type; [exact H|done|].
  intros id b' H'. apply runs_bind, runs_modify, runs_ret, HQ. by eapply asm_same; [exact H'|..].
Qed.

(** A constant that a search may find. *)
Lemma runs_find_constant (P : Instruction -> Prop) `{HP : !forall i, Decision (P i)} cls t op ops n F B b
    (Q : Z -> Builder -> Prop) :
  at_ n F B b -> uniqueId b0 + n + 1 < 2 ^ 32 -> constant_ok F cls t op ops ->
  (forall i, i ∈ group (groupedConstants b) cls -> P i -> opCode i = op /\ operands i = ops) ->
  (forall id b', at_ (n + 1) ((id, op, ops) :: F) B b' -> Q id b') ->
  runs (match list_find P (group (groupedConstants b) cls) with
        | Some (_, i) => if resultId i =? 0 then new_constant cls t op ops else mret (resultId i)
        | None => new_constant cls t op ops
        end) b Q.
Proof.
  intros H Hn Hok Hsearch HQ. destruct (list_find _ _) as [[j i]|] eqn:E; [|by eapply runs_new_constant].
  apply list_find_Some in E as (Hj & Hi & _). apply list_elem_of_lookup_2 in Hj.
  destruct (Hsearch i Hj Hi) as [Hop Hops].
  destruct (wb_constants _ (as_wf _ _ _ _ _ _ _ H) cls i Hj) as [Hg _].
  pose proof (as_globals _ _ _ _ _ _ _ H i Hg). rewrite (proj2 (Z.eqb_neq (resultId i) 0)) by lia.
  apply runs_ret, HQ. rewrite <- Hop, <- Hops. by apply asm_found.
Qed.

(** The length of an old constant of a known type. *)
Lemma asm_constant_length n F B b i w s : at_ n F B b -> i ∈ group (groupedConstants b) OpTypeInt ->
  (typeId i, OpTypeInt, [w; s]) ∈ F -> length (operands i) = literal_length w.
Proof.
  intros H Hi HF. destruct (wb_ints _ (as_wf _ _ _ _ _ _ _ H) i Hi) as (ty & w' & s' & Hty & E & _ & Eo & Hlen).
  destruct (as_known _ _ _ _ _ _ _ H _ HF) as (ty' & Hty' & E' & _ & Eo').
  apply (wb_globals _ (as_wf _ _ _ _ _ _ _ H)) in Hty, Hty'. rewrite E in Hty. rewrite E' in Hty'.
  simpl in *. congruence.
Qed.

Lemma runs_constant32 (sign : bool) v n F B b (Q : Z -> Builder -> Prop) :
  at_ n F B b -> uniqueId b0 + n + 2 < 2 ^ 32 ->
  (forall t id b', at_ (n + 2) ((id, OpConstant, [v]) :: (t, OpTypeInt, [32; if sign then 1 else 0]) :: F) B b' -> Q id b') ->
  runs (t ← makeIntegerType 32 sign; makeIntConstant t v) b Q.
Proof.
  intros H Hn HQ. apply runs_bind. eapply runs_makeIntegerType; [exact H|lia|].
  intros t b1 H1. unfold makeIntConstant. apply runs_bind, runs_gets.
  eapply runs_find_constant; [exact H1|lia| | |].
  - split; [done|]. intros _. exists 32, (if sign then 1 else 0). split; [left|done].
  - intros i Hi (Hop & Ht & Hv). split; [done|].
    assert (length (operands i) = 1%nat) as Hlen.
    { eapply (asm_constant_length _ _ _ _ _ 32 (if sign then 1 else 0)); [exact H1|done|]. rewrite Ht. left. }
    destruct (operands i) as [|x [|? ?]]; simpl in *; congruence.
  - intros id b2 H2. apply (HQ t). by replace (n + 2) with (n + 1 + 1) by lia.
Qed.

Lemma runs_makeUintConstant v n F B b (Q : Z -> Builder -> Prop) :
  at_ n F B b -> uniqueId b0 + n + 2 < 2 ^ 32 ->
  (forall t id b', at_ (n + 2) ((id, OpConstant, [v]) :: (t, OpTypeInt, [32; 0]) :: F) B b' -> Q id b') ->
  runs (makeUintConstant v) b Q.
Proof. apply (runs_constant32 false). Qed.

Lemma runs_makeUint64Constant v n F B b (Q : Z -> Builder -> Prop) :
  at_ n F B b -> uniqueId b0 + n + 2 < 2 ^ 32 ->
  (forall t id b', at_ (n + 2) ((id, OpConstant, [Z.land v 0xFFFFFFFF; Z.shiftr v 32]) ::
     (t, OpTypeInt, [64; 0]) :: F) B b' -> Q id b') ->
  runs (makeUint64Constant v) b Q.
Proof.
  intros H Hn HQ. unfold makeUint64Constant. apply runs_bind. eapply runs_makeUintType; [exact H|lia|].
  intros t b1 H1. unfold makeInt64Constant. cbv zeta. apply runs_bind, runs_gets.
  eapply runs_find_constant; [exact H1|lia| | |].
  - split; [done|]. intros _. exists 64, 0. split; [left|done].
  - intros i Hi (Hop & Ht & Hlo & Hhi). split; [done|].
    assert (length (operands i) = 2%nat) as Hlen.
    { eapply (asm_constant_length _ _ _ _ _ 64 0); [exact H1|done|]. rewrite Ht. left. }
    destruct (operands i) as [|x [|y [|? ?]]]; simpl in *; congruence.
  - intros id b2 H2. apply (HQ t). by replace (n + 2) with (n + 1 + 1) by lia.
Qed.

Lemma runs_makeCompositeConstant t c w l n F B b (Q : Z -> Builder -> Prop) :
  at_ n F B b -> uniqueId b0 + n + 1 < 2 ^ 32 -> (t, OpTypeVector, [c; w]) ∈ F ->
  (forall id b', at_ (n + 1) ((id, OpConstantComposite, l) :: F) B b' -> Q id b') ->
  runs (makeCompositeConstant t l) b Q.
Proof.
  intros H Hn HF HQ. unfold makeCompositeConstant.
  destruct (as_known _ _ _ _ _ _ _ H _ HF) as (i & Hi & Et & Eop & _). simpl in Et, Eop.
  pose proof (as_globals _ _ _ _ _ _ _ H i Hi).
  apply runs_bind, runs_assert; [apply negb_true_iff, Z.eqb_neq; lia|].
  apply runs_bind, runs_gets, runs_bind. eapply (runs_lift _ OpTypeVector).
  { unfold getTypeClass. rewrite <- Et, (wb_globals _ (as_wf _ _ _ _ _ _ _ H) i Hi). simpl. by rewrite Eop. }
  apply runs_bind, runs_assert; [done|].
  eapply runs_find_constant; [exact H|done|done| |exact HQ].
  intros j Hj Hl. split; [|done]. by apply (wb_constants _ (as_wf _ _ _ _ _ _ _ H) _ _ Hj).
Qed.

(** ** Instructions *)

Lemma asm_block n F B b : at_ n F B b -> exists x, blocks b !! k = Some x /\ instructions x = c0 ++ B.
Proof. intros H. by apply block_of_code, (as_code _ _ _ _ _ _ _ H). Qed.

Lemma asm_instruction n F B b j i (Q : Instruction -> Builder -> Prop) :
  at_ n F B b -> B !! j = Some i -> Q i b -> runs (instruction_at (mkInstref k (length c0 + j))) b Q.
Proof.
  intros H Hi HQ. destruct (asm_block _ _ _ _ H) as (x & Ex & Hx). unfold instruction_at, block_at.
  apply runs_bind, runs_bind, runs_gets. eapply runs_deref; [exact Ex|]. simpl. rewrite Hx.
  eapply runs_deref; [|exact HQ]. by rewrite lookup_app_r, Nat.add_comm, Nat.add_sub by lia.
Qed.

Lemma runs_result_of n F B b j i (Q : Z -> Builder -> Prop) :
  at_ n F B b -> B !! j = Some i -> Q (resultId i) b -> runs (result_of (mkInstref k (length c0 + j))) b Q.
Proof. intros H Hi HQ. unfold result_of. apply runs_bind. eapply asm_instruction; [exact H|exact Hi|]. by apply runs_ret. Qed.

Lemma runs_add_op t op n F B b (Q : instref -> Builder -> Prop) :
  at_ n F B b -> uniqueId b0 + n + 1 < 2 ^ 32 ->
  (forall id b', at_ (n + 1) F (B ++ [mkInstruction id t op []]) b' ->
     Q (mkInstref k (length c0 + length B)) b') ->
  runs (add_op t op) b Q.
Proof.
  intros H Hn HQ. destruct (asm_block _ _ _ _ H) as (x & Ex & Hx).
  pose proof H as [[W1 W2 W3 W4] A2 A3 AO A4 A5 A6 A7 A8 A9 A10 A11].
  assert (u32 (uniqueId b + 1) = uniqueId b + 1) as Hw by (unfold u32, wrap; rewrite Z.mod_small; lia).
  unfold add_op, append_instruction, getUniqueId, getBuildPoint, addInstruction, update_block, block_at, mapInstruction.
  repeat (apply runs_bind || apply runs_gets || apply runs_modify || apply runs_ret). rewrite Hw.
  eapply runs_deref; [exact A2|].
  repeat (apply runs_bind || apply runs_gets || apply runs_modify || apply runs_ret || (eapply runs_deref; [exact Ex|])).
  cbn [resultId]. rewrite (proj2 (Z.eqb_neq (uniqueId b + 1) 0)) by lia.
  apply runs_modify, runs_ret. rewrite Hx, length_app. apply (HQ (uniqueId b + 1)).
  set (i := mkInstruction (uniqueId b + 1) t op []).
  split; simpl; try done.
  - split; simpl; try done. unfold getInstruction in *. simpl. intros j Hj. rewrite lookup_insert_ne; [by apply W3|].
    specialize (A6 j Hj). lia.
  - rewrite list_fmap_insert, list_lookup_insert_eq by (rewrite length_fmap; by eapply lookup_lt_Some).
    simpl. by rewrite app_assoc.
  - intros r Hr. rewrite list_fmap_insert, list_lookup_insert_ne by done. by apply AO.
  - lia.
  - intros j Hj. specialize (A6 j Hj). lia.
  - intros j [Hj%A9|Hj%list_elem_of_singleton]%elem_of_app; [lia|]. subst j. simpl. lia.
  - unfold ids. rewrite fmap_app. apply list.NoDup_app. split_and!; [done| |apply list.NoDup_singleton].
    intros y (j & -> & Hj%A9)%list_elem_of_fmap Hy%list_elem_of_singleton. simpl in Hy. lia.
  - intros j Hj. unfold ids. rewrite fmap_app. intros [Hi|Hi%list_elem_of_singleton]%elem_of_app; [by apply (A11 j)|].
    specialize (A6 j Hj). simpl in Hi. lia.
Qed.

Lemma ids_insert (B : list Instruction) j i i' : B !! j = Some i -> resultId i' = resultId i ->
  ids (<[j := i']> B) = ids B.
Proof. intros Hi E. unfold ids. rewrite list_fmap_insert, E. apply list_insert_id. by rewrite list_lookup_fmap, Hi. Qed.

Lemma runs_add_operand n F B b j i v (Q : unit -> Builder -> Prop) :
  at_ n F B b -> B !! j = Some i ->
  (forall b', at_ n F (<[j := mkInstruction (resultId i) (typeId i) (opCode i) (operands i ++ [v])]> B) b' -> Q tt b') ->
  runs (add_operand (mkInstref k (length c0 + j)) v) b Q.
Proof.
  intros H Hi HQ. destruct (asm_block _ _ _ _ H) as (x & Ex & Hx). unfold add_operand.
  apply runs_bind. eapply asm_instruction; [exact H|exact Hi|].
  pose proof H as [[W1 W2 W3 W4] A2 A3 AO A4 A5 A6 A7 A8 A9 A10 A11].
  pose proof (A9 i (list_elem_of_lookup_2 _ _ _ Hi)) as Hid.
  unfold update_block, block_at, mapInstruction.
  repeat (apply runs_bind || apply runs_gets || apply runs_modify || apply runs_ret || (eapply runs_deref; [exact Ex|])).
  cbn [resultId in_block position]. rewrite (proj2 (Z.eqb_neq (resultId i) 0)) by lia. apply runs_modify, HQ.
  set (i' := mkInstruction _ _ _ _).
  assert (ids (<[j := i']> B) = ids B) as Hids by by eapply ids_insert.
  split; simpl; try done.
  - split; simpl; try done. unfold getInstruction in *. simpl. intros y Hy. rewrite lookup_insert_ne; [by apply W3|].
    intros E. apply (A11 y Hy). rewrite <- E. apply list_elem_of_fmap_2. by eapply list_elem_of_lookup_2.
  - rewrite list_fmap_insert, list_lookup_insert_eq by (rewrite length_fmap; by eapply lookup_lt_Some).
    simpl. rewrite Hx, insert_app_r_alt by lia. do 2 f_equal. f_equal. lia.
  - intros r Hr. rewrite list_fmap_insert, list_lookup_insert_ne by done. by apply AO.
  - intros y (m & Hm)%list_elem_of_lookup. destruct (decide (m = j)) as [->|Hne].
    + rewrite list_lookup_insert_eq in Hm by (by eapply lookup_lt_Some). injection Hm as <-. simpl. lia.
    + rewrite list_lookup_insert_ne in Hm by done. by eapply A9, list_elem_of_lookup_2.
  - by rewrite Hids.
  - intros y Hy. rewrite Hids. by apply A11.
Qed.

(** ** What a construction leaves *)

Lemma asm_constant n F B b env l rest id words v :
  at_ n F B b -> running b env l rest -> (id, OpConstant, words) ∈ F -> literal words = Some v ->
  value_of b env id = Some (VInt v).
Proof.
  intros H Hr HF Hv. destruct (as_known _ _ _ _ _ _ _ H _ HF) as (i & Hi & Et & Eop & Eo). simpl in *.
  pose proof (proj1 (rn_globals _ _ _ _ Hr i Hi)) as Hn. rewrite Et in Hn. unfold value_of, constant_value, scalar_constant.
  rewrite Hn, <- Et, (wb_globals _ (as_wf _ _ _ _ _ _ _ H) i Hi). simpl. by rewrite Eop, Eo, Hv.
Qed.

Lemma asm_composite n F B b env l rest id members vs :
  at_ n F B b -> running b env l rest -> (id, OpConstantComposite, members) ∈ F ->
  Forall2 (fun m v => exists words, (m, OpConstant, words) ∈ F /\ literal words = Some v) members vs ->
  value_of b env id = Some (VComposite (VInt <$> vs)).
Proof.
  intros H Hr HF Hm. destruct (as_known _ _ _ _ _ _ _ H _ HF) as (i & Hi & Et & Eop & Eo). simpl in *.
  pose proof (proj1 (rn_globals _ _ _ _ Hr i Hi)) as Hn. rewrite Et in Hn. unfold value_of, constant_value.
  rewrite Hn, <- Et, (wb_globals _ (as_wf _ _ _ _ _ _ _ H) i Hi). simpl. rewrite Eop, Eo. simpl.
  assert (mapM (scalar_constant b) members = Some (VInt <$> vs)) as ->; [|done].
  apply mapM_Some. clear Hi Et Eop Eo Hn HF. induction Hm as [|m v ms vs (words & Hw & Hv) Hm IH]; simpl; constructor; [|done].
  destruct (as_known _ _ _ _ _ _ _ H _ Hw) as (j & Hj & Etj & Eopj & Eoj). simpl in *. unfold scalar_constant.
  rewrite <- Etj, (wb_globals _ (as_wf _ _ _ _ _ _ _ H) j Hj). simpl. by rewrite Eopj, Eoj, Hv.
Qed.

Lemma asm_int_width n F B b t w s : at_ n F B b -> (t, OpTypeInt, [w; s]) ∈ F -> int_width b t = Some w.
Proof.
  intros H HF. destruct (as_known _ _ _ _ _ _ _ H _ HF) as (i & Hi & Et & Eop & Eo). simpl in *.
  unfold int_width. rewrite <- Et, (wb_globals _ (as_wf _ _ _ _ _ _ _ H) i Hi). simpl. by rewrite Eop, Eo.
Qed.

Lemma asm_struct_members n F B b t l : at_ n F B b -> (t, OpTypeStruct, l) ∈ F -> struct_members b t = Some l.
Proof.
  intros H HF. destruct (as_known _ _ _ _ _ _ _ H _ HF) as (i & Hi & Et & Eop & Eo). simpl in *.
  unfold struct_members. rewrite <- Et, (wb_globals _ (as_wf _ _ _ _ _ _ _ H) i Hi). simpl. by rewrite Eop, Eo.
Qed.
End construction.
