(* ===== verification/BDATheorems.v ===== *)
(** The code that the access checks of BDAValidation.v generate computes what it should. *)
From S2P Require Import Prelude.
From S2P Require Import SpvBuilder.
From S2P Require Import Instrumentation.
From S2P Require Import SPIRVModule.
From S2P Require Import BDAValidation.
From S2P Require Import BuilderView.
From S2P Require Import SpvEval.
Local Open Scope Z_scope.

(** * Tactics

    [build H] takes the steps of a construction, where [H] says what was built so far; [run H]
    takes the steps of the code that was built. *)

Lemma runs_add_operands_cons h m l b (Q : unit -> Builder -> Prop) :
  runs m b (fun v b1 => runs (add_operand h v) b1 (fun _ b2 => runs (add_operands h l) b2 Q)) ->
  runs (add_operands h (m :: l)) b Q.
Proof. intros H. unfold add_operands. simpl. by apply runs_bind, runs_bind. Qed.

Lemma runs_add_operands_nil h b (Q : unit -> Builder -> Prop) : Q tt b -> runs (add_operands h []) b Q.
Proof. apply runs_ret. Qed.

Ltac with_asm H L := eapply L; try exact H; try lia; try reflexivity.
Ltac next H := let H' := fresh in intros ? H'; cbn [app length] in H'; clear H; rename H' into H.

Ltac in_list := repeat (apply elem_of_cons; first [left; reflexivity | right]).

Ltac build_step H :=
  lazymatch goal with
  | |- runs (createBranch _ ≫= _) _ _ => fail
  | |- runs (_ ≫= _) _ _ => apply runs_bind
  | |- runs (mret _) _ _ => apply runs_ret; cbv iota
  | |- runs (if _ then _ else _) _ _ => cbv iota
  | |- runs (match _ with Some _ => _ | None => _ end) _ _ => cbv iota
  | |- runs (add_operands _ (_ :: _)) _ _ => apply runs_add_operands_cons
  | |- runs (add_operands _ []) _ _ => apply runs_add_operands_nil
  | |- runs (add_operand _ _) _ _ => with_asm H runs_add_operand; next H; cbn [insert list_insert app resultId typeId opCode operands] in H
  | |- runs (result_of _) _ _ => with_asm H runs_result_of; cbn [resultId]
  | |- runs (add_op _ _) _ _ => with_asm H runs_add_op; intros ?; next H; cbn [app length]
  | |- runs (makeUintType _) _ _ => with_asm H runs_makeUintType; intros ?; next H
  | |- runs makeBoolType _ _ => with_asm H runs_makeBoolType; intros ?; next H
  | |- runs (makeVectorType _ _) _ _ => with_asm H runs_makeVectorType; intros ?; next H
  | |- runs (makeStructType _ _) _ _ => with_asm H runs_makeStructType; intros ?; next H
  | |- runs (makeUintConstant _) _ _ => with_asm H runs_makeUintConstant; intros ? ?; next H
  | |- runs (mapM_list _ _) _ _ => cbn [mapM_list invalidation_masks]
  | |- runs (addName _ _) _ _ => with_asm H runs_addName; next H
  | |- runs (makeCompositeConstant _ _) _ _ => with_asm H runs_makeCompositeConstant; [in_list|intros ?; next H]
  | |- runs (makeUint64Constant _) _ _ => with_asm H runs_makeUint64Constant; intros ? ?; next H
  end.

Lemma int_op_shl w u v : v < w -> int_op OpShiftLeftLogical w u v = Some (Z.shiftl u v mod 2 ^ w).
Proof. intros H. unfold int_op. simpl. by rewrite (proj2 (Z.ltb_lt v w)). Qed.
Lemma int_op_shr w u v : v < w -> int_op OpShiftRightLogical w u v = Some (Z.shiftr u v).
Proof. intros H. unfold int_op. simpl. by rewrite (proj2 (Z.ltb_lt v w)). Qed.
Lemma extract_bits_in w u off count : off + count <= w ->
  extract_bits w u off count = Some (Z.shiftr u off mod 2 ^ count).
Proof. intros H. unfold extract_bits. by rewrite (proj2 (Z.leb_le _ w)). Qed.

Ltac solve_op := first [reflexivity | apply int_op_shl | apply int_op_shr | apply extract_bits_in]; try lia.


Ltac solve_value H R :=
  first [ eapply running_fact; [exact R|solve [in_list]]
        | eapply asm_constant; [exact H|exact R|solve [in_list]|reflexivity]
        | eapply asm_composite; [exact H|exact R|solve [in_list]|];
          repeat (apply List.Forall2_cons; [eexists; split; [solve [in_list]|reflexivity]|]); apply List.Forall2_nil ].

Ltac solve_width H := eapply asm_int_width; [exact H|in_list].

Ltac eval_step H R :=
  lazymatch goal with
  | |- eval_instruction _ _ (mkInstruction _ _ ?op _) = _ =>
      lazymatch op with
      | OpCompositeExtract => eapply eval_extract; [solve_value H R|reflexivity]
      | OpVectorExtractDynamic => eapply eval_extract_dynamic; [solve_value H R|solve_value H R|]
      | OpCompositeConstruct => eapply eval_construct2; solve_value H R
      | OpBitcast => eapply eval_bitcast; [solve_value H R|unfold bitcast; erewrite asm_int_width by (try exact H; in_list); reflexivity]
      | OpIAddCarry => eapply eval_add_carry; [eapply asm_struct_members; [exact H|in_list]|solve_width H|solve_value H R|solve_value H R]
      | OpBitFieldUExtract => eapply eval_bits; [solve_width H|solve_value H R..|solve_op]
      | OpIEqual => eapply eval_compare; [in_list|solve_value H R|solve_value H R|reflexivity]
      | OpINotEqual => eapply eval_compare; [in_list|solve_value H R|solve_value H R|reflexivity]
      | _ => eapply eval_int_op; [in_list|solve_width H|solve_value H R|solve_value H R|solve_op]
      end
  end.

Ltac run_step H R :=
  lazymatch goal with
  | |- exists env', exec _ (_ :: _) _ = Some env' /\ env' !! ?id = ?v =>
      eapply (exec_step _ _ _ _ _ _ (fun o => exists env', o = Some env' /\ env' !! id = v));
        [exact R|eval_step H R|];
        [.. | let R' := fresh in intros ? R'; cbn [resultId] in R'; clear R; rename R' into R]
  end.

(** * Masks by their bits *)

(** The number whose bits are [f]. *)
Definition mask_of (f : Z -> bool) (m : Z) : Prop := 0 <= m /\ forall j, 0 <= j -> Z.testbit m j = f j.

Lemma mask_of_unique f m m' : mask_of f m -> mask_of f m' -> m = m'.
Proof. intros [_ H] [_ H']. apply Z.bits_inj_iff'. intros j Hj. by rewrite H, H'. Qed.

Lemma mask_of_ext f g m : mask_of f m -> (forall j, 0 <= j -> f j = g j) -> mask_of g m.
Proof. intros [H0 H] E. split; [done|]. intros j Hj. by rewrite H, E. Qed.

Lemma mask_of_ones n : 0 <= n -> mask_of (fun j => j <? n) (Z.ones n).
Proof.
  intros Hn. split; [rewrite Z.ones_equiv; lia|]. intros j Hj. rewrite Z.testbit_ones by lia.
  by rewrite (proj2 (Z.leb_le 0 j)).
Qed.

Lemma mask_of_land f g m n : mask_of f m -> mask_of g n -> mask_of (fun j => f j && g j) (Z.land m n).
Proof. intros [? H] [? G]. split; [apply Z.land_nonneg; lia|]. intros j Hj. by rewrite Z.land_spec, H, G. Qed.

Lemma mask_of_lor f g m n : mask_of f m -> mask_of g n -> mask_of (fun j => f j || g j) (Z.lor m n).
Proof. intros [? H] [? G]. split; [apply Z.lor_nonneg; lia|]. intros j Hj. by rewrite Z.lor_spec, H, G. Qed.

Lemma mask_of_mod f m w : 0 <= w -> mask_of f m -> mask_of (fun j => (j <? w) && f j) (m mod 2 ^ w).
Proof.
  intros Hw [? H]. split; [apply Z.mod_pos_bound; lia|]. intros j Hj.
  rewrite Z.testbit_mod_pow2 by lia. by rewrite H.
Qed.

Lemma mask_of_shiftl f m s : 0 <= s -> mask_of f m -> mask_of (fun j => (s <=? j) && f (j - s)) (Z.shiftl m s).
Proof.
  intros Hs [? H]. split; [by apply Z.shiftl_nonneg|]. intros j Hj. rewrite Z.shiftl_spec by done.
  destruct (Z.leb_spec s j); [rewrite H by lia; done|]. by rewrite Z.testbit_neg_r by lia.
Qed.

Lemma mask_of_shiftr f m s : 0 <= s -> mask_of f m -> mask_of (fun j => f (j + s)) (Z.shiftr m s).
Proof. intros Hs [? H]. split; [by apply Z.shiftr_nonneg|]. intros j Hj. rewrite Z.shiftr_spec by done. apply H. lia. Qed.

Ltac solve_mask :=
  repeat first [eassumption | apply mask_of_land | apply mask_of_lor | apply mask_of_mod; [lia|]
               | apply mask_of_shiftl; [lia|] | apply mask_of_shiftr; [lia|] | apply mask_of_ones; lia].

Lemma land_15 a : Z.land a 15 = a mod 16.
Proof. change 15 with (Z.ones 4). by rewrite Z.land_ones. Qed.
Lemma land_3 a : Z.land a 3 = a mod 4.
Proof. change 3 with (Z.ones 2). by rewrite Z.land_ones. Qed.

(** * Addresses and masks of granules *)

(** A 64-bit number as the vector of its low and its high word. *)
Definition words64 (n : Z) : value := VComposite [VInt (n mod 2 ^ 32); VInt (n / 2 ^ 32)].

Section routines.
Variables (k : blockref) (c0 : list Instruction) (b : Builder).
Hypothesis Hb : ready_builder k c0 b.
Hypothesis Hu : 0 <= uniqueId b /\ uniqueId b + 100 < 2 ^ 32.

(** C17. The generated addition computes the 64-bit sum of an address, given by its words, and a
    32-bit offset; it wraps around. *)
Theorem build_u64_add_u32_correct a x lo hi v : 0 <= lo < 2 ^ 32 -> 0 <= hi < 2 ^ 32 -> 0 <= v < 2 ^ 32 ->
  computes (build_u64_add_u32 a x) k c0 b [(a, VComposite [VInt lo; VInt hi]); (x, VInt v)]
    (words64 ((lo + 2 ^ 32 * hi + v) mod 2 ^ 64)).
Proof.
  intros Hlo Hhi Hv. apply computes_by. pose proof (asm_start _ _ _ Hb) as H. unfold build_u64_add_u32.
  repeat build_step H. do 3 eexists. split; [exact H|]. intros env R. repeat run_step H R.
  replace (words64 _) with (VComposite [VInt ((lo + v) mod 2 ^ 32); VInt ((hi + (lo + v) / 2 ^ 32) mod 2 ^ 32)]).
  - eapply exec_end; [exact R|in_list].
  - unfold words64. f_equal. f_equal; [|f_equal]; f_equal; Z.to_euclidean_division_equations; lia.
Qed.

(** An access to [n] bytes from the address [a] on touches byte [j] of the address's granule of 16 bytes. *)
Definition touches_byte (a n j : Z) : bool := (j <? 16) && (a mod 16 <=? j) && (j <? a mod 16 + n).

(** It touches a byte of the word [j]. *)
Definition touches_word (a n j : Z) : bool := (j <? 4) && existsb (fun x => touches_byte a n (4 * j + x)) [0; 1; 2; 3].

Lemma computes_byte_mask addr count a n : 0 <= a < 2 ^ 32 -> 0 <= n <= 32 ->
  exists m, mask_of (touches_byte a n) m /\
    computes (build_byte_mask addr count) k c0 b [(addr, VInt a); (count, VInt n)] (VInt m).
Proof.
  intros Ha Hn. eexists. split; cycle 1.
  - apply computes_by. pose proof (asm_start _ _ _ Hb) as H. unfold build_byte_mask.
    repeat build_step H. do 3 eexists. split; [exact H|]. intros env R. repeat run_step H R.
    + rewrite land_15. pose proof (Z.mod_pos_bound a 16). lia.
    + eapply exec_end; [exact R|in_list].
  - change 0xffffffff with (Z.ones 32). change 0xffff with (Z.ones 16). rewrite land_15.
    pose proof (Z.mod_pos_bound a 16 ltac:(lia)) as Hmod.
    eapply mask_of_ext; [solve_mask|].
    intros j Hj. unfold touches_byte. lia.
Qed.

Lemma words_count a n : 0 < n <= 32 ->
  Z.shiftr (((Z.land a 3 + n) mod 2 ^ 32 + 3) mod 2 ^ 32) 2 = (a mod 4 + n + 3) / 4.
Proof.
  intros Hn. pose proof (Z.mod_pos_bound a 4 ltac:(lia)). rewrite land_3, Z.shiftr_div_pow2 by lia.
  rewrite (Z.mod_small (a mod 4 + n)), (Z.mod_small (a mod 4 + n + 3)) by lia. done.
Qed.

Lemma computes_word_mask addr count a n : 0 <= a < 2 ^ 32 -> 0 < n <= 32 ->
  exists m, mask_of (touches_word a n) m /\
    computes (build_word_mask addr count) k c0 b [(addr, VInt a); (count, VInt n)] (VInt m).
Proof.
  intros Ha Hn. pose proof (Z.mod_pos_bound a 4 ltac:(lia)) as Hmod. eexists. split; cycle 1.
  - apply computes_by. pose proof (asm_start _ _ _ Hb) as H. unfold build_word_mask.
    repeat build_step H. do 3 eexists. split; [exact H|]. intros env R. repeat run_step H R.
    + rewrite words_count by lia. Z.to_euclidean_division_equations; lia.
    + pose proof (Z.mod_pos_bound (Z.shiftr a 2) (2 ^ 2)). lia.
    + eapply exec_end; [exact R|in_list].
  - rewrite words_count by lia. change 0xffffffff with (Z.ones 32). change 0xf with (Z.ones 4).
    change (2 ^ 2) with 4. rewrite (Z.shiftr_div_pow2 a 2) by lia. change (2 ^ 2) with 4.
    pose proof (Z.mod_pos_bound (a / 4) 4 ltac:(lia)) as Hword.
    assert (0 <= (a mod 4 + n + 3) / 4) as Hcount by (apply Z.div_pos; lia).
    eapply mask_of_ext; [solve_mask|].
    intros j Hj. unfold touches_word, touches_byte. simpl existsb. Z.to_euclidean_division_equations. lia.
Qed.

(** C16. The generated masks of an access have exactly the bits of the bytes and of the 32-bit words
    of its granule that the access touches. *)
Theorem access_masks_correct addr count a n : 0 <= a < 2 ^ 32 -> 0 < n <= 32 ->
  exists B W, mask_of (touches_byte a n) B /\ mask_of (touches_word a n) W /\
    computes (build_byte_mask addr count) k c0 b [(addr, VInt a); (count, VInt n)] (VInt B) /\
    computes (build_word_mask addr count) k c0 b [(addr, VInt a); (count, VInt n)] (VInt W).
Proof.
  intros Ha Hn. destruct (computes_byte_mask addr count a n Ha) as (B & HB & HcB); [lia|].
  destruct (computes_word_mask addr count a n Ha Hn) as (W & HW & HcW). by exists B, W.
Qed.

Lemma computes_exclusive hazard mask h m : 0 <= h < 2 ^ 32 -> 0 <= m < 2 ^ 32 ->
  computes (build_takes_exclusive_ownership hazard mask) k c0 b [(hazard, VInt h); (mask, VInt m)]
    (VBool (Z.land (Z.shiftr h 16) m =? 0)).
Proof.
  intros Hh Hm. apply computes_by. pose proof (asm_start _ _ _ Hb) as H. unfold build_takes_exclusive_ownership.
  repeat build_step H. do 3 eexists. split; [exact H|]. intros env R. repeat run_step H R.
  eapply exec_end; [exact R|in_list].
Qed.

Lemma member_table l op : 0 <= op < zlength l ->
  member (VComposite (VInt <$> l)) op = Some (VInt (nth (Z.to_nat op) l 0)).
Proof.
  unfold zlength. intros Hop. simpl. rewrite (proj2 (Z.leb_le 0 op)), list_lookup_fmap by lia.
  destruct (nth_lookup_or_length l (Z.to_nat op) 0) as [->|]; [done|lia].
Qed.

(** What an access sets in the word of its granule. *)
Definition invalidation (op B W : Z) : Z :=
  Z.land (nth (Z.to_nat op) invalidation_masks 0)
    (Z.lor B (Z.shiftl B 16 mod 2 ^ 32) + 2 ^ 32 * Z.lor W (Z.shiftl W 4 mod 2 ^ 32)).

Lemma computes_invalidation_mask id byte_mask word_mask op B W : 0 <= op <= 3 ->
  computes (build_get_invalidation_mask id byte_mask word_mask) k c0 b
    [(id, VInt op); (byte_mask, VInt B); (word_mask, VInt W)] (VInt (invalidation op B W)).
Proof.
  intros Hop. apply computes_by. pose proof (asm_start _ _ _ Hb) as H. unfold build_get_invalidation_mask.
  repeat build_step H. do 3 eexists. split; [exact H|]. intros env R.
  repeat run_step H R; [apply (member_table [_; _; _; _]); unfold zlength; simpl; lia|].
  eapply exec_end; [exact R|in_list].
Qed.
End routines.

(** * The hazard of an access *)

Lemma runs_triple {S A} (m : M S A) s (P : S -> Prop) (Q R : A -> S -> Prop) :
  runs m s Q -> P s -> triple P m R -> runs m s (fun a s' => Q a s' /\ R a s').
Proof. intros (a & s' & E & HQ) HP HR. exists a, s'. split; [done|]. split; [done|]. by eapply HR. Qed.

(** A branch has no id, so it keeps the map of ids. *)
Section keeps.
Variable m : gmap Z Instruction.
Abbreviation keeps x := (triple (fun b => idToInstruction b = m) x (fun _ b => idToInstruction b = m)) (only parsing).

Lemma keeps_bind {A B} (x : BM A) (f : A -> BM B) : keeps x -> (forall a, keeps (f a)) -> keeps (x ≫= f).
Proof. intros Hx Hf. by eapply triple_bind. Qed.

Lemma keeps_update_block r f : keeps (update_block r f).
Proof.
  apply keeps_bind; [apply keeps_bind|]; intros; by triple_step.
Qed.

Lemma createBranch_ids r : keeps (createBranch r).
Proof.
  unfold createBranch, block_id, at_build_point, getBuildPoint, addPredecessor, addInstruction, block_at.
  repeat (apply keeps_bind; intros); try apply keeps_update_block; simpl; by triple_step.
Qed.
End keeps.

Section hazards.
Variables (segment merge : blockref) (c0 : list Instruction) (b : Builder) (uint_type bool_type merge_id : Z).
Hypothesis Hwf : wf_builder b.
Hypothesis Hcode : code (view_of b) !! segment = Some c0.
Hypothesis Hlabel : exists id c, c0 = label id :: c.
Hypothesis Hmerge : labelled (view_of b) merge merge_id.
Hypothesis Hglobals : ids_given (uniqueId b) (constantsTypesGlobals b).
Hypothesis Hu : 0 <= uniqueId b /\ uniqueId b + 100 < 2 ^ 32.
Hypothesis Huint : has_global b uint_type OpTypeInt [32; 0].

Hypothesis Hne : merge <> segment.

(** The code before the branch at the end of a segment. *)
Definition segment_computes (m : BM Z) (args : list (Z * value)) (r : value) : Prop :=
  runs m b (fun id b' =>
    exists body, code (view_of b') !! segment = Some (c0 ++ body ++ [mkInstruction 0 0 OpBranch [merge_id]]) /\
      forall env, environment_ok b env -> arguments env args ->
        exists env', exec b' body env = Some env' /\ env' !! id = Some r).

Lemma segment_ready : ready_builder segment c0 (set_buildPoint (Some segment) b).
Proof. split; try done. destruct Hwf. by split. Qed.

Lemma segment_labelled n F B b1 : asm segment c0 (set_buildPoint (Some segment) b) n F B b1 ->
  exists id, labelled (view_of b1) segment id.
Proof.
  intros H. destruct Hlabel as (id & c & E). exists id, (c ++ B). rewrite (as_code _ _ _ _ _ _ _ H), E. done.
Qed.

Lemma runs_finish_segment n F B b1 id args r :
  asm segment c0 (set_buildPoint (Some segment) b) n F B b1 ->
  (forall env, running b1 env args B -> exists env', exec b1 B env = Some env' /\ env' !! id = Some r) ->
  runs (_ ← createBranch merge; mret id) b1 (fun id b' =>
    exists body, code (view_of b') !! segment = Some (c0 ++ body ++ [mkInstruction 0 0 OpBranch [merge_id]]) /\
      forall env, environment_ok b env -> arguments env args ->
        exists env', exec b' body env = Some env' /\ env' !! id = Some r).
Proof.
  intros H Hex. destruct (segment_labelled _ _ _ _ H) as [l Hl]. apply runs_bind. eapply runs_mono.
  { eapply (runs_triple _ _ (fun x => idToInstruction x = idToInstruction b1)
      (fun _ x => view_of x = append segment (mkInstruction 0 0 OpBranch [merge_id]) (view_of b1))); [|done|apply createBranch_ids].
    eapply (runs_createBranch b1 _ segment l eq_refl); [apply (as_point _ _ _ _ _ _ _ H)|done| |].
    - destruct Hmerge as [c Hc]. exists c. by rewrite (as_others _ _ _ _ _ _ _ H).
    - by intros b2. }
  intros [] b2 [E2 Eid]. apply runs_ret. exists B. split.
  - rewrite E2, lookup_append, decide_True by done. rewrite (as_code _ _ _ _ _ _ _ H). simpl. by rewrite <- app_assoc.
  - intros env Henv Hargs. rewrite (exec_same b1 b2) by done. apply Hex. by eapply running_start.
Qed.

(** The segment tests the hazard bits of the granule under the shifted mask. *)
Lemma computes_hazard_segment hazard mask shift h m :
  0 <= shift < 32 -> 0 <= m -> Z.shiftl m shift < 2 ^ 32 ->
  segment_computes (build_hazard_segment uint_type bool_type segment merge hazard mask shift)
    [(hazard, VInt h); (mask, VInt m)] (VBool (negb (Z.land h (Z.shiftl m shift) =? 0))).
Proof.
  intros Hshift Hm Hfit. unfold segment_computes, build_hazard_segment. apply runs_bind, runs_modify.
  pose proof (asm_start _ _ _ segment_ready) as H. eapply asm_global in H; [|exact Huint].
  assert (uniqueId (set_buildPoint (Some segment) b) = uniqueId b) as Hid by done.
  destruct (Z.eqb_spec shift 0) as [->|Hs].
  - repeat build_step H. eapply runs_finish_segment; [exact H|]. intros env R. repeat run_step H R.
    rewrite Z.shiftl_0_r. eapply exec_end; [exact R|in_list].
  - repeat build_step H. eapply runs_finish_segment; [exact H|]. intros env R. repeat run_step H R.
    replace (Z.shiftl m shift) with (Z.shiftl m shift mod 2 ^ 32).
    { eapply exec_end; [exact R|in_list]. }
    apply Z.mod_small. split; [by apply Z.shiftl_nonneg|done].
Qed.
End hazards.

(** * When an access is a hazard *)

Lemma mask_of_bits w m : 0 <= w -> 0 <= m < 2 ^ w -> mask_of (fun j => (j <? w) && Z.testbit m j) m.
Proof.
  intros Hw Hm. split; [lia|]. intros j Hj. rewrite <- (Z.mod_small m (2 ^ w)) at 1 by done.
  by apply Z.testbit_mod_pow2.
Qed.

Section halves.
Variables (w x y : Z).
Hypotheses (Hw : 0 <= w) (Hx : 0 <= x < 2 ^ w) (Hy : 0 <= y < 2 ^ w).
Abbreviation both := (Z.lor x (Z.shiftl x w)) (only parsing).
Abbreviation high := (Z.shiftl (Z.ones w) w) (only parsing).

Ltac solve_halves :=
  pose proof (mask_of_bits _ _ Hw Hx); pose proof (mask_of_bits _ _ Hw Hy);
  eapply mask_of_unique; [solve_mask|eapply mask_of_ext; [solve_mask|]]; intros j Hj; cbv beta;
  destruct (Z.testbit y j) eqn:?, (Z.testbit x j) eqn:?, (Z.testbit x (j - w)) eqn:?, (Z.testbit y (j - w)) eqn:?; lia.

Lemma low_half : Z.land both y = Z.land x y.
Proof. solve_halves. Qed.
Lemma high_half : Z.land both (Z.shiftl y w) = Z.shiftl (Z.land x y) w.
Proof. solve_halves. Qed.
Lemma high_of_low_half : Z.land (Z.land high both) y = 0.
Proof.
  rewrite <- Z.land_assoc, low_half.
  eapply (mask_of_unique (fun _ => false)); [|split; [done|intros; apply Z.testbit_0_l]].
  pose proof (mask_of_bits _ _ Hw Hx). pose proof (mask_of_bits _ _ Hw Hy).
  eapply mask_of_ext; [solve_mask|]. intros j Hj. cbv beta.
  destruct (Z.testbit x j), (Z.testbit y j); lia.
Qed.
Lemma high_of_high_half : Z.land (Z.land high both) (Z.shiftl y w) = Z.shiftl (Z.land x y) w.
Proof. rewrite <- Z.land_assoc, high_half. solve_halves. Qed.
Lemma low_of_low_half : Z.land (Z.land (Z.ones w) both) y = Z.land x y.
Proof. rewrite <- Z.land_assoc, low_half. solve_halves. Qed.
Lemma low_of_high_half : Z.land (Z.land (Z.ones w) both) (Z.shiftl y w) = 0.
Proof.
  rewrite <- Z.land_assoc, high_half.
  eapply (mask_of_unique (fun _ => false)); [|split; [done|intros; apply Z.testbit_0_l]].
  pose proof (mask_of_bits _ _ Hw Hx). pose proof (mask_of_bits _ _ Hw Hy).
  eapply mask_of_ext; [solve_mask|]. intros j Hj. cbv beta.
  destruct (Z.testbit x (j - w)), (Z.testbit y (j - w)); lia.
Qed.
Lemma all_of_both : Z.land (Z.ones (w + w)) both = both.
Proof. solve_halves. Qed.
End halves.

Lemma both_bound w x : 0 <= w -> 0 <= x < 2 ^ w -> 0 <= Z.lor x (Z.shiftl x w) < 2 ^ (w + w).
Proof.
  intros Hw Hx. rewrite <- (all_of_both w x x Hw Hx Hx), Z.land_comm, Z.land_ones by lia.
  apply Z.mod_pos_bound. lia.
Qed.

Lemma shiftl_zero a n : 0 <= n -> (Z.shiftl a n =? 0) = (a =? 0).
Proof. intros Hn. apply eq_true_iff_eq. rewrite !Z.eqb_eq. by apply Z.shiftl_eq_0_iff. Qed.

(** The words of the bits under a mask. *)
Lemma land_words t lo hi : 0 <= lo < 2 ^ 32 ->
  Z.land t (lo + 2 ^ 32 * hi) mod 2 ^ 32 = Z.land (t mod 2 ^ 32) lo /\
  Z.land t (lo + 2 ^ 32 * hi) / 2 ^ 32 = Z.land (t / 2 ^ 32) hi.
Proof.
  intros Hlo. assert ((lo + 2 ^ 32 * hi) mod 2 ^ 32 = lo /\ (lo + 2 ^ 32 * hi) / 2 ^ 32 = hi) as [E1 E2].
  { split; Z.to_euclidean_division_equations; lia. }
  split.
  - rewrite <- E1 at 2. rewrite <- !(Z.land_ones _ 32) by done.
    apply Z.bits_inj'. intros j Hj. rewrite !Z.land_spec. by destruct (Z.testbit t j), (Z.testbit (Z.ones 32) j), (Z.testbit (lo + 2 ^ 32 * hi) j).
  - rewrite <- E2 at 2. rewrite <- !Z.shiftr_div_pow2 by done. apply Z.shiftr_land.
Qed.

(** Two accesses conflict unless both only read or both are atomic. *)
Definition only_reads (op : Z) : bool := (op =? Z.of_nat BDALoad) || (op =? Z.of_nat BDAIndirectRead).
Definition conflicts (p q : Z) : bool :=
  negb (only_reads p && only_reads q) && negb ((p =? Z.of_nat BDAAtomicRMW) && (q =? Z.of_nat BDAAtomicRMW)).

(** Loads and stores are checked by bytes, the others by words. *)
Definition by_bytes (q : Z) : bool := q <? 2.

(** The hazard word and the shift that the segment of the operation [q] uses. *)
Definition hazard_shift (q : Z) : Z := nth (Z.to_nat q) [0; 16; 0; 4] 0.
Definition hazard_word (q M : Z) : Z := if by_bytes q then M mod 2 ^ 32 else M / 2 ^ 32.

Lemma hazard_of_invalidation p q B W C X :
  0 <= p <= 3 -> 0 <= q <= 3 -> 0 <= B < 2 ^ 16 -> 0 <= W < 2 ^ 4 -> 0 <= C < 2 ^ 16 -> 0 <= X < 2 ^ 4 ->
  negb (Z.land (hazard_word q (invalidation p B W)) (Z.shiftl (if by_bytes q then C else X) (hazard_shift q)) =? 0) =
  conflicts p q && negb (Z.land (if by_bytes q then B else W) (if by_bytes q then C else X) =? 0).
Proof.
  intros Hp Hq HB HW HC HX. unfold invalidation.
  assert (Z.shiftl B 16 mod 2 ^ 32 = Z.shiftl B 16) as ->.
  { apply Z.mod_small. rewrite Z.shiftl_mul_pow2 by done. lia. }
  assert (Z.shiftl W 4 mod 2 ^ 32 = Z.shiftl W 4) as ->.
  { apply Z.mod_small. rewrite Z.shiftl_mul_pow2 by done. lia. }
  destruct (land_words (nth (Z.to_nat p) invalidation_masks 0) (Z.lor B (Z.shiftl B 16))
    (Z.lor W (Z.shiftl W 4)) ltac:(by apply both_bound)) as [E1 E2].
  unfold hazard_word, hazard_shift. rewrite E1, E2.
  assert (p = 0 \/ p = 1 \/ p = 2 \/ p = 3) as Ep by lia. assert (q = 0 \/ q = 1 \/ q = 2 \/ q = 3) as Eq by lia.
  pose proof (all_of_both 16 B C ltac:(lia) HB HC) as HBall. pose proof (all_of_both 4 W X ltac:(lia) HW HX) as HWall.
  destruct Ep as [->|[->|[->| ->]]], Eq as [->|[->|[->| ->]]]; unfold by_bytes;
    change (0 <? 2) with true; change (1 <? 2) with true; change (2 <? 2) with false; change (3 <? 2) with false;
    cbv iota;
    simpl nth; rewrite ?Z.shiftl_0_r;
    change (0x0fffff0000 mod 2 ^ 32) with (Z.shiftl (Z.ones 16) 16); change (0x0fffff0000 / 2 ^ 32) with (Z.ones 4);
    change (0xffffffffff mod 2 ^ 32) with (Z.ones (16 + 16)); change (0xffffffffff / 2 ^ 32) with (Z.ones (4 + 4));
    change (0xf0ffffffff mod 2 ^ 32) with (Z.ones (16 + 16)); change (0xf0ffffffff / 2 ^ 32) with (Z.shiftl (Z.ones 4) 4);
    rewrite ?HBall, ?HWall, ?high_of_low_half, ?high_of_high_half, ?low_of_low_half, ?low_of_high_half,
      ?low_half, ?high_half, ?shiftl_zero by lia; done.
Qed.

Lemma mask_of_bound f m w : 0 <= w -> mask_of f m -> (forall j, w <= j -> f j = false) -> 0 <= m < 2 ^ w.
Proof.
  intros Hw [H0 Hm] Hf. split; [done|]. apply Z.bounded_iff_bits_nonneg'; [done|done|].
  intros j Hj. rewrite Hm by lia. by apply Hf.
Qed.

(** Two masks overlap when they share one of the first [w] bits. *)
Definition overlap (w : Z) (f g : Z -> bool) : bool := existsb (fun j => f j && g j) (seqZ 0 w).

Lemma overlap_spec w f g m n : mask_of f m -> mask_of g n -> (forall j, w <= j -> f j = false) ->
  negb (Z.land m n =? 0) = overlap w f g.
Proof.
  intros Hm Hn Hf. pose proof (mask_of_land _ _ _ _ Hm Hn) as [Hpos Hbits]. apply eq_true_iff_eq.
  unfold overlap. rewrite negb_true_iff, Z.eqb_neq, existsb_exists. split.
  - intros Hne. pose proof (Z.log2_nonneg (Z.land m n)) as Hlog. exists (Z.log2 (Z.land m n)).
    pose proof (Z.bit_log2 (Z.land m n) ltac:(lia)) as Hbit. rewrite Hbits in Hbit by done. split; [|done].
    apply list_elem_of_In, elem_of_seqZ. split; [done|]. apply Z.nle_gt. intros Hle.
    by rewrite Hf in Hbit by lia.
  - intros (j & Hj%list_elem_of_In%elem_of_seqZ & Hfg) Hz. rewrite <- Hbits, Hz, Z.testbit_0_l in Hfg by lia. done.
Qed.

(** Two accesses of granules with the same address overlap: in the bytes or in the words, as the
    operation of the second one is checked. *)
Definition accesses_overlap (q a n a' n' : Z) : bool :=
  if by_bytes q then overlap 16 (touches_byte a n) (touches_byte a' n')
  else overlap 4 (touches_word a n) (touches_word a' n').

Definition segment_mask (q byte_mask word_mask : Z) : Z := if by_bytes q then byte_mask else word_mask.

Lemma touches_byte_above a n j : 16 <= j -> touches_byte a n j = false.
Proof. unfold touches_byte. lia. Qed.
Lemma touches_word_above a n j : 4 <= j -> touches_word a n j = false.
Proof. intros Hj. unfold touches_word. by rewrite (proj2 (Z.ltb_ge j 4) Hj). Qed.

Lemma hazard_of_accesses p q a n a' n' B W C X :
  0 <= p <= 3 -> 0 <= q <= 3 ->
  mask_of (touches_byte a n) B -> mask_of (touches_word a n) W ->
  mask_of (touches_byte a' n') C -> mask_of (touches_word a' n') X ->
  negb (Z.land (hazard_word q (invalidation p B W)) (Z.shiftl (segment_mask q C X) (hazard_shift q)) =? 0) =
  conflicts p q && accesses_overlap q a n a' n'.
Proof.
  intros Hp Hq HB HW HC HX.
  pose proof touches_byte_above as Hb. pose proof touches_word_above as Hw.
  pose proof (mask_of_bound _ _ 16 ltac:(lia) HB (Hb a n)). pose proof (mask_of_bound _ _ 4 ltac:(lia) HW (Hw a n)).
  pose proof (mask_of_bound _ _ 16 ltac:(lia) HC (Hb a' n')). pose proof (mask_of_bound _ _ 4 ltac:(lia) HX (Hw a' n')).
  unfold segment_mask. rewrite hazard_of_invalidation by done.
  unfold accesses_overlap. destruct (by_bytes q); f_equal;
    [exact (overlap_spec 16 _ _ _ _ HB HC (Hb a n))|exact (overlap_spec 4 _ _ _ _ HW HX (Hw a n))].
Qed.

Lemma segment_mask_fits q a n C X : 0 <= q <= 3 -> mask_of (touches_byte a n) C -> mask_of (touches_word a n) X ->
  0 <= hazard_shift q < 32 /\ 0 <= segment_mask q C X /\ Z.shiftl (segment_mask q C X) (hazard_shift q) < 2 ^ 32.
Proof.
  intros Hq HC HX.
  pose proof (mask_of_bound _ _ 16 ltac:(lia) HC (touches_byte_above a n)).
  pose proof (mask_of_bound _ _ 4 ltac:(lia) HX (touches_word_above a n)).
  assert (q = 0 \/ q = 1 \/ q = 2 \/ q = 3) as [->|[->|[->| ->]]] by lia;
    unfold segment_mask, by_bytes, hazard_shift; simpl; rewrite Z.shiftl_mul_pow2; lia.
Qed.

(** What the construction of a segment starts from. *)
Record segment_of (b : Builder) (segment merge : blockref) (c0 : list Instruction) (merge_id uint_type : Z) : Prop := {
  sg_wf : wf_builder b;
  sg_code : code (view_of b) !! segment = Some c0;
  sg_label : exists id c, c0 = label id :: c;
  sg_merge : labelled (view_of b) merge merge_id;
  sg_globals : ids_given (uniqueId b) (constantsTypesGlobals b);
  sg_ids : 0 <= uniqueId b /\ uniqueId b + 100 < 2 ^ 32;
  sg_uint : has_global b uint_type OpTypeInt [32; 0];
  sg_other : merge <> segment;
}.


(** * A sample *)

#[export] Instance Instruction_eq_dec : EqDecision Instruction.
Proof. solve_decision. Defined.

Definition group_entries (m : gmap Z (list Instruction)) : list (Z * Instruction) :=
  map_to_list m ≫= fun x => (fun i => (x.1, i)) <$> x.2.

Lemma elem_of_group_entries m op i : i ∈ group m op -> (op, i) ∈ group_entries m.
Proof.
  unfold group, group_entries. destruct (m !! op) as [l|] eqn:E; [|by intros ?%elem_of_nil].
  intros Hi. apply list_elem_of_bind. exists (op, l). split; [|by apply elem_of_map_to_list].
  simpl. by apply list_elem_of_fmap_2.
Qed.

Definition int_constant_ok (b : Builder) (i : Instruction) : bool :=
  existsb (fun ty => bool_decide (resultId ty = typeId i /\ opCode ty = OpTypeInt) &&
    match operands ty with [w; _] => bool_decide (length (operands i) = literal_length w) | _ => false end)
    (constantsTypesGlobals b).

Definition wf_builderb (b : Builder) : bool :=
  let known i := bool_decide (i ∈ constantsTypesGlobals b) in
  forallb (fun x => known x.2 && (opCode x.2 =? x.1)) (group_entries (groupedTypes b)) &&
  forallb (fun x => known x.2 && (negb (x.1 =? OpTypeVector) || (opCode x.2 =? OpConstantComposite)) &&
                    (negb (x.1 =? OpTypeInt) || int_constant_ok b x.2)) (group_entries (groupedConstants b)) &&
  forallb (fun i => bool_decide (getInstruction b (resultId i) = Some i)) (constantsTypesGlobals b).

Lemma wf_by_computation b : wf_builderb b = true -> wf_builder b.
Proof.
  unfold wf_builderb. rewrite !andb_true_iff, !forallb_forall. intros [[Ht Hc] Hg]. split.
  - intros op i Hi%elem_of_group_entries%list_elem_of_In. specialize (Ht _ Hi).
    apply andb_true_iff in Ht as [H1 H2]. split; [by apply bool_decide_eq_true in H1|by apply Z.eqb_eq].
  - intros cls i Hi%elem_of_group_entries%list_elem_of_In. specialize (Hc _ Hi). cbn [fst snd] in Hc.
    rewrite !andb_true_iff, !orb_true_iff, !negb_true_iff in Hc. destruct Hc as [[H1 H2] _].
    split; [by apply bool_decide_eq_true in H1|]. intros ->. destruct H2 as [H2|H2]; [done|by apply Z.eqb_eq].
  - intros i Hi%list_elem_of_In. specialize (Hg _ Hi). by apply bool_decide_eq_true in Hg.
  - intros i Hi%elem_of_group_entries%list_elem_of_In. specialize (Hc _ Hi). cbn [fst snd] in Hc.
    rewrite !andb_true_iff, !orb_true_iff in Hc. destruct Hc as [_ [H3|H3]]; [done|].
    unfold int_constant_ok in H3. apply existsb_exists in H3 as (ty & Hty%list_elem_of_In & H4).
    apply andb_true_iff in H4 as [H4 H5]. apply bool_decide_eq_true in H4 as [? ?].
    destruct (operands ty) as [|w [|s [|? ?]]] eqn:E; try done. apply bool_decide_eq_true in H5. by exists ty, w, s.
Qed.

Definition ids_givenb (u : Z) (l : list Instruction) : bool :=
  forallb (fun i => (0 <? resultId i) && (resultId i <=? u)) l.
Lemma ids_given_by_computation u l : ids_givenb u l = true -> ids_given u l.
Proof. unfold ids_givenb. rewrite forallb_forall. intros H i Hi%list_elem_of_In. specialize (H i Hi). lia. Qed.

Lemma mask_of_check f m w : 0 <= w -> 0 <= m < 2 ^ w -> (forall j, w <= j -> f j = false) ->
  forallb (fun j => Bool.eqb (Z.testbit m j) (f j)) (seqZ 0 w) = true -> mask_of f m.
Proof.
  intros Hw Hm Hf Hc. split; [lia|]. intros j Hj. rewrite forallb_forall in Hc. destruct (Z.ltb_spec j w).
  - apply Bool.eqb_prop, Hc, list_elem_of_In, elem_of_seqZ. lia.
  - rewrite Hf by done. apply (Z.bounded_iff_bits_nonneg' w m); lia.
Qed.

(** A function with its entry block and two more blocks. *)
Definition sample_builder : Builder :=
  match (t ← makeUintType 32; fe ← makeFunctionEntry t None [t; t; t];
         r ← new_block_in (fst (fe : funcref * blockref)); r' ← new_block_in (fst fe); makeBoolType) Builder_new with
  | Ok (_, b) => b
  | _ => Builder_new
  end.

Lemma sample_builder_ready : ready_builder 0 [label 7] sample_builder.
Proof.
  split; [by apply wf_by_computation; vm_compute|by vm_compute..|by apply ids_given_by_computation; vm_compute].
Qed.

Lemma build_u64_add_u32_correct_witness :
  computes (build_u64_add_u32 3 4) 0 [label 7] sample_builder
    [(3, VComposite [VInt 0xffffffff; VInt 7]); (4, VInt 2)] (VComposite [VInt 1; VInt 8]).
Proof.
  apply (build_u64_add_u32_correct 0 [label 7] sample_builder sample_builder_ready) with (lo := 0xffffffff) (hi := 7) (v := 2); [vm_compute; done|lia|lia|lia].
Defined.

Lemma access_masks_correct_witness :
  exists B W, mask_of (touches_byte 0x100e 4) B /\ mask_of (touches_word 0x100e 4) W /\
    computes (build_byte_mask 3 4) 0 [label 7] sample_builder [(3, VInt 0x100e); (4, VInt 4)] (VInt B) /\
    computes (build_word_mask 3 4) 0 [label 7] sample_builder [(3, VInt 0x100e); (4, VInt 4)] (VInt W).
Proof.
  apply (access_masks_correct 0 [label 7] sample_builder sample_builder_ready); [vm_compute; done|lia|lia].
Defined.

Lemma sample_segment : segment_of sample_builder 1 2 [label 8] 9 1.
Proof.
  split; [by apply wf_by_computation; vm_compute|by vm_compute|by exists 8, []|by exists []|
          by apply ids_given_by_computation; vm_compute|by vm_compute| |done].
  eexists. split; [by vm_compute; left|done].
Qed.

