(* ===== verification/Emission.v ===== *)
(** The emission of SPIR-V: [CFGStructurizer::traverse] hands the structured graph block by
    block to a backend, and the backend of spirv_module.cpp fills one SPIR-V block or more
    for each.

    [BlockEmissionInterface] is the interface between the two.  After registration the
    [userdata] of a node is its SPIR-V block and [node_id] its label; a node that takes
    several SPIR-V blocks changes [node_id] to the label of the last one. *)
From S2P Require Import Prelude.
From S2P Require Import IR.
From S2P Require Import CFGNode.
From S2P Require Import CFGTraversal.
From S2P Require Import SpvBuilder.
From S2P Require Import Instrumentation.
From S2P Require Import SPIRVModule.
From S2P Require Import Passes.
Local Open Scope Z_scope.

Class BlockEmissionInterface := {
  iface_emit_basic_block : nodref -> PM unit;
  iface_register_block : nodref -> PM unit;
}.

(** * CFGStructurizer::traverse *)

Section traverse.
Context `{BlockEmissionInterface}.

Definition set_merge_info (f : MergeInfo -> MergeInfo) (n : CFGNode) : CFGNode :=
  set_ir (mkIRBlock (phi (ir n)) (operations (ir n)) (f (merge_info (ir n))) (terminator (ir n))) n.

Definition register_if (r : option nodref) : PM unit :=
  match r with Some r => iface_register_block r | None => mret tt end.

(** The merge information that the structurizer found, put where the backend reads it. *)
Definition emit_visited (block : nodref) : PM unit :=
  n ← get_node block;
  match merge n with
  | MergeSelection =>
      _ ← set_node block (set_merge_info (fun i => mkMergeInfo (merge_type i) (selection_merge_block n)
            (continue_block i) (loop_control_mask i) (selection_control_mask i)));
      _ ← register_if (selection_merge_block n);
      _ ← set_node block (set_merge_info (fun i => mkMergeInfo MergeSelection (merge_block i)
            (continue_block i) (loop_control_mask i) (selection_control_mask i)));
      iface_emit_basic_block block
  | MergeLoop =>
      _ ← set_node block (set_merge_info (fun i => mkMergeInfo MergeLoop (loop_merge_block n)
            (pred_back_edge n) (loop_control_mask i) (selection_control_mask i)));
      _ ← register_if (loop_merge_block n);
      _ ← register_if (pred_back_edge n);
      iface_emit_basic_block block
  | MergeNone => iface_emit_basic_block block
  end.

Definition traverse : PM unit :=
  l ← order;
  _ ← for_eachM (fun r => _ ← set_node r (set_node_id 0); iface_register_block r) (rev l);
  for_eachM emit_visited (rev l).
End traverse.

(** * The backend of spirv_module.cpp *)

Definition get_spv_block (r : nodref) : PM blockref := n ← get_node r; derefM (userdata n).

(** [get_spv_block] of a pointer. *)
Definition spv_block_of (r : option nodref) : PM blockref := r ← derefM r; get_spv_block r.

Definition on_spv {A} (m : BM A) : PM A := on_module (on_builder m).

Definition active : PM funcref := f ← on_module (gets active_function); derefM f.

(** [new spv::Block(builder.getUniqueId(), *active_function)] *)
Definition new_spv_block : PM blockref := f ← active; on_spv (new_block_in f).
Definition add_spv_block (r : blockref) : PM unit := f ← active; on_spv (addBlock f r).

Definition register_block (r : nodref) : PM unit :=
  n ← get_node r;
  if bool_decide (userdata n = None) || (node_id n =? 0) then
    bb ← new_spv_block;
    _ ← add_spv_block bb;
    id ← on_spv (block_id bb);
    _ ← set_node r (set_node_id id);
    set_node r (set_userdata (Some bb))
  else mret tt.

(** ** emit_basic_block *)

(** The variables that change from operation to operation. *)
Record EmitState := mkEmitState {
  bb : blockref;
  rewrite_phi_incoming_to : Z;
  implicit_terminator : bool;
}.

(** A loop without a merge or without a continue block gets one that is never reached. *)
Definition needs_fake_loop_block (i : MergeInfo) : bool :=
  bool_decide (merge_type i = MergeLoop) &&
  negb (bool_decide (is_Some (merge_block i)) && bool_decide (is_Some (continue_block i))) &&
  (bool_decide (is_Some (merge_block i)) || bool_decide (is_Some (continue_block i))).

Definition incoming_operands (i : IncomingValue) : PM (list Z) :=
  b ← derefM (incoming_block i); n ← get_node b; mret [incoming_id i; node_id n].

Definition emit_phi (node : nodref) (bb : blockref) (fake_loop_block : option blockref) (p : PHI) : PM unit :=
  if phi_id p =? 0 then mret tt
  else
    incoming ← mapM_list incoming_operands (phi_incoming p);
    n ← get_node node;
    fake ← match fake_loop_block, continue_block (merge_info (ir n)) with
           | Some fake, None => on_spv (
               _ ← setBuildPoint fake;
               u ← createUndefined (phi_type_id p);
               _ ← setBuildPoint bb;
               id ← block_id fake;
               mret [u; id])
           | _, _ => mret []
           end;
    _ ← (if phi_relaxed p then on_spv (addDecoration (phi_id p) DecorationRelaxedPrecision (-1))
         else mret tt);
    on_module (add_instruction bb
      (mkInstruction (phi_id p) (phi_type_id p) OpPhi (concat incoming ++ fake))).

Definition emit_loop_header (node : nodref) (bb : blockref) (fake_loop_block replacement : option blockref)
    : PM unit :=
  n ← get_node node;
  let i := merge_info (ir n) in
  continue_bb ← match continue_block i with
                | Some c => r ← get_spv_block c; mret (Some r)
                | None => mret None
                end;
  let continue_bb := match replacement with Some r => Some r | None => continue_bb end in
  match merge_block i, continue_block i with
  | Some m, Some _ =>
      m ← get_spv_block m;
      c ← derefM continue_bb;
      on_spv (createLoopMerge m c (loop_control_mask i))
  | Some m, None =>
      c ← derefM fake_loop_block;
      _ ← add_spv_block c;
      _ ← on_spv (setBuildPoint c);
      self ← get_spv_block node;
      _ ← on_spv (createBranch self);
      _ ← on_spv (setBuildPoint bb);
      m ← get_spv_block m;
      on_spv (createLoopMerge m c 0)
  | None, Some _ =>
      m ← derefM fake_loop_block;
      _ ← add_spv_block m;
      _ ← on_spv (setBuildPoint m);
      _ ← on_spv createUnreachable;
      _ ← on_spv (setBuildPoint bb);
      c ← derefM continue_bb;
      on_spv (createLoopMerge m c 0)
  | None, None => mret tt
  end.

Definition emit_subgroup_sync : BM unit :=
  h ← add_op_no_result OpControlBarrier;
  add_operands h [makeUintConstant ScopeSubgroup; makeUintConstant ScopeSubgroup; getWorkgroupBarrierSemanticsId].

(** The words of the first [n] arguments; an id must not be zero. *)
Definition argument_words (o : Operation) (n : Z) : res (list Z) :=
  for_range (fun i acc =>
    arg ← argument o i;
    l ← argument_is_literal o i;
    _ ← assert_res ((l : bool) || negb (arg =? 0));
    Ok (acc ++ [arg])) n [].

Definition emit_is_helper (bb : blockref) (o : Operation) : MM unit :=
  helper_var_id ← get_builtin_shader_input BuiltInHelperInvocation;
  d ← gets discard_state_var_id;
  if d =? 0 then add_instruction bb (mkInstruction (op_id o) (op_type_id o) OpLoad [helper_var_id])
  else
    is_helper_id ← on_builder getUniqueId;
    t ← on_builder makeBoolType;
    _ ← add_instruction bb (mkInstruction is_helper_id t OpLoad [helper_var_id]);
    is_discard_id ← on_builder getUniqueId;
    t ← on_builder makeBoolType;
    _ ← add_instruction bb (mkInstruction is_discard_id t OpLoad [d]);
    add_instruction bb (mkInstruction (op_id o) (op_type_id o) OpLogicalOr [is_helper_id; is_discard_id]).

Definition require_demote : MM unit :=
  on_builder (_ ← addExtension "SPV_EXT_demote_to_helper_invocation";
              addCapability CapabilityDemoteToHelperInvocationEXT).

Definition is_masked_op (code : Z) : bool :=
  bool_decide (code ∈ [PseudoOpReturnCond; PseudoOpMaskedLoad; PseudoOpMaskedStore]).

(** A return, load or store under a condition: a selection around it. *)
Definition emit_masked (node : nodref) (fake_loop_block : option blockref) (o : Operation) (e : EmitState)
    : PM EmitState :=
  n ← get_node node;
  let i := merge_info (ir n) in
  bb ← (if bool_decide (merge_type i = MergeLoop) && (rewrite_phi_incoming_to e =? 0) then
          direct_bb ← new_spv_block;
          continues_here ← match continue_block i with
                           | Some c => r ← get_spv_block c; mret (bool_decide (r = bb e))
                           | None => mret false
                           end;
          _ ← emit_loop_header node (bb e) fake_loop_block (if (continues_here : bool) then Some direct_bb else None);
          _ ← add_spv_block direct_bb;
          _ ← on_spv (createBranch direct_bb);
          _ ← on_spv (setBuildPoint direct_bb);
          mret direct_bb
        else mret (bb e));
  inner_bb ← new_spv_block;
  merge_bb ← new_spv_block;
  _ ← add_spv_block inner_bb;
  _ ← add_spv_block merge_bb;
  _ ← on_spv (createSelectionMerge merge_bb 0);
  c ← lift (argument o (u32 (num_arguments o - 1)));
  _ ← on_spv (createConditionalBranch c inner_bb merge_bb);
  _ ← on_spv (setBuildPoint inner_bb);
  inner_id ← (if op o =? PseudoOpReturnCond then _ ← on_spv (makeReturn false 0); mret 0
              else
                inner_id ← (if op o =? PseudoOpMaskedStore then mret 0 else on_spv getUniqueId);
                _ ← assertM ((op o =? PseudoOpMaskedStore) || negb (op_type_id o =? 0));
                words ← lift (argument_words o (u32 (num_arguments o - 1)));
                _ ← on_module (add_instruction inner_bb
                      (if op o =? PseudoOpMaskedStore then mkInstruction 0 0 OpStore words
                       else mkInstruction inner_id (op_type_id o) OpLoad words));
                _ ← on_spv (createBranch merge_bb);
                mret inner_id);
  _ ← on_spv (setBuildPoint merge_bb);
  _ ← (if op o =? PseudoOpMaskedLoad then
         inner_label ← on_spv (block_id inner_bb);
         null ← on_spv (makeNullConstant (op_type_id o));
         label ← on_spv (block_id bb);
         on_module (add_instruction merge_bb (mkInstruction (op_id o) (op_type_id o) OpPhi
           [inner_id; inner_label; null; label]))
       else mret tt);
  id ← on_spv (block_id merge_bb);
  _ ← set_node node (set_node_id id);
  mret (mkEmitState merge_bb id (implicit_terminator e)).

(** Whether the result has to be rounded to half precision. *)
Definition quantizes (o : Operation) (m : SPIRVModule) : res bool :=
  let b := builder m in
  if min16float_min_spec_simulation m && negb (opcode_is_denorm_invariant (op o)) &&
     hasDecoration b (op_id o) DecorationRelaxedPrecision
  then s ← getScalarTypeId b (op_type_id o);
       c ← getTypeClass b s;
       if c =? OpTypeFloat then w ← getScalarTypeWidth b (op_type_id o); Ok (w =? 32) else Ok false
  else Ok false.

Definition implicitly_terminates (code : Z) : bool :=
  bool_decide (code ∈ [OpTerminateRayKHR; OpIgnoreIntersectionKHR; OpEmitMeshTasksEXT]).

Definition emit_plain (bb : blockref) (o : Operation) : MM unit :=
  _ ← (if (op o =? OpDemoteToHelperInvocationEXT) || (op o =? OpIsHelperInvocationEXT)
       then require_demote else mret tt);
  if op_id o =? 0 then
    words ← lift (argument_words o (num_arguments o));
    add_instruction bb (mkInstruction 0 0 (op o) words)
  else
    _ ← assertM (negb (op_type_id o =? 0));
    m ← gets (fun m => m);
    quant_fp16 ← lift (quantizes o m);
    effective_id ← (if (quant_fp16 : bool) then on_builder getUniqueId else mret (op_id o));
    words ← lift (argument_words o (num_arguments o));
    _ ← (if (quant_fp16 : bool) then on_builder (addDecoration effective_id DecorationRelaxedPrecision (-1))
         else mret tt);
    _ ← add_instruction bb (mkInstruction effective_id (op_type_id o) (op o) words);
    if (quant_fp16 : bool) then
      add_instruction bb (mkInstruction (op_id o) (op_type_id o) OpQuantizeToF16 [effective_id])
    else mret tt.

(** [add_instrumented_instruction] for a store or an assumption. *)
Definition emit_report (bb : blockref) (o : Operation) : MM unit :=
  a ← lift (argument o 0);
  code ← (if 2 <=? num_arguments o then lift (argument o 1) else mret 0);
  add_instrumented_instruction (op o) bb a code.

Definition emit_operation (node : nodref) (fake_loop_block : option blockref) (r : opref) (e : EmitState)
    : PM EmitState :=
  if implicit_terminator e then mret e
  else
    o ← on_module (op_at r);
    _ ← (if has_flag o SubgroupSyncPre then on_spv emit_subgroup_sync else mret tt);
    demote ← on_module (gets supports_demote);
    e ← (if (op o =? OpIsHelperInvocationEXT) && negb demote then
           _ ← on_module (emit_is_helper (bb e) o); mret e
         else if (op o =? OpDemoteToHelperInvocationEXT) && negb demote then
           _ ← (if num_arguments o =? 0 then on_module build_discard_call_early
                else a ← lift (argument o 0); on_module (build_discard_call_early_cond a));
           mret e
         else if (op o =? OpDemoteToHelperInvocationEXT) && negb (num_arguments o =? 0) then
           _ ← on_module require_demote;
           a ← lift (argument o 0);
           _ ← on_module (build_demote_call_cond a);
           mret e
         else if (op o =? PseudoOpInstrumentExternallyVisibleStore) || (op o =? OpAssumeTrueKHR) then
           _ ← on_module (emit_report (bb e) o); mret e
         else if is_masked_op (op o) then emit_masked node fake_loop_block o e
         else if negb (op o =? OpNop) then
           _ ← on_module (emit_plain (bb e) o);
           mret (mkEmitState (bb e) (rewrite_phi_incoming_to e) (implicitly_terminates (op o)))
         else mret e);
    _ ← (if has_flag o SubgroupSyncPost then on_spv emit_subgroup_sync else mret tt);
    mret e.

(** A block that is never reached, for a merge that does not exist. *)
Definition add_unreachable_block (back_to : blockref) : PM blockref :=
  u ← new_spv_block;
  _ ← add_spv_block u;
  _ ← on_spv (setBuildPoint u);
  _ ← on_spv createUnreachable;
  _ ← on_spv (setBuildPoint back_to);
  mret u.

Definition emit_merge (node : nodref) (fake_loop_block : option blockref) (e : EmitState) : PM unit :=
  n ← get_node node;
  let i := merge_info (ir n) in
  match merge_type i with
  | MergeSelection =>
      match merge_block i with
      | Some m => m ← get_spv_block m; on_spv (createSelectionMerge m (selection_control_mask i))
      | None => u ← add_unreachable_block (bb e); on_spv (createSelectionMerge u 0)
      end
  | MergeLoop =>
      if rewrite_phi_incoming_to e =? 0 then emit_loop_header node (bb e) fake_loop_block None else mret tt
  | MergeNone => mret tt
  end.

(** [if (rewrite_phi_incoming_to) r->rewritePhiIncoming(...)] *)
Definition rewrite_incoming (r : blockref) (from_id : Z) (e : EmitState) : PM unit :=
  if rewrite_phi_incoming_to e =? 0 then mret tt
  else on_spv (rewritePhiIncoming r from_id (rewrite_phi_incoming_to e)).

(** A conditional branch in a loop header needs a merge of its own, unless one side leaves the
    loop or continues it. *)
Definition splits_condition (i : MergeInfo) (t : Terminator) : bool :=
  bool_decide (merge_type i = MergeLoop) &&
  negb (bool_decide (true_block t = merge_block i)) && negb (bool_decide (true_block t = continue_block i)) &&
  negb (bool_decide (false_block t = merge_block i)) && negb (bool_decide (false_block t = continue_block i)).

Definition emit_condition (node : nodref) (from_id : Z) (i : MergeInfo) (t : Terminator) (e : EmitState) : PM unit :=
  true_bb ← spv_block_of (true_block t);
  false_bb ← spv_block_of (false_block t);
  let branch := createConditionalBranch (conditional_id t) true_bb false_bb in
  _ ← (if splits_condition i t then
         if rewrite_phi_incoming_to e =? 0 then
           fake_selection_bb ← new_spv_block;
           unreachable_bb ← new_spv_block;
           _ ← add_spv_block fake_selection_bb;
           _ ← add_spv_block unreachable_bb;
           _ ← on_spv (
             _ ← createBranch fake_selection_bb;
             _ ← setBuildPoint fake_selection_bb;
             _ ← createSelectionMerge unreachable_bb 0;
             _ ← branch;
             _ ← setBuildPoint unreachable_bb;
             createUnreachable);
           id ← on_spv (block_id fake_selection_bb);
           set_node node (set_node_id id)
         else
           u ← add_unreachable_block (bb e);
           on_spv (_ ← createSelectionMerge u 0; branch)
       else on_spv branch);
  _ ← rewrite_incoming true_bb from_id e;
  rewrite_incoming false_bb from_id e.

(** The target of a case: its [node->id] goes into the instruction. *)
Definition emit_case_target (bb : blockref) (from_id : Z) (e : EmitState) (c : Case) : PM Z :=
  r ← derefM (case_node c);
  n ← get_node r;
  target ← derefM (userdata n);
  _ ← on_spv (addPredecessor target bb);
  _ ← rewrite_incoming target from_id e;
  mret (node_id n).

Definition emit_switch (from_id : Z) (t : Terminator) (e : EmitState) : PM unit :=
  d ← derefM (snd <$> list_find (fun c => is_default c = true) (cases t));
  d_id ← emit_case_target (bb e) from_id e d;
  targets ← mapM_list (fun c =>
    id ← emit_case_target (bb e) from_id e c; mret [case_value c; id])
    (filter (fun c => is_default c = false) (cases t));
  on_module (add_instruction (bb e) (mkInstruction 0 0 OpSwitch (conditional_id t :: d_id :: concat targets))).

Definition emit_terminator (node : nodref) (from_id : Z) (e : EmitState) : PM unit :=
  n ← get_node node;
  let t := terminator (ir n) in
  match term_type t with
  | TUnreachable => on_spv createUnreachable
  | TBranch =>
      direct_target ← spv_block_of (direct_block t);
      _ ← on_spv (createBranch direct_target);
      rewrite_incoming direct_target from_id e
  | TCondition => emit_condition node from_id (merge_info (ir n)) t e
  | TSwitch => emit_switch from_id t e
  | TKill => on_module (add_instruction (bb e) (mkInstruction 0 0 OpKill []))
  | TReturn =>
      d ← on_module (gets discard_state_var_id);
      _ ← (if d =? 0 then mret tt else on_module build_discard_call_exit);
      on_spv (makeReturn false (return_value t))
  end.

(** A block that an instruction has ended must not go on. *)
Definition check_implicit_terminator (n : CFGNode) : PM unit :=
  let t := term_type (terminator (ir n)) in
  if negb (bool_decide (merge_type (merge_info (ir n)) = MergeNone)) ||
     (negb (bool_decide (t = TUnreachable)) && negb (bool_decide (t = TReturn)))
  then on_module (modify (set_mark_error true)) else mret tt.

Definition emit_basic_block (node : nodref) : PM unit :=
  bb ← get_spv_block node;
  _ ← on_spv (setBuildPoint bb);
  n ← get_node node;
  fake_loop_block ← (if needs_fake_loop_block (merge_info (ir n))
                     then r ← new_spv_block; mret (Some r) else mret None);
  _ ← for_eachM (emit_phi node bb fake_loop_block) (phi (ir n));
  e ← fold_m (emit_operation node fake_loop_block) (operations (ir n)) (mkEmitState bb 0 false);
  if implicit_terminator e then check_implicit_terminator n
  else
    _ ← emit_merge node fake_loop_block e;
    emit_terminator node (node_id n) e.

#[export] Instance SPIRVModule_emission : BlockEmissionInterface :=
  {| iface_emit_basic_block := emit_basic_block; iface_register_block := register_block |}.

(** * The body of a function *)

Definition emit_function_body (f : option funcref) : PM unit :=
  _ ← on_module (modify (set_active_function f));
  _ ← traverse;
  f ← active;
  entry ← on_spv (getEntryBlock f);
  _ ← on_spv (setBuildPoint entry);
  first ← on_cfg (gets entry_block);
  target ← get_spv_block first;
  _ ← on_spv (createBranch target);
  _ ← on_spv leaveFunction;
  on_module (modify (set_active_function None)).

Definition emit_entry_point_function_body : PM unit :=
  f ← on_module (gets entry_function); emit_function_body f.
Definition emit_leaf_function_body (func : funcref) : PM unit := emit_function_body (Some func).
