(* ===== verification/EmissionSpec.v ===== *)
(** What emitted SPIR-V has to be, for functions without masked operations, reports and
    discards by variable.

    [block_emitted] is the reference: a relation between a node and the instructions of its
    SPIR-V block, with the labels of the other blocks as a parameter.  [emittable] is what
    the emission of a node relies on; [ready] (EmissionTheorems.v) asks for it of all. *)
From S2P Require Import Prelude.
From S2P Require Import IR.
From S2P Require Import CFGNode.
From S2P Require Import CFGTraversal.
From S2P Require Import CFGGraph.
From S2P Require Import SpvBuilder.
From S2P Require Import Instrumentation.
From S2P Require Import SPIRVModule.
From S2P Require Import Passes.
From S2P Require Import BuilderView.
From S2P Require Import Emission.
Local Open Scope Z_scope.

(** * The reference *)

(** What [traverse] passes on as the merge information of a node. *)
Definition final_merge_info (n : CFGNode) : MergeInfo :=
  let i := merge_info (ir n) in
  match merge n with
  | MergeSelection => mkMergeInfo MergeSelection (selection_merge_block n) (continue_block i)
                        (loop_control_mask i) (selection_control_mask i)
  | MergeLoop => mkMergeInfo MergeLoop (loop_merge_block n) (pred_back_edge n)
                   (loop_control_mask i) (selection_control_mask i)
  | MergeNone => i
  end.

(** The header of an inner selection that a conditional branch in a loop header needs. *)
Definition splits (n : CFGNode) : bool :=
  bool_decide (term_type (terminator (ir n)) = TCondition) &&
  splits_condition (final_merge_info n) (terminator (ir n)).

Section reference.
(** The label of a node's first SPIR-V block, and the label of its last one. *)
Variables (entry exit : nodref -> Z).

Definition phi_operands (extra : list Z) (p : PHI) : list Z :=
  (phi_incoming p ≫= fun x => match incoming_block x with
                              | Some b => [incoming_id x; exit b] | None => [] end) ++ extra.

(** [fake]: the label of a continue block that is made up. *)
Definition phi_emitted (fake : option Z) (p : PHI) (i : Instruction) : Prop :=
  exists extra, i = mkInstruction (phi_id p) (phi_type_id p) OpPhi (phi_operands extra p) /\
    match fake with Some l => exists u, extra = [u; l] | None => extra = [] end.

Definition sync_emitted (c : bool) (l : list Instruction) : Prop :=
  if c then exists a b d, l = [mkInstruction 0 0 OpControlBarrier [a; b; d]] else l = [].

Definition is_report (code : Z) : bool :=
  (code =? PseudoOpInstrumentExternallyVisibleStore) || (code =? OpAssumeTrueKHR).

Definition op_instructions (o : Operation) : list Instruction :=
  if is_report (op o) || (op o =? OpNop) then []
  else [mkInstruction (op_id o) (if op_id o =? 0 then 0 else op_type_id o) (op o) (contents o).*1].

Definition op_emitted (o : Operation) (l : list Instruction) : Prop :=
  exists pre post, l = pre ++ op_instructions o ++ post /\
    sync_emitted (has_flag o SubgroupSyncPre) pre /\ sync_emitted (has_flag o SubgroupSyncPost) post.

(** [ended]: one of the operations ends the block. *)
Fixpoint ops_emitted (l : list Operation) (is_ : list Instruction) (ended : bool) : Prop :=
  match l with
  | [] => is_ = [] /\ ended = false
  | o :: l' => exists i rest, is_ = i ++ rest /\ op_emitted o i /\
      if implicitly_terminates (op o) then rest = [] /\ ended = true else ops_emitted l' rest ended
  end.

(** The instructions of the blocks that come with a node. *)
Variable block_code : blockref -> option (list Instruction).

Definition unreachable_code (id : Z) : Prop :=
  exists u, block_code u = Some [label id; mkInstruction 0 0 OpUnreachable []].

Definition merge_emitted (fake : option Z) (self : Z) (i : MergeInfo) (l : list Instruction) : Prop :=
  match merge_type i, merge_block i, continue_block i with
  | MergeNone, _, _ => l = []
  | MergeSelection, Some m, _ => l = [mkInstruction 0 0 OpSelectionMerge [entry m; selection_control_mask i]]
  | MergeSelection, None, _ =>
      exists u, unreachable_code u /\ l = [mkInstruction 0 0 OpSelectionMerge [u; 0]]
  | MergeLoop, Some m, Some c => l = [mkInstruction 0 0 OpLoopMerge [entry m; entry c; loop_control_mask i]]
  | MergeLoop, Some m, None =>
      exists c undefs fb, fake = Some c /\ Forall (fun x => opCode x = OpUndef) undefs /\
        block_code fb = Some (label c :: undefs ++ [mkInstruction 0 0 OpBranch [self]]) /\
        l = [mkInstruction 0 0 OpLoopMerge [entry m; c; 0]]
  | MergeLoop, None, Some c =>
      exists m, unreachable_code m /\ l = [mkInstruction 0 0 OpLoopMerge [m; entry c; 0]]
  | MergeLoop, None, None => l = []
  end.

Definition target (r : option nodref) : Z := match r with Some r => entry r | None => 0 end.

Definition branch_instruction (t : Terminator) : Instruction :=
  mkInstruction 0 0 OpBranchConditional [conditional_id t; target (true_block t); target (false_block t)].

Definition default_case (t : Terminator) : option Case :=
  snd <$> list_find (fun c => is_default c = true) (cases t).
Definition switch_operands (t : Terminator) : list Z :=
  conditional_id t :: target (default_case t ≫= case_node) ::
  (filter (fun c => is_default c = false) (cases t) ≫= fun c => [case_value c; target (case_node c)]).

Definition terminator_emitted (self last : Z) (i : MergeInfo) (t : Terminator) (l : list Instruction) : Prop :=
  match term_type t with
  | TUnreachable => l = [mkInstruction 0 0 OpUnreachable []] /\ last = self
  | TBranch => l = [mkInstruction 0 0 OpBranch [target (direct_block t)]] /\ last = self
  | TCondition =>
      if splits_condition i t then
        l = [mkInstruction 0 0 OpBranch [last]] /\
        exists u x, unreachable_code u /\
          block_code x = Some [label last; mkInstruction 0 0 OpSelectionMerge [u; 0]; branch_instruction t]
      else l = [branch_instruction t] /\ last = self
  | TSwitch => l = [mkInstruction 0 0 OpSwitch (switch_operands t)] /\ last = self
  | TKill => l = [mkInstruction 0 0 OpKill []] /\ last = self
  | TReturn => l = [return_instruction (return_value t)] /\ last = self
  end.

(** The SPIR-V block of the node [r]; [ops] are its operations. *)
Definition block_emitted (r : nodref) (n : CFGNode) (ops : list Operation) (c : list Instruction) : Prop :=
  let i := final_merge_info n in
  exists fake phis body ended rest,
    c = label (entry r) :: phis ++ body ++ rest /\
    (is_Some fake <-> needs_fake_loop_block i = true) /\
    Forall2 (phi_emitted (match continue_block i with Some _ => None | None => fake end))
      (filter (fun p => phi_id p <> 0) (phi (ir n))) phis /\
    ops_emitted ops body ended /\
    if ended then rest = [] /\ exit r = entry r
    else exists m t, rest = m ++ t /\ merge_emitted fake (entry r) i m /\
                     terminator_emitted (entry r) (exit r) i (terminator (ir n)) t.
End reference.

(** * What a function needs to be emitted *)

Definition plain_op (o : Operation) : Prop :=
  op_wf o /\ (forall a, (a, false) ∈ contents o -> a <> 0) /\ (op_id o <> 0 -> op_type_id o <> 0) /\
  is_masked_op (op o) = false /\ (is_report (op o) = true -> 1 <= argument_count o) /\
  (op o = OpDemoteToHelperInvocationEXT -> argument_count o = 0).

Section emittable.
(** The blocks in the order of emission. *)
Variables (E : list nodref) (p : CFGNodePool) (pool_ : list Operation).

Definition known (r : option nodref) : Prop := exists b, r = Some b /\ b ∈ E.
Definition unsplit (b : nodref) : Prop := exists n, p !! b = Some n /\ splits n = false.

(** The blocks emitted already are [D]. *)
Record emittable (D : list nodref) (r : nodref) (n : CFGNode) : Prop := {
  em_ops : Forall (fun o => exists x, pool_ !! o = Some x /\ plain_op x) (operations (ir n));
  em_merge : forall m, merge_block (final_merge_info n) = Some m -> m ∈ E /\ m ∉ D;
  em_continue : forall m, continue_block (final_merge_info n) = Some m -> m ∈ E /\ m ∉ D;
  em_phi : forall x y, x ∈ phi (ir n) -> phi_id x <> 0 -> y ∈ phi_incoming x ->
    exists b, incoming_block y = Some b /\ b ∈ E /\ (b ∈ D \/ unsplit b);
  em_terminator : match term_type (terminator (ir n)) with
    | TBranch => known (direct_block (terminator (ir n)))
    | TCondition => known (true_block (terminator (ir n))) /\ known (false_block (terminator (ir n)))
    | TSwitch => is_Some (default_case (terminator (ir n))) /\
        forall c, c ∈ cases (terminator (ir n)) ->
          exists b, case_node c = Some b /\ b ∈ E /\ (b ∉ D) /\ b <> r
    | _ => True
    end;
}.
End emittable.
