(* ===== verification/EmissionTheorems.v ===== *)
(** The emission of a function meets its reference: every structured block becomes a SPIR-V
    block with its PHIs, operations, merge and terminator ([emission_correct]).

    The proof follows the code: steps of the builder on its view, the parts of a block,
    one block, all blocks, registration, the whole function. *)
From S2P Require Import Prelude.
From S2P Require Import IR.
From S2P Require Import CFGNode.
From S2P Require Import CFGTraversal.
From S2P Require Import CFGGraph.
From S2P Require Import SpvBuilder.
From S2P Require Import Instrumentation.
From S2P Require Import SPIRVModule.
From S2P Require Import Passes.
From S2P Require Import BuilderView.
From S2P Require Import Emission.
From S2P Require Import EmissionSpec.
From S2P Require Import SSATheorems.
Local Open Scope Z_scope.

(** * Steps *)

(** The members of the module that the emission only reads. *)
Definition constants (m : SPIRVModule) :=
  (operation_pool m, instruction_instrumentation m, supports_demote m, min16float_min_spec_simulation m,
   discard_state_var_id m, active_function m).

Section steps.
Variables (C : CFGStructurizer) (ops_pool : list Operation) (t : InstructionInstrumentationState) (f : funcref).
Hypothesis Ht : enabled (info t) = false.

(** The nodes are [p] and the builder looks like [v]. *)
Definition st (p : CFGNodePool) (v : view) (s : Passes) : Prop :=
  cfg s = set_pool p C /\ constants (module s) = (ops_pool, t, true, false, 0, Some f) /\
  view_of (builder (module s)) = v.

Lemma st_nodes p v s : st p v s -> nodes s = p.
Proof. intros (H & _). by rewrite H. Qed.

Lemma runs_spv {A} (m : BM A) p v s (Q : A -> Passes -> Prop) :
  st p v s ->
  (forall b, view_of b = v ->
     runs m b (fun a b' => exists v', view_of b' = v' /\ forall s', st p v' s' -> Q a s')) ->
  runs (on_spv m) s Q.
Proof.
  intros (H1 & H2 & H3) Hm. unfold on_spv, on_module, on_builder. apply runs_zoom, runs_zoom.
  eapply runs_mono; [by apply Hm|]. intros a b' (v' & E & HQ). apply HQ. split_and!; [done..|exact E].
Qed.

Lemma runs_node p v s r n (Q : CFGNode -> Passes -> Prop) :
  st p v s -> p !! r = Some n -> Q n s -> runs (get_node r) s Q.
Proof. intros H Hr. apply runs_get_node. by rewrite (st_nodes _ _ _ H). Qed.

Lemma runs_set p v s r n g (Q : unit -> Passes -> Prop) :
  st p v s -> p !! r = Some n -> (forall s', st (<[r := g n]> p) v s' -> Q tt s') -> runs (set_node r g) s Q.
Proof.
  intros H Hr HQ. pose proof (st_nodes _ _ _ H) as Hn. eapply runs_set_node; [by rewrite Hn|].
  apply HQ. destruct H as (H1 & H2 & H3). split_and!; [|done..]. simpl. rewrite Hn, H1. done.
Qed.

Lemma runs_spv_block p v s r n b (Q : blockref -> Passes -> Prop) :
  st p v s -> p !! r = Some n -> userdata n = Some b -> Q b s -> runs (get_spv_block r) s Q.
Proof.
  intros H Hr Hn HQ. apply runs_bind. eapply runs_node; [done..|]. by eapply runs_deref.
Qed.

Lemma runs_active p v s (Q : funcref -> Passes -> Prop) : st p v s -> Q f s -> runs active s Q.
Proof.
  intros (_ & H & _) HQ. unfold active. apply runs_bind. unfold on_module. apply runs_zoom, runs_gets.
  rewrite set_module_id. unfold constants in H. eapply runs_deref; [|done]. congruence.
Qed.

Lemma runs_new_spv_block p v s (Q : blockref -> Passes -> Prop) :
  st p v s -> (forall id s', st p (with_new_block id f v) s' -> Q (length (code v)) s') ->
  runs new_spv_block s Q.
Proof.
  intros H HQ. apply runs_bind. eapply runs_active; [done|]. eapply runs_spv; [done|]. intros b Hb.
  eapply runs_new_block_in; [done|]. intros b' E' _. eauto.
Qed.

Lemma runs_add_spv_block p v s r (Q : unit -> Passes -> Prop) :
  st p v s -> is_Some (v_functions v !! f) -> (forall s', st p (with_block_of f r v) s' -> Q tt s') ->
  runs (add_spv_block r) s Q.
Proof.
  intros H [x Hx] HQ. apply runs_bind. eapply runs_active; [done|]. eapply runs_spv; [done|]. intros b Hb.
  eapply runs_addBlock; [done..|]. intros b' E' _. eauto.
Qed.

Lemma runs_module {A} (m : MM A) p v s (Q : A -> Passes -> Prop) :
  st p v s ->
  (forall x, constants x = (ops_pool, t, true, false, 0, Some f) -> view_of (builder x) = v ->
     runs m x (fun a x' => constants x' = (ops_pool, t, true, false, 0, Some f) /\
                           exists v', view_of (builder x') = v' /\ forall s', st p v' s' -> Q a s')) ->
  runs (on_module m) s Q.
Proof.
  intros (H1 & H2 & H3) Hm. apply runs_zoom. eapply runs_mono; [by apply Hm|].
  intros a x' (Hx & v' & E & HQ). apply HQ. by split_and!.
Qed.

Lemma add_instruction_run x v bb c i :
  constants x = (ops_pool, t, true, false, 0, Some f) -> view_of (builder x) = v -> code v !! bb = Some c ->
  runs (add_instruction bb i) x (fun _ x' => constants x' = (ops_pool, t, true, false, 0, Some f) /\
                                           view_of (builder x') = append bb i v).
Proof.
  intros Hx Hv Hc. assert (enabled (info (instruction_instrumentation x)) = false) as He.
  { unfold constants in Hx. by replace (instruction_instrumentation x) with t by congruence. }
  unfold add_instruction. apply runs_bind, runs_gets. apply runs_bind. rewrite He, andb_false_r. simpl.
  apply runs_ret, runs_bind. apply runs_zoom. eapply runs_addInstruction; [done..|].
  intros b' E'. apply runs_ret. done.
Qed.

Lemma runs_add_instruction p v s bb c i (Q : unit -> Passes -> Prop) :
  st p v s -> code v !! bb = Some c -> (forall s', st p (append bb i v) s' -> Q tt s') ->
  runs (on_module (add_instruction bb i)) s Q.
Proof.
  intros H Hc HQ. eapply runs_module; [done|]. intros x Hx Hv.
  eapply runs_mono; [by eapply add_instruction_run|]. intros [] x' [? ?]. eauto.
Qed.

(** A view with other instructions in one block. *)
Definition set_code (r : blockref) (c : list Instruction) (v : view) : view :=
  mkView (<[r := c]> (code v)) (parents v) (v_functions v) (point v).

Lemma append_set_code r c i v : is_Some (code v !! r) ->
  append r i (set_code r c v) = set_code r (c ++ [i]) v.
Proof.
  intros H%lookup_lt_is_Some. unfold append, set_code. simpl. f_equal.
  erewrite alter_as_insert by by apply list_lookup_insert_eq. by rewrite list_insert_insert_eq.
Qed.

Lemma set_code_set_code r c c' v : set_code r c' (set_code r c v) = set_code r c' v.
Proof. unfold set_code. simpl. by rewrite list_insert_insert_eq. Qed.

Lemma set_code_id r c v : code v !! r = Some c -> set_code r c v = v.
Proof. intros H. unfold set_code. rewrite list_insert_id by done. by destruct v. Qed.

Lemma append_as_set_code r c i v : code v !! r = Some c -> append r i v = set_code r (c ++ [i]) v.
Proof. intros H. rewrite <- (set_code_id r c v H) at 1. by apply append_set_code. Qed.

Lemma lookup_set_code r c v : is_Some (code v !! r) -> code (set_code r c v) !! r = Some c.
Proof. intros H%lookup_lt_is_Some. by apply list_lookup_insert_eq. Qed.
Lemma lookup_set_code_ne r c v x : x <> r -> code (set_code r c v) !! x = code v !! x.
Proof. intros H. by apply list_lookup_insert_ne. Qed.

(** * Operations *)

Lemma argument_words_run o : op_wf o -> (forall a, (a, false) ∈ contents o -> a <> 0) ->
  argument_words o (num_arguments o) = Ok (contents o).*1.
Proof.
  intros Hwf Hz. pose proof Hwf as [Hn _]. unfold argument_words, num_arguments, for_range.
  assert (forall n i acc, 0 <= i -> i + Z.of_nat n = argument_count o ->
    for_from (fun i acc => arg ← argument o i; l ← argument_is_literal o i;
       _ ← assert_res ((l : bool) || negb (arg =? 0)); Ok (acc ++ [arg])) i n acc =
    Ok (acc ++ (drop (Z.to_nat i) (contents o)).*1)) as H; [|by rewrite H by lia].
  induction n as [|n IH]; intros i acc Hi E; cbn [for_from].
  - rewrite drop_ge; [by rewrite app_nil_r|]. pose proof (zlength_contents o ltac:(lia)) as Hl.
    unfold zlength in Hl. lia.
  - assert (is_Some (zlookup (contents o) i)) as [[a l] Hv].
    { apply zlookup_is_Some. rewrite zlength_contents; lia. }
    destruct (argument_spec o i Hwf Hi) as [-> ->]. rewrite Hv. cbn [mbind res_bind].
    assert (contents o !! Z.to_nat i = Some (a, l)) as Hv'.
    { unfold zlookup in Hv. by destruct (0 <=? i). }
    assert ((l : bool) || negb (a =? 0) = true) as ->.
    { destruct l; [done|]. apply list_elem_of_lookup_2, Hz in Hv'. simpl. by rewrite (proj2 (Z.eqb_neq a 0)). }
    cbn [assert_res mbind res_bind]. rewrite IH by lia. rewrite (drop_S _ _ _ Hv'), <- app_assoc. simpl.
    replace (S (Z.to_nat i)) with (Z.to_nat (i + 1)) by lia. done.
Qed.

Section block.
(** The block under construction, and the view without its instructions. *)
Variables (bb : blockref) (v0 : view) (p : CFGNodePool).
Hypotheses (Hbb : is_Some (code v0 !! bb)) (Hpoint : point v0 = Some bb).

Abbreviation at_code c := (set_code bb c v0) (only parsing).

Lemma add_operand_run b c i w (Q : unit -> Builder -> Prop) :
  view_of b = at_code (c ++ [i]) -> resultId i = 0 ->
  (forall b', view_of b' = at_code (c ++ [mkInstruction 0 (typeId i) (opCode i) (operands i ++ [w])]) -> Q tt b') ->
  runs (add_operand (mkInstref bb (length c)) w) b Q.
Proof.
  intros E Hi HQ. assert (code (view_of b) !! bb = Some (c ++ [i])) as Hc by (rewrite E; by apply lookup_set_code).
  unfold add_operand, instruction_at. simpl. apply runs_bind, runs_bind. eapply runs_block_at; [exact Hc|].
  intros k Ek Hk. eapply runs_deref; [rewrite Hk; by apply list_lookup_middle|].
  apply runs_bind. eapply runs_update_block; [exact Hc|].
  intros k' Ek' Hk'. simpl. rewrite Hi. simpl. apply runs_ret, HQ.
  assert (k' = k) as -> by congruence. rewrite Hk, <- (set_code_set_code bb (c ++ [i])), <- E.
  unfold view_of, set_code. simpl. rewrite !list_fmap_insert. simpl.
  rewrite insert_app_r_alt by done. rewrite Nat.sub_diag. simpl. f_equal.
  apply list_insert_id. by rewrite list_lookup_fmap, Ek.
Qed.

Lemma runs_append_instruction b c i (Q : instref -> Builder -> Prop) :
  view_of b = at_code c ->
  (forall b', view_of b' = at_code (c ++ [i]) -> Q (mkInstref bb (length c)) b') ->
  runs (append_instruction i) b Q.
Proof.
  intros E HQ. unfold append_instruction. apply runs_bind. eapply runs_getBuildPoint; [exact E|exact Hpoint|].
  assert (code (at_code c) !! bb = Some c) as Hc by by apply lookup_set_code.
  apply runs_bind. eapply runs_block_at; [by rewrite E|]. intros k _ Hk.
  apply runs_bind. eapply runs_addInstruction; [exact E|exact Hc|]. intros b' E'. apply runs_ret.
  rewrite Hk. apply HQ. by rewrite E', append_set_code.
Qed.

(** [add_operands] with makers of constants. *)
Lemma runs_add_operands b c i l (Q : unit -> Builder -> Prop) :
  view_of b = at_code (c ++ [i]) -> resultId i = 0 -> Forall quiet l ->
  (forall b' ws, length ws = length l ->
     view_of b' = at_code (c ++ [mkInstruction 0 (typeId i) (opCode i) (operands i ++ ws)]) -> Q tt b') ->
  runs (add_operands (mkInstref bb (length c)) l) b Q.
Proof.
  intros E Hi Hl. revert b i E Hi Q. induction Hl as [|m l Hm Hl IH]; intros b i E Hi Q HQ.
  { apply runs_ret. apply (HQ b []); [done|]. rewrite E, app_nil_r. destruct i; simpl in *. by subst. }
  unfold add_operands. simpl. apply runs_bind, runs_bind.
  eapply runs_quiet; [exact Hm|exact E|]. intros w b1 E1.
  eapply add_operand_run; [exact E1|done|]. intros b2 E2.
  eapply IH; [exact E2|done|]. simpl. intros b3 ws Hws E3. apply (HQ b3 (w :: ws)); [simpl; lia|].
  by rewrite E3, <- app_assoc.
Qed.

Lemma runs_subgroup_sync b c (Q : unit -> Builder -> Prop) :
  view_of b = at_code c ->
  (forall b' x y z, view_of b' = at_code (c ++ [mkInstruction 0 0 OpControlBarrier [x; y; z]]) -> Q tt b') ->
  runs emit_subgroup_sync b Q.
Proof.
  intros E HQ. unfold emit_subgroup_sync, add_op_no_result. apply runs_bind.
  eapply runs_append_instruction; [exact E|]. intros b1 E1.
  eapply runs_add_operands; [exact E1|done|by auto with quiet|]. intros b2 ws Hws E2. simpl in E2.
  destruct ws as [|x [|y [|z [|]]]]; try done. by eapply HQ.
Qed.

Lemma runs_sync s c (g : bool) (Q : unit -> Passes -> Prop) :
  st p (at_code c) s ->
  (forall s' l, sync_emitted g l -> st p (at_code (c ++ l)) s' -> Q tt s') ->
  runs (if g then on_spv emit_subgroup_sync else mret tt) s Q.
Proof.
  intros H HQ. destruct g.
  - eapply runs_spv; [exact H|]. intros b Hb. eapply runs_subgroup_sync; [exact Hb|].
    intros b' x y z E. exists (at_code (c ++ [mkInstruction 0 0 OpControlBarrier [x; y; z]])). split; [done|].
    intros s' Hs'. eapply HQ; [|done]. simpl. eauto.
  - apply runs_ret. apply (HQ s []); [done|]. by rewrite app_nil_r.
Qed.

Lemma runs_emit_plain s c o (Q : unit -> Passes -> Prop) :
  st p (at_code c) s -> plain_op o -> is_report (op o) = false -> op o <> OpNop ->
  (forall s', st p (at_code (c ++ op_instructions o)) s' -> Q tt s') ->
  runs (on_module (emit_plain bb o)) s Q.
Proof.
  intros H (Hwf & Hz & Hty & _) Hr Hn HQ. eapply runs_module; [exact H|]. intros x Hx Hv.
  assert (code (at_code c) !! bb = Some c) as Hc by by apply lookup_set_code.
  unfold op_instructions in HQ. rewrite Hr, (proj2 (Z.eqb_neq _ _) Hn) in HQ. simpl in HQ.
  unfold emit_plain. apply runs_bind.
  assert (runs (if (op o =? OpDemoteToHelperInvocationEXT) || (op o =? OpIsHelperInvocationEXT)
                then require_demote else mret tt) x
    (fun _ x' => constants x' = constants x /\ view_of (builder x') = at_code c)) as Hd.
  { destruct (_ || _); [|by apply runs_ret]. apply runs_zoom, runs_bind.
    eapply runs_quiet; [apply quiet_addExtension|exact Hv|]. intros [] b1 E1.
    eapply runs_quiet; [apply quiet_addCapability|exact E1|]. intros [] b2 E2. done. }
  eapply runs_mono; [exact Hd|]. intros [] x1 [Hx1 Hv1]. rewrite Hx in Hx1. cbv beta.
  destruct (Z.eqb_spec (op_id o) 0) as [E0|E0].
  - apply runs_bind. eapply runs_lift; [by apply argument_words_run|].
    eapply runs_mono; [by eapply add_instruction_run|]. intros [] x' [? E]. split; [done|].
    exists (at_code (c ++ [mkInstruction 0 0 (op o) (contents o).*1])). split; [by rewrite E, append_set_code|].
    intros s' Hs'. apply HQ. by rewrite E0.
  - apply runs_bind. apply runs_assert; [by rewrite (proj2 (Z.eqb_neq _ _) (Hty E0))|].
    apply runs_bind, runs_gets, runs_bind. eapply (runs_lift _ false).
    { unfold quantizes. unfold constants in Hx1.
      by replace (min16float_min_spec_simulation x1) with false by congruence. }
    apply runs_bind, runs_ret, runs_bind. eapply runs_lift; [by apply argument_words_run|].
    apply runs_bind, runs_ret, runs_bind.
    eapply runs_mono; [by eapply add_instruction_run|]. intros [] x' [? E]. apply runs_ret. split; [done|].
    eexists. split; [rewrite E; by rewrite append_set_code|]. intros s' Hs'. by apply HQ.
Qed.

Lemma runs_emit_report s c o (Q : unit -> Passes -> Prop) :
  st p (at_code c) s -> plain_op o -> is_report (op o) = true ->
  (forall s', st p (at_code c) s' -> Q tt s') -> runs (on_module (emit_report bb o)) s Q.
Proof.
  intros H (Hwf & Hz & _ & _ & Ha & _) Hr HQ. specialize (Ha Hr). pose proof Hwf as [Hn _].
  assert (forall i, 0 <= i < argument_count o -> exists a, argument o i = Ok a) as Harg.
  { intros i Hi. destruct (argument_spec o i Hwf ltac:(lia)) as [-> _].
    assert (is_Some (zlookup (contents o) i)) as [[a l] ->]; [|by eauto].
    apply zlookup_is_Some. rewrite zlength_contents; lia. }
  eapply runs_module; [exact H|]. intros x Hx Hv. unfold emit_report. apply runs_bind.
  destruct (Harg 0) as [a Ea]; [lia|]. eapply runs_lift; [exact Ea|]. apply runs_bind.
  assert (forall w, add_instrumented_instruction (op o) bb a w x = Ok (tt, x)) as Hall.
  { intros w. unfold add_instrumented_instruction, get_instrumentation.
    assert (enabled (info (instruction_instrumentation x)) = false) as He.
    { unfold constants in Hx. by replace (instruction_instrumentation x) with t by congruence. }
    unfold gets, mbind, M_bind. simpl. by rewrite He, orb_true_r. }
  assert (forall w, runs (add_instrumented_instruction (op o) bb a w) x
    (fun u x' => constants x' = (ops_pool, t, true, false, 0, Some f) /\
                 exists v', view_of (builder x') = v' /\ forall s', st p v' s' -> Q u s')) as Hfin.
  { intros w. exists tt, x. split; [apply Hall|]. split; [done|]. exists (at_code c). auto. }
  destruct (Z.leb_spec 2 (num_arguments o)).
  - destruct (Harg 1) as [w Ew]; [unfold num_arguments in *; lia|]. eapply runs_lift; [exact Ew|]. apply Hfin.
  - apply runs_ret, Hfin.
Qed.

Lemma runs_emit_operation s c node fake r o (Q : EmitState -> Passes -> Prop) :
  st p (at_code c) s -> ops_pool !! r = Some o -> plain_op o ->
  (forall s' l, op_emitted o l -> st p (at_code (c ++ l)) s' ->
     Q (mkEmitState bb 0 (implicitly_terminates (op o))) s') ->
  runs (emit_operation node fake r (mkEmitState bb 0 false)) s Q.
Proof.
  intros H Hr Ho HQ. pose proof Ho as (_ & _ & _ & Hm & _ & Hd). unfold emit_operation. cbn [implicit_terminator].
  assert (operation_pool (module s) = ops_pool /\ supports_demote (module s) = true) as [Hp Hs].
  { destruct H as (_ & H & _). unfold constants in H. by split; congruence. }
  apply runs_bind. eapply runs_op_at; [by rewrite Hp|]. apply runs_bind.
  eapply runs_sync; [exact H|]. intros s1 pre Hpre H1. apply runs_bind.
  assert (supports_demote (module s1) = true) as Hs1.
  { destruct H1 as (_ & H1 & _). unfold constants in H1. congruence. }
  unfold on_module at 1. apply runs_zoom, runs_gets. rewrite set_module_id, Hs1.
  cbn [negb]. rewrite !andb_false_r.
  assert ((op o =? OpDemoteToHelperInvocationEXT) && negb (num_arguments o =? 0) = false) as ->.
  { destruct (Z.eqb_spec (op o) OpDemoteToHelperInvocationEXT) as [E|]; [|done].
    unfold num_arguments. by rewrite (Hd E). }
  fold (is_report (op o)). rewrite Hm. apply runs_bind.
  assert (runs (if is_report (op o) then _ ← on_module (emit_report bb o); mret (mkEmitState bb 0 false)
    else if negb (op o =? OpNop) then
      _ ← on_module (emit_plain bb o);
      mret (mkEmitState bb 0 (implicitly_terminates (op o)))
    else mret (mkEmitState bb 0 false)) s1 (fun e s2 => e = mkEmitState bb 0 (implicitly_terminates (op o)) /\
      st p (at_code ((c ++ pre) ++ op_instructions o)) s2)) as Hmain.
  { destruct (is_report (op o)) eqn:Er.
    - apply runs_bind. eapply runs_emit_report; [exact H1|done..|]. intros s2 H2. apply runs_ret. split.
      + f_equal. unfold is_report in Er. apply orb_true_iff in Er as [E|E]; apply Z.eqb_eq in E; by rewrite E.
      + unfold op_instructions. by rewrite Er, app_nil_r.
    - destruct (Z.eqb_spec (op o) OpNop) as [E|E]; simpl.
      + apply runs_ret. split; [by rewrite E|]. unfold op_instructions. by rewrite Er, E, app_nil_r.
      + apply runs_bind. eapply runs_emit_plain; [exact H1|done..|]. intros s2 H2. by apply runs_ret. }
  eapply runs_mono; [exact Hmain|]. intros e s2 [-> H2]. apply runs_bind.
  eapply runs_sync; [exact H2|]. intros s3 post Hpost H3. apply runs_ret.
  eapply (HQ s3 (pre ++ op_instructions o ++ post)); [by exists pre, post|].
  by rewrite !app_assoc in *.
Qed.

(** After an operation that ends the block the others are skipped. *)
Lemma runs_skipped_operations s node fake l c (Q : EmitState -> Passes -> Prop) :
  st p (at_code c) s -> Q (mkEmitState bb 0 true) s ->
  runs (fold_m (emit_operation node fake) l (mkEmitState bb 0 true)) s Q.
Proof.
  intros H HQ. induction l as [|r l IH]; simpl; [by apply runs_ret|]. apply runs_bind, runs_ret, IH.
Qed.

Lemma runs_emit_operations s node fake l os c (Q : EmitState -> Passes -> Prop) :
  st p (at_code c) s -> Forall2 (fun r o => ops_pool !! r = Some o /\ plain_op o) l os ->
  (forall s' is_ ended, ops_emitted os is_ ended -> st p (at_code (c ++ is_)) s' ->
     Q (mkEmitState bb 0 ended) s') ->
  runs (fold_m (emit_operation node fake) l (mkEmitState bb 0 false)) s Q.
Proof.
  intros H Hl. revert s c H Q. induction Hl as [|r o l os [Hr Ho] Hl IH]; intros s c H Q HQ.
  { apply runs_ret. apply (HQ s []); [done|]. by rewrite app_nil_r. }
  simpl. apply runs_bind. eapply runs_emit_operation; [exact H|done..|]. intros s1 i Hi H1.
  destruct (implicitly_terminates (op o)) eqn:Et.
  - eapply runs_skipped_operations; [exact H1|]. apply (HQ s1 i true); [|done].
    exists i, []. rewrite app_nil_r, Et. done.
  - eapply IH; [exact H1|]. intros s2 rest ended Hrest H2. apply (HQ s2 (i ++ rest) ended).
    + exists i, rest. rewrite Et. done.
    + by rewrite <- app_assoc in H2.
Qed.
End block.

(** * PHIs and merges *)

Section phis.
Variables (node : nodref) (n : CFGNode) (p : CFGNodePool) (exit : nodref -> Z).
Variables (bb : blockref) (v0 : view).
Hypotheses (Hn : p !! node = Some n) (Hbb : is_Some (code v0 !! bb)) (Hpoint : point v0 = Some bb).
(** The made-up block of the loop with its label. *)
Variable fake : option (blockref * Z).
Hypothesis Hfake : forall fb l, fake = Some (fb, l) -> is_Some (code v0 !! fb) /\ fb <> bb.

Abbreviation made_up := (fst <$> fake) (only parsing).

(** The instructions [c] of the block, the undefined values [u] of the made-up block. *)
Definition under_construction (c u : list Instruction) : view :=
  set_code bb c (match fake with Some (fb, l) => set_code fb (label l :: u) v0 | None => v0 end).

(** They are needed only when the continue block is the made-up one. *)
Definition all_undef (u : list Instruction) : Prop :=
  Forall (fun i => opCode i = OpUndef) u /\ (is_Some (continue_block (merge_info (ir n))) -> u = []).

Lemma uc_bb c u : code (under_construction c u) !! bb = Some c.
Proof.
  unfold under_construction. apply lookup_set_code. destruct fake as [[fb l]|]; [|done].
  destruct (Hfake fb l eq_refl). by rewrite lookup_set_code_ne.
Qed.

Lemma uc_fake c u fb l : fake = Some (fb, l) -> code (under_construction c u) !! fb = Some (label l :: u).
Proof.
  intros E. destruct (Hfake fb l E) as [Hs Hne]. unfold under_construction. rewrite E.
  rewrite lookup_set_code_ne by done. by apply lookup_set_code.
Qed.

Lemma uc_point c u : point (under_construction c u) = Some bb.
Proof. unfold under_construction. by destruct fake as [[fb l]|]. Qed.

Lemma uc_append c u i : append bb i (under_construction c u) = under_construction (c ++ [i]) u.
Proof.
  unfold under_construction. apply append_set_code. destruct fake as [[fb l]|]; [|done].
  destruct (Hfake fb l eq_refl). by rewrite lookup_set_code_ne.
Qed.

Lemma uc_append_fake c u i fb l : fake = Some (fb, l) ->
  at_point bb (append fb i (at_point fb (under_construction c u))) = under_construction c (u ++ [i]).
Proof.
  intros E. destruct (Hfake fb l E) as [Hs Hne]. unfold under_construction. rewrite E.
  unfold at_point, append, set_code. simpl. rewrite Hpoint. f_equal.
  rewrite (list_insert_insert_ne _ bb) by done.
  erewrite alter_as_insert; [|apply list_lookup_insert_eq; rewrite length_insert; by apply lookup_lt_is_Some].
  rewrite list_insert_insert_eq, (list_insert_insert_ne _ fb) by done. done.
Qed.

Definition fake_label : option Z :=
  match continue_block (merge_info (ir n)) with Some _ => None | None => snd <$> fake end.

(** The blocks a PHI names are there. *)
Definition incoming_ok (x : PHI) : Prop :=
  forall y, y ∈ phi_incoming x ->
    exists b nb, incoming_block y = Some b /\ p !! b = Some nb /\ node_id nb = exit b.

Lemma runs_incoming s v l (Q : list (list Z) -> Passes -> Prop) :
  st p v s ->
  (forall y, y ∈ l -> exists b nb, incoming_block y = Some b /\ p !! b = Some nb /\ node_id nb = exit b) ->
  (forall ws, concat ws = (l ≫= fun x => match incoming_block x with
                              | Some b => [incoming_id x; exit b] | None => [] end) -> Q ws s) ->
  runs (mapM_list incoming_operands l) s Q.
Proof.
  intros H. revert Q. induction l as [|y l IH]; intros Q Hl HQ; simpl.
  { apply runs_ret. by apply HQ. }
  destruct (Hl y) as (b & nb & Hb & Hp & Hid); [left|].
  apply runs_bind. unfold incoming_operands at 1. apply runs_bind. eapply runs_deref; [exact Hb|].
  apply runs_bind. eapply runs_node; [done..|]. apply runs_ret, runs_bind. apply IH.
  - intros z Hz. apply Hl. by right.
  - intros ws Hws. apply runs_ret, HQ. simpl. by rewrite Hws, Hb, Hid.
Qed.

Lemma runs_emit_phi s c u x (Q : unit -> Passes -> Prop) :
  st p (under_construction c u) s -> all_undef u -> phi_id x <> 0 -> incoming_ok x ->
  (forall s' i u', phi_emitted exit fake_label x i -> all_undef u' ->
     st p (under_construction (c ++ [i]) u') s' -> Q tt s') ->
  runs (emit_phi node bb made_up x) s Q.
Proof.
  intros H Hu Hx Hin HQ. unfold emit_phi. rewrite (proj2 (Z.eqb_neq _ _) Hx).
  apply runs_bind. eapply runs_incoming; [exact H|exact Hin|]. intros ws Hws.
  apply runs_bind. eapply runs_node; [done..|]. apply runs_bind.
  assert (forall Q' : list Z -> Passes -> Prop, (forall extra u' s', all_undef u' ->
       match fake_label with Some l => exists u, extra = [u; l] | None => extra = [] end ->
       st p (under_construction c u') s' -> Q' extra s') ->
    runs (match made_up, continue_block (merge_info (ir n)) with
      | Some fake, None => on_spv (_ ← setBuildPoint fake; u ← createUndefined (phi_type_id x);
           _ ← setBuildPoint bb; id ← block_id fake; mret [u; id])
      | _, _ => mret [] end) s Q') as Hextra.
  { intros Q' HQ'. unfold fake_label in HQ'. 
    assert (fake = None \/ exists fb l, fake = Some (fb, l)) as [Ef|(fb & l & Ef)].
    { destruct fake as [[fb l]|]; eauto. }
    { rewrite Ef in HQ' |- *. apply runs_ret. eapply HQ'; [exact Hu| |exact H]. by destruct (continue_block _). }
    rewrite Ef in HQ' |- *. simpl in HQ' |- *.
    destruct (continue_block (merge_info (ir n))) as [cb|] eqn:Ec; [apply runs_ret; by eapply HQ'|].
    pose proof (uc_fake c u fb l Ef) as Hc.
    eapply runs_spv; [exact H|]. intros b Hb. apply runs_bind. eapply runs_setBuildPoint; [exact Hb|].
    intros b1 E1. apply runs_bind. eapply (runs_createUndefined _ _ fb l); [exact E1|done|by exists u|].
    intros id b2 E2. apply runs_bind. eapply runs_setBuildPoint; [exact E2|]. intros b3 E3.
    rewrite (uc_append_fake _ _ _ fb l Ef) in E3. apply runs_bind.
    eapply runs_label; [exact E3| |].
    { eexists. by apply uc_fake. }
    apply runs_ret. eexists. split; [exact E3|]. intros s' Hs'. eapply HQ'; [|eauto|exact Hs'].
    split; [|by rewrite Ec; intros []]. apply Forall_app. split; [apply Hu|]. by constructor. }
  apply Hextra. intros extra u' s1 Hu' He H1. apply runs_bind.
  assert (runs (if phi_relaxed x then on_spv (addDecoration (phi_id x) DecorationRelaxedPrecision (-1))
                else mret tt) s1 (fun _ s2 => st p (under_construction c u') s2)) as Hdec.
  { destruct (phi_relaxed x); [|by apply runs_ret]. eapply runs_spv; [exact H1|]. intros b Hb.
    eapply runs_quiet; [apply quiet_addDecoration|exact Hb|]. intros [] b1 E1. eauto. }
  eapply runs_mono; [exact Hdec|]. intros [] s2 H2.
  eapply runs_add_instruction; [exact H2|apply uc_bb|]. intros s3 H3. rewrite uc_append in H3.
  eapply HQ; [|exact Hu'|exact H3]. exists extra. split; [|done]. unfold phi_operands. by rewrite Hws.
Qed.

Lemma runs_emit_phis s c u l (Q : unit -> Passes -> Prop) :
  st p (under_construction c u) s -> all_undef u -> (forall x, x ∈ l -> phi_id x <> 0 -> incoming_ok x) ->
  (forall s' is_ u', Forall2 (phi_emitted exit fake_label) (filter (fun x => phi_id x <> 0) l) is_ ->
     all_undef u' -> st p (under_construction (c ++ is_) u') s' -> Q tt s') ->
  runs (for_eachM (emit_phi node bb made_up) l) s Q.
Proof.
  revert s c u Q. induction l as [|x l IH]; intros s c u Q H Hu Hl HQ; simpl.
  { apply runs_ret. apply (HQ s [] u); [constructor|done|]. by rewrite app_nil_r. }
  apply runs_bind. destruct (decide (phi_id x = 0)) as [E|E].
  - unfold emit_phi at 1. rewrite E. simpl. apply runs_ret.
    eapply IH; [exact H|done|intros y ??; apply Hl; [by right|done]|].
    intros s' is_ u' Hf. apply HQ. rewrite filter_cons_False by (intros Hne; done). exact Hf.
  - eapply runs_emit_phi; [exact H|done|done|apply Hl; [left|done]|]. intros s1 i u1 Hi Hu1 H1.
    eapply IH; [exact H1|done|intros y ??; apply Hl; [by right|done]|].
    intros s2 is_ u2 Hf Hu2 H2. apply (HQ s2 (i :: is_) u2); [|done|].
    + rewrite filter_cons_True by done. by constructor.
    + by rewrite <- app_assoc in H2.
Qed.

End phis.

(** * The rest of the block *)

(** What construction of the block [bb] may change: blocks from [N] on are new. *)
Record later (N : nat) (bb : blockref) (v v' : view) : Prop := {
  la_code : forall x, (x < N)%nat -> x <> bb -> code v' !! x = code v !! x;
  la_length : (length (code v) <= length (code v'))%nat;
  la_parents : forall x g, parents v !! x = Some g -> parents v' !! x = Some g;
  la_function : forall x, v_functions v !! f = Some x -> exists aux,
    v_functions v' !! f = Some (set_function_blocks (function_blocks x ++ aux) x);
}.

Lemma later_refl N bb v : later N bb v v.
Proof.
  split; [done|done|done|]. intros x Hx. exists []. rewrite app_nil_r, Hx. by destruct x.
Qed.

Lemma later_trans N bb v1 v2 v3 : later N bb v1 v2 -> later N bb v2 v3 -> later N bb v1 v3.
Proof.
  intros [A1 A2 A3 A4] [B1 B2 B3 B4]. split.
  - intros x ??. by rewrite B1, A1.
  - lia.
  - auto.
  - intros x Hx. destruct (A4 x Hx) as [a Ha]. destruct (B4 _ Ha) as [b Hb]. exists (a ++ b).
    rewrite Hb. simpl. by rewrite app_assoc.
Qed.

(** A change of the code alone. *)
Lemma later_code N bb v v' :
  (forall x, (x < N)%nat -> x <> bb -> code v' !! x = code v !! x) -> length (code v') = length (code v) ->
  parents v' = parents v -> v_functions v' = v_functions v -> later N bb v v'.
Proof.
  intros H1 H2 H3 H4. destruct (later_refl N bb v) as [_ _ _ A]. split; [done|lia|by rewrite H3|by rewrite H4].
Qed.

Lemma later_append N bb r i v : r = bb \/ (N <= r)%nat -> later N bb v (append r i v).
Proof.
  intros Hr. apply later_code; [|simpl; by rewrite length_alter|done..].
  intros x Hx Hne. rewrite lookup_append. destruct (decide (x = r)); [|done]. destruct Hr; [congruence|lia].
Qed.
Lemma later_at_point N bb q v : later N bb v (at_point q v).
Proof. by apply later_code. Qed.
Lemma later_new_block N bb id v : (N <= length (code v))%nat -> later N bb v (with_new_block id f v).
Proof.
  intros HN. destruct (later_refl N bb v) as [_ _ _ A]. split; simpl; [| | |done].
  - intros x Hx _. rewrite lookup_app_l by lia. done.
  - rewrite length_app. lia.
  - intros x g Hx. by apply lookup_app_l_Some.
Qed.
Lemma later_block_of N bb r v : later N bb v (with_block_of f r v).
Proof.
  split; simpl; [done..|]. intros x Hx. exists [r]. by rewrite list_lookup_alter_eq, Hx.
Qed.
Lemma later_set_code N bb r c v : r = bb \/ (N <= r)%nat -> later N bb v (set_code r c v).
Proof.
  intros Hr. apply later_code; [|simpl; by rewrite length_insert|done..].
  intros x Hx Hne. simpl. apply list_lookup_insert_ne. destruct Hr; [congruence|lia].
Qed.

Lemma unreachable_code_mono (bc bc' : blockref -> option (list Instruction)) id :
  (forall x c, bc x = Some c -> bc' x = Some c) -> unreachable_code bc id -> unreachable_code bc' id.
Proof. intros H [u Hu]. exists u. by apply H. Qed.

Lemma merge_emitted_mono entry (bc bc' : blockref -> option (list Instruction)) fake self i l :
  (forall x c, bc x = Some c -> bc' x = Some c) ->
  merge_emitted entry bc fake self i l -> merge_emitted entry bc' fake self i l.
Proof.
  intros H. unfold merge_emitted.
  destruct (merge_type i), (merge_block i), (continue_block i); try done.
  - intros (c & undefs & fb & ? & ? & Hfb & ?). exists c, undefs, fb. split_and!; try done. by apply H.
  - intros (m & Hm & ?). exists m. split; [|done]. by eapply unreachable_code_mono.
  - intros (u & Hu & ?). exists u. split; [|done]. by eapply unreachable_code_mono.
  - intros (u & Hu & ?). exists u. split; [|done]. by eapply unreachable_code_mono.
Qed.

Lemma terminator_emitted_mono entry (bc bc' : blockref -> option (list Instruction)) self last i t0 l :
  (forall x c, bc x = Some c -> bc' x = Some c) ->
  terminator_emitted entry bc self last i t0 l -> terminator_emitted entry bc' self last i t0 l.
Proof.
  intros H. unfold terminator_emitted. destruct (term_type t0); try done.
  destruct (splits_condition i t0); [|done].
  intros (-> & u & x & Hu & Hx). split; [done|]. exists u, x. split; [by eapply unreachable_code_mono|by apply H].
Qed.

(** The blocks that were added for the block under construction. *)
Definition aux (N : nat) (v : view) (x : blockref) : option (list Instruction) :=
  if decide (N <= x)%nat then code v !! x else None.

Lemma aux_lookup N v x c : (N <= x)%nat -> code v !! x = Some c -> aux N v x = Some c.
Proof. intros H Hc. unfold aux. by rewrite decide_True. Qed.

Lemma aux_mono N N' bb v v' x c : (N <= N')%nat -> (bb < N)%nat -> (length (code v) <= N')%nat ->
  later N' bb v v' -> aux N v x = Some c -> aux N v' x = Some c.
Proof.
  intros HN Hb Hlen Hl. unfold aux. case_decide; [|done]. intros Hx. pose proof (lookup_lt_Some _ _ _ Hx).
  rewrite (la_code _ _ _ _ Hl); [done|lia..].
Qed.

Section rest.
Variables (E : list nodref) (blk : nodref -> blockref) (lab : nodref -> Z).
Variables (p : CFGNodePool) (node : nodref) (n : CFGNode) (N : nat).
Hypotheses (Hnode : p !! node = Some n) (Hself : node ∈ E).
Hypothesis Hblk : forall r, r ∈ E -> exists m, p !! r = Some m /\ userdata m = Some (blk r).
Abbreviation bb := (blk node) (only parsing).
Hypothesis HN : (bb < N)%nat.

(** The block of [node] is being built, the blocks of all nodes have their labels. *)
Record building (v : view) : Prop := {
  bu_point : point v = Some bb;
  bu_labels : forall r, r ∈ E -> labelled v (blk r) (lab r);
  bu_function : is_Some (v_functions v !! f);
  bu_parent : parents v !! bb = Some f;
  bu_length : (N <= length (code v))%nat;
}.

Lemma building_append r i v : building v -> building (append r i v).
Proof.
  intros [A1 A2 A3 A4 A5]. split; [done| |done|done|simpl; by rewrite length_alter].
  intros x Hx. by apply labelled_append, A2.
Qed.

Lemma building_block_of r v : building v -> building (with_block_of f r v).
Proof.
  intros [A1 A2 A3 A4 A5]. split; [done|done| |done|done]. simpl. rewrite list_lookup_alter_eq.
  destruct A3 as [x ->]. eauto.
Qed.

Lemma runs_known s v r (Q : blockref -> Passes -> Prop) :
  st p v s -> r ∈ E -> Q (blk r) s -> runs (get_spv_block r) s Q.
Proof. intros H Hr HQ. destruct (Hblk r Hr) as (m & ? & ?). by eapply runs_spv_block. Qed.

(** A block that ends in [OpUnreachable] right away, in the function. *)
Definition with_unreachable (id : Z) (v : view) : view :=
  at_point bb (append (length (code v)) (mkInstruction 0 0 OpUnreachable [])
    (at_point (length (code v)) (with_block_of f (length (code v)) (with_new_block id f v)))).

Lemma code_with_unreachable id v :
  code (with_unreachable id v) = code v ++ [[label id; mkInstruction 0 0 OpUnreachable []]].
Proof.
  simpl. erewrite alter_as_insert by (by rewrite lookup_app_r, Nat.sub_diag).
  rewrite insert_app_r_alt by done. by rewrite Nat.sub_diag.
Qed.

Lemma building_with_unreachable id v : building v -> building (with_unreachable id v).
Proof.
  intros [A1 A2 A3 A4 A5]. split; [done| | | |].
  - intros r Hr. apply labelled_at_point, labelled_append, labelled_at_point, labelled_with_block_of,
      labelled_with_new_block, A2, Hr.
  - simpl. rewrite list_lookup_alter_eq. destruct A3 as [x ->]. eauto.
  - simpl. by apply lookup_app_l_Some.
  - rewrite code_with_unreachable, length_app. lia.
Qed.

Lemma later_with_unreachable id v : building v -> later N bb v (with_unreachable id v).
Proof.
  intros Hb. pose proof (bu_length v Hb).
  eapply later_trans; [by apply later_new_block|]. eapply later_trans; [apply later_block_of|].
  eapply later_trans; [apply (later_at_point N bb)|]. eapply later_trans; [|apply later_at_point].
  apply later_append. right. done.
Qed.

Lemma runs_add_unreachable s v (Q : blockref -> Passes -> Prop) :
  st p v s -> building v ->
  (forall id s', st p (with_unreachable id v) s' -> Q (length (code v)) s') ->
  runs (add_unreachable_block bb) s Q.
Proof.
  intros H Hb HQ. unfold add_unreachable_block. apply runs_bind. eapply runs_new_spv_block; [exact H|].
  intros id s1 H1. apply runs_bind. eapply runs_add_spv_block; [exact H1|apply Hb|]. intros s2 H2.
  apply runs_bind. eapply runs_spv; [exact H2|]. intros b Eb. eapply runs_setBuildPoint; [exact Eb|].
  intros b1 E1. eexists. split; [exact E1|]. intros s3 H3.
  apply runs_bind. eapply runs_spv; [exact H3|]. intros b3 Eb3.
  eapply (runs_createUnreachable _ _ (length (code v)) id); [exact Eb3|done| |].
  { apply labelled_at_point, labelled_with_block_of, labelled_new_block. }
  intros b4 E4. eexists. split; [exact E4|]. intros s4 H4.
  apply runs_bind. eapply runs_spv; [exact H4|]. intros b5 E5. eapply runs_setBuildPoint; [exact E5|].
  intros b6 E6. eexists. split; [exact E6|]. intros s5 H5. apply runs_ret. by eapply HQ.
Qed.

(** A step at the build point. *)
Lemma runs_end s v (m : BM unit) i (Q : unit -> Passes -> Prop) :
  st p v s -> building v ->
  (forall b (R : unit -> Builder -> Prop), view_of b = v -> point v = Some bb -> labelled v bb (lab node) ->
     (forall b', view_of b' = append bb i v -> R tt b') -> runs m b R) ->
  (forall s', st p (append bb i v) s' -> Q tt s') -> runs (on_spv m) s Q.
Proof.
  intros H Hb Hm HQ. eapply runs_spv; [exact H|]. intros b Eb. eapply Hm; [exact Eb|apply Hb|by apply Hb|].
  intros b' E'. eauto.
Qed.

(** The made-up block of the loop. *)
Definition made_up_ok (fake : option (blockref * Z)) (v : view) : Prop :=
  match fake with
  | Some (fb, l) => needs_fake_loop_block (merge_info (ir n)) = true /\ (N <= fb)%nat /\
      exists u, code v !! fb = Some (label l :: u) /\ all_undef n u
  | None => needs_fake_loop_block (merge_info (ir n)) = false
  end.

Definition emitted_after (v : view) (c : list Instruction)
    (R : (blockref -> option (list Instruction)) -> list Instruction -> Prop) (v' : view) : Prop :=
  later N bb v v' /\ building v' /\ exists l, code v' !! bb = Some (c ++ l) /\ R (aux N v') l.

Lemma emitted_append v v1 c i R : later N bb v v1 -> building v1 -> code v1 !! bb = Some c ->
  R (aux N (append bb i v1)) [i] -> emitted_after v c R (append bb i v1).
Proof.
  intros Hl Hb Hc HR. split_and!.
  - eapply later_trans; [exact Hl|]. apply later_append. by left.
  - by apply building_append.
  - exists [i]. split; [|done]. rewrite lookup_append, decide_True by done. by rewrite Hc.
Qed.

Lemma runs_selection_merge s v r id control (Q : unit -> Passes -> Prop) :
  st p v s -> building v -> labelled v r id ->
  (forall s', st p (append bb (mkInstruction 0 0 OpSelectionMerge [id; control]) v) s' -> Q tt s') ->
  runs (on_spv (createSelectionMerge r control)) s Q.
Proof.
  intros H Hb Hr HQ. eapply runs_end; [exact H|exact Hb| |exact HQ].
  intros b R Eb Hp Hl HR. by eapply (runs_createSelectionMerge b v bb (lab node)).
Qed.

Lemma runs_loop_merge s v r idr c idc control (Q : unit -> Passes -> Prop) :
  st p v s -> building v -> labelled v r idr -> labelled v c idc ->
  (forall s', st p (append bb (mkInstruction 0 0 OpLoopMerge [idr; idc; control]) v) s' -> Q tt s') ->
  runs (on_spv (createLoopMerge r c control)) s Q.
Proof.
  intros H Hb Hr Hc HQ. eapply runs_end; [exact H|exact Hb| |exact HQ].
  intros b R Eb Hp Hl HR. by eapply (runs_createLoopMerge b v bb (lab node)).
Qed.

(** The made-up block joins the function and gets its end [i]. *)
Definition closed (fb : blockref) (i : Instruction) (v : view) : view :=
  at_point bb (append fb i (at_point fb (with_block_of f fb v))).

Lemma building_closed fb i v : building v -> building (closed fb i v).
Proof.
  intros Hb. apply (building_block_of fb), (building_append fb i) in Hb as [A1 A2 A3 A4 A5]. by split.
Qed.
Lemma later_closed fb i v : (N <= fb)%nat -> later N bb v (closed fb i v).
Proof.
  intros Hfb. eapply later_trans; [apply (later_block_of N bb fb)|].
  eapply later_trans; [apply (later_at_point N bb fb)|].
  eapply later_trans; [|apply later_at_point]. apply later_append. by right.
Qed.
Lemma code_closed fb i v x : code (closed fb i v) !! x =
  (if decide (x = fb) then (fun c => c ++ [i]) <$> code v !! x else code v !! x).
Proof. apply (lookup_append fb i (at_point fb (with_block_of f fb v))). Qed.

Lemma runs_point s v q (Q : unit -> Passes -> Prop) :
  st p v s -> (forall s', st p (at_point q v) s' -> Q tt s') -> runs (on_spv (setBuildPoint q)) s Q.
Proof.
  intros H HQ. eapply runs_spv; [exact H|]. intros b Eb. eapply runs_setBuildPoint; [exact Eb|]. eauto.
Qed.

(** The end [m] of the made-up block, from its joining the function to the way back. *)
Lemma runs_close {A} s v fb l u (m : BM unit) i (k : PM A) Q :
  st p v s -> building v -> code v !! fb = Some (label l :: u) ->
  (forall b (R : unit -> Builder -> Prop), view_of b = at_point fb (with_block_of f fb v) ->
     (forall b', view_of b' = append fb i (at_point fb (with_block_of f fb v)) -> R tt b') -> runs m b R) ->
  (forall s', st p (closed fb i v) s' -> runs k s' Q) ->
  runs (_ ← add_spv_block fb; _ ← on_spv (setBuildPoint fb); _ ← on_spv m; _ ← on_spv (setBuildPoint bb); k) s Q.
Proof.
  intros H Hb Hc Hm HQ. apply runs_bind. eapply runs_add_spv_block; [exact H|apply Hb|]. intros s2 H2.
  apply runs_bind. eapply runs_point; [exact H2|]. intros s3 H3.
  apply runs_bind. eapply runs_spv; [exact H3|]. intros b3 E3. eapply Hm; [exact E3|]. intros b4 E4.
  eexists. split; [exact E4|]. intros s4 H4.
  apply runs_bind. eapply runs_point; [exact H4|]. exact HQ.
Qed.

Hypothesis Hmerge : forall m, merge_block (merge_info (ir n)) = Some m -> m ∈ E.
Hypothesis Hcontinue : forall m, continue_block (merge_info (ir n)) = Some m -> m ∈ E.

(** A merge that is never reached. *)
Lemma runs_loop_without_merge s v c fb l cb continue_bb (Q : unit -> Passes -> Prop) :
  st p v s -> building v -> code v !! bb = Some c -> (N <= fb)%nat -> code v !! fb = Some [label l] -> bb <> fb ->
  merge_type (merge_info (ir n)) = MergeLoop -> merge_block (merge_info (ir n)) = None ->
  continue_block (merge_info (ir n)) = Some cb -> continue_bb = Some (blk cb) ->
  (forall s' v', emitted_after v c (fun bc k => merge_emitted lab bc (Some l) (lab node) (merge_info (ir n)) k) v' ->
     st p v' s' -> Q tt s') ->
  runs (_ ← add_spv_block fb;
        _ ← on_spv (setBuildPoint fb);
        _ ← on_spv createUnreachable;
        _ ← on_spv (setBuildPoint bb);
        c ← derefM continue_bb;
        on_spv (createLoopMerge fb c 0)) s Q.
Proof.
  intros H Hb Hc Hfb Hu Hne Hty Emb Ecb -> HQ.
  eapply runs_close; [exact H|exact Hb|exact Hu| |].
  { intros b R Eb HR. eapply (runs_createUnreachable b _ fb l); [exact Eb|done|by exists []|exact HR]. }
  intros s1 H1. apply runs_bind. eapply runs_deref; [done|].
  pose proof (building_closed fb (mkInstruction 0 0 OpUnreachable []) v Hb) as Hb1.
  eapply runs_loop_merge; [exact H1|exact Hb1| |by apply Hb1, Hcontinue|].
  { exists [mkInstruction 0 0 OpUnreachable []]. by rewrite code_closed, decide_True, Hu. }
  intros s' H'. eapply HQ; [|exact H']. eapply emitted_append; [by apply later_closed|exact Hb1| |].
  { by rewrite code_closed, decide_False. }
  unfold merge_emitted. rewrite Hty, Emb, Ecb. exists l. split; [|done]. exists fb. apply aux_lookup; [done|].
  rewrite lookup_append, decide_False by done. by rewrite code_closed, decide_True, Hu.
Qed.

(** A continue block that is never reached. *)
Lemma runs_loop_without_continue s v c fb l u mb (Q : unit -> Passes -> Prop) :
  st p v s -> building v -> code v !! bb = Some c -> (N <= fb)%nat -> code v !! fb = Some (label l :: u) ->
  Forall (fun x => opCode x = OpUndef) u -> bb <> fb ->
  merge_type (merge_info (ir n)) = MergeLoop -> merge_block (merge_info (ir n)) = Some mb ->
  continue_block (merge_info (ir n)) = None ->
  (forall s' v', emitted_after v c (fun bc k => merge_emitted lab bc (Some l) (lab node) (merge_info (ir n)) k) v' ->
     st p v' s' -> Q tt s') ->
  runs (_ ← add_spv_block fb;
        _ ← on_spv (setBuildPoint fb);
        self ← get_spv_block node;
        _ ← on_spv (createBranch self);
        _ ← on_spv (setBuildPoint bb);
        m ← get_spv_block mb;
        on_spv (createLoopMerge m fb 0)) s Q.
Proof.
  intros H Hb Hc Hfb Hu Hundef Hne Hty Emb Ecb HQ.
  pose proof (building_closed fb (mkInstruction 0 0 OpBranch [lab node]) v Hb) as Hb1.
  apply runs_bind. eapply runs_add_spv_block; [exact H|apply Hb|]. intros s2 H2.
  apply runs_bind. eapply runs_point; [exact H2|]. intros s3 H3.
  apply runs_bind. eapply runs_known; [exact H3|exact Hself|].
  apply runs_bind. eapply runs_spv; [exact H3|]. intros b3 E3.
  eapply (runs_createBranch b3 _ fb l); [exact E3|done|by exists u|by apply Hb|]. intros b4 E4.
  eexists. split; [exact E4|]. intros s4 H4.
  apply runs_bind. eapply runs_point; [exact H4|]. intros s5 H5.
  change (st p (closed fb (mkInstruction 0 0 OpBranch [lab node]) v) s5) in H5.
  apply runs_bind. eapply runs_known; [exact H5|by apply Hmerge|].
  eapply runs_loop_merge; [exact H5|exact Hb1|by apply Hb1, Hmerge| |].
  { exists (u ++ [mkInstruction 0 0 OpBranch [lab node]]). by rewrite code_closed, decide_True, Hu. }
  intros s' H'. eapply HQ; [|exact H']. eapply emitted_append; [by apply later_closed|exact Hb1| |].
  { by rewrite code_closed, decide_False. }
  unfold merge_emitted. rewrite Hty, Emb, Ecb. exists l, u, fb. split_and!; [done|done| |done]. apply aux_lookup; [done|].
  rewrite lookup_append, decide_False by done. by rewrite code_closed, decide_True, Hu.
Qed.

Lemma runs_emit_loop_header s v c fake (Q : unit -> Passes -> Prop) :
  st p v s -> building v -> code v !! bb = Some c -> made_up_ok fake v ->
  merge_type (merge_info (ir n)) = MergeLoop ->
  (forall s' v', emitted_after v c (fun bc l => merge_emitted lab bc (snd <$> fake) (lab node) (merge_info (ir n)) l) v' ->
     st p v' s' -> Q tt s') ->
  runs (emit_loop_header node bb (fst <$> fake) None) s Q.
Proof.
  intros H Hb Hc Hfake Hty HQ. unfold emit_loop_header. apply runs_bind. eapply runs_node; [done..|].
  unfold made_up_ok, needs_fake_loop_block in Hfake. rewrite Hty, bool_decide_true in Hfake by done.
  assert (exists x y, continue_block (merge_info (ir n)) = x /\ merge_block (merge_info (ir n)) = y)
    as (x & y & Ecb & Emb) by eauto.
  pose proof (Hcontinue) as Hcn. pose proof Hmerge as Hmr. rewrite Ecb in Hfake, Hcn |- *. rewrite Emb in Hfake, Hmr |- *.
  destruct x as [cb|].
  - apply runs_bind, runs_bind. eapply runs_known; [exact H|by apply Hcn|]. apply runs_ret. destruct y as [mb|].
    + apply runs_bind. eapply runs_known; [exact H|by apply Hmr|].
      apply runs_bind. eapply runs_deref; [done|].
      eapply runs_loop_merge; [exact H|exact Hb|by apply Hb, Hmr|by apply Hb, Hcn|]. intros s' H'.
      eapply HQ; [|exact H']. eapply emitted_append; [apply later_refl|exact Hb|exact Hc|].
      unfold merge_emitted. by rewrite Hty, Emb, Ecb.
    + destruct fake as [[fb l]|]; [|by rewrite bool_decide_false, bool_decide_true in Hfake by (try done; by intros []; eauto)].
      destruct Hfake as (_ & Hfb & u & Hu & _ & Hu0). rewrite (Hu0 ltac:(eauto)) in Hu.
      simpl. apply runs_bind. eapply runs_deref; [done|].
      eapply runs_loop_without_merge; [exact H|exact Hb|exact Hc|exact Hfb|exact Hu|lia|exact Hty|exact Emb|exact Ecb|done|exact HQ].
  - destruct y as [mb|]; apply runs_bind, runs_ret.
    + destruct fake as [[fb l]|]; [|done].
      destruct Hfake as (_ & Hfb & u & Hu & Hundef & _). simpl.
      apply runs_bind. eapply runs_deref; [done|].
      eapply runs_loop_without_continue; [exact H|exact Hb|exact Hc|exact Hfb|exact Hu|exact Hundef|lia|exact Hty|exact Emb|exact Ecb|exact HQ].
    + apply runs_ret. eapply HQ; [|exact H]. unfold merge_emitted. rewrite Hty, Emb, Ecb.
      split_and!; [apply later_refl|done|]. exists []. by rewrite app_nil_r.
Qed.

Lemma runs_emit_merge s v c fake (Q : unit -> Passes -> Prop) :
  st p v s -> building v -> code v !! bb = Some c -> made_up_ok fake v ->
  (forall s' v', emitted_after v c (fun bc l => merge_emitted lab bc (snd <$> fake) (lab node) (merge_info (ir n)) l) v' ->
     st p v' s' -> Q tt s') ->
  runs (emit_merge node (fst <$> fake) (mkEmitState bb 0 false)) s Q.
Proof.
  intros H Hb Hc Hfake HQ. unfold emit_merge. apply runs_bind. eapply runs_node; [done..|].
  destruct (merge_type (merge_info (ir n))) eqn:Hty.
  - apply runs_ret. eapply HQ; [|exact H]. split_and!; [apply later_refl|done|].
    exists []. rewrite app_nil_r. split; [done|]. unfold merge_emitted. by rewrite Hty.
  - by eapply runs_emit_loop_header.
  - unfold merge_emitted in HQ. rewrite Hty in HQ. destruct (merge_block (merge_info (ir n))) as [mb|] eqn:Emb.
    + apply runs_bind. eapply runs_known; [exact H|by apply Hmerge|].
      eapply runs_selection_merge; [exact H|exact Hb|by apply Hb, Hmerge|]. intros s' H'.
      eapply HQ; [|exact H']. by eapply emitted_append; [apply later_refl|exact Hb|exact Hc|].
    + apply runs_bind. eapply runs_add_unreachable; [exact H|exact Hb|]. intros id s1 H1.
      pose proof (building_with_unreachable id v Hb) as Hb1. pose proof (bu_length v Hb) as Hlen.
      assert (code (with_unreachable id v) !! length (code v) = Some [label id; mkInstruction 0 0 OpUnreachable []])
        as Hu by by rewrite code_with_unreachable, lookup_app_r, Nat.sub_diag.
      eapply runs_selection_merge; [exact H1|exact Hb1|by eexists|]. intros s' H'.
      eapply HQ; [|exact H']. eapply emitted_append; [by apply later_with_unreachable|exact Hb1| |].
      { rewrite code_with_unreachable. by apply lookup_app_l_Some. }
      exists id. split; [|done]. exists (length (code v)). apply aux_lookup; [done|].
      by rewrite lookup_append, decide_False by lia.
Qed.

(** ** Terminators *)

Hypothesis Hid : node_id n = lab node.
Hypothesis Htarget : match term_type (terminator (ir n)) with
  | TBranch => known E (direct_block (terminator (ir n)))
  | TCondition => known E (true_block (terminator (ir n))) /\ known E (false_block (terminator (ir n)))
  | TSwitch => is_Some (default_case (terminator (ir n))) /\
      forall c, c ∈ cases (terminator (ir n)) -> exists b m, case_node c = Some b /\ b ∈ E /\
        p !! b = Some m /\ userdata m = Some (blk b) /\ node_id m = lab b
  | _ => True
  end.

Abbreviation term := (terminator (ir n)) (only parsing).

(** The label of the last block becomes the id of the node. *)
Definition terminated (v : view) (c : list Instruction) (p' : CFGNodePool) (v' : view) : Prop :=
  exists last l, p' = <[node := set_node_id last n]> p /\ later N bb v v' /\
    code v' !! bb = Some (c ++ l) /\
    terminator_emitted lab (aux N v') (lab node) last (merge_info (ir n)) term l.

Lemma same_node : <[node := set_node_id (lab node) n]> p = p.
Proof. rewrite <- Hid. replace (set_node_id (node_id n) n) with n by by destruct n. by apply list_insert_id. Qed.

Lemma terminated_same v c v' l :
  later N bb v v' -> code v' !! bb = Some (c ++ l) ->
  terminator_emitted lab (aux N v') (lab node) (lab node) (merge_info (ir n)) term l ->
  terminated v c p v'.
Proof. intros H1 H2 H3. exists (lab node), l. by rewrite same_node. Qed.

Lemma runs_spv_block_of s v r (Q : blockref -> Passes -> Prop) :
  st p v s -> known E r -> (forall b, r = Some b -> b ∈ E -> Q (blk b) s) -> runs (spv_block_of r) s Q.
Proof.
  intros H (b & -> & Hb) HQ. apply runs_bind. eapply runs_deref; [done|]. eapply runs_known; [exact H|done|].
  by apply HQ.
Qed.

Lemma runs_branch s v r id (Q : unit -> Passes -> Prop) :
  st p v s -> building v -> labelled v r id ->
  (forall s', st p (append bb (mkInstruction 0 0 OpBranch [id]) v) s' -> Q tt s') ->
  runs (on_spv (createBranch r)) s Q.
Proof.
  intros H Hb Hr HQ. eapply runs_end; [exact H|exact Hb| |exact HQ].
  intros b R Eb Hp Hl HR. by eapply (runs_createBranch b v bb (lab node)).
Qed.

Lemma runs_unsplit_condition s v c tb fb (Q : unit -> Passes -> Prop) :
  st p v s -> building v -> code v !! bb = Some c -> splits_condition (merge_info (ir n)) term = false ->
  term_type term = TCondition ->
  true_block term = Some tb -> false_block term = Some fb -> tb ∈ E -> fb ∈ E ->
  (forall s' p' v', terminated v c p' v' -> st p' v' s' -> Q tt s') ->
  runs (on_spv (createConditionalBranch (conditional_id term) (blk tb) (blk fb))) s Q.
Proof.
  intros H Hb Hc Hs Hty Et Ef Htb Hfb HQ. pose proof (bu_labels v Hb) as Hl.
  eapply runs_spv; [exact H|]. intros b Eb.
  eapply (runs_createConditionalBranch b v bb (lab node)); [exact Eb|apply Hb|by apply Hl|by apply Hl|by apply Hl|].
  intros b' E'. eexists. split; [exact E'|]. intros s' H'. eapply HQ; [|exact H'].
  eapply terminated_same; [apply later_append; by left|by rewrite lookup_append, decide_True, Hc|].
  unfold terminator_emitted. rewrite Hty, Hs. unfold branch_instruction, target. by rewrite Et, Ef.
Qed.

(** The view after the split of a condition. *)
Definition split_view (id u : Z) (t1 f1 : Z) (v : view) : view :=
  let x := length (code v) in
  let y := S x in
  let v1 := with_new_block u f (with_new_block id f v) in
  let v2 := with_block_of f y (with_block_of f x v1) in
  append y (mkInstruction 0 0 OpUnreachable []) (at_point y
    (append x (mkInstruction 0 0 OpBranchConditional [conditional_id term; t1; f1])
    (append x (mkInstruction 0 0 OpSelectionMerge [u; 0])
    (at_point x (append bb (mkInstruction 0 0 OpBranch [id]) v2))))).

Lemma runs_split_blocks s v (Q : blockref -> blockref -> PM unit) R :
  st p v s -> building v ->
  (forall id u s', st p (with_block_of f (S (length (code v))) (with_block_of f (length (code v))
       (with_new_block u f (with_new_block id f v)))) s' ->
     runs (Q (length (code v)) (S (length (code v)))) s' R) ->
  runs (a ← new_spv_block; b ← new_spv_block; _ ← add_spv_block a; _ ← add_spv_block b; Q a b) s R.
Proof.
  intros H Hb HQ. apply runs_bind. eapply runs_new_spv_block; [exact H|]. intros id s1 H1.
  apply runs_bind. eapply runs_new_spv_block; [exact H1|]. intros u s2 H2. simpl in H2 |- *.
  rewrite length_app. simpl. rewrite Nat.add_1_r.
  apply runs_bind. eapply runs_add_spv_block; [exact H2|apply Hb|]. intros s3 H3.
  apply runs_bind. eapply runs_add_spv_block; [exact H3| |].
  { simpl. rewrite list_lookup_alter_eq. destruct (bu_function v Hb) as [x ->]. eauto. }
  intros s4 H4. by eapply HQ.
Qed.

Lemma code_split_view id u t1 f1 v z : building v ->
  code (split_view id u t1 f1 v) !! z =
    if decide (z = length (code v)) then Some [label id; mkInstruction 0 0 OpSelectionMerge [u; 0];
      mkInstruction 0 0 OpBranchConditional [conditional_id term; t1; f1]]
    else if decide (z = S (length (code v))) then Some [label u; mkInstruction 0 0 OpUnreachable []]
    else if decide (z = bb) then (fun c => c ++ [mkInstruction 0 0 OpBranch [id]]) <$> code v !! z
    else code v !! z.
Proof.
  intros Hb. pose proof (bu_length v Hb) as HNl. unfold split_view. cbv zeta.
  set (x := length (code v)). rewrite lookup_append. cbn [code at_point]. rewrite !lookup_append.
  cbn [code at_point]. rewrite lookup_append. cbn [code with_block_of with_new_block].
  rewrite <- app_assoc. simpl.
  destruct (decide (z = x)) as [->|Hx].
  { rewrite !decide_False by lia. subst x. by rewrite lookup_app_r, Nat.sub_diag by done. }
  destruct (decide (z = S x)) as [->|Hy].
  { rewrite decide_False by lia. rewrite lookup_app_r by (subst x; lia).
    subst x. by rewrite Nat.sub_succ_l, Nat.sub_diag by done. }
  assert (((code v ++ [[label id]; [label u]]) !! z : option (list Instruction)) = code v !! z) as ->; [|done].
  destruct (decide (z < x)%nat).
  - by apply lookup_app_l.
  - rewrite (lookup_ge_None_2 (code v)) by (subst x; lia). apply lookup_ge_None_2. rewrite length_app. simpl. lia.
Qed.

Lemma later_split_view id u t1 f1 v : building v -> later N bb v (split_view id u t1 f1 v).
Proof.
  intros Hb. pose proof (bu_length v Hb) as HNl. unfold split_view. cbv zeta.
  repeat first [eapply later_trans; [|apply later_append; solve [by left | right; lia]]
               | eapply later_trans; [|apply later_at_point]
               | eapply later_trans; [|apply later_block_of]].
  eapply later_trans; [by apply later_new_block|]. apply later_new_block. simpl. rewrite length_app. lia.
Qed.

Lemma runs_split_condition s v c tb fb (Q : unit -> Passes -> Prop) :
  st p v s -> building v -> code v !! bb = Some c -> splits_condition (merge_info (ir n)) term = true ->
  term_type term = TCondition ->
  true_block term = Some tb -> false_block term = Some fb -> tb ∈ E -> fb ∈ E ->
  (forall s' p' v', terminated v c p' v' -> st p' v' s' -> Q tt s') ->
  runs (fake_selection_bb ← new_spv_block;
        unreachable_bb ← new_spv_block;
        _ ← add_spv_block fake_selection_bb;
        _ ← add_spv_block unreachable_bb;
        _ ← on_spv (_ ← createBranch fake_selection_bb;
                    _ ← setBuildPoint fake_selection_bb;
                    _ ← createSelectionMerge unreachable_bb 0;
                    _ ← createConditionalBranch (conditional_id term) (blk tb) (blk fb);
                    _ ← setBuildPoint unreachable_bb;
                    createUnreachable);
        id ← on_spv (block_id fake_selection_bb);
        set_node node (set_node_id id)) s Q.
Proof.
  intros H Hb Hc Hs Hty Et Ef Htb Hfb HQ. pose proof (bu_length v Hb) as HNl.
  eapply (runs_split_blocks s v); [exact H|exact Hb|]. intros id u s1 H1.
  pose proof (bu_labels v Hb) as Hl.
  assert (forall r, r ∈ E -> labelled (with_block_of f (S (length (code v))) (with_block_of f (length (code v))
       (with_new_block u f (with_new_block id f v)))) (blk r) (lab r)) as Hl2.
  { intros r Hr. by apply labelled_with_block_of, labelled_with_block_of, labelled_with_new_block,
      labelled_with_new_block, Hl. }
  assert (labelled (with_new_block u f (with_new_block id f v)) (length (code v)) id) as Hlx.
  { apply labelled_with_new_block, labelled_new_block. }
  assert (labelled (with_new_block u f (with_new_block id f v)) (S (length (code v))) u) as Hly.
  { replace (S (length (code v))) with (length (code (with_new_block id f v))).
    - apply labelled_new_block.
    - simpl. rewrite length_app. simpl. lia. }
  apply runs_bind. eapply runs_spv; [exact H1|]. intros b Eb.
  apply runs_bind. eapply (runs_createBranch b _ bb (lab node)); [exact Eb|apply Hb|by apply Hl2|exact Hlx|].
  intros b1 E1. apply runs_bind. eapply runs_setBuildPoint; [exact E1|]. intros b2 E2.
  apply runs_bind. eapply (runs_createSelectionMerge b2 _ (length (code v)) id); [exact E2|done| | |].
  { by apply labelled_at_point, labelled_append. }
  { by apply labelled_at_point, labelled_append. }
  intros b3 E3. apply runs_bind.
  eapply (runs_createConditionalBranch b3 _ (length (code v)) id); [exact E3|done| | | |].
  { by apply labelled_append, labelled_at_point, labelled_append. }
  { by apply labelled_append, labelled_at_point, labelled_append, Hl2. }
  { by apply labelled_append, labelled_at_point, labelled_append, Hl2. }
  intros b4 E4. apply runs_bind. eapply runs_setBuildPoint; [exact E4|]. intros b5 E5.
  eapply (runs_createUnreachable b5 _ (S (length (code v))) u); [exact E5|done| |].
  { by apply labelled_at_point, labelled_append, labelled_append, labelled_at_point, labelled_append. }
  intros b6 E6. fold (split_view id u (lab tb) (lab fb) v) in E6. eexists. split; [exact E6|]. intros s2 H2.
  change (st p (split_view id u (lab tb) (lab fb) v) s2) in H2.
  apply runs_bind. eapply runs_spv; [exact H2|]. intros b7 Eb7.
  eapply (runs_label _ _ _ id); [exact Eb7| |].
  { eexists. by rewrite code_split_view, decide_True. }
  eexists. split; [exact Eb7|]. intros s3 H3. eapply runs_set; [exact H3|done|]. intros s4 H4.
  eapply HQ; [|exact H4]. exists id, [mkInstruction 0 0 OpBranch [id]]. split; [done|].
  split; [by apply later_split_view|].
  split; [rewrite code_split_view by done; repeat case_decide; (lia || by rewrite Hc)|].
  unfold terminator_emitted. rewrite Hty, Hs. split; [done|]. exists u, (length (code v)).
  split; [exists (S (length (code v)))|].
  - apply aux_lookup; [lia|]. rewrite code_split_view by done. repeat case_decide; (lia || done).
  - apply aux_lookup; [lia|]. rewrite code_split_view, decide_True by done. unfold branch_instruction, target. by rewrite Et, Ef.
Qed.

Abbreviation e0 := (mkEmitState bb 0 false) (only parsing).

Definition case_ok (c : Case) : Prop := exists b m, case_node c = Some b /\ b ∈ E /\
  p !! b = Some m /\ userdata m = Some (blk b) /\ node_id m = lab b.

Lemma runs_case_target s v from_id c (Q : Z -> Passes -> Prop) :
  st p v s -> building v -> case_ok c ->
  (forall s', st p v s' -> Q (target lab (case_node c)) s') ->
  runs (emit_case_target bb from_id e0 c) s Q.
Proof.
  intros H Hb (b & m & Ec & Hin & Hm & Hu & Hi) HQ. unfold emit_case_target.
  apply runs_bind. eapply runs_deref; [exact Ec|]. apply runs_bind. eapply runs_node; [done..|].
  apply runs_bind. eapply runs_deref; [exact Hu|]. apply runs_bind.
  destruct (bu_labels v Hb b Hin) as [cb Hcb]. destruct (bu_labels v Hb node Hself) as [cn Hcn].
  eapply runs_spv; [exact H|]. intros b1 E1. eapply runs_addPredecessor; [exact E1|done|done|].
  intros b2 E2. eexists. split; [exact E2|]. intros s' H'. apply runs_bind, runs_ret, runs_ret.
  rewrite Hi. specialize (HQ s' H'). by rewrite Ec in HQ.
Qed.

Lemma runs_case_targets s v from_id l (Q : list (list Z) -> Passes -> Prop) :
  st p v s -> building v -> (forall c, c ∈ l -> case_ok c) ->
  (forall s' ws, concat ws = (l ≫= fun c => [case_value c; target lab (case_node c)]) -> st p v s' -> Q ws s') ->
  runs (mapM_list (fun c => id ← emit_case_target bb from_id e0 c; mret [case_value c; id]) l) s Q.
Proof.
  intros H Hb. revert s H Q. induction l as [|c l IH]; intros s H Q Hl HQ; simpl.
  { apply runs_ret. by apply HQ. }
  apply runs_bind, runs_bind. eapply runs_case_target; [exact H|exact Hb|apply Hl; left|]. intros s1 H1.
  apply runs_ret, runs_bind. eapply IH; [exact H1|intros; apply Hl; by right|]. intros s2 ws Hws H2.
  apply runs_ret. apply HQ; [simpl; by rewrite Hws|done].
Qed.

Lemma runs_emit_terminator s v c (Q : unit -> Passes -> Prop) :
  st p v s -> building v -> code v !! bb = Some c ->
  (forall s' p' v', terminated v c p' v' -> st p' v' s' -> Q tt s') ->
  runs (emit_terminator node (lab node) e0) s Q.
Proof.
  intros H Hb Hc HQ. unfold emit_terminator. apply runs_bind. eapply runs_node; [done..|].
  assert (forall i s', st p (append bb i v) s' ->
     terminator_emitted lab (aux N (append bb i v)) (lab node) (lab node) (merge_info (ir n)) term [i] ->
     Q tt s') as Hsimple.
  { intros i s' H' Hi. eapply HQ; [|exact H']. eapply terminated_same; [| |exact Hi].
    - apply later_append. by left.
    - by rewrite lookup_append, decide_True, Hc. }
  unfold terminator_emitted in Hsimple. pose proof Htarget as Ht0.
  assert (exists ty, term_type term = ty) as [ty Hty] by eauto. rewrite Hty in Ht0, Hsimple |- *.
  destruct ty.
  - eapply runs_end; [exact H|exact Hb| |by intros s' H'; eapply Hsimple].
    intros b R Eb Hp Hl HR. by eapply (runs_createUnreachable b v bb (lab node)).
  - apply runs_bind. eapply runs_spv_block_of; [exact H|exact Ht0|]. intros d Ed Hd.
    apply runs_bind. eapply runs_branch; [exact H|exact Hb|by apply Hb|]. intros s' H'. apply runs_ret.
    eapply Hsimple; [exact H'|]. unfold target. by rewrite Ed.
  - destruct Ht0 as [Ht1 Ht2]. unfold emit_condition.
    apply runs_bind. eapply runs_spv_block_of; [exact H|exact Ht1|]. intros tb Etb Htb.
    apply runs_bind. eapply runs_spv_block_of; [exact H|exact Ht2|]. intros fb Efb Hfb. cbv zeta.
    apply runs_bind. cbn [rewrite_phi_incoming_to]. simpl (0 =? 0).
    destruct (splits_condition (merge_info (ir n)) term) eqn:Es.
    + eapply runs_split_condition; [exact H|exact Hb|exact Hc|done..|]. intros s' p' v' Hv H'.
      apply runs_bind, runs_ret, runs_ret. by eapply HQ.
    + eapply runs_unsplit_condition; [exact H|exact Hb|exact Hc|done..|]. intros s' p' v' Hv H'.
      apply runs_bind, runs_ret, runs_ret. by eapply HQ.
  - destruct Ht0 as [[d Ed] Hcases]. unfold emit_switch. apply runs_bind.
    eapply runs_deref; [exact Ed|]. apply runs_bind.
    eapply runs_case_target; [exact H|exact Hb| |].
    { unfold default_case in Ed. destruct (list_find _ _) as [[k d']|] eqn:Ef; [|done]. injection Ed as ->.
      apply Hcases. apply list_find_Some in Ef as (Ef & _). by eapply list_elem_of_lookup_2. }
    intros s1 H1. apply runs_bind. eapply runs_case_targets; [exact H1|exact Hb| |].
    { intros c' [_ Hc']%list_elem_of_filter. by apply Hcases. }
    intros s2 ws Hws H2. eapply runs_add_instruction; [exact H2|exact Hc|]. intros s3 H3.
    eapply Hsimple; [exact H3|]. split; [|done]. unfold switch_operands. by rewrite Ed, Hws.
  - apply runs_bind. assert (discard_state_var_id (module s) = 0) as Hd.
    { destruct H as (_ & H & _). unfold constants in H. congruence. }
    unfold on_module at 1. apply runs_zoom, runs_gets. rewrite set_module_id, Hd. simpl.
    apply runs_bind, runs_ret. destruct (bu_function v Hb) as [x Hx].
    eapply runs_spv; [exact H|]. intros b Eb.
    eapply (runs_makeReturn b v bb (lab node) f x); [exact Eb|apply Hb|by apply Hb|apply Hb|exact Hx|].
    intros id b' E'. eexists. split; [exact E'|]. intros s' H'. eapply HQ; [|exact H'].
    eapply (terminated_same v c _ [return_instruction (return_value term)]).
    + eapply later_trans; [|apply later_at_point]. eapply later_trans; [|apply later_block_of].
      eapply later_trans; [apply (later_append N bb bb); by left|]. apply later_new_block.
      simpl. rewrite length_alter. apply Hb.
    + simpl. apply lookup_app_l_Some. by rewrite list_lookup_alter_eq, Hc.
    + unfold terminator_emitted. by rewrite Hty.
  - eapply runs_add_instruction; [exact H|exact Hc|]. intros s' H'. by eapply Hsimple.
Qed.
End rest.

(** * One block *)

Section basic_block.
Variables (E : list nodref) (blk : nodref -> blockref) (lab exit : nodref -> Z).
Variables (p : CFGNodePool) (node : nodref) (n : CFGNode) (v : view) (os : list Operation).
Hypotheses (Hnode : p !! node = Some n) (Hself : node ∈ E).
Hypothesis Hblk : forall r, r ∈ E -> exists m, p !! r = Some m /\ userdata m = Some (blk r).
Abbreviation bb := (blk node) (only parsing).
Abbreviation N := (length (code v)) (only parsing).
Hypotheses (Hcode : code v !! bb = Some [label (lab node)]) (Hid : node_id n = lab node).
Hypotheses (Hlabels : forall r, r ∈ E -> labelled v (blk r) (lab r)) (Hfun : is_Some (v_functions v !! f))
  (Hpar : parents v !! bb = Some f).
Hypothesis Hmerge : forall m, merge_block (merge_info (ir n)) = Some m -> m ∈ E.
Hypothesis Hcontinue : forall m, continue_block (merge_info (ir n)) = Some m -> m ∈ E.
Hypothesis Hphi : forall x, x ∈ phi (ir n) -> phi_id x <> 0 -> incoming_ok p exit x.
Hypothesis Hops : Forall2 (fun r o => ops_pool !! r = Some o /\ plain_op o) (operations (ir n)) os.
Hypothesis Htarget : match term_type (terminator (ir n)) with
  | TBranch => known E (direct_block (terminator (ir n)))
  | TCondition => known E (true_block (terminator (ir n))) /\ known E (false_block (terminator (ir n)))
  | TSwitch => is_Some (default_case (terminator (ir n))) /\
      forall c, c ∈ cases (terminator (ir n)) -> case_ok E blk lab p c
  | _ => True
  end.

(** What [emit_basic_block] leaves behind: [last] is the label of the last block. *)
Definition basic_block_emitted (last : Z) (v' : view) : Prop :=
  let i := merge_info (ir n) in
  exists fake phis body ended rest,
    code v' !! bb = Some (label (lab node) :: phis ++ body ++ rest) /\
    (is_Some fake <-> needs_fake_loop_block i = true) /\
    Forall2 (phi_emitted exit (match continue_block i with Some _ => None | None => fake end))
      (filter (fun x => phi_id x <> 0) (phi (ir n))) phis /\
    ops_emitted os body ended /\
    if ended : bool then rest = [] /\ last = lab node
    else exists m t, rest = m ++ t /\
      merge_emitted lab (aux N v') fake (lab node) i m /\
      terminator_emitted lab (aux N v') (lab node) last i (terminator (ir n)) t.

Lemma runs_fake_block s (Q : option blockref -> Passes -> Prop) :
  st p (at_point bb v) s ->
  (forall s' fake, (forall fb l, fake = Some (fb, l) -> fb = N) ->
     (is_Some fake <-> needs_fake_loop_block (merge_info (ir n)) = true) ->
     st p (match fake with Some (fb, l) => with_new_block l f (at_point bb v) | None => at_point bb v end) s' ->
     Q (fst <$> fake) s') ->
  runs (if needs_fake_loop_block (merge_info (ir n)) then r ← new_spv_block; mret (Some r) else mret None) s Q.
Proof.
  intros H HQ. destruct (needs_fake_loop_block (merge_info (ir n))) eqn:En.
  - apply runs_bind. eapply runs_new_spv_block; [exact H|]. intros l s1 H1. apply runs_ret.
    apply (HQ s1 (Some (N, l))); [by intros ?? [= <- <-]|split; [done|by eauto]|exact H1].
  - apply runs_ret. apply (HQ s None); [done|split; [by intros []|done]|exact H].
Qed.

(** The merge information gets checked; only [mark_error] can change. *)
Lemma runs_check_implicit q w s (Q : unit -> Passes -> Prop) :
  st q w s -> (forall s', st q w s' -> Q tt s') -> runs (check_implicit_terminator n) s Q.
Proof.
  intros H HQ. unfold check_implicit_terminator. cbv zeta. destruct (_ || _); [|by apply runs_ret, HQ].
  destruct H as (H1 & H2 & H3). unfold on_module. apply runs_zoom, runs_modify, HQ. by split_and!.
Qed.

Lemma bb_small : (bb < N)%nat.
Proof. by eapply lookup_lt_Some. Qed.

(** The view once the made-up block exists. *)
Definition start_view (fake : option (blockref * Z)) : view :=
  match fake with Some (fb, l) => with_new_block l f (at_point bb v) | None => at_point bb v end.

Section start.
Variable fake : option (blockref * Z).
Hypothesis Hfb : forall fb l, fake = Some (fb, l) -> fb = N.

Lemma start_bb : code (start_view fake) !! bb = Some [label (lab node)].
Proof. unfold start_view. destruct fake as [[fb l]|]; [|done]. simpl. by apply lookup_app_l_Some. Qed.

Lemma start_point : point (start_view fake) = Some bb.
Proof. unfold start_view. by destruct fake as [[fb l]|]. Qed.

Lemma start_later : later N bb v (start_view fake).
Proof.
  unfold start_view. destruct fake as [[fb l]|]; [|apply later_at_point].
  eapply later_trans; [apply (later_at_point N bb bb)|]. by apply later_new_block.
Qed.

Lemma start_made_up fb l : fake = Some (fb, l) -> code (start_view fake) !! fb = Some [label l] /\ fb <> bb.
Proof.
  intros Ef. pose proof bb_small. rewrite (Hfb fb l Ef), Ef. split; [|lia].
  unfold start_view. simpl. by rewrite lookup_app_r, Nat.sub_diag.
Qed.

Lemma start_fake fb l : fake = Some (fb, l) -> is_Some (code (start_view fake) !! fb) /\ fb <> bb.
Proof. intros Ef. destruct (start_made_up fb l Ef) as [-> ?]. eauto. Qed.

(** The view while the block is built. *)
Abbreviation uc c u := (under_construction bb (start_view fake) fake c u) (only parsing).

Lemma start_uc : start_view fake = uc [label (lab node)] [].
Proof.
  unfold under_construction. pose proof start_bb as Hb.
  assert (fake = None \/ exists fb l, fake = Some (fb, l)) as [Ef|(fb & l & Ef)].
  { destruct fake as [[fb l]|]; eauto. }
  - rewrite Ef in Hb |- *. by rewrite set_code_id.
  - destruct (start_made_up fb l Ef) as [Hf Hne]. rewrite Ef in Hb, Hf |- *.
    rewrite (set_code_id fb); [by rewrite set_code_id|done].
Qed.

Lemma uc_later c u : later N bb v (uc c u).
Proof.
  eapply later_trans; [apply start_later|]. unfold under_construction.
  eapply later_trans; [|apply later_set_code; by left].
  assert (fake = None \/ exists fb l, fake = Some (fb, l)) as [Ef|(fb & l & Ef)].
  { destruct fake as [[fb l]|]; eauto. }
  - rewrite Ef. apply later_refl.
  - rewrite (Hfb fb l Ef) in Ef. rewrite Ef. apply later_set_code. right. done.
Qed.

Lemma start_labelled r : r ∈ E -> labelled (start_view fake) (blk r) (lab r).
Proof.
  intros Hr. unfold start_view. destruct fake as [[fb l]|]; [apply labelled_with_new_block|];
    apply labelled_at_point, Hlabels, Hr.
Qed.

Lemma later_labelled w w' r : later N bb w w' -> r ∈ E -> labelled w (blk r) (lab r) ->
  (exists c, code w' !! bb = Some (label (lab node) :: c)) -> labelled w' (blk r) (lab r).
Proof.
  intros Hw Hr Hl Hb. destruct (decide (blk r = bb)) as [Eb|Hne].
  - rewrite Eb. destruct Hb as [c Hc]. destruct (Hlabels r Hr) as [c' Hc']. rewrite Eb, Hcode in Hc'.
    injection Hc' as Hc'. exists c. by rewrite Hc, Hc'.
  - destruct Hl as [c Hc]. exists c. rewrite (la_code _ _ _ _ Hw); [done| |done].
    destruct (Hlabels r Hr) as [c' Hc']. by eapply lookup_lt_Some.
Qed.

Lemma uc_made_up c u : (is_Some fake <-> needs_fake_loop_block (merge_info (ir n)) = true) ->
  all_undef n u -> made_up_ok n N fake (uc c u).
Proof.
  intros Hneeds Hu. unfold made_up_ok.
  assert (fake = None \/ exists fb l, fake = Some (fb, l)) as [Ef|(fb & l & Ef)].
  { destruct fake as [[fb l]|]; eauto. }
  - rewrite Ef. destruct (needs_fake_loop_block _) eqn:En; [|done]. destruct (proj2 Hneeds eq_refl) as [? ?].
    congruence.
  - pose proof (uc_fake bb (start_view fake) fake start_fake c u fb l Ef) as Hc.
    pose proof (Hfb fb l Ef) as ->. revert Hc. generalize (uc c u) as w. intros w Hc. rewrite Ef. split; [apply Hneeds; eauto|]. split; [done|]. eauto.
Qed.

Lemma uc_building c u : (exists c', c = label (lab node) :: c') -> building E blk lab node N (uc c u).
Proof.
  intros [c' ->]. pose proof (uc_later (label (lab node) :: c') u) as Hl.
  assert (code (uc (label (lab node) :: c') u) !! bb = Some (label (lab node) :: c')) as Hc.
  { apply uc_bb; [by rewrite start_bb|apply start_fake]. }
  split.
  - apply uc_point; [apply start_point|apply start_fake].
  - intros r Hr. eapply later_labelled; [exact Hl|done|by apply Hlabels|by eexists].
  - destruct Hfun as [x Hx]. destruct (la_function _ _ _ _ Hl x Hx) as [aux ->]. eauto.
  - by apply (la_parents _ _ _ _ Hl).
  - apply (la_length _ _ _ _ Hl).
Qed.
End start.

Lemma runs_emit_basic_block s (Q : unit -> Passes -> Prop) :
  st p v s ->
  (forall s' v' last, later N bb v v' -> basic_block_emitted last v' ->
     st (<[node := set_node_id last n]> p) v' s' -> Q tt s') ->
  runs (emit_basic_block node) s Q.
Proof.
  intros H HQ. pose proof bb_small as Hsmall. unfold emit_basic_block.
  apply runs_bind. destruct (Hblk node Hself) as (n' & En' & Hu).
  eapply runs_spv_block; [exact H|exact Hnode|by simplify_eq|].
  apply runs_bind. eapply runs_point; [exact H|]. intros s1 H1.
  apply runs_bind. eapply runs_node; [exact H1|exact Hnode|].
  apply runs_bind. eapply runs_fake_block; [exact H1|]. intros s2 fake Hfb Hneeds H2.
  change (st p (start_view fake) s2) in H2. rewrite (start_uc fake Hfb) in H2.
  apply runs_bind. eapply (runs_emit_phis node n p exit); [exact Hnode|by rewrite start_bb|by apply start_point|
    exact (start_fake fake Hfb)|exact H2|done|exact Hphi|].
  intros s3 phis u Hphis Hundef H3. unfold under_construction in H3.
  set (v1 := match fake with Some (fb, l) => set_code fb (label l :: u) (start_view fake) | None => start_view fake end) in H3.
  assert (code (set_code bb ([label (lab node)] ++ phis) v1) !! bb = Some ([label (lab node)] ++ phis)) as Hv1.
  { apply (uc_bb bb (start_view fake)); [by rewrite start_bb|exact (start_fake fake Hfb)]. }
  assert (is_Some (code v1 !! bb)) as Hs1.
  { apply lookup_lt_is_Some. apply lookup_lt_Some in Hv1. simpl in Hv1. by rewrite length_insert in Hv1. }
  apply runs_bind. eapply (runs_emit_operations bb v1 p); [exact Hs1| |exact H3|exact Hops|].
  { subst v1. by destruct fake as [[fb l]|]. }
  intros s4 body ended Hbody H4. set (c := ([label (lab node)] ++ phis) ++ body) in H4.
  change (set_code bb c v1) with (under_construction bb (start_view fake) fake c u) in H4.
  pose proof (uc_later fake Hfb c u) as Hl.
  assert (building E blk lab node N (under_construction bb (start_view fake) fake c u)) as Hbuild.
  { apply uc_building; [done|]. by eexists. }
  assert (code (under_construction bb (start_view fake) fake c u) !! bb = Some c) as Hc.
  { apply uc_bb; [by rewrite start_bb|exact (start_fake fake Hfb)]. }
  set (w := under_construction bb (start_view fake) fake c u) in *.
  assert (is_Some (snd <$> fake) <-> needs_fake_loop_block (merge_info (ir n)) = true) as Hneeds'.
  { by rewrite fmap_is_Some. }
  assert (fake_label n fake = match continue_block (merge_info (ir n)) with
    Some _ => None | None => snd <$> fake end) as Hlab by done. rewrite Hlab in Hphis.
  cbn [implicit_terminator]. destruct ended.
  - eapply runs_check_implicit; [exact H4|]. intros s5 H5.
    apply (HQ s5 w (lab node)); [exact Hl| |by rewrite (same_node E blk lab p node n)].
    exists (snd <$> fake), phis, body, true, []. rewrite app_nil_r. split_and!; [|done..].
    rewrite Hc. unfold c. by rewrite <- app_assoc.
  - apply runs_bind. rewrite Hid.
    assert (made_up_ok n N fake w) as Hmade.
    { apply (uc_made_up fake Hfb); done. }
    eapply (runs_emit_merge E blk lab p node n N); [done..|exact H4|exact Hbuild|exact Hc|exact Hmade|].
    intros s5 v5 (Hl5 & Hb5 & m & Hm & Hmerge5) H5.
    pose proof (bu_length E blk lab node N v5 Hb5) as Hlen5.
    eapply (runs_emit_terminator E blk lab p node n (length (code v5)));
      [done|done|exact Hblk|by eapply Nat.lt_le_trans|exact Hmerge|exact Hcontinue|exact Hid|exact Htarget
      |exact H5| |exact Hm|].
    { destruct Hb5 as [A1 A2 A3 A4 A5]. by split. }
    intros s6 p6 v6 (last & l & -> & Hl6 & Hc6 & Hterm) H6.
    assert (later N bb v5 v6) as Hl6'.
    { destruct Hl6 as [A1 A2 A3 A4]. split; [intros; apply A1; lia|done..]. }
    apply (HQ s6 v6 last); [by eapply later_trans; [|eapply later_trans]| |exact H6].
    exists (snd <$> fake), phis, body, false, (m ++ l). split_and!; [|done..|].
    { rewrite Hc6. unfold c. by rewrite <- !app_assoc. }
    exists m, l. split_and!; [done| |].
    + eapply merge_emitted_mono; [|exact Hmerge5]. intros x d.
      apply (aux_mono N (length (code v5)) bb v5 v6); [lia|lia|lia|exact Hl6].
    + eapply terminator_emitted_mono; [|exact Hterm]. intros x d. unfold aux. repeat case_decide; try done; lia.
Qed.
End basic_block.

Lemma phi_emitted_ext (ex ex' : nodref -> Z) fake x i :
  (forall y b, y ∈ phi_incoming x -> incoming_block y = Some b -> ex' b = ex b) ->
  phi_emitted ex fake x i -> phi_emitted ex' fake x i.
Proof.
  intros H (extra & -> & He). exists extra. split; [|done]. f_equal. unfold phi_operands. f_equal.
  apply Forall_bind_ext, list.Forall_forall. intros y Hy.
  destruct (incoming_block y) as [b|] eqn:Eb; [|done]. by rewrite (H y b Hy Eb).
Qed.

Lemma Forall2_impl_in {A B} (P Q : A -> B -> Prop) l k :
  Forall2 P l k -> (forall x y, x ∈ l -> P x y -> Q x y) -> Forall2 Q l k.
Proof.
  induction 1 as [|x y l k Hxy Hl IH]; intros H; constructor.
  - apply H; [left|done].
  - apply IH. intros a b Ha. apply H. by right.
Qed.

Lemma phis_emitted_ext (ex ex' : nodref -> Z) fake l is_ :
  (forall x y b, x ∈ l -> phi_id x <> 0 -> y ∈ phi_incoming x -> incoming_block y = Some b -> ex' b = ex b) ->
  Forall2 (phi_emitted ex fake) (filter (fun x => phi_id x <> 0) l) is_ ->
  Forall2 (phi_emitted ex' fake) (filter (fun x => phi_id x <> 0) l) is_.
Proof.
  intros H Hf. eapply Forall2_impl_in; [exact Hf|]. intros x i [Hx Hin]%list_elem_of_filter Hi.
  eapply phi_emitted_ext; [|exact Hi]. intros y b. by apply H.
Qed.

(** [block_emitted] when blocks are added and labels of other nodes change. *)
Lemma block_emitted_ext entry (ex ex' : nodref -> Z) (bc bc' : blockref -> option (list Instruction)) r n os c :
  ex' r = ex r ->
  (forall x y b, x ∈ phi (ir n) -> phi_id x <> 0 -> y ∈ phi_incoming x -> incoming_block y = Some b -> ex' b = ex b) ->
  (forall x d, bc x = Some d -> bc' x = Some d) ->
  block_emitted entry ex bc r n os c -> block_emitted entry ex' bc' r n os c.
Proof.
  intros Hr Hphi Hbc (fake & phis & body & ended & rest & Hc & Hneeds & Hphis & Hbody & Hrest).
  exists fake, phis, body, ended, rest. split_and!; [done|done|by eapply phis_emitted_ext|done|].
  destruct ended; [by rewrite Hr|]. destruct Hrest as (m & t0 & ? & Hm & Ht0). exists m, t0.
  split_and!; [done|by eapply merge_emitted_mono|]. rewrite Hr. by eapply terminator_emitted_mono.
Qed.

Lemma terminator_last entry bc self last i t0 l :
  terminator_emitted entry bc self last i t0 l ->
  bool_decide (term_type t0 = TCondition) && splits_condition i t0 = false -> last = self.
Proof.
  unfold terminator_emitted. destruct (term_type t0); try by intros [_ ?].
  simpl. intros H Hs. rewrite Hs in H. by destruct H.
Qed.

(** * All blocks *)

Section loop.
Variables (E : list nodref) (p0 : CFGNodePool) (blk : nodref -> blockref) (lab : nodref -> Z) (v0 : view).
Abbreviation N0 := (length (code v0)) (only parsing).
Hypothesis HE : NoDup E.
(** Registration is done. *)
Hypothesis Hreg : forall r, r ∈ E -> exists n, p0 !! r = Some n /\ userdata n = Some (blk r) /\ node_id n = lab r /\
  lab r <> 0 /\ code v0 !! blk r = Some [label (lab r)] /\ parents v0 !! blk r = Some f.
Hypothesis Hinj : forall x y, x ∈ E -> y ∈ E -> blk x = blk y -> x = y.
Hypothesis Hfun0 : is_Some (v_functions v0 !! f).
Hypothesis Hem : forall D r post n, E = D ++ r :: post -> p0 !! r = Some n -> emittable E p0 ops_pool D r n.

Definition operations_of (n : CFGNode) (os : list Operation) : Prop :=
  Forall2 (fun o x => ops_pool !! o = Some x) (operations (ir n)) os.

Definition node_emitted (p : CFGNodePool) (v : view) (ex : nodref -> Z) (r : nodref) : Prop :=
  exists n0 n os c, p0 !! r = Some n0 /\ p !! r = Some n /\ userdata n = Some (blk r) /\ node_id n = ex r /\
    operations_of n0 os /\ code v !! blk r = Some c /\ block_emitted lab ex (aux N0 v) r n0 os c.

Record emission_inv (D : list nodref) (p : CFGNodePool) (v : view) (ex : nodref -> Z) : Prop := {
  li_rest : forall r, r ∈ E -> r ∉ D -> p !! r = p0 !! r /\ ex r = lab r /\ code v !! blk r = Some [label (lab r)];
  li_done : forall r, r ∈ D -> node_emitted p v ex r;
  li_unsplit : forall r n, r ∈ E -> p0 !! r = Some n -> splits n = false -> ex r = lab r;
  li_length : (N0 <= length (code v))%nat;
  li_parents : forall x g, parents v0 !! x = Some g -> parents v !! x = Some g;
  li_function : forall x, v_functions v0 !! f = Some x -> exists aux,
    v_functions v !! f = Some (set_function_blocks (function_blocks x ++ aux) x);
  li_code : forall x, (x < N0)%nat -> (forall r, r ∈ E -> x <> blk r) -> code v !! x = code v0 !! x;
}.

Lemma blk_small r : r ∈ E -> (blk r < N0)%nat.
Proof. intros Hr. destruct (Hreg r Hr) as (? & _ & _ & _ & _ & Hc & _). by eapply lookup_lt_Some. Qed.

Section inv.
Variables (D : list nodref) (p : CFGNodePool) (v : view) (ex : nodref -> Z).
Hypothesis Hinv : emission_inv D p v ex.

Lemma inv_node x : x ∈ E -> exists m, p !! x = Some m /\ userdata m = Some (blk x) /\ node_id m = ex x.
Proof.
  intros Hx. destruct (decide (x ∈ D)) as [Hd|Hd].
  - destruct (li_done _ _ _ _ Hinv x Hd) as (n0 & n & os & c & ? & ? & ? & ? & _). eauto.
  - destruct (li_rest _ _ _ _ Hinv x Hx Hd) as (-> & -> & _). destruct (Hreg x Hx) as (n & ? & ? & ? & _). eauto.
Qed.

Lemma inv_label x : x ∈ E -> labelled v (blk x) (lab x).
Proof.
  intros Hx. destruct (decide (x ∈ D)) as [Hd|Hd].
  - destruct (li_done _ _ _ _ Hinv x Hd) as (n0 & n & os & c & _ & _ & _ & _ & _ & Hc & fake & phis & body & ended & rest & -> & _).
    by eexists.
  - destruct (li_rest _ _ _ _ Hinv x Hx Hd) as (_ & _ & Hc). by eexists.
Qed.

Lemma inv_function : is_Some (v_functions v !! f).
Proof. destruct Hfun0 as [x Hx]. destruct (li_function _ _ _ _ Hinv x Hx) as [a ->]. eauto. Qed.

Lemma inv_parent x : x ∈ E -> parents v !! blk x = Some f.
Proof. intros Hx. apply (li_parents _ _ _ _ Hinv). by destruct (Hreg x Hx) as (? & _ & _ & _ & _ & _ & ?). Qed.
End inv.

Lemma runs_register_known q w s m nm b (Q : unit -> Passes -> Prop) :
  st q w s -> q !! m = Some nm -> userdata nm = Some b -> node_id nm <> 0 -> Q tt s -> runs (register_block m) s Q.
Proof.
  intros H Hm Hu Hid HQ. unfold register_block. apply runs_bind. eapply runs_node; [done..|].
  rewrite Hu, (proj2 (Z.eqb_neq _ _) Hid), bool_decide_false by done. by apply runs_ret.
Qed.

(** The node as [emit_basic_block] finds it. *)
Definition prepared (n : CFGNode) : CFGNode := set_merge_info (fun _ => final_merge_info n) n.

Lemma runs_prepare D r post p v ex s n (Q : unit -> Passes -> Prop) :
  st p v s -> emission_inv D p v ex -> E = D ++ r :: post -> p0 !! r = Some n ->
  (forall s', st (<[r := prepared n]> p) v s' -> runs (emit_basic_block r) s' Q) ->
  runs (emit_visited r) s Q.
Proof.
  intros H Hinv HEq Hn HQ. pose proof (Hem _ _ _ _ HEq Hn) as Hmm.
  assert (r ∈ E /\ r ∉ D) as [HrE HrD].
  { split; [rewrite HEq; apply elem_of_app; right; left|]. intros Hd. rewrite HEq in HE.
    apply list.NoDup_app in HE as (_ & Hne & _). apply (Hne r Hd). left. }
  destruct (li_rest _ _ _ _ Hinv r HrE HrD) as (Hp & _ & _). rewrite Hn in Hp.
  destruct (Hreg r HrE) as (n' & Hn' & Hu & Hi & Hz & _). assert (n' = n) as -> by congruence.
  assert (forall q w s0 nr m Q', m ∈ E -> m ∉ D -> userdata nr = Some (blk r) -> node_id nr = lab r ->
    q = <[r := nr]> p -> st q w s0 -> Q' tt s0 -> runs (register_block m) s0 Q') as Hregister.
  { intros q w s0 nr m Q' HmE HmD Hur Hir -> H0 HQ'. destruct (decide (m = r)) as [->|Hne].
    - eapply runs_register_known; [exact H0|by apply list_lookup_insert_eq, (lookup_lt_Some _ _ _ Hp)|exact Hur|
        by rewrite Hir|done].
    - destruct (li_rest _ _ _ _ Hinv m HmE HmD) as (Hpm & _). destruct (Hreg m HmE) as (nm & Hnm & Hum & Him & Hzm & _).
      eapply runs_register_known; [exact H0|by rewrite list_lookup_insert_ne, Hpm|exact Hum|by rewrite Him|done]. }
  unfold emit_visited. apply runs_bind. eapply runs_node; [exact H|exact Hp|].
  assert (forall g, p !! r = Some n -> <[r := g n]> p !! r = Some (g n)) as Hat.
  { intros g Hpr. by apply list_lookup_insert_eq, (lookup_lt_Some _ _ _ Hpr). }
  pose proof (em_merge _ _ _ _ _ _ Hmm) as Hmg. pose proof (em_continue _ _ _ _ _ _ Hmm) as Hct.
  unfold prepared in HQ. unfold final_merge_info in HQ, Hmg, Hct. destruct (merge n) eqn:Em.
  - apply HQ. replace (set_merge_info _ n) with n; [by rewrite list_insert_id|].
    destruct n as [? ? ? [? ? ? ?]]. done.
  - apply runs_bind. eapply runs_set; [exact H|exact Hp|]. intros s1 H1.
    apply runs_bind. unfold register_if.
    assert (forall k, runs (k : PM unit) s1 Q ->
      runs (_ ← match pred_back_edge n with Some r0 => iface_register_block r0 | None => mret tt end; k) s1 Q) as Hk.
    { intros k Hk. destruct (pred_back_edge n) as [c|]; apply runs_bind; [|by apply runs_ret].
      destruct (Hct c eq_refl). eapply Hregister; [done|done| | |reflexivity|exact H1|exact Hk]; done. }
    assert (runs (emit_basic_block r) s1 Q) as Hfin by by apply HQ.
    destruct (loop_merge_block n) as [m|]; [|by apply runs_ret, Hk].
    destruct (Hmg m eq_refl). eapply Hregister; [done|done| | |reflexivity|exact H1|by apply Hk]; done.
  - apply runs_bind. eapply runs_set; [exact H|exact Hp|]. intros s1 H1. apply runs_bind.
    match goal with |- runs _ s1 ?R => assert (R tt s1) as Hfin end.
    { apply runs_bind. eapply runs_set; [exact H1|by apply Hat|]. intros s2 H2.
      rewrite list_insert_insert_eq in H2. by apply HQ. }
    unfold register_if. destruct (selection_merge_block n) as [m|]; [|by apply runs_ret].
    destruct (Hmg m eq_refl). eapply Hregister; [done|done| | |reflexivity|exact H1|exact Hfin]; done.
Qed.

Lemma last_unsplit n v v' r os ex last :
  basic_block_emitted blk lab ex r (prepared n) v os last v' -> splits n = false -> last = lab r.
Proof.
  intros (fake & phis & body & ended & rest & _ & _ & _ & _ & Hrest) Hs. destruct ended; [by destruct Hrest|].
  destruct Hrest as (m & t0 & _ & _ & Ht0). by eapply terminator_last.
Qed.

(** Two nodes whose block is built later do not share it. *)
Lemma later_other D r post v v' x : E = D ++ r :: post -> (N0 <= length (code v))%nat -> later (length (code v)) (blk r) v v' ->
  x ∈ E -> x <> r -> code v' !! blk x = code v !! blk x.
Proof.
  intros HEq Hlen Hl Hx Hne. apply (la_code _ _ _ _ Hl).
  - pose proof (blk_small x Hx). lia.
  - intros Hb. apply Hne, Hinj; [done| |done]. rewrite HEq. apply elem_of_app; right; left.
Qed.

Lemma aux_later D r post v v' x c : E = D ++ r :: post -> (N0 <= length (code v))%nat ->
  later (length (code v)) (blk r) v v' -> aux N0 v x = Some c -> aux N0 v' x = Some c.
Proof.
  intros HEq Hlen Hl. apply (aux_mono N0 (length (code v)) (blk r)); [done| |done|done].
  apply blk_small. rewrite HEq. apply elem_of_app; right; left.
Qed.

Lemma emission_inv_step D r post p v ex n os last v' :
  emission_inv D p v ex -> E = D ++ r :: post -> p0 !! r = Some n -> operations_of n os ->
  later (length (code v)) (blk r) v v' ->
  basic_block_emitted blk lab ex r (prepared n) v os last v' ->
  emission_inv (D ++ [r]) (<[r := set_node_id last (prepared n)]> p) v' (fun x => if decide (x = r) then last else ex x).
Proof.
  intros Hinv HEq Hn Hos Hl Hbb. pose proof (li_length _ _ _ _ Hinv) as Hlen.
  assert (r ∈ E) as HrE by (rewrite HEq; apply elem_of_app; right; left).
  assert (r ∉ D) as HrD.
  { intros Hd. rewrite HEq in HE. apply list.NoDup_app in HE as (_ & Hne & _). apply (Hne r Hd). left. }
  destruct (li_rest _ _ _ _ Hinv r HrE HrD) as (Hp & Hex & _). rewrite Hn in Hp.
  destruct (Hreg r HrE) as (n' & Hn' & Hu & Hi & Hz & _). assert (n' = n) as -> by congruence.
  pose proof (fun Hs => last_unsplit n v v' r os ex last Hbb Hs) as Hlast.
  (* a PHI names a finished block, or one that keeps its label *)
  assert (forall D' r' post' n', E = D' ++ r' :: post' -> (r ∉ D') -> p0 !! r' = Some n' ->
    forall x y b, x ∈ phi (ir n') -> phi_id x <> 0 -> y ∈ phi_incoming x -> incoming_block y = Some b ->
      (if decide (b = r) then last else ex b) = ex b) as Hphis.
  { intros D' r' post' nr HEq' HrD' Hnr x y b Hx Hxz Hy Hb. case_decide as Hbr; [|done]. subst b.
    destruct (em_phi _ _ _ _ _ _ (Hem _ _ _ _ HEq' Hnr) x y Hx Hxz Hy) as (b & Hb' & _ & [Hd|(m & Hm & Hs)]).
    - congruence.
    - assert (b = r) as -> by congruence. assert (m = n) as -> by congruence. rewrite (Hlast Hs). by rewrite Hex. }
  split.
  - intros x Hx [Hxd Hxr]%not_elem_of_app. apply not_elem_of_cons in Hxr as [Hxr _].
    destruct (li_rest _ _ _ _ Hinv x Hx Hxd) as (A1 & A2 & A3).
    rewrite list_lookup_insert_ne, decide_False, (later_other D r post v v') by done. done.
  - intros x [Hx|Hx]%elem_of_app.
    + destruct (li_done _ _ _ _ Hinv x Hx) as (n0 & nx & osx & c & A1 & A2 & A3 & A4 & A5 & A6 & A7).
      assert (x <> r) as Hne by (intros ->; done).
      assert (x ∈ E) as HxE by (rewrite HEq; by apply elem_of_app; left).
      exists n0, nx, osx, c. rewrite list_lookup_insert_ne, decide_False, (later_other D r post v v') by done.
      split_and!; try done. apply list_elem_of_split in Hx as (D1 & D2 & HD).
      eapply block_emitted_ext; [by rewrite decide_False| |intros z d; by eapply aux_later|exact A7].
      apply (Hphis D1 x (D2 ++ r :: post) n0); [|intros Hd; apply HrD; rewrite HD; apply elem_of_app; by left|done].
      by rewrite HEq, HD, <- app_assoc.
    + apply list_elem_of_singleton in Hx as ->. exists n, (set_node_id last (prepared n)), os.
      destruct Hbb as (fake & phis & body & ended & rest & Hc & Hneeds & Hph & Hbody & Hrest).
      eexists. rewrite list_lookup_insert_eq by by eapply lookup_lt_Some. rewrite decide_True by done.
      split_and!; [done|done|done|done|done|exact Hc|].
      exists fake, phis, body, ended, rest. split_and!; [done|done| |done|].
      * eapply phis_emitted_ext; [|exact Hph]. by apply (Hphis D r post n).
      * rewrite decide_True by done. destruct ended; [done|]. destruct Hrest as (m & t0 & ? & Hm & Ht0).
        assert (forall z d, aux (length (code v)) v' z = Some d -> aux N0 v' z = Some d) as Haux.
        { intros z d. unfold aux. repeat case_decide; try done; lia. }
        exists m, t0. split_and!; [done|by eapply merge_emitted_mono|by eapply terminator_emitted_mono].
  - intros x nx Hx Hnx Hs. case_decide as Hxr; [|by apply (li_unsplit _ _ _ _ Hinv x nx)].
    subst x. assert (nx = n) as -> by congruence. auto.
  - pose proof (la_length _ _ _ _ Hl). lia.
  - intros x g Hx. apply (la_parents _ _ _ _ Hl). by apply (li_parents _ _ _ _ Hinv).
  - intros x Hx. destruct (li_function _ _ _ _ Hinv x Hx) as [a Ha].
    destruct (la_function _ _ _ _ Hl _ Ha) as [b Hb]. exists (a ++ b). rewrite Hb. simpl. by rewrite app_assoc.
  - intros x Hx Hne. rewrite (la_code _ _ _ _ Hl); [by apply (li_code _ _ _ _ Hinv)|lia|by apply Hne].
Qed.

Lemma operations_of_plain n l : Forall (fun o => exists x, ops_pool !! o = Some x /\ plain_op x) l ->
  l = operations (ir n) ->
  exists os, operations_of n os /\ Forall2 (fun r o => ops_pool !! r = Some o /\ plain_op o) (operations (ir n)) os.
Proof.
  intros H ->. unfold operations_of. induction H as [|o l (x & Hx & Hp) Hl (os & H1 & H2)]; [by exists []; auto|].
  exists (x :: os). auto.
Qed.

Lemma case_list_find (t0 : Terminator) : is_Some (default_case t0) -> exists c, default_case t0 = Some c.
Proof. intros [c Hc]. eauto. Qed.

Lemma runs_emit_visited D r post p v ex s :
  st p v s -> emission_inv D p v ex -> E = D ++ r :: post ->
  runs (emit_visited r) s (fun _ s' => exists p' v' ex', st p' v' s' /\ emission_inv (D ++ [r]) p' v' ex').
Proof.
  intros H Hinv HEq. assert (r ∈ E) as HrE by (rewrite HEq; apply elem_of_app; right; left).
  assert (r ∉ D) as HrD.
  { intros Hd. rewrite HEq in HE. apply list.NoDup_app in HE as (_ & Hne & _). apply (Hne r Hd). left. }
  destruct (Hreg r HrE) as (n & Hn & Hu & Hi & _). pose proof (Hem _ _ _ _ HEq Hn) as Hmm.
  destruct (li_rest _ _ _ _ Hinv r HrE HrD) as (Hp & Hex & Hc). rewrite Hn in Hp.
  eapply runs_prepare; [exact H|exact Hinv|exact HEq|exact Hn|]. intros s1 H1.
  destruct (operations_of_plain n _ (em_ops _ _ _ _ _ _ Hmm) eq_refl) as (os & Hos & Hplain).
  assert (<[r := prepared n]> p !! r = Some (prepared n)) as Hp1.
  { apply list_lookup_insert_eq. by eapply lookup_lt_Some. }
  assert (forall x, x ∈ E -> exists m, <[r := prepared n]> p !! x = Some m /\ userdata m = Some (blk x) /\
            node_id m = ex x) as Hnodes.
  { intros x Hx. destruct (decide (x = r)) as [->|Hne].
    - exists (prepared n). split_and!; [done|done|]. by rewrite Hex.
    - rewrite list_lookup_insert_ne by done. by eapply inv_node. }
  eapply (runs_emit_basic_block E blk lab ex _ r (prepared n) v os); [exact Hp1|exact HrE| |exact Hc|exact Hi| | | | | | |
    exact Hplain| |exact H1|].
  - intros x Hx. destruct (Hnodes x Hx) as (m & ? & ? & _). eauto.
  - intros x Hx. by eapply inv_label.
  - by eapply inv_function.
  - by eapply inv_parent.
  - intros m Hm. by apply (em_merge _ _ _ _ _ _ Hmm).
  - intros m Hm. by apply (em_continue _ _ _ _ _ _ Hmm).
  - intros x Hx Hxz y Hy. destruct (em_phi _ _ _ _ _ _ Hmm x y Hx Hxz Hy) as (b & Hb & HbE & _).
    destruct (Hnodes b HbE) as (m & ? & _ & ?). eauto.
  - pose proof (em_terminator _ _ _ _ _ _ Hmm) as Ht0.
    replace (terminator (ir (prepared n))) with (terminator (ir n)) by done.
    destruct (term_type (terminator (ir n))); try done.
    destruct Ht0 as [Hd Hcases]. split; [done|]. intros c Hcc. destruct (Hcases c Hcc) as (b & Hb & HbE & HbD & Hne).
    destruct (li_rest _ _ _ _ Hinv b HbE HbD) as (Hpb & _). destruct (Hreg b HbE) as (m & Hm & Hum & Him & _).
    exists b, m. rewrite list_lookup_insert_ne, Hpb by done. done.
  - intros s' v' last Hl Hbb H'. rewrite list_insert_insert_eq in H'. eexists _, v', _. split; [exact H'|].
    by eapply emission_inv_step.
Qed.

Lemma emission_inv_start : emission_inv [] p0 v0 lab.
Proof.
  split.
  - intros r Hr _. destruct (Hreg r Hr) as (n & _ & _ & _ & _ & Hc & _). done.
  - intros r Hr. by apply elem_of_nil in Hr.
  - done.
  - done.
  - done.
  - intros x Hx. exists []. rewrite app_nil_r, Hx. by destruct x.
  - done.
Qed.

Lemma runs_emit_all s :
  st p0 v0 s ->
  runs (for_eachM emit_visited E) s (fun _ s' => exists p' v' ex', st p' v' s' /\ emission_inv E p' v' ex').
Proof.
  intros H. apply (runs_for_each _ (fun D s' => exists p' v' ex', st p' v' s' /\ emission_inv D p' v' ex')).
  - exists p0, v0, lab. split; [done|apply emission_inv_start].
  - intros D r post s' HEq (p' & v' & ex' & H' & Hinv'). by eapply runs_emit_visited.
Qed.
End loop.

(** * Registration *)

Definition next_id (s : Passes) : Z := uniqueId (builder (module s)).

Definition registered (b : blockref) (id : Z) (n : CFGNode) : CFGNode :=
  set_userdata (Some b) (set_node_id id (set_node_id 0 n)).

Definition stu (p : CFGNodePool) (v : view) (u : Z) (s : Passes) : Prop := st p v s /\ next_id s = u.

Lemma runs_spv_u {A} (m : BM A) p v u s (Q : A -> Passes -> Prop) :
  stu p v u s ->
  (forall b, view_of b = v -> uniqueId b = u ->
     runs m b (fun a b' => exists v' u', view_of b' = v' /\ uniqueId b' = u' /\ forall s', stu p v' u' s' -> Q a s')) ->
  runs (on_spv m) s Q.
Proof.
  intros [(H1 & H2 & H3) Hu] Hm. unfold on_spv, on_module, on_builder. apply runs_zoom, runs_zoom.
  eapply runs_mono; [by apply Hm|]. intros a b' (v' & u' & E & Eu & HQ). apply HQ. split; [by split_and!|done].
Qed.

Lemma runs_set_u p v u s r n g (Q : unit -> Passes -> Prop) :
  stu p v u s -> p !! r = Some n -> (forall s', stu (<[r := g n]> p) v u s' -> Q tt s') -> runs (set_node r g) s Q.
Proof.
  intros [H Hu] Hr HQ. pose proof (st_nodes _ _ _ H) as Hn. eapply runs_set_node; [by rewrite Hn|].
  apply HQ. destruct H as (H1 & H2 & H3). split; [|done]. split_and!; [|done..]. simpl. by rewrite Hn, H1.
Qed.

Lemma runs_register_new p v s r n u (Q : unit -> Passes -> Prop) :
  stu p v u s -> 0 <= u -> u + 1 < 2 ^ 32 -> p !! r = Some n -> is_Some (v_functions v !! f) ->
  (forall s', stu (<[r := registered (length (code v)) (u + 1) n]> p)
                (with_block_of f (length (code v)) (with_new_block (u + 1) f v)) (u + 1) s' -> Q tt s') ->
  runs (_ ← set_node r (set_node_id 0); register_block r) s Q.
Proof.
  intros H Hu0 Hu1 Hr [x Hx] HQ. pose proof (lookup_lt_Some _ _ _ Hr) as Hlt.
  assert (u32 (u + 1) = u + 1) as Hwrap by (unfold u32, wrap; rewrite Z.mod_small; lia).
  assert (forall g, <[r := g]> p !! r = Some g) as Hat by (intros g; by apply list_lookup_insert_eq).
  apply runs_bind. eapply runs_set_u; [exact H|exact Hr|]. intros s1 H1.
  unfold register_block. apply runs_bind. eapply runs_node; [apply H1|apply Hat|].
  cbn [node_id set_node_id]. simpl (0 =? 0). rewrite orb_true_r.
  apply runs_bind. unfold new_spv_block. apply runs_bind. eapply runs_active; [apply H1|].
  eapply runs_spv_u; [exact H1|]. intros b Eb Hb. eapply runs_new_block_in; [exact Eb|]. intros b1 E1 Hb1.
  rewrite Hb, Hwrap in E1, Hb1. eexists _, _. split_and!; [exact E1|exact Hb1|]. intros s2 H2.
  apply runs_bind. unfold add_spv_block. apply runs_bind. eapply runs_active; [apply H2|].
  eapply runs_spv_u; [exact H2|]. intros b2 Eb2 Hb2. eapply runs_addBlock; [exact Eb2|exact Hx|]. intros b3 E3 Hb3.
  rewrite Hb2 in Hb3. eexists _, _. split_and!; [exact E3|exact Hb3|]. intros s3 H3.
  apply runs_bind. eapply runs_spv_u; [exact H3|]. intros b4 Eb4 Hb4.
  eapply (runs_label _ _ _ (u + 1)); [exact Eb4|apply labelled_with_block_of, labelled_new_block|].
  eexists _, _. split_and!; [exact Eb4|exact Hb4|]. intros s4 H4.
  apply runs_bind. eapply runs_set_u; [exact H4|apply Hat|]. rewrite list_insert_insert_eq. intros s5 H5.
  eapply runs_set_u; [exact H5|by apply list_lookup_insert_eq|]. rewrite list_insert_insert_eq. intros s6 H6.
  apply HQ. destruct n. exact H6.
Qed.

Section registration.
Variables (E : list nodref) (p0 : CFGNodePool) (v0 : view) (u0 : Z) (x0 : Function_).
Hypotheses (HE : NoDup E) (Hnodes : forall r, r ∈ E -> is_Some (p0 !! r)).
Hypotheses (Hf : v_functions v0 !! f = Some x0) (Hlen : length (parents v0) = length (code v0)).
Hypotheses (Hu0 : 0 <= u0) (Hu : u0 + zlength E < 2 ^ 32).

(** The SPIR-V block and the label of the [i]th node in the order of emission. *)
Definition block_number (i : nat) : blockref := (length (code v0) + i)%nat.
Definition label_number (i : nat) : Z := u0 + 1 + Z.of_nat i.

Record registration_inv (D : list nodref) (p : CFGNodePool) (v : view) (u : Z) : Prop := {
  ri_done : forall i r, D !! i = Some r -> exists n, p0 !! r = Some n /\
    p !! r = Some (registered (block_number i) (label_number i) n) /\
    code v !! block_number i = Some [label (label_number i)] /\ parents v !! block_number i = Some f;
  ri_rest : forall r, r ∉ D -> p !! r = p0 !! r;
  ri_u : u = u0 + zlength D;
  ri_code : exists l, code v = code v0 ++ l /\ length l = length D;
  ri_parents : exists l, parents v = parents v0 ++ l /\ length l = length D;
  ri_functions : v_functions v = alter (fun x => set_function_blocks (function_blocks x ++ (block_number <$> seq 0 (length D))) x) f (v_functions v0);
  ri_point : point v = point v0;
}.

Lemma registration_step D r post p v u s :
  stu p v u s -> registration_inv D p v u -> E = D ++ r :: post ->
  runs (_ ← set_node r (set_node_id 0); register_block r) s
    (fun _ s' => exists p' v' u', stu p' v' u' s' /\ registration_inv (D ++ [r]) p' v' u').
Proof.
  intros H [A1 A2 A3 (lc & A4 & A4') (lp & A5 & A5') A6 A7] HEq.
  assert (r ∉ D) as HrD.
  { intros Hd. rewrite HEq in HE. apply list.NoDup_app in HE as (_ & Hne & _). apply (Hne r Hd). left. }
  destruct (Hnodes r) as [n Hn]; [rewrite HEq; apply elem_of_app; right; left|].
  assert (zlength E = zlength D + 1 + zlength post) as Hz.
  { rewrite HEq. unfold zlength. rewrite length_app. simpl. lia. }
  assert (0 <= zlength D /\ 0 <= zlength post) as [? ?] by (unfold zlength; lia).
  assert (length (code v) = block_number (length D)) as Hbn.
  { rewrite A4, length_app, A4'. done. }
  assert (u + 1 = label_number (length D)) as Hln by (rewrite A3; unfold label_number, zlength; lia).
  eapply runs_register_new; [exact H|lia|lia|by rewrite A2| |].
  { rewrite A6, list_lookup_alter_eq, Hf. eauto. }
  intros s' H'. eexists _, _, _. split; [exact H'|]. rewrite Hbn, Hln. split.
  - intros i x Hi. apply lookup_app_Some in Hi as [Hi|[Hge Hi]].
    + destruct (A1 i x Hi) as (m & Hm & Hp & Hc & Hpar). exists m. split; [done|].
      assert (x <> r) as Hne by (intros ->; apply HrD; by eapply list_elem_of_lookup_2).
      rewrite list_lookup_insert_ne by done. split_and!; [done|by apply lookup_app_l_Some|by apply lookup_app_l_Some].
    + destruct (i - length D)%nat eqn:Ei; [|done]. injection Hi as <-. assert (i = length D) as -> by lia.
      exists n. split; [done|]. rewrite list_lookup_insert_eq by (rewrite <- A2 in Hn by done; by eapply lookup_lt_Some).
      split; [done|]. simpl. rewrite <- Hbn at 1. rewrite lookup_app_r, Nat.sub_diag by done. split; [done|].
      assert (length (parents v) = block_number (length D)) as Hpl by (rewrite A5, length_app, A5', Hlen; done).
      rewrite <- Hpl, lookup_app_r, Nat.sub_diag by done. done.
  - intros x [Hxd Hxr]%not_elem_of_app. apply not_elem_of_cons in Hxr as [Hxr _].
    rewrite list_lookup_insert_ne by done. by apply A2.
  - rewrite <- Hln, A3. unfold zlength. rewrite length_app. simpl. lia.
  - exists (lc ++ [[label (label_number (length D))]]). simpl. rewrite A4, <- app_assoc. split; [done|].
    rewrite !length_app, A4'. done.
  - exists (lp ++ [f]). simpl. rewrite A5, <- app_assoc. split; [done|]. rewrite !length_app, A5'. done.
  - simpl. rewrite A6, length_app, seq_app, fmap_app. simpl. rewrite list_alter_alter_eq.
    apply list_alter_ext; [|done]. intros y _. simpl. by rewrite app_assoc.
  - done.
Qed.

Lemma registration_start : registration_inv [] p0 v0 u0.
Proof.
  split; [done|done| | | | |done].
  - unfold zlength. simpl. lia.
  - exists []. by rewrite app_nil_r.
  - exists []. by rewrite app_nil_r.
  - symmetry. apply list_alter_id. intros x. simpl. rewrite app_nil_r. by destruct x.
Qed.

Lemma runs_register_all s :
  stu p0 v0 u0 s ->
  runs (for_eachM (fun r => _ ← set_node r (set_node_id 0); register_block r) E) s
    (fun _ s' => exists p' v' u', stu p' v' u' s' /\ registration_inv E p' v' u').
Proof.
  intros H. apply (runs_for_each _ (fun D s' => exists p' v' u', stu p' v' u' s' /\ registration_inv D p' v' u')).
  - exists p0, v0, u0. split; [done|apply registration_start].
  - intros D r post s' HEq (p' & v' & u' & H' & Hinv'). by eapply registration_step.
Qed.

Definition index_of (r : nodref) : nat := default 0%nat (fst <$> list_find (fun x => x = r) E).

Lemma index_of_lookup i r : E !! i = Some r -> index_of r = i.
Proof.
  intros Hi. unfold index_of. destruct (list_find (fun x => x = r) E) as [[j x]|] eqn:Ef; simpl.
  - apply list_find_Some in Ef as (Hj & -> & _). by eapply list.NoDup_lookup.
  - exfalso. eapply list_find_None in Ef. rewrite list.Forall_forall in Ef. eapply Ef; [|done].
    by eapply list_elem_of_lookup_2.
Qed.

Definition block_of_node (r : nodref) : blockref := block_number (index_of r).
Definition label_of_node (r : nodref) : Z := label_number (index_of r).

Lemma index_of_elem r : r ∈ E -> E !! index_of r = Some r.
Proof. intros [i Hi]%list_elem_of_lookup. by rewrite (index_of_lookup i r Hi). Qed.

Lemma blocks_in_order : block_of_node <$> E = block_number <$> seq 0 (length E).
Proof.
  apply list_eq. intros i. rewrite !list_lookup_fmap. destruct (E !! i) as [r|] eqn:Ei.
  - rewrite lookup_seq_lt by by eapply lookup_lt_Some. simpl. unfold block_of_node. by rewrite (index_of_lookup i r Ei).
  - rewrite lookup_seq_ge by by apply lookup_ge_None. done.
Qed.

Lemma block_of_node_inj x y : x ∈ E -> y ∈ E -> block_of_node x = block_of_node y -> x = y.
Proof.
  intros Hx%index_of_elem Hy%index_of_elem Heq. unfold block_of_node, block_number in Heq.
  assert (index_of x = index_of y) as Hi by lia. rewrite Hi in Hx. congruence.
Qed.

Lemma label_of_node_inj x y : x ∈ E -> y ∈ E -> label_of_node x = label_of_node y -> x = y.
Proof.
  intros Hx%index_of_elem Hy%index_of_elem Heq. unfold label_of_node, label_number in Heq.
  assert (index_of x = index_of y) as Hi by lia. rewrite Hi in Hx. congruence.
Qed.

Lemma registered_spec p v u r : registration_inv E p v u -> r ∈ E -> exists n, p0 !! r = Some n /\
  p !! r = Some (registered (block_of_node r) (label_of_node r) n) /\
  code v !! block_of_node r = Some [label (label_of_node r)] /\ parents v !! block_of_node r = Some f.
Proof. intros Hinv Hr%index_of_elem. by apply (ri_done _ _ _ _ Hinv). Qed.

Lemma emittable_registered p v u D r n b id :
  registration_inv E p v u -> emittable E p0 ops_pool D r n -> emittable E p ops_pool D r (registered b id n).
Proof.
  intros Hinv [A1 A2 A3 A4 A5]. split; [done|done|done| |done].
  intros x y Hx Hz Hy. destruct (A4 x y Hx Hz Hy) as (c & Hc & HcE & Hor). exists c. split_and!; [done|done|].
  destruct Hor as [?|(m & Hm & Hs)]; [by left|right]. destruct (registered_spec p v u c Hinv HcE) as (m' & Hm' & Hp & _).
  eexists. split; [exact Hp|]. by simplify_eq.
Qed.
End registration.
End steps.

(** * The whole function *)

(** The function [f] is [x] with the entry block [e], and the graph can be emitted into it. *)
Record ready (s : Passes) (f : funcref) (x : Function_) (e : blockref) : Prop := {
  re_instrumentation : enabled (info (instruction_instrumentation (module s))) = false;
  re_demote : supports_demote (module s) = true;
  re_min16 : min16float_min_spec_simulation (module s) = false;
  re_discard : discard_state_var_id (module s) = 0;
  re_function : functions (builder (module s)) !! f = Some x;
  re_entry : head (function_blocks x) = Some e;
  re_entry_block : exists id c, code (view_of (builder (module s))) !! e = Some (label id :: c);
  re_order : NoDup (forward_order (cfg s));
  re_nodes : forall r, r ∈ forward_order (cfg s) -> is_Some (nodes s !! r);
  re_first : entry_block (cfg s) ∈ forward_order (cfg s);
  re_ids : 0 <= next_id s /\ next_id s + zlength (forward_order (cfg s)) < 2 ^ 32;
  re_emittable : forall D r post n, rev (forward_order (cfg s)) = D ++ r :: post -> nodes s !! r = Some n ->
    emittable (rev (forward_order (cfg s))) (nodes s) (operation_pool (module s)) D r n;
}.

Abbreviation code_of s := (code (view_of (builder (module s)))) (only parsing).

(** The blocks that are no node's first block. *)
Definition extra_blocks (s s' : Passes) : blockref -> option (list Instruction) :=
  aux (length (blocks (builder (module s))) + length (forward_order (cfg s))) (view_of (builder (module s'))).

Definition emitted (s : Passes) (f : funcref) (x : Function_) (e : blockref) (s' : Passes) : Prop :=
  exists (blk : nodref -> blockref) (entry exit : nodref -> Z),
    (forall r, r ∈ forward_order (cfg s) -> exists n n' os c,
       nodes s !! r = Some n /\ nodes s' !! r = Some n' /\ userdata n' = Some (blk r) /\ node_id n' = exit r /\
       operations_of (operation_pool (module s)) n os /\ code_of s' !! blk r = Some c /\
       block_emitted entry exit (extra_blocks s s') r n os c) /\
    (forall y z, y ∈ forward_order (cfg s) -> z ∈ forward_order (cfg s) ->
       blk y = blk z \/ entry y = entry z -> y = z) /\
    (exists l, functions (builder (module s')) !! f =
       Some (set_function_blocks (function_blocks x ++ (blk <$> rev (forward_order (cfg s))) ++ l) x)) /\
    (exists c, code_of s !! e = Some c /\
       code_of s' !! e = Some (c ++ [mkInstruction 0 0 OpBranch [entry (entry_block (cfg s))]])).

Section final.
Variables (s : Passes) (f : funcref) (x : Function_) (e : blockref).
Hypothesis HR : ready s f x e.
Abbreviation E := (rev (forward_order (cfg s))) (only parsing).
Abbreviation ops := (operation_pool (module s)) (only parsing).
Abbreviation tt_ := (instruction_instrumentation (module s)) (only parsing).
Abbreviation V := (view_of (builder (module s))) (only parsing).
Abbreviation U := (next_id s) (only parsing).
Abbreviation blk := (block_of_node E V) (only parsing).
Abbreviation lab := (label_of_node E U) (only parsing).

Lemma rev_Permutation {A} (l : list A) : rev l ≡ₚ l.
Proof. symmetry. apply Permutation_rev. Qed.

Lemma E_nodup : NoDup E.
Proof. rewrite rev_Permutation. apply HR. Qed.

Lemma E_elem r : r ∈ E <-> r ∈ forward_order (cfg s).
Proof. by rewrite rev_Permutation. Qed.

Lemma E_length : length E = length (forward_order (cfg s)).
Proof. apply length_rev. Qed.

Abbreviation stf := (st (cfg s) ops tt_ f) (only parsing).

Lemma registration_facts p v u :
  registration_inv f (nodes s) V U E p v u ->
  (forall r, r ∈ E -> exists n, p !! r = Some n /\ userdata n = Some (blk r) /\ node_id n = lab r /\
     lab r <> 0 /\ code v !! blk r = Some [label (lab r)] /\ parents v !! blk r = Some f) /\
  (forall D r post n, E = D ++ r :: post -> p !! r = Some n -> emittable E p ops D r n).
Proof.
  intros Hinv. pose proof (re_ids _ _ _ _ HR) as [Hid0 _]. split.
  - intros r Hr. destruct (registered_spec f E (nodes s) V U E_nodup p v u r Hinv Hr) as (n & Hn & Hp & Hc & Hpar).
    eexists. split; [exact Hp|]. split_and!; try done. unfold label_of_node, label_number. lia.
  - intros D r post n HEq Hp.
    assert (r ∈ E) as Hr by (rewrite HEq; apply elem_of_app; right; left).
    destruct (registered_spec f E (nodes s) V U E_nodup p v u r Hinv Hr) as (n0 & Hn0 & Hp0 & _).
    rewrite Hp in Hp0. injection Hp0 as ->. eapply emittable_registered; [apply E_nodup|exact Hinv|].
    by eapply (re_emittable _ _ _ _ HR).
Qed.

(** After the registration and after the emission. *)
Lemma runs_traverse s1 (Q : unit -> Passes -> Prop) :
  stu (cfg s) ops tt_ f (nodes s) V U s1 ->
  (forall s' p' v' u' p v ex, registration_inv f (nodes s) V U E p v u' ->
     stf p' v' s' -> emission_inv ops f E p blk lab v E p' v' ex -> Q tt s') ->
  runs traverse s1 Q.
Proof.
  intros H HQ. pose proof (re_ids _ _ _ _ HR) as [Hid0 Hid1]. unfold traverse. apply runs_bind, runs_order.
  assert (forward_order (cfg s1) = forward_order (cfg s)) as -> by by destruct H as [(-> & _) _].
  assert (zlength E = zlength (forward_order (cfg s))) as Hz by (unfold zlength; by rewrite E_length).
  apply runs_bind. eapply runs_mono.
  { apply (runs_register_all (cfg s) ops tt_ f E (nodes s) V U x).
    - apply E_nodup.
    - intros r Hr%E_elem. by apply (re_nodes _ _ _ _ HR).
    - apply (re_function _ _ _ _ HR).
    - simpl. by rewrite !length_fmap.
    - done.
    - by rewrite Hz.
    - exact H. }
  intros [] s2 (p & v & u & [H2 Hu] & Hinv). destruct (registration_facts p v u Hinv) as [Hreg Hem].
  eapply runs_mono.
  { apply (runs_emit_all (cfg s) ops tt_ f (re_instrumentation _ _ _ _ HR) E p blk lab v E_nodup Hreg).
    - intros y z Hy Hz' Heq. 
      eapply (block_of_node_inj E V E_nodup); [simpl; by rewrite !length_fmap|done..].
    - rewrite (ri_functions _ _ _ _ _ _ _ _ Hinv), list_lookup_alter_eq. simpl.
      rewrite (re_function _ _ _ _ HR). eauto.
    - exact Hem.
    - exact H2. }
  intros [] s3 (p' & v' & ex & H3 & Hloop). by eapply HQ.
Qed.

Lemma set_active_st : stu (cfg s) ops tt_ f (nodes s) V U
  (set_module (set_active_function (Some f) (module s)) s).
Proof.
  split; [|done]. split_and!; [by rewrite set_pool_id| |done]. unfold constants. simpl.
  by rewrite (re_demote _ _ _ _ HR), (re_min16 _ _ _ _ HR), (re_discard _ _ _ _ HR).
Qed.

(** The entry block is none of the nodes'. *)
Lemma entry_code p v u : registration_inv f (nodes s) V U E p v u ->
  exists id c, code V !! e = Some (label id :: c) /\ code v !! e = Some (label id :: c) /\
    (e < length (code v))%nat /\ forall r, r ∈ E -> e <> blk r.
Proof.
  intros Hinv. destruct (re_entry_block _ _ _ _ HR) as (id & c & Hc). exists id, c.
  destruct (ri_code _ _ _ _ _ _ _ _ Hinv) as (l & Hl & _). pose proof (lookup_lt_Some _ _ _ Hc).
  split_and!; [done| | |].
  - rewrite Hl. by apply lookup_app_l_Some.
  - rewrite Hl, length_app. lia.
  - intros r _. unfold block_of_node, block_number. lia.
Qed.

Section after_emission.
Variables (p : CFGNodePool) (v : view) (u : Z) (p' : CFGNodePool) (v' : view) (ex : nodref -> Z).
Hypotheses (Hinv : registration_inv f (nodes s) V U E p v u).
Hypotheses (Hloop : emission_inv ops f E p blk lab v E p' v' ex).

Lemma entry_code_kept : code v' !! e = code V !! e.
Proof.
  destruct (entry_code p v u Hinv) as (id & c & He0 & He & Hlt & Hne). rewrite He0, <- He.
  by apply (li_code _ _ _ _ _ _ _ _ _ _ _ Hloop e Hlt Hne).
Qed.

Lemma blocks_appended :
  exists a, v_functions v' !! f = Some (set_function_blocks (function_blocks x ++ (blk <$> E) ++ a) x).
Proof.
  assert (v_functions v !! f = Some (set_function_blocks (function_blocks x ++ (blk <$> E)) x)) as Hvf.
  { rewrite (ri_functions _ _ _ _ _ _ _ _ Hinv), list_lookup_alter_eq. simpl.
    rewrite (re_function _ _ _ _ HR). simpl. rewrite blocks_in_order; [done|]. apply E_nodup. }
  destruct (li_function _ _ _ _ _ _ _ _ _ _ _ Hloop _ Hvf) as [a Ha]. exists a. rewrite Ha. simpl.
  by rewrite <- app_assoc.
Qed.

(** The state at the end. *)
Variable s' : Passes.
Hypotheses (Hnodes : nodes s' = p').
Hypotheses (Hview : view_of (builder (module s')) =
  at_point e (append e (mkInstruction 0 0 OpBranch [lab (entry_block (cfg s))]) v')).

Lemma extra_blocks_kept z d : aux (length (code v)) v' z = Some d -> extra_blocks s s' z = Some d.
Proof.
  destruct (ri_code _ _ _ _ _ _ _ _ Hinv) as (l0 & Hl0 & Hl0').
  assert (length (code v) = length (blocks (builder (module s))) + length (forward_order (cfg s)))%nat as HN.
  { rewrite Hl0, length_app, Hl0', E_length. simpl. by rewrite length_fmap. }
  destruct (entry_code p v u Hinv) as (_ & _ & _ & _ & Hlt & _).
  unfold extra_blocks. rewrite Hview, <- HN. unfold aux. case_decide; [|done].
  intros Hz. simpl code. rewrite list_lookup_alter_ne by lia. exact Hz.
Qed.

Lemma node_has_emitted r : r ∈ E -> exists n n' os c,
  nodes s !! r = Some n /\ nodes s' !! r = Some n' /\ userdata n' = Some (blk r) /\ node_id n' = ex r /\
  operations_of ops n os /\ code_of s' !! blk r = Some c /\ block_emitted lab ex (extra_blocks s s') r n os c.
Proof.
  intros Hr. destruct (entry_code p v u Hinv) as (_ & _ & _ & _ & _ & Hne). specialize (Hne r Hr).
  destruct (li_done _ _ _ _ _ _ _ _ _ _ _ Hloop _ Hr) as (n1 & n2 & os2 & c2 & Hp & Hp' & Hu2 & Hi2 & Hos & Hc2 & Hb2).
  destruct (registered_spec f E (nodes s) _ _ E_nodup p v u r Hinv Hr) as (n3 & Hn3 & Hp3 & _).
  assert (n1 = registered (blk r) (lab r) n3) as -> by congruence.
  exists n3, n2, os2, c2. rewrite Hnodes. split_and!; [done|done|done|done|exact Hos| |].
  - rewrite Hview. simpl code. rewrite list_lookup_alter_ne by done. exact Hc2.
  - pose proof extra_blocks_kept as Hx.
    destruct Hb2 as (fake & phis & body & ended & rest & A1 & A2 & A3 & A4 & A5).
    exists fake, phis, body, ended, rest. split_and!; [done|done|done|done|].
    destruct ended; [done|]. destruct A5 as (m & t0 & B1 & B2 & B3). exists m, t0.
    split_and!; [done|by eapply merge_emitted_mono|by eapply terminator_emitted_mono].
Qed.

Lemma emitted_of_inv : emitted s f x e s'.
Proof.
  exists blk, lab, ex. split_and!.
  - intros r Hr%E_elem. by apply node_has_emitted.
  - intros y z Hy%E_elem Hz%E_elem [Hyz|Hyz].
    + apply (block_of_node_inj E V E_nodup); [simpl; by rewrite !length_fmap|done..].
    + apply (label_of_node_inj E V U E_nodup); [simpl; by rewrite !length_fmap|done..].
  - destruct blocks_appended as [a Ha]. exists a.
    transitivity (v_functions (view_of (builder (module s'))) !! f); [done|]. rewrite Hview. exact Ha.
  - destruct (entry_code p v u Hinv) as (id & c & He & _). eexists. split; [exact He|].
    rewrite Hview. simpl code. by rewrite list_lookup_alter_eq, entry_code_kept, He.
Qed.
End after_emission.

Lemma runs_finish s' p' v' r n b id c (Q : unit -> Passes -> Prop) :
  stf p' v' s' -> r = entry_block (cfg s) -> p' !! r = Some n -> userdata n = Some b ->
  labelled v' b id -> code v' !! e = Some (label c :: [] ++ tail (default [] (code v' !! e))) ->
  (exists y, v_functions v' !! f = Some y /\ head (function_blocks y) = Some e) ->
  (forall s'', st (cfg s) ops tt_ f p' (at_point e (append e (mkInstruction 0 0 OpBranch [id]) v')) s'' ->
     Q tt (set_module (set_active_function None (module s'')) s'')) ->
  runs (f ← active;
        entry ← on_spv (getEntryBlock f);
        _ ← on_spv (setBuildPoint entry);
        first ← on_cfg (gets entry_block);
        target ← get_spv_block first;
        _ ← on_spv (createBranch target);
        _ ← on_spv leaveFunction;
        on_module (modify (set_active_function None))) s' Q.
Proof.
  intros H -> Hn Hu Hl He (y & Hy & Hhead) HQ.
  apply runs_bind. eapply runs_active; [exact H|].
  apply runs_bind. eapply runs_spv; [exact H|]. intros b1 E1. unfold getEntryBlock, function_at.
  apply runs_bind, runs_bind, runs_gets. eapply runs_deref; [rewrite <- Hy, <- E1; done|].
  eapply runs_deref; [exact Hhead|]. eexists. split; [exact E1|]. intros s1 H1.
  apply runs_bind. eapply runs_point; [exact H1|]. intros s2 H2.
  apply runs_bind. unfold on_cfg at 1. apply runs_zoom, runs_gets. rewrite set_cfg_id.
  assert (entry_block (cfg s2) = entry_block (cfg s)) as -> by by destruct H2 as (-> & _).
  apply runs_bind. eapply runs_spv_block; [exact H2|exact Hn|exact Hu|].
  apply runs_bind. eapply runs_spv; [exact H2|]. intros b2 E2.
  eapply (runs_createBranch b2 _ e c); [exact E2|done|by eexists|by apply labelled_at_point|]. intros b3 E3.
  eexists. split; [exact E3|]. intros s3 H3.
  apply runs_bind. eapply runs_spv; [exact H3|]. intros b4 E4. unfold leaveFunction.
  apply runs_bind. eapply runs_getBuildPoint; [exact E4|done|]. apply runs_bind. eapply runs_block_at.
  { rewrite E4, lookup_append, decide_True by done. simpl. by rewrite He. }
  intros k _ Hk. unfold isTerminated. rewrite Hk. rewrite last_snoc. simpl. apply runs_ret.
  eexists. split; [exact E4|]. intros s4 H4. unfold on_module. apply runs_zoom, runs_modify. by apply HQ.
Qed.
End final.


(** * A sample, and [ready] by computation *)

Section check.
Variables (E : list nodref) (p : CFGNodePool) (pool_ : list Operation).

#[local] Instance op_wf_dec o : Decision (op_wf o).
Proof. unfold op_wf. apply _. Defined.

Definition plain_opb (o : Operation) : bool :=
  bool_decide (op_wf o) && forallb (fun a : Z * bool => a.2 || negb (a.1 =? 0)) (contents o) &&
  ((op_id o =? 0) || negb (op_type_id o =? 0)) && negb (is_masked_op (op o)) &&
  (negb (is_report (op o)) || (1 <=? argument_count o)) &&
  (negb (op o =? OpDemoteToHelperInvocationEXT) || (argument_count o =? 0)).

Lemma plain_opb_sound o : plain_opb o = true -> plain_op o.
Proof.
  unfold plain_opb. rewrite !andb_true_iff, !orb_true_iff, !negb_true_iff, bool_decide_eq_true, forallb_forall.
  intros (((((Hwf & Hz) & Hty) & Hm) & Hr) & Hd). split_and!; [done| | |done| |].
  - intros a Ha%list_elem_of_In ->. by specialize (Hz _ Ha).
  - intros Hi. destruct Hty as [Hty|Hty]; [by apply Z.eqb_eq in Hty|by apply Z.eqb_neq].
  - intros E0. destruct Hr as [Hr|Hr]; [congruence|by apply Z.leb_le].
  - intros E0. destruct Hd as [Hd|Hd]; [by apply Z.eqb_neq in Hd|by apply Z.eqb_eq].
Qed.

Definition to_come (D : list nodref) (m : option nodref) : bool :=
  match m with Some m => bool_decide (m ∈ E) && bool_decide (m ∉ D) | None => true end.
Definition knownb (m : option nodref) : bool := match m with Some m => bool_decide (m ∈ E) | None => false end.
Definition incomingb (D : list nodref) (y : IncomingValue) : bool :=
  match incoming_block y with
  | Some b => bool_decide (b ∈ E) &&
      (bool_decide (b ∈ D) || match p !! b with Some n => negb (splits n) | None => false end)
  | None => false
  end.
Definition terminatorb (D : list nodref) (r : nodref) (t : Terminator) : bool :=
  match term_type t with
  | TBranch => knownb (direct_block t)
  | TCondition => knownb (true_block t) && knownb (false_block t)
  | TSwitch => bool_decide (is_Some (default_case t)) &&
      forallb (fun c => knownb (case_node c) && to_come D (case_node c) && bool_decide (case_node c <> Some r)) (cases t)
  | _ => true
  end.
Definition emittableb (D : list nodref) (r : nodref) (n : CFGNode) : bool :=
  forallb (fun o => match pool_ !! o with Some x => plain_opb x | None => false end) (operations (ir n)) &&
  to_come D (merge_block (final_merge_info n)) && to_come D (continue_block (final_merge_info n)) &&
  forallb (fun x => (phi_id x =? 0) || forallb (incomingb D) (phi_incoming x)) (phi (ir n)) &&
  terminatorb D r (terminator (ir n)).

Lemma to_come_sound D m x : to_come D m = true -> m = Some x -> x ∈ E /\ x ∉ D.
Proof. intros H ->. simpl in H. by rewrite andb_true_iff, !bool_decide_eq_true in H. Qed.
Lemma knownb_sound m : knownb m = true -> known E m.
Proof. destruct m as [m|]; [|done]. simpl. rewrite bool_decide_eq_true. intros H. by exists m. Qed.

Lemma incomingb_sound D y : incomingb D y = true ->
  exists b, incoming_block y = Some b /\ b ∈ E /\ (b ∈ D \/ unsplit p b).
Proof.
  unfold incomingb. destruct (incoming_block y) as [b|]; [|done].
  rewrite andb_true_iff, orb_true_iff, !bool_decide_eq_true. intros [Hb Hor]. exists b. split_and!; [done|done|].
  destruct Hor as [?|Hs]; [by left|right]. destruct (p !! b) as [n|] eqn:En; [|done].
  exists n. split; [done|]. by apply negb_true_iff.
Qed.

Lemma emittableb_sound D r n : emittableb D r n = true -> emittable E p pool_ D r n.
Proof.
  unfold emittableb. rewrite !andb_true_iff, !forallb_forall. intros ((((Ho & Hm) & Hc) & Hp) & Ht). split.
  - apply list.Forall_forall. intros o Hin%list_elem_of_In. specialize (Ho o Hin).
    destruct (pool_ !! o) as [x|]; [|done]. exists x. split; [done|by apply plain_opb_sound].
  - intros m. by apply to_come_sound.
  - intros m. by apply to_come_sound.
  - intros x y Hx%list_elem_of_In Hz Hy%list_elem_of_In. specialize (Hp x Hx).
    rewrite (proj2 (Z.eqb_neq _ _) Hz), orb_false_l, forallb_forall in Hp. by apply incomingb_sound, Hp.
  - unfold terminatorb in Ht. destruct (term_type (terminator (ir n))); try done.
    + by apply knownb_sound.
    + apply andb_true_iff in Ht as [? ?]. split; by apply knownb_sound.
    + apply andb_true_iff in Ht as [Hd Hcs]. rewrite bool_decide_eq_true in Hd. split; [done|].
      rewrite forallb_forall in Hcs. intros c Hin%list_elem_of_In. specialize (Hcs c Hin).
      rewrite !andb_true_iff, bool_decide_eq_true in Hcs. destruct Hcs as [[Hk Hlater] Hne].
      destruct (knownb_sound _ Hk) as (b & Hb & HbE). exists b. destruct (to_come_sound D _ b Hlater Hb).
      split_and!; try done. congruence.
Qed.

(** Every node with the nodes before it. *)
Fixpoint all_emittable (D l : list nodref) : bool :=
  match l with
  | [] => true
  | r :: l' => match p !! r with Some n => emittableb D r n | None => false end && all_emittable (D ++ [r]) l'
  end.

Lemma all_emittable_sound D l D' r post n : all_emittable D l = true -> l = D' ++ r :: post -> p !! r = Some n ->
  emittable E p pool_ (D ++ D') r n.
Proof.
  revert D D'. induction l as [|x l IH]; intros D D' H Hl Hn; [by destruct D'|].
  simpl in H. apply andb_true_iff in H as [Hx H]. destruct D' as [|y D']; injection Hl as -> ->.
  - rewrite app_nil_r. rewrite Hn in Hx. by apply emittableb_sound.
  - replace (D ++ y :: D') with ((D ++ [y]) ++ D') by by rewrite <- app_assoc. by eapply IH.
Qed.
Lemma all_emittable_nodes D l r : all_emittable D l = true -> r ∈ l -> is_Some (p !! r).
Proof.
  revert D. induction l as [|x l IH]; intros D H Hr; [by apply elem_of_nil in Hr|].
  simpl in H. apply andb_true_iff in H as [Hx H]. apply elem_of_cons in Hr as [-> |Hr]; [|by eapply IH].
  destruct (p !! x); [by eexists|done].
Qed.
End check.

Definition readyb (s : Passes) (f : funcref) (x : Function_) (e : blockref) : bool :=
  let L := forward_order (cfg s) in
  negb (enabled (info (instruction_instrumentation (module s)))) && supports_demote (module s) &&
  negb (min16float_min_spec_simulation (module s)) && (discard_state_var_id (module s) =? 0) &&
  bool_decide (head (function_blocks x) = Some e) &&
  match code_of s !! e with Some (i :: _) => bool_decide (opCode i = OpLabel /\ typeId i = 0 /\ operands i = []) | _ => false end &&
  bool_decide (NoDup L) && bool_decide (entry_block (cfg s) ∈ L) &&
  (0 <=? next_id s) && (next_id s + zlength L <? 2 ^ 32) &&
  all_emittable (rev L) (nodes s) (operation_pool (module s)) [] (rev L).

Lemma ready_by_computation s f x e :
  functions (builder (module s)) !! f = Some x -> readyb s f x e = true -> ready s f x e.
Proof.
  intros Hf. unfold readyb. cbv zeta. rewrite !andb_true_iff, !bool_decide_eq_true, !negb_true_iff.
  intros ((((((((((A1 & A2) & A3) & A4) & A5) & A6) & A7) & A8) & A9) & A10) & A11). split; try done.
  - by apply Z.eqb_eq.
  - destruct (code_of s !! e) as [[|i c]|]; [done| |done]. apply bool_decide_eq_true in A6 as (B1 & B2 & B3).
    exists (resultId i), c. destruct i; simpl in *. by subst.
  - intros r Hr. assert (r ∈ rev (forward_order (cfg s))) as Hr' by by rewrite rev_Permutation.
    by eapply all_emittable_nodes.
  - split; [by apply Z.leb_le|by apply Z.ltb_lt].
  - intros D r post n HE Hn. by apply (all_emittable_sound _ _ _ [] _ D r post n A11).
Qed.

(** A loop: block 1 is the header, 2 and 3 the bodies, 4 the continue block, 5 the merge.  The
    condition of the header stays in the loop, so it has to be split; block 3 may leave. *)
Definition sample_terminator (s : Passes) (x : nodref * Terminator) : Passes :=
  with_nodes (alter (fun n => set_ir (mkIRBlock (phi (ir n)) (operations (ir n)) (merge_info (ir n)) x.2) n) x.1 (nodes s)) s.

Definition branch_to (r : nodref) : Terminator := mkTerminator 0 TBranch (Some r) None None [] 0 false false false false.
Definition branch_on (c : Z) (t f : nodref) : Terminator :=
  mkTerminator c TCondition None (Some t) (Some f) [] 0 false false false false.
Definition return_void : Terminator := mkTerminator 0 TReturn None None None [] 0 false false false false.

Definition sample_emission : Passes :=
  let s := sample_passes [[1]; [2; 3]; [4]; [5; 4]; [1]; []]%nat
    [[(OpCopyObject, 50, 6, 0, [7])]; [(OpIsNan, 51, 8, 0, [60])]; [(OpStore, 0, 0, SubgroupSyncPost, [9; 60])]; [];
     [(OpCopyObject, 52, 6, 0, [60])]; []] in
  let s := foldl sample_terminator s
    [(0, branch_to 1); (1, branch_on 51 2 3); (2, branch_to 4); (3, branch_on 51 5 4); (4, branch_to 1);
     (5, return_void)]%nat in
  let s := with_nodes (alter (fun n => set_phi [mkPHI 60 6 false [mkIncoming (Some 0) 50; mkIncoming (Some 4) 52]]
             (set_merge MergeLoop (set_loop_merge_block (Some 5) n))) 1 (nodes s))%nat s in
  match (on_module (_ ← modify (set_supports_demote true);
           on_builder (_ ← modify (set_uniqueId 100); t ← makeVoidType; makeFunctionEntry t None [])) : PM _) s with
  | Ok (_, s') => s'
  | _ => s
  end.

Definition sample_function : Function_ :=
  default (mkFunction (label 0) [] []) (functions (builder (module sample_emission)) !! 0%nat).

Example sample_ready : ready sample_emission 0 sample_function 0.
Proof. apply ready_by_computation; vm_compute; reflexivity. Qed.

(** The emitted blocks: opcode, result and operands of each instruction. *)
Example emission_example :
  match emit_function_body (Some 0%nat) sample_emission with
  | Ok (_, s') =>
      map (fun c : list Instruction => map (fun i => (opCode i, resultId i, operands i)) c) (code_of s')
  | _ => ([] : list (list (Z * Z * list Z)))
  end =
  [[(OpLabel, 104, []); (OpBranch, 0, [105])];
   [(OpLabel, 105, []); (OpCopyObject, 50, [7]); (OpBranch, 0, [106])];
   [(OpLabel, 106, []); (OpPhi, 60, [50; 105; 52; 110]); (OpIsNan, 51, [60]);
    (OpLoopMerge, 0, [108; 110; 0]); (OpBranch, 0, [111])];
   [(OpLabel, 107, []); (OpBranchConditional, 0, [51; 108; 110])];
   [(OpLabel, 108, []); (OpReturn, 0, [])];
   [(OpLabel, 109, []); (OpStore, 0, [9; 60]); (OpControlBarrier, 0, [115; 115; 116]); (OpBranch, 0, [110])];
   [(OpLabel, 110, []); (OpCopyObject, 52, [60]); (OpBranch, 0, [106])];
   [(OpLabel, 111, []); (OpSelectionMerge, 0, [112; 0]); (OpBranchConditional, 0, [51; 109; 107])];
   [(OpLabel, 112, []); (OpUnreachable, 0, [])];
   [(OpLabel, 113, [])]].
Proof. vm_compute. reflexivity. Qed.

