(* ===== verification/StructurizeTheorems.v ===== *)
(** The structurizer and the emission together, on every small control-flow graph.

    [function_of] makes a function of a graph: every block counts, branches on what the
    count returns and has a PHI where paths meet.  [convert] is the structurizer followed by
    the emission of the body.  The graphs are enumerated up to the numbering of their blocks
    ([numbered]), and [enumeration_complete] shows that none is left out. *)
From S2P Require Import Prelude.
From S2P Require Import IR.
From S2P Require Import CFGNode.
From S2P Require Import CFGTraversal.
From S2P Require Import SpvBuilder.
From S2P Require Import SPIRVModule.
From S2P Require Import Passes.
From S2P Require Import SSAPasses.
From S2P Require Import Structurize.
From S2P Require Import StructuredCode.
From S2P Require Import SSATheorems.
From S2P Require Import Emission.
Local Open Scope Z_scope.
Local Open Scope dxil_scope.

(** * Functions *)

(** The targets of the branch of every block, the entry is block 0. *)
Abbreviation FlowGraph := (list (list nodref)).

Definition successors (g : FlowGraph) (a : nodref) : list nodref := default [] (g !! a).

#[local] Instance memory : FreshMemory := fun n => replicate n 0.

(** A module with an empty function, and the type of its values. *)
Definition empty_function : Z * SPIRVModule :=
  match on_builder (v ← makeVoidType; _ ← makeFunctionEntry v None []; makeIntType 32) SPIRVModule_new with
  | Ok (t, m) => (t, m)
  | _ => (0, SPIRVModule_new)
  end.

(** The ids of block [i]: its count and its PHI; they are not the builder's. *)
Definition count_id (i : nodref) : Z := 100 + Z.of_nat i.
Definition phi_of (i : nodref) : Z := 200 + Z.of_nat i.
Definition constant_of (i : nodref) : Z := 300 + Z.of_nat i.
Definition argument_of (i : nodref) : Z := 400 + Z.of_nat i.

Section function_of.
(** Whether the blocks that do not choose count as well. *)
Variable full : bool.
Variable g : FlowGraph.

Definition chooses (i : nodref) : bool := (2 <=? length (successors g i))%nat.
Definition joins (preds : list nodref) : bool := (2 <=? length preds)%nat.

Definition block_terminator (i : nodref) : Terminator :=
  let make kind direct x y cases :=
    mkTerminator (count_id i) kind direct x y cases 0 false false false false in
  match successors g i with
  | [] => make TReturn None None None []
  | [x] => make TBranch (Some x) None None []
  | [x; y] => make TCondition None (Some x) (Some y) []
  | x :: l => make TSwitch None None None
      (mkCase (Some x) 0 0 true :: imap (fun k y => mkCase (Some y) (Z.of_nat (S k)) (Z.of_nat k) false) l)
  end.

Definition block_operations (t : Z) (i : nodref) (preds : list nodref) : list (Z * Z * Z * Z * list Z) :=
  if full || chooses i
  then [(OpAtomicIAdd, count_id i, t, 0, argument_of i :: if joins preds then [phi_of i] else [])]
  else [].

Definition block_phis (t : Z) (i : nodref) (preds : list nodref) : list PHI :=
  if joins preds
  then [mkPHI (phi_of i) t false
          ((fun q => mkIncoming (Some q) (if full || chooses q then count_id q else constant_of q)) <$> preds)]
  else [].

Definition function_of : Passes :=
  let '(t, m) := empty_function in
  let m := match on_builder (modify (set_uniqueId 500)) m with Ok (_, m) => m | _ => m end in
  let p := sample_pool g in
  let s := sample_fill 0 (imap (fun i n => block_operations t i (pred n)) p) (Passes_new 0%nat p m) in
  with_nodes (imap (fun i n => set_phi (block_phis t i (pred n)) (set_terminator (block_terminator i) n)) (nodes s)) s.

(** The structurizer, and the body that is emitted afterwards. *)
Definition convert : res Passes :=
  match (_ ← run; emit_function_body (Some 0%nat)) function_of with
  | Ok (_, s) => Ok s
  | UB => UB
  | Fail => Fail
  end.
End function_of.

(** The first block of the function. *)
Definition first_label (b : Builder) : Z :=
  match blocks b !! 0%nat ≫= (fun k => instructions k !! 0%nat) with Some i => resultId i | None => 0 end.

Definition source_trace (s : Passes) (inputs : list Z) : option (Ending * list event) :=
  p ← cfg_program s; Some (execute (builder (module s)) p 0 inputs).

Definition result_trace (s : Passes) (inputs : list Z) : Ending * list event :=
  let b := builder (module s) in execute b (spirv_program b) (first_label b) inputs.

Definition well_structured (s : Passes) : bool :=
  let b := builder (module s) in structured (spirv_program b) (first_label b).

(** * Graphs *)

Section graphs.
Local Open Scope nat_scope.

(** ** Enumeration *)

(** Blocks are numbered in the order in which they are first named as a target. *)
Definition name_target (seen : option nat) (x : nodref) : option nat :=
  m ← seen; if x <=? S m then Some (max m x) else None.
Definition name_targets (seen : nat) (l : list nodref) : option nat := foldl name_target (Some seen) l.

Definition valid_targets (n : nat) (l : list nodref) : bool :=
  (length l <=? 3) && bool_decide (NoDup l) && forallb (fun x => (1 <=? x) && (x <? n)) l.

Fixpoint numbered_from (n i seen : nat) (g : FlowGraph) : bool :=
  match g with
  | [] => S seen =? n
  | l :: g' =>
      (i <=? seen) && valid_targets n l &&
      match name_targets seen l with Some m => numbered_from n (S i) m g' | None => false end
  end.
Definition numbered (g : FlowGraph) : bool := numbered_from (length g) 0 0 g.

Fixpoint target_lists (k : nat) (choices : list nodref) : list (list nodref) :=
  match k with
  | O => [[]]
  | S k' => [] :: (x ← choices; (fun l => x :: l) <$> target_lists k' (filter (fun y => y <> x) choices))
  end.

Fixpoint enumerate_from (choices : list (list nodref)) (n i seen k : nat) : list FlowGraph :=
  match k with
  | O => if S seen =? n then [[]] else []
  | S k' =>
      if i <=? seen then
        l ← choices;
        match name_targets seen l with
        | Some m => (fun g => l :: g) <$> enumerate_from choices n (S i) m k'
        | None => []
        end
      else []
  end.

(** The graphs with [n] blocks that have [k] targets at most. *)
Definition enumerate (n k : nat) : list FlowGraph :=
  enumerate_from (target_lists k (seq 1 (n - 1))) n 0 0 n.

(** ** Conditions *)

(** Sets of blocks are masks. *)
Definition bit (a : nat) : N := N.shiftl 1 (N.of_nat a).
Definition has (m : N) (a : nat) : bool := N.testbit m (N.of_nat a).
Definition mask (l : list nat) : N := foldr (fun a m => N.lor (bit a) m) 0%N l.
Definition blocks_of (g : FlowGraph) : list nat := seq 0 (length g).
Definition union_of (g : FlowGraph) (next : list N) (m : N) : N :=
  foldr (fun a m' => if has m a then N.lor (nth a next 0%N) m' else m') 0%N (blocks_of g).

Section conditions.
Variable g : FlowGraph.
Definition next_masks : list N := mask <$> g.
Definition previous_masks : list N :=
  (fun x => mask (filter (fun a => has (nth a next_masks 0%N) x = true) (blocks_of g))) <$> blocks_of g.

(** What a set reaches in any number of steps. *)
Definition closure (next : list N) (m : N) : N := Nat.iter (length g) (fun m => N.lor m (union_of g next m)) m.

(** The blocks that are reached around [d]. *)
Definition around (d : nat) : N :=
  if d =? 0 then 0%N
  else N.ldiff (closure (imap (fun a m => if a =? d then 0%N else m) next_masks) 1) (bit d).

Variable around_table : list N.
Definition dominated_by (a b : nat) : bool := negb (has (nth a around_table 0%N) b).
Definition backward (a : nat) : list nat := filter (fun x => dominated_by x a = true) (successors g a).
Definition forward_masks : list N :=
  imap (fun a l => mask (filter (fun x => dominated_by x a = false) l)) g.

(** Without the edges to a dominator the graph has no cycle. *)
Definition reducible : bool :=
  N.eqb (Nat.iter (S (length g)) (union_of g forward_masks) (mask (blocks_of g))) 0.

Definition returns : list nat := filter (fun a => successors g a = []) (blocks_of g).
Definition all_return : bool := N.eqb (closure previous_masks (mask returns)) (mask (blocks_of g)).
Definition single_back_edges : bool := forallb (fun a => length (backward a) <=? 1) (blocks_of g).
Definition one_return : bool := length returns =? 1.
Definition two_way : bool := forallb (fun l => length l <=? 2) g.

(** Loops as compilers leave them: one entry, one back edge, and the blocks after the loop
    are entered from the loop only. *)
Definition simple_loop (h : nat) : bool :=
  let latches := filter (fun a => h ∈ backward a) (blocks_of g) in
  let entries := filter (fun a => has (nth a forward_masks 0%N) h = true) (blocks_of g) in
  if length latches =? 0 then true
  else if (length latches =? 1) && (length entries =? 1) then
    let previous := imap (fun x m => if x =? h then 0%N else m) previous_masks in
    let loop := N.lor (bit h) (closure previous (mask latches)) in
    forallb (fun x => negb (has (union_of g next_masks loop) x) || has loop x ||
                      N.eqb (N.ldiff (nth x previous_masks 0%N) loop) 0) (blocks_of g)
  else false.
Definition simple_loops : bool := forallb simple_loop (blocks_of g).
End conditions.

(** Every block can return, and there is one back edge from a block at most.  With five blocks
    or a switch, the loops are simple and there is one block that returns. *)
Definition covered (g : FlowGraph) : bool :=
  let n := length g in
  let small := (n <=? 4) && two_way g in
  if small || one_return g && ((n <=? 4) || (n <=? 5) && two_way g) then
    if all_return g then
      let t := around g <$> blocks_of g in
      if reducible g t && single_back_edges g t then small || simple_loops g t else false
    else false
  else false.

Definition covered_graphs : list FlowGraph :=
  filter (fun g => covered g = true)
    (enumerate 1 3 ++ enumerate 2 3 ++ enumerate 3 3 ++ enumerate 4 3 ++ enumerate 5 2).
End graphs.

(** ** Completeness of the enumeration *)

Section complete.
Local Open Scope nat_scope.

Lemma target_lists_complete k choices l :
  length l <= k -> NoDup l -> l ⊆ choices -> l ∈ target_lists k choices.
Proof.
  revert choices l. induction k as [|k IH]; intros choices [|x l] Hk Hd Hs; simpl in *; try lia; [set_solver..|].
  apply list.NoDup_cons in Hd as [Hx Hd]. right. apply list_elem_of_bind. exists x. split; [|set_solver].
  apply list_elem_of_fmap. exists l. split; [done|]. apply IH; [lia|done|].
  intros y Hy. apply list_elem_of_filter. split; [set_solver|]. apply Hs. set_solver.
Qed.

Lemma valid_targets_spec n l :
  valid_targets n l = true -> length l <= 3 /\ NoDup l /\ l ⊆ seq 1 (n - 1).
Proof.
  unfold valid_targets. rewrite !andb_true_iff, Nat.leb_le, bool_decide_eq_true. intros ((H1 & H2) & H3).
  split_and!; [done..|]. intros x Hx. apply elem_of_seq. rewrite forallb_forall in H3.
  specialize (H3 x (proj1 (list_elem_of_In _ _) Hx)). apply andb_true_iff in H3 as (A & B).
  apply Nat.leb_le in A. apply Nat.ltb_lt in B. lia.
Qed.

Lemma enumerate_from_complete n k i seen g :
  numbered_from n i seen g = true -> Forall (fun l => length l <= k) g ->
  g ∈ enumerate_from (target_lists k (seq 1 (n - 1))) n i seen (length g).
Proof.
  intros H Hk. revert i seen H. induction Hk as [|l g Hl Hk IH]; intros i seen H; cbn -[seq] in *.
  - rewrite H. set_solver.
  - rewrite !andb_true_iff in H. destruct H as ((H1 & (H2 & H3 & H4)%valid_targets_spec) & H5). rewrite H1.
    apply list_elem_of_bind. exists l. split; [|by apply target_lists_complete].
    destruct (name_targets seen l); [|done]. apply list_elem_of_fmap. eauto.
Qed.

Lemma numbered_three_way n i seen g :
  numbered_from n i seen g = true -> Forall (fun l => length l <= 3) g.
Proof.
  revert i seen. induction g as [|l g IH]; intros i seen H; [done|]. cbn in H.
  rewrite !andb_true_iff in H. destruct H as ((_ & (H & _)%valid_targets_spec) & H5).
  destruct (name_targets seen l); [|done]. eauto.
Qed.

Lemma two_way_spec g : two_way g = true -> Forall (fun l => length l <= 2) g.
Proof. unfold two_way. rewrite forallb_forall, list.Forall_forall. setoid_rewrite list_elem_of_In. setoid_rewrite Nat.leb_le. auto. Qed.

Lemma enumeration_complete g : numbered g = true -> covered g = true -> g ∈ covered_graphs.
Proof.
  intros Hn Hc. unfold covered_graphs. rewrite list_elem_of_filter. split; [done|].
  assert (length g <= 4 \/ length g = 5 /\ two_way g = true) as Hl.
  { unfold covered in Hc. cbv zeta in Hc. destruct (_ || _) eqn:E; [|done]. rewrite !orb_true_iff, !andb_true_iff, !orb_true_iff, !andb_true_iff, !Nat.leb_le in E.
    destruct (decide (length g = 5)); intuition lia. }
  assert (forall k, Forall (fun l => length l <= k) g -> g ∈ enumerate (length g) k) as He
    by (intros k; by apply enumerate_from_complete).
  rewrite !elem_of_app. destruct Hl as [Hl|[Hl Ht]].
  - specialize (He 3 (numbered_three_way _ _ _ _ Hn)).
    assert (length g <> 0) by (destruct g; [by vm_compute in Hn|done]).
    destruct (decide (length g = 1)) as [E|]; [rewrite E in He; tauto|].
    destruct (decide (length g = 2)) as [E|]; [rewrite E in He; tauto|].
    destruct (decide (length g = 3)) as [E|]; [rewrite E in He; tauto|].
    assert (length g = 4) as E by lia. rewrite E in He. tauto.
  - specialize (He 2 (two_way_spec _ Ht)). rewrite Hl in He. tauto.
Qed.
End complete.

(** * Conversion of the covered graphs *)

(** A value below this number is enough to reach every target. *)
Definition choices (g : FlowGraph) : nat := foldr (fun l m => max (length l) m) 2%nat g.

Definition inputs_below (k : nat) (n : nat) (inputs : list Z) : Prop :=
  length inputs = n /\ Forall (fun v => 0 <= v < Z.of_nat k) inputs.

(** The result is structured and does what the function did, the first five counts. *)
Definition converted_correctly (full : bool) (g : FlowGraph) : Prop :=
  exists s, convert full g = Ok s /\ well_structured s = true /\
    forall inputs, inputs_below (choices g) 5 inputs ->
      source_trace (function_of full g) inputs = Some (result_trace s inputs).

Fixpoint all_inputs (k n : nat) : list (list Z) :=
  match n with
  | O => [[]]
  | S n' => l ← all_inputs k n'; (fun v => Z.of_nat v :: l) <$> seq 0 k
  end.

Lemma all_inputs_complete k n inputs : inputs_below k n inputs -> inputs ∈ all_inputs k n.
Proof.
  intros [<- H]. induction H as [|v l Hv H IH]; simpl; [set_solver|].
  apply list_elem_of_bind. exists l. split; [|done]. apply list_elem_of_fmap. exists (Z.to_nat v).
  rewrite elem_of_seq. split; [f_equal|]; lia.
Qed.

(** The two programs are read once. *)
Definition convertedb (full : bool) (g : FlowGraph) : bool :=
  match convert full g with
  | Ok s =>
      let s0 := function_of full g in
      let b0 := builder (module s0) in
      let b := builder (module s) in
      let p := spirv_program b in
      let l := first_label b in
      if structured p l then
        match cfg_program s0 with
        | Some p0 => forallb (fun i => bool_decide (execute b0 p0 0 i = execute b p l i)) (all_inputs (choices g) 5)
        | None => false
        end
      else false
  | _ => false
  end.

Lemma convertedb_sound full g : convertedb full g = true -> converted_correctly full g.
Proof.
  unfold convertedb, converted_correctly. destruct (convert full g) as [s| |]; [|done..]. cbv zeta.
  destruct (structured _ _) eqn:E; [|done]. destruct (cfg_program _) as [p0|] eqn:E0; [|done].
  rewrite forallb_forall. intros H. exists s. split_and!; [done..|]. intros inputs Hi.
  apply all_inputs_complete, list_elem_of_In, H, bool_decide_eq_true in Hi.
  unfold source_trace, result_trace. rewrite E0. simpl. by rewrite Hi.
Qed.

Lemma covered_graphs_converted :
  forallb (fun g => convertedb true g && convertedb false g) covered_graphs = true.
Proof. vm_cast_no_check (eq_refl true). Qed.

Lemma covered_converted g full : g ∈ covered_graphs -> convertedb full g = true.
Proof.
  intros Hg%list_elem_of_In. pose proof (proj1 (forallb_forall _ _) covered_graphs_converted g Hg) as H.
  apply andb_true_iff in H as (H1 & H2). destruct full; assumption.
Qed.


(** A loop with two breaks. *)
Definition sample_loops : FlowGraph := [[1]; [2; 3]; [1; 3]; []]%nat.


(** * What fails *)

(** Inner loops whose exit is the back edge of the outer loop or that never end, and a block
    with back edges to two headers. *)
Definition crashing_graphs : list FlowGraph :=
  [[[1]; [2; 3]; []; [1; 4]; [3]]; [[1; 2]; []; [3]; [2]]; [[1]; [2]; [1; 2; 3]; []]]%nat.

(** Returns on all paths of an inner selection, and a block with two back edges going in. *)
Definition unterminated_graphs : list FlowGraph :=
  [[[1; 2]; [3; 4]; [3; 4]; []; []]; [[1]; [2]; [1; 3]; [2; 4]; []]]%nat.

(** A header with a PHI of the paths into the loop and of two back edges, and a self-loop. *)
Definition lossy_graphs : list (FlowGraph * list Z) :=
  [([[1; 2]; [2]; [2; 3]; [2; 4]; []]%nat, [1; 0; 0; 1; 0]);
   ([[1]; [2; 3]; []; [1; 4]; [2; 4]]%nat, [1; 0; 0; 0; 0])].

(** A switch that branches back to itself. *)
Definition switch_loop : FlowGraph := [[1]; [2; 1; 3]; [4]; [4]; []]%nat.

Definition with_result (g : FlowGraph) (f : Passes -> bool) : bool :=
  match convert true g with Ok s => f s | _ => false end.

Definition targets_missing (s : Passes) : bool :=
  let b := builder (module s) in negb (targets_exist (spirv_program b) (first_label b)).

