(* ===== verification/MemoryStream.v ===== *)
(** The bounds-checked byte cursor of memory_stream.hpp / memory_stream.cpp.

    A [MemoryStream] is a window [blob, blob + blob_size) of the container's
    bytes [mem] with a read position.  All offsets are [size_t]: sums wrap at 64
    bits.  The specification of a stream is the list of bytes that are still
    ahead of the position ([view]); each operation is related to it. *)
From S2P Require Import Prelude.
Local Open Scope Z_scope.

(** [blob = nullptr] is [None]; otherwise the offset of the window in [mem]. *)
Record MemoryStream := mkStream {
  blob : option Z;
  blob_size : Z;
  blob_offset : Z;
}.

(** [MemoryStream()] *)
Definition MemoryStream_default : MemoryStream := mkStream None 0 0.
(** [MemoryStream(blob, size)] *)
Definition MemoryStream_new (b : option Z) (size : Z) : MemoryStream :=
  mkStream b size 0.

Definition set_offset (s : MemoryStream) (o : Z) : MemoryStream :=
  mkStream (blob s) (blob_size s) o.

Definition MemoryStream_reset (s : MemoryStream) : MemoryStream := set_offset s 0.

(** Pointer arithmetic on the (possibly null) window. *)
Definition ptr_add (b : option Z) (o : Z) : option Z := (fun a => a + o) <$> b.

Definition MemoryStream_get_offset (s : MemoryStream) : Z := blob_offset s.
Definition MemoryStream_get_size (s : MemoryStream) : Z := blob_size s.

Definition MemoryStream_seek (s : MemoryStream) (new_offset : Z) : option MemoryStream :=
  if blob_size s <? new_offset then None else Some (set_offset s new_offset).

Definition MemoryStream_skip (s : MemoryStream) (count : Z) : option MemoryStream :=
  MemoryStream_seek s (u64 (blob_offset s + count)).

Definition MemoryStream_create_substream (s : MemoryStream) (offset size : Z) : MemoryStream :=
  if (blob_size s <=? offset) || (blob_size s <? u64 (offset + size))
  then MemoryStream_new None 0
  else MemoryStream_new (ptr_add (blob s) offset) size.

Definition MemoryStream_create_substream_rest (s : MemoryStream) (offset : Z) : MemoryStream :=
  if blob_size s <=? offset
  then MemoryStream_new None 0
  else MemoryStream_new (ptr_add (blob s) offset) (blob_size s - offset).

Definition MemoryStream_create_substream_bitcode_size
    (s : MemoryStream) (offset bitcode_size : Z) : MemoryStream :=
  if blob_size s <? u64 (offset + bitcode_size)
  then MemoryStream_new None 0
  else MemoryStream_new (ptr_add (blob s) offset) bitcode_size.

(** [map_read]: [None] is [nullptr]; the position moves only on success. *)
Definition MemoryStream_map_read (s : MemoryStream) (size : Z) : option Z * MemoryStream :=
  if blob_size s <? u64 (blob_offset s + size)
  then (None, s)
  else (ptr_add (blob s) (blob_offset s),
        set_offset s (u64 (blob_offset s + size))).

Section with_memory.
(** The bytes of the container, each in [0, 256). *)
Variable mem : list Z.

(** [memcpy] from the container: defined only inside it. *)
Definition load_bytes (b : option Z) (off n : Z) : res (list Z) :=
  if n =? 0 then Ok []
  else
    a ← some_or_ub b;
    _ ← assert_res ((0 <=? a + off) && (0 <=? n) && (a + off + n <=? zlength mem));
    Ok (take (Z.to_nat n) (drop (Z.to_nat (a + off)) mem)).

(** [read]: [None] is the result [false], which leaves the stream alone. *)
Definition MemoryStream_read (s : MemoryStream) (size : Z)
    : res (option (list Z) * MemoryStream) :=
  if blob_size s <? u64 (blob_offset s + size)
  then Ok (None, s)
  else
    bytes ← load_bytes (blob s) (blob_offset s) size;
    Ok (Some bytes, set_offset s (u64 (blob_offset s + size))).

(** The [do ... while] of [map_string_iterate]: read bytes until a zero byte
    ([true]) or the end of the stream ([false]).  A loop that would not end
    has no defined outcome. *)
Fixpoint map_string_loop (fuel : nat) (s : MemoryStream) : res (bool * MemoryStream) :=
  match fuel with
  | O => UB
  | S fuel' =>
      '(r, s') ← MemoryStream_read s 1;
      match r with
      | None => Ok (false, s')
      | Some c => if bool_decide (c = [0]) then Ok (true, s') else map_string_loop fuel' s'
      end
  end.

Definition string_fuel (s : MemoryStream) : nat :=
  S (Z.to_nat (blob_size s - blob_offset s)).

(** The result, the string pointer [str] and the stream afterwards. *)
Definition MemoryStream_map_string_iterate (s : MemoryStream)
    : res (bool * option Z * MemoryStream) :=
  let str := ptr_add (blob s) (blob_offset s) in
  '(ok, s') ← map_string_loop (string_fuel s) s;
  Ok (ok, str, s').

(** [const]: works on a copy. *)
Definition MemoryStream_map_string_absolute (s : MemoryStream) (offset : Z)
    : res (bool * option Z) :=
  '(ok, str, _) ← MemoryStream_map_string_iterate
                    (MemoryStream_create_substream_rest s offset);
  Ok (ok, str).

(** * Well-formed streams and their specification *)

Definition stream_wf (s : MemoryStream) : Prop :=
  0 <= blob_offset s <= blob_size s /\ blob_size s < max_object /\
  match blob s with
  | None => blob_size s = 0
  | Some a => 0 <= a /\ a + blob_size s <= zlength mem
  end.

(** The bytes still ahead. *)
Definition view (s : MemoryStream) : list Z :=
  match blob s with
  | None => []
  | Some a => take (Z.to_nat (blob_size s - blob_offset s))
                   (drop (Z.to_nat (a + blob_offset s)) mem)
  end.

Lemma length_view s : stream_wf s -> zlength (view s) = blob_size s - blob_offset s.
Proof.
  intros (Ho & _ & Hb). unfold view, zlength in *. destruct (blob s) as [a|]; simpl; [|lia].
  rewrite length_take, length_drop. lia.
Qed.

Lemma stream_wf_default : stream_wf MemoryStream_default.
Proof. unfold stream_wf, max_object; simpl. lia. Qed.

Lemma stream_wf_new size :
  0 <= size <= zlength mem -> zlength mem < max_object ->
  stream_wf (MemoryStream_new (Some 0) size).
Proof. unfold stream_wf; simpl. lia. Qed.

Lemma stream_wf_set_offset s o :
  stream_wf s -> 0 <= o <= blob_size s -> stream_wf (set_offset s o).
Proof. unfold stream_wf; simpl. intros (? & ? & ?) ?. auto. Qed.

Lemma u64_no_wrap a b : 0 <= a < max_object -> 0 <= b < max_object -> u64 (a + b) = a + b.
Proof. unfold max_object. intros. apply u64_small. lia. Qed.

(** ** [read] consumes exactly the next bytes of the view, or fails in place *)
Lemma MemoryStream_read_spec s n :
  stream_wf s -> 0 <= n < max_object ->
  if decide (n <= zlength (view s))
  then exists s', MemoryStream_read s n = Ok (Some (take (Z.to_nat n) (view s)), s') /\
         stream_wf s' /\ view s' = drop (Z.to_nat n) (view s) /\
         blob s' = blob s /\ blob_size s' = blob_size s /\
         blob_offset s' = blob_offset s + n
  else MemoryStream_read s n = Ok (None, s).
Proof.
  intros Hwf Hn. pose proof (length_view s Hwf) as Hlen. pose proof Hwf as (Ho & Hmax & Hb).
  unfold MemoryStream_read. rewrite u64_no_wrap by (unfold max_object in *; lia).
  case_decide as Hd; destruct (Z.ltb_spec (blob_size s) (blob_offset s + n)); try lia; [|done].
  assert (load_bytes (blob s) (blob_offset s) n = Ok (take (Z.to_nat n) (view s))) as ->.
  { unfold load_bytes, view. destruct (Z.eqb_spec n 0) as [->|]; [by destruct (blob s)|].
    destruct (blob s) as [a|]; [|lia]. simpl.
    rewrite take_take, Nat.min_l by lia.
    rewrite !(proj2 (Z.leb_le _ _)) by lia. done. }
  simpl. eexists. split; [done|]. split; [apply stream_wf_set_offset; [done|lia]|].
  repeat split. unfold view; simpl. destruct (blob s) as [a|]; [|by rewrite drop_nil].
  rewrite skipn_firstn_comm, drop_drop. f_equal; [lia|f_equal; lia].
Qed.

Corollary wp_read s n (Q : option (list Z) * MemoryStream -> Prop) :
  stream_wf s -> 0 <= n < max_object ->
  Q (None, s) ->
  (forall bytes s', zlength bytes = n -> stream_wf s' -> blob s' = blob s ->
     blob_size s' = blob_size s -> Q (Some bytes, s')) ->
  wp (MemoryStream_read s n) Q.
Proof.
  intros Hwf Hn HN HS. pose proof (MemoryStream_read_spec s n Hwf Hn) as H.
  case_decide as Hd; [|by rewrite H].
  destruct H as (s' & -> & ? & ? & ? & ? & ?). apply HS; try done.
  unfold zlength in *. rewrite length_take. lia.
Qed.

(** ** Positioning *)
Lemma stream_wf_reset s : stream_wf s -> stream_wf (MemoryStream_reset s).
Proof. intros H. apply stream_wf_set_offset; [done|]. destruct H. lia. Qed.

Lemma stream_wf_seek s o s' :
  stream_wf s -> 0 <= o -> MemoryStream_seek s o = Some s' -> stream_wf s'.
Proof.
  unfold MemoryStream_seek. intros Hwf Ho. destruct (Z.ltb_spec (blob_size s) o); [done|].
  intros [= <-]. apply stream_wf_set_offset; [done|lia].
Qed.

Lemma stream_wf_skip s n s' :
  stream_wf s -> MemoryStream_skip s n = Some s' -> stream_wf s'.
Proof. intros Hwf. apply stream_wf_seek; [done|]. apply u64_range. Qed.

(** ** Sub-windows stay inside their parent *)
Lemma stream_wf_null : stream_wf (MemoryStream_new None 0).
Proof. apply stream_wf_default. Qed.

Lemma stream_wf_window s off n :
  stream_wf s -> 0 <= off -> 0 <= n -> off + n <= blob_size s -> 0 < blob_size s ->
  stream_wf (MemoryStream_new (ptr_add (blob s) off) n).
Proof.
  unfold stream_wf; simpl. intros (? & ? & Hb) ????.
  destruct (blob s); simpl; lia.
Qed.

Lemma stream_wf_create_substream s off n :
  stream_wf s -> 0 <= off -> 0 <= n -> off + n < 2 ^ 64 ->
  stream_wf (MemoryStream_create_substream s off n).
Proof.
  intros Hwf ???. unfold MemoryStream_create_substream. rewrite u64_small by lia.
  destruct (Z.leb_spec (blob_size s) off); simpl; [apply stream_wf_null|].
  destruct (Z.ltb_spec (blob_size s) (off + n)); [apply stream_wf_null|].
  apply stream_wf_window; auto; lia.
Qed.

Lemma stream_wf_create_substream_rest s off :
  stream_wf s -> 0 <= off -> stream_wf (MemoryStream_create_substream_rest s off).
Proof.
  intros Hwf ?. unfold MemoryStream_create_substream_rest.
  destruct (Z.leb_spec (blob_size s) off); [apply stream_wf_null|].
  apply stream_wf_window; auto; lia.
Qed.

Lemma stream_wf_create_substream_bitcode_size s off n :
  stream_wf s -> 0 <= off -> 0 <= n -> off + n < 2 ^ 64 ->
  stream_wf (MemoryStream_create_substream_bitcode_size s off n).
Proof.
  intros Hwf ???. unfold MemoryStream_create_substream_bitcode_size.
  rewrite u64_small by lia.
  destruct (Z.ltb_spec (blob_size s) (off + n)); [apply stream_wf_null|].
  destruct Hwf as (? & ? & Hb). unfold stream_wf; simpl. destruct (blob s); simpl; lia.
Qed.

(** ** C strings *)

(** The bytes before the first zero byte, if there is one. *)
Fixpoint until_nul (l : list Z) : option (list Z) :=
  match l with
  | [] => None
  | c :: l' => if c =? 0 then Some [] else (cons c) <$> until_nul l'
  end.

(** The string a [const char *] points to; reading past the container before
    a terminator is undefined. *)
Definition c_string (p : option Z) : res (list Z) :=
  a ← some_or_ub p;
  _ ← assert_res (0 <=? a);
  some_or_ub (until_nul (drop (Z.to_nat a) mem)).

Lemma until_nul_prefix l str : until_nul l = Some str -> l = str ++ 0 :: drop (S (length str)) l.
Proof.
  revert str; induction l as [|c l IH]; intros str; simpl; [done|].
  destruct (Z.eqb_spec c 0) as [->|Hc]; [intros [= <-]; simpl; by rewrite drop_0|].
  intros (str' & Hl & ->)%fmap_Some. simpl. f_equal. by apply IH.
Qed.

Lemma until_nul_app l k str : until_nul l = Some str -> until_nul (l ++ k) = Some str.
Proof.
  revert str; induction l as [|c l IH]; intros str; simpl; [done|].
  destruct (c =? 0); [done|]. intros (str' & Hl & ->)%fmap_Some. by rewrite (IH str').
Qed.

Lemma until_nul_no_zero l str : until_nul l = Some str -> Forall (fun c => c <> 0) str.
Proof.
  revert str; induction l as [|c l IH]; intros str; simpl; [done|].
  destruct (Z.eqb_spec c 0); [by intros [= <-]|].
  intros (str' & Hl & ->)%fmap_Some. eauto.
Qed.

Lemma map_string_loop_spec fuel s :
  stream_wf s -> (length (view s) < fuel)%nat ->
  exists s', map_string_loop fuel s = Ok (bool_decide (is_Some (until_nul (view s))), s') /\
    stream_wf s' /\ blob s' = blob s /\ blob_size s' = blob_size s /\
    forall str, until_nul (view s) = Some str ->
      blob_offset s' = blob_offset s + zlength str + 1.
Proof.
  revert s; induction fuel as [|fuel IH]; intros s Hwf Hf; [lia|]. simpl.
  pose proof (MemoryStream_read_spec s 1 Hwf ltac:(by unfold max_object; lia)) as Hr.
  destruct (view s) as [|c l] eqn:Hv.
  - rewrite decide_False in Hr by (unfold zlength; simpl; lia). rewrite Hr. simpl.
    exists s. repeat (split; [done|]). done.
  - rewrite decide_True in Hr by (unfold zlength; simpl; lia).
    destruct Hr as (s1 & -> & Hwf1 & Hv1 & Hb1 & Hs1 & Ho1). simpl in *. rewrite take_0 in *.
    destruct (Z.eqb_spec c 0) as [->|Hc].
    + rewrite bool_decide_eq_true_2 by done. exists s1.
      repeat (split; [done|]). intros str [= <-]. unfold zlength; simpl. lia.
    + rewrite (bool_decide_eq_false_2 ([c] = [0])) by congruence.
      rewrite drop_0 in Hv1.
      destruct (IH s1 Hwf1 ltac:(rewrite Hv1; simpl in *; lia)) as (s' & -> & Hwf' & Hb' & Hs' & Ho').
      exists s'. rewrite Hv1 in *. split.
      { do 2 f_equal. apply bool_decide_ext. by rewrite fmap_is_Some. }
      split; [done|]. do 2 (split; [congruence|]).
      intros str (str' & Hl & ->)%fmap_Some. rewrite (Ho' _ Hl). unfold zlength; simpl. lia.
Qed.

Lemma string_fuel_enough s : stream_wf s -> (length (view s) < string_fuel s)%nat.
Proof.
  intros Hwf. pose proof (length_view s Hwf). unfold string_fuel, zlength in *. lia.
Qed.

Lemma c_string_view s str :
  stream_wf s -> until_nul (view s) = Some str ->
  c_string (ptr_add (blob s) (blob_offset s)) = Ok str.
Proof.
  intros (Ho & _ & Hb) Hs. unfold view in Hs. unfold c_string.
  destruct (blob s) as [a|]; simpl in *; [|done].
  rewrite (proj2 (Z.leb_le _ _)) by lia. simpl.
  rewrite <-(take_drop (Z.to_nat (blob_size s - blob_offset s)) (drop _ mem)).
  by rewrite (until_nul_app _ _ _ Hs).
Qed.

Lemma map_string_iterate_spec s :
  stream_wf s ->
  exists s', MemoryStream_map_string_iterate s =
      Ok (bool_decide (is_Some (until_nul (view s))), ptr_add (blob s) (blob_offset s), s') /\
    stream_wf s' /\ blob s' = blob s /\ blob_size s' = blob_size s /\
    forall str, until_nul (view s) = Some str ->
      blob_offset s' = blob_offset s + zlength str + 1 /\
      c_string (ptr_add (blob s) (blob_offset s)) = Ok str.
Proof.
  intros Hwf. unfold MemoryStream_map_string_iterate.
  destruct (map_string_loop_spec (string_fuel s) s Hwf (string_fuel_enough s Hwf))
    as (s' & -> & ? & ? & ? & Ho). simpl. exists s'.
  repeat (split; [done|]). intros str Hstr. split; [by apply Ho|by apply c_string_view].
Qed.
End with_memory.

#[export] Hint Resolve stream_wf_default stream_wf_null stream_wf_reset stream_wf_seek
  stream_wf_skip stream_wf_create_substream stream_wf_create_substream_rest
  stream_wf_create_substream_bitcode_size : dxil.

(** * Properties *)

(** C37. Reading [n] bytes from a well-formed stream yields exactly the next [n]
    bytes of its view and advances by them; when fewer bytes remain the read
    returns [false] and the stream is unchanged.  No byte outside the window is
    touched. *)
Theorem MemoryStream_read_refines_view mem s n :
  stream_wf mem s -> 0 <= n < max_object ->
  if decide (n <= zlength (view mem s))
  then exists s', MemoryStream_read mem s n = Ok (Some (take (Z.to_nat n) (view mem s)), s') /\
         stream_wf mem s' /\ view mem s' = drop (Z.to_nat n) (view mem s)
  else MemoryStream_read mem s n = Ok (None, s).
Proof.
  intros Hwf Hn. pose proof (MemoryStream_read_spec mem s n Hwf Hn) as H.
  case_decide; [|done]. destruct H as (s' & ? & ? & ? & _). eauto.
Qed.

Lemma MemoryStream_read_refines_view_witness :
  let s := mkStream (Some 1) 4 1 in
  stream_wf [7; 8; 9; 10; 11] s /\
  exists s', MemoryStream_read [7; 8; 9; 10; 11] s 2 = Ok (Some [9; 10], s') /\
    stream_wf [7; 8; 9; 10; 11] s' /\ view [7; 8; 9; 10; 11] s' = [11].
Proof.
  assert (stream_wf [7; 8; 9; 10; 11] (mkStream (Some 1) 4 1)) as Hwf.
  { unfold stream_wf, max_object, zlength; simpl. lia. }
  split; [done|].
  exact (MemoryStream_read_refines_view [7; 8; 9; 10; 11] (mkStream (Some 1) 4 1) 2 Hwf
           ltac:(unfold max_object; lia)).
Defined.

(** [map_string_iterate] on a well-formed stream ends, returns [true] exactly
    when a zero byte lies ahead, hands out the address of the current position,
    and then a terminated C string inside the container starts at that address
    and the stream stands just after its terminator. *)
Theorem map_string_iterate_terminated mem s :
  stream_wf mem s ->
  exists s', MemoryStream_map_string_iterate mem s =
      Ok (bool_decide (is_Some (until_nul (view mem s))), ptr_add (blob s) (blob_offset s), s') /\
    stream_wf mem s' /\
    forall str, until_nul (view mem s) = Some str ->
      c_string mem (ptr_add (blob s) (blob_offset s)) = Ok str /\
      blob_offset s' = blob_offset s + zlength str + 1.
Proof.
  intros Hwf. destruct (map_string_iterate_spec mem s Hwf) as (s' & ? & ? & _ & _ & H).
  exists s'. split_and!; [done|done|]. intros str Hstr. destruct (H str Hstr). done.
Qed.

Lemma map_string_iterate_terminated_witness :
  exists s', MemoryStream_map_string_iterate [65; 66; 0; 67] (mkStream (Some 0) 4 0) =
      Ok (true, Some 0, s') /\ stream_wf [65; 66; 0; 67] s' /\
    forall str, until_nul (view [65; 66; 0; 67] (mkStream (Some 0) 4 0)) = Some str ->
      c_string [65; 66; 0; 67] (Some 0) = Ok str /\ blob_offset s' = 0 + zlength str + 1.
Proof.
  apply (map_string_iterate_terminated [65; 66; 0; 67] (mkStream (Some 0) 4 0)).
  unfold stream_wf, max_object, zlength; simpl. lia.
Defined.

(** As long as [offset + size] does not wrap, every sub-window is empty or lies
    inside its parent, starting [offset] bytes into it. *)
Theorem substreams_contained mem s off n :
  stream_wf mem s -> 0 <= off -> 0 <= n -> off + n < 2 ^ 64 ->
  let inside w := stream_wf mem w /\ blob_offset w = 0 /\
    (w = MemoryStream_new None 0 \/
     blob w = ptr_add (blob s) off /\ off + blob_size w <= blob_size s) in
  inside (MemoryStream_create_substream s off n) /\
  inside (MemoryStream_create_substream_rest s off) /\
  inside (MemoryStream_create_substream_bitcode_size s off n).
Proof.
  intros Hwf Ho Hn Hs inside. split_and!; (split; [auto with dxil|]).
  - unfold MemoryStream_create_substream. rewrite u64_small by lia.
    destruct (Z.leb_spec (blob_size s) off); simpl; [auto|].
    destruct (Z.ltb_spec (blob_size s) (off + n)); simpl; auto.
  - unfold MemoryStream_create_substream_rest.
    destruct (Z.leb_spec (blob_size s) off); simpl; [auto|]. split; [done|right]. split; [done|lia].
  - unfold MemoryStream_create_substream_bitcode_size. rewrite u64_small by lia.
    destruct (Z.ltb_spec (blob_size s) (off + n)); simpl; auto.
Qed.

Lemma substreams_contained_witness :
  let s := mkStream (Some 0) 3 0 in
  stream_wf [1; 2; 3] (MemoryStream_create_substream s 1 2) /\
  stream_wf [1; 2; 3] (MemoryStream_create_substream_rest s 1).
Proof.
  assert (stream_wf [1; 2; 3] (mkStream (Some 0) 3 0)) as Hwf.
  { unfold stream_wf, max_object, zlength; simpl. lia. }
  destruct (substreams_contained [1; 2; 3] (mkStream (Some 0) 3 0) 1 2 Hwf
              ltac:(lia) ltac:(lia) ltac:(lia)) as ([H1 _] & [H2 _] & _).
  exact (conj H1 H2).
Defined.

(** The bound is needed: for a size that makes [offset + size] wrap to a small
    number the test of [create_substream] passes, and the window returned claims
    more bytes than its parent has. *)
Theorem create_substream_wraps s off n :
  0 <= off < blob_size s -> blob_size s < 2 ^ 63 -> 2 ^ 64 - off <= n < 2 ^ 64 ->
  MemoryStream_create_substream s off n = MemoryStream_new (ptr_add (blob s) off) n /\
  blob_size s < n.
Proof.
  intros Ho Hs Hn. split; [|lia]. unfold MemoryStream_create_substream.
  assert (u64 (off + n) = off + n - 2 ^ 64) as ->.
  { unfold u64, wrap. rewrite <-(Z.mod_small (off + n - 2 ^ 64) (2 ^ 64)) by lia.
    rewrite <-(Z_mod_plus_full (off + n - 2 ^ 64) 1 (2 ^ 64)). f_equal. lia. }
  destruct (Z.leb_spec (blob_size s) off); [lia|].
  destruct (Z.ltb_spec (blob_size s) (off + n - 2 ^ 64)); [lia|done].
Qed.

Lemma create_substream_wraps_witness :
  MemoryStream_create_substream (mkStream (Some 0) 16 0) 8 (2 ^ 64 - 8) =
    MemoryStream_new (Some 8) (2 ^ 64 - 8) /\ 16 < 2 ^ 64 - 8.
Proof.
  apply (create_substream_wraps (mkStream (Some 0) 16 0) 8 (2 ^ 64 - 8)); simpl; lia.
Defined.
