(* ===== verification/DxilContainer.v ===== *)
(** The DXBC/DXIL container parser of dxil_parser.cpp, with the container data
    structures of dxil.hpp.

    [parse_container] walks the part table of a container and dispatches to
    [parse_dxil], [parse_iosg1] and [parse_rdat]; all of them read the
    container's bytes [mem] through [MemoryStream] cursors only.  A [false]
    result of the code is [Fail]; [UB] is an access outside the container. *)
From S2P Require Import Prelude.
From S2P Require Import MemoryStream.
Local Open Scope Z_scope.

(** * dxil.hpp: enumerations and fixed-layout structures *)

Definition fourcc (a b c d : Z) : Z :=
  Z.lor a (Z.lor (Z.shiftl b 8) (Z.lor (Z.shiftl c 16) (Z.shiftl d 24))).

Inductive FourCC :=
| FourCC_Container | FourCC_ResourceDef | FourCC_InputSignature
| FourCC_OutputSignature | FourCC_PatchConstantSignature
| FourCC_ShaderStatistics | FourCC_ShaderDebugInfoDXIL | FourCC_ShaderDebugName
| FourCC_FeatureInfo | FourCC_PrivateData | FourCC_RootSignature | FourCC_DXIL
| FourCC_SHDR | FourCC_SHEX | FourCC_PipelineStateValidation
| FourCC_RuntimeData | FourCC_ShaderHash.

#[export] Instance FourCC_eq_dec : EqDecision FourCC.
Proof. solve_decision. Defined.

Definition FourCC_code (f : FourCC) : Z :=
  match f with
  | FourCC_Container => fourcc 68 88 66 67               (* DXBC *)
  | FourCC_ResourceDef => fourcc 82 68 69 70             (* RDEF *)
  | FourCC_InputSignature => fourcc 73 83 71 49          (* ISG1 *)
  | FourCC_OutputSignature => fourcc 79 83 71 49         (* OSG1 *)
  | FourCC_PatchConstantSignature => fourcc 80 83 71 49  (* PSG1 *)
  | FourCC_ShaderStatistics => fourcc 83 84 65 84        (* STAT *)
  | FourCC_ShaderDebugInfoDXIL => fourcc 73 76 68 66     (* ILDB *)
  | FourCC_ShaderDebugName => fourcc 73 76 68 78         (* ILDN *)
  | FourCC_FeatureInfo => fourcc 83 70 73 48             (* SFI0 *)
  | FourCC_PrivateData => fourcc 80 82 73 86             (* PRIV *)
  | FourCC_RootSignature => fourcc 82 84 83 48           (* RTS0 *)
  | FourCC_DXIL => fourcc 68 88 73 76                    (* DXIL *)
  | FourCC_SHDR => fourcc 83 72 68 82                    (* SHDR *)
  | FourCC_SHEX => fourcc 83 72 69 88                    (* SHEX *)
  | FourCC_PipelineStateValidation => fourcc 80 83 86 48 (* PSV0 *)
  | FourCC_RuntimeData => fourcc 82 68 65 84             (* RDAT *)
  | FourCC_ShaderHash => fourcc 72 65 83 72              (* HASH *)
  end.

Definition FourCC_all : list FourCC :=
  [FourCC_Container; FourCC_ResourceDef; FourCC_InputSignature;
   FourCC_OutputSignature; FourCC_PatchConstantSignature;
   FourCC_ShaderStatistics; FourCC_ShaderDebugInfoDXIL; FourCC_ShaderDebugName;
   FourCC_FeatureInfo; FourCC_PrivateData; FourCC_RootSignature; FourCC_DXIL;
   FourCC_SHDR; FourCC_SHEX; FourCC_PipelineStateValidation;
   FourCC_RuntimeData; FourCC_ShaderHash].

(** [static_cast<FourCC>]: [None] for a value with no enumerator. *)
Definition FourCC_of (code : Z) : option FourCC :=
  snd <$> list_find (fun f => FourCC_code f = code) FourCC_all.

Inductive RuntimeDataPartType :=
| RDPT_Invalid | RDPT_StringBuffer | RDPT_IndexArrays | RDPT_ResourceTable
| RDPT_FunctionTable | RDPT_RawBytes | RDPT_SubobjectTable.

Definition RuntimeDataPartType_of (code : Z) : option RuntimeDataPartType :=
  match code with
  | 0 => Some RDPT_Invalid
  | 1 => Some RDPT_StringBuffer
  | 2 => Some RDPT_IndexArrays
  | 3 => Some RDPT_ResourceTable
  | 4 => Some RDPT_FunctionTable
  | 5 => Some RDPT_RawBytes
  | 6 => Some RDPT_SubobjectTable
  | _ => None
  end.

Inductive SubobjectKind :=
| SK_StateObjectConfig | SK_GlobalRootSignature | SK_LocalRootSignature
| SK_SubobjectToExportsAssociation | SK_RaytracingShaderConfig
| SK_RaytracingPipelineConfig | SK_HitGroup | SK_RaytracingPipelineConfig1.

#[export] Instance SubobjectKind_eq_dec : EqDecision SubobjectKind.
Proof. solve_decision. Defined.

Definition SubobjectKind_of (code : Z) : option SubobjectKind :=
  match code with
  | 0 => Some SK_StateObjectConfig
  | 1 => Some SK_GlobalRootSignature
  | 2 => Some SK_LocalRootSignature
  | 8 => Some SK_SubobjectToExportsAssociation
  | 9 => Some SK_RaytracingShaderConfig
  | 10 => Some SK_RaytracingPipelineConfig
  | 11 => Some SK_HitGroup
  | 12 => Some SK_RaytracingPipelineConfig1
  | _ => None
  end.

Record ContainerHeader := {
  header_fourcc : Z;
  digest : list Z;
  major_version : Z;
  minor_version : Z;
  container_size_in_bytes : Z;
  part_count : Z;
}.

Record PartHeader := { part_fourcc : Z; part_size : Z }.

Record ProgramHeader := {
  program_version : Z;
  size_in_uint32 : Z;
  dxil_magic : Z;
  dxil_version : Z;
  bitcode_offset : Z;
  bitcode_size : Z;
}.

Record IOElement := {
  semantic_name : list Z;
  stream_index : Z;
  semantic_index : Z;
  system_value_semantic : Z;
  component_type : Z;
  register_index : Z;
  mask : Z;
  min_precision : Z;
}.

(** A [const char *] or [const uint8_t *] is the position in the container it
    points to, [None] when null.  [hit_group_type] keeps the raw number read. *)
Record RDATSubobject := mkSubobject {
  kind : SubobjectKind;
  subobject_name : option Z;
  hit_group_type : Z;
  exports : list (option Z);
  args : Z * Z;
  payload : option Z;
  payload_size : Z;
}.

(** [RDATSubobject elem = {}; elem.kind = k; elem.subobject_name = name;] *)
Definition subobject (k : SubobjectKind) (name : option Z) : RDATSubobject :=
  mkSubobject k name 0 [] (0, 0) None 0.

Record DXILContainerParser := mkParser {
  dxil_blob : list Z;
  input_elements : list IOElement;
  output_elements : list IOElement;
  rdat_subobjects : list RDATSubobject;
  dxbc_binary : bool;
}.

Definition DXILContainerParser_new : DXILContainerParser := mkParser [] [] [] [] false.

(** Little-endian value of consecutive bytes (the layout the structures are
    read with). *)
Fixpoint le_bytes (l : list Z) : Z :=
  match l with
  | [] => 0
  | b :: l' => b + 256 * le_bytes l'
  end.

(** The [n]-byte little-endian field at [off] of a structure. *)
Definition field (bytes : list Z) (off n : nat) : Z := le_bytes (take n (drop off bytes)).

(** * Names of library entry points *)

(** [find_first_of(c)] from the start of [s]: the parts before and after. *)
Fixpoint split_at (c : Z) (s : list Z) : option (list Z * list Z) :=
  match s with
  | [] => None
  | x :: s' =>
      if x =? c then Some ([], s')
      else '(before, after) ← split_at c s'; Some (x :: before, after)
  end.

Definition is_mangled_entry_point (user : list Z) : bool :=
  match split_at 63 user with                                   (* '?' *)
  | None => false
  | Some (_, mangle_begin) => bool_decide (is_Some (split_at 64 mangle_begin))   (* '@' *)
  end.

Definition demangle_entry_point (entry : list Z) : list Z :=
  match split_at 63 entry with
  | None => entry
  | Some (_, rest) =>
      match split_at 64 rest with
      | None => entry
      | Some (ident, _) => ident
      end
  end.

Section with_memory.
Variable mem : list Z.

(** [if (!stream.read(x)) return false;] for an object of [n] bytes. *)
Definition read_or_fail (s : MemoryStream) (n : Z) : res (list Z * MemoryStream) :=
  '(r, s') ← MemoryStream_read mem s n;
  bytes ← some_or_fail r;
  Ok (bytes, s').

Definition read_u32 (s : MemoryStream) : res (Z * MemoryStream) :=
  '(bytes, s') ← read_or_fail s 4;
  Ok (le_bytes bytes, s').

Definition read_container_header (s : MemoryStream) : res (ContainerHeader * MemoryStream) :=
  '(b, s') ← read_or_fail s 32;
  Ok ({| header_fourcc := field b 0 4; digest := take 16 (drop 4 b);
         major_version := field b 20 2; minor_version := field b 22 2;
         container_size_in_bytes := field b 24 4; part_count := field b 28 4 |}, s').

Definition read_part_header (s : MemoryStream) : res (PartHeader * MemoryStream) :=
  '(b, s') ← read_or_fail s 8;
  Ok ({| part_fourcc := field b 0 4; part_size := field b 4 4 |}, s').

Definition read_program_header (s : MemoryStream) : res (ProgramHeader * MemoryStream) :=
  '(b, s') ← read_or_fail s 24;
  Ok ({| program_version := field b 0 4; size_in_uint32 := field b 4 4;
         dxil_magic := field b 8 4; dxil_version := field b 12 4;
         bitcode_offset := field b 16 4; bitcode_size := field b 20 4 |}, s').

(** [sizeof(ProgramHeader) - offsetof(ProgramHeader, dxil_magic)] *)
Definition DxilMagicPad : Z := 24 - 8.

(** The new [dxil_blob]. *)
Definition parse_dxil (stream : MemoryStream) : res (list Z) :=
  '(program_header, stream) ← read_program_header stream;
  _ ← guard_res (bool_decide (FourCC_of (dxil_magic program_header) = Some FourCC_DXIL));
  _ ← guard_res (negb (bitcode_offset program_header <? DxilMagicPad));
  let substream := MemoryStream_create_substream_bitcode_size stream
    (u64 (MemoryStream_get_offset stream + bitcode_offset program_header - DxilMagicPad))
    (bitcode_size program_header) in
  '(blob, _) ← read_or_fail substream (MemoryStream_get_size substream);
  Ok blob.

(** [if (!stream.map_string_iterate(str)) return false;] *)
Definition map_string_or_fail (s : MemoryStream) : res (option Z * MemoryStream) :=
  '(ok, str, s') ← MemoryStream_map_string_iterate mem s;
  _ ← guard_res ok;
  Ok (str, s').

(** [if (!string_buffer.map_string_absolute(str, offset)) return false;] *)
Definition map_string_absolute_or_fail (s : MemoryStream) (offset : Z) : res (option Z) :=
  '(ok, str) ← MemoryStream_map_string_absolute mem s offset;
  _ ← guard_res ok;
  Ok str.

(** One iteration of the element loop of [parse_iosg1]. *)
Definition parse_iosg1_element (st : MemoryStream * list IOElement)
    : res (MemoryStream * list IOElement) :=
  let '(stream, elements) := st in
  '(stream_index, stream) ← read_u32 stream;
  '(string_offset, stream) ← read_u32 stream;
  '(semantic_index, stream) ← read_u32 stream;
  '(system_value_semantic, stream) ← read_u32 stream;
  '(component_type, stream) ← read_u32 stream;
  '(register_index, stream) ← read_u32 stream;
  '(mask, stream) ← read_u32 stream;
  '(min_precision, stream) ← read_u32 stream;
  let offset := MemoryStream_get_offset stream in
  stream ← some_or_fail (MemoryStream_seek stream string_offset);
  '(str, stream) ← map_string_or_fail stream;
  name ← c_string mem str;
  stream ← some_or_fail (MemoryStream_seek stream offset);
  Ok (stream, elements ++ [{|
    semantic_name := name; stream_index := stream_index;
    semantic_index := semantic_index; system_value_semantic := system_value_semantic;
    component_type := component_type; register_index := register_index;
    mask := mask; min_precision := min_precision |}]).

(** The new contents of [elements]. *)
Definition parse_iosg1 (stream : MemoryStream) : res (list IOElement) :=
  '(element_count, stream) ← read_u32 stream;
  stream ← some_or_fail (MemoryStream_skip stream 4);
  '(_, elements) ← for_range (fun _ => parse_iosg1_element) element_count (stream, []);
  Ok elements.

(** ** RDAT: the subobject records, one definition per [case] of the record
    loop.  Each starts after the kind has been read from [record_stream]. *)

(** [read(name_offset)] and the lookup of the name in the string table. *)
Definition read_name (string_buffer record_stream : MemoryStream)
    : res (option Z * MemoryStream) :=
  '(name_offset, record_stream) ← read_u32 record_stream;
  str ← map_string_absolute_or_fail string_buffer name_offset;
  Ok (str, record_stream).

Definition parse_state_object_config (string_buffer record_stream : MemoryStream)
    : res RDATSubobject :=
  '(str, record_stream) ← read_name string_buffer record_stream;
  '(flag, _) ← read_u32 record_stream;
  Ok (mkSubobject SK_StateObjectConfig str 0 [] (flag, 0) None 0).

Definition parse_raytracing_shader_config (string_buffer record_stream : MemoryStream)
    : res RDATSubobject :=
  '(str, record_stream) ← read_name string_buffer record_stream;
  '(max_payload_size, record_stream) ← read_u32 record_stream;
  '(max_attribute_size, _) ← read_u32 record_stream;
  Ok (mkSubobject SK_RaytracingShaderConfig str 0 []
        (max_payload_size, max_attribute_size) None 0).

Definition parse_raytracing_pipeline_config (k : SubobjectKind)
    (string_buffer record_stream : MemoryStream) : res RDATSubobject :=
  '(str, record_stream) ← read_name string_buffer record_stream;
  '(max_recursion_depth, record_stream) ← read_u32 record_stream;
  '(flags, _) ← (if bool_decide (k = SK_RaytracingPipelineConfig1)
                 then read_u32 record_stream else Ok (0, record_stream));
  Ok (mkSubobject k str 0 [] (max_recursion_depth, flags) None 0).

Definition parse_hit_group (string_buffer record_stream : MemoryStream)
    : res RDATSubobject :=
  '(hg_name, record_stream) ← read_name string_buffer record_stream;
  '(hit_group_type, record_stream) ← read_u32 record_stream;
  '(ahit_name_offset, record_stream) ← read_u32 record_stream;
  '(chit_name_offset, record_stream) ← read_u32 record_stream;
  '(intersection_name_offset, _) ← read_u32 record_stream;
  ahit ← map_string_absolute_or_fail string_buffer ahit_name_offset;
  chit ← map_string_absolute_or_fail string_buffer chit_name_offset;
  intersection ← map_string_absolute_or_fail string_buffer intersection_name_offset;
  Ok (mkSubobject SK_HitGroup hg_name hit_group_type [ahit; chit; intersection]
        (0, 0) None 0).

(** One export of the association list. *)
Definition parse_export (string_buffer : MemoryStream)
    (st : MemoryStream * list (option Z)) : res (MemoryStream * list (option Z)) :=
  let '(index_substream, exports) := st in
  '(name_offset, index_substream) ← read_u32 index_substream;
  object_name ← map_string_absolute_or_fail string_buffer name_offset;
  Ok (index_substream, exports ++ [object_name]).

Definition parse_exports_association (string_buffer index_buffer record_stream : MemoryStream)
    : res RDATSubobject :=
  '(name, record_stream) ← read_name string_buffer record_stream;
  '(object_name, record_stream) ← read_name string_buffer record_stream;
  '(index_offset, _) ← read_u32 record_stream;
  let index_substream := MemoryStream_create_substream_rest index_buffer (4 * index_offset) in
  '(count, index_substream) ← read_u32 index_substream;
  '(_, exports) ← for_range (fun _ => parse_export string_buffer) count
                    (index_substream, [object_name]);
  Ok (mkSubobject SK_SubobjectToExportsAssociation name 0 exports (0, 0) None 0).

Definition parse_root_signature (k : SubobjectKind)
    (string_buffer raw_bytes record_stream : MemoryStream) : res RDATSubobject :=
  '(name, record_stream) ← read_name string_buffer record_stream;
  '(byte_offset, record_stream) ← read_u32 record_stream;
  '(byte_size, _) ← read_u32 record_stream;
  let name_substream := MemoryStream_create_substream raw_bytes byte_offset byte_size in
  let '(data, _) := MemoryStream_map_read name_substream byte_size in
  Ok (mkSubobject k name 0 [] (0, 0) data byte_size).

(** The three tables the subobject records refer to. *)
Record RdatTables := mkTables {
  string_buffer : MemoryStream;
  index_buffer : MemoryStream;
  raw_bytes : MemoryStream;
}.

(** The [switch (kind)] on one record: the record it appends, if any. *)
Definition parse_subobject_record (t : RdatTables) (k : option SubobjectKind)
    (record_stream : MemoryStream) : res (list RDATSubobject) :=
  match k with
  | Some SK_StateObjectConfig =>
      (fun e => [e]) <$> parse_state_object_config (string_buffer t) record_stream
  | Some SK_RaytracingShaderConfig =>
      (fun e => [e]) <$> parse_raytracing_shader_config (string_buffer t) record_stream
  | Some SK_RaytracingPipelineConfig =>
      (fun e => [e]) <$> parse_raytracing_pipeline_config SK_RaytracingPipelineConfig
                           (string_buffer t) record_stream
  | Some SK_RaytracingPipelineConfig1 =>
      (fun e => [e]) <$> parse_raytracing_pipeline_config SK_RaytracingPipelineConfig1
                           (string_buffer t) record_stream
  | Some SK_HitGroup => (fun e => [e]) <$> parse_hit_group (string_buffer t) record_stream
  | Some SK_SubobjectToExportsAssociation =>
      (fun e => [e]) <$> parse_exports_association (string_buffer t) (index_buffer t) record_stream
  | Some SK_GlobalRootSignature =>
      (fun e => [e]) <$> parse_root_signature SK_GlobalRootSignature
                           (string_buffer t) (raw_bytes t) record_stream
  | Some SK_LocalRootSignature =>
      (fun e => [e]) <$> parse_root_signature SK_LocalRootSignature
                           (string_buffer t) (raw_bytes t) record_stream
  | None => Ok []
  end.

(** One iteration of the record loop of a [SubobjectTable]. *)
Definition parse_subobject (t : RdatTables) (substream : MemoryStream)
    (record_stride record : Z) (subobjects : list RDATSubobject)
    : res (list RDATSubobject) :=
  let record_stream := MemoryStream_create_substream substream
    (u64 (MemoryStream_get_offset substream + u32 (record * record_stride))) record_stride in
  '(k, record_stream) ← read_u32 record_stream;
  es ← parse_subobject_record t (SubobjectKind_of k) record_stream;
  Ok (subobjects ++ es).

Definition parse_subobject_table (t : RdatTables) (substream : MemoryStream)
    (subobjects : list RDATSubobject) : res (list RDATSubobject) :=
  '(record_count, substream) ← read_u32 substream;
  '(record_stride, substream) ← read_u32 substream;
  for_range (parse_subobject t substream record_stride) record_count subobjects.

(** One iteration of the part loop of [parse_rdat]. *)
Definition parse_rdat_part (stream : MemoryStream) (offsets : list Z) (part_count i : Z)
    (st : RdatTables * list RDATSubobject) : res (RdatTables * list RDATSubobject) :=
  let '(t, subobjects) := st in
  offset ← some_or_ub (zlookup offsets i);
  _ ← guard_res (negb (MemoryStream_get_size stream <? u64 (offset + 2 * 4)));
  part_size ← (if i + 1 <? part_count
               then next ← some_or_ub (zlookup offsets (i + 1)); Ok (u32 (next - offset))
               else Ok (u32 (MemoryStream_get_size stream - offset)));
  let substream := MemoryStream_create_substream stream offset part_size in
  '(type, substream) ← read_u32 substream;
  '(subpart_length, substream) ← read_u32 substream;
  _ ← guard_res (negb (MemoryStream_get_size substream <? u64 (subpart_length + 2 * 4)));
  let part := MemoryStream_create_substream substream
                (MemoryStream_get_offset substream) subpart_length in
  match RuntimeDataPartType_of type with
  | Some RDPT_StringBuffer => Ok (mkTables part (index_buffer t) (raw_bytes t), subobjects)
  | Some RDPT_IndexArrays => Ok (mkTables (string_buffer t) part (raw_bytes t), subobjects)
  | Some RDPT_RawBytes => Ok (mkTables (string_buffer t) (index_buffer t) part, subobjects)
  | Some RDPT_SubobjectTable =>
      subobjects ← parse_subobject_table t substream subobjects;
      Ok (t, subobjects)
  | _ => Ok (t, subobjects)
  end.

(** [for (i = 0; i < n; i++) if (!stream.read(v[i])) return false;] *)
Definition read_u32_vector (n : Z) (stream : MemoryStream) : res (MemoryStream * list Z) :=
  for_range (fun _ st => let '(stream, v) := st in
                         '(x, stream) ← read_u32 stream; Ok (stream, v ++ [x]))
            n (stream, []).

Definition RDAT_Version : Z := 16.

(** The parser's [rdat_subobjects], extended. *)
Definition parse_rdat (stream : MemoryStream) (subobjects : list RDATSubobject)
    : res (list RDATSubobject) :=
  '(version, stream) ← read_u32 stream;
  '(part_count, stream) ← read_u32 stream;
  _ ← guard_res (version =? RDAT_Version);
  '(stream, offsets) ← read_u32_vector part_count stream;
  '(_, subobjects) ← for_range (parse_rdat_part stream offsets part_count) part_count
     (mkTables MemoryStream_default MemoryStream_default MemoryStream_default, subobjects);
  Ok subobjects.

(** ** The container *)

(** Seek to a part and read its header. *)
Definition read_part (stream : MemoryStream) (part_offset : Z)
    : res (PartHeader * MemoryStream) :=
  stream ← some_or_fail (MemoryStream_seek stream part_offset);
  read_part_header stream.

(** First loop: a part holding legacy bytecode marks the container. *)
Definition scan_part (part_offset : Z) (st : MemoryStream * bool)
    : res (MemoryStream * bool) :=
  let '(stream, dxbc_binary) := st in
  '(part_header, stream) ← read_part stream part_offset;
  let f := FourCC_of (part_fourcc part_header) in
  Ok (stream, if bool_decide (f = Some FourCC_SHDR) || bool_decide (f = Some FourCC_SHEX)
              then true else dxbc_binary).

(** Second loop: dispatch on the part. *)
Definition parse_part (reflection : bool) (part_offset : Z)
    (st : MemoryStream * DXILContainerParser) : res (MemoryStream * DXILContainerParser) :=
  let '(stream, p) := st in
  '(part_header, stream) ← read_part stream part_offset;
  let substream := MemoryStream_create_substream stream
                     (MemoryStream_get_offset stream) (part_size part_header) in
  match FourCC_of (part_fourcc part_header) with
  | Some ((FourCC_DXIL | FourCC_ShaderStatistics) as f) =>
      let expected := if reflection then FourCC_ShaderStatistics else FourCC_DXIL in
      if negb (bool_decide (expected = f)) || dxbc_binary p then Ok (stream, p)
      else
        blob ← parse_dxil substream;
        Ok (stream, mkParser blob (input_elements p) (output_elements p)
                      (rdat_subobjects p) (dxbc_binary p))
  | Some FourCC_InputSignature =>
      elements ← parse_iosg1 substream;
      Ok (stream, mkParser (dxil_blob p) elements (output_elements p)
                    (rdat_subobjects p) (dxbc_binary p))
  | Some FourCC_OutputSignature =>
      elements ← parse_iosg1 substream;
      Ok (stream, mkParser (dxil_blob p) (input_elements p) elements
                    (rdat_subobjects p) (dxbc_binary p))
  | Some FourCC_RuntimeData =>
      subobjects ← parse_rdat substream (rdat_subobjects p);
      Ok (stream, mkParser (dxil_blob p) (input_elements p) (output_elements p)
                    subobjects (dxbc_binary p))
  | _ => Ok (stream, p)
  end.

(** [parse_container(data, size, reflection)] on the [size] bytes [mem]. *)
Definition parse_container (p : DXILContainerParser) (reflection : bool)
    : res DXILContainerParser :=
  let size := zlength mem in
  let stream := MemoryStream_new (Some 0) size in
  '(header, stream) ← read_container_header stream;
  _ ← guard_res (bool_decide (FourCC_of (header_fourcc header) = Some FourCC_Container));
  _ ← guard_res (negb (size <? container_size_in_bytes header));
  '(stream, parts) ← read_u32_vector (part_count header) stream;
  '(stream, dxbc) ← for_each scan_part parts (stream, dxbc_binary p);
  '(_, p) ← for_each (parse_part reflection) parts
     (stream, mkParser (dxil_blob p) (input_elements p) (output_elements p)
                (rdat_subobjects p) dxbc);
  Ok p.
End with_memory.

(** * Every access of the parser stays inside the container

    The [wp] rules below are the Hoare triples of the parser's routines: from
    well-formed streams no routine has undefined behaviour, and what it returns
    points into the container. *)
Lemma le_bytes_range l :
  Forall (fun b => 0 <= b < 256) l -> 0 <= le_bytes l < 256 ^ zlength l.
Proof.
  unfold zlength. induction 1 as [|b l Hb _ IH]; simpl le_bytes; [done|].
  simpl length. rewrite Nat2Z.inj_succ, Z.pow_succ_r by lia. lia.
Qed.

Section safety.
Variable mem : list Z.
Hypothesis mem_bytes : Forall (fun b => 0 <= b < 256) mem.
Hypothesis mem_size : zlength mem < max_object.

Local Abbreviation wf := (stream_wf mem).

(** A string pointer: a terminated string inside the container starts there. *)
Definition ptr_ok (p : option Z) : Prop := exists str, c_string mem p = Ok str.

(** A payload pointer is null or spans [payload_size] bytes of the container. *)
Definition payload_ok (p : option Z) (size : Z) : Prop :=
  match p with
  | None => True
  | Some a => 0 <= a /\ 0 <= size /\ a + size <= zlength mem
  end.

Definition subobject_ok (e : RDATSubobject) : Prop :=
  ptr_ok (subobject_name e) /\ Forall ptr_ok (exports e) /\
  payload_ok (payload e) (payload_size e).

Definition element_ok (e : IOElement) : Prop := Forall (fun c => c <> 0) (semantic_name e).

Definition parser_ok (p : DXILContainerParser) : Prop :=
  Forall element_ok (input_elements p) /\ Forall element_ok (output_elements p) /\
  Forall subobject_ok (rdat_subobjects p).

Lemma view_bytes s : Forall (fun b => 0 <= b < 256) (view mem s).
Proof.
  unfold view. destruct (blob s); [|done]. by apply Forall_take, Forall_drop.
Qed.

Lemma wp_read_or_fail s n (Q : list Z * MemoryStream -> Prop) :
  wf s -> 0 <= n < max_object ->
  (forall bytes s', zlength bytes = n -> Forall (fun b => 0 <= b < 256) bytes ->
     wf s' -> Q (bytes, s')) ->
  wp (read_or_fail mem s n) Q.
Proof.
  intros Hwf Hn HQ. pose proof (MemoryStream_read_spec mem s n Hwf Hn) as H.
  unfold read_or_fail. case_decide as Hd; [|by rewrite H].
  destruct H as (s' & -> & ? & _). simpl. apply HQ; [|apply Forall_take, view_bytes|done].
  unfold zlength in *. rewrite length_take. lia.
Qed.

Lemma field_range b off n : Forall (fun b => 0 <= b < 256) b ->
  0 <= field b off n < 256 ^ Z.of_nat n.
Proof.
  intros Hb. unfold field.
  pose proof (le_bytes_range (take n (drop off b)) ltac:(by apply Forall_take, Forall_drop)) as H.
  split; [lia|]. eapply Z.lt_le_trans; [apply H|].
  apply Z.pow_le_mono_r; [lia|]. unfold zlength. rewrite length_take. lia.
Qed.

Lemma wp_read_u32 s (Q : Z * MemoryStream -> Prop) :
  wf s -> (forall x s', 0 <= x < 2 ^ 32 -> wf s' -> Q (x, s')) ->
  wp (read_u32 mem s) Q.
Proof.
  intros Hwf HQ. unfold read_u32. apply wp_bind, wp_read_or_fail; [done|done|].
  intros b s' Hb Hby Hs'. apply HQ; [|done].
  pose proof (le_bytes_range b Hby). rewrite Hb in *. done.
Qed.

Lemma wp_map_string s (Q : option Z * MemoryStream -> Prop) :
  wf s -> (forall p s', ptr_ok p -> wf s' -> Q (p, s')) ->
  wp (map_string_or_fail mem s) Q.
Proof.
  intros Hwf HQ. unfold map_string_or_fail.
  destruct (map_string_iterate_spec mem s Hwf) as (s' & -> & Hs' & _ & _ & Hstr). simpl.
  destruct (until_nul (view mem s)) as [str|] eqn:Hu; simpl; [|done].
  apply HQ; [|done]. exists str. by apply Hstr.
Qed.

Lemma wp_map_string_absolute s off (Q : option Z -> Prop) :
  wf s -> 0 <= off -> (forall p, ptr_ok p -> Q p) ->
  wp (map_string_absolute_or_fail mem s off) Q.
Proof.
  intros Hwf Hoff HQ. unfold map_string_absolute_or_fail, MemoryStream_map_string_absolute.
  pose proof (stream_wf_create_substream_rest mem s off Hwf Hoff) as Hsub.
  destruct (map_string_iterate_spec mem _ Hsub) as (s' & -> & Hs' & _ & _ & Hstr). simpl.
  destruct (until_nul _) as [str|] eqn:Hu; simpl; [|done].
  apply HQ. exists str. by apply Hstr.
Qed.

Lemma wp_read_name t s (Q : option Z * MemoryStream -> Prop) :
  wf t -> wf s -> (forall p s', ptr_ok p -> wf s' -> Q (p, s')) ->
  wp (read_name mem t s) Q.
Proof.
  intros Ht Hs HQ. unfold read_name. apply wp_bind, wp_read_u32; [done|].
  intros x s' Hx Hs'. apply wp_bind, wp_map_string_absolute; [done|lia|].
  intros p Hp. by apply HQ.
Qed.

Lemma wp_seek s o (Q : MemoryStream -> Prop) :
  wf s -> 0 <= o -> (forall s', wf s' -> Q s') -> wp (some_or_fail (MemoryStream_seek s o)) Q.
Proof. intros. apply wp_some_or_fail. eauto using stream_wf_seek. Qed.

Lemma wp_skip s o (Q : MemoryStream -> Prop) :
  wf s -> (forall s', wf s' -> Q s') -> wp (some_or_fail (MemoryStream_skip s o)) Q.
Proof. intros. apply wp_some_or_fail. eauto using stream_wf_skip. Qed.

Lemma wf_get_offset s : wf s -> 0 <= MemoryStream_get_offset s < max_object.
Proof. unfold MemoryStream_get_offset. intros (? & ? & _). lia. Qed.

(** Symbolic execution of the parser with the rules above. *)
Ltac parse_step :=
  match goal with
  | |- wp (read_u32 _ _) _ => apply wp_read_u32; [done|]; intros ?x ?s ?Hx ?Hs; cbn beta iota
  | |- wp (read_name _ _ _) _ =>
      apply wp_read_name; [done|done|]; intros ?p ?s ?Hp ?Hs; cbn beta iota
  | |- wp (map_string_absolute_or_fail _ _ _) _ =>
      apply wp_map_string_absolute; [done|lia|]; intros ?p ?Hp; cbn beta iota
  | |- wp (map_string_or_fail _ _) _ =>
      apply wp_map_string; [done|]; intros ?p ?s ?Hp ?Hs; cbn beta iota
  | |- wp (some_or_fail (MemoryStream_seek _ _)) _ =>
      apply wp_seek; [done|by (lia || apply wf_get_offset)|]; intros ?s ?Hs; cbn beta iota
  | |- wp (some_or_fail (MemoryStream_skip _ _)) _ =>
      apply wp_skip; [done|]; intros ?s ?Hs; cbn beta iota
  | _ => wp_step
  end.

(** Finish: the returned record points into the container. *)
Ltac parse_done :=
  cbn; unfold subobject_ok; cbn; repeat (split || constructor); auto.

Lemma wp_parse_dxil s : wf s -> wp (parse_dxil mem s) (fun _ => True).
Proof.
  intros Hs. unfold parse_dxil. apply wp_bind. unfold read_program_header.
  apply wp_bind, wp_read_or_fail; [done|done|]. intros b s' _ Hb Hs'. cbn.
  apply wp_bind, wp_guard; intros _. apply wp_bind, wp_guard; intros Hpad.
  pose proof (field_range b 16 4 Hb) as H16. pose proof (field_range b 20 4 Hb) as H20.
  pose proof Hs' as (Ho & Hm & _). unfold MemoryStream_get_offset, DxilMagicPad in *.
  apply negb_true_iff, Z.ltb_ge in Hpad. unfold max_object in *.
  rewrite u64_small by lia.
  apply wp_bind, wp_read_or_fail.
  - apply stream_wf_create_substream_bitcode_size; [done|lia..].
  - unfold MemoryStream_create_substream_bitcode_size, MemoryStream_get_size, max_object.
    case_match; cbn; lia.
  - done.
Qed.

Lemma wp_parse_iosg1_element st :
  wf st.1 -> Forall element_ok st.2 ->
  wp (parse_iosg1_element mem st) (fun st' => wf st'.1 /\ Forall element_ok st'.2).
Proof.
  destruct st as [s es]; cbn [fst snd]. intros Hs Hes. unfold parse_iosg1_element.
  repeat parse_step. match goal with H : ptr_ok _ |- _ => destruct H as [str Hstr] end.
  rewrite Hstr. cbn [mbind res_bind]. repeat parse_step. cbn. split; [done|]. apply Forall_app; split; [done|].
  repeat constructor. unfold element_ok; cbn. unfold c_string in Hstr. inv_ok.
  by eapply until_nul_no_zero.
Qed.

Lemma wp_parse_iosg1 s : wf s -> wp (parse_iosg1 mem s) (Forall element_ok).
Proof.
  intros Hs. unfold parse_iosg1. repeat parse_step.
  eapply wp_mono; [apply (wp_for_range _ (fun _ st => wf st.1 /\ Forall element_ok st.2))|].
  - lia.
  - done.
  - intros j st _ []. by apply wp_parse_iosg1_element.
  - by intros [] [].
Qed.

Ltac record_done :=
  split_and!; cbn [subobject_name exports payload payload_size payload_ok];
  repeat constructor; auto.

Lemma wp_parse_state_object_config t s :
  wf t -> wf s -> wp (parse_state_object_config mem t s) subobject_ok.
Proof. intros. unfold parse_state_object_config. repeat parse_step. record_done. Qed.

Lemma wp_parse_raytracing_shader_config t s :
  wf t -> wf s -> wp (parse_raytracing_shader_config mem t s) subobject_ok.
Proof. intros. unfold parse_raytracing_shader_config. repeat parse_step. record_done. Qed.

Lemma wp_parse_raytracing_pipeline_config k t s :
  wf t -> wf s -> wp (parse_raytracing_pipeline_config mem k t s) subobject_ok.
Proof.
  intros. unfold parse_raytracing_pipeline_config. repeat parse_step.
  case_bool_decide; repeat parse_step; record_done.
Qed.

Lemma wp_parse_hit_group t s :
  wf t -> wf s -> wp (parse_hit_group mem t s) subobject_ok.
Proof. intros. unfold parse_hit_group. repeat parse_step. record_done. Qed.

Lemma wp_parse_export t st :
  wf t -> wf st.1 /\ Forall ptr_ok st.2 ->
  wp (parse_export mem t st) (fun st' => wf st'.1 /\ Forall ptr_ok st'.2).
Proof.
  destruct st as [s es]; cbn [fst snd]. intros Ht [Hs Hes]. unfold parse_export.
  repeat parse_step. cbn. split; [done|]. apply Forall_app; split; [done|].
  repeat constructor. done.
Qed.

Lemma wp_parse_exports_association t ix s :
  wf t -> wf ix -> wf s -> wp (parse_exports_association mem t ix s) subobject_ok.
Proof.
  intros. unfold parse_exports_association. repeat parse_step.
  apply wp_read_u32; [apply stream_wf_create_substream_rest; [done|lia]|].
  intros count ixs Hc Hixs. parse_step.
  eapply wp_mono; [apply (wp_for_range _ (fun _ st => wf st.1 /\ Forall ptr_ok st.2))|].
  - lia.
  - cbn. split; [done|]. repeat constructor. done.
  - intros j st _. by apply wp_parse_export.
  - intros [s' es] [_ Hes]. parse_step. record_done.
Qed.

Lemma map_read_payload_ok s off n :
  wf s -> 0 <= off -> 0 <= n -> off + n < 2 ^ 64 ->
  payload_ok (MemoryStream_map_read (MemoryStream_create_substream s off n) n).1 n.
Proof.
  intros Hwf ???. pose proof (stream_wf_create_substream mem s off n Hwf) as Hsub.
  assert (blob_offset (MemoryStream_create_substream s off n) = 0) as Hz.
  { unfold MemoryStream_create_substream. by case_match. }
  destruct Hsub as (_ & _ & Hb); [lia..|]. revert Hz Hb.
  generalize (MemoryStream_create_substream s off n) as w. intros w Hz Hb.
  unfold MemoryStream_map_read. rewrite Hz, Z.add_0_l, u64_small by lia.
  destruct (Z.ltb_spec (blob_size w) n); cbn; [done|].
  destruct (blob w); cbn; [lia|done].
Qed.

Lemma wp_parse_root_signature k t rb s :
  wf t -> wf rb -> wf s -> wp (parse_root_signature mem k t rb s) subobject_ok.
Proof.
  intros Ht Hrb Hs. unfold parse_root_signature. repeat parse_step.
  pose proof (map_read_payload_ok rb x x0 Hrb) as Hpay.
  destruct (MemoryStream_map_read _ _) as [data ?]. parse_step. record_done.
  apply Hpay; lia.
Qed.

Definition tables_wf (t : RdatTables) : Prop :=
  wf (string_buffer t) /\ wf (index_buffer t) /\ wf (raw_bytes t).

Lemma wp_parse_subobject_record t k s :
  tables_wf t -> wf s -> wp (parse_subobject_record mem t k s) (Forall subobject_ok).
Proof.
  intros (? & ? & ?) ?.
  assert (forall m, wp m subobject_ok -> wp ((fun e => [e]) <$> m) (Forall subobject_ok)) as Hone.
  { intros [] ?; cbn; auto. }
  destruct k as [[]|]; cbn [parse_subobject_record]; try apply Hone; cbn;
    auto using wp_parse_state_object_config, wp_parse_raytracing_shader_config,
      wp_parse_raytracing_pipeline_config, wp_parse_hit_group,
      wp_parse_exports_association, wp_parse_root_signature.
Qed.

Lemma wp_parse_subobject t s stride r es :
  tables_wf t -> wf s -> 0 <= stride < 2 ^ 32 -> Forall subobject_ok es ->
  wp (parse_subobject mem t s stride r es) (Forall subobject_ok).
Proof.
  intros Ht Hs Hst Hes. unfold parse_subobject. parse_step.
  pose proof (wf_get_offset s Hs). pose proof (u32_range (r * stride)).
  unfold max_object in *.
  apply wp_read_u32; [apply stream_wf_create_substream; rewrite ?u64_small by lia; [done|lia..]|].
  intros k s' _ Hs'. parse_step.
  eapply wp_mono; [by apply wp_parse_subobject_record|]. intros es' Hes'.
  parse_step. by apply Forall_app.
Qed.

Lemma wp_parse_subobject_table t s es :
  tables_wf t -> wf s -> Forall subobject_ok es ->
  wp (parse_subobject_table mem t s es) (Forall subobject_ok).
Proof.
  intros Ht Hs Hes. unfold parse_subobject_table. repeat parse_step.
  apply (wp_for_range _ (fun _ => Forall subobject_ok)); [lia|done|].
  intros. by apply wp_parse_subobject.
Qed.

Definition rdat_inv (st : RdatTables * list RDATSubobject) : Prop :=
  tables_wf st.1 /\ Forall subobject_ok st.2.

Lemma wp_parse_rdat_part s offsets n i st :
  wf s -> zlength offsets = n -> Forall (fun o => 0 <= o < 2 ^ 32) offsets ->
  0 <= i < n -> rdat_inv st ->
  wp (parse_rdat_part mem s offsets n i st) rdat_inv.
Proof.
  destruct st as [t es]. intros Hs Hlen Hoff Hi [Ht Hes]. unfold parse_rdat_part.
  parse_step. apply wp_some_or_ub.
  destruct (proj2 (zlookup_is_Some offsets i)) as [o Ho]; [lia|]. exists o. split; [done|].
  assert (0 <= o < 2 ^ 32) as Hor.
  { rewrite list.Forall_forall in Hoff. apply Hoff. unfold zlookup in Ho.
    destruct (0 <=? i); [|done]. by eapply list_elem_of_lookup_2. }
  do 3 parse_step.
  apply wp_mono with (Q := fun z => 0 <= z < 2 ^ 32).
  { destruct (Z.ltb_spec (i + 1) n); [|apply u32_range].
    destruct (proj2 (zlookup_is_Some offsets (i + 1))) as [o' ->]; [lia|]. apply u32_range. }
  intros psize Hpsize. parse_step.
  apply wp_read_u32; [apply stream_wf_create_substream; [done|lia..]|]. intros ty s1 _ Hs1.
  repeat parse_step.
  pose proof (wf_get_offset s0 Hs0). unfold max_object in *.
  assert (wf (MemoryStream_create_substream s0 (MemoryStream_get_offset s0) x)).
  { apply stream_wf_create_substream; [done|lia..]. }
  destruct Ht as (? & ? & ?).
  destruct (RuntimeDataPartType_of ty) as [[]|]; try (repeat parse_step; split; done).
  parse_step. eapply wp_mono; [by apply wp_parse_subobject_table|]. by intros.
Qed.

Lemma wp_read_u32_vector n s :
  0 <= n -> wf s ->
  wp (read_u32_vector mem n s) (fun st => wf st.1 /\ zlength st.2 = n /\
                                  Forall (fun o => 0 <= o < 2 ^ 32) st.2).
Proof.
  intros Hn Hs. unfold read_u32_vector.
  apply (wp_for_range _ (fun i st => wf st.1 /\ zlength st.2 = i /\
                           Forall (fun o => 0 <= o < 2 ^ 32) st.2)); [done|done|].
  intros j [s' v] _; cbn [fst snd]. intros (Hs' & Hlen & Hv). repeat parse_step. cbn.
  rewrite zlength_app, Hlen. split_and!; [done|done|]. apply Forall_app; auto.
Qed.

Lemma wp_parse_rdat s es :
  wf s -> Forall subobject_ok es -> wp (parse_rdat mem s es) (Forall subobject_ok).
Proof.
  intros Hs Hes. unfold parse_rdat. repeat parse_step.
  eapply wp_mono; [apply wp_read_u32_vector; [lia|done]|].
  intros [s' offs] (Hs' & Hlen & Hoffs). parse_step.
  eapply wp_mono; [apply (wp_for_range _ (fun _ => rdat_inv))|].
  - lia.
  - split; [|done]. split_and!; apply stream_wf_default.
  - intros. by apply wp_parse_rdat_part.
  - intros [t es'] [_ ?]. done.
Qed.

Lemma wp_read_part s o (Q : PartHeader * MemoryStream -> Prop) :
  wf s -> 0 <= o ->
  (forall h s', 0 <= part_size h < 2 ^ 32 -> wf s' -> Q (h, s')) ->
  wp (read_part mem s o) Q.
Proof.
  intros Hs Ho HQ. unfold read_part, read_part_header. parse_step. parse_step. parse_step.
  apply wp_read_or_fail; [done|done|]. intros b s' _ Hb Hs'. parse_step. apply HQ; [|done].
  cbn. pose proof (field_range b 4 4 Hb). lia.
Qed.

Lemma wp_parse_part refl o st :
  0 <= o -> wf st.1 /\ parser_ok st.2 ->
  wp (parse_part mem refl o st) (fun st' => wf st'.1 /\ parser_ok st'.2).
Proof.
  destruct st as [s p]; cbn [fst snd]. intros Ho [Hs Hp]. unfold parse_part. parse_step.
  apply wp_read_part; [done|done|]. intros h s' Hh Hs'. cbn beta iota.
  pose proof (wf_get_offset s' Hs'). unfold max_object in *.
  assert (wf (MemoryStream_create_substream s' (MemoryStream_get_offset s') (part_size h))).
  { apply stream_wf_create_substream; [done|lia..]. }
  destruct Hp as (? & ? & ?).
  destruct (FourCC_of _) as [[]|]; try (repeat parse_step; split; done).
  1-2, 5: parse_step; eapply wp_mono;
    [first [by apply wp_parse_iosg1 | by apply wp_parse_rdat]|]; by intros.
  all: destruct (_ || _); [by parse_step|]; parse_step;
    eapply wp_mono; [by apply wp_parse_dxil|]; by intros.
Qed.

Lemma wp_parse_container p refl :
  parser_ok p -> wp (parse_container mem p refl) parser_ok.
Proof.
  intros Hp. unfold parse_container. parse_step. unfold read_container_header. parse_step.
  apply wp_read_or_fail; [|done|].
  { apply stream_wf_new; [|done]. pose proof (zlength_nonneg mem). lia. }
  intros b s _ Hb Hs. repeat parse_step.
  eapply wp_mono; [apply wp_read_u32_vector; [|done]|].
  { cbn. apply (field_range b 28 4 Hb). }
  intros [s1 parts] (Hs1 & _ & Hparts). cbn beta iota. parse_step.
  rewrite list.Forall_forall in Hparts; cbn [snd] in Hparts.
  eapply wp_mono; [apply (wp_for_each _ (fun st => wf st.1)); [done|]|].
  { intros o [s2 d] Ho%Hparts Hs2. unfold scan_part. parse_step.
    apply wp_read_part; [done|lia|]. intros h s3 _ Hs3. by parse_step. }
  intros [s2 d] Hs2. cbn beta iota. parse_step.
  eapply wp_mono; [apply (wp_for_each _ (fun st => wf st.1 /\ parser_ok st.2)); [done|]|].
  { intros o st Ho%Hparts Hst. apply wp_parse_part; [lia|done]. }
  intros [s3 p'] [_ ?]. by parse_step.
Qed.
End safety.

(** * Functional behaviour of the bitcode extraction *)

Lemma field_take v m off n :
  (off + n <= m)%nat -> field (take m v) off n = field v off n.
Proof.
  intros. unfold field. rewrite skipn_firstn_comm, take_take. do 2 f_equal. lia.
Qed.

Lemma read_or_fail_spec mem s n :
  stream_wf mem s -> 0 <= n < max_object ->
  read_or_fail mem s n =
    if decide (n <= zlength (view mem s))
    then Ok (take (Z.to_nat n) (view mem s), set_offset s (blob_offset s + n))
    else Fail.
Proof.
  intros Hwf Hn. pose proof (MemoryStream_read_spec mem s n Hwf Hn) as H. unfold read_or_fail.
  case_decide; [|by rewrite H].
  destruct H as (s' & -> & _ & _ & Hb & Hs & Ho). destruct s'; cbn in *. by subst.
Qed.

(** The bytes a sub-window covers, in terms of its parent. *)
Lemma view_bitcode_substream mem s off n :
  stream_wf mem s -> 0 <= off -> 0 <= n -> off + n < 2 ^ 64 ->
  view mem (MemoryStream_create_substream_bitcode_size s off n) =
    if decide (off + n <= blob_size s)
    then take (Z.to_nat n) (drop (Z.to_nat off) (view mem (set_offset s 0))) else [].
Proof.
  intros (Ho & _ & Hb) ???. unfold MemoryStream_create_substream_bitcode_size, view.
  rewrite u64_small by lia. destruct (Z.ltb_spec (blob_size s) (off + n)); case_decide; try lia;
    cbn; [done|]. destruct (blob s) as [a|]; cbn; [|by rewrite ?drop_nil, ?take_nil].
  rewrite skipn_firstn_comm, drop_drop, take_take. f_equal; [lia|f_equal; lia].
Qed.

(** The DXIL blob of a part, as a function of the part's bytes. *)
Definition dxil_blob_of_part (v : list Z) : res (list Z) :=
  if zlength v <? 24 then Fail
  else if negb (bool_decide (FourCC_of (field v 8 4) = Some FourCC_DXIL)) then Fail
  else if field v 16 4 <? 16 then Fail
  else
    let start := 8 + field v 16 4 in
    let len := field v 20 4 in
    if zlength v <? start + len then Ok []
    else Ok (take (Z.to_nat len) (drop (Z.to_nat start) v)).

(** Reading a whole window. *)
Lemma read_all mem s :
  stream_wf mem s -> blob_offset s = 0 ->
  read_or_fail mem s (MemoryStream_get_size s) = Ok (view mem s, set_offset s (blob_size s)).
Proof.
  intros Hwf H0. pose proof (length_view mem s Hwf) as Hl. pose proof Hwf as (? & ? & _).
  unfold MemoryStream_get_size. rewrite read_or_fail_spec by (done || lia).
  rewrite decide_True by lia. unfold zlength in Hl. rewrite firstn_all2 by lia.
  by rewrite H0, Z.add_0_l.
Qed.

Lemma bitcode_substream_offset s off n :
  blob_offset (MemoryStream_create_substream_bitcode_size s off n) = 0.
Proof. unfold MemoryStream_create_substream_bitcode_size. by destruct (_ <? _). Qed.

Lemma parse_dxil_blob_of_part mem s :
  Forall (fun b => 0 <= b < 256) mem -> stream_wf mem s -> blob_offset s = 0 ->
  parse_dxil mem s = dxil_blob_of_part (view mem s).
Proof.
  intros Hbytes Hwf H0. pose proof (length_view mem s Hwf) as Hlen. rewrite H0 in Hlen.
  pose proof (field_range (view mem s) 16 4 (view_bytes mem Hbytes s)) as H16.
  pose proof (field_range (view mem s) 20 4 (view_bytes mem Hbytes s)) as H20.
  unfold parse_dxil, read_program_header, dxil_blob_of_part.
  rewrite read_or_fail_spec by (unfold max_object; try done; lia).
  case_decide; destruct (Z.ltb_spec (zlength (view mem s)) 24); try lia; [|done].
  cbn [mbind res_bind dxil_magic bitcode_offset bitcode_size]. rewrite !field_take by lia.
  case_bool_decide as Hm; [|done]. cbn [negb guard_res mbind res_bind].
  change DxilMagicPad with 16. destruct (Z.ltb_spec (field (view mem s) 16 4) 16); [done|].
  cbn [negb guard_res mbind res_bind]. unfold MemoryStream_get_offset; cbn [set_offset blob_offset].
  set (s' := set_offset s (blob_offset s + 24)).
  assert (stream_wf mem s') as Hwf' by (apply stream_wf_set_offset; [done|lia]).
  set (off := 8 + field (view mem s) 16 4). set (n := field (view mem s) 20 4).
  rewrite u64_small by lia.
  replace (blob_offset s + 24 + field (view mem s) 16 4 - 16) with off by lia.
  rewrite read_all by (apply bitcode_substream_offset ||
    (apply stream_wf_create_substream_bitcode_size; [done|lia..])).
  cbn [mbind res_bind]. rewrite view_bitcode_substream by (done || lia).
  assert (set_offset s' 0 = s) as -> by (destruct s; cbn in *; by subst).
  change (blob_size s') with (blob_size s). rewrite Hlen, Z.sub_0_r.
  destruct (Z.ltb_spec (blob_size s) (off + n)); [rewrite decide_False by lia; done|].
  by rewrite decide_True by lia.
Qed.

(** * Which parts a container contributes *)

(** No part changes the legacy mark, and under it no part changes the DXIL blob. *)
Lemma parse_part_legacy mem refl o st st' :
  parse_part mem refl o st = Ok st' ->
  dxbc_binary st'.2 = dxbc_binary st.2 /\
  (dxbc_binary st.2 = true -> dxil_blob st'.2 = dxil_blob st.2).
Proof.
  destruct st as [s p]. unfold parse_part. intros H. inv_ok.
  destruct (FourCC_of _) as [[]|]; inv_ok; try done.
  all: destruct (negb _), (dxbc_binary p) eqn:Hd; cbv [orb] in H; cbv iota in H;
    inv_ok; cbn; rewrite ?Hd; done.
Qed.

Lemma parse_parts_legacy mem refl parts st st' :
  for_each (parse_part mem refl) parts st = Ok st' ->
  dxbc_binary st'.2 = dxbc_binary st.2 /\
  (dxbc_binary st.2 = true -> dxil_blob st'.2 = dxil_blob st.2).
Proof.
  intros H.
  refine (for_each_inv _ (fun t => dxbc_binary t.2 = dxbc_binary st.2 /\
    (dxbc_binary st.2 = true -> dxil_blob t.2 = dxil_blob st.2)) _ _ _ _ H (conj eq_refl _));
    [|done].
  intros o t t' Ht%parse_part_legacy [H1 H2]. destruct Ht as [H3 H4]. split; [congruence|].
  intros Hd. rewrite H4 by congruence. auto.
Qed.

(** The part offsets of a container. *)
Definition container_parts (mem : list Z) : res (list Z) :=
  '(header, s) ← read_container_header mem (MemoryStream_new (Some 0) (zlength mem));
  '(_, parts) ← read_u32_vector mem (part_count header) s;
  Ok parts.

(** The first loop computes whether some part is legacy bytecode. *)
Definition part_is_legacy (mem : list Z) (o : Z) : bool :=
  match read_part mem (MemoryStream_new (Some 0) (zlength mem)) o with
  | Ok (h, _) => bool_decide (FourCC_of (part_fourcc h) = Some FourCC_SHDR) ||
                 bool_decide (FourCC_of (part_fourcc h) = Some FourCC_SHEX)
  | _ => false
  end.

Lemma read_part_position mem s s2 o :
  blob s = blob s2 -> blob_size s = blob_size s2 -> read_part mem s o = read_part mem s2 o.
Proof.
  intros Hb Hs. unfold read_part, MemoryStream_seek. rewrite Hs. case_match; [done|].
  cbn. unfold set_offset. by rewrite Hb, Hs.
Qed.

Lemma read_or_fail_window mem s n b s' :
  read_or_fail mem s n = Ok (b, s') -> blob s' = blob s /\ blob_size s' = blob_size s.
Proof.
  unfold read_or_fail, MemoryStream_read. intros H. destruct (_ <? _); [done|].
  inv_ok. by simplify_eq/=.
Qed.

Lemma read_part_window mem s o h s' :
  read_part mem s o = Ok (h, s') -> blob s' = blob s /\ blob_size s' = blob_size s.
Proof.
  unfold read_part, read_part_header, MemoryStream_seek. intros H. destruct (_ <? _); [done|].
  cbn [some_or_fail mbind res_bind] in H. inv_ok.
  match goal with H : read_or_fail _ _ _ = _ |- _ => by apply read_or_fail_window in H end.
Qed.

Lemma read_u32_vector_window mem n s s' v :
  read_u32_vector mem n s = Ok (s', v) -> blob s' = blob s /\ blob_size s' = blob_size s.
Proof.
  intros H. refine (for_range_inv _ (fun t => blob t.1 = blob s /\ blob_size t.1 = blob_size s)
    _ _ _ _ H (conj eq_refl eq_refl)).
  intros _ [t l] t' Ht [H1 H2]. unfold read_u32 in Ht. inv_ok.
  match goal with H : read_or_fail _ _ _ = _ |- _ => apply read_or_fail_window in H as [] end.
  cbn in *. split; congruence.
Qed.

Lemma scan_parts_legacy mem parts st st' :
  for_each (scan_part mem) parts st = Ok st' ->
  blob st.1 = Some 0 -> blob_size st.1 = zlength mem ->
  st'.2 = st.2 || existsb (part_is_legacy mem) parts.
Proof.
  revert st; induction parts as [|o parts IH]; intros [s d]; cbn [for_each existsb fst snd].
  { intros. inv_ok. by rewrite orb_false_r. }
  intros H Hb Hs. apply bind_Ok in H as ([s1 d1] & H1 & H).
  unfold scan_part in H1. apply bind_Ok in H1 as ([h s2] & H0 & H1). simplify_eq/=.
  destruct (read_part_window _ _ _ _ _ H0) as [Hb2 Hs2].
  rewrite (IH _ H) by (cbn; congruence). cbn [snd].
  rewrite (read_part_position mem s (MemoryStream_new (Some 0) (zlength mem))) in H0 by done.
  unfold part_is_legacy at 2. rewrite H0. by destruct d, (_ || _).
Qed.

Lemma split_at_Some c s before after :
  split_at c s = Some (before, after) -> s = before ++ c :: after /\ ~ c ∈ before.
Proof.
  revert before; induction s as [|x s IH]; intros before; cbn; [done|].
  destruct (Z.eqb_spec x c) as [->|Hne].
  - intros [= <- <-]. split; [done|]. by intros ?%elem_of_nil.
  - destruct (split_at c s) as [[b a]|]; [|done]. cbn. intros [= <- <-].
    destruct (IH b eq_refl) as [-> ?]. split; [done|]. intros [->|?]%elem_of_cons; done.
Qed.

Lemma split_at_app c before after :
  ~ c ∈ before -> split_at c (before ++ c :: after) = Some (before, after).
Proof.
  induction before as [|x before IH]; cbn; intros Hn; [by rewrite Z.eqb_refl|].
  destruct (Z.eqb_spec x c) as [->|]; [destruct Hn; left|].
  rewrite IH; [done|]. intros ?. apply Hn. by right.
Qed.

(** * Properties *)


(** A container with a DXIL part, an input signature and an RDAT part that
    declares a hit group and a local root signature. *)
Definition sample_container : list Z :=
  [68; 88; 66; 67; 0; 0; 0; 0; 0; 0; 0; 0; 0; 0; 0; 0; 0; 0; 0; 0; 1; 0; 0; 0; 0; 1; 0; 0; 3; 
0; 0; 0; 44; 0; 0; 0; 80; 0; 0; 0; 132; 0; 0; 0; 68; 88; 73; 76; 28; 0; 0; 0; 6; 0; 6; 0; 7; 0; 
0; 0; 68; 88; 73; 76; 0; 1; 0; 0; 16; 0; 0; 0; 4; 0; 0; 0; 66; 67; 192; 222; 73; 83; 71; 49; 
44; 0; 0; 0; 1; 0; 0; 0; 8; 0; 0; 0; 0; 0; 0; 0; 40; 0; 0; 0; 0; 0; 0; 0; 1; 0; 0; 0; 3; 0; 0; 
0; 0; 0; 0; 0; 15; 0; 0; 0; 0; 0; 0; 0; 80; 79; 83; 0; 82; 68; 65; 84; 116; 0; 0; 0; 16; 0; 0; 
0; 3; 0; 0; 0; 20; 0; 0; 0; 40; 0; 0; 0; 52; 0; 0; 0; 1; 0; 0; 0; 12; 0; 0; 0; 0; 104; 103; 0; 
99; 104; 0; 0; 0; 0; 0; 0; 5; 0; 0; 0; 4; 0; 0; 0; 1; 2; 3; 4; 6; 0; 0; 0; 56; 0; 0; 0; 2; 0; 
0; 0; 24; 0; 0; 0; 11; 0; 0; 0; 1; 0; 0; 0; 0; 0; 0; 0; 0; 0; 0; 0; 4; 0; 0; 0; 0; 0; 0; 0; 2; 
0; 0; 0; 4; 0; 0; 0; 0; 0; 0; 0; 4; 0; 0; 0; 0; 0; 0; 0; 0; 0; 0; 0].


(** C38. [parse_dxil] on a part: it fails exactly when the part is shorter than a
    program header, the DXIL magic is wrong or the bitcode offset points before
    the magic; otherwise the blob is the [bitcode_size] bytes found
    [bitcode_offset] bytes after the magic -- or empty when that range leaves
    the part, which is not reported as an error. *)
Theorem parse_dxil_spec mem s :
  Forall (fun b => 0 <= b < 256) mem -> stream_wf mem s -> blob_offset s = 0 ->
  let v := view mem s in
  let start := 8 + field v 16 4 in
  let len := field v 20 4 in
  parse_dxil mem s =
    if (zlength v <? 24) || negb (bool_decide (FourCC_of (field v 8 4) = Some FourCC_DXIL))
       || (field v 16 4 <? 16)
    then Fail
    else if zlength v <? start + len then Ok []
    else Ok (take (Z.to_nat len) (drop (Z.to_nat start) v)).
Proof.
  intros Hb Hwf H0 v start len. rewrite parse_dxil_blob_of_part by done.
  unfold dxil_blob_of_part. fold v start len.
  destruct (_ <? 24), (bool_decide _), (_ <? 16); done.
Qed.

Lemma parse_dxil_spec_witness :
  let part := [0;0;0;0; 6;0;0;0; 68;88;73;76; 0;1;0;0; 16;0;0;0; 3;0;0;0; 66;67;192] in
  parse_dxil part (MemoryStream_new (Some 0) 27) = Ok [66;67;192].
Proof.
  set (part := [0;0;0;0; 6;0;0;0; 68;88;73;76; 0;1;0;0; 16;0;0;0; 3;0;0;0; 66;67;192]).
  cbv zeta. rewrite (parse_dxil_spec part (MemoryStream_new (Some 0) 27)).
  - vm_compute. done.
  - apply (bool_decide_unpack _). vm_compute. exact I.
  - apply stream_wf_new; vm_compute; split; congruence.
  - done.
Defined.

(** A container is marked as legacy exactly when one of its parts holds legacy
    bytecode, and then no part changes the DXIL blob, whichever other parts the
    container has and in whatever order. *)
Theorem legacy_container_keeps_blob mem p refl p' parts :
  parse_container mem p refl = Ok p' -> container_parts mem = Ok parts ->
  dxbc_binary p' = dxbc_binary p || existsb (part_is_legacy mem) parts /\
  (dxbc_binary p' = true -> dxil_blob p' = dxil_blob p).
Proof.
  unfold parse_container, container_parts. intros H Hp.
  apply bind_Ok in H as ([h s] & Hh & H). rewrite Hh in Hp. cbn [mbind res_bind] in Hp.
  apply bind_Ok in H as (? & _ & H). apply bind_Ok in H as (? & _ & H).
  apply bind_Ok in H as ([s2 parts'] & Hv & H). rewrite Hv in Hp. injection Hp as ->.
  apply bind_Ok in H as ([s3 d] & Hscan & H). apply bind_Ok in H as ([s4 p4] & Hparts & H).
  injection H as ->. destruct (read_u32_vector_window _ _ _ _ _ Hv) as [Hb Hs].
  unfold read_container_header in Hh. apply bind_Ok in Hh as ([b s1] & Hr & Hh).
  injection Hh as _ ->. destruct (read_or_fail_window _ _ _ _ _ Hr) as [Hb1 Hs1].
  apply scan_parts_legacy in Hscan; [|cbn in *; congruence..].
  destruct (parse_parts_legacy _ _ _ _ _ Hparts) as [Hd Hblob]. cbn in *. subst d.
  split; [done|]. rewrite Hd. auto.
Qed.

Lemma legacy_container_keeps_blob_witness :
  exists p parts,
    parse_container sample_container DXILContainerParser_new false = Ok p /\
    container_parts sample_container = Ok parts /\ dxbc_binary p = false.
Proof.
  destruct (parse_container sample_container DXILContainerParser_new false) as [p| |] eqn:E;
    [|vm_compute in E; discriminate E..].
  destruct (container_parts sample_container) as [parts| |] eqn:Ep;
    [|vm_compute in Ep; discriminate Ep..].
  exists p, parts. split; [done|]. split; [done|].
  destruct (legacy_container_keeps_blob sample_container DXILContainerParser_new false p parts E Ep)
    as [-> _].
  vm_compute in Ep. injection Ep as <-. vm_compute. reflexivity.
Defined.

(** A name is mangled exactly when it has the form
    [pre ? identifier @ post] with the first ['?'] and the first ['@'] after it;
    demangling returns that identifier, and leaves every other name alone. *)
Theorem demangle_entry_point_spec e :
  (forall pre ident post, ~ 63 ∈ pre -> ~ 64 ∈ ident -> e = pre ++ 63 :: ident ++ 64 :: post ->
     is_mangled_entry_point e = true /\ demangle_entry_point e = ident) /\
  (is_mangled_entry_point e = true ->
     exists pre post, ~ 63 ∈ pre /\ ~ 64 ∈ demangle_entry_point e /\
       e = pre ++ 63 :: demangle_entry_point e ++ 64 :: post) /\
  (is_mangled_entry_point e = false -> demangle_entry_point e = e).
Proof.
  unfold is_mangled_entry_point, demangle_entry_point. split_and!.
  - intros pre ident post Hpre Hid ->. by rewrite !split_at_app.
  - destruct (split_at 63 e) as [[pre rest]|] eqn:H1; [|done].
    destruct (split_at 64 rest) as [[ident post]|] eqn:H2; [|done]. intros _.
    apply split_at_Some in H1 as [-> ?]. apply split_at_Some in H2 as [-> ?]. eauto.
  - destruct (split_at 63 e) as [[pre rest]|]; [|done].
    by destruct (split_at 64 rest) as [[ident post]|].
Qed.
