(* ===== verification/LLVMType.v ===== *)
(** The type system of the LLVM look-alike: bc/type.hpp, bc/type.cpp and the type
    part of bc/context.hpp and bc/cast.hpp.

    A [Type *] is the index of a type object among all objects the context ever
    constructed ([tyref]), or null.  Objects are immutable.  All types except
    function types are found through the context's [type_cache], which is what
    makes pointer comparison of types meaningful. *)
From S2P Require Import Prelude.
Local Open Scope Z_scope.

Inductive TypeID :=
| Unknown | VoidTyID | HalfTyID | FloatTyID | DoubleTyID | IntegerTyID | PointerTyID
| ArrayTyID | StructTyID | FunctionTyID | LabelTyID | VectorTyID | MetadataTyID | OpaqueTyID.

#[export] Instance TypeID_eq_dec : EqDecision TypeID.
Proof. solve_decision. Defined.

Abbreviation tyref := nat (only parsing).

(** One constructor per class; [BaseType] is an object of class [Type] itself.
    [name] and the other strings of the bitcode are lists of character codes. *)
Inductive Type_ :=
| BaseType (type_id : TypeID)
| IntegerType (width : Z)
| PointerType (contained_type : tyref) (address_space : Z)
| ArrayType (contained_type : tyref) (elements : Z)
| StructType (member_types : list (option tyref)) (name : list Z)
| VectorType (vector_size : Z) (element_type : tyref)
| FunctionType (return_type : tyref) (argument_types : list (option tyref)).

#[export] Instance Type__eq_dec : EqDecision Type_.
Proof. solve_decision. Defined.

Record TypeState := mkTypes {
  type_heap : list Type_;
  type_cache : list tyref;
}.

Definition TypeState_new : TypeState := mkTypes [] [].

(** * Observers *)

Definition Type_getTypeID (t : Type_) : TypeID :=
  match t with
  | BaseType id => id
  | IntegerType _ => IntegerTyID
  | PointerType _ _ => PointerTyID
  | ArrayType _ _ => ArrayTyID
  | StructType _ _ => StructTyID
  | VectorType _ _ => VectorTyID
  | FunctionType _ _ => FunctionTyID
  end.

(** [address_space] is a field of every type, zero unless set by [PointerType]. *)
Definition Type_getAddressSpace (t : Type_) : Z :=
  match t with PointerType _ a => a | _ => 0 end.

Definition Type_isIntegerTy (t : Type_) : bool := bool_decide (Type_getTypeID t = IntegerTyID).

Definition Type_isFloatingPointTy (t : Type_) : bool :=
  bool_decide (Type_getTypeID t = HalfTyID) || bool_decide (Type_getTypeID t = FloatTyID) ||
  bool_decide (Type_getTypeID t = DoubleTyID).

(** The checked accessors: [assert] and [cast] end the program on a wrong type. *)
Definition PointerType_getElementType (t : Type_) : res tyref :=
  match t with PointerType c _ => Ok c | _ => UB end.

Definition Type_getPointerElementType (t : Type_) : res tyref :=
  _ ← assert_res (bool_decide (Type_getTypeID t = PointerTyID)); PointerType_getElementType t.

Definition Type_getPointerAddressSpace (t : Type_) : res Z :=
  _ ← assert_res (bool_decide (Type_getTypeID t = PointerTyID)); Ok (Type_getAddressSpace t).

Definition Type_getArrayNumElements (t : Type_) : res Z :=
  match t with ArrayType _ n => Ok n | _ => UB end.

Definition Type_getArrayElementType (t : Type_) : res tyref :=
  match t with ArrayType c _ => Ok c | _ => UB end.

Definition VectorType_getVectorSize (t : Type_) : res Z :=
  match t with VectorType n _ => Ok n | _ => UB end.

Definition VectorType_getElementType (t : Type_) : res tyref :=
  match t with VectorType _ e => Ok e | _ => UB end.

Definition Type_getVectorNumElements (t : Type_) : res Z :=
  _ ← assert_res (bool_decide (Type_getTypeID t = VectorTyID)); VectorType_getVectorSize t.

Definition Type_getVectorElementType (t : Type_) : res tyref :=
  _ ← assert_res (bool_decide (Type_getTypeID t = VectorTyID)); VectorType_getElementType t.

Definition StructType_getNumElements (t : Type_) : res Z :=
  match t with StructType ms _ => Ok (zlength ms) | _ => UB end.

Definition StructType_getElementType (t : Type_) (N : Z) : res (option tyref) :=
  match t with StructType ms _ => some_or_ub (zlookup ms N) | _ => UB end.

Definition Type_getStructNumElements (t : Type_) : res Z :=
  _ ← assert_res (bool_decide (Type_getTypeID t = StructTyID)); StructType_getNumElements t.

Definition Type_getStructElementType (t : Type_) (index : Z) : res (option tyref) :=
  _ ← assert_res (bool_decide (Type_getTypeID t = StructTyID)); StructType_getElementType t index.

Definition StructType_getName (t : Type_) : res (list Z) :=
  match t with StructType _ name => Ok name | _ => UB end.

Definition StructType_hasName (t : Type_) : res bool :=
  name ← StructType_getName t; Ok (negb (bool_decide (name = []))).

Definition IntegerType_getBitWidth (t : Type_) : res Z :=
  match t with IntegerType w => Ok w | _ => UB end.

Definition Type_getIntegerBitWidth (t : Type_) : res Z :=
  _ ← assert_res (bool_decide (Type_getTypeID t = IntegerTyID)); IntegerType_getBitWidth t.

Definition FunctionType_getNumParams (t : Type_) : res Z :=
  match t with FunctionType _ args => Ok (zlength args) | _ => UB end.

Definition FunctionType_getParamType (t : Type_) (index : Z) : res (option tyref) :=
  match t with FunctionType _ args => some_or_ub (zlookup args index) | _ => UB end.

Definition FunctionType_getReturnType (t : Type_) : res tyref :=
  match t with FunctionType r _ => Ok r | _ => UB end.

(** The object a type pointer designates. *)
Definition type_at (r : tyref) : M TypeState Type_ :=
  o ← gets (fun s => type_heap s !! r); derefM o.

(** [getScalarType]: the element type of a vector, any other type itself. *)
Definition Type_getScalarType (r : tyref) : M TypeState tyref :=
  t ← type_at r;
  mret (match t with VectorType _ e => e | _ => r end).

(** * Construction and the cache *)

(** [context.construct<T>(...)]: a new object at a new address. *)
Definition construct_type (t : Type_) : M TypeState tyref := fun s =>
  Ok (length (type_heap s), mkTypes (type_heap s ++ [t]) (type_cache s)).

Definition cache_push (r : tyref) : M TypeState unit :=
  modify (fun s => mkTypes (type_heap s) (type_cache s ++ [r])).

(** The cache scan every factory starts with: the first cached type that matches. *)
Fixpoint cache_scan (heap : list Type_) (matches : Type_ -> bool) (cache : list tyref)
    : res (option tyref) :=
  match cache with
  | [] => Ok None
  | r :: cache' =>
      t ← some_or_ub (heap !! r);
      if matches t then Ok (Some r) else cache_scan heap matches cache'
  end.

Definition find_or_construct (matches : Type_ -> bool) (t : Type_) : M TypeState tyref :=
  s ← gets id;
  found ← lift (cache_scan (type_heap s) matches (type_cache s));
  match found with
  | Some r => mret r
  | None => r ← construct_type t; _ ← cache_push r; mret r
  end.

Definition PointerType_get (pointee : tyref) (addr_space : Z) : M TypeState tyref :=
  _ ← type_at pointee;
  find_or_construct
    (fun t => match t with
              | PointerType c a => (a =? addr_space) && bool_decide (c = pointee)
              | _ => false
              end)
    (PointerType pointee addr_space).

Definition ArrayType_get (element : tyref) (size : Z) : M TypeState tyref :=
  _ ← type_at element;
  find_or_construct
    (fun t => match t with
              | ArrayType c n => (n =? size) && bool_decide (c = element)
              | _ => false
              end)
    (ArrayType element size).

Definition VectorType_get (vector_size : Z) (element : tyref) : M TypeState tyref :=
  _ ← type_at element;
  find_or_construct
    (fun t => match t with
              | VectorType n e => (n =? vector_size) && bool_decide (e = element)
              | _ => false
              end)
    (VectorType vector_size element).

(** The element-wise comparison loop of [StructType::get]. *)
Fixpoint members_equal (xs ys : list (option tyref)) : bool :=
  match xs, ys with
  | x :: xs', y :: ys' => if negb (bool_decide (x = y)) then false else members_equal xs' ys'
  | _, _ => true
  end.

Definition StructType_get (member_types : list (option tyref)) (name : list Z)
    : M TypeState tyref :=
  find_or_construct
    (fun t => match t with
              | StructType ms nm =>
                  (zlength ms =? zlength member_types) &&
                  (members_equal member_types ms && bool_decide (nm = name))
              | _ => false
              end)
    (StructType member_types name).

(** Function types are constructed without consulting the cache. *)
Definition FunctionType_new (return_type : tyref) (argument_types : list (option tyref))
    : M TypeState tyref :=
  construct_type (FunctionType return_type argument_types).

Definition Type_getIntTy (width : Z) : M TypeState tyref :=
  find_or_construct
    (fun t => match t with IntegerType w => w =? width | _ => false end)
    (IntegerType width).

(** [getTy(id)] finds the first cached type with that [TypeID]. *)
Definition Type_getTy (id : TypeID) : M TypeState tyref :=
  find_or_construct (fun t => bool_decide (Type_getTypeID t = id)) (BaseType id).

Definition Type_getVoidTy : M TypeState tyref := Type_getTy VoidTyID.
Definition Type_getHalfTy : M TypeState tyref := Type_getTy HalfTyID.
Definition Type_getFloatTy : M TypeState tyref := Type_getTy FloatTyID.
Definition Type_getDoubleTy : M TypeState tyref := Type_getTy DoubleTyID.
Definition Type_getLabelTy : M TypeState tyref := Type_getTy LabelTyID.
Definition Type_getOpaqueTy : M TypeState tyref := Type_getTy OpaqueTyID.
Definition Type_getMetadataTy : M TypeState tyref := Type_getTy MetadataTyID.
Definition Type_getInt1Ty : M TypeState tyref := Type_getIntTy 1.
Definition Type_getInt8Ty : M TypeState tyref := Type_getIntTy 8.
Definition Type_getInt16Ty : M TypeState tyref := Type_getIntTy 16.
Definition Type_getInt32Ty : M TypeState tyref := Type_getIntTy 32.
Definition Type_getInt64Ty : M TypeState tyref := Type_getIntTy 64.

(** * The invariant of the type heap and its cache *)

(** The non-null types a type object refers to. *)
Definition type_refs (t : Type_) : list tyref :=
  match t with
  | BaseType _ | IntegerType _ => []
  | PointerType c _ | ArrayType c _ | VectorType _ c => [c]
  | StructType ms _ => omap id ms
  | FunctionType r args => r :: omap id args
  end.

(** The [TypeID]s an object of class [Type] itself can have. *)
Definition is_base_id (id : TypeID) : bool :=
  match id with
  | IntegerTyID | PointerTyID | ArrayTyID | StructTyID | FunctionTyID | VectorTyID => false
  | _ => true
  end.

Definition base_ok (t : Type_) : Prop :=
  match t with BaseType id => is_base_id id = true | _ => True end.

Record types_wf (s : TypeState) : Prop := {
  (** components are older than the types built from them: types are finite trees *)
  wf_refs r t : type_heap s !! r = Some t -> Forall (fun c => (c < r)%nat) (type_refs t);
  wf_base r t : type_heap s !! r = Some t -> base_ok t;
  wf_cache r : r ∈ type_cache s -> is_Some (type_heap s !! r);
  (** no two cached objects are equal *)
  wf_unique r1 r2 t : r1 ∈ type_cache s -> r2 ∈ type_cache s ->
    type_heap s !! r1 = Some t -> type_heap s !! r2 = Some t -> r1 = r2;
}.

(** What every routine does to the type state: old objects and cache entries stay. *)
Definition types_extend (s s' : TypeState) : Prop :=
  type_heap s `prefix_of` type_heap s' /\ type_cache s `prefix_of` type_cache s'.

#[export] Instance types_extend_po : PreOrder types_extend.
Proof.
  split.
  - by split.
  - intros s1 s2 s3 [] []. split; by etrans.
Qed.

Lemma types_extend_lookup s s' r t :
  types_extend s s' -> type_heap s !! r = Some t -> type_heap s' !! r = Some t.
Proof. intros [H _] Hl. by eapply prefix_lookup_Some. Qed.

Lemma types_wf_new : types_wf TypeState_new.
Proof. split; simpl; intros *; try done; by intros ?%elem_of_nil. Qed.

Lemma types_wf_construct s t :
  types_wf s -> Forall (fun c => (c < length (type_heap s))%nat) (type_refs t) -> base_ok t ->
  types_wf (mkTypes (type_heap s ++ [t]) (type_cache s)).
Proof.
  intros Hwf Hrefs Hb. split; simpl.
  - intros r t' [[_ ?]|[-> <-]]%lookup_snoc_Some; [by eapply wf_refs|done].
  - intros r t' [[_ ?]|[-> <-]]%lookup_snoc_Some; [by eapply wf_base|done].
  - intros r Hr. destruct (wf_cache s Hwf r Hr) as [t' Ht']. exists t'.
    by apply lookup_app_l_Some.
  - intros r1 r2 t' H1 H2.
    destruct (wf_cache s Hwf r1 H1) as [t1 Ht1], (wf_cache s Hwf r2 H2) as [t2 Ht2].
    rewrite (lookup_app_l_Some _ _ _ _ Ht1), (lookup_app_l_Some _ _ _ _ Ht2).
    intros [= ->] [= ->]. by eapply wf_unique.
Qed.

Lemma types_wf_intern s t :
  types_wf s -> Forall (fun c => (c < length (type_heap s))%nat) (type_refs t) -> base_ok t ->
  (forall r, r ∈ type_cache s -> type_heap s !! r <> Some t) ->
  types_wf (mkTypes (type_heap s ++ [t]) (type_cache s ++ [length (type_heap s)])).
Proof.
  intros Hwf Hrefs Hb Hnew. pose proof (types_wf_construct s t Hwf Hrefs Hb) as [H1 H2 H3 H4].
  split; [exact H1|exact H2| |]; cbn [type_heap type_cache] in *.
  - intros r [Hr| ->%list_elem_of_singleton]%elem_of_app; [auto|].
    exists t. by apply list_lookup_middle.
  - assert (forall r t', r ∈ type_cache s -> (type_heap s ++ [t]) !! r = Some t' ->
              (type_heap s ++ [t]) !! length (type_heap s) = Some t' -> False) as Hfresh.
    { intros r t' Hr Hr'. rewrite list_lookup_middle by done. intros [= <-].
      destruct (wf_cache s Hwf r Hr) as [t1 Ht1].
      rewrite (lookup_app_l_Some _ _ _ _ Ht1) in Hr'. injection Hr' as ->.
      by apply (Hnew r Hr). }
    intros r1 r2 t' [Hr1| ->%list_elem_of_singleton]%elem_of_app
      [Hr2| ->%list_elem_of_singleton]%elem_of_app; intros E1 E2.
    + by eapply H4.
    + destruct (Hfresh r1 t' Hr1 E1 E2).
    + destruct (Hfresh r2 t' Hr2 E2 E1).
    + done.
Qed.

Lemma cache_scan_spec heap matches cache t :
  (forall r, r ∈ cache -> is_Some (heap !! r)) ->
  (forall r t', r ∈ cache -> heap !! r = Some t' -> matches t' = true <-> t' = t) ->
  (exists r, cache_scan heap matches cache = Ok (Some r) /\ r ∈ cache /\ heap !! r = Some t) \/
  (cache_scan heap matches cache = Ok None /\ forall r, r ∈ cache -> heap !! r <> Some t).
Proof.
  induction cache as [|r cache IH]; intros Hs Hm; simpl.
  - right. split; [done|]. by intros r ?%elem_of_nil.
  - destruct (Hs r) as [t' Ht']; [left|]. rewrite Ht'. simpl.
    pose proof (Hm r t' ltac:(left) Ht') as Hmr. destruct (matches t') eqn:E.
    + left. exists r. rewrite Ht'. split_and!; [done|left|]. f_equal. by apply Hmr.
    + destruct IH as [(r' & -> & ? & ?)|[-> Hno]].
      * intros. apply Hs. by right.
      * intros. apply (Hm r0); [by right|done].
      * left. exists r'. split_and!; [done|by right|done].
      * right. split; [done|]. intros r' [->|?]%elem_of_cons; [|auto].
        rewrite Ht'. intros [= ->]. destruct Hmr as [_ Hmr]. discriminate (Hmr eq_refl).
Qed.

(** A factory whose test recognises exactly the type it would construct: it
    completes, returns the cached object if there is one (leaving the state alone),
    and otherwise caches a new object. *)
Lemma find_or_construct_spec s matches t :
  types_wf s -> Forall (fun c => (c < length (type_heap s))%nat) (type_refs t) -> base_ok t ->
  (forall r t', type_heap s !! r = Some t' -> matches t' = true <-> t' = t) ->
  exists r s', find_or_construct matches t s = Ok (r, s') /\ types_wf s' /\ types_extend s s' /\
    type_heap s' !! r = Some t /\ r ∈ type_cache s' /\
    (forall r0, r0 ∈ type_cache s -> type_heap s !! r0 = Some t -> r = r0 /\ s' = s).
Proof.
  intros Hwf Hrefs Hb Hm. unfold find_or_construct, mbind, M_bind, gets, lift, id.
  destruct (cache_scan_spec (type_heap s) matches (type_cache s) t) as
    [(r & -> & Hr & Ht)|[-> Hno]]; [apply (wf_cache s Hwf)|eauto| |].
  - exists r, s. split_and!; try done. intros r0 Hr0 Ht0. split; [|done]. by eapply wf_unique.
  - exists (length (type_heap s)), (mkTypes (type_heap s ++ [t]) (type_cache s ++ [length (type_heap s)])).
    split_and!; cbn [type_heap type_cache].
    + done.
    + by apply types_wf_intern.
    + split; by apply prefix_app_r.
    + by apply list_lookup_middle.
    + apply elem_of_app. right. by apply list_elem_of_singleton.
    + intros r0 Hr0 Ht0. by destruct (Hno r0 Hr0).
Qed.

(** Calls of the factories, to state facts about all of them at once. *)
Inductive TypeOp :=
| OpBase (id : TypeID)
| OpInt (width : Z)
| OpPointer (pointee : tyref) (addr_space : Z)
| OpArray (element : tyref) (size : Z)
| OpVector (size : Z) (element : tyref)
| OpStruct (members : list (option tyref)) (name : list Z)
| OpFunction (ret : tyref) (args : list (option tyref)).

Definition run_type_op (o : TypeOp) : M TypeState tyref :=
  match o with
  | OpBase id => Type_getTy id
  | OpInt w => Type_getIntTy w
  | OpPointer p a => PointerType_get p a
  | OpArray e n => ArrayType_get e n
  | OpVector n e => VectorType_get n e
  | OpStruct ms nm => StructType_get ms nm
  | OpFunction r args => FunctionType_new r args
  end.

(** The type object a call asks for. *)
Definition op_type (o : TypeOp) : Type_ :=
  match o with
  | OpBase id => BaseType id
  | OpInt w => IntegerType w
  | OpPointer p a => PointerType p a
  | OpArray e n => ArrayType e n
  | OpVector n e => VectorType n e
  | OpStruct ms nm => StructType ms nm
  | OpFunction r args => FunctionType r args
  end.

Definition is_function_op (o : TypeOp) : bool :=
  match o with OpFunction _ _ => true | _ => false end.

(** The caller passes existing types, and [getTy] is only asked for a base type. *)
Definition op_valid (s : TypeState) (o : TypeOp) : Prop :=
  Forall (fun c => (c < length (type_heap s))%nat) (type_refs (op_type o)) /\ base_ok (op_type o).

Lemma members_equal_spec xs ys : length ys = length xs -> members_equal xs ys = true <-> ys = xs.
Proof.
  revert ys; induction xs as [|x xs IH]; intros [|y ys]; simpl; try done.
  intros [= Hl]. case_bool_decide as E; simpl; split; intros H; try done.
  - subst. f_equal. by apply IH.
  - injection H as _ ->. by apply IH.
  - congruence.
Qed.

Lemma StructType_match_spec ms nm ms' nm' :
  (zlength ms' =? zlength ms) && (members_equal ms ms' && bool_decide (nm' = nm)) = true <->
  StructType ms' nm' = StructType ms nm.
Proof.
  rewrite !andb_true_iff, bool_decide_eq_true, Z.eqb_eq. unfold zlength. split.
  - intros (Hl & Hm & ->). apply members_equal_spec in Hm; [by subst|lia].
  - intros [= -> ->]. split_and!; [done|by apply members_equal_spec|done].
Qed.

Lemma type_at_run s r : is_Some (type_heap s !! r) -> exists t, type_at r s = Ok (t, s).
Proof. intros [t Ht]. exists t. unfold type_at, mbind, M_bind, gets, derefM, lift. by rewrite Ht. Qed.

Lemma after_type_at {A} s r (m : M TypeState A) :
  is_Some (type_heap s !! r) -> (_ ← type_at r; m) s = m s.
Proof. intros H. destruct (type_at_run s r H) as [t Ht]. unfold mbind, M_bind. by rewrite Ht. Qed.

Ltac match_spec :=
  let H := fresh in
  intros ? [] _; split; intros H; try discriminate H;
  [ apply andb_true_iff in H as [H1%Z.eqb_eq H2%bool_decide_eq_true]; by subst
  | injection H as -> ->; by rewrite Z.eqb_refl, bool_decide_eq_true_2 ].

(** The test of each cached factory recognises exactly the requested type. *)
Lemma run_type_op_factory s o :
  types_wf s -> op_valid s o -> is_function_op o = false ->
  exists matches, run_type_op o s = find_or_construct matches (op_type o) s /\
    forall r t', type_heap s !! r = Some t' -> matches t' = true <-> t' = op_type o.
Proof.
  intros Hwf [Hrefs Hb] Hf.
  assert (forall c, c ∈ type_refs (op_type o) -> is_Some (type_heap s !! c)) as Hlive.
  { intros c Hc. apply lookup_lt_is_Some. by eapply list.Forall_forall in Hrefs. }
  destruct o as [id|w|c a|c n|n c|ms nm|]; [| | | | | |discriminate Hf];
    cbn [run_type_op op_type type_refs] in *;
    unfold Type_getTy, Type_getIntTy, PointerType_get, ArrayType_get, VectorType_get, StructType_get;
    rewrite ?after_type_at by (apply Hlive; left); eexists; (split; [reflexivity|]).
  - intros r t' Ht'. cbv beta. rewrite bool_decide_eq_true. split; [|by intros ->].
    intros Hid. pose proof (wf_base s Hwf r t' Ht') as Hb'. destruct t'; cbn in *; by subst.
  - intros r t' _. destruct t' as [|w'| | | | |]; try by split.
    rewrite Z.eqb_eq. split; [by intros ->|by intros [= ->]].
  - match_spec.
  - match_spec.
  - match_spec.
  - intros r t' _. destruct t' as [| | | |ms' nm'| |]; try by split. apply StructType_match_spec.
Qed.

(** Every factory but the function-type constructor hash-conses. *)
Lemma run_type_op_spec s o :
  types_wf s -> op_valid s o ->
  exists r s', run_type_op o s = Ok (r, s') /\ types_wf s' /\ types_extend s s' /\
    type_heap s' !! r = Some (op_type o) /\
    (is_function_op o = false ->
       r ∈ type_cache s' /\
       forall r0, r0 ∈ type_cache s -> type_heap s !! r0 = Some (op_type o) -> r = r0 /\ s' = s).
Proof.
  intros Hwf Hv. pose proof Hv as [Hrefs Hb]. destruct (is_function_op o) eqn:Hf.
  - destruct o; try discriminate Hf. cbn.
    eexists _, _. split; [reflexivity|]. cbn [type_heap type_cache]. split_and!.
    + by apply types_wf_construct.
    + split; [by apply prefix_app_r|done].
    + by apply list_lookup_middle.
    + done.
  - destruct (run_type_op_factory s o Hwf Hv Hf) as (matches & -> & Hm).
    destruct (find_or_construct_spec s matches (op_type o) Hwf Hrefs Hb Hm) as
      (r & s' & ? & ? & ? & ? & ? & ?). exists r, s'. split_and!; auto.
Qed.

(** * Types as trees

    What a type reference stands for, independently of addresses. *)
#[warnings="-register-all"]
Inductive type_tree :=
| TreeBase (id : TypeID)
| TreeInt (width : Z)
| TreePointer (pointee : type_tree) (addr_space : Z)
| TreeArray (element : type_tree) (size : Z)
| TreeVector (size : Z) (element : type_tree)
| TreeStruct (members : list (option type_tree)) (name : list Z)
| TreeFunction (ret : type_tree) (args : list (option type_tree)).

(** [denotes heap r tr]: the object at [r] is the tree [tr]. *)
Inductive denotes (heap : list Type_) : tyref -> type_tree -> Prop :=
| denotes_base r id : heap !! r = Some (BaseType id) -> denotes heap r (TreeBase id)
| denotes_int r w : heap !! r = Some (IntegerType w) -> denotes heap r (TreeInt w)
| denotes_pointer r c a tr : heap !! r = Some (PointerType c a) ->
    denotes heap c tr -> denotes heap r (TreePointer tr a)
| denotes_array r c n tr : heap !! r = Some (ArrayType c n) ->
    denotes heap c tr -> denotes heap r (TreeArray tr n)
| denotes_vector r c n tr : heap !! r = Some (VectorType n c) ->
    denotes heap c tr -> denotes heap r (TreeVector n tr)
| denotes_struct r ms nm trs : heap !! r = Some (StructType ms nm) ->
    Forall2 (denotes_opt heap) ms trs -> denotes heap r (TreeStruct trs nm)
| denotes_function r c args tr trs : heap !! r = Some (FunctionType c args) ->
    denotes heap c tr -> Forall2 (denotes_opt heap) args trs ->
    denotes heap r (TreeFunction tr trs)
with denotes_opt (heap : list Type_) : option tyref -> option type_tree -> Prop :=
| denotes_null : denotes_opt heap None None
| denotes_some r tr : denotes heap r tr -> denotes_opt heap (Some r) (Some tr).

(** A type all of whose parts went through the cache: no function type below it. *)
Inductive all_cached (s : TypeState) : tyref -> Prop :=
| all_cached_intro r t :
    r ∈ type_cache s -> type_heap s !! r = Some t ->
    (forall c, c ∈ type_refs t -> all_cached s c) -> all_cached s r.

Lemma members_tree_inj s (r : tyref) ms1 ms2 trs :
  (forall c1 c2 tr, c1 ∈ omap id ms1 -> c2 ∈ omap id ms2 ->
     denotes (type_heap s) c1 tr -> denotes (type_heap s) c2 tr -> c1 = c2) ->
  Forall2 (denotes_opt (type_heap s)) ms1 trs ->
  Forall2 (denotes_opt (type_heap s)) ms2 trs -> ms1 = ms2.
Proof.
  intros Hinj H1. revert ms2 Hinj. induction H1 as [|o1 tro ms1 trs Ho H1 IH]; intros ms2 Hinj H2.
  { by inversion H2. }
  inversion H2 as [|o2 ? ms2' ? Ho2 H2']; subst. f_equal.
  - destruct Ho; inversion Ho2; subst; [done|]. f_equal. eapply Hinj; [..|done|done]; left.
  - apply IH; [|done]. intros c1 c2 tr Hc1 Hc2. apply Hinj.
    + destruct o1; [by right|done].
    + destruct o2; [by right|done].
Qed.

(** Two cached types that are the same tree are the same object. *)
Lemma all_cached_tree_inj s r1 r2 tr :
  types_wf s -> all_cached s r1 -> all_cached s r2 ->
  denotes (type_heap s) r1 tr -> denotes (type_heap s) r2 tr -> r1 = r2.
Proof.
  intros Hwf H1. revert r2 tr. induction H1 as [r1 t1 Hc1 Ht1 _ IH]. intros r2 tr H2 D1 D2.
  destruct H2 as [r2 t2 Hc2 Ht2 Hsub].
  cut (t1 = t2); [intros ->; by eapply wf_unique|].
  destruct D1; simplify_eq/=; inversion D2; simplify_eq/=; try done; f_equal.
  all: try (eapply IH; [left|apply Hsub; left|done|done]).
  all: eapply members_tree_inj; [exact r2| |done|done]; intros; eapply IH; try done;
    first [by right|apply Hsub; by right|by apply Hsub|done].
Qed.

(** Every live reference denotes a tree, because components are older. *)
Lemma denotes_total s r :
  types_wf s -> is_Some (type_heap s !! r) -> exists tr, denotes (type_heap s) r tr.
Proof.
  intros Hwf. induction r as [r IH] using lt_wf_ind. intros [t Ht].
  pose proof (wf_refs s Hwf r t Ht) as Hrefs.
  assert (forall c, c ∈ type_refs t -> exists tr, denotes (type_heap s) c tr) as Hsub.
  { intros c Hc. eapply list.Forall_forall in Hrefs as Hlt; [|done].
    apply IH; [done|]. apply lookup_lt_is_Some. apply lookup_lt_Some in Ht. lia. }
  assert (forall ms, (forall c, c ∈ omap id ms -> exists tr, denotes (type_heap s) c tr) ->
            exists trs, Forall2 (denotes_opt (type_heap s)) ms trs) as Hms.
  { induction ms as [|o ms IHms]; intros Hc; [by exists []|].
    destruct IHms as [trs Htrs]; [intros c Hin; apply Hc; destruct o; [by right|done]|].
    destruct o as [c|]; [|exists (None :: trs); repeat constructor; done].
    destruct (Hc c) as [tr Htr]; [left|]. exists (Some tr :: trs). repeat constructor; done. }
  destruct t as [id|w|c a|c n|ms nm|n c|c args]; cbn [type_refs] in Hsub.
  - eexists. by eapply denotes_base.
  - eexists. by eapply denotes_int.
  - destruct (Hsub c) as [tr Htr]; [left|]. eexists. by eapply denotes_pointer.
  - destruct (Hsub c) as [tr Htr]; [left|]. eexists. by eapply denotes_array.
  - destruct (Hms ms Hsub) as [trs Htrs]. eexists. by eapply denotes_struct.
  - destruct (Hsub c) as [tr Htr]; [left|]. eexists. by eapply denotes_vector.
  - destruct (Hsub c) as [tr Htr]; [left|].
    destruct (Hms args) as [trs Htrs]; [intros c' ?; apply Hsub; by right|].
    eexists. by eapply denotes_function.
Qed.

(** * Histories of the context *)

(** The states a context can be in: any sequence of factory calls with live
    arguments, from the empty context. *)
Inductive types_step (s s' : TypeState) : Prop :=
| types_step_intro o r : op_valid s o -> run_type_op o s = Ok (r, s') -> types_step s s'.

Definition types_reachable (s : TypeState) : Prop := rtc types_step TypeState_new s.

Lemma types_step_inv s s' : types_step s s' -> types_wf s -> types_wf s' /\ types_extend s s'.
Proof.
  intros [o r Hv Hrun] Hwf. destruct (run_type_op_spec s o Hwf Hv) as (r' & s'' & E & ? & ? & _).
  rewrite Hrun in E. by injection E as -> ->.
Qed.

Lemma types_steps_inv s s' : rtc types_step s s' -> types_wf s -> types_wf s' /\ types_extend s s'.
Proof.
  induction 1 as [s|s1 s2 s3 Hs _ IH]; intros Hwf; [done|].
  apply types_step_inv in Hs as [Hwf2 Hext]; [|done]. destruct (IH Hwf2). split; [done|by etrans].
Qed.

Lemma types_reachable_wf s : types_reachable s -> types_wf s.
Proof. intros H. apply (types_steps_inv _ _ H), types_wf_new. Qed.

Lemma op_valid_extend s s' o : types_extend s s' -> op_valid s o -> op_valid s' o.
Proof.
  intros [Hp _] [Hr Hb]. split; [|done]. eapply list.Forall_impl; [exact Hr|]. simpl. intros c Hc.
  apply prefix_length in Hp. lia.
Qed.

(** C33. Hash-consing.  Whatever factory calls happen in between, asking twice for
    the same integer, base, pointer, array, vector or struct type gives the same
    [Type *], and the second call changes nothing; every call completes and
    returns an object with the requested contents. *)
Theorem factories_hash_cons s o :
  types_reachable s -> op_valid s o ->
  exists r s1, run_type_op o s = Ok (r, s1) /\ type_heap s1 !! r = Some (op_type o) /\
    types_reachable s1 /\
    (is_function_op o = false ->
     forall s2, rtc types_step s1 s2 -> run_type_op o s2 = Ok (r, s2)).
Proof.
  intros Hs Hv. pose proof (types_reachable_wf s Hs) as Hwf.
  destruct (run_type_op_spec s o Hwf Hv) as (r & s1 & Hrun & Hwf1 & Hext & Hr & Hc).
  exists r, s1. split_and!; [done|done|by eapply rtc_r; [|by econstructor]|].
  intros Hf s2 H12. destruct (types_steps_inv _ _ H12 Hwf1) as [Hwf2 Hext2].
  destruct (Hc Hf) as [Hin _]. assert (op_valid s2 o) as Hv2
    by (eapply op_valid_extend; [|exact Hv]; by etrans).
  destruct (run_type_op_spec s2 o Hwf2 Hv2) as (r' & s3 & Hrun2 & _ & _ & _ & Hc2).
  destruct (Hc2 Hf) as [_ Hsame]. destruct (Hsame r) as [-> ->]; [| |done].
  - destruct Hext2 as [_ [k ->]]. apply elem_of_app. by left.
  - by eapply types_extend_lookup.
Qed.

Lemma factories_hash_cons_witness :
  exists r s1, run_type_op (OpInt 32) TypeState_new = Ok (r, s1) /\
    type_heap s1 !! r = Some (IntegerType 32) /\ types_reachable s1 /\
    (false = false -> forall s2, rtc types_step s1 s2 -> run_type_op (OpInt 32) s2 = Ok (r, s2)).
Proof.
  apply (factories_hash_cons TypeState_new (OpInt 32)).
  - apply rtc_refl.
  - split; [apply Forall_nil_2|exact I].
Defined.

(** Comparing two [Type *] whose parts all come from the cache is comparing the
    types they stand for, as trees: equal pointers denote equal trees, and a
    tree is denoted by one pointer only. *)
Theorem type_pointer_equality s r1 r2 :
  types_reachable s -> all_cached s r1 -> all_cached s r2 ->
  r1 = r2 <-> exists tr, denotes (type_heap s) r1 tr /\ denotes (type_heap s) r2 tr.
Proof.
  intros Hs%types_reachable_wf H1 H2. split.
  - intros <-. destruct H1 as [r t _ Ht _]. destruct (denotes_total s r) as [tr Htr]; eauto.
  - intros (tr & D1 & D2). by eapply all_cached_tree_inj.
Qed.

(** A context holding [i32], [i32*] and [{i32, i32*}]. *)
Definition sample_types : TypeState :=
  mkTypes [IntegerType 32; PointerType 0%nat 0; StructType [Some 0%nat; Some 1%nat] []]
          [0%nat; 1%nat; 2%nat].

Lemma sample_types_reachable : types_reachable sample_types.
Proof.
  eapply rtc_l; [exists (OpInt 32) 0%nat; [split; [apply Forall_nil_2|done]|reflexivity]|].
  eapply rtc_l; [exists (OpPointer 0%nat 0) 1%nat; [split; [repeat constructor|done]|reflexivity]|].
  eapply rtc_l; [exists (OpStruct [Some 0%nat; Some 1%nat] []) 2%nat;
                 [split; [repeat constructor; lia|done]|reflexivity]|].
  apply rtc_refl.
Qed.

Lemma sample_pointer_cached : all_cached sample_types 1%nat.
Proof.
  eapply all_cached_intro; [by right; left|done|]. intros c ->%list_elem_of_singleton.
  eapply all_cached_intro; [by left|done|]. by intros c ?%elem_of_nil.
Qed.

Lemma type_pointer_equality_witness :
  1%nat = 1%nat <-> exists tr, denotes (type_heap sample_types) 1%nat tr /\
                          denotes (type_heap sample_types) 1%nat tr.
Proof.
  apply type_pointer_equality;
    [apply sample_types_reachable|apply sample_pointer_cached|apply sample_pointer_cached].
Defined.
