(* ===== verification/LLVMValue.v ===== *)
(** Values, instructions, functions and metadata of the LLVM look-alike:
    bc/value.hpp, bc/value.cpp, bc/instruction.hpp, bc/instruction.cpp,
    bc/function.hpp, bc/function.cpp, bc/metadata.hpp, bc/metadata.cpp and the
    value part of bc/cast.hpp.

    A [Value *] is an index into the heap of value objects ([vref]) or null.
    The data members of [Value] and [Instruction] are the fields of the record
    [Value]; those of the derived classes are the arguments of the constructors
    of [ValueData]. *)
From S2P Require Import Prelude.
From S2P Require Import LLVMType.
Local Open Scope Z_scope.

Inductive ValueKind :=
| KArgument | KFunction | KInstructionBase | KConstantBase | KConstantInt | KConstantFP
| KConstantAggregateZero | KConstantPointerNull | KConstantAggregate | KConstantDataArray
| KConstantDataVector | KConstantExpr | KUndef | KUnaryOperator | KBinaryOperator | KCall
| KCompareBase | KFCmp | KICmp | KBasicBlock | KPHI | KCast | KSelect | KExtractValue
| KAlloca | KGetElementPtr | KLoad | KStore | KAtomicRMW | KAtomicCmpXchg | KReturn
| KUnreachable | KBranch | KSwitch | KProxy | KGlobal | KShuffleVector | KExtractElement
| KInsertElement | KCompositeConstruct.

#[export] Instance ValueKind_eq_dec : EqDecision ValueKind.
Proof. solve_decision. Defined.

(** [Instruction::CastOps], with the numbers [ConstantExpr] stores. *)
Inductive CastOps :=
| InvalidCastOp | Trunc | ZExt | SExt | FPToUI | FPToSI | UIToFP | SIToFP | FPTrunc | FPExt
| PtrToInt | IntToPtr | BitCast | AddrSpaceCast.

Definition CastOps_value (op : CastOps) : Z :=
  match op with
  | InvalidCastOp => 100 | Trunc => 101 | ZExt => 102 | SExt => 103 | FPToUI => 104
  | FPToSI => 105 | UIToFP => 106 | SIToFP => 107 | FPTrunc => 108 | FPExt => 109
  | PtrToInt => 110 | IntToPtr => 111 | BitCast => 112 | AddrSpaceCast => 113
  end.

Definition GEPOps_GetElementPtr : Z := 200.

Inductive BinaryOps :=
| InvalidBinaryOp | Add | FAdd | Sub | FSub | Mul | FMul | UDiv | SDiv | FDiv | URem | SRem
| FRem | Shl | LShr | AShr | And | Or | Xor.

Definition BinaryOps_value (op : BinaryOps) : Z :=
  match op with
  | InvalidBinaryOp => 300 | Add => 301 | FAdd => 302 | Sub => 303 | FSub => 304 | Mul => 305
  | FMul => 306 | UDiv => 307 | SDiv => 308 | FDiv => 309 | URem => 310 | SRem => 311
  | FRem => 312 | Shl => 313 | LShr => 314 | AShr => 315 | And => 316 | Or => 317 | Xor => 318
  end.

Inductive UnaryOps := UInvalid | UFNeg | UINeg.

Inductive RMWBinOp :=
| RMWInvalid | RMWXchg | RMWAdd | RMWSub | RMWAnd | RMWNand | RMWOr | RMWXor | RMWMax | RMWMin
| RMWUMax | RMWUMin | RMWFAdd | RMWFSub.

Inductive LinkageTypes := ExternalLinkage | InternalLinkage | AppendingLinkage.

Inductive Merge := MergeNone | MergeSelection | MergeLoop.

Abbreviation vref := nat (only parsing).
Abbreviation mdref := nat (only parsing).
(** [String]: its characters. *)
Definition String_ := list Z.

Record BasicBlockData := mkBB {
  bb_instructions : list vref;
  bb_succs : list vref;
  bb_merge : Merge;
  bb_merge_bb : option vref;
  bb_continue_bb : option vref;
}.

Record FunctionData := mkFn {
  fn_value_id : Z;
  fn_basic_blocks : list vref;
  fn_arguments : list vref;
  fn_attributes : list (String_ * String_);
  fn_structured_control_flow : bool;
}.

(** The data members of the derived classes.  [function_type] of a [Function] is
    also the type of the value, so it is not repeated. *)
Inductive ValueData :=
| Argument (argument_number : Z)
| Function (f : FunctionData)
| ConstantInt (value : Z)
| ConstantFP (value : Z)
| ConstantAggregateZero
| ConstantPointerNull
| ConstantAggregate (elements : list (option vref))
| ConstantDataArray (elements : list (option vref))
| ConstantDataVector (elements : list (option vref))
| ConstantExpr (opcode : Z) (elements : list (option vref))
| UndefValue
| UnaryOperator (op : UnaryOps)
| BinaryOperator (op : BinaryOps) (fast_math : bool)
| CallInst (callee : vref)
| FCmpInst (pred : Z)
| ICmpInst (pred : Z)
| BasicBlock (bb : BasicBlockData)
| PHINode (incoming : list (option vref * option vref))
| CastInst (op : CastOps)
| SelectInst
| ExtractValueInst (indices : list Z)
| AllocaInst (array_size : option vref)
| GetElementPtrInst (inbounds : bool)
| LoadInst
| StoreInst
| AtomicRMWInst (ptr value : option vref) (op : RMWBinOp)
| AtomicCmpXchgInst (ptr new_value cmp_value : option vref)
| ReturnInst (value : option vref)
| UnreachableInst
| BranchInst (bbs : list (option vref)) (cond : option vref)
| SwitchInst (cond : option vref) (default_block : option vref)
    (cases : list (option vref * option vref))
| ValueProxy (id : Z) (proxy : option vref)
| GlobalVariable (linkage : LinkageTypes) (is_const : bool) (initializer : option vref)
| ShuffleVectorInst (shuffle_mask : list Z)
| ExtractElementInst (vec index : option vref)
| InsertElementInst
| CompositeConstructInst.

Definition get_value_kind (d : ValueData) : ValueKind :=
  match d with
  | Argument _ => KArgument
  | Function _ => KFunction
  | ConstantInt _ => KConstantInt
  | ConstantFP _ => KConstantFP
  | ConstantAggregateZero => KConstantAggregateZero
  | ConstantPointerNull => KConstantPointerNull
  | ConstantAggregate _ => KConstantAggregate
  | ConstantDataArray _ => KConstantDataArray
  | ConstantDataVector _ => KConstantDataVector
  | ConstantExpr _ _ => KConstantExpr
  | UndefValue => KUndef
  | UnaryOperator _ => KUnaryOperator
  | BinaryOperator _ _ => KBinaryOperator
  | CallInst _ => KCall
  | FCmpInst _ => KFCmp
  | ICmpInst _ => KICmp
  | BasicBlock _ => KBasicBlock
  | PHINode _ => KPHI
  | CastInst _ => KCast
  | SelectInst => KSelect
  | ExtractValueInst _ => KExtractValue
  | AllocaInst _ => KAlloca
  | GetElementPtrInst _ => KGetElementPtr
  | LoadInst => KLoad
  | StoreInst => KStore
  | AtomicRMWInst _ _ _ => KAtomicRMW
  | AtomicCmpXchgInst _ _ _ => KAtomicCmpXchg
  | ReturnInst _ => KReturn
  | UnreachableInst => KUnreachable
  | BranchInst _ _ => KBranch
  | SwitchInst _ _ _ => KSwitch
  | ValueProxy _ _ => KProxy
  | GlobalVariable _ _ _ => KGlobal
  | ShuffleVectorInst _ => KShuffleVector
  | ExtractElementInst _ _ => KExtractElement
  | InsertElementInst => KInsertElement
  | CompositeConstructInst => KCompositeConstruct
  end.

(** [is_base_of_value_kind] of the classes that have derived classes. *)
Definition Constant_is_base_of (k : ValueKind) : bool :=
  match k with
  | KConstantFP | KConstantInt | KConstantDataArray | KConstantDataVector | KConstantAggregate
  | KConstantAggregateZero | KConstantBase | KUndef | KFunction | KGlobal | KConstantExpr => true
  | _ => false
  end.

Definition Instruction_is_base_of (k : ValueKind) : bool :=
  match k with
  | KReturn | KUnreachable | KCall | KUnaryOperator | KBinaryOperator | KCast | KSelect
  | KExtractValue | KAlloca | KGetElementPtr | KLoad | KStore | KCompareBase | KFCmp | KICmp
  | KBranch | KSwitch | KPHI | KAtomicRMW | KAtomicCmpXchg | KShuffleVector | KExtractElement
  | KInsertElement => true
  | _ => false
  end.

Definition CmpInst_is_base_of (k : ValueKind) : bool :=
  bool_decide (k = KICmp) || bool_decide (k = KFCmp).

(** [LLVMBC_DEFAULT_VALUE_KIND_IMPL]: the classes without derived classes. *)
Definition kind_is (k kind : ValueKind) : bool := bool_decide (k = kind).

(** The members of [Value] and [Instruction]; the last three only matter for
    instructions. *)
Record Value := mkValue {
  val_type : option tyref;
  val_data : ValueData;
  val_tween : Z;
  val_operands : list (option vref);
  val_terminator : bool;
  val_attachments : gmap String_ (option mdref);
}.

Definition val_kind (v : Value) : ValueKind := get_value_kind (val_data v).

(** [MDOperand] and its derived classes; the [parent] module is the only module. *)
Inductive MDObject :=
| MDOperandNone
| MDNode (operands : list mdref) (tween : Z)
| NamedMDNode (name : String_) (operands : list (option mdref))
| ConstantAsMetadata (value : vref)
| MDString (str : String_).

Inductive MetadataKind := MKNamedNode | MKNode | MKConstant | MKString | MKNone.

#[export] Instance MetadataKind_eq_dec : EqDecision MetadataKind.
Proof. solve_decision. Defined.

Definition get_metadata_kind (m : MDObject) : MetadataKind :=
  match m with
  | MDOperandNone => MKNone
  | MDNode _ _ => MKNode
  | NamedMDNode _ _ => MKNamedNode
  | ConstantAsMetadata _ => MKConstant
  | MDString _ => MKString
  end.

(** Every object the context owns. *)
Record VState := mkV {
  v_types : TypeState;
  v_values : list Value;
  v_mds : list MDObject;
}.

Definition VState_new : VState := mkV TypeState_new [] [].

Definition on_types {A} (m : M TypeState A) : M VState A :=
  zoom v_types (fun t s => mkV t (v_values s) (v_mds s)) m.

(** * The heap of values *)

Definition value_at (r : vref) : M VState Value :=
  o ← gets (fun s => v_values s !! r); derefM o.

Definition update_value (r : vref) (v : Value) : M VState unit :=
  modify (fun s => mkV (v_types s) (<[r := v]> (v_values s)) (v_mds s)).

Definition construct_value (v : Value) : M VState vref := fun s =>
  Ok (length (v_values s), mkV (v_types s) (v_values s ++ [v]) (v_mds s)).

Definition construct_md (m : MDObject) : M VState mdref := fun s =>
  Ok (length (v_mds s), mkV (v_types s) (v_values s) (v_mds s ++ [m])).

(** [getType] of a value pointer. *)
Definition Value_getType (r : vref) : M VState (option tyref) :=
  v ← value_at r; mret (val_type v).

Definition set_tween_id (r : vref) (id : Z) : M VState unit :=
  v ← value_at r;
  update_value r (mkValue (val_type v) (val_data v) id (val_operands v) (val_terminator v)
                          (val_attachments v)).

Definition set_data (r : vref) (d : ValueData) : M VState unit :=
  v ← value_at r;
  update_value r (mkValue (val_type v) d (val_tween v) (val_operands v) (val_terminator v)
                          (val_attachments v)).

(** The type object behind a type pointer that may be null. *)
Definition deref_type (o : option tyref) : M VState Type_ :=
  r ← derefM o; on_types (type_at r).

(** [Internal::resolve_proxy]: the loop ends at null or at an object that is no
    proxy.  A chain longer than the heap has no end: a loop without progress, which
    has no defined behaviour. *)
Fixpoint resolve_proxy_loop (fuel : nat) (heap : list Value) (o : option vref)
    : res (option vref) :=
  match fuel with
  | O => UB
  | S fuel' =>
      match o with
      | None => Ok None
      | Some r =>
          v ← some_or_ub (heap !! r);
          match val_data v with
          | ValueProxy _ p => resolve_proxy_loop fuel' heap p
          | _ => Ok (Some r)
          end
      end
  end.

Definition resolve_proxy_in (heap : list Value) (o : option vref) : res (option vref) :=
  resolve_proxy_loop (S (S (length heap))) heap o.

Definition resolve_proxy (o : option vref) : M VState (option vref) :=
  s ← gets id; lift (resolve_proxy_in (v_values s) o).

(** [cast<T>(value)], for a [T] other than [ValueProxy]; ends the program on a
    mismatch. *)
Definition cast (is_base : ValueKind -> bool) (o : option vref) : M VState vref :=
  o' ← resolve_proxy o; r ← derefM o'; v ← value_at r; _ ← assertM (is_base (val_kind v));
  mret r.

(** [dyn_cast<T>(value)]: only the argument is checked for null, the value behind
    a proxy is not. *)
Definition dyn_cast (is_base : ValueKind -> bool) (o : option vref)
    : M VState (option vref) :=
  match o with
  | None => mret None
  | Some _ =>
      o' ← resolve_proxy o; r ← derefM o'; v ← value_at r;
      mret (if is_base (val_kind v) then Some r else None)
  end.

Definition isa (is_base : ValueKind -> bool) (o : option vref) : M VState bool :=
  o' ← resolve_proxy o; r ← derefM o'; v ← value_at r; mret (is_base (val_kind v)).

(** [isa<T>(type)] *)
Definition type_isa (id : TypeID) (t : Type_) : bool := bool_decide (Type_getTypeID t = id).

(** [dyn_cast<MDNode>(md)] *)
Definition dyn_cast_MDNode (r : mdref) : M VState (option mdref) :=
  o ← gets (fun s => v_mds s !! r); m ← derefM o;
  mret (if bool_decide (get_metadata_kind m = MKNode) then Some r else None).

(** * Constants *)

(** [APInt] and [APFloat]: a type and a raw 64-bit value. *)
Record APInt := mkAPInt { apint_type : option tyref; apint_value : Z }.
Record APFloat := mkAPFloat { apfloat_type : option tyref; apfloat_value : Z }.

(** The arithmetic of the two accessors, for a type of [width] bits; a shift by 64
    or more (or by a negative amount) has no defined result. *)
Definition sext_value (width value : Z) : res Z :=
  if width =? 64 then Ok (s64 value)
  else
    _ ← assert_res ((0 <? width) && (width <? 64));
    let mask := Z.shiftl 1 width - 1 in
    let sign_bit := negb (Z.land (Z.shiftr value (width - 1)) 1 =? 0) in
    let extended := if sign_bit then u64 (Z.lnot mask) else 0 in
    Ok (s64 (Z.lor (Z.land value mask) extended)).

Definition zext_value (width value : Z) : res Z :=
  if width =? 64 then Ok value
  else
    _ ← assert_res (width <? 64);
    let mask := Z.shiftl 1 width - 1 in
    Ok (Z.land value mask).

Definition APInt_width (a : APInt) : M VState Z :=
  t ← deref_type (apint_type a); lift (IntegerType_getBitWidth t).

Definition APInt_getSExtValue (a : APInt) : M VState Z :=
  w ← APInt_width a; lift (sext_value w (apint_value a)).

Definition APInt_getZExtValue (a : APInt) : M VState Z :=
  w ← APInt_width a; lift (zext_value w (apint_value a)).

Definition APInt_get_raw_value (a : APInt) : Z := apint_value a.

(** Only integer (float) constants set [apint] ([apfloat]); in any other constant it
    is the default one. *)
Definition Constant_getUniqueInteger (r : vref) : M VState APInt :=
  v ← value_at r;
  mret (match val_data v with
        | ConstantInt value => mkAPInt (val_type v) value
        | _ => mkAPInt None 0
        end).

Definition Constant_getValueAPF (r : vref) : M VState APFloat :=
  v ← value_at r;
  mret (match val_data v with
        | ConstantFP value => mkAPFloat (val_type v) value
        | _ => mkAPFloat None 0
        end).

Definition APFloat_bitcastToAPInt (a : APFloat) : M VState APInt :=
  t ← deref_type (apfloat_type a);
  match Type_getTypeID t with
  | HalfTyID => i ← on_types Type_getInt16Ty; mret (mkAPInt (Some i) (apfloat_value a))
  | FloatTyID => i ← on_types Type_getInt32Ty; mret (mkAPInt (Some i) (apfloat_value a))
  | DoubleTyID => i ← on_types Type_getInt64Ty; mret (mkAPInt (Some i) (apfloat_value a))
  | _ => mret (mkAPInt None (apfloat_value a))
  end.

(** A value that is not an instruction. *)
Definition plain_value (ty : option tyref) (d : ValueData) : Value := mkValue ty d 0 [] false ∅.

(** The static factories take the context from the type, so the type is not null. *)
Definition ConstantInt_get (ty : option tyref) (value : Z) : M VState vref :=
  _ ← deref_type ty; construct_value (plain_value ty (ConstantInt value)).
Definition ConstantFP_get (ty : option tyref) (value : Z) : M VState vref :=
  _ ← deref_type ty; construct_value (plain_value ty (ConstantFP value)).
Definition UndefValue_get (ty : option tyref) : M VState vref :=
  _ ← deref_type ty; construct_value (plain_value ty UndefValue).

(** [elements[index]] and its checked cast. *)
Definition element_as_constant (elements : list (option vref)) (index : Z) : M VState vref :=
  e ← derefM (zlookup elements index); cast Constant_is_base_of e.

Definition ConstantDataArray_getElementAsConstant (r : vref) (index : Z) : M VState vref :=
  v ← value_at r;
  match val_data v with ConstantDataArray es => element_as_constant es index | _ => ubM end.
Definition ConstantDataVector_getElementAsConstant (r : vref) (index : Z) : M VState vref :=
  v ← value_at r;
  match val_data v with ConstantDataVector es => element_as_constant es index | _ => ubM end.
Definition ConstantAggregate_getOperand (r : vref) (index : Z) : M VState vref :=
  v ← value_at r;
  match val_data v with ConstantAggregate es => element_as_constant es index | _ => ubM end.
Definition ConstantExpr_getOperand (r : vref) (N : Z) : M VState vref :=
  v ← value_at r;
  match val_data v with ConstantExpr _ es => element_as_constant es N | _ => ubM end.

Definition GlobalVariable_set_initializer (r value : vref) : M VState unit :=
  v ← value_at r;
  match val_data v with
  | GlobalVariable l c _ => set_data r (GlobalVariable l c (Some value))
  | _ => ubM
  end.
Definition GlobalVariable_hasInitializer (r : vref) : M VState bool :=
  v ← value_at r;
  match val_data v with GlobalVariable _ _ i => mret (bool_decide (is_Some i)) | _ => ubM end.

(** * Instructions: the constructors *)

Definition inst_value (ty : option tyref) (d : ValueData) (operands : list (option vref))
    (terminator : bool) : Value := mkValue ty d 0 operands terminator ∅.

Definition BinaryOperator_new (LHS RHS : vref) (op : BinaryOps) : M VState vref :=
  ty ← Value_getType LHS;
  construct_value (inst_value ty (BinaryOperator op false) [Some LHS; Some RHS] false).

Definition BinaryOperator_setFast (r : vref) (enabled : bool) : M VState unit :=
  v ← value_at r;
  match val_data v with
  | BinaryOperator op _ => set_data r (BinaryOperator op enabled)
  | _ => ubM
  end.

Definition UnaryOperator_new (uop : UnaryOps) (value : vref) : M VState vref :=
  ty ← Value_getType value;
  construct_value (inst_value ty (UnaryOperator uop) [Some value] false).

Definition ReturnInst_new (value : option vref) : M VState vref :=
  ty ← match value with Some r => Value_getType r | None => mret None end;
  construct_value (inst_value ty (ReturnInst value) [] true).

Definition UnreachableInst_new : M VState vref :=
  construct_value (inst_value None UnreachableInst [] true).

Definition CallInst_new (function_type : tyref) (callee : vref) (params : list (option vref))
    : M VState vref :=
  t ← on_types (type_at function_type);
  ret ← lift (FunctionType_getReturnType t);
  construct_value (inst_value (Some ret) (CallInst callee) params false).

Definition get_cmp_result_type (ty : option tyref) : M VState tyref :=
  t ← deref_type ty;
  bool_type ← on_types Type_getInt1Ty;
  match t with
  | VectorType n _ => on_types (VectorType_get n bool_type)
  | _ => mret bool_type
  end.

(** [CmpInst]'s constructor, run by those of [FCmpInst] and [ICmpInst]. *)
Definition CmpInst_new (d : ValueData) (LHS RHS : vref) : M VState vref :=
  ty ← Value_getType LHS;
  result ← get_cmp_result_type ty;
  construct_value (inst_value (Some result) d [Some LHS; Some RHS] false).

Definition FCmpInst_new (pred : Z) (LHS RHS : vref) : M VState vref :=
  CmpInst_new (FCmpInst pred) LHS RHS.
Definition ICmpInst_new (pred : Z) (LHS RHS : vref) : M VState vref :=
  CmpInst_new (ICmpInst pred) LHS RHS.

Definition CastInst_new (ty : tyref) (value : vref) (op : CastOps) : M VState vref :=
  construct_value (inst_value (Some ty) (CastInst op) [Some value] false).

Definition SelectInst_new (true_value false_value : vref) (cond : option vref) : M VState vref :=
  ty ← Value_getType true_value;
  construct_value (inst_value ty SelectInst [cond; Some true_value; Some false_value] false).

Definition ExtractValueInst_new (ty : option tyref) (aggregate : vref) (indices : list Z)
    : M VState vref :=
  construct_value (inst_value ty (ExtractValueInst indices) [Some aggregate] false).

Definition BranchInst_new_cond (true_block false_block : vref) (cond : option vref)
    : M VState vref :=
  construct_value (inst_value None (BranchInst [Some true_block; Some false_block] cond) [] true).

Definition BranchInst_new (true_block : vref) : M VState vref :=
  construct_value (inst_value None (BranchInst [Some true_block] None) [] true).

Definition SwitchInst_new (cond : vref) (default_block : vref) : M VState vref :=
  ty ← Value_getType cond;
  _ ← deref_type ty;
  void ← on_types Type_getVoidTy;
  construct_value (inst_value (Some void) (SwitchInst (Some cond) (Some default_block) []) [] true).

Definition SwitchInst_addCase (r : vref) (case_value bb : vref) : M VState unit :=
  v ← value_at r;
  match val_data v with
  | SwitchInst c d cases => set_data r (SwitchInst c d (cases ++ [(Some case_value, Some bb)]))
  | _ => ubM
  end.

Definition PHINode_new (ty : option tyref) : M VState vref :=
  construct_value (inst_value ty (PHINode []) [] false).

Definition PHINode_add_incoming (r : vref) (value bb : vref) : M VState unit :=
  v ← value_at r;
  match val_data v with
  | PHINode inc => set_data r (PHINode (inc ++ [(Some value, Some bb)]))
  | _ => ubM
  end.

Definition AllocaInst_new (pointer_type : tyref) (size : vref) : M VState vref :=
  construct_value (inst_value (Some pointer_type) (AllocaInst (Some size)) [] false).

Definition GetElementPtrInst_new (pointer_type : tyref) (indices : list (option vref))
    (inbounds : bool) : M VState vref :=
  construct_value (inst_value (Some pointer_type) (GetElementPtrInst inbounds) indices false).

Definition LoadInst_new (ty : option tyref) (ptr : vref) : M VState vref :=
  construct_value (inst_value ty LoadInst [Some ptr] false).

Definition StoreInst_new (ptr value : vref) : M VState vref :=
  ty ← Value_getType ptr;
  _ ← deref_type ty;
  void ← on_types Type_getVoidTy;
  construct_value (inst_value (Some void) StoreInst [Some value; Some ptr] false).

Definition AtomicRMWInst_new (ty : option tyref) (ptr value : vref) (op : RMWBinOp)
    : M VState vref :=
  construct_value (inst_value ty (AtomicRMWInst (Some ptr) (Some value) op)
                              [Some ptr; Some value] false).

(** Without a type override, the form the bitcode parser uses; [new_value] is
    dereferenced for its type. *)
Definition AtomicCmpXchgInst_new (ptr cmp : vref) (new_value : option vref) : M VState vref :=
  n ← derefM new_value;
  ty ← Value_getType n;
  _ ← deref_type ty;
  bool_type ← on_types Type_getInt1Ty;
  st ← on_types (StructType_get [ty; Some bool_type] []);
  construct_value (inst_value (Some st) (AtomicCmpXchgInst (Some ptr) (Some n) (Some cmp))
                              [Some ptr; Some n; Some cmp] false).

(** One mask element: the integer constant [cast] to the 32-bit [int] of the mask. *)
Definition shuffle_mask_element (shuf : vref) (i : Z) : M VState Z :=
  c ← ConstantDataVector_getElementAsConstant shuf i;
  k ← cast (kind_is KConstantInt) (Some c);
  a ← Constant_getUniqueInteger k;
  x ← APInt_getSExtValue a;
  mret (signed 32 x).

Definition ShuffleVectorInst_new (ty : tyref) (a b shuf : vref) : M VState vref :=
  sty ← Value_getType shuf;
  st ← deref_type sty;
  num_elements ← lift (Type_getVectorNumElements st);
  masks ← dyn_cast (kind_is KConstantDataVector) (Some shuf);
  mask ← match masks with
         | Some m =>
             mv ← value_at m;
             match val_data mv with
             | ConstantDataVector es =>
                 mapM_list (fun i => shuffle_mask_element m (Z.of_nat i)) (seq 0 (length es))
             | _ => ubM
             end
         | None => mret (replicate (Z.to_nat num_elements) 0)
         end;
  construct_value (inst_value (Some ty) (ShuffleVectorInst mask) [Some a; Some b] false).

Definition ExtractElementInst_new (vec index : vref) : M VState vref :=
  ty ← Value_getType vec;
  t ← deref_type ty;
  e ← lift (VectorType_getElementType t);
  construct_value (inst_value (Some e) (ExtractElementInst (Some vec) (Some index))
                              [Some vec; Some index] false).

Definition InsertElementInst_new (vec value index : vref) : M VState vref :=
  ty ← Value_getType vec;
  construct_value (inst_value ty InsertElementInst [Some vec; Some value; Some index] false).

Definition CompositeConstructInst_new (ty : tyref) (constituents : list (option vref))
    : M VState vref :=
  construct_value (inst_value (Some ty) CompositeConstructInst constituents false).

(** * Instructions: accessors and updates *)

Definition Instruction_getNumOperands (r : vref) : M VState Z :=
  v ← value_at r; mret (zlength (val_operands v)).

(** Out of range: null. *)
Definition Instruction_getOperand (r : vref) (index : Z) : M VState (option vref) :=
  v ← value_at r;
  match zlookup (val_operands v) index with
  | None => mret None
  | Some op => resolve_proxy op
  end.

Definition Instruction_isTerminator (r : vref) : M VState bool :=
  v ← value_at r; mret (val_terminator v).

(** The node may be null: it is there, but getting it gives null. *)
Definition Instruction_setMetadata (r : vref) (str : String_) (node : option mdref) : M VState unit :=
  v ← value_at r;
  update_value r (mkValue (val_type v) (val_data v) (val_tween v) (val_operands v)
                          (val_terminator v) (<[str := node]> (val_attachments v))).

Definition Instruction_getMetadata (r : vref) (str : String_) : M VState (option mdref) :=
  v ← value_at r; mret (mjoin (val_attachments v !! str)).

Definition Instruction_hasMetadata (r : vref) (str : String_) : M VState bool :=
  v ← value_at r; mret (bool_decide (is_Some (val_attachments v !! str))).

(** [PHINode::resolve_proxy_values_incoming]: each incoming value is replaced by what
    its proxies stand for; an unresolved proxy is an error, a null value is not. *)
Fixpoint resolve_incoming (heap : list Value) (incoming : list (option vref * option vref))
    : res (list (option vref * option vref)) :=
  match incoming with
  | [] => Ok []
  | (value, bb) :: rest =>
      value' ← resolve_proxy_in heap value;
      _ ← guard_res (bool_decide (is_Some value -> is_Some value'));
      rest' ← resolve_incoming heap rest;
      Ok ((value', bb) :: rest')
  end.

Fixpoint resolve_operands (heap : list Value) (operands : list (option vref))
    : res (list (option vref)) :=
  match operands with
  | [] => Ok []
  | op :: rest =>
      op' ← resolve_proxy_in heap op;
      rest' ← resolve_operands heap rest;
      Ok (op' :: rest')
  end.

Definition resolve_proxy_values (r : vref) : M VState unit :=
  v ← value_at r;
  s ← gets id;
  ops ← lift (resolve_operands (v_values s) (val_operands v));
  d ← match val_data v with
      | PHINode inc => inc' ← lift (resolve_incoming (v_values s) inc); mret (PHINode inc')
      | d => mret d
      end;
  update_value r (mkValue (val_type v) d (val_tween v) ops (val_terminator v) (val_attachments v)).

Definition ReturnInst_getReturnValue (r : vref) : M VState (option vref) :=
  v ← value_at r; match val_data v with ReturnInst x => resolve_proxy x | _ => ubM end.
Definition ExtractValueInst_getAggregateOperand (r : vref) : M VState (option vref) :=
  v ← value_at r; op ← derefM (zlookup (val_operands v) 0); resolve_proxy op.
Definition BranchInst_isConditional (r : vref) : M VState bool :=
  v ← value_at r;
  match val_data v with BranchInst _ c => mret (bool_decide (is_Some c)) | _ => ubM end.
Definition BranchInst_getCondition (r : vref) : M VState (option vref) :=
  v ← value_at r; match val_data v with BranchInst _ c => resolve_proxy c | _ => ubM end.
Definition BranchInst_getSuccessor (r : vref) (index : Z) : M VState (option vref) :=
  v ← value_at r;
  match val_data v with BranchInst bbs _ => derefM (zlookup bbs index) | _ => ubM end.
Definition BranchInst_getNumSuccessors (r : vref) : M VState Z :=
  v ← value_at r; match val_data v with BranchInst bbs _ => mret (zlength bbs) | _ => ubM end.
Definition SwitchInst_getCondition (r : vref) : M VState (option vref) :=
  v ← value_at r; match val_data v with SwitchInst c _ _ => resolve_proxy c | _ => ubM end.
Definition SwitchInst_getDefaultDest (r : vref) : M VState (option vref) :=
  v ← value_at r; match val_data v with SwitchInst _ d _ => mret d | _ => ubM end.
Definition SwitchInst_getCaseValue (c : option vref * option vref) : M VState vref :=
  cast (kind_is KConstantInt) (fst c).
Definition AllocaInst_getArraySize (r : vref) : M VState (option vref) :=
  v ← value_at r; match val_data v with AllocaInst x => resolve_proxy x | _ => ubM end.
Definition LoadInst_getPointerOperand (r : vref) : M VState (option vref) :=
  Instruction_getOperand r 0.
Definition PHINode_getNumIncomingValues (r : vref) : M VState Z :=
  v ← value_at r; match val_data v with PHINode inc => mret (zlength inc) | _ => ubM end.
Definition PHINode_getIncomingBlock (r : vref) (index : Z) : M VState (option vref) :=
  v ← value_at r;
  match val_data v with
  | PHINode inc => mret (match zlookup inc index with Some (_, bb) => bb | None => None end)
  | _ => ubM
  end.
Definition PHINode_getIncomingValue (r : vref) (index : Z) : M VState (option vref) :=
  v ← value_at r;
  match val_data v with
  | PHINode inc =>
      match zlookup inc index with Some (x, _) => resolve_proxy x | None => mret None end
  | _ => ubM
  end.
Definition AtomicRMWInst_getPointerOperand (r : vref) : M VState (option vref) :=
  v ← value_at r; match val_data v with AtomicRMWInst p _ _ => resolve_proxy p | _ => ubM end.
Definition AtomicRMWInst_getValOperand (r : vref) : M VState (option vref) :=
  v ← value_at r; match val_data v with AtomicRMWInst _ x _ => resolve_proxy x | _ => ubM end.
Definition ShuffleVectorInst_getMaskValue (r : vref) (index : Z) : M VState Z :=
  v ← value_at r;
  match val_data v with ShuffleVectorInst m => derefM (zlookup m index) | _ => ubM end.

(** * Basic blocks and functions *)

Definition BasicBlock_new : M VState vref :=
  label ← on_types Type_getLabelTy;
  construct_value (plain_value (Some label) (BasicBlock (mkBB [] [] MergeNone None None))).

Definition bb_at (r : vref) : M VState BasicBlockData :=
  v ← value_at r; match val_data v with BasicBlock bb => mret bb | _ => ubM end.

Definition BasicBlock_add_instruction (r inst : vref) : M VState unit :=
  bb ← bb_at r;
  set_data r (BasicBlock (mkBB (bb_instructions bb ++ [inst]) (bb_succs bb) (bb_merge bb)
                               (bb_merge_bb bb) (bb_continue_bb bb))).

Definition BasicBlock_getTerminator (r : vref) : M VState (option vref) :=
  bb ← bb_at r;
  match list.last (bb_instructions bb) with
  | Some i => t ← Instruction_isTerminator i; mret (if (t : bool) then Some i else None)
  | None => mret None
  end.

(** [add_successor]: successors are kept without duplicates. *)
Definition BasicBlock_add_successor (r succ : vref) : M VState unit :=
  bb ← bb_at r;
  if bool_decide (succ ∈ bb_succs bb) then mret tt
  else set_data r (BasicBlock (mkBB (bb_instructions bb) (bb_succs bb ++ [succ]) (bb_merge bb)
                                    (bb_merge_bb bb) (bb_continue_bb bb))).

Definition BasicBlock_set_selection_merge (r : vref) (m : option vref) : M VState unit :=
  bb ← bb_at r;
  set_data r (BasicBlock (mkBB (bb_instructions bb) (bb_succs bb) MergeSelection m
                               (bb_continue_bb bb))).

Definition BasicBlock_set_loop_merge (r : vref) (m c : option vref) : M VState unit :=
  bb ← bb_at r;
  set_data r (BasicBlock (mkBB (bb_instructions bb) (bb_succs bb) MergeLoop m c)).

Definition Function_new (function_type : tyref) (value_id : Z) : M VState vref :=
  construct_value (plain_value (Some function_type) (Function (mkFn value_id [] [] [] false))).

Definition fn_at (r : vref) : M VState FunctionData :=
  v ← value_at r; match val_data v with Function f => mret f | _ => ubM end.

Definition Function_set_basic_blocks (r : vref) (bbs : list vref) : M VState unit :=
  f ← fn_at r;
  set_data r (Function (mkFn (fn_value_id f) bbs (fn_arguments f) (fn_attributes f)
                             (fn_structured_control_flow f))).

Definition Function_add_argument (r arg : vref) : M VState unit :=
  f ← fn_at r;
  set_data r (Function (mkFn (fn_value_id f) (fn_basic_blocks f) (fn_arguments f ++ [arg])
                             (fn_attributes f) (fn_structured_control_flow f))).

Definition Function_set_attributes (r : vref) (attributes : list (String_ * String_))
    : M VState unit :=
  f ← fn_at r;
  set_data r (Function (mkFn (fn_value_id f) (fn_basic_blocks f) (fn_arguments f) attributes
                             (fn_structured_control_flow f))).

Definition Function_set_structured_control_flow (r : vref) : M VState unit :=
  f ← fn_at r;
  set_data r (Function (mkFn (fn_value_id f) (fn_basic_blocks f) (fn_arguments f)
                             (fn_attributes f) true)).

(** [getEntryBlock]: [front()] of a vector that must not be empty. *)
Definition Function_getEntryBlock (r : vref) : M VState vref :=
  f ← fn_at r; derefM (list.head (fn_basic_blocks f)).

(** The first attribute with that name; without one, the empty string. *)
Fixpoint find_attribute (attributes : list (String_ * String_)) (attribute : String_)
    : option String_ :=
  match attributes with
  | [] => None
  | (k, x) :: rest => if bool_decide (k = attribute) then Some x else find_attribute rest attribute
  end.

Definition Function_getFnAttribute (f : FunctionData) (attribute : String_) : String_ :=
  match find_attribute (fn_attributes f) attribute with Some x => x | None => [] end.

Definition Function_hasFnAttribute (f : FunctionData) (attribute : String_) : bool :=
  match find_attribute (fn_attributes f) attribute with Some _ => true | None => false end.

(** * Metadata *)

Definition md_at (r : mdref) : M VState MDObject :=
  o ← gets (fun s => v_mds s !! r); derefM o.

Definition MDNode_getNumOperands (r : mdref) : M VState Z :=
  m ← md_at r; match m with MDNode ops _ => mret (zlength ops) | _ => ubM end.
Definition MDNode_getOperand (r : mdref) (index : Z) : M VState mdref :=
  m ← md_at r; match m with MDNode ops _ => derefM (zlookup ops index) | _ => ubM end.
Definition NamedMDNode_getNumOperands (r : mdref) : M VState Z :=
  m ← md_at r; match m with NamedMDNode _ ops => mret (zlength ops) | _ => ubM end.
Definition NamedMDNode_getOperand (r : mdref) (index : Z) : M VState (option mdref) :=
  m ← md_at r; match m with NamedMDNode _ ops => derefM (zlookup ops index) | _ => ubM end.

(** * Proxy resolution *)

(** [resolves heap o trace o']: following proxies from [o] visits the objects
    [trace] and ends at [o'], which is null or no proxy. *)
Inductive resolves (heap : list Value) : option vref -> list vref -> option vref -> Prop :=
| resolves_null : resolves heap None [] None
| resolves_value r v : heap !! r = Some v -> val_kind v <> KProxy ->
    resolves heap (Some r) [r] (Some r)
| resolves_proxy r v id p trace o : heap !! r = Some v -> val_data v = ValueProxy id p ->
    resolves heap p trace o -> resolves heap (Some r) (r :: trace) o.

Lemma val_kind_proxy v : val_kind v = KProxy <-> exists id p, val_data v = ValueProxy id p.
Proof.
  unfold val_kind. destruct (val_data v); simpl; split; intros H; try done;
    try (by destruct H as (? & ? & ?)); eauto.
Qed.

Lemma resolves_det heap o t1 t2 o1 o2 :
  resolves heap o t1 o1 -> resolves heap o t2 o2 -> t1 = t2 /\ o1 = o2.
Proof.
  intros H1. revert t2 o2. induction H1 as [|r v Hv Hk|r v id p trace o Hv Hd H1 IH];
    intros t2 o2 H2; inversion H2; simplify_eq; try done.
  - destruct Hk. apply val_kind_proxy. eauto.
  - match goal with H : val_kind _ <> _ |- _ => destruct H end. apply val_kind_proxy. eauto.
  - match goal with H : val_data v = ValueProxy _ ?q, H' : resolves _ ?q _ _ |- _ =>
      rewrite Hd in H; injection H as _ <-; destruct (IH _ _ H') as [-> ->] end. done.
Qed.

(** Every visited object starts a shorter walk. *)
Lemma resolves_suffix heap o trace o' r :
  resolves heap o trace o' -> r ∈ trace ->
  exists t, resolves heap (Some r) t o' /\ (length t <= length trace)%nat.
Proof.
  induction 1 as [|r0 v Hv Hk|r0 v id p trace o Hv Hd H1 IH]; intros Hr.
  - by apply elem_of_nil in Hr.
  - apply list_elem_of_singleton in Hr as ->. exists [r0]. split; [by eapply resolves_value|done].
  - apply elem_of_cons in Hr as [->|Hr].
    + exists (r0 :: trace). split; [by eapply resolves_proxy|done].
    + destruct (IH Hr) as (t & Ht & Hl). exists t. split; [done|simpl; lia].
Qed.

Lemma resolves_NoDup heap o trace o' : resolves heap o trace o' -> NoDup trace.
Proof.
  induction 1 as [|r0 v Hv Hk|r0 v id p trace o Hv Hd H1 IH].
  - constructor.
  - apply NoDup_singleton.
  - constructor; [|done]. intros Hin.
    destruct (resolves_suffix _ _ _ _ _ H1 Hin) as (t & Ht & Hl).
    destruct (resolves_det heap (Some r0) t (r0 :: trace) o o) as [-> _]; [done| |simpl in Hl; lia].
    by eapply resolves_proxy.
Qed.

Lemma resolves_length heap o trace o' :
  resolves heap o trace o' -> (length trace <= length heap)%nat.
Proof.
  intros H. assert (forall r, r ∈ trace -> r ∈ seq 0 (length heap)) as Hsub.
  { induction H as [|r0 v Hv Hk|r0 v id p trace o Hv Hd H1 IH].
    - by intros r ?%elem_of_nil.
    - intros r ->%list_elem_of_singleton. apply elem_of_seq. apply lookup_lt_Some in Hv. lia.
    - intros r [->|Hr]%elem_of_cons; [|by apply IH].
      apply elem_of_seq. apply lookup_lt_Some in Hv. lia. }
  apply resolves_NoDup in H. rewrite <- (length_seq (length heap) 0).
  by apply submseteq_length, NoDup_submseteq.
Qed.

Lemma resolve_proxy_loop_complete heap fuel o trace o' :
  resolves heap o trace o' -> (length trace < fuel)%nat ->
  resolve_proxy_loop fuel heap o = Ok o'.
Proof.
  intros H. revert fuel. induction H as [|r v Hv Hk|r v id p trace o Hv Hd H1 IH];
    intros [|fuel] Hf; simpl in Hf |- *; try lia; try done; rewrite Hv; cbn [some_or_ub mbind res_bind].
  - destruct (val_data v) eqn:E; try done. destruct Hk. apply val_kind_proxy; eauto.
  - rewrite Hd. apply IH. lia.
Qed.

Lemma resolve_proxy_loop_sound heap fuel o o' :
  resolve_proxy_loop fuel heap o = Ok o' -> exists trace, resolves heap o trace o'.
Proof.
  revert o. induction fuel as [|fuel IH]; intros o; simpl; [done|].
  destruct o as [r|]; [|intros [= <-]; eexists; constructor].
  destruct (heap !! r) as [v|] eqn:Hv; cbn [some_or_ub mbind res_bind]; [|done].
  destruct (decide (val_kind v = KProxy)) as [(id & p & Hd)%val_kind_proxy|Hk].
  - rewrite Hd. intros (trace & Ht)%IH. eexists. by eapply resolves_proxy.
  - intros H. exists [r]. replace o' with (Some r); [by eapply resolves_value|].
    destruct (val_data v) eqn:E; try congruence.
    destruct Hk. apply val_kind_proxy; eauto.
Qed.

(** [resolve_proxy] ends exactly when the chain of proxies does, and then returns
    the first object that is no proxy (or null): the bound on the number of
    iterations never cuts a finite chain short. *)
Theorem resolve_proxy_spec heap o o' :
  resolve_proxy_in heap o = Ok o' <-> exists trace, resolves heap o trace o'.
Proof.
  split; [apply resolve_proxy_loop_sound|].
  intros (trace & H). eapply resolve_proxy_loop_complete; [done|].
  apply resolves_length in H. lia.
Qed.

(** * The integer accessors *)

Lemma land_mask w v : 0 <= w -> Z.land v (Z.shiftl 1 w - 1) = v mod 2 ^ w.
Proof.
  intros Hw. rewrite Z.shiftl_mul_pow2, Z.mul_1_l by done.
  rewrite <- Z.land_ones by done. by rewrite Z.ones_equiv, <- Z.sub_1_r.
Qed.

Lemma sign_bit_spec w v : 0 < w ->
  (Z.land (Z.shiftr v (w - 1)) 1 =? 0) = negb (2 ^ (w - 1) <=? v mod 2 ^ w).
Proof.
  intros Hw. replace (Z.land (Z.shiftr v (w - 1)) 1) with (v / 2 ^ (w - 1) mod 2).
  2:{ rewrite Z.shiftr_div_pow2 by lia. symmetry. exact (Z.land_ones _ 1 ltac:(lia)). }
  replace (2 ^ w) with (2 ^ (w - 1) * 2)
    by (rewrite Z.mul_comm, <- Z.pow_succ_r by lia; f_equal; lia).
  pose proof (Z.pow_pos_nonneg 2 (w - 1) ltac:(lia) ltac:(lia)) as Hp.
  rewrite Z.rem_mul_r by lia.
  pose proof (Z.mod_pos_bound v (2 ^ (w - 1)) Hp).
  pose proof (Z.mod_pos_bound (v / 2 ^ (w - 1)) 2 ltac:(lia)).
  bool_case; simpl; nia.
Qed.

(** Sign extension by filling the high bits is subtraction of [2^w]. *)
Lemma lor_extend w m : 0 < w < 64 -> 0 <= m < 2 ^ w ->
  s64 (Z.lor m (u64 (Z.lnot (Z.shiftl 1 w - 1)))) = s64 (m - 2 ^ w).
Proof.
  intros Hw Hm. unfold s64, signed, u64, wrap.
  assert (Z.lor m (Z.lnot (Z.shiftl 1 w - 1) mod 2 ^ 64) mod 2 ^ 64 = (m - 2 ^ w) mod 2 ^ 64) as ->;
    [|done].
  rewrite Z.shiftl_mul_pow2, Z.mul_1_l by lia.
  replace (2 ^ w - 1) with (Z.ones w) by (rewrite Z.ones_equiv; lia).
  rewrite <- !Z.land_ones by lia.
  assert (m - 2 ^ w = Z.lor m (Z.lnot (Z.ones w))) as ->.
  { assert (Z.land m (Z.lnot (Z.ones w)) = 0) as Hd.
    { replace m with (Z.land m (Z.ones w)).
      - by rewrite <- Z.land_assoc, Z.land_lnot_diag, Z.land_0_r.
      - rewrite Z.land_ones by lia. by apply Z.mod_small. }
    rewrite <- Z.lxor_lor, <- Z.add_nocarry_lxor by done.
    unfold Z.lnot. rewrite Z.ones_equiv. lia. }
  by rewrite !Z.land_lor_distr_l, <- Z.land_assoc, Z.land_diag.
Qed.

Lemma signed_small w v : 0 < w <= 64 -> s64 (signed w v) = signed w v.
Proof.
  intros Hw. assert (- 2 ^ 63 <= signed w v < 2 ^ 63) as Hr.
  { unfold signed. pose proof (wrap_range w v ltac:(lia)).
    pose proof (Z.pow_le_mono_r 2 (w - 1) 63 ltac:(lia) ltac:(lia)).
    assert (2 ^ w = 2 * 2 ^ (w - 1)) by (rewrite <- Z.pow_succ_r by lia; f_equal; lia).
    bool_case; lia. }
  unfold s64. unfold signed at 1, wrap.
  change (64 - 1) with 63. destruct (Z.le_gt_cases 0 (signed w v)).
  - rewrite (Z.mod_small (signed w v)) by lia. bool_case; lia.
  - rewrite <- (Z_mod_plus_full (signed w v) 1), Z.mod_small by lia. bool_case; lia.
Qed.

(** The two readings of a raw value. *)
Lemma extension_values width value :
  0 < width <= 64 -> 0 <= value < 2 ^ 64 ->
  sext_value width value = Ok (signed width value) /\ zext_value width value = Ok (wrap width value).
Proof.
  intros Hw Hv. unfold sext_value, zext_value. destruct (Z.eqb_spec width 64) as [->|Hne].
  - split; [done|by rewrite wrap_small].
  - assert ((0 <? width) && (width <? 64) = true) as -> by (bool_case; [done|lia..]).
    assert ((width <? 64) = true) as -> by (bool_case; [done|lia]).
    cbn [assert_res mbind res_bind]. rewrite land_mask, sign_bit_spec by lia.
    split; [|done]. f_equal. rewrite negb_involutive. fold (wrap width value).
    transitivity (s64 (signed width value)); [|apply signed_small; lia]. unfold signed.
    destruct (2 ^ (width - 1) <=? wrap width value) eqn:E.
    + apply lor_extend; [lia|]. apply wrap_range. lia.
    + by rewrite Z.lor_0_r.
Qed.

(** C39. [APInt::getSExtValue] and [getZExtValue] read the low [width] bits of the raw
    value as a two's complement, respectively unsigned, number, for every width an
    [IntegerType] may have; width 0 (accepted by the type table) has no defined
    sign-extended value. *)
Theorem APInt_extension_spec width value :
  0 < width <= 64 -> 0 <= value < 2 ^ 64 ->
  sext_value width value = Ok (signed width value) /\
  zext_value width value = Ok (wrap width value) /\
  sext_value 0 value = UB.
Proof. intros Hw Hv. destruct (extension_values width value Hw Hv). by split_and!. Qed.

Lemma APInt_extension_spec_witness :
  sext_value 16 65535 = Ok (signed 16 65535) /\ zext_value 16 65535 = Ok (wrap 16 65535) /\
  sext_value 0 65535 = UB.
Proof. apply (APInt_extension_spec 16 65535); lia. Defined.
