(* ===== verification/ModuleContext.v ===== *)
(** The parse context of the bitcode module reader, bc/module.cpp (first part): the
    record kinds, the state threaded through all block handlers
    ([ModuleParseContext] and [Module]), value and type lookup with forward
    references, and the registration of values and instructions.

    The handlers work on the tree of blocks and records that the vendored bitcode
    reader (third_party/bc-decoder) produces; the tree is their input.  A handler
    that returns [bool] is a computation that [Fail]s when the code returns
    false, except where a caller goes on after false. *)
From S2P Require Import Prelude.
From S2P Require Import LLVMType.
From S2P Require Import LLVMValue.
Local Open Scope Z_scope.

(** * The input *)

(** [BlockOrRecord]: [blockDwordLength] is zero for records.  The record [ops] are
    64-bit numbers; their count is below [2^32]. *)
#[warnings="-register-all"]
Inductive BlockOrRecord :=
  mkEntry (id blockDwordLength : Z) (children : list BlockOrRecord) (ops : list Z).

Definition entry_id (e : BlockOrRecord) : Z := let '(mkEntry i _ _ _) := e in i.
Definition entry_children (e : BlockOrRecord) : list BlockOrRecord :=
  let '(mkEntry _ _ c _) := e in c.
Definition entry_ops (e : BlockOrRecord) : list Z := let '(mkEntry _ _ _ o) := e in o.
Definition IsBlock (e : BlockOrRecord) : bool := let '(mkEntry _ l _ _) := e in 0 <? l.
Definition IsRecord (e : BlockOrRecord) : bool := let '(mkEntry _ l _ _) := e in l =? 0.

(** [getString(startOffset)]: one character per operand.  The size computation wraps
    when there are fewer operands than [startOffset]. *)
Definition getString (e : BlockOrRecord) (startOffset : Z) : res String_ :=
  _ ← assert_res (startOffset <=? zlength (entry_ops e));
  Ok (wrap 8 <$> drop (Z.to_nat startOffset) (entry_ops e)).

(** * Record and block kinds *)

Inductive KnownBlocks :=
| BLOCKINFO | MODULE_BLOCK | PARAMATTR_BLOCK | PARAMATTR_GROUP_BLOCK | CONSTANTS_BLOCK
| FUNCTION_BLOCK | TYPE_SYMTAB_BLOCK | VALUE_SYMTAB_BLOCK | METADATA_BLOCK
| METADATA_ATTACHMENT | TYPE_BLOCK.

#[export] Instance KnownBlocks_eq_dec : EqDecision KnownBlocks.
Proof. solve_decision. Defined.

Definition KnownBlocks_of (id : Z) : option KnownBlocks :=
  match id with
  | 0 => Some BLOCKINFO | 8 => Some MODULE_BLOCK | 9 => Some PARAMATTR_BLOCK
  | 10 => Some PARAMATTR_GROUP_BLOCK | 11 => Some CONSTANTS_BLOCK | 12 => Some FUNCTION_BLOCK
  | 13 => Some TYPE_SYMTAB_BLOCK | 14 => Some VALUE_SYMTAB_BLOCK | 15 => Some METADATA_BLOCK
  | 16 => Some METADATA_ATTACHMENT | 17 => Some TYPE_BLOCK | _ => None
  end.

(** Attribute kinds with an integer argument the group reader skips, and [BY_VAL]. *)
Definition AttributeRecord_BY_VAL : Z := 3.
Definition AttributeRecord_has_int (v : Z) : bool :=
  (* ALIGNMENT, STACK_ALIGNMENT, ALLOC_SIZE, DEREFERENCEABLE, DEREFERENCEABLE_OR_NULL *)
  (v =? 1) || (v =? 25) || (v =? 51) || (v =? 41) || (v =? 42).

Inductive ModuleRecord := MR_VERSION | MR_TRIPLE | MR_DATALAYOUT | MR_GLOBAL_VARIABLE | MR_FUNCTION.

Definition ModuleRecord_of (id : Z) : option ModuleRecord :=
  match id with
  | 1 => Some MR_VERSION | 2 => Some MR_TRIPLE | 3 => Some MR_DATALAYOUT
  | 7 => Some MR_GLOBAL_VARIABLE | 8 => Some MR_FUNCTION | _ => None
  end.

Inductive ConstantsRecord :=
| SETTYPE | CONST_NULL | UNDEF | INTEGER | WIDE_INTEGER | FLOAT | AGGREGATE | STRING | BINOP
| CE_CAST | GEP | INBOUNDS_GEP | DATA | GEP_WITH_INRANGE_INDEX.

Definition ConstantsRecord_of (id : Z) : option ConstantsRecord :=
  match id with
  | 1 => Some SETTYPE | 2 => Some CONST_NULL | 3 => Some UNDEF | 4 => Some INTEGER
  | 5 => Some WIDE_INTEGER | 6 => Some FLOAT | 7 => Some AGGREGATE | 8 => Some STRING
  | 10 => Some BINOP | 11 => Some CE_CAST | 12 => Some GEP | 20 => Some INBOUNDS_GEP
  | 22 => Some DATA | 24 => Some GEP_WITH_INRANGE_INDEX | _ => None
  end.

(** The function records that have a handler; all others are rejected. *)
Inductive FunctionRecord :=
| DECLAREBLOCKS | INST_BINOP | INST_CAST | INST_SELECT | INST_EXTRACTELT | INST_INSERTELT
| INST_SHUFFLEVEC | INST_CMP | INST_RET | INST_BR | INST_SWITCH | INST_UNREACHABLE | INST_PHI
| INST_ALLOCA | INST_LOAD | INST_EXTRACTVAL | INST_CMP2 | INST_VSELECT | INST_CALL
| INST_ATOMICRMW | INST_GEP | INST_STORE | INST_CMPXCHG | INST_UNOP.

Definition FunctionRecord_of (id : Z) : option FunctionRecord :=
  match id with
  | 1 => Some DECLAREBLOCKS | 2 => Some INST_BINOP | 3 => Some INST_CAST | 5 => Some INST_SELECT
  | 6 => Some INST_EXTRACTELT | 7 => Some INST_INSERTELT | 8 => Some INST_SHUFFLEVEC
  | 9 => Some INST_CMP | 10 => Some INST_RET | 11 => Some INST_BR | 12 => Some INST_SWITCH
  | 15 => Some INST_UNREACHABLE | 16 => Some INST_PHI | 19 => Some INST_ALLOCA
  | 20 => Some INST_LOAD | 26 => Some INST_EXTRACTVAL | 28 => Some INST_CMP2
  | 29 => Some INST_VSELECT | 34 => Some INST_CALL | 38 => Some INST_ATOMICRMW
  | 43 => Some INST_GEP | 44 => Some INST_STORE | 46 => Some INST_CMPXCHG | 56 => Some INST_UNOP
  | _ => None
  end.

Definition ValueSymtabRecord_ENTRY : Z := 1.

(** The metadata records that have a handler; the others are skipped. *)
Inductive MetaDataRecord :=
| STRING_OLD | MD_VALUE | MD_NODE | MD_NAME | DISTINCT_NODE | MD_KIND | NAMED_NODE | ATTACHMENT.

Definition MetaDataRecord_of (id : Z) : option MetaDataRecord :=
  match id with
  | 1 => Some STRING_OLD | 2 => Some MD_VALUE | 3 => Some MD_NODE | 4 => Some MD_NAME
  | 5 => Some DISTINCT_NODE | 6 => Some MD_KIND | 10 => Some NAMED_NODE | 11 => Some ATTACHMENT
  | _ => None
  end.

Definition AttributeCodes_CodeEntry : Z := 2.
Definition AttributeCodes_GroupCodeEntry : Z := 3.

Inductive TypeRecord :=
| NUMENTRY | VOID_TYPE | TR_FLOAT | TR_DOUBLE | LABEL | OPAQUE_TYPE | TR_INTEGER | POINTER
| FUNCTION_OLD | HALF | ARRAY | VECTOR | METADATA | STRUCT_ANON | STRUCT_NAME | STRUCT_NAMED
| TR_FUNCTION | TOKEN.

Definition TypeRecord_of (id : Z) : option TypeRecord :=
  match id with
  | 1 => Some NUMENTRY | 2 => Some VOID_TYPE | 3 => Some TR_FLOAT | 4 => Some TR_DOUBLE
  | 5 => Some LABEL | 6 => Some OPAQUE_TYPE | 7 => Some TR_INTEGER | 8 => Some POINTER
  | 9 => Some FUNCTION_OLD | 10 => Some HALF | 11 => Some ARRAY | 12 => Some VECTOR
  | 16 => Some METADATA | 18 => Some STRUCT_ANON | 19 => Some STRUCT_NAME
  | 20 => Some STRUCT_NAMED | 21 => Some TR_FUNCTION | 22 => Some TOKEN | _ => None
  end.

(** [enum class BinOp]: the numbers used in records. *)
Inductive BinOp :=
| B_ADD | B_SUB | B_MUL | B_UDIV | B_SDIV | B_UREM | B_SREM | B_SHL | B_LSHR | B_ASHR | B_AND
| B_OR | B_XOR.

Definition BinOp_of (v : Z) : option BinOp :=
  match v with
  | 0 => Some B_ADD | 1 => Some B_SUB | 2 => Some B_MUL | 3 => Some B_UDIV | 4 => Some B_SDIV
  | 5 => Some B_UREM | 6 => Some B_SREM | 7 => Some B_SHL | 8 => Some B_LSHR | 9 => Some B_ASHR
  | 10 => Some B_AND | 11 => Some B_OR | 12 => Some B_XOR | _ => None
  end.

Definition CALL_EXPLICIT_TYPE_BIT : Z := Z.shiftl 1 15.
Definition CALL_FMF_BIT : Z := Z.shiftl 1 17.
Definition FAST_MATH_UNSAFE_ALGEBRA_BIT : Z := Z.shiftl 1 0.
Definition FAST_MATH_ALLOW_CONTRACT_BIT : Z := Z.shiftl 1 5.

(** Sign-rotated numbers: the sign is bit 0; [1] stands for the smallest number. *)
Definition decode_sign_rotated_value (v : Z) : Z :=
  let sign := negb (Z.land v 1 =? 0) in
  let v := Z.shiftr v 1 in
  if sign then (if v =? 0 then - 2 ^ 63 else s64 (- v)) else s64 v.

(** * The state *)

(** [class Module]; the map of named metadata is keyed by name. *)
Record Module_ := mkModule {
  functions : list vref;
  globals : list vref;
  value_symtab : gmap Z String_;
  named_metadata : gmap String_ mdref;
  unnamed_metadata : list mdref;
}.

(** The members of [ModuleParseContext], in groups that are updated together:
    the tables, the function being read, and the metadata and attributes. *)
Record Tables := mkTables {
  values : list vref;
  types : list tyref;
  constant_type : option tyref;
  current_struct_name : String_;
  functions_with_bodies : list vref;
  tween_id : Z;
}.

Record Body := mkBody {
  function : option vref;
  basic_blocks : list vref;
  instructions : list vref;
  current_bb : option vref;
  basic_block_index : Z;
}.

Record Meta := mkMeta {
  metadata : gmap Z mdref;
  metadata_kind_map : gmap Z String_;
  attribute_lists : list (list (String_ * String_));
  attribute_groups : gmap Z (list (String_ * String_));
  current_metadata_name : String_;
  metadata_tween_id : Z;
}.

Record ModuleParseContext := mkCtx {
  context : VState;
  module : Module_;
  tables : Tables;
  body : Body;
  meta : Meta;
  pending_forward_references : list vref;
  global_initializations : list (vref * Z);
  use_relative_id : bool;
  use_strtab : bool;
  seen_first_function_body : bool;
}.

Definition Module_new : Module_ := mkModule [] [] ∅ ∅ [].

Definition ModuleParseContext_new : ModuleParseContext :=
  mkCtx VState_new Module_new (mkTables [] [] None [] [] 1) (mkBody None [] [] None 0)
        (mkMeta ∅ ∅ [] ∅ [] 1) [] [] true false false.

Definition P (A : Type) : Type := M ModuleParseContext A.
#[global] Typeclasses Transparent P.

(** Part-wise updates. *)
Definition on_context {A} (m : M VState A) : P A :=
  zoom context (fun c s => mkCtx c (module s) (tables s) (body s) (meta s)
    (pending_forward_references s) (global_initializations s) (use_relative_id s)
    (use_strtab s) (seen_first_function_body s)) m.
Definition on_module (f : Module_ -> Module_) : P unit :=
  modify (fun s => mkCtx (context s) (f (module s)) (tables s) (body s) (meta s)
    (pending_forward_references s) (global_initializations s) (use_relative_id s)
    (use_strtab s) (seen_first_function_body s)).
Definition on_tables (f : Tables -> Tables) : P unit :=
  modify (fun s => mkCtx (context s) (module s) (f (tables s)) (body s) (meta s)
    (pending_forward_references s) (global_initializations s) (use_relative_id s)
    (use_strtab s) (seen_first_function_body s)).
Definition on_body (f : Body -> Body) : P unit :=
  modify (fun s => mkCtx (context s) (module s) (tables s) (f (body s)) (meta s)
    (pending_forward_references s) (global_initializations s) (use_relative_id s)
    (use_strtab s) (seen_first_function_body s)).
Definition on_meta (f : Meta -> Meta) : P unit :=
  modify (fun s => mkCtx (context s) (module s) (tables s) (body s) (f (meta s))
    (pending_forward_references s) (global_initializations s) (use_relative_id s)
    (use_strtab s) (seen_first_function_body s)).
Definition set_pending (l : list vref) : P unit :=
  modify (fun s => mkCtx (context s) (module s) (tables s) (body s) (meta s) l
    (global_initializations s) (use_relative_id s) (use_strtab s) (seen_first_function_body s)).
Definition set_initializations (l : list (vref * Z)) : P unit :=
  modify (fun s => mkCtx (context s) (module s) (tables s) (body s) (meta s)
    (pending_forward_references s) l (use_relative_id s) (use_strtab s)
    (seen_first_function_body s)).
Definition set_flags (relative strtab seen : bool) : P unit :=
  modify (fun s => mkCtx (context s) (module s) (tables s) (body s) (meta s)
    (pending_forward_references s) (global_initializations s) relative strtab seen).

Definition on_ctypes {A} (m : M TypeState A) : P A := on_context (on_types m).

Definition set_values (l : list vref) : P unit :=
  on_tables (fun t => mkTables l (types t) (constant_type t) (current_struct_name t)
                               (functions_with_bodies t) (tween_id t)).
Definition push_value (r : vref) : P unit :=
  on_tables (fun t => mkTables (values t ++ [r]) (types t) (constant_type t)
                               (current_struct_name t) (functions_with_bodies t) (tween_id t)).
(** [tween_id++] *)
Definition next_tween_id : P Z :=
  id ← gets (fun s => tween_id (tables s));
  _ ← on_tables (fun t => mkTables (values t) (types t) (constant_type t)
                          (current_struct_name t) (functions_with_bodies t) (u64 (tween_id t + 1)));
  mret id.
Definition set_constant_type (o : option tyref) : P unit :=
  on_tables (fun t => mkTables (values t) (types t) o (current_struct_name t)
                               (functions_with_bodies t) (tween_id t)).

(** * Lookups *)

Definition get_type (index : Z) : P (option tyref) :=
  gets (fun s => zlookup (types (tables s)) index).

Definition add_type (ty : tyref) : P unit :=
  on_tables (fun t => mkTables (values t) (types t ++ [ty]) (constant_type t)
                               (current_struct_name t) (functions_with_bodies t) (tween_id t)).

Definition get_constant_type : P tyref :=
  o ← gets (fun s => constant_type (tables s));
  match o with
  | Some ty => mret ty
  | None => on_ctypes Type_getInt32Ty
  end.

Definition get_basic_block (index : Z) : P (option vref) :=
  gets (fun s => zlookup (basic_blocks (body s)) index).

Definition get_instruction (index : Z) : P (option vref) :=
  gets (fun s => zlookup (instructions (body s)) index).

(** A fresh proxy for value number [id], remembered for the end of the function. *)
Definition new_forward_reference (ty : option tyref) (id : Z) : P vref :=
  r ← on_context (construct_value (plain_value ty (ValueProxy id None)));
  l ← gets pending_forward_references;
  _ ← set_pending (l ++ [r]);
  mret r.

(** An expected pointer-to-function type also matches a function value. *)
Definition strip_function_pointer (expected : option tyref) : P (option tyref) :=
  match expected with
  | None => mret None
  | Some e =>
      t ← on_ctypes (type_at e);
      match t with
      | PointerType pointee _ =>
          pt ← on_ctypes (type_at pointee);
          mret (if type_isa FunctionTyID pt then Some pointee else Some e)
      | _ => mret (Some e)
      end
  end.

(** [get_value(op, expected_type, force_absolute)]: null on a type mismatch, and for a
    forward reference without an expected type. *)
Definition get_value (op : Z) (expected_type : option tyref) (force_absolute : bool)
    : P (option vref) :=
  vals ← gets (fun s => values (tables s));
  relative ← gets use_relative_id;
  let op := if negb force_absolute && relative then u32 (zlength vals - op) else op in
  if zlength vals <=? op then
    match expected_type with
    | None => mret None
    | Some _ => r ← new_forward_reference expected_type op; mret (Some r)
    end
  else
    expected ← strip_function_pointer expected_type;
    r ← derefM (zlookup vals op);
    ty ← on_context (Value_getType r);
    match expected with
    | Some _ => mret (if bool_decide (expected = ty) then Some r else None)
    | None => mret (Some r)
    end.

(** [get_value(ops, index, expected_type)]; the new index is part of the result. *)
Definition get_value_at (ops : list Z) (index : Z) (expected_type : option tyref)
    : P (option vref * Z) :=
  match zlookup ops index with
  | None => mret (None, index)
  | Some op => r ← get_value op expected_type false; mret (r, index + 1)
  end.

(** [get_value_and_type]: a forward reference is followed by its type. *)
Definition get_value_and_type (ops : list Z) (index : Z)
    : P (option vref * option tyref * Z) :=
  match zlookup ops index with
  | None => mret (None, None, index)
  | Some op =>
      vals ← gets (fun s => values (tables s));
      relative ← gets use_relative_id;
      let op := if (relative : bool) then u32 (zlength vals - op) else op in
      if op <? zlength vals then
        r ← derefM (zlookup vals op);
        ty ← on_context (Value_getType r);
        mret (Some r, ty, index + 1)
      else
        match zlookup ops (index + 1) with
        | None => mret (None, None, index + 1)
        | Some tyop =>
            ty ← get_type tyop;
            r ← new_forward_reference ty op;
            mret (Some r, ty, index + 2)
        end
  end.

(** [get_value_signed]: no type check on a backward reference. *)
Definition get_value_signed (op : Z) (expected_type : option tyref) : P (option vref) :=
  vals ← gets (fun s => values (tables s));
  relative ← gets use_relative_id;
  let signed_op := decode_sign_rotated_value op in
  let op := u64 (if (relative : bool) then zlength vals - signed_op else signed_op) in
  if zlength vals <=? op then
    match expected_type with
    | None => mret None
    | Some _ => r ← new_forward_reference expected_type op; mret (Some r)
    end
  else r ← derefM (zlookup vals op); mret (Some r).

(** A missing node is a fresh null-like operand. *)
Definition get_metadata (index : Z) : P mdref :=
  o ← gets (fun s => metadata (meta s) !! index);
  match o with
  | Some m => mret m
  | None => on_context (construct_md MDOperandNone)
  end.

(** [c_str()] of the kind name: it ends at the first NUL. *)
Fixpoint c_str (s : String_) : String_ :=
  match s with
  | [] => []
  | c :: s' => if c =? 0 then [] else c :: c_str s'
  end.

Definition get_metadata_kind_name (index : Z) : P (option String_) :=
  gets (fun s => c_str <$> metadata_kind_map (meta s) !! index).

(** * Registration *)

Definition add_value (r : vref) : P unit :=
  ty ← on_context (Value_getType r);
  t ← on_context (deref_type ty);
  if type_isa VoidTyID t then mret tt
  else
    id ← next_tween_id;
    _ ← on_context (set_tween_id r id);
    push_value r.

Definition set_current_bb (o : option vref) (index : Z) : P unit :=
  on_body (fun b => mkBody (function b) (basic_blocks b) (instructions b) o index).

Definition finish_basic_block : P unit :=
  b ← gets body;
  let index := u32 (basic_block_index b + 1) in
  match zlookup (basic_blocks b) index with
  | None => set_current_bb None index
  | Some bb =>
      _ ← set_current_bb (Some bb) index;
      id ← next_tween_id;
      on_context (set_tween_id bb id)
  end.

(** [add_successor] fails without a current block. *)
Definition add_successor (bb : vref) : P unit :=
  o ← gets (fun s => current_bb (body s));
  cur ← checkM o;
  on_context (BasicBlock_add_successor cur bb).

Definition push_instruction (inst : vref) : P unit :=
  on_body (fun b => mkBody (function b) (basic_blocks b) (instructions b ++ [inst])
                           (current_bb b) (basic_block_index b)).

(** [add_instruction] as it is: its result is a [bool], and the instruction is
    recorded even when there is no current block. *)
Definition add_instruction_result (inst : vref) : P bool :=
  _ ← push_instruction inst;
  o ← gets (fun s => current_bb (body s));
  match o with
  | None => mret false
  | Some cur =>
      _ ← on_context (BasicBlock_add_instruction cur inst);
      term ← on_context (Instruction_isTerminator inst);
      _ ← (if (term : bool) then finish_basic_block else add_value inst);
      mret true
  end.

(** [if (!add_instruction(value)) return false;] *)
Definition add_instruction (inst : vref) : P unit :=
  ok ← add_instruction_result inst; guardM ok.

(** * Translations *)

Definition translate_binop (op : option BinOp) (ty : option tyref) : P BinaryOps :=
  t ← on_context (deref_type ty);
  t ← match t with
      | VectorType _ e => on_ctypes (type_at e)
      | _ => mret t
      end;
  let is_fp := Type_isFloatingPointTy t in
  mret (match op with
        | Some B_ADD => if is_fp then FAdd else Add
        | Some B_SUB => if is_fp then FSub else Sub
        | Some B_MUL => if is_fp then FMul else Mul
        | Some B_UDIV => if is_fp then InvalidBinaryOp else UDiv
        | Some B_SDIV => if is_fp then FDiv else SDiv
        | Some B_UREM => if is_fp then InvalidBinaryOp else URem
        | Some B_SREM => if is_fp then FRem else SRem
        | Some B_SHL => if is_fp then InvalidBinaryOp else Shl
        | Some B_LSHR => if is_fp then InvalidBinaryOp else LShr
        | Some B_ASHR => if is_fp then InvalidBinaryOp else AShr
        | Some B_AND => if is_fp then InvalidBinaryOp else And
        | Some B_OR => if is_fp then InvalidBinaryOp else Or
        | Some B_XOR => if is_fp then InvalidBinaryOp else Xor
        | None => InvalidBinaryOp
        end).

Definition translate_castop (op : Z) : CastOps :=
  match op with
  | 0 => Trunc | 1 => ZExt | 2 => SExt | 3 => FPToUI | 4 => FPToSI | 5 => UIToFP | 6 => SIToFP
  | 7 => FPTrunc | 8 => FPExt | 9 => PtrToInt | 10 => IntToPtr | 11 => BitCast
  | 12 => AddrSpaceCast | _ => InvalidCastOp
  end.

Definition translate_uop (op : Z) (ty : option tyref) : P UnaryOps :=
  t ← on_context (deref_type ty);
  mret (if (op =? 0) && Type_isFloatingPointTy t then UFNeg else UInvalid).

Definition translate_atomic_binop (op : Z) : RMWBinOp :=
  match op with
  | 0 => RMWXchg | 1 => RMWAdd | 2 => RMWSub | 3 => RMWAnd | 4 => RMWNand | 5 => RMWOr
  | 6 => RMWXor | 7 => RMWMax | 8 => RMWMin | 9 => RMWUMax | 10 => RMWUMin | 11 => RMWFAdd
  | 12 => RMWFSub | _ => RMWInvalid
  end.

(** The type a chain of [getelementptr] indices selects; the first two arguments are
    the pointer and the index that steps over it. *)
Fixpoint resolve_gep_path (ty : option tyref) (args : list (option vref)) : P (option tyref) :=
  match args with
  | [] => mret ty
  | arg :: rest =>
      t ← on_context (deref_type ty);
      match t with
      | StructType members _ =>
          const_int ← on_context (dyn_cast (kind_is KConstantInt) arg);
          match const_int with
          | None => mret None
          | Some c =>
              a ← on_context (Constant_getUniqueInteger c);
              x ← on_context (APInt_getZExtValue a);
              let index := u32 x in
              if zlength members <=? index then mret None
              else m ← derefM (zlookup members index); resolve_gep_path m rest
          end
      | ArrayType e _ => resolve_gep_path (Some e) rest
      | VectorType _ e => resolve_gep_path (Some e) rest
      | _ => mret None
      end
  end.

Definition resolve_gep_element_type (ty : option tyref) (args : list (option vref))
    : P (option tyref) :=
  resolve_gep_path ty (drop 2 args).
