(* ===== verification/ModuleConstants.v ===== *)
(** The constants blocks of bc/module.cpp: [parse_constants_record], one definition
    per record kind, and [parse_constants_block]. *)
From S2P Require Import Prelude.
From S2P Require Import LLVMType.
From S2P Require Import LLVMValue.
From S2P Require Import ModuleContext.
Local Open Scope Z_scope.

(** [construct<T>(get_constant_type(), ...)] of a constant, and its registration. *)
Definition push_constant (ty : tyref) (d : ValueData) : P unit :=
  r ← on_context (construct_value (plain_value (Some ty) d)); push_value r.

Definition parse_settype (ops : list Z) : P unit :=
  op ← checkM (zlookup ops 0);
  ty ← get_type op;
  set_constant_type ty.

Definition parse_const_null : P unit :=
  ty ← get_constant_type;
  t ← on_ctypes (type_at ty);
  if Type_isIntegerTy t then r ← on_context (ConstantInt_get (Some ty) 0); push_value r
  else if Type_isFloatingPointTy t then
    r ← on_context (ConstantFP_get (Some ty) 0); push_value r
  else if type_isa ArrayTyID t || type_isa StructTyID t || type_isa VectorTyID t then
    push_constant ty ConstantAggregateZero
  else if type_isa PointerTyID t then push_constant ty ConstantPointerNull
  else failM.

Definition parse_undef : P unit :=
  ty ← get_constant_type;
  r ← on_context (UndefValue_get (Some ty)); push_value r.

Definition parse_integer (ops : list Z) : P unit :=
  literal ← checkM (zlookup ops 0);
  ty ← get_constant_type;
  t ← on_ctypes (type_at ty);
  _ ← guardM (Type_isIntegerTy t);
  r ← on_context (ConstantInt_get (Some ty) (u64 (decode_sign_rotated_value literal)));
  push_value r.

Definition parse_float (ops : list Z) : P unit :=
  literal ← checkM (zlookup ops 0);
  ty ← get_constant_type;
  t ← on_ctypes (type_at ty);
  _ ← guardM (Type_isFloatingPointTy t);
  r ← on_context (ConstantFP_get (Some ty) literal);
  push_value r.

(** The elements are absolute value numbers; one whose type does not match is stored
    as null. *)
Definition parse_aggregate (ops : list Z) : P unit :=
  ty ← get_constant_type;
  t ← on_ctypes (type_at ty);
  match t with
  | StructType members _ =>
      _ ← guardM (zlength ops =? zlength members);
      constants ← mapM_list (fun '(op, member) => get_value op member true) (zip ops members);
      push_constant ty (ConstantAggregate constants)
  | ArrayType e _ | VectorType _ e =>
      constants ← mapM_list (fun op => get_value op (Some e) true) ops;
      push_constant ty (ConstantAggregate constants)
  | _ => r ← on_context (UndefValue_get (Some ty)); push_value r
  end.

(** The operands are read without checking that they are there. *)
Definition parse_binop_constant (ops : list Z) : P unit :=
  ty ← get_constant_type;
  o ← derefM (zlookup ops 0);
  op ← translate_binop (BinOp_of (u32 o)) (Some ty);
  o1 ← derefM (zlookup ops 1);
  a ← get_value o1 (Some ty) true;
  o2 ← derefM (zlookup ops 2);
  b ← get_value o2 (Some ty) true;
  push_constant ty (ConstantExpr (BinaryOps_value op) [a; b]).

Definition parse_ce_cast (ops : list Z) : P unit :=
  o ← derefM (zlookup ops 0);
  let op := translate_castop (u32 o) in
  ty ← get_constant_type;
  o1 ← derefM (zlookup ops 1);
  input_type ← get_type o1;
  input_value_type ← checkM input_type;
  o2 ← derefM (zlookup ops 2);
  input_value ← get_value o2 (Some input_value_type) true;
  push_constant ty (ConstantExpr (CastOps_value op) [input_value]).

(** [Some (element type, is a vector)] *)
Definition data_element_type (t : Type_) : option (tyref * bool) :=
  match t with
  | ArrayType e _ => Some (e, false)
  | VectorType _ e => Some (e, true)
  | _ => None
  end.

Definition parse_data (ops : list Z) : P unit :=
  ty ← get_constant_type;
  t ← on_ctypes (type_at ty);
  found ← checkM (data_element_type t);
  let '(element_type, is_vector) := found in
  et ← on_ctypes (type_at element_type);
  constants ←
    (if Type_isFloatingPointTy et then
       mapM_list (fun op => r ← on_context (ConstantFP_get (Some element_type) op); mret (Some r)) ops
     else if Type_isIntegerTy et then
       mapM_list (fun op => r ← on_context (ConstantInt_get (Some element_type) op); mret (Some r)) ops
     else failM);
  push_constant ty (if (is_vector : bool) then ConstantDataVector constants
                    else ConstantDataArray constants).

(** The (type, value) pairs of a constant [getelementptr]; a type without a value is
    an access past the record. *)
Fixpoint parse_gep_elements (ops : list Z) : P (list (option vref)) :=
  match ops with
  | [] => mret []
  | [_] => ubM
  | o1 :: o2 :: rest =>
      ty ← get_type o1;
      value ← get_value o2 ty true;
      elements ← parse_gep_elements rest;
      mret (value :: elements)
  end.

Definition parse_gep_constant (id : ConstantsRecord) (ops : list Z) : P unit :=
  _ ← guardM (2 <=? zlength ops);
  let with_range := match id with GEP_WITH_INRANGE_INDEX => true | _ => false end in
  let has_type := with_range || negb (Z.land (zlength ops) 1 =? 0) in
  pointee_type ← (if has_type then o ← derefM (zlookup ops 0); get_type o else mret None);
  let index := (if has_type then 1 else 0) + (if with_range then 1 else 0) in
  elements ← parse_gep_elements (drop (Z.to_nat index) ops);
  _ ← guardM (2 <=? zlength elements);
  e0 ← derefM (zlookup elements 0);
  pointee_type ← (match pointee_type with
                  | Some ty => mret (Some ty)
                  | None =>
                      r ← derefM e0;
                      ty ← on_context (Value_getType r);
                      t ← on_context (deref_type ty);
                      e ← lift (Type_getPointerElementType t);
                      mret (Some e)
                  end);
  resolved ← resolve_gep_element_type pointee_type elements;
  element ← checkM resolved;
  r ← derefM e0;
  ty ← on_context (Value_getType r);
  t ← on_context (deref_type ty);
  _ ← lift (PointerType_getElementType t);
  ptr_type ← on_ctypes (PointerType_get element (Type_getAddressSpace t));
  push_constant ptr_type (ConstantExpr GEPOps_GetElementPtr elements).

Definition parse_constants_record (entry : BlockOrRecord) : P unit :=
  if IsBlock entry then mret tt
  else
    let ops := entry_ops entry in
    match ConstantsRecord_of (entry_id entry) with
    | Some SETTYPE => parse_settype ops
    | Some CONST_NULL => parse_const_null
    | Some UNDEF => parse_undef
    | Some INTEGER => parse_integer ops
    | Some WIDE_INTEGER => failM
    | Some FLOAT => parse_float ops
    | Some AGGREGATE => parse_aggregate ops
    | Some STRING => failM
    | Some BINOP => parse_binop_constant ops
    | Some CE_CAST => parse_ce_cast ops
    | Some DATA => parse_data ops
    | Some (GEP as id) | Some (INBOUNDS_GEP as id) | Some (GEP_WITH_INRANGE_INDEX as id) =>
        parse_gep_constant id ops
    | None => failM
    end.

Definition parse_constants_block (entry : BlockOrRecord) : P unit :=
  _ ← set_constant_type None;
  for_eachM parse_constants_record (entry_children entry).
