(* ===== verification/ModuleFunction.v ===== *)
(** Function bodies of bc/module.cpp: [parse_record], one definition per instruction
    record, the resolution of forward references and global initialisers, and
    [parse_function_body]. *)
From S2P Require Import Prelude.
From S2P Require Import LLVMType.
From S2P Require Import LLVMValue.
From S2P Require Import ModuleContext.
From S2P Require Import ModuleConstants.
Local Open Scope Z_scope.

(** [context->construct<...>(...)] followed by [add_instruction]. *)
Definition add_constructed (m : M VState vref) : P unit :=
  r ← on_context m; add_instruction r.

(** [resize] of a vector of pointers to a huge size throws; [front()] needs a block. *)
Definition parse_declareblocks (ops : list Z) : P unit :=
  n ← checkM (zlookup ops 0);
  _ ← assertM (n <=? max_object);
  bbs ← mapM_list (fun _ => on_context BasicBlock_new) (seq 0 (Z.to_nat n));
  front ← derefM (zlookup bbs 0);
  on_body (fun b => mkBody (function b) bbs (instructions b) (Some front) 0).

(** Argument [i] of a call has the type of parameter [i]. *)
Definition parse_call_argument (ops : list Z) (index : Z) (ft : Type_) (i : Z)
    : P (option vref) :=
  op ← derefM (zlookup ops (index + i));
  param ← lift (FunctionType_getParamType ft i);
  arg ← get_value op param false;
  a ← checkM arg;
  mret (Some a).

Definition parse_inst_call (ops : list Z) : P unit :=
  CCInfo ← checkM (zlookup ops 1);
  let index := 2 in
  index ← (if negb (Z.land CCInfo CALL_FMF_BIT =? 0) then
             _ ← checkM (zlookup ops index); mret (index + 1)
           else mret index);
  ti ← (if negb (Z.land CCInfo CALL_EXPLICIT_TYPE_BIT =? 0) then
          op ← checkM (zlookup ops index);
          ty ← get_type op;
          t ← on_context (deref_type ty);
          _ ← assertM (type_isa FunctionTyID t);
          mret (ty, index + 1)
        else mret (None, index));
  let '(explicit_type, index) := (ti : option tyref * Z) in
  op ← checkM (zlookup ops index);
  v ← get_value op None false;
  c ← on_context (dyn_cast (kind_is KFunction) v);
  callee ← checkM c;
  let index := index + 1 in
  callee_type ← on_context (Value_getType callee);
  function_type ← checkM (match explicit_type with Some ty => Some ty | None => callee_type end);
  ft ← on_ctypes (type_at function_type);
  num_params ← lift (FunctionType_getNumParams ft);
  _ ← guardM (zlength ops =? index + num_params);
  params ← mapM_list (fun i => parse_call_argument ops index ft (Z.of_nat i))
                     (seq 0 (Z.to_nat num_params));
  add_constructed (CallInst_new function_type callee params).

Definition parse_inst_ret (ops : list Z) : P unit :=
  return_val ← match ops with [] => mret None | op :: _ => get_value op None false end;
  add_constructed (ReturnInst_new return_val).

Definition parse_inst_unreachable : P unit := add_constructed UnreachableInst_new.

Definition parse_inst_unop (ops : list Z) : P unit :=
  val ← get_value_and_type ops 0;
  let '(v, ty, index) := (val : option vref * option tyref * Z) in
  value ← checkM v;
  o ← checkM (zlookup ops index);
  op ← translate_uop (u32 o) ty;
  add_constructed (UnaryOperator_new op value).

Definition parse_inst_cmp (ops : list Z) : P unit :=
  lhs ← get_value_and_type ops 0;
  let '(l, ty, index) := (lhs : option vref * option tyref * Z) in
  LHS ← checkM l;
  rhs ← get_value_at ops index ty;
  let '(r, index) := (rhs : option vref * Z) in
  pred ← checkM (zlookup ops index);
  RHS ← checkM r;
  t ← on_context (deref_type ty);
  if Type_isFloatingPointTy t then add_constructed (FCmpInst_new (u32 pred) LHS RHS)
  else add_constructed (ICmpInst_new (u32 pred) LHS RHS).

(** Incoming pair [i] of a phi record. *)
Definition parse_phi_incoming (ops : list Z) (ty : option tyref) (phi_node : vref) (i : Z)
    : P unit :=
  o ← derefM (zlookup ops (2 * i + 1));
  relative ← gets use_relative_id;
  v ← (if (relative : bool) then get_value_signed o ty else get_value o ty false);
  b ← derefM (zlookup ops (2 * i + 2));
  block ← get_basic_block b;
  value ← checkM v;
  bb ← checkM block;
  on_context (PHINode_add_incoming phi_node value bb).

Definition parse_inst_phi (ops : list Z) : P unit :=
  o ← checkM (zlookup ops 0);
  ty ← get_type o;
  let num_args := (zlength ops - 1) / 2 in
  phi_node ← on_context (PHINode_new ty);
  _ ← for_eachM (fun i => parse_phi_incoming ops ty phi_node (Z.of_nat i))
                (seq 0 (Z.to_nat num_args));
  add_instruction phi_node.

Definition parse_inst_binop (ops : list Z) : P unit :=
  lhs ← get_value_and_type ops 0;
  let '(l, ty, index) := (lhs : option vref * option tyref * Z) in
  LHS ← checkM l;
  rhs ← get_value_at ops index ty;
  let '(r, index) := (rhs : option vref * Z) in
  RHS ← checkM r;
  o ← checkM (zlookup ops index);
  op ← translate_binop (BinOp_of (u32 o)) ty;
  value ← on_context (BinaryOperator_new LHS RHS op);
  _ ← match zlookup ops (index + 1) with
      | Some fast_math_flags =>
          let fast := negb (Z.land fast_math_flags
            (Z.lor FAST_MATH_UNSAFE_ALGEBRA_BIT FAST_MATH_ALLOW_CONTRACT_BIT) =? 0) in
          on_context (BinaryOperator_setFast value fast)
      | None => mret tt
      end;
  add_instruction value.

Definition parse_inst_atomicrmw (ops : list Z) : P unit :=
  p ← get_value_and_type ops 0;
  let '(pv, ty, index) := (p : option vref * option tyref * Z) in
  ptr ← checkM pv;
  t ← on_context (deref_type ty);
  _ ← guardM (type_isa PointerTyID t);
  pointee ← lift (Type_getPointerElementType t);
  v ← get_value_at ops index (Some pointee);
  let '(vv, index) := (v : option vref * Z) in
  val ← checkM vv;
  o ← checkM (zlookup ops index);
  vty ← on_context (Value_getType val);
  add_constructed (AtomicRMWInst_new vty ptr val (translate_atomic_binop (u32 o))).

(** [new_value] is not checked for null before it is used. *)
Definition parse_inst_cmpxchg (ops : list Z) : P unit :=
  p ← get_value_and_type ops 0;
  let '(pv, pty, index) := (p : option vref * option tyref * Z) in
  c ← get_value_and_type ops index;
  let '(cv, cty, index) := (c : option vref * option tyref * Z) in
  ptr ← checkM pv;
  cmp ← checkM cv;
  t ← on_context (deref_type pty);
  _ ← guardM (type_isa PointerTyID t);
  n ← get_value_at ops index cty;
  let '(new_value, _) := (n : option vref * Z) in
  add_constructed (AtomicCmpXchgInst_new ptr cmp new_value).

Definition parse_inst_cast (ops : list Z) : P unit :=
  v ← get_value_and_type ops 0;
  let '(iv, _, index) := (v : option vref * option tyref * Z) in
  input_value ← checkM iv;
  _ ← guardM (index + 2 <=? zlength ops);
  tyop ← derefM (zlookup ops index);
  ty ← get_type tyop;
  dest ← checkM ty;
  o ← derefM (zlookup ops (index + 1));
  add_constructed (CastInst_new dest input_value (translate_castop (u32 o))).

(** [cond_value.first] is stored without a null check; its type is dereferenced. *)
Definition parse_inst_select (ops : list Z) : P unit :=
  tv ← get_value_and_type ops 0;
  let '(t, ty, index) := (tv : option vref * option tyref * Z) in
  true_value ← checkM t;
  _ ← guardM (index + 2 <=? zlength ops);
  o ← derefM (zlookup ops index);
  f ← get_value o ty false;
  cv ← get_value_and_type ops (index + 1);
  let '(cond, cond_ty, _) := (cv : option vref * option tyref * Z) in
  false_value ← checkM f;
  cty ← derefM cond_ty;
  scalar ← on_ctypes (Type_getScalarType cty);
  bool_type ← on_ctypes Type_getInt1Ty;
  _ ← guardM (bool_decide (scalar = bool_type));
  add_constructed (SelectInst_new true_value false_value cond).

(** The type selected by the indices, which become [unsigned]. *)
Fixpoint extract_path (ty : option tyref) (indices : list Z) : P (option tyref) :=
  match indices with
  | [] => mret ty
  | element :: rest =>
      t ← on_context (deref_type ty);
      match t with
      | StructType members _ =>
          _ ← guardM (element <? zlength members);
          m ← derefM (zlookup members element);
          extract_path m rest
      | ArrayType e _ | VectorType _ e => extract_path (Some e) rest
      | _ => failM
      end
  end.

Definition parse_inst_extractval (ops : list Z) : P unit :=
  a ← get_value_and_type ops 0;
  let '(av, aty, index) := (a : option vref * option tyref * Z) in
  aggregate ← checkM av;
  _ ← guardM (negb (index =? zlength ops));
  let indices := u32 <$> drop (Z.to_nat index) ops in
  ty ← extract_path aty indices;
  add_constructed (ExtractValueInst_new ty aggregate indices).

(** The condition of a branch is not checked for null. *)
Definition parse_inst_br (ops : list Z) : P unit :=
  o ← checkM (zlookup ops 0);
  tb ← get_basic_block o;
  true_block ← checkM tb;
  _ ← add_successor true_block;
  match ops with
  | [_] => add_constructed (BranchInst_new true_block)
  | [_; o1; o2] =>
      fb ← get_basic_block o1;
      false_block ← checkM fb;
      _ ← add_successor false_block;
      bool_type ← on_ctypes Type_getInt1Ty;
      cond ← get_value o2 (Some bool_type) false;
      add_constructed (BranchInst_new_cond true_block false_block cond)
  | _ => failM
  end.

(** Case [i]: the value number is absolute. *)
Definition parse_switch_case (ops : list Z) (ty : option tyref) (inst : vref) (i : Z)
    : P unit :=
  o ← derefM (zlookup ops (3 + 2 * i));
  v ← get_value o ty true;
  b ← derefM (zlookup ops (4 + 2 * i));
  block ← get_basic_block b;
  case_value ← checkM v;
  bb ← checkM block;
  _ ← add_successor bb;
  on_context (SwitchInst_addCase inst case_value bb).

Definition parse_inst_switch (ops : list Z) : P unit :=
  _ ← guardM (3 <=? zlength ops);
  o0 ← derefM (zlookup ops 0);
  ty ← get_type o0;
  o1 ← derefM (zlookup ops 1);
  c ← get_value o1 None false;
  o2 ← derefM (zlookup ops 2);
  d ← get_basic_block o2;
  _ ← checkM ty;
  cond ← checkM c;
  default_block ← checkM d;
  _ ← add_successor default_block;
  let num_cases := (zlength ops - 3) / 2 in
  inst ← on_context (SwitchInst_new cond default_block);
  _ ← for_eachM (fun i => parse_switch_case ops ty inst (Z.of_nat i))
                (seq 0 (Z.to_nat num_cases));
  add_instruction inst.

Definition parse_inst_alloca (ops : list Z) : P unit :=
  _ ← guardM (3 <=? zlength ops);
  o0 ← derefM (zlookup ops 0);
  at_ ← get_type o0;
  o1 ← derefM (zlookup ops 1);
  ty ← get_type o1;
  o2 ← derefM (zlookup ops 2);
  sz ← get_value o2 None true;
  allocated_type ← checkM at_;
  _ ← checkM ty;
  size ← checkM sz;
  ptr_type ← on_ctypes (PointerType_get allocated_type 0);
  add_constructed (AllocaInst_new ptr_type size).

(** The operand loop of [INST_GEP]; every iteration reads at least one operand. *)
Fixpoint parse_gep_args (fuel : nat) (ops : list Z) (i : Z) : P (list (option vref)) :=
  match fuel with
  | O => ubM
  | S fuel' =>
      if i <? zlength ops then
        value ← get_value_and_type ops i;
        let '(v, _, i') := (value : option vref * option tyref * Z) in
        x ← checkM v;
        args ← parse_gep_args fuel' ops i';
        mret (Some x :: args)
      else mret []
  end.

Definition parse_inst_gep (ops : list Z) : P unit :=
  _ ← guardM (3 <=? zlength ops);
  o0 ← derefM (zlookup ops 0);
  let inbounds := negb (o0 =? 0) in
  o1 ← derefM (zlookup ops 1);
  ty ← get_type o1;
  args ← parse_gep_args (length ops) ops 2;
  resolved ← resolve_gep_element_type ty args;
  element ← checkM resolved;
  a0 ← derefM (zlookup args 0);
  r ← derefM a0;
  pty ← on_context (Value_getType r);
  pt ← on_context (deref_type pty);
  _ ← lift (PointerType_getElementType pt);
  ptr_type ← on_ctypes (PointerType_get element (Type_getAddressSpace pt));
  add_constructed (GetElementPtrInst_new ptr_type args inbounds).

(** The result of [add_instruction] is ignored here. *)
Definition parse_inst_load (ops : list Z) : P unit :=
  p ← get_value_and_type ops 0;
  let '(pv, ty, index) := (p : option vref * option tyref * Z) in
  _ ← guardM ((index + 2 =? zlength ops) || (index + 3 =? zlength ops));
  ptr ← checkM pv;
  t ← on_context (deref_type ty);
  _ ← guardM (type_isa PointerTyID t);
  loaded_type ← (if index + 3 =? zlength ops then
                   o ← derefM (zlookup ops index); get_type o
                 else e ← lift (PointerType_getElementType t); mret (Some e));
  value ← on_context (LoadInst_new loaded_type ptr);
  _ ← add_instruction_result value;
  mret tt.

Definition parse_inst_store (ops : list Z) : P unit :=
  p ← get_value_and_type ops 0;
  let '(pv, _, index) := (p : option vref * option tyref * Z) in
  v ← get_value_and_type ops index;
  let '(vv, _, index) := (v : option vref * option tyref * Z) in
  ptr ← checkM pv;
  val ← checkM vv;
  _ ← guardM (index + 2 =? zlength ops);
  add_constructed (StoreInst_new ptr val).

Definition parse_inst_shufflevec (ops : list Z) : P unit :=
  x ← get_value_and_type ops 0;
  let '(av, aty, index) := (x : option vref * option tyref * Z) in
  y ← get_value_at ops index aty;
  let '(bv, index) := (y : option vref * Z) in
  z ← get_value_and_type ops index;
  let '(sv, _, _) := (z : option vref * option tyref * Z) in
  a ← checkM av;
  b ← checkM bv;
  shuf ← checkM sv;
  t ← on_context (deref_type aty);
  _ ← guardM (type_isa VectorTyID t);
  sty ← on_context (Value_getType shuf);
  st ← on_context (deref_type sty);
  n ← lift (Type_getVectorNumElements st);
  e ← lift (VectorType_getElementType t);
  vec_type ← on_ctypes (VectorType_get n e);
  add_constructed (ShuffleVectorInst_new vec_type a b shuf).

Definition parse_inst_extractelt (ops : list Z) : P unit :=
  x ← get_value_and_type ops 0;
  let '(v, ty, index) := (x : option vref * option tyref * Z) in
  vec ← checkM v;
  t ← on_context (deref_type ty);
  _ ← guardM (type_isa VectorTyID t);
  y ← get_value_and_type ops index;
  let '(i, _, _) := (y : option vref * option tyref * Z) in
  element_index ← checkM i;
  add_constructed (ExtractElementInst_new vec element_index).

Definition parse_inst_insertelt (ops : list Z) : P unit :=
  x ← get_value_and_type ops 0;
  let '(v, ty, index) := (x : option vref * option tyref * Z) in
  vec ← checkM v;
  t ← on_context (deref_type ty);
  _ ← guardM (type_isa VectorTyID t);
  e ← lift (VectorType_getElementType t);
  y ← get_value_at ops index (Some e);
  let '(val, index) := (y : option vref * Z) in
  z ← get_value_and_type ops index;
  let '(i, _, _) := (z : option vref * option tyref * Z) in
  value ← checkM val;
  element_index ← checkM i;
  add_constructed (InsertElementInst_new vec value element_index).

Definition parse_record (entry : BlockOrRecord) : P unit :=
  let ops := entry_ops entry in
  match FunctionRecord_of (entry_id entry) with
  | Some DECLAREBLOCKS => parse_declareblocks ops
  | Some INST_CALL => parse_inst_call ops
  | Some INST_RET => parse_inst_ret ops
  | Some INST_UNREACHABLE => parse_inst_unreachable
  | Some INST_UNOP => parse_inst_unop ops
  | Some INST_CMP | Some INST_CMP2 => parse_inst_cmp ops
  | Some INST_PHI => parse_inst_phi ops
  | Some INST_BINOP => parse_inst_binop ops
  | Some INST_ATOMICRMW => parse_inst_atomicrmw ops
  | Some INST_CMPXCHG => parse_inst_cmpxchg ops
  | Some INST_CAST => parse_inst_cast ops
  | Some INST_SELECT | Some INST_VSELECT => parse_inst_select ops
  | Some INST_EXTRACTVAL => parse_inst_extractval ops
  | Some INST_BR => parse_inst_br ops
  | Some INST_SWITCH => parse_inst_switch ops
  | Some INST_ALLOCA => parse_inst_alloca ops
  | Some INST_GEP => parse_inst_gep ops
  | Some INST_LOAD => parse_inst_load ops
  | Some INST_STORE => parse_inst_store ops
  | Some INST_SHUFFLEVEC => parse_inst_shufflevec ops
  | Some INST_EXTRACTELT => parse_inst_extractelt ops
  | Some INST_INSERTELT => parse_inst_insertelt ops
  | None => failM
  end.

(** * Forward references *)

Definition get_proxy (r : vref) : P (option (Z * option vref)) :=
  v ← on_context (value_at r);
  mret (match val_data v with ValueProxy id proxy => Some (id, proxy) | _ => None end).

Definition set_proxy (r : vref) (id : Z) (o : option vref) : P unit :=
  on_context (set_data r (ValueProxy id o)).

(** [ValueProxy::resolve].  The member [proxy] is read and written on every turn of
    the loop, so a nested [resolve] of the same proxy sees its current value.  The
    fuel bounds the loop and the recursion; a run that exceeds the number of
    objects does not end. *)
Fixpoint ValueProxy_resolve (fuel : nat) (r : vref) : P bool :=
  match fuel with
  | O => ubM
  | S fuel' =>
      self ← get_proxy r;
      x ← derefM self;
      let '(id, proxy) := (x : Z * option vref) in
      match proxy with
      | Some _ => mret true
      | None =>
          vals ← gets (fun s => values (tables s));
          if zlength vals <=? id then mret false
          else
            first ← derefM (zlookup vals id);
            _ ← set_proxy r id (Some first);
            (fix loop (n : nat) : P bool :=
               match n with
               | O => ubM
               | S n' =>
                   cur ← get_proxy r;
                   y ← derefM cur;
                   match snd (y : Z * option vref) with
                   | None => mret false
                   | Some p =>
                       inner ← get_proxy p;
                       match inner with
                       | None => mret true
                       | Some _ =>
                           _ ← ValueProxy_resolve fuel' p;
                           after ← get_proxy p;
                           z ← derefM after;
                           _ ← set_proxy r id (snd (z : Z * option vref));
                           loop n'
                       end
                   end
               end) (S fuel')
      end
  end.

Definition resolve_reference (r : vref) : P unit :=
  s ← gets context;
  ok ← ValueProxy_resolve (S (length (v_values s))) r;
  guardM ok.

(** The operands of every instruction of one block. *)
Definition resolve_block (bb : vref) : P unit :=
  b ← on_context (bb_at bb);
  for_eachM (fun i => on_context (resolve_proxy_values i)) (bb_instructions b).

Definition resolve_forward_references : P unit :=
  refs ← gets pending_forward_references;
  _ ← for_eachM resolve_reference refs;
  _ ← set_pending [];
  bbs ← gets (fun s => basic_blocks (body s));
  for_eachM resolve_block bbs.

Definition resolve_global_initialization (ref : vref * Z) : P unit :=
  v ← get_value (snd ref) None true;
  value ← checkM v;
  c ← on_context (dyn_cast Constant_is_base_of (Some value));
  constant_value ← checkM c;
  on_context (GlobalVariable_set_initializer (fst ref) constant_value).

Definition resolve_global_initializations : P unit :=
  refs ← gets global_initializations;
  _ ← for_eachM resolve_global_initialization refs;
  set_initializations [].

(** * Blocks inside a function *)

(** One (kind, node) pair of a metadata attachment. *)
Definition attach_metadata (ops : list Z) (inst : vref) (i : Z) : P unit :=
  k ← derefM (zlookup ops (2 * i + 1));
  kind ← get_metadata_kind_name k;
  m ← derefM (zlookup ops (2 * i + 2));
  operand ← get_metadata m;
  n ← on_context (dyn_cast_MDNode operand);
  kind ← checkM kind;
  node ← checkM n;
  on_context (Instruction_setMetadata inst kind (Some node)).

Definition parse_metadata_attachment_record (entry : BlockOrRecord) : P unit :=
  let ops := entry_ops entry in
  match MetaDataRecord_of (entry_id entry) with
  | Some ATTACHMENT =>
      first ← checkM (zlookup ops 0);
      let num_nodes := (zlength ops - 1) / 2 in
      i ← get_instruction first;
      inst ← checkM i;
      for_eachM (fun k => attach_metadata ops inst (Z.of_nat k)) (seq 0 (Z.to_nat num_nodes))
  | _ => mret tt
  end.

Definition parse_function_child_block (entry : BlockOrRecord) : P unit :=
  match KnownBlocks_of (entry_id entry) with
  | Some CONSTANTS_BLOCK => for_eachM parse_constants_record (entry_children entry)
  | Some METADATA_ATTACHMENT => for_eachM parse_metadata_attachment_record (entry_children entry)
  | _ => mret tt
  end.

Definition parse_function_child (child : BlockOrRecord) : P unit :=
  if IsBlock child then parse_function_child_block child else parse_record child.

(** * A function body *)

(** The next function that has a body: the list is reversed once and then consumed
    from its end. *)
Definition next_function : P vref :=
  s ← gets id;
  let fs := functions_with_bodies (tables s) in
  let fs := if seen_first_function_body s then fs else rev fs in
  _ ← set_flags (use_relative_id s) (use_strtab s) true;
  f ← checkM (list.last fs);
  _ ← on_tables (fun t => mkTables (values t) (types t) (constant_type t) (current_struct_name t)
                          (removelast fs) (tween_id t));
  _ ← on_body (fun b => mkBody (Some f) (basic_blocks b) (instructions b) (current_bb b)
                               (basic_block_index b));
  mret f.

Definition add_parameter (f : vref) (ft : Type_) (i : Z) : P unit :=
  param_type ← lift (FunctionType_getParamType ft i);
  arg ← on_context (construct_value (plain_value param_type (Argument i)));
  _ ← on_context (Function_add_argument f arg);
  add_value arg.

Definition parse_function_body (entry : BlockOrRecord) : P unit :=
  global_values ← gets (fun s => values (tables s));
  f ← next_function;
  fty ← on_context (Value_getType f);
  ft ← on_context (deref_type fty);
  n ← lift (FunctionType_getNumParams ft);
  _ ← for_eachM (fun i => add_parameter f ft (Z.of_nat i)) (seq 0 (Z.to_nat n));
  _ ← for_eachM parse_function_child (entry_children entry);
  _ ← resolve_forward_references;
  _ ← resolve_global_initializations;
  bbs ← gets (fun s => basic_blocks (body s));
  _ ← on_context (Function_set_basic_blocks f bbs);
  _ ← on_body (fun b => mkBody (function b) [] (instructions b) (current_bb b) 0);
  _ ← on_module (fun m => mkModule (functions m ++ [f]) (globals m) (value_symtab m)
                                   (named_metadata m) (unnamed_metadata m));
  _ ← set_values global_values;
  on_body (fun b => mkBody (function b) (basic_blocks b) [] (current_bb b) (basic_block_index b)).
