(* ===== verification/ModuleParser.v ===== *)
(** The module level of bc/module.cpp: the type table, metadata, attributes, the
    value symbol table, global variable and function declarations, and the
    dispatch over the children of the module block ([parseIR]). *)
From S2P Require Import Prelude.
From S2P Require Import LLVMType.
From S2P Require Import LLVMValue.
From S2P Require Import ModuleContext.
From S2P Require Import ModuleConstants.
From S2P Require Import ModuleFunction.
Local Open Scope Z_scope.

(** * The type table *)

Definition parse_struct_type (named : bool) (ops : list Z) : P tyref :=
  _ ← guardM (1 <=? zlength ops);
  members ← mapM_list get_type (drop 1 ops);
  current ← gets (fun s => current_struct_name (tables s));
  on_ctypes (StructType_get members (if named then current else [])).

Definition parse_function_type (ops : list Z) : P tyref :=
  _ ← guardM (2 <=? zlength ops);
  argument_types ← mapM_list get_type (drop 2 ops);
  o ← derefM (zlookup ops 1);
  r ← get_type o;
  func_type ← checkM r;
  on_ctypes (FunctionType_new func_type argument_types).

(** The composite types with an element type: [make element ops[0]]. *)
Definition parse_pointer_type (ops : list Z) : P tyref :=
  _ ← guardM (2 <=? zlength ops);
  o0 ← derefM (zlookup ops 0);
  p ← get_type o0;
  pointee_type ← checkM p;
  o1 ← derefM (zlookup ops 1);
  on_ctypes (PointerType_get pointee_type (u32 o1)).

Definition parse_array_type (ops : list Z) : P tyref :=
  _ ← guardM (2 <=? zlength ops);
  o1 ← derefM (zlookup ops 1);
  e ← get_type o1;
  elem_type ← checkM e;
  o0 ← derefM (zlookup ops 0);
  on_ctypes (ArrayType_get elem_type o0).

Definition parse_vector_type (ops : list Z) : P tyref :=
  _ ← guardM (2 <=? zlength ops);
  o1 ← derefM (zlookup ops 1);
  e ← get_type o1;
  elem_type ← checkM e;
  o0 ← derefM (zlookup ops 0);
  on_ctypes (VectorType_get (u32 o0) elem_type).

Definition parse_integer_type (ops : list Z) : P tyref :=
  bit_width ← checkM (zlookup ops 0);
  _ ← guardM (bit_width <=? 64);
  on_ctypes (Type_getIntTy bit_width).

(** The records that define a type; every one of them adds one table entry. *)
Definition parse_type_definition (k : TypeRecord) (ops : list Z) : P tyref :=
  match k with
  | VOID_TYPE => on_ctypes Type_getVoidTy
  | HALF => on_ctypes Type_getHalfTy
  | TR_FLOAT => on_ctypes Type_getFloatTy
  | TR_DOUBLE => on_ctypes Type_getDoubleTy
  | POINTER => parse_pointer_type ops
  | ARRAY => parse_array_type ops
  | TR_INTEGER => parse_integer_type ops
  | STRUCT_NAMED => parse_struct_type true ops
  | STRUCT_ANON => parse_struct_type false ops
  | VECTOR => parse_vector_type ops
  | TR_FUNCTION => parse_function_type ops
  | LABEL => on_ctypes Type_getLabelTy
  | METADATA => on_ctypes Type_getMetadataTy
  | OPAQUE_TYPE => on_ctypes Type_getOpaqueTy
  | _ => failM
  end.

Definition parse_type (child : BlockOrRecord) : P unit :=
  match TypeRecord_of (entry_id child) with
  | None => failM
  | Some NUMENTRY => mret tt
  | Some STRUCT_NAME =>
      name ← lift (getString child 0);
      on_tables (fun t => mkTables (values t) (types t) (constant_type t) name
                                   (functions_with_bodies t) (tween_id t))
  | Some k => ty ← parse_type_definition k (entry_ops child); add_type ty
  end.

Definition parse_types (entry : BlockOrRecord) : P unit :=
  for_eachM parse_type (entry_children entry).

(** * Metadata *)

Definition set_metadata (index : Z) (node : mdref) : P unit :=
  on_meta (fun m => mkMeta (<[index := node]> (metadata m)) (metadata_kind_map m)
    (attribute_lists m) (attribute_groups m) (current_metadata_name m) (metadata_tween_id m)).

Definition parse_md_name (entry : BlockOrRecord) : P unit :=
  name ← lift (getString entry 0);
  on_meta (fun m => mkMeta (metadata m) (metadata_kind_map m) (attribute_lists m)
    (attribute_groups m) name (metadata_tween_id m)).

(** An operand that is not a node becomes null. *)
Definition parse_named_node (ops : list Z) (index : Z) : P unit :=
  nodes ← mapM_list (fun op => md ← get_metadata op; on_context (dyn_cast_MDNode md)) ops;
  name ← gets (fun s => current_metadata_name (meta s));
  node ← on_context (construct_md (NamedMDNode name nodes));
  _ ← on_module (fun m => mkModule (functions m) (globals m) (value_symtab m)
                          (<[name := node]> (named_metadata m)) (unnamed_metadata m));
  set_metadata index node.

(** Operand numbers are off by one; 0 wraps and is a missing node. *)
Definition parse_node (ops : list Z) (index : Z) : P unit :=
  operands ← mapM_list (fun op => get_metadata (u64 (op - 1))) ops;
  tween ← gets (fun s => metadata_tween_id (meta s));
  node ← on_context (construct_md (MDNode operands tween));
  _ ← on_meta (fun m => mkMeta (metadata m) (metadata_kind_map m) (attribute_lists m)
        (attribute_groups m) (current_metadata_name m) (u64 (metadata_tween_id m + 1)));
  _ ← on_module (fun m => mkModule (functions m) (globals m) (value_symtab m)
                          (named_metadata m) (unnamed_metadata m ++ [node]));
  set_metadata index node.

Definition parse_string_old (entry : BlockOrRecord) (index : Z) : P unit :=
  str ← lift (getString entry 0);
  node ← on_context (construct_md (MDString str));
  set_metadata index node.

Definition parse_md_value (ops : list Z) (index : Z) : P unit :=
  op ← checkM (zlookup ops 1);
  v ← get_value op None true;
  value ← checkM v;
  c ← on_context (dyn_cast Constant_is_base_of (Some value));
  constant_value ← checkM c;
  node ← on_context (construct_md (ConstantAsMetadata constant_value));
  set_metadata index node.

Definition parse_md_kind (entry : BlockOrRecord) : P unit :=
  key ← checkM (zlookup (entry_ops entry) 0);
  name ← lift (getString entry 1);
  on_meta (fun m => mkMeta (metadata m) (<[key := name]> (metadata_kind_map m))
    (attribute_lists m) (attribute_groups m) (current_metadata_name m) (metadata_tween_id m)).

Definition parse_metadata_record (entry : BlockOrRecord) (index : Z) : P unit :=
  let ops := entry_ops entry in
  match MetaDataRecord_of (entry_id entry) with
  | Some MD_NAME => parse_md_name entry
  | Some NAMED_NODE => parse_named_node ops index
  | Some DISTINCT_NODE | Some MD_NODE => parse_node ops index
  | Some STRING_OLD => parse_string_old entry index
  | Some MD_VALUE => parse_md_value ops index
  | Some MD_KIND => parse_md_kind entry
  | Some ATTACHMENT | None => mret tt
  end.

(** The record index counts every child of the block. *)
Fixpoint parse_metadata_records (children : list BlockOrRecord) (index : Z) : P unit :=
  match children with
  | [] => mret tt
  | child :: rest =>
      _ ← parse_metadata_record child index; parse_metadata_records rest (u32 (index + 1))
  end.

Definition parse_metadata_block (entry : BlockOrRecord) : P unit :=
  parse_metadata_records (entry_children entry) 0.

(** * Attributes *)

Definition Attributes := list (String_ * String_).

Definition set_attribute_groups (groups : gmap Z Attributes) : P unit :=
  on_meta (fun m => mkMeta (metadata m) (metadata_kind_map m) (attribute_lists m) groups
                           (current_metadata_name m) (metadata_tween_id m)).

(** [attribute_groups[op]]: a missing group is created empty. *)
Definition attribute_group (op : Z) : P Attributes :=
  groups ← gets (fun s => attribute_groups (meta s));
  match groups !! op with
  | Some g => mret g
  | None => _ ← set_attribute_groups (<[op := []]> groups); mret []
  end.

Definition parse_paramattr_record (child : BlockOrRecord) : P unit :=
  if negb (IsRecord child) then mret tt
  else
    _ ← guardM (entry_id child =? AttributeCodes_CodeEntry);
    pairs ← mapM_list attribute_group (entry_ops child);
    on_meta (fun m => mkMeta (metadata m) (metadata_kind_map m) (attribute_lists m ++ [concat pairs])
      (attribute_groups m) (current_metadata_name m) (metadata_tween_id m)).

Definition parse_paramattr_block (entry : BlockOrRecord) : P unit :=
  for_eachM parse_paramattr_record (entry_children entry).

(** [while (ops[i] != 0 && i < count) s.push_back(ops[i++]); if (ops[i] != 0) return
    false; i++;] -- [ops[i]] is read before [i] is compared with [count]. *)
Fixpoint read_attribute_string (fuel : nat) (ops : list Z) (i : Z) (acc : String_)
    : res (String_ * Z) :=
  match fuel with
  | O => UB
  | S fuel' =>
      c ← some_or_ub (zlookup ops i);
      if c =? 0 then Ok (acc, i + 1)
      else read_attribute_string fuel' ops (i + 1) (acc ++ [wrap 8 c])
  end.

(** One attribute: the index after it, and the pair it defines. *)
Definition parse_attribute (ops : list Z) (i : Z) : res (Z * option (String_ * String_)) :=
  let fuel := S (length ops) in
  k ← some_or_ub (zlookup ops i);
  if k =? 0 then Ok (i + 2, None)
  else if k =? 1 then
    attr ← some_or_fail (zlookup ops (i + 1));
    Ok (if AttributeRecord_has_int (u32 attr) then i + 3 else i + 2, None)
  else if (k =? 3) || (k =? 4) then
    p ← read_attribute_string fuel ops (i + 1) [];
    let '(kind, j) := (p : String_ * Z) in
    if k =? 4 then
      q ← read_attribute_string fuel ops j [];
      let '(value, j) := (q : String_ * Z) in
      Ok (j, Some (kind, value))
    else Ok (j, Some (kind, []))
  else if (k =? 5) || (k =? 6) then
    attr ← some_or_fail (zlookup ops (i + 1));
    Ok (if (u32 attr =? AttributeRecord_BY_VAL) && (k =? 6) then i + 3 else i + 2, None)
  else Fail.

Fixpoint parse_attributes (fuel : nat) (ops : list Z) (i : Z) (attr_group : Attributes)
    : res Attributes :=
  match fuel with
  | O => UB
  | S fuel' =>
      if i <? zlength ops then
        r ← parse_attribute ops i;
        let '(j, a) := (r : Z * option (String_ * String_)) in
        parse_attributes fuel' ops j
          (attr_group ++ match a with Some p => [p] | None => [] end)
      else _ ← guard_res (i <=? zlength ops); Ok attr_group
  end.

Definition parse_paramattr_group_record (child : BlockOrRecord) : P unit :=
  if negb (IsRecord child) then mret tt
  else if negb (entry_id child =? AttributeCodes_GroupCodeEntry) then mret tt
  else
    let ops := entry_ops child in
    _ ← guardM (3 <=? zlength ops);
    group_id ← derefM (zlookup ops 0);
    index ← derefM (zlookup ops 1);
    if negb (index =? 2 ^ 32 - 1) then mret tt
    else
      attr_group ← attribute_group group_id;
      attr_group ← lift (parse_attributes (S (length ops)) ops 2 attr_group);
      groups ← gets (fun s => attribute_groups (meta s));
      set_attribute_groups (<[group_id := attr_group]> groups).

Definition parse_paramattr_group_block (entry : BlockOrRecord) : P unit :=
  groups ← gets (fun s => attribute_groups (meta s));
  _ ← guardM (bool_decide (groups = ∅));
  for_eachM parse_paramattr_group_record (entry_children entry).

(** * Symbols, globals and functions *)

Definition parse_symtab_entry (symtab : BlockOrRecord) : P unit :=
  if entry_id symtab =? ValueSymtabRecord_ENTRY then
    id ← checkM (zlookup (entry_ops symtab) 0);
    name ← lift (getString symtab 1);
    on_module (fun m => mkModule (functions m) (globals m) (<[id := name]> (value_symtab m))
                                 (named_metadata m) (unnamed_metadata m))
  else mret tt.

Definition parse_value_symtab (entry : BlockOrRecord) : P unit :=
  for_eachM parse_symtab_entry (entry_children entry).

Definition decode_linkage (v : Z) : LinkageTypes :=
  match v with
  | 0 | 5 | 6 | 15 => ExternalLinkage
  | 2 => AppendingLinkage
  | _ => InternalLinkage
  end.

Definition parse_global_variable_record (ops : list Z) : P unit :=
  strtab ← gets use_strtab;
  _ ← guardM (negb strtab);
  _ ← guardM (4 <=? zlength ops);
  o0 ← derefM (zlookup ops 0);
  ty0 ← get_type o0;
  o1 ← derefM (zlookup ops 1);
  let is_const := negb (Z.land o1 1 =? 0) in
  let explicit_type := negb (Z.land o1 2 =? 0) in
  ta ← (if explicit_type then mret (ty0, u32 (Z.shiftr o1 2))
        else
          t ← on_context (deref_type ty0);
          e ← lift (PointerType_getElementType t);
          mret (Some e, Type_getAddressSpace t));
  let '(ty, address_space) := (ta : option tyref * Z) in
  type ← checkM ty;
  o3 ← derefM (zlookup ops 3);
  ptr_type ← on_ctypes (PointerType_get type address_space);
  value ← on_context (construct_value
            (plain_value (Some ptr_type) (GlobalVariable (decode_linkage o3) is_const None)));
  _ ← on_module (fun m => mkModule (functions m) (globals m ++ [value]) (value_symtab m)
                                   (named_metadata m) (unnamed_metadata m));
  _ ← add_value value;
  init_id ← derefM (zlookup ops 2);
  if init_id =? 0 then mret tt
  else l ← gets global_initializations; set_initializations (l ++ [(value, init_id - 1)]).

(** A function type, or a pointer to one. *)
Definition declared_function_type (ty : tyref) : P tyref :=
  t ← on_ctypes (type_at ty);
  if type_isa FunctionTyID t then mret ty
  else
    pointee ← lift (PointerType_getElementType t);
    pt ← on_ctypes (type_at pointee);
    _ ← assertM (type_isa FunctionTyID pt);
    mret pointee.

Definition parse_function_record (ops : list Z) : P unit :=
  strtab ← gets use_strtab;
  _ ← guardM (negb strtab);
  _ ← guardM (3 <=? zlength ops);
  o0 ← derefM (zlookup ops 0);
  ty ← get_type o0;
  type ← checkM ty;
  o2 ← derefM (zlookup ops 2);
  let is_proto := negb (o2 =? 0) in
  func_type ← declared_function_type type;
  vals ← gets (fun s => values (tables s));
  func ← on_context (Function_new func_type (zlength vals));
  lists ← gets (fun s => attribute_lists (meta s));
  _ ← match zlookup ops 4 with
      | Some a =>
          if a =? 0 then mret tt
          else match zlookup lists (a - 1) with
               | Some attributes => on_context (Function_set_attributes func attributes)
               | None => mret tt
               end
      | None => mret tt
      end;
  _ ← push_value func;
  if is_proto then mret tt
  else on_tables (fun t => mkTables (values t) (types t) (constant_type t) (current_struct_name t)
                                    (functions_with_bodies t ++ [func]) (tween_id t)).

Definition parse_version_record (ops : list Z) : P unit :=
  o ← checkM (zlookup ops 0);
  let version := u32 o in
  seen ← gets seen_first_function_body;
  set_flags (1 <=? version) (2 <=? version) seen.

(** * [Module]: queries *)

Definition Module_get_value_name (m : Module_) (id : Z) : String_ :=
  match value_symtab m !! id with Some name => name | None => [] end.

Definition Module_getNamedMetadata (m : Module_) (name : String_) : option mdref :=
  named_metadata m !! name.

(** [Function::getName] *)
Definition Function_getName (m : Module_) (r : vref) : M VState String_ :=
  f ← fn_at r; mret (Module_get_value_name m (fn_value_id f)).

Fixpoint find_function (m : Module_) (fs : list vref) (name : String_) : M VState (option vref) :=
  match fs with
  | [] => mret None
  | f :: rest =>
      n ← Function_getName m f;
      if bool_decide (n = name) then mret (Some f) else find_function m rest name
  end.

Definition Module_getFunction (m : Module_) (name : String_) : M VState (option vref) :=
  find_function m (functions m) name.

(** * The module block *)

Definition parse_module_child (child : BlockOrRecord) : P unit :=
  if IsBlock child then
    match KnownBlocks_of (entry_id child) with
    | Some VALUE_SYMTAB_BLOCK => parse_value_symtab child
    | Some FUNCTION_BLOCK => parse_function_body child
    | Some TYPE_BLOCK => parse_types child
    | Some CONSTANTS_BLOCK => parse_constants_block child
    | Some METADATA_BLOCK => parse_metadata_block child
    | Some PARAMATTR_BLOCK => parse_paramattr_block child
    | Some PARAMATTR_GROUP_BLOCK => parse_paramattr_group_block child
    | _ => mret tt
    end
  else
    match ModuleRecord_of (entry_id child) with
    | Some MR_VERSION => parse_version_record (entry_ops child)
    | Some MR_FUNCTION => parse_function_record (entry_ops child)
    | Some MR_GLOBAL_VARIABLE => parse_global_variable_record (entry_ops child)
    | _ => mret tt
    end.

(** [parseIR] once the bitcode reader has produced the top-level block and said
    whether it consumed the whole stream; a failure is a null module. *)
Definition parseIR (toplevel : BlockOrRecord) (at_end_of_stream : bool) : P unit :=
  _ ← guardM (bool_decide (KnownBlocks_of (entry_id toplevel) = Some MODULE_BLOCK));
  _ ← guardM at_end_of_stream;
  for_eachM parse_module_child (entry_children toplevel).
