(* ===== verification/ModuleInvariant.v ===== *)
(** Invariants of the bitcode module reader.

    For every handler of ModuleContext.v, ModuleConstants.v, ModuleFunction.v and
    ModuleParser.v: the type heap stays well-formed, the value table only holds
    typed objects that are no proxies, and every unresolved proxy is pending. *)
From S2P Require Import Prelude.
From S2P Require Import LLVMType.
From S2P Require Import LLVMValue.
From S2P Require Import ModuleContext.
From S2P Require Import ModuleConstants.
From S2P Require Import ModuleFunction.
From S2P Require Import ModuleParser.
Local Open Scope Z_scope.

(** * Definitions *)

Definition live_type (t : tyref) (s : TypeState) : Prop := is_Some (type_heap s !! t).
Definition live (t : tyref) (c : VState) : Prop := live_type t (v_types c).
Definition live_opt (o : option tyref) (c : VState) : Prop := forall t, o = Some t -> live t c.

(** The object at [r] is the proxy of value [id], standing for [p]. *)
Definition proxy_at (c : VState) (r : vref) (id : Z) (p : option vref) : Prop :=
  exists v, v_values c !! r = Some v /\ val_data v = ValueProxy id p.

(** A type pointer that is not null. *)
Definition live_some (o : option tyref) (c : VState) : Prop := exists t, o = Some t /\ live t c.
Definition has_type (r : vref) (o : option tyref) (c : VState) : Prop :=
  exists v, v_values c !! r = Some v /\ val_type v = o.

(** An object that is no proxy. *)
Definition nonproxy (r : vref) (c : VState) : Prop :=
  exists v, v_values c !! r = Some v /\ val_kind v <> KProxy.

(** What the value table may hold: a typed object that is no proxy. *)
Definition entry_ok (r : vref) (c : VState) : Prop :=
  exists v t, v_values c !! r = Some v /\ val_kind v <> KProxy /\ val_type v = Some t /\ live t c.

(** Objects keep their class and their type. *)
Definition grow (c c' : VState) : Prop :=
  types_extend (v_types c) (v_types c') /\
  forall r v, v_values c !! r = Some v ->
    exists v', v_values c' !! r = Some v' /\ val_kind v' = val_kind v /\ val_type v' = val_type v.

(** ... and no proxy is made or changed. *)
Definition stable (c c' : VState) : Prop :=
  grow c c' /\ forall r id p, proxy_at c' r id p <-> proxy_at c r id p.

Definition vinv (c : VState) : Prop := types_wf (v_types c).

(** The invariant of the parse context. *)
Record inv (s : ModuleParseContext) : Prop := {
  inv_types_wf : types_wf (v_types (context s));
  inv_types : Forall (fun t => live t (context s)) (types (tables s));
  inv_constant : live_opt (constant_type (tables s)) (context s);
  inv_values : Forall (fun r => entry_ok r (context s)) (values (tables s));
  inv_pending : forall r id, proxy_at (context s) r id None -> r ∈ pending_forward_references s;
  inv_resolved : forall r id p, proxy_at (context s) r id (Some p) -> nonproxy p (context s);
}.

Definition pgrow (s s' : ModuleParseContext) : Prop := grow (context s) (context s').

Local Abbreviation tspec := (spec types_wf types_extend).
Local Abbreviation vspec := (spec vinv stable).
Local Abbreviation pspec := (spec inv pgrow).

(** * Monotonicity *)

#[export] Instance grow_po : PreOrder grow.
Proof.
  split.
  - intros c. split; [done|]. eauto.
  - intros c1 c2 c3 [T1 V1] [T2 V2]. split; [by etrans|]. intros r v Hv.
    destruct (V1 r v Hv) as (v2 & Hv2 & Hk & Ht). destruct (V2 r v2 Hv2) as (v3 & ? & ? & ?).
    exists v3. split_and!; congruence.
Qed.

#[export] Instance stable_po : PreOrder stable.
Proof.
  split.
  - intros c. by split.
  - intros c1 c2 c3 [G1 P1] [G2 P2]. split; [by etrans|]. intros r id p. by rewrite P2.
Qed.

#[export] Instance pgrow_po : PreOrder pgrow.
Proof. split; [intros s; unfold pgrow; done|intros s1 s2 s3; unfold pgrow; apply transitivity]. Qed.

Lemma live_mono t c c' : types_extend (v_types c) (v_types c') -> live t c -> live t c'.
Proof. intros HT [ty Hty]. exists ty. by eapply types_extend_lookup. Qed.

Lemma nonproxy_mono r c c' : grow c c' -> nonproxy r c -> nonproxy r c'.
Proof.
  intros [_ HV] (v & Hv & Hk). destruct (HV r v Hv) as (v' & ? & Hk' & _).
  exists v'. split; [done|congruence].
Qed.

Lemma entry_ok_mono r c c' : grow c c' -> entry_ok r c -> entry_ok r c'.
Proof.
  intros [HT HV] (v & t & Hv & Hk & Ht & Hl). destruct (HV r v Hv) as (v' & ? & ? & ?).
  exists v', t. split_and!; [done|congruence|congruence|by eapply live_mono].
Qed.

#[export] Instance live_type_Mono t : Mono types_extend (live_type t).
Proof. intros s s' HT [ty Hty]. exists ty. by eapply types_extend_lookup. Qed.
#[export] Instance live_Mono t : Mono stable (live t).
Proof. intros c c' [[HT _] _]. by apply live_mono. Qed.
#[export] Instance live_opt_Mono o : Mono stable (live_opt o).
Proof. intros c c' [[HT _] _] H t Ht. eapply live_mono; eauto. Qed.
#[export] Instance nonproxy_Mono r : Mono stable (nonproxy r).
Proof. intros c c' [HG _]. by apply nonproxy_mono. Qed.

#[export] Instance live_some_Mono o : Mono stable (live_some o).
Proof. intros c c' [[HT _] _] (t & Ht & Hl). exists t. split; [done|by eapply live_mono]. Qed.

Lemma has_type_mono r o c c' : grow c c' -> has_type r o c -> has_type r o c'.
Proof.
  intros [_ HV] (v & Hv & Ht). destruct (HV r v Hv) as (v' & ? & _ & ?).
  exists v'. split; [done|congruence].
Qed.
#[export] Instance has_type_Mono r o : Mono stable (has_type r o).
Proof. intros c c' [HG _]. by apply has_type_mono. Qed.

Lemma live_some_opt o c : live_some o c -> live_opt o c.
Proof. by intros (t & -> & Hl) t' [= <-]. Qed.

(** Facts about the context, for the parse context. *)
#[export] Instance live_PMono t : Mono pgrow (fun s => live t (context s)).
Proof. intros c c' [HT _]. by apply live_mono. Qed.
#[export] Instance live_opt_PMono o : Mono pgrow (fun s => live_opt o (context s)).
Proof. intros c c' [HT _] H t Ht. eapply live_mono; eauto. Qed.
#[export] Instance live_some_PMono o : Mono pgrow (fun s => live_some o (context s)).
Proof. intros c c' [HT _] (t & Ht & Hl). exists t. split; [done|by eapply live_mono]. Qed.
#[export] Instance has_type_PMono r o : Mono pgrow (fun s => has_type r o (context s)).
Proof. intros c c' HG. by apply has_type_mono. Qed.
#[export] Instance nonproxy_PMono r : Mono pgrow (fun s => nonproxy r (context s)).
Proof. intros c c' HG. by apply nonproxy_mono. Qed.
#[export] Instance entry_ok_PMono r : Mono pgrow (fun s => entry_ok r (context s)).
Proof. intros c c' HG. by apply entry_ok_mono. Qed.

(** * The type factories *)

Lemma run_type_op_tspec o :
  tspec (fun s => op_valid s o) (run_type_op o) live_type.
Proof.
  intros s r s' Hwf Hv E. destruct (run_type_op_spec s o Hwf Hv) as (r' & s'' & E' & ? & ? & ? & _).
  rewrite E in E'. injection E' as -> ->. split_and!; [done..|]. by eexists.
Qed.

Lemma type_at_inv r s t s' : type_at r s = Ok (t, s') -> s' = s /\ type_heap s !! r = Some t.
Proof.
  unfold type_at, mbind, M_bind, gets, derefM, lift. destruct (type_heap s !! r); simpl; [|done].
  by intros [= -> ->].
Qed.

Lemma type_op_tspec o Pre :
  (forall s, Pre s -> op_valid s o) -> tspec Pre (run_type_op o) live_type.
Proof. intros H. eapply spec_conseq; [apply run_type_op_tspec|done|done]. Qed.

(** A factory that looks at the type it is given first. *)
Lemma after_type_at_tspec {A} o c (m : M TypeState A) (k : M TypeState tyref) Pre :
  type_refs (op_type o) = [c] -> base_ok (op_type o) ->
  run_type_op o = (_ ← type_at c; k) -> tspec Pre (_ ← type_at c; k) live_type.
Proof.
  intros Hr Hb Ho s r s' Hwf _ E. rewrite <- Ho in E.
  eapply (type_op_tspec o (fun s => op_valid s o)); [done|done| |done].
  rewrite Ho in E. apply bindM_Ok in E as (t & s1 & [-> Ht]%type_at_inv & _).
  split; [|done]. rewrite Hr. repeat constructor. by apply lookup_lt_Some in Ht.
Qed.

Lemma PointerType_get_tspec p a Pre : tspec Pre (PointerType_get p a) live_type.
Proof. by apply (after_type_at_tspec (A := tyref) (OpPointer p a) p (mret p)). Qed.
Lemma ArrayType_get_tspec e n Pre : tspec Pre (ArrayType_get e n) live_type.
Proof. by apply (after_type_at_tspec (A := tyref) (OpArray e n) e (mret e)). Qed.
Lemma VectorType_get_tspec n e Pre : tspec Pre (VectorType_get n e) live_type.
Proof. by apply (after_type_at_tspec (A := tyref) (OpVector n e) e (mret e)). Qed.
Lemma Type_getIntTy_tspec w Pre : tspec Pre (Type_getIntTy w) live_type.
Proof. apply (type_op_tspec (OpInt w)). intros s _. split; [constructor|done]. Qed.
Lemma Type_getTy_tspec id Pre : is_base_id id = true -> tspec Pre (Type_getTy id) live_type.
Proof. intros. apply (type_op_tspec (OpBase id)). intros s _. split; [constructor|done]. Qed.

Lemma live_members ms s :
  Forall (fun o => forall t, o = Some t -> live_type t s) ms ->
  Forall (fun c => (c < length (type_heap s))%nat) (omap id ms).
Proof.
  induction 1 as [|[t|] ms Ho _ IH]; simpl; [constructor| |done].
  constructor; [|done]. apply lookup_lt_is_Some. by apply Ho.
Qed.

Lemma StructType_get_tspec ms nm Pre :
  (forall s, Pre s -> Forall (fun o => forall t, o = Some t -> live_type t s) ms) ->
  tspec Pre (StructType_get ms nm) live_type.
Proof.
  intros H. apply (type_op_tspec (OpStruct ms nm)). intros s HP. split; [|done].
  apply live_members. auto.
Qed.

Lemma FunctionType_new_tspec r args Pre :
  (forall s, Pre s -> live_type r s /\ Forall (fun o => forall t, o = Some t -> live_type t s) args) ->
  tspec Pre (FunctionType_new r args) live_type.
Proof.
  intros H. apply (type_op_tspec (OpFunction r args)). intros s HP. destruct (H s HP) as [Hr Ha].
  split; [|done]. constructor; [by apply lookup_lt_is_Some|]. by apply live_members.
Qed.

Lemma type_at_tspec r Pre : tspec Pre (type_at r) (fun _ => live_type r).
Proof. intros s t s' Hwf _ [-> Ht]%type_at_inv. split_and!; [done|done|by eexists]. Qed.

Lemma Type_getScalarType_tspec r Pre : tspec Pre (Type_getScalarType r) (fun _ _ => True).
Proof.
  apply spec_any. spec_bind_step; [apply type_at_tspec|]. intros t. by apply spec_ret; [apply _|].
Qed.

#[export] Hint Resolve PointerType_get_tspec ArrayType_get_tspec VectorType_get_tspec
  Type_getIntTy_tspec Type_getTy_tspec type_at_tspec Type_getScalarType_tspec : spec.

(** * The value heap *)

Definition has_kind (r : vref) (k : ValueKind) (c : VState) : Prop :=
  exists v, v_values c !! r = Some v /\ val_kind v = k.

#[export] Instance has_kind_Mono r k : Mono stable (has_kind r k).
Proof.
  intros c c' [[_ HV] _] (v & Hv & Hk). destruct (HV r v Hv) as (v' & ? & ? & _).
  exists v'. split; [done|congruence].
Qed.

Lemma on_types_vspec {A} (m : M TypeState A) Pre Pre' Q :
  tspec Pre' m Q -> (forall c, Pre c -> Pre' (v_types c)) ->
  vspec Pre (on_types m) (fun a c => Q a (v_types c)).
Proof.
  intros H HP c a c' Hwf HPre. unfold on_types, zoom.
  destruct (m (v_types c)) as [[b t]| |] eqn:E; [|done..]. intros [= <- <-].
  destruct (H _ _ _ Hwf (HP _ HPre) E) as (? & ? & ?). split_and!; [done| |done].
  split; [|done]. split; [done|]. simpl. eauto.
Qed.

Lemma value_at_inv r c v c' : value_at r c = Ok (v, c') -> c' = c /\ v_values c !! r = Some v.
Proof.
  unfold value_at, mbind, M_bind, gets, derefM, lift. destruct (v_values c !! r); simpl; [|done].
  by intros [= -> ->].
Qed.

Lemma value_at_vspec r Pre : vspec Pre (value_at r) (fun v => has_kind r (val_kind v)).
Proof. intros c v c' Hwf _ [-> Hv]%value_at_inv. split_and!; [done|done|by exists v]. Qed.

(** Replacing an object by one of the same class and type that is the same proxy, if
    it is one. *)
Lemma update_stable c (r : vref) v v' :
  v_values c !! r = Some v -> val_kind v' = val_kind v -> val_type v' = val_type v ->
  (val_kind v = KProxy -> val_data v' = val_data v) ->
  stable c (mkV (v_types c) (<[r := v']> (v_values c)) (v_mds c)).
Proof.
  intros Hv Hk Ht Hp. pose proof (lookup_lt_Some _ _ _ Hv) as Hlt. split; [split; [done|]|].
  - intros r0 w Hw. simpl. destruct (decide (r0 = r)) as [->|Hne].
    + exists v'. rewrite list_lookup_insert_eq by done. split_and!; congruence.
    + exists w. by rewrite list_lookup_insert_ne by done.
  - intros r0 id p. unfold proxy_at. simpl. destruct (decide (r0 = r)) as [->|Hne].
    + rewrite list_lookup_insert_eq by done. split.
      * intros (w & [= <-] & Hd). exists v. split; [done|]. rewrite <- Hp; [done|].
        rewrite <- Hk. apply val_kind_proxy. eauto.
      * intros (w & Hw & Hd). simplify_eq. exists v'. split; [done|]. rewrite Hp; [done|].
        apply val_kind_proxy. eauto.
    + by rewrite list_lookup_insert_ne by done.
Qed.

Lemma set_data_vspec r d Pre :
  get_value_kind d <> KProxy ->
  (forall c, Pre c -> has_kind r (get_value_kind d) c) -> vspec Pre (set_data r d) (fun _ _ => True).
Proof.
  intros Hd HP c [] c' Hwf HPre (v & c1 & [-> Hv]%value_at_inv & [= <-])%bindM_Ok.
  destruct (HP _ HPre) as (w & Hw & Hk). simplify_eq. split_and!; [done| |done].
  eapply update_stable; [done| |done|]; unfold val_kind in *; simpl; congruence.
Qed.

Lemma set_tween_id_vspec r id Pre : vspec Pre (set_tween_id r id) (fun _ _ => True).
Proof.
  intros c [] c' Hwf _ (v & c1 & [-> Hv]%value_at_inv & [= <-])%bindM_Ok.
  split_and!; [done| |done]. by eapply update_stable.
Qed.

Lemma setMetadata_vspec r str node Pre :
  vspec Pre (Instruction_setMetadata r str node) (fun _ _ => True).
Proof.
  intros c [] c' Hwf _ (v & c1 & [-> Hv]%value_at_inv & [= <-])%bindM_Ok.
  split_and!; [done| |done]. by eapply update_stable.
Qed.

Lemma construct_value_vspec v Pre :
  val_kind v <> KProxy -> vspec Pre (construct_value v) (fun r => has_kind r (val_kind v)).
Proof.
  intros Hk c r c' Hwf _ [= <- <-]. split_and!; [done| |].
  - split; [split; [done|]|].
    + intros r w Hw. exists w. split; [|done]. simpl. by apply lookup_app_l_Some.
    + intros r id p. unfold proxy_at. simpl. split.
      * intros (w & [[_ Hw]|[_ <-]]%lookup_snoc_Some & Hd); [by exists w|].
        destruct Hk. apply val_kind_proxy. eauto.
      * intros (w & Hw & Hd). exists w. split; [|done]. by apply lookup_app_l_Some.
  - exists v. split; [|done]. simpl. by apply list_lookup_middle.
Qed.

Lemma has_kind_nonproxy r k c : has_kind r k c -> k <> KProxy -> nonproxy r c.
Proof. intros (v & ? & ?) ?. exists v. split; [done|congruence]. Qed.

Lemma construct_md_vspec m Pre : vspec Pre (construct_md m) (fun _ _ => True).
Proof.
  intros c r c' Hwf _ [= <- <-]. split_and!; [done| |done].
  split; [split; [done|]|done]. simpl. eauto.
Qed.

#[export] Hint Resolve value_at_vspec set_tween_id_vspec setMetadata_vspec construct_md_vspec : spec.
#[export] Hint Extern 1 (spec _ _ _ (construct_value _) _) =>
  apply construct_value_vspec; discriminate : spec.
#[export] Hint Extern 1 (spec _ _ _ (set_data _ _) _) =>
  apply set_data_vspec; [discriminate|spec_facts] : spec.
(** A type factory inside the value layer. *)
#[export] Hint Extern 1 (spec _ _ _ (on_types _) _) =>
  eapply (on_types_vspec _ _ (fun _ => True)); [spec_known|done] : spec.

Lemma deref_type_inv o c t c' :
  deref_type o c = Ok (t, c') -> c' = c /\ exists ty, o = Some ty /\ type_heap (v_types c) !! ty = Some t.
Proof.
  intros (ty & c1 & E & E2)%bindM_Ok. unfold derefM, lift in E. destruct o as [ty0|]; [|done].
  injection E as <- <-. unfold on_types, zoom in E2.
  destruct (type_at ty0 (v_types c)) as [[t0 s]| |] eqn:Et; [|done..].
  apply type_at_inv in Et as [-> Ht]. injection E2 as -> <-. split; [by destruct c|eauto].
Qed.

Lemma deref_type_vspec o Pre : vspec Pre (deref_type o) (fun _ => live_some o).
Proof.
  intros c t c' Hwf _ [-> (ty & -> & Ht)]%deref_type_inv. split_and!; [done|done|].
  exists ty. split; [done|by exists t].
Qed.

Lemma Value_getType_vspec r Pre : vspec Pre (Value_getType r) (has_type r).
Proof.
  intros c o c' Hwf _ (v & c1 & [-> Hv]%value_at_inv & [= <- <-])%bindM_Ok.
  split_and!; [done|done|by exists v].
Qed.

Lemma live_opt_None c : live_opt None c.
Proof. by intros t. Qed.
#[export] Hint Resolve live_some_opt live_opt_None : spec.
#[export] Hint Resolve deref_type_vspec Value_getType_vspec : spec.

Lemma resolve_proxy_vspec o Pre : vspec Pre (resolve_proxy o) (fun _ _ => True).
Proof. apply spec_any. unfold resolve_proxy. spec_run. Qed.
#[export] Hint Resolve resolve_proxy_vspec : spec.

Lemma cast_vspec k o Pre : vspec Pre (cast k o) (fun _ _ => True).
Proof. apply spec_any. unfold cast. spec_run. Qed.
Lemma dyn_cast_vspec k o Pre : vspec Pre (dyn_cast k o) (fun _ _ => True).
Proof. apply spec_any. unfold dyn_cast. spec_run. Qed.
#[export] Hint Resolve cast_vspec dyn_cast_vspec : spec.

#[export] Hint Extern 2 (nonproxy _ _) =>
  eapply has_kind_nonproxy; [eassumption|discriminate] : spec.
#[export] Hint Extern 2 (has_kind _ _ _) => eassumption : spec.
(** The class of an object whose data was inspected. *)
#[export] Hint Extern 2 (has_kind ?r _ ?c) =>
  match goal with H : has_kind r (val_kind ?v) c, E : val_data ?v = _ |- _ =>
    unfold val_kind in H; rewrite E in H; exact H end : spec.

(** Every instruction constructor makes an object of its class. *)
Local Ltac constructor_spec f := apply spec_any; unfold f; spec_run.

Section constructors.
Context (Pre : VState -> Prop).
Implicit Types (a b r : vref) (o : option vref) (ty : option tyref) (t : tyref).

Lemma BinaryOperator_new_vspec a b op :
  vspec Pre (BinaryOperator_new a b op) (fun r => has_kind r KBinaryOperator).
Proof. constructor_spec BinaryOperator_new. Qed.
Lemma UnaryOperator_new_vspec op a : vspec Pre (UnaryOperator_new op a) nonproxy.
Proof. constructor_spec UnaryOperator_new. Qed.
Lemma ReturnInst_new_vspec o : vspec Pre (ReturnInst_new o) nonproxy.
Proof. constructor_spec ReturnInst_new. Qed.
Lemma UnreachableInst_new_vspec : vspec Pre UnreachableInst_new nonproxy.
Proof. constructor_spec UnreachableInst_new. Qed.
Lemma CallInst_new_vspec t a ps : vspec Pre (CallInst_new t a ps) nonproxy.
Proof. constructor_spec CallInst_new. Qed.
Lemma get_cmp_result_type_vspec ty : vspec Pre (get_cmp_result_type ty) live.
Proof. constructor_spec get_cmp_result_type. Qed.
End constructors.
#[export] Hint Resolve BinaryOperator_new_vspec UnaryOperator_new_vspec ReturnInst_new_vspec
  UnreachableInst_new_vspec CallInst_new_vspec get_cmp_result_type_vspec : spec.

Section more_constructors.
Context (Pre : VState -> Prop).
Implicit Types (a b r : vref) (o : option vref) (ty : option tyref) (t : tyref).

Lemma FCmpInst_new_vspec p a b : vspec Pre (FCmpInst_new p a b) nonproxy.
Proof. apply spec_any. unfold FCmpInst_new, CmpInst_new. spec_run. Qed.
Lemma ICmpInst_new_vspec p a b : vspec Pre (ICmpInst_new p a b) nonproxy.
Proof. apply spec_any. unfold ICmpInst_new, CmpInst_new. spec_run. Qed.
Lemma CastInst_new_vspec t a op : vspec Pre (CastInst_new t a op) nonproxy.
Proof. constructor_spec CastInst_new. Qed.
Lemma SelectInst_new_vspec a b o : vspec Pre (SelectInst_new a b o) nonproxy.
Proof. constructor_spec SelectInst_new. Qed.
Lemma ExtractValueInst_new_vspec ty a l : vspec Pre (ExtractValueInst_new ty a l) nonproxy.
Proof. constructor_spec ExtractValueInst_new. Qed.
Lemma BranchInst_new_cond_vspec a b o : vspec Pre (BranchInst_new_cond a b o) nonproxy.
Proof. constructor_spec BranchInst_new_cond. Qed.
Lemma BranchInst_new_vspec a : vspec Pre (BranchInst_new a) nonproxy.
Proof. constructor_spec BranchInst_new. Qed.
Lemma SwitchInst_new_vspec a b : vspec Pre (SwitchInst_new a b) nonproxy.
Proof. constructor_spec SwitchInst_new. Qed.
Lemma PHINode_new_vspec ty : vspec Pre (PHINode_new ty) nonproxy.
Proof. constructor_spec PHINode_new. Qed.
Lemma AllocaInst_new_vspec t a : vspec Pre (AllocaInst_new t a) nonproxy.
Proof. constructor_spec AllocaInst_new. Qed.
Lemma GetElementPtrInst_new_vspec t l inb : vspec Pre (GetElementPtrInst_new t l inb) nonproxy.
Proof. constructor_spec GetElementPtrInst_new. Qed.
Lemma LoadInst_new_vspec ty a : vspec Pre (LoadInst_new ty a) nonproxy.
Proof. constructor_spec LoadInst_new. Qed.
Lemma StoreInst_new_vspec a b : vspec Pre (StoreInst_new a b) nonproxy.
Proof. constructor_spec StoreInst_new. Qed.
Lemma AtomicRMWInst_new_vspec ty a b op : vspec Pre (AtomicRMWInst_new ty a b op) nonproxy.
Proof. constructor_spec AtomicRMWInst_new. Qed.
Lemma AtomicCmpXchgInst_new_vspec a b o : vspec Pre (AtomicCmpXchgInst_new a b o) nonproxy.
Proof.
  apply spec_any. unfold AtomicCmpXchgInst_new.
  do 4 (spec_bind_step; [spec_known|intros ?]).
  spec_bind_step.
  - eapply (on_types_vspec _ _ (fun s => (forall t, a1 = Some t -> live_type t s) /\ live_type a3 s)).
    + apply StructType_get_tspec. intros s [H1 H2]. repeat constructor; [done|].
      by intros t [= <-].
    + intros c [[_ Ha1%live_some_opt] Ha3]. by split.
  - intros. spec_run.
Qed.
Lemma shuffle_mask_element_vspec a i : vspec Pre (shuffle_mask_element a i) (fun _ _ => True).
Proof.
  apply spec_any. unfold shuffle_mask_element, ConstantDataVector_getElementAsConstant,
    element_as_constant, Constant_getUniqueInteger, APInt_getSExtValue, APInt_width. spec_run.
Qed.
Lemma ExtractElementInst_new_vspec a b : vspec Pre (ExtractElementInst_new a b) nonproxy.
Proof. constructor_spec ExtractElementInst_new. Qed.
Lemma InsertElementInst_new_vspec a b r : vspec Pre (InsertElementInst_new a b r) nonproxy.
Proof. constructor_spec InsertElementInst_new. Qed.
Lemma BasicBlock_new_vspec : vspec Pre BasicBlock_new nonproxy.
Proof. constructor_spec BasicBlock_new. Qed.
Lemma Function_new_vspec t i : vspec Pre (Function_new t i) (fun r => has_kind r KFunction).
Proof. constructor_spec Function_new. Qed.
Lemma ConstantInt_get_vspec ty x :
  vspec Pre (ConstantInt_get ty x) (fun r => has_kind r KConstantInt).
Proof. constructor_spec ConstantInt_get. Qed.
Lemma ConstantFP_get_vspec ty x :
  vspec Pre (ConstantFP_get ty x) (fun r => has_kind r KConstantFP).
Proof. constructor_spec ConstantFP_get. Qed.
Lemma UndefValue_get_vspec ty : vspec Pre (UndefValue_get ty) (fun r => has_kind r KUndef).
Proof. constructor_spec UndefValue_get. Qed.
End more_constructors.
#[export] Hint Resolve shuffle_mask_element_vspec : spec.

Lemma ShuffleVectorInst_new_vspec t a b r Pre :
  vspec Pre (ShuffleVectorInst_new t a b r) nonproxy.
Proof. apply spec_any. unfold ShuffleVectorInst_new. spec_run. Qed.

#[export] Hint Resolve FCmpInst_new_vspec ICmpInst_new_vspec CastInst_new_vspec
  SelectInst_new_vspec ExtractValueInst_new_vspec BranchInst_new_cond_vspec BranchInst_new_vspec
  SwitchInst_new_vspec PHINode_new_vspec AllocaInst_new_vspec GetElementPtrInst_new_vspec
  LoadInst_new_vspec StoreInst_new_vspec AtomicRMWInst_new_vspec AtomicCmpXchgInst_new_vspec
  ExtractElementInst_new_vspec InsertElementInst_new_vspec BasicBlock_new_vspec
  Function_new_vspec ConstantInt_get_vspec ConstantFP_get_vspec UndefValue_get_vspec
  ShuffleVectorInst_new_vspec : spec.

(** Updates of objects in place. *)
Section updates.
Context (Pre : VState -> Prop).
Implicit Types (r : vref).

Lemma bb_at_vspec r : vspec Pre (bb_at r) (fun _ => has_kind r KBasicBlock).
Proof. constructor_spec bb_at. Qed.
Lemma fn_at_vspec r : vspec Pre (fn_at r) (fun _ => has_kind r KFunction).
Proof. constructor_spec fn_at. Qed.
Lemma Instruction_isTerminator_vspec r : vspec Pre (Instruction_isTerminator r) (fun _ _ => True).
Proof. constructor_spec Instruction_isTerminator. Qed.
Lemma dyn_cast_MDNode_vspec r : vspec Pre (dyn_cast_MDNode r) (fun _ _ => True).
Proof. constructor_spec dyn_cast_MDNode. Qed.
Lemma Constant_getUniqueInteger_vspec r :
  vspec Pre (Constant_getUniqueInteger r) (fun _ _ => True).
Proof. constructor_spec Constant_getUniqueInteger. Qed.
Lemma APInt_getZExtValue_vspec a : vspec Pre (APInt_getZExtValue a) (fun _ _ => True).
Proof. apply spec_any. unfold APInt_getZExtValue, APInt_width. spec_run. Qed.
End updates.
#[export] Hint Resolve bb_at_vspec fn_at_vspec Instruction_isTerminator_vspec
  dyn_cast_MDNode_vspec Constant_getUniqueInteger_vspec APInt_getZExtValue_vspec : spec.


Section setters.
Context (Pre : VState -> Prop).
Implicit Types (r : vref).

Lemma BinaryOperator_setFast_vspec r e : vspec Pre (BinaryOperator_setFast r e) (fun _ _ => True).
Proof. constructor_spec BinaryOperator_setFast. Qed.
Lemma PHINode_add_incoming_vspec r a b :
  vspec Pre (PHINode_add_incoming r a b) (fun _ _ => True).
Proof. constructor_spec PHINode_add_incoming. Qed.
Lemma SwitchInst_addCase_vspec r a b : vspec Pre (SwitchInst_addCase r a b) (fun _ _ => True).
Proof. constructor_spec SwitchInst_addCase. Qed.
Lemma BasicBlock_add_successor_vspec r a :
  vspec Pre (BasicBlock_add_successor r a) (fun _ _ => True).
Proof. constructor_spec BasicBlock_add_successor. Qed.
Lemma BasicBlock_add_instruction_vspec r a :
  vspec Pre (BasicBlock_add_instruction r a) (fun _ _ => True).
Proof. constructor_spec BasicBlock_add_instruction. Qed.
Lemma Function_add_argument_vspec r a :
  vspec Pre (Function_add_argument r a) (fun _ _ => True).
Proof. constructor_spec Function_add_argument. Qed.
Lemma Function_set_attributes_vspec r l :
  vspec Pre (Function_set_attributes r l) (fun _ _ => True).
Proof. constructor_spec Function_set_attributes. Qed.
Lemma Function_set_basic_blocks_vspec r l :
  vspec Pre (Function_set_basic_blocks r l) (fun _ _ => True).
Proof. constructor_spec Function_set_basic_blocks. Qed.
Lemma GlobalVariable_set_initializer_vspec r a :
  vspec Pre (GlobalVariable_set_initializer r a) (fun _ _ => True).
Proof. constructor_spec GlobalVariable_set_initializer. Qed.
End setters.
#[export] Hint Resolve BinaryOperator_setFast_vspec PHINode_add_incoming_vspec
  SwitchInst_addCase_vspec BasicBlock_add_successor_vspec BasicBlock_add_instruction_vspec
  Function_add_argument_vspec Function_set_attributes_vspec Function_set_basic_blocks_vspec
  GlobalVariable_set_initializer_vspec : spec.

(** [resolve_proxy_values] only rewrites operands and the incoming values of a phi. *)
Lemma resolve_proxy_values_vspec r Pre : vspec Pre (resolve_proxy_values r) (fun _ _ => True).
Proof.
  intros c [] c' Hwf _ (v & c1 & [-> Hv]%value_at_inv & E)%bindM_Ok.
  apply bindM_Ok in E as (c1 & c2 & [= <- <-] & E).
  apply bindM_Ok in E as (ops & c2 & E1 & E). unfold lift in E1.
  destruct (resolve_operands _ _); [|done..]. injection E1 as -> <-.
  apply bindM_Ok in E as (d & c2 & E1 & E). injection E as <-.
  assert (c2 = c /\ get_value_kind d = val_kind v /\ (val_kind v = KProxy -> d = val_data v))
    as (-> & Hk & Hp).
  { unfold val_kind. destruct (val_data v); try (injection E1 as <- <-; by split_and!).
    apply bindM_Ok in E1 as (inc & c3 & E1 & [= <- <-]). unfold lift in E1.
    destruct (resolve_incoming _ _); [|done..]. by injection E1 as _ <-. }
  split_and!; [done| |done]. by eapply update_stable.
Qed.
#[export] Hint Resolve resolve_proxy_values_vspec : spec.

(** Objects that may enter the value table. *)
#[export] Instance entry_ok_Mono r : Mono stable (entry_ok r).
Proof. intros c c' [HG _]. by apply entry_ok_mono. Qed.

Lemma construct_entry_vspec v t Pre :
  val_kind v <> KProxy -> val_type v = Some t -> (forall c, Pre c -> live t c) ->
  vspec Pre (construct_value v) entry_ok.
Proof.
  intros Hk Ht HP c r c' Hwf HPre E.
  destruct (construct_value_vspec v (fun _ => True) Hk c r c' Hwf I E) as (? & Hs & _).
  split_and!; [done|done|]. injection E as <- <-. exists v, t. simpl.
  split_and!; [by apply list_lookup_middle|done|done|]. by apply (HP c).
Qed.

Lemma entry_after_deref v t Pre :
  val_kind v <> KProxy -> val_type v = Some t ->
  vspec Pre (_ ← deref_type (Some t); construct_value v) entry_ok.
Proof.
  intros. apply spec_any. spec_bind_step; [spec_known|]. intros ty.
  by apply (construct_entry_vspec _ t); [done|done|intros c [_ Hl%live_some_opt]; apply Hl].
Qed.

Lemma ConstantInt_get_entry t x Pre : vspec Pre (ConstantInt_get (Some t) x) entry_ok.
Proof. by apply (entry_after_deref _ t). Qed.
Lemma ConstantFP_get_entry t x Pre : vspec Pre (ConstantFP_get (Some t) x) entry_ok.
Proof. by apply (entry_after_deref _ t). Qed.
Lemma UndefValue_get_entry t Pre : vspec Pre (UndefValue_get (Some t)) entry_ok.
Proof. by apply (entry_after_deref _ t). Qed.

(** * Steps of the parse context *)

Lemma entry_ok_intro r t c :
  nonproxy r c -> has_type r (Some t) c -> live t c -> entry_ok r c.
Proof. intros (v & Hv & Hk) (v' & Hv' & Ht) Hl. exists v, t. split_and!; congruence. Qed.

Lemma entry_ok_live_some r o c : nonproxy r c -> has_type r o c -> live_some o c -> entry_ok r c.
Proof. intros Hn Ht (t & -> & Hl). by eapply entry_ok_intro. Qed.
#[export] Hint Extern 2 (entry_ok _ _) => eapply entry_ok_live_some; eassumption : spec.

#[export] Instance has_kind_PMono r k : Mono pgrow (fun s => has_kind r k (context s)).
Proof.
  intros s s' [_ HV] (v & Hv & Hk). destruct (HV r v Hv) as (v' & ? & ? & _).
  exists v'. split; [done|congruence].
Qed.
#[export] Instance live_type_PMono t : Mono pgrow (fun s => live_type t (v_types (context s))).
Proof. intros s s' [HT _]. by apply live_mono. Qed.

Lemma on_context_pspec {A} (m : M VState A) Pre Pre' Q :
  vspec Pre' m Q -> (forall s, Pre s -> Pre' (context s)) ->
  pspec Pre (on_context m) (fun a s => Q a (context s)).
Proof.
  intros H HP s a s' Hi HPre. unfold on_context, zoom.
  destruct (m (context s)) as [[b c]| |] eqn:E; [|done..]. intros [= <- <-].
  destruct (H _ _ _ (inv_types_wf s Hi) (HP _ HPre) E) as (Hwf & [HG Hpx] & HQ).
  split_and!; [|done|done]. destruct Hi as [H1 H2 H3 H4 H5 H6].
  split; cbn [context tables pending_forward_references].
  - done.
  - eapply list.Forall_impl; [exact H2|]. intros t. by apply live_mono, HG.
  - intros t Ht. eapply live_mono; [apply HG|eauto].
  - eapply list.Forall_impl; [exact H4|]. intros r. by apply entry_ok_mono.
  - intros r id Hr%Hpx. eauto.
  - intros r id p Hr%Hpx. eapply nonproxy_mono; [done|eauto].
Qed.

Lemma on_ctypes_pspec {A} (m : M TypeState A) Pre Pre' Q :
  tspec Pre' m Q -> (forall s, Pre s -> Pre' (v_types (context s))) ->
  pspec Pre (on_ctypes m) (fun a s => Q a (v_types (context s))).
Proof.
  intros H HP. apply (on_context_pspec _ _ (fun c => Pre' (v_types c)) (fun a c => Q a (v_types c)));
    [|done]. by eapply on_types_vspec.
Qed.

Lemma pgrow_same s s' : context s' = context s -> pgrow s s'.
Proof. unfold pgrow. by intros ->. Qed.

Lemma on_module_pspec f Pre : pspec Pre (on_module f) (fun _ _ => True).
Proof. apply spec_modify. intros s [] _. split_and!; [by split|by apply pgrow_same|done]. Qed.
Lemma on_meta_pspec f Pre : pspec Pre (on_meta f) (fun _ _ => True).
Proof. apply spec_modify. intros s [] _. split_and!; [by split|by apply pgrow_same|done]. Qed.
Lemma on_body_pspec f Pre : pspec Pre (on_body f) (fun _ _ => True).
Proof. apply spec_modify. intros s [] _. split_and!; [by split|by apply pgrow_same|done]. Qed.
Lemma set_initializations_pspec l Pre : pspec Pre (set_initializations l) (fun _ _ => True).
Proof. apply spec_modify. intros s [] _. split_and!; [by split|by apply pgrow_same|done]. Qed.
Lemma set_flags_pspec a b c Pre : pspec Pre (set_flags a b c) (fun _ _ => True).
Proof. apply spec_modify. intros s [] _. split_and!; [by split|by apply pgrow_same|done]. Qed.

(** Table updates that keep the values, the types and the constant type. *)
Lemma on_tables_pspec f Pre :
  (forall t, values (f t) = values t /\ types (f t) = types t /\ constant_type (f t) = constant_type t) ->
  pspec Pre (on_tables f) (fun _ _ => True).
Proof.
  intros Hf. apply spec_modify. intros s [] _. destruct (Hf (tables s)) as (E1 & E2 & E3).
  split_and!; [|by apply pgrow_same|done]. split; cbn [context tables pending_forward_references];
    rewrite ?E1, ?E2, ?E3; done.
Qed.

Lemma set_values_pspec l Pre :
  (forall s, Pre s -> Forall (fun r => entry_ok r (context s)) l) ->
  pspec Pre (set_values l) (fun _ _ => True).
Proof.
  intros H. apply spec_modify. intros s [] HP. split_and!; [|by apply pgrow_same|done]. split; simpl; try done. by apply H.
Qed.

Lemma push_value_pspec r Pre :
  (forall s, Pre s -> entry_ok r (context s)) -> pspec Pre (push_value r) (fun _ _ => True).
Proof.
  intros H. apply spec_modify. intros s [] HP. split_and!; [|by apply pgrow_same|done]. split; simpl; try done.
  cbn. apply Forall_app. split; [done|]. constructor; [by apply H|done].
Qed.

Lemma add_type_pspec t Pre :
  (forall s, Pre s -> live_type t (v_types (context s))) -> pspec Pre (add_type t) (fun _ _ => True).
Proof.
  intros H. apply spec_modify. intros s [] HP. split_and!; [|by apply pgrow_same|done]. split; simpl; try done.
  cbn. apply Forall_app. split; [done|]. constructor; [by apply H|done].
Qed.

Lemma set_constant_type_pspec o Pre :
  (forall s, Pre s -> live_opt o (context s)) -> pspec Pre (set_constant_type o) (fun _ _ => True).
Proof.
  intros H. apply spec_modify. intros s [] HP. split_and!; [|by apply pgrow_same|done]. split; simpl; try done. by apply H.
Qed.

Lemma next_tween_id_pspec Pre : pspec Pre next_tween_id (fun _ _ => True).
Proof.
  apply spec_any. unfold next_tween_id. spec_bind_step; [apply gets_spec; apply _|]. intros id.
  spec_bind_step; [apply on_tables_pspec; by intros []|]. intros []. apply spec_ret; [apply _|done].
Qed.

Lemma get_type_pspec i Pre : pspec Pre (get_type i) (fun o s => live_opt o (context s)).
Proof.
  apply spec_gets; [apply _|]. intros s Hi _ t Ht. unfold zlookup in Ht.
  destruct (0 <=? i); [|done]. exact (Forall_lookup_1 _ _ _ _ (inv_types s Hi) Ht).
Qed.

Lemma get_basic_block_pspec i Pre : pspec Pre (get_basic_block i) (fun _ _ => True).
Proof. by apply spec_gets; [apply _|]. Qed.
Lemma get_instruction_pspec i Pre : pspec Pre (get_instruction i) (fun _ _ => True).
Proof. by apply spec_gets; [apply _|]. Qed.
Lemma get_metadata_kind_name_pspec i Pre : pspec Pre (get_metadata_kind_name i) (fun _ _ => True).
Proof. by apply spec_gets; [apply _|]. Qed.

#[export] Hint Resolve on_module_pspec on_meta_pspec on_body_pspec set_initializations_pspec
  set_flags_pspec next_tween_id_pspec get_type_pspec get_basic_block_pspec get_instruction_pspec
  get_metadata_kind_name_pspec : spec.
#[export] Hint Extern 1 (spec _ _ _ (on_tables _) _) => apply on_tables_pspec; by intros [] : spec.
#[export] Hint Extern 1 (spec _ _ _ (push_value _) _) => apply push_value_pspec; spec_facts : spec.
#[export] Hint Extern 1 (spec _ _ _ (add_type _) _) => apply add_type_pspec; spec_facts : spec.
#[export] Hint Extern 1 (spec _ _ _ (set_constant_type _) _) =>
  apply set_constant_type_pspec; spec_facts : spec.
#[export] Hint Extern 1 (spec _ _ _ (on_context _) _) =>
  eapply (on_context_pspec _ _ (fun _ => True)); [spec_known|done] : spec.
#[export] Hint Extern 1 (spec _ _ _ (on_ctypes _) _) =>
  eapply (on_ctypes_pspec _ _ (fun _ => True)); [spec_known|done] : spec.

Lemma get_constant_type_pspec Pre :
  pspec Pre get_constant_type (fun t s => live_type t (v_types (context s))).
Proof.
  apply spec_any. intros s t s' Hi _ E. unfold get_constant_type in E.
  apply bindM_Ok in E as (o & s1 & [= <- <-] & E).
  destruct (constant_type (tables s)) as [t0|] eqn:Ht.
  - injection E as <- <-. split_and!; [done|done|]. by apply (inv_constant s Hi).
  - eapply (on_ctypes_pspec _ (fun _ => True) (fun _ => True)); [apply Type_getIntTy_tspec|done|done|done|done].
Qed.

(** A new proxy is pending at once. *)
Lemma new_forward_reference_pspec ty i Pre :
  pspec Pre (new_forward_reference ty i) (fun _ _ => True).
Proof.
  apply spec_any. intros s r s' Hi _ E. unfold new_forward_reference in E.
  apply bindM_Ok in E as (r0 & s1 & E1 & E). apply bindM_Ok in E as (l & s2 & [= <- <-] & E).
  apply bindM_Ok in E as ([] & s3 & [= <-] & [= <- <-]). injection E1 as <- <-.
  set (pv := plain_value ty (ValueProxy i None)). set (n := length (v_values (context s))).
  set (c' := mkV _ _ _).
  assert (grow (context s) c') as HG.
  { split; [done|]. intros r w Hw. exists w. split; [|done]. simpl. by apply lookup_app_l_Some. }
  assert (forall r id p, proxy_at c' r id p -> proxy_at (context s) r id p \/ (r = n /\ p = None)) as Hpx.
  { intros r id p (w & [[_ Hw]|[-> <-]]%lookup_snoc_Some & Hd); [left; by exists w|right].
    by injection Hd as _ <-. }
  split_and!; [|exact HG|done]. destruct Hi as [H1 H2 H3 H4 H5 H6].
  split; cbn [context tables pending_forward_references].
  - done.
  - eapply list.Forall_impl; [exact H2|]. intros t. by apply live_mono, HG.
  - intros t Ht. eapply live_mono; [apply HG|eauto].
  - eapply list.Forall_impl; [exact H4|]. intros r. by apply entry_ok_mono.
  - intros r id [Hr|[-> _]]%Hpx; apply elem_of_app; [left; eauto|right; by left].
  - intros r id p [Hr|[_ ?]]%Hpx; [|done]. eapply nonproxy_mono; [done|eauto].
Qed.
#[export] Hint Resolve get_constant_type_pspec new_forward_reference_pspec : spec.

(** ** Lookups and registration *)

Local Ltac parse_spec f := apply spec_any; unfold f; spec_run.

Section context_steps.
Context (Pre : ModuleParseContext -> Prop).
Implicit Types (o : option tyref) (r : vref).

Lemma strip_function_pointer_pspec o : pspec Pre (strip_function_pointer o) (fun _ _ => True).
Proof. parse_spec strip_function_pointer. Qed.
Lemma get_metadata_pspec i : pspec Pre (get_metadata i) (fun _ _ => True).
Proof. parse_spec get_metadata. Qed.
Lemma finish_basic_block_pspec : pspec Pre finish_basic_block (fun _ _ => True).
Proof. apply spec_any; unfold finish_basic_block, set_current_bb; spec_run. Qed.
Lemma add_successor_pspec r : pspec Pre (add_successor r) (fun _ _ => True).
Proof. parse_spec add_successor. Qed.
Lemma translate_binop_pspec op o : pspec Pre (translate_binop op o) (fun _ _ => True).
Proof. parse_spec translate_binop. Qed.
Lemma translate_uop_pspec op o : pspec Pre (translate_uop op o) (fun _ _ => True).
Proof. parse_spec translate_uop. Qed.
End context_steps.
#[export] Hint Resolve strip_function_pointer_pspec get_metadata_pspec finish_basic_block_pspec
  add_successor_pspec translate_binop_pspec translate_uop_pspec : spec.

Lemma resolve_gep_path_pspec args : forall o Pre,
  pspec Pre (resolve_gep_path o args) (fun _ _ => True).
Proof. induction args as [|a args IH]; intros o Pre; apply spec_any; cbn [resolve_gep_path]; spec_run. Qed.

Lemma resolve_gep_element_type_pspec o args Pre :
  pspec Pre (resolve_gep_element_type o args) (fun _ _ => True).
Proof. apply resolve_gep_path_pspec. Qed.
#[export] Hint Resolve resolve_gep_element_type_pspec : spec.

Section value_steps.
Context (Pre : ModuleParseContext -> Prop).
Implicit Types (o : option tyref) (r : vref).

Lemma get_value_pspec op o b : pspec Pre (get_value op o b) (fun _ _ => True).
Proof. parse_spec get_value. Qed.
Lemma get_value_and_type_pspec ops i : pspec Pre (get_value_and_type ops i) (fun _ _ => True).
Proof. parse_spec get_value_and_type. Qed.
Lemma get_value_signed_pspec op o : pspec Pre (get_value_signed op o) (fun _ _ => True).
Proof. parse_spec get_value_signed. Qed.

(** The type of the value is looked at before it is registered. *)
Lemma add_value_pspec r :
  (forall s, Pre s -> nonproxy r (context s)) -> pspec Pre (add_value r) (fun _ _ => True).
Proof.
  intros HP. apply (spec_weaken_pre _ _ _ _ (fun s => nonproxy r (context s))); [done|].
  unfold add_value. spec_run.
Qed.
End value_steps.
#[export] Hint Resolve get_value_pspec get_value_and_type_pspec get_value_signed_pspec : spec.
#[export] Hint Extern 1 (spec _ _ _ (add_value _) _) => apply add_value_pspec; spec_facts : spec.

Section instruction_steps.
Context (Pre : ModuleParseContext -> Prop).
Implicit Types (o : option tyref) (r : vref).

Lemma get_value_at_pspec ops i o : pspec Pre (get_value_at ops i o) (fun _ _ => True).
Proof. parse_spec get_value_at. Qed.

Lemma add_instruction_result_pspec r :
  (forall s, Pre s -> nonproxy r (context s)) ->
  pspec Pre (add_instruction_result r) (fun _ _ => True).
Proof.
  intros HP. apply (spec_weaken_pre _ _ _ _ (fun s => nonproxy r (context s))); [done|].
  unfold add_instruction_result, push_instruction. spec_run.
Qed.
End instruction_steps.
#[export] Hint Resolve get_value_at_pspec : spec.
#[export] Hint Extern 1 (spec _ _ _ (add_instruction_result _) _) =>
  apply add_instruction_result_pspec; spec_facts : spec.

Lemma add_instruction_pspec r Pre :
  (forall s, Pre s -> nonproxy r (context s)) -> pspec Pre (add_instruction r) (fun _ _ => True).
Proof.
  intros HP. apply (spec_weaken_pre _ _ _ _ (fun s => nonproxy r (context s))); [done|].
  unfold add_instruction. spec_run.
Qed.
#[export] Hint Extern 1 (spec _ _ _ (add_instruction _) _) =>
  apply add_instruction_pspec; spec_facts : spec.

Lemma add_constructed_pspec m Pre :
  vspec (fun _ => True) m nonproxy -> pspec Pre (add_constructed m) (fun _ _ => True).
Proof. intros H. apply spec_any. unfold add_constructed. spec_run. Qed.
#[export] Hint Extern 1 (spec _ _ _ (add_constructed _) _) =>
  apply add_constructed_pspec; spec_known : spec.

(** ** Constants *)

Lemma construct_entry_pspec v t Pre :
  val_kind v <> KProxy -> val_type v = Some t ->
  (forall s, Pre s -> live_type t (v_types (context s))) ->
  pspec Pre (on_context (construct_value v)) (fun r s => entry_ok r (context s)).
Proof.
  intros Hk Ht HP. eapply (on_context_pspec _ _ (live t)); [|exact HP].
  by apply (construct_entry_vspec _ t).
Qed.

Lemma push_constant_pspec t d Pre :
  get_value_kind d <> KProxy -> (forall s, Pre s -> live_type t (v_types (context s))) ->
  pspec Pre (push_constant t d) (fun _ _ => True).
Proof.
  intros Hd HP. apply (spec_weaken_pre _ _ _ _ (fun s => live_type t (v_types (context s)))); [done|].
  unfold push_constant. spec_bind_step; [by apply (construct_entry_pspec _ t)|]. intros r. spec_run.
Qed.
#[export] Hint Extern 1 (spec _ _ _ (push_constant _ _) _) =>
  apply push_constant_pspec; [repeat case_match; discriminate|spec_facts] : spec.
(** The factories that make table entries come before the weaker facts about them. *)
#[export] Hint Extern 0 (spec _ _ _ (on_context (ConstantInt_get (Some _) _)) _) =>
  eapply (on_context_pspec _ _ (fun _ => True)); [apply ConstantInt_get_entry|done] : spec.
#[export] Hint Extern 0 (spec _ _ _ (on_context (ConstantFP_get (Some _) _)) _) =>
  eapply (on_context_pspec _ _ (fun _ => True)); [apply ConstantFP_get_entry|done] : spec.
#[export] Hint Extern 0 (spec _ _ _ (on_context (UndefValue_get (Some _))) _) =>
  eapply (on_context_pspec _ _ (fun _ => True)); [apply UndefValue_get_entry|done] : spec.

Lemma parse_gep_elements_pspec : forall n ops Pre, (length ops <= n)%nat ->
  pspec Pre (parse_gep_elements ops) (fun _ _ => True).
Proof.
  induction n as [|n IH]; intros [|o1 [|o2 ops]] Pre Hl; apply spec_any; simpl in Hl; try lia;
    cbn [parse_gep_elements]; try spec_run.
  do 2 (spec_bind_step; [spec_known|intros ?]).
  spec_bind_step; [apply IH; lia|]. intros. spec_run.
Qed.
#[export] Hint Extern 1 (spec _ _ _ (parse_gep_elements _) _) =>
  eapply parse_gep_elements_pspec; reflexivity : spec.

Section constants.
Context (Pre : ModuleParseContext -> Prop).

Lemma parse_settype_pspec ops : pspec Pre (parse_settype ops) (fun _ _ => True).
Proof. parse_spec parse_settype. Qed.
Lemma parse_const_null_pspec : pspec Pre parse_const_null (fun _ _ => True).
Proof. parse_spec parse_const_null. Qed.
Lemma parse_undef_pspec : pspec Pre parse_undef (fun _ _ => True).
Proof. parse_spec parse_undef. Qed.
Lemma parse_integer_pspec ops : pspec Pre (parse_integer ops) (fun _ _ => True).
Proof. parse_spec parse_integer. Qed.
Lemma parse_float_pspec ops : pspec Pre (parse_float ops) (fun _ _ => True).
Proof. parse_spec parse_float. Qed.
Lemma parse_aggregate_pspec ops : pspec Pre (parse_aggregate ops) (fun _ _ => True).
Proof. parse_spec parse_aggregate. Qed.
Lemma parse_binop_constant_pspec ops : pspec Pre (parse_binop_constant ops) (fun _ _ => True).
Proof. parse_spec parse_binop_constant. Qed.
Lemma parse_ce_cast_pspec ops : pspec Pre (parse_ce_cast ops) (fun _ _ => True).
Proof. parse_spec parse_ce_cast. Qed.
Lemma parse_data_pspec ops : pspec Pre (parse_data ops) (fun _ _ => True).
Proof. parse_spec parse_data. Qed.
Lemma parse_gep_constant_pspec id ops : pspec Pre (parse_gep_constant id ops) (fun _ _ => True).
Proof. parse_spec parse_gep_constant. Qed.
End constants.
#[export] Hint Resolve parse_settype_pspec parse_const_null_pspec parse_undef_pspec
  parse_integer_pspec parse_float_pspec parse_aggregate_pspec parse_binop_constant_pspec
  parse_ce_cast_pspec parse_data_pspec parse_gep_constant_pspec : spec.

Lemma parse_constants_record_pspec e Pre :
  pspec Pre (parse_constants_record e) (fun _ _ => True).
Proof. parse_spec parse_constants_record. Qed.
#[export] Hint Resolve parse_constants_record_pspec : spec.

Lemma parse_constants_block_pspec e Pre : pspec Pre (parse_constants_block e) (fun _ _ => True).
Proof. parse_spec parse_constants_block. Qed.
#[export] Hint Resolve parse_constants_block_pspec : spec.

(** ** Instruction records *)

Lemma extract_path_pspec l : forall o Pre, pspec Pre (extract_path o l) (fun _ _ => True).
Proof. induction l as [|i l IH]; intros o Pre; apply spec_any; cbn [extract_path]; spec_run. Qed.

Lemma parse_gep_args_pspec n : forall ops i Pre,
  pspec Pre (parse_gep_args n ops i) (fun _ _ => True).
Proof. induction n as [|n IH]; intros ops i Pre; apply spec_any; cbn [parse_gep_args]; spec_run. Qed.

Lemma parse_call_argument_pspec ops i ft k Pre :
  pspec Pre (parse_call_argument ops i ft k) (fun _ _ => True).
Proof. parse_spec parse_call_argument. Qed.
Lemma parse_phi_incoming_pspec ops o r i Pre :
  pspec Pre (parse_phi_incoming ops o r i) (fun _ _ => True).
Proof. parse_spec parse_phi_incoming. Qed.
Lemma parse_switch_case_pspec ops o r i Pre :
  pspec Pre (parse_switch_case ops o r i) (fun _ _ => True).
Proof. parse_spec parse_switch_case. Qed.
#[export] Hint Resolve extract_path_pspec parse_gep_args_pspec parse_call_argument_pspec
  parse_phi_incoming_pspec parse_switch_case_pspec : spec.

Section instructions.
Context (Pre : ModuleParseContext -> Prop).
Implicit Types (ops : list Z).

Lemma parse_declareblocks_pspec ops : pspec Pre (parse_declareblocks ops) (fun _ _ => True).
Proof. parse_spec parse_declareblocks. Qed.
Lemma parse_inst_call_pspec ops : pspec Pre (parse_inst_call ops) (fun _ _ => True).
Proof. parse_spec parse_inst_call. Qed.
Lemma parse_inst_ret_pspec ops : pspec Pre (parse_inst_ret ops) (fun _ _ => True).
Proof. parse_spec parse_inst_ret. Qed.
Lemma parse_inst_unreachable_pspec : pspec Pre parse_inst_unreachable (fun _ _ => True).
Proof. parse_spec parse_inst_unreachable. Qed.
Lemma parse_inst_unop_pspec ops : pspec Pre (parse_inst_unop ops) (fun _ _ => True).
Proof. parse_spec parse_inst_unop. Qed.
Lemma parse_inst_cmp_pspec ops : pspec Pre (parse_inst_cmp ops) (fun _ _ => True).
Proof. parse_spec parse_inst_cmp. Qed.
Lemma parse_inst_phi_pspec ops : pspec Pre (parse_inst_phi ops) (fun _ _ => True).
Proof. parse_spec parse_inst_phi. Qed.
Lemma parse_inst_binop_pspec ops : pspec Pre (parse_inst_binop ops) (fun _ _ => True).
Proof. parse_spec parse_inst_binop. Qed.
Lemma parse_inst_atomicrmw_pspec ops : pspec Pre (parse_inst_atomicrmw ops) (fun _ _ => True).
Proof. parse_spec parse_inst_atomicrmw. Qed.
Lemma parse_inst_cmpxchg_pspec ops : pspec Pre (parse_inst_cmpxchg ops) (fun _ _ => True).
Proof. parse_spec parse_inst_cmpxchg. Qed.
Lemma parse_inst_cast_pspec ops : pspec Pre (parse_inst_cast ops) (fun _ _ => True).
Proof. parse_spec parse_inst_cast. Qed.
Lemma parse_inst_select_pspec ops : pspec Pre (parse_inst_select ops) (fun _ _ => True).
Proof. parse_spec parse_inst_select. Qed.
Lemma parse_inst_extractval_pspec ops : pspec Pre (parse_inst_extractval ops) (fun _ _ => True).
Proof. parse_spec parse_inst_extractval. Qed.
Lemma parse_inst_br_pspec ops : pspec Pre (parse_inst_br ops) (fun _ _ => True).
Proof. parse_spec parse_inst_br. Qed.
Lemma parse_inst_switch_pspec ops : pspec Pre (parse_inst_switch ops) (fun _ _ => True).
Proof. parse_spec parse_inst_switch. Qed.
Lemma parse_inst_alloca_pspec ops : pspec Pre (parse_inst_alloca ops) (fun _ _ => True).
Proof. parse_spec parse_inst_alloca. Qed.
Lemma parse_inst_gep_pspec ops : pspec Pre (parse_inst_gep ops) (fun _ _ => True).
Proof. parse_spec parse_inst_gep. Qed.
Lemma parse_inst_load_pspec ops : pspec Pre (parse_inst_load ops) (fun _ _ => True).
Proof. parse_spec parse_inst_load. Qed.
Lemma parse_inst_store_pspec ops : pspec Pre (parse_inst_store ops) (fun _ _ => True).
Proof. parse_spec parse_inst_store. Qed.
Lemma parse_inst_shufflevec_pspec ops : pspec Pre (parse_inst_shufflevec ops) (fun _ _ => True).
Proof. parse_spec parse_inst_shufflevec. Qed.
Lemma parse_inst_extractelt_pspec ops : pspec Pre (parse_inst_extractelt ops) (fun _ _ => True).
Proof. parse_spec parse_inst_extractelt. Qed.
Lemma parse_inst_insertelt_pspec ops : pspec Pre (parse_inst_insertelt ops) (fun _ _ => True).
Proof. parse_spec parse_inst_insertelt. Qed.
End instructions.
#[export] Hint Resolve parse_declareblocks_pspec parse_inst_call_pspec parse_inst_ret_pspec
  parse_inst_unreachable_pspec parse_inst_unop_pspec parse_inst_cmp_pspec parse_inst_phi_pspec
  parse_inst_binop_pspec parse_inst_atomicrmw_pspec parse_inst_cmpxchg_pspec
  parse_inst_cast_pspec parse_inst_select_pspec parse_inst_extractval_pspec parse_inst_br_pspec
  parse_inst_switch_pspec parse_inst_alloca_pspec parse_inst_gep_pspec parse_inst_load_pspec
  parse_inst_store_pspec parse_inst_shufflevec_pspec parse_inst_extractelt_pspec
  parse_inst_insertelt_pspec : spec.

Lemma parse_record_pspec e Pre : pspec Pre (parse_record e) (fun _ _ => True).
Proof. parse_spec parse_record. Qed.
#[export] Hint Resolve parse_record_pspec : spec.

Lemma attach_metadata_pspec ops r i Pre : pspec Pre (attach_metadata ops r i) (fun _ _ => True).
Proof. parse_spec attach_metadata. Qed.
#[export] Hint Resolve attach_metadata_pspec : spec.
Lemma parse_metadata_attachment_record_pspec e Pre :
  pspec Pre (parse_metadata_attachment_record e) (fun _ _ => True).
Proof. parse_spec parse_metadata_attachment_record. Qed.
#[export] Hint Resolve parse_metadata_attachment_record_pspec : spec.
Lemma parse_function_child_pspec e Pre : pspec Pre (parse_function_child e) (fun _ _ => True).
Proof. apply spec_any. unfold parse_function_child, parse_function_child_block. spec_run. Qed.
#[export] Hint Resolve parse_function_child_pspec : spec.

(** ** Resolution of forward references *)

Definition with_context (s : ModuleParseContext) (c : VState) : ModuleParseContext :=
  mkCtx c (module s) (tables s) (body s) (meta s) (pending_forward_references s)
    (global_initializations s) (use_relative_id s) (use_strtab s) (seen_first_function_body s).

(** The context after proxy [r] (whose object is [v]) was made to stand for [first]. *)
Definition set_proxy_context (c : VState) (r : vref) (v : Value) (id : Z) (first : vref) : VState :=
  mkV (v_types c)
    (<[r := mkValue (val_type v) (ValueProxy id (Some first)) (val_tween v) (val_operands v)
                    (val_terminator v) (val_attachments v)]> (v_values c)) (v_mds c).

Lemma on_context_inv {A} (m : M VState A) s a s' :
  on_context m s = Ok (a, s') -> exists c, m (context s) = Ok (a, c) /\ s' = with_context s c.
Proof.
  unfold on_context, zoom. destruct (m (context s)) as [[b c]| |]; [|done..].
  intros [= <- <-]. by exists c.
Qed.

Lemma with_context_same s : with_context s (context s) = s.
Proof. by destruct s. Qed.

Lemma get_proxy_inv r s x s' :
  get_proxy r s = Ok (x, s') -> s' = s /\ exists v, v_values (context s) !! r = Some v /\
    x = match val_data v with ValueProxy id p => Some (id, p) | _ => None end.
Proof.
  unfold get_proxy. intros (v & s1 & (c & [-> Hv]%value_at_inv & ->)%on_context_inv & E)%bindM_Ok.
  injection E as <- <-. rewrite with_context_same. eauto.
Qed.

Lemma get_proxy_nonproxy r s : nonproxy r (context s) -> get_proxy r s = Ok (None, s).
Proof.
  intros (v & Hv & Hk). unfold get_proxy, on_context, zoom, value_at.
  unfold mbind, M_bind, gets, derefM, lift. rewrite Hv. cbn [some_or_ub].
  assert (match val_data v with ValueProxy id p => Some (id, p) | _ => None end = None) as ->.
  { destruct (val_data v) eqn:E; try done. destruct Hk. apply val_kind_proxy. eauto. }
  by destruct s.
Qed.

Lemma get_proxy_run r s v id p :
  v_values (context s) !! r = Some v -> val_data v = ValueProxy id p ->
  get_proxy r s = Ok (Some (id, p), s).
Proof.
  intros Hv Hd. unfold get_proxy, on_context, zoom, value_at.
  unfold mbind, M_bind, gets, derefM, lift. rewrite Hv. cbn [some_or_ub]. rewrite Hd.
  by destruct s.
Qed.

Lemma set_proxy_run r s v id first :
  v_values (context s) !! r = Some v ->
  set_proxy r id (Some first) s = Ok (tt, with_context s (set_proxy_context (context s) r v id first)).
Proof.
  intros Hv. unfold set_proxy, on_context, zoom, set_data, value_at.
  unfold mbind, M_bind, gets, derefM, lift. rewrite Hv. done.
Qed.

Lemma values_nonproxy s i r :
  inv s -> zlookup (values (tables s)) i = Some r -> nonproxy r (context s).
Proof.
  unfold zlookup. destruct (0 <=? i); [|done]. intros Hi Hr.
  destruct (Forall_lookup_1 _ _ _ _ (inv_values s Hi) Hr) as (w & t & ? & ? & _). by exists w.
Qed.

(** Under the invariant, resolving takes one assignment: the value table holds no
    proxies. *)
Lemma ValueProxy_resolve_step fuel s r b s' :
  inv s -> ValueProxy_resolve (S fuel) r s = Ok (b, s') ->
  exists v id p, v_values (context s) !! r = Some v /\ val_data v = ValueProxy id p /\
    match p with
    | Some _ => b = true /\ s' = s
    | None =>
        if zlength (values (tables s)) <=? id then b = false /\ s' = s
        else exists first, zlookup (values (tables s)) id = Some first /\ b = true /\
             s' = with_context s (set_proxy_context (context s) r v id first)
    end.
Proof.
  intros Hi E. cbn [ValueProxy_resolve] in E.
  apply bindM_Ok in E as (self & s1 & [-> (v & Hv & ->)]%get_proxy_inv & E).
  apply bindM_Ok in E as (x & s1 & E1 & E). unfold derefM, lift in E1.
  destruct (val_data v) eqn:Hd; try discriminate E1. injection E1 as <- <-.
  exists v, id, proxy. split_and!; [done|done|]. destruct proxy as [p|]; [by injection E as <- <-|].
  apply bindM_Ok in E as (vals & s1 & [= <- <-] & E).
  destruct (zlength (values (tables s)) <=? id); [by injection E as <- <-|].
  apply bindM_Ok in E as (first & s1 & E1 & E). unfold derefM, lift in E1.
  destruct (zlookup (values (tables s)) id) as [f|] eqn:Hf; [|done]. injection E1 as <- <-.
  exists f. split; [done|].
  apply bindM_Ok in E as ([] & s1 & E1 & E). rewrite (set_proxy_run _ _ v) in E1 by done.
  injection E1 as <-.
  destruct (values_nonproxy s id f Hi Hf) as (w & Hw & Hk).
  pose proof (lookup_lt_Some _ _ _ Hv) as Hlt.
  assert (f <> r) as Hne.
  { intros ->. simplify_eq. destruct Hk. apply val_kind_proxy. eauto. }
  set (s1 := with_context _ _) in E.
  apply bindM_Ok in E as (cur & s2 & E1 & E).
  rewrite (get_proxy_run r s1 (mkValue (val_type v) (ValueProxy id (Some f)) (val_tween v)
    (val_operands v) (val_terminator v) (val_attachments v)) id (Some f)) in E1;
    [|simpl; by apply list_lookup_insert_eq|done].
  injection E1 as <- <-. apply bindM_Ok in E as (y & s2 & [= <- <-] & E). cbn [snd] in E.
  apply bindM_Ok in E as (inner & s2 & E1 & E).
  rewrite (get_proxy_nonproxy f s1) in E1.
  2:{ exists w. split; [|done]. simpl. by rewrite list_lookup_insert_ne. }
  injection E1 as <- <-. by injection E as <- <-.
Qed.

(** What the assignment does to the invariant. *)
Lemma set_proxy_inv s r v id first :
  inv s -> v_values (context s) !! r = Some v -> val_data v = ValueProxy id None ->
  zlookup (values (tables s)) id = Some first ->
  let s' := with_context s (set_proxy_context (context s) r v id first) in
  inv s' /\ pgrow s s' /\ forall r' id', proxy_at (context s') r' id' None ->
    proxy_at (context s) r' id' None /\ r' <> r.
Proof.
  intros Hi Hv Hd Hf. pose proof (lookup_lt_Some _ _ _ Hv) as Hlt.
  pose proof (values_nonproxy s id first Hi Hf) as Hn.
  set (v' := mkValue (val_type v) (ValueProxy id (Some first)) (val_tween v) (val_operands v)
    (val_terminator v) (val_attachments v)).
  assert (forall r' id' p, proxy_at (set_proxy_context (context s) r v id first) r' id' p ->
    (r' = r /\ p = Some first) \/ (r' <> r /\ proxy_at (context s) r' id' p)) as Hpx.
  { intros r' id' p (w & Hw & Hwd). simpl in Hw. destruct (decide (r' = r)) as [->|Hne].
    - left. rewrite list_lookup_insert_eq in Hw by done. injection Hw as <-. by injection Hwd as _ <-.
    - right. rewrite list_lookup_insert_ne in Hw by done. split; [done|by exists w]. }
  assert (grow (context s) (set_proxy_context (context s) r v id first)) as HG.
  { split; [done|]. intros r0 w Hw. simpl. destruct (decide (r0 = r)) as [->|Hne].
    - exists v'. rewrite list_lookup_insert_eq by done. simplify_eq. split_and!; [done| |done].
      unfold val_kind. by rewrite Hd.
    - exists w. by rewrite list_lookup_insert_ne by done. }
  intros s'. destruct Hi as [H1 H2 H3 H4 H5 H6]. split_and!; [|exact HG|].
  - split; cbn [s' with_context context tables pending_forward_references].
    + done.
    + eapply list.Forall_impl; [exact H2|]. intros t. by apply live_mono, HG.
    + intros t Ht. eapply live_mono; [apply HG|eauto].
    + eapply list.Forall_impl; [exact H4|]. intros r'. by apply entry_ok_mono.
    + intros r' id' [[_ ?]|[_ ?]]%Hpx; [done|eauto].
    + intros r' id' p [[-> [= ->]]|[_ ?]]%Hpx; eapply nonproxy_mono; eauto.
  - intros r' id' [[_ ?]|[? ?]]%Hpx; done.
Qed.

(** Everything an instruction refers to: its operands and, for a phi, its incoming
    values. *)
Definition value_operands (v : Value) : list (option vref) :=
  val_operands v ++ match val_data v with PHINode inc => fst <$> inc | _ => [] end.

(** Objects keep their references and blocks their contents. *)
Definition same_refs (c c' : VState) : Prop :=
  forall r v, v_values c !! r = Some v -> exists v', v_values c' !! r = Some v' /\
    value_operands v' = value_operands v /\
    (forall bb, val_data v = BasicBlock bb -> val_data v' = BasicBlock bb).

#[export] Instance same_refs_po : PreOrder same_refs.
Proof.
  split.
  - intros c r v Hv. eauto.
  - intros c1 c2 c3 H1 H2 r v Hv. destruct (H1 r v Hv) as (v2 & Hv2 & Ho2 & Hb2).
    destruct (H2 r v2 Hv2) as (v3 & Hv3 & Ho3 & Hb3). exists v3. split_and!; [done|congruence|auto].
Qed.

Lemma set_proxy_same_refs c r v id first :
  v_values c !! r = Some v -> val_data v = ValueProxy id None ->
  same_refs c (set_proxy_context c r v id first).
Proof.
  intros Hv Hd r0 w Hw. pose proof (lookup_lt_Some _ _ _ Hv) as Hlt. simpl.
  destruct (decide (r0 = r)) as [->|Hne].
  - simplify_eq. eexists. split_and!; [by apply list_lookup_insert_eq| |congruence].
    unfold value_operands. by rewrite Hd.
  - exists w. by rewrite list_lookup_insert_ne.
Qed.

Lemma resolve_reference_inv s r s' :
  inv s -> resolve_reference r s = Ok (tt, s') ->
  inv s' /\ pgrow s s' /\ pending_forward_references s' = pending_forward_references s /\
  body s' = body s /\ same_refs (context s) (context s') /\
  forall r' id', proxy_at (context s') r' id' None -> proxy_at (context s) r' id' None /\ r' <> r.
Proof.
  intros Hi E. unfold resolve_reference in E.
  apply bindM_Ok in E as (c & s1 & [= <- <-] & E). apply bindM_Ok in E as (b & s1 & E1 & E).
  apply ValueProxy_resolve_step in E1 as (v & id & p & Hv & Hd & Hp); [|done].
  unfold guardM, lift in E. destruct b; [|done]. injection E as <-.
  destruct p as [p|].
  - destruct Hp as [_ ->]. split_and!; try done. intros r' id' Hr'. split; [done|]. intros ->.
    destruct Hr' as (w & Hw & Hwd). congruence.
  - destruct (_ <=? id); [by destruct Hp|]. destruct Hp as (f & Hf & _ & ->).
    destruct (set_proxy_inv s r v id f Hi Hv Hd Hf) as (? & ? & ?).
    split_and!; [done|done|done|done|by apply set_proxy_same_refs|done].
Qed.

Lemma resolve_references_inv refs s s' :
  inv s -> for_eachM resolve_reference refs s = Ok (tt, s') ->
  inv s' /\ pgrow s s' /\ body s' = body s /\ same_refs (context s) (context s') /\
  forall r id, proxy_at (context s') r id None -> proxy_at (context s) r id None /\ r ∉ refs.
Proof.
  revert s. induction refs as [|r refs IH]; intros s Hi E; simpl in E.
  - injection E as <-. split_and!; try done. intros r id Hr. split; [done|].
    by intros ?%elem_of_nil.
  - apply bindM_Ok in E as ([] & s1 & (Hi1 & HG1 & _ & Hb1 & Hs1 & Hp1)%resolve_reference_inv & E); [|done].
    destruct (IH s1 Hi1 E) as (Hi' & HG' & Hb' & Hs' & Hp').
    split_and!; [done|by etrans|congruence|by etrans|].
    intros r' id [Hr' Hn]%Hp'. destruct (Hp1 _ _ Hr') as [? Hne]. split; [done|].
    by intros [->|?]%elem_of_cons.
Qed.

(** What resolution does to one reference: null stays null, anything else becomes an
    object that is no proxy. *)
Definition resolved_to (c : VState) (o o' : option vref) : Prop :=
  match o with
  | None => o' = None
  | Some _ => exists p, o' = Some p /\ nonproxy p c
  end.

Definition no_unresolved (c : VState) : Prop := forall r id, ~ proxy_at c r id None.

Lemma resolve_proxy_resolved c o o' :
  no_unresolved c -> resolve_proxy_in (v_values c) o = Ok o' -> resolved_to c o o'.
Proof.
  intros Hn (trace & H)%resolve_proxy_spec.
  induction H as [|r v Hv Hk|r v id p trace o' Hv Hd H IH]; simpl.
  - done.
  - exists r. split; [done|by exists v].
  - destruct p as [q|]; [exact IH|]. destruct (Hn r id). by exists v.
Qed.

Lemma resolve_operands_Forall2 heap ops ops' :
  resolve_operands heap ops = Ok ops' ->
  Forall2 (fun o o' => resolve_proxy_in heap o = Ok o') ops ops'.
Proof.
  revert ops'. induction ops as [|o ops IH]; intros ops' E; cbn [resolve_operands] in E.
  - injection E as <-. constructor.
  - apply bind_Ok in E as (o' & Eo & E). apply bind_Ok in E as (rest & Er & [= <-]).
    constructor; [done|auto].
Qed.

Lemma resolve_incoming_Forall2 heap inc inc' :
  resolve_incoming heap inc = Ok inc' ->
  Forall2 (fun o o' => resolve_proxy_in heap o = Ok o') (fst <$> inc) (fst <$> inc').
Proof.
  revert inc'. induction inc as [|[x bb] inc IH]; intros inc' E; cbn [resolve_incoming] in E.
  - injection E as <-. constructor.
  - apply bind_Ok in E as (x' & Ex & E). apply bind_Ok in E as (u & _ & E).
    apply bind_Ok in E as (rest & Er & [= <-]). constructor; [done|auto].
Qed.

(** One instruction: its references are replaced by what they stand for; every other
    object is untouched. *)
Lemma resolve_proxy_values_effect r c c' :
  resolve_proxy_values r c = Ok (tt, c') ->
  exists v v', v_values c !! r = Some v /\ v_values c' = <[r := v']> (v_values c) /\
    Forall2 (fun o o' => resolve_proxy_in (v_values c) o = Ok o') (value_operands v) (value_operands v') /\
    (forall bb, val_data v = BasicBlock bb -> val_data v' = BasicBlock bb).
Proof.
  intros (v & c1 & [-> Hv]%value_at_inv & E)%bindM_Ok.
  apply bindM_Ok in E as (c1 & c2 & [= <- <-] & E).
  apply bindM_Ok in E as (ops & c2 & E1 & E). unfold lift in E1.
  destruct (resolve_operands _ _) as [ops'| |] eqn:Eops; [|done..]. injection E1 as <- <-.
  apply resolve_operands_Forall2 in Eops.
  apply bindM_Ok in E as (d & c2 & E1 & E). injection E as <-.
  assert (c2 = c /\ (match d with PHINode _ => False | _ => d = val_data v end \/
    exists inc inc', val_data v = PHINode inc /\ d = PHINode inc' /\
      resolve_incoming (v_values c) inc = Ok inc')) as [-> Hd].
  { destruct (val_data v); try (injection E1 as <- <-; split; [done|by left]).
    apply bindM_Ok in E1 as (inc & c3 & E1 & [= <- <-]). unfold lift in E1.
    destruct (resolve_incoming _ _) as [inc'| |] eqn:Ei; [|done..]. injection E1 as <- <-.
    split; [done|]. right. eauto. }
  eexists v, _. split_and!; [done|reflexivity| |].
  - unfold value_operands. cbn [val_operands val_data]. apply Forall2_app; [done|].
    destruct Hd as [Hd|(inc & inc' & -> & -> & Ei)]; [|by apply resolve_incoming_Forall2].
    destruct d; try (by destruct Hd); rewrite <- Hd; constructor.
  - intros bb Hbb. cbn [val_data].
    destruct Hd as [Hd|(inc & inc' & Hi & _)]; [|congruence].
    destruct d; try (by destruct Hd); by rewrite Hd.
Qed.

(** Progress of the loop over the instructions: every object has its original
    references or resolved ones; those in [done] have resolved ones. *)
Record resolution (c0 c : VState) (finished : list vref) : Prop := {
  res_unresolved : no_unresolved c;
  res_grow : grow c0 c;
  res_values r v0 : v_values c0 !! r = Some v0 -> exists v, v_values c !! r = Some v /\
    (forall bb, val_data v0 = BasicBlock bb -> val_data v = BasicBlock bb) /\
    (value_operands v = value_operands v0 \/
     Forall2 (resolved_to c) (value_operands v0) (value_operands v)) /\
    (r ∈ finished -> Forall2 (resolved_to c) (value_operands v0) (value_operands v));
}.

Lemma resolved_to_mono c c' o o' : grow c c' -> resolved_to c o o' -> resolved_to c' o o'.
Proof.
  intros HG. destruct o as [r|]; simpl; [|done]. intros (p & -> & Hp). exists p.
  split; [done|by eapply nonproxy_mono].
Qed.

Lemma resolved_to_trans c o1 o2 o3 :
  resolved_to c o1 o2 -> resolved_to c o2 o3 -> resolved_to c o1 o3.
Proof. destruct o1 as [r|]; simpl; [|by intros ->]. by intros (p & -> & _). Qed.

Lemma resolution_step c0 c finished i c' :
  vinv c -> resolution c0 c finished -> resolve_proxy_values i c = Ok (tt, c') ->
  vinv c' /\ resolution c0 c' (i :: finished).
Proof.
  intros Hwf [Hn HG Hres] E.
  destruct (resolve_proxy_values_vspec i (fun _ => True) c tt c' Hwf I E) as (Hwf' & [HG' Hpx] & _).
  split; [done|]. destruct (resolve_proxy_values_effect i c c' E) as (v & v' & Hv & Hc' & Hops & Hbb).
  assert (Forall2 (resolved_to c') (value_operands v) (value_operands v')) as Hops'.
  { eapply list.Forall2_impl; [exact Hops|]. intros o o' Ho. eapply resolved_to_mono; [done|].
    by eapply resolve_proxy_resolved. }
  split; [intros r id Hr%Hpx; by eapply Hn|by etrans|].
  intros r v0 Hv0. destruct (Hres r v0 Hv0) as (w & Hw & Hwbb & Hor & Hfin).
  assert (forall l l', Forall2 (resolved_to c) l l' -> Forall2 (resolved_to c') l l') as Hup.
  { intros l l' Hl. eapply list.Forall2_impl; [exact Hl|]. intros o o'. by apply resolved_to_mono. }
  pose proof (lookup_lt_Some _ _ _ Hv) as Hlt. destruct (decide (r = i)) as [->|Hne].
  - assert (w = v) as -> by congruence. exists v'. rewrite Hc', list_lookup_insert_eq by done.
    assert (Forall2 (resolved_to c') (value_operands v0) (value_operands v')) as Hdone.
    { destruct Hor as [Heq|Hor]; [by rewrite <- Heq|].
      eapply list.Forall2_trans; [apply resolved_to_trans|by apply Hup|done]. }
    split_and!; [done|auto|by right|done].
  - exists w. rewrite Hc', list_lookup_insert_ne by done. split_and!; [done|done| |].
    + destruct Hor as [?|?]; [by left|right; auto].
    + intros [->|?]%elem_of_cons; [done|]. auto.
Qed.

Lemma resolution_block_loop c0 insts : forall s finished s',
  inv s -> resolution c0 (context s) finished ->
  for_eachM (fun i => on_context (resolve_proxy_values i)) insts s = Ok (tt, s') ->
  inv s' /\ s' = with_context s (context s') /\ exists finished',
    resolution c0 (context s') finished' /\ finished ⊆ finished' /\ insts ⊆ finished'.
Proof.
  induction insts as [|i insts IH]; intros s finished s' Hi Hres E; cbn [for_eachM] in E.
  - injection E as <-. split_and!; [done|by rewrite with_context_same|]. exists finished. split_and!; set_solver.
  - apply bindM_Ok in E as ([] & s1 & E1 & E).
    destruct (on_context_pspec _ (fun _ => True) (fun _ => True) _
      (resolve_proxy_values_vspec i _) (fun _ _ => I) s tt s1 Hi I E1) as (Hi1 & _ & _).
    apply on_context_inv in E1 as (c & E1 & ->).
    destruct (resolution_step c0 (context s) finished i c (inv_types_wf s Hi) Hres E1) as [_ Hres1].
    destruct (IH _ _ _ Hi1 Hres1 E) as (Hi' & Hb & fin & Hres' & H1 & H2).
    split_and!; [done|exact Hb|]. exists fin. split_and!; [done|set_solver|set_solver].
Qed.

(** The instructions of the blocks, as they were when resolution started. *)
Definition block_of (c : VState) (r : vref) (bb : BasicBlockData) : Prop :=
  exists v, v_values c !! r = Some v /\ val_data v = BasicBlock bb.

Lemma bb_at_context r s bb s' :
  on_context (bb_at r) s = Ok (bb, s') -> s' = s /\ block_of (context s) r bb.
Proof.
  intros (c & E & ->)%on_context_inv. apply bindM_Ok in E as (v & c1 & [-> Hv]%value_at_inv & E).
  destruct (val_data v) eqn:Hd; try done. injection E as <- <-.
  rewrite with_context_same. split; [done|by exists v].
Qed.

(** A block still has its instruction list while references are resolved. *)
Lemma resolution_block c0 c finished r bb0 bb :
  resolution c0 c finished -> block_of c0 r bb0 -> block_of c r bb -> bb = bb0.
Proof.
  intros Hres (v0 & Hv0 & Hd0) (v & Hv & Hd).
  destruct (res_values _ _ _ Hres r v0 Hv0) as (w & Hw & Hbb & _).
  assert (w = v) as -> by congruence. rewrite (Hbb bb0 Hd0) in Hd. by injection Hd.
Qed.

Lemma resolution_blocks_loop c0 blocks : forall s finished s',
  inv s -> resolution c0 (context s) finished -> for_eachM resolve_block blocks s = Ok (tt, s') ->
  inv s' /\ s' = with_context s (context s') /\ exists finished',
    resolution c0 (context s') finished' /\ finished ⊆ finished' /\
    forall r bb, r ∈ blocks -> block_of c0 r bb -> bb_instructions bb ⊆ finished'.
Proof.
  induction blocks as [|r blocks IH]; intros s finished s' Hi Hres E; cbn [for_eachM] in E.
  - injection E as <-. split_and!; [done|by rewrite with_context_same|]. exists finished. split_and!; [done|done|].
    by intros r bb ?%elem_of_nil.
  - apply bindM_Ok in E as ([] & s1 & E1 & E). unfold resolve_block in E1.
    apply bindM_Ok in E1 as (bb & s2 & [-> Hbb]%bb_at_context & E1).
    destruct (resolution_block_loop c0 _ _ _ _ Hi Hres E1) as (Hi1 & Hb1 & f1 & Hres1 & H1 & H2).
    destruct (IH _ _ _ Hi1 Hres1 E) as (Hi' & Hb' & f2 & Hres' & H3 & H4).
    split_and!; [done|rewrite Hb'; by rewrite Hb1|]. exists f2. split_and!; [done|set_solver|].
    intros r' bb' [->|Hr']%elem_of_cons Hbb'; [|by eapply H4].
    rewrite <- (resolution_block _ _ _ _ _ _ Hres Hbb' Hbb). set_solver.
Qed.

(** The outcome of [resolve_forward_references], for the instructions of the blocks. *)
Lemma resolve_forward_references_inv s s' :
  inv s -> resolve_forward_references s = Ok (tt, s') ->
  inv s' /\ pgrow s s' /\ no_unresolved (context s') /\ pending_forward_references s' = [] /\
  basic_blocks (body s') = basic_blocks (body s) /\
  forall r bb i v, r ∈ basic_blocks (body s) -> block_of (context s) r bb ->
    i ∈ bb_instructions bb -> v_values (context s) !! i = Some v ->
    exists v', v_values (context s') !! i = Some v' /\
      Forall2 (resolved_to (context s')) (value_operands v) (value_operands v').
Proof.
  intros Hi E. apply bindM_Ok in E as (refs & s1 & [= <- <-] & E).
  apply bindM_Ok in E as ([] & s1 & (Hi1 & HG1 & Hb1 & Hs1 & Hp1)%resolve_references_inv & E); [|done].
  apply bindM_Ok in E as ([] & s2 & [= <-] & E). apply bindM_Ok in E as (bbs & s2 & [= <- <-] & E).
  assert (no_unresolved (context s1)) as Hn.
  { intros r id [Hr Hnin]%Hp1. apply Hnin. by eapply inv_pending. }
  set (s2 := mkCtx _ _ _ _ _ _ _ _ _ _) in E.
  assert (inv s2) as Hi2.
  { destruct Hi1 as [H1 H2 H3 H4 H5 H6]. split; try done. intros r id Hr. by destruct (Hn r id). }
  assert (resolution (context s1) (context s2) []) as Hres0.
  { split; [done|done|]. intros r v Hv. exists v. split_and!; [done|done|by left|].
    by intros ?%elem_of_nil. }
  destruct (resolution_blocks_loop (context s1) _ s2 [] s' Hi2 Hres0 E) as
    (Hi' & Hs' & fin & Hres & _ & Hfin).
  split_and!; [done|etrans; [exact HG1|exact (res_grow _ _ _ Hres)]|apply (res_unresolved _ _ _ Hres)|
    by rewrite Hs'|rewrite Hs'; by apply f_equal|].
  intros r bb i v Hr (vb & Hvb & Hdb) Hi_ Hv.
  destruct (Hs1 i v Hv) as (v1 & Hv1 & Ho1 & _). destruct (Hs1 r vb Hvb) as (vb1 & Hvb1 & _ & Hdb1).
  destruct (res_values _ _ _ Hres i v1 Hv1) as (v' & Hv' & _ & _ & Hdone).
  exists v'. split; [done|]. rewrite <- Ho1. apply Hdone. apply (Hfin r bb); [|by exists vb1; auto|done].
  simpl. by rewrite Hb1.
Qed.

Lemma resolve_forward_references_pspec Pre :
  pspec Pre resolve_forward_references (fun _ _ => True).
Proof.
  intros s [] s' Hi _ E. by destruct (resolve_forward_references_inv s s' Hi E) as (? & ? & _).
Qed.
#[export] Hint Resolve resolve_forward_references_pspec : spec.

Lemma resolve_global_initialization_pspec ref Pre :
  pspec Pre (resolve_global_initialization ref) (fun _ _ => True).
Proof. parse_spec resolve_global_initialization. Qed.
#[export] Hint Resolve resolve_global_initialization_pspec : spec.
Lemma resolve_global_initializations_pspec Pre :
  pspec Pre resolve_global_initializations (fun _ _ => True).
Proof. parse_spec resolve_global_initializations. Qed.
Lemma next_function_pspec Pre : pspec Pre next_function (fun _ _ => True).
Proof. parse_spec next_function. Qed.
Lemma add_parameter_pspec f ft i Pre : pspec Pre (add_parameter f ft i) (fun _ _ => True).
Proof. parse_spec add_parameter. Qed.
#[export] Hint Resolve resolve_global_initializations_pspec next_function_pspec
  add_parameter_pspec : spec.

(** The values of the module come back after a body. *)
Lemma get_values_pspec Pre :
  pspec Pre (gets (fun s => values (tables s)))
    (fun l s => Forall (fun r => entry_ok r (context s)) l).
Proof. apply spec_gets; [apply _|]. intros s Hi _. apply (inv_values s Hi). Qed.

#[export] Instance values_ok_PMono l : Mono pgrow (fun s => Forall (fun r => entry_ok r (context s)) l).
Proof. intros s s' HG Hl. eapply list.Forall_impl; [exact Hl|]. intros r. by apply entry_ok_mono. Qed.

#[export] Hint Extern 1 (spec _ _ _ (set_values _) _) => apply set_values_pspec; spec_facts : spec.

Lemma parse_function_body_pspec e Pre : pspec Pre (parse_function_body e) (fun _ _ => True).
Proof.
  apply spec_any. unfold parse_function_body.
  spec_bind_step; [apply get_values_pspec|]. intros global_values. spec_run.
Qed.
#[export] Hint Resolve parse_function_body_pspec : spec.

(** ** Module-level records *)

Lemma get_types_pspec ops Pre :
    pspec Pre (mapM_list get_type ops)
      (fun l s => Forall (fun o => live_opt o (context s)) l).
  Proof.
    apply spec_any. apply (spec_mapM inv pgrow) with (Q := fun o s => live_opt o (context s));
      [apply _|apply _|]. intros. apply get_type_pspec.
  Qed.

Section types.
Context (Pre : ModuleParseContext -> Prop).
Implicit Types (ops : list Z).
Local Abbreviation type_spec m :=
  (pspec Pre m (fun t s => live_type t (v_types (context s)))).

Lemma parse_struct_type_pspec b ops : type_spec (parse_struct_type b ops).
Proof.
  apply spec_any. unfold parse_struct_type. spec_bind_step; [spec_known|intros ?].
  spec_bind_step; [apply get_types_pspec|intros members]. spec_bind_step; [spec_known|intros name].
  eapply (on_ctypes_pspec _ _
    (fun t => Forall (fun o => forall ty, o = Some ty -> live_type ty t) members)).
  - by apply StructType_get_tspec.
  - by intros s [[_ ?] _].
Qed.

Lemma parse_function_type_pspec ops : type_spec (parse_function_type ops).
Proof.
  apply spec_any. unfold parse_function_type. spec_bind_step; [spec_known|intros ?].
  spec_bind_step; [apply get_types_pspec|intros args]. spec_bind_step; [spec_known|intros o].
  spec_bind_step; [apply get_type_pspec|intros r]. spec_bind_step; [spec_known|intros ft].
  eapply (on_ctypes_pspec _ _
    (fun t => live_type ft t /\ Forall (fun o => forall ty, o = Some ty -> live_type ty t) args)).
  - by apply FunctionType_new_tspec.
  - intros s [[[[_ Hargs] _] Hr] Hft]. split; [by apply Hr|done].
Qed.

Lemma parse_pointer_type_pspec ops : type_spec (parse_pointer_type ops).
Proof. parse_spec parse_pointer_type. Qed.
Lemma parse_array_type_pspec ops : type_spec (parse_array_type ops).
Proof. parse_spec parse_array_type. Qed.
Lemma parse_vector_type_pspec ops : type_spec (parse_vector_type ops).
Proof. parse_spec parse_vector_type. Qed.
Lemma parse_integer_type_pspec ops : type_spec (parse_integer_type ops).
Proof. parse_spec parse_integer_type. Qed.
End types.
#[export] Hint Resolve parse_struct_type_pspec parse_function_type_pspec parse_pointer_type_pspec
  parse_array_type_pspec parse_vector_type_pspec parse_integer_type_pspec : spec.

Lemma parse_type_definition_pspec k ops Pre :
  pspec Pre (parse_type_definition k ops) (fun t s => live_type t (v_types (context s))).
Proof. parse_spec parse_type_definition. Qed.
#[export] Hint Resolve parse_type_definition_pspec : spec.

Lemma parse_type_pspec e Pre : pspec Pre (parse_type e) (fun _ _ => True).
Proof. parse_spec parse_type. Qed.
#[export] Hint Resolve parse_type_pspec : spec.

Lemma set_metadata_pspec i n Pre : pspec Pre (set_metadata i n) (fun _ _ => True).
Proof. apply on_meta_pspec. Qed.
Lemma set_attribute_groups_pspec g Pre : pspec Pre (set_attribute_groups g) (fun _ _ => True).
Proof. apply on_meta_pspec. Qed.
#[export] Hint Resolve set_metadata_pspec set_attribute_groups_pspec : spec.

Lemma attribute_group_pspec op Pre : pspec Pre (attribute_group op) (fun _ _ => True).
Proof. parse_spec attribute_group. Qed.
#[export] Hint Resolve attribute_group_pspec : spec.

Section module_records.
Context (Pre : ModuleParseContext -> Prop).
Implicit Types (e : BlockOrRecord) (ops : list Z).

Lemma parse_metadata_record_pspec e i : pspec Pre (parse_metadata_record e i) (fun _ _ => True).
Proof.
  apply spec_any. unfold parse_metadata_record, parse_md_name, parse_named_node, parse_node,
    parse_string_old, parse_md_value, parse_md_kind. spec_run.
Qed.
Lemma parse_paramattr_record_pspec e : pspec Pre (parse_paramattr_record e) (fun _ _ => True).
Proof. parse_spec parse_paramattr_record. Qed.
Lemma parse_paramattr_group_record_pspec e :
  pspec Pre (parse_paramattr_group_record e) (fun _ _ => True).
Proof. parse_spec parse_paramattr_group_record. Qed.
Lemma parse_symtab_entry_pspec e : pspec Pre (parse_symtab_entry e) (fun _ _ => True).
Proof. parse_spec parse_symtab_entry. Qed.
Lemma parse_global_variable_record_pspec ops :
  pspec Pre (parse_global_variable_record ops) (fun _ _ => True).
Proof. parse_spec parse_global_variable_record. Qed.
Lemma parse_version_record_pspec ops : pspec Pre (parse_version_record ops) (fun _ _ => True).
Proof. parse_spec parse_version_record. Qed.
End module_records.
#[export] Hint Resolve parse_metadata_record_pspec parse_paramattr_record_pspec
  parse_paramattr_group_record_pspec parse_symtab_entry_pspec parse_global_variable_record_pspec
  parse_version_record_pspec : spec.

Lemma parse_metadata_records_pspec l : forall i Pre,
  pspec Pre (parse_metadata_records l i) (fun _ _ => True).
Proof.
  induction l as [|e l IH]; intros i Pre; apply spec_any; cbn [parse_metadata_records]; spec_run.
Qed.
#[export] Hint Resolve parse_metadata_records_pspec : spec.

Lemma declared_function_type_pspec ty Pre :
  pspec Pre (declared_function_type ty) (fun t s => live_type t (v_types (context s))).
Proof. parse_spec declared_function_type. Qed.
#[export] Hint Resolve declared_function_type_pspec : spec.

Lemma parse_function_record_pspec ops Pre :
  pspec Pre (parse_function_record ops) (fun _ _ => True).
Proof.
  apply spec_any. unfold parse_function_record.
  do 7 (spec_bind_step; [spec_known|intros ?]). cbv zeta.
  spec_bind_step; [spec_known|intros func_type]. spec_bind_step; [spec_known|intros vals].
  spec_bind_step; [apply (construct_entry_pspec _ func_type); [discriminate|done|spec_facts]|].
  intros func. spec_run.
Qed.
#[export] Hint Resolve parse_function_record_pspec : spec.

Lemma parse_module_child_pspec e Pre : pspec Pre (parse_module_child e) (fun _ _ => True).
Proof.
  apply spec_any. unfold parse_module_child, parse_value_symtab, parse_types, parse_metadata_block,
    parse_paramattr_block, parse_paramattr_group_block. spec_run.
Qed.
#[export] Hint Resolve parse_module_child_pspec : spec.

Lemma parseIR_pspec top b Pre : pspec Pre (parseIR top b) (fun _ _ => True).
Proof. parse_spec parseIR. Qed.

Lemma inv_new : inv ModuleParseContext_new.
Proof.
  split; cbn; try constructor; try done.
  - apply types_wf_new.
  - by intros r id (v & Hv & _).
  - by intros r id p (v & Hv & _).
Qed.
