(* ===== verification/ModuleTheorems.v ===== *)
(** What the bitcode module reader guarantees: its invariant, the resolution of
    forward references, value lookup, the type table, attributes and the encoding of
    signed numbers; and records on which it has no defined behaviour. *)
From S2P Require Import Prelude.
From S2P Require Import LLVMType.
From S2P Require Import LLVMValue.
From S2P Require Import ModuleContext.
From S2P Require Import ModuleConstants.
From S2P Require Import ModuleFunction.
From S2P Require Import ModuleParser.
From S2P Require Import ModuleInvariant.
Local Open Scope Z_scope.

(** * Sample modules *)

Definition sample_record (id : Z) (ops : list Z) : BlockOrRecord := mkEntry id 0 [] ops.
Definition sample_block (id : Z) (children : list BlockOrRecord) : BlockOrRecord :=
  mkEntry id 1 children [].

(** Types [void], [i32] and [void(i32)]; one function with one block: an addition whose
    first operand is the next instruction, that instruction, and a return. *)
Definition sample_types_block : BlockOrRecord :=
  sample_block 17 [sample_record 2 []; sample_record 7 [32]; sample_record 21 [0; 0; 1]].
Definition sample_body (records : list BlockOrRecord) : BlockOrRecord :=
  sample_block 12 (sample_record 1 [1] :: records).
Definition sample_module_of (records : list BlockOrRecord) : BlockOrRecord :=
  sample_block 8 [sample_types_block; sample_record 8 [2; 0; 0]; sample_body records].
Definition sample_module : BlockOrRecord :=
  sample_module_of [sample_record 2 [2 ^ 32 - 1; 1; 1; 0]; sample_record 2 [1; 1; 0];
                    sample_record 10 []].

(** The state in the middle of that function, before its references are resolved. *)
Definition sample_prefix : P unit :=
  _ ← parse_module_child sample_types_block;
  _ ← parse_function_record [2; 0; 0];
  f ← next_function;
  _ ← add_parameter f (FunctionType 0 [Some 1%nat]) 0;
  for_eachM parse_function_child
    [sample_record 1 [1]; sample_record 2 [2 ^ 32 - 1; 1; 1; 0]; sample_record 2 [1; 1; 0];
     sample_record 10 []].

Definition final_state (m : P unit) : ModuleParseContext :=
  match m ModuleParseContext_new with Ok (_, s) => s | _ => ModuleParseContext_new end.

Lemma sample_prefix_inv : inv (final_state sample_prefix).
Proof.
  assert (spec inv pgrow (fun _ => True) sample_prefix (fun _ _ => True)) as H.
  { unfold sample_prefix. spec_run. }
  apply (H ModuleParseContext_new tt); [apply inv_new|done|]. vm_compute. reflexivity.
Qed.

(** * The invariant *)



(** C7. Once [resolve_forward_references] has succeeded at the end of a function body, no
    placeholder is unresolved and none is pending, and every reference of every
    instruction in the blocks (operands and the incoming values of phis) that was not
    null is now an object that is no placeholder. *)
Theorem forward_references_resolved s s' :
  inv s -> resolve_forward_references s = Ok (tt, s') ->
  inv s' /\ no_unresolved (context s') /\ pending_forward_references s' = [] /\
  forall r bb i v, r ∈ basic_blocks (body s) -> block_of (context s) r bb ->
    i ∈ bb_instructions bb -> v_values (context s) !! i = Some v ->
    exists v', v_values (context s') !! i = Some v' /\
      Forall2 (resolved_to (context s')) (value_operands v) (value_operands v').
Proof.
  intros Hi E.
  by destruct (resolve_forward_references_inv s s' Hi E) as (? & _ & ? & ? & _ & ?).
Qed.

Definition sample_resolved : ModuleParseContext :=
  final_state (_ ← sample_prefix; resolve_forward_references).

Lemma forward_references_resolved_witness :
  inv sample_resolved /\ no_unresolved (context sample_resolved) /\
  pending_forward_references sample_resolved = [] /\
  forall r bb i v, r ∈ basic_blocks (body (final_state sample_prefix)) ->
    block_of (context (final_state sample_prefix)) r bb ->
    i ∈ bb_instructions bb -> v_values (context (final_state sample_prefix)) !! i = Some v ->
    exists v', v_values (context sample_resolved) !! i = Some v' /\
      Forall2 (resolved_to (context sample_resolved)) (value_operands v) (value_operands v').
Proof.
  apply forward_references_resolved; [apply sample_prefix_inv|]. vm_compute. reflexivity.
Defined.

(** Resolving one pending placeholder. *)
Lemma ValueProxy_resolve_run s r v id :
  inv s -> v_values (context s) !! r = Some v -> val_data v = ValueProxy id None -> 0 <= id ->
  forall fuel, exists b s', ValueProxy_resolve (S fuel) r s = Ok (b, s') /\
    b = (id <? zlength (values (tables s))).
Proof.
  intros Hi Hv Hd Hid fuel. cbn [ValueProxy_resolve].
  rewrite (bindM_run _ _ _ _ _ (get_proxy_run r s v id None Hv Hd)).
  rewrite (bindM_run _ _ s (id, None) s) by reflexivity. cbv beta iota.
  rewrite (bindM_run _ _ s (values (tables s)) s) by reflexivity. cbv beta.
  destruct (Z.leb_spec (zlength (values (tables s))) id) as [Hle|Hlt].
  { eexists _, _. split; [reflexivity|]. bool_case; [lia|done]. }
  destruct (proj2 (zlookup_is_Some (values (tables s)) id)) as [f Hf]; [lia|]. rewrite Hf.
  rewrite (bindM_run _ _ s f s) by reflexivity.
  rewrite (bindM_run _ _ _ _ _ (set_proxy_run r s v id f Hv)).
  pose proof (lookup_lt_Some _ _ _ Hv) as Hl. set (s1 := with_context _ _).
  destruct (values_nonproxy s id f Hi Hf) as (w & Hw & Hk).
  assert (f <> r) as Hne. { intros ->. simplify_eq. destruct Hk. apply val_kind_proxy. eauto. }
  rewrite (bindM_run _ _ _ _ _ (get_proxy_run r s1 (mkValue (val_type v) (ValueProxy id (Some f))
    (val_tween v) (val_operands v) (val_terminator v) (val_attachments v)) id (Some f)
    (list_lookup_insert_eq _ _ _ Hl) eq_refl)).
  rewrite (bindM_run _ _ s1 (id, Some f) s1) by reflexivity. cbv beta iota. cbn [snd].
  rewrite (bindM_run _ _ s1 None s1).
  2:{ apply get_proxy_nonproxy. exists w. split; [|done]. simpl. by rewrite list_lookup_insert_ne. }
  eexists _, _. split; [reflexivity|]. bool_case; [done|lia].
Qed.

(** Resolving a placeholder ends, whatever the references look like: one step of
    fuel is enough, and it succeeds exactly when the value number is in the table. *)
Theorem placeholder_resolution_ends s r id :
  inv s -> proxy_at (context s) r id None -> 0 <= id ->
  forall fuel, exists b s', ValueProxy_resolve (S fuel) r s = Ok (b, s') /\
    b = (id <? zlength (values (tables s))).
Proof. intros Hi (v & Hv & Hd) Hid. by apply (ValueProxy_resolve_run s r v id). Qed.

Lemma placeholder_resolution_ends_witness :
  exists b s', ValueProxy_resolve 1 3%nat (final_state sample_prefix) = Ok (b, s') /\
    b = (3 <? zlength (values (tables (final_state sample_prefix)))).
Proof.
  apply (placeholder_resolution_ends _ _ _); [apply sample_prefix_inv| |lia].
  eexists. split; [vm_compute; reflexivity|reflexivity].
Defined.

(** * Signed numbers *)

(** LLVM's writer of sign-rotated numbers ([emitSignedInt64]). *)
Definition encode_sign_rotated (x : Z) : Z :=
  if 0 <=? x then u64 (Z.shiftl x 1) else u64 (Z.lor (Z.shiftl (u64 (- x)) 1) 1).

Lemma lor_1_even y : Z.lor (2 * y) 1 = 2 * y + 1.
Proof. by destruct y as [|p|p]; [| |destruct p]. Qed.

Lemma decode_even y : 0 <= y < 2 ^ 63 -> decode_sign_rotated_value (2 * y) = y.
Proof.
  intros Hy. unfold decode_sign_rotated_value.
  replace (Z.land (2 * y) 1) with 0.
  2:{ change 1 with (Z.ones 1). rewrite Z.land_ones by lia. rewrite Z.mul_comm. symmetry. by apply Z_mod_mult. }
  rewrite Z.shiftr_div_pow2 by lia. replace (2 * y / 2 ^ 1) with y by (rewrite Z.mul_comm; symmetry; by apply Z_div_mult).
  simpl. unfold s64, signed. rewrite wrap_small by lia. bool_case; [lia|done].
Qed.

Lemma decode_odd y : 0 < y < 2 ^ 63 -> decode_sign_rotated_value (2 * y + 1) = - y.
Proof.
  intros Hy. unfold decode_sign_rotated_value.
  assert (Z.land (2 * y + 1) 1 = 1) as ->.
  { pose proof (Z.land_ones (2 * y + 1) 1 ltac:(lia)) as H. change (Z.ones 1) with 1 in H.
    rewrite H. change (2 ^ 1) with 2. Z.to_euclidean_division_equations. lia. }
  rewrite Z.shiftr_div_pow2 by lia.
  replace ((2 * y + 1) / 2 ^ 1) with y by (change (2 ^ 1) with 2; Z.to_euclidean_division_equations; lia).
  simpl. destruct (Z.eqb_spec y 0); [lia|]. unfold s64, signed, wrap.
  rewrite <- (Z_mod_plus_full (- y) 1), Z.mod_small by lia. bool_case; lia.
Qed.

(** Integer constants survive the bitcode encoding: decoding what LLVM's writer emits
    gives back every 64-bit signed number, the smallest one included, and every 64-bit
    record operand decodes into the 64-bit range. *)
Theorem sign_rotated_roundtrip x :
  - 2 ^ 63 <= x < 2 ^ 63 ->
  0 <= encode_sign_rotated x < 2 ^ 64 /\ decode_sign_rotated_value (encode_sign_rotated x) = x.
Proof.
  intros Hx. split; [unfold encode_sign_rotated; case_match; apply u64_range|].
  unfold encode_sign_rotated. rewrite !Z.shiftl_mul_pow2 by lia. change (2 ^ 1) with 2.
  destruct (Z.leb_spec 0 x).
  - rewrite u64_small by lia. rewrite Z.mul_comm. apply decode_even. lia.
  - rewrite (u64_small (- x)) by lia. rewrite (Z.mul_comm (- x)), lor_1_even.
    destruct (Z.eq_dec x (- 2 ^ 63)) as [->|]; [reflexivity|].
    rewrite u64_small by lia. rewrite decode_odd by lia. lia.
Qed.

Lemma sign_rotated_roundtrip_witness :
  0 <= encode_sign_rotated (-5) < 2 ^ 64 /\ decode_sign_rotated_value (encode_sign_rotated (-5)) = -5.
Proof. apply sign_rotated_roundtrip. lia. Defined.

(** * Value lookup *)

(** The number a reference in a function body stands for. *)
Definition absolute_id (s : ModuleParseContext) (op : Z) (force_absolute : bool) : Z :=
  if negb force_absolute && use_relative_id s then u32 (zlength (values (tables s)) - op) else op.

Definition is_function_pointer (s : ModuleParseContext) (t : tyref) : Prop :=
  exists p a ft, type_heap (v_types (context s)) !! t = Some (PointerType p a) /\
    type_heap (v_types (context s)) !! p = Some ft /\ Type_getTypeID ft = FunctionTyID.

Lemma on_types_run {A} (m : M TypeState A) (a : A) s :
  m (v_types (context s)) = Ok (a, v_types (context s)) -> on_ctypes m s = Ok (a, s).
Proof. intros E. unfold on_ctypes, on_context, on_types, zoom. rewrite E. by destruct s as [[] ? ? ? ? ? ? ? ?]. Qed.

Lemma type_at_Ok s t ty : type_heap s !! t = Some ty -> type_at t s = Ok (ty, s).
Proof. intros E. unfold type_at, mbind, M_bind, gets, derefM, lift. by rewrite E. Qed.

Lemma getType_run s r v :
  v_values (context s) !! r = Some v -> on_context (Value_getType r) s = Ok (val_type v, s).
Proof.
  intros Hv. unfold on_context, zoom, Value_getType, value_at.
  unfold mbind, M_bind, gets, derefM, lift. rewrite Hv. cbn. by destruct s.
Qed.

Lemma strip_other_type s t :
  types_wf (v_types (context s)) -> live t (context s) -> ~ is_function_pointer s t ->
  strip_function_pointer (Some t) s = Ok (Some t, s).
Proof.
  intros Hwf [ty Hty] Hn. unfold strip_function_pointer.
  rewrite (bindM_run _ _ s ty s) by (by apply on_types_run, type_at_Ok).
  destruct ty as [| |p a| | | |]; try reflexivity.
  pose proof (wf_refs _ Hwf _ _ Hty) as Hp. apply list.Forall_cons in Hp as [Hp _].
  destruct (proj2 (lookup_lt_is_Some (type_heap (v_types (context s))) p)) as [ft Hft].
  { apply lookup_lt_Some in Hty. lia. }
  rewrite (bindM_run _ _ s ft s) by (by apply on_types_run, type_at_Ok).
  unfold type_isa. case_bool_decide as Hid; [|done]. destruct Hn. by exists p, a, ft.
Qed.

(** C31. Looking up a value: a number inside the table gives that table entry, provided its
    type is the expected one (when one is given that is no pointer to function), and
    null otherwise; a number past the table gives null without an expected type and, with
    one, a new pending placeholder of that type for that number.  Only the last case
    changes the state, and the lookup always completes. *)
Theorem get_value_spec s op expected force_absolute :
  inv s -> live_opt expected (context s) ->
  (forall t, expected = Some t -> ~ is_function_pointer s t) ->
  let id := absolute_id s op force_absolute in
  0 <= id ->
  (forall r, zlookup (values (tables s)) id = Some r ->
     exists v, v_values (context s) !! r = Some v /\
       get_value op expected force_absolute s =
         Ok (if bool_decide (is_Some expected -> expected = val_type v) then Some r else None, s)) /\
  (zlength (values (tables s)) <= id ->
     match expected with
     | None => get_value op expected force_absolute s = Ok (None, s)
     | Some t => exists r s', get_value op expected force_absolute s = Ok (Some r, s') /\
         proxy_at (context s') r id None /\ has_type r (Some t) (context s') /\
         pending_forward_references s' = pending_forward_references s ++ [r] /\
         tables s' = tables s /\ body s' = body s
     end).
Proof.
  intros Hi Hlive Hnf id Hid. split.
  - intros r Hr. pose proof (zlookup_Some_lt _ _ _ Hr) as Hlt.
    destruct (values_nonproxy s id r Hi Hr) as (v & Hv & _). exists v. split; [done|].
    unfold get_value. rewrite (bindM_run _ _ s (values (tables s)) s) by reflexivity.
    rewrite (bindM_run _ _ s (use_relative_id s) s) by reflexivity.
    fold (absolute_id s op force_absolute). fold id. cbv zeta.
    destruct (Z.leb_spec (zlength (values (tables s))) id); [lia|]. rewrite Hr.
    rewrite (bindM_run _ _ s expected s).
    2:{ destruct expected as [t|]; [|reflexivity]. apply strip_other_type; auto. apply (inv_types_wf s Hi). }
    rewrite (bindM_run _ _ s r s) by reflexivity.
    rewrite (bindM_run _ _ _ _ _ (getType_run s r v Hv)).
    destruct expected as [t|]; [|by rewrite bool_decide_eq_true_2 by (by intros [])].
    do 2 case_bool_decide; try reflexivity; naive_solver.
  - intros Hle. unfold get_value. rewrite (bindM_run _ _ s (values (tables s)) s) by reflexivity.
    rewrite (bindM_run _ _ s (use_relative_id s) s) by reflexivity.
    fold (absolute_id s op force_absolute). fold id. cbv zeta.
    destruct (Z.leb_spec (zlength (values (tables s))) id); [|lia].
    destruct expected as [t|]; [|reflexivity].
    eexists _, _. split; [reflexivity|]. split_and!; try reflexivity.
    + eexists. split; [apply list_lookup_middle; reflexivity|reflexivity].
    + eexists. split; [apply list_lookup_middle; reflexivity|reflexivity].
Qed.

Lemma get_value_spec_witness :
  let s := final_state sample_prefix in
  let id := absolute_id s 1 false in
  (forall r, zlookup (values (tables s)) id = Some r ->
     exists v, v_values (context s) !! r = Some v /\
       get_value 1 None false s =
         Ok (if bool_decide (is_Some (@None tyref) -> None = val_type v) then Some r else None, s)) /\
  (zlength (values (tables s)) <= id -> get_value 1 None false s = Ok (None, s)).
Proof.
  apply (get_value_spec (final_state sample_prefix) 1 None false);
    [apply sample_prefix_inv|by intros t|by intros t|]. vm_compute. discriminate.
Defined.

(** * The type table *)

(** What a type record stands for, given the type table and the pending struct name;
    [None] for records that are rejected or define nothing. *)
Definition type_record_object (table : list tyref) (name : String_) (k : TypeRecord) (ops : list Z)
    : option Type_ :=
  let ty i := o ← zlookup ops i; zlookup table o in
  match k with
  | VOID_TYPE => Some (BaseType VoidTyID)
  | HALF => Some (BaseType HalfTyID)
  | TR_FLOAT => Some (BaseType FloatTyID)
  | TR_DOUBLE => Some (BaseType DoubleTyID)
  | LABEL => Some (BaseType LabelTyID)
  | METADATA => Some (BaseType MetadataTyID)
  | OPAQUE_TYPE => Some (BaseType OpaqueTyID)
  | TR_INTEGER => w ← zlookup ops 0; if w <=? 64 then Some (IntegerType w) else None
  | POINTER => p ← ty 0; a ← zlookup ops 1; Some (PointerType p (u32 a))
  | ARRAY => e ← ty 1; n ← zlookup ops 0; Some (ArrayType e n)
  | VECTOR => e ← ty 1; n ← zlookup ops 0; Some (VectorType (u32 n) e)
  | STRUCT_ANON => Some (StructType (zlookup table <$> drop 1 ops) [])
  | STRUCT_NAMED => Some (StructType (zlookup table <$> drop 1 ops) name)
  | TR_FUNCTION => r ← ty 1; Some (FunctionType r (zlookup table <$> drop 2 ops))
  | _ => None
  end.

Lemma mapM_get_type l : forall s ys s',
  mapM_list get_type l s = Ok (ys, s') -> s' = s /\ ys = zlookup (types (tables s)) <$> l.
Proof.
  induction l as [|i l IH]; intros s ys s' E; cbn [mapM_list] in E; inv_run; [done|].
  apply IH in E1 as [-> ->]. unfold get_type in E0. by inv_run.
Qed.

Lemma live_table_refs s l :
  inv s -> Forall (fun c => (c < length (type_heap (v_types (context s))))%nat)
             (omap id (zlookup (types (tables s)) <$> l)).
Proof.
  intros Hi. apply live_members, list.Forall_forall. intros o (i & -> & _)%list_elem_of_fmap t Ht.
  unfold zlookup in Ht. destruct (0 <=? i); [|done].
  exact (Forall_lookup_1 _ _ _ _ (inv_types s Hi) Ht).
Qed.

Lemma table_type_lt s i t :
  inv s -> zlookup (types (tables s)) i = Some t -> (t < length (type_heap (v_types (context s))))%nat.
Proof.
  intros Hi Ht. unfold zlookup in Ht. destruct (0 <=? i); [|done].
  apply lookup_lt_is_Some. exact (Forall_lookup_1 _ _ _ _ (inv_types s Hi) Ht).
Qed.

(** A definition record is one call of a type factory. *)
Lemma parse_type_definition_op s k ops t s' :
  inv s -> parse_type_definition k ops s = Ok (t, s') ->
  exists o, type_record_object (types (tables s)) (current_struct_name (tables s)) k ops = Some (op_type o) /\
    op_valid (v_types (context s)) o /\ on_ctypes (run_type_op o) s = Ok (t, s').
Proof.
  intros Hi E.
  assert (forall id, is_base_id id = true -> op_valid (v_types (context s)) (OpBase id)) as Hbase.
  { intros id Hid. split; [constructor|exact Hid]. }
  destruct k; cbn [parse_type_definition] in E; try discriminate E;
    unfold parse_pointer_type, parse_array_type, parse_vector_type, parse_integer_type,
      parse_struct_type, parse_function_type in E; inv_run;
    repeat match goal with H : mapM_list get_type _ _ = Ok _ |- _ => apply mapM_get_type in H as [? ?]; subst end;
    unfold get_type in *; inv_run;
    unfold type_record_object;
    repeat match goal with H : Some _ = zlookup _ _ |- _ => symmetry in H end;
    repeat match goal with H : zlookup _ _ = Some _ |- _ => rewrite H; cbn [mbind option_bind] end.
  all: try (by eexists (OpBase _); split_and!; [reflexivity|by apply Hbase|exact E]).
  - exists (OpInt x). rewrite H. split_and!; [done|split; [constructor|done]|done].
  - eexists (OpPointer _ _). split_and!; [reflexivity| |exact E].
    split; [|done]. constructor; [by eapply table_type_lt|constructor].
  - eexists (OpArray _ _). split_and!; [reflexivity| |exact E].
    split; [|done]. constructor; [by eapply table_type_lt|constructor].
  - eexists (OpVector _ _). split_and!; [reflexivity| |exact E].
    split; [|done]. constructor; [by eapply table_type_lt|constructor].
  - eexists (OpStruct _ _). split_and!; [reflexivity| |exact E]. split; [|done]. by apply live_table_refs.
  - eexists (OpStruct _ _). split_and!; [reflexivity| |exact E]. split; [|done]. by apply live_table_refs.
  - eexists (OpFunction _ _). split_and!; [reflexivity| |exact E]. split; [|done].
    constructor; [by eapply table_type_lt|by apply live_table_refs].
Qed.

(** C30. Every record of the type block that is accepted does what the bitcode format says:
    [NUMENTRY] and [STRUCT_NAME] leave the table alone, every other record appends exactly
    one entry, whose type object has the contents the record describes in terms of the
    table so far. *)
Theorem parse_type_spec child s s' :
  inv s -> parse_type child s = Ok (tt, s') ->
  inv s' /\
  match TypeRecord_of (entry_id child) with
  | Some NUMENTRY => s' = s
  | Some STRUCT_NAME => types (tables s') = types (tables s) /\
      current_struct_name (tables s') = wrap 8 <$> entry_ops child
  | Some k => exists t obj,
      type_record_object (types (tables s)) (current_struct_name (tables s)) k (entry_ops child) = Some obj /\
      types (tables s') = types (tables s) ++ [t] /\
      type_heap (v_types (context s')) !! t = Some obj
  | None => False
  end.
Proof.
  intros Hi E. split; [by destruct (parse_type_pspec child (fun _ => True) _ _ _ Hi I E)|].
  unfold parse_type in E. destruct (TypeRecord_of (entry_id child)) as [k|]; [|done].
  assert (forall E' : (ty ← parse_type_definition k (entry_ops child); add_type ty) s = Ok (tt, s'),
    exists t obj,
      type_record_object (types (tables s)) (current_struct_name (tables s)) k (entry_ops child) = Some obj /\
      types (tables s') = types (tables s) ++ [t] /\
      type_heap (v_types (context s')) !! t = Some obj) as Hdef.
  { intros E'. apply bindM_Ok in E' as (t & s1 & E1 & [= <-]).
    destruct (parse_type_definition_op s k _ t s1 Hi E1) as (o & Ho & Hv & Hrun).
    exists t, (op_type o). split; [done|]. unfold on_ctypes in Hrun.
    apply on_context_inv in Hrun as (c & Hrun & ->). unfold on_types, zoom in Hrun.
    destruct (run_type_op_spec _ o (inv_types_wf s Hi) Hv) as (r & ts & Er & _ & _ & Ht & _).
    rewrite Er in Hrun. injection Hrun as -> <-. done. }
  destruct k; try (by apply Hdef).
  - by inv_run.
  - unfold on_tables in E. inv_run. unfold getString in *. inv_ok. by split.
Qed.

Lemma parse_type_spec_witness :
  let s := final_state (parse_types sample_types_block) in
  let child := sample_record 8 [1; 3] in
  inv (final_state (_ ← parse_types sample_types_block; parse_type child)) /\
  exists t obj,
    type_record_object (types (tables s)) (current_struct_name (tables s)) POINTER [1; 3] = Some obj /\
    types (tables (final_state (_ ← parse_types sample_types_block; parse_type child))) =
      types (tables s) ++ [t] /\
    type_heap (v_types (context (final_state (_ ← parse_types sample_types_block; parse_type child)))) !! t
      = Some obj.
Proof.
  apply (parse_type_spec (sample_record 8 [1; 3]) (final_state (parse_types sample_types_block))).
  - assert (spec inv pgrow (fun _ => True) (parse_types sample_types_block) (fun _ _ => True)) as H.
    { unfold parse_types. spec_run. }
    apply (H ModuleParseContext_new tt); [apply inv_new|done|]. vm_compute. reflexivity.
  - vm_compute. reflexivity.
Defined.

(** * Attributes *)

Definition is_char (c : Z) : Prop := 0 < c < 256.

(** LLVM's writer: kind 3 without and 4 with a value, NUL-terminated strings. *)
Definition encode_attribute (a : String_ * String_) : list Z :=
  let '(k, v) := a in
  match v with
  | [] => 3 :: k ++ [0]
  | _ => 4 :: k ++ [0] ++ v ++ [0]
  end.

Definition attribute_ok (a : String_ * String_) : Prop :=
  Forall is_char (fst a) /\ Forall is_char (snd a).

Lemma zlookup_middle {A} (pre rest : list A) x : zlookup (pre ++ x :: rest) (zlength pre) = Some x.
Proof.
  unfold zlookup, zlength. destruct (Z.leb_spec 0 (Z.of_nat (length pre))); [|lia].
  rewrite Nat2Z.id. by apply list_lookup_middle.
Qed.

Lemma zlookup_after {A} (pre rest : list A) x : zlookup (pre ++ x :: rest) (zlength pre + 1) = head rest.
Proof.
  destruct rest as [|y rest].
  - unfold zlookup, zlength. destruct (Z.leb_spec 0 (Z.of_nat (length pre) + 1)); [|lia].
    apply lookup_ge_None_2. rewrite length_app. simpl. lia.
  - replace (pre ++ x :: y :: rest) with ((pre ++ [x]) ++ y :: rest) by by rewrite <- app_assoc.
    replace (zlength pre + 1) with (zlength (pre ++ [x])) by (by rewrite zlength_app).
    apply zlookup_middle.
Qed.

Lemma read_attribute_string_spec str : forall fuel pre rest acc,
  Forall is_char str -> (length str < fuel)%nat ->
  read_attribute_string fuel (pre ++ str ++ 0 :: rest) (zlength pre) acc =
    Ok (acc ++ str, zlength pre + zlength str + 1).
Proof.
  induction str as [|c str IH]; intros [|fuel] pre rest acc Hs Hf; simpl in Hf; try lia;
    cbn [read_attribute_string app].
  - rewrite zlookup_middle. cbn. by rewrite app_nil_r, Z.add_0_r.
  - apply list.Forall_cons in Hs as [Hc Hs]. rewrite zlookup_middle. cbn [some_or_ub mbind res_bind].
    destruct (Z.eqb_spec c 0); [unfold is_char in Hc; lia|].
    replace (pre ++ c :: str ++ 0 :: rest) with ((pre ++ [c]) ++ str ++ 0 :: rest)
      by by rewrite <- app_assoc.
    replace (zlength pre + 1) with (zlength (pre ++ [c])) by by rewrite zlength_app.
    rewrite IH; [|done|lia]. rewrite wrap_small by (unfold is_char in Hc; lia).
    rewrite <- app_assoc, zlength_app. do 2 f_equal. unfold zlength. simpl. lia.
Qed.

Lemma parse_attribute_spec a pre rest :
  attribute_ok a ->
  parse_attribute (pre ++ encode_attribute a ++ rest) (zlength pre) =
    Ok (zlength (pre ++ encode_attribute a), Some a).
Proof.
  destruct a as [k v]. intros [Hk Hv]. cbn [fst snd] in *. unfold parse_attribute.
  assert (forall tag tail, zlength pre + 1 = zlength (pre ++ [tag]) /\
    pre ++ (tag :: tail) ++ rest = (pre ++ [tag]) ++ tail ++ rest) as Hsplit.
  { intros tag tail. split; [by rewrite zlength_app|by rewrite <- app_assoc]. }
  destruct v as [|v0 v]; cbn [encode_attribute].
  - cbn [app]. rewrite zlookup_middle. cbn [some_or_ub mbind res_bind Z.eqb Pos.eqb orb].
    destruct (Hsplit 3 (k ++ [0])) as [-> E]. cbn [app] in E. rewrite E.
    replace ((k ++ [0]) ++ rest) with (k ++ 0 :: rest) by by rewrite <- app_assoc.
    rewrite read_attribute_string_spec; [|done|rewrite !length_app; simpl; lia].
    cbn. do 2 f_equal. unfold zlength. rewrite !length_app. simpl. rewrite length_app. simpl. lia.
  - set (w := v0 :: v) in *. cbn [app]. rewrite zlookup_middle.
    cbn [some_or_ub mbind res_bind Z.eqb Pos.eqb orb].
    destruct (Hsplit 4 (k ++ [0] ++ w ++ [0])) as [-> E]. cbn [app] in E. rewrite E.
    replace ((k ++ 0 :: w ++ [0]) ++ rest) with (k ++ 0 :: w ++ 0 :: rest)
      by (rewrite <- app_assoc; simpl; by rewrite <- app_assoc).
    rewrite read_attribute_string_spec; [|done|rewrite !length_app; simpl; lia].
    cbn [mbind res_bind]. cbv beta iota. cbn [app].
    replace ((pre ++ [4]) ++ k ++ 0 :: w ++ 0 :: rest) with (((pre ++ [4]) ++ k ++ [0]) ++ w ++ 0 :: rest)
      by (rewrite <- !app_assoc; done).
    replace (zlength (pre ++ [4]) + zlength k + 1) with (zlength ((pre ++ [4]) ++ k ++ [0]))
      by (unfold zlength; rewrite !length_app; simpl; lia).
    rewrite read_attribute_string_spec; [|done|rewrite !length_app; simpl; lia].
    cbn [mbind res_bind]. do 2 f_equal. clearbody w. unfold zlength.
    repeat (rewrite ?length_app; simpl). lia.
Qed.

Lemma parse_attributes_spec attrs : forall fuel pre acc,
  Forall attribute_ok attrs -> (length attrs < fuel)%nat ->
  parse_attributes fuel (pre ++ concat (encode_attribute <$> attrs)) (zlength pre) acc = Ok (acc ++ attrs).
Proof.
  induction attrs as [|a attrs IH]; intros [|fuel] pre acc Ha Hf; simpl in Hf; try lia;
    cbn [parse_attributes fmap list_fmap concat].
  - rewrite app_nil_r. destruct (Z.ltb_spec (zlength pre) (zlength pre)); [lia|].
    destruct (Z.leb_spec (zlength pre) (zlength pre)); [|lia]. cbn. by rewrite app_nil_r.
  - apply list.Forall_cons in Ha as [Ha Has].
    assert (zlength pre < zlength (pre ++ encode_attribute a ++ concat (encode_attribute <$> attrs))) as Hl.
    { unfold zlength. rewrite !length_app. destruct a as [k [|? ?]]; simpl; lia. }
    destruct (Z.ltb_spec (zlength pre)
      (zlength (pre ++ encode_attribute a ++ concat (encode_attribute <$> attrs)))); [|lia].
    rewrite parse_attribute_spec by done. cbn [mbind res_bind]. cbv beta iota.
    rewrite app_assoc, IH by (done || lia). by rewrite <- app_assoc.
Qed.

(** C36. Function attributes survive the bitcode encoding: reading the record that LLVM's
    writer emits for a list of string attributes (with or without values) gives back
    the list, in order. *)
Theorem attribute_group_roundtrip group_id index attrs :
  Forall attribute_ok attrs ->
  let ops := group_id :: index :: concat (encode_attribute <$> attrs) in
  parse_attributes (S (length ops)) ops 2 [] = Ok attrs.
Proof.
  intros H ops. apply (parse_attributes_spec attrs (S (length ops)) [group_id; index] []); [done|].
  unfold ops. simpl. assert (length attrs <= length (concat (encode_attribute <$> attrs)))%nat; [|lia].
  clear H ops. induction attrs as [|a attrs IH]; [done|].
  cbn [fmap list_fmap concat length]. rewrite length_app.
  destruct a as [k [|x v]]; simpl; lia.
Qed.

Lemma attribute_group_roundtrip_witness :
  parse_attributes 14 (1 :: 4294967295 :: concat (encode_attribute <$> [([97; 98], [99]); ([100], [])])) 2 []
    = Ok [([97; 98], [99]); ([100], [])].
Proof.
  apply (attribute_group_roundtrip 1 4294967295 [([97; 98], [99]); ([100], [])]).
  repeat constructor; unfold is_char; simpl; lia.
Defined.

(** * Function bodies *)

Lemma Function_set_basic_blocks_kind r l c u c' :
  Function_set_basic_blocks r l c = Ok (u, c') -> has_kind r KFunction c'.
Proof.
  intros (fd & c1 & Hf & H)%bindM_Ok.
  apply bindM_Ok in Hf as (v & c2 & [-> Hv]%value_at_inv & Hf).
  destruct (val_data v) eqn:Hd; inv_run.
  apply bindM_Ok in H as (w & c2 & [-> Hw]%value_at_inv & [= <- <-]).
  eexists. simpl. split; [by eapply list_lookup_insert_eq, lookup_lt_Some|done].
Qed.

(** The end of [parse_function_body]. *)
Lemma function_body_end f global_values s s' :
  (bbs ← gets (fun s => basic_blocks (body s));
   _ ← on_context (Function_set_basic_blocks f bbs);
   _ ← on_body (fun b => mkBody (function b) [] (instructions b) (current_bb b) 0);
   _ ← on_module (fun m => mkModule (functions m ++ [f]) (globals m) (value_symtab m)
                                    (named_metadata m) (unnamed_metadata m));
   _ ← set_values global_values;
   on_body (fun b => mkBody (function b) (basic_blocks b) [] (current_bb b) (basic_block_index b))) s
    = Ok (tt, s') ->
  values (tables s') = global_values /\ instructions (body s') = [] /\ basic_blocks (body s') = [] /\
  basic_block_index (body s') = 0 /\ functions (module s') = functions (module s) ++ [f] /\
  has_kind f KFunction (context s').
Proof.
  intros E. apply bindM_Ok in E as (bbs & s1 & [= <- <-] & E).
  apply bindM_Ok in E as ([] & s1 & (c & E1 & ->)%on_context_inv & [= <-]). simpl.
  apply Function_set_basic_blocks_kind in E1. by split_and!.
Qed.


Definition sample_before_body : P unit :=
  _ ← parse_module_child sample_types_block; parse_function_record [2; 0; 0].
Definition sample_function_block : BlockOrRecord :=
  sample_body [sample_record 2 [2 ^ 32 - 1; 1; 1; 0]; sample_record 2 [1; 1; 0]; sample_record 10 []].
Definition sample_after_body : ModuleParseContext :=
  final_state (_ ← sample_before_body; parse_function_body sample_function_block).

Lemma sample_before_body_inv : inv (final_state sample_before_body).
Proof.
  assert (spec inv pgrow (fun _ => True) sample_before_body (fun _ _ => True)) as H.
  { unfold sample_before_body. spec_run. }
  apply (H ModuleParseContext_new tt); [apply inv_new|done|]. vm_compute. reflexivity.
Qed.


(** * Records without defined behaviour *)

(** Four well-framed modules on which the reader has no defined behaviour, although each
    record has the expected number of operands: a phi whose type number is not in the type
    table (a null type is dereferenced), a compare-and-exchange whose new value is missing
    (a null value is dereferenced), a constant [getelementptr] into a struct whose index
    constant comes later in the block (the null value of the unresolved placeholder is
    dereferenced), and a string attribute without its terminator (read past the record). *)
Theorem malformed_records_crash :
  parseIR (sample_module_of [sample_record 16 [99]; sample_record 10 []]) true
    ModuleParseContext_new = UB /\
  parseIR (sample_block 8
    [sample_block 17 [sample_record 2 []; sample_record 7 [32]; sample_record 8 [1; 0];
                      sample_record 21 [0; 0; 2; 1]];
     sample_record 8 [3; 0; 0];
     sample_body [sample_record 46 [2; 1]; sample_record 10 []]]) true
    ModuleParseContext_new = UB /\
  parseIR (sample_block 8
    [sample_block 17 [sample_record 7 [32]; sample_record 18 [0; 0]; sample_record 8 [1; 0]];
     sample_block 11 [sample_record 1 [2]; sample_record 2 [];
                      sample_record 20 [2; 0; 0; 2; 0; 2]]]) true
    ModuleParseContext_new = UB /\
  parseIR (sample_block 8 [sample_block 10 [sample_record 3 [1; 4294967295; 3; 97]]]) true
    ModuleParseContext_new = UB.
Proof. vm_compute. auto. Qed.
