(* ===== verification/Converter.v ===== *)
(** The state of the conversion of one shader and its basic steps: types, constants, values and
    operations (dxil_converter.cpp, the members of [Converter::Impl] in opcodes/converter_impl.hpp).

    The converter reads the module that the bitcode reader built ([llvm], [llvm_module]), makes
    SPIR-V with the module of SPIRVModule.v and puts operations into the blocks of a node pool.
    LLVM objects are the heap entries of LLVMValue.v.  What the opcode translators and the
    resource tables add to the state is left out. *)
From S2P Require Import Prelude.
From S2P Require Import LLVMType.
From S2P Require Import LLVMValue.
From S2P Require Import ModuleContext.
From S2P Require Import IR.
From S2P Require Import CFGNode.
From S2P Require Import SpvBuilder.
From S2P Require Import Instrumentation.
From S2P Require Import SPIRVModule.
Local Open Scope Z_scope.
Local Open Scope dxil_scope.

(** * The state *)

(** The options that the modelled code reads, by group. *)
Record BranchControl := mkBranchControl {
  use_shader_metadata : bool;
  opt_force_unroll : bool;
  opt_force_loop : bool;
  opt_force_flatten : bool;
  opt_force_branch : bool;
}.

Record Options := mkOptions {
  eliminate_dead_code : bool;
  propagate_precise : bool;
  force_precise : bool;
  arithmetic_relaxed_precision : bool;
  min_precision_prefer_native_16bit : bool;
  branch_control : BranchControl;
  implementation_minimum : Z;  (** of [subgroup_size] *)
  implementation_maximum : Z;
  fixup_rsqrt : bool;          (** of [quirks] *)
  precise_fma : bool;
  force_denorm_preserve_fp16_conversions : bool;
  supports_float16_denorm_preserve : bool;
  shader_i8_dot_enabled : bool;
  mixed_dot_product_fp16_fp16_fp32 : bool;
  simulate_min16float_min_spec : bool;  (** of [GlobalConfiguration] *)
  group_shared_auto_barrier : bool;
  instrumentation_info : InstructionInstrumentationInfo;
}.

Record ExecutionModeMeta := mkExecutionModeMeta {
  native_16bit_operations : bool;
  vulkan_memory_model : bool;
  float_controls2 : bool;
  workgroup_threads : Z * Z * Z;
}.

Record ShaderAnalysis := mkShaderAnalysis {
  global_undefs : bool;
  has_group_shared_barrier : bool;
  has_group_shared_access : bool;
  needs_auto_group_shared_barriers : bool;
  precise_f16_to_f32_observed : bool;
  subgroup_ballot_reads_first : bool;
  subgroup_ballot_reads_upper : bool;
}.

(** The member initialisers. *)
Definition Options_new : Options :=
  mkOptions false false false false false (mkBranchControl false false false false false) 4 128 false false
    false false false false false false InstructionInstrumentationInfo_new.
Definition ExecutionModeMeta_new : ExecutionModeMeta := mkExecutionModeMeta false false false (0, 0, 0).
Definition ShaderAnalysis_new : ShaderAnalysis := mkShaderAnalysis false false false false false false false.

Record CompositeMeta := mkCompositeMeta { access_mask : Z; components : Z; forced_composite : bool }.
Definition CompositeMeta_new : CompositeMeta := mkCompositeMeta 0 0 true.

Record StructTypeEntry := mkStructTypeEntry {
  entry_id : Z;
  entry_name : string;
  subtypes : list Z;
  entry_flags : Z;
}.
Record ArrayTypeEntry := mkArrayTypeEntry { array_id : Z; element_type_id : Z; array_size_id : Z }.
Record PeepholeTransformation := mkPeephole { input_id : Z; result_id : Z; peephole_key : Z }.

(** [Converter::Impl]; [udiv_umod_calls] and [denorm_conv_calls] are members of [SPIRVModule::Impl]. *)
Record ConverterImpl := mkImpl {
  llvm : VState;
  llvm_module : Module_;
  spirv_module : SPIRVModule;
  node_pool : CFGNodePool;
  options : Options;
  execution_mode_meta : ExecutionModeMeta;
  shader_analysis : ShaderAnalysis;
  bb_map : gmap vref nodref;
  value_map : gmap vref Z;
  phi_incoming_rewrite : gmap Z Z;
  skip_phi_preds : list (option vref * option vref);
  current_block : option nodref;
  current_bb : option vref;
  llvm_value_actual_type : gmap vref Z;
  handle_to_storage_class : gmap vref Z;
  handle_to_root_member_offset : gmap vref Z;
  llvm_composite_meta : gmap vref CompositeMeta;
  llvm_dxil_op_fake_struct_types : list tyref;
  llvm_used_ssa_values : gset vref;
  wave_op_forced_helper_lanes : gset vref;
  bb_to_sinks : gmap vref (list vref);
  peephole_transformation_cache : list PeepholeTransformation;
  cached_struct_types : list StructTypeEntry;
  cached_physical_array_types : list ArrayTypeEntry;
  glsl_std450_ext : Z;
  udiv_umod_calls : list (Z * Z * Z);
  denorm_conv_calls : list (Z * Z * Z);
}.

Definition set_llvm (x : VState) (s : ConverterImpl) : ConverterImpl := mkImpl x (llvm_module s)
    (spirv_module s) (node_pool s) (options s) (execution_mode_meta s) (shader_analysis s)
    (bb_map s) (value_map s) (phi_incoming_rewrite s) (skip_phi_preds s) (current_block s)
    (current_bb s) (llvm_value_actual_type s) (handle_to_storage_class s)
    (handle_to_root_member_offset s) (llvm_composite_meta s) (llvm_dxil_op_fake_struct_types s)
    (llvm_used_ssa_values s) (wave_op_forced_helper_lanes s) (bb_to_sinks s)
    (peephole_transformation_cache s) (cached_struct_types s) (cached_physical_array_types s)
    (glsl_std450_ext s) (udiv_umod_calls s) (denorm_conv_calls s).
Definition set_spirv_module (x : SPIRVModule) (s : ConverterImpl) : ConverterImpl := mkImpl
    (llvm s) (llvm_module s) x (node_pool s) (options s) (execution_mode_meta s)
    (shader_analysis s) (bb_map s) (value_map s) (phi_incoming_rewrite s) (skip_phi_preds s)
    (current_block s) (current_bb s) (llvm_value_actual_type s) (handle_to_storage_class s)
    (handle_to_root_member_offset s) (llvm_composite_meta s) (llvm_dxil_op_fake_struct_types s)
    (llvm_used_ssa_values s) (wave_op_forced_helper_lanes s) (bb_to_sinks s)
    (peephole_transformation_cache s) (cached_struct_types s) (cached_physical_array_types s)
    (glsl_std450_ext s) (udiv_umod_calls s) (denorm_conv_calls s).
Definition set_node_pool (x : CFGNodePool) (s : ConverterImpl) : ConverterImpl := mkImpl (llvm s)
    (llvm_module s) (spirv_module s) x (options s) (execution_mode_meta s) (shader_analysis s)
    (bb_map s) (value_map s) (phi_incoming_rewrite s) (skip_phi_preds s) (current_block s)
    (current_bb s) (llvm_value_actual_type s) (handle_to_storage_class s)
    (handle_to_root_member_offset s) (llvm_composite_meta s) (llvm_dxil_op_fake_struct_types s)
    (llvm_used_ssa_values s) (wave_op_forced_helper_lanes s) (bb_to_sinks s)
    (peephole_transformation_cache s) (cached_struct_types s) (cached_physical_array_types s)
    (glsl_std450_ext s) (udiv_umod_calls s) (denorm_conv_calls s).
Definition set_shader_analysis (x : ShaderAnalysis) (s : ConverterImpl) : ConverterImpl := mkImpl
    (llvm s) (llvm_module s) (spirv_module s) (node_pool s) (options s) (execution_mode_meta s) x
    (bb_map s) (value_map s) (phi_incoming_rewrite s) (skip_phi_preds s) (current_block s)
    (current_bb s) (llvm_value_actual_type s) (handle_to_storage_class s)
    (handle_to_root_member_offset s) (llvm_composite_meta s) (llvm_dxil_op_fake_struct_types s)
    (llvm_used_ssa_values s) (wave_op_forced_helper_lanes s) (bb_to_sinks s)
    (peephole_transformation_cache s) (cached_struct_types s) (cached_physical_array_types s)
    (glsl_std450_ext s) (udiv_umod_calls s) (denorm_conv_calls s).
Definition set_bb_map (x : gmap vref nodref) (s : ConverterImpl) : ConverterImpl := mkImpl
    (llvm s) (llvm_module s) (spirv_module s) (node_pool s) (options s) (execution_mode_meta s)
    (shader_analysis s) x (value_map s) (phi_incoming_rewrite s) (skip_phi_preds s)
    (current_block s) (current_bb s) (llvm_value_actual_type s) (handle_to_storage_class s)
    (handle_to_root_member_offset s) (llvm_composite_meta s) (llvm_dxil_op_fake_struct_types s)
    (llvm_used_ssa_values s) (wave_op_forced_helper_lanes s) (bb_to_sinks s)
    (peephole_transformation_cache s) (cached_struct_types s) (cached_physical_array_types s)
    (glsl_std450_ext s) (udiv_umod_calls s) (denorm_conv_calls s).
Definition set_value_map (x : gmap vref Z) (s : ConverterImpl) : ConverterImpl := mkImpl (llvm s)
    (llvm_module s) (spirv_module s) (node_pool s) (options s) (execution_mode_meta s)
    (shader_analysis s) (bb_map s) x (phi_incoming_rewrite s) (skip_phi_preds s) (current_block s)
    (current_bb s) (llvm_value_actual_type s) (handle_to_storage_class s)
    (handle_to_root_member_offset s) (llvm_composite_meta s) (llvm_dxil_op_fake_struct_types s)
    (llvm_used_ssa_values s) (wave_op_forced_helper_lanes s) (bb_to_sinks s)
    (peephole_transformation_cache s) (cached_struct_types s) (cached_physical_array_types s)
    (glsl_std450_ext s) (udiv_umod_calls s) (denorm_conv_calls s).
Definition set_phi_incoming_rewrite (x : gmap Z Z) (s : ConverterImpl) : ConverterImpl := mkImpl
    (llvm s) (llvm_module s) (spirv_module s) (node_pool s) (options s) (execution_mode_meta s)
    (shader_analysis s) (bb_map s) (value_map s) x (skip_phi_preds s) (current_block s)
    (current_bb s) (llvm_value_actual_type s) (handle_to_storage_class s)
    (handle_to_root_member_offset s) (llvm_composite_meta s) (llvm_dxil_op_fake_struct_types s)
    (llvm_used_ssa_values s) (wave_op_forced_helper_lanes s) (bb_to_sinks s)
    (peephole_transformation_cache s) (cached_struct_types s) (cached_physical_array_types s)
    (glsl_std450_ext s) (udiv_umod_calls s) (denorm_conv_calls s).
Definition set_skip_phi_preds (x : list (option vref * option vref)) (s : ConverterImpl) :
    ConverterImpl := mkImpl (llvm s) (llvm_module s) (spirv_module s) (node_pool s) (options s)
    (execution_mode_meta s) (shader_analysis s) (bb_map s) (value_map s) (phi_incoming_rewrite s)
    x (current_block s) (current_bb s) (llvm_value_actual_type s) (handle_to_storage_class s)
    (handle_to_root_member_offset s) (llvm_composite_meta s) (llvm_dxil_op_fake_struct_types s)
    (llvm_used_ssa_values s) (wave_op_forced_helper_lanes s) (bb_to_sinks s)
    (peephole_transformation_cache s) (cached_struct_types s) (cached_physical_array_types s)
    (glsl_std450_ext s) (udiv_umod_calls s) (denorm_conv_calls s).
Definition set_current_block (x : option nodref) (s : ConverterImpl) : ConverterImpl := mkImpl
    (llvm s) (llvm_module s) (spirv_module s) (node_pool s) (options s) (execution_mode_meta s)
    (shader_analysis s) (bb_map s) (value_map s) (phi_incoming_rewrite s) (skip_phi_preds s) x
    (current_bb s) (llvm_value_actual_type s) (handle_to_storage_class s)
    (handle_to_root_member_offset s) (llvm_composite_meta s) (llvm_dxil_op_fake_struct_types s)
    (llvm_used_ssa_values s) (wave_op_forced_helper_lanes s) (bb_to_sinks s)
    (peephole_transformation_cache s) (cached_struct_types s) (cached_physical_array_types s)
    (glsl_std450_ext s) (udiv_umod_calls s) (denorm_conv_calls s).
Definition set_current_bb (x : option vref) (s : ConverterImpl) : ConverterImpl := mkImpl (llvm s)
    (llvm_module s) (spirv_module s) (node_pool s) (options s) (execution_mode_meta s)
    (shader_analysis s) (bb_map s) (value_map s) (phi_incoming_rewrite s) (skip_phi_preds s)
    (current_block s) x (llvm_value_actual_type s) (handle_to_storage_class s)
    (handle_to_root_member_offset s) (llvm_composite_meta s) (llvm_dxil_op_fake_struct_types s)
    (llvm_used_ssa_values s) (wave_op_forced_helper_lanes s) (bb_to_sinks s)
    (peephole_transformation_cache s) (cached_struct_types s) (cached_physical_array_types s)
    (glsl_std450_ext s) (udiv_umod_calls s) (denorm_conv_calls s).
Definition set_llvm_value_actual_type (x : gmap vref Z) (s : ConverterImpl) : ConverterImpl :=
    mkImpl (llvm s) (llvm_module s) (spirv_module s) (node_pool s) (options s)
    (execution_mode_meta s) (shader_analysis s) (bb_map s) (value_map s) (phi_incoming_rewrite s)
    (skip_phi_preds s) (current_block s) (current_bb s) x (handle_to_storage_class s)
    (handle_to_root_member_offset s) (llvm_composite_meta s) (llvm_dxil_op_fake_struct_types s)
    (llvm_used_ssa_values s) (wave_op_forced_helper_lanes s) (bb_to_sinks s)
    (peephole_transformation_cache s) (cached_struct_types s) (cached_physical_array_types s)
    (glsl_std450_ext s) (udiv_umod_calls s) (denorm_conv_calls s).
Definition set_handle_to_storage_class (x : gmap vref Z) (s : ConverterImpl) : ConverterImpl :=
    mkImpl (llvm s) (llvm_module s) (spirv_module s) (node_pool s) (options s)
    (execution_mode_meta s) (shader_analysis s) (bb_map s) (value_map s) (phi_incoming_rewrite s)
    (skip_phi_preds s) (current_block s) (current_bb s) (llvm_value_actual_type s) x
    (handle_to_root_member_offset s) (llvm_composite_meta s) (llvm_dxil_op_fake_struct_types s)
    (llvm_used_ssa_values s) (wave_op_forced_helper_lanes s) (bb_to_sinks s)
    (peephole_transformation_cache s) (cached_struct_types s) (cached_physical_array_types s)
    (glsl_std450_ext s) (udiv_umod_calls s) (denorm_conv_calls s).
Definition set_handle_to_root_member_offset (x : gmap vref Z) (s : ConverterImpl) : ConverterImpl
    := mkImpl (llvm s) (llvm_module s) (spirv_module s) (node_pool s) (options s)
    (execution_mode_meta s) (shader_analysis s) (bb_map s) (value_map s) (phi_incoming_rewrite s)
    (skip_phi_preds s) (current_block s) (current_bb s) (llvm_value_actual_type s)
    (handle_to_storage_class s) x (llvm_composite_meta s) (llvm_dxil_op_fake_struct_types s)
    (llvm_used_ssa_values s) (wave_op_forced_helper_lanes s) (bb_to_sinks s)
    (peephole_transformation_cache s) (cached_struct_types s) (cached_physical_array_types s)
    (glsl_std450_ext s) (udiv_umod_calls s) (denorm_conv_calls s).
Definition set_llvm_composite_meta (x : gmap vref CompositeMeta) (s : ConverterImpl) :
    ConverterImpl := mkImpl (llvm s) (llvm_module s) (spirv_module s) (node_pool s) (options s)
    (execution_mode_meta s) (shader_analysis s) (bb_map s) (value_map s) (phi_incoming_rewrite s)
    (skip_phi_preds s) (current_block s) (current_bb s) (llvm_value_actual_type s)
    (handle_to_storage_class s) (handle_to_root_member_offset s) x
    (llvm_dxil_op_fake_struct_types s) (llvm_used_ssa_values s) (wave_op_forced_helper_lanes s)
    (bb_to_sinks s) (peephole_transformation_cache s) (cached_struct_types s)
    (cached_physical_array_types s) (glsl_std450_ext s) (udiv_umod_calls s) (denorm_conv_calls s).
Definition set_llvm_used_ssa_values (x : gset vref) (s : ConverterImpl) : ConverterImpl := mkImpl
    (llvm s) (llvm_module s) (spirv_module s) (node_pool s) (options s) (execution_mode_meta s)
    (shader_analysis s) (bb_map s) (value_map s) (phi_incoming_rewrite s) (skip_phi_preds s)
    (current_block s) (current_bb s) (llvm_value_actual_type s) (handle_to_storage_class s)
    (handle_to_root_member_offset s) (llvm_composite_meta s) (llvm_dxil_op_fake_struct_types s) x
    (wave_op_forced_helper_lanes s) (bb_to_sinks s) (peephole_transformation_cache s)
    (cached_struct_types s) (cached_physical_array_types s) (glsl_std450_ext s)
    (udiv_umod_calls s) (denorm_conv_calls s).
Definition set_wave_op_forced_helper_lanes (x : gset vref) (s : ConverterImpl) : ConverterImpl :=
    mkImpl (llvm s) (llvm_module s) (spirv_module s) (node_pool s) (options s)
    (execution_mode_meta s) (shader_analysis s) (bb_map s) (value_map s) (phi_incoming_rewrite s)
    (skip_phi_preds s) (current_block s) (current_bb s) (llvm_value_actual_type s)
    (handle_to_storage_class s) (handle_to_root_member_offset s) (llvm_composite_meta s)
    (llvm_dxil_op_fake_struct_types s) (llvm_used_ssa_values s) x (bb_to_sinks s)
    (peephole_transformation_cache s) (cached_struct_types s) (cached_physical_array_types s)
    (glsl_std450_ext s) (udiv_umod_calls s) (denorm_conv_calls s).
Definition set_peephole_transformation_cache (x : list PeepholeTransformation) (s : ConverterImpl)
    : ConverterImpl := mkImpl (llvm s) (llvm_module s) (spirv_module s) (node_pool s) (options s)
    (execution_mode_meta s) (shader_analysis s) (bb_map s) (value_map s) (phi_incoming_rewrite s)
    (skip_phi_preds s) (current_block s) (current_bb s) (llvm_value_actual_type s)
    (handle_to_storage_class s) (handle_to_root_member_offset s) (llvm_composite_meta s)
    (llvm_dxil_op_fake_struct_types s) (llvm_used_ssa_values s) (wave_op_forced_helper_lanes s)
    (bb_to_sinks s) x (cached_struct_types s) (cached_physical_array_types s) (glsl_std450_ext s)
    (udiv_umod_calls s) (denorm_conv_calls s).
Definition set_cached_struct_types (x : list StructTypeEntry) (s : ConverterImpl) : ConverterImpl
    := mkImpl (llvm s) (llvm_module s) (spirv_module s) (node_pool s) (options s)
    (execution_mode_meta s) (shader_analysis s) (bb_map s) (value_map s) (phi_incoming_rewrite s)
    (skip_phi_preds s) (current_block s) (current_bb s) (llvm_value_actual_type s)
    (handle_to_storage_class s) (handle_to_root_member_offset s) (llvm_composite_meta s)
    (llvm_dxil_op_fake_struct_types s) (llvm_used_ssa_values s) (wave_op_forced_helper_lanes s)
    (bb_to_sinks s) (peephole_transformation_cache s) x (cached_physical_array_types s)
    (glsl_std450_ext s) (udiv_umod_calls s) (denorm_conv_calls s).
Definition set_cached_physical_array_types (x : list ArrayTypeEntry) (s : ConverterImpl) :
    ConverterImpl := mkImpl (llvm s) (llvm_module s) (spirv_module s) (node_pool s) (options s)
    (execution_mode_meta s) (shader_analysis s) (bb_map s) (value_map s) (phi_incoming_rewrite s)
    (skip_phi_preds s) (current_block s) (current_bb s) (llvm_value_actual_type s)
    (handle_to_storage_class s) (handle_to_root_member_offset s) (llvm_composite_meta s)
    (llvm_dxil_op_fake_struct_types s) (llvm_used_ssa_values s) (wave_op_forced_helper_lanes s)
    (bb_to_sinks s) (peephole_transformation_cache s) (cached_struct_types s) x
    (glsl_std450_ext s) (udiv_umod_calls s) (denorm_conv_calls s).
Definition set_glsl_std450_ext (x : Z) (s : ConverterImpl) : ConverterImpl := mkImpl (llvm s)
    (llvm_module s) (spirv_module s) (node_pool s) (options s) (execution_mode_meta s)
    (shader_analysis s) (bb_map s) (value_map s) (phi_incoming_rewrite s) (skip_phi_preds s)
    (current_block s) (current_bb s) (llvm_value_actual_type s) (handle_to_storage_class s)
    (handle_to_root_member_offset s) (llvm_composite_meta s) (llvm_dxil_op_fake_struct_types s)
    (llvm_used_ssa_values s) (wave_op_forced_helper_lanes s) (bb_to_sinks s)
    (peephole_transformation_cache s) (cached_struct_types s) (cached_physical_array_types s) x
    (udiv_umod_calls s) (denorm_conv_calls s).
Definition set_udiv_umod_calls (x : list (Z * Z * Z)) (s : ConverterImpl) : ConverterImpl :=
    mkImpl (llvm s) (llvm_module s) (spirv_module s) (node_pool s) (options s)
    (execution_mode_meta s) (shader_analysis s) (bb_map s) (value_map s) (phi_incoming_rewrite s)
    (skip_phi_preds s) (current_block s) (current_bb s) (llvm_value_actual_type s)
    (handle_to_storage_class s) (handle_to_root_member_offset s) (llvm_composite_meta s)
    (llvm_dxil_op_fake_struct_types s) (llvm_used_ssa_values s) (wave_op_forced_helper_lanes s)
    (bb_to_sinks s) (peephole_transformation_cache s) (cached_struct_types s)
    (cached_physical_array_types s) (glsl_std450_ext s) x (denorm_conv_calls s).
Definition set_denorm_conv_calls (x : list (Z * Z * Z)) (s : ConverterImpl) : ConverterImpl :=
    mkImpl (llvm s) (llvm_module s) (spirv_module s) (node_pool s) (options s)
    (execution_mode_meta s) (shader_analysis s) (bb_map s) (value_map s) (phi_incoming_rewrite s)
    (skip_phi_preds s) (current_block s) (current_bb s) (llvm_value_actual_type s)
    (handle_to_storage_class s) (handle_to_root_member_offset s) (llvm_composite_meta s)
    (llvm_dxil_op_fake_struct_types s) (llvm_used_ssa_values s) (wave_op_forced_helper_lanes s)
    (bb_to_sinks s) (peephole_transformation_cache s) (cached_struct_types s)
    (cached_physical_array_types s) (glsl_std450_ext s) (udiv_umod_calls s) x.

Definition CM : Type -> Type := M ConverterImpl.

Definition on_llvm {A} (m : M VState A) : CM A := zoom llvm set_llvm m.
Definition on_spirv {A} (m : MM A) : CM A := zoom spirv_module set_spirv_module m.
Definition on_spv {A} (m : BM A) : CM A := on_spirv (on_builder m).
Definition on_nodes {A} (m : NM A) : CM A := zoom node_pool set_node_pool m.
Definition ask_spv {A} (f : Builder -> res A) : CM A := on_spirv (ask_builder f).

(** A new converter for a module that was read. *)
Definition ConverterImpl_new (v : VState) (m : Module_) (spirv : SPIRVModule) (o : Options)
    (mode : ExecutionModeMeta) : ConverterImpl :=
  mkImpl v m spirv [] o mode ShaderAnalysis_new ∅ ∅ ∅ [] None None ∅ ∅ ∅ ∅ [] ∅ ∅ ∅ [] [] [] 0 [] [].

(** * Reading LLVM objects *)

Definition value (r : vref) : CM Value := on_llvm (value_at r).
Definition data_of (r : vref) : CM ValueData := v ← value r; mret (val_data v).
Definition kind_of (r : vref) : CM ValueKind := v ← value r; mret (val_kind v).
Definition is_kind (k : ValueKind) (r : vref) : CM bool := x ← kind_of r; mret (bool_decide (x = k)).

(** [value->getType()] and the object behind it; null is an error. *)
Definition type_ref_of (r : vref) : CM tyref := t ← on_llvm (Value_getType r); derefM t.
Definition type_object (t : tyref) : CM Type_ := on_llvm (on_types (type_at t)).
Definition type_of (r : vref) : CM Type_ := t ← type_ref_of r; type_object t.
Definition scalar_type_ref (t : tyref) : CM tyref := on_llvm (on_types (Type_getScalarType t)).
Definition scalar_type_of (r : vref) : CM Type_ :=
  t ← type_ref_of r; s ← scalar_type_ref t; type_object s.
Definition bit_width (t : Type_) : CM Z := lift (Type_getIntegerBitWidth t).

(** [getOperand] of an instruction or of a constant expression. *)
Definition get_operand (r : vref) (i : Z) : CM vref :=
  d ← data_of r;
  match d with
  | ConstantExpr _ _ => on_llvm (ConstantExpr_getOperand r i)
  | _ => o ← on_llvm (Instruction_getOperand r i); derefM o
  end.

(** The value of an integer constant, zero-extended. *)
Definition integer_value (r : vref) : CM Z :=
  a ← on_llvm (Constant_getUniqueInteger r); on_llvm (APInt_getZExtValue a).

(** [dyn_cast<ConstantInt>(value)] followed by its value. *)
Definition constant_int (r : vref) : CM (option Z) :=
  c ← is_kind KConstantInt r;
  if (c : bool) then v ← integer_value r; mret (Some v) else mret None.

(** [value->getName()] of a function. *)
Definition function_name (f : vref) : CM String_ :=
  d ← on_llvm (fn_at f);
  m ← gets llvm_module;
  mret (default [] (value_symtab m !! fn_value_id d)).

Definition has_prefix (prefix name : String_) : bool := bool_decide (take (length prefix) name = prefix).
(** ["dx.op"] and ["llvm."] *)
Definition dx_op_prefix : String_ := [100; 120; 46; 111; 112].
Definition llvm_prefix : String_ := [108; 108; 118; 109; 46].

Definition get_constant_operand (r : vref) (index : Z) : CM (option Z) :=
  n ← on_llvm (Instruction_getNumOperands r);
  if n <=? index then mret None
  else
    o ← get_operand r index;
    c ← constant_int o;
    mret (u32 <$> c).

(** The opcode of a call of a DXIL intrinsic. *)
Definition dx_op_of (r : vref) : CM (option Z) :=
  d ← data_of r;
  match d with
  | CallInst callee =>
      name ← function_name callee;
      if has_prefix dx_op_prefix name then get_constant_operand r 0 else mret None
  | _ => mret None
  end.
Definition value_is_dx_op_instrinsic (r : vref) (op : Z) : CM bool :=
  o ← dx_op_of r; mret (bool_decide (o = Some op)).

(** DXIL::Op *)
Definition DXIL_Sqrt : Z := 24.
Definition DXIL_FirstbitHi : Z := 33.
Definition DXIL_FirstbitSHi : Z := 34.
Definition DXIL_FMad : Z := 46.
Definition DXIL_Dot2 : Z := 54.
Definition DXIL_Dot3 : Z := 55.
Definition DXIL_Dot4 : Z := 56.
Definition DXIL_WaveGetLaneCount : Z := 112.
Definition DXIL_WaveActiveBallot : Z := 116.
Definition DXIL_WaveReadLaneFirst : Z := 118.
Definition DXIL_LegacyF16ToF32 : Z := 131.
Definition DXIL_Dot2AddHalf : Z := 162.

(** * Types *)

Definition TYPE_LAYOUT_PHYSICAL_BIT : Z := 0x1.
Definition TYPE_LAYOUT_READ_ONLY_BIT : Z := 0x2.
Definition TYPE_LAYOUT_COHERENT_BIT : Z := 0x4.
Definition TYPE_LAYOUT_BLOCK_BIT : Z := 0x8.
Definition has_bit (flags bit : Z) : bool := negb (Z.land flags bit =? 0).

Definition StorageClassPhysicalStorageBuffer : Z := 5349.
Definition StorageClassWorkgroup : Z := 4.
Definition DecorationCoherent : Z := 23.
Definition DecorationNonWritable : Z := 24.

(** DXIL::AddressSpace *)
Definition AddressSpace_Thread : Z := 0.
Definition AddressSpace_GroupShared : Z := 3.
Definition AddressSpace_PhysicalNodeIO : Z := 6.

Definition physical_integer_bit_width (width : Z) : Z :=
  if bool_decide (width ∈ [1; 8; 16; 32; 64]) then width else if width <=? 32 then 32 else 64.

Definition support_native_fp16_operations (s : ConverterImpl) : bool :=
  native_16bit_operations (execution_mode_meta s) || min_precision_prefer_native_16bit (options s).
Definition native_fp16 : CM bool := gets support_native_fp16_operations.

Definition align (x alignment : Z) : Z := Z.land (u32 (x + alignment - 1)) (u32 (Z.lnot (alignment - 1))).

(** The size and the alignment of a type in scalar layout; a type contains types made before. *)
Fixpoint physical_size (b : Builder) (fuel : nat) (type_id : Z) : res (Z * Z) :=
  match fuel with
  | O => UB
  | S fuel' =>
      scalar ← isScalarType b type_id;
      vector ← isVectorType b type_id;
      array ← isArrayType b type_id;
      struct ← isStructType b type_id;
      pointer ← isPointerType b type_id;
      if (scalar : bool) then w ← getScalarTypeWidth b type_id; Ok (w / 8, w / 8)
      else if (vector : bool) || (array : bool) then
        c ← getContainedTypeId b type_id 0;
        x ← physical_size b fuel' c;
        n ← getNumTypeConstituents b type_id;
        Ok (u32 (x.1 * n), x.2)
      else if (struct : bool) then
        n ← getNumTypeConstituents b type_id;
        x ← for_range (fun i (x : Z * Z) =>
              c ← getContainedTypeId b type_id (Z.to_nat i);
              m ← physical_size b fuel' c;
              Ok (u32 (align x.1 m.2 + m.1), Z.max x.2 m.2)) n (0, 0);
        Ok (align x.1 x.2, x.2)
      else if (pointer : bool) then Ok (8, 8)
      else Ok (0, 0)
  end.
Definition get_physical_size_for_type (type_id : Z) : CM (Z * Z) :=
  ask_spv (fun b => physical_size b (S (size (idToInstruction b))) type_id).

Definition decorate_physical_offset (struct_type_id type_id : Z) (st : Z * Z) : CM (Z * Z) :=
  let '(offset, member_index) := st in
  x ← get_physical_size_for_type type_id;
  _ ← assertM (negb (x.1 =? 0));
  let offset := align offset x.2 in
  _ ← on_spv (addMemberDecoration struct_type_id member_index DecorationOffset offset);
  mret (u32 (offset + x.1), member_index + 1).

Fixpoint fold_c {X A} (f : X -> A -> CM A) (l : list X) (a : A) : CM A :=
  match l with [] => mret a | x :: l' => a ← f x a; fold_c f l' a end.

Definition decorate_physical_offsets (struct_type_id : Z) (type_ids : list Z) : CM unit :=
  _ ← fold_c (decorate_physical_offset struct_type_id) type_ids (0, 0); mret tt.

Definition find_struct_type (type_ids : list Z) (flags : Z) (name : string) (s : ConverterImpl) : option Z :=
  (fun x => entry_id x.2) <$> list_find (fun e => subtypes e = type_ids /\ entry_flags e = flags /\ entry_name e = name)
    (cached_struct_types s).

Definition cache_struct_type (e : StructTypeEntry) : CM unit :=
  modify (fun s => set_cached_struct_types (cached_struct_types s ++ [e]) s).

(** A struct that is no block. *)
Definition get_plain_struct_type (type_ids : list Z) (flags : Z) (name : string) : CM Z :=
  found ← gets (find_struct_type type_ids flags name);
  match found with
  | Some id => mret id
  | None =>
      id ← on_spv (makeStructType type_ids name);
      _ ← (if has_bit flags TYPE_LAYOUT_PHYSICAL_BIT then decorate_physical_offsets id type_ids else mret tt);
      _ ← cache_struct_type (mkStructTypeEntry id name type_ids flags);
      mret id
  end.

(** A block is a struct around the struct without the flags of blocks. *)
Definition get_struct_type (type_ids : list Z) (flags : Z) (name : string) : CM Z :=
  if has_bit flags TYPE_LAYOUT_BLOCK_BIT then
    found ← gets (find_struct_type type_ids flags name);
    match found with
    | Some id => mret id
    | None =>
        let block_flags := Z.lor TYPE_LAYOUT_BLOCK_BIT (Z.lor TYPE_LAYOUT_COHERENT_BIT TYPE_LAYOUT_READ_ONLY_BIT) in
        inner ← get_plain_struct_type type_ids (Z.ldiff flags block_flags) name;
        id ← on_spv (makeStructType [inner] name);
        _ ← on_spv (addDecoration id DecorationBlock (-1));
        _ ← on_spv (addMemberDecoration id 0 DecorationOffset 0);
        vulkan ← gets (fun s => vulkan_memory_model (execution_mode_meta s));
        _ ← (if has_bit flags TYPE_LAYOUT_COHERENT_BIT && negb vulkan
             then on_spv (addMemberDecoration id 0 DecorationCoherent (-1)) else mret tt);
        _ ← (if has_bit flags TYPE_LAYOUT_READ_ONLY_BIT
             then on_spv (addMemberDecoration id 0 DecorationNonWritable (-1)) else mret tt);
        _ ← on_spv (addMemberName id 0 "data");
        _ ← cache_struct_type (mkStructTypeEntry id name type_ids flags);
        mret id
    end
  else get_plain_struct_type type_ids flags name.

(** An array in memory has a stride and is kept apart from arrays in registers. *)
Definition get_array_type (element size_id flags : Z) : CM Z :=
  if has_bit flags TYPE_LAYOUT_PHYSICAL_BIT then
    x ← get_physical_size_for_type element;
    found ← gets (fun s => list_find (fun e => element_type_id e = element /\ array_size_id e = size_id)
                            (cached_physical_array_types s));
    match found with
    | Some (_, e) => mret (array_id e)
    | None =>
        id ← on_spv (makeArrayType element size_id x.1);
        _ ← on_spv (addDecoration id DecorationArrayStride x.1);
        _ ← modify (fun s => set_cached_physical_array_types
              (cached_physical_array_types s ++ [mkArrayTypeEntry id element size_id]) s);
        mret id
    end
  else on_spv (makeArrayType element size_id 0).

(** [get_type_id(type, flags)]; LLVM types are acyclic but for pointers, and only the
    pointers to node records are followed. *)
Fixpoint type_id_walk (fuel : nat) (r : tyref) (flags : Z) : CM Z :=
  match fuel with
  | O => ubM
  | S fuel' =>
      t ← type_object r;
      match Type_getTypeID t with
      | HalfTyID => native ← native_fp16; on_spv (makeFloatType (if (native : bool) then 16 else 32) (-1))
      | FloatTyID => on_spv (makeFloatType 32 (-1))
      | DoubleTyID => on_spv (makeFloatType 64 (-1))
      | IntegerTyID =>
          w ← bit_width t;
          if w =? 1 then on_spv makeBoolType else on_spv (makeIntegerType (physical_integer_bit_width w) false)
      | PointerTyID =>
          a ← lift (Type_getPointerAddressSpace t);
          if negb (a =? AddressSpace_PhysicalNodeIO) || negb (has_bit flags TYPE_LAYOUT_PHYSICAL_BIT) then ubM
          else
            e ← lift (Type_getPointerElementType t);
            pointee ← type_id_walk fuel' e flags;
            on_spv (makePointer StorageClassPhysicalStorageBuffer pointee)
      | ArrayTyID =>
          n ← lift (Type_getArrayNumElements t);
          if n =? 0 then mret 0
          else
            e ← lift (Type_getArrayElementType t);
            et ← type_object e;
            let bytes := match et with IntegerType w => w =? 8 | _ => false end in
            if negb (has_bit flags TYPE_LAYOUT_PHYSICAL_BIT) && bytes && (n mod 4 =? 0) then
              size ← on_spv (makeUintConstant (u32 (n / 4)));
              element ← on_spv (makeUintType 32);
              get_array_type element size flags
            else
              size ← on_spv (makeUintConstant (u32 n));
              element ← type_id_walk fuel' e (Z.ldiff flags TYPE_LAYOUT_BLOCK_BIT);
              get_array_type element size flags
      | StructTyID =>
          n ← lift (Type_getStructNumElements t);
          members ← mapM_list (fun i =>
            m ← lift (Type_getStructElementType t (Z.of_nat i));
            m ← derefM m;
            type_id_walk fuel' m (Z.ldiff flags TYPE_LAYOUT_BLOCK_BIT)) (seq 0 (Z.to_nat n));
          get_struct_type members flags ""
      | VectorTyID =>
          n ← lift (Type_getVectorNumElements t);
          _ ← assertM ((1 <=? n) && (n <=? 1024));
          e ← lift (VectorType_getElementType t);
          element ← type_id_walk fuel' e 0;
          on_spv (makeVectorType element n)
      | VoidTyID => on_spv makeVoidType
      | _ => mret 0
      end
  end.

Definition get_type_id_with (r : tyref) (flags : Z) : CM Z :=
  n ← gets (fun s => length (type_heap (v_types (llvm s)))); type_id_walk (S n) r flags.
Definition get_type_id (r : tyref) : CM Z := get_type_id_with r 0.
Definition value_type_id (r : vref) : CM Z := t ← type_ref_of r; get_type_id t.

(** * Constants *)

(** The bits of the 32-bit float; the loop that normalises a subnormal number shifts ten
    times at most. *)
Fixpoint normalise (fuel : nat) (m e : Z) : Z * Z :=
  match fuel with
  | O => (m, e)
  | S fuel' => if Z.land m 0x400 =? 0 then normalise fuel' (Z.shiftl m 1) (e - 1) else (m, e)
  end.

Definition half_to_float (u16_value : Z) : Z :=
  let s := Z.land (Z.shiftr u16_value 15) 0x1 in
  let e := Z.land (Z.shiftr u16_value 10) 0x1f in
  let m := Z.land u16_value 0x3ff in
  let sign := Z.shiftl s 31 in
  let pack m e := Z.lor (Z.lor sign (Z.shiftl (e + (127 - 15)) 23)) (Z.shiftl m 13) in
  if e =? 0 then
    if m =? 0 then sign
    else let '(m, e) := normalise 10 m e in pack (Z.ldiff m 0x400) (e + 1)
  else if e =? 31 then
    if m =? 0 then Z.lor sign 0x7f800000 else Z.lor (Z.lor sign 0x7f800000) (Z.shiftl m 13)
  else pack m e.

Definition get_id_for_undef_constant (undef : vref) : CM Z :=
  t ← value_type_id undef; on_spv (createUndefinedConstant t).

Definition get_id_for_undef (undef : vref) : CM Z :=
  g ← gets (fun s => global_undefs (shader_analysis s));
  t ← value_type_id undef;
  on_spv (if (g : bool) then createUndefinedConstant t else createUndefined t).

(** A constant integer of the physical width; 0 for a width without constants. *)
Definition make_integer_constant (physical_width v : Z) : CM Z :=
  if physical_width =? 1 then on_spv (makeBoolConstant (negb (v =? 0)))
  else if physical_width =? 16 then on_spv (makeUint16Constant v)
  else if physical_width =? 32 then on_spv (makeUintConstant (u32 v))
  else if physical_width =? 64 then on_spv (makeUint64Constant v)
  else mret 0.

(** The elements of the constant, if it is an aggregate with elements. *)
Definition constant_elements (d : ValueData) : option (list (option vref)) :=
  match d with
  | ConstantAggregate l | ConstantDataArray l | ConstantDataVector l => Some l
  | _ => None
  end.

Definition constant_float_bits (r : vref) : CM Z := a ← on_llvm (Constant_getValueAPF r); mret (apfloat_value a).

(** Constants contain constants that were made before. *)
Fixpoint constant_walk (fuel : nat) (constant : vref) (forced_width : Z) : CM Z :=
  match fuel with
  | O => ubM
  | S fuel' =>
      t ← type_of constant;
      d ← data_of constant;
      match Type_getTypeID t with
      | HalfTyID =>
          _ ← on_llvm (cast (kind_is KConstantFP) (Some constant));
          v ← constant_float_bits constant;
          let f16 := wrap 16 v in
          native ← native_fp16;
          on_spv (if (native : bool) then makeFloat16Constant f16 else makeFloatConstant (half_to_float f16))
      | FloatTyID =>
          _ ← on_llvm (cast (kind_is KConstantFP) (Some constant));
          v ← constant_float_bits constant; on_spv (makeFloatConstant (u32 v))
      | DoubleTyID =>
          _ ← on_llvm (cast (kind_is KConstantFP) (Some constant));
          v ← constant_float_bits constant; on_spv (makeDoubleConstant v)
      | IntegerTyID =>
          w ← bit_width t;
          v ← integer_value constant;
          make_integer_constant (physical_integer_bit_width (if forced_width =? 0 then w else forced_width)) v
      | VectorTyID | ArrayTyID | StructTyID =>
          type_id ← value_type_id constant;
          match d with
          | ConstantAggregateZero => on_spv (makeNullConstant type_id)
          | _ =>
              match constant_elements d with
              | Some l =>
                  ids ← mapM_list (fun o =>
                    c ← on_llvm (cast Constant_is_base_of o);
                    undef ← is_kind KUndef c;
                    if (undef : bool) then get_id_for_undef_constant c else constant_walk fuel' c 0) l;
                  on_spv (makeCompositeConstant type_id ids)
              | None => mret 0
              end
          end
      | _ => mret 0
      end
  end.

Definition get_id_for_constant (constant : vref) (forced_width : Z) : CM Z :=
  n ← gets (fun s => length (v_values (llvm s))); constant_walk (S n) constant forced_width.

(** An array with one more element that is null. *)
Definition get_padded_constant_array (padded_type_id : Z) (constant : vref) : CM Z :=
  t ← type_of constant;
  _ ← assertM (bool_decide (Type_getTypeID t = ArrayTyID));
  d ← data_of constant;
  match d with
  | ConstantAggregateZero => on_spv (makeNullConstant padded_type_id)
  | ConstantAggregate l | ConstantDataArray l =>
      ids ← mapM_list (fun o =>
        c ← on_llvm (cast Constant_is_base_of o);
        undef ← is_kind KUndef c;
        if (undef : bool) then get_id_for_undef_constant c else get_id_for_constant c 0) l;
      e ← lift (Type_getArrayElementType t);
      element ← get_type_id e;
      null ← on_spv (makeNullConstant element);
      on_spv (makeCompositeConstant padded_type_id (ids ++ [null]))
  | _ => mret 0
  end.

(** * Operations *)

Section operations.
Context `{FreshMemory}.

Definition allocate (code id type_id : Z) : CM opref :=
  _ ← assertM (negb (type_id =? 0)); _ ← assertM (negb (id =? 0)); on_spirv (allocate_op code id type_id).
Definition allocate_plain (code : Z) : CM opref := on_spirv (allocate_op code 0 0).
Definition allocate_typed (code type_id : Z) : CM opref :=
  _ ← assertM (negb (type_id =? 0)); id ← on_spirv allocate_id; on_spirv (allocate_op code id type_id).

Definition modify_op (o : opref) (f : Operation -> res Operation) : CM unit :=
  x ← on_spirv (op_at o); y ← lift (f x); on_spirv (update_op o (fun _ => y)).
Definition arg_id (o : opref) (id : Z) : CM unit := modify_op o (fun x => add_id fresh_words x id).
Definition arg_ids (o : opref) (ids : list Z) : CM unit := modify_op o (fun x => add_ids fresh_words x ids).
Definition arg_literal (o : opref) (v : Z) : CM unit := modify_op o (fun x => add_literal fresh_words x v).
Definition id_of (o : opref) : CM Z := x ← on_spirv (op_at o); mret (op_id x).

Definition push_operation (o : opref) (r : nodref) : CM unit :=
  on_nodes (update r (fun n => set_ir
    (mkIRBlock (phi (ir n)) (operations (ir n) ++ [o]) (merge_info (ir n)) (terminator (ir n))) n)).

Definition add_rov (o : opref) (is_rov : bool) : CM unit :=
  b ← gets current_block;
  r ← derefM b;
  _ ← (if is_rov then x ← allocate_plain OpBeginInvocationInterlockEXT; push_operation x r else mret tt);
  _ ← push_operation o r;
  if is_rov then x ← allocate_plain OpEndInvocationInterlockEXT; push_operation x r else mret tt.
Definition add (o : opref) : CM unit := add_rov o false.

(** A new operation with these id arguments, added to the block. *)
Definition emit_typed (code type_id : Z) (args : list Z) : CM Z :=
  o ← allocate_typed code type_id;
  _ ← for_eachM (arg_id o) args;
  _ ← add o;
  id_of o.

Definition rewrite_value (r : vref) (id : Z) : CM unit :=
  m ← gets value_map;
  match m !! r with
  | Some old =>
      if old =? id then mret tt
      else
        _ ← modify (fun s => set_phi_incoming_rewrite (<[old := id]> (phi_incoming_rewrite s)) s);
        modify (fun s => set_value_map (<[r := id]> (value_map s)) s)
  | None => modify (fun s => set_value_map (<[r := id]> (value_map s)) s)
  end.

(** [glsl_std450_ext], imported on first use *)
Definition glsl_ext : CM Z :=
  e ← gets glsl_std450_ext;
  if e =? 0 then
    e ← on_spv (import "GLSL.std.450");
    _ ← modify (fun s => set_glsl_std450_ext e s);
    mret e
  else mret e.

Definition type_can_relax_precision (s : ConverterImpl) (t : Type_) (known_integer_sign : bool) : bool :=
  arithmetic_relaxed_precision (options s) &&
  (negb (native_16bit_operations (execution_mode_meta s)) && negb (min_precision_prefer_native_16bit (options s)) &&
   match t with
   | BaseType HalfTyID => true
   | IntegerType w => (w =? 16) && known_integer_sign
   | _ => false
   end).

(** The element type of an array, then of a vector. *)
Definition innermost_type (t : tyref) : CM Type_ :=
  x ← type_object t;
  s ← scalar_type_ref (match x with ArrayType e _ => e | _ => t end);
  type_object s.

Definition decorate_relaxed_precision (t : tyref) (id : Z) (known_integer_sign : bool) : CM unit :=
  x ← innermost_type t;
  r ← gets (fun s => type_can_relax_precision s x known_integer_sign);
  if (r : bool) then on_spv (addDecoration id DecorationRelaxedPrecision (-1)) else mret tt.

Definition build_vector_type (element count : Z) : CM Z :=
  if count =? 1 then mret element else on_spv (makeVectorType element count).

Definition build_vector (element : Z) (elements : list Z) : CM Z :=
  match elements with
  | [x] => mret x
  | _ =>
      t ← on_spv (makeVectorType element (zlength elements));
      o ← allocate_typed OpCompositeConstruct t;
      _ ← modify_op o (fun x => reserve_arguments fresh_words x (zlength elements));
      _ ← for_eachM (arg_id o) elements;
      _ ← add o;
      id_of o
  end.

Definition build_constant_vector (element : Z) (elements : list Z) : CM Z :=
  match elements with
  | [x] => mret x
  | _ => t ← on_spv (makeVectorType element (zlength elements)); on_spv (makeCompositeConstant t elements)
  end.

Definition build_splat_constant_vector (element v count : Z) : CM Z :=
  _ ← assertM ((1 <=? count) && (count <=? 1024));
  build_constant_vector element (replicate (Z.to_nat count) v).

Definition build_offset (v offset : Z) : CM Z :=
  if offset =? 0 then mret v
  else
    t ← on_spv (makeUintType 32);
    o ← allocate_typed OpIAdd t;
    c ← on_spv (makeUintConstant offset);
    _ ← arg_ids o [v; c];
    _ ← add o;
    id_of o.

End operations.
