(* ===== verification/ConverterReads.v ===== *)
(** Reading the objects of the module while it is converted: what the accessors of Converter.v give
    for a value that is known. *)
From S2P Require Import Prelude.
From S2P Require Import LLVMType.
From S2P Require Import LLVMValue.
From S2P Require Import SpvBuilder.
From S2P Require Import SPIRVModule.
From S2P Require Import Converter.
Local Open Scope Z_scope.

(** The object behind a pointer. *)
Definition value_is (s : ConverterImpl) (r : vref) (v : Value) : Prop := v_values (llvm s) !! r = Some v.

Lemma set_llvm_id s : set_llvm (llvm s) s = s.
Proof. by destruct s. Qed.

Lemma on_llvm_run {A} (m : M VState A) s a v : m (llvm s) = Ok (a, v) -> on_llvm m s = Ok (a, set_llvm v s).
Proof. intros E. unfold on_llvm, zoom. by rewrite E. Qed.
Lemma value_at_run (s : VState) r v : v_values s !! r = Some v -> value_at r s = Ok (v, s).
Proof. intros E. unfold value_at, mbind, M_bind, gets, derefM, lift. by rewrite E. Qed.
Lemma data_run s r v : value_is s r v -> data_of r s = Ok (val_data v, s).
Proof.
  intros E. unfold data_of, value. rewrite (bindM_run _ _ _ _ _ (on_llvm_run _ _ _ _ (value_at_run _ _ _ E))).
  by rewrite set_llvm_id.
Qed.
Lemma read_run {A} (m : M VState A) s a : m (llvm s) = Ok (a, llvm s) -> on_llvm m s = Ok (a, s).
Proof. intros E. by rewrite (on_llvm_run _ _ _ _ E), set_llvm_id. Qed.

Lemma data_inv s r d s' : data_of r s = Ok (d, s') -> s' = s /\ exists v, value_is s r v /\ val_data v = d.
Proof.
  unfold data_of, value. intros (x & s1 & (v & Hv & ->)%zoom_Ok & E')%bindM_Ok. unfold value_at in Hv. inv_run.
  rewrite set_llvm_id. split; [done|]. exists x. split; [|done]. unfold value_is. congruence.
Qed.

Lemma kind_run s r v : value_is s r v -> kind_of r s = Ok (val_kind v, s).
Proof.
  intros E. unfold kind_of, value. rewrite (bindM_run _ _ _ _ _ (on_llvm_run _ _ _ _ (value_at_run _ _ _ E))).
  by rewrite set_llvm_id.
Qed.
Lemma is_kind_run s r v k : value_is s r v -> is_kind k r s = Ok (bool_decide (val_kind v = k), s).
Proof. intros E. unfold is_kind. by rewrite (bindM_run _ _ _ _ _ (kind_run _ _ _ E)). Qed.
