(* ===== verification/LLVMBuiltins.v ===== *)
(** The translation of LLVM instructions and constant expressions (opcodes/opcodes_llvm_builtins.cpp).

    An integer of a width that SPIR-V does not have lives in the next larger one, where only the
    low bits count; [build_naturally_extended_value] makes all bits count.  The templates over
    instructions and constant expressions are one definition each, since both are values with
    operands.

    A constant expression is built wherever it is used, so the translation of an operand can need
    the translation of an instruction: the definitions of the section take the former as
    [get_id], and [get_id_for_value] ties the knot. *)
From S2P Require Import Prelude.
From S2P Require Import LLVMType.
From S2P Require Import LLVMValue.
From S2P Require Import IR.
From S2P Require Import SpvBuilder.
From S2P Require Import Instrumentation.
From S2P Require Import SPIRVModule.
From S2P Require Import Passes.
From S2P Require Import Converter.
Local Open Scope Z_scope.
Local Open Scope dxil_scope.

(** * Numbers *)

Definition OpConvertFToU : Z := 109.
Definition OpConvertFToS : Z := 110.
Definition OpConvertSToF : Z := 111.
Definition OpConvertUToF : Z := 112.
Definition OpUConvert : Z := 113.
Definition OpSConvert : Z := 114.
Definition OpSNegate : Z := 126.
Definition OpFNegate : Z := 127.
Definition OpFAdd : Z := 129.
Definition OpFSub : Z := 131.
Definition OpFMul : Z := 133.
Definition OpUDiv : Z := 134.
Definition OpSDiv : Z := 135.
Definition OpFDiv : Z := 136.
Definition OpUMod : Z := 137.
Definition OpSRem : Z := 138.
Definition OpFRem : Z := 140.
Definition OpAll : Z := 155.
Definition OpLogicalEqual : Z := 164.
Definition OpLogicalNotEqual : Z := 165.
Definition OpUGreaterThan : Z := 172.
Definition OpSGreaterThan : Z := 173.
Definition OpUGreaterThanEqual : Z := 174.
Definition OpSGreaterThanEqual : Z := 175.
Definition OpULessThan : Z := 176.
Definition OpSLessThan : Z := 177.
Definition OpULessThanEqual : Z := 178.
Definition OpSLessThanEqual : Z := 179.
Definition OpFOrdEqual : Z := 180.
Definition OpFUnordEqual : Z := 181.
Definition OpFOrdNotEqual : Z := 182.
Definition OpFUnordNotEqual : Z := 183.
Definition OpFOrdLessThan : Z := 184.
Definition OpFUnordLessThan : Z := 185.
Definition OpFOrdGreaterThan : Z := 186.
Definition OpFUnordGreaterThan : Z := 187.
Definition OpFOrdLessThanEqual : Z := 188.
Definition OpFUnordLessThanEqual : Z := 189.
Definition OpFOrdGreaterThanEqual : Z := 190.
Definition OpFUnordGreaterThanEqual : Z := 191.
Definition OpShiftRightArithmetic : Z := 195.
Definition OpNot : Z := 200.
Definition OpBitFieldSExtract : Z := 202.
Definition GLSLstd450InverseSqrt : Z := 32.
Definition GLSLstd450PackHalf2x16 : Z := 58.
Definition GLSLstd450UnpackHalf2x16 : Z := 62.
Definition GLSLstd450FindSMsb : Z := 74.
Definition GLSLstd450NMin : Z := 79.
Definition ScopeWorkgroup : Z := 2.

(** enum ExpectAssumeCodes *)
Definition ExpectAssumeUDivByZero : Z := 1234000013.
Definition ExpectAssumeUModByZero : Z := 1234000014.
Definition ExpectAssumeSDivByZero : Z := 1234000015.
Definition ExpectAssumeSRemByZero : Z := 1234000016.

(** [numeric_limits<float>::max()] *)
Definition max_float : Z := 0x7f7fffff.

(** enum CmpInst::Predicate *)
Definition FCMP_FALSE : Z := 0.
Definition FCMP_ORD : Z := 7.
Definition FCMP_UNO : Z := 8.
Definition FCMP_TRUE : Z := 15.
Definition ICMP_EQ : Z := 32.
Definition ICMP_NE : Z := 33.
Definition ICMP_UGT : Z := 34.

(** * The division functions *)

Definition division_name (op : Z) : string :=
  if op =? OpUDiv then "UDiv" else if op =? OpUMod then "UMod" else if op =? OpSDiv then "SDiv" else "SRem".

Definition all_bits_constant (width : Z) : BM Z :=
  if width =? 16 then makeUint16Constant 0xffff
  else if width =? 32 then makeUintConstant 0xffffffff
  else makeUint64Constant (2 ^ 64 - 1).

Definition extract_component (scalar_type_id composite c : Z) : BM Z :=
  h ← add_op scalar_type_id OpCompositeExtract;
  _ ← add_operand h composite;
  _ ← add_operand h c;
  result_of h.

(** Divide one component, all bits set for a zero divisor; the result is the value and the
    block that has it. *)
Definition divide_component (func : funcref) (scalar_type_id op constant_max_id num_id den_id : Z)
    (current nonzero_block merge_block : blockref) : BM Z :=
  bool_type ← makeBoolType;
  is_zero ← add_op bool_type OpIEqual;
  _ ← add_operand is_zero den_id;
  null ← makeNullConstant scalar_type_id;
  _ ← add_operand is_zero null;
  _ ← createSelectionMerge merge_block SelectionControlFlattenMask;
  z ← result_of is_zero;
  _ ← createConditionalBranch z merge_block nonzero_block;
  _ ← setBuildPoint nonzero_block;
  uop ← add_op scalar_type_id op;
  _ ← add_operand uop num_id;
  _ ← add_operand uop den_id;
  actual_op_id ← result_of uop;
  _ ← createBranch merge_block;
  _ ← setBuildPoint merge_block;
  phi ← add_op scalar_type_id OpPhi;
  _ ← add_operand phi constant_max_id;
  from_current ← block_id current;
  _ ← add_operand phi from_current;
  _ ← add_operand phi actual_op_id;
  from_nonzero ← block_id nonzero_block;
  _ ← add_operand phi from_nonzero;
  result_of phi.

Fixpoint divide_components (func : funcref) (type_id scalar_type_id op constant_max_id : Z) (is_scalar : bool)
    (num den : Z) (count : nat) (c : Z) (current : blockref) (result : Z) : BM Z :=
  match count with
  | O => mret result
  | S count' =>
      n_id ← getUniqueId; nonzero_block ← new_Block n_id func;
      m_id ← getUniqueId; merge_block ← new_Block m_id func;
      _ ← setBuildPoint current;
      num_id ← (if is_scalar then mret num else extract_component scalar_type_id num c);
      den_id ← (if is_scalar then mret den else extract_component scalar_type_id den c);
      q ← divide_component func scalar_type_id op constant_max_id num_id den_id current nonzero_block merge_block;
      result ← (if is_scalar then mret q
                else
                  result ← (if result =? 0 then createUndefinedConstant type_id else mret result);
                  h ← add_op type_id OpCompositeInsert;
                  _ ← add_operand h q;
                  _ ← add_operand h result;
                  _ ← add_operand h c;
                  result_of h);
      divide_components func type_id scalar_type_id op constant_max_id is_scalar num den count' (c + 1) merge_block result
  end.

Definition build_udiv_umod_function (type_id op : Z) : BM Z :=
  current_build_point ← gets buildPoint;
  x ← makeFunctionEntry type_id (Some (division_name op)) [type_id; type_id];
  let '(func, entry) := (x : funcref * blockref) in
  num ← getParamId func 0;
  den ← getParamId func 1;
  _ ← addName num "num";
  _ ← addName den "den";
  cls ← (fun b => c ← getTypeClass b type_id; Ok (c, b));
  let is_scalar := cls =? OpTypeInt in
  width ← (fun b => w ← getScalarTypeWidth b type_id; Ok (w, b));
  constant_max_id ← all_bits_constant width;
  vecsize ← (if is_scalar then mret 1 else (fun b => n ← getNumTypeConstituents b type_id; Ok (n, b)));
  scalar_type_id ← (fun b => t ← getScalarTypeId b type_id; Ok (t, b));
  result ← divide_components func type_id scalar_type_id op constant_max_id is_scalar num den
             (Z.to_nat vecsize) 0 entry 0;
  _ ← makeReturn false result;
  _ ← modify (set_buildPoint current_build_point);
  f ← function_at func;
  mret (resultId (functionInstruction f)).

Definition build_udiv_umod (type_id op : Z) : CM Z :=
  calls ← gets udiv_umod_calls;
  match list_find (fun c : Z * Z * Z => c.1 = (type_id, op)) calls with
  | Some (_, c) => mret c.2
  | None =>
      id ← on_spv (build_udiv_umod_function type_id op);
      _ ← modify (fun s => set_udiv_umod_calls (udiv_umod_calls s ++ [(type_id, op, id)]) s);
      mret id
  end.

(** * Values *)

Definition BinaryOps_of (n : Z) : option BinaryOps :=
  snd <$> list_find (fun op => BinaryOps_value op = n)
    [Add; FAdd; Sub; FSub; Mul; FMul; UDiv; SDiv; FDiv; URem; SRem; FRem; Shl; LShr; AShr; And; Or; Xor].
Definition CastOps_of (n : Z) : option CastOps :=
  snd <$> list_find (fun op => CastOps_value op = n)
    [Trunc; ZExt; SExt; FPToUI; FPToSI; UIToFP; SIToFP; FPTrunc; FPExt; PtrToInt; IntToPtr; BitCast; AddrSpaceCast].

(** [getOpcode] of an instruction or a constant expression. *)
Definition binary_opcode (r : vref) : CM BinaryOps :=
  d ← data_of r;
  match d with
  | BinaryOperator op _ => mret op
  | ConstantExpr n _ => mret (default InvalidBinaryOp (BinaryOps_of n))
  | _ => ubM
  end.
Definition cast_opcode (r : vref) : CM CastOps :=
  d ← data_of r;
  match d with
  | CastInst op => mret op
  | ConstantExpr n _ => mret (default InvalidCastOp (CastOps_of n))
  | _ => ubM
  end.

Definition is_cexpr (r : vref) : CM bool := is_kind KConstantExpr r.

Definition is_vector (t : Type_) : bool := bool_decide (Type_getTypeID t = VectorTyID).
Definition is_integer_of (w : Z) (t : Type_) : bool := match t with IntegerType x => x =? w | _ => false end.

(** Values to [n] bits count; instructions that a phi does not cut refer to older ones. *)
Fixpoint undefined_walk (fuel : nat) (r : vref) : CM bool :=
  match fuel with
  | O => ubM
  | S fuel' =>
      d ← data_of r;
      match d with
      | UndefValue => mret true
      | ConstantExpr _ _ | BinaryOperator _ _ =>
          (a ← get_operand r 0; undefined_walk fuel' a) <&&> (b ← get_operand r 1; undefined_walk fuel' b)
      | _ => mret false
      end
  end.
Definition instruction_is_undefined_value (r : vref) : CM bool :=
  n ← gets (fun s => length (v_values (llvm s))); undefined_walk (S n) r.

Definition can_optimize_to_snegate (r : vref) : CM bool :=
  op ← binary_opcode r;
  match op with
  | Sub => o ← get_operand r 0; c ← constant_int o; mret (bool_decide (c = Some 0))
  | _ => mret false
  end.

Definition all_bits (w : Z) : Z := if w =? 64 then 2 ^ 64 - 1 else 2 ^ w - 1.

Definition scalar_is_all_bits_set (r : vref) : CM bool :=
  c ← constant_int r;
  match c with
  | Some v => t ← type_of r; w ← bit_width t; mret (Z.land v (all_bits w) =? all_bits w)
  | None => mret false
  end.

Fixpoint all_of {X} (f : X -> CM bool) (l : list X) : CM bool :=
  match l with [] => mret true | x :: l' => b ← f x; if (b : bool) then all_of f l' else mret false end.

(** The elements of a vector are integers. *)
Definition constant_is_all_bits_set (r : vref) : CM bool :=
  d ← data_of r;
  match d with
  | ConstantDataVector l =>
      all_of (fun o => c ← on_llvm (cast Constant_is_base_of o); scalar_is_all_bits_set c) l
  | _ => scalar_is_all_bits_set r
  end.

Definition get_bitwise_not_from_xor (a b : vref) : CM (option vref) :=
  x ← constant_is_all_bits_set a;
  if (x : bool) then mret (Some b)
  else y ← constant_is_all_bits_set b; mret (if (y : bool) then Some a else None).

(** [isFast]; constants are never reordered. *)
Definition instruction_is_fast_math (r : vref) : CM bool :=
  d ← data_of r; mret (match d with BinaryOperator _ fast => fast | _ => false end).

Definition add_nocontract_decoration (id : Z) : CM unit :=
  controls ← gets (fun s => float_controls2 (execution_mode_meta s));
  force ← gets (fun s => force_precise (options s));
  if (controls : bool) then
    if (force : bool) then mret tt
    else on_spv (addDecoration id DecorationFPFastMathMode FPFastMathModeAllowRecipMask)
  else on_spv (addDecoration id DecorationNoContraction (-1)).

Definition set_actual_type (r : vref) (t : Z) : CM unit :=
  modify (fun s => set_llvm_value_actual_type (<[r := t]> (llvm_value_actual_type s)) s).
Definition set_storage_class (r : vref) (c : Z) : CM unit :=
  modify (fun s => set_handle_to_storage_class (<[r := c]> (handle_to_storage_class s)) s).

(** The type of a pointer that was cast goes on to the pointers made from it. *)
Definition resolve_llvm_actual_value_type (dependent : option vref) (r : vref) (default_type : Z) : CM Z :=
  t ← gets (fun s => llvm_value_actual_type s !! r);
  match t with
  | Some t => _ ← match dependent with Some d => set_actual_type d t | None => mret tt end; mret t
  | None => mret default_type
  end.

Definition get_effective_storage_class (r : vref) (fallback : Z) : CM Z :=
  gets (fun s => default fallback (handle_to_storage_class s !! r)).

(** * Translation, given the translation of operands *)

Section emit.
Context `{FreshMemory}.
Variable get_id : vref -> CM Z.

(** [allocate(op, value)] and [allocate(op, value, type)] *)
Definition allocate_value_typed (code : Z) (r : vref) (type_id : Z) : CM opref :=
  c ← is_cexpr r;
  _ ← assertM (negb c);
  _ ← assertM (negb (type_id =? 0));
  id ← get_id r;
  on_spirv (allocate_op code id type_id).
Definition allocate_value (code : Z) (r : vref) : CM opref :=
  c ← is_cexpr r;
  _ ← assertM (negb c);
  id ← get_id r;
  t ← value_type_id r;
  on_spirv (allocate_op code id t).

(** A constant expression has no id of its own. *)
Definition allocate_result (code : Z) (r : vref) : CM opref :=
  c ← is_cexpr r;
  if (c : bool) then t ← value_type_id r; allocate_typed code t else allocate_value code r.

(** The arguments are translated one after another, the operation is added last. *)
Definition finish (o : opref) (args : list (CM Z)) : CM Z :=
  _ ← for_eachM (fun a : CM Z => x ← a; arg_id o x) args;
  _ ← add o;
  id_of o.

Definition operand_id (r : vref) (i : Z) : CM Z := o ← get_operand r i; get_id o.

(** ** Integers of odd widths *)

Definition build_extended_value (r : vref) (bits : Z) (is_signed : bool) : CM Z :=
  id ← get_id r;
  t ← scalar_type_of r;
  match t with
  | IntegerType logical_bits =>
      let bits := if bits =? 0 then logical_bits else bits in
      if bits =? physical_integer_bit_width logical_bits then mret id
      else
        type_id ← value_type_id r;
        o ← allocate_typed (if is_signed then OpBitFieldSExtract else OpBitFieldUExtract) type_id;
        finish o [mret id; on_spv (makeUintConstant 0); on_spv (makeUintConstant bits)]
  | _ => mret id
  end.

(** All the bits of the value count. *)
Definition build_naturally_extended_value (r : vref) (is_signed : bool) : CM Z :=
  id ← get_id r;
  t ← scalar_type_of r;
  match t with
  | IntegerType logical_bits => build_extended_value r logical_bits is_signed
  | _ => mret id
  end.

(** ** Binary operators *)

Definition find_peephole (input key : Z) (s : ConverterImpl) : Z :=
  match list_find (fun p => input_id p = input /\ peephole_key p = key) (peephole_transformation_cache s) with
  | Some (_, p) => result_id p
  | None => 0
  end.

(** The reciprocal square root, not above the largest number; made once for an input. *)
Definition clamped_inverse_sqrt (r input : vref) : CM Z :=
  input_id ← get_id input;
  found ← gets (find_peephole input_id GLSLstd450InverseSqrt);
  if found =? 0 then
    ext ← glsl_ext;
    t ← value_type_id r;
    inv_sqrt ← allocate_typed OpExtInst t;
    _ ← arg_id inv_sqrt ext;
    _ ← arg_literal inv_sqrt GLSLstd450InverseSqrt;
    inv_sqrt_id ← finish inv_sqrt [get_id input];
    t ← value_type_id r;
    clamp ← allocate_typed OpExtInst t;
    _ ← arg_id clamp ext;
    _ ← arg_literal clamp GLSLstd450NMin;
    clamp_id ← finish clamp [mret inv_sqrt_id; on_spv (makeFloatConstant max_float)];
    _ ← modify (fun s => set_peephole_transformation_cache
          (peephole_transformation_cache s ++ [mkPeephole input_id clamp_id GLSLstd450InverseSqrt]) s);
    mret clamp_id
  else mret found.

Definition dx_precise : String_ := [100; 120; 46; 112; 114; 101; 99; 105; 115; 101].

Definition emit_fixup_fdiv_sqrt (r : vref) : CM Z :=
  c ← is_cexpr r;
  fast ← instruction_is_fast_math r;
  o ← gets options;
  if (c : bool) || negb fast || force_precise o || negb (fixup_rsqrt o) then mret 0
  else
    t ← type_of r;
    if negb (bool_decide (Type_getTypeID t = FloatTyID)) then mret 0
    else
      divisor ← get_operand r 1;
      sqrt ← value_is_dx_op_instrinsic divisor DXIL_Sqrt;
      if negb sqrt then mret 0
      else
        precise ← on_llvm (Instruction_hasMetadata divisor dx_precise);
        if (precise : bool) then mret 0
        else
          input ← get_operand divisor 1;
          _ ← glsl_ext;
          inv_sqrt_id ← clamped_inverse_sqrt r input;
          mul ← allocate_value OpFMul r;
          finish mul [operand_id r 0; mret inv_sqrt_id].

(** [inverse] is a fast operation that undoes one operand of [r]. *)
Definition hoist_value (r inverse inverse_value : vref) (counter_is_commutative : bool) : CM bool :=
  cancel_op0 ← get_operand inverse 0;
  cancel_op1 ← get_operand inverse 1;
  if counter_is_commutative && bool_decide (cancel_op0 = inverse_value) then
    id ← get_id cancel_op1; _ ← rewrite_value r id; mret true
  else if bool_decide (cancel_op1 = inverse_value) then
    id ← get_id cancel_op0; _ ← rewrite_value r id; mret true
  else mret false.

Definition is_fast_inverse (r : vref) (inverse_operation : BinaryOps) : CM bool :=
  d ← data_of r;
  mret (match d with
        | BinaryOperator op fast => fast && (BinaryOps_value op =? BinaryOps_value inverse_operation)
        | _ => false
        end).

(** (a / b) * b and (a * b) / b in fast math *)
Definition peephole_trivial_arithmetic_identity (r : vref) (inverse_operation : BinaryOps) (is_commutative : bool)
    : CM Z :=
  c ← is_cexpr r;
  fast ← instruction_is_fast_math r;
  force ← gets (fun s => force_precise (options s));
  if (c : bool) || negb fast || (force : bool) then mret 0
  else
    op0 ← get_operand r 0;
    op1 ← get_operand r 1;
    first ← is_fast_inverse op0 inverse_operation <&&> hoist_value r op0 op1 (negb is_commutative);
    if (first : bool) then get_id r
    else if is_commutative then
      second ← is_fast_inverse op1 inverse_operation <&&> hoist_value r op1 op0 (negb is_commutative);
      if (second : bool) then get_id r else mret 0
    else mret 0.

(** Assert that no component of the divisor is zero. *)
Definition emit_nonzero_assumption (r : vref) (divisor_id : CM Z) (code : Z) : CM unit :=
  t ← type_of r;
  let vecsize := match t with VectorType n _ => n | _ => 1 end in
  bool_type ← on_spv makeBoolType;
  type_id ← (if 1 <? vecsize then on_spv (makeVectorType bool_type vecsize) else mret bool_type);
  eq ← allocate_typed OpINotEqual type_id;
  d ← get_operand r 1;
  eq_id ← finish eq [divisor_id; t ← value_type_id d; on_spv (makeNullConstant t)];
  all_id ← (if 1 <? vecsize then
              b ← on_spv makeBoolType; all ← allocate_typed OpAll b; finish all [mret eq_id]
            else mret eq_id);
  assert_non_zero ← allocate_plain OpAssumeTrueKHR;
  _ ← finish assert_non_zero [mret all_id; on_spv (makeUintConstant code)];
  mret tt.

Definition division_code (opcode : Z) : Z :=
  if opcode =? OpUDiv then ExpectAssumeUDivByZero
  else if opcode =? OpUMod then ExpectAssumeUModByZero
  else if opcode =? OpSDiv then ExpectAssumeSDivByZero
  else ExpectAssumeSRemByZero.

Definition emit_integer_division_instruction (r : vref) (opcode : Z) : CM Z :=
  divisor ← get_operand r 1;
  let is_signed := (opcode =? OpSDiv) || (opcode =? OpSRem) in
  let operand_id i := o ← get_operand r i; if is_signed then build_naturally_extended_value o true else get_id o in
  t ← type_of r;
  constant ← (if is_vector t then mret None else constant_int divisor);
  match constant with
  | Some v =>
      if negb (v =? 0) then
        op ← allocate_value opcode r;
        finish op [operand_id 0; operand_id 1]
      else
        st ← scalar_type_of r;
        w ← bit_width st;
        let physical := physical_integer_bit_width w in
        if physical =? 16 then on_spv (makeUint16Constant 0xffff)
        else if physical =? 32 then on_spv (makeUintConstant 0xffffffff)
        else if physical =? 64 then on_spv (makeUint64Constant (2 ^ 64 - 1))
        else mret 0
  | None =>
      type_id ← value_type_id r;
      call_id ← build_udiv_umod type_id opcode;
      call ← allocate_result OpFunctionCall r;
      info ← gets (fun s => instrumentation_info (options s));
      _ ← (if enabled info && bool_decide (instrumentation_type info = ExpectAssume)
           then emit_nonzero_assumption r (operand_id 1) (division_code opcode) else mret tt);
      finish call [mret call_id; operand_id 0; operand_id 1]
  end.

(** What a binary operator becomes: an operation, or a value that was found or made. *)
Inductive BinaryPlan :=
  | PlanOp (opcode : Z) (width_sensitive signed_input floating : bool)
  | PlanDone (id : Z).

Definition emit_not (r not_value : vref) (is_bool : bool) : CM Z :=
  not_id ← get_id not_value;
  o ← allocate_result (if is_bool then OpLogicalNot else OpNot) r;
  finish o [mret not_id].

Definition plan_binary (r : vref) : CM BinaryPlan :=
  op ← binary_opcode r;
  t ← scalar_type_of r;
  let plain code := mret (PlanOp code false false false) in
  let floating code := mret (PlanOp code false false true) in
  let done (m : CM Z) := id ← m; mret (PlanDone id) in
  let or_else (m : CM Z) (k : CM BinaryPlan) := id ← m; if id =? 0 then k else mret (PlanDone id) in
  match op with
  | FAdd => floating OpFAdd
  | FSub => floating OpFSub
  | FMul => or_else (peephole_trivial_arithmetic_identity r FDiv true) (floating OpFMul)
  | FDiv =>
      or_else (peephole_trivial_arithmetic_identity r FMul false)
        (or_else (emit_fixup_fdiv_sqrt r) (floating OpFDiv))
  | FRem => floating OpFRem
  | Add => plain OpIAdd
  | Sub =>
      neg ← can_optimize_to_snegate r;
      if (neg : bool) then done (o ← allocate_value OpSNegate r; finish o [operand_id r 1]) else plain OpISub
  | Mul => plain OpIMul
  | SDiv => done (emit_integer_division_instruction r OpSDiv)
  | UDiv => done (emit_integer_division_instruction r OpUDiv)
  | SRem => done (emit_integer_division_instruction r OpSRem)
  | URem => done (emit_integer_division_instruction r OpUMod)
  | Shl => plain OpShiftLeftLogical
  | LShr => mret (PlanOp OpShiftRightLogical true false false)
  | AShr => mret (PlanOp OpShiftRightArithmetic true true false)
  | Xor =>
      a ← get_operand r 0;
      b ← get_operand r 1;
      not_value ← get_bitwise_not_from_xor a b;
      w ← bit_width t;
      match not_value with
      | Some x => done (emit_not r x (w =? 1))
      | None => plain (if w =? 1 then OpLogicalNotEqual else OpBitwiseXor)
      end
  | And => w ← bit_width t; plain (if w =? 1 then OpLogicalAnd else OpBitwiseAnd)
  | Or => w ← bit_width t; plain (if w =? 1 then OpLogicalOr else OpBitwiseOr)
  | InvalidBinaryOp => mret (PlanDone 0)
  end.

(** An undefined operand leaves the other one, 0 if none is undefined. *)
Definition forwarded_operand (r : vref) : CM Z :=
  a ← get_operand r 0;
  b ← get_operand r 1;
  a_is_undef ← instruction_is_undefined_value a;
  b_is_undef ← instruction_is_undefined_value b;
  if (b_is_undef : bool) then get_id a
  else if (a_is_undef : bool) then get_id b
  else mret 0.

Definition emit_binary_operation (r : vref) (opcode : Z) (width_sensitive signed_input floating : bool) : CM Z :=
  forward_value ← forwarded_operand r;
  c ← is_cexpr r;
  if negb (forward_value =? 0) then
    _ ← (if (c : bool) then mret tt else rewrite_value r forward_value); mret forward_value
  else
    op ← allocate_result opcode r;
    let operand i :=
      o ← get_operand r i;
      if width_sensitive then build_naturally_extended_value o signed_input else get_id o in
    id0 ← operand 0;
    id1 ← operand 1;
    _ ← arg_ids op [id0; id1];
    _ ← add op;
    id ← id_of op;
    fast ← instruction_is_fast_math r;
    force ← gets (fun s => force_precise (options s));
    _ ← (if floating && (force || negb fast) then add_nocontract_decoration id else mret tt);
    t ← type_ref_of r;
    _ ← (if floating then decorate_relaxed_precision t id false else mret tt);
    mret id.

Definition emit_binary_instruction_impl (r : vref) : CM Z :=
  p ← plan_binary r;
  match p with
  | PlanDone id => mret id
  | PlanOp opcode width_sensitive signed_input floating =>
      emit_binary_operation r opcode width_sensitive signed_input floating
  end.

Definition emit_binary_instruction (r : vref) : CM bool :=
  id ← emit_binary_instruction_impl r; mret (negb (id =? 0)).

Definition emit_unary_instruction (r : vref) : CM bool :=
  d ← data_of r;
  let emit opcode :=
    o ← allocate_value opcode r;
    x ← operand_id r 0;
    _ ← arg_id o x;
    id ← id_of o;
    t ← type_ref_of r;
    _ ← decorate_relaxed_precision t id false;
    _ ← add o;
    mret true in
  match d with
  | UnaryOperator UFNeg => emit OpFNegate
  | UnaryOperator UINeg => emit OpSNegate
  | _ => mret false
  end.

(** ** Casts *)

(** Zero and one (or all bits, minus one) of a type; [None] if it has no constants. *)
Definition integer_pair (physical_width : Z) (is_signed : bool) : CM (option (Z * Z)) :=
  let pair (make : Z -> BM Z) (one : Z) :=
    a ← on_spv (make 0); b ← on_spv (make one); mret (Some (a, b)) in
  if physical_width =? 16 then pair makeUint16Constant (if is_signed then 0xffff else 1)
  else if physical_width =? 32 then pair makeUintConstant (if is_signed then 0xffffffff else 1)
  else if physical_width =? 64 then pair makeUint64Constant (if is_signed then 2 ^ 64 - 1 else 1)
  else mret None.

Definition float_pair (make : Z -> BM Z) (one : Z) : CM (option (Z * Z)) :=
  a ← on_spv (make 0); b ← on_spv (make one); mret (Some (a, b)).

(** 1.0 and -1.0 *)
Definition half_one (is_signed : bool) : Z := Z.lor 0x3c00 (if is_signed then 0x8000 else 0).
Definition float_one (is_signed : bool) : Z := if is_signed then 0xbf800000 else 0x3f800000.
Definition double_one (is_signed : bool) : Z := if is_signed then 0xbff0000000000000 else 0x3ff0000000000000.

Definition splat_pair (t : tyref) (p : Z * Z) : CM (Z * Z) :=
  x ← type_object t;
  if is_vector x then
    s ← scalar_type_ref t;
    type_id ← get_type_id s;
    n ← lift (Type_getVectorNumElements x);
    a ← build_splat_constant_vector type_id p.1 n;
    b ← build_splat_constant_vector type_id p.2 n;
    mret (a, b)
  else mret p.

(** bool(V & 1) *)
Definition emit_boolean_trunc_instruction (r : vref) : CM Z :=
  input ← get_operand r 0;
  st ← scalar_type_of input;
  w ← bit_width st;
  p ← integer_pair (physical_integer_bit_width w) false;
  match p with
  | None => mret 0
  | Some p =>
      t ← type_ref_of input;
      p ← splat_pair t p;
      type_id ← get_type_id t;
      mask ← allocate_typed OpBitwiseAnd type_id;
      mask_id ← finish mask [build_naturally_extended_value input false; mret p.2];
      op ← allocate_value OpINotEqual r;
      finish op [mret mask_id; mret p.1]
  end.

(** A boolean becomes 1, or -1 when signed. *)
Definition emit_boolean_convert_instruction (r : vref) (is_signed : bool) : CM Z :=
  st ← scalar_type_of r;
  native ← native_fp16;
  p ← match Type_getTypeID st with
      | HalfTyID => if (native : bool) then float_pair makeFloat16Constant (half_one is_signed)
                    else float_pair makeFloatConstant (float_one is_signed)
      | FloatTyID => float_pair makeFloatConstant (float_one is_signed)
      | DoubleTyID => float_pair makeDoubleConstant (double_one is_signed)
      | IntegerTyID => w ← bit_width st; integer_pair (physical_integer_bit_width w) is_signed
      | _ => mret None
      end;
  match p with
  | None => mret 0
  | Some p =>
      t ← type_ref_of r;
      p ← splat_pair t p;
      op ← allocate_value OpSelect r;
      x ← operand_id r 0;
      _ ← arg_id op x;
      _ ← arg_ids op [p.2; p.1];
      _ ← add op;
      id ← id_of op;
      _ ← decorate_relaxed_precision t id false;
      mret id
  end.

(** Extensions and truncations between widths that are not both widths of SPIR-V; 0 if they are. *)
Definition emit_masked_cast_instruction (r : vref) (opcode : Z) : CM Z :=
  input ← get_operand r 0;
  ot ← scalar_type_of r;
  it ← scalar_type_of input;
  logical_output_bits ← bit_width ot;
  logical_input_bits ← bit_width it;
  let logical_bits := Z.min logical_output_bits logical_input_bits in
  let is_signed := opcode =? OpSConvert in
  if physical_integer_bit_width logical_output_bits =? physical_integer_bit_width logical_input_bits then
    extended_id ← build_extended_value input logical_bits is_signed;
    _ ← rewrite_value r extended_id;
    mret extended_id
  else if negb (physical_integer_bit_width logical_input_bits =? logical_input_bits) then
    op ← allocate_value opcode r;
    finish op [build_extended_value input logical_bits is_signed]
  else mret 0.

Definition is_half (t : Type_) : bool := bool_decide (Type_getTypeID t = HalfTyID).
Definition is_float (t : Type_) : bool := bool_decide (Type_getTypeID t = FloatTyID).

(** Conversions between min-precision and full floats without native halves; the second
    result tells that a copy with relaxed precision is made. *)
Definition value_cast_is_noop (r : vref) : CM (bool * bool) :=
  op ← cast_opcode r;
  t ← type_of r;
  input ← get_operand r 0;
  it ← type_of input;
  native ← native_fp16;
  relaxed ← gets (fun s => arithmetic_relaxed_precision (options s));
  match op with
  | FPExt => mret (is_float t && is_half it && negb native, false)
  | FPTrunc => let noop := is_float it && is_half t && negb native in mret (noop, noop && relaxed)
  | _ => mret (false, false)
  end.

(** A float that goes through a half: the float. *)
Definition value_cast_is_fp16_quantization (r : vref) : CM (option vref) :=
  d ← data_of r;
  match d with
  | CastInst FPExt =>
      t ← type_of r;
      if negb (is_float t) then mret None
      else
        trunc ← get_operand r 0;
        td ← data_of trunc;
        match td with
        | CastInst FPTrunc =>
            tt ← type_of trunc;
            x ← get_operand trunc 0;
            xt ← type_of x;
            mret (if is_half tt && is_float xt then Some x else None)
        | _ => mret None
        end
  | _ => mret None
  end.

(** The dimensions of an array, and its elements; types are acyclic. *)
Fixpoint array_depth (fuel : nat) (t : tyref) : CM (Z * tyref) :=
  match fuel with
  | O => ubM
  | S fuel' =>
      x ← type_object t;
      match x with
      | ArrayType e _ => d ← array_depth fuel' e; mret (d.1 + 1, d.2)
      | _ => mret (0, t)
      end
  end.
Definition array_shape (t : tyref) : CM (Z * tyref) :=
  n ← gets (fun s => length (type_heap (v_types (llvm s)))); array_depth (S n) t.

Definition pointee_of (t : Type_) : CM tyref := lift (Type_getPointerElementType t).

(** The pointer under constant expressions and the offset of the last [getelementptr]. *)
Fixpoint under_cexprs (fuel : nat) (r : vref) (offset : Z) : CM (vref * Z) :=
  match fuel with
  | O => ubM
  | S fuel' =>
      d ← data_of r;
      match d with
      | ConstantExpr opcode l =>
          offset ← (if (opcode =? GEPOps_GetElementPtr) && (zlength l =? 3)
                    then i ← get_operand r 2; v ← integer_value i; mret (u32 v) else mret offset);
          o ← get_operand r 0;
          under_cexprs fuel' o offset
      | _ => mret (r, offset)
      end
  end.

(** Thread group memory that the front end declared as bytes is an array of words. *)
Definition emit_dxbc_tgsm_bitcast (r : vref) : CM Z :=
  t ← type_of r;
  match t with
  | PointerType output a =>
      if negb (a =? AddressSpace_GroupShared) then mret 0
      else
        input ← get_operand r 0;
        n ← gets (fun s => length (v_values (llvm s)));
        x ← under_cexprs (S n) input 0;
        let '(input_value, offset) := (x : vref * Z) in
        it ← type_of input_value;
        pointee ← pointee_of it;
        i ← array_shape pointee;
        o ← array_shape output;
        elem ← type_object i.2;
        if negb (is_integer_of 8 elem) then mret 0
        else if negb (offset mod 4 =? 0) then mret 0
        else
          input_id ← get_id input_value;
          input_id ← (if o.1 <? i.1 then
              u ← on_spv (makeUintType 32);
              p ← on_spv (makePointer StorageClassWorkgroup u);
              chain ← allocate_typed OpInBoundsAccessChain p;
              finish chain (mret input_id ::
                (on_spv <$> (makeUintConstant <$> (offset / 4 :: replicate (Z.to_nat (i.1 - o.1 - 1)) 0))))
            else mret input_id);
          _ ← rewrite_value r input_id;
          u ← on_spv (makeUintType 32);
          _ ← set_actual_type r u;
          mret input_id
  | _ => mret 0
  end.

(** The half that was packed into the low or the high part of a word. *)
Definition packed_half (input_uint : vref) : CM (vref * Z) :=
  d ← data_of input_uint;
  match d with
  | BinaryOperator LShr _ =>
      c ← get_constant_operand input_uint 1;
      if bool_decide (c = Some 16) then o ← get_operand input_uint 0; mret (o, 1) else mret (input_uint, 0)
  | BinaryOperator And _ =>
      c ← get_constant_operand input_uint 1;
      match c with
      | Some c => if Z.land c 0xffff =? 0xffff then o ← get_operand input_uint 0; mret (o, 0) else mret (input_uint, 0)
      | None => mret (input_uint, 0)
      end
  | _ => mret (input_uint, 0)
  end.

(** A half that became a float only to be truncated; the operand of a call is its second. *)
Definition emit_bypass_fp16_trunc (r : vref) : CM Z :=
  c ← is_cexpr r;
  if (c : bool) then mret 0
  else
    call ← is_kind KCall r;
    v ← get_operand r (if (call : bool) then 1 else 0);
    t ← type_of r;
    legacy ← value_is_dx_op_instrinsic v DXIL_LegacyF16ToF32;
    d ← data_of v;
    if (legacy : bool) then
      input_uint ← get_operand v 1;
      p ← packed_half input_uint;
      u16 ← on_spv (makeUintType 16);
      u16x2 ← on_spv (makeVectorType u16 2);
      bitcast ← allocate_typed OpBitcast u16x2;
      bitcast_id ← finish bitcast [get_id p.1];
      u16 ← on_spv (makeUintType 16);
      ext ← allocate_typed OpCompositeExtract u16;
      _ ← arg_id ext bitcast_id;
      _ ← arg_literal ext p.2;
      _ ← add ext;
      ext_id ← id_of ext;
      o ← allocate_value (if is_half t then OpBitcast else OpUConvert) r;
      finish o [mret ext_id]
    else
      match d with
      | CastInst FPExt =>
          x ← get_operand v 0;
          xt ← type_of x;
          if negb (is_half xt) then mret 0
          else
            id ← get_id x;
            if is_half t then _ ← rewrite_value r id; mret id
            else
              u16 ← on_spv (makeUintType 16);
              bitcast ← allocate_typed OpBitcast u16;
              bitcast_id ← finish bitcast [mret id];
              o ← allocate_value OpUConvert r;
              finish o [mret bitcast_id]
      | _ => mret 0
      end.

(** Without native halves a half is a float: bits go through the packing instructions. *)
Definition emit_special_non_native_packing_bitcast (r : vref) : CM Z :=
  c ← is_cexpr r;
  if (c : bool) then mret 0
  else
    input ← get_operand r 0;
    ot ← type_of r;
    it ← type_of input;
    out_st ← scalar_type_of r;
    in_st ← scalar_type_of input;
    let integer x := bool_decide (Type_getTypeID x = IntegerTyID) in
    let output_is_vec2 := is_vector ot in
    let input_is_vec2 := is_vector it in
    if is_half out_st && integer in_st then
      ext ← glsl_ext;
      id ← get_id input;
      id ← (if Bool.eqb input_is_vec2 output_is_vec2 then
              u ← on_spv (makeUintType 32);
              o ← allocate_typed (if input_is_vec2 then OpBitcast else OpUConvert) u;
              finish o [mret id]
            else mret id);
      f ← on_spv (makeFloatType 32 (-1));
      v ← on_spv (makeVectorType f 2);
      cast ← allocate_typed OpExtInst v;
      _ ← arg_id cast ext;
      _ ← arg_literal cast GLSLstd450UnpackHalf2x16;
      cast_id ← finish cast [mret id];
      if output_is_vec2 then _ ← rewrite_value r cast_id; mret cast_id
      else
        e ← allocate_value OpCompositeExtract r;
        _ ← arg_id e cast_id;
        _ ← arg_literal e 0;
        _ ← add e;
        id_of e
    else if integer out_st && is_half in_st then
      ext ← glsl_ext;
      id ← get_id input;
      id ← (if input_is_vec2 then mret id
            else
              zero ← on_spv (makeFloatConstant 0);
              f ← on_spv (makeFloatType 32 (-1));
              build_vector f [id; zero]);
      u ← on_spv (makeUintType 32);
      cast ← allocate_typed OpExtInst u;
      _ ← arg_id cast ext;
      _ ← arg_literal cast GLSLstd450PackHalf2x16;
      cast_id ← finish cast [mret id];
      if Bool.eqb output_is_vec2 input_is_vec2 then
        o ← allocate_value (if output_is_vec2 then OpBitcast else OpUConvert) r;
        finish o [mret cast_id]
      else _ ← rewrite_value r cast_id; mret cast_id
    else mret 0.

(** Pointers are not cast; the loads and stores cast the value. *)
Definition emit_pointer_cast (r : vref) : CM Z :=
  input ← get_operand r 0;
  it ← type_of input;
  t ← type_of r;
  pointee ← pointee_of it;
  output ← pointee_of t;
  i ← array_shape pointee;
  o ← array_shape output;
  ie ← type_object i.2;
  oe ← type_object o.2;
  let pointer x := bool_decide (Type_getTypeID x = PointerTyID) in
  if pointer ie || pointer oe then mret 0
  else
    value_type ← get_type_id i.2;
    value_type ← resolve_llvm_actual_value_type (Some r) input value_type;
    a ← lift (Type_getPointerAddressSpace it);
    storage ← get_effective_storage_class input
                (if a =? AddressSpace_GroupShared then StorageClassWorkgroup else StorageClassFunction);
    id ← get_id input;
    let remember id := _ ← set_actual_type r value_type; _ ← set_storage_class r storage; mret id in
    if negb (o.1 =? i.1) then
      if (i.1 <? o.1) || negb (o.1 =? 0) then mret 0
      else
        p ← on_spv (makePointer storage value_type);
        op ← allocate_typed OpInBoundsAccessChain p;
        id ← finish op (mret id :: replicate (Z.to_nat i.1) (on_spv (makeUintConstant 0)));
        remember id
    else
      c ← is_cexpr r;
      if (c : bool) then remember id
      else
        p ← on_spv (makePointer storage value_type);
        op ← allocate_value_typed OpCopyObject r p;
        id ← finish op [mret id];
        remember id.

(** What a cast becomes, before pointers are looked at. *)
Inductive CastPlan :=
  | CastOp (opcode : Z) (signed_input relaxable : bool)
  | CastDone (id : Z).

Definition plan_cast (r : vref) : CM CastPlan :=
  op ← cast_opcode r;
  input ← get_operand r 0;
  let is_bool (x : vref) := t ← scalar_type_of x; w ← bit_width t; mret (w =? 1) in
  let or_else (m : CM Z) (k : CM CastPlan) := id ← m; if id =? 0 then k else mret (CastDone id) in
  let boolean is_signed := id ← emit_boolean_convert_instruction r is_signed; mret (CastDone id) in
  match op with
  | BitCast =>
      native ← native_fp16;
      if (native : bool) then mret (CastOp OpBitcast false false)
      else or_else (emit_special_non_native_packing_bitcast r) (mret (CastOp OpBitcast false false))
  | SExt =>
      b ← is_bool input;
      if (b : bool) then boolean true
      else or_else (emit_masked_cast_instruction r OpSConvert) (mret (CastOp OpSConvert true false))
  | ZExt =>
      b ← is_bool input;
      if (b : bool) then boolean false
      else or_else (emit_masked_cast_instruction r OpUConvert) (mret (CastOp OpUConvert false false))
  | Trunc =>
      b ← is_bool r;
      if (b : bool) then id ← emit_boolean_trunc_instruction r; mret (CastDone id)
      else or_else (emit_masked_cast_instruction r OpUConvert) (mret (CastOp OpUConvert false false))
  | FPTrunc | FPExt => mret (CastOp OpFConvert false true)
  | FPToUI => mret (CastOp OpConvertFToU false false)
  | FPToSI => mret (CastOp OpConvertFToS false false)
  | SIToFP => b ← is_bool input; if (b : bool) then boolean true else mret (CastOp OpConvertSToF true false)
  | UIToFP => b ← is_bool input; if (b : bool) then boolean false else mret (CastOp OpConvertUToF false false)
  | _ => mret (CastDone 0)
  end.

Definition emit_plain_cast (r : vref) (opcode : Z) (signed_input relaxable : bool) : CM Z :=
  op ← allocate_result opcode r;
  input ← get_operand r 0;
  id ← finish op [build_naturally_extended_value input signed_input];
  t ← type_ref_of r;
  _ ← (if relaxable then decorate_relaxed_precision t id false else mret tt);
  cast ← cast_opcode r;
  controls ← gets (fun s => float_controls2 (execution_mode_meta s));
  _ ← (if (controls : bool) && (CastOps_value cast =? CastOps_value FPTrunc)
       then add_nocontract_decoration id else mret tt);
  mret id.

Definition emit_noop_cast (r : vref) (relaxed : bool) : CM Z :=
  if relaxed then
    trunc_op ← allocate_value OpCopyObject r;
    id ← finish trunc_op [operand_id r 0];
    _ ← on_spv (addDecoration id DecorationRelaxedPrecision (-1));
    mret id
  else
    id ← operand_id r 0;
    _ ← rewrite_value r id;
    mret id.

Definition emit_planned_cast (r : vref) : CM Z :=
  p ← plan_cast r;
  match p with
  | CastDone id => mret id
  | CastOp opcode signed_input relaxable =>
      id ← emit_dxbc_tgsm_bitcast r;
      if negb (id =? 0) then mret id
      else
        t ← type_of r;
        if bool_decide (Type_getTypeID t = PointerTyID) then emit_pointer_cast r
        else emit_plain_cast r opcode signed_input relaxable
  end.

(** A cast that is no quantization. *)
Definition emit_other_cast (r : vref) : CM Z :=
  noop ← value_cast_is_noop r;
  if (noop.1 : bool) then emit_noop_cast r noop.2
  else
    op ← cast_opcode r;
    t ← type_of r;
    native ← native_fp16;
    id ← (if (CastOps_value op =? CastOps_value FPTrunc) && is_half t && native then emit_bypass_fp16_trunc r else mret 0);
    if negb (id =? 0) then mret id else emit_planned_cast r.

(** The id of the float that is quantized is made even if it is not used. *)
Definition emit_cast_instruction_impl (r : vref) : CM Z :=
  quantized ← value_cast_is_fp16_quantization r;
  quantized_id ← match quantized with Some x => id ← get_id x; mret (Some id) | None => mret None end;
  mode ← gets execution_mode_meta;
  match quantized_id with
  | Some id =>
      if native_16bit_operations mode && negb (float_controls2 mode)
      then quant_op ← allocate_value OpQuantizeToF16 r; finish quant_op [mret id]
      else emit_other_cast r
  | None => emit_other_cast r
  end.

(** Pointers to bytes are only for the markers of lifetimes. *)
Definition cast_instruction_is_ignored (r : vref) : CM bool :=
  t ← type_of r;
  match t with
  | PointerType e _ => x ← type_object e; mret (is_integer_of 8 x)
  | _ => mret false
  end.

Definition emit_cast_instruction (r : vref) : CM bool :=
  ignored ← cast_instruction_is_ignored r;
  if (ignored : bool) then mret true
  else id ← emit_cast_instruction_impl r; mret (negb (id =? 0)).

(** ** Constant expressions *)

Definition build_constant_getelementptr (r : vref) (elements : list (option vref)) : CM Z :=
  base ← get_operand r 0;
  ptr_id ← get_id base;
  t ← type_of r;
  e ← pointee_of t;
  type_id ← get_type_id e;
  type_id ← resolve_llvm_actual_value_type (Some r) base type_id;
  fallback ← ask_spv (fun b => getStorageClass b ptr_id);
  storage ← get_effective_storage_class base fallback;
  type_id ← on_spv (makePointer storage type_id);
  op ← allocate_typed OpAccessChain type_id;
  _ ← arg_id op ptr_id;
  elem_index ← get_operand r 1;
  c ← constant_int elem_index;
  if negb (bool_decide (c = Some 0)) then mret 0
  else
    finish op ((fun i => operand_id r (Z.of_nat i)) <$> seq 2 (length elements - 2)).

Definition build_constant_expression (r : vref) (opcode : Z) (elements : list (option vref)) : CM Z :=
  if opcode =? GEPOps_GetElementPtr then build_constant_getelementptr r elements
  else if bool_decide (is_Some (CastOps_of opcode)) then emit_cast_instruction_impl r
  else if bool_decide (is_Some (BinaryOps_of opcode)) then emit_binary_instruction_impl r
  else mret 0.

End emit.

(** * The translation of values *)

Section values.
Context `{FreshMemory}.

(** A constant expression is built at each use, from values that were made before it; any
    other value has one id. *)
Fixpoint value_walk (fuel : nat) (r : vref) : CM Z :=
  match fuel with
  | O => ubM
  | S fuel' =>
      d ← data_of r;
      match d with
      | ConstantExpr opcode elements => build_constant_expression (value_walk fuel') r opcode elements
      | _ =>
          m ← gets value_map;
          match m !! r with
          | Some id => mret id
          | None =>
              id ← match d with
                   | UndefValue => get_id_for_undef r
                   | _ => if Constant_is_base_of (get_value_kind d) then get_id_for_constant r 0
                          else on_spirv allocate_id
                   end;
              _ ← modify (fun s => set_value_map (<[r := id]> (value_map s)) s);
              mret id
          end
      end
  end.

Definition get_id_for_value (r : vref) : CM Z :=
  n ← gets (fun s => length (v_values (llvm s))); value_walk (S n) r.

End values.
