(* ===== verification/Instructions.v ===== *)
(** The translation of the other LLVM instructions and their analysis (the rest of
    opcodes/opcodes_llvm_builtins.cpp, [emit_native_bitscan] of opcodes/dxil/dxil_arithmetic.cpp).

    Instructions on memory ([getelementptr], [load], [store], [alloca]) read the tables of
    resources, which are not modelled; [emit_llvm_instruction] takes their translation as an
    argument.  The hooks for vendor extensions do nothing in a shader that uses none. *)
From S2P Require Import Prelude.
From S2P Require Import LLVMType.
From S2P Require Import LLVMValue.
From S2P Require Import IR.
From S2P Require Import SpvBuilder.
From S2P Require Import Instrumentation.
From S2P Require Import SPIRVModule.
From S2P Require Import Passes.
From S2P Require Import Converter.
From S2P Require Import LLVMBuiltins.
Local Open Scope Z_scope.
Local Open Scope dxil_scope.

(** * Numbers *)

Definition CapabilityInt64Atomics : Z := 12.
Definition GLSLstd450UMin : Z := 38.
Definition GLSLstd450SMax : Z := 42.
Definition GLSLstd450FindILsb : Z := 73.
Definition GLSLstd450FindUMsb : Z := 75.
Definition FCMP_OEQ : Z := 1.
Definition FCMP_OGT : Z := 2.
Definition FCMP_OGE : Z := 3.
Definition FCMP_OLT : Z := 4.
Definition FCMP_OLE : Z := 5.
Definition FCMP_ONE : Z := 6.
Definition FCMP_UEQ : Z := 9.
Definition FCMP_UGT : Z := 10.
Definition FCMP_UGE : Z := 11.
Definition FCMP_ULT : Z := 12.
Definition FCMP_ULE : Z := 13.
Definition FCMP_UNE : Z := 14.
Definition ICMP_UGE : Z := 35.
Definition ICMP_ULT : Z := 36.
Definition ICMP_ULE : Z := 37.
Definition ICMP_SGT : Z := 38.
Definition ICMP_SGE : Z := 39.
Definition ICMP_SLT : Z := 40.
Definition ICMP_SLE : Z := 41.

Definition type_is_composite_return_value (t : Type_) : bool :=
  bool_decide (Type_getTypeID t = StructTyID) || is_vector t.

(** The first member of a struct, then the element of a vector. *)
Definition get_composite_element_type (t : tyref) : CM tyref :=
  x ← type_object t;
  _ ← assertM (type_is_composite_return_value x);
  t ← (if bool_decide (Type_getTypeID x = StructTyID)
       then m ← lift (Type_getStructElementType x 0); derefM m else mret t);
  x ← type_object t;
  if is_vector x then lift (VectorType_getElementType x) else mret t.

Definition instruction_is_ballot (aggregate : vref) : CM bool :=
  d ← data_of aggregate;
  match d with
  | CallInst callee =>
      name ← function_name callee;
      if has_prefix dx_op_prefix name then
        o ← get_operand aggregate 0;
        c ← constant_int o;
        mret (bool_decide (u32 <$> c = Some DXIL_WaveActiveBallot))
      else mret false
  | _ => mret false
  end.

Definition getPredicate (r : vref) : CM (option Z) :=
  d ← data_of r; mret (match d with FCmpInst p | ICmpInst p => Some p | _ => None end).

Section instructions.
Context `{FreshMemory}.

Local Abbreviation allocate_value := (allocate_value get_id_for_value) (only parsing).
Local Abbreviation allocate_value_typed := (allocate_value_typed get_id_for_value) (only parsing).
Local Abbreviation operand_id := (operand_id get_id_for_value) (only parsing).

Definition add_flags (o : opref) (f : Z) : CM unit :=
  modify_op o (fun x => Ok (mkOperation (op x) (op_id x) (op_type_id x) (Z.lor (flags x) f)
                              (arguments x) (argument_count x) (argument_capacity x))).

(** ** Bit scans *)

(** The instruction takes the result; without one it gets an id of its own. *)
Definition allocate_for (code : Z) (instruction : option vref) (type_id : Z) : CM opref :=
  match instruction with
  | Some r => allocate_value code r
  | None => allocate_typed code type_id
  end.

Definition splat_if (vector : bool) (type_id id count : Z) : CM Z :=
  if vector then build_splat_constant_vector type_id id count else mret id.

Definition shuffle (type_id source : Z) (mask : list Z) : CM Z :=
  o ← allocate_typed OpVectorShuffle type_id;
  _ ← arg_id o source;
  _ ← arg_id o source;
  _ ← for_eachM (arg_literal o) mask;
  _ ← add o;
  id_of o.

Definition extract (type_id composite index : Z) : CM Z :=
  o ← allocate_typed OpCompositeExtract type_id;
  _ ← arg_id o composite;
  _ ← arg_literal o index;
  _ ← add o;
  id_of o.

Definition counted (f : Z -> list Z) (count : Z) : list Z := flat_map f (Z.of_nat <$> seq 0 (Z.to_nat count)).

(** Negative numbers are complemented, so that the search is for a set bit. *)
Definition fold_sign (bitcast_id uint_type uvec_type result_type num_elements : Z) (is_vector : bool) : CM Z :=
  if is_vector then
    hi ← shuffle result_type bitcast_id (counted (fun i => [2 * i + 1]) num_elements);
    int_type ← on_spv (makeIntType 32);
    t ← on_spv (makeVectorType int_type num_elements);
    shifted ← allocate_typed OpShiftRightArithmetic t;
    _ ← arg_id shifted hi;
    c ← on_spv (makeSignedConstant 31);
    c ← build_splat_constant_vector int_type c num_elements;
    shifted_id ← finish shifted [mret c];
    t ← on_spv (makeVectorType int_type (2 * num_elements));
    dup ← shuffle t shifted_id (counted (fun i => [i; i]) num_elements);
    emit_typed OpBitwiseXor uvec_type [bitcast_id; dup]
  else
    ext ← extract uint_type bitcast_id 1;
    int_type ← on_spv (makeIntType 32);
    shifted ← allocate_typed OpShiftRightArithmetic int_type;
    shifted_id ← finish shifted [mret ext; on_spv (makeSignedConstant 31)];
    xored ← allocate_typed OpBitwiseXor uvec_type;
    finish xored [mret bitcast_id; build_vector int_type [shifted_id; shifted_id]].

(** The scan of a 64-bit value from the scans of its halves. *)
Definition emit_bitscan64 (opcode : Z) (instruction : option vref) (v : vref) (is_vector : bool) (num_elements : Z)
    : CM Z :=
  ext ← glsl_ext;
  uint_type ← on_spv (makeUintType 32);
  uvec_type ← on_spv (makeVectorType uint_type (2 * num_elements));
  bitcast ← allocate_typed OpBitcast uvec_type;
  bitcast_id ← finish bitcast [get_id_for_value v];
  result_type ← (if is_vector then on_spv (makeVectorType uint_type num_elements) else mret uint_type);
  let signed_scan := opcode =? GLSLstd450FindSMsb in
  bitcast_id ← (if signed_scan then fold_sign bitcast_id uint_type uvec_type result_type num_elements is_vector
                else mret bitcast_id);
  let opcode := if signed_scan then GLSLstd450FindUMsb else opcode in
  ilsb ← allocate_typed OpExtInst uvec_type;
  _ ← arg_id ilsb ext;
  _ ← arg_literal ilsb opcode;
  ilsb_id ← finish ilsb [mret bitcast_id];
  x ← (if is_vector then
         lo ← allocate_typed OpVectorShuffle result_type;
         hi ← allocate_typed OpVectorShuffle result_type;
         _ ← arg_id lo ilsb_id;
         _ ← arg_id lo ilsb_id;
         _ ← arg_id hi ilsb_id;
         _ ← arg_id hi ilsb_id;
         _ ← for_eachM (fun i => _ ← arg_literal lo (2 * i); arg_literal hi (2 * i + 1))
               (counted (fun i => [i]) num_elements);
         _ ← add lo;
         _ ← add hi;
         lo_id ← id_of lo;
         hi_id ← id_of hi;
         mret (lo_id, hi_id)
       else
         lo_id ← extract uint_type ilsb_id 0;
         hi_id ← extract uint_type ilsb_id 1;
         mret (lo_id, hi_id));
  let '(lo_id, hi_id) := (x : Z * Z) in
  or32 ← allocate_typed OpBitwiseOr result_type;
  _ ← arg_id or32 hi_id;
  const32 ← on_spv (makeUintConstant 32);
  hi_id ← finish or32 [splat_if is_vector uint_type const32 num_elements];
  o ← allocate_for OpExtInst instruction result_type;
  _ ← arg_id o ext;
  _ ← arg_literal o (if opcode =? GLSLstd450FindILsb then GLSLstd450UMin else GLSLstd450SMax);
  finish o [mret lo_id; mret hi_id].

(** A 16-bit value is extended to 32 bits. *)
Definition emit_bitscan16 (opcode : Z) (instruction : option vref) (v : vref) (is_vector : bool) (num_elements : Z)
    : CM Z :=
  ext ← glsl_ext;
  u ← on_spv (makeUintType 32);
  result_type ← (if is_vector then on_spv (makeVectorType u num_elements) else mret u);
  extend ← allocate_typed (if opcode =? GLSLstd450FindSMsb then OpSConvert else OpUConvert) result_type;
  extend_id ← finish extend [get_id_for_value v];
  o ← allocate_for OpExtInst instruction result_type;
  _ ← arg_id o ext;
  _ ← arg_literal o opcode;
  finish o [mret extend_id].

Definition emit_bitscan32 (opcode : Z) (instruction : option vref) (v : vref) (is_vector : bool) (num_elements : Z)
    : CM Z :=
  ext ← glsl_ext;
  o ← match instruction with
      | Some r => allocate_value OpExtInst r
      | None =>
          u ← on_spv (makeUintType 32);
          t ← (if is_vector then on_spv (makeVectorType u num_elements) else mret u);
          allocate_typed OpExtInst t
      end;
  _ ← arg_id o ext;
  _ ← arg_literal o opcode;
  finish o [get_id_for_value v].

Definition emit_native_bitscan (opcode : Z) (instruction : option vref) (v : vref) : CM Z :=
  t ← type_of v;
  let vector := is_vector t in
  num_elements ← (if vector then lift (Type_getVectorNumElements t) else mret 1);
  st ← scalar_type_of v;
  w ← bit_width st;
  if w =? 16 then emit_bitscan16 opcode instruction v vector num_elements
  else if w =? 64 then emit_bitscan64 opcode instruction v vector num_elements
  else emit_bitscan32 opcode instruction v vector num_elements.

(** ** Comparisons and selections *)

Inductive ComparePlan :=
  | CompareOp (opcode : Z) (signed_input : bool)
  | CompareConstant (b : bool)
  | CompareNan (ordered : bool)
  | CompareUnknown.

Definition compare_plan (predicate : Z) (boolean : bool) : ComparePlan :=
  let op code := CompareOp code false in
  let signed code := CompareOp code true in
  if predicate =? FCMP_OEQ then op OpFOrdEqual
  else if predicate =? FCMP_UEQ then op OpFUnordEqual
  else if predicate =? FCMP_OGT then op OpFOrdGreaterThan
  else if predicate =? FCMP_UGT then op OpFUnordGreaterThan
  else if predicate =? FCMP_OGE then op OpFOrdGreaterThanEqual
  else if predicate =? FCMP_UGE then op OpFUnordGreaterThanEqual
  else if predicate =? FCMP_OLT then op OpFOrdLessThan
  else if predicate =? FCMP_ULT then op OpFUnordLessThan
  else if predicate =? FCMP_OLE then op OpFOrdLessThanEqual
  else if predicate =? FCMP_ULE then op OpFUnordLessThanEqual
  else if predicate =? FCMP_ONE then op OpFOrdNotEqual
  else if predicate =? FCMP_UNE then op OpFUnordNotEqual
  else if predicate =? FCMP_FALSE then CompareConstant false
  else if predicate =? FCMP_TRUE then CompareConstant true
  else if predicate =? ICMP_EQ then op (if boolean then OpLogicalEqual else OpIEqual)
  else if predicate =? ICMP_NE then op (if boolean then OpLogicalNotEqual else OpINotEqual)
  else if predicate =? ICMP_SLT then signed OpSLessThan
  else if predicate =? ICMP_SLE then signed OpSLessThanEqual
  else if predicate =? ICMP_SGT then signed OpSGreaterThan
  else if predicate =? ICMP_SGE then signed OpSGreaterThanEqual
  else if predicate =? ICMP_ULT then op OpULessThan
  else if predicate =? ICMP_ULE then op OpULessThanEqual
  else if predicate =? ICMP_UGT then op OpUGreaterThan
  else if predicate =? ICMP_UGE then op OpUGreaterThanEqual
  else if predicate =? FCMP_UNO then CompareNan false
  else if predicate =? FCMP_ORD then CompareNan true
  else CompareUnknown.

(** One operand is not a number. *)
Definition emit_is_nan (r : vref) (i : Z) : CM Z :=
  b ← on_spv makeBoolType;
  o ← allocate_typed OpIsNan b;
  finish o [operand_id r i].

Definition emit_compare_nan (r : vref) (ordered : bool) : CM unit :=
  first_id ← emit_is_nan r 0;
  second_id ← emit_is_nan r 1;
  if ordered then
    b ← on_spv makeBoolType;
    unordered_op ← allocate_typed OpLogicalOr b;
    _ ← arg_ids unordered_op [first_id; second_id];
    _ ← add unordered_op;
    unordered_id ← id_of unordered_op;
    o ← allocate_value OpLogicalNot r;
    _ ← finish o [mret unordered_id]; mret tt
  else
    o ← allocate_value OpLogicalOr r;
    _ ← arg_ids o [first_id; second_id];
    add o.

Definition emit_compare_instruction (r : vref) : CM bool :=
  p ← getPredicate r;
  predicate ← derefM p;
  boolean ← (if (predicate =? ICMP_EQ) || (predicate =? ICMP_NE)
             then x ← get_operand r 0; t ← scalar_type_of x; w ← bit_width t; mret (w =? 1)
             else mret false);
  match compare_plan predicate boolean with
  | CompareConstant b => c ← on_spv (makeBoolConstant b); _ ← rewrite_value r c; mret true
  | CompareNan ordered => _ ← emit_compare_nan r ordered; mret true
  | CompareUnknown => mret false
  | CompareOp opcode signed_input =>
      o ← allocate_value opcode r;
      a ← get_operand r 0;
      id0 ← build_naturally_extended_value get_id_for_value a signed_input;
      b ← get_operand r 1;
      id1 ← build_naturally_extended_value get_id_for_value b signed_input;
      _ ← arg_ids o [id0; id1];
      _ ← add o;
      mret true
  end.

(** The call that counts leading zeros in [clz(x) == -1 ? -1 : bits - 1 - clz(x)]. *)
Definition clz_of_select (r : vref) : CM (option vref) :=
  cond ← get_operand r 0;
  true_value ← get_operand r 1;
  false_value ← get_operand r 2;
  p ← getPredicate cond;
  if negb (bool_decide (p = Some ICMP_EQ)) then mret None
  else
    clz ← get_operand cond 0;
    scan ← value_is_dx_op_instrinsic clz DXIL_FirstbitHi <||> value_is_dx_op_instrinsic clz DXIL_FirstbitSHi;
    const_val ← get_constant_operand cond 1;
    if negb (scan : bool) || negb (bool_decide (const_val = Some 0xffffffff)) then mret None
    else
      c ← is_kind KConstantInt true_value;
      if negb (c : bool) then mret None
      else
        a ← on_llvm (Constant_getUniqueInteger true_value);
        v ← on_llvm (APInt_getSExtValue a);
        if negb (v =? -1) then mret None
        else
          d ← data_of false_value;
          match d with
          | BinaryOperator Sub _ =>
              b ← get_operand false_value 1;
              if negb (bool_decide (b = clz)) then mret None
              else
                const_val ← get_constant_operand false_value 0;
                match const_val with
                | None => mret None
                | Some k =>
                    x ← get_operand clz 1;
                    t ← type_of x;
                    w ← bit_width t;
                    mret (if k =? u32 (w - 1) then Some clz else None)
                end
          | _ => mret None
          end.

Definition emit_peephole_findmsb (r : vref) : CM bool :=
  clz ← clz_of_select r;
  match clz with
  | None => mret false
  | Some clz =>
      u ← value_is_dx_op_instrinsic clz DXIL_FirstbitHi;
      x ← get_operand clz 1;
      _ ← emit_native_bitscan (if (u : bool) then GLSLstd450FindUMsb else GLSLstd450FindSMsb) (Some r) x;
      mret true
  end.

Definition emit_select_instruction (r : vref) : CM bool :=
  done ← emit_peephole_findmsb r;
  if (done : bool) then mret true
  else
    o ← allocate_value OpSelect r;
    id ← finish o [operand_id r 0; operand_id r 1; operand_id r 2];
    t ← type_ref_of r;
    _ ← decorate_relaxed_precision t id false;
    mret true.

(** ** Composites *)

Definition emit_extract_value_instruction (r : vref) : CM bool :=
  d ← data_of r;
  match d with
  | ExtractValueInst indices =>
      a ← on_llvm (ExtractValueInst_getAggregateOperand r);
      aggregate ← derefM a;
      meta ← gets (fun s => llvm_composite_meta s !! aggregate);
      if match meta with Some m => (components m =? 1) && negb (forced_composite m) | None => false end then
        rewrite_id ← get_id_for_value aggregate;
        _ ← rewrite_value r rewrite_id;
        mret true
      else
        o ← allocate_value OpCompositeExtract r;
        id ← get_id_for_value aggregate;
        _ ← arg_id o id;
        _ ← for_eachM (arg_literal o) indices;
        _ ← add o;
        t ← type_ref_of r;
        id ← id_of o;
        _ ← decorate_relaxed_precision t id false;
        mret true
  | _ => ubM
  end.

Definition emit_shufflevector_instruction (r : vref) : CM bool :=
  o ← allocate_value OpVectorShuffle r;
  a ← operand_id r 0;
  _ ← arg_id o a;
  b ← operand_id r 1;
  _ ← arg_id o b;
  t ← type_of r;
  num_outputs ← lift (Type_getVectorNumElements t);
  _ ← modify_op o (fun x => reserve_arguments fresh_words x (2 + num_outputs));
  _ ← for_eachM (fun i => m ← on_llvm (ShuffleVectorInst_getMaskValue r i); arg_literal o (u32 m))
        (counted (fun i => [i]) num_outputs);
  _ ← add o;
  mret true.

Definition emit_extractelement_instruction (r : vref) : CM bool :=
  d ← data_of r;
  match d with
  | ExtractElementInst _ _ =>
      index ← get_operand r 1;
      c ← constant_int index;
      o ← allocate_value (match c with Some _ => OpCompositeExtract | None => OpVectorExtractDynamic end) r;
      v ← operand_id r 0;
      _ ← arg_id o v;
      _ ← match c with
          | Some k => arg_literal o (u32 k)
          | None => i ← get_id_for_value index; arg_id o i
          end;
      _ ← add o;
      id ← id_of o;
      t ← type_ref_of r;
      _ ← decorate_relaxed_precision t id false;
      mret true
  | _ => ubM
  end.

Definition emit_insertelement_instruction (r : vref) : CM bool :=
  index ← get_operand r 2;
  c ← constant_int index;
  match c with
  | None => mret false
  | Some k =>
      o ← allocate_value OpCompositeInsert r;
      x ← operand_id r 1;
      _ ← arg_id o x;
      v ← operand_id r 0;
      _ ← arg_id o v;
      _ ← arg_literal o (u32 k);
      _ ← add o;
      mret true
  end.

Definition operand_count (r : vref) : CM Z := on_llvm (Instruction_getNumOperands r).

Definition emit_composite_construct_instruction (r : vref) : CM bool :=
  o ← allocate_value OpCompositeConstruct r;
  n ← operand_count r;
  _ ← modify_op o (fun x => reserve_arguments fresh_words x n);
  _ ← finish o (operand_id r <$> counted (fun i => [i]) n);
  mret true.

Definition emit_call_instruction (r : vref) : CM bool :=
  d ← data_of r;
  match d with
  | CallInst callee =>
      call ← allocate_value OpFunctionCall r;
      n ← operand_count r;
      _ ← finish call (get_id_for_value callee :: (operand_id r <$> counted (fun i => [i]) n));
      mret true
  | _ => ubM
  end.

(** ** Atomics *)

Definition pointer_address_space (ptr : vref) : CM Z := t ← type_of ptr; lift (Type_getPointerAddressSpace t).

Definition needs_group_shared_auto_barrier (ptr : vref) : CM bool :=
  n ← gets (fun s => needs_auto_group_shared_barriers (shader_analysis s));
  if (n : bool) then a ← pointer_address_space ptr; mret (a =? AddressSpace_GroupShared) else mret false.

Definition mark_group_shared (o : opref) (ptr : vref) : CM unit :=
  n ← needs_group_shared_auto_barrier ptr;
  if (n : bool) then add_flags o AutoGroupSharedBarrier else mret tt.

Definition emit_cmpxchg_instruction (r : vref) : CM bool :=
  d ← data_of r;
  match d with
  | AtomicCmpXchgInst ptr new_value cmp_value =>
      t ← type_ref_of r;
      x ← type_object t;
      let struct := bool_decide (Type_getTypeID x = StructTyID) in
      bits ← (if struct then e ← get_composite_element_type t; y ← type_object e; bit_width y else bit_width x);
      _ ← (if bits =? 64 then on_spv (addCapability CapabilityInt64Atomics) else mret tt);
      u ← on_spv (makeUintType bits);
      atomic_op ← allocate_typed OpAtomicCompareExchange u;
      p ← on_llvm (resolve_proxy ptr);
      pointer ← derefM p;
      _ ← mark_group_shared atomic_op pointer;
      n ← on_llvm (resolve_proxy new_value);
      new ← derefM n;
      c ← on_llvm (resolve_proxy cmp_value);
      compare ← derefM c;
      atomic_id ← finish atomic_op
        [get_id_for_value pointer; on_spv (makeUintConstant ScopeWorkgroup); on_spv (makeUintConstant 0);
         on_spv (makeUintConstant 0); get_id_for_value new; get_id_for_value compare];
      if struct then
        b ← on_spv makeBoolType;
        cmp_op ← allocate_typed OpIEqual b;
        compare_id ← get_id_for_value compare;
        _ ← arg_ids cmp_op [atomic_id; compare_id];
        _ ← add cmp_op;
        cmp_id ← id_of cmp_op;
        u ← on_spv (makeUintType bits);
        b ← on_spv makeBoolType;
        cmpxchg_type ← get_struct_type [u; b] 0 "CmpXchgResult";
        o ← allocate_value_typed OpCompositeConstruct r cmpxchg_type;
        _ ← arg_ids o [atomic_id; cmp_id];
        _ ← add o;
        mret true
      else _ ← rewrite_value r atomic_id; mret true
  | _ => ubM
  end.

Definition atomic_opcode (op : RMWBinOp) : option Z :=
  match op with
  | RMWAdd => Some OpAtomicIAdd
  | RMWSub => Some OpAtomicISub
  | RMWAnd => Some OpAtomicAnd
  | RMWOr => Some OpAtomicOr
  | RMWXor => Some OpAtomicXor
  | RMWUMax => Some OpAtomicUMax
  | RMWUMin => Some OpAtomicUMin
  | RMWMax => Some OpAtomicSMax
  | RMWMin => Some OpAtomicSMin
  | RMWXchg => Some OpAtomicExchange
  | _ => None
  end.

Definition emit_atomicrmw_instruction (r : vref) : CM bool :=
  d ← data_of r;
  match d with
  | AtomicRMWInst ptr val op =>
      match atomic_opcode op with
      | None => mret false
      | Some opcode =>
          t ← type_of r;
          bits ← bit_width t;
          _ ← (if bits =? 64 then on_spv (addCapability CapabilityInt64Atomics) else mret tt);
          o ← allocate_value opcode r;
          p ← on_llvm (resolve_proxy ptr);
          pointer ← derefM p;
          _ ← mark_group_shared o pointer;
          x ← on_llvm (resolve_proxy val);
          val ← derefM x;
          _ ← finish o [get_id_for_value pointer; on_spv (makeUintConstant ScopeWorkgroup);
                        on_spv (makeUintConstant 0); get_id_for_value val];
          mret true
      end
  | _ => ubM
  end.

(** ** Dispatch *)

(** The translation of the instructions on memory. *)
Class MemoryEmitter := {
  emit_getelementptr_instruction : vref -> CM bool;
  emit_load_instruction : vref -> CM bool;
  emit_store_instruction : vref -> CM bool;
  emit_alloca_instruction : vref -> CM bool;
}.

Definition emit_llvm_instruction `{MemoryEmitter} (r : vref) : CM bool :=
  d ← data_of r;
  match d with
  | BinaryOperator _ _ => emit_binary_instruction get_id_for_value r
  | UnaryOperator _ => emit_unary_instruction get_id_for_value r
  | CastInst _ => emit_cast_instruction get_id_for_value r
  | GetElementPtrInst _ => emit_getelementptr_instruction r
  | LoadInst => emit_load_instruction r
  | StoreInst => emit_store_instruction r
  | FCmpInst _ | ICmpInst _ => emit_compare_instruction r
  | ExtractValueInst _ => emit_extract_value_instruction r
  | AllocaInst _ => emit_alloca_instruction r
  | SelectInst => emit_select_instruction r
  | AtomicRMWInst _ _ _ => emit_atomicrmw_instruction r
  | AtomicCmpXchgInst _ _ _ => emit_cmpxchg_instruction r
  | ShuffleVectorInst _ => emit_shufflevector_instruction r
  | ExtractElementInst _ _ => emit_extractelement_instruction r
  | InsertElementInst => emit_insertelement_instruction r
  | CompositeConstructInst => emit_composite_construct_instruction r
  | _ => mret false
  end.
End instructions.

(** * Analysis *)

(** A branch on [constant / lanes > constant] that goes the same way for each number of lanes
    that the implementation may have. *)
Definition can_optimize_conditional_branch_to_static (r : vref) : CM (option bool) :=
  p ← getPredicate r;
  if negb (bool_decide (p = Some ICMP_UGT)) then mret None
  else
    y ← get_operand r 1;
    rhs ← constant_int y;
    lhs ← get_operand r 0;
    d ← data_of lhs;
    match rhs, d with
    | Some rhs_value, BinaryOperator UDiv _ =>
        x ← get_operand lhs 0;
        num ← constant_int x;
        z ← get_operand lhs 1;
        lanes ← value_is_dx_op_instrinsic z DXIL_WaveGetLaneCount;
        o ← gets options;
        match num with
        | Some num =>
            if negb (lanes : bool) then mret None
            else
              _ ← assertM (negb (implementation_minimum o =? 0) && negb (implementation_maximum o =? 0));
              let upper_bound := num / implementation_minimum o in
              let lower_bound := num / implementation_maximum o in
              mret (if rhs_value <? lower_bound then Some true
                    else if upper_bound <=? rhs_value then Some false
                    else None)
        | None => mret None
        end
    | _, _ => mret None
    end.

Definition set_group_shared_access (s : ConverterImpl) : ConverterImpl :=
  let a := shader_analysis s in
  set_shader_analysis (mkShaderAnalysis (global_undefs a) (has_group_shared_barrier a) true
    (needs_auto_group_shared_barriers a) (precise_f16_to_f32_observed a) (subgroup_ballot_reads_first a)
    (subgroup_ballot_reads_upper a)) s.
Definition set_precise_f16 (s : ConverterImpl) : ConverterImpl :=
  let a := shader_analysis s in
  set_shader_analysis (mkShaderAnalysis (global_undefs a) (has_group_shared_barrier a)
    (has_group_shared_access a) (needs_auto_group_shared_barriers a) true (subgroup_ballot_reads_first a)
    (subgroup_ballot_reads_upper a)) s.
Definition set_ballot_reads (first upper : bool) (s : ConverterImpl) : ConverterImpl :=
  let a := shader_analysis s in
  set_shader_analysis (mkShaderAnalysis (global_undefs a) (has_group_shared_barrier a)
    (has_group_shared_access a) (needs_auto_group_shared_barriers a) (precise_f16_to_f32_observed a)
    (subgroup_ballot_reads_first a || first) (subgroup_ballot_reads_upper a || upper)) s.

(** The access to a pointer. *)
Definition analyze_pointer (ptr : option vref) : CM bool :=
  o ← on_llvm (resolve_proxy ptr);
  pointer ← derefM o;
  a ← pointer_address_space pointer;
  _ ← (if a =? AddressSpace_GroupShared then modify set_group_shared_access else mret tt);
  mret true.

Definition analyze_atomicrmw_instruction (r : vref) : CM bool :=
  d ← data_of r; match d with AtomicRMWInst ptr _ _ => analyze_pointer ptr | _ => ubM end.
Definition analyze_cmpxchg_instruction (r : vref) : CM bool :=
  d ← data_of r; match d with AtomicCmpXchgInst ptr _ _ => analyze_pointer ptr | _ => ubM end.

Definition analyze_cast_instruction (r : vref) : CM bool :=
  q ← value_cast_is_fp16_quantization r;
  _ ← match q with Some _ => modify set_precise_f16 | None => mret tt end;
  mret true.

(** [WaveReadLaneFirst(x) == x] takes helper lanes into account. *)
Definition analyze_compare_instruction (r : vref) : CM bool :=
  p ← getPredicate r;
  if negb (bool_decide (p = Some ICMP_EQ)) && negb (bool_decide (p = Some ICMP_NE)) then mret true
  else
    op0 ← get_operand r 0;
    op1 ← get_operand r 1;
    op0_is_read_first ← value_is_dx_op_instrinsic op0 DXIL_WaveReadLaneFirst;
    op1_is_read_first ← value_is_dx_op_instrinsic op1 DXIL_WaveReadLaneFirst;
    let '(op0, op1, first, second) :=
      if (op1_is_read_first : bool) then (op1, op0, op1_is_read_first, op0_is_read_first)
      else (op0, op1, op0_is_read_first, op1_is_read_first) in
    if (first : bool) && negb second then
      x ← get_operand op0 1;
      _ ← (if bool_decide (x = op1)
           then modify (fun s => set_wave_op_forced_helper_lanes ({[op0]} ∪ wave_op_forced_helper_lanes s) s)
           else mret tt);
      mret true
    else mret true.

(** The components of a composite that are read, with those of the phis it comes from.  A phi is
    walked through only when its mask grows, so each phi is entered at most once for a component. *)
Fixpoint composite_walk (fuel : nat) (aggregate : vref) (index : Z) : CM unit :=
  match fuel with
  | O => ubM
  | S fuel' =>
      _ ← assertM (index <? 32);
      meta ← gets (fun s => default CompositeMeta_new (llvm_composite_meta s !! aggregate));
      d ← data_of aggregate;
      t ← type_ref_of aggregate;
      fake ← gets (fun s => bool_decide (t ∈ llvm_dxil_op_fake_struct_types s));
      let incoming := match d with LLVMValue.PHINode l => Some l | _ => None end in
      let splat_composite_access := bool_decide (is_Some incoming) && (index <? 4) && fake in
      let '(meta, forward_progress) :=
        if splat_composite_access then
          if negb (Z.land (access_mask meta) 0xf =? 0xf)
          then (mkCompositeMeta (Z.lor (access_mask meta) 0xf) (Z.max 4 (components meta)) (forced_composite meta), true)
          else (meta, false)
        else if Z.land (access_mask meta) (Z.shiftl 1 index) =? 0
        then (mkCompositeMeta (Z.lor (access_mask meta) (Z.shiftl 1 index)) (Z.max (index + 1) (components meta))
                (forced_composite meta), true)
        else (meta, false) in
      _ ← modify (fun s => set_llvm_composite_meta (<[aggregate := meta]> (llvm_composite_meta s)) s);
      ballot ← instruction_is_ballot aggregate;
      if (ballot : bool) then modify (set_ballot_reads (index =? 0) (negb (index =? 0)))
      else
        match incoming with
        | Some l =>
            if (forward_progress : bool) then
              for_eachM (fun i =>
                  o ← on_llvm (PHINode_getIncomingValue aggregate (Z.of_nat i));
                  x ← derefM o;
                  if splat_composite_access then for_eachM (fun c => composite_walk fuel' x (Z.of_nat c)) (seq 0 4)
                  else composite_walk fuel' x index)
                (seq 0 (length l))
            else mret tt
        | None => mret tt
        end
  end.

Definition analyze_extractvalue_instruction (r : vref) : CM bool :=
  d ← data_of r;
  match d with
  | ExtractValueInst indices =>
      a ← on_llvm (ExtractValueInst_getAggregateOperand r);
      aggregate ← derefM a;
      t ← type_of aggregate;
      n ← gets (fun s => length (v_values (llvm s)));
      _ ← match indices with
          | [index] => if type_is_composite_return_value t then composite_walk (33 * S n) aggregate index else mret tt
          | _ => mret tt
          end;
      mret true
  | _ => ubM
  end.
