(* ===== verification/Arithmetic.v ===== *)
(** The arithmetic intrinsics of DXIL (opcodes/dxil/dxil_arithmetic.cpp) and the functions that
    convert halves with their denormals (build_legacy_denorm_f16_conv of spirv_module.cpp).

    The operands of a call are the arguments of the intrinsic: operand 0 is the opcode.  The
    constants that the code multiplies while it compares bounds are doubles of the Standard
    Library's specification of floats. *)
From Stdlib Require Import SpecFloat.
From S2P Require Import Prelude.
From S2P Require Import LLVMType.
From S2P Require Import LLVMValue.
From S2P Require Import ModuleContext.
From S2P Require Import IR.
From S2P Require Import SpvBuilder.
From S2P Require Import Instrumentation.
From S2P Require Import SPIRVModule.
From S2P Require Import Converter.
From S2P Require Import LLVMBuiltins.
From S2P Require Import Instructions.
Local Open Scope Z_scope.
Local Open Scope dxil_scope.

(** * Numbers *)

Definition OpDot : Z := 148.
Definition OpUMulExtended : Z := 151.
Definition OpSMulExtended : Z := 152.
Definition OpBitFieldInsert : Z := 201.
Definition OpBitReverse : Z := 204.
Definition OpBitCount : Z := 205.
Definition OpSDotKHR : Z := 4450.
Definition OpUDotKHR : Z := 4451.
Definition OpFDot2MixAcc32VALVE : Z := 6916.
Definition CapabilityDotProductInput4x8BitPackedKHR : Z := 6018.
Definition CapabilityDotProductKHR : Z := 6019.
Definition CapabilityDotProductFloat16AccFloat32VALVE : Z := 6912.
Definition PackedVectorFormat4x8BitKHR : Z := 0.
Definition GLSLstd450FAbs : Z := 4.
Definition GLSLstd450SAbs : Z := 5.
Definition GLSLstd450Exp2 : Z := 29.
Definition GLSLstd450Log2 : Z := 30.
Definition GLSLstd450Sqrt : Z := 31.
Definition GLSLstd450FMax : Z := 40.
Definition GLSLstd450SClamp : Z := 45.
Definition GLSLstd450Fma : Z := 50.
Definition GLSLstd450PackDouble2x32 : Z := 59.
Definition GLSLstd450UnpackDouble2x32 : Z := 64.
Definition GLSLstd450NClamp : Z := 81.
Definition DXIL_Exp : Z := 21.
Definition DXIL_Log : Z := 23.
Definition DXIL_Rsqrt : Z := 25.

(** Floats by their bits. *)
Definition float_infinity : Z := 0x7f800000.
Definition float_min_normal : Z := 0x00800000.
Definition double_infinity : Z := 0x7ff0000000000000.
Definition double_min_normal : Z := 0x0010000000000000.
Definition float_2_24 : Z := 0x4b800000.
Definition float_2_m24 : Z := 0x33800000.
Definition float_2_m14 : Z := 0x38800000.
Definition double_int32_min : Z := 0xc1e0000000000000.
Definition double_int32_max : Z := 0x41dfffffffc00000.
Definition double_uint32_max : Z := 0x41efffffffe00000.

(** * The functions that keep denormals *)

(** An instruction at the build point; its operands are made one after another. *)
Definition build_instruction (type_id op : Z) (operands : list (BM Z)) : BM Z :=
  h ← add_op type_id op;
  _ ← for_eachM (fun m : BM Z => x ← m; add_operand h x) operands;
  result_of h.
Definition float_type : BM Z := makeFloatType 32 (-1).
Definition float2_type : BM Z := f ← float_type; makeVectorType f 2.
Definition uint_type : BM Z := makeUintType 32.

(** The packed half with the mantissa of a float that is denormal as a half. *)
Definition denorm_pack (std450 input_id : Z) : BM Z :=
  t ← float2_type;
  composite ← build_instruction t OpCompositeConstruct [mret input_id; makeFloatConstant 0];
  t ← uint_type;
  hw_result ← build_instruction t OpExtInst [mret std450; mret GLSLstd450PackHalf2x16; mret composite];
  t ← float_type;
  abs ← build_instruction t OpExtInst [mret std450; mret GLSLstd450FAbs; mret input_id];
  t ← float_type;
  scale ← build_instruction t OpFMul [mret abs; makeFloatConstant float_2_24];
  t ← uint_type;
  trunc ← build_instruction t OpConvertFToU [mret scale];
  t ← makeBoolType;
  is_sub_normal ← build_instruction t OpFOrdLessThan [mret abs; makeFloatConstant float_2_m14];
  t ← uint_type;
  select_result ← build_instruction t OpSelect [mret is_sub_normal; mret trunc; makeUintConstant 0];
  t ← uint_type;
  build_instruction t OpBitwiseOr [mret hw_result; mret select_result].

Definition denorm_unpack (std450 input_id : Z) : BM Z :=
  t ← float2_type;
  hw_result ← build_instruction t OpExtInst [mret std450; mret GLSLstd450UnpackHalf2x16; mret input_id];
  t ← float_type;
  ext_hw ← build_instruction t OpCompositeExtract [mret hw_result; mret 0];
  t ← uint_type;
  positive_mask ← build_instruction t OpBitwiseAnd [mret input_id; makeUintConstant 0x7fff];
  t ← float_type;
  mantissa_conv ← build_instruction t OpConvertUToF [mret positive_mask];
  t ← float_type;
  mantissa_scale ← build_instruction t OpFMul [mret mantissa_conv; makeFloatConstant float_2_m24];
  t ← makeBoolType;
  is_sub_normal ← build_instruction t OpULessThan [mret positive_mask; makeUintConstant 0x400];
  t ← float_type;
  select_result ← build_instruction t OpSelect [mret is_sub_normal; mret mantissa_scale; makeFloatConstant 0];
  t ← uint_type;
  bitu32 ← build_instruction t OpBitcast [mret select_result];
  t ← uint_type;
  hwu32 ← build_instruction t OpBitcast [mret ext_hw];
  t ← uint_type;
  or32 ← build_instruction t OpBitwiseOr [mret hwu32; mret bitu32];
  t ← float_type;
  build_instruction t OpBitcast [mret or32].

Fixpoint denorm_components (pack : bool) (std450 out_type_id scalar_input_type param vecsize : Z) (count : nat)
    (c result_id : Z) : BM Z :=
  match count with
  | O => mret result_id
  | S count' =>
      input_id ← (if 1 <? vecsize
                  then build_instruction scalar_input_type OpCompositeExtract [mret param; mret c] else mret param);
      output_id ← (if pack then denorm_pack std450 input_id else denorm_unpack std450 input_id);
      result_id ← (if vecsize =? 1 then mret output_id
                   else build_instruction out_type_id OpCompositeInsert [mret output_id; mret result_id; mret c]);
      denorm_components pack std450 out_type_id scalar_input_type param vecsize count' (c + 1) result_id
  end.

Definition build_denorm_function (type_id op : Z) : BM Z :=
  let pack := op =? GLSLstd450PackHalf2x16 in
  current_build_point ← gets buildPoint;
  cls ← (fun b => c ← getTypeClass b type_id; Ok (c, b));
  vecsize ← (if cls =? OpTypeVector then (fun b => n ← getNumTypeConstituents b type_id; Ok (n, b)) else mret 1);
  out_type_id ← (if pack then uint_type else float_type);
  out_type_id ← (if 1 <? vecsize then makeVectorType out_type_id vecsize else mret out_type_id);
  x ← makeFunctionEntry out_type_id (Some (if pack then "DenormPreserveF32toF16" else "DenormPreserveF16toF32"))
        [type_id];
  let '(func, entry) := (x : funcref * blockref) in
  std450 ← import "GLSL.std.450";
  _ ← setBuildPoint entry;
  scalar_input_type ← (if pack then float_type else uint_type);
  result_id ← (if 1 <? vecsize then createUndefinedConstant out_type_id else mret 0);
  param ← getParamId func 0;
  result_id ← denorm_components pack std450 out_type_id scalar_input_type param vecsize (Z.to_nat vecsize) 0 result_id;
  _ ← makeReturn false result_id;
  _ ← modify (set_buildPoint current_build_point);
  f ← function_at func;
  mret (resultId (functionInstruction f)).

Definition build_legacy_denorm_f16_conv (type_id op : Z) : CM Z :=
  calls ← gets denorm_conv_calls;
  match list_find (fun c : Z * Z * Z => c.1 = (type_id, op)) calls with
  | Some (_, c) => mret c.2
  | None =>
      id ← on_spv (build_denorm_function type_id op);
      _ ← modify (fun s => set_denorm_conv_calls (denorm_conv_calls s ++ [(type_id, op, id)]) s);
      mret id
  end.

(** * Constant bounds *)

Definition double_mul := SFmul 53 1024.

(** The double with these fields, and the float with 8 and 23 bits as a double. *)
Definition unpack_float (exponent_bits mantissa_bits bits : Z) : spec_float :=
  let sign := Z.testbit bits (exponent_bits + mantissa_bits) in
  let e := Z.land (Z.shiftr bits mantissa_bits) (2 ^ exponent_bits - 1) in
  let m := Z.land bits (2 ^ mantissa_bits - 1) in
  let emin := 3 - 2 ^ (exponent_bits - 1) - mantissa_bits - 1 in
  if e =? 2 ^ exponent_bits - 1 then if m =? 0 then S754_infinity sign else S754_nan
  else
    let m' := if e =? 0 then m else m + 2 ^ mantissa_bits in
    let e' := emin + Z.max e 1 - 1 in
    binary_normalize 53 1024 (if sign then - m' else m') e' sign.
Definition double_zero : spec_float := S754_zero false.
Definition double_one_value : spec_float := unpack_float 11 52 0x3ff0000000000000.

Definition convertToDouble (r : vref) : CM spec_float :=
  t ← type_of r;
  a ← on_llvm (Constant_getValueAPF r);
  let v := apfloat_value a in
  mret (match Type_getTypeID t with
        | FloatTyID => unpack_float 8 23 (u32 v)
        | DoubleTyID => unpack_float 11 52 v
        | _ => double_zero
        end).

Definition is_fmul (d : ValueData) : bool := match d with BinaryOperator FMul _ => true | _ => false end.

(** A value as a constant times another value, if there is one. *)
Fixpoint split_walk (fuel : nat) (r : vref) : CM (option vref * spec_float) :=
  match fuel with
  | O => ubM
  | S fuel' =>
      d ← data_of r;
      match d with
      | ConstantFP _ => c ← convertToDouble r; mret (None, c)
      | _ =>
          if negb (is_fmul d) then mret (Some r, double_one_value)
          else
            a ← get_operand r 0;
            split0 ← split_walk fuel' a;
            b ← get_operand r 1;
            split1 ← split_walk fuel' b;
            let '((v0, c0), (v1, c1)) := (split0 : option vref * spec_float, split1 : option vref * spec_float) in
            mret (match v0, v1 with
                  | Some _, Some _ => (Some r, double_one_value)
                  | Some _, None => (v0, double_mul c0 c1)
                  | None, Some _ => (v1, double_mul c0 c1)
                  | None, None => (None, double_mul c0 c1)
                  end)
      end
  end.
Definition split_constant_multipliers (r : vref) : CM (option vref * spec_float) :=
  n ← gets (fun s => length (v_values (llvm s))); split_walk (S n) r.

Definition value_is_length_squared (r : vref) : CM bool :=
  op ← dx_op_of r;
  let n := match op with
           | Some o => if o =? DXIL_Dot2 then 2 else if o =? DXIL_Dot3 then 3 else if o =? DXIL_Dot4 then 4 else 0
           | None => 0
           end in
  if n =? 0 then mret false
  else all_of (fun i => a ← get_operand r (1 + i); b ← get_operand r (i + 1 + n); mret (bool_decide (a = b)))
         (counted (fun i => [i]) n).

(** A null value is undefined behaviour in [value_is_dx_op_instrinsic]. *)
Definition is_canonically_normalizing_value (o : option vref) : CM bool :=
  r ← derefM o;
  value_is_dx_op_instrinsic r DXIL_Rsqrt <&&> (x ← get_operand r 1; value_is_length_squared x).

Fixpoint any_of {X} (f : X -> CM bool) (l : list X) : CM bool :=
  match l with [] => mret false | x :: l' => b ← f x; if (b : bool) then mret true else any_of f l' end.

(** A bound on a component of a normalised vector times constants. *)
Definition get_expression_upper_bound (r : vref) : CM (option spec_float) :=
  overall ← split_constant_multipliers r;
  match (overall : option vref * spec_float).1 with
  | None => mret (Some overall.2)
  | Some v =>
      d ← data_of v;
      if negb (is_fmul d) then mret None
      else
        op0 ← get_operand v 0;
        op1 ← get_operand v 1;
        split0 ← split_constant_multipliers op0;
        split1 ← split_constant_multipliers op1;
        let '((v0, c0), (v1, c1)) := (split0 : option vref * spec_float, split1 : option vref * spec_float) in
        if SFltb c0 double_zero || SFltb c1 double_zero then mret None
        else
          let op0 := default op0 v0 in
          let op1 := default op1 v1 in
          is_normalizing0 ← is_canonically_normalizing_value v0;
          is_normalizing1 ← is_canonically_normalizing_value v1;
          if (is_normalizing0 : bool) || is_normalizing1 then
            let mul_value := if is_normalizing0 then op1 else op0 in
            dot ← get_operand (if is_normalizing0 then op0 else op1) 1;
            n ← operand_count dot;
            found ← any_of (fun i => x ← get_operand dot i; mret (bool_decide (x = mul_value)))
                      (counted (fun i => [i + 1]) (n - 1));
            mret (if (found : bool) then Some (double_mul (double_mul overall.2 c0) c1) else None)
          else mret None
  end.

(** * The intrinsics *)

Section intrinsics.
Context `{FreshMemory}.

Local Abbreviation allocate_value := (allocate_value get_id_for_value) (only parsing).
Local Abbreviation allocate_value_typed := (allocate_value_typed get_id_for_value) (only parsing).
Local Abbreviation operand_id := (operand_id get_id_for_value) (only parsing).

Definition allocate_like (code : Z) (r : vref) : CM opref := t ← value_type_id r; allocate_typed code t.
Definition is_precise (r : vref) : CM bool :=
  p ← on_llvm (Instruction_hasMetadata r dx_precise);
  f ← gets (fun s => force_precise (options s));
  mret (p || f).
Definition relax (r : vref) (id : Z) : CM unit := t ← type_ref_of r; decorate_relaxed_precision t id false.
Definition u32_type : CM Z := on_spv (makeUintType 32).
Definition u32_const (v : Z) : CM Z := on_spv (makeUintConstant v).

(** An extended instruction with these arguments. *)
Definition finish_ext (o : opref) (opcode : Z) (args : list (CM Z)) : CM Z :=
  ext ← glsl_ext;
  _ ← arg_id o ext;
  _ ← arg_literal o opcode;
  finish o args.

Definition emit_imad_instruction (r : vref) : CM bool :=
  mul ← allocate_like OpIMul r;
  mul_id ← finish mul [operand_id r 1; operand_id r 2];
  add ← allocate_value OpIAdd r;
  _ ← finish add [mret mul_id; operand_id r 3];
  mret true.

Definition emit_fmad_instruction (r : vref) : CM bool :=
  precise ← is_precise r;
  fma ← gets (fun s => precise_fma (options s));
  result_id ← (if negb fma && precise then
      mul_op ← allocate_like OpFMul r;
      mul_id ← finish mul_op [operand_id r 1; operand_id r 2];
      _ ← add_nocontract_decoration mul_id;
      _ ← relax r mul_id;
      add_op ← allocate_value OpFAdd r;
      add_id ← finish add_op [mret mul_id; operand_id r 3];
      _ ← add_nocontract_decoration add_id;
      mret add_id
    else
      _ ← glsl_ext;
      o ← allocate_value OpExtInst r;
      id ← finish_ext o GLSLstd450Fma [operand_id r 1; operand_id r 2; operand_id r 3];
      _ ← (if (precise : bool) then add_nocontract_decoration id else mret tt);
      mret id);
  _ ← relax r result_id;
  mret true.

(** The type of conditions on [r], and the number of its components. *)
Definition bool_type_like (r : vref) : CM (Z * Z) :=
  b ← on_spv makeBoolType;
  t ← type_of r;
  match t with
  | VectorType n _ => v ← on_spv (makeVectorType b n); mret (v, n)
  | _ => mret (b, 1)
  end.

Definition float_limits (t : Type_) (native : bool) (half float double : Z) : option (BM Z) :=
  match Type_getTypeID t with
  | HalfTyID => Some (if native then makeFloat16Constant half else makeFloatConstant float)
  | FloatTyID => Some (makeFloatConstant float)
  | DoubleTyID => Some (makeDoubleConstant double)
  | _ => None
  end.

Definition emit_isnormal_instruction (r : vref) : CM bool :=
  b ← bool_type_like r;
  let '(bool_type, vecsize) := (b : Z * Z) in
  _ ← glsl_ext;
  x ← get_operand r 1;
  abs_op ← allocate_like OpExtInst x;
  abs_id ← finish_ext abs_op GLSLstd450FAbs [get_id_for_value x];
  t ← type_ref_of x;
  st ← scalar_type_ref t;
  scalar_type_id ← get_type_id st;
  t ← type_object st;
  native ← native_fp16;
  match float_limits t native 0x400 float_min_normal double_min_normal,
        float_limits t native 0x7c00 float_infinity double_infinity with
  | Some smallest, Some infinity =>
      c ← on_spv smallest;
      smallest_normal ← build_splat_constant_vector scalar_type_id c vecsize;
      c ← on_spv infinity;
      pos_inf ← build_splat_constant_vector scalar_type_id c vecsize;
      geq ← emit_typed OpFOrdGreaterThanEqual bool_type [abs_id; smallest_normal];
      less ← emit_typed OpFOrdLessThan bool_type [abs_id; pos_inf];
      is_normal ← allocate_value OpLogicalAnd r;
      _ ← finish is_normal [mret geq; mret less];
      mret true
  | _, _ => mret false
  end.

Definition emit_isfinite_instruction (r : vref) : CM bool :=
  b ← bool_type_like r;
  nan_op ← allocate_typed OpIsNan b.1;
  inf_op ← allocate_typed OpIsInf b.1;
  x ← operand_id r 1;
  _ ← arg_id nan_op x;
  x ← operand_id r 1;
  _ ← arg_id inf_op x;
  _ ← add nan_op;
  _ ← add inf_op;
  non_finite_op ← allocate_typed OpLogicalOr b.1;
  nan_id ← id_of nan_op;
  inf_id ← id_of inf_op;
  _ ← arg_ids non_finite_op [nan_id; inf_id];
  _ ← add non_finite_op;
  non_finite_id ← id_of non_finite_op;
  o ← allocate_value OpLogicalNot r;
  _ ← finish o [mret non_finite_id];
  mret true.

(** The version in the metadata of the module, 6.0 without it. *)
Definition shader_model_key : String_ := [100; 120; 46; 115; 104; 97; 100; 101; 114; 77; 111; 100; 101; 108].
Definition get_constant_metadata (node : mdref) (index : Z) : CM Z :=
  o ← on_llvm (MDNode_getOperand node index);
  m ← on_llvm (md_at o);
  match m with
  | ConstantAsMetadata v => a ← on_llvm (Constant_getUniqueInteger v); x ← on_llvm (APInt_getSExtValue a); mret (u32 x)
  | _ => ubM
  end.
Definition get_shader_model : CM (Z * Z) :=
  m ← gets llvm_module;
  match named_metadata m !! shader_model_key with
  | None => mret (6, 0)
  | Some n =>
      o ← on_llvm (NamedMDNode_getOperand n 0);
      meta ← derefM o;
      major ← get_constant_metadata meta 1;
      minor ← get_constant_metadata meta 2;
      mret (major, minor)
  end.
Definition is_legacy_shader_model : CM bool := v ← get_shader_model; mret (u32 (v.1 * 100 + v.2) <? 609).

(** ** Bits *)

Definition emit_find_low_bit_instruction (r : vref) : CM bool :=
  x ← get_operand r 1; _ ← emit_native_bitscan GLSLstd450FindILsb (Some r) x; mret true.

(** Leading zeros from the position of the highest bit; -1 stays. *)
Definition emit_find_high_bit_instruction (opcode : Z) (r : vref) : CM bool :=
  x ← get_operand r 1;
  msb_id ← emit_native_bitscan opcode None x;
  t ← type_of x;
  let vector := is_vector t in
  n ← (if vector then lift (Type_getVectorNumElements t) else mret 1);
  bool_type ← on_spv makeBoolType;
  bool_type ← (if vector then on_spv (makeVectorType bool_type n) else mret bool_type);
  let splat (m : CM Z) : CM Z :=
    c ← m; if vector then u ← u32_type; build_splat_constant_vector u c n else mret c in
  eq_neg1_op ← allocate_typed OpIEqual bool_type;
  neg1_const ← splat (u32_const 0xffffffff);
  _ ← arg_ids eq_neg1_op [msb_id; neg1_const];
  _ ← add eq_neg1_op;
  msb_sub_op ← allocate_like OpISub r;
  st ← scalar_type_of x;
  w ← bit_width st;
  width_minus_1 ← splat (u32_const (u32 (w - 1)));
  _ ← arg_ids msb_sub_op [width_minus_1; msb_id];
  _ ← add msb_sub_op;
  o ← allocate_value OpSelect r;
  neg1_const ← splat (u32_const 0xffffffff);
  eq_id ← id_of eq_neg1_op;
  sub_id ← id_of msb_sub_op;
  _ ← arg_ids o [eq_id; neg1_const; sub_id];
  _ ← add o;
  mret true.

Definition emit_bit_reverse_instruction (r : vref) : CM bool :=
  st ← scalar_type_of r;
  int_width ← bit_width st;
  legacy ← is_legacy_shader_model;
  if negb legacy || (int_width =? 32) then
    o ← allocate_value OpBitReverse r;
    _ ← finish o [operand_id r 1];
    mret true
  else if int_width =? 16 then
    uint_type ← u32_type;
    u16_type ← on_spv (makeUintType 16);
    u16vec2_type ← on_spv (makeVectorType u16_type 2);
    conv_op ← allocate_typed OpUConvert uint_type;
    conv_id ← finish conv_op [operand_id r 1];
    reverse_id ← emit_typed OpBitReverse uint_type [conv_id];
    cast_id ← emit_typed OpBitcast u16vec2_type [reverse_id];
    ext1 ← allocate_value OpCompositeExtract r;
    _ ← arg_id ext1 cast_id;
    _ ← arg_literal ext1 1;
    _ ← add ext1;
    mret true
  else if int_width =? 64 then
    uint_type ← u32_type;
    uvec2_type ← on_spv (makeVectorType uint_type 2);
    conv_op ← allocate_typed OpBitcast uvec2_type;
    conv_id ← finish conv_op [operand_id r 1];
    reverse_id ← emit_typed OpBitReverse uvec2_type [conv_id];
    shuf_id ← shuffle uvec2_type reverse_id [1; 0];
    cast_op ← allocate_value OpBitcast r;
    _ ← finish cast_op [mret shuf_id];
    mret true
  else mret false.

Definition emit_bit_count_instruction (r : vref) : CM bool :=
  x ← get_operand r 1;
  st ← scalar_type_of x;
  int_width ← bit_width st;
  legacy ← is_legacy_shader_model;
  if negb legacy || (int_width =? 32) then
    o ← allocate_value OpBitCount r;
    _ ← finish o [operand_id r 1];
    mret true
  else if int_width =? 16 then
    t ← u32_type;
    conv_op ← allocate_typed OpUConvert t;
    conv_id ← finish conv_op [operand_id r 1];
    o ← allocate_value OpBitCount r;
    _ ← finish o [mret conv_id];
    mret true
  else if int_width =? 64 then
    uint_type ← u32_type;
    uvec2_type ← on_spv (makeVectorType uint_type 2);
    conv_op ← allocate_typed OpBitcast uvec2_type;
    conv_id ← finish conv_op [operand_id r 1];
    count_id ← emit_typed OpBitCount uvec2_type [conv_id];
    ext0 ← extract uint_type count_id 0;
    ext1 ← extract uint_type count_id 1;
    o ← allocate_value OpIAdd r;
    _ ← finish o [mret ext0; mret ext1];
    mret true
  else mret false.

(** The width that does not reach over the end of the word. *)
Definition clamp_bitfield_width (offset width : Z) : CM Z :=
  t ← u32_type;
  max_width_op ← allocate_typed OpISub t;
  max_width_id ← finish max_width_op [u32_const 32; mret offset];
  t ← u32_type;
  clamp_op ← allocate_typed OpExtInst t;
  finish_ext clamp_op GLSLstd450UMin [mret width; mret max_width_id].

Definition mask_input (r : vref) : CM Z :=
  o ← allocate_like OpBitwiseAnd r;
  finish o [get_id_for_value r; u32_const 31].

(** The masked offset and width of a bit field. *)
Definition field_of (r : vref) : CM (Z * Z) :=
  w ← get_operand r 1;
  masked_width_id ← mask_input w;
  o ← get_operand r 2;
  masked_offset_id ← mask_input o;
  masked_width_id ← clamp_bitfield_width masked_offset_id masked_width_id;
  mret (masked_offset_id, masked_width_id).

Definition emit_bfe_instruction (opcode : Z) (spirv_semantics : bool) (r : vref) : CM bool :=
  if spirv_semantics then
    o ← allocate_value opcode r;
    _ ← finish o [operand_id r 1; operand_id r 2; operand_id r 3];
    mret true
  else
    f ← field_of r;
    o ← allocate_value opcode r;
    x ← operand_id r 3;
    _ ← arg_ids o [x; (f : Z * Z).1; f.2];
    _ ← add o;
    mret true.

Definition emit_bfi_instruction (spirv_semantics : bool) (r : vref) : CM bool :=
  if spirv_semantics then
    o ← allocate_value OpBitFieldInsert r;
    _ ← finish o [operand_id r 1; operand_id r 2; operand_id r 3; operand_id r 4];
    mret true
  else
    f ← field_of r;
    src_id ← operand_id r 3;
    dst_id ← operand_id r 4;
    o ← allocate_value OpBitFieldInsert r;
    _ ← arg_ids o [dst_id; src_id; (f : Z * Z).1; f.2];
    _ ← add o;
    mret true.

(** ** Integers *)

(** [max(x, -x)] is the absolute value. *)
Definition negation_of (r : vref) (i j : Z) : CM bool :=
  x ← get_operand r i;
  d ← data_of x;
  match d with
  | BinaryOperator _ _ =>
      can_optimize_to_snegate x <&&>
      (a ← get_operand x 1; b ← get_operand r j; mret (bool_decide (a = b)))
  | _ => mret false
  end.

Definition emit_dxil_peephole_iabs (opcode : Z) (r : vref) : CM bool :=
  if negb (opcode =? GLSLstd450SMax) then mret false
  else
    peephole0 ← negation_of r 1 2;
    peephole1 ← negation_of r 2 1;
    if (peephole0 : bool) || peephole1 then
      o ← allocate_value OpExtInst r;
      _ ← finish_ext o GLSLstd450SAbs [operand_id r (if peephole0 then 2 else 1)];
      mret true
    else mret false.

Definition emit_dxil_std450_binary_instruction (opcode : Z) (r : vref) : CM bool :=
  _ ← glsl_ext;
  done ← emit_dxil_peephole_iabs opcode r;
  if (done : bool) then mret true
  else
    o ← allocate_value OpExtInst r;
    id ← finish_ext o opcode [operand_id r 1; operand_id r 2];
    _ ← relax r id;
    mret true.

Definition emit_dxil_std450_trinary_instruction (opcode : Z) (r : vref) : CM bool :=
  _ ← glsl_ext;
  o ← allocate_value OpExtInst r;
  id ← finish_ext o opcode [operand_id r 1; operand_id r 2; operand_id r 3];
  _ ← relax r id;
  mret true.

(** Both halves of the result as a vector, the high half first unless the semantics are SPIR-V's. *)
Definition emit_wide_arith (opcode : Z) (spirv_semantics : bool) (r : vref) (u32_type : Z) : CM bool :=
  type_id ← (if spirv_semantics then
      t ← type_of r;
      e ← lift (VectorType_getElementType t);
      x ← get_type_id e;
      get_struct_type [x; x] 0 "WideArithResult"
    else value_type_id r);
  mul_op ← allocate_typed opcode type_id;
  mul_id ← finish mul_op [operand_id r 1; operand_id r 2];
  first ← extract u32_type mul_id 0;
  second ← extract u32_type mul_id 1;
  result ← build_vector u32_type (if spirv_semantics then [first; second] else [second; first]);
  _ ← rewrite_value r result;
  mret true.

Definition emit_dxil_wide_arith_instruction (opcode : Z) (spirv_semantics : bool) (r : vref) : CM bool :=
  u32_type ← u32_type;
  meta ← gets (fun s => llvm_composite_meta s !! r);
  let low_only := match meta with Some m => access_mask m =? 0x2 | None => false end in
  if ((opcode =? OpSMulExtended) || (opcode =? OpUMulExtended)) && negb spirv_semantics && low_only then
    mul_op ← allocate_value_typed OpIMul r u32_type;
    _ ← finish mul_op [operand_id r 1; operand_id r 2];
    _ ← modify (fun s => set_llvm_composite_meta (<[r := mkCompositeMeta 0x2 1 false]> (llvm_composite_meta s)) s);
    mret true
  else emit_wide_arith opcode spirv_semantics r u32_type.

(** The quotient and the remainder. *)
Definition emit_dxbc_udiv_instruction (r : vref) : CM bool :=
  id0 ← operand_id r 1;
  id1 ← operand_id r 2;
  type_id ← value_type_id r;
  quot_id ← build_udiv_umod type_id OpUDiv;
  rem_id ← build_udiv_umod type_id OpUMod;
  quot ← allocate_typed OpFunctionCall type_id;
  rem ← allocate_typed OpFunctionCall type_id;
  q ← finish quot [mret quot_id; mret id0; mret id1];
  m ← finish rem [mret rem_id; mret id0; mret id1];
  t ← u32_type;
  v ← build_vector t [q; m];
  _ ← rewrite_value r v;
  mret true.

Definition build_bfe (value_id offset bits : Z) (sign_extend : bool) : CM Z :=
  t ← u32_type;
  o ← allocate_typed (if sign_extend then OpBitFieldSExtract else OpBitFieldUExtract) t;
  finish o [mret value_id; u32_const offset; u32_const bits].

Fixpoint i8_dot_walk (a b : Z) (sign_extend : bool) (l : list Z) (acc : Z) : CM Z :=
  match l with
  | [] => mret acc
  | i :: l' =>
      a_component ← build_bfe a (8 * i) 8 sign_extend;
      b_component ← build_bfe b (8 * i) 8 sign_extend;
      t ← u32_type;
      mul_op ← allocate_typed OpIMul t;
      mul_id ← finish mul_op [mret a_component; mret b_component];
      t ← u32_type;
      add_op ← allocate_typed OpIAdd t;
      acc ← finish add_op [mret acc; mret mul_id];
      i8_dot_walk a b sign_extend l' acc
  end.

Definition emit_i8_dot_instruction (sign_extend : bool) (r : vref) : CM bool :=
  acc ← operand_id r 1;
  a ← operand_id r 2;
  b ← operand_id r 3;
  native ← gets (fun s => shader_i8_dot_enabled (options s));
  if (native : bool) then
    _ ← on_spv (addExtension "SPV_KHR_integer_dot_product");
    _ ← on_spv (addCapability CapabilityDotProductKHR);
    _ ← on_spv (addCapability CapabilityDotProductInput4x8BitPackedKHR);
    t ← u32_type;
    dot_op ← allocate_typed (if sign_extend then OpSDotKHR else OpUDotKHR) t;
    _ ← arg_id dot_op a;
    _ ← arg_id dot_op b;
    _ ← arg_literal dot_op PackedVectorFormat4x8BitKHR;
    _ ← add dot_op;
    dot_id ← id_of dot_op;
    acc_op ← allocate_value OpIAdd r;
    _ ← finish acc_op [mret acc; mret dot_id];
    mret true
  else
    acc ← i8_dot_walk a b sign_extend [0; 1; 2; 3] acc;
    _ ← rewrite_value r acc;
    mret true.

(** The masked sum of absolute differences of bytes. *)
Fixpoint msad_bytes (r : vref) (scalar_type : Z) (l : list Z) : CM (list Z * list Z) :=
  match l with
  | [] => mret ([], [])
  | i :: l' =>
      ref_bfe_op ← allocate_typed OpBitFieldUExtract scalar_type;
      ref_id ← finish ref_bfe_op [operand_id r 1; u32_const (8 * i); u32_const 8];
      src_bfe_op ← allocate_typed OpBitFieldUExtract scalar_type;
      src_id ← finish src_bfe_op [operand_id r 2; u32_const (8 * i); u32_const 8];
      rest ← msad_bytes r scalar_type l';
      mret (ref_id :: (rest : list Z * list Z).1, src_id :: rest.2)
  end.

Fixpoint msad_sum (scalar_type diff : Z) (l : list Z) (sum_id : Z) : CM Z :=
  match l with
  | [] => mret sum_id
  | i :: l' =>
      x ← extract scalar_type diff i;
      sum_id ← (if sum_id =? 0 then mret x else emit_typed OpIAdd scalar_type [sum_id; x]);
      msad_sum scalar_type diff l' sum_id
  end.

Definition emit_msad_instruction (r : vref) : CM bool :=
  _ ← glsl_ext;
  scalar_type ← u32_type;
  vector_type ← on_spv (makeVectorType scalar_type 4);
  b ← on_spv makeBoolType;
  bool_type ← on_spv (makeVectorType b 4);
  bytes ← msad_bytes r scalar_type [0; 1; 2; 3];
  ref_id ← emit_typed OpCompositeConstruct vector_type (bytes : list Z * list Z).1;
  src_id ← emit_typed OpCompositeConstruct vector_type bytes.2;
  zero_vector ← on_spv (makeNullConstant vector_type);
  compare_id ← emit_typed OpIEqual bool_type [ref_id; zero_vector];
  diff_id ← emit_typed OpISub vector_type [ref_id; src_id];
  abs_diff_op ← allocate_typed OpExtInst vector_type;
  abs_id ← finish_ext abs_diff_op GLSLstd450SAbs [mret diff_id];
  masked_id ← emit_typed OpSelect vector_type [compare_id; zero_vector; abs_id];
  sum_id ← msad_sum scalar_type masked_id [0; 1; 2; 3] 0;
  add_op ← allocate_value OpIAdd r;
  _ ← finish add_op [operand_id r 3; mret sum_id];
  mret true.

(** ** Floats *)

(** A difference that is not below zero but for rounding is clamped. *)
Definition build_clamped_non_negative_sqrt (id : Z) (r : vref) : CM Z :=
  d ← data_of r;
  match d with
  | BinaryOperator FSub true =>
      x ← get_operand r 0;
      c ← is_kind KConstantFP x;
      if negb (c : bool) then mret id
      else
        y ← get_operand r 1;
        bound ← get_expression_upper_bound y;
        const0 ← convertToDouble x;
        match bound with
        | None => mret id
        | Some bound =>
            if negb (SFeqb const0 bound) || SFeqb bound double_zero then mret id
            else
              t ← value_type_id r;
              lower ← allocate_typed OpExtInst t;
              finish_ext lower GLSLstd450FMax [mret id; on_spv (makeNullConstant t)]
        end
  | _ => mret id
  end.

(** [log2] and [exp2] of [exp2] are its argument, and so is [exp2] of [log2]. *)
Definition cancels (opcode : Z) (r : vref) : CM bool :=
  if (opcode =? GLSLstd450Exp2) || (opcode =? GLSLstd450Log2) then
    precise ← is_precise r;
    if (precise : bool) then mret false
    else
      x ← get_operand r 1;
      (if opcode =? GLSLstd450Exp2 then value_is_dx_op_instrinsic x DXIL_Log else mret false) <||>
      value_is_dx_op_instrinsic x DXIL_Exp
  else mret false.

Definition emit_dxil_std450_unary_instruction (opcode : Z) (r : vref) : CM bool :=
  cancelled ← cancels opcode r;
  if (cancelled : bool) then
    x ← get_operand r 1;
    base_value ← get_operand x 1;
    id ← get_id_for_value base_value;
    _ ← rewrite_value r id;
    mret true
  else
    ext ← glsl_ext;
    o ← allocate_value OpExtInst r;
    _ ← arg_id o ext;
    _ ← arg_literal o opcode;
    x ← get_operand r 1;
    id ← get_id_for_value x;
    id ← (if opcode =? GLSLstd450Sqrt then build_clamped_non_negative_sqrt id x else mret id);
    result_id ← finish o [mret id];
    _ ← relax r result_id;
    t ← type_of r;
    fixup ← gets (fun s => fixup_rsqrt (options s));
    if (opcode =? GLSLstd450InverseSqrt) && fixup && is_float t then
      clamp ← allocate_like OpExtInst r;
      clamp_id ← finish_ext clamp GLSLstd450NMin [mret result_id; on_spv (makeFloatConstant max_float)];
      _ ← rewrite_value r clamp_id;
      mret true
    else mret true.

Definition emit_dxil_unary_instruction (opcode : Z) (r : vref) : CM bool :=
  o ← allocate_value opcode r;
  id ← finish o [operand_id r 1];
  _ ← relax r id;
  mret true.

Definition emit_saturate_instruction (r : vref) : CM bool :=
  _ ← glsl_ext;
  t ← type_ref_of r;
  st ← scalar_type_ref t;
  scalar ← type_object st;
  native ← native_fp16;
  match float_limits scalar native 0 0 0,
        float_limits scalar native 0x3c00 (float_one false) (double_one false) with
  | Some zero, Some one =>
      constant_0 ← on_spv zero;
      constant_1 ← on_spv one;
      x ← type_object t;
      c ← (match x with
           | VectorType count _ =>
               scalar_type_id ← get_type_id st;
               a ← build_splat_constant_vector scalar_type_id constant_0 count;
               b ← build_splat_constant_vector scalar_type_id constant_1 count;
               mret (a, b)
           | _ => mret (constant_0, constant_1)
           end);
      let '(constant_0, constant_1) := (c : Z * Z) in
      ext ← glsl_ext;
      o ← allocate_value OpExtInst r;
      _ ← arg_id o ext;
      _ ← arg_literal o GLSLstd450NClamp;
      v ← operand_id r 1;
      _ ← arg_ids o [v; constant_0; constant_1];
      _ ← add o;
      id ← id_of o;
      _ ← relax r id;
      mret true
  | _, _ => mret false
  end.

(** The end of the dot products. *)
Definition finish_dot (o : opref) (r : vref) (vec0 vec1 : Z) : CM bool :=
  _ ← arg_ids o [vec0; vec1];
  _ ← add o;
  id ← id_of o;
  _ ← relax r id;
  precise ← is_precise r;
  _ ← (if (precise : bool) then add_nocontract_decoration id else mret tt);
  mret true.

Definition emit_dot_instruction (dimensions : Z) (r : vref) : CM bool :=
  o ← allocate_value OpDot r;
  vec0_args ← mapM_list (fun i => operand_id r (1 + i)) (counted (fun i => [i]) dimensions);
  vec1_args ← mapM_list (fun i => operand_id r (1 + i + dimensions)) (counted (fun i => [i]) dimensions);
  x ← on_spirv (op_at o);
  vec0 ← build_vector (op_type_id x) vec0_args;
  vec1 ← build_vector (op_type_id x) vec1_args;
  finish_dot o r vec0 vec1.

Definition emit_fdot_instruction (r : vref) : CM bool :=
  o ← allocate_value OpDot r;
  vec0 ← operand_id r 1;
  vec1 ← operand_id r 2;
  finish_dot o r vec0 vec1.

Definition nocontract_if (precise : bool) (id : Z) : CM unit :=
  if precise then add_nocontract_decoration id else mret tt.

(** Products of halves, added up as floats. *)
Definition dot2_sum (half_type float_type a b : Z) (precise : bool) : CM Z :=
  t ← on_spv (makeVectorType half_type 2);
  dot_id ← emit_typed OpFMul t [a; b];
  _ ← nocontract_if precise dot_id;
  native ← native_fp16;
  expanded ← (if (native : bool) then
      t ← on_spv (makeVectorType float_type 2);
      emit_typed OpFConvert t [dot_id]
    else mret dot_id);
  c0 ← extract float_type expanded 0;
  c1 ← extract float_type expanded 1;
  sum_id ← emit_typed OpFAdd float_type [c0; c1];
  _ ← nocontract_if precise sum_id;
  mret sum_id.

Definition emit_dot2_add_half_instruction (r : vref) : CM bool :=
  a0 ← operand_id r 2;
  a1 ← operand_id r 3;
  b0 ← operand_id r 4;
  b1 ← operand_id r 5;
  precise ← is_precise r;
  half_type ← on_spv (makeFloatType 16 (-1));
  float_type ← on_spv (makeFloatType 32 (-1));
  a ← build_vector half_type [a0; a1];
  b ← build_vector half_type [b0; b1];
  mixed ← gets (fun s => mixed_dot_product_fp16_fp16_fp32 (options s));
  if (mixed : bool) then
    _ ← on_spv (addExtension "SPV_VALVE_mixed_float_dot_product");
    _ ← on_spv (addCapability CapabilityDotProductFloat16AccFloat32VALVE);
    acc_op ← allocate_value OpFDot2MixAcc32VALVE r;
    _ ← finish acc_op [mret a; mret b; operand_id r 1];
    mret true
  else
    sum_id ← dot2_sum half_type float_type a b precise;
    acc_op ← allocate_value OpFAdd r;
    acc_id ← finish acc_op [operand_id r 1; mret sum_id];
    _ ← nocontract_if precise acc_id;
    mret true.

Definition emit_make_double_instruction (r : vref) : CM bool :=
  ext ← glsl_ext;
  o ← allocate_value OpExtInst r;
  _ ← arg_id o ext;
  _ ← arg_literal o GLSLstd450PackDouble2x32;
  lo ← operand_id r 1;
  hi ← operand_id r 2;
  t ← u32_type;
  _ ← finish o [build_vector t [lo; hi]];
  mret true.

Definition emit_split_double_instruction (r : vref) : CM bool :=
  ext ← glsl_ext;
  u ← u32_type;
  t ← on_spv (makeVectorType u 2);
  o ← allocate_value_typed OpExtInst r t;
  _ ← arg_id o ext;
  _ ← arg_literal o GLSLstd450UnpackDouble2x32;
  _ ← finish o [operand_id r 1];
  mret true.

(** Denormal halves need the function. *)
Definition denorm_conversion_is_emulated (o : Options) : bool :=
  force_denorm_preserve_fp16_conversions o && negb (supports_float16_denorm_preserve o).
Definition quantization_is_simulated (o : Options) : bool :=
  negb (force_denorm_preserve_fp16_conversions o) && simulate_min16float_min_spec o.

Definition emit_legacy_f16_to_f32_instruction (r : vref) : CM bool :=
  ext ← glsl_ext;
  opts ← gets options;
  if denorm_conversion_is_emulated opts then
    x ← get_operand r 1;
    t ← value_type_id x;
    helper_id ← build_legacy_denorm_f16_conv t GLSLstd450UnpackHalf2x16;
    call ← allocate_value OpFunctionCall r;
    _ ← finish call [mret helper_id; operand_id r 1];
    mret true
  else
    f ← on_spv (makeFloatType 32 (-1));
    t ← on_spv (makeVectorType f 2);
    unpack_op ← allocate_typed OpExtInst t;
    _ ← arg_id unpack_op ext;
    _ ← arg_literal unpack_op GLSLstd450UnpackHalf2x16;
    unpack_id ← finish unpack_op [operand_id r 1];
    o ← allocate_value OpCompositeExtract r;
    _ ← arg_id o unpack_id;
    _ ← arg_literal o 0;
    _ ← add o;
    if quantization_is_simulated opts then
      x ← on_spirv (op_at o);
      quant_id ← emit_typed OpQuantizeToF16 (op_type_id x) [op_id x];
      _ ← rewrite_value r quant_id;
      mret true
    else mret true.

Definition pack_half (r : vref) (ext input_id : Z) : CM bool :=
  opts ← gets options;
  observed ← gets (fun s => precise_f16_to_f32_observed (shader_analysis s));
  controls ← gets (fun s => float_controls2 (execution_mode_meta s));
  input_id ← (if quantization_is_simulated opts || (observed && negb controls) then
      x ← get_operand r 1;
      quant_op ← allocate_like OpQuantizeToF16 x;
      finish quant_op [mret input_id]
    else mret input_id);
  o ← allocate_value OpExtInst r;
  _ ← arg_id o ext;
  _ ← arg_literal o GLSLstd450PackHalf2x16;
  id ← id_of o;
  _ ← (if (observed : bool) && controls then add_nocontract_decoration id else mret tt);
  zero ← on_spv (makeFloatConstant 0);
  f ← on_spv (makeFloatType 32 (-1));
  _ ← finish o [build_vector f [input_id; zero]];
  _ ← relax r id;
  mret true.

Definition emit_legacy_f32_to_f16_instruction (r : vref) : CM bool :=
  native ← native_fp16;
  bypass ← (if (native : bool) then emit_bypass_fp16_trunc get_id_for_value r else mret 0);
  if negb (bypass =? 0) then mret true
  else
    ext ← glsl_ext;
    input_id ← operand_id r 1;
    opts ← gets options;
    if denorm_conversion_is_emulated opts then
      x ← get_operand r 1;
      t ← value_type_id x;
      helper_id ← build_legacy_denorm_f16_conv t GLSLstd450PackHalf2x16;
      call ← allocate_value OpFunctionCall r;
      _ ← finish call [mret helper_id; mret input_id];
      mret true
    else pack_half r ext input_id.

Definition emit_bitcast_instruction (r : vref) : CM bool :=
  o ← allocate_value OpBitcast r; _ ← finish o [operand_id r 1]; mret true.

Definition u8x4_type : CM Z := u ← on_spv (makeUintType 8); on_spv (makeVectorType u 4).

Definition emit_unpack4x8_instruction (r : vref) : CM bool :=
  _ ← on_spv (addCapability CapabilityInt8);
  t ← u8x4_type;
  bitcast_op ← allocate_typed OpBitcast t;
  bitcast_id ← finish bitcast_op [operand_id r 2];
  signed_expand ← get_constant_operand r 1;
  match signed_expand with
  | None => mret false
  | Some signed_expand =>
      t ← type_ref_of r;
      element_type ← get_composite_element_type t;
      e ← get_type_id element_type;
      result_type ← on_spv (makeVectorType e 4);
      expand_op ← allocate_value_typed (if signed_expand =? 0 then OpUConvert else OpSConvert) r result_type;
      _ ← finish expand_op [mret bitcast_id];
      mret true
  end.

(** Clamp to the bytes without (1) or with a sign. *)
Definition clamp_to_bytes (vec_id width mode : Z) : CM Z :=
  let lo := if mode =? 1 then 0 else -128 in
  let hi := if mode =? 1 then 255 else 127 in
  _ ← glsl_ext;
  lo_id ← on_spv (if width =? 16 then makeInt16Constant lo else makeSignedConstant lo);
  hi_id ← on_spv (if width =? 16 then makeInt16Constant hi else makeSignedConstant hi);
  int_type ← on_spv (makeIntType width);
  int4_type ← on_spv (makeVectorType int_type 4);
  lo_id ← on_spv (makeCompositeConstant int4_type (replicate 4 lo_id));
  hi_id ← on_spv (makeCompositeConstant int4_type (replicate 4 hi_id));
  clamp_op ← allocate_typed OpExtInst int4_type;
  finish_ext clamp_op GLSLstd450SClamp [mret vec_id; mret lo_id; mret hi_id].

Definition emit_pack4x8_instruction (r : vref) : CM bool :=
  _ ← on_spv (addCapability CapabilityInt8);
  x ← get_operand r 2;
  uint_type ← value_type_id x;
  mode ← get_constant_operand r 1;
  match mode with
  | None => mret false
  | Some mode =>
      elements ← mapM_list (fun i => operand_id r (2 + i)) [0; 1; 2; 3];
      vec_id ← build_vector uint_type elements;
      t ← type_of x;
      vec_id ← (if mode =? 0 then mret vec_id else w ← bit_width t; clamp_to_bytes vec_id w mode);
      t ← u8x4_type;
      narrow_id ← emit_typed OpUConvert t [vec_id];
      bitcast_op ← allocate_value OpBitcast r;
      _ ← finish bitcast_op [mret narrow_id];
      mret true
  end.

Definition emit_legacy_double_conv_instruction (opcode : Z) (r : vref) : CM bool :=
  input_value ← operand_id r 1;
  input_value ← (if opcode =? OpFConvert then mret input_value
    else
      _ ← glsl_ext;
      f ← on_spv (makeFloatType 64 (-1));
      clamp_op ← allocate_typed OpExtInst f;
      let unsigned := opcode =? OpConvertFToU in
      finish_ext clamp_op GLSLstd450NClamp
        [mret input_value;
         on_spv (makeDoubleConstant (if unsigned then 0 else double_int32_min));
         on_spv (makeDoubleConstant (if unsigned then double_uint32_max else double_int32_max))]);
  o ← allocate_value opcode r;
  _ ← finish o [mret input_value];
  mret true.

End intrinsics.
