(* ===== verification/OpEval.v ===== *)
(** The meaning of the operations that the converter makes for integer intrinsics, as SPIR-V and
    GLSL.std.450 define them; what they leave undefined has no value here.

    Numbers are unsigned; a composite is the list of its components, and most operations act on
    each component.  [exec_ops] runs operations one after another. *)
From S2P Require Import Prelude.
From S2P Require Import IR.
From S2P Require Import SpvBuilder.
From S2P Require Import Instrumentation.
From S2P Require Import BuilderView.
From S2P Require Import SpvEval.
From S2P Require Import EmissionSpec.
From S2P Require Import LLVMBuiltins.
From S2P Require Import Instructions.
From S2P Require Import Arithmetic.
Local Open Scope Z_scope.

(** * Functions on bits *)

(** All bits of a word, the result of a search that finds nothing. *)
Definition minus_one : Z := 0xffffffff.

(** The lowest set bit, the highest one, and the highest bit that differs from the sign. *)
Definition find_lsb (w x : Z) : Z :=
  match list_find (fun i => Z.testbit x i = true) (seqZ 0 w) with Some (_, i) => i | None => minus_one end.
Definition find_umsb (x : Z) : Z := if x =? 0 then minus_one else Z.log2 x.
Definition find_smsb (w x : Z) : Z := find_umsb (if x <? 2 ^ (w - 1) then x else 2 ^ w - 1 - x).

Definition bit_count (w x : Z) : Z := foldr (fun i n => Z.b2z (Z.testbit x i) + n) 0 (seqZ 0 w).
Definition bit_reverse (w x : Z) : Z :=
  foldr (fun i n => Z.b2z (Z.testbit x i) * 2 ^ (w - 1 - i) + n) 0 (seqZ 0 w).

(** * Globals *)

Definition global (b : Builder) (id : Z) : option Instruction :=
  snd <$> list_find (fun i => resultId i = id) (constantsTypesGlobals b).

Definition width_of (b : Builder) (type_id : Z) : option Z :=
  i ← global b type_id;
  if opCode i =? OpTypeInt then operands i !! 0%nat else None.

(** The component type and the number of components. *)
Definition vector_of (b : Builder) (type_id : Z) : option (Z * Z) :=
  i ← global b type_id;
  if opCode i =? OpTypeVector then
    c ← operands i !! 0%nat; n ← operands i !! 1%nat; Some (c, n)
  else None.

(** The width of an integer type or of the components of a vector. *)
Definition component_width (b : Builder) (type_id : Z) : option Z :=
  match vector_of b type_id with Some (c, _) => width_of b c | None => width_of b type_id end.

Definition null_of (b : Builder) (type_id : Z) : option value :=
  match vector_of b type_id with
  | Some (c, n) => _ ← width_of b c; Some (VComposite (replicate (Z.to_nat n) (VInt 0)))
  | None => _ ← width_of b type_id; Some (VInt 0)
  end.

Definition scalar_global (b : Builder) (id : Z) : option value :=
  i ← global b id;
  if opCode i =? OpConstant then VInt <$> literal (operands i) else None.

Definition global_value (b : Builder) (id : Z) : option value :=
  i ← global b id;
  if opCode i =? OpConstantNull then null_of b (typeId i) else scalar_global b id.

Definition lookup_value (b : Builder) (env : environment) (id : Z) : option value :=
  match env !! id with Some v => Some v | None => global_value b id end.

(** * Componentwise operations *)

Definition lift1 (f : Z -> option Z) (v : value) : option value :=
  match v with
  | VInt x => VInt <$> f x
  | VComposite l => VComposite <$> mapM (fun c => match c with VInt x => VInt <$> f x | _ => None end) l
  | _ => None
  end.

Fixpoint zip_values (f : Z -> Z -> option value) (l l' : list value) : option (list value) :=
  match l, l' with
  | [], [] => Some []
  | VInt x :: t, VInt y :: t' => v ← f x y; r ← zip_values f t t'; Some (v :: r)
  | _, _ => None
  end.

Definition lift2 (f : Z -> Z -> option value) (v v' : value) : option value :=
  match v, v' with
  | VInt x, VInt y => f x y
  | VComposite l, VComposite l' => VComposite <$> zip_values f l l'
  | _, _ => None
  end.

Fixpoint select_values (c l l' : list value) : option (list value) :=
  match c, l, l' with
  | [], [], [] => Some []
  | VBool b :: c', v :: t, v' :: t' => r ← select_values c' t t'; Some ((if b then v else v') :: r)
  | _, _, _ => None
  end.

Definition arithmetic (op w x y : Z) : option Z :=
  if op =? OpShiftRightArithmetic then
    if y <? w then Some (wrap w (Z.shiftr (signed w x) y)) else None
  else int_op op w x y.

Definition compare (op x y : Z) : option bool := compare_op op x y.

(** [count] bits of [base] from the bit [offset] on, with the sign of the highest one. *)
Definition extract_signed (w base offset count : Z) : option Z :=
  if offset + count <=? w then
    Some (if count =? 0 then 0 else wrap w (signed count (Z.shiftr base offset mod 2 ^ count)))
  else None.

Definition insert_bits (w base insert offset count : Z) : option Z :=
  if offset + count <=? w then
    let mask := Z.shiftl (2 ^ count - 1) offset in
    Some (Z.lor (Z.ldiff base mask) (Z.land (Z.shiftl insert offset) mask))
  else None.

(** The bits of a number in pieces of [w] bits, the low one first, and back. *)
Definition pieces (w : Z) (n : nat) (x : Z) : list value :=
  (fun i => VInt (Z.shiftr x (w * Z.of_nat i) mod 2 ^ w)) <$> seq 0 n.
Fixpoint join (w : Z) (l : list value) : option Z :=
  match l with
  | [] => Some 0
  | VInt x :: t => r ← join w t; Some (x + 2 ^ w * r)
  | _ => None
  end.

Definition bitcast_value (b : Builder) (type_id : Z) (v : value) : option value :=
  match vector_of b type_id, v with
  | Some (c, n), VInt x => w ← width_of b c; Some (VComposite (pieces w (Z.to_nat n) x))
  | None, VComposite l => w ← width_of b type_id; VInt <$> join (w / Z.of_nat (length l)) l
  | None, VInt x => _ ← width_of b type_id; Some (VInt x)
  | _, _ => None
  end.

(** GLSL.std.450; the searches are for 32-bit numbers. *)
Definition ext_unary (opcode w x : Z) : option Z :=
  if opcode =? GLSLstd450SAbs then Some (Z.abs (signed w x) mod 2 ^ w)
  else if negb (w =? 32) then None
  else if opcode =? GLSLstd450FindILsb then Some (find_lsb 32 x)
  else if opcode =? GLSLstd450FindUMsb then Some (find_umsb x)
  else if opcode =? GLSLstd450FindSMsb then Some (find_smsb 32 x)
  else None.
Definition ext_binary (opcode w x y : Z) : option Z :=
  if opcode =? GLSLstd450UMin then Some (Z.min x y)
  else if opcode =? GLSLstd450SMax then Some (wrap w (Z.max (signed w x) (signed w y)))
  else None.
Definition ext_value (opcode w : Z) (args : list value) : option value :=
  match args with
  | [x] => lift1 (ext_unary opcode w) x
  | [x; y] => lift2 (fun a b => VInt <$> ext_binary opcode w a b) x y
  | _ => None
  end.

(** The components of two vectors by number. *)
Definition shuffle_value (v v' : value) (mask : list Z) : option value :=
  match v, v' with
  | VComposite l, VComposite l' => VComposite <$> mapM (fun k => (l ++ l') !! Z.to_nat k) mask
  | _, _ => None
  end.

(** * Operations *)

Section operation.
(** [ext]: the instruction set GLSL.std.450. *)
Variables (b : Builder) (ext : Z) (env : environment) (i : Instruction).

Definition arg (n : nat) : option value := id ← operands i !! n; lookup_value b env id.
Definition int_arg (n : nat) : option Z := match arg n with Some (VInt v) => Some v | _ => None end.

Definition eval_operation : option value :=
  let op := opCode i in
  if op =? OpExtInst then
    e ← operands i !! 0%nat;
    k ← operands i !! 1%nat;
    w ← component_width b (typeId i);
    args ← mapM (lookup_value b env) (drop 2 (operands i));
    if negb (e =? 0) && (e =? ext) then ext_value k w args else None
  else if op =? OpCompositeExtract then c ← arg 0; k ← operands i !! 1%nat; member c k
  else if op =? OpCompositeConstruct then VComposite <$> mapM (lookup_value b env) (operands i)
  else if op =? OpVectorShuffle then x ← arg 0; y ← arg 1; shuffle_value x y (drop 2 (operands i))
  else if op =? OpBitcast then x ← arg 0; bitcast_value b (typeId i) x
  else if op =? OpUConvert then w ← component_width b (typeId i); x ← arg 0; lift1 (fun x => Some (x mod 2 ^ w)) x
  else if op =? OpSelect then
    c ← arg 0; x ← arg 1; y ← arg 2;
    match c, x, y with
    | VBool c, _, _ => Some (if c then x else y)
    | VComposite c, VComposite l, VComposite l' => VComposite <$> select_values c l l'
    | _, _, _ => None
    end
  else if op =? OpBitFieldUExtract then
    w ← width_of b (typeId i); x ← int_arg 0; o ← int_arg 1; c ← int_arg 2; VInt <$> extract_bits w x o c
  else if op =? OpBitFieldSExtract then
    w ← width_of b (typeId i); x ← int_arg 0; o ← int_arg 1; c ← int_arg 2; VInt <$> extract_signed w x o c
  else if op =? OpBitFieldInsert then
    w ← width_of b (typeId i); x ← int_arg 0; y ← int_arg 1; o ← int_arg 2; c ← int_arg 3;
    VInt <$> insert_bits w x y o c
  else if op =? OpBitCount then w ← component_width b (typeId i); x ← arg 0; lift1 (fun x => Some (bit_count w x)) x
  else if op =? OpBitReverse then w ← component_width b (typeId i); x ← arg 0; lift1 (fun x => Some (bit_reverse w x)) x
  else if bool_decide (op ∈ [OpIEqual; OpINotEqual]) then
    x ← arg 0; y ← arg 1; lift2 (fun a b => VBool <$> compare op a b) x y
  else
    w ← component_width b (typeId i);
    x ← arg 0; y ← arg 1; lift2 (fun a b => VInt <$> arithmetic op w a b) x y.
End operation.

(** The instructions of a block, one after another. *)
Fixpoint exec_ops (b : Builder) (ext : Z) (l : list Instruction) (env : environment) : option environment :=
  match l with
  | [] => Some env
  | i :: l' => v ← eval_operation b ext env i; exec_ops b ext l' (<[resultId i := v]> env)
  end.
