(* ===== verification/BuilderMakes.v ===== *)
(** Makers of types and constants, as proofs about generated code see them: [makes] says which
    globals a routine leaves in the builder, whatever it held before; [later] builders keep what
    they had. *)
From S2P Require Import Prelude.
From S2P Require Import SpvBuilder.
From S2P Require Import Instrumentation.
From S2P Require Import BuilderView.
From S2P Require Import SpvEval.
From S2P Require Import OpEval.
Local Open Scope Z_scope.

(** * Builders that grow *)

Definition later (b b' : Builder) : Prop := forall id i, global b id = Some i -> global b' id = Some i.

Lemma grown_refl b : later b b.
Proof. by intros id i. Qed.
Lemma grown_trans a b c : later a b -> later b c -> later a c.
Proof. intros H H' id i Hi. by apply H', H. Qed.

Lemma global_of b i : wf_builder b -> i ∈ constantsTypesGlobals b -> global b (resultId i) = Some i.
Proof.
  intros Hwf Hi. unfold global.
  destruct (list_find _ _) as [[n j]|] eqn:E.
  - apply list_find_Some in E as (Hj & Ej & _). apply list_elem_of_lookup_2 in Hj. simpl.
    apply (wb_globals _ Hwf) in Hi, Hj. rewrite Ej in Hj. congruence.
  - apply list_find_None in E. rewrite list.Forall_forall in E. by specialize (E i Hi).
Qed.

Lemma global_Some b id i : global b id = Some i -> i ∈ constantsTypesGlobals b /\ resultId i = id.
Proof.
  unfold global. destruct (list_find _ _) as [[n j]|] eqn:E; [|done]. intros [= <-].
  apply list_find_Some in E as (Hj & Ej & _). split; [by eapply list_elem_of_lookup_2|done].
Qed.

Lemma later_of_subset b b' : wf_builder b' ->
  (forall i, i ∈ constantsTypesGlobals b -> i ∈ constantsTypesGlobals b') -> later b b'.
Proof. intros Hwf H id i [Hi <-]%global_Some. apply global_of; auto. Qed.

(** ** Routines that import nothing *)

Definition no_import {A} (m : BM A) : Prop := forall b a b', m b = Ok (a, b') -> importIDCache b' = importIDCache b.

Section no_import.
Context {A B : Type}.
Lemma no_import_ret (a : A) : no_import (mret a).
Proof. by intros b x b' [= <- <-]. Qed.
Lemma no_import_gets (f : Builder -> A) : no_import (gets f).
Proof. by intros b x b' [= <- <-]. Qed.
Lemma no_import_modify f : (forall b, importIDCache (f b) = importIDCache b) -> no_import (modify f).
Proof. by intros Hf b x b' [= <- <-]. Qed.
Lemma no_import_assert c : no_import (assertM c).
Proof. intros b x b'. destruct c; [|done]. by intros [= <- <-]. Qed.
Lemma no_import_bind (m : BM A) (f : A -> BM B) : no_import m -> (forall a, no_import (f a)) -> no_import (m ≫= f).
Proof.
  intros Hm Hf b x b' (a & b1 & E1 & E2)%bindM_Ok. by rewrite (Hf _ _ _ _ E2), (Hm _ _ _ E1).
Qed.
End no_import.

Create HintDb no_import.
#[export] Hint Resolve no_import_ret no_import_gets no_import_assert : no_import.
#[export] Hint Extern 1 (no_import (modify _)) => apply no_import_modify; intros ?; reflexivity : no_import.
#[export] Hint Extern 2 (no_import (_ ≫= _)) => apply no_import_bind; [|intros ?] : no_import.
#[export] Hint Extern 2 (no_import (if ?b then _ else _)) => destruct b : no_import.
#[export] Hint Extern 2 (no_import (match ?b with Some _ => _ | None => _ end)) => destruct b as [[??]|] : no_import.
#[export] Hint Extern 3 (no_import (let _ := _ in _)) => cbv zeta : no_import.

Ltac solve_no_import := cbv zeta; auto 30 with no_import.

Lemma no_import_new_global t op l : no_import (new_global t op l).
Proof. unfold new_global, getUniqueId, mapInstruction. solve_no_import. Qed.
#[export] Hint Resolve no_import_new_global : no_import.
Lemma no_import_new_type op l : no_import (new_type op l).
Proof. unfold new_type. solve_no_import. Qed.
Lemma no_import_new_constant c t op l : no_import (new_constant c t op l).
Proof. unfold new_constant. solve_no_import. Qed.
#[export] Hint Resolve no_import_new_type no_import_new_constant : no_import.
Lemma no_import_makeIntegerType w sign : no_import (makeIntegerType w sign).
Proof. unfold makeIntegerType, addCapability. solve_no_import. Qed.
#[export] Hint Resolve no_import_makeIntegerType : no_import.
Lemma no_import_constant32 sign v : no_import (t ← makeIntegerType 32 sign; makeIntConstant t v).
Proof. unfold makeIntConstant. solve_no_import. Qed.
Lemma no_import_makeBoolType : no_import makeBoolType.
Proof. unfold makeBoolType, find_or_make. solve_no_import. Qed.
Lemma no_import_makeVectorType t n : no_import (makeVectorType t n).
Proof. unfold makeVectorType, find_or_make, addExtension, addCapability. solve_no_import. Qed.
Lemma no_import_makeNullConstant t : no_import (makeNullConstant t).
Proof. unfold makeNullConstant. solve_no_import. Qed.

(** The routine makes globals with these facts, and gives out at most [n] ids. *)
Definition makes {A} (m : BM A) (n : Z) (P : A -> list (Z * Z * list Z) -> Prop) : Prop :=
  no_import m /\ forall k c0 b (Q : A -> Builder -> Prop),
    0 <= uniqueId b -> ready_builder k c0 b -> uniqueId b + n < 2 ^ 32 ->
    (forall a F b', P a F -> asm k c0 b n F [] b' -> Q a b') -> runs m b Q.

Section makes.
Lemma makes_int_type w (sign : bool) :
  makes (makeIntegerType w sign) 1 (fun t F => F = [(t, OpTypeInt, [w; if sign then 1 else 0])]).
Proof.
  split; [apply no_import_makeIntegerType|]. intros k c0 b Q Hu Hr Hn HQ.
  eapply runs_makeIntegerType; [done|by apply asm_start|lia|]. intros t b' Hb. eapply HQ; [done|exact Hb].
Qed.
Lemma makes_uint_type w : makes (makeUintType w) 1 (fun t F => F = [(t, OpTypeInt, [w; 0])]).
Proof. apply (makes_int_type w false). Qed.
Lemma makes_bool_type : makes makeBoolType 1 (fun t F => F = [(t, OpTypeBool, [])]).
Proof.
  split; [apply no_import_makeBoolType|]. intros k c0 b Q Hu Hr Hn HQ.
  eapply runs_makeBoolType; [done|by apply asm_start|lia|]. intros t b' Hb. eapply HQ; [done|exact Hb].
Qed.
Lemma makes_vector_type c n : 2 <= n <= 4 -> makes (makeVectorType c n) 1 (fun t F => F = [(t, OpTypeVector, [c; n])]).
Proof.
  intros Hc. split; [apply no_import_makeVectorType|]. intros k c0 b Q Hu Hr Hn HQ.
  eapply runs_makeVectorType; [done|by apply asm_start|lia|done|]. intros t b' Hb. eapply HQ; [done|exact Hb].
Qed.
Lemma makes_constant32 (sign : bool) v :
  makes (t ← makeIntegerType 32 sign; makeIntConstant t v) 2
    (fun id F => exists t, F = [(id, OpConstant, [v]); (t, OpTypeInt, [32; if sign then 1 else 0])]).
Proof.
  split; [apply no_import_constant32|]. intros k c0 b Q Hu Hr Hn HQ.
  eapply runs_constant32; [done|by apply asm_start|lia|]. intros t id b' Hb. eapply HQ; [by exists t|exact Hb].
Qed.
Lemma makes_uint_constant v :
  makes (makeUintConstant v) 2 (fun id F => exists t, F = [(id, OpConstant, [v]); (t, OpTypeInt, [32; 0])]).
Proof. apply (makes_constant32 false). Qed.
Lemma makes_signed_constant v :
  makes (makeSignedConstant v) 2 (fun id F => exists t, F = [(id, OpConstant, [u32 v]); (t, OpTypeInt, [32; 1])]).
Proof. apply (makes_constant32 true). Qed.
End makes.
