(* ===== verification/EmitLogic.v ===== *)
(** Symbolic execution of the converter while it translates one instruction.

    [emits] says what was done so far: the operations that the node got compute the values of the
    facts [Val] from the values of the operands.  Each step of the converter has a lemma
    [runs_...] that takes [emits] from before the step to after it, and [computes_value] is what a
    translation has to show. *)
From S2P Require Import Prelude.
From S2P Require Import LLVMType.
From S2P Require Import LLVMValue.
From S2P Require Import IR.
From S2P Require Import CFGNode.
From S2P Require Import SpvBuilder.
From S2P Require Import Instrumentation.
From S2P Require Import SPIRVModule.
From S2P Require Import BuilderView.
From S2P Require Import SpvEval.
From S2P Require Import EmissionSpec.
From S2P Require Import Converter.
From S2P Require Import LLVMBuiltins.
From S2P Require Import Instructions.
From S2P Require Import Arithmetic.
From S2P Require Import OpEval.
From S2P Require Import BuilderMakes.
Local Open Scope Z_scope.
Local Open Scope dxil_scope.

Lemma runs_unbind {S A B} (m : M S A) (f : A -> M S B) s (Q : B -> S -> Prop) :
  runs (m ≫= f) s Q -> runs m s (fun a s' => runs (f a) s' Q).
Proof. intros (b & s2 & (a & s1 & E1 & E2)%bindM_Ok & HQ). exists a, s1. split; [done|]. by exists b, s2. Qed.

(** * What a translation has done *)

Inductive fact :=
  | Val (id : Z) (v : SpvEval.value)
  | Glob (id op : Z) (ops : list Z)
  | Id (r : vref) (id : Z)
  | Made (o : opref) (id t : Z)
  | Ext (id : Z).

(** An operation that is not in the node yet. *)
Record pending := mkPending { p_ref : opref; p_code : Z; p_id : Z; p_type : Z; p_args : list Z }.

Definition bd (s : ConverterImpl) : Builder := builder (spirv_module s).
Definition pool (s : ConverterImpl) : list Operation := operation_pool (spirv_module s).

Section logic.
Context `{FreshMemory}.
Hypothesis fresh_length : forall n, length (fresh_words n) = n.
Variables (k : blockref) (c0 : list Instruction) (s0 : ConverterImpl) (node : nodref) (self : vref).
Variable env0 : environment.

Section facts.
Variables (s : ConverterImpl) (env : environment).

(** An id for a value to come. *)
Definition reserved (id : Z) : Prop :=
  id <> 0 /\ id <= uniqueId (bd s) /\ env !! id = None /\ forall i, i ∈ constantsTypesGlobals (bd s) -> resultId i <> id.

Definition holds (f : fact) : Prop :=
  match f with
  | Val id v => id <> 0 /\ forall b, later (bd s) b -> lookup_value b env id = Some v
  | Glob id op ops => has_global (bd s) id op ops
  | Id r id => value_map s !! r = Some id
  | Made o id t => exists x, pool s !! o = Some x /\ op_id x = id /\ op_type_id x = t
  | Ext e => e <> 0 /\ glsl_std450_ext s = e
  end.

Definition awaits (p : pending) : Prop :=
  exists x, pool s !! p_ref p = Some x /\ op_wf x /\ op x = p_code p /\ op_id x = p_id p /\
    op_type_id x = p_type p /\ (contents x).*1 = p_args p /\ reserved (p_id p) /\ p_type p <> 0.
End facts.

(** [slot]: the id of the instruction itself, if the instruction still waits for its operation.
    [R]: more ids that were given out. *)
Definition slot_ok (slot : option (option Z)) (s : ConverterImpl) (env : environment) : Prop :=
  match slot with
  | None => True
  | Some o => value_map s !! self = o /\ match o with Some id => reserved s env id | None => True end
  end.

Definition slot_ids (slot : option (option Z)) : list Z :=
  match slot with Some (Some id) => [id] | _ => [] end.

(** The node got the operations [refs], which are the instructions [O], and they lead from [env0]
    to [env]. *)
Record body (R : list Z) (K : list fact) (P : list pending) (slot : option (option Z)) (s : ConverterImpl)
    (refs : list opref) (O : list Instruction) (env : environment) : Prop := {
  b_node : exists nd nd0, node_pool s0 !! node = Some nd0 /\ node_pool s !! node = Some nd /\
    operations (ir nd) = operations (ir nd0) ++ refs;
  b_ops : Forall2 (fun r i => exists x, pool s !! r = Some x /\ op_instructions x = [i]) refs O;
  b_exec : forall b e, later (bd s) b -> (glsl_std450_ext s <> 0 -> e = glsl_std450_ext s) ->
    exec_ops b e O env0 = Some env;
  b_env : environment_ok (bd s) env;
  b_holds : forall f, f ∈ K -> holds s env f;
  b_awaits : forall p, p ∈ P -> awaits s env p;
  b_apart : forall p, p ∈ P -> p_ref p ∉ refs;
  b_slot : slot_ok slot s env;
  b_reserved : forall id, id ∈ R -> reserved s env id;
}.

Record emitting (R : list Z) (n : Z) (K : list fact) (P : list pending) (slot : option (option Z))
    (s : ConverterImpl) : Prop := {
  e_ready : ready_builder k c0 (bd s);
  e_imports : forall x, x ∈ importIDCache (bd s) -> x.2 <> 0;
  e_ids : 0 <= uniqueId (bd s0) <= uniqueId (bd s) /\ uniqueId (bd s) <= uniqueId (bd s0) + n;
  e_current : current_block s = Some node;
  e_llvm : llvm s = llvm s0 /\ llvm_module s = llvm_module s0;
  e_options : options s = options s0 /\ execution_mode_meta s = execution_mode_meta s0 /\
    shader_analysis s = shader_analysis s0 /\ llvm_composite_meta s = llvm_composite_meta s0;
  e_body : exists refs O env, body R K P slot s refs O env;
  e_nodup : NoDup (R ++ slot_ids slot ++ (p_id <$> P)) /\ NoDup (p_ref <$> P);
}.
Abbreviation emits := (emitting []) (only parsing).

(** Fewer facts. *)
Lemma emits_weaken R n K K' P slot s :
  emitting R n K P slot s -> (forall f, f ∈ K' -> f ∈ K) -> emitting R n K' P slot s.
Proof. intros [A I B C D E (refs & O & env & []) G] HK. split; try done. exists refs, O, env. split; auto. Qed.

(** ** Growth of the builder *)

Lemma reserved_grows s s' env id n F :
  asm k c0 (bd s) n F [] (bd s') -> reserved s env id -> reserved s' env id.
Proof.
  intros HA (Hz & Hle & He & Hg). pose proof (as_ids _ _ _ _ _ _ _ HA). split_and!; [done|lia|done|].
  intros i Hi E. destruct (as_new _ _ _ _ _ _ _ HA i Hi) as [Hi'|Hi']; [by apply (Hg i)|lia].
Qed.

Lemma asm_later b b' n F : asm k c0 b n F [] b' -> later b b'.
Proof. intros HA. apply later_of_subset; [apply (as_wf _ _ _ _ _ _ _ HA)|apply (as_old _ _ _ _ _ _ _ HA)]. Qed.

Lemma asm_ready b b' n F : asm k c0 b n F [] b' -> ready_builder k c0 b'.
Proof. intros [A B C D E G I J L]. rewrite app_nil_r in C. by split. Qed.

Lemma environment_grows b b' n F env : asm k c0 b n F [] b' -> environment_ok b env -> environment_ok b' env.
Proof.
  intros HA Henv id Hid. destruct (Henv id Hid) as [Hle Hg]. pose proof (as_ids _ _ _ _ _ _ _ HA). split; [lia|].
  intros i Hi E. destruct (as_new _ _ _ _ _ _ _ HA i Hi) as [Hi'|Hi']; [by apply (Hg i)|lia].
Qed.

(** Known globals become facts. *)
Definition globals (F : list (Z * Z * list Z)) : list fact := (fun x => Glob x.1.1 x.1.2 x.2) <$> F.

Section growth.
Variables (s : ConverterImpl) (b' : Builder) (c : Z) (F : list (Z * Z * list Z)).
Let s' := set_spirv_module (set_builder b' (spirv_module s)) s.
Hypothesis HA : asm k c0 (bd s) c F [] b'.

Lemma holds_grows env f : holds s env f -> holds s' env f.
Proof.
  pose proof (asm_later _ _ _ _ HA) as Hl. destruct f; simpl; try done.
  - intros [Hz Hv]. split; [done|]. intros b Hb. apply Hv. by eapply grown_trans.
  - intros (i & Hi & ?). exists i. split; [by apply (as_old _ _ _ _ _ _ _ HA)|done].
Qed.

Lemma body_grows R K P slot refs O env :
  body R K P slot s refs O env -> body R (globals F ++ K) P slot s' refs O env.
Proof.
  assert (forall id, reserved s env id -> reserved s' env id) as Hres by (intros id; by eapply (reserved_grows s s')).
  intros [X1 X2 X3 X4 X5 X6 X7 X8 X9]. split; try done.
  - intros b e Hl He. apply X3; [|done]. eapply grown_trans; [by eapply asm_later|done].
  - by eapply environment_grows.
  - intros f [Hf|Hf]%elem_of_app; [|by eapply holds_grows; eauto].
    apply list_elem_of_fmap in Hf as (x & -> & Hx). by apply (as_known _ _ _ _ _ _ _ HA).
  - intros p Hp. destruct (X6 p Hp) as (x & Y1 & Y2 & Y3 & Y4 & Y5 & Y6 & Y7 & Y8). exists x. split_and!; auto.
  - destruct slot as [[id|]|]; [|done..]. destruct X8. by split; auto.
  - auto.
Qed.

Lemma emits_grows R n K P slot : (forall x, x ∈ importIDCache b' -> x.2 <> 0) ->
  emitting R n K P slot s -> emitting R (n + c) (globals F ++ K) P slot s'.
Proof.
  intros HI [A I B C D E (refs & O & env & X) G]. assert (bd s' = b') as Hb by done.
  pose proof (as_ids _ _ _ _ _ _ _ HA). split; rewrite ?Hb; try done; [by eapply asm_ready|lia|].
  exists refs, O, env. by apply body_grows.
Qed.
End growth.

Lemma runs_on_spv {A} (m : BM A) c F0 R n K P slot s (Q : A -> ConverterImpl -> Prop) :
  makes m c F0 -> emitting R n K P slot s -> uniqueId (bd s0) + n + c < 2 ^ 32 ->
  (forall a F s', F0 a F -> emitting R (n + c) (globals F ++ K) P slot s' -> Q a s') -> runs (on_spv m) s Q.
Proof.
  intros [Hi Hm] He Hn HQ. unfold on_spv, on_spirv, on_builder.
  pose proof (e_ids _ _ _ _ _ _ He) as [? ?]. apply runs_zoom, runs_zoom.
  destruct (Hm k c0 (bd s) (fun a b' => exists F, F0 a F /\ asm k c0 (bd s) c F [] b')) as (a & b' & E & F & HR & HA);
    [lia|apply (e_ready _ _ _ _ _ _ He)|lia|by eauto|].
  exists a, b'. split; [exact E|]. apply (HQ a F); [done|]. apply (emits_grows s b' c F HA); [|done].
  rewrite (Hi _ _ _ E). apply (e_imports _ _ _ _ _ _ He).
Qed.

(** ** Ids *)

Lemma asm_new_id b : 0 <= uniqueId b -> uniqueId b + 1 < 2 ^ 32 -> ready_builder k c0 b ->
  asm k c0 b 1 [] [] (set_uniqueId (uniqueId b + 1) b).
Proof.
  intros Hu Hb Hr. destruct (asm_start _ _ _ Hr) as [[W1 W2 W3 W4] A2 A3 AO A4 A5 A6 A7 A8 A9 A10 A11].
  split; try done; simpl; [lia| |].
  - intros i Hi. specialize (A6 i Hi). lia.
  - intros i Hi. by apply elem_of_nil in Hi.
Qed.

Lemma runs_new_id n K P slot s (Q : Z -> ConverterImpl -> Prop) :
  emits n K P slot s -> uniqueId (bd s0) + n + 1 < 2 ^ 32 ->
  (forall id s', emitting [id] (n + 1) K P slot s' -> Q id s') -> runs (on_spirv allocate_id) s Q.
Proof.
  intros He Hn HQ. pose proof (e_ids _ _ _ _ _ _ He) as [[Hu Hle] Hmax].
  unfold on_spirv, allocate_id, on_builder, getUniqueId. apply runs_zoom, runs_zoom.
  apply runs_bind, runs_gets, runs_bind, runs_modify, runs_ret. change (builder (spirv_module s)) with (bd s).
  assert (u32 (uniqueId (bd s) + 1) = uniqueId (bd s) + 1) as -> by (unfold u32, wrap; rewrite Z.mod_small; lia).
  set (id := uniqueId (bd s) + 1). pose proof (e_ready _ _ _ _ _ _ He) as Hr.
  pose proof (asm_new_id (bd s) ltac:(lia) ltac:(lia) Hr) as HA.
  destruct He as [A I B C D E (refs & O & env & X) [G1 G2]].
  pose proof (body_grows _ _ _ _ HA _ _ _ _ _ _ _ X) as X'.
  assert (forall x, reserved s env x -> x <> id) as Hne by (intros x (? & Hx & _); lia).
  apply HQ. split; try done; [by eapply asm_ready|simpl; lia| |].
  - exists refs, O, env. destruct X' as [X1 X2 X3 X4 X5 X6 X7 X8 _]. split; try done.
    intros x ->%list_elem_of_singleton. split_and!; [lia|simpl; lia| |].
    + destruct (env !! id) as [v|] eqn:Ev; [|done]. destruct (b_env _ _ _ _ _ _ _ _ X id) as [? _]; [by eauto|lia].
    + intros i Hi Ei. simpl in Hi. pose proof (rb_globals _ _ _ Hr i Hi). lia.
  - split; [|done]. simpl. apply list.NoDup_cons. split; [|done]. intros [Hi|Hi]%elem_of_app.
    + pose proof (b_slot _ _ _ _ _ _ _ _ X) as Hs. destruct slot as [[x|]|]; simpl in *; [|by apply elem_of_nil in Hi..].
      apply list_elem_of_singleton in Hi as <-. by destruct (Hne id (proj2 Hs)).
    + apply list_elem_of_fmap in Hi as (p & Ep & Hp). destruct (b_awaits _ _ _ _ _ _ _ _ X p Hp) as (x & Y).
      by destruct (Hne (p_id p)); [apply Y|].
Qed.

(** ** Operations *)

Lemma op_wf_new code id t : op_wf (Operation_new fresh_words code id t) /\
  contents (Operation_new fresh_words code id t) = [].
Proof.
  split; [|done]. unfold op_wf, Operation_new, InlineArguments, zlength. simpl.
  rewrite fresh_length. split_and!; done.
Qed.

Definition set_pool (x : list Operation) (s : ConverterImpl) : ConverterImpl :=
  set_spirv_module (set_operation_pool x (spirv_module s)) s.

(** Facts and plans do not see operations that are new. *)
Lemma awaits_pool s env p l : (forall x, pool s !! p_ref p = Some x -> l !! p_ref p = Some x) ->
  awaits s env p -> awaits (set_pool l s) env p.
Proof. intros Hl (x & Hx & Y). exists x. split; [by apply Hl|done]. Qed.

Lemma holds_pool s env f l :
  (forall o x, pool s !! o = Some x -> exists y, l !! o = Some y /\ op_id y = op_id x /\ op_type_id y = op_type_id x) ->
  holds s env f -> holds (set_pool l s) env f.
Proof.
  intros Hl. destruct f; simpl; try done. intros (x & Hx & <- & <-). by apply Hl.
Qed.

Lemma runs_allocate_op code id t n K P slot s (Q : opref -> ConverterImpl -> Prop) :
  emitting [id] n K P slot s -> t <> 0 ->
  (forall o s', emits n (Made o id t :: K) (mkPending o code id t [] :: P) slot s' -> Q o s') ->
  runs (on_spirv (allocate_op code id t)) s Q.
Proof.
  intros [A I B C D E (refs & O & env & [X1 X2 X3 X4 X5 X6 X7 X8 X9]) [G1 G2]] Ht HQ.
  unfold on_spirv, allocate_op. apply runs_zoom, runs_bind, runs_gets, runs_bind, runs_modify, runs_ret.
  set (x := Operation_new fresh_words code id t). set (o := length (operation_pool (spirv_module s))).
  set (l := operation_pool (spirv_module s) ++ [x]).
  assert (forall r y, pool s !! r = Some y -> l !! r = Some y) as Hold by (intros r y; apply lookup_app_l_Some).
  assert (l !! o = Some x) as Hnew by (unfold l, o; by rewrite lookup_app_r, Nat.sub_diag).
  assert (forall r y, pool s !! r = Some y -> r <> o) as Hne.
  { intros r y Hr%lookup_lt_Some. unfold pool in Hr. unfold o. lia. }
  apply (HQ o (set_pool l s)). split; try done.
  - exists refs, O, env. split; try done.
    + eapply Forall2_impl; [|exact X2]. intros r i (y & Hy & ?). exists y. split; [by apply Hold|done].
    + intros f [-> |Hf]%elem_of_cons; [by exists x|]. eapply holds_pool; [|by apply X5]. intros r y Hr. exists y. by auto.
    + intros p [-> |Hp]%elem_of_cons; [|eapply awaits_pool; eauto]. exists x.
      destruct (op_wf_new code id t) as [Hwf Hc]. simpl. split_and!; try done.
      by apply X9; left.
    + intros p [-> |Hp]%elem_of_cons; [|by apply X7]. simpl. intros (j & Hr)%list_elem_of_lookup.
      destruct (Forall2_lookup_l _ _ _ _ _ X2 Hr) as (i & _ & y & Hy & _). by destruct (Hne o y).
    + intros y Hy. by apply elem_of_nil in Hy.
  - simpl. split.
    + revert G1. simpl. by rewrite <- Permutation_middle.
    + apply list.NoDup_cons. split; [|done]. intros (p & Ep & Hp)%list_elem_of_fmap.
      destruct (X6 p Hp) as (y & Hy & _). by destruct (Hne _ _ Hy).
Qed.

Definition with_args (p : pending) (args : list Z) : pending :=
  mkPending (p_ref p) (p_code p) (p_id p) (p_type p) args.

(** A pending operation gets more arguments. *)
Lemma runs_modify_pending f args n K P1 p P2 slot s (Q : unit -> ConverterImpl -> Prop) :
  emits n K (P1 ++ p :: P2) slot s ->
  (forall x, op_wf x -> argument_count x = zlength (p_args p) -> (contents x).*1 = p_args p ->
     exists y, f x = Ok y /\ op_wf y /\ (contents y).*1 = p_args p ++ args /\ same_header x y) ->
  (forall s', emits n K (P1 ++ with_args p (p_args p ++ args) :: P2) slot s' -> Q tt s') ->
  runs (modify_op (p_ref p) f) s Q.
Proof.
  intros [A I B C D E (refs & O & env & [X1 X2 X3 X4 X5 X6 X7 X8 X9]) [G1 G2]] Hf HQ.
  assert (p ∈ P1 ++ p :: P2) as Hp by (apply elem_of_app; right; left).
  destruct (X6 p Hp) as (x & Hx & Hwf & Hcode & Hid & Ht & Hargs & Hres & Hnz).
  destruct (Hf x Hwf) as (y & Hy & Hwfy & Hargsy & (Y1 & Y2 & Y3 & Y4)); [|done|].
  { rewrite <- Hargs. unfold zlength. rewrite length_fmap. symmetry. apply zlength_contents, Hwf. }
  unfold modify_op, on_spirv, op_at, update_op.
  apply runs_bind, runs_zoom, runs_bind, runs_gets. eapply runs_deref; [exact Hx|].
  apply runs_bind. eapply runs_lift; [exact Hy|].
  apply runs_zoom, runs_bind, runs_bind, runs_gets. eapply runs_deref; [exact Hx|]. apply runs_modify.
  set (l := <[p_ref p := y]> (operation_pool (spirv_module s))).
  assert (l !! p_ref p = Some y) as Hl by (apply list_lookup_insert_eq; by eapply lookup_lt_Some).
  assert (forall r, r <> p_ref p -> l !! r = pool s !! r) as Hother by (intros r Hr; by apply list_lookup_insert_ne).
  apply (HQ (set_pool l s)).
  rewrite fmap_app in G2. apply list.NoDup_app in G2 as (N1 & N12 & N2). simpl in N2. apply list.NoDup_cons in N2 as [Np N2].
  assert (forall q, q ∈ P1 \/ q ∈ P2 -> p_ref q <> p_ref p) as Hq.
  { intros q [Hq|Hq] Eq.
    - apply (N12 (p_ref q)); [by apply list_elem_of_fmap_2|]. rewrite Eq. left.
    - apply Np. rewrite <- Eq. by apply list_elem_of_fmap_2. }
  split; try done.
  - exists refs, O, env. split; try done.
    + eapply Forall2_impl; [|apply Forall2_same_length_lookup; split; [by eapply Forall2_length|]].
      2:{ intros i r j Hr Hj. exact (conj (list_elem_of_lookup_2 _ _ _ Hr) (Forall2_lookup_lr _ _ _ _ _ _ X2 Hr Hj)). }
      intros r j [Hr (z & Hz & ?)]. exists z. split; [|done]. change (l !! r = Some z).
      rewrite Hother; [done|]. intros ->. by apply (X7 p).
    + intros g Hg. eapply holds_pool; [|by apply X5]. intros r z Hz. destruct (decide (r = p_ref p)) as [->|Hr].
      * exists y. split; [done|]. rewrite Hx in Hz. injection Hz as <-. by rewrite Y2, Y3.
      * exists z. by rewrite Hother.
    + intros q Hin. assert (q = with_args p (p_args p ++ args) \/ q ∈ P1 \/ q ∈ P2) as [-> |Hq'].
      { apply elem_of_app in Hin as [?|[->|?]%elem_of_cons]; auto. }
      * exists y. simpl. rewrite Y1, Y2, Y3. by split_and!.
      * eapply awaits_pool; [|apply X6]; [intros z Hz; rewrite Hother; [done|by apply Hq]|].
        apply elem_of_app. destruct Hq'; [by left|by right; right].
    + intros q Hin. apply elem_of_app in Hin as [?|[->|?]%elem_of_cons]; [apply X7|apply (X7 p Hp)|apply X7];
        apply elem_of_app; [by left|by right; right].
  - rewrite !fmap_app in *. simpl in *. split; [done|]. apply list.NoDup_app. split_and!; [done..|].
    by apply list.NoDup_cons.
Qed.

Lemma runs_arg_id x n K P1 p P2 slot s (Q : unit -> ConverterImpl -> Prop) :
  emits n K (P1 ++ p :: P2) slot s -> x <> 0 -> (length (p_args p) < 100)%nat ->
  (forall s', emits n K (P1 ++ with_args p (p_args p ++ [x]) :: P2) slot s' -> Q tt s') ->
  runs (arg_id (p_ref p) x) s Q.
Proof.
  intros He Hx Hlen HQ. eapply runs_modify_pending; [exact He| |exact HQ]. intros o Hwf Hc Ho.
  destruct (add_id_spec fresh_words fresh_length o x Hwf) as (o' & E & Hwf' & Hc' & Hh); [unfold zlength in Hc; lia|done|].
  exists o'. split_and!; [done|done| |done]. by rewrite Hc', fmap_app, Ho.
Qed.

Lemma runs_arg_literal x n K P1 p P2 slot s (Q : unit -> ConverterImpl -> Prop) :
  emits n K (P1 ++ p :: P2) slot s -> (length (p_args p) < 100)%nat ->
  (forall s', emits n K (P1 ++ with_args p (p_args p ++ [x]) :: P2) slot s' -> Q tt s') ->
  runs (arg_literal (p_ref p) x) s Q.
Proof.
  intros He Hlen HQ. eapply runs_modify_pending; [exact He| |exact HQ]. intros o Hwf Hc Ho.
  destruct (add_argument_spec fresh_words fresh_length o x true Hwf) as (o' & E & Hwf' & Hc' & Hh); [unfold zlength in Hc; lia|].
  exists o'. split_and!; [done|done| |done]. by rewrite Hc', fmap_app, Ho.
Qed.

Lemma runs_arg_ids l n K P1 p P2 slot s (Q : unit -> ConverterImpl -> Prop) :
  emits n K (P1 ++ p :: P2) slot s -> Forall (fun x => x <> 0) l -> (length (p_args p) + length l < 100)%nat ->
  (forall s', emits n K (P1 ++ with_args p (p_args p ++ l) :: P2) slot s' -> Q tt s') ->
  runs (arg_ids (p_ref p) l) s Q.
Proof.
  intros He Hx Hlen HQ. eapply runs_modify_pending; [exact He| |exact HQ]. intros o Hwf Hc Ho.
  pose proof (add_ids_spec fresh_words fresh_length o l Hwf ltac:(unfold zlength in *; lia)) as Hs.
  assert (existsb (Z.eqb 0) l = false) as E.
  { apply not_true_iff_false. intros (x & Hin & E)%existsb_exists. rewrite list.Forall_forall in Hx.
    apply Z.eqb_eq in E. apply (Hx x); [by apply list_elem_of_In|done]. }
  rewrite E in Hs. destruct Hs as (o' & Eo & Hwf' & Hc' & Hh). exists o'. split_and!; [done|done| |done].
  rewrite Hc', fmap_app, Ho. f_equal. rewrite <- list_fmap_compose. simpl. apply list_fmap_id.
Qed.

Definition instruction (p : pending) : Instruction := mkInstruction (p_id p) (p_type p) (p_code p) (p_args p).

(** What an evaluation may use of the facts. *)
Definition knows (b : Builder) (e : Z) (env : environment) (K : list fact) : Prop :=
  forall f, f ∈ K ->
    match f with
    | Val id v => lookup_value b env id = Some v
    | Glob id op ops => exists i, global b id = Some i /\ opCode i = op /\ operands i = ops
    | Ext x => x <> 0 /\ e = x
    | _ => True
    end.

Definition evaluates (K : list fact) (i : Instruction) (v : SpvEval.value) : Prop :=
  forall b e env, knows b e env K -> eval_operation b e env i = Some v.

Lemma exec_ops_snoc b e l i env : exec_ops b e (l ++ [i]) env =
  env' ← exec_ops b e l env; v ← eval_operation b e env' i; Some (<[resultId i := v]> env').
Proof.
  revert env. induction l as [|j l IH]; intros env; [done|]. cbn [app exec_ops].
  destruct (eval_operation b e env j); [apply IH|done].
Qed.

(** The value of an operation does not change the values before. *)
Lemma lookup_value_insert b env id x v r : env !! id = None -> global b id = None ->
  lookup_value b env x = Some v -> lookup_value b (<[id := r]> env) x = Some v.
Proof.
  intros He Hg Hv. unfold lookup_value in *. destruct (decide (x = id)) as [->|Hne].
  - rewrite He in Hv. unfold global_value in Hv. by rewrite Hg in Hv.
  - by rewrite lookup_insert_ne.
Qed.

Lemma not_global b id : (forall i, i ∈ constantsTypesGlobals b -> resultId i <> id) -> global b id = None.
Proof.
  intros Hb. destruct (global b id) as [i|] eqn:E; [|done]. apply global_Some in E as [Hi Ei]. by destruct (Hb i Hi).
Qed.

Definition plain (code : Z) : bool := negb (is_report code) && negb (code =? OpNop).

Lemma runs_push n K P1 p P2 slot s v (Q : unit -> ConverterImpl -> Prop) :
  emits n K (P1 ++ p :: P2) slot s -> plain (p_code p) = true -> evaluates K (instruction p) v ->
  (forall s', emits n (Val (p_id p) v :: K) (P1 ++ P2) slot s' -> Q tt s') ->
  runs (add (p_ref p)) s Q.
Proof.
  intros [A I B C D E (refs & O & env & [X1 X2 X3 X4 X5 X6 X7 X8 X9]) [G1 G2]] Hplain Hev HQ.
  assert (p ∈ P1 ++ p :: P2) as Hp by (apply elem_of_app; right; left).
  destruct (X6 p Hp) as (x & Hx & Hwf & Hcode & Hid & Ht & Hargs & (R1 & R2 & R3 & R4) & Hnz).
  destruct X1 as (nd & nd0 & N0 & N1 & Nops).
  unfold add, add_rov, push_operation, on_nodes, update, CFGNode.node_at. apply runs_bind, runs_gets, runs_bind.
  eapply runs_deref; [exact C|]. apply runs_bind, runs_ret, runs_bind, runs_zoom, runs_bind, runs_bind, runs_gets.
  eapply runs_deref; [exact N1|]. apply runs_modify, runs_ret.
  set (nd' := set_ir _ nd). set (s' := set_node_pool _ s). apply (HQ s').
  assert (op_instructions x = [instruction p]) as Hi.
  { unfold op_instructions, plain in *. rewrite Hcode, Hid, Ht, Hargs. apply andb_true_iff in Hplain as [H1 H2].
    rewrite (negb_true_iff _) in H1. rewrite (negb_true_iff _) in H2. rewrite H1, H2. simpl.
    by rewrite (proj2 (Z.eqb_neq (p_id p) 0)). }
  assert (forall b e, later (bd s) b -> (glsl_std450_ext s <> 0 -> e = glsl_std450_ext s) -> knows b e env K) as Hk.
  { intros b e Hb He f Hf. specialize (X5 f Hf). destruct f; simpl in X5; try done.
    - by apply X5.
    - destruct X5 as (i & Hin & <- & ?). exists i. split; [|done]. apply Hb, global_of; [|done]. apply (rb_wf _ _ _ A).
    - destruct X5 as [Hz <-]. auto. }
  assert (global (bd s) (p_id p) = None) as Hng by (by apply not_global).
  (* a later builder has no such global either, or the facts would not matter *)
  assert (forall b id w, later (bd s) b -> (forall b', later (bd s) b' -> lookup_value b' env id = Some w) ->
            lookup_value b (<[p_id p := v]> env) id = Some w) as Hval.
  { intros b id w Hb Hw. destruct (decide (id = p_id p)) as [->|Hne].
    - specialize (Hw (bd s) (grown_refl _)). unfold lookup_value, global_value in Hw. by rewrite R3, Hng in Hw.
    - specialize (Hw b Hb). unfold lookup_value in *. by rewrite lookup_insert_ne. }
  rewrite !fmap_app in G1. rewrite !fmap_app in G2. simpl in G1, G2.
  assert (forall id, id ∈ slot_ids slot \/ id ∈ (p_id <$> P1 ++ P2) -> id <> p_id p) as Hids.
  { intros id Hin ->. rewrite <- !Permutation_middle in G1. apply list.NoDup_cons in G1 as [G1 _]. apply G1.
    rewrite fmap_app in Hin. rewrite !elem_of_app in *. tauto. }
  assert (forall id, reserved s env id -> id <> p_id p -> reserved s' (<[p_id p := v]> env) id) as Hres.
  { intros id (Y1 & Y2 & Y3 & Y4) Hne. split_and!; try done. by rewrite lookup_insert_ne. }
  split; try done.
  - exists (refs ++ [p_ref p]), (O ++ [instruction p]), (<[p_id p := v]> env). split.
    + exists nd', nd0. split_and!; [done| |simpl; by rewrite Nops, app_assoc].
      simpl. apply list_lookup_insert_eq. by eapply lookup_lt_Some.
    + apply Forall2_app; [done|]. constructor; [|constructor]. by exists x.
    + intros b e Hb He. rewrite exec_ops_snoc, X3 by done. simpl. by rewrite (Hev b e env (Hk b e Hb He)).
    + intros id Hin. destruct (decide (id = p_id p)) as [->|Hne]; [done|]. rewrite lookup_insert_ne in Hin by done. by apply X4.
    + intros f [-> |Hf]%elem_of_cons.
      * split; [done|]. intros b Hb. unfold lookup_value. by rewrite lookup_insert_eq.
      * specialize (X5 f Hf). destruct f; simpl in *; try done. destruct X5 as [Hz Hw]. split; [done|]. intros b Hb. by apply Hval.
    + intros q Hq. destruct (X6 q) as (y & Y1 & Y2 & Y3 & Y4 & Y5 & Y6 & Y7 & Y8).
      { apply elem_of_app in Hq as [?|?]; apply elem_of_app; [by left|by right; right]. }
      exists y. split_and!; try done. apply Hres; [done|]. apply Hids. right. by apply list_elem_of_fmap_2.
    + intros q Hq. apply not_elem_of_app. split; [apply X7; apply elem_of_app in Hq as [?|?]; apply elem_of_app; [by left|by right; right]|].
      intros Eq%list_elem_of_singleton. rewrite <- Permutation_middle in G2. apply list.NoDup_cons in G2 as [G2 _].
      apply G2. rewrite <- Eq, <- fmap_app. by apply list_elem_of_fmap_2.
    + destruct slot as [[id|]|]; [|done..]. destruct X8 as [? X8]. split; [done|]. apply Hres; [done|]. apply Hids. left. simpl. by left.
    + intros id Hin. by apply elem_of_nil in Hin.
  - split; rewrite fmap_app.
    + rewrite <- !Permutation_middle in G1. by apply list.NoDup_cons in G1 as [_ G1].
    + rewrite <- Permutation_middle in G2. by apply list.NoDup_cons in G2 as [_ G2].
Qed.

Lemma runs_id_of o id t R n K P slot s (Q : Z -> ConverterImpl -> Prop) :
  emitting R n K P slot s -> Made o id t ∈ K -> Q id s -> runs (id_of o) s Q.
Proof.
  intros [A I B C D E (refs & O & env & X) _] HK HQ. destruct (b_holds _ _ _ _ _ _ _ _ X _ HK) as (x & Hx & <- & _).
  unfold id_of, on_spirv, op_at. apply runs_bind, runs_zoom, runs_bind, runs_gets. eapply runs_deref; [exact Hx|].
  apply runs_ret. replace (set_spirv_module _ _) with s by (by destruct s). exact HQ.
Qed.

(** ** Facts *)

Section derived.
Context {R : list Z} {n : Z} {K : list fact} {P : list pending} {slot : option (option Z)} {s : ConverterImpl}.
Hypothesis He : emitting R n K P slot s.

Lemma glob_nonzero id op ops : Glob id op ops ∈ K -> id <> 0.
Proof.
  intros Hf. destruct (e_body _ _ _ _ _ _ He) as (refs & O & env & X). destruct (b_holds _ _ _ _ _ _ _ _ X _ Hf) as (i & Hi & <- & _).
  pose proof (rb_globals _ _ _ (e_ready _ _ _ _ _ _ He) i Hi). lia.
Qed.
Lemma val_nonzero id v : Val id v ∈ K -> id <> 0.
Proof. intros Hf. destruct (e_body _ _ _ _ _ _ He) as (refs & O & env & X). apply (b_holds _ _ _ _ _ _ _ _ X _ Hf). Qed.
Lemma ext_nonzero id : Ext id ∈ K -> id <> 0.
Proof. intros Hf. destruct (e_body _ _ _ _ _ _ He) as (refs & O & env & X). apply (b_holds _ _ _ _ _ _ _ _ X _ Hf). Qed.

Lemma emits_fact f : (forall refs O env, body R K P slot s refs O env -> holds s env f) -> emitting R n (f :: K) P slot s.
Proof.
  intros Hf. destruct He as [A I B C D E (refs & O & env & X) G]. split; try done. exists refs, O, env.
  pose proof (Hf refs O env X) as Hh. destruct X. split; try done. intros g [-> |Hg]%elem_of_cons; auto.
Qed.

(** A constant has its value, since no operation of the block has its id. *)
Lemma emits_constant id v : Glob id OpConstant [v] ∈ K -> emitting R n (Val id (VInt v) :: K) P slot s.
Proof.
  intros Hf. apply emits_fact. intros refs O env X. split; [by eapply glob_nonzero|]. intros b Hb.
  destruct (b_holds _ _ _ _ _ _ _ _ X _ Hf) as (i & Hi & Ei & Eop & Eo).
  assert (env !! id = None) as Hn.
  { destruct (env !! id) as [w|] eqn:Ew; [|done]. destruct (b_env _ _ _ _ _ _ _ _ X id) as [_ Hg]; [by eauto|].
    by destruct (Hg i Hi). }
  pose proof (global_of _ _ (rb_wf _ _ _ (e_ready _ _ _ _ _ _ He)) Hi) as Hg. apply Hb in Hg. rewrite Ei in Hg.
  unfold lookup_value, global_value, scalar_global. rewrite Hn, Hg. simpl. by rewrite Eop, Eo.
Qed.
End derived.

Lemma runs_uint_constant v R n K P slot s (Q : Z -> ConverterImpl -> Prop) :
  emitting R n K P slot s -> uniqueId (bd s0) + n + 2 < 2 ^ 32 ->
  (forall id t s', emitting R (n + 2) (Val id (VInt v) :: Glob t OpTypeInt [32; 0] :: K) P slot s' -> Q id s') ->
  runs (on_spv (makeUintConstant v)) s Q.
Proof.
  intros He Hn HQ. eapply (runs_on_spv _ _ _ _ _ _ _ _ _ _ (makes_uint_constant v)); [exact He|done|].
  intros id F s' (t & ->) He'. apply (HQ id t). eapply emits_weaken.
  - eapply (emits_constant He' id v). left.
  - intros f Hf. rewrite !elem_of_cons in *. simpl. rewrite ?elem_of_cons. tauto.
Qed.

Lemma runs_glsl_ext n K P slot s (Q : Z -> ConverterImpl -> Prop) :
  emits n K P slot s -> uniqueId (bd s0) + n + 1 < 2 ^ 32 ->
  (forall e s', emits (n + 1) (Ext e :: K) P slot s' -> Q e s') -> runs glsl_ext s Q.
Proof.
  intros He Hn HQ. unfold glsl_ext. apply runs_bind, runs_gets. destruct (Z.eqb_spec (glsl_std450_ext s) 0) as [E0|E0].
  - assert (forall e b', e <> 0 -> asm k c0 (bd s) 1 [] [] b' -> (forall x, x ∈ importIDCache b' -> x.2 <> 0) ->
      Q e (set_glsl_std450_ext e (set_spirv_module (set_builder b' (spirv_module s)) s))) as Hnext.
    { intros e b' Hz HA HI. pose proof (emits_grows s b' 1 [] HA [] n K P slot HI He) as
        [A I B C D E (refs & O & env & [X1 X2 X3 X4 X5 X6 X7 X8 X9]) G].
      apply HQ. split; try done. exists refs, O, env. split; try done.
      - intros b f Hb Hf. apply X3; [done|]. simpl. rewrite E0. done.
      - intros f [-> |Hf]%elem_of_cons; [done|]. specialize (X5 f Hf). destruct f; try done.
        destruct X5 as [Hz' Hx]. simpl in Hx. congruence. }
    pose proof (e_ready _ _ _ _ _ _ He) as Hr. pose proof (e_ids _ _ _ _ _ _ He) as [? ?].
    apply runs_bind. unfold on_spv, on_spirv, on_builder, import. apply runs_zoom, runs_zoom, runs_bind, runs_gets.
    destruct (list_find _ _) as [[i [x id]]|] eqn:Ef.
    + apply list_find_Some in Ef as (Hi & _ & _). apply list_elem_of_lookup_2 in Hi.
      apply runs_ret, runs_bind, runs_modify, runs_ret, (Hnext id (bd s)).
      * by apply (e_imports _ _ _ _ _ _ He _ Hi).
      * destruct (asm_start _ _ _ Hr). split; try done. lia.
      * apply (e_imports _ _ _ _ _ _ He).
    + unfold getUniqueId. apply runs_bind, runs_bind, runs_gets, runs_bind, runs_modify, runs_ret, runs_bind, runs_modify, runs_ret.
      apply runs_bind, runs_modify, runs_ret. change (builder (spirv_module s)) with (bd s).
      assert (u32 (uniqueId (bd s) + 1) = uniqueId (bd s) + 1) as -> by (unfold u32, wrap; rewrite Z.mod_small; lia).
      apply Hnext; [lia| |].
      * pose proof (asm_new_id (bd s) ltac:(lia) ltac:(lia) Hr) as [A1 A2 A3 AO A4 A5 A6 A7 A8 A9 A10 A11]. split; try done.
        destruct A1 as [W1 W2 W3 W4]. by split.
      * simpl. intros y [Hy|Hy%list_elem_of_singleton]%elem_of_app; [by apply (e_imports _ _ _ _ _ _ He)|]. subst y. simpl. lia.
  - apply runs_ret. apply HQ. destruct He as [A I B C D E (refs & O & env & []) G]. split; try done; [lia|].
    exists refs, O, env. split; try done. intros f [-> |Hf]%elem_of_cons; [done|auto].
Qed.

(** ** Reading LLVM objects *)

Definition has_data (r : vref) (d : ValueData) : Prop := exists v, v_values (llvm s0) !! r = Some v /\ val_data v = d.
Definition int_typed (r : vref) (w : Z) : Prop := exists v t, v_values (llvm s0) !! r = Some v /\ val_type v = Some t /\
  type_heap (v_types (llvm s0)) !! t = Some (IntegerType w).

Lemma read_value r v st : v_values st !! r = Some v -> value_at r st = Ok (v, st).
Proof. intros Hv. unfold value_at. erewrite bindM_run by reflexivity. by rewrite Hv. Qed.
Lemma read_type t x st : type_heap st !! t = Some x -> type_at t st = Ok (x, st).
Proof. intros Hx. unfold type_at. erewrite bindM_run by reflexivity. by rewrite Hx. Qed.
Lemma read_types {A} (m : M TypeState A) a st : m (v_types st) = Ok (a, v_types st) -> on_types m st = Ok (a, st).
Proof. intros Hm. unfold on_types, zoom. rewrite Hm. by destruct st. Qed.

Section reading.
Context {R : list Z} {n : Z} {K : list fact} {P : list pending} {slot : option (option Z)} {s : ConverterImpl}.
Hypothesis He : emitting R n K P slot s.

Lemma runs_llvm {A} (m : M VState A) a (Q : A -> ConverterImpl -> Prop) :
  m (llvm s0) = Ok (a, llvm s0) -> Q a s -> runs (on_llvm m) s Q.
Proof.
  intros Hm HQ. exists a, s. split; [|done]. unfold on_llvm, zoom. rewrite (proj1 (e_llvm _ _ _ _ _ _ He)), Hm.
  f_equal. f_equal. rewrite <- (proj1 (e_llvm _ _ _ _ _ _ He)). by destruct s.
Qed.

Lemma runs_data_of r d (Q : ValueData -> ConverterImpl -> Prop) : has_data r d -> Q d s -> runs (data_of r) s Q.
Proof.
  intros (v & Hv & <-) HQ. unfold data_of, value. apply runs_bind. eapply (runs_llvm _ v).
  - by apply read_value.
  - by apply runs_ret.
Qed.

Lemma runs_is_kind kind r d (Q : bool -> ConverterImpl -> Prop) :
  has_data r d -> Q (bool_decide (get_value_kind d = kind)) s -> runs (is_kind kind r) s Q.
Proof.
  intros (v & Hv & <-) HQ. unfold is_kind, kind_of, value. apply runs_bind, runs_bind. eapply (runs_llvm _ v).
  - by apply read_value.
  - by apply runs_ret, runs_ret.
Qed.

Lemma runs_type_ref_of r w (Q : tyref -> ConverterImpl -> Prop) : int_typed r w ->
  (forall t, type_heap (v_types (llvm s0)) !! t = Some (IntegerType w) -> Q t s) -> runs (type_ref_of r) s Q.
Proof.
  intros (v & t & Hv & Ht & Hh) HQ. unfold type_ref_of. apply runs_bind. eapply (runs_llvm _ (Some t)).
  - unfold Value_getType. erewrite bindM_run by (by apply read_value). by rewrite Ht.
  - eapply runs_deref; [done|]. by apply HQ.
Qed.

Lemma runs_type_object t w (Q : Type_ -> ConverterImpl -> Prop) :
  type_heap (v_types (llvm s0)) !! t = Some (IntegerType w) -> Q (IntegerType w) s -> runs (type_object t) s Q.
Proof.
  intros Ht HQ. unfold type_object. eapply runs_llvm; [|exact HQ].
  by apply read_types, read_type.
Qed.

Lemma runs_type_of r w (Q : Type_ -> ConverterImpl -> Prop) : int_typed r w -> Q (IntegerType w) s -> runs (type_of r) s Q.
Proof. intros Hr HQ. unfold type_of. apply runs_bind. eapply runs_type_ref_of; [exact Hr|]. intros t Ht. by eapply runs_type_object. Qed.

Lemma runs_scalar_type_of r w (Q : Type_ -> ConverterImpl -> Prop) : int_typed r w -> Q (IntegerType w) s ->
  runs (scalar_type_of r) s Q.
Proof.
  intros Hr HQ. unfold scalar_type_of. apply runs_bind. eapply runs_type_ref_of; [exact Hr|]. intros t Ht.
  apply runs_bind. unfold scalar_type_ref. eapply (runs_llvm _ t).
  - apply read_types. unfold Type_getScalarType. by erewrite bindM_run by (by apply read_type).
  - by eapply runs_type_object.
Qed.

Lemma runs_get_operand r i o d (Q : vref -> ConverterImpl -> Prop) :
  has_data r d -> get_value_kind d <> KConstantExpr -> Instruction_getOperand r i (llvm s0) = Ok (Some o, llvm s0) ->
  Q o s -> runs (get_operand r i) s Q.
Proof.
  intros Hr Hd Ho HQ. unfold get_operand. apply runs_bind. eapply runs_data_of; [exact Hr|].
  destruct d; try done; (apply runs_bind; eapply (runs_llvm _ (Some o)); [exact Ho|by eapply runs_deref]).
Qed.

Lemma runs_get_id r id d (Q : Z -> ConverterImpl -> Prop) :
  has_data r d -> get_value_kind d <> KConstantExpr -> Id r id ∈ K -> Q id s -> runs (get_id_for_value r) s Q.
Proof.
  intros Hr Hd Hf HQ. unfold get_id_for_value. apply runs_bind, runs_gets. cbn [value_walk].
  apply runs_bind. eapply runs_data_of; [exact Hr|].
  destruct (e_body _ _ _ _ _ _ He) as (refs & O & env & X). pose proof (b_holds _ _ _ _ _ _ _ _ X _ Hf) as Hm. simpl in Hm.
  destruct d; try done; (apply runs_bind, runs_gets; rewrite Hm; by apply runs_ret).
Qed.
End reading.

Definition physical (w : Z) : Prop := w ∈ [16; 32; 64].

Lemma runs_value_type_id r w R n K P slot s (Q : Z -> ConverterImpl -> Prop) :
  emitting R n K P slot s -> int_typed r w -> physical w -> uniqueId (bd s0) + n + 1 < 2 ^ 32 ->
  (forall t s', emitting R (n + 1) (Glob t OpTypeInt [w; 0] :: K) P slot s' -> Q t s') -> runs (value_type_id r) s Q.
Proof.
  intros He Hr Hw Hn HQ. unfold value_type_id, get_type_id, get_type_id_with. apply runs_bind.
  eapply (runs_type_ref_of He); [exact Hr|]. intros t Ht. apply runs_bind, runs_gets. cbn [type_id_walk].
  apply runs_bind. eapply (runs_type_object He); [exact Ht|]. cbn [Type_getTypeID]. apply runs_bind.
  unfold bit_width. eapply runs_lift; [done|].
  assert ((w =? 1) = false /\ physical_integer_bit_width w = w) as [-> ->].
  { unfold physical in Hw. rewrite !elem_of_cons in Hw. by destruct Hw as [-> |[-> |[-> |[]%elem_of_nil]]]. }
  eapply (runs_on_spv _ _ _ _ _ _ _ _ _ _ (makes_uint_type w)); [exact He|done|]. intros id F s' -> He'. by apply HQ.
Qed.

(** ** Whole operations *)

Lemma runs_allocate_typed code t n K P slot s (Q : opref -> ConverterImpl -> Prop) :
  emits n K P slot s -> t <> 0 -> uniqueId (bd s0) + n + 1 < 2 ^ 32 ->
  (forall o id s', emits (n + 1) (Made o id t :: K) (mkPending o code id t [] :: P) slot s' -> Q o s') ->
  runs (allocate_typed code t) s Q.
Proof.
  intros He Ht Hn HQ. unfold allocate_typed. apply runs_bind, runs_assert; [by apply negb_true_iff, Z.eqb_neq|].
  apply runs_bind. eapply runs_new_id; [exact He|done|]. intros id s' He'.
  eapply runs_allocate_op; [exact He'|done|]. intros o s2 He2. by eapply HQ.
Qed.

(** The id that the instruction has, or its new one. *)
Lemma runs_self_id d o n K P s (Q : Z -> ConverterImpl -> Prop) :
  emits n K P (Some o) s -> has_data self d -> Constant_is_base_of (get_value_kind d) = false ->
  uniqueId (bd s0) + n + 1 < 2 ^ 32 ->
  (forall id s', emitting [id] (n + 1) (Id self id :: K) P None s' -> Q id s') ->
  runs (get_id_for_value self) s Q.
Proof.
  intros He Hd Hk Hn HQ. unfold get_id_for_value. apply runs_bind, runs_gets. cbn [value_walk].
  apply runs_bind. eapply (runs_data_of He); [exact Hd|].
  assert (value_map s !! self = o) as Hmap.
  { destruct (e_body _ _ _ _ _ _ He) as (refs & O & env & X). apply (b_slot _ _ _ _ _ _ _ _ X). }
  assert (runs (m ← gets value_map;
                match m !! self with
                | Some id => mret id
                | None => id ← on_spirv allocate_id; _ ← modify (fun s => set_value_map (<[self := id]> (value_map s)) s); mret id
                end) s Q) as Hgoal.
  { apply runs_bind, runs_gets. rewrite Hmap. destruct o as [id|].
    - apply runs_ret, HQ. destruct He as [A I B C D E (refs & O & env & [X1 X2 X3 X4 X5 X6 X7 [Y1 Y2] X9]) G].
      split; try done; [lia|]. exists refs, O, env. split; try done.
      + intros f [-> |Hf]%elem_of_cons; [done|auto].
      + by intros x ->%list_elem_of_singleton.
    - apply runs_bind. eapply runs_new_id; [exact He|done|].
      intros id s' [A I B C D E (refs & O & env & [X1 X2 X3 X4 X5 X6 X7 [Y1 Y2] X9]) G].
      apply runs_bind, runs_modify, runs_ret, HQ. split; try done. exists refs, O, env. split; try done.
      intros f [-> |Hf]%elem_of_cons; [simpl; by rewrite lookup_insert_eq|]. specialize (X5 f Hf).
      destruct f; try done. simpl in *. rewrite lookup_insert_ne; [done|]. intros <-. by rewrite Y1 in X5. }
  destruct d; try done; exact Hgoal.
Qed.

(** The operation that takes the place of the instruction. *)
Lemma runs_allocate_value code d w o n K P s (Q : opref -> ConverterImpl -> Prop) :
  emits n K P (Some o) s -> has_data self d -> Constant_is_base_of (get_value_kind d) = false ->
  int_typed self w -> physical w -> uniqueId (bd s0) + n + 2 < 2 ^ 32 ->
  (forall r id t s', emits (n + 2) (Made r id t :: Glob t OpTypeInt [w; 0] :: Id self id :: K)
     (mkPending r code id t [] :: P) None s' -> Q r s') ->
  runs (allocate_value get_id_for_value code self) s Q.
Proof.
  intros He Hd Hk Hty Hw Hn HQ. unfold allocate_value, is_cexpr. apply runs_bind.
  eapply (runs_is_kind He); [exact Hd|]. apply runs_bind, runs_assert.
  { apply negb_true_iff, bool_decide_eq_false. by destruct d. }
  apply runs_bind. eapply runs_self_id; [exact He|done|done|lia|]. intros id s1 H1.
  apply runs_bind. eapply runs_value_type_id; [exact H1|done|done|lia|]. intros t s2 H2.
  eapply runs_allocate_op; [exact H2|eapply (glob_nonzero H2); left|]. intros r s3 H3.
  eapply HQ. by replace (n + 2) with (n + 1 + 1) by lia.
Qed.

(** Add the operation and read its id. *)
Lemma runs_push_id n K P1 p P2 slot s v (Q : Z -> ConverterImpl -> Prop) t :
  emits n K (P1 ++ p :: P2) slot s -> Made (p_ref p) (p_id p) t ∈ K -> plain (p_code p) = true ->
  evaluates K (instruction p) v ->
  (forall s', emits n (Val (p_id p) v :: K) (P1 ++ P2) slot s' -> Q (p_id p) s') ->
  runs (_ ← add (p_ref p); id_of (p_ref p)) s Q.
Proof.
  intros He HK Hp Hev HQ. apply runs_bind. eapply runs_push; [exact He|done|done|]. intros s' He'.
  eapply runs_id_of; [exact He'| |by apply HQ]. right. exact HK.
Qed.

(** ** The result *)

(** The node got operations that give the instruction the value [v] from the operands' values. *)
Definition computed (v : SpvEval.value) (s : ConverterImpl) : Prop :=
  exists nd nd0 refs O id env,
    node_pool s0 !! node = Some nd0 /\ node_pool s !! node = Some nd /\
    operations (ir nd) = operations (ir nd0) ++ refs /\
    Forall2 (fun r i => exists x, pool s !! r = Some x /\ op_instructions x = [i]) refs O /\
    value_map s !! self = Some id /\
    exec_ops (bd s) (glsl_std450_ext s) O env0 = Some env /\ lookup_value (bd s) env id = Some v.

Definition computes_value {A} (m : CM A) (a : A) (v : SpvEval.value) : Prop :=
  runs m s0 (fun r s => r = a /\ computed v s).

Lemma emits_result n K P s id v :
  emits n K P None s -> Id self id ∈ K -> Val id v ∈ K -> computed v s.
Proof.
  intros [A0 I B C D E (refs & O & env & [X1 X2 X3 X4 X5 X6 X7 X8 X9]) G] Hi Hv.
  destruct X1 as (nd & nd0 & ? & ? & ?). exists nd, nd0, refs, O, id, env. split_and!; try done.
  - apply (X5 _ Hi).
  - apply X3; [apply grown_refl|done].
  - apply (X5 _ Hv). apply grown_refl.
Qed.

(** Where a translation starts: the operands that [args] names have ids with values. *)
Record ready_to_emit (args : list (vref * Z * SpvEval.value)) : Prop := {
  rt_builder : ready_builder k c0 (bd s0);
  rt_imports : forall x, x ∈ importIDCache (bd s0) -> x.2 <> 0;
  rt_ids : 0 <= uniqueId (bd s0) < 2 ^ 31;
  rt_node : exists nd, node_pool s0 !! node = Some nd;
  rt_current : current_block s0 = Some node;
  rt_env : environment_ok (bd s0) env0;
  rt_args : forall x, x ∈ args -> value_map s0 !! x.1.1 = Some x.1.2 /\ x.1.2 <> 0 /\ env0 !! x.1.2 = Some x.2;
  rt_self : match value_map s0 !! self with Some id => reserved s0 env0 id | None => True end;
}.

Definition argument_facts (args : list (vref * Z * SpvEval.value)) : list fact :=
  args ≫= fun x => [Id x.1.1 x.1.2; Val x.1.2 x.2].

Lemma emits_start args : ready_to_emit args ->
  emits 0 (argument_facts args) [] (Some (value_map s0 !! self)) s0.
Proof.
  intros [A I B (nd & C) D E F G]. split; try done; [lia| |].
  - exists [], [], env0. split; try done.
    + exists nd, nd. by rewrite app_nil_r.
    + intros f (x & Hf & Hx)%list_elem_of_bind. destruct (F x Hx) as (F1 & F2 & F3).
      rewrite !elem_of_cons in Hf. destruct Hf as [-> |[-> |[]%elem_of_nil]]; [done|]. split; [done|].
      intros b _. unfold lookup_value. by rewrite F3.
    + intros p Hp. by apply elem_of_nil in Hp.
    + intros p Hp. by apply elem_of_nil in Hp.
    + intros p Hp. by apply elem_of_nil in Hp.
  - split; [|constructor]. simpl. destruct (value_map s0 !! self); simpl; [apply list.NoDup_singleton|constructor].
Qed.
End logic.
