(* ===== verification/IntrinsicTheorems.v ===== *)
(** What the translations of integer intrinsics compute.

    For every state of the converter and every value of the operands, the operations that
    Arithmetic.v emits give the instruction the value that Direct3D defines, or that its
    documentation describes by bits. *)
From S2P Require Import Prelude.
From S2P Require Import LLVMType.
From S2P Require Import LLVMValue.
From S2P Require Import ModuleContext.
From S2P Require Import IR.
From S2P Require Import CFGNode.
From S2P Require Import SpvBuilder.
From S2P Require Import Instrumentation.
From S2P Require Import SPIRVModule.
From S2P Require Import BuilderView.
From S2P Require Import SpvEval.
From S2P Require Import EmissionSpec.
From S2P Require Import Converter.
From S2P Require Import LLVMBuiltins.
From S2P Require Import Instructions.
From S2P Require Import Arithmetic.
From S2P Require Import OpEval.
From S2P Require Import BuilderMakes.
From S2P Require Import EmitLogic.
From S2P Require Import BDATheorems.
Local Open Scope Z_scope.
Local Open Scope dxil_scope.

(** * Evaluating one operation *)

Ltac mem := solve [simpl; repeat first [eassumption | apply list_elem_of_here | apply list_elem_of_further]].

Section evaluation.
Variables (b : Builder) (e : Z) (env : environment) (K : list fact).
Hypothesis Hk : knows b e env K.

Lemma knows_value id v : Val id v ∈ K -> lookup_value b env id = Some v.
Proof. apply (Hk (Val id v)). Qed.

Lemma knows_int t w s : Glob t OpTypeInt [w; s] ∈ K ->
  width_of b t = Some w /\ vector_of b t = None /\ component_width b t = Some w.
Proof.
  intros (i & Hi & Ho & Hl)%(Hk (Glob t OpTypeInt [w; s])). unfold component_width, width_of, vector_of.
  rewrite Hi. simpl. by rewrite Ho, Hl.
Qed.

Lemma knows_vector t c n w s : Glob t OpTypeVector [c; n] ∈ K -> Glob c OpTypeInt [w; s] ∈ K ->
  vector_of b t = Some (c, n) /\ component_width b t = Some w.
Proof.
  intros (i & Hi & Ho & Hl)%(Hk (Glob t OpTypeVector [c; n])) Hc%knows_int. destruct Hc as (Hc & _).
  unfold component_width, vector_of. rewrite Hi. simpl. rewrite Ho, Hl. simpl. by rewrite Hc.
Qed.
End evaluation.

Section evaluates.
Variables (K : list fact) (id t : Z).

Lemma evaluates_arithmetic code x y w s u v r :
  code ∈ [OpIAdd; OpISub; OpIMul; OpBitwiseAnd; OpBitwiseOr; OpBitwiseXor; OpShiftRightArithmetic] ->
  Glob t OpTypeInt [w; s] ∈ K -> Val x (VInt u) ∈ K -> Val y (VInt v) ∈ K -> arithmetic code w u v = Some r ->
  evaluates K (mkInstruction id t code [x; y]) (VInt r).
Proof.
  intros Hc Ht Hx Hy Hr b e env Hk. destruct (knows_int _ _ _ _ Hk _ _ _ Ht) as (_ & _ & Hw).
  pose proof (knows_value _ _ _ _ Hk _ _ Hx) as Ex. pose proof (knows_value _ _ _ _ Hk _ _ Hy) as Ey.
  assert (eval_operation b e env (mkInstruction id t code [x; y]) = VInt <$> arithmetic code w u v) as ->; [|by rewrite Hr].
  unfold eval_operation, arg. simpl. rewrite Hw, Ex, Ey.
  rewrite !elem_of_cons in Hc. by destruct Hc as [-> |[-> |[-> |[-> |[-> |[-> |[-> |[]%elem_of_nil]]]]]]].
Qed.

Lemma evaluates_ext2 g code x y w s u v r :
  Ext g ∈ K -> Glob t OpTypeInt [w; s] ∈ K -> Val x (VInt u) ∈ K -> Val y (VInt v) ∈ K ->
  ext_binary code w u v = Some r -> evaluates K (mkInstruction id t OpExtInst [g; code; x; y]) (VInt r).
Proof.
  intros Hg Ht Hx Hy Hr b e env Hk. destruct (knows_int _ _ _ _ Hk _ _ _ Ht) as (_ & _ & Hw).
  pose proof (knows_value _ _ _ _ Hk _ _ Hx) as Ex. pose proof (knows_value _ _ _ _ Hk _ _ Hy) as Ey.
  destruct (Hk _ Hg) as [Hz ->]. unfold eval_operation. simpl. rewrite Hw, Ex, Ey. simpl.
  rewrite (proj2 (Z.eqb_neq g 0)), Z.eqb_refl by done. simpl. by rewrite Hr.
Qed.

Lemma evaluates_field code x o c w s u off n r :
  code ∈ [OpBitFieldUExtract; OpBitFieldSExtract] ->
  Glob t OpTypeInt [w; s] ∈ K -> Val x (VInt u) ∈ K -> Val o (VInt off) ∈ K -> Val c (VInt n) ∈ K ->
  (if code =? OpBitFieldUExtract then extract_bits w u off n else extract_signed w u off n) = Some r ->
  evaluates K (mkInstruction id t code [x; o; c]) (VInt r).
Proof.
  intros Hc Ht Hx Ho Hn Hr b e env Hk. destruct (knows_int _ _ _ _ Hk _ _ _ Ht) as (Hw & _ & _).
  pose proof (knows_value _ _ _ _ Hk _ _ Hx) as Ex. pose proof (knows_value _ _ _ _ Hk _ _ Ho) as Eo.
  pose proof (knows_value _ _ _ _ Hk _ _ Hn) as En. unfold eval_operation, int_arg, arg. simpl. rewrite Hw, Ex, Eo, En. simpl.
  rewrite !elem_of_cons in Hc. destruct Hc as [-> |[-> |[]%elem_of_nil]]; simpl in *; by rewrite Hr.
Qed.

Lemma evaluates_insert x y o c w s u v off n r :
  Glob t OpTypeInt [w; s] ∈ K -> Val x (VInt u) ∈ K -> Val y (VInt v) ∈ K -> Val o (VInt off) ∈ K ->
  Val c (VInt n) ∈ K -> insert_bits w u v off n = Some r ->
  evaluates K (mkInstruction id t OpBitFieldInsert [x; y; o; c]) (VInt r).
Proof.
  intros Ht Hx Hy Ho Hn Hr b e env Hk. destruct (knows_int _ _ _ _ Hk _ _ _ Ht) as (Hw & _ & _).
  pose proof (knows_value _ _ _ _ Hk _ _ Hx) as Ex. pose proof (knows_value _ _ _ _ Hk _ _ Hy) as Ey.
  pose proof (knows_value _ _ _ _ Hk _ _ Ho) as Eo. pose proof (knows_value _ _ _ _ Hk _ _ Hn) as En.
  unfold eval_operation, int_arg, arg. simpl. rewrite Hw, Ex, Ey, Eo, En. simpl. by rewrite Hr.
Qed.
End evaluates.

(** * What Direct3D defines *)

(** [ubfe], [ibfe] and [bfi] of the shader model 5 assembly, on 32-bit words. *)
Definition d3d_bfe (right : Z -> Z -> Z) (width offset x : Z) : Z :=
  let width := width mod 32 in
  let offset := offset mod 32 in
  if width =? 0 then 0
  else if width + offset <? 32 then right (wrap 32 (Z.shiftl x (32 - (width + offset)))) (32 - width)
  else right x offset.
Definition shift_right_logical (x n : Z) : Z := Z.shiftr x n.
Definition shift_right_arithmetic (x n : Z) : Z := wrap 32 (Z.shiftr (signed 32 x) n).
Definition d3d_ubfe : Z -> Z -> Z -> Z := d3d_bfe shift_right_logical.
Definition d3d_ibfe : Z -> Z -> Z -> Z := d3d_bfe shift_right_arithmetic.
Definition d3d_bfi (width offset x y : Z) : Z :=
  let width := width mod 32 in
  let offset := offset mod 32 in
  let bitmask := Z.land (Z.shiftl (Z.shiftl 1 width - 1) offset) 0xffffffff in
  Z.lor (Z.land (Z.shiftl x offset) bitmask) (Z.ldiff y bitmask).

Lemma testbit_quotient x i q : 0 <= i -> x / 2 ^ i = q -> Z.testbit x i = Z.odd q.
Proof. intros Hi <-. by rewrite Z.testbit_odd, Z.shiftr_div_pow2. Qed.

Lemma signed_testbit w x i : 0 < w -> 0 <= x < 2 ^ w -> 0 <= i ->
  Z.testbit (signed w x) i = Z.testbit x (Z.min i (w - 1)).
Proof.
  intros Hw Hx Hi. assert (2 * 2 ^ (w - 1) = 2 ^ w) as E by (rewrite <- Z.pow_succ_r by lia; f_equal; lia).
  assert (signed w x = if 2 ^ (w - 1) <=? x then x - 2 ^ w else x) as ->.
  { unfold signed, wrap. by rewrite Z.mod_small. }
  destruct (Z.lt_ge_cases i (w - 1)) as [Hlt|Hge].
  - rewrite Z.min_l by lia. destruct (_ <=? x); [|done].
    rewrite <- (Z.mod_pow2_bits_low (x - 2 ^ w) w) by lia. rewrite <- (Z.mod_pow2_bits_low x w) by lia. f_equal.
    replace (x - 2 ^ w) with (x + (-1) * 2 ^ w) by lia. apply Z.mod_add. lia.
  - rewrite Z.min_r by lia. assert (2 ^ (w - 1) <= 2 ^ i) by (apply Z.pow_le_mono_r; lia).
    destruct (Z.leb_spec (2 ^ (w - 1)) x).
    + rewrite (testbit_quotient _ i (-1)), (testbit_quotient x _ 1); [done|lia| |lia|].
      * symmetry. apply (Z.div_unique_pos _ _ _ (x - 2 ^ (w - 1))); lia.
      * symmetry. apply (Z.div_unique_pos _ _ _ (x - 2 ^ w + 2 ^ i)); lia.
    + rewrite (testbit_quotient _ i 0), (testbit_quotient x _ 0); [done|lia| |lia|]; apply Z.div_small; lia.
Qed.

Lemma testbit_above w x i : 0 <= x < 2 ^ w -> w <= i -> Z.testbit x i = false.
Proof.
  intros Hx Hi. destruct (Z.lt_ge_cases w 0); [rewrite Z.pow_neg_r in Hx; lia|].
  rewrite <- (Z.mod_small x (2 ^ w)) by done. apply Z.mod_pow2_bits_high. lia.
Qed.

Section bit_fields.
Variables (width offset x : Z).
Let w := width mod 32.
Let o := offset mod 32.
Let count := Z.min w (32 - o).
Hypothesis Hx : 0 <= x < 2 ^ 32.

Lemma field_bounds : 0 <= w < 32 /\ 0 <= o < 32.
Proof. split; apply Z.mod_pos_bound; lia. Qed.

Lemma extract_bits_ubfe : extract_bits 32 x o count = Some (d3d_ubfe width offset x).
Proof.
  pose proof field_bounds as [Hw Ho]. unfold extract_bits. rewrite (proj2 (Z.leb_le _ _)) by (unfold count; lia). f_equal.
  unfold d3d_ubfe, d3d_bfe, shift_right_logical, wrap. fold w o. destruct (Z.eqb_spec w 0) as [E|E].
  { unfold count. rewrite E, Z.min_l by lia. apply Z.mod_1_r. }
  apply Z.bits_inj'. intros i Hi. destruct (Z.ltb_spec (w + o) 32) as [Hs|Hs].
  - assert (count = w) as -> by (unfold count; lia). rewrite Z.shiftr_spec by lia. destruct (Z.lt_ge_cases i w).
    + rewrite !Z.mod_pow2_bits_low, Z.shiftl_spec, Z.shiftr_spec by lia. f_equal. lia.
    + by rewrite !Z.mod_pow2_bits_high by lia.
  - assert (count = 32 - o) as -> by (unfold count; lia). destruct (Z.lt_ge_cases i (32 - o)).
    + by rewrite Z.mod_pow2_bits_low by lia.
    + rewrite Z.mod_pow2_bits_high, Z.shiftr_spec by lia. symmetry. apply (testbit_above 32); lia.
Qed.

Lemma extract_signed_ibfe : extract_signed 32 x o count = Some (d3d_ibfe width offset x).
Proof.
  pose proof field_bounds as [Hw Ho]. unfold extract_signed. rewrite (proj2 (Z.leb_le _ _)) by (unfold count; lia). f_equal.
  unfold d3d_ibfe, d3d_bfe, shift_right_arithmetic. fold w o. destruct (Z.eqb_spec w 0) as [E|E].
  { unfold count. by rewrite E, Z.min_l by lia. }
  rewrite (proj2 (Z.eqb_neq count 0)) by (unfold count; lia).
  assert (forall i c, 0 <= i -> 0 < c -> Z.testbit (signed c (Z.shiftr x o mod 2 ^ c)) i = Z.testbit x (Z.min i (c - 1) + o)) as Hf.
  { intros i c Hi Hc. rewrite signed_testbit, Z.mod_pow2_bits_low, Z.shiftr_spec by (try apply Z.mod_pos_bound; lia). done. }
  apply Z.bits_inj'. intros i Hi. destruct (Z.lt_ge_cases i 32) as [Hi'|Hi'].
  2:{ destruct (_ <? _); unfold wrap; by rewrite !Z.mod_pow2_bits_high by lia. }
  destruct (Z.ltb_spec (w + o) 32) as [Hs|Hs]; unfold wrap; rewrite !Z.mod_pow2_bits_low, Hf, Z.shiftr_spec, signed_testbit
    by (try apply Z.mod_pos_bound; unfold count; lia).
  - rewrite Z.mod_pow2_bits_low, Z.shiftl_spec by lia. f_equal. unfold count. lia.
  - f_equal. unfold count. lia.
Qed.

Lemma insert_bits_bfi y : insert_bits 32 y x o count = Some (d3d_bfi width offset x y).
Proof.
  pose proof field_bounds as [Hw Ho]. unfold insert_bits. rewrite (proj2 (Z.leb_le _ _)) by (unfold count; lia). f_equal.
  unfold d3d_bfi. fold w o. rewrite (Z.shiftl_mul_pow2 1), Z.mul_1_l, !Z.sub_1_r, <- !Z.ones_equiv by lia.
  change 0xffffffff with (Z.ones 32).
  assert (Z.shiftl (Z.ones count) o = Z.land (Z.shiftl (Z.ones w) o) (Z.ones 32)) as ->; [|apply Z.lor_comm].
  apply Z.bits_inj'. intros i Hi. rewrite Z.land_spec, !Z.shiftl_spec by lia.
  destruct (Z.lt_ge_cases i o); [by rewrite !(Z.testbit_neg_r _ (i - o)) by lia|].
  rewrite !Z.testbit_ones_nonneg by (unfold count; lia). unfold count. lia.
Qed.
End bit_fields.

(** * Calls of intrinsics *)

(** An operand: the value, its id, its width and what it is at run time. *)
Record operand := mkOperand { o_ref : vref; o_id : Z; o_width : Z; o_value : Z }.

Section calls.
Context `{FreshMemory}.
Hypothesis fresh_length : forall n, length (fresh_words n) = n.
Variables (k : blockref) (c0 : list Instruction) (s0 : ConverterImpl) (node : nodref) (self : vref).
Variable env0 : environment.

Abbreviation emits := (emitting k c0 s0 node self env0 []) (only parsing).
Abbreviation computes := (computes_value s0 node self env0) (only parsing).

(** The call [self] with a result of [w] bits; its operands follow the opcode. *)
Record integer_call (w : Z) (args : list operand) : Prop := {
  ic_data : exists callee, has_data s0 self (CallInst callee);
  ic_type : int_typed s0 self w;
  ic_ready : ready_to_emit k c0 s0 node self env0 ((fun a => (o_ref a, o_id a, VInt (o_value a))) <$> args);
  ic_args : forall i a, args !! i = Some a ->
    Instruction_getOperand self (1 + Z.of_nat i) (llvm s0) = Ok (Some (o_ref a), llvm s0) /\
    int_typed s0 (o_ref a) (o_width a) /\ 0 <= o_value a < 2 ^ o_width a /\
    exists d, has_data s0 (o_ref a) d /\ get_value_kind d <> KConstantExpr;
}.

Section one_call.
Variables (w : Z) (args : list operand).
Hypothesis Hcall : integer_call w args.

Lemma call_start : emits 0 (argument_facts ((fun a => (o_ref a, o_id a, VInt (o_value a))) <$> args)) []
  (Some (value_map s0 !! self)) s0.
Proof. apply emits_start, Hcall. Qed.

Lemma call_ids : 0 <= uniqueId (bd s0) < 2 ^ 31.
Proof. apply (rt_ids _ _ _ _ _ _ _ (ic_ready _ _ Hcall)). Qed.

Lemma runs_call_operand i j a n K P slot s (Q : vref -> ConverterImpl -> Prop) :
  emits n K P slot s -> args !! i = Some a -> j = 1 + Z.of_nat i -> Q (o_ref a) s -> runs (get_operand self j) s Q.
Proof.
  intros He Ha -> HQ. destruct (ic_data _ _ Hcall) as [callee Hd]. destruct (ic_args _ _ Hcall i a Ha) as (Ho & _).
  by eapply (runs_get_operand k c0 s0 node self env0 He); [exact Hd|done|exact Ho|].
Qed.

Lemma runs_call_id i a n K P slot s (Q : Z -> ConverterImpl -> Prop) :
  emits n K P slot s -> args !! i = Some a -> Id (o_ref a) (o_id a) ∈ K -> Q (o_id a) s ->
  runs (get_id_for_value (o_ref a)) s Q.
Proof.
  intros He Ha HK HQ. destruct (ic_args _ _ Hcall i a Ha) as (_ & _ & _ & d & Hd & Hc).
  by eapply (runs_get_id k c0 s0 node self env0 He); [exact Hd|exact Hc|exact HK|].
Qed.

Lemma runs_call_type i a n K P slot s (Q : Z -> ConverterImpl -> Prop) :
  emits n K P slot s -> args !! i = Some a -> physical (o_width a) -> uniqueId (bd s0) + n + 1 < 2 ^ 32 ->
  (forall t s', emits (n + 1) (Glob t OpTypeInt [o_width a; 0] :: K) P slot s' -> Q t s') ->
  runs (value_type_id (o_ref a)) s Q.
Proof.
  intros He Ha Hw Hn HQ. destruct (ic_args _ _ Hcall i a Ha) as (_ & Ht & _).
  eapply (runs_value_type_id k c0 s0 node self env0); [exact He|exact Ht|done|done|exact HQ].
Qed.

Lemma runs_call_value code n K P s (Q : opref -> ConverterImpl -> Prop) o :
  emits n K P (Some o) s -> physical w -> uniqueId (bd s0) + n + 2 < 2 ^ 32 ->
  (forall r id t s', emits (n + 2) (Made r id t :: Glob t OpTypeInt [w; 0] :: Id self id :: K)
     (mkPending r code id t [] :: P) None s' -> Q r s') ->
  runs (allocate_value get_id_for_value code self) s Q.
Proof.
  intros He Hw Hn HQ. destruct (ic_data _ _ Hcall) as [callee Hd].
  eapply (runs_allocate_value fresh_length k c0 s0 node self env0); [exact He|exact Hd|done|apply Hcall|done|done|exact HQ].
Qed.
End one_call.

(** ** Finishing an operation *)

Lemma runs_finish_arg a l p P slot s (Q : Z -> ConverterImpl -> Prop) :
  runs a s (fun x s1 => x <> 0 /\ (length (p_args p) < 100)%nat /\ exists n K, emits n K (p :: P) slot s1 /\
    forall s2, emits n K (with_args p (p_args p ++ [x]) :: P) slot s2 -> runs (finish (p_ref p) l) s2 Q) ->
  runs (finish (p_ref p) (a :: l)) s Q.
Proof.
  intros Ha. unfold finish. cbn [for_eachM]. apply runs_bind, runs_bind, runs_bind.
  eapply runs_mono; [exact Ha|]. intros x s1 (Hx & Hl & n & K & He & Hrest).
  eapply (runs_arg_id fresh_length k c0 s0 node self env0 x n K [] p P); [exact He|done..|]. intros s2 He2.
  apply runs_unbind, Hrest, He2.
Qed.

Lemma runs_finish_nil n K p P slot s v (Q : Z -> ConverterImpl -> Prop) t :
  emits n K (p :: P) slot s -> Made (p_ref p) (p_id p) t ∈ K -> plain (p_code p) = true ->
  evaluates K (instruction p) v ->
  (forall s', emits n (Val (p_id p) v :: K) P slot s' -> Q (p_id p) s') ->
  runs (finish (p_ref p) []) s Q.
Proof.
  intros He HK Hp Hev HQ. unfold finish. cbn [for_eachM]. apply runs_bind, runs_ret.
  eapply (runs_push_id k c0 s0 node self env0 n K [] p P); [exact He|exact HK|done|exact Hev|exact HQ].
Qed.

Lemma runs_finish_ret x v l n K p P slot s (Q : Z -> ConverterImpl -> Prop) :
  emits n K (p :: P) slot s -> Val x v ∈ K -> (length (p_args p) < 100)%nat ->
  (forall s', emits n K (with_args p (p_args p ++ [x]) :: P) slot s' -> runs (finish (p_ref p) l) s' Q) ->
  runs (finish (p_ref p) (mret x :: l)) s Q.
Proof.
  intros He Hx Hl HQ. apply (runs_finish_arg _ _ _ P slot), runs_ret. split; [by eapply (val_nonzero _ _ _ _ _ _ He)|].
  split; [done|]. by exists n, K.
Qed.

Lemma runs_finish_const v l n K p P slot s (Q : Z -> ConverterImpl -> Prop) :
  emits n K (p :: P) slot s -> (length (p_args p) < 100)%nat -> uniqueId (bd s0) + n + 2 < 2 ^ 32 ->
  (forall c s', emits (n + 2) (Val c (VInt v) :: K) (with_args p (p_args p ++ [c]) :: P) slot s' ->
     runs (finish (p_ref p) l) s' Q) ->
  runs (finish (p_ref p) (u32_const v :: l)) s Q.
Proof.
  intros He Hl Hn HQ. apply (runs_finish_arg _ _ _ P slot).
  eapply (runs_uint_constant k c0 s0 node self env0 v); [exact He|lia|]. intros c t s' H1.
  split; [eapply (val_nonzero _ _ _ _ _ _ H1); mem|]. split; [done|]. exists (n + 2), (Val c (VInt v) :: K). split; [|apply HQ].
  eapply emits_weaken; [exact H1|]. intros f [->|Hf]%elem_of_cons; mem.
Qed.

Section finishing_a_call.
Variables (w : Z) (args : list operand).
Hypothesis Hcall : integer_call w args.

Lemma runs_finish_id i a l n K p P slot s (Q : Z -> ConverterImpl -> Prop) :
  emits n K (p :: P) slot s -> args !! i = Some a -> Id (o_ref a) (o_id a) ∈ K ->
  Val (o_id a) (VInt (o_value a)) ∈ K -> (length (p_args p) < 100)%nat ->
  (forall s', emits n K (with_args p (p_args p ++ [o_id a]) :: P) slot s' -> runs (finish (p_ref p) l) s' Q) ->
  runs (finish (p_ref p) (get_id_for_value (o_ref a) :: l)) s Q.
Proof.
  intros He Ha Hi Hv Hl HQ. apply (runs_finish_arg _ _ _ P slot).
  eapply (runs_call_id w args Hcall); [exact He|exact Ha|exact Hi|].
  split; [by eapply (val_nonzero _ _ _ _ _ _ He)|]. split; [done|]. by exists n, K.
Qed.
End finishing_a_call.

Lemma runs_finish_ext opcode l n K p P slot s (Q : Z -> ConverterImpl -> Prop) :
  emits n K (p :: P) slot s -> (length (p_args p) < 99)%nat -> uniqueId (bd s0) + n + 1 < 2 ^ 32 ->
  (forall e s', emits (n + 1) (Ext e :: K) (with_args p (p_args p ++ [e; opcode]) :: P) slot s' ->
     runs (finish (p_ref p) l) s' Q) ->
  runs (finish_ext (p_ref p) opcode l) s Q.
Proof.
  intros He Hl Hn HQ. unfold finish_ext. apply runs_bind.
  apply (runs_glsl_ext k c0 s0 node self env0 _ _ _ _ _ _ He); [done|]. intros e s1 H1. apply runs_bind.
  eapply (runs_arg_id fresh_length k c0 s0 node self env0 e _ _ [] p P); [exact H1|eapply (ext_nonzero _ _ _ _ _ _ H1); mem|lia|].
  intros s2 H2. apply runs_bind.
  eapply (runs_arg_literal fresh_length k c0 s0 node self env0 opcode _ _ [] (with_args p (p_args p ++ [e])) P); [exact H2| |].
  { simpl. rewrite length_app. simpl. lia. }
  intros s3 H3. apply (HQ e). unfold with_args in *. simpl in H3. by rewrite <- app_assoc in H3.
Qed.

(** The 32-bit type. *)
Lemma runs_u32_type n K P slot s (Q : Z -> ConverterImpl -> Prop) :
  emits n K P slot s -> uniqueId (bd s0) + n + 1 < 2 ^ 32 ->
  (forall t s', emits (n + 1) (Glob t OpTypeInt [32; 0] :: K) P slot s' -> Q t s') -> runs u32_type s Q.
Proof.
  intros He Hn HQ. eapply (runs_on_spv k c0 s0 node self env0 _ _ _ _ _ _ _ _ _ _ (makes_uint_type 32)); [exact He|done|].
  intros t F s' -> H1. by apply HQ.
Qed.

(** ** Bit fields *)

Lemma and_31 x : arithmetic OpBitwiseAnd 32 x 31 = Some (x mod 32).
Proof. cbn. f_equal. apply (Z.land_ones x 5). lia. Qed.


Section fields.
Variables (w : Z) (args : list operand).
Hypothesis Hcall : integer_call w args.

Lemma runs_mask_input i a n K P slot s (Q : Z -> ConverterImpl -> Prop) :
  emits n K P slot s -> args !! i = Some a -> o_width a = 32 ->
  Id (o_ref a) (o_id a) ∈ K -> Val (o_id a) (VInt (o_value a)) ∈ K -> uniqueId (bd s0) + n + 4 < 2 ^ 32 ->
  (forall id s', emits (n + 4) (Val id (VInt (o_value a mod 32)) :: K) P slot s' -> Q id s') ->
  runs (mask_input (o_ref a)) s Q.
Proof.
  intros He Ha Hw Hi Hv Hn HQ. unfold mask_input, allocate_like. apply runs_bind, runs_bind.
  eapply (runs_call_type w args Hcall); [exact He|exact Ha|by rewrite Hw; right; left|lia|]. intros t s1 H1. rewrite Hw in H1.
  eapply (runs_allocate_typed fresh_length k c0 s0 node self env0); [exact H1|eapply (glob_nonzero _ _ _ _ _ _ H1); left|lia|].
  intros o id s2 H2. apply (runs_finish_id w args Hcall i a _ _ _ (mkPending o OpBitwiseAnd id t []) _ _ _ _ H2); [done|mem..|simpl; lia|].
  intros s3 H3. apply (runs_finish_const _ _ _ _ _ _ _ _ _ H3); [simpl; lia..|].
  intros c s4 H4. cbn in H4. eapply (runs_finish_nil _ _ _ _ _ _ (VInt (o_value a mod 32)) _ _ H4); [mem|done| |].
  - eapply (evaluates_arithmetic _ _ _ OpBitwiseAnd); [mem..|]. apply and_31.
  - intros s5 H5. apply HQ. replace (n + 4) with (n + 1 + 1 + 2) by lia. eapply emits_weaken; [exact H5|].
    intros f [->|Hf]%elem_of_cons; mem.
Qed.

Lemma runs_clamp_bitfield_width offset width u v n K P slot s (Q : Z -> ConverterImpl -> Prop) :
  emits n K P slot s -> Val offset (VInt u) ∈ K -> Val width (VInt v) ∈ K -> 0 <= u < 32 ->
  uniqueId (bd s0) + n + 7 < 2 ^ 32 ->
  (forall id s', emits (n + 7) (Val id (VInt (Z.min v (32 - u))) :: K) P slot s' -> Q id s') ->
  runs (clamp_bitfield_width offset width) s Q.
Proof.
  intros He Ho Hw Hu Hn HQ. unfold clamp_bitfield_width. apply runs_bind.
  apply (runs_u32_type _ _ _ _ _ _ He); [lia|]. intros t s1 H1. apply runs_bind.
  eapply (runs_allocate_typed fresh_length k c0 s0 node self env0); [exact H1|eapply (glob_nonzero _ _ _ _ _ _ H1); left|lia|].
  intros o id s2 H2. apply runs_bind. apply (runs_finish_const _ _ _ _ (mkPending o OpISub id t []) _ _ _ _ H2); [simpl; lia..|].
  intros c s3 H3. eapply (runs_finish_ret _ _ _ _ _ _ _ _ _ _ H3); [mem|simpl; lia|]. intros s4 H4. cbn in H4.
  eapply (runs_finish_nil _ _ _ _ _ _ (VInt (32 - u)) _ _ H4); [mem|done| |].
  { eapply (evaluates_arithmetic _ _ _ OpISub); [mem..|]. cbn. f_equal. apply Z.mod_small. lia. }
  intros s5 H5. apply runs_bind. apply (runs_u32_type _ _ _ _ _ _ H5); [lia|]. intros t2 s6 H6. apply runs_bind.
  eapply (runs_allocate_typed fresh_length k c0 s0 node self env0); [exact H6|eapply (glob_nonzero _ _ _ _ _ _ H6); left|lia|].
  intros o2 id2 s7 H7. apply (runs_finish_ext _ _ _ _ (mkPending o2 OpExtInst id2 t2 []) _ _ _ _ H7); [simpl; lia..|].
  intros e s8 H8. eapply (runs_finish_ret _ _ _ _ _ _ _ _ _ _ H8); [mem|simpl; lia|].
  intros s9 H9. eapply (runs_finish_ret _ _ _ _ _ _ _ _ _ _ H9); [mem|simpl; lia|]. intros s10 H10. cbn in H10.
  eapply (runs_finish_nil _ _ _ _ _ _ (VInt (Z.min v (32 - u))) _ _ H10); [mem|done| |].
  { eapply (evaluates_ext2 _ _ _ _ GLSLstd450UMin); [mem..|done]. }
  intros s11 H11. apply HQ. replace (n + 7) with (n + 1 + 1 + 2 + 1 + 1 + 1) by lia. eapply emits_weaken; [exact H11|].
  intros f [->|Hf]%elem_of_cons; mem.
Qed.

(** The field that a call selects: operand 1 is the width, operand 2 the offset. *)
Lemma runs_field_of a0 a1 n K P slot s (Q : Z * Z -> ConverterImpl -> Prop) :
  emits n K P slot s -> args !! 0%nat = Some a0 -> args !! 1%nat = Some a1 -> o_width a0 = 32 -> o_width a1 = 32 ->
  (forall f, f ∈ [Id (o_ref a0) (o_id a0); Val (o_id a0) (VInt (o_value a0));
                  Id (o_ref a1) (o_id a1); Val (o_id a1) (VInt (o_value a1))] -> f ∈ K) ->
  uniqueId (bd s0) + n + 15 < 2 ^ 32 ->
  (forall offset width s',
     emits (n + 15) (Val width (VInt (Z.min (o_value a0 mod 32) (32 - o_value a1 mod 32))) ::
                     Val offset (VInt (o_value a1 mod 32)) :: K) P slot s' -> Q (offset, width) s') ->
  runs (field_of self) s Q.
Proof.
  intros He Ha0 Ha1 Hw0 Hw1 HK Hn HQ. unfold field_of. apply runs_bind.
  eapply (runs_call_operand w args Hcall); [exact He|exact Ha0|done|]. apply runs_bind.
  apply (runs_mask_input 0 a0 _ _ _ _ _ _ He); [done..|apply HK; mem|apply HK; mem|lia|]. intros width s1 H1. apply runs_bind.
  eapply (runs_call_operand w args Hcall); [exact H1|exact Ha1|done|]. apply runs_bind.
  apply (runs_mask_input 1 a1 _ _ _ _ _ _ H1); [done..|right; apply HK; mem|right; apply HK; mem|lia|].
  intros offset s2 H2. apply runs_bind.
  eapply (runs_clamp_bitfield_width _ _ (o_value a1 mod 32) (o_value a0 mod 32)); [exact H2|mem|mem|apply Z.mod_pos_bound; lia|lia|].
  intros width' s3 H3. apply runs_ret, HQ. replace (n + 15) with (n + 4 + 4 + 7) by lia.
  eapply emits_weaken; [exact H3|]. intros f [->|[->|Hf]%elem_of_cons]%elem_of_cons; mem.
Qed.
End fields.

(** ** The intrinsics *)

Section results.
Variables (width offset x : operand).

(** The result of the last operation is the value of the call. *)
Lemma computes_last n K p s v (Q : bool -> ConverterImpl -> Prop) :
  emits n K [p] None s -> Id self (p_id p) ∈ K -> plain (p_code p) = true -> evaluates K (instruction p) v ->
  (forall s', computed s0 node self env0 v s' -> Q true s') ->
  runs (_ ← add (p_ref p); mret true) s Q.
Proof.
  intros He Hi Hp Hv HQ. apply runs_bind.
  eapply (runs_push k c0 s0 node self env0 _ _ [] _ []); [exact He|done|exact Hv|]. intros s' H'. apply runs_ret, HQ.
  eapply emits_result; [exact H'|right; exact Hi|left].
Qed.

Lemma bfe_computes code v : integer_call 32 [width; offset; x] -> o_width width = 32 -> o_width offset = 32 ->
  code ∈ [OpBitFieldUExtract; OpBitFieldSExtract] ->
  (forall o c, o = o_value offset mod 32 -> c = Z.min (o_value width mod 32) (32 - o) ->
   (if code =? OpBitFieldUExtract then extract_bits 32 (o_value x) o c else extract_signed 32 (o_value x) o c) = Some v) ->
  computes (emit_bfe_instruction code false self) true (VInt v).
Proof.
  intros Hc Hw Ho Hcode Hv. unfold computes_value, emit_bfe_instruction. apply runs_bind.
  pose proof (call_start _ _ Hc) as H0. pose proof (call_ids _ _ Hc) as Hn.
  apply (runs_field_of _ _ Hc width offset _ _ _ _ _ _ H0); [done..|intros f Hf; simpl; rewrite !elem_of_cons in *; tauto|lia|].
  intros o c s1 H1. apply runs_bind. apply (runs_call_value _ _ Hc code _ _ _ _ _ _ H1); [by right; left|lia|].
  intros r id t s2 H2. apply runs_bind. unfold operand_id. apply runs_bind.
  eapply (runs_call_operand _ _ Hc 2); [exact H2|done|done|].
  eapply (runs_call_id _ _ Hc 2); [exact H2|done|mem|]. apply runs_bind.
  eapply (runs_arg_ids fresh_length k c0 s0 node self env0 _ _ _ [] (mkPending r code id t []) []); [exact H2| |simpl; lia|].
  { repeat constructor; eapply (val_nonzero _ _ _ _ _ _ H2); mem. }
  intros s3 H3. apply (computes_last _ _ _ _ (VInt v) _ H3); [mem| | |done].
  - rewrite !elem_of_cons in Hcode. by destruct Hcode as [-> |[-> |[]%elem_of_nil]].
  - eapply (evaluates_field _ _ _ code _ _ _ 32); [done|mem..|by apply Hv].
Qed.

Lemma bfi_computes y v : integer_call 32 [width; offset; x; y] -> o_width width = 32 -> o_width offset = 32 ->
  (forall o c, o = o_value offset mod 32 -> c = Z.min (o_value width mod 32) (32 - o) ->
   insert_bits 32 (o_value y) (o_value x) o c = Some v) ->
  computes (emit_bfi_instruction false self) true (VInt v).
Proof.
  intros Hc Hw Ho Hv. unfold computes_value, emit_bfi_instruction. apply runs_bind.
  pose proof (call_start _ _ Hc) as H0. pose proof (call_ids _ _ Hc) as Hn.
  apply (runs_field_of _ _ Hc width offset _ _ _ _ _ _ H0); [done..|intros f Hf; simpl; rewrite !elem_of_cons in *; tauto|lia|].
  intros o c s1 H1. apply runs_bind. unfold operand_id. apply runs_bind.
  eapply (runs_call_operand _ _ Hc 2); [exact H1|done|done|]. eapply (runs_call_id _ _ Hc 2); [exact H1|done|mem|].
  apply runs_bind, runs_bind.
  eapply (runs_call_operand _ _ Hc 3); [exact H1|done|done|]. eapply (runs_call_id _ _ Hc 3); [exact H1|done|mem|].
  apply runs_bind. apply (runs_call_value _ _ Hc OpBitFieldInsert _ _ _ _ _ _ H1); [by right; left|lia|].
  intros r id t s2 H2. apply runs_bind.
  eapply (runs_arg_ids fresh_length k c0 s0 node self env0 _ _ _ [] (mkPending r OpBitFieldInsert id t []) []); [exact H2| |simpl; lia|].
  { repeat constructor; eapply (val_nonzero _ _ _ _ _ _ H2); mem. }
  intros s3 H3. apply (computes_last _ _ _ _ (VInt v) _ H3); [mem|done| |done].
  eapply (evaluates_insert _ _ _ _ _ _ _ 32); [mem..|by apply Hv].
Qed.
End results.

(** C18. [ubfe] and [ibfe] compute what Direct3D defines for every word, width and offset: the
    width and the offset are taken modulo 32, a field that reaches over the end of the word is cut
    off there, and a field without bits is zero.  SPIR-V leaves these cases undefined for the
    operations that the translation uses. *)
Theorem bit_field_extract_correct (width offset x : operand) :
  integer_call 32 [width; offset; x] ->
  o_width width = 32 -> o_width offset = 32 -> o_width x = 32 ->
  computes (emit_bfe_instruction OpBitFieldUExtract false self) true
    (VInt (d3d_ubfe (o_value width) (o_value offset) (o_value x))) /\
  computes (emit_bfe_instruction OpBitFieldSExtract false self) true
    (VInt (d3d_ibfe (o_value width) (o_value offset) (o_value x))).
Proof.
  intros Hc Hw Ho Hx. destruct (ic_args _ _ Hc 2 x eq_refl) as (_ & _ & Hr & _). rewrite Hx in Hr.
  split; eapply bfe_computes; eauto; [by left|intros ? ? -> ->; by apply extract_bits_ubfe|
    by right; left|intros ? ? -> ->; by apply extract_signed_ibfe].
Qed.

(** C19. [bfi] computes what Direct3D defines for all words, widths and offsets. *)
Theorem bit_field_insert_correct (width offset x y : operand) :
  integer_call 32 [width; offset; x; y] -> o_width width = 32 -> o_width offset = 32 ->
  computes (emit_bfi_instruction false self) true
    (VInt (d3d_bfi (o_value width) (o_value offset) (o_value x) (o_value y))).
Proof.
  intros Hc Hw Ho. eapply bfi_computes; eauto. intros ? ? -> ->. apply insert_bits_bfi.
Qed.
End calls.

(** * A sample *)

(** A call with four operands of [w] bits, arguments of the function. *)
Definition sample_llvm (w : Z) : VState :=
  mkV (mkTypes [IntegerType 32; IntegerType w] [0%nat; 1%nat])
    (mkValue (Some 0%nat) (CallInst 5%nat) 0 [None; Some 1%nat; Some 2%nat; Some 3%nat; Some 4%nat] false ∅ ::
     ((fun i => mkValue (Some 1%nat) (Argument i) 0 [] false ∅) <$> [0; 1; 2; 3])) [].

#[local] Instance memory : FreshMemory := fun n => replicate n 0.
Lemma memory_length n : length (fresh_words n) = n.
Proof. apply length_replicate. Qed.

(** The ids from 11 to 14 are those of the arguments. *)
Definition sample_ids : Builder := Eval vm_compute in set_uniqueId 14 sample_builder.
Definition sample_converter (w : Z) : ConverterImpl :=
  set_current_block (Some 0%nat) (set_node_pool [CFGNode_new]
    (set_value_map {[1%nat := 11; 2%nat := 12; 3%nat := 13; 4%nat := 14]}
      (ConverterImpl_new (sample_llvm w) (ModuleContext.mkModule [] [] ∅ ∅ [])
         (set_builder sample_ids SPIRVModule_new) Options_new ExecutionModeMeta_new))).
Definition sample_operands (w : Z) (l : list Z) : list operand :=
  imap (fun i v => mkOperand (S i) (11 + Z.of_nat i) w v) l.
Definition sample_environment (l : list Z) : environment :=
  list_to_map (imap (fun i v => (11 + Z.of_nat i, VInt v)) l).

Lemma sample_environment_ok l : (length l <= 4)%nat -> environment_ok sample_ids (sample_environment l).
Proof.
  intros Hl id [v Hv%elem_of_list_to_map_2]. apply elem_of_lookup_imap in Hv as (i & x & [= -> ->] & Hi%lookup_lt_Some).
  change (uniqueId sample_ids) with 14. split; [lia|]. intros j Hj.
  assert (ids_given 10 (constantsTypesGlobals sample_ids)) as Hg by (by apply ids_given_by_computation; vm_compute).
  specialize (Hg j Hj). lia.
Qed.

Lemma sample_value l i v : l !! i = Some v -> sample_environment l !! (11 + Z.of_nat i) = Some (VInt v).
Proof.
  intros Hi. apply elem_of_list_to_map_1.
  - rewrite fmap_imap. apply list.NoDup_alt. intros a b x Ha Hb. rewrite !list_lookup_imap in *.
    destruct (l !! a), (l !! b); try done. simpl in *. simplify_eq. lia.
  - apply elem_of_lookup_imap. by exists i, v.
Qed.

Lemma sample_call w l : (length l <= 4)%nat -> Forall (fun v => 0 <= v < 2 ^ w) l ->
  integer_call 0 [label 7] (sample_converter w) 0 0 (sample_environment l) 32 (sample_operands w l).
Proof.
  intros Hl Hr. assert (forall i a, sample_operands w l !! i = Some a ->
    exists v, l !! i = Some v /\ (i < 4)%nat /\ a = mkOperand (S i) (11 + Z.of_nat i) w v) as Ha.
  { intros i a Hi. unfold sample_operands in Hi. rewrite list_lookup_imap in Hi. destruct (l !! i) as [v|] eqn:E; [|done].
    injection Hi as <-. exists v. split_and!; [done| |done]. apply lookup_lt_Some in E. lia. }
  split.
  - by eexists 5%nat, _.
  - by eexists _, 0%nat.
  - split; try done.
    + split; [by apply wf_by_computation; vm_compute|done|done|by apply ids_given_by_computation; vm_compute].
    + intros x []%elem_of_nil.
    + by exists CFGNode_new.
    + by apply sample_environment_ok.
    + intros x (a & -> & (i & Hi)%list_elem_of_lookup)%list_elem_of_fmap. destruct (Ha i a Hi) as (v & Hv & Hi4 & ->).
      split_and!; [|simpl; lia|by apply sample_value]. simpl. by do 4 (destruct i as [|i]; [done|]); lia.
  - intros i a Hi. destruct (Ha i a Hi) as (v & Hv & Hi4 & ->). split_and!.
    + by do 4 (destruct i as [|i]; [done|]); lia.
    + by do 4 (destruct i as [|i]; [eexists _, 1%nat; done|]); lia.
    + rewrite list.Forall_forall in Hr. apply Hr. by eapply list_elem_of_lookup_2.
    + rewrite list.Forall_forall in Hr. apply Hr. by eapply list_elem_of_lookup_2.
    + exists (Argument (Z.of_nat i)). split; [|done]. by do 4 (destruct i as [|i]; [eexists; done|]); lia.
Qed.

(** A field of 12 bits from bit 24 on. *)
Lemma bit_field_extract_correct_witness :
  computes_value (sample_converter 32) 0 0 (sample_environment [12; 24; 0x9abcdef0])
    (emit_bfe_instruction OpBitFieldUExtract false 0) true (VInt 0x9a) /\
  computes_value (sample_converter 32) 0 0 (sample_environment [12; 24; 0x9abcdef0])
    (emit_bfe_instruction OpBitFieldSExtract false 0) true (VInt 0xffffff9a).
Proof.
  apply (bit_field_extract_correct memory_length 0 [label 7] (sample_converter 32) 0 0 (sample_environment [12; 24; 0x9abcdef0])
    (mkOperand 1 11 32 12) (mkOperand 2 12 32 24) (mkOperand 3 13 32 0x9abcdef0)); [|done..].
  apply (sample_call 32 [12; 24; 0x9abcdef0]); [simpl; lia|repeat constructor; lia].
Defined.

Lemma bit_field_insert_correct_witness :
  computes_value (sample_converter 32) 0 0 (sample_environment [4; 40; 0x5; 0x12345678])
    (emit_bfi_instruction false 0) true (VInt 0x12345578).
Proof.
  apply (bit_field_insert_correct memory_length 0 [label 7] (sample_converter 32) 0 0 (sample_environment [4; 40; 0x5; 0x12345678])
    (mkOperand 1 11 32 4) (mkOperand 2 12 32 40) (mkOperand 3 13 32 0x5) (mkOperand 4 14 32 0x12345678)); [|done..].
  apply (sample_call 32 [4; 40; 0x5; 0x12345678]); [simpl; lia|repeat constructor; lia].
Defined.
