(* ===== verification/BitScanTheorems.v ===== *)
(** What the searches for the first set bit compute.

    SPIR-V only has these searches for 32-bit numbers; a 64-bit search is made of the searches in
    the halves.  Direct3D counts from the high end and gives -1 for a number without set bits. *)
From S2P Require Import Prelude.
From S2P Require Import LLVMType.
From S2P Require Import LLVMValue.
From S2P Require Import IR.
From S2P Require Import SpvBuilder.
From S2P Require Import Instrumentation.
From S2P Require Import SPIRVModule.
From S2P Require Import BuilderView.
From S2P Require Import SpvEval.
From S2P Require Import EmissionSpec.
From S2P Require Import Converter.
From S2P Require Import LLVMBuiltins.
From S2P Require Import Instructions.
From S2P Require Import Arithmetic.
From S2P Require Import OpEval.
From S2P Require Import BuilderMakes.
From S2P Require Import EmitLogic.
From S2P Require Import BDATheorems.
From S2P Require Import IntrinsicTheorems.
Local Open Scope Z_scope.
Local Open Scope dxil_scope.

(** * Searches in halves *)

(** [r] is the lowest set bit of [x] below [w]. *)
Definition lowest (w x r : Z) : Prop :=
  0 <= r < w /\ Z.testbit x r = true /\ forall j, 0 <= j < r -> Z.testbit x j = false.

Lemma find_lsb_lowest w x r : lowest w x r -> find_lsb w x = r.
Proof.
  intros (Hr & Hb & Hlow). unfold find_lsb.
  assert (list_find (fun i => Z.testbit x i = true) (seqZ 0 w) = Some (Z.to_nat r, r)) as ->; [|done].
  apply list_find_Some. split_and!; [|done|].
  - apply lookup_seqZ. lia.
  - intros i y [-> Hi]%lookup_seqZ Hlt. rewrite Hlow by lia. done.
Qed.

Lemma find_lsb_none w x : (forall j, 0 <= j < w -> Z.testbit x j = false) -> find_lsb w x = minus_one.
Proof.
  intros Hx. unfold find_lsb. rewrite (proj2 (list_find_None _ _)); [done|]. apply list.Forall_forall.
  intros j Hj%elem_of_seqZ. rewrite Hx by lia. done.
Qed.

Lemma find_lsb_cases w x : 0 <= w ->
  (exists r, lowest w x r /\ find_lsb w x = r) \/ ((forall j, 0 <= j < w -> Z.testbit x j = false) /\ find_lsb w x = minus_one).
Proof.
  intros Hw. destruct (list_find (fun i => Z.testbit x i = true) (seqZ 0 w)) as [[i r]|] eqn:E.
  - left. apply list_find_Some in E as ([-> Hi]%lookup_seqZ & Hb & Hlow).
    assert (lowest w x (0 + Z.of_nat i)) as Hl.
    { split_and!; [lia|lia|done|]. intros j Hj. apply not_true_iff_false. apply (Hlow (Z.to_nat j)); [apply lookup_seqZ|]; lia. }
    eexists. split; [exact Hl|]. by apply find_lsb_lowest.
  - right. apply list_find_None in E. rewrite list.Forall_forall in E.
    assert (forall j, 0 <= j < w -> Z.testbit x j = false) as Hx.
    { intros j Hj. apply not_true_iff_false, E, elem_of_seqZ. lia. }
    split; [done|]. by apply find_lsb_none.
Qed.

Section halves.
Variable x : Z.
Hypothesis Hx : 0 <= x < 2 ^ 64.
Let lo := x mod 2 ^ 32.
Let hi := Z.shiftr x 32 mod 2 ^ 32.

Lemma halves_bounds : 0 <= lo < 2 ^ 32 /\ 0 <= hi < 2 ^ 32 /\ x = lo + 2 ^ 32 * hi.
Proof.
  unfold lo, hi. rewrite Z.shiftr_div_pow2 by lia.
  rewrite (Z.mod_small (x / 2 ^ 32)) by (split; [apply Z.div_pos; lia|apply Z.div_lt_upper_bound; lia]).
  pose proof (Z.div_mod x (2 ^ 32) ltac:(lia)). pose proof (Z.mod_pos_bound x (2 ^ 32) ltac:(lia)). split_and!; try lia.
Qed.

Lemma testbit_lo j : 0 <= j < 32 -> Z.testbit lo j = Z.testbit x j.
Proof. intros Hj. apply Z.mod_pow2_bits_low. lia. Qed.
Lemma testbit_hi j : 0 <= j < 32 -> Z.testbit hi j = Z.testbit x (j + 32).
Proof. intros Hj. unfold hi. by rewrite Z.mod_pow2_bits_low, Z.shiftr_spec by lia. Qed.

Lemma or_32 r : 0 <= r < 32 -> Z.lor r 32 = r + 32.
Proof.
  intros Hr. rewrite (Z.add_nocarry_lxor r 32), Z.lxor_lor; [done|..];
    (apply Z.bits_inj'; intros i Hi; rewrite Z.land_spec, Z.bits_0, (Z.pow2_bits_eqb 5) by lia;
     destruct (Z.eqb_spec 5 i) as [<-|]; [|by rewrite andb_false_r]; by rewrite (testbit_above 5 r)).
Qed.

Lemma low_of_halves : Z.min (find_lsb 32 lo) (Z.lor (find_lsb 32 hi) 32) = find_lsb 64 x.
Proof.
  destruct (find_lsb_cases 32 lo) as [(r & (Hr & Hb & Hlow) & ->)|[Hlo ->]]; [lia| |];
    destruct (find_lsb_cases 32 hi) as [(q & (Hq & Hc & Hlow') & ->)|[Hhi ->]]; try lia.
  - rewrite or_32, Z.min_l by lia. symmetry. apply find_lsb_lowest. split; [lia|]. rewrite <- testbit_lo by lia. split; [done|].
    intros j Hj. rewrite <- testbit_lo by lia. apply Hlow; lia.
  - change (Z.lor minus_one 32) with minus_one. rewrite Z.min_l by (unfold minus_one; lia). symmetry.
    apply find_lsb_lowest. split; [lia|]. rewrite <- testbit_lo by lia. split; [done|].
    intros j Hj. rewrite <- testbit_lo by lia. apply Hlow; lia.
  - rewrite or_32, Z.min_r by (unfold minus_one; lia). symmetry. apply find_lsb_lowest. split; [lia|].
    rewrite <- testbit_hi by lia. split; [done|]. intros j Hj. destruct (Z.lt_ge_cases j 32).
    + rewrite <- testbit_lo by lia. apply Hlo; lia.
    + replace j with (j - 32 + 32) by lia. rewrite <- testbit_hi by lia. apply Hlow'. lia.
  - change (Z.lor minus_one 32) with minus_one. rewrite Z.min_l by lia. symmetry. apply find_lsb_none. intros j Hj.
    destruct (Z.lt_ge_cases j 32).
    + rewrite <- testbit_lo by lia. apply Hlo; lia.
    + replace j with (j - 32 + 32) by lia. rewrite <- testbit_hi by lia. apply Hhi. lia.
Qed.

Lemma find_umsb_range v : 0 <= v < 2 ^ 32 -> find_umsb v = minus_one /\ v = 0 \/ 0 <= find_umsb v < 32 /\ 0 < v.
Proof.
  intros Hv. unfold find_umsb. destruct (Z.eqb_spec v 0); [by left|]. right.
  pose proof (Z.log2_nonneg v). pose proof (proj1 (Z.log2_lt_pow2 v 32 ltac:(lia)) (proj2 Hv)). lia.
Qed.

Lemma high_of_halves : ext_binary GLSLstd450SMax 32 (find_umsb lo) (Z.lor (find_umsb hi) 32) = Some (find_umsb x).
Proof.
  pose proof halves_bounds as (Hlo & Hhi & Hsum).
  assert (forall v, 0 <= v < 64 -> signed 32 v = v) as Hsmall.
  { intros v Hv. unfold signed, wrap. rewrite Z.mod_small by lia. by rewrite (proj2 (Z.leb_gt _ _)) by lia. }
  unfold ext_binary. change (GLSLstd450SMax =? GLSLstd450UMin) with false. change (GLSLstd450SMax =? GLSLstd450SMax) with true.
  cbv iota. f_equal.
  destruct (find_umsb_range hi Hhi) as [[E0 E]|[Hr Hp]].
  - rewrite E0. change (Z.lor minus_one 32) with minus_one. change (signed 32 minus_one) with (-1).
    assert (find_umsb x = find_umsb lo) as -> by (f_equal; lia). destruct (find_umsb_range lo Hlo) as [[-> _]|[Hr _]]; [done|].
    rewrite Hsmall, Z.max_l by lia. apply Z.mod_small. lia.
  - rewrite or_32 by done. assert (find_umsb x = find_umsb hi + 32) as Ex.
    { unfold find_umsb. rewrite !(proj2 (Z.eqb_neq _ _)) by lia. apply Z.log2_unique.
      - pose proof (Z.log2_nonneg hi). lia.
      - pose proof (Z.log2_spec hi Hp) as [H1 H2]. pose proof (Z.log2_nonneg hi).
        rewrite <- Z.add_succ_l, !Z.pow_add_r by lia. nia. }
    rewrite Ex, (Hsmall (_ + 32)) by lia. rewrite Z.max_r; [apply Z.mod_small; lia|].
    destruct (find_umsb_range lo Hlo) as [[-> _]|[Hr' _]]; [change (signed 32 minus_one) with (-1); lia|rewrite Hsmall by lia; lia].
Qed.
End halves.

(** The sign folded into both halves: a negative number becomes its complement. *)
Definition fold (x : Z) : Z := if x <? 2 ^ 63 then x else 2 ^ 64 - 1 - x.
Definition sign_word (hi : Z) : Z := wrap 32 (Z.shiftr (signed 32 hi) 31).

Lemma xor_ones v : 0 <= v < 2 ^ 32 -> Z.lxor v minus_one = 2 ^ 32 - 1 - v.
Proof.
  intros Hv. change minus_one with (Z.ones 32). change (2 ^ 32 - 1) with (Z.ones 32).
  assert (Z.log2 v < 32) by (destruct (Z.eq_dec v 0) as [->|]; [done|apply Z.log2_lt_pow2; lia]).
  rewrite <- Z.ldiff_ones_l_low by lia. symmetry. apply Z.sub_nocarry_ldiff, Z.ldiff_ones_r_low; lia.
Qed.

Section fold.
Variable x : Z.
Hypothesis Hx : 0 <= x < 2 ^ 64.
Let lo := x mod 2 ^ 32.
Let hi := Z.shiftr x 32 mod 2 ^ 32.

Lemma sign_word_cases : sign_word hi = if x <? 2 ^ 63 then 0 else minus_one.
Proof.
  pose proof (halves_bounds x Hx) as (Hlo & Hhi & Hsum). fold lo hi in Hlo, Hhi, Hsum.
  assert (wrap 32 hi = hi) as Hw by (apply Z.mod_small; lia).
  unfold sign_word, signed. rewrite Hw. change (2 ^ (32 - 1)) with (2 ^ 31).
  destruct (Z.leb_spec (2 ^ 31) hi); destruct (Z.ltb_spec x (2 ^ 63)); try lia; rewrite Z.shiftr_div_pow2 by lia.
  - replace ((hi - 2 ^ 32) / 2 ^ 31) with (-1); [done|]. apply (Z.div_unique_pos _ _ _ (hi - 2 ^ 31)); lia.
  - rewrite Z.div_small by lia. done.
Qed.

Lemma fold_bounds : 0 <= fold x < 2 ^ 64.
Proof. unfold fold. destruct (_ <? _); lia. Qed.

Lemma fold_halves :
  Z.lxor lo (sign_word hi) = fold x mod 2 ^ 32 /\ Z.lxor hi (sign_word hi) = Z.shiftr (fold x) 32 mod 2 ^ 32.
Proof.
  pose proof (halves_bounds x Hx) as (Hlo & Hhi & Hsum). fold lo hi in Hlo, Hhi, Hsum.
  rewrite sign_word_cases. unfold fold. destruct (_ <? _); [by rewrite !Z.lxor_0_r|].
  rewrite !xor_ones, Z.shiftr_div_pow2 by lia. split.
  - apply (Z.mod_unique_pos _ _ (2 ^ 32 - 1 - hi)); lia.
  - rewrite Z.mod_small; [apply (Z.div_unique_pos _ _ _ (2 ^ 32 - 1 - lo)); lia|].
    split; [apply Z.div_pos; lia|apply Z.div_lt_upper_bound; lia].
Qed.

Lemma find_smsb_fold : find_smsb 64 x = find_umsb (fold x).
Proof. done. Qed.
End fold.

(** * Operations on words and pairs of words *)

Section evaluates.
Variables (K : list fact) (id t : Z).

Lemma evaluates_ext1 g code x w s u r :
  Ext g ∈ K -> Glob t OpTypeInt [w; s] ∈ K -> Val x (VInt u) ∈ K -> ext_unary code w u = Some r ->
  evaluates K (mkInstruction id t OpExtInst [g; code; x]) (VInt r).
Proof.
  intros Hg Ht Hx Hr b e env Hk. destruct (knows_int _ _ _ _ Hk _ _ _ Ht) as (_ & _ & Hw).
  pose proof (knows_value _ _ _ _ Hk _ _ Hx) as Ex. destruct (Hk _ Hg) as [Hz ->].
  unfold eval_operation. simpl. rewrite Hw, Ex. simpl. rewrite (proj2 (Z.eqb_neq g 0)), Z.eqb_refl by done. simpl. by rewrite Hr.
Qed.

Section pair.
Variables (c n w s : Z).
Hypothesis Ht : Glob t OpTypeVector [c; n] ∈ K.
Hypothesis Hc : Glob c OpTypeInt [w; s] ∈ K.

Lemma evaluates_ext1_pair g code x u v r q :
  Ext g ∈ K -> Val x (VComposite [VInt u; VInt v]) ∈ K -> ext_unary code w u = Some r -> ext_unary code w v = Some q ->
  evaluates K (mkInstruction id t OpExtInst [g; code; x]) (VComposite [VInt r; VInt q]).
Proof.
  intros Hg Hx Hr Hq b e env Hk. destruct (knows_vector _ _ _ _ Hk _ _ _ _ _ Ht Hc) as (_ & Hw).
  pose proof (knows_value _ _ _ _ Hk _ _ Hx) as Ex. destruct (Hk _ Hg) as [Hz ->].
  unfold eval_operation. simpl. rewrite Hw, Ex. simpl. rewrite (proj2 (Z.eqb_neq g 0)), Z.eqb_refl by done. simpl. by rewrite Hr, Hq.
Qed.

Lemma evaluates_xor_pair x y u v u' v' :
  Val x (VComposite [VInt u; VInt v]) ∈ K -> Val y (VComposite [VInt u'; VInt v']) ∈ K ->
  evaluates K (mkInstruction id t OpBitwiseXor [x; y]) (VComposite [VInt (Z.lxor u u'); VInt (Z.lxor v v')]).
Proof.
  intros Hx Hy b e env Hk. destruct (knows_vector _ _ _ _ Hk _ _ _ _ _ Ht Hc) as (_ & Hw).
  pose proof (knows_value _ _ _ _ Hk _ _ Hx) as Ex. pose proof (knows_value _ _ _ _ Hk _ _ Hy) as Ey.
  unfold eval_operation, arg. simpl. by rewrite Hw, Ex, Ey.
Qed.

Lemma evaluates_split x u : n = 2 -> Val x (VInt u) ∈ K ->
  evaluates K (mkInstruction id t OpBitcast [x]) (VComposite [VInt (Z.shiftr u 0 mod 2 ^ w); VInt (Z.shiftr u w mod 2 ^ w)]).
Proof.
  intros -> Hx b e env Hk. destruct (knows_vector _ _ _ _ Hk _ _ _ _ _ Ht Hc) as (Hv & _).
  destruct (knows_int _ _ _ _ Hk _ _ _ Hc) as (Hw & _ & _).
  pose proof (knows_value _ _ _ _ Hk _ _ Hx) as Ex. unfold eval_operation, arg. simpl. rewrite Ex. simpl.
  unfold bitcast_value. rewrite Hv, Hw. unfold pieces. simpl. by rewrite Z.mul_0_r, Z.mul_1_r.
Qed.
End pair.

Lemma evaluates_member x l k v : Val x (VComposite l) ∈ K -> l !! Z.to_nat k = Some v -> 0 <= k ->
  evaluates K (mkInstruction id t OpCompositeExtract [x; k]) v.
Proof.
  intros Hx Hl Hk0 b e env Hk. pose proof (knows_value _ _ _ _ Hk _ _ Hx) as Ex.
  unfold eval_operation, arg. simpl. rewrite Ex. simpl. by rewrite (proj2 (Z.leb_le 0 k)).
Qed.

Lemma evaluates_pair x y u v : Val x u ∈ K -> Val y v ∈ K ->
  evaluates K (mkInstruction id t OpCompositeConstruct [x; y]) (VComposite [u; v]).
Proof.
  intros Hx Hy b e env Hk. pose proof (knows_value _ _ _ _ Hk _ _ Hx) as Ex. pose proof (knows_value _ _ _ _ Hk _ _ Hy) as Ey.
  unfold eval_operation. simpl. by rewrite Ex, Ey.
Qed.

Lemma evaluates_equal x y u v : Val x (VInt u) ∈ K -> Val y (VInt v) ∈ K ->
  evaluates K (mkInstruction id t OpIEqual [x; y]) (VBool (u =? v)).
Proof.
  intros Hx Hy b e env Hk. pose proof (knows_value _ _ _ _ Hk _ _ Hx) as Ex. pose proof (knows_value _ _ _ _ Hk _ _ Hy) as Ey.
  unfold eval_operation, arg. simpl. by rewrite Ex, Ey.
Qed.

Lemma evaluates_choice c x y b0 u v : Val c (VBool b0) ∈ K -> Val x u ∈ K -> Val y v ∈ K ->
  evaluates K (mkInstruction id t OpSelect [c; x; y]) (if b0 then u else v).
Proof.
  intros Hc Hx Hy b e env Hk. pose proof (knows_value _ _ _ _ Hk _ _ Hc) as Ec.
  pose proof (knows_value _ _ _ _ Hk _ _ Hx) as Ex. pose proof (knows_value _ _ _ _ Hk _ _ Hy) as Ey.
  unfold eval_operation, arg. simpl. by rewrite Ec, Ex, Ey.
Qed.
End evaluates.

(** * The searches *)

Section scans.
Context `{FreshMemory}.
Hypothesis fresh_length : forall n, length (fresh_words n) = n.
Variables (k : blockref) (c0 : list Instruction) (s0 : ConverterImpl) (node : nodref) (self : vref).
Variable env0 : environment.

Abbreviation emits := (emitting k c0 s0 node self env0 []) (only parsing).
Abbreviation computes := (computes_value s0 node self env0) (only parsing).
Abbreviation on_spv_step := (runs_on_spv k c0 s0 node self env0) (only parsing).
Abbreviation typed_step := (runs_allocate_typed fresh_length k c0 s0 node self env0) (only parsing).

(** ** Steps *)

(** The instruction set and the number of an extended instruction. *)
Lemma runs_ext_head {A} e opcode n K p P slot s (m : CM A) (Q : A -> ConverterImpl -> Prop) :
  emits n K (p :: P) slot s -> Ext e ∈ K -> (length (p_args p) < 99)%nat ->
  (forall s', emits n K (with_args p (p_args p ++ [e; opcode]) :: P) slot s' -> runs m s' Q) ->
  runs (_ ← arg_id (p_ref p) e; _ ← arg_literal (p_ref p) opcode; m) s Q.
Proof.
  intros He Hx Hl HQ. apply runs_bind.
  eapply (runs_arg_id fresh_length k c0 s0 node self env0 e _ _ [] p P); [exact He|by eapply (ext_nonzero _ _ _ _ _ _ He)|lia|].
  intros s2 H2. apply runs_bind.
  eapply (runs_arg_literal fresh_length k c0 s0 node self env0 opcode _ _ [] (with_args p (p_args p ++ [e])) P); [exact H2| |].
  { simpl. rewrite length_app. simpl. lia. }
  intros s3 H3. apply HQ. unfold with_args in *. simpl in H3. by rewrite <- app_assoc in H3.
Qed.

(** A component of a composite. *)
Lemma runs_extract t x i l v n K P slot s (Q : Z -> ConverterImpl -> Prop) :
  emits n K P slot s -> t <> 0 -> Val x (VComposite l) ∈ K -> l !! Z.to_nat i = Some v -> 0 <= i ->
  uniqueId (bd s0) + n + 1 < 2 ^ 32 ->
  (forall id s', emits (n + 1) (Val id v :: K) P slot s' -> Q id s') -> runs (extract t x i) s Q.
Proof.
  intros He Ht Hx Hl Hi Hn HQ. unfold extract. apply runs_bind. eapply typed_step; [exact He|done|done|].
  intros o id s1 H1. apply runs_bind.
  eapply (runs_arg_id fresh_length k c0 s0 node self env0 x _ _ [] (mkPending o OpCompositeExtract id t []) P);
    [exact H1|eapply (val_nonzero _ _ _ _ _ _ H1); mem|simpl; lia|].
  intros s2 H2. apply runs_bind.
  eapply (runs_arg_literal fresh_length k c0 s0 node self env0 i _ _ [] (mkPending o OpCompositeExtract id t [x]) P);
    [exact H2|simpl; lia|].
  intros s3 H3.
  eapply (runs_push_id k c0 s0 node self env0 _ _ [] (mkPending o OpCompositeExtract id t [x; i]) P); [exact H3|mem|done| |].
  - eapply evaluates_member; [mem|done|done].
  - intros s4 H4. apply HQ. eapply emits_weaken; [exact H4|]. intros f [->|Hf]%elem_of_cons; mem.
Qed.

(** A pair from two words. *)
Lemma runs_build_pair t s1' x y u v n K P slot s (Q : Z -> ConverterImpl -> Prop) :
  emits n K P slot s -> Glob t OpTypeInt [32; s1'] ∈ K -> Val x u ∈ K -> Val y v ∈ K ->
  uniqueId (bd s0) + n + 2 < 2 ^ 32 ->
  (forall id s', emits (n + 2) (Val id (VComposite [u; v]) :: K) P slot s' -> Q id s') ->
  runs (build_vector t [x; y]) s Q.
Proof.
  intros He Ht Hx Hy Hn HQ. unfold build_vector. change (zlength [x; y]) with 2. apply runs_bind.
  eapply (on_spv_step _ _ _ _ _ _ _ _ _ _ (makes_vector_type t 2 ltac:(lia))); [exact He|lia|]. intros t2 F s1 -> H1.
  apply runs_bind. eapply typed_step; [exact H1|eapply (glob_nonzero _ _ _ _ _ _ H1); left|lia|]. intros o id s2 H2.
  apply runs_bind.
  eapply (runs_modify_pending k c0 s0 node self env0 _ [] _ _ [] (mkPending o OpCompositeConstruct id t2 []) P); [exact H2| |].
  { intros x0 Hwf Hc Ha. destruct (reserve_arguments_spec fresh_words fresh_length x0 2 Hwf ltac:(lia)) as (x1 & E & Hwf1 & Hc1 & _ & _ & Hh).
    exists x1. split_and!; [done|done| |done]. by rewrite Hc1, Ha. }
  intros s3 H3. cbn [for_eachM]. apply runs_bind, runs_bind.
  eapply (runs_arg_id fresh_length k c0 s0 node self env0 x _ _ [] (mkPending o OpCompositeConstruct id t2 []) P);
    [exact H3|eapply (val_nonzero _ _ _ _ _ _ H3); mem|simpl; lia|].
  intros s4 H4. apply runs_bind.
  eapply (runs_arg_id fresh_length k c0 s0 node self env0 y _ _ [] (mkPending o OpCompositeConstruct id t2 [x]) P);
    [exact H4|eapply (val_nonzero _ _ _ _ _ _ H4); mem|simpl; lia|].
  intros s5 H5. apply runs_ret.
  eapply (runs_push_id k c0 s0 node self env0 _ _ [] (mkPending o OpCompositeConstruct id t2 [x; y]) P); [exact H5|mem|done| |].
  - eapply evaluates_pair; mem.
  - intros s6 H6. apply HQ. replace (n + 2) with (n + 1 + 1) by lia. eapply emits_weaken; [exact H6|].
    intros f [->|Hf]%elem_of_cons; mem.
Qed.

Lemma emits_more n n' K K' P slot s : emits n K P slot s -> n <= n' -> (forall f, f ∈ K' -> f ∈ K) -> emits n' K' P slot s.
Proof.
  intros He Hn HK. apply (emits_weaken k c0 s0 node self env0 _ _ _ K') in He; [|done]. destruct He. split; try done. lia.
Qed.

(** The sign of the high word, folded into both words. *)
Lemma runs_fold_sign bc ut vt rt u v n K P slot s (Q : Z -> ConverterImpl -> Prop) :
  emits n K P slot s -> Val bc (VComposite [VInt u; VInt v]) ∈ K -> Glob ut OpTypeInt [32; 0] ∈ K ->
  Glob vt OpTypeVector [ut; 2] ∈ K -> uniqueId (bd s0) + n + 8 < 2 ^ 32 ->
  (forall id s', emits (n + 8) (Val id (VComposite [VInt (Z.lxor u (sign_word v)); VInt (Z.lxor v (sign_word v))]) :: K)
     P slot s' -> Q id s') ->
  runs (fold_sign bc ut vt rt 1 false) s Q.
Proof.
  intros He Hb Hu Hv Hn HQ. unfold fold_sign. apply runs_bind.
  eapply runs_extract; [exact He|by eapply (glob_nonzero _ _ _ _ _ _ He)|exact Hb|done|lia|lia|]. intros ext s1 H1. apply runs_bind.
  eapply (on_spv_step _ _ _ _ _ _ _ _ _ _ (makes_int_type 32 true)); [exact H1|lia|]. intros it F s2 -> H2. apply runs_bind.
  eapply typed_step; [exact H2|eapply (glob_nonzero _ _ _ _ _ _ H2); left|lia|]. intros o id s3 H3. apply runs_bind.
  eapply (runs_finish_ret fresh_length k c0 s0 node self env0 ext _ _ _ _ (mkPending o OpShiftRightArithmetic id it []));
    [exact H3|mem|simpl; lia|]. intros s4 H4.
  apply (runs_finish_arg fresh_length k c0 s0 node self env0 _ _ (mkPending o OpShiftRightArithmetic id it [ext]) P slot).
  eapply (on_spv_step _ _ _ _ _ _ _ _ _ _ (makes_signed_constant 31)); [exact H4|lia|]. intros c F s5 (t & ->) H5.
  pose proof (emits_constant k c0 s0 node self env0 H5 c 31 ltac:(left)) as H5'.
  split; [eapply (val_nonzero _ _ _ _ _ _ H5'); left|]. split; [simpl; lia|]. eexists _, _. split; [exact H5'|]. intros s6 H6.
  eapply (runs_finish_nil k c0 s0 node self env0 _ _ (mkPending o OpShiftRightArithmetic id it [ext; c]) P slot _ (VInt (sign_word v)));
    [exact H6|mem|done| |].
  { eapply (evaluates_arithmetic _ _ _ OpShiftRightArithmetic _ _ 32 1 v 31); [mem|mem|mem|mem|done]. }
  intros s7 H7. apply runs_bind. eapply typed_step; [exact H7|eapply (glob_nonzero _ _ _ _ _ _ H7); mem|lia|]. intros o2 id2 s8 H8.
  eapply (runs_finish_ret fresh_length k c0 s0 node self env0 bc _ _ _ _ (mkPending o2 OpBitwiseXor id2 vt []));
    [exact H8|mem|simpl; lia|]. intros s9 H9.
  apply (runs_finish_arg fresh_length k c0 s0 node self env0 _ _ (mkPending o2 OpBitwiseXor id2 vt [bc]) P slot).
  eapply (runs_build_pair it 1 id id); [exact H9|mem|mem|mem|lia|]. intros pr s10 H10.
  split; [eapply (val_nonzero _ _ _ _ _ _ H10); left|]. split; [simpl; lia|]. eexists _, _. split; [exact H10|]. intros s11 H11.
  eapply (runs_finish_nil k c0 s0 node self env0 _ _ (mkPending o2 OpBitwiseXor id2 vt [bc; pr]) P slot); [exact H11|mem|done| |].
  { eapply (evaluates_xor_pair _ _ _ ut 2 32 0); mem. }
  intros s12 H12. apply HQ. eapply emits_more; [exact H12|lia|]. intros f [->|Hf]%elem_of_cons; mem.
Qed.

(** ** The search in a number *)

(** The searches have their numbers in GLSL.std.450. *)
Definition scan (opcode w x : Z) : Z :=
  if opcode =? GLSLstd450FindILsb then find_lsb w x
  else if opcode =? GLSLstd450FindUMsb then find_umsb x else find_smsb w x.
Definition is_scan (opcode : Z) : Prop := opcode ∈ [GLSLstd450FindILsb; GLSLstd450FindUMsb; GLSLstd450FindSMsb].

(** Searches in the halves, and how they are joined. *)
Lemma scan_halves opcode x y :
  is_scan opcode -> 0 <= x < 2 ^ 64 -> y = (if opcode =? GLSLstd450FindSMsb then fold x else x) ->
  let opcode' := if opcode =? GLSLstd450FindSMsb then GLSLstd450FindUMsb else opcode in
  exists a b,
    ext_unary opcode' 32 (y mod 2 ^ 32) = Some a /\ ext_unary opcode' 32 (Z.shiftr y 32 mod 2 ^ 32) = Some b /\
    ext_binary (if opcode' =? GLSLstd450FindILsb then GLSLstd450UMin else GLSLstd450SMax) 32 a (Z.lor b 32) =
      Some (scan opcode 64 x).
Proof.
  intros Hs Hx Hy. unfold is_scan in Hs. rewrite !elem_of_cons in Hs.
  assert (0 <= y < 2 ^ 64) as Hy' by (rewrite Hy; destruct (_ =? _); [by apply fold_bounds|done]).
  destruct Hs as [-> |[-> |[-> |[]%elem_of_nil]]]; simpl in Hy; subst y; eexists _, _; (split; [reflexivity|split; [reflexivity|]]).
  - cbn. f_equal. by apply low_of_halves.
  - by apply high_of_halves.
  - by apply high_of_halves.
Qed.

Section one_scan.
(** The search is the last operation of the call, or one of its own. *)
Variables (own : bool) (a : operand).
Hypothesis Hcall : integer_call k c0 s0 node self env0 32 [a].
Let target := if own then Some self else None.
Let slot_after (o : option Z) : option (option Z) := if own then None else Some o.
Let facts_of (id : Z) : list fact := if own then [Id self id] else [].

Lemma runs_allocate_for ty n K P o s (Q : opref -> ConverterImpl -> Prop) :
  emits n K P (Some o) s -> Glob ty OpTypeInt [32; 0] ∈ K -> uniqueId (bd s0) + n + 2 < 2 ^ 32 ->
  (forall r id t s', emits (n + 2) (Made r id t :: Glob t OpTypeInt [32; 0] :: facts_of id ++ K)
     (mkPending r OpExtInst id t [] :: P) (slot_after o) s' -> Q r s') ->
  runs (allocate_for OpExtInst target ty) s Q.
Proof.
  intros He Ht Hn HQ. unfold target, slot_after, facts_of in *. destruct own; cbn [allocate_for].
  - eapply (runs_call_value fresh_length k c0 s0 node self env0 32 [a] Hcall OpExtInst); [exact He|by right; left|lia|].
    intros r id t s' H'. by eapply HQ.
  - eapply typed_step; [exact He|by eapply (glob_nonzero _ _ _ _ _ _ He)|lia|]. intros r id s' H'. eapply (HQ r id ty).
    eapply emits_more; [exact H'|lia|]. intros f [->|[->|Hf]%elem_of_cons]%elem_of_cons; mem.
Qed.

Lemma runs_bitscan64 opcode n K o s (Q : Z -> ConverterImpl -> Prop) :
  emits n K [] (Some o) s -> o_width a = 64 -> is_scan opcode ->
  Id (o_ref a) (o_id a) ∈ K -> Val (o_id a) (VInt (o_value a)) ∈ K -> uniqueId (bd s0) + n + 22 < 2 ^ 32 ->
  (forall id s', emits (n + 22) (Val id (VInt (scan opcode 64 (o_value a))) :: facts_of id ++ K) [] (slot_after o) s' ->
     Q id s') ->
  runs (emit_bitscan64 opcode target (o_ref a) false 1) s Q.
Proof.
  intros He Hw Hs Hi Hv Hn HQ. unfold emit_bitscan64. apply runs_bind.
  destruct (ic_args _ _ _ _ _ _ _ _ Hcall 0 a eq_refl) as (_ & _ & Hx & _). rewrite Hw in Hx.
  apply (runs_glsl_ext k c0 s0 node self env0 _ _ _ _ _ _ He); [lia|]. intros e s1 H1. apply runs_bind.
  eapply (on_spv_step _ _ _ _ _ _ _ _ _ _ (makes_uint_type 32)); [exact H1|lia|]. intros ut F s2 -> H2. apply runs_bind.
  eapply (on_spv_step _ _ _ _ _ _ _ _ _ _ (makes_vector_type ut 2 ltac:(lia))); [exact H2|lia|]. intros vt F s3 -> H3. apply runs_bind.
  eapply typed_step; [exact H3|eapply (glob_nonzero _ _ _ _ _ _ H3); left|lia|]. intros b id s4 H4. apply runs_bind.
  eapply (runs_finish_id fresh_length k c0 s0 node self env0 32 [a] Hcall 0 a _ _ _ (mkPending b OpBitcast id vt []));
    [exact H4|done|mem|mem|simpl; lia|]. intros s5 H5.
  eapply (runs_finish_nil k c0 s0 node self env0 _ _ (mkPending b OpBitcast id vt [o_id a]) []); [exact H5|mem|done| |].
  { eapply (evaluates_split _ _ _ ut 2 32 0); [mem|mem|done|mem]. }
  intros s6 H6. apply runs_bind, runs_ret. rewrite Z.shiftr_0_r in H6.
  set (y := if opcode =? GLSLstd450FindSMsb then fold (o_value a) else o_value a).
  set (folded := if opcode =? GLSLstd450FindSMsb then fold_sign _ _ _ _ _ _ else _).
  assert (forall R : Z -> ConverterImpl -> Prop,
    (forall bc s', emits (n + 12) (Val bc (VComposite [VInt (y mod 2 ^ 32); VInt (Z.shiftr y 32 mod 2 ^ 32)]) ::
       Glob ut OpTypeInt [32; 0] :: Glob vt OpTypeVector [ut; 2] :: Ext e :: K) [] (Some o) s' -> R bc s') ->
    runs folded s6 R) as Hfold.
  { intros R HR. unfold folded, y in *. destruct (opcode =? GLSLstd450FindSMsb).
    - eapply runs_fold_sign; [exact H6|mem|mem|mem|lia|]. intros bc s7 H7. apply HR.
      destruct (fold_halves (o_value a) Hx) as [<- <-]. eapply emits_more; [exact H7|lia|].
      intros f [->|[->|[->|[->|Hf]%elem_of_cons]%elem_of_cons]%elem_of_cons]%elem_of_cons; mem.
    - apply runs_ret, HR. eapply emits_more; [exact H6|lia|].
      intros f [->|[->|[->|[->|Hf]%elem_of_cons]%elem_of_cons]%elem_of_cons]%elem_of_cons; mem. }
  clearbody folded. apply runs_bind, Hfold. intros bc s7 H7.
  destruct (scan_halves opcode (o_value a) y Hs Hx eq_refl) as (u & v & Eu & Ev & Er).
  set (opcode' := if opcode =? GLSLstd450FindSMsb then GLSLstd450FindUMsb else opcode) in *.
  apply runs_bind. eapply typed_step; [exact H7|eapply (glob_nonzero _ _ _ _ _ _ H7); mem|lia|]. intros l lid s8 H8.
  apply (runs_ext_head e opcode' _ _ (mkPending l OpExtInst lid vt []) _ _ _ _ _ H8); [mem|simpl; lia|]. intros s9 H9.
  apply runs_bind.
  eapply (runs_finish_ret fresh_length k c0 s0 node self env0 bc _ _ _ _ (mkPending l OpExtInst lid vt [e; opcode']));
    [exact H9|mem|simpl; lia|]. intros s10 H10.
  eapply (runs_finish_nil k c0 s0 node self env0 _ _ (mkPending l OpExtInst lid vt [e; opcode'; bc]) []); [exact H10|mem|done| |].
  { eapply (evaluates_ext1_pair _ _ _ ut 2 32 0); [mem|mem|mem|mem|exact Eu|exact Ev]. }
  intros s11 H11. apply runs_bind, runs_bind.
  eapply runs_extract; [exact H11|eapply (glob_nonzero _ _ _ _ _ _ H11); mem|mem|done|lia|lia|]. intros lo s12 H12. apply runs_bind.
  eapply runs_extract; [exact H12|eapply (glob_nonzero _ _ _ _ _ _ H12); mem|mem|done|lia|lia|]. intros hi s13 H13.
  apply runs_ret. apply runs_bind. eapply typed_step; [exact H13|eapply (glob_nonzero _ _ _ _ _ _ H13); mem|lia|].
  intros p pid s14 H14. apply runs_bind.
  eapply (runs_arg_id fresh_length k c0 s0 node self env0 hi _ _ [] (mkPending p OpBitwiseOr pid ut []) []);
    [exact H14|eapply (val_nonzero _ _ _ _ _ _ H14); mem|simpl; lia|]. intros s15 H15. apply runs_bind.
  eapply (runs_uint_constant k c0 s0 node self env0 32); [exact H15|lia|]. intros c t s16 H16. apply runs_bind.
  eapply (runs_finish_ret fresh_length k c0 s0 node self env0 c _ _ _ _ (mkPending p OpBitwiseOr pid ut [hi]));
    [exact H16|mem|simpl; lia|]. intros s17 H17.
  eapply (runs_finish_nil k c0 s0 node self env0 _ _ (mkPending p OpBitwiseOr pid ut [hi; c]) [] _ _ (VInt (Z.lor v 32)));
    [exact H17|mem|done| |].
  { eapply (evaluates_arithmetic _ _ _ OpBitwiseOr _ _ 32 0 v 32); [mem|mem|mem|mem|done]. }
  intros s18 H18. apply runs_bind. eapply runs_allocate_for; [exact H18|mem|lia|]. intros r rid rt s19 H19.
  set (join := if opcode' =? GLSLstd450FindILsb then _ else _) in *.
  apply (runs_ext_head e join _ _ (mkPending r OpExtInst rid rt []) _ _ _ _ _ H19); [do 2 right; apply elem_of_app; right; mem|simpl; lia|].
  intros s20 H20.
  eapply (runs_finish_ret fresh_length k c0 s0 node self env0 lo _ _ _ _ (mkPending r OpExtInst rid rt [e; join]));
    [exact H20|do 2 right; apply elem_of_app; right; mem|simpl; lia|]. intros s21 H21.
  eapply (runs_finish_ret fresh_length k c0 s0 node self env0 pid _ _ _ _ (mkPending r OpExtInst rid rt [e; join; lo]));
    [exact H21|do 2 right; apply elem_of_app; right; mem|simpl; lia|]. intros s22 H22.
  eapply (runs_finish_nil k c0 s0 node self env0 _ _ (mkPending r OpExtInst rid rt [e; join; lo; pid]) []); [exact H22|left|done| |].
  { eapply (evaluates_ext2 _ _ _ e join lo pid 32 0 u (Z.lor v 32)); [do 2 right; apply elem_of_app; right; mem|right; left|
      do 2 right; apply elem_of_app; right; mem|do 2 right; apply elem_of_app; right; mem|exact Er]. }
  intros s23 H23. apply HQ. eapply emits_more; [exact H23|lia|].
  intros f [->|[Hf|Hf]%elem_of_app]%elem_of_cons; [left|do 3 right; apply elem_of_app; by left|].
  do 3 right; apply elem_of_app; right. mem.
Qed.

Lemma runs_bitscan32 opcode n K o s (Q : Z -> ConverterImpl -> Prop) :
  emits n K [] (Some o) s -> o_width a = 32 -> is_scan opcode ->
  Id (o_ref a) (o_id a) ∈ K -> Val (o_id a) (VInt (o_value a)) ∈ K -> uniqueId (bd s0) + n + 22 < 2 ^ 32 ->
  (forall id s', emits (n + 22) (Val id (VInt (scan opcode 32 (o_value a))) :: facts_of id ++ K) [] (slot_after o) s' ->
     Q id s') ->
  runs (emit_bitscan32 opcode target (o_ref a) false 1) s Q.
Proof.
  intros He Hw Hs Hi Hv Hn HQ. unfold emit_bitscan32. apply runs_bind.
  apply (runs_glsl_ext k c0 s0 node self env0 _ _ _ _ _ _ He); [lia|]. intros e s1 H1.
  set (alloc := match target with Some r => _ | None => _ end).
  assert (forall R : opref -> ConverterImpl -> Prop,
    (forall r id t s', emits (n + 4) (Made r id t :: Glob t OpTypeInt [32; 0] :: facts_of id ++ Ext e :: K)
       [mkPending r OpExtInst id t []] (slot_after o) s' -> R r s') -> runs alloc s1 R) as Halloc.
  { intros R HR. unfold alloc, target, slot_after, facts_of in *. destruct own.
    - eapply (runs_call_value fresh_length k c0 s0 node self env0 32 [a] Hcall OpExtInst); [exact H1|by right; left|lia|].
      intros r id t s' H'. eapply HR. eapply emits_more; [exact H'|lia|done].
    - apply runs_bind. eapply (on_spv_step _ _ _ _ _ _ _ _ _ _ (makes_uint_type 32)); [exact H1|lia|]. intros ut F s2 -> H2.
      apply runs_bind, runs_ret. eapply typed_step; [exact H2|eapply (glob_nonzero _ _ _ _ _ _ H2); left|lia|].
      intros r id s' H'. eapply HR. eapply emits_more; [exact H'|lia|done]. }
  clearbody alloc. apply runs_bind, Halloc. intros r rid rt s2 H2.
  apply (runs_ext_head e opcode _ _ (mkPending r OpExtInst rid rt []) _ _ _ _ _ H2); [do 2 right; apply elem_of_app; right; mem|simpl; lia|].
  intros s3 H3.
  eapply (runs_finish_id fresh_length k c0 s0 node self env0 32 [a] Hcall 0 a _ _ _ (mkPending r OpExtInst rid rt [e; opcode]));
    [exact H3|done|do 2 right; apply elem_of_app; right; mem|do 2 right; apply elem_of_app; right; mem|simpl; lia|]. intros s4 H4.
  eapply (runs_finish_nil k c0 s0 node self env0 _ _ (mkPending r OpExtInst rid rt [e; opcode; o_id a]) []); [exact H4|left|done| |].
  { eapply (evaluates_ext1 _ _ _ e opcode (o_id a) 32 0 (o_value a) (scan opcode 32 (o_value a)));
      [do 2 right; apply elem_of_app; right; mem|right; left|do 2 right; apply elem_of_app; right; mem|].
    unfold is_scan in Hs. rewrite !elem_of_cons in Hs. by destruct Hs as [-> |[-> |[-> |[]%elem_of_nil]]]. }
  intros s5 H5. apply HQ. eapply emits_more; [exact H5|lia|].
  intros f [->|[Hf|Hf]%elem_of_app]%elem_of_cons; [left|do 3 right; apply elem_of_app; by left|].
  do 3 right; apply elem_of_app; right. mem.
Qed.

Lemma runs_native_bitscan opcode n K o s (Q : Z -> ConverterImpl -> Prop) :
  emits n K [] (Some o) s -> o_width a ∈ [32; 64] -> is_scan opcode ->
  Id (o_ref a) (o_id a) ∈ K -> Val (o_id a) (VInt (o_value a)) ∈ K -> uniqueId (bd s0) + n + 22 < 2 ^ 32 ->
  (forall id s', emits (n + 22) (Val id (VInt (scan opcode (o_width a) (o_value a))) :: facts_of id ++ K) [] (slot_after o) s' ->
     Q id s') ->
  runs (emit_native_bitscan opcode target (o_ref a)) s Q.
Proof.
  intros He Hw Hs Hi Hv Hn HQ. destruct (ic_args _ _ _ _ _ _ _ _ Hcall 0 a eq_refl) as (_ & Ht & _).
  unfold emit_native_bitscan. apply runs_bind. eapply (runs_type_of k c0 s0 node self env0 He); [exact Ht|].
  apply runs_bind, runs_ret, runs_bind. eapply (runs_scalar_type_of k c0 s0 node self env0 He); [exact Ht|].
  apply runs_bind. eapply runs_lift; [done|].
  rewrite !elem_of_cons in Hw. destruct Hw as [Hw|[Hw|[]%elem_of_nil]]; rewrite Hw in *; cbn.
  - eapply runs_bitscan32; eauto.
  - eapply runs_bitscan64; eauto.
Qed.
End one_scan.

(** ** The intrinsics *)

(** Direct3D: the number of bits above the first one, from the high end; -1 if there is none. *)
Definition from_the_top (w m : Z) : Z := if m =? minus_one then minus_one else w - 1 - m.

Section results.
Variable a : operand.
Hypothesis Hcall : integer_call k c0 s0 node self env0 32 [a].
Hypothesis Hw : o_width a ∈ [32; 64].

Lemma low_bit_computes :
  computes (emit_find_low_bit_instruction self) true (VInt (find_lsb (o_width a) (o_value a))).
Proof.
  unfold computes_value, emit_find_low_bit_instruction. apply runs_bind.
  pose proof (call_start k c0 s0 node self env0 _ _ Hcall) as H0. pose proof (call_ids k c0 s0 node self env0 _ _ Hcall) as Hn.
  eapply (runs_call_operand k c0 s0 node self env0 32 [a] Hcall 0); [exact H0|done|done|]. apply runs_bind.
  apply (runs_native_bitscan true a Hcall GLSLstd450FindILsb _ _ _ _ _ H0); [done|by left|left|right; left|lia|].
  intros id s1 H1. apply runs_ret. split; [done|]. eapply emits_result; [exact H1|mem|left].
Qed.

Lemma scan_range opcode x : is_scan opcode -> 0 <= x < 2 ^ o_width a ->
  scan opcode (o_width a) x = minus_one \/ 0 <= scan opcode (o_width a) x < o_width a.
Proof.
  intros Hs Hx. assert (0 < o_width a) as Hpos by (rewrite !elem_of_cons in Hw; destruct Hw as [->|[->|[]%elem_of_nil]]; lia).
  assert (forall v, 0 <= v < 2 ^ o_width a -> find_umsb v = minus_one \/ 0 <= find_umsb v < o_width a) as Hu.
  { intros v Hv. unfold find_umsb. destruct (Z.eqb_spec v 0); [by left|right]. split; [apply Z.log2_nonneg|].
    apply Z.log2_lt_pow2; lia. }
  unfold is_scan in Hs. rewrite !elem_of_cons in Hs. destruct Hs as [-> |[-> |[-> |[]%elem_of_nil]]].
  - change (scan _ _ x) with (find_lsb (o_width a) x). destruct (find_lsb_cases (o_width a) x) as [(r & (Hr & _) & ->)|[_ ->]]; [lia|right; lia|by left].
  - by apply Hu.
  - apply Hu. destruct (_ <? _); lia.
Qed.

Lemma high_bit_computes opcode : opcode ∈ [GLSLstd450FindUMsb; GLSLstd450FindSMsb] ->
  computes (emit_find_high_bit_instruction opcode self) true
    (VInt (from_the_top (o_width a) (scan opcode (o_width a) (o_value a)))).
Proof.
  intros Hop. unfold computes_value, emit_find_high_bit_instruction. apply runs_bind.
  pose proof (call_start k c0 s0 node self env0 _ _ Hcall) as H0. pose proof (call_ids k c0 s0 node self env0 _ _ Hcall) as Hn.
  destruct (ic_args _ _ _ _ _ _ _ _ Hcall 0 a eq_refl) as (_ & Ht & Hx & _).
  eapply (runs_call_operand k c0 s0 node self env0 32 [a] Hcall 0); [exact H0|done|done|]. apply runs_bind.
  apply (runs_native_bitscan false a Hcall opcode _ _ _ _ _ H0); [done|by right|left|right; left|lia|].
  intros m s1 H1. apply runs_bind. eapply (runs_type_of k c0 s0 node self env0 H1); [exact Ht|].
  apply runs_bind, runs_ret, runs_bind.
  eapply (on_spv_step _ _ _ _ _ _ _ _ _ _ makes_bool_type); [exact H1|lia|]. intros bt F s2 -> H2.
  apply runs_bind, runs_ret, runs_bind.
  eapply typed_step; [exact H2|eapply (glob_nonzero _ _ _ _ _ _ H2); left|lia|]. intros eq eid s3 H3.
  apply runs_bind, runs_bind. eapply (runs_uint_constant k c0 s0 node self env0 0xffffffff); [exact H3|lia|]. intros c t s4 H4.
  apply runs_ret, runs_bind.
  eapply (runs_arg_ids fresh_length k c0 s0 node self env0 _ _ _ [] (mkPending eq OpIEqual eid bt []) []); [exact H4| |simpl; lia|].
  { repeat constructor; eapply (val_nonzero _ _ _ _ _ _ H4); mem. }
  intros s5 H5. apply runs_bind.
  eapply (runs_push k c0 s0 node self env0 _ _ [] (mkPending eq OpIEqual eid bt [m; c]) []); [exact H5|done| |].
  { eapply evaluates_equal; mem. }
  intros s6 H6. unfold allocate_like. apply runs_bind, runs_bind.
  eapply (runs_value_type_id k c0 s0 node self env0); [exact H6|apply (ic_type _ _ _ _ _ _ _ _ Hcall)|by right; left|lia|]. intros ut s7 H7.
  eapply typed_step; [exact H7|eapply (glob_nonzero _ _ _ _ _ _ H7); left|lia|]. intros sub sid s8 H8.
  apply runs_bind. eapply (runs_scalar_type_of k c0 s0 node self env0 H8); [exact Ht|].
  apply runs_bind. eapply runs_lift; [done|]. apply runs_bind, runs_bind.
  eapply (runs_uint_constant k c0 s0 node self env0 (u32 (o_width a - 1))); [exact H8|lia|]. intros top t2 s9 H9.
  apply runs_ret, runs_bind.
  eapply (runs_arg_ids fresh_length k c0 s0 node self env0 _ _ _ [] (mkPending sub OpISub sid ut []) []); [exact H9| |simpl; lia|].
  { repeat constructor; eapply (val_nonzero _ _ _ _ _ _ H9); mem. }
  intros s10 H10. apply runs_bind. set (mv := scan opcode (o_width a) (o_value a)) in *.
  eapply (runs_push k c0 s0 node self env0 _ _ [] (mkPending sub OpISub sid ut [top; m]) []); [exact H10|done| |].
  { eapply (evaluates_arithmetic _ _ _ OpISub _ _ 32 0 (u32 (o_width a - 1)) mv); [mem|mem|mem|mem|reflexivity]. }
  intros s11 H11. apply runs_bind.
  eapply (runs_call_value fresh_length k c0 s0 node self env0 32 [a] Hcall OpSelect); [exact H11|by right; left|lia|]. intros r id t3 s12 H12.
  apply runs_bind, runs_bind. eapply (runs_uint_constant k c0 s0 node self env0 0xffffffff); [exact H12|lia|]. intros c2 t4 s13 H13.
  apply runs_ret, runs_bind. eapply (runs_id_of k c0 s0 node self env0); [exact H13|mem|]. apply runs_bind.
  eapply (runs_id_of k c0 s0 node self env0); [exact H13|mem|]. apply runs_bind.
  eapply (runs_arg_ids fresh_length k c0 s0 node self env0 _ _ _ [] (mkPending r OpSelect id t3 []) []); [exact H13| |simpl; lia|].
  { repeat constructor; eapply (val_nonzero _ _ _ _ _ _ H13); mem. }
  intros s14 H14.
  apply (computes_last k c0 s0 node self env0 _ _ _ _ (VInt (from_the_top (o_width a) mv)) _ H14); [mem|done| |done].
  assert (u32 (o_width a - 1) = o_width a - 1) as Eu by (rewrite !elem_of_cons in Hw; by destruct Hw as [->|[->|[]%elem_of_nil]]).
  assert (is_scan opcode) as Hs by (by right).
  replace (VInt (from_the_top (o_width a) mv))
    with (if mv =? minus_one then VInt minus_one else VInt ((u32 (o_width a - 1) - mv) mod 2 ^ 32)).
  { eapply evaluates_choice; mem. }
  rewrite Eu. unfold from_the_top. destruct (Z.eqb_spec mv minus_one); [done|]. f_equal. apply Z.mod_small.
  destruct (scan_range opcode (o_value a) Hs Hx); [done|].
  assert (o_width a <= 64) by (rewrite !elem_of_cons in Hw; destruct Hw as [->|[->|[]%elem_of_nil]]; lia).
  fold mv in H. lia.
Qed.
End results.

(** C20. [firstbitlow] and [firstbithigh] of 32-bit and 64-bit numbers: the position of the lowest set
    bit, and, counted from the highest bit, that of the highest set bit and of the highest bit that
    differs from the sign; -1 when there is none.  The 64-bit searches are built from searches in
    32-bit words. *)
Theorem first_bit_correct (a : operand) :
  integer_call k c0 s0 node self env0 32 [a] -> o_width a ∈ [32; 64] ->
  let w := o_width a in let x := o_value a in
  computes (emit_find_low_bit_instruction self) true (VInt (find_lsb w x)) /\
  computes (emit_find_high_bit_instruction GLSLstd450FindUMsb self) true (VInt (from_the_top w (find_umsb x))) /\
  computes (emit_find_high_bit_instruction GLSLstd450FindSMsb self) true (VInt (from_the_top w (find_smsb w x))).
Proof.
  intros Hc Hw. split_and!.
  - by apply low_bit_computes.
  - apply (high_bit_computes a Hc Hw GLSLstd450FindUMsb). left.
  - apply (high_bit_computes a Hc Hw GLSLstd450FindSMsb). right. left.
Qed.
End scans.

(** * A sample *)

#[local] Instance memory : FreshMemory := fun n => replicate n 0.

(** A 64-bit number whose low word has no set bit. *)
Lemma first_bit_correct_witness :
  computes_value (sample_converter 64) 0 0 (sample_environment [0x8000001000000000])
    (emit_find_low_bit_instruction 0) true (VInt 36) /\
  computes_value (sample_converter 64) 0 0 (sample_environment [0x8000001000000000])
    (emit_find_high_bit_instruction GLSLstd450FindUMsb 0) true (VInt 0) /\
  computes_value (sample_converter 64) 0 0 (sample_environment [0x8000001000000000])
    (emit_find_high_bit_instruction GLSLstd450FindSMsb 0) true (VInt 1).
Proof.
  apply (first_bit_correct memory_length 0 [label 7] (sample_converter 64) 0 0 (sample_environment [0x8000001000000000])
    (mkOperand 1 11 64 0x8000001000000000)); [|by right; left].
  apply (sample_call 64 [0x8000001000000000]); [simpl; lia|repeat constructor; lia].
Defined.
