(* ===== verification/Dispatch.v ===== *)
(** The dispatch over the opcodes of DXIL (opcodes/opcodes_dxil_builtins.cpp).

    The table of translations is an array of functions indexed by opcode.  The entries for
    arithmetic are those of Arithmetic.v; the others go through the tables of resources or
    stages, which are not modelled, and come from the interface [OpcodeEmitter]. *)
From S2P Require Import Prelude.
From S2P Require Import LLVMType.
From S2P Require Import LLVMValue.
From S2P Require Import ModuleContext.
From S2P Require Import IR.
From S2P Require Import CFGNode.
From S2P Require Import SpvBuilder.
From S2P Require Import SPIRVModule.
From S2P Require Import Converter.
From S2P Require Import LLVMBuiltins.
From S2P Require Import Instructions.
From S2P Require Import Arithmetic.
Local Open Scope Z_scope.
Local Open Scope dxil_scope.

(** DXIL::Op *)
Definition DXIL_StoreOutput : Z := 5.
Definition DXIL_FAbs : Z := 6.
Definition DXIL_Saturate : Z := 7.
Definition DXIL_IsNan : Z := 8.
Definition DXIL_IsInf : Z := 9.
Definition DXIL_IsFinite : Z := 10.
Definition DXIL_IsNormal : Z := 11.
Definition DXIL_Cos : Z := 12.
Definition DXIL_Sin : Z := 13.
Definition DXIL_Tan : Z := 14.
Definition DXIL_Acos : Z := 15.
Definition DXIL_Asin : Z := 16.
Definition DXIL_Atan : Z := 17.
Definition DXIL_Hcos : Z := 18.
Definition DXIL_Hsin : Z := 19.
Definition DXIL_Htan : Z := 20.
Definition DXIL_Frc : Z := 22.
Definition DXIL_Round_ne : Z := 26.
Definition DXIL_Round_ni : Z := 27.
Definition DXIL_Round_pi : Z := 28.
Definition DXIL_Round_z : Z := 29.
Definition DXIL_Bfrev : Z := 30.
Definition DXIL_Countbits : Z := 31.
Definition DXIL_FirstbitLo : Z := 32.
Definition DXIL_FMax : Z := 35.
Definition DXIL_FMin : Z := 36.
Definition DXIL_IMax : Z := 37.
Definition DXIL_IMin : Z := 38.
Definition DXIL_UMax : Z := 39.
Definition DXIL_UMin : Z := 40.
Definition DXIL_IMul : Z := 41.
Definition DXIL_UMul : Z := 42.
Definition DXIL_UDiv : Z := 43.
Definition DXIL_UAddc : Z := 44.
Definition DXIL_USubb : Z := 45.
Definition DXIL_Fma : Z := 47.
Definition DXIL_IMad : Z := 48.
Definition DXIL_UMad : Z := 49.
Definition DXIL_Msad : Z := 50.
Definition DXIL_Ibfe : Z := 51.
Definition DXIL_Ubfe : Z := 52.
Definition DXIL_Bfi : Z := 53.
Definition DXIL_TextureStore : Z := 67.
Definition DXIL_BufferStore : Z := 69.
Definition DXIL_BufferUpdateCounter : Z := 70.
Definition DXIL_AtomicBinOp : Z := 78.
Definition DXIL_AtomicCompareExchange : Z := 79.
Definition DXIL_Barrier : Z := 80.
Definition DXIL_Discard : Z := 82.
Definition DXIL_EmitStream : Z := 97.
Definition DXIL_CutStream : Z := 98.
Definition DXIL_EmitThenCutStream : Z := 99.
Definition DXIL_MakeDouble : Z := 101.
Definition DXIL_SplitDouble : Z := 102.
Definition DXIL_StorePatchConstant : Z := 106.
Definition DXIL_BitcastI16toF16 : Z := 124.
Definition DXIL_BitcastF16toI16 : Z := 125.
Definition DXIL_BitcastI32toF32 : Z := 126.
Definition DXIL_BitcastF32toI32 : Z := 127.
Definition DXIL_BitcastI64toF64 : Z := 128.
Definition DXIL_BitcastF64toI64 : Z := 129.
Definition DXIL_LegacyF32ToF16 : Z := 130.
Definition DXIL_LegacyDoubleToFloat : Z := 132.
Definition DXIL_LegacyDoubleToSInt32 : Z := 133.
Definition DXIL_LegacyDoubleToUInt32 : Z := 134.
Definition DXIL_RawBufferStore : Z := 140.
Definition DXIL_IgnoreHit : Z := 155.
Definition DXIL_AcceptHitAndEndSearch : Z := 156.
Definition DXIL_TraceRay : Z := 157.
Definition DXIL_ReportHit : Z := 158.
Definition DXIL_CallShader : Z := 159.
Definition DXIL_Dot4AddI8Packed : Z := 163.
Definition DXIL_Dot4AddU8Packed : Z := 164.
Definition DXIL_SetMeshOutputCounts : Z := 168.
Definition DXIL_EmitIndices : Z := 169.
Definition DXIL_StoreVertexOutput : Z := 171.
Definition DXIL_StorePrimitiveOutput : Z := 172.
Definition DXIL_DispatchMesh : Z := 173.
Definition DXIL_WriteSamplerFeedback : Z := 174.
Definition DXIL_WriteSamplerFeedbackBias : Z := 175.
Definition DXIL_WriteSamplerFeedbackLevel : Z := 176.
Definition DXIL_WriteSamplerFeedbackGrad : Z := 177.
Definition DXIL_RayQuery_TraceRayInline : Z := 179.
Definition DXIL_RayQuery_Proceed : Z := 180.
Definition DXIL_RayQuery_Abort : Z := 181.
Definition DXIL_RayQuery_CommitNonOpaqueTriangleHit : Z := 182.
Definition DXIL_RayQuery_CommitProceduralPrimitiveHit : Z := 183.
Definition DXIL_Unpack4x8 : Z := 219.
Definition DXIL_Pack4x8 : Z := 220.
Definition DXIL_TextureStoreSample : Z := 225.
Definition DXIL_HitObject_TraceRay : Z := 262.
Definition DXIL_HitObject_SetShaderTableIndex : Z := 287.
Definition DXIL_RawBufferVectorStore : Z := 304.
Definition DXIL_VectorReduceAnd : Z := 309.
Definition DXIL_VectorReduceOr : Z := 310.
Definition DXIL_FDot : Z := 311.
Definition DXIL_ExtendedFClamp : Z := 315.
Definition DXIL_ExtendedIClamp : Z := 316.
Definition DXIL_ExtendedUClamp : Z := 317.
Definition DXIL_ExtendedLegacyF32ToF16 : Z := 318.
Definition DXIL_ExtendedLegacyF16ToF32 : Z := 319.
Definition DXIL_ExtendedIAbs : Z := 320.
Definition DXIL_ExtendedSpirvIbfe : Z := 322.
Definition DXIL_ExtendedSpirvUbfe : Z := 323.
Definition DXIL_ExtendedSpirvBfi : Z := 324.
Definition DXIL_ExtendedSpirvFindLSB : Z := 325.
Definition DXIL_ExtendedSpirvIFindMSB : Z := 326.
Definition DXIL_ExtendedSpirvUFindMSB : Z := 327.
Definition DXIL_ExtendedSpirvIAddCarry : Z := 328.
Definition DXIL_ExtendedSpirvISubBorrow : Z := 329.
Definition DXIL_ExtendedSpirvSMulExtended : Z := 330.
Definition DXIL_ExtendedSpirvUMulExtended : Z := 331.
Definition DXIL_ExtendedPow : Z := 334.
Definition DXIL_Count : Z := 335.

Definition GLSLstd450NMax : Z := 80.
Definition GLSLstd450SMin : Z := 39.
Definition GLSLstd450UMax : Z := 41.
Definition OpISubBorrow : Z := 150.
Definition GLSLstd450UClamp : Z := 44.
Definition GLSLstd450Pow : Z := 26.
Definition GLSLstd450Cos : Z := 14.
Definition GLSLstd450Sin : Z := 13.
Definition GLSLstd450Tan : Z := 15.
Definition GLSLstd450Acos : Z := 17.
Definition GLSLstd450Asin : Z := 16.
Definition GLSLstd450Atan : Z := 18.
Definition GLSLstd450Cosh : Z := 20.
Definition GLSLstd450Sinh : Z := 19.
Definition GLSLstd450Tanh : Z := 21.
Definition GLSLstd450Fract : Z := 10.
Definition GLSLstd450RoundEven : Z := 2.
Definition GLSLstd450Floor : Z := 8.
Definition GLSLstd450Ceil : Z := 9.
Definition GLSLstd450Trunc : Z := 3.
Definition OpAny : Z := 154.

(** * Side effects *)

Definition side_effect_opcodes : list Z := [   DXIL_StoreOutput; DXIL_TextureStore; DXIL_BufferStore;
  DXIL_BufferUpdateCounter; DXIL_AtomicBinOp; DXIL_AtomicCompareExchange; DXIL_Barrier; DXIL_Discard;
  DXIL_EmitStream; DXIL_CutStream; DXIL_EmitThenCutStream; DXIL_StorePatchConstant; DXIL_RawBufferStore;
  DXIL_RawBufferVectorStore; DXIL_IgnoreHit; DXIL_AcceptHitAndEndSearch; DXIL_TraceRay; DXIL_ReportHit;
  DXIL_CallShader; DXIL_SetMeshOutputCounts; DXIL_EmitIndices; DXIL_StoreVertexOutput;
  DXIL_StorePrimitiveOutput; DXIL_DispatchMesh; DXIL_WriteSamplerFeedback; DXIL_WriteSamplerFeedbackBias;
  DXIL_WriteSamplerFeedbackLevel; DXIL_WriteSamplerFeedbackGrad; DXIL_RayQuery_TraceRayInline;
  DXIL_RayQuery_Proceed; DXIL_RayQuery_Abort; DXIL_RayQuery_CommitNonOpaqueTriangleHit;
  DXIL_RayQuery_CommitProceduralPrimitiveHit; DXIL_TextureStoreSample; DXIL_HitObject_TraceRay;
  DXIL_HitObject_SetShaderTableIndex].

(** A call without a value is only made for its effect. *)
Definition dxil_instruction_has_side_effects (r : vref) : CM bool :=
  o ← get_constant_operand r 0;
  match o with
  | None => mret false
  | Some opcode =>
      t ← type_of r;
      mret (bool_decide (Type_getTypeID t = VoidTyID) || bool_decide (opcode ∈ side_effect_opcodes))
  end.

Definition instruction_has_side_effects (r : vref) : CM bool :=
  d ← data_of r;
  match d with
  | StoreInst | AtomicCmpXchgInst _ _ _ | AtomicRMWInst _ _ _ => mret true
  | CallInst callee =>
      name ← function_name callee;
      if has_prefix dx_op_prefix name then dxil_instruction_has_side_effects r else mret true
  | _ => mret false
  end.

(** * The table *)

Section dispatch.
Context `{FreshMemory}.

Definition arithmetic_builders : list (Z * (vref -> CM bool)) := [
  (DXIL_Saturate, emit_saturate_instruction);
  (DXIL_FMin, emit_dxil_std450_binary_instruction GLSLstd450NMin);
  (DXIL_FMax, emit_dxil_std450_binary_instruction GLSLstd450NMax);
  (DXIL_IMin, emit_dxil_std450_binary_instruction GLSLstd450SMin);
  (DXIL_IMax, emit_dxil_std450_binary_instruction GLSLstd450SMax);
  (DXIL_UMin, emit_dxil_std450_binary_instruction GLSLstd450UMin);
  (DXIL_UMax, emit_dxil_std450_binary_instruction GLSLstd450UMax);
  (DXIL_IMul, emit_dxil_wide_arith_instruction OpSMulExtended false);
  (DXIL_UMul, emit_dxil_wide_arith_instruction OpUMulExtended false);
  (DXIL_UAddc, emit_dxil_wide_arith_instruction OpIAddCarry false);
  (DXIL_USubb, emit_dxil_wide_arith_instruction OpISubBorrow false);
  (DXIL_ExtendedSpirvSMulExtended, emit_dxil_wide_arith_instruction OpSMulExtended true);
  (DXIL_ExtendedSpirvUMulExtended, emit_dxil_wide_arith_instruction OpUMulExtended true);
  (DXIL_ExtendedSpirvIAddCarry, emit_dxil_wide_arith_instruction OpIAddCarry true);
  (DXIL_ExtendedSpirvISubBorrow, emit_dxil_wide_arith_instruction OpISubBorrow true);
  (DXIL_UDiv, emit_dxbc_udiv_instruction);
  (DXIL_IsNan, emit_dxil_unary_instruction OpIsNan);
  (DXIL_IsInf, emit_dxil_unary_instruction OpIsInf);
  (DXIL_IsFinite, emit_isfinite_instruction);
  (DXIL_IsNormal, emit_isnormal_instruction);
  (DXIL_ExtendedFClamp, emit_dxil_std450_trinary_instruction GLSLstd450NClamp);
  (DXIL_ExtendedIClamp, emit_dxil_std450_trinary_instruction GLSLstd450SClamp);
  (DXIL_ExtendedUClamp, emit_dxil_std450_trinary_instruction GLSLstd450UClamp);
  (DXIL_ExtendedPow, emit_dxil_std450_binary_instruction GLSLstd450Pow);
  (DXIL_Cos, emit_dxil_std450_unary_instruction GLSLstd450Cos);
  (DXIL_Sin, emit_dxil_std450_unary_instruction GLSLstd450Sin);
  (DXIL_Tan, emit_dxil_std450_unary_instruction GLSLstd450Tan);
  (DXIL_Acos, emit_dxil_std450_unary_instruction GLSLstd450Acos);
  (DXIL_Asin, emit_dxil_std450_unary_instruction GLSLstd450Asin);
  (DXIL_Atan, emit_dxil_std450_unary_instruction GLSLstd450Atan);
  (DXIL_Hcos, emit_dxil_std450_unary_instruction GLSLstd450Cosh);
  (DXIL_Hsin, emit_dxil_std450_unary_instruction GLSLstd450Sinh);
  (DXIL_Htan, emit_dxil_std450_unary_instruction GLSLstd450Tanh);
  (DXIL_Exp, emit_dxil_std450_unary_instruction GLSLstd450Exp2);
  (DXIL_Log, emit_dxil_std450_unary_instruction GLSLstd450Log2);
  (DXIL_Rsqrt, emit_dxil_std450_unary_instruction GLSLstd450InverseSqrt);
  (DXIL_Sqrt, emit_dxil_std450_unary_instruction GLSLstd450Sqrt);
  (DXIL_FAbs, emit_dxil_std450_unary_instruction GLSLstd450FAbs);
  (DXIL_Frc, emit_dxil_std450_unary_instruction GLSLstd450Fract);
  (DXIL_ExtendedIAbs, emit_dxil_std450_unary_instruction GLSLstd450SAbs);
  (DXIL_Round_ne, emit_dxil_std450_unary_instruction GLSLstd450RoundEven);
  (DXIL_Round_ni, emit_dxil_std450_unary_instruction GLSLstd450Floor);
  (DXIL_Round_pi, emit_dxil_std450_unary_instruction GLSLstd450Ceil);
  (DXIL_Round_z, emit_dxil_std450_unary_instruction GLSLstd450Trunc);
  (DXIL_Bfrev, emit_bit_reverse_instruction);
  (DXIL_Countbits, emit_bit_count_instruction);
  (DXIL_FirstbitLo, emit_find_low_bit_instruction);
  (DXIL_FirstbitSHi, emit_find_high_bit_instruction GLSLstd450FindSMsb);
  (DXIL_FirstbitHi, emit_find_high_bit_instruction GLSLstd450FindUMsb);
  (DXIL_Dot2, emit_dot_instruction 2);
  (DXIL_Dot3, emit_dot_instruction 3);
  (DXIL_Dot4, emit_dot_instruction 4);
  (DXIL_FDot, emit_fdot_instruction);
  (DXIL_Fma, emit_dxil_std450_trinary_instruction GLSLstd450Fma);
  (DXIL_FMad, emit_fmad_instruction);
  (DXIL_IMad, emit_imad_instruction);
  (DXIL_UMad, emit_imad_instruction);
  (DXIL_Dot4AddI8Packed, emit_i8_dot_instruction true);
  (DXIL_Dot4AddU8Packed, emit_i8_dot_instruction false);
  (DXIL_Dot2AddHalf, emit_dot2_add_half_instruction);
  (DXIL_Ibfe, emit_bfe_instruction OpBitFieldSExtract false);
  (DXIL_Ubfe, emit_bfe_instruction OpBitFieldUExtract false);
  (DXIL_Bfi, emit_bfi_instruction false);
  (DXIL_ExtendedSpirvIbfe, emit_bfe_instruction OpBitFieldSExtract true);
  (DXIL_ExtendedSpirvUbfe, emit_bfe_instruction OpBitFieldUExtract true);
  (DXIL_ExtendedSpirvBfi, emit_bfi_instruction true);
  (DXIL_ExtendedSpirvFindLSB, emit_dxil_std450_unary_instruction GLSLstd450FindILsb);
  (DXIL_ExtendedSpirvIFindMSB, emit_dxil_std450_unary_instruction GLSLstd450FindSMsb);
  (DXIL_ExtendedSpirvUFindMSB, emit_dxil_std450_unary_instruction GLSLstd450FindUMsb);
  (DXIL_MakeDouble, emit_make_double_instruction);
  (DXIL_SplitDouble, emit_split_double_instruction);
  (DXIL_LegacyF16ToF32, emit_legacy_f16_to_f32_instruction);
  (DXIL_LegacyF32ToF16, emit_legacy_f32_to_f16_instruction);
  (DXIL_ExtendedLegacyF16ToF32, emit_dxil_std450_unary_instruction GLSLstd450UnpackHalf2x16);
  (DXIL_ExtendedLegacyF32ToF16, emit_dxil_std450_unary_instruction GLSLstd450PackHalf2x16);
  (DXIL_LegacyDoubleToFloat, emit_legacy_double_conv_instruction OpFConvert);
  (DXIL_LegacyDoubleToSInt32, emit_legacy_double_conv_instruction OpConvertFToS);
  (DXIL_LegacyDoubleToUInt32, emit_legacy_double_conv_instruction OpConvertFToU);
  (DXIL_BitcastF16toI16, emit_bitcast_instruction);
  (DXIL_BitcastI16toF16, emit_bitcast_instruction);
  (DXIL_BitcastF32toI32, emit_bitcast_instruction);
  (DXIL_BitcastI32toF32, emit_bitcast_instruction);
  (DXIL_BitcastF64toI64, emit_bitcast_instruction);
  (DXIL_BitcastI64toF64, emit_bitcast_instruction);
  (DXIL_Unpack4x8, emit_unpack4x8_instruction);
  (DXIL_Pack4x8, emit_pack4x8_instruction);
  (DXIL_Msad, emit_msad_instruction);
  (DXIL_VectorReduceAnd, emit_dxil_unary_instruction OpAll);
  (DXIL_VectorReduceOr, emit_dxil_unary_instruction OpAny)].

End dispatch.

(** The entries for the other opcodes; an opcode without translation has none. *)
Class OpcodeEmitter := other_builder : Z -> option (vref -> CM bool).

Definition builder_lut `{FreshMemory} `{OpcodeEmitter} (opcode : Z) : option (vref -> CM bool) :=
  match list_find (fun e => e.1 = opcode) arithmetic_builders with
  | Some (_, (_, f)) => Some f
  | None => other_builder opcode
  end.

Definition emit_dxil_instruction `{FreshMemory} `{OpcodeEmitter} (r : vref) : CM bool :=
  o ← get_constant_operand r 0;
  match o with
  | None => mret false
  | Some opcode =>
      if DXIL_Count <=? opcode then mret false
      else match builder_lut opcode with None => mret false | Some f => f r end
  end.
