(* ===== verification/FunctionConversion.v ===== *)
(** The conversion of functions into control-flow graphs (dxil_converter.cpp): the order of the
    blocks, the instructions of each block, PHIs and terminators, and the functions that are called.

    [build_function_bb_visit_order_legacy] makes a node for every block it reaches, with the
    edges; [convert_function] then fills the nodes.  A branch whose condition is known for every
    size of a wave goes one way only, in both. *)
From stdpp Require Import pretty.
From S2P Require Import Prelude.
From S2P Require Import LLVMType.
From S2P Require Import LLVMValue.
From S2P Require Import ModuleContext.
From S2P Require Import IR.
From S2P Require Import CFGNode.
From S2P Require Import SpvBuilder.
From S2P Require Import SPIRVModule.
From S2P Require Import Converter.
From S2P Require Import LLVMBuiltins.
From S2P Require Import Instructions.
From S2P Require Import Arithmetic.
From S2P Require Import Dispatch.
Local Open Scope Z_scope.
Local Open Scope dxil_scope.

(** * The blocks of a function *)

Definition terminator_of (bb : vref) : CM vref := t ← on_llvm (BasicBlock_getTerminator bb); derefM t.
Definition successor (term : vref) (i : Z) : CM vref := s ← on_llvm (BranchInst_getSuccessor term i); derefM s.

(** What the condition of a conditional branch is known to be. *)
Definition static_branch (term : vref) : CM (option bool) :=
  d ← data_of term;
  match d with
  | BranchInst _ (Some _) =>
      c ← on_llvm (BranchInst_getCondition term);
      c ← derefM c;
      can_optimize_conditional_branch_to_static c
  | _ => mret None
  end.

(** The blocks that the traversals go on to. *)
Definition block_successors (bb : vref) : CM (list vref) :=
  term ← terminator_of bb;
  known ← static_branch term;
  match known with
  | Some cond_value => s ← successor term (if (cond_value : bool) then 0 else 1); mret [s]
  | None => d ← on_llvm (bb_at bb); mret (bb_succs d)
  end.

Definition values_count (s : ConverterImpl) : nat := length (v_values (llvm s)).

(** Blocks in post order, and the blocks that were visited. *)
Fixpoint build_function_bb_visit_order_inner_analysis (fuel : nat) (bb : vref) (st : list vref * gset vref)
    : CM (list vref * gset vref) :=
  match fuel with
  | O => ubM
  | S fuel' =>
      if bool_decide (bb ∈ st.2) then mret st
      else
        succs ← block_successors bb;
        st ← fold_c (build_function_bb_visit_order_inner_analysis fuel') succs (st.1, {[bb]} ∪ st.2);
        mret (st.1 ++ [bb], st.2)
  end.

Definition build_function_bb_visit_order_analysis (func : option vref) : CM (list vref) :=
  match func with
  | None => mret []
  | Some f =>
      entry ← on_llvm (Function_getEntryBlock f);
      n ← gets values_count;
      st ← build_function_bb_visit_order_inner_analysis (S n) entry ([], ∅);
      mret (reverse st.1)
  end.

Definition build_function_bb_visit_register (bb : vref) (tag : string) : CM unit :=
  node ← on_nodes create_node;
  _ ← modify (fun s => set_bb_map (<[bb := node]> (bb_map s)) s);
  on_nodes (update node (set_name tag)).

(** [bb_map[bb]->node]; looking up a block that is not there gives null. *)
Definition node_of (bb : vref) : CM nodref := m ← gets bb_map; derefM (m !! bb).

(** The blocks to process next and the labels given out. *)
Definition queue_visit_succ (block succ : vref) (st : list vref * Z) : CM (list vref * Z) :=
  m ← gets bb_map;
  st ← match m !! succ with
       | Some _ => mret st
       | None =>
           let label := st.2 + 1 in
           _ ← build_function_bb_visit_register succ (pretty label);
           mret (st.1 ++ [succ], label)
       end;
  a ← node_of block;
  b ← node_of succ;
  _ ← on_nodes (add_branch a b);
  mret st.

Definition visit_block (block : vref) (st : list vref * Z) : CM (list vref * Z) :=
  succs ← block_successors block;
  fold_c (queue_visit_succ block) succs st.

Fixpoint visit_rounds (fuel : nat) (to_process : list vref) (fake_label_id : Z) (visit_order : list vref)
    : CM (list vref) :=
  match to_process, fuel with
  | [], _ => mret visit_order
  | _, O => ubM
  | _, S fuel' =>
      st ← fold_c visit_block to_process ([], fake_label_id);
      visit_rounds fuel' st.1 st.2 (visit_order ++ to_process)
  end.

Definition build_function_bb_visit_order_legacy (func : option vref) : CM (list vref) :=
  match func with
  | None => mret []
  | Some f =>
      entry ← on_llvm (Function_getEntryBlock f);
      _ ← build_function_bb_visit_register entry ".entry";
      n ← gets values_count;
      visit_rounds (S n) [entry] 0 []
  end.

(** * Metadata of branches *)

(** "llvm.loop" and its properties *)
Definition bytes_of (s : string) : String_ := (fun c => Z.of_N (Ascii.N_of_ascii c)) <$> String.list_ascii_of_string s.
Definition llvm_loop : String_ := Eval vm_compute in bytes_of "llvm.loop".
Definition llvm_loop_unroll_disable : String_ := Eval vm_compute in bytes_of "llvm.loop.unroll.disable".
Definition llvm_loop_unroll_full : String_ := Eval vm_compute in bytes_of "llvm.loop.unroll.full".
Definition llvm_loop_unroll_count : String_ := Eval vm_compute in bytes_of "llvm.loop.unroll.count".
Definition dx_controlflow_hints : String_ := Eval vm_compute in bytes_of "dx.controlflow.hints".

(** The name of the loop property attached to a branch. *)
Definition loop_property (term : vref) : CM (option String_) :=
  loop_meta ← on_llvm (Instruction_getMetadata term llvm_loop);
  match loop_meta with
  | None => mret None
  | Some loop_meta =>
      n ← on_llvm (MDNode_getNumOperands loop_meta);
      if n <? 2 then mret None
      else
        o ← on_llvm (MDNode_getOperand loop_meta 1);
        x ← on_llvm (md_at o);
        match x with
        | MDNode _ _ =>
            p ← on_llvm (MDNode_getOperand o 0);
            y ← on_llvm (md_at p);
            mret (match y with MDString str => Some str | _ => None end)
        | _ => mret None
        end
  end.

(** * Terminators *)

Definition set_hints (unroll loop flatten branch : bool) (t : Terminator) : Terminator :=
  mkTerminator (conditional_id t) (term_type t) (direct_block t) (true_block t) (false_block t) (cases t)
    (return_value t) unroll loop flatten branch.
Definition set_condition (c : Z) (a b : nodref) (t : Terminator) : Terminator :=
  mkTerminator c TCondition (direct_block t) (Some a) (Some b) (cases t)
    (return_value t) (force_unroll t) (force_loop t) (force_flatten t) (force_branch t).
Definition set_switch (c : Z) (l : list Case) (t : Terminator) : Terminator :=
  mkTerminator c TSwitch (direct_block t) (true_block t) (false_block t) (cases t ++ l)
    (return_value t) (force_unroll t) (force_loop t) (force_flatten t) (force_branch t).
Definition set_return (v : Z) (t : Terminator) : Terminator :=
  mkTerminator (conditional_id t) TReturn (direct_block t) (true_block t) (false_block t) (cases t)
    v (force_unroll t) (force_loop t) (force_flatten t) (force_branch t).
Definition set_unreachable (t : Terminator) : Terminator :=
  mkTerminator (conditional_id t) TUnreachable (direct_block t) (true_block t) (false_block t) (cases t)
    (return_value t) (force_unroll t) (force_loop t) (force_flatten t) (force_branch t).

Definition update_terminator (node : nodref) (f : Terminator -> Terminator) : CM unit :=
  on_nodes (update node (fun n => set_terminator (f (terminator (ir n))) n)).

(** Every block is tagged, whether it turns out to be a loop or not. *)
Definition tag_terminator (node : nodref) : CM unit :=
  o ← gets (fun s => branch_control (options s));
  update_terminator node (set_hints (opt_force_unroll o) (opt_force_loop o) (opt_force_flatten o) (opt_force_branch o)).

(** Returns whether the loop is unrolled partially. *)
Definition apply_loop_property (node : nodref) (term : vref) : CM bool :=
  p ← loop_property term;
  o ← gets (fun s => use_shader_metadata (branch_control (options s)));
  _ ← (if (o : bool) then
         if bool_decide (p = Some llvm_loop_unroll_disable) then
           update_terminator node (fun t => set_hints false true (force_flatten t) (force_branch t) t)
         else if bool_decide (p = Some llvm_loop_unroll_full) then
           update_terminator node (fun t => set_hints true false (force_flatten t) (force_branch t) t)
         else mret tt
       else mret tt);
  mret (bool_decide (p = Some llvm_loop_unroll_count)).

Definition apply_controlflow_hints (node : nodref) (term : vref) : CM unit :=
  o ← gets (fun s => use_shader_metadata (branch_control (options s)));
  if negb (o : bool) then mret tt
  else
    m ← on_llvm (Instruction_getMetadata term dx_controlflow_hints);
    match m with
    | None => mret tt
    | Some branch_meta =>
        n ← on_llvm (MDNode_getNumOperands branch_meta);
        if n <? 3 then mret tt
        else
          h ← get_constant_metadata branch_meta 2;
          if h =? 1 then update_terminator node (fun t => set_hints (force_unroll t) (force_loop t) false true t)
          else if h =? 2 then update_terminator node (fun t => set_hints (force_unroll t) (force_loop t) true false t)
          else mret tt
    end.

(** * PHIs *)

Section conversion.
Context `{FreshMemory} `{MemoryEmitter} `{OpcodeEmitter}.

Definition is_fake_struct (t : tyref) (s : ConverterImpl) : bool := bool_decide (t ∈ llvm_dxil_op_fake_struct_types s).

(** A PHI of one value is that value, with what is known of the value as a handle. *)
Definition forward_phi (r value : vref) : CM unit :=
  id ← get_id_for_value value;
  _ ← rewrite_value r id;
  c ← gets (fun s => handle_to_storage_class s !! value);
  _ ← match c with Some c => set_storage_class r c | None => mret tt end;
  o ← gets (fun s => handle_to_root_member_offset s !! value);
  match o with
  | Some o => modify (fun s => set_handle_to_root_member_offset (<[r := o]> (handle_to_root_member_offset s)) s)
  | None => mret tt
  end.

(** A PHI of the fake structs is a vector of the components that are read. *)
Definition phi_type (r : vref) (t : tyref) : CM Z :=
  meta ← gets (fun s => llvm_composite_meta s !! r);
  fake ← gets (is_fake_struct t);
  match meta with
  | Some meta =>
      if (components meta <=? 4) && (Z.ldiff (access_mask meta) 0xf =? 0) && fake then
        x ← type_object t;
        e ← lift (Type_getStructElementType x 0);
        e ← derefM e;
        type_id ← get_type_id e;
        if 1 <? components meta then on_spv (makeVectorType type_id (components meta)) else mret type_id
      else get_type_id t
  | None => get_type_id t
  end.

(** The incoming values of blocks that are converted, one of each block; the edges that a known
    condition removed are left out. *)
Definition phi_input (r : vref) (i : nat) (l : list IncomingValue) : CM (list IncomingValue) :=
  b ← on_llvm (PHINode_getIncomingBlock r (Z.of_nat i));
  skipped ← gets (fun s => bool_decide ((b, current_bb s) ∈ skip_phi_preds s));
  if (skipped : bool) then mret l
  else
    m ← gets bb_map;
    match b ≫= fun b => m !! b with
    | None => mret l
    | Some block =>
        if bool_decide (Some block ∈ incoming_block <$> l) then mret l
        else
          o ← on_llvm (PHINode_getIncomingValue r (Z.of_nat i));
          value ← derefM o;
          id ← get_id_for_value value;
          mret (l ++ [mkIncoming (Some block) id])
    end.

Definition push_phi (x : PHI) (r : nodref) : CM unit :=
  on_nodes (update r (fun n => set_ir
    (mkIRBlock (phi (ir n) ++ [x]) (operations (ir n)) (merge_info (ir n)) (terminator (ir n))) n)).

(** The PHI before its incoming values are added. *)
Definition phi_header (r : vref) : CM PHI :=
  id ← get_id_for_value r;
  t ← type_ref_of r;
  type_id ← phi_type r t;
  x ← type_object t;
  relaxed ← gets (fun s => type_can_relax_precision s x false);
  mret (mkPHI id type_id relaxed []).

Definition emit_phi_instruction (block : nodref) (r : vref) : CM bool :=
  n ← on_llvm (PHINode_getNumIncomingValues r);
  if n =? 1 then
    o ← on_llvm (PHINode_getIncomingValue r 0);
    value ← derefM o;
    _ ← forward_phi r value;
    mret true
  else
    x ← phi_header r;
    incoming ← fold_c (phi_input r) (seq 0 (Z.to_nat n)) [];
    match incoming with
    | [] => mret false
    | [v] => _ ← rewrite_value r (incoming_id v); mret true
    | _ => _ ← push_phi (mkPHI (phi_id x) (phi_type_id x) (phi_relaxed x) incoming) block; mret true
    end.

(** * Instructions *)

Definition emit_instruction (block : nodref) (r : vref) : CM bool :=
  t ← on_llvm (Instruction_isTerminator r);
  if (t : bool) then mret true
  else
    o ← gets options;
    side_effects ← (if eliminate_dead_code o then instruction_has_side_effects r else mret true);
    used ← gets (fun s => bool_decide (r ∈ llvm_used_ssa_values s));
    if negb side_effects && negb used then mret true
    else
      _ ← modify (set_current_block (Some block));
      d ← data_of r;
      match d with
      | CallInst callee =>
          name ← function_name callee;
          if has_prefix dx_op_prefix name then emit_dxil_instruction r
          else if has_prefix llvm_prefix name then mret true
          else emit_call_instruction r
      | PHINode _ => emit_phi_instruction block r
      | _ => emit_llvm_instruction r
      end.

(** Instructions are emitted until one fails. *)
Fixpoint emit_instructions (block : nodref) (l : list vref) : CM bool :=
  match l with
  | [] => mret true
  | r :: l' => x ← emit_instruction block r; if (x : bool) then emit_instructions block l' else mret false
  end.

(** A handle that is sunk into a block is made again there. *)
Fixpoint emit_sinks (block : nodref) (l : list vref) : CM bool :=
  match l with
  | [] => mret true
  | r :: l' =>
      _ ← modify (fun s => set_value_map (delete r (value_map s)) s);
      x ← emit_instruction block r;
      if (x : bool) then emit_sinks block l' else mret false
  end.

(** * Terminators of blocks *)

(** [has_partial_unroll] is carried from block to block. *)
Definition convert_branch (bb : vref) (node : nodref) (term : vref) (has_partial_unroll : bool) : CM bool :=
  partial ← apply_loop_property node term;
  let has_partial_unroll := has_partial_unroll || partial in
  conditional ← on_llvm (BranchInst_isConditional term);
  if (conditional : bool) then
    c ← on_llvm (BranchInst_getCondition term);
    c ← derefM c;
    known ← can_optimize_conditional_branch_to_static c;
    match known with
    | Some cond_value =>
        taken ← successor term (if (cond_value : bool) then 0 else 1);
        to ← node_of taken;
        _ ← update_terminator node (branch_terminator to);
        other ← on_llvm (BranchInst_getSuccessor term (if (cond_value : bool) then 1 else 0));
        _ ← modify (fun s => set_skip_phi_preds (skip_phi_preds s ++ [(Some bb, other)]) s);
        mret has_partial_unroll
    | None =>
        id ← get_id_for_value c;
        n ← on_llvm (BranchInst_getNumSuccessors term);
        _ ← assertM (n =? 2);
        x ← successor term 0;
        a ← node_of x;
        y ← successor term 1;
        b ← node_of y;
        _ ← update_terminator node (set_condition id a b);
        _ ← apply_controlflow_hints node term;
        mret has_partial_unroll
    end
  else
    n ← on_llvm (BranchInst_getNumSuccessors term);
    _ ← assertM (n =? 1);
    x ← successor term 0;
    to ← node_of x;
    _ ← update_terminator node (branch_terminator to);
    _ ← (if has_partial_unroll then
           update_terminator node (fun t => set_hints (force_unroll t) true (force_flatten t) (force_branch t) t)
         else mret tt);
    mret has_partial_unroll.

Definition switch_case (c : option vref * option vref) : CM Case :=
  b ← derefM c.2;
  node ← node_of b;
  k ← on_llvm (SwitchInst_getCaseValue c);
  v ← integer_value k;
  mret (mkCase (Some node) 0 (u32 v) false).

Definition convert_switch (node : nodref) (term : vref) (cases : list (option vref * option vref)) : CM unit :=
  d ← on_llvm (SwitchInst_getDefaultDest term);
  d ← derefM d;
  default_node ← node_of d;
  c ← on_llvm (SwitchInst_getCondition term);
  c ← derefM c;
  id ← get_id_for_value c;
  l ← mapM_list switch_case cases;
  update_terminator node (set_switch id (mkCase (Some default_node) 0 0 true :: l)).

(** [None] for a terminator that is not supported. *)
Definition convert_terminator (bb : vref) (node : nodref) (has_partial_unroll : bool) : CM (option bool) :=
  term ← terminator_of bb;
  d ← data_of term;
  match d with
  | BranchInst _ _ => x ← convert_branch bb node term has_partial_unroll; mret (Some x)
  | SwitchInst _ _ cases => _ ← convert_switch node term cases; mret (Some has_partial_unroll)
  | ReturnInst v =>
      _ ← update_terminator node (fun t => set_return (return_value t) t);
      x ← on_llvm (ReturnInst_getReturnValue term);
      _ ← match x with
          | Some x => id ← get_id_for_value x; update_terminator node (set_return id)
          | None => mret tt
          end;
      mret (Some has_partial_unroll)
  | UnreachableInst => _ ← update_terminator node set_unreachable; mret (Some has_partial_unroll)
  | _ => mret None
  end.

(** ** Structured control flow of the input *)

Definition update_merge_info (node : nodref) (f : MergeInfo -> MergeInfo) : CM unit :=
  on_nodes (update node (fun n => set_ir
    (mkIRBlock (phi (ir n)) (operations (ir n)) (f (merge_info (ir n))) (terminator (ir n))) n)).

Definition set_merge_type (k : MergeType) (m : MergeInfo) : MergeInfo :=
  mkMergeInfo k (merge_block m) (continue_block m) (loop_control_mask m) (selection_control_mask m).
Definition set_merge_block (b : option nodref) (m : MergeInfo) : MergeInfo :=
  mkMergeInfo (merge_type m) b (continue_block m) (loop_control_mask m) (selection_control_mask m).
Definition set_continue_block (b : option nodref) (m : MergeInfo) : MergeInfo :=
  mkMergeInfo (merge_type m) (merge_block m) b (loop_control_mask m) (selection_control_mask m).

(** A merge or continue block that is not reachable was not converted. *)
Definition forward_block (node : nodref) (b : option vref) (set : option nodref -> MergeInfo -> MergeInfo) : CM unit :=
  m ← gets bb_map;
  match b ≫= fun b => m !! b with
  | Some x => update_merge_info node (set (Some x))
  | None => mret tt
  end.

Definition forward_merge (bb : vref) (node : nodref) : CM unit :=
  d ← on_llvm (bb_at bb);
  match bb_merge d with
  | LLVMValue.MergeSelection =>
      _ ← update_merge_info node (set_merge_type MergeSelection);
      forward_block node (bb_merge_bb d) set_merge_block
  | LLVMValue.MergeLoop =>
      _ ← update_merge_info node (set_merge_type MergeLoop);
      _ ← forward_block node (bb_merge_bb d) set_merge_block;
      forward_block node (bb_continue_bb d) set_continue_block
  | LLVMValue.MergeNone => mret tt
  end.

(** * Functions *)

(** The code that runs before the first block of a function: the masking of views, the layer and
    viewport of a view, and the invocation id that instrumented shaders report. *)
Class FunctionPrologue := emit_prologue : nodref -> bool -> CM bool.
Context `{FunctionPrologue}.

(** Returns nothing when an instruction cannot be translated. *)
Definition convert_block (first primary_code : bool) (bb : vref) (has_partial_unroll : bool) : CM (option bool) :=
  node ← node_of bb;
  _ ← modify (set_peephole_transformation_cache []);
  ok ← (if first then _ ← modify (set_current_block (Some node)); emit_prologue node primary_code else mret true);
  if negb ok then mret None
  else
    _ ← modify (set_current_bb (Some bb));
    sinks ← gets (fun s => default [] (bb_to_sinks s !! bb));
    ok ← emit_sinks node sinks;
    if negb ok then mret None
    else
      d ← on_llvm (bb_at bb);
      ok ← emit_instructions node (bb_instructions d);
      if negb ok then mret None
      else
        _ ← modify (set_current_bb None);
        _ ← tag_terminator node;
        x ← convert_terminator bb node has_partial_unroll;
        match x with
        | None => mret None
        | Some x => _ ← forward_merge bb node; mret (Some x)
        end.

Fixpoint convert_blocks (first primary_code : bool) (l : list vref) (has_partial_unroll : bool) : CM bool :=
  match l with
  | [] => mret true
  | bb :: l' =>
      x ← convert_block first primary_code bb has_partial_unroll;
      match x with
      | None => mret false
      | Some x => convert_blocks false primary_code l' x
      end
  end.

Definition rewrite_incoming (m : gmap Z Z) (x : IncomingValue) : IncomingValue :=
  mkIncoming (incoming_block x) (default (incoming_id x) (m !! incoming_id x)).
Definition rewrite_phi (m : gmap Z Z) (x : PHI) : PHI :=
  mkPHI (phi_id x) (phi_type_id x) (phi_relaxed x) (rewrite_incoming m <$> phi_incoming x).

Definition rewrite_phis (bb : vref) : CM unit :=
  node ← node_of bb;
  m ← gets phi_incoming_rewrite;
  on_nodes (update node (fun n => set_ir
    (mkIRBlock (rewrite_phi m <$> phi (ir n)) (operations (ir n)) (merge_info (ir n)) (terminator (ir n))) n)).

(** Null when the conversion failed. *)
Definition convert_function (visit_order : list vref) (primary_code : bool) : CM (option nodref) :=
  ok ← convert_blocks true primary_code visit_order false;
  if negb ok then mret None
  else
    m ← gets phi_incoming_rewrite;
    _ ← (if bool_decide (m = ∅) then mret tt else for_eachM rewrite_phis visit_order);
    front ← derefM (head visit_order);
    node ← node_of front;
    mret (Some node).

(** ** The functions that are called *)

Definition calls_function (r : vref) : CM (option vref) :=
  d ← data_of r;
  match d with
  | CallInst callee =>
      name ← function_name callee;
      mret (if has_prefix dx_op_prefix name || has_prefix llvm_prefix name then None else Some callee)
  | _ => mret None
  end.

Definition function_instructions (f : vref) : CM (list vref) :=
  d ← on_llvm (fn_at f);
  l ← mapM_list (fun bb => b ← on_llvm (bb_at bb); mret (bb_instructions b)) (fn_basic_blocks d);
  mret (concat l).

(** The functions found so far; a caller comes after the functions it calls. *)
Fixpoint gather_function_dependencies (fuel : nat) (caller : vref) (funcs : list vref) : CM (list vref) :=
  match fuel with
  | O => ubM
  | S fuel' =>
      if bool_decide (caller ∈ funcs) then mret funcs
      else
        l ← function_instructions caller;
        funcs ← fold_c (fun r funcs =>
          callee ← calls_function r;
          match callee with Some f => gather_function_dependencies fuel' f funcs | None => mret funcs end)
          l (funcs ++ [caller]);
        match list_find (fun f => f = caller) funcs with
        | Some (i, _) => mret (delete i funcs ++ [caller])
        | None => ubM
        end
  end.

Definition set_global_undefs (s : ConverterImpl) : ConverterImpl :=
  let a := shader_analysis s in
  set_shader_analysis (mkShaderAnalysis true (has_group_shared_barrier a) (has_group_shared_access a)
    (needs_auto_group_shared_barriers a) (precise_f16_to_f32_observed a) (subgroup_ballot_reads_first a)
    (subgroup_ballot_reads_upper a)) s.

Definition string_of (l : String_) : string := String.string_of_list_ascii ((fun c => Ascii.ascii_of_N (Z.to_N c)) <$> l).

(** All the successors of a block get an edge, also those that a known condition rules out. *)
Definition add_branches (bb : vref) : CM unit :=
  d ← on_llvm (bb_at bb);
  for_eachM (fun succ => a ← node_of bb; b ← node_of succ; on_nodes (add_branch a b)) (bb_succs d).

Definition build_callee_function (leaf : vref) : CM (option (nodref * funcref)) :=
  _ ← modify set_global_undefs;
  t ← type_of leaf;
  n ← lift (FunctionType_getNumParams t);
  arg_types ← mapM_list (fun i =>
    p ← lift (FunctionType_getParamType t (Z.of_nat i)); p ← derefM p; get_type_id p) (seq 0 (Z.to_nat n));
  ret ← lift (FunctionType_getReturnType t);
  return_type ← get_type_id ret;
  name ← function_name leaf;
  x ← on_spv (makeFunctionEntry return_type (Some (string_of name)) arg_types);
  let '(spv_func, spv_entry) := (x : funcref * blockref) in
  f ← on_spv (function_at spv_func);
  _ ← rewrite_value leaf (resultId (functionInstruction f));
  d ← on_llvm (fn_at leaf);
  _ ← for_eachM (fun i =>
        arg ← derefM (fn_arguments d !! i);
        p ← on_spv (getParamId spv_func i);
        rewrite_value arg p) (seq 0 (Z.to_nat n));
  visit_order ← build_function_bb_visit_order_analysis (Some leaf);
  _ ← for_eachM (fun bb => build_function_bb_visit_register bb "") visit_order;
  _ ← for_eachM add_branches visit_order;
  _ ← on_spv (setBuildPoint spv_entry);
  entry ← convert_function visit_order false;
  mret ((fun e => (e, spv_func)) <$> entry).

(** The functions in [skip] are converted as entry points. *)
Fixpoint build_callee_functions_loop (skip : list vref) (callees : list vref) (leaves : list (nodref * funcref))
    : CM (option (list (nodref * funcref))) :=
  match callees with
  | [] => mret (Some leaves)
  | leaf :: l =>
      if bool_decide (leaf ∈ skip) then build_callee_functions_loop skip l leaves
      else
        x ← build_callee_function leaf;
        match x with
        | None => mret None
        | Some x => build_callee_functions_loop skip l (leaves ++ [x])
        end
  end.

Definition build_callee_functions (skip callees : list vref) (entry_function : funcref)
    : CM (option (list (nodref * funcref))) :=
  leaves ← build_callee_functions_loop skip callees [];
  match leaves with
  | None => mret None
  | Some l =>
      b ← on_spv (getEntryBlock entry_function);
      _ ← on_spv (setBuildPoint b);
      mret (Some l)
  end.

End conversion.
