(* ===== verification/EmitFrame.v ===== *)
(** What the translation of an instruction may change.

    An emitter reads the module and appends operations to the current block; it leaves the
    control-flow graph, the mapping of the blocks and everything else alone.  [preserves R m] says
    that a completed run of [m] moves the state along the preorder [R]; [preserves eq m] that [m]
    only reads.  The proof that every emitter preserves [frame] is by the tactic [keep], which
    follows the structure of a routine. *)
From S2P Require Import Prelude.
From S2P Require Import LLVMType.
From S2P Require Import LLVMValue.
From S2P Require Import ModuleContext.
From S2P Require Import IR.
From S2P Require Import CFGNode.
From S2P Require Import SpvBuilder.
From S2P Require Import SPIRVModule.
From S2P Require Import Converter.
From S2P Require Import LLVMBuiltins.
From S2P Require Import Instructions.
From S2P Require Import Arithmetic.
From S2P Require Import Dispatch.
From S2P Require Import FunctionConversion.
Local Open Scope Z_scope.
Local Open Scope dxil_scope.

(** * Routines that move along a preorder *)

#[export] Instance eq_preorder {A} : PreOrder (@eq A).
Proof. split; [done|by intros ? ? ? -> ->]. Qed.

Definition preserves {S A} (R : S -> S -> Prop) (m : M S A) : Prop :=
  forall s a s', m s = Ok (a, s') -> R s s'.

Section preserves.
Context {S : Type} (R : S -> S -> Prop) {HR : PreOrder R}.

Lemma preserves_ret {A} (a : A) : preserves R (mret a : M S A).
Proof. by intros s b s' [= _ ->]. Qed.
Lemma preserves_bind {A B} (m : M S A) (f : A -> M S B) :
  preserves R m -> (forall a, preserves R (f a)) -> preserves R (m ≫= f).
Proof. intros Hm Hf s b s' (a & s1 & E1 & E2)%bindM_Ok. etrans; [by eapply Hm|by eapply Hf]. Qed.
Lemma preserves_gets {A} (f : S -> A) : preserves R (gets f).
Proof. by intros s a s' [= _ ->]. Qed.
Lemma preserves_lift {A} (r : res A) : preserves R (lift r).
Proof. intros s a s' [_ ->]%lift_inv. done. Qed.
Lemma preserves_modify (f : S -> S) : (forall s, R s (f s)) -> preserves R (modify f).
Proof. by intros H s a s' [= _ <-]. Qed.
Lemma preserves_for_each {X} (f : X -> M S unit) l :
  (forall x, x ∈ l -> preserves R (f x)) -> preserves R (for_eachM f l).
Proof.
  induction l as [|x l IH]; intros H; simpl; [apply preserves_ret|].
  apply preserves_bind; [apply H; left|]. intros _. apply IH. intros y Hy. apply H. by right.
Qed.
Lemma preserves_mapM {X Y} (f : X -> M S Y) l : (forall x, preserves R (f x)) -> preserves R (mapM_list f l).
Proof.
  intros H. induction l as [|x l IH]; simpl; [apply preserves_ret|].
  apply preserves_bind; [apply H|]. intros y. apply preserves_bind; [done|]. intros. apply preserves_ret.
Qed.
Lemma preserves_args {A} (args : list (M S A)) (f : A -> M S unit) :
  Forall (preserves R) args -> (forall x, preserves R (f x)) ->
  preserves R (for_eachM (fun a : M S A => x ← a; f x) args).
Proof.
  intros Ha Hf. apply preserves_for_each. intros a Hin. apply preserves_bind; [|done].
  rewrite list.Forall_forall in Ha. auto.
Qed.
End preserves.

Lemma preserves_zoom {S T A} (R : S -> S -> Prop) (get : S -> T) (set : T -> S -> S) (m : M T A) :
  (forall s t, R s (set t s)) -> preserves R (zoom get set m).
Proof.
  intros H s a s'. unfold zoom. destruct (m (get s)) as [[b t]| |]; [|done..]. by intros [= <- <-].
Qed.

(** A routine that only reads the objects of the module. *)
Lemma preserves_llvm {A} (R : ConverterImpl -> ConverterImpl -> Prop) `{!PreOrder R} (m : M VState A) :
  preserves eq m -> preserves R (on_llvm m).
Proof.
  intros H s a s'. unfold on_llvm, zoom. destruct (m (llvm s)) as [[b t]| |] eqn:E; [|done..].
  intros [= <- <-]. apply H in E as <-. by destruct s.
Qed.
Lemma preserves_types {A} (m : M TypeState A) : preserves eq m -> preserves eq (on_types m).
Proof.
  intros H s a s'. unfold on_types, zoom. destruct (m (v_types s)) as [[b t]| |] eqn:E; [|done..].
  intros [= <- <-]. apply H in E as <-. by destruct s.
Qed.

(** * The frame of an emitter *)

(** The operations of the block [b] may have grown; nothing else about the nodes has changed. *)
Definition grown (b : option nodref) (p p' : CFGNodePool) : Prop :=
  length p' = length p /\
  forall r n, p !! r = Some n -> exists l,
    p' !! r = Some (set_ir (mkIRBlock (phi (ir n)) (operations (ir n) ++ l) (merge_info (ir n)) (terminator (ir n))) n) /\
    (b <> Some r -> l = []).

Lemma set_ir_same (n : CFGNode) :
  set_ir (mkIRBlock (phi (ir n)) (operations (ir n) ++ []) (merge_info (ir n)) (terminator (ir n))) n = n.
Proof. rewrite app_nil_r. destruct n as [? ? ? []]; done. Qed.

#[export] Instance grown_preorder b : PreOrder (grown b).
Proof.
  split.
  - intros p. split; [done|]. intros r n Hn. exists []. rewrite set_ir_same. done.
  - intros p q u [L1 H1] [L2 H2]. split; [congruence|]. intros r n Hn.
    destruct (H1 r n Hn) as (l & Hq & Hl). destruct (H2 r _ Hq) as (k & Hu & Hk).
    exists (l ++ k). split; [rewrite Hu; simpl; by rewrite <- (assoc (++))|].
    intros Hb. by rewrite (Hl Hb), (Hk Hb).
Qed.

Record frame (s s' : ConverterImpl) : Prop := {
  frame_llvm : llvm s' = llvm s;
  frame_module : llvm_module s' = llvm_module s;
  frame_options : options s' = options s;
  frame_bb_map : bb_map s' = bb_map s;
  frame_skip : skip_phi_preds s' = skip_phi_preds s;
  frame_sinks : bb_to_sinks s' = bb_to_sinks s;
  frame_used : llvm_used_ssa_values s' = llvm_used_ssa_values s;
  frame_bb : current_bb s' = current_bb s;
  frame_block : current_block s' = current_block s;
  frame_nodes : grown (current_block s) (node_pool s) (node_pool s');
}.

#[export] Instance frame_preorder : PreOrder frame.
Proof.
  split.
  - by intros s.
  - intros s t u H K. split; try (etrans; [by apply K|by apply H]).
    etrans; [apply H|]. rewrite <- (frame_block _ _ H). apply K.
Qed.

Lemma preserves_spirv {A} (m : MM A) : preserves frame (on_spirv m).
Proof. apply preserves_zoom. by intros s t. Qed.

Lemma push_operation_frame `{FreshMemory} o r s a s' :
  push_operation o r s = Ok (a, s') -> current_block s = Some r -> frame s s'.
Proof.
  unfold push_operation, on_nodes, zoom, update, node_at. intros E Hb.
  destruct (node_pool s !! r) as [n|] eqn:Hn.
  2:{ unfold mbind, M_bind in E. cbn in E. rewrite Hn in E. done. }
  unfold mbind, M_bind in E. cbn in E. rewrite Hn in E. cbn in E. injection E as <- <-.
  split; try done. cbn. split; [apply length_insert|]. intros r' n' Hn'.
  destruct (decide (r' = r)) as [->|Hne].
  - rewrite list_lookup_insert_eq by by eapply lookup_lt_Some. simplify_eq. exists [o]. split; [done|]. congruence.
  - rewrite list_lookup_insert_ne by done. exists []. by rewrite set_ir_same.
Qed.

(** The markers of an interlocked access go to the same block. *)
Lemma marker_frame `{FreshMemory} (marked : bool) code r s a s' :
  (if marked then x ← allocate_plain code; push_operation x r else mret tt) s = Ok (a, s') ->
  current_block s = Some r -> frame s s'.
Proof.
  destruct marked; intros E Hb; inv_run; [|done].
  match goal with H : allocate_plain _ _ = Ok _ |- _ => apply preserves_spirv in H as F end.
  etrans; [exact F|]. eapply push_operation_frame; [eassumption|]. by rewrite (frame_block _ _ F).
Qed.

Lemma add_rov_frame `{FreshMemory} o is_rov : preserves frame (add_rov o is_rov).
Proof.
  intros s a s' E. unfold add_rov in E. inv_run.
  match goal with H : Some _ = current_block s |- _ => symmetry in H; rename H into Hb end.
  match goal with H : _ s = Ok (_, ?t) |- _ => assert (frame s t) as F1 by (by eapply marker_frame) end.
  match goal with H : push_operation _ _ ?t = Ok (_, ?u) |- _ =>
    assert (frame t u) as F2 by (eapply push_operation_frame; [exact H|by rewrite (frame_block _ _ F1)]) end.
  etrans; [exact F1|]. etrans; [exact F2|].
  eapply marker_frame; [eassumption|]. by rewrite (frame_block _ _ F2), (frame_block _ _ F1).
Qed.

(** * Following the structure of a routine *)

Create HintDb keeps.
#[export] Hint Extern 1 (PreOrder _) => tc_solve : keeps.

(** Unfold the definition a routine starts with. *)
Ltac unfold_routine :=
  match goal with
  | |- preserves _ ?m =>
      let rec head t := lazymatch t with ?f _ => head f | ?f => f end in
      let h := head m in unfold h
  end.

Ltac keep_step :=
  lazymatch goal with
  | |- preserves _ (mbind _ _) => eapply preserves_bind; [tc_solve| |intros ?]
  | |- preserves _ (mret _) => eapply preserves_ret; tc_solve
  | |- preserves _ (gets _) => eapply preserves_gets; tc_solve
  | |- preserves _ (lift _) => eapply preserves_lift; tc_solve
  | |- preserves _ (assertM _) => eapply preserves_lift; tc_solve
  | |- preserves _ (derefM _) => eapply preserves_lift; tc_solve
  | |- preserves _ (checkM _) => eapply preserves_lift; tc_solve
  | |- preserves _ (guardM _) => eapply preserves_lift; tc_solve
  | |- preserves _ ubM => by intros ? ? ? ?
  | |- preserves _ failM => by intros ? ? ? ?
  | |- preserves _ (on_spirv _) => apply preserves_spirv
  | |- preserves _ (on_spv _) => apply preserves_spirv
  | |- preserves _ (ask_spv _) => apply preserves_spirv
  | |- preserves _ (on_llvm _) => eapply preserves_llvm; [tc_solve|]
  | |- preserves _ (on_types _) => apply preserves_types
  | |- preserves _ (modify _) => apply preserves_modify; intros ?; by constructor
  | |- preserves _ (for_eachM _ _) => eapply preserves_for_each; [tc_solve|intros ? _]
  | |- preserves _ (mapM_list _ _) => eapply preserves_mapM; [tc_solve|intros ?]
  | |- preserves _ (match ?x with _ => _ end) => destruct x
  | |- preserves _ (let '(_, _) := ?x in _) => destruct x
  end.
Ltac keep_with tac := repeat first [ progress cbv beta zeta | solve [auto 2 with keeps nocore] | keep_step | tac | unfold_routine ].
Ltac keep := keep_with fail.

Lemma reads_value_at r : preserves eq (value_at r).
Proof. keep. Qed.
#[export] Hint Resolve reads_value_at : keeps.
Lemma reads_resolve_proxy o : preserves eq (resolve_proxy o).
Proof. keep. Qed.
#[export] Hint Resolve reads_resolve_proxy : keeps.
Lemma reads_cast b o : preserves eq (cast b o).
Proof. keep. Qed.
#[export] Hint Resolve reads_cast : keeps.
Lemma reads_type_at r : preserves eq (type_at r).
Proof. keep. Qed.
#[export] Hint Resolve reads_type_at : keeps.
Lemma reads_bb_at r : preserves eq (bb_at r).
Proof. keep. Qed.
#[export] Hint Resolve reads_bb_at : keeps.
Lemma reads_fn_at r : preserves eq (fn_at r).
Proof. keep. Qed.
#[export] Hint Resolve reads_fn_at : keeps.
Lemma reads_md_at r : preserves eq (md_at r).
Proof. keep. Qed.
#[export] Hint Resolve reads_md_at : keeps.
Lemma reads_incoming_value r i : preserves eq (PHINode_getIncomingValue r i).
Proof. keep. Qed.
#[export] Hint Resolve reads_incoming_value : keeps.
Lemma reads_incoming_block r i : preserves eq (PHINode_getIncomingBlock r i).
Proof. keep. Qed.
#[export] Hint Resolve reads_incoming_block : keeps.
Lemma reads_operand r i : preserves eq (Instruction_getOperand r i).
Proof. keep. Qed.
#[export] Hint Resolve reads_operand : keeps.
Lemma reads_zext a : preserves eq (APInt_getZExtValue a).
Proof. keep. Qed.
#[export] Hint Resolve reads_zext : keeps.
Lemma reads_sext a : preserves eq (APInt_getSExtValue a).
Proof. keep. Qed.
#[export] Hint Resolve reads_sext : keeps.
Lemma reads_unique_integer r : preserves eq (Constant_getUniqueInteger r).
Proof. keep. Qed.
#[export] Hint Resolve reads_unique_integer : keeps.
Lemma reads_cexpr_operand r i : preserves eq (ConstantExpr_getOperand r i).
Proof. keep. Qed.
#[export] Hint Resolve reads_cexpr_operand : keeps.
Lemma reads_terminator r : preserves eq (BasicBlock_getTerminator r).
Proof. keep. Qed.
#[export] Hint Resolve reads_terminator : keeps.

(** * The steps of the converter *)

Lemma keeps_fold {X A} R `{!PreOrder R} (f : X -> A -> CM A) l a :
  (forall x a, preserves R (f x a)) -> preserves R (fold_c f l a).
Proof. intros Hf. revert a. induction l as [|x l IH]; intros a; simpl; keep. Qed.

Ltac keep_fold := idtac; lazymatch goal with |- preserves _ (fold_c _ _ _) => apply keeps_fold; [tc_solve|intros ? ?] end.
Ltac keep ::= keep_with keep_fold.

Lemma keeps_data_of R `{!PreOrder R} r : preserves R (data_of r).
Proof. keep. Qed.
Lemma keeps_type_of R `{!PreOrder R} r : preserves R (type_of r).
Proof. keep. Qed.
Lemma keeps_type_object R `{!PreOrder R} r : preserves R (type_object r).
Proof. keep. Qed.
Lemma keeps_get_operand R `{!PreOrder R} r i : preserves R (get_operand r i).
Proof. keep. Qed.
Lemma keeps_constant_int R `{!PreOrder R} r : preserves R (constant_int r).
Proof. keep. Qed.
Lemma keeps_get_constant_operand R `{!PreOrder R} r i : preserves R (get_constant_operand r i).
Proof. keep. Qed.
Lemma keeps_dx_op_of R `{!PreOrder R} r : preserves R (dx_op_of r).
Proof. keep. Qed.
#[export] Hint Resolve keeps_data_of keeps_type_of keeps_type_object keeps_get_operand keeps_constant_int
  keeps_get_constant_operand keeps_dx_op_of : keeps.

Lemma keeps_get_array_type e n flags : preserves frame (get_array_type e n flags).
Proof. keep. Qed.
Lemma keeps_get_struct_type l flags name : preserves frame (get_struct_type l flags name).
Proof. keep. Qed.
#[export] Hint Resolve keeps_get_array_type keeps_get_struct_type : keeps.

Lemma keeps_type_id_walk fuel r flags : preserves frame (type_id_walk fuel r flags).
Proof. revert r flags. induction fuel as [|fuel IH]; intros r flags; simpl; keep_with ltac:(apply IH). Qed.
#[export] Hint Resolve keeps_type_id_walk : keeps.
Lemma keeps_get_type_id r : preserves frame (get_type_id r).
Proof. keep. Qed.
Lemma keeps_value_type_id r : preserves frame (value_type_id r).
Proof. keep. Qed.
#[export] Hint Resolve keeps_get_type_id keeps_value_type_id : keeps.

Lemma keeps_constant_walk fuel r w : preserves frame (constant_walk fuel r w).
Proof. revert r w. induction fuel as [|fuel IH]; intros r w; simpl; keep_with ltac:(apply IH). Qed.
#[export] Hint Resolve keeps_constant_walk : keeps.
Lemma keeps_get_id_for_constant r w : preserves frame (get_id_for_constant r w).
Proof. keep. Qed.
Lemma keeps_get_id_for_undef r : preserves frame (get_id_for_undef r).
Proof. keep. Qed.
#[export] Hint Resolve keeps_get_id_for_constant keeps_get_id_for_undef : keeps.

Section operations.
Context `{FreshMemory}.

Lemma keeps_allocate c i t : preserves frame (allocate c i t).
Proof. keep. Qed.
Lemma keeps_allocate_typed c t : preserves frame (allocate_typed c t).
Proof. keep. Qed.
Lemma keeps_modify_op o f : preserves frame (modify_op o f).
Proof. keep. Qed.
Lemma keeps_arg_id o i : preserves frame (arg_id o i).
Proof. apply keeps_modify_op. Qed.
Lemma keeps_arg_ids o l : preserves frame (arg_ids o l).
Proof. apply keeps_modify_op. Qed.
Lemma keeps_arg_literal o v : preserves frame (arg_literal o v).
Proof. apply keeps_modify_op. Qed.
Lemma keeps_id_of o : preserves frame (id_of o).
Proof. keep. Qed.
Lemma keeps_rewrite_value r i : preserves frame (rewrite_value r i).
Proof. keep. Qed.
Lemma keeps_glsl_ext : preserves frame glsl_ext.
Proof. keep. Qed.
Lemma keeps_relaxed t i b : preserves frame (decorate_relaxed_precision t i b).
Proof. keep. Qed.
End operations.
#[export] Hint Resolve keeps_allocate keeps_allocate_typed keeps_modify_op keeps_arg_id keeps_arg_ids keeps_arg_literal
  keeps_id_of keeps_rewrite_value keeps_glsl_ext keeps_relaxed add_rov_frame : keeps.

(** * The translation of values and expressions *)

Lemma keeps_args (args : list (CM Z)) (f : Z -> CM unit) :
  Forall (preserves frame) args -> (forall x, preserves frame (f x)) ->
  preserves frame (for_eachM (fun a : CM Z => x ← a; f x) args).
Proof. apply preserves_args. tc_solve. Qed.
Lemma keeps_finish `{FreshMemory} o args : Forall (preserves frame) args -> preserves frame (finish o args).
Proof. intros Ha. unfold finish. apply preserves_bind; [tc_solve| |intros; keep]. by apply keeps_args; [|intros; keep]. Qed.
Lemma keeps_all {X} R `{!PreOrder R} (f : X -> CM bool) l :
  (forall x, preserves R (f x)) -> preserves R (LLVMBuiltins.all_of f l).
Proof. intros Hf. induction l as [|x l IH]; simpl; keep. Qed.

Ltac keep_args := idtac; lazymatch goal with
  | |- preserves _ (finish _ _) => apply keeps_finish
  | |- preserves _ (LLVMBuiltins.all_of _ _) => apply keeps_all; [tc_solve|intros ?]
  | |- Forall _ [] => apply list.Forall_nil_2
  | |- Forall _ (_ :: _) => apply list.Forall_cons_2
  | |- Forall _ (_ ++ _) => apply Forall_app_2
  | |- Forall _ (replicate _ _) => apply Forall_replicate
  | |- Forall _ (_ <$> _) => apply list.Forall_fmap, list.Forall_true; intros ?; unfold compose
  | |- _ => keep_fold
  end.
Ltac keep ::= keep_with keep_args.

Lemma keeps_undefined_walk R `{!PreOrder R} fuel r : preserves R (undefined_walk fuel r).
Proof. revert r. induction fuel as [|fuel IH]; intros r; simpl; keep. Qed.
Lemma keeps_array_depth R `{!PreOrder R} fuel r : preserves R (array_depth fuel r).
Proof. revert r. induction fuel as [|fuel IH]; intros r; simpl; keep. Qed.
Lemma keeps_under_cexprs R `{!PreOrder R} fuel r o : preserves R (under_cexprs fuel r o).
Proof. revert r o. induction fuel as [|fuel IH]; intros r o; simpl; keep. Qed.
#[export] Hint Resolve keeps_undefined_walk keeps_array_depth keeps_under_cexprs : keeps.

Section values.
Context `{FreshMemory} (get_id : vref -> CM Z) (Hid : forall r, preserves frame (get_id r)).

Lemma keeps_allocate_value_typed c r t : preserves frame (allocate_value_typed get_id c r t).
Proof. keep. Qed.
Lemma keeps_allocate_value c r : preserves frame (allocate_value get_id c r).
Proof. keep. Qed.
Lemma keeps_allocate_result c r : preserves frame (allocate_result get_id c r).
Proof. pose proof keeps_allocate_value. keep. Qed.
End values.
#[export] Hint Resolve keeps_allocate_value_typed keeps_allocate_value keeps_allocate_result : keeps.

Section values.
Context `{FreshMemory} (get_id : vref -> CM Z) (Hid : forall r, preserves frame (get_id r)).
Lemma keeps_extended r b sgn : preserves frame (build_extended_value get_id r b sgn).
Proof. keep. Qed.
Lemma keeps_naturally_extended r sgn : preserves frame (build_naturally_extended_value get_id r sgn).
Proof. pose proof keeps_extended. keep. Qed.
End values.
#[export] Hint Resolve keeps_extended keeps_naturally_extended : keeps.

Section values.
Context `{FreshMemory} (get_id : vref -> CM Z) (Hid : forall r, preserves frame (get_id r)).
Lemma keeps_emit_binary r : preserves frame (emit_binary_instruction_impl get_id r).
Proof. keep. Qed.
Lemma keeps_emit_unary r : preserves frame (emit_unary_instruction get_id r).
Proof. keep. Qed.
Lemma keeps_emit_cast r : preserves frame (emit_cast_instruction_impl get_id r).
Proof. keep. Qed.
End values.
#[export] Hint Resolve keeps_emit_binary keeps_emit_unary keeps_emit_cast : keeps.

Section values.
Context `{FreshMemory} (get_id : vref -> CM Z) (Hid : forall r, preserves frame (get_id r)).
Lemma keeps_constant_expression r op l : preserves frame (build_constant_expression get_id r op l).
Proof. keep. Qed.
End values.
#[export] Hint Resolve keeps_constant_expression : keeps.

Lemma keeps_value_walk `{FreshMemory} fuel r : preserves frame (value_walk fuel r).
Proof. revert r. induction fuel as [|fuel IH]; intros r; simpl; keep. Qed.
#[export] Hint Resolve keeps_value_walk : keeps.
Lemma keeps_get_id_for_value `{FreshMemory} r : preserves frame (get_id_for_value r).
Proof. keep. Qed.
#[export] Hint Resolve keeps_get_id_for_value : keeps.

(** * Instructions *)

(** The translations that are not modelled are taken to keep to the frame. *)
Class FramedEmitters `{MemoryEmitter} `{OpcodeEmitter} : Prop := {
  framed_getelementptr : forall r, preserves frame (emit_getelementptr_instruction r);
  framed_load : forall r, preserves frame (emit_load_instruction r);
  framed_store : forall r, preserves frame (emit_store_instruction r);
  framed_alloca : forall r, preserves frame (emit_alloca_instruction r);
  framed_opcode : forall opcode f r, other_builder opcode = Some f -> preserves frame (f r);
}.
#[export] Hint Extern 1 (preserves _ (emit_getelementptr_instruction _)) => apply framed_getelementptr : keeps.
#[export] Hint Extern 1 (preserves _ (emit_load_instruction _)) => apply framed_load : keeps.
#[export] Hint Extern 1 (preserves _ (emit_store_instruction _)) => apply framed_store : keeps.
#[export] Hint Extern 1 (preserves _ (emit_alloca_instruction _)) => apply framed_alloca : keeps.

Lemma keeps_any {X} R `{!PreOrder R} (f : X -> CM bool) l :
  (forall x, preserves R (f x)) -> preserves R (Arithmetic.any_of f l).
Proof. intros Hf. induction l as [|x l IH]; simpl; keep. Qed.
Lemma keeps_split_walk R `{!PreOrder R} fuel r : preserves R (split_walk fuel r).
Proof. revert r. induction fuel as [|fuel IH]; intros r; simpl; keep. Qed.
#[export] Hint Resolve keeps_split_walk : keeps.
Ltac keep_any := idtac; lazymatch goal with
  | |- preserves _ (Arithmetic.any_of _ _) => apply keeps_any; [tc_solve|intros ?]
  | |- _ => keep_args
  end.
Ltac keep ::= keep_with keep_any.

Lemma keeps_llvm_instruction `{FramedEmitters} `{FreshMemory} r : preserves frame (emit_llvm_instruction r).
Proof. keep. Qed.

Lemma keeps_i8_dot `{FreshMemory} a b sgn l acc : preserves frame (i8_dot_walk a b sgn l acc).
Proof. revert acc. induction l as [|x l IH]; intros acc; simpl; keep. Qed.
Lemma keeps_msad_bytes `{FreshMemory} r t l : preserves frame (msad_bytes r t l).
Proof. induction l as [|x l IH]; simpl; keep. Qed.
Lemma keeps_msad_sum `{FreshMemory} t d l i : preserves frame (msad_sum t d l i).
Proof. revert i. induction l as [|x l IH]; intros i; simpl; keep. Qed.
#[export] Hint Resolve keeps_i8_dot keeps_msad_bytes keeps_msad_sum : keeps.

Lemma keeps_builder `{FreshMemory} : Forall (fun e => forall r, preserves frame (e.2 r)) arithmetic_builders.
Proof. unfold arithmetic_builders. repeat apply list.Forall_cons_2; try apply list.Forall_nil_2; intros r; unfold snd; keep. Qed.

Lemma keeps_dxil_instruction `{FramedEmitters} `{FreshMemory} r : preserves frame (emit_dxil_instruction r).
Proof.
  unfold emit_dxil_instruction. apply preserves_bind; [tc_solve|keep|]. intros [opcode|]; [|keep].
  destruct (_ <=? _); [keep|]. destruct (builder_lut opcode) as [f|] eqn:E; [|keep].
  unfold builder_lut in E. destruct (list_find _ _) as [[i [k g]]|] eqn:L; [|by eapply framed_opcode].
  injection E as ->. apply list_find_Some in L as (L & _ & _).
  pose proof keeps_builder as K. rewrite list.Forall_forall in K.
  apply (K _ (list_elem_of_lookup_2 _ _ _ L)).
Qed.
