(* ===== verification/BlockOrder.v ===== *)
(** The order in which the blocks of a function are converted.

    [flows] is the edge relation the traversals follow.  [block_successors] only reads, so both
    traversals are searches of that graph: the one in rounds registers every reachable block once
    and gives the nodes exactly the edges of the relation; the depth-first one lists the reachable
    blocks so that only cycles lead backwards. *)
From S2P Require Import Prelude.
From S2P Require Import LLVMType.
From S2P Require Import LLVMValue.
From S2P Require Import ModuleContext.
From S2P Require Import IR.
From S2P Require Import CFGNode.
From S2P Require Import CFGTraversal.
From S2P Require Import CFGGraph.
From S2P Require Import CFGFrontier.
From S2P Require Import SpvBuilder.
From S2P Require Import SPIRVModule.
From S2P Require Import Converter.
From S2P Require Import LLVMBuiltins.
From S2P Require Import Instructions.
From S2P Require Import FunctionConversion.
From S2P Require Import EmitFrame.
Local Open Scope Z_scope.
Local Open Scope dxil_scope.

(** * What the successors of a block depend on *)

Definition same_input (s t : ConverterImpl) : Prop :=
  llvm t = llvm s /\ llvm_module t = llvm_module s /\ options t = options s.

(** A routine that reads the module and the options, and changes nothing. *)
Definition depends {A} (m : CM A) : Prop := forall s t, same_input s t ->
  match m s with
  | Ok (a, s') => s' = s /\ m t = Ok (a, t)
  | Fail => m t = Fail
  | UB => m t = UB
  end.

Lemma depends_ret {A} (a : A) : depends (mret a).
Proof. done. Qed.
Lemma depends_bind {A B} (m : CM A) (f : A -> CM B) :
  depends m -> (forall a, depends (f a)) -> depends (m ≫= f).
Proof.
  intros Hm Hf s t H. unfold mbind, M_bind. specialize (Hm s t H).
  destruct (m s) as [[a s']| |]; [|by rewrite Hm..]. destruct Hm as [-> ->]. by apply Hf.
Qed.
Lemma depends_gets {A} (f : ConverterImpl -> A) :
  (forall s t, same_input s t -> f t = f s) -> depends (gets f).
Proof. intros Hf s t H. unfold gets. by rewrite (Hf s t H). Qed.
Lemma depends_lift {A} (r : res A) : depends (lift r).
Proof. intros s t _. unfold lift. by destruct r. Qed.
Lemma depends_llvm {A} (m : M VState A) : preserves eq m -> depends (on_llvm m).
Proof.
  intros Hm s t (H & _). unfold on_llvm, zoom. rewrite H.
  destruct (m (llvm s)) as [[a v]| |] eqn:E; [|done..]. apply Hm in E as <-.
  split; [by destruct s|]. rewrite <- H. by destruct t.
Qed.

Ltac depend_step :=
  lazymatch goal with
  | |- depends (mbind _ _) => apply depends_bind; [|intros ?]
  | |- depends (mret _) => apply depends_ret
  | |- depends (gets _) => apply depends_gets; intros ? ? (?H1 & ?H2 & ?H3); cbn beta; congruence
  | |- depends (lift _) => apply depends_lift
  | |- depends (assertM _) => apply depends_lift
  | |- depends (derefM _) => apply depends_lift
  | |- depends ubM => done
  | |- depends (on_llvm _) => apply depends_llvm; keep
  | |- depends (match ?x with _ => _ end) => destruct x
  end.
Ltac unfold_depends :=
  match goal with
  | |- depends ?m => let rec head t := lazymatch t with ?f _ => head f | ?f => f end in
                     let h := head m in unfold h
  end.
Ltac depend := repeat first [ progress cbv beta zeta | depend_step | unfold_depends ].

Lemma depends_static_branch term : depends (static_branch term).
Proof. depend. Qed.
Lemma depends_block_successors bb : depends (block_successors bb).
Proof. apply depends_bind; [depend|]. intros term. apply depends_bind; [apply depends_static_branch|]. intros known. depend. Qed.

(** * The graph of the blocks *)

Definition flows (s : ConverterImpl) (a b : vref) : Prop :=
  exists l, block_successors a s = Ok (l, s) /\ b ∈ l.
Definition reaches (s : ConverterImpl) : vref -> vref -> Prop := rtc (flows s).

(** Every block that can be reached ends in a terminator whose condition and targets exist. *)
Definition well_formed_from (s : ConverterImpl) (entry : vref) : Prop :=
  forall bb, reaches s entry bb -> exists l, block_successors bb s = Ok (l, s).

Lemma same_successors s t bb l :
  same_input s t -> block_successors bb s = Ok (l, s) -> block_successors bb t = Ok (l, t).
Proof. intros H E. pose proof (depends_block_successors bb s t H) as D. rewrite E in D. apply D. Qed.

Lemma block_in_heap s bb l : block_successors bb s = Ok (l, s) -> (bb < values_count s)%nat.
Proof.
  unfold block_successors, terminator_of. intros E. inv_run.
  match goal with H : on_llvm (BasicBlock_getTerminator bb) s = Ok _ |- _ => rename H into B end.
  unfold on_llvm in B. apply zoom_Ok in B as (v & B & _).
  unfold BasicBlock_getTerminator, bb_at, value_at in B. inv_run. eapply lookup_lt_Some. by symmetry.
Qed.

Lemma nodup_in_heap s l :
  NoDup l -> (forall b, b ∈ l -> (b < values_count s)%nat) -> (length l <= values_count s)%nat.
Proof.
  intros Hl Hb. rewrite <- (length_seq (values_count s) 0). apply submseteq_length, list.NoDup_submseteq; [done|].
  intros b Hin. apply elem_of_seq. specialize (Hb b Hin). lia.
Qed.

(** * The traversal in rounds *)

Lemma push_unique_NoDup x l : NoDup l -> NoDup (push_unique x l).
Proof.
  unfold push_unique. case_bool_decide; [done|]. intros Hl. apply list.NoDup_app.
  split; [done|]. split; [|apply list.NoDup_singleton]. by intros y Hy ->%list_elem_of_singleton.
Qed.

(** A node that only got a name and edges. *)
Definition edges_only (n : CFGNode) : Prop :=
  n = set_succ (succ n) (set_pred (pred n) (set_name (name n) CFGNode_new)).

Lemma edges_only_update n su pr : edges_only n -> edges_only (set_pred pr (set_succ su n)).
Proof. destruct n. unfold edges_only. cbn. intros [=]. by subst. Qed.

(** Everything but the blocks. *)
Definition blocks_erased (s : ConverterImpl) : ConverterImpl := set_bb_map ∅ (set_node_pool [] s).

(** [K] are the blocks that were registered since [s0], [E] the edges that were added. *)
Record registered (s0 : ConverterImpl) (K : list vref) (E : vref -> vref -> Prop) (s : ConverterImpl) : Prop := {
  reg_rest : blocks_erased s = blocks_erased s0;
  reg_NoDup : NoDup K;
  reg_map : forall i b, K !! i = Some b -> bb_map s !! b = Some (length (node_pool s0) + i)%nat;
  reg_other : forall b, b ∉ K -> bb_map s !! b = bb_map s0 !! b;
  reg_length : length (node_pool s) = (length (node_pool s0) + length K)%nat;
  reg_old : forall r, (r < length (node_pool s0))%nat -> node_pool s !! r = node_pool s0 !! r;
  reg_closed : forall a b, E a b -> a ∈ K /\ b ∈ K;
  reg_node : forall b r, b ∈ K -> bb_map s !! b = Some r -> exists n, node_pool s !! r = Some n /\ edges_only n /\
    NoDup (succ n) /\ NoDup (pred n) /\
    (forall x, x ∈ succ n <-> exists c, E b c /\ bb_map s !! c = Some x) /\
    (forall x, x ∈ pred n <-> exists c, E c b /\ bb_map s !! c = Some x);
}.

Section registered.
Context (s0 : ConverterImpl).
Implicit Types (K : list vref) (E : vref -> vref -> Prop) (s : ConverterImpl).

Lemma registered_input K E s : registered s0 K E s -> same_input s0 s.
Proof.
  intros H. pose proof (reg_rest _ _ _ _ H) as E'. split; [exact (f_equal llvm E')|].
  split; [exact (f_equal llvm_module E')|exact (f_equal options E')].
Qed.

Lemma registered_index K E s b : registered s0 K E s -> b ∈ K -> exists r, bb_map s !! b = Some r.
Proof. intros H (i & Hi)%list_elem_of_lookup_1. eexists. by eapply reg_map. Qed.

Lemma registered_inj K E s a b r :
  registered s0 K E s -> a ∈ K -> b ∈ K -> bb_map s !! a = Some r -> bb_map s !! b = Some r -> a = b.
Proof.
  intros H (i & Hi)%list_elem_of_lookup_1 (j & Hj)%list_elem_of_lookup_1 Ha Hb.
  rewrite (reg_map _ _ _ _ H _ _ Hi) in Ha. rewrite (reg_map _ _ _ _ H _ _ Hj) in Hb.
  assert (i = j) as -> by (simplify_eq; lia). congruence.
Qed.

Lemma registered_bound K E s a r :
  registered s0 K E s -> a ∈ K -> bb_map s !! a = Some r ->
  (length (node_pool s0) <= r < length (node_pool s0) + length K)%nat.
Proof.
  intros H (i & Hi)%list_elem_of_lookup_1 Ha. rewrite (reg_map _ _ _ _ H _ _ Hi) in Ha. injection Ha as <-.
  apply lookup_lt_Some in Hi. lia.
Qed.

Lemma registered_start : registered s0 [] (fun _ _ => False) s0.
Proof.
  split.
  - done.
  - constructor.
  - by intros i b Hi.
  - done.
  - by rewrite Nat.add_0_r.
  - done.
  - done.
  - by intros b r Hb%elem_of_nil.
Qed.

Lemma registered_equiv K E E' s : (forall a b, E a b <-> E' a b) -> registered s0 K E s -> registered s0 K E' s.
Proof.
  intros HE H. destruct H as [H1 H2 H3 H4 H5 H6 H7 H8]. split; try done.
  - intros a b Hab. apply H7. by apply HE.
  - intros b r Hb Hr. destruct (H8 b r Hb Hr) as (n & Hn & He & N1 & N2 & Hs & Hp).
    exists n. do 4 (split; [done|]). split; intros x; [rewrite Hs|rewrite Hp];
      (split; intros (c & Hc & Hx); exists c; (split; [by apply HE|done])).
Qed.

(** A block that is seen for the first time gets the next node. *)
Lemma runs_register K E s b tag :
  registered s0 K E s -> b ∉ K ->
  runs (build_function_bb_visit_register b tag) s (fun _ s' => registered s0 (K ++ [b]) E s').
Proof.
  intros H Hb. set (r := length (node_pool s)).
  unfold build_function_bb_visit_register, on_nodes.
  apply runs_bind, runs_zoom, runs_bind, runs_gets, runs_bind, runs_modify, runs_ret.
  apply runs_bind, runs_modify. apply runs_zoom. cbn.
  eapply runs_update; [by apply list_lookup_middle|].
  rewrite insert_app_r_alt, Nat.sub_diag by lia. cbn. fold r.
  pose proof (reg_length _ _ _ _ H) as HL.
  split; cbn.
  - apply (reg_rest _ _ _ _ H).
  - apply list.NoDup_app. split; [apply H|]. split; [|apply list.NoDup_singleton]. by intros x Hx ->%list_elem_of_singleton.
  - intros i x [Hi|(Hi & ->)]%lookup_snoc_Some.
    + rewrite lookup_insert_ne; [apply H; apply Hi|]. intros ->. apply Hb. eapply list_elem_of_lookup_2, Hi.
    + rewrite lookup_insert_eq. f_equal. unfold r. lia.
  - intros x Hx. rewrite lookup_insert_ne by set_solver. apply (reg_other _ _ _ _ H). set_solver.
  - rewrite !length_app, HL. simpl. lia.
  - intros x Hx. rewrite lookup_app_l by lia. by apply (reg_old _ _ _ _ H).
  - intros x y [? ?]%(reg_closed _ _ _ _ H). set_solver.
  - assert (forall c, c ∈ K -> <[b:=r]> (bb_map s) !! c = bb_map s !! c) as Hsame.
    { intros c Hc. apply lookup_insert_ne. by intros ->. }
    assert (forall P x c, (E P c \/ E c P) -> <[b:=r]> (bb_map s) !! c = Some x <-> bb_map s !! c = Some x) as HE.
    { intros P x c [[? ?]%(reg_closed _ _ _ _ H)|[? ?]%(reg_closed _ _ _ _ H)]; by rewrite Hsame. }
    intros c x [Hc| ->%list_elem_of_singleton]%elem_of_app Hx.
    + rewrite Hsame in Hx by done.
      destruct (reg_node _ _ _ _ H c x Hc Hx) as (n & Hn & He & N1 & N2 & Hs & Hp). exists n.
      pose proof (lookup_lt_Some _ _ _ Hn). rewrite lookup_app_l by done.
      do 4 (split; [done|]). split; intros y; [rewrite Hs|rewrite Hp];
        (split; intros (d & Hd & Hy); exists d; (split; [done|]); eapply HE; eauto).
    + rewrite lookup_insert_eq in Hx. injection Hx as <-. exists (set_name tag CFGNode_new).
      split; [by apply list_lookup_middle|]. split; [done|]. do 2 (split; [constructor|]).
      split; intros y; (split; [by intros ?%elem_of_nil|]); intros (d & [? ?]%(reg_closed _ _ _ _ H) & _); done.
Qed.

Lemma runs_node_of s b r (Q : nodref -> ConverterImpl -> Prop) : bb_map s !! b = Some r -> Q r s -> runs (node_of b) s Q.
Proof. intros Hb HQ. apply runs_bind, runs_gets. by eapply runs_deref. Qed.

(** An edge between two registered blocks. *)
Lemma runs_edge K E s a b na nb :
  registered s0 K E s -> a ∈ K -> b ∈ K -> bb_map s !! a = Some na -> bb_map s !! b = Some nb ->
  runs (on_nodes (add_branch na nb)) s (fun _ s' => registered s0 K (fun x y => E x y \/ (x = a /\ y = b)) s').
Proof.
  intros H Ha Hb Hna Hnb. destruct (reg_node _ _ _ _ H a na Ha Hna) as (n & Hn & He & N1 & N2 & Hs & Hp).
  apply runs_zoom. unfold add_branch, add_unique_succ, add_unique_pred. apply runs_bind, runs_bind.
  eapply runs_field; [exact Hn|]. apply runs_bind, runs_assert; [rewrite He; apply bool_decide_eq_true_2, not_elem_of_nil|].
  eapply runs_update; [exact Hn|].
  set (p1 := <[na := set_succ (push_unique nb (succ n)) n]> (node_pool s)).
  destruct (lookup_lt_is_Some_2 p1 nb) as [m Hm].
  { unfold p1. rewrite length_insert.
    destruct (reg_node _ _ _ _ H b nb Hb Hnb) as (? & Hl & _). by eapply lookup_lt_Some. }
  eapply runs_update; [exact Hm|]. set (p2 := <[nb := set_pred (push_unique na (pred m)) m]> p1).
  assert (forall r x, node_pool s !! r = Some x -> p2 !! r = Some
    (set_pred (if decide (r = nb) then push_unique na (pred x) else pred x)
       (set_succ (if decide (r = na) then push_unique nb (succ x) else succ x) x))) as Hget.
  { intros r x Hx. assert (p1 !! r = Some (set_succ (if decide (r = na) then push_unique nb (succ x) else succ x) x)) as Hp1.
    { unfold p1. destruct (decide (r = na)) as [->|]; simplify_eq.
      - by rewrite list_lookup_insert_eq by by eapply lookup_lt_Some.
      - rewrite list_lookup_insert_ne by done. rewrite Hx. by destruct x. }
    unfold p2. destruct (decide (r = nb)) as [->|].
    - rewrite list_lookup_insert_eq by by eapply lookup_lt_Some. rewrite Hp1 in Hm. injection Hm as <-. by destruct (decide _).
    - rewrite list_lookup_insert_ne by done. rewrite Hp1. by destruct (decide _). }
  pose proof (reg_length _ _ _ _ H) as HL.
  pose proof (registered_bound _ _ _ _ _ H Ha Hna) as Ba. pose proof (registered_bound _ _ _ _ _ H Hb Hnb) as Bb.
  split; cbn.
  - apply (reg_rest _ _ _ _ H).
  - apply H.
  - apply H.
  - apply H.
  - unfold p2, p1. by rewrite !length_insert.
  - intros r Hr. unfold p2, p1. rewrite !list_lookup_insert_ne by lia. by apply (reg_old _ _ _ _ H).
  - intros x y [Hxy|[-> ->]]; [by apply (reg_closed _ _ _ _ H)|done].
  - intros c r Hc Hr. destruct (reg_node _ _ _ _ H c r Hc Hr) as (x & Hx & Ex & M1 & M2 & Xs & Xp).
    rewrite (Hget r x Hx). eexists; split; [done|]. cbn.
    assert (forall d nd, d ∈ K -> bb_map s !! d = Some nd -> (r = nd <-> c = d)) as Heq.
    { intros d nd Hd Hnd. split; [intros ->; by eapply registered_inj|intros ->; congruence]. }
    split; [by apply edges_only_update|].
    split; [destruct (decide _); [by apply push_unique_NoDup|done]|].
    split; [destruct (decide _); [by apply push_unique_NoDup|done]|].
    split; intros y.
    + assert (y ∈ (if decide (r = na) then push_unique nb (succ x) else succ x) <-> y ∈ succ x \/ (c = a /\ y = nb)) as ->.
      { destruct (decide (r = na)) as [E0|E0]; [rewrite elem_of_push_unique|]; pose proof (Heq a na Ha Hna); tauto. }
      rewrite Xs. split.
      * intros [(d & ? & ?)|[-> ->]]; [by eauto|]. exists b. auto.
      * intros (d & [?|[-> ->]] & Hy); [by eauto|]. right. split; [done|congruence].
    + assert (y ∈ (if decide (r = nb) then push_unique na (pred x) else pred x) <-> y ∈ pred x \/ (c = b /\ y = na)) as ->.
      { destruct (decide (r = nb)) as [E0|E0]; [rewrite elem_of_push_unique|]; pose proof (Heq b nb Hb Hnb); tauto. }
      rewrite Xp. split.
      * intros [(d & ? & ?)|[-> ->]]; [by eauto|]. exists a. auto.
      * intros (d & [?|[-> ->]] & Hy); [by eauto|]. right. split; [done|congruence].
Qed.

Lemma runs_fold_c {X A} (f : X -> A -> CM A) (I : list X -> A -> ConverterImpl -> Prop) l a s :
  I [] a s ->
  (forall pre x post a s, l = pre ++ x :: post -> I pre a s -> runs (f x a) s (fun a' s' => I (pre ++ [x]) a' s')) ->
  runs (fold_c f l a) s (fun a' s' => I l a' s').
Proof. exact (runs_fold f I l a s). Qed.

(** The target of an edge is queued when it is new. *)
Lemma runs_queue K E s block succ st :
  registered s0 K E s -> block ∈ K -> bb_map s0 !! succ = None ->
  runs (queue_visit_succ block succ st) s (fun st' s' => exists new,
    registered s0 (K ++ new) (fun x y => E x y \/ (x = block /\ y = succ)) s' /\
    st'.1 = st.1 ++ new /\ succ ∈ K ++ new /\ new ⊆ [succ]).
Proof.
  intros H Hb H0. unfold queue_visit_succ. apply runs_bind, runs_gets, runs_bind.
  assert (forall K' s' new (st' : list vref * Z), registered s0 K' E s' -> K' = K ++ new -> succ ∈ K' -> new ⊆ [succ] ->
    st'.1 = st.1 ++ new ->
    runs (a ← node_of block; b ← node_of succ; _ ← on_nodes (add_branch a b); mret st') s' (fun st' s' => exists new,
    registered s0 (K ++ new) (fun x y => E x y \/ (x = block /\ y = succ)) s' /\
    st'.1 = st.1 ++ new /\ succ ∈ K ++ new /\ new ⊆ [succ])) as Hedge.
  { intros K' s' new st' H' -> Hs Hsub Hst.
    assert (block ∈ K ++ new) as Hb' by set_solver.
    destruct (registered_index _ _ _ _ H' Hb') as [na Hna]. destruct (registered_index _ _ _ _ H' Hs) as [nb Hnb].
    apply runs_bind, (runs_node_of _ _ _ _ Hna), runs_bind, (runs_node_of _ _ _ _ Hnb).
    apply runs_bind. eapply runs_mono; [by apply (runs_edge (K ++ new) E s' block succ na nb)|]. intros [] t Ht. apply runs_ret. by exists new. }
  destruct (bb_map s !! succ) as [r|] eqn:Hr.
  - apply runs_ret. apply (Hedge K s [] st); [done|by rewrite app_nil_r| |set_solver|by rewrite app_nil_r].
    destruct (decide (succ ∈ K)) as [|Hn]; [done|]. rewrite (reg_other _ _ _ _ H _ Hn) in Hr. congruence.
  - assert (succ ∉ K) as Hn by (intros Hs; destruct (registered_index _ _ _ _ H Hs); congruence).
    apply runs_bind. eapply runs_mono; [by apply (runs_register K E)|]. intros [] s' H'. apply runs_ret.
    apply (Hedge (K ++ [succ]) s' [succ]); [done|done|set_solver|done|done].
Qed.

Definition fresh_target s (l : list vref) : Prop := forall b, b ∈ l -> bb_map s !! b = None.

(** All the edges of a block. *)
Lemma runs_visit_block K E s block l st :
  registered s0 K E s -> block ∈ K -> block_successors block s0 = Ok (l, s0) -> fresh_target s0 l ->
  runs (visit_block block st) s (fun st' s' => exists new,
    registered s0 (K ++ new) (fun x y => E x y \/ (x = block /\ y ∈ l)) s' /\ st'.1 = st.1 ++ new /\ new ⊆ l).
Proof.
  intros H Hb Hl H0. unfold visit_block. apply runs_bind. exists l, s.
  split; [eapply same_successors; [by eapply registered_input|done]|].
  apply (runs_fold_c _ (fun pre st' s' => exists new,
    registered s0 (K ++ new) (fun x y => E x y \/ (x = block /\ y ∈ pre)) s' /\ st'.1 = st.1 ++ new /\ new ⊆ l)).
  - exists []. rewrite !app_nil_r. split; [|set_solver].
    eapply registered_equiv; [|exact H]. intros a b. rewrite elem_of_nil. tauto.
  - intros pre x post st' s' El (new & H' & Hst & Hnew).
    eapply runs_mono; [apply runs_queue; [exact H'|set_solver|apply H0; set_solver]|].
    intros st'' s'' (new' & H'' & Hst' & Hin & Hsub). exists (new ++ new').
    rewrite !(assoc (++)), <- Hst. split; [|split; [done|]].
    + eapply registered_equiv; [|exact H'']. intros a b. cbn. rewrite elem_of_app, list_elem_of_singleton. tauto.
    + intros y [|Hy]%elem_of_app; [set_solver|]. apply Hsub in Hy. set_solver.
Qed.

(** One round: the edges of all the blocks in the queue. *)
Lemma runs_round K E s queue label :
  registered s0 K E s -> queue ⊆ K ->
  (forall b, b ∈ queue -> exists l, block_successors b s0 = Ok (l, s0) /\ fresh_target s0 l) ->
  runs (fold_c visit_block queue ([], label)) s (fun st' s' =>
    registered s0 (K ++ st'.1) (fun x y => E x y \/ (x ∈ queue /\ flows s0 x y)) s' /\
    (forall y, y ∈ st'.1 -> exists x, x ∈ queue /\ flows s0 x y)).
Proof.
  intros H Hq Hok.
  apply (runs_fold_c _ (fun pre st' s' =>
    registered s0 (K ++ st'.1) (fun x y => E x y \/ (x ∈ pre /\ flows s0 x y)) s' /\
    (forall y, y ∈ st'.1 -> exists x, x ∈ queue /\ flows s0 x y))).
  - cbn. rewrite app_nil_r. split; [|by intros y Hy%elem_of_nil].
    eapply registered_equiv; [|exact H]. intros a b. rewrite elem_of_nil. tauto.
  - intros pre x post st s' El (H' & Hnew).
    assert (x ∈ queue) as Hx by (rewrite El; set_solver). destruct (Hok x Hx) as (l & Hl & Hf).
    eapply runs_mono; [eapply runs_visit_block; [exact H'|set_solver|exact Hl|done]|].
    intros st' s'' (new & H'' & Hst & Hsub). rewrite Hst, (assoc (++)). split.
    + eapply registered_equiv; [|exact H'']. intros a b. cbn. rewrite elem_of_app, list_elem_of_singleton.
      split; [intros [[?|[? ?]]|[-> ?]]; [by left|by auto|right; split; [by right|by exists l]]|].
      intros [?|[[?| ->] Hab]]; [by auto|by auto|]. right. split; [done|].
      destruct Hab as (l' & E' & ?). congruence.
    + intros y [Hy|Hy]%elem_of_app; [by apply Hnew|]. exists x. split; [done|]. exists l. auto.
Qed.

Context (entry : vref) (Hwf : well_formed_from s0 entry)
  (Hfresh : forall b, reaches s0 entry b -> bb_map s0 !! b = None).

Lemma reached_block b : reaches s0 entry b -> exists l, block_successors b s0 = Ok (l, s0) /\ fresh_target s0 l.
Proof.
  intros Hb. destruct (Hwf b Hb) as [l Hl]. exists l. split; [done|]. intros c Hc. apply Hfresh.
  eapply rtc_r; [exact Hb|]. by exists l.
Qed.

Lemma reached_count K : NoDup K -> (forall b, b ∈ K -> reaches s0 entry b) -> (length K <= values_count s0)%nat.
Proof.
  intros HK HR. apply nodup_in_heap; [done|]. intros b Hb. destruct (Hwf b (HR b Hb)) as [l Hl].
  by eapply block_in_heap.
Qed.

Lemma runs_rounds fuel order queue label s :
  registered s0 (order ++ queue) (fun x y => x ∈ order /\ flows s0 x y) s ->
  (forall b, b ∈ order ++ queue -> reaches s0 entry b) -> (values_count s0 < fuel + length order)%nat ->
  runs (visit_rounds fuel queue label order) s (fun l s' =>
    registered s0 l (fun x y => x ∈ l /\ flows s0 x y) s' /\
    (forall b, b ∈ l -> reaches s0 entry b) /\ exists l', l = (order ++ queue) ++ l').
Proof.
  revert order queue label s. induction fuel as [|fuel IH]; intros order queue label s H HR Hfuel;
    pose proof (reached_count _ (reg_NoDup _ _ _ _ H) HR) as Hlen; rewrite length_app in Hlen.
  - destruct queue as [|b queue]; [|simpl in *; lia]. rewrite app_nil_r in *. apply runs_ret.
    split; [done|]. split; [done|]. exists []. by rewrite app_nil_r.
  - destruct queue as [|b queue].
    + rewrite app_nil_r in *. apply runs_ret. split; [done|]. split; [done|]. exists []. by rewrite app_nil_r.
    + set (q := b :: queue) in *. apply runs_bind. eapply runs_mono.
      { eapply runs_round; [exact H|set_solver|]. intros x Hx. apply reached_block, HR. set_solver. }
      intros st s' (H' & Hnew). eapply runs_mono; [apply (IH (order ++ q) st.1 st.2)|].
      * eapply registered_equiv; [|exact H']. intros x y. cbn. rewrite elem_of_app. tauto.
      * intros x [Hx|Hx]%elem_of_app; [by apply HR|]. destruct (Hnew x Hx) as (y & Hy & Hf).
        eapply rtc_r; [|exact Hf]. apply HR, elem_of_app. by right.
      * rewrite length_app. unfold q. simpl. lia.
      * intros l t (Hl & HRl & l' & ->). split; [done|]. split; [done|]. exists (st.1 ++ l').
        by rewrite !(assoc (++)).
Qed.
End registered.

(** [order] lists the blocks that the entry reaches, each once and the entry first. *)
Record lists_blocks (s : ConverterImpl) (entry : vref) (order : list vref) : Prop := {
  order_NoDup : NoDup order;
  order_head : head order = Some entry;
  order_reached : forall b, b ∈ order <-> reaches s entry b;
}.

(** The blocks of [order] have nodes of their own, which no node had before, and the edges of the
    nodes are those of the blocks. *)
Record maps_blocks (s : ConverterImpl) (order : list vref) (s' : ConverterImpl) : Prop := {
  maps_rest : blocks_erased s' = blocks_erased s;
  maps_old : forall r n, node_pool s !! r = Some n -> node_pool s' !! r = Some n;
  maps_other : forall b, b ∉ order -> bb_map s' !! b = bb_map s !! b;
  maps_inj : forall a b r, a ∈ order -> b ∈ order -> bb_map s' !! a = Some r -> bb_map s' !! b = Some r -> a = b;
  maps_node : forall b, b ∈ order -> exists r n,
    bb_map s' !! b = Some r /\ node_pool s !! r = None /\ node_pool s' !! r = Some n /\ edges_only n /\
    NoDup (succ n) /\ NoDup (pred n) /\
    (forall x, x ∈ succ n <-> exists c, flows s b c /\ bb_map s' !! c = Some x) /\
    (forall x, x ∈ pred n <-> exists c, c ∈ order /\ flows s c b /\ bb_map s' !! c = Some x);
}.

Lemma registered_maps s order s' :
  registered s order (fun x y => x ∈ order /\ flows s x y) s' -> maps_blocks s order s'.
Proof.
  intros H. split.
  - apply (reg_rest _ _ _ _ H).
  - intros r n Hn. rewrite (reg_old _ _ _ _ H); [done|by eapply lookup_lt_Some].
  - apply (reg_other _ _ _ _ H).
  - intros a b r Ha Hb Hra Hrb. by eapply registered_inj.
  - intros b Hb. destruct (registered_index _ _ _ _ _ H Hb) as [r Hr].
    destruct (reg_node _ _ _ _ H b r Hb Hr) as (n & Hn & He & N1 & N2 & Hs & Hp). exists r, n.
    pose proof (registered_bound _ _ _ _ _ _ H Hb Hr). split; [done|]. split; [by apply lookup_ge_None_2; lia|].
    do 4 (split; [done|]). split; intros x; [rewrite Hs|rewrite Hp]; split.
    + intros (c & [_ Hf] & Hx). by exists c.
    + intros (c & Hf & Hx). by exists c.
    + intros (c & [Hc Hf] & Hx). by exists c.
    + intros (c & Hc & Hf & Hx). by exists c.
Qed.

Lemma runs_visit_order s f entry :
  Function_getEntryBlock f (llvm s) = Ok (entry, llvm s) ->
  well_formed_from s entry -> (forall b, reaches s entry b -> bb_map s !! b = None) ->
  runs (build_function_bb_visit_order_legacy (Some f)) s (fun order s' =>
    lists_blocks s entry order /\ maps_blocks s order s').
Proof.
  intros Hentry Hwf Hfresh. unfold build_function_bb_visit_order_legacy.
  apply runs_bind, runs_zoom. exists entry, (llvm s). split; [done|].
  replace (set_llvm (llvm s) s) with s by by destruct s. apply runs_bind.
  eapply runs_mono; [apply (runs_register s [] (fun _ _ => False)); [apply registered_start|apply not_elem_of_nil]|].
  intros [] s1 H1. cbn in H1. apply runs_bind, runs_gets.
  assert (values_count s1 = values_count s) as ->.
  { unfold values_count. destruct (registered_input _ _ _ _ H1) as (-> & _). done. }
  eapply runs_mono; [apply (runs_rounds s entry Hwf Hfresh _ [] [entry])|].
  - eapply registered_equiv; [|exact H1]. intros a b. cbn. rewrite elem_of_nil. tauto.
  - intros b ->%list_elem_of_singleton. apply rtc_refl.
  - simpl. lia.
  - intros order s' (H & HR & l & ->). split; [|by apply registered_maps]. split; [apply H|done|].
    intros b. split; [apply HR|]. intros Hb.
    assert (forall x, x ∈ ([] ++ [entry]) ++ l -> rtc (flows s) x b -> b ∈ ([] ++ [entry]) ++ l) as Hclosed.
    { clear Hb. intros x Hx Hp. induction Hp as [|x y z Hxy _ IH]; [done|]. apply IH.
      eapply (reg_closed _ _ _ _ H). by split. }
    apply (Hclosed entry); [set_solver|done].
Qed.

(** C4. The traversal in rounds ends for every function whose reachable blocks are well-formed.
    It lists exactly the blocks that the entry reaches when branches with a known condition go
    one way, each once and the entry first; every block gets a new node of its own, whose
    successors and predecessors are exactly those of the block; nothing else changes. *)
Theorem visit_order_correct s f entry :
  Function_getEntryBlock f (llvm s) = Ok (entry, llvm s) ->
  well_formed_from s entry -> (forall b, reaches s entry b -> bb_map s !! b = None) ->
  runs (build_function_bb_visit_order_legacy (Some f)) s (fun order s' =>
    lists_blocks s entry order /\ maps_blocks s order s').
Proof. apply runs_visit_order. Qed.

(** * The depth-first traversal *)

Section depth_first.
Context (s : ConverterImpl) (entry : vref) (Hwf : well_formed_from s entry).

(** In post order a block comes after the targets of its edges, but for those that lead back to it. *)
Definition post_ordered (l : list vref) : Prop :=
  forall pre a post b, l = pre ++ a :: post -> flows s a b -> b ∈ pre \/ reaches s b a.

(** The blocks that are finished, in post order, and those that are being traversed. *)
Record dfs_state (stack : list vref) (st : list vref * gset vref) : Prop := {
  dfs_visited : forall x, x ∈ st.2 <-> x ∈ st.1 ++ stack;
  dfs_NoDup : NoDup (st.1 ++ stack);
  dfs_reached : forall x, x ∈ st.1 ++ stack -> reaches s entry x;
  dfs_ordered : post_ordered st.1;
  dfs_closed : forall a b, a ∈ st.1 -> flows s a b -> b ∈ st.1 ++ stack;
}.

Lemma dfs_push stack st bb :
  dfs_state stack st -> bb ∉ st.2 -> reaches s entry bb -> dfs_state (bb :: stack) (st.1, {[bb]} ∪ st.2).
Proof.
  intros [H1 H2 H3 H4 H5] Hn Hr. assert (st.1 ++ bb :: stack ≡ₚ bb :: st.1 ++ stack) as P by by rewrite Permutation_middle.
  split; cbn.
  - intros x. rewrite P, elem_of_cons, <- H1. set_solver.
  - rewrite P. apply list.NoDup_cons. by rewrite <- H1.
  - intros x. rewrite P, elem_of_cons. intros [->|?]; auto.
  - done.
  - intros a b Ha Hf. rewrite P, elem_of_cons. right. eauto.
Qed.

Lemma dfs_pop stack st bb l :
  dfs_state (bb :: stack) st -> block_successors bb s = Ok (l, s) -> (forall b, b ∈ l -> b ∈ st.2) ->
  (forall x, x ∈ stack -> reaches s x bb) -> dfs_state stack (st.1 ++ [bb], st.2).
Proof.
  intros [H1 H2 H3 H4 H5] Hl Hv Hs. assert ((st.1 ++ [bb]) ++ stack = st.1 ++ bb :: stack) as P by by rewrite <- (assoc (++)).
  split; cbn; rewrite ?P; try done.
  - intros pre a post b E Hf. induction post as [|x post' _] using rev_ind.
    2:{ rewrite app_comm_cons, (assoc (++)) in E. apply app_inj_tail in E as [E _]. by eapply H4. }
    apply app_inj_tail in E as [<- <-].
    destruct Hf as (l' & E' & Hb). assert (l' = l) as -> by congruence.
    apply Hv, H1, elem_of_app in Hb as [|[->|Hb]%elem_of_cons]; [by left|right; apply rtc_refl|right; by apply Hs].
  - intros a b [Ha| ->%list_elem_of_singleton]%elem_of_app Hf; [by eapply H5|].
    destruct Hf as (l' & E' & Hb). assert (l' = l) as -> by congruence. by apply H1, Hv.
Qed.

Lemma runs_inner fuel bb stack st :
  dfs_state stack st -> reaches s entry bb -> (forall x, x ∈ stack -> reaches s x bb) ->
  (values_count s < fuel + length (st.1 ++ stack))%nat ->
  runs (build_function_bb_visit_order_inner_analysis fuel bb st) s (fun st' s' =>
    s' = s /\ dfs_state stack st' /\ st.2 ⊆ st'.2 /\ bb ∈ st'.2 /\ (bb ∉ st.2 -> list.last st'.1 = Some bb) /\
    exists new, st'.1 = st.1 ++ new).
Proof.
  revert bb stack st. induction fuel as [|fuel IH]; intros bb stack st H Hr Hs Hfuel.
  { pose proof (reached_count s entry Hwf _ (dfs_NoDup _ _ H) (dfs_reached _ _ H)). lia. }
  simpl. case_bool_decide as Hv.
  { apply runs_ret. do 4 (split; [done|]). split; [done|]. exists []. by rewrite app_nil_r. }
  destruct (Hwf bb Hr) as [l Hl]. apply runs_bind. exists l, s. split; [done|].
  pose proof (dfs_push _ _ _ H Hv Hr) as Hp. apply runs_bind.
  eapply runs_mono.
  { apply (runs_fold_c _ (fun (pre : list vref) (st' : list vref * gset vref) s' => s' = s /\ dfs_state (bb :: stack) st' /\ {[bb]} ∪ st.2 ⊆ st'.2 /\
      (forall b : vref, b ∈ pre -> b ∈ st'.2) /\ exists new, st'.1 = st.1 ++ new)).
    - split; [done|]. split; [done|]. split; [done|]. split; [by intros b Hb%elem_of_nil|].
      exists []. by rewrite app_nil_r.
    - intros pre x post st' s' El (-> & Hd & Hsub & Hpre & new & Hst).
      assert (flows s bb x) as Hx by (exists l; split; [done|rewrite El; set_solver]).
      eapply runs_mono; [apply (IH x (bb :: stack) st' Hd)|].
      + by eapply rtc_r.
      + intros y [->|Hy]%elem_of_cons; [by apply rtc_once|]. eapply rtc_r; [by apply Hs|done].
      + rewrite Hst, !length_app in *. simpl. lia.
      + intros st'' s'' (-> & Hd' & Hsub' & Hin & _ & new' & Hst'). split; [done|]. split; [done|].
        split; [set_solver|]. split; [intros b [Hb| ->%list_elem_of_singleton]%elem_of_app; set_solver|].
        exists (new ++ new'). by rewrite Hst', Hst, (assoc (++)). }
  intros st' s' (-> & Hd & Hsub & Hall & new & Hst). apply runs_ret. split; [done|].
  split; [by eapply dfs_pop|]. split; [cbn; set_solver|]. split; [cbn; set_solver|].
  split; [intros _; apply list.last_snoc|]. exists (new ++ [bb]). cbn. by rewrite Hst, (assoc (++)).
Qed.
End depth_first.

(** C5. The depth-first traversal ends and lists exactly the blocks that the entry reaches, each
    once and the entry first, in an order in which an edge only leads back to a block, or to the
    block itself, when that block reaches the one the edge comes from. *)
Theorem analysis_order_correct s f entry :
  Function_getEntryBlock f (llvm s) = Ok (entry, llvm s) -> well_formed_from s entry ->
  runs (build_function_bb_visit_order_analysis (Some f)) s (fun order s' =>
    s' = s /\ lists_blocks s entry order /\
    forall i j a b, order !! i = Some a -> order !! j = Some b -> flows s a b -> (j <= i)%nat -> reaches s b a).
Proof.
  intros Hentry Hwf. apply runs_bind, runs_zoom. exists entry, (llvm s). split; [done|].
  replace (set_llvm (llvm s) s) with s by by destruct s. apply runs_bind, runs_gets, runs_bind.
  eapply runs_mono; [apply (runs_inner s entry Hwf _ entry [] ([], ∅))|].
  - split; cbn; [by intros x; rewrite elem_of_empty, elem_of_nil|constructor|by intros x Hx%elem_of_nil| |by intros a b Ha%elem_of_nil].
    intros pre a post b E. by destruct pre.
  - apply rtc_refl.
  - by intros x Hx%elem_of_nil.
  - simpl. lia.
  - intros st s' (-> & Hd & _ & Hin & Hlast & _). apply runs_ret. split; [done|].
    destruct Hd as [H1 H2 H3 H4 H5]. rewrite app_nil_r in *. split.
    + split; [by rewrite reverse_Permutation|rewrite head_reverse; by apply Hlast|].
      intros b. rewrite elem_of_reverse. split; [apply H3|]. intros Hb.
      apply H1 in Hin. clear - H5 Hin Hb. induction Hb as [|x y z Hxy _ IH]; [done|].
      apply IH. by eapply H5.
    + intros i j a b Ha Hb Hf Hle. rewrite reverse_lookup_Some in Ha, Hb. destruct Ha as [Ha Hi], Hb as [Hb Hj].
      destruct (H4 (take (length st.1 - S i) st.1) a (drop (S (length st.1 - S i)) st.1) b) as [Hpre|]; [|done| |done].
      * by rewrite take_drop_middle.
      * apply list_elem_of_lookup_1 in Hpre as [k Hk]. apply lookup_take_Some in Hk as [Hk Hlt].
        assert (k = (length st.1 - S j)%nat) by (by eapply list.NoDup_lookup). lia.
Qed.

(** * A sample *)

(** A set of blocks that the traversal does not leave. *)
Lemma reaches_within s a b (l : list vref) :
  reaches s a b -> a ∈ l -> (forall x y, x ∈ l -> flows s x y -> y ∈ l) -> b ∈ l.
Proof. intros Hr Ha Hl. induction Hr as [|x y z Hxy _ IH]; [done|]. apply IH. by eapply Hl. Qed.

(** A conditional branch over a block that repeats itself, by a switch; the block after them joins
    two values. *)
Definition branching_llvm : VState :=
  let void_ := Some 2%nat in
  mkV (mkTypes [IntegerType 1; IntegerType 32; BaseType VoidTyID] [0; 1; 2]%nat)
    [ mkValue void_ (Function (mkFn 0 [1; 2; 3]%nat [4; 9; 10]%nat [] false)) 0 [] false ∅;
      mkValue void_ (BasicBlock (mkBB [5]%nat [2; 3]%nat LLVMValue.MergeSelection (Some 3%nat) None)) 0 [] false ∅;
      mkValue void_ (BasicBlock (mkBB [6]%nat [3; 2]%nat LLVMValue.MergeLoop (Some 3%nat) (Some 2%nat))) 0 [] false ∅;
      mkValue void_ (BasicBlock (mkBB [7; 8]%nat [] LLVMValue.MergeNone None None)) 0 [] false ∅;
      mkValue (Some 0%nat) (Argument 0) 0 [] false ∅;
      mkValue void_ (BranchInst [Some 2%nat; Some 3%nat] (Some 4%nat)) 0 [Some 4%nat] true ∅;
      mkValue void_ (SwitchInst (Some 9%nat) (Some 3%nat) [(Some 11%nat, Some 2%nat)]) 0 [Some 9%nat] true ∅;
      mkValue (Some 1%nat) (PHINode [(Some 9%nat, Some 1%nat); (Some 10%nat, Some 2%nat)]) 0 [] false ∅;
      mkValue void_ (ReturnInst None) 0 [] true ∅;
      mkValue (Some 1%nat) (Argument 1) 0 [] false ∅;
      mkValue (Some 1%nat) (Argument 2) 0 [] false ∅;
      mkValue (Some 1%nat) (ConstantInt 7) 0 [] false ∅ ] [].

Definition branching_converter : ConverterImpl :=
  set_value_map {[4%nat := 11; 9%nat := 12; 10%nat := 13]}
    (ConverterImpl_new branching_llvm (ModuleContext.mkModule [] [] ∅ ∅ [])
       (set_builder (set_uniqueId 14 Builder_new) SPIRVModule_new) Options_new ExecutionModeMeta_new).


Lemma branching_blocks bb : reaches branching_converter 1 bb -> bb ∈ [1; 2; 3]%nat.
Proof.
  intros H. eapply reaches_within; [exact H|by left|]. intros x y Hx (l & E & Hy).
  repeat (apply elem_of_cons in Hx as [->|Hx]; [vm_compute in E; injection E as <-; set_solver|]). by apply elem_of_nil in Hx.
Qed.

Lemma branching_well_formed : well_formed_from branching_converter 1.
Proof.
  intros bb Hbb%branching_blocks.
  repeat (apply elem_of_cons in Hbb as [->|Hbb]; [eexists; vm_compute; reflexivity|]). by apply elem_of_nil in Hbb.
Qed.
Lemma branching_fresh bb : reaches branching_converter 1 bb -> bb_map branching_converter !! bb = None.
Proof. done. Qed.

Lemma visit_order_correct_witness :
  runs (build_function_bb_visit_order_legacy (Some 0%nat)) branching_converter (fun order s' =>
    lists_blocks branching_converter 1 order /\ maps_blocks branching_converter order s').
Proof. apply visit_order_correct; [by vm_compute|exact branching_well_formed|exact branching_fresh]. Defined.

Lemma analysis_order_correct_witness :
  runs (build_function_bb_visit_order_analysis (Some 0%nat)) branching_converter (fun order s' =>
    s' = branching_converter /\ lists_blocks branching_converter 1 order /\
    forall i j a b, order !! i = Some a -> order !! j = Some b -> flows branching_converter a b -> (j <= i)%nat ->
      reaches branching_converter b a).
Proof. apply analysis_order_correct; [by vm_compute|exact branching_well_formed]. Defined.
