(* ===== verification/ConversionTheorems.v ===== *)
(** What [convert_function] leaves in the nodes: the terminators, the merge information and the
    PHIs of the blocks. *)
From S2P Require Import Prelude.
From S2P Require Import LLVMType.
From S2P Require Import LLVMValue.
From S2P Require Import ModuleContext.
From S2P Require Import IR.
From S2P Require Import CFGNode.
From S2P Require Import CFGTraversal.
From S2P Require Import CFGGraph.
From S2P Require Import SpvBuilder.
From S2P Require Import SPIRVModule.
From S2P Require Import Converter.
From S2P Require Import LLVMBuiltins.
From S2P Require Import Instructions.
From S2P Require Import Arithmetic.
From S2P Require Import Dispatch.
From S2P Require Import FunctionConversion.
From S2P Require Import EmitFrame.
From S2P Require Import BlockOrder.
Local Open Scope Z_scope.
Local Open Scope dxil_scope.

(** * Steps that only change one node *)

Record same_program (s s' : ConverterImpl) : Prop := {
  sp_llvm : llvm s' = llvm s;
  sp_module : llvm_module s' = llvm_module s;
  sp_options : options s' = options s;
  sp_bb_map : bb_map s' = bb_map s;
}.
#[export] Instance same_program_preorder : PreOrder same_program.
Proof. split; [done|]. intros a b c [] []. split; congruence. Qed.

Lemma same_program_input s s' : same_program s s' -> same_input s s'.
Proof. intros []. split; [done|]. split; done. Qed.

(** An emitter adds operations, not always to the block that is being converted. *)
Definition operations_added (i j : IRBlock) : Prop :=
  phi j = phi i /\ merge_info j = merge_info i /\ terminator j = terminator i.

(** The node [r] may get a new block that [P] relates to its old one; the other nodes may get
    operations; nothing else changes. *)
Definition changes (r : nodref) (P : IRBlock -> IRBlock -> Prop) (p p' : CFGNodePool) : Prop :=
  length p' = length p /\
  forall q n, p !! q = Some n -> exists i, p' !! q = Some (set_ir i n) /\
    (q <> r -> operations_added (ir n) i) /\ (q = r -> P (ir n) i).

Lemma set_ir_ir n : set_ir (ir n) n = n.
Proof. by destruct n. Qed.

Lemma changes_refl r (P : IRBlock -> IRBlock -> Prop) p : (forall i, P i i) -> changes r P p p.
Proof. intros HP. split; [done|]. intros q n Hn. exists (ir n). rewrite set_ir_ir. done. Qed.

Lemma changes_trans r (P Q R : IRBlock -> IRBlock -> Prop) p p' p'' :
  changes r P p p' -> changes r Q p' p'' -> (forall i j k, P i j -> Q j k -> R i k) -> changes r R p p''.
Proof.
  intros (L1 & H1) (L2 & H2) HR. split; [congruence|]. intros q n Hn.
  destruct (H1 q n Hn) as (i & Hi & HO & HP). destruct (H2 q _ Hi) as (j & Hj & HO' & HQ). cbn in *.
  exists j. split; [by destruct n|]. split; [|eauto]. intros Hq.
  destruct (HO Hq) as (A1 & A2 & A3), (HO' Hq) as (B1 & B2 & B3). split; [congruence|]. split; congruence.
Qed.

Lemma changes_mono r (P Q : IRBlock -> IRBlock -> Prop) p p' :
  changes r P p p' -> (forall i j, P i j -> Q i j) -> changes r Q p p'.
Proof.
  intros (L & H) HPQ. split; [done|]. intros q n Hn. destruct (H q n Hn) as (i & Hi & HO & HP). exists i. auto.
Qed.

Record step_at (r : nodref) (P : IRBlock -> IRBlock -> Prop) (s s' : ConverterImpl) : Prop := {
  step_program : same_program s s';
  step_skip : skip_phi_preds s' = skip_phi_preds s;
  step_bb : current_bb s' = current_bb s;
  step_sinks : bb_to_sinks s' = bb_to_sinks s;
  step_nodes : changes r P (node_pool s) (node_pool s');
}.

Lemma step_trans r (P Q R : IRBlock -> IRBlock -> Prop) s t u :
  step_at r P s t -> step_at r Q t u -> (forall i j k, P i j -> Q j k -> R i k) -> step_at r R s u.
Proof.
  intros [] [] HR. split; [by etrans|congruence..|]. by eapply changes_trans.
Qed.
Lemma step_mono r (P Q : IRBlock -> IRBlock -> Prop) s t : step_at r P s t -> (forall i j, P i j -> Q i j) -> step_at r Q s t.
Proof. intros [] HPQ. split; try done. by eapply changes_mono. Qed.
Lemma step_refl r (P : IRBlock -> IRBlock -> Prop) s : (forall i, P i i) -> step_at r P s s.
Proof. intros HP. split; try done. by apply changes_refl. Qed.

(** An assignment to the block of a node. *)
Lemma update_changes r (f : CFGNode -> CFGNode) (g : IRBlock -> IRBlock) s a s' :
  on_nodes (update r f) s = Ok (a, s') -> (forall n, f n = set_ir (g (ir n)) n) ->
  step_at r (fun i j => j = g i) s s'.
Proof.
  intros E Hf. unfold on_nodes in E. apply zoom_Ok in E as (p & E & ->). apply update_inv in E as (n & Hn & ->).
  split; cbn; try done. split; [apply length_insert|]. intros q m Hm. destruct (decide (q = r)) as [->|Hq].
  - simplify_eq. exists (g (ir n)). by rewrite list_lookup_insert_eq, Hf by by eapply lookup_lt_Some.
  - exists (ir m). by rewrite list_lookup_insert_ne, set_ir_ir.
Qed.

Lemma frame_step r s s' : frame s s' -> step_at r operations_added s s'.
Proof.
  intros F. split; try apply F; [split; apply F|]. destruct (frame_nodes _ _ F) as [L H].
  split; [done|]. intros q n Hn. destruct (H q n Hn) as (l & Hl & _). eexists. by split.
Qed.

(** * The PHIs *)

Definition blocks_of (l : list IncomingValue) : list (option nodref) := incoming_block <$> l.

(** The incoming blocks of a PHI are those of an instruction of the module that were converted,
    without the edges in [skip]. *)
Record phi_converted (v : VState) (m : gmap vref nodref) (skip : list (option vref * option vref)) (bb : option vref)
    (x : PHI) : Prop := {
  phi_distinct : NoDup (blocks_of (phi_incoming x));
  phi_several : (2 <= length (phi_incoming x))%nat;
  phi_nonnull : None ∉ blocks_of (phi_incoming x);
  phi_source : exists r value inc, v_values v !! r = Some value /\ val_data value = PHINode inc /\
    forall node, Some node ∈ blocks_of (phi_incoming x) <->
      exists i w b, inc !! i = Some (w, Some b) /\ m !! b = Some node /\ (Some b, bb) ∉ skip;
}.

Lemma fold_c_Ok_inv {X A} (f : X -> A -> CM A) (I : list X -> A -> ConverterImpl -> Prop) l a s a' s' :
  fold_c f l a s = Ok (a', s') -> I [] a s ->
  (forall pre x post a s a' s', l = pre ++ x :: post -> I pre a s -> f x a s = Ok (a', s') -> I (pre ++ [x]) a' s') ->
  I l a' s'.
Proof.
  intros E H0 Hf.
  assert (forall post pre a s, l = pre ++ post -> I pre a s -> fold_c f post a s = Ok (a', s') -> I l a' s') as H;
    [|by apply (H l [] a s)].
  clear E H0 a s. induction post as [|x post IH]; intros pre a s El HI; simpl.
  - intros [= -> ->]. by rewrite app_nil_r in El; subst.
  - intros (a1 & s1 & E1 & E2)%bindM_Ok. eapply (IH (pre ++ [x])); [by rewrite <- (assoc (++))| |exact E2]. by eapply Hf.
Qed.

Section phi.
Context `{FreshMemory}.

Lemma keeps_phi_input r i l : preserves frame (phi_input r i l).
Proof. keep. Qed.
Lemma keeps_forward_phi r v : preserves frame (forward_phi r v).
Proof. keep. Qed.
Lemma keeps_phi_type r t : preserves frame (phi_type r t).
Proof. keep. Qed.

Lemma keeps_phi_header r : preserves frame (phi_header r).
Proof. pose proof keeps_phi_type. keep. Qed.

Definition phi_data (v : VState) (r : vref) (inc : list (option vref * option vref)) : Prop :=
  exists value, v_values v !! r = Some value /\ val_data value = PHINode inc.

Lemma incoming_block_at v r inc i o :
  phi_data v r inc -> PHINode_getIncomingBlock r (Z.of_nat i) v = Ok (o, v) ->
  forall b, o = Some b <-> exists w, inc !! i = Some (w, Some b).
Proof.
  intros (value & Hv & Hd) E b. unfold PHINode_getIncomingBlock, value_at in E. inv_run.
  match goal with H : Some _ = v_values v !! r |- _ => rewrite Hv in H; injection H as -> end.
  rewrite Hd in E. inv_run. unfold zlookup. rewrite Nat2Z.id.
  destruct (Z.leb_spec 0 (Z.of_nat i)); [|lia].
  destruct (inc !! i) as [[w o']|] eqn:Ei; cbn in *; subst.
  - split; [intros ->; eauto|by intros (w' & [= -> ->])].
  - split; [done|by intros (w & ?)].
Qed.

Definition counted s (inc : list (option vref * option vref)) (i : nat) (b : vref) (node : nodref) : Prop :=
  (exists w, inc !! i = Some (w, Some b)) /\ bb_map s !! b = Some node /\ (Some b, current_bb s) ∉ skip_phi_preds s.

(** One incoming value: it is left out, or it is the first of its block. *)
Lemma phi_input_inv r i l s l' s' inc :
  phi_data (llvm s) r inc -> phi_input r i l s = Ok (l', s') ->
  (l' = l /\ (forall b node, counted s inc i b node -> Some node ∈ blocks_of l)) \/
  (exists b node id, counted s inc i b node /\ (Some node ∉ blocks_of l) /\
     l' = l ++ [mkIncoming (Some node) id]).
Proof.
  intros Hp E. unfold phi_input in E. inv_run.
  match goal with H : on_llvm _ s = Ok (?o, ?t) |- _ => rename H into E0; rename o into ob; rename t into s1 end.
  pose proof (preserves_llvm eq _ (reads_incoming_block r (Z.of_nat i)) _ _ _ E0) as <-.
  apply zoom_Ok in E0 as (v & E0 & _). pose proof (reads_incoming_block _ _ _ _ _ E0) as <-.
  pose proof (incoming_block_at _ _ _ _ _ Hp E0) as Hob.
  case_bool_decide as Hskip; inv_run.
  { left. split; [done|]. intros b node (Hi & _ & Hns). exfalso. apply Hns.
    apply Hob in Hi as ->. done. }
  destruct ob as [b|]; cbn in E.
  2:{ inv_run. left. split; [done|]. intros b node (Hi & _). by apply Hob in Hi. }
  pose proof (proj1 (Hob b) eq_refl) as Hi.
  destruct (bb_map s !! b) as [node|] eqn:Hb.
  2:{ inv_run. left. split; [done|]. intros b' node (Hi' & Hb' & _). apply Hob in Hi'. simplify_eq. }
  case_bool_decide as Hin; inv_run.
  { left. split; [done|]. intros b' node' (Hi' & Hb' & _). apply Hob in Hi'. by simplify_eq. }
  right. eexists b, node, _. split; [done|]. split; [done|]. reflexivity.
Qed.

Lemma seq_split pre x post n : seq 0 n = pre ++ x :: post -> length pre = x.
Proof.
  intros E. assert (seq 0 n !! length pre = Some x) as [? ?]%lookup_seq by (rewrite E; by apply list_lookup_middle). lia.
Qed.

(** The list of all of them. *)
Lemma phi_inputs_inv r n l s s' inc :
  phi_data (llvm s) r inc -> fold_c (phi_input r) (seq 0 n) [] s = Ok (l, s') ->
  frame s s' /\ NoDup (blocks_of l) /\ (None ∉ blocks_of l) /\
  (forall node, Some node ∈ blocks_of l <-> exists i b, (i < n)%nat /\ counted s inc i b node).
Proof.
  intros Hp E. assert (n = length (seq 0 n)) as Hn by (by rewrite length_seq). rewrite Hn. clear Hn.
  apply (fold_c_Ok_inv _ (fun pre l s' => frame s s' /\ NoDup (blocks_of l) /\ (None ∉ blocks_of l) /\
    (forall node, Some node ∈ blocks_of l <-> exists i b, (i < length pre)%nat /\ counted s inc i b node))
    _ _ _ _ _ E).
  { cbn. split; [done|]. split; [constructor|]. split; [apply not_elem_of_nil|].
    intros node. rewrite elem_of_nil. split; [done|]. intros (i & b & Hi & _). lia. }
  intros pre x post l1 s1 l2 s2 El (HF & HN & HNone & HI) E1. apply seq_split in El.
  pose proof (keeps_phi_input _ _ _ _ _ _ E1) as HF1.
  apply (phi_input_inv _ _ _ _ _ _ inc) in E1; [|by rewrite (frame_llvm _ _ HF)].
  assert (forall b node, counted s1 inc x b node <-> counted s inc x b node) as Hs.
  { intros b node. unfold counted. by rewrite (frame_bb_map _ _ HF), (frame_bb _ _ HF), (frame_skip _ _ HF). }
  setoid_rewrite Hs in E1. split; [by etrans|]. rewrite length_app. cbn [length].
  destruct E1 as [[-> Hold]|(b & node & id & Hc & Hnew & ->)].
  - split; [done|]. split; [done|]. intros node. rewrite HI. split.
    + intros (i & b & Hi & Hr). exists i, b. split; [lia|done].
    + intros (i & b & Hi & Hr). destruct (decide (i = x)) as [->|]; [|exists i, b; split; [lia|done]].
      apply HI. by eapply Hold.
  - unfold blocks_of. rewrite fmap_app. cbn. split; [|split].
    + apply list.NoDup_app. split; [done|]. split; [by intros y Hy ->%list_elem_of_singleton|apply list.NoDup_singleton].
    + rewrite elem_of_app, list_elem_of_singleton. by intros [|].
    + intros nd. rewrite elem_of_app, list_elem_of_singleton, HI. split.
      * intros [(i & b' & Hi & Hr)|[= ->]]; [exists i, b'; split; [lia|done]|]. exists x, b. split; [lia|done].
      * intros (i & b' & Hi & Hr). destruct (decide (i = x)) as [->|]; [|left; exists i, b'; split; [lia|done]].
        right. destruct Hc as ([w Hc] & Hm & _), Hr as ([w' Hr] & Hm' & _). by simplify_eq.
Qed.
End phi.

(** * Instructions *)

(** What the instructions of a block add to its node. *)
Definition extends (v : VState) (m : gmap vref nodref) (skip : list (option vref * option vref)) (bb : option vref)
    (i j : IRBlock) : Prop :=
  merge_info j = merge_info i /\ terminator j = terminator i /\
  exists ps, phi j = phi i ++ ps /\ Forall (phi_converted v m skip bb) ps.

Lemma extends_refl v m skip bb i : extends v m skip bb i i.
Proof. split; [done|]. split; [done|]. exists []. by rewrite app_nil_r. Qed.
Lemma extends_trans v m skip bb i j k : extends v m skip bb i j -> extends v m skip bb j k -> extends v m skip bb i k.
Proof.
  intros (M1 & T1 & ps & P1 & F1) (M2 & T2 & qs & P2 & F2). split; [congruence|]. split; [congruence|].
  exists (ps ++ qs). rewrite P2, P1, (assoc (++)). split; [done|]. by apply Forall_app_2.
Qed.
Lemma added_extends v m skip bb i j : operations_added i j -> extends v m skip bb i j.
Proof. intros (P & M & T). split; [done|]. split; [done|]. exists []. by rewrite app_nil_r. Qed.

Definition extended (r : nodref) (s s' : ConverterImpl) : Prop :=
  step_at r (extends (llvm s) (bb_map s) (skip_phi_preds s) (current_bb s)) s s'.

Lemma extended_trans r s t u : extended r s t -> extended r t u -> extended r s u.
Proof.
  intros H1 H2. pose proof (step_program _ _ _ _ H1) as []. unfold extended in H2.
  rewrite (step_skip _ _ _ _ H1), (step_bb _ _ _ _ H1) in H2.
  eapply step_trans; [exact H1| |apply extends_trans]. congruence.
Qed.
Lemma extended_refl r s : extended r s s.
Proof. apply step_refl, extends_refl. Qed.
Lemma frame_extended r s s' : frame s s' -> extended r s s'.
Proof. intros F. eapply step_mono; [by apply frame_step|]. apply added_extends. Qed.

Lemma value_read_inv r v x v' : value_at r v = Ok (x, v') -> v' = v /\ v_values v !! r = Some x.
Proof. unfold value_at. intros E. inv_run. done. Qed.
Lemma data_of_inv r s d s' :
  data_of r s = Ok (d, s') -> s' = s /\ exists value, v_values (llvm s) !! r = Some value /\ val_data value = d.
Proof.
  unfold data_of, value. intros (x & s1 & (v & [-> Hx]%value_read_inv & ->)%zoom_Ok & [-> ->]%mret_inv)%bindM_Ok.
  split; [by destruct s|by eauto].
Qed.

Section instructions.
Context `{FramedEmitters} `{FreshMemory}.

Lemma emit_phi_step block r s b s' inc :
  phi_data (llvm s) r inc -> emit_phi_instruction block r s = Ok (b, s') -> extended block s s'.
Proof.
  intros Hp E. unfold emit_phi_instruction in E. apply bindM_Ok in E as (n & s1 & E1 & E).
  assert (s1 = s /\ n = zlength inc) as [-> ->].
  { destruct Hp as (value & Hv & Hd). apply zoom_Ok in E1 as (v & E1 & ->). unfold PHINode_getNumIncomingValues, value_at in E1.
    inv_run. match goal with K : Some _ = v_values _ !! r |- _ => rewrite Hv in K; injection K as -> end.
    rewrite Hd in E1. inv_run. by destruct s. }
  destruct (_ =? 1).
  { assert (preserves frame (o ← on_llvm (PHINode_getIncomingValue r 0); value ← derefM o; _ ← forward_phi r value; mret true)) as K.
    { keep. } apply frame_extended. by eapply K. }
  apply bindM_Ok in E as (x & s2 & E2 & E). apply bindM_Ok in E as (l & s3 & E3 & E).
  pose proof (keeps_phi_header _ _ _ _ E2) as F2.
  apply (phi_inputs_inv _ _ _ _ _ inc) in E3 as (F3 & HN & HNone & HI); [|by rewrite (frame_llvm _ _ F2)].
  assert (frame s s3) as F by by etrans.
  assert (forall A (m : CM A) a, preserves frame m -> m s3 = Ok (a, s') -> extended block s s') as Hframe.
  { intros A m a Hm Em. apply frame_extended. etrans; [exact F|by eapply Hm]. }
  destruct l as [|v [|w l]]; [eapply Hframe; [|exact E]; keep..|].
  apply bindM_Ok in E as ([] & s4 & E4 & [_ ->]%mret_inv).
  eapply extended_trans; [by eapply frame_extended|]. unfold push_phi in E4.
  apply (update_changes _ _ (fun i => mkIRBlock (phi i ++ [mkPHI (phi_id x) (phi_type_id x) (phi_relaxed x) (v :: w :: l)])
    (operations i) (merge_info i) (terminator i))) in E4; [|done].
  eapply step_mono; [exact E4|]. intros i j ->. split; [done|]. split; [done|]. eexists. split; [done|].
  apply list.Forall_singleton. split; cbn; [done|lia|done|].
  destruct Hp as (value & Hv & Hd). exists r, value, inc.
  rewrite (frame_llvm _ _ F), (frame_bb_map _ _ F), (frame_skip _ _ F), (frame_bb _ _ F).
  split; [done|]. split; [done|]. intros node. rewrite HI. unfold counted.
  rewrite (frame_bb_map _ _ F2), (frame_skip _ _ F2), (frame_bb _ _ F2). split.
  - intros (k & c & _ & [w' Hk] & Hm). by exists k, w', c.
  - intros (k & w' & c & Hk & Hm). exists k, c. split; [|by eauto].
    apply lookup_lt_Some in Hk. unfold zlength. lia.
Qed.

Lemma keeps_call_instruction r : preserves frame (emit_call_instruction r).
Proof. keep. Qed.

Lemma emit_instruction_step block r s b s' :
  emit_instruction block r s = Ok (b, s') -> extended block s s'.
Proof.
  intros E. unfold emit_instruction in E. apply bindM_Ok in E as (t & s1 & E1 & E).
  assert (s1 = s) as -> by (symmetry; revert E1; assert (preserves eq (on_llvm (Instruction_isTerminator r))) as G by keep; apply G).
  destruct t; [apply mret_inv in E as [_ ->]; apply extended_refl|].
  apply bindM_Ok in E as (o & s1 & [-> ->]%gets_inv & E). apply bindM_Ok in E as (se & s1 & E2 & E).
  assert (s1 = s) as ->.
  { symmetry. revert E2. destruct (eliminate_dead_code _); [|by intros [_ ->]%mret_inv].
    assert (preserves eq (instruction_has_side_effects r)) as G by keep. apply G. }
  apply bindM_Ok in E as (u & s1 & [-> ->]%gets_inv & E).
  destruct (_ && _); [apply mret_inv in E as [_ ->]; apply extended_refl|].
  apply bindM_Ok in E as ([] & s1 & ->%modify_inv & E). set (s1 := set_current_block (Some block) s) in E.
  assert (extended block s1 s' -> extended block s s') as Hpush by (intros [[] ? ? ? ?]; by split).
  apply Hpush. apply bindM_Ok in E as (d & s2 & E3 & E).
  apply data_of_inv in E3 as [-> Hd].
  assert (forall A (m : CM A) a, preserves frame m -> m s1 = Ok (a, s') -> extended block s1 s') as Hframe.
  { intros A m a Hm Em. apply frame_extended. by eapply Hm. }
  destruct d; try (eapply Hframe; [|exact E]; by apply keeps_llvm_instruction).
  - eapply Hframe; [|exact E]. pose proof keeps_dxil_instruction. pose proof keeps_call_instruction. keep.
  - eapply emit_phi_step; [exact Hd|exact E].
Qed.

Lemma emit_instructions_step block l s b s' : emit_instructions block l s = Ok (b, s') -> extended block s s'.
Proof.
  revert s. induction l as [|r l IH]; intros s E; simpl in E.
  - apply mret_inv in E as [_ ->]. apply extended_refl.
  - apply bindM_Ok in E as (x & s1 & E1 & E). apply emit_instruction_step in E1.
    destruct x; [|by apply mret_inv in E as [_ ->]]. eapply extended_trans; [exact E1|by apply IH].
Qed.

Lemma emit_sinks_step block l s b s' : emit_sinks block l s = Ok (b, s') -> extended block s s'.
Proof.
  revert s. induction l as [|r l IH]; intros s E; simpl in E.
  - apply mret_inv in E as [_ ->]. apply extended_refl.
  - apply bindM_Ok in E as ([] & s1 & ->%modify_inv & E). apply bindM_Ok in E as (x & s2 & E1 & E).
    apply emit_instruction_step in E1. set (s1 := set_value_map _ _) in E1.
    assert (extended block s s2) as H' by (destruct E1 as [[] ? ? ? ?]; by split).
    destruct x; [|by apply mret_inv in E as [_ ->]]. eapply extended_trans; [exact H'|by apply IH].
Qed.
End instructions.

(** * Terminators *)

Definition target (m : gmap vref nodref) (b : option vref) (o : option nodref) : Prop :=
  exists x n, b = Some x /\ m !! x = Some n /\ o = Some n.

(** A case of a switch and the value it is for. *)
Definition case_converted (s : ConverterImpl) (c : option vref * option vref) (k : Case) : Prop :=
  target (bb_map s) c.2 (case_node k) /\ is_default k = false /\
  exists x v, SwitchInst_getCaseValue c (llvm s) = Ok (x, llvm s) /\ integer_value x s = Ok (v, s) /\ case_value k = u32 v.

(** What becomes of the terminator [term] of a block. *)
Inductive terminator_converted (s : ConverterImpl) (term : vref) : ValueData -> Terminator -> Prop :=
| converted_jump b t : term_type t = TBranch -> target (bb_map s) b (direct_block t) ->
    terminator_converted s term (BranchInst [b] None) t
| converted_known bbs c v b t : static_branch term s = Ok (Some v, s) -> zlookup bbs (if v then 0 else 1) = Some b ->
    term_type t = TBranch -> target (bb_map s) b (direct_block t) ->
    terminator_converted s term (BranchInst bbs (Some c)) t
| converted_condition a b c t : static_branch term s = Ok (None, s) -> term_type t = TCondition ->
    target (bb_map s) a (true_block t) -> target (bb_map s) b (false_block t) ->
    terminator_converted s term (BranchInst [a; b] (Some c)) t
| converted_switch c d l k ks t : term_type t = TSwitch -> cases t = k :: ks -> is_default k = true ->
    target (bb_map s) d (case_node k) -> Forall2 (case_converted s) l ks ->
    terminator_converted s term (SwitchInst c d l) t
| converted_return v t : term_type t = TReturn -> terminator_converted s term (ReturnInst v) t
| converted_unreachable t : term_type t = TUnreachable -> terminator_converted s term UnreachableInst t.

(** The terminator may change; the rest of the block stays. *)
Definition terminator_step (Q : Terminator -> Terminator -> Prop) (i j : IRBlock) : Prop :=
  phi j = phi i /\ merge_info j = merge_info i /\ Q (terminator i) (terminator j).

Lemma update_terminator_step node f s a s' :
  update_terminator node f s = Ok (a, s') -> step_at node (terminator_step (fun t t' => t' = f t)) s s'.
Proof.
  intros E. unfold update_terminator in E.
  apply (update_changes _ _ (fun i => mkIRBlock (phi i) (operations i) (merge_info i) (f (terminator i)))) in E; [|done].
  eapply step_mono; [exact E|]. by intros i j ->.
Qed.

(** Steps that keep what a terminator is and where it leads; [K] says what else they keep. *)
Lemma step_terminator_trans node (P Q : Terminator -> Terminator -> Prop) (R : Terminator -> Terminator -> Prop) s t u :
  step_at node (terminator_step P) s t -> step_at node (terminator_step Q) t u ->
  (forall a b c, P a b -> Q b c -> R a c) -> step_at node (terminator_step R) s u.
Proof.
  intros H1 H2 HR. eapply step_trans; [exact H1|exact H2|].
  intros i j k (A1 & A2 & A3) (B1 & B2 & B3). split; [congruence|]. split; [congruence|]. by eapply HR.
Qed.

(** The hints of a terminator may change, its targets do not. *)
Definition same_targets (t t' : Terminator) : Prop :=
  term_type t' = term_type t /\ direct_block t' = direct_block t /\ true_block t' = true_block t /\
  false_block t' = false_block t /\ cases t' = cases t.
#[export] Instance same_targets_preorder : PreOrder same_targets.
Proof. split; [done|]. intros a b c (?&?&?&?&?) (?&?&?&?&?). repeat split; congruence. Qed.

Lemma same_targets_converted s term d t t' :
  same_targets t t' -> terminator_converted s term d t -> terminator_converted s term d t'.
Proof.
  intros (T & D & A & B & C) H. destruct H.
  - apply converted_jump; [by rewrite T|by rewrite D].
  - eapply converted_known; [done|done|by rewrite T|by rewrite D].
  - apply converted_condition; [done|by rewrite T|by rewrite A|by rewrite B].
  - eapply converted_switch; [by rewrite T|by rewrite C|done..].
  - apply converted_return. by rewrite T.
  - apply converted_unreachable. by rewrite T.
Qed.

(** A step that keeps the targets of the terminator at [node]. *)
Definition hints_only (node : nodref) : ConverterImpl -> ConverterImpl -> Prop := step_at node (terminator_step same_targets).

#[export] Instance hints_only_preorder node : PreOrder (hints_only node).
Proof.
  split.
  - intros s. by apply step_refl.
  - intros s t u H1 H2. eapply step_terminator_trans; [exact H1|exact H2|]. intros a b c ? ?. by etrans.
Qed.
Lemma frame_hints node s s' : frame s s' -> hints_only node s s'.
Proof.
  intros F. eapply step_mono; [by apply frame_step|]. intros i j (A & B & C). split; [done|]. split; [done|].
  by rewrite C.
Qed.

Lemma keeps_framed {A} node (m : CM A) : preserves frame m -> preserves (hints_only node) m.
Proof. intros Hm s a s' E. apply frame_hints. by eapply Hm. Qed.
Lemma keeps_hints node f :
  (forall t, same_targets t (f t)) -> preserves (hints_only node) (update_terminator node f).
Proof.
  intros Hf s a s' E. eapply step_mono; [by eapply update_terminator_step|]. intros i j (A & B & C).
  split; [done|]. split; [done|]. rewrite C. apply Hf.
Qed.

Ltac keep_hints := idtac; lazymatch goal with
  | |- preserves (hints_only _) (update_terminator _ _) => apply keeps_hints; done
  | |- preserves (hints_only _) (get_constant_metadata _ _) => apply keeps_framed; keep
  | |- preserves (hints_only _) (get_id_for_value _) => apply keeps_framed, keeps_get_id_for_value
  end.
Lemma keeps_loop_property node term : preserves (hints_only node) (apply_loop_property node term).
Proof. keep_with keep_hints. Qed.

Lemma preserved_eq {A} (m : CM A) s a s' : preserves eq m -> m s = Ok (a, s') -> s' = s.
Proof. intros Hm E. symmetry. by eapply Hm. Qed.

Definition data_is (s : ConverterImpl) (r : vref) (d : ValueData) : Prop :=
  exists value, v_values (llvm s) !! r = Some value /\ val_data value = d.

Lemma data_is_same s t r d : same_program s t -> data_is s r d -> data_is t r d.
Proof. intros [E _ _ _]. unfold data_is. by rewrite E. Qed.

(** An accessor that looks at the data of an instruction. *)
Ltac by_data := 
  match goal with
  | H : data_is ?s ?r _, E : on_llvm _ ?s = Ok (_, _) |- _ =>
      destruct H as (? & ?Hv & ?Hd); apply zoom_Ok in E as (? & E & ->);
      unfold BranchInst_isConditional, BranchInst_getSuccessor, BranchInst_getNumSuccessors, BranchInst_getCondition,
        SwitchInst_getDefaultDest, SwitchInst_getCondition, ReturnInst_getReturnValue in E;
      apply bindM_Ok in E as (? & ? & [-> ?Hx]%value_read_inv & E); simplify_eq; 
      match goal with D : val_data _ = _ |- _ => rewrite D in E end
  end.

Lemma is_conditional_inv s term bbs c b s' :
  data_is s term (BranchInst bbs c) -> on_llvm (BranchInst_isConditional term) s = Ok (b, s') ->
  s' = s /\ b = bool_decide (is_Some c).
Proof. intros H E. by_data. inv_run. split; [by destruct s|done]. Qed.

Lemma successor_inv s term bbs c i y s' :
  data_is s term (BranchInst bbs c) -> successor term i s = Ok (y, s') -> s' = s /\ zlookup bbs i = Some (Some y).
Proof.
  intros H E. unfold successor in E. apply bindM_Ok in E as (o & s1 & E & E'). by_data. inv_run.
  split; [by destruct s|]. congruence.
Qed.
Lemma get_successor_inv s term bbs c i y s' :
  data_is s term (BranchInst bbs c) -> on_llvm (BranchInst_getSuccessor term i) s = Ok (y, s') -> s' = s.
Proof. intros H E. by_data. inv_run. by destruct s. Qed.
Lemma successors_count_inv s term bbs c n s' :
  data_is s term (BranchInst bbs c) -> on_llvm (BranchInst_getNumSuccessors term) s = Ok (n, s') -> s' = s /\ n = zlength bbs.
Proof. intros H E. by_data. inv_run. split; [by destruct s|done]. Qed.

Lemma node_of_inv b s n s' : node_of b s = Ok (n, s') -> s' = s /\ bb_map s !! b = Some n.
Proof. unfold node_of. intros E. inv_run. by split. Qed.

Lemma static_branch_intro s term bbs c0 oc c known s1 s2 :
  data_is s term (BranchInst bbs (Some c0)) -> on_llvm (BranchInst_getCondition term) s = Ok (oc, s1) ->
  derefM oc s1 = Ok (c, s1) -> can_optimize_conditional_branch_to_static c s1 = Ok (known, s2) ->
  s1 = s /\ s2 = s /\ static_branch term s = Ok (known, s).
Proof.
  intros H E1 E2 E3.
  assert (s1 = s) as -> by (eapply preserved_eq; [|exact E1]; keep).
  assert (depends (can_optimize_conditional_branch_to_static c)) as D by depend.
  pose proof (D s s ltac:(done)) as Ds. rewrite E3 in Ds. destruct Ds as [-> _]. split; [done|]. split; [done|].
  unfold static_branch. destruct H as (value & Hv & Hd).
  assert (data_of term s = Ok (BranchInst bbs (Some c0), s)) as Hdata.
  { unfold data_of, Converter.value, on_llvm, zoom, value_at, gets, mbind, M_bind, derefM, lift, some_or_ub, mret, M_ret.
    rewrite Hv. cbn. rewrite Hd. by destruct s. }
  apply bindM_Ok. eexists _, _. split; [exact Hdata|]. apply bindM_Ok. eexists _, _. split; [exact E1|].
  apply bindM_Ok. eexists _, _. split; [exact E2|exact E3].
Qed.

Lemma static_branch_same s t term known :
  same_program s t -> static_branch term t = Ok (known, t) -> static_branch term s = Ok (known, s).
Proof.
  intros P E. pose proof (depends_static_branch term t s) as D. rewrite E in D. apply D. destruct P. by split.
Qed.

(** The conversion of the end of a block: [term] becomes the terminator of [node], and the edge that
    a known condition removes is remembered. *)
Record converts (bb : vref) (node : nodref) (term : vref) (Q : Terminator -> Terminator -> Prop) (s s' : ConverterImpl)
    : Prop := {
  converts_program : same_program s s';
  converts_skip : exists l, skip_phi_preds s' = skip_phi_preds s ++ l /\
    Forall (fun p => p.1 = Some bb /\ exists v, static_branch term s = Ok (Some v, s)) l;
  converts_nodes : changes node (terminator_step Q) (node_pool s) (node_pool s');
}.

Lemma step_converts bb node term Q s s' : step_at node (terminator_step Q) s s' -> converts bb node term Q s s'.
Proof. intros []. split; [done| |done]. exists []. by rewrite app_nil_r. Qed.

Section terminators.
Context `{FreshMemory}.

Lemma target_intro s m b y n : b = Some y -> bb_map s !! y = Some n -> m = bb_map s -> target m b (Some n).
Proof. intros -> Hn ->. by exists y, n. Qed.

(** The last assignment decides what the terminator is; a later step may add hints. *)
Lemma assigned_then_hints node f d term s s1 s2 s3 a :
  hints_only node s s1 -> update_terminator node f s1 = Ok (a, s2) -> hints_only node s2 s3 ->
  (forall t, terminator_converted s term d (f t)) ->
  step_at node (terminator_step (fun _ t => terminator_converted s term d t)) s s3.
Proof.
  intros H1 E H3 Hf. apply update_terminator_step in E.
  assert (step_at node (terminator_step (fun t t'' => same_targets (f t) t'')) s1 s3) as H2.
  { eapply step_terminator_trans; [exact E|exact H3|]. by intros t t' t'' ->. }
  eapply step_terminator_trans; [exact H1|exact H2|]. intros t t' t'' _ HT.
  eapply same_targets_converted; [exact HT|apply Hf].
Qed.

Lemma keeps_controlflow_hints node term : preserves (hints_only node) (apply_controlflow_hints node term).
Proof. keep_with keep_hints. Qed.

Lemma zlookup_single {A} (l : list A) x : zlookup l 0 = Some x -> zlength l = 1 -> l = [x].
Proof.
  unfold zlookup, zlength. destruct l as [|a [|b l]]; intros E L; try (simpl in L; lia). cbn in E. by injection E as ->.
Qed.
Lemma zlookup_pair {A} (l : list A) x y : zlookup l 0 = Some x -> zlookup l 1 = Some y -> zlength l = 2 -> l = [x; y].
Proof.
  unfold zlookup, zlength. destruct l as [|a [|b [|c l]]]; intros E1 E2 L; try (simpl in L; lia).
  cbn in E1. injection E1 as ->. cbv in E2. by injection E2 as ->.
Qed.

Lemma convert_branch_converts bb node term hp s x s' bbs c :
  data_is s term (BranchInst bbs c) -> convert_branch bb node term hp s = Ok (x, s') ->
  converts bb node term (fun _ t => terminator_converted s term (BranchInst bbs c) t) s s'.
Proof.
  intros HD E. unfold convert_branch in E. apply bindM_Ok in E as (partial & s1 & E1 & E).
  apply keeps_loop_property with (node := node) in E1 as H1. pose proof (step_program _ _ _ _ H1) as P1.
  pose proof (data_is_same _ _ _ _ P1 HD) as D1. pose proof (sp_bb_map _ _ P1) as M1.
  apply bindM_Ok in E as (cond & s2 & E2 & E). apply (is_conditional_inv _ _ _ _ _ _ D1) in E2 as [-> ->].
  destruct c as [c0|]; cbn in E.
  - apply bindM_Ok in E as (oc & s2 & E2 & E). apply bindM_Ok in E as (c & s3 & E3 & E).
    apply bindM_Ok in E as (known & s4 & E4 & E). assert (s3 = s2) as -> by (by apply derefM_inv in E3 as [_ ->]).
    destruct (static_branch_intro _ _ _ _ _ _ _ _ _ D1 E2 E3 E4) as (-> & -> & Hk). clear E2 E3 E4.
    apply (static_branch_same _ _ _ _ P1) in Hk. destruct known as [v|].
    + apply bindM_Ok in E as (y & s2 & E2 & E). apply (successor_inv _ _ _ _ _ _ _ D1) in E2 as [-> Hy].
      apply bindM_Ok in E as (to & s2 & E2 & E). apply node_of_inv in E2 as [-> Hto].
      apply bindM_Ok in E as ([] & s2 & E2 & E).
      assert (step_at node (terminator_step (fun _ t => terminator_converted s term (BranchInst bbs (Some c0)) t)) s s2) as S.
      { eapply assigned_then_hints; [exact H1|exact E2|reflexivity|]. intros t.
        eapply converted_known; [done|done|done|]. by eapply target_intro. }
      apply bindM_Ok in E as (other & s3 & E3 & E).
      assert (s3 = s2) as -> by (eapply preserved_eq; [|exact E3]; keep).
      apply bindM_Ok in E as ([] & s3 & ->%modify_inv & [_ ->]%mret_inv). destruct S as [P K _ _ N]. split; [by destruct P| |done].
      cbn. rewrite K. eexists. split; [done|]. apply list.Forall_singleton. split; [done|]. by exists v.
    + apply bindM_Ok in E as (id & s2 & E2 & E). apply keeps_get_id_for_value in E2 as F2.
      assert (hints_only node s s2) as H2 by (etrans; [exact H1|by apply frame_hints]).
      pose proof (step_program _ _ _ _ H2) as P2. pose proof (data_is_same _ _ _ _ P2 HD) as D2.
      pose proof (sp_bb_map _ _ P2) as M2. clear E2.
      apply bindM_Ok in E as (n & s3 & E2 & E). apply (successors_count_inv _ _ _ _ _ _ D2) in E2 as [-> ->].
      apply bindM_Ok in E as ([] & s3 & E2 & E). apply assertM_inv in E2 as [Hn ->].
      apply bindM_Ok in E as (y & s3 & E2 & E). apply (successor_inv _ _ _ _ _ _ _ D2) in E2 as [-> Hy].
      apply bindM_Ok in E as (a & s3 & E2 & E). apply node_of_inv in E2 as [-> Ha].
      apply bindM_Ok in E as (z & s3 & E2 & E). apply (successor_inv _ _ _ _ _ _ _ D2) in E2 as [-> Hz].
      apply bindM_Ok in E as (b & s3 & E2 & E). apply node_of_inv in E2 as [-> Hb].
      apply bindM_Ok in E as ([] & s3 & E2 & E). apply bindM_Ok in E as ([] & s4 & E3 & [_ ->]%mret_inv).
      apply keeps_controlflow_hints with (node := node) in E3. apply step_converts.
      eapply assigned_then_hints; [exact H2|exact E2|exact E3|]. intros t.
      rewrite (zlookup_pair _ _ _ Hy Hz) by lia.
      apply converted_condition; [done|done|by eapply target_intro|by eapply target_intro].
  - apply bindM_Ok in E as (n & s3 & E2 & E). apply (successors_count_inv _ _ _ _ _ _ D1) in E2 as [-> ->].
    apply bindM_Ok in E as ([] & s3 & E2 & E). apply assertM_inv in E2 as [Hn ->].
    apply bindM_Ok in E as (y & s3 & E2 & E). apply (successor_inv _ _ _ _ _ _ _ D1) in E2 as [-> Hy].
    apply bindM_Ok in E as (to & s3 & E2 & E). apply node_of_inv in E2 as [-> Hto].
    apply bindM_Ok in E as ([] & s3 & E2 & E). apply bindM_Ok in E as ([] & s4 & E3 & [_ ->]%mret_inv).
    apply step_converts. eapply assigned_then_hints; [exact H1|exact E2| |].
    + destruct (hp || partial); [|by apply mret_inv in E3 as [_ ->]]. revert E3. by apply keeps_hints.
    + intros t. rewrite (zlookup_single _ _ Hy) by lia. apply converted_jump; [done|]. by eapply target_intro.
Qed.

Lemma getCaseValue_reads c : preserves eq (SwitchInst_getCaseValue c).
Proof. keep. Qed.
Lemma depends_integer_value x : depends (integer_value x).
Proof. depend. Qed.

Lemma case_converted_same s t c k : same_program s t -> case_converted t c k -> case_converted s c k.
Proof.
  intros P (HT & Hd & x & v & Hx & Hv & Hk). pose proof P as [E1 E2 E3 E4]. unfold case_converted. rewrite <- E4.
  split; [done|]. split; [done|]. exists x, v. rewrite E1 in Hx. split; [done|]. split; [|done].
  pose proof (depends_integer_value x t s) as D. rewrite Hv in D. by apply D.
Qed.

Lemma switch_case_inv c s k s' : switch_case c s = Ok (k, s') -> s' = s /\ case_converted s c k.
Proof.
  intros E. unfold switch_case in E. apply bindM_Ok in E as (b & s1 & [Hb ->]%derefM_inv & E).
  apply bindM_Ok in E as (node & s1 & [-> Hn]%node_of_inv & E). apply bindM_Ok in E as (x & s1 & E1 & E).
  apply zoom_Ok in E1 as (v & E1 & ->). pose proof (getCaseValue_reads _ _ _ _ E1) as <-.
  replace (set_llvm (llvm s) s) with s in E by by destruct s.
  apply bindM_Ok in E as (n & s1 & E2 & [-> ->]%mret_inv). pose proof (depends_integer_value x s s ltac:(done)) as D.
  rewrite E2 in D. destruct D as [-> _]. split; [done|]. split; [by eapply target_intro|]. split; [done|].
  by exists x, n.
Qed.

Lemma switch_cases_inv l s ks s' : mapM_list switch_case l s = Ok (ks, s') -> s' = s /\ Forall2 (case_converted s) l ks.
Proof.
  revert ks. induction l as [|c l IH]; intros ks E; simpl in E.
  - apply mret_inv in E as [-> ->]. by split; [|constructor].
  - apply bindM_Ok in E as (k & s1 & [-> Hk]%switch_case_inv & E). apply bindM_Ok in E as (ks' & s1 & E & [-> ->]%mret_inv).
    apply IH in E as [-> Hl]. split; [done|]. by constructor.
Qed.

Lemma convert_switch_step node term s u s' c d l :
  data_is s term (SwitchInst c d l) -> convert_switch node term l s = Ok (u, s') ->
  step_at node (terminator_step (fun t t' => cases t = [] -> terminator_converted s term (SwitchInst c d l) t')) s s'.
Proof.
  intros HD E. unfold convert_switch in E. apply bindM_Ok in E as (o & s1 & E1 & E).
  assert (s1 = s /\ o = d) as [-> ->] by (by_data; inv_run; split; [by destruct s|done]). clear E1.
  apply bindM_Ok in E as (db & s1 & [Hd ->]%derefM_inv & E). apply bindM_Ok in E as (dn & s1 & [-> Hn]%node_of_inv & E).
  apply bindM_Ok in E as (o & s1 & E1 & E). assert (s1 = s) as -> by (eapply preserved_eq; [|exact E1]; keep).
  apply bindM_Ok in E as (k & s1 & [_ ->]%derefM_inv & E). apply bindM_Ok in E as (id & s2 & E2 & E).
  apply keeps_get_id_for_value in E2. apply (frame_hints node) in E2. pose proof (step_program _ _ _ _ E2) as P.
  apply bindM_Ok in E as (ks & s3 & [-> Hl]%switch_cases_inv & E). apply update_terminator_step in E.
  eapply step_terminator_trans; [exact E2|exact E|]. intros t t' t'' (_ & _ & _ & _ & Hc) -> Ht. cbn in *.
  eapply converted_switch; cbn; [done|by rewrite Hc, Ht|done|by eapply target_intro|].
  eapply Forall2_impl; [|exact Hl]. intros p q. by apply case_converted_same.
Qed.

(** The end of a block. *)
Lemma convert_terminator_converts bb node hp s x s' :
  convert_terminator bb node hp s = Ok (Some x, s') -> exists term d,
    terminator_of bb s = Ok (term, s) /\ data_is s term d /\
    converts bb node term (fun t t' => cases t = [] -> terminator_converted s term d t') s s'.
Proof.
  intros E. unfold convert_terminator in E. apply bindM_Ok in E as (term & s1 & E1 & E).
  assert (s1 = s) as -> by (eapply preserved_eq; [|exact E1]; keep). exists term.
  apply bindM_Ok in E as (d & s1 & [-> HD]%data_of_inv & E). exists d. split; [done|]. split; [done|].
  assert (forall (Q : Terminator -> Terminator -> Prop), (forall t t', Q t t' -> terminator_converted s term d t') ->
    converts bb node term Q s s' -> converts bb node term (fun t t' => cases t = [] -> terminator_converted s term d t') s s')
    as Hweak.
  { intros Q HQ [A B C]. split; [done|done|]. eapply changes_mono; [exact C|]. intros i j (P1 & P2 & P3).
    split; [done|]. split; [done|]. intros _. by eapply HQ. }
  destruct d; try by (apply mret_inv in E as [? _]).
  - apply bindM_Ok in E as ([] & s1 & E2 & E). apply bindM_Ok in E as (o & s2 & E3 & E).
    assert (s2 = s1) as -> by (eapply preserved_eq; [|exact E3]; keep).
    apply bindM_Ok in E as ([] & s2 & E4 & [_ ->]%mret_inv). apply update_terminator_step in E2.
    apply (Hweak (fun _ t => term_type t = TReturn)); [by intros; apply converted_return|]. apply step_converts.
    destruct o as [v|].
    + apply bindM_Ok in E4 as (id & s3 & E5 & E4). apply keeps_get_id_for_value, (frame_hints node) in E5.
      apply update_terminator_step in E4. eapply step_terminator_trans; [exact E2| |].
      * eapply (step_terminator_trans _ _ _ (fun _ t => term_type t = TReturn)); [exact E5|exact E4|]. by intros a b c _ ->.
      * done.
    + apply mret_inv in E4 as [_ ->]. eapply step_mono; [exact E2|]. intros i j (? & ? & HQ). split; [done|]. split; [done|].
      by rewrite HQ.
  - apply bindM_Ok in E as ([] & s1 & E2 & [_ ->]%mret_inv). apply update_terminator_step in E2.
    apply (Hweak (fun _ t => term_type t = TUnreachable)); [by intros; apply converted_unreachable|]. apply step_converts.
    eapply step_mono; [exact E2|]. intros i j (? & ? & HQ). split; [done|]. split; [done|]. by rewrite HQ.
  - apply bindM_Ok in E as (y & s1 & E2 & [_ ->]%mret_inv). eapply Hweak; [|by eapply convert_branch_converts]. done.
  - apply bindM_Ok in E as ([] & s1 & E2 & [_ ->]%mret_inv). apply step_converts. by eapply convert_switch_step.
Qed.
End terminators.

(** * Blocks *)

Definition merge_of (m : gmap vref nodref) (d : BasicBlockData) : MergeInfo :=
  match bb_merge d with
  | LLVMValue.MergeNone => MergeInfo_default
  | LLVMValue.MergeSelection => mkMergeInfo MergeSelection (bb_merge_bb d ≫= fun b => m !! b) None 0 0
  | LLVMValue.MergeLoop =>
      mkMergeInfo MergeLoop (bb_merge_bb d ≫= fun b => m !! b) (bb_continue_bb d ≫= fun b => m !! b) 0 0
  end.

Definition merge_step (f : MergeInfo -> MergeInfo) (i j : IRBlock) : Prop :=
  phi j = phi i /\ terminator j = terminator i /\ merge_info j = f (merge_info i).

Lemma update_merge_step node f s a s' : update_merge_info node f s = Ok (a, s') -> step_at node (merge_step f) s s'.
Proof.
  intros E. apply (update_changes _ _ (fun i => mkIRBlock (phi i) (operations i) (f (merge_info i)) (terminator i))) in E; [|done].
  eapply step_mono; [exact E|]. by intros i j ->.
Qed.

Lemma merge_step_trans node f g s t u :
  step_at node (merge_step f) s t -> step_at node (merge_step g) t u -> step_at node (merge_step (fun x => g (f x))) s u.
Proof.
  intros H1 H2. eapply step_trans; [exact H1|exact H2|]. intros i j k (A1 & A2 & A3) (B1 & B2 & B3).
  split; [congruence|]. split; congruence.
Qed.

Lemma forward_block_step node b (set : option nodref -> MergeInfo -> MergeInfo) s a s' :
  forward_block node b set s = Ok (a, s') ->
  step_at node (merge_step (fun x => match b ≫= fun b => bb_map s !! b with Some n => set (Some n) x | None => x end)) s s'.
Proof.
  unfold forward_block. intros (m & s1 & [-> ->]%gets_inv & E)%bindM_Ok.
  destruct (b ≫= _) as [n|]; [by eapply update_merge_step|]. apply mret_inv in E as [_ ->]. by apply step_refl.
Qed.

Lemma bb_at_inv bb s d s' : on_llvm (bb_at bb) s = Ok (d, s') -> s' = s /\ bb_at bb (llvm s) = Ok (d, llvm s).
Proof.
  intros (v & E & ->)%zoom_Ok. pose proof (reads_bb_at _ _ _ _ E) as <-. split; [by destruct s|done].
Qed.

Lemma forward_merge_step bb node s a s' :
  forward_merge bb node s = Ok (a, s') -> exists d, bb_at bb (llvm s) = Ok (d, llvm s) /\
  step_at node (fun i j => phi j = phi i /\ terminator j = terminator i /\
    (merge_info i = MergeInfo_default -> merge_info j = merge_of (bb_map s) d)) s s'.
Proof.
  unfold forward_merge. intros (d & s1 & [-> Hd]%bb_at_inv & E)%bindM_Ok. exists d. split; [done|]. unfold merge_of.
  destruct (bb_merge d).
  - apply mret_inv in E as [_ ->]. by apply step_refl.
  - apply bindM_Ok in E as ([] & s1 & E1%update_merge_step & E2%forward_block_step).
    pose proof (sp_bb_map _ _ (step_program _ _ _ _ E1)) as M. rewrite M in E2.
    eapply step_mono; [eapply merge_step_trans; [exact E1|exact E2]|]. intros i j (A & B & C).
    split; [done|]. split; [done|]. intros Hi. rewrite C, Hi. by destruct (_ ≫= _).
  - apply bindM_Ok in E as ([] & s1 & E1%update_merge_step & E). apply bindM_Ok in E as ([] & s2 & E2%forward_block_step & E3%forward_block_step).
    pose proof (sp_bb_map _ _ (step_program _ _ _ _ E1)) as M1. pose proof (sp_bb_map _ _ (step_program _ _ _ _ E2)) as M2.
    rewrite M2, M1 in E3. rewrite M1 in E2.
    eapply step_mono; [eapply merge_step_trans; [eapply merge_step_trans; [exact E1|exact E2]|exact E3]|]. intros i j (A & B & C).
    split; [done|]. split; [done|]. intros Hi. rewrite C, Hi.
    by destruct (bb_merge_bb d ≫= _), (bb_continue_bb d ≫= _).
Qed.

(** ** What a block becomes *)

(** A block whose branch has a condition that is known. *)
Definition known_block (s : ConverterImpl) (bb : vref) : Prop :=
  exists term v, terminator_of bb s = Ok (term, s) /\ static_branch term s = Ok (Some v, s).

(** The incoming blocks of a PHI are among those of the instruction, each once, and only those are
    missing that were not converted or end in a branch with a known condition. *)
Record phi_faithful (s : ConverterImpl) (x : PHI) : Prop := {
  faithful_distinct : NoDup (blocks_of (phi_incoming x));
  faithful_several : (2 <= length (phi_incoming x))%nat;
  faithful_source : exists r inc, data_is s r (PHINode inc) /\
    (forall o, o ∈ blocks_of (phi_incoming x) -> exists i w b, inc !! i = Some (w, Some b) /\ target (bb_map s) (Some b) o) /\
    (forall i w b node, inc !! i = Some (w, Some b) -> bb_map s !! b = Some node -> ~ known_block s b ->
       Some node ∈ blocks_of (phi_incoming x));
}.

Record block_converted (s : ConverterImpl) (bb : vref) (i : IRBlock) : Prop := {
  conv_phis : Forall (phi_faithful s) (phi i);
  conv_merge : exists d, bb_at bb (llvm s) = Ok (d, llvm s) /\ merge_info i = merge_of (bb_map s) d;
  conv_terminator : exists term d, terminator_of bb s = Ok (term, s) /\ data_is s term d /\
    terminator_converted s term d (terminator i);
}.

(** The edges that PHIs leave out come from branches with a known condition. *)
Definition skip_known (s : ConverterImpl) (skip : list (option vref * option vref)) : Prop :=
  Forall (fun p => exists b, p.1 = Some b /\ known_block s b) skip.

Lemma converted_faithful s skip bb x :
  skip_known s skip -> phi_converted (llvm s) (bb_map s) skip bb x -> phi_faithful s x.
Proof.
  intros Hskip [H1 H2 H3 (r & value & inc & Hv & Hd & H4)]. split; [done|done|].
  exists r, inc. split; [by exists value|]. split.
  - intros [node|] Ho; [|done]. apply H4 in Ho as (i & w & b & Hi & Hm & _). exists i, w, b.
    split; [done|]. by exists b, node.
  - intros i w b node Hi Hm Hk. apply H4. exists i, w, b. split; [done|]. split; [done|]. intros Hin.
    unfold skip_known in Hskip. rewrite list.Forall_forall in Hskip. by apply Hskip in Hin as (b' & [= ->] & ?).
Qed.

(** ** What is known of a block does not depend on the state of the conversion *)

Lemma depends_terminator_of bb : depends (terminator_of bb).
Proof. depend. Qed.

Lemma depends_Ok {A} (m : CM A) s t a : depends m -> same_program s t -> m s = Ok (a, s) -> m t = Ok (a, t).
Proof. intros D [E1 E2 E3 _] E. pose proof (D s t ltac:(by split)) as K. rewrite E in K. apply K. Qed.

Lemma same_program_sym s t : same_program s t -> same_program t s.
Proof. intros []. by split. Qed.

Lemma known_block_same s t bb : same_program s t -> known_block s bb -> known_block t bb.
Proof.
  intros P (term & v & E1 & E2). exists term, v.
  split; [eapply depends_Ok; [apply depends_terminator_of|done..]|eapply depends_Ok; [apply depends_static_branch|done..]].
Qed.
Lemma skip_known_same s t l : same_program s t -> skip_known s l -> skip_known t l.
Proof.
  intros P H. eapply list.Forall_impl; [exact H|]. intros p (b & Hb & K). exists b. split; [done|]. by eapply known_block_same.
Qed.

Lemma terminator_converted_same s t term d x :
  same_program s t -> terminator_converted s term d x -> terminator_converted t term d x.
Proof.
  intros P H. pose proof (sp_bb_map _ _ P) as M.
  assert (forall k, static_branch term s = Ok (k, s) -> static_branch term t = Ok (k, t)) as Hb.
  { intros k. eapply depends_Ok; [apply depends_static_branch|done]. }
  destruct H.
  - apply converted_jump; [done|by rewrite M].
  - eapply converted_known; [by apply Hb|done|done|by rewrite M].
  - apply converted_condition; [by apply Hb|done|by rewrite M|by rewrite M].
  - eapply converted_switch; [done|done|done|by rewrite M|]. eapply Forall2_impl; [|eassumption]. intros p q.
    by apply case_converted_same, same_program_sym.
  - by apply converted_return.
  - by apply converted_unreachable.
Qed.

Lemma phi_faithful_same s t x : same_program s t -> phi_faithful s x -> phi_faithful t x.
Proof.
  intros P [H1 H2 (r & inc & Hd & H3 & H4)]. pose proof (sp_bb_map _ _ P) as M. split; [done|done|].
  exists r, inc. split; [by eapply data_is_same|]. rewrite M. split; [done|].
  intros i w b node Hi Hb Hk. eapply H4; [done|done|]. intros K. apply Hk. by eapply known_block_same.
Qed.

Lemma block_converted_same s t bb i : same_program s t -> block_converted s bb i -> block_converted t bb i.
Proof.
  intros P [H1 (d & H2 & H2') (term & td & H3 & H4 & H5)]. split.
  - eapply list.Forall_impl; [exact H1|]. intros x. by apply phi_faithful_same.
  - exists d. by rewrite (sp_llvm _ _ P), (sp_bb_map _ _ P).
  - exists term, td. split; [eapply depends_Ok; [apply depends_terminator_of|done..]|].
    split; [by eapply data_is_same|by eapply terminator_converted_same].
Qed.

Lemma block_converted_added s bb i j : operations_added i j -> block_converted s bb i -> block_converted s bb j.
Proof. intros (A & B & C) []. split; [by rewrite A|by rewrite B|by rewrite C]. Qed.

(** ** One block *)

Class FramedPrologue `{FunctionPrologue} : Prop :=
  framed_prologue : forall node primary_code, preserves frame (emit_prologue node primary_code).

(** A step of the conversion of the block at [node]. *)
Record block_step (node : nodref) (P : IRBlock -> IRBlock -> Prop) (s s' : ConverterImpl) : Prop := {
  bs_program : same_program s s';
  bs_skip : skip_known s (skip_phi_preds s) -> skip_known s (skip_phi_preds s');
  bs_nodes : changes node P (node_pool s) (node_pool s');
}.

Lemma block_step_trans node (P Q R : IRBlock -> IRBlock -> Prop) s t u :
  block_step node P s t -> block_step node Q t u -> (forall i j k, P i j -> Q j k -> R i k) -> block_step node R s u.
Proof.
  intros [A1 B1 C1] [A2 B2 C2] HR. split; [by etrans| |by eapply changes_trans].
  intros K. eapply skip_known_same; [by apply same_program_sym|]. apply B2. eapply skip_known_same; [exact A1|auto].
Qed.
Lemma block_step_mono node (P Q : IRBlock -> IRBlock -> Prop) s t :
  block_step node P s t -> (forall i j, P i j -> Q i j) -> block_step node Q s t.
Proof. intros [A B C] H. split; [done|done|by eapply changes_mono]. Qed.
Lemma step_block node P s s' : step_at node P s s' -> block_step node P s s'.
Proof. intros [A B _ _ C]. split; [done|by rewrite B|done]. Qed.
(** Other members of the state. *)
Lemma modify_block node (f : ConverterImpl -> ConverterImpl) s :
  same_program s (f s) -> skip_phi_preds (f s) = skip_phi_preds s -> node_pool (f s) = node_pool s ->
  block_step node eq s (f s).
Proof. intros A B C. split; [done|by rewrite B|]. rewrite C. by apply changes_refl. Qed.

Section blocks.
Context `{FramedEmitters} `{FreshMemory} `{!FunctionPrologue} `{!FramedPrologue}.

Lemma extended_block node s s' :
  extended node s s' -> block_step node (extends (llvm s) (bb_map s) (skip_phi_preds s) (current_bb s)) s s'.
Proof. apply step_block. Qed.

(** The instructions of a block and those that are sunk into it; nothing is known of the node yet. *)
Definition filled (s : ConverterImpl) (i j : IRBlock) : Prop :=
  phi i = [] -> merge_info j = merge_info i /\ terminator j = terminator i /\
  (skip_known s (skip_phi_preds s) -> Forall (phi_faithful s) (phi j)).

Lemma fill_block node s s1 s2 d b1 b2 sinks :
  emit_sinks node sinks s = Ok (b1, s1) -> emit_instructions node (bb_instructions d) s1 = Ok (b2, s2) ->
  block_step node (filled s) s s2.
Proof.
  intros E1%emit_sinks_step E2%emit_instructions_step.
  pose proof (extended_trans _ _ _ _ E1 E2) as E. eapply block_step_mono; [by apply extended_block|].
  intros i j (M & T & ps & HP & F) Hi. rewrite HP, Hi. split; [done|]. split; [done|]. intros Hs. cbn.
  eapply list.Forall_impl; [exact F|]. intros x Hx. by eapply converted_faithful.
Qed.

Lemma block_step_comp node (P Q : IRBlock -> IRBlock -> Prop) s t u :
  block_step node P s t -> block_step node Q t u -> block_step node (fun i k => exists j, P i j /\ Q j k) s u.
Proof. intros K1 K2. eapply block_step_trans; [exact K1|exact K2|]. eauto. Qed.

(** The terminator and the merge information of the block. *)
Definition finished (s : ConverterImpl) (bb : vref) (i j : IRBlock) : Prop :=
  merge_info i = MergeInfo_default -> cases (terminator i) = [] ->
  phi j = phi i /\ (exists d, bb_at bb (llvm s) = Ok (d, llvm s) /\ merge_info j = merge_of (bb_map s) d) /\
  exists term d, terminator_of bb s = Ok (term, s) /\ data_is s term d /\ terminator_converted s term d (terminator j).

Lemma finish_block bb node hp s s1 s2 s3 x a b :
  tag_terminator node s = Ok (a, s1) -> convert_terminator bb node hp s1 = Ok (Some x, s2) ->
  forward_merge bb node s2 = Ok (b, s3) -> block_step node (finished s bb) s s3.
Proof.
  intros E1 E2 E3. assert (preserves (hints_only node) (tag_terminator node)) as K by keep_with keep_hints.
  apply K in E1. clear K. pose proof (step_program _ _ _ _ E1) as P1.
  apply convert_terminator_converts in E2 as (term & td & HT & HD & [P2 (l & Hl & Fl) N2]).
  apply forward_merge_step in E3 as (d & Hd & S3). assert (same_program s1 s) as P1' by by apply same_program_sym.
  assert (same_program s s2) as P02 by by etrans.
  rewrite (sp_llvm _ _ P02) in Hd. rewrite (sp_bb_map _ _ P02) in S3.
  assert (block_step node (terminator_step (fun t t' => cases t = [] -> terminator_converted s1 term td t')) s1 s2) as B2.
  { split; [done| |done]. intros Hs. rewrite Hl. apply Forall_app_2; [done|].
    eapply list.Forall_impl; [exact Fl|]. intros p (Hp & v & Hv). exists bb. split; [done|]. by exists term, v. }
  eapply block_step_mono; [eapply block_step_comp; [apply step_block, E1|eapply block_step_comp; [exact B2|apply step_block, S3]]|].
  intros i k (j1 & (A1 & A2 & _ & _ & _ & _ & A3) & j2 & (B1 & B3 & B4) & C1 & C2 & C3) Hm Hc.
  split; [congruence|]. split; [exists d; split; [done|]; apply C3; congruence|].
  exists term, td. split; [eapply depends_Ok; [apply depends_terminator_of|done..]|]. split; [by eapply data_is_same|].
  rewrite C2. eapply terminator_converted_same; [done|]. apply B4. congruence.
Qed.

Lemma prologue_block (first primary_code ok : bool) node s s' :
  (if first then _ ← modify (set_current_block (Some node)); emit_prologue node primary_code else mret true) s = Ok (ok, s') ->
  block_step node operations_added s s'.
Proof.
  destruct first; intros E; [|apply mret_inv in E as [_ ->]; apply step_block; by apply step_refl].
  apply bindM_Ok in E as ([] & s1 & ->%modify_inv & E). apply framed_prologue in E.
  eapply block_step_trans; [by apply (modify_block _ (set_current_block (Some node)))|apply step_block, frame_step; exact E|].
  by intros i j k ->.
Qed.

Lemma convert_block_step first primary_code bb hp s x s' node :
  bb_map s !! bb = Some node -> convert_block first primary_code bb hp s = Ok (Some x, s') ->
  skip_known s (skip_phi_preds s) ->
  block_step node (fun i j => operations_added IRBlock_default i -> block_converted s bb j) s s'.
Proof.
  intros Hn E Hskip. unfold convert_block in E. apply bindM_Ok in E as (n & s1 & [-> Hn']%node_of_inv & E).
  assert (n = node) as -> by congruence. apply bindM_Ok in E as ([] & s1 & ->%modify_inv & E).
  set (s1 := set_peephole_transformation_cache [] s) in E.
  assert (block_step node eq s s1) as B1 by by apply modify_block.
  apply bindM_Ok in E as (ok & s2 & B2%prologue_block & E).
  destruct ok; cbn in E; [|by apply mret_inv in E as [? _]].
  apply bindM_Ok in E as ([] & s3 & ->%modify_inv & E). set (s3 := set_current_bb (Some bb) s2) in E.
  assert (block_step node operations_added s s3) as B3.
  { eapply block_step_trans; [exact B1|eapply block_step_trans; [exact B2|by apply modify_block|by intros i j k ? <-]|by intros i j k -> ?]. }
  apply bindM_Ok in E as (sinks & s4 & [-> ->]%gets_inv & E). apply bindM_Ok in E as (ok & s4 & E4 & E).
  destruct ok; cbn in E; [|by apply mret_inv in E as [? _]].
  apply bindM_Ok in E as (d & s5 & [-> Hd]%bb_at_inv & E). apply bindM_Ok in E as (ok & s5 & E5 & E).
  destruct ok; cbn in E; [|by apply mret_inv in E as [? _]]. pose proof (fill_block _ _ _ _ _ _ _ _ E4 E5) as B5.
  apply bindM_Ok in E as ([] & s6 & ->%modify_inv & E). set (s6 := set_current_bb None s5) in E.
  apply bindM_Ok in E as ([] & s7 & E7 & E). apply bindM_Ok in E as (y & s8 & E8 & E).
  destruct y as [y|]; [|by apply mret_inv in E as [? _]]. apply bindM_Ok in E as ([] & s9 & E9 & [_ ->]%mret_inv).
  pose proof (finish_block _ _ _ _ _ _ _ _ _ _ E7 E8 E9) as B9.
  assert (block_step node (filled s3) s3 s6) as B6.
  { eapply block_step_trans; [exact B5|by apply modify_block|by intros i j k ? <-]. }
  pose proof (bs_program _ _ _ _ B3) as P3. pose proof (bs_program _ _ _ _ B6) as P6.
  assert (same_program s6 s) as P60 by (apply same_program_sym; by etrans).
  assert (skip_known s3 (skip_phi_preds s3)) as Hskip3 by (eapply skip_known_same; [exact P3|by apply (bs_skip _ _ _ _ B3)]).
  eapply block_step_mono; [eapply block_step_comp; [exact B3|eapply block_step_comp; [exact B6|exact B9]]|].
  intros i k (j & (A1 & A2 & A3) & j' & HF & HB) (C1 & C2 & C3). destruct (HF ltac:(by rewrite A1, C1)) as (F1 & F2 & F3).
  destruct HB as (Q1 & Q2 & Q3); [by rewrite F1, A2, C2|by rewrite F2, A3, C3|].
  apply (block_converted_same s6); [done|]. split; [|done|done]. rewrite Q1.
  eapply list.Forall_impl; [by apply F3|]. intros ph. by apply phi_faithful_same.
Qed.

(** ** All blocks *)

(** The state while the blocks [l] are still to do. *)
Record conversion_state (s0 : ConverterImpl) (done todo : list vref) (s : ConverterImpl) : Prop := {
  cs_program : same_program s0 s;
  cs_skip : skip_known s0 (skip_phi_preds s);
  cs_length : length (node_pool s) = length (node_pool s0);
  cs_edges : forall r n, node_pool s0 !! r = Some n -> exists i, node_pool s !! r = Some (set_ir i n);
  cs_done : forall bb r n, bb ∈ done -> bb_map s0 !! bb = Some r -> node_pool s !! r = Some n -> block_converted s0 bb (ir n);
  cs_todo : forall bb r n, bb ∈ todo -> bb_map s0 !! bb = Some r -> node_pool s !! r = Some n ->
    operations_added IRBlock_default (ir n);
}.

Lemma convert_one s0 first primary_code done bb todo hp s x s' :
  (forall a b r, a ∈ done ++ bb :: todo -> b ∈ done ++ bb :: todo -> bb_map s0 !! a = Some r -> bb_map s0 !! b = Some r -> a = b) ->
  NoDup (done ++ bb :: todo) -> conversion_state s0 done (bb :: todo) s ->
  convert_block first primary_code bb hp s = Ok (Some x, s') -> conversion_state s0 (done ++ [bb]) todo s'.
Proof.
  intros Hinj HN [P K L HE HD HT] E.
  assert (exists node, bb_map s0 !! bb = Some node) as [node Hn].
  { unfold convert_block in E. apply bindM_Ok in E as (n & ? & [_ Hn]%node_of_inv & _). rewrite (sp_bb_map _ _ P) in Hn. eauto. }
  assert (same_program s s0) as P' by by apply same_program_sym.
  assert (block_step node (fun i j => operations_added IRBlock_default i -> block_converted s bb j) s s') as B1.
  { eapply convert_block_step; [by rewrite (sp_bb_map _ _ P)|exact E|by eapply skip_known_same]. }
  destruct B1 as [P1 K1 [L1 N1]].
  assert (forall b r n', bb_map s0 !! b = Some r -> b ∈ done ++ bb :: todo -> b <> bb -> node_pool s' !! r = Some n' ->
    exists n, node_pool s !! r = Some n /\ operations_added (ir n) (ir n')) as Hother.
  { intros b r n' Hr Hb Hne Hn'. destruct (lookup_lt_is_Some_2 (node_pool s) r) as [n Hs];
      [rewrite <- L1; by eapply lookup_lt_Some|].
    destruct (N1 r n Hs) as (i & Hi & HO & _). rewrite Hn' in Hi. injection Hi as ->. exists n. split; [done|]. cbn.
    apply HO. intros ->. apply Hne. eapply Hinj; [done| |done..]. set_solver. }
  split.
  - by etrans.
  - eapply skip_known_same; [exact P'|]. apply K1. by eapply skip_known_same.
  - congruence.
  - intros r n Hr. destruct (HE r n Hr) as [i Hi]. destruct (N1 r _ Hi) as (j & Hj & _). exists j. by destruct n.
  - intros b r n' [Hb| ->%list_elem_of_singleton]%elem_of_app Hr Hn'.
    + destruct (Hother b r n' Hr) as (n & Hs & HO); [set_solver| |done|].
      { intros ->. apply list.NoDup_app in HN as (_ & HN & _). apply (HN bb Hb). left. }
      eapply block_converted_added; [exact HO|]. by eapply HD.
    + assert (r = node) as -> by congruence. destruct (lookup_lt_is_Some_2 (node_pool s) node) as [n Hs];
        [rewrite <- L1; by eapply lookup_lt_Some|].
      destruct (N1 node n Hs) as (i & Hi & _ & HP). rewrite Hn' in Hi. injection Hi as ->. cbn.
      eapply block_converted_same; [exact P'|]. apply HP; [done|]. eapply HT; [left|done|done].
  - intros b r n' Hb Hr Hn'. destruct (Hother b r n' Hr) as (n & Hs & A1 & A2 & A3); [set_solver| |done|].
    { intros ->. apply list.NoDup_app in HN as (_ & _ & HN). by apply list.NoDup_cons in HN as [? _]. }
    destruct (HT b r n) as (B1 & B2 & B3); [by right|done|done|]. split; [congruence|]. split; congruence.
Qed.

Lemma convert_all s0 first primary_code done todo hp s s' :
  (forall a b r, a ∈ done ++ todo -> b ∈ done ++ todo -> bb_map s0 !! a = Some r -> bb_map s0 !! b = Some r -> a = b) ->
  NoDup (done ++ todo) -> conversion_state s0 done todo s ->
  convert_blocks first primary_code todo hp s = Ok (true, s') -> conversion_state s0 (done ++ todo) [] s'.
Proof.
  revert first done hp s. induction todo as [|bb todo IH]; intros first done hp s Hinj HN HS E; simpl in E.
  - apply mret_inv in E as [_ ->]. by rewrite app_nil_r.
  - apply bindM_Ok in E as (y & s1 & E1 & E). destruct y as [y|]; [|by apply mret_inv in E as [? _]].
    eapply convert_one in E1; [|done..]. replace (done ++ bb :: todo) with ((done ++ [bb]) ++ todo) in * by by rewrite <- (assoc (++)).
    by eapply IH.
Qed.
End blocks.

(** * The identifiers of the incoming values are replaced at the end *)

(** PHIs may get other identifiers for the values of the same blocks. *)
Definition renamed (i j : IRBlock) : Prop :=
  merge_info j = merge_info i /\ terminator j = terminator i /\
  Forall2 (fun x y => blocks_of (phi_incoming y) = blocks_of (phi_incoming x)) (phi i) (phi j).

#[export] Instance renamed_preorder : PreOrder renamed.
Proof.
  split.
  - intros i. split; [done|]. split; [done|]. by apply Forall2_same_length_lookup_2; [|intros ? ? ? ? ?; simplify_eq].
  - intros i j k (A1 & A2 & A3) (B1 & B2 & B3). split; [congruence|]. split; [congruence|].
    clear - A3 B3. revert B3. generalize (phi k). induction A3 as [|x y l l' Hxy _ IH]; intros m B; inversion B; subst; constructor.
    + congruence.
    + by apply IH.
Qed.

Lemma block_converted_renamed s bb i j : renamed i j -> block_converted s bb i -> block_converted s bb j.
Proof.
  intros (A & B & C) [H1 H2 H3]. split; [|by rewrite A|by rewrite B].
  clear - C H1. induction C as [|x y l l' Hxy _ IH]; [constructor|]. apply list.Forall_cons in H1 as [[F1 F2 F3] H1].
  constructor; [|by apply IH]. split; [by rewrite Hxy| |by rewrite Hxy].
  apply (f_equal length) in Hxy. unfold blocks_of in Hxy. rewrite !length_fmap in Hxy. lia.
Qed.

Lemma rewrite_phi_blocks m x : blocks_of (phi_incoming (rewrite_phi m x)) = blocks_of (phi_incoming x).
Proof. cbn. unfold blocks_of. rewrite <- list_fmap_compose. by apply list_fmap_ext. Qed.

Record renaming (s s' : ConverterImpl) : Prop := {
  rn_program : same_program s s';
  rn_nodes : forall r n, node_pool s !! r = Some n -> exists i, node_pool s' !! r = Some (set_ir i n) /\ renamed (ir n) i;
}.
#[export] Instance renaming_preorder : PreOrder renaming.
Proof.
  split.
  - intros s. split; [done|]. intros r n Hn. exists (ir n). by rewrite set_ir_ir.
  - intros s t u [A1 A2] [B1 B2]. split; [by etrans|]. intros r n Hn. destruct (A2 r n Hn) as (i & Hi & Ri).
    destruct (B2 r _ Hi) as (j & Hj & Rj). exists j. split; [by destruct n|]. by etrans.
Qed.

Lemma keeps_rewrite_phis bb : preserves renaming (rewrite_phis bb).
Proof.
  intros s a s' E. unfold rewrite_phis in E. apply bindM_Ok in E as (node & s1 & [-> Hn]%node_of_inv & E).
  apply bindM_Ok in E as (m & s1 & [-> ->]%gets_inv & E).
  apply (update_changes _ _ (fun i => mkIRBlock (rewrite_phi (phi_incoming_rewrite s) <$> phi i) (operations i) (merge_info i) (terminator i)))
    in E as [P _ _ _ [L N]]; [|done].
  split; [done|]. intros r n Hr. destruct (N r n Hr) as (i & Hi & HO & HP). exists i. split; [done|].
  destruct (decide (r = node)) as [->|Hne].
  - rewrite (HP eq_refl). split; [done|]. split; [done|]. cbn. apply Forall2_fmap_r, Forall2_same_length_lookup_2; [done|].
    intros k x y Hx Hy. simplify_eq. cbn. apply rewrite_phi_blocks.
  - destruct (HO Hne) as (C1 & C2 & C3). split; [done|]. split; [done|]. rewrite C1.
    apply Forall2_same_length_lookup_2; [done|]. intros k x y Hx Hy. by simplify_eq.
Qed.

(** * Functions *)

(** The blocks a terminator leads to, in the module and in the graph. *)
Definition data_targets (d : ValueData) : list (option vref) :=
  match d with
  | BranchInst bbs _ => bbs
  | SwitchInst _ d l => d :: l.*2
  | _ => []
  end.
Definition terminator_targets (t : Terminator) : list (option nodref) :=
  match term_type t with
  | TBranch => [direct_block t]
  | TCondition => [true_block t; false_block t]
  | TSwitch => case_node <$> cases t
  | _ => []
  end.

(** The block lists the targets of its terminator as its successors. *)
Definition succs_listed (s : ConverterImpl) (bb : vref) : Prop :=
  forall d term td, bb_at bb (llvm s) = Ok (d, llvm s) -> terminator_of bb s = Ok (term, s) -> data_is s term td ->
  forall c, c ∈ bb_succs d <-> Some c ∈ data_targets td.

(** Only a conditional branch can have a known condition. *)
Lemma static_branch_data s term td v s' :
  data_is s term td -> static_branch term s = Ok (Some v, s') -> exists bbs c, td = BranchInst bbs (Some c).
Proof.
  intros (x & Hx & <-) E. unfold static_branch in E.
  apply bindM_Ok in E as (d & s2 & [-> (x' & Hx' & <-)]%data_of_inv & E). rewrite Hx in Hx'. injection Hx' as <-.
  destruct (val_data x); try by (apply mret_inv in E as [? _]). destruct cond; [by eauto|by apply mret_inv in E as [? _]].
Qed.

Lemma block_successors_inv s bb l term td :
  block_successors bb s = Ok (l, s) -> terminator_of bb s = Ok (term, s) -> data_is s term td -> succs_listed s bb ->
  (exists v bbs cond c, static_branch term s = Ok (Some v, s) /\ td = BranchInst bbs (Some cond) /\
     zlookup bbs (if v then 0 else 1) = Some (Some c) /\ l = [c]) \/
  (static_branch term s = Ok (None, s) /\ forall c, c ∈ l <-> Some c ∈ data_targets td).
Proof.
  intros E HT HD HL. unfold block_successors in E. apply bindM_Ok in E as (t & s1 & E1 & E).
  rewrite HT in E1. injection E1 as <- <-. apply bindM_Ok in E as (k & s1 & E1 & E).
  assert (s1 = s) as ->.
  { pose proof (depends_static_branch term s s ltac:(done)) as D. rewrite E1 in D. apply D. }
  destruct k as [v|].
  - left. apply bindM_Ok in E as (y & s1 & E2 & E). apply mret_inv in E as [-> _].
    destruct (static_branch_data _ _ _ _ _ HD E1) as (bbs & c & ->).
    eapply successor_inv in E2 as [_ Hz]; [|exact HD]. by exists v, bbs, c, y.
  - right. split; [done|]. apply bindM_Ok in E as (d & s1 & E2 & E). apply bb_at_inv in E2 as [-> Hd].
    apply mret_inv in E as [-> _]. by eapply HL.
Qed.

(** Lists of targets that were converted one by one. *)
Lemma targets_exist (m : gmap vref nodref) (x : nodref) bs os :
  Forall2 (target m) bs os -> Some x ∈ os <-> exists c, Some c ∈ bs /\ m !! c = Some x.
Proof.
  induction 1 as [|b o bs os (y & n & -> & Hn & ->) _ IH].
  - setoid_rewrite elem_of_nil. naive_solver.
  - setoid_rewrite elem_of_cons. rewrite IH. split.
    + intros [[= ->]|(c & Hc & Hx)]; [by exists y; split; [left|]|by exists c; split; [right|]].
    + intros (c & [[= ->]|Hc] & Hx); [left; congruence|right; by exists c].
Qed.

(** The converted terminator leads to the nodes of the successors. *)
Lemma converted_targets s bb l term td t :
  block_successors bb s = Ok (l, s) -> terminator_of bb s = Ok (term, s) -> data_is s term td -> succs_listed s bb ->
  terminator_converted s term td t ->
  forall x, Some x ∈ terminator_targets t <-> exists c, c ∈ l /\ bb_map s !! c = Some x.
Proof.
  intros E HT HD HL HC x. destruct (block_successors_inv _ _ _ _ _ E HT HD HL) as [(v & bbs & cond & c & Hk & -> & Hz & ->)|[Hk Hl]].
  - inversion HC; subst; try congruence. unfold terminator_targets.
    match goal with K : term_type t = TBranch |- _ => rewrite K end.
    assert (v0 = v) as -> by congruence. assert (b = Some c) as -> by congruence.
    match goal with K : target _ _ _ |- _ => destruct K as (y & n & [= <-] & Hn & ->) end.
    rewrite list_elem_of_singleton. split; [intros [= ->]; exists c; split; [by left|done]|].
    intros (c' & ->%list_elem_of_singleton & Hx). congruence.
  - setoid_rewrite Hl. clear Hl. inversion HC; subst; unfold terminator_targets, data_targets; try congruence;
      match goal with K : term_type t = _ |- _ => rewrite K end.
    + apply (targets_exist _ x [b]). by repeat constructor.
    + apply (targets_exist _ x [a; b]). by repeat constructor.
    + match goal with K : cases t = _ |- _ => rewrite K end. apply (targets_exist _ x (d :: l0.*2)). constructor; [done|].
      match goal with K : Forall2 _ _ _ |- _ => clear - K; induction K as [|y k l ks (Hy & _) _ IH]; constructor; done end.
    + setoid_rewrite elem_of_nil. naive_solver.
    + setoid_rewrite elem_of_nil. naive_solver.
Qed.

Lemma succs_listed_same s t bb : same_input s t -> succs_listed s bb -> succs_listed t bb.
Proof.
  intros I H d term td Hd HT HD. assert (same_input t s) as I' by (destruct I as (? & ? & ?); by split_and!).
  apply (H d term).
  - destruct I as (<- & _). exact Hd.
  - pose proof (depends_terminator_of bb t s I') as D. rewrite HT in D. apply D.
  - unfold data_is. destruct I as (<- & _). exact HD.
Qed.

(** * The whole function *)

Section function.
Context `{FramedEmitters} `{FreshMemory} `{!FunctionPrologue} `{!FramedPrologue}.

(** What is left of the nodes when the blocks and their PHIs are done. *)
Lemma convert_function_inv s order primary_code root s' :
  convert_function order primary_code s = Ok (Some root, s') -> exists t,
    convert_blocks true primary_code order false s = Ok (true, t) /\ renaming t s' /\
    head order ≫= (fun b => bb_map s' !! b) = Some root.
Proof.
  intros E. unfold convert_function in E. apply bindM_Ok in E as (ok & t & E1 & E).
  destruct ok; cbn in E; [|by apply mret_inv in E as [? _]]. exists t. split; [done|].
  apply bindM_Ok in E as (m & t1 & [-> ->]%gets_inv & E). apply bindM_Ok in E as ([] & t2 & E2 & E).
  apply bindM_Ok in E as (front & t3 & E3 & E). apply bindM_Ok in E as (node & t4 & [-> Hn]%node_of_inv & [[= ->] ->]%mret_inv).
  destruct (head order) as [b|]; [|done]. cbn in E3. apply mret_inv in E3 as [-> ->]. split; [|done].
  case_bool_decide; [by apply mret_inv in E2 as [_ ->]|].
  eapply preserves_for_each; [tc_solve| |exact E2]. intros b' _. apply keeps_rewrite_phis.
Qed.

(** The fresh nodes before any block is converted. *)
Lemma conversion_start s entry order s1 :
  skip_phi_preds s = [] -> lists_blocks s entry order -> maps_blocks s order s1 -> conversion_state s1 [] order s1.
Proof.
  intros Hs HL HM. split.
  - done.
  - pose proof (f_equal skip_phi_preds (maps_rest _ _ _ HM)) as K. cbn in K. rewrite K, Hs. constructor.
  - done.
  - intros r n Hr. exists (ir n). by rewrite set_ir_ir.
  - by intros bb r n Hb%elem_of_nil.
  - intros bb r n Hb Hr Hn. destruct (maps_node _ _ _ HM bb Hb) as (r' & n' & Hr' & _ & Hn' & He & _).
    simplify_eq. rewrite He. done.
Qed.

Lemma convert_function_nodes s entry order s1 primary_code root s2 :
  skip_phi_preds s = [] -> lists_blocks s entry order -> maps_blocks s order s1 ->
  convert_function order primary_code s1 = Ok (Some root, s2) ->
  same_program s1 s2 /\ bb_map s2 !! entry = Some root /\
  forall bb, bb ∈ order -> exists r n i, bb_map s2 !! bb = Some r /\ node_pool s1 !! r = Some n /\
    node_pool s2 !! r = Some (set_ir i n) /\ block_converted s2 bb i.
Proof.
  intros Hs HL HM E. pose proof (conversion_start _ _ _ _ Hs HL HM) as C0.
  apply convert_function_inv in E as (t & Et & [P2 N2] & Hroot).
  assert (conversion_state s1 order [] t) as [P1 _ _ HE HD _].
  { eapply (convert_all s1 true primary_code []); [|apply (order_NoDup _ _ _ HL)|exact C0|exact Et]. apply (maps_inj _ _ _ HM). }
  assert (same_program s1 s2) as P by by etrans. split; [done|].
  rewrite (order_head _ _ _ HL) in Hroot. split; [done|]. intros bb Hb.
  destruct (maps_node _ _ _ HM bb Hb) as (r & n & Hr & _ & Hn & _). destruct (HE r n Hn) as [i Hi].
  destruct (N2 r _ Hi) as (j & Hj & Rj). exists r, n, j. rewrite (sp_bb_map _ _ P). split; [done|]. split; [done|].
  split; [by destruct n|]. eapply block_converted_renamed; [exact Rj|]. cbn.
  eapply block_converted_same; [exact P|]. exact (HD _ _ _ Hb Hr Hi).
Qed.

End function.

(** * A sample *)

Section sample.
#[local] Instance memory : FreshMemory := fun n => replicate n 0.
#[local] Instance no_memory : MemoryEmitter :=
  Build_MemoryEmitter (fun _ => mret false) (fun _ => mret false) (fun _ => mret false) (fun _ => mret false).
#[local] Instance no_opcodes : OpcodeEmitter := fun _ => None.
#[local] Instance no_prologue : FunctionPrologue := fun _ _ => mret true.
#[local] Instance framed_none : FramedEmitters.
Proof. by split; [intros r; apply preserves_ret; tc_solve..|]. Qed.
#[local] Instance framed_no_prologue : FramedPrologue.
Proof. intros node p. apply preserves_ret. tc_solve. Qed.

Definition branching_order : list vref * ConverterImpl :=
  match build_function_bb_visit_order_legacy (Some 0%nat) branching_converter with
  | Ok x => x
  | _ => ([], branching_converter)
  end.
Definition branching_nodes : ConverterImpl :=
  match convert_function branching_order.1 true branching_order.2 with
  | Ok (_, s) => s
  | _ => branching_converter
  end.

End sample.
