(* ===== verification/WaveHelpers.v ===== *)
(** The helper functions for wave and quad operations (spirv_module.cpp).

    Each is a SPIR-V function that is generated on first use and called from then on; the module
    remembers the ids.  [helper_lanes_participate_in_wave_ops] says whether the helper lanes of a
    quad count as lanes of the wave: when they do not, the functions take the flag of the lane as
    another argument.  WaveTheorems.v runs the functions on whole waves. *)
From S2P Require Import Prelude.
From S2P Require Import SpvBuilder.
From S2P Require Import Instrumentation.
From S2P Require Import SPIRVModule.
Local Open Scope Z_scope.

(** * The ids of the functions *)

(** enum class HelperCall *)
Inductive HelperCall :=
| DescriptorQACheck | WaveMatch
| WaveMultiPrefixFAdd | WaveMultiPrefixIAdd | WaveMultiPrefixFMul | WaveMultiPrefixIMul
| WaveMultiPrefixBitAnd | WaveMultiPrefixBitOr | WaveMultiPrefixBitXor | WaveMultiPrefixCountBits
| RobustAtomicCounter | QuadAll | QuadAny
| WaveIsFirstLaneMasked | WaveActiveAllEqualMasked | WaveReadFirstLaneMasked
| AtomicImageR64Compact | AtomicImageArrayR64Compact
| AtomicImageR64CompactNonUniform | AtomicImageArrayR64CompactNonUniform
| FinishCrossGroupSharing
| AllocateThreadNodeRecords | AllocateGroupNodeRecords | AllocateThreadNodeRecordsWaterfall
| ThreadIncrementOutputCount | GroupIncrementOutputCount | NodeCoalescePayloadOffset
| IsQuadUniformControlFlow | ValidateBDALoadStore | AllocateInvocationID
| CoopMatFP8toFP16 | CoopMatFP16toFP8 | ScalarFP8toFP16 | ScalarFP16toFP8
| CoopMatTransfer | CoopMatSaturationFixup | CoopMatSaturateFP8
| ByteAddressMask | UDiv | UMod | SDiv | SRem
| DenormPreserveLegacyF32toF16 | DenormPreserveLegacyF16toF32.
#[export] Instance HelperCall_eq_dec : EqDecision HelperCall.
Proof. solve_decision. Defined.

(** The members of the module that hold such ids; those with arguments are vectors that are
    searched for an entry with these values. *)
Inductive call_key :=
| descriptor_qa_helper_call_id | wave_multi_prefix_count_bits_id | robust_atomic_counter_call_id
| quad_all_call_id | quad_any_call_id | wave_is_first_lane_masked_id
| wave_match_call_ids (type_id : Z)
| wave_active_all_equal_masked_ids (type_id : Z)
| wave_read_first_lane_masked_ids (type_id : Z)
| image_r64_atomic_call_id | image_r64_array_atomic_call_id
| image_r64_atomic_non_uniform_call_id | image_r64_array_atomic_non_uniform_call_id
| finish_cross_group_sharing_call_id
| allocate_thread_node_records_call_id | allocate_group_node_records_call_id
| increment_thread_node_count_call_id | increment_group_node_count_call_id
| allocate_thread_node_records_waterfall_call_id | node_coalesce_payload_offset_call_id
| is_quad_uniform_call_id | validate_bda_load_store_call_id | allocate_invocation_id_call_id
| byte_address_mask_call_id
| wave_multi_prefix_call_ids (opcode type_id : Z)
| physical_cbv_call_ids (type_id ptr_type_id alignment : Z)
| coop_mat_conv_ids (input_type output_type : Z) (call : HelperCall).
#[export] Instance call_key_eq_dec : EqDecision call_key.
Proof. solve_decision. Defined.

Record HelperModule := mkHelperModule {
  spv_module : SPIRVModule;
  call_ids : list (call_key * Z);
  helper_lanes_participate_in_wave_ops : bool;
}.
Definition set_spv_module (m : SPIRVModule) (s : HelperModule) : HelperModule :=
  mkHelperModule m (call_ids s) (helper_lanes_participate_in_wave_ops s).
Definition set_call_ids (l : list (call_key * Z)) (s : HelperModule) : HelperModule :=
  mkHelperModule (spv_module s) l (helper_lanes_participate_in_wave_ops s).
Definition set_helper_lanes_participate_in_wave_ops (x : bool) (s : HelperModule) : HelperModule :=
  mkHelperModule (spv_module s) (call_ids s) x.
Definition HelperModule_new : HelperModule := mkHelperModule SPIRVModule_new [] true.

Definition HM : Type -> Type := M HelperModule.
Definition on_module {A} (m : MM A) : HM A := zoom spv_module set_spv_module m.

(** The function that was generated before, or a new one. *)
Definition cached (k : call_key) (build : HM Z) : HM Z :=
  l ← gets call_ids;
  match list_find (fun e => e.1 = k) l with
  | Some (_, e) => mret e.2
  | None =>
      id ← build;
      _ ← modify (fun s => set_call_ids (call_ids s ++ [(k, id)]) s);
      mret id
  end.

(** * Pieces *)

Definition CapabilityGroupNonUniformVote : Z := 62.
Definition CapabilityGroupNonUniformArithmetic : Z := 63.
Definition CapabilityGroupNonUniformBallot : Z := 64.
Definition CapabilityGroupNonUniformShuffle : Z := 65.
Definition CapabilityGroupNonUniformQuad : Z := 68.
Definition GroupOperationReduce : Z := 0.
Definition GroupOperationExclusiveScan : Z := 2.
Definition OpAll : Z := 155.
Definition OpLogicalEqual : Z := 164.

(** An instruction that is in no block yet: the id first, then the operands one by one. *)
Definition new_inst (type_id op : Z) (ops : list (BM Z)) : MM Instruction :=
  id ← on_builder getUniqueId;
  l ← on_builder (mapM_list (fun o => o) ops);
  mret (mkInstruction id type_id op l).

Definition add_instructions (bb : blockref) (l : list Instruction) : MM unit :=
  for_eachM (add_instruction bb) l.

Definition parameter (f : funcref) (i : nat) : MM Z := on_builder (getParamId f i).
Definition subgroup : BM Z := makeUintConstant ScopeSubgroup.

(** A function that is built while another one is: the build point is put back. *)
Definition helper_function (return_type : Z) (name : string) (types : list Z)
    (body : funcref -> blockref -> MM unit) : MM Z :=
  x ← on_builder (makeFunctionEntry return_type (Some name) types);
  let '(func, entry) := (x : funcref * blockref) in
  _ ← body func entry;
  f ← on_builder (function_at func);
  mret (resultId (functionInstruction f)).

Definition save_build_point : MM (option blockref) := gets (fun m => buildPoint (builder m)).
Definition restore_build_point (p : option blockref) : MM unit :=
  on_builder (modify (set_buildPoint p)).

(** A lane leaves the function when its flag is set: its block goes on in an inner block; the
    branches meet again in the return block. *)
Record early_return := mkEarly { return_block : blockref; inner_block : blockref; outer_block : blockref }.

(** The selection over the flag; [at_block] holds it, [undef] is made before it. *)
Definition leave_early (func : funcref) (param : nat) (at_block : blockref) (undef : MM Z) : MM (early_return * Z) :=
  return_block ← fresh_block func;
  inner ← fresh_block func;
  undef_id ← undef;
  _ ← on_builder (createSelectionMerge return_block 0);
  p ← parameter func param;
  _ ← on_builder (createConditionalBranch p return_block inner);
  _ ← on_builder (setBuildPoint inner);
  mret (mkEarly return_block inner at_block, undef_id).

(** The value of the function, joined with nothing for the lanes that left early. *)
Definition join_early (e : early_return) (type_id result undef : Z) (from : blockref) : MM Z :=
  _ ← on_builder (createBranch (return_block e));
  _ ← on_builder (setBuildPoint (return_block e));
  phi ← new_inst type_id OpPhi [mret result; block_id from; mret undef; block_id (outer_block e)];
  _ ← add_instruction (return_block e) phi;
  mret (resultId phi).

(** * The functions *)

Definition opcode_to_multi_prefix_name (opcode : Z) : string :=
  if bool_decide (opcode ∈ [OpGroupNonUniformFAdd; OpGroupNonUniformIAdd]) then "WaveMultiPrefixSum"
  else if bool_decide (opcode ∈ [OpGroupNonUniformFMul; OpGroupNonUniformIMul]) then "WaveMultiPrefixProduct"
  else if opcode =? OpGroupNonUniformBitwiseAnd then "WaveMultiPrefixBitAnd"
  else if opcode =? OpGroupNonUniformBitwiseOr then "WaveMultiPrefixBitOr"
  else if opcode =? OpGroupNonUniformBitwiseXor then "WaveMultiPrefixBitXor"
  else "".

(** The mask without the lanes that are not active. *)
Definition active_mask (entry : blockref) (uvec4_type mask_id : Z) : MM Z :=
  ballot_op ← new_inst uvec4_type OpGroupNonUniformBallot [subgroup; makeBoolConstant true];
  mask_op ← new_inst uvec4_type OpBitwiseAnd [mret (resultId ballot_op); mret mask_id];
  _ ← add_instructions entry [ballot_op; mask_op];
  mret (resultId mask_op).

(** One round of the loop over masks: is this mask the one of the first lane that is left? *)
Definition compare_masks (uvec4_type bvec4_type bool_type mask_id : Z) : MM (list Instruction * Z) :=
  broadcast_first ← new_inst uvec4_type OpGroupNonUniformBroadcastFirst [subgroup; mret mask_id];
  compare ← new_inst bvec4_type OpIEqual [mret mask_id; mret (resultId broadcast_first)];
  compare_reduce ← new_inst bool_type OpAll [mret (resultId compare)];
  mret ([broadcast_first; compare; compare_reduce], resultId compare_reduce).

Definition build_wave_multi_prefix_op_function (participate : bool) (opcode type_id : Z) : MM Z :=
  current_build_point ← save_build_point;
  uint_type ← on_builder (makeUintType 32);
  uvec4_type ← on_builder (makeVectorType uint_type 4);
  bool_type ← on_builder makeBoolType;
  bvec4_type ← on_builder (makeVectorType bool_type 4);
  let types := [type_id; uvec4_type] ++ (if participate then [] else [bool_type]) in
  helper_function type_id (opcode_to_multi_prefix_name opcode) types (fun func entry =>
    value_id ← parameter func 0;
    mask_id ← parameter func 1;
    undef_value ← on_builder (createUndefined type_id);
    header_block ← fresh_block func;
    body_block ← fresh_block func;
    merge_block ← fresh_block func;
    prefix_block ← fresh_block func;
    continue_block ← fresh_block func;
    _ ← on_builder (setBuildPoint entry);
    early ← (if participate then mret None
             else x ← leave_early func 2 entry (mret undef_value); mret (Some (x.1 : early_return)));
    let entry := match early with Some e => inner_block e | None => entry end in
    mask_id ← active_mask entry uvec4_type mask_id;
    _ ← on_builder (createBranch header_block);
    _ ← on_builder (setBuildPoint header_block);
    _ ← on_builder (createLoopMerge merge_block body_block 0);
    _ ← on_builder (createBranch body_block);
    _ ← on_builder (setBuildPoint body_block);
    c ← compare_masks uvec4_type bvec4_type bool_type mask_id;
    let compare_reduce_id := c.2 in
    _ ← add_instructions body_block c.1;
    _ ← on_builder (createSelectionMerge continue_block 0);
    _ ← on_builder (createConditionalBranch compare_reduce_id prefix_block continue_block);
    _ ← on_builder (setBuildPoint prefix_block);
    prefix_op ← new_inst type_id opcode [subgroup; mret GroupOperationExclusiveScan; mret value_id];
    _ ← add_instruction prefix_block prefix_op;
    _ ← on_builder (createBranch continue_block);
    _ ← on_builder (setBuildPoint continue_block);
    phi ← new_inst type_id OpPhi [mret (resultId prefix_op); block_id prefix_block;
                                  mret undef_value; block_id body_block];
    _ ← add_instruction continue_block phi;
    _ ← on_builder (createConditionalBranch compare_reduce_id merge_block header_block);
    _ ← on_builder (setBuildPoint merge_block);
    result_id ← match early with
                | Some e => join_early e type_id (resultId phi) undef_value merge_block
                | None => mret (resultId phi)
                end;
    _ ← on_builder (makeReturn false result_id);
    _ ← restore_build_point current_build_point;
    _ ← on_builder (addCapability CapabilityGroupNonUniformBallot);
    on_builder (addCapability CapabilityGroupNonUniformArithmetic)).

Definition build_wave_multi_prefix_op (opcode type_id : Z) : HM Z :=
  cached (wave_multi_prefix_call_ids opcode type_id)
    (p ← gets helper_lanes_participate_in_wave_ops;
     on_module (build_wave_multi_prefix_op_function p opcode type_id)).

Definition build_wave_multi_prefix_count_bits_function (participate : bool) : MM Z :=
  current_build_point ← save_build_point;
  uint_type ← on_builder (makeUintType 32);
  uvec4_type ← on_builder (makeVectorType uint_type 4);
  bool_type ← on_builder makeBoolType;
  bvec4_type ← on_builder (makeVectorType bool_type 4);
  let types := [bool_type; uvec4_type] ++ (if participate then [] else [bool_type]) in
  helper_function uint_type "WaveMultiPrefixCountBits" types (fun func entry =>
    value_id ← parameter func 0;
    mask_id ← parameter func 1;
    header_block ← fresh_block func;
    body_block ← fresh_block func;
    merge_block ← fresh_block func;
    _ ← on_builder (setBuildPoint entry);
    early ← (if participate then mret None
             else x ← leave_early func 2 entry (on_builder (createUndefined uint_type)); mret (Some x));
    let entry := match early with Some e => inner_block e.1 | None => entry end in
    mask_id ← active_mask entry uvec4_type mask_id;
    _ ← on_builder (createBranch header_block);
    _ ← on_builder (setBuildPoint header_block);
    _ ← on_builder (createLoopMerge merge_block body_block 0);
    _ ← on_builder (createBranch body_block);
    _ ← on_builder (setBuildPoint body_block);
    c ← compare_masks uvec4_type bvec4_type bool_type mask_id;
    prefix_input ← new_inst bool_type OpLogicalAnd [mret c.2; mret value_id];
    modified_ballot ← new_inst uvec4_type OpGroupNonUniformBallot [subgroup; mret (resultId prefix_input)];
    count ← new_inst uint_type OpGroupNonUniformBallotBitCount
              [subgroup; mret GroupOperationExclusiveScan; mret (resultId modified_ballot)];
    _ ← add_instructions body_block (c.1 ++ [prefix_input; modified_ballot; count]);
    _ ← on_builder (createConditionalBranch c.2 merge_block header_block);
    _ ← on_builder (setBuildPoint merge_block);
    result_id ← match early with
                | Some e => join_early e.1 uint_type (resultId count) e.2 merge_block
                | None => mret (resultId count)
                end;
    _ ← on_builder (makeReturn false result_id);
    _ ← restore_build_point current_build_point;
    _ ← on_builder (addCapability CapabilityGroupNonUniformBallot);
    on_builder (addCapability CapabilityGroupNonUniformArithmetic)).

Definition build_wave_multi_prefix_count_bits : HM Z :=
  cached wave_multi_prefix_count_bits_id
    (p ← gets helper_lanes_participate_in_wave_ops;
     on_module (build_wave_multi_prefix_count_bits_function p)).

(** The lanes whose flag is set get no value. *)
Definition build_wave_active_all_equal_masked_function (type_id : Z) : MM Z :=
  _ ← on_builder (addCapability CapabilityGroupNonUniformVote);
  current_build_point ← save_build_point;
  bool_type ← on_builder makeBoolType;
  helper_function bool_type "WaveActiveAllEqual" [type_id; bool_type] (fun func entry =>
    is_helper_block ← fresh_block func;
    is_active_block ← fresh_block func;
    merge_block ← fresh_block func;
    _ ← on_builder (setBuildPoint entry);
    _ ← on_builder (createSelectionMerge merge_block 0);
    p ← parameter func 1;
    _ ← on_builder (createConditionalBranch p is_helper_block is_active_block);
    _ ← on_builder (setBuildPoint is_helper_block);
    undef_id ← on_builder (createUndefined bool_type);
    _ ← on_builder (createBranch merge_block);
    _ ← on_builder (setBuildPoint is_active_block);
    all_equal ← new_inst bool_type OpGroupNonUniformAllEqual [subgroup; getParamId func 0];
    _ ← add_instruction is_active_block all_equal;
    _ ← on_builder (createBranch merge_block);
    _ ← on_builder (setBuildPoint merge_block);
    phi ← new_inst bool_type OpPhi [mret (resultId all_equal); block_id is_active_block;
                                    mret undef_id; block_id is_helper_block];
    _ ← add_instruction merge_block phi;
    _ ← on_builder (makeReturn false (resultId phi));
    restore_build_point current_build_point).

Definition build_wave_active_all_equal_masked (type_id : Z) : HM Z :=
  cached (wave_active_all_equal_masked_ids type_id)
    (on_module (build_wave_active_all_equal_masked_function type_id)).

Definition build_wave_read_first_lane_masked_function (type_id : Z) : MM Z :=
  _ ← on_builder (addCapability CapabilityGroupNonUniformBallot);
  _ ← on_builder (addCapability CapabilityGroupNonUniformShuffle);
  current_build_point ← save_build_point;
  bool_type ← on_builder makeBoolType;
  helper_function type_id "WaveReadFirstLane" [type_id; bool_type] (fun func entry =>
    _ ← on_builder (setBuildPoint entry);
    uint_type ← on_builder (makeUintType 32);
    uvec4_type ← on_builder (makeVectorType uint_type 4);
    not_inst ← new_inst bool_type OpLogicalNot [getParamId func 1];
    ballot ← new_inst uvec4_type OpGroupNonUniformBallot [subgroup; mret (resultId not_inst)];
    lsb_id ← on_builder getUniqueId;
    lsb_type ← on_builder (makeUintType 32);
    lsb_scope ← on_builder subgroup;
    let lsb := mkInstruction lsb_id lsb_type OpGroupNonUniformBallotFindLSB [lsb_scope; resultId ballot] in
    shuffle ← new_inst type_id OpGroupNonUniformShuffle [subgroup; getParamId func 0; mret lsb_id];
    lane_count ← new_inst uint_type OpGroupNonUniformBallotBitCount
      [subgroup; mret GroupOperationReduce; mret (resultId ballot)];
    has_real_lane ← new_inst bool_type OpINotEqual [mret (resultId lane_count); makeUintConstant 0];
    select_op ← new_inst type_id OpSelect
      [mret (resultId has_real_lane); mret (resultId shuffle); makeNullConstant type_id];
    _ ← add_instructions entry [not_inst; ballot; lsb; shuffle; lane_count; has_real_lane; select_op];
    _ ← on_builder (makeReturn false (resultId select_op));
    restore_build_point current_build_point).

Definition build_wave_read_first_lane_masked (type_id : Z) : HM Z :=
  cached (wave_read_first_lane_masked_ids type_id)
    (on_module (build_wave_read_first_lane_masked_function type_id)).

Definition build_wave_is_first_lane_masked_function : MM Z :=
  bool_type ← on_builder makeBoolType;
  current_build_point ← save_build_point;
  _ ← on_builder (addCapability CapabilityGroupNonUniform);
  helper_function bool_type "WaveIsFirstLane" [bool_type] (fun func entry =>
    is_helper_block ← fresh_block func;
    is_active_block ← fresh_block func;
    merge_block ← fresh_block func;
    _ ← on_builder (setBuildPoint entry);
    _ ← on_builder (createSelectionMerge merge_block 0);
    p ← parameter func 0;
    _ ← on_builder (createConditionalBranch p is_helper_block is_active_block);
    _ ← on_builder (setBuildPoint is_helper_block);
    _ ← on_builder (createBranch merge_block);
    _ ← on_builder (setBuildPoint is_active_block);
    elect ← new_inst bool_type OpGroupNonUniformElect [subgroup];
    _ ← add_instruction is_active_block elect;
    _ ← on_builder (createBranch merge_block);
    _ ← on_builder (setBuildPoint merge_block);
    phi ← new_inst bool_type OpPhi [mret (resultId elect); block_id is_active_block;
                                    makeBoolConstant false; block_id is_helper_block];
    _ ← add_instruction merge_block phi;
    _ ← on_builder (makeReturn false (resultId phi));
    restore_build_point current_build_point).

Definition build_wave_is_first_lane_masked : HM Z :=
  cached wave_is_first_lane_masked_id (on_module build_wave_is_first_lane_masked_function).

(** The vector of booleans that a comparison of such values has. *)
Definition comparison_type (bool_type num_components : Z) : MM Z :=
  if 1 <? num_components then on_builder (makeVectorType bool_type num_components) else mret bool_type.

Definition scalar_type_class (type_id : Z) : MM Z :=
  ask_builder (fun b => s ← getScalarTypeId b type_id; getTypeClass b s).

Definition build_wave_match_function (participate : bool) (type_id : Z) : MM Z :=
  current_build_point ← save_build_point;
  _ ← on_builder (addCapability CapabilityGroupNonUniform);
  _ ← on_builder (addCapability CapabilityGroupNonUniformBallot);
  uint_type ← on_builder (makeUintType 32);
  uvec4_type ← on_builder (makeVectorType uint_type 4);
  bool_type ← on_builder makeBoolType;
  let types := type_id :: (if participate then [] else [bool_type]) in
  helper_function uvec4_type "WaveMatch" types (fun func entry =>
    value_id ← parameter func 0;
    header_block ← fresh_block func;
    body_block ← fresh_block func;
    merge_block ← fresh_block func;
    _ ← on_builder (setBuildPoint entry);
    _ ← on_builder (createBranch header_block);
    _ ← on_builder (setBuildPoint header_block);
    early ← (if participate then mret None
             else x ← leave_early func 1 header_block (on_builder (createUndefined uvec4_type)); mret (Some x));
    let header_block := match early with Some e => inner_block e.1 | None => header_block end in
    _ ← on_builder (createLoopMerge merge_block body_block 0);
    _ ← on_builder (createBranch body_block);
    broadcast_first ← new_inst type_id OpGroupNonUniformBroadcastFirst [subgroup; mret value_id];
    c ← scalar_type_class type_id;
    _ ← assertM (negb (c =? OpTypeFloat));
    let equal_op := if c =? OpTypeBool then OpLogicalEqual else OpIEqual in
    bool_type ← on_builder makeBoolType;
    num_components ← ask_builder (fun b => getNumTypeConstituents b type_id);
    compare_type ← comparison_type bool_type num_components;
    compare ← new_inst compare_type equal_op [mret value_id; mret (resultId broadcast_first)];
    compare_reduce ← (if 1 <? num_components then
                        id ← on_builder getUniqueId;
                        t ← on_builder makeBoolType;
                        mret [mkInstruction id t OpAll [resultId compare]]
                      else mret []);
    let compare_id := match compare_reduce with i :: _ => resultId i | [] => resultId compare end in
    ballot ← new_inst uvec4_type OpGroupNonUniformBallot [subgroup; mret compare_id];
    _ ← on_builder (setBuildPoint body_block);
    _ ← add_instructions body_block ([broadcast_first; compare] ++ compare_reduce ++ [ballot]);
    _ ← on_builder (createConditionalBranch compare_id merge_block header_block);
    _ ← on_builder (setBuildPoint merge_block);
    ballot_id ← match early with
                | Some e => join_early e.1 uvec4_type (resultId ballot) e.2 merge_block
                | None => mret (resultId ballot)
                end;
    _ ← on_builder (makeReturn false ballot_id);
    restore_build_point current_build_point).

Definition build_wave_match (type_id : Z) : HM Z :=
  cached (wave_match_call_ids type_id)
    (p ← gets helper_lanes_participate_in_wave_ops; on_module (build_wave_match_function p type_id)).

(** ** Quads *)

Definition quad_lane (entry : blockref) (func : funcref) (bool_type i : Z) : MM Z :=
  broadcast ← new_inst bool_type OpGroupNonUniformQuadBroadcast
    [subgroup; getParamId func 0; makeUintConstant i];
  _ ← add_instruction entry broadcast;
  mret (resultId broadcast).

Definition combine_votes (entry : blockref) (bool_type op : Z) (ret_id id : Z) : MM Z :=
  logic_op ← new_inst bool_type op [mret ret_id; mret id];
  _ ← add_instruction entry logic_op;
  mret (resultId logic_op).

(** [all] for QuadAll, not for QuadAny. *)
Definition build_quad_vote (all : bool) : MM Z :=
  current_build_point ← save_build_point;
  bool_type ← on_builder makeBoolType;
  helper_function bool_type (if all then "QuadAll" else "QuadAny") [bool_type] (fun func entry =>
    _ ← on_builder (setBuildPoint entry);
    id0 ← quad_lane entry func bool_type 0;
    id1 ← quad_lane entry func bool_type 1;
    id2 ← quad_lane entry func bool_type 2;
    id3 ← quad_lane entry func bool_type 3;
    let op := if all then OpLogicalAnd else OpLogicalOr in
    r ← combine_votes entry bool_type op id0 id1;
    r ← combine_votes entry bool_type op r id2;
    r ← combine_votes entry bool_type op r id3;
    _ ← on_builder (addCapability CapabilityGroupNonUniformQuad);
    _ ← on_builder (makeReturn false r);
    restore_build_point current_build_point).

Definition build_quad_all : HM Z := cached quad_all_call_id (on_module (build_quad_vote true)).
Definition build_quad_any : HM Z := cached quad_any_call_id (on_module (build_quad_vote false)).

Definition build_is_quad_uniform_control_flow_function : MM Z :=
  current_build_point ← save_build_point;
  uint_type ← on_builder (makeUintType 32);
  uvec4_type ← on_builder (makeVectorType uint_type 4);
  bool_type ← on_builder makeBoolType;
  helper_function bool_type "IsQuadUniformControlFlow" [] (fun func entry =>
    ballot_op ← new_inst uvec4_type OpGroupNonUniformBallot [subgroup; makeBoolConstant true];
    uint_2 ← on_builder (makeUintConstant 2);
    uint_1 ← on_builder (makeUintConstant 1);
    uint_2 ← on_builder (makeCompositeConstant uvec4_type [uint_2; uint_2; uint_2; uint_2]);
    uint_1 ← on_builder (makeCompositeConstant uvec4_type [uint_1; uint_1; uint_1; uint_1]);
    shift_2 ← new_inst uvec4_type OpShiftRightLogical [mret (resultId ballot_op); mret uint_2];
    and_2 ← new_inst uvec4_type OpBitwiseAnd [mret (resultId ballot_op); mret (resultId shift_2)];
    shift_1 ← new_inst uvec4_type OpShiftRightLogical [mret (resultId and_2); mret uint_1];
    and_1 ← new_inst uvec4_type OpBitwiseAnd [mret (resultId and_2); mret (resultId shift_1)];
    load_id ← on_builder getUniqueId;
    input ← get_builtin_shader_input BuiltInSubgroupLocalInvocationId;
    let load_invocation_id := mkInstruction load_id uint_type OpLoad [input] in
    and_invocation_id ← new_inst uint_type OpBitwiseAnd [mret load_id; makeUintConstant 0xfffffffc];
    extract_op ← new_inst bool_type OpGroupNonUniformBallotBitExtract
      [subgroup; mret (resultId and_1); mret (resultId and_invocation_id)];
    _ ← on_builder (for_eachM (addInstruction entry)
          [ballot_op; shift_2; and_2; shift_1; and_1; load_invocation_id; and_invocation_id; extract_op]);
    _ ← on_builder (makeReturn false (resultId extract_op));
    _ ← restore_build_point current_build_point;
    _ ← on_builder (addCapability CapabilityGroupNonUniformBallot);
    on_builder (addCapability CapabilityGroupNonUniform)).

Definition build_is_quad_uniform_control_flow : HM Z :=
  cached is_quad_uniform_call_id (on_module build_is_quad_uniform_control_flow_function).
