(* ===== verification/WaveEval.v ===== *)
(** SPIR-V functions run by a wave.

    The lanes of a group execute the same block together; an operation of the group sees the
    values of all of them.  A branch whose condition differs splits the group, one side after the
    other, and the sides meet again in the merge block; the lanes that stay in a loop go on
    together while the others wait for them.  This is the order of maximal reconvergence, which
    the generated functions are written for. *)
From S2P Require Import Prelude.
From S2P Require Import SpvBuilder.
From S2P Require Import Instrumentation.
From S2P Require Import SPIRVModule.
From S2P Require Import SpvEval.
From S2P Require Import OpEval.
From S2P Require Import WaveHelpers.
Local Open Scope Z_scope.

(** * Waves *)

(** What SPIR-V does not say: the number of lanes; the result of an operation over the values of
    some lanes in the order of the lanes, by opcode and type; what an undefined object or index
    holds; the null of a type; the inputs of a lane. *)
Record machine := mkMachine {
  wave_size : nat;
  group_op : Z -> Z -> list value -> value;
  undef_value : Z -> nat -> value;
  undef_index : Z -> nat -> Z;
  null_value : Z -> value;
  input_value : Z -> nat -> value;
}.

Inductive position := At (label : Z) | Returned (v : option value).
#[export] Instance at_dec l p : Decision (p = At l).
Proof. destruct p as [l'|v]; [destruct (decide (l' = l)) as [->|]; [by left|right; congruence]|by right]. Defined.

(** The values of a lane, the block it comes from and where it is. *)
Record wave := mkWave {
  lane_env : nat -> environment;
  came_from : nat -> Z;
  position_of : nat -> position;
}.

(** A set of lanes as a vector of four words. *)
Definition lane_mask (l : list nat) : Z := foldr (fun i m => Z.lor (2 ^ Z.of_nat i) m) 0 l.
Definition ballot_value (m : Z) : value := VComposite (pieces 32 4 m).
Definition ballot_mask (v : value) : option Z := match v with VComposite l => join 32 l | _ => None end.

(** Lanes before [i]; lanes of the quad of [i]. *)
Definition before (i : nat) (A : list nat) : list nat := filter (fun j => j < i)%nat A.
Definition quad_of (i : nat) : nat := (i / 4 * 4)%nat.

(** The number of lanes of a mask among the first [n]. *)
Definition count_lanes (m : Z) (n : nat) : Z := zlength (filter (fun j => Z.testbit m (Z.of_nat j) = true) (seq 0 n)).
Definition first_lane (m : Z) (n : nat) : option nat :=
  snd <$> list_find (fun j => Z.testbit m (Z.of_nat j) = true) (seq 0 n).

(** * Operations of one lane *)

Definition scalar_equal (op : Z) (x y : value) : option bool :=
  match x, y with
  | VInt x, VInt y => if op =? OpIEqual then Some (x =? y) else if op =? OpINotEqual then Some (negb (x =? y)) else None
  | VBool x, VBool y => if op =? OpLogicalEqual then Some (eqb x y) else None
  | _, _ => None
  end.

Fixpoint equal_components (op : Z) (l l' : list value) : option (list value) :=
  match l, l' with
  | [], [] => Some []
  | x :: t, y :: t' => c ← scalar_equal op x y; r ← equal_components op t t'; Some (VBool c :: r)
  | _, _ => None
  end.

Definition compare_values (op : Z) (x y : value) : option value :=
  match x, y with
  | VComposite l, VComposite l' => VComposite <$> equal_components op l l'
  | _, _ => VBool <$> scalar_equal op x y
  end.

Definition to_bool (v : value) : option bool := match v with VBool b => Some b | _ => None end.

Definition all_components (v : value) : option value :=
  match v with
  | VComposite l => bs ← mapM to_bool l; Some (VBool (forallb id bs))
  | _ => None
  end.

Definition logical (op : Z) (x y : bool) : option bool :=
  if op =? OpLogicalAnd then Some (x && y) else if op =? OpLogicalOr then Some (x || y) else None.

(** The opcodes of arithmetic over a group. *)
Definition is_group_arithmetic (op : Z) : bool :=
  (OpGroupNonUniformIAdd <=? op) && (op <=? OpGroupNonUniformLogicalXor).

(** The value that comes from the block [from]. *)
Fixpoint phi_operand (from : Z) (l : list Z) : option Z :=
  match l with
  | v :: b :: l' => if b =? from then Some v else phi_operand from l'
  | _ => None
  end.

(** * Instructions *)

Section machine.
Context (m : machine) (sm : SPIRVModule).
Let b := builder sm.

Definition wave_constant (id : Z) : option value :=
  i ← global b id;
  if opCode i =? OpConstantTrue then Some (VBool true)
  else if opCode i =? OpConstantFalse then Some (VBool false)
  else if opCode i =? OpConstantNull then Some (null_value m (typeId i))
  else if opCode i =? OpConstantComposite then VComposite <$> mapM (scalar_global b) (operands i)
  else scalar_global b id.

Definition lane_value (s : wave) (i : nat) (id : Z) : option value :=
  match lane_env s i !! id with Some v => Some v | None => wave_constant id end.

Section instruction.
(** The group, its state, the lane. *)
Variables (A : list nat) (s : wave) (inst : Instruction).

Definition wave_arg (j : nat) (n : nat) : option value := id ← operands inst !! n; lane_value s j id.
Definition bool_arg (j n : nat) : option bool := v ← wave_arg j n; to_bool v.
Definition int_arg_at (j n : nat) : option Z := match wave_arg j n with Some (VInt v) => Some v | _ => None end.

(** The lanes of the group whose operand is true. *)
Definition voters (n : nat) : option (list nat) :=
  l ← mapM (fun j => v ← bool_arg j n; Some (j, v)) A;
  Some (fst <$> filter (fun x => x.2 = true) l).

Definition wave_op (i : nat) : option value :=
  let op := opCode inst in
  if op =? OpPhi then id ← phi_operand (came_from s i) (operands inst); lane_value s i id
  else if op =? OpUndef then Some (undef_value m (resultId inst) i)
  else if op =? OpLoad then
    id ← operands inst !! 0%nat; k ← query_builtin_shader_input sm id; Some (input_value m k i)
  else if op =? OpGroupNonUniformBallot then l ← voters 1; Some (ballot_value (lane_mask l))
  else if op =? OpGroupNonUniformBroadcastFirst then j ← head A; wave_arg j 1
  else if op =? OpGroupNonUniformElect then j ← head A; Some (VBool (Nat.eqb j i))
  else if op =? OpGroupNonUniformAllEqual then
    l ← mapM (fun j => v ← wave_arg j 1; w ← wave_arg i 1; scalar_equal OpIEqual v w) A;
    Some (VBool (forallb id l))
  else if op =? OpGroupNonUniformQuadBroadcast then
    k ← int_arg_at i 2;
    let j := (quad_of i + Z.to_nat k)%nat in
    if bool_decide (j ∈ A) then wave_arg j 1 else Some (undef_value m (resultId inst) i)
  else if op =? OpGroupNonUniformShuffle then
    k ← int_arg_at i 2;
    if bool_decide (Z.to_nat k ∈ A) then wave_arg (Z.to_nat k) 1 else Some (undef_value m (resultId inst) i)
  else if op =? OpGroupNonUniformBallotBitExtract then
    v ← wave_arg i 1; x ← ballot_mask v; k ← int_arg_at i 2; Some (VBool (Z.testbit x k))
  else if op =? OpGroupNonUniformBallotFindLSB then
    v ← wave_arg i 1; x ← ballot_mask v;
    Some (match first_lane x (wave_size m) with
          | Some j => VInt (Z.of_nat j) | None => VInt (undef_index m (resultId inst) i) end)
  else if op =? OpGroupNonUniformBallotBitCount then
    g ← operands inst !! 1%nat; v ← wave_arg i 2; x ← ballot_mask v;
    if g =? GroupOperationReduce then Some (VInt (count_lanes x (wave_size m)))
    else if g =? GroupOperationExclusiveScan then Some (VInt (count_lanes x i))
    else None
  else if is_group_arithmetic op then
    g ← operands inst !! 1%nat;
    let lanes := if g =? GroupOperationReduce then Some A
                 else if g =? GroupOperationExclusiveScan then Some (before i A) else None in
    l ← lanes;
    vs ← mapM (fun j => wave_arg j 2) l;
    Some (group_op m op (typeId inst) vs)
  else if op =? OpSelect then
    c ← bool_arg i 0; x ← wave_arg i 1; y ← wave_arg i 2; Some (if c : bool then x else y)
  else if op =? OpLogicalNot then c ← bool_arg i 0; Some (VBool (negb c))
  else if bool_decide (op ∈ [OpLogicalAnd; OpLogicalOr]) then
    x ← bool_arg i 0; y ← bool_arg i 1; VBool <$> logical op x y
  else if op =? OpAll then x ← wave_arg i 0; all_components x
  else if bool_decide (op ∈ [OpIEqual; OpINotEqual; OpLogicalEqual]) then
    x ← wave_arg i 0; y ← wave_arg i 1; compare_values op x y
  else
    w ← component_width b (typeId inst);
    x ← wave_arg i 0; y ← wave_arg i 1;
    lift2 (fun x y => VInt <$> int_op op w x y) x y.
End instruction.

(** All lanes of the group get the result at once. *)
Definition wave_step (A : list nat) (inst : Instruction) (s : wave) : option wave :=
  vs ← mapM (fun i => v ← wave_op A s inst i; Some (i, v)) A;
  Some (mkWave (fun i => match list_find (fun x => x.1 = i) vs with
                         | Some (_, x) => <[resultId inst := x.2]> (lane_env s i)
                         | None => lane_env s i
                         end) (came_from s) (position_of s)).

Definition is_control (op : Z) : bool :=
  bool_decide (op ∈ [OpBranch; OpBranchConditional; OpSelectionMerge; OpLoopMerge; OpReturn; OpReturnValue]).

(** The instructions up to the ones that leave the block. *)
Fixpoint exec_block (A : list nat) (l : list Instruction) (s : wave) : option (wave * list Instruction) :=
  match l with
  | [] => None
  | i :: l' => if is_control (opCode i) then Some (s, l) else s ← wave_step A i s; exec_block A l' s
  end.

(** * Control flow *)

Definition move_to (A : list nat) (from : Z) (p : position) (s : wave) : wave :=
  mkWave (lane_env s)
    (fun i => if bool_decide (i ∈ A) then from else came_from s i)
    (fun i => if bool_decide (i ∈ A) then p else position_of s i).

Definition returned (A : list nat) (v : nat -> option value) (s : wave) : wave :=
  mkWave (lane_env s) (came_from s) (fun i => if bool_decide (i ∈ A) then Returned (v i) else position_of s i).

(** The lanes for which the condition holds and the others. *)
Definition split_lanes (A : list nat) (c : Z) (s : wave) : option (list nat * list nat) :=
  l ← mapM (fun i => v ← lane_value s i c; x ← to_bool v; Some (i, x)) A;
  Some (fst <$> filter (fun x => x.2 = true) l, fst <$> filter (fun x => x.2 = false) l).

Definition lanes_at (l : Z) (A : list nat) (s : wave) : list nat := filter (fun i => position_of s i = At l) A.

Context (code : list (list Instruction)).

Definition find_block (l : Z) : option (list Instruction) :=
  snd <$> list_find (fun c => resultId <$> head c = Some l) code.

(** The lanes [A] execute the block [l] and go on until each has returned or waits at one of the
    blocks [stops].  In a loop, [entered] are all lanes that ran its first round. *)
Fixpoint run_wave (fuel : nat) (entered : option (list nat)) (l : Z) (A : list nat) (stops : list Z) (s : wave)
    : option wave :=
  match fuel with
  | O => None
  | S n =>
      c ← find_block l;
      r ← exec_block A (tail c) s;
      let '(s, control) := (r : wave * list Instruction) in
      let goto A t stops s :=
        let s := move_to A l (At t) s in
        if bool_decide (A = [] \/ t ∈ stops) then Some s else run_wave n None t A stops s in
      let meet t A stops s :=
        let A := lanes_at t A s in
        if bool_decide (A = []) then Some s else run_wave n None t A stops s in
      let branch i stops s :=
        if opCode i =? OpBranch then t ← operands i !! 0%nat; goto A t stops s
        else if opCode i =? OpBranchConditional then
          match operands i with
          | [c; t; e] =>
              p ← split_lanes A c s;
              s ← goto p.1 t stops s; goto p.2 e stops s
          | _ => None
          end
        else None in
      match control with
      | [i] =>
          if opCode i =? OpReturn then Some (returned A (fun _ => None) s)
          else if opCode i =? OpReturnValue then
            v ← operands i !! 0%nat;
            Some (returned A (fun i => lane_value s i v) s)
          else branch i stops s
      | [i; j] =>
          t ← operands i !! 0%nat;
          if opCode i =? OpSelectionMerge then s ← branch j (t :: stops) s; meet t A stops s
          else if opCode i =? OpLoopMerge then
            s ← branch j (t :: l :: stops) s;
            let again := lanes_at l A s in
            let all := default A entered in
            if bool_decide (again = []) then meet t all stops s
            else run_wave n (Some all) l again stops s
          else None
      | _ => None
      end
  end.
End machine.

(** * Calls *)

(** The arguments of each lane. *)
Definition start_wave (params : list Z) (args : nat -> list value) : wave :=
  mkWave (fun i => list_to_map (zip params (args i))) (fun _ => 0) (fun _ => At 0).

(** A call of the function [id] by the lanes [A]: the value that each lane gets. *)
Definition call_function (m : machine) (sm : SPIRVModule) (fuel : nat) (id : Z) (A : list nat)
    (args : nat -> list value) : option (nat -> position) :=
  '(f, x) ← list_find (fun x => resultId (functionInstruction x) = id) (functions (builder sm));
  let code := instructions <$> filter (fun k => parent k = f) (blocks (builder sm)) in
  entry ← head code;
  l ← head entry;
  position_of <$> run_wave m sm code fuel None (resultId l) A [] (start_wave (resultId <$> parameterInstructions x) args).
