(* ===== verification/WaveLogic.v ===== *)
(** Reasoning about waves: what a group of lanes knows about its values, the steps of
    instructions, and the rules for the control flow of WaveEval.v.

    [has A s id f] says that each lane [i] of [A] holds [f i] in the object [id]; [goes] says that
    the lanes that run from a block end in states with a property. *)
From S2P Require Import Prelude.
From S2P Require Import SpvBuilder.
From S2P Require Import Instrumentation.
From S2P Require Import SPIRVModule.
From S2P Require Import SpvEval.
From S2P Require Import OpEval.
From S2P Require Import WaveHelpers.
From S2P Require Import WaveEval.
Local Open Scope Z_scope.

(** * Lists of lanes *)

Abbreviation lanes_where b A := (filter (fun i : nat => b i = true) (A : list nat)).

Lemma mapM_all {A B} (f : A -> option B) g (l : list A) :
  (forall x, x ∈ l -> f x = Some (g x)) -> mapM f l = Some (g <$> l).
Proof.
  intros H. apply mapM_Some. induction l as [|x l IH]; simpl; constructor; [apply H; left|].
  apply IH. intros y Hy. apply H. by right.
Qed.

Lemma filter_pairs (g : nat -> bool) b (A : list nat) :
  fst <$> filter (fun x => x.2 = b) ((fun i => (i, g i)) <$> A) = filter (fun i => g i = b) A.
Proof.
  induction A as [|i A IH]; [done|]. rewrite fmap_cons, !filter_cons. cbn [snd].
  destruct (decide (g i = b)); [rewrite fmap_cons|]; by rewrite IH.
Qed.

Lemma list_find_pair {B} (g : nat -> B) (A : list nat) i : i ∈ A ->
  exists n, list_find (fun x => x.1 = i) ((fun j => (j, g j)) <$> A) = Some (n, (i, g i)).
Proof.
  induction A as [|j A IH]; [by intros ?%elem_of_nil|]. intros H. rewrite fmap_cons. cbn [list_find fst].
  destruct (decide (j = i)) as [->|Hne]; [by eauto|]. destruct IH as [n Hn]; [by apply elem_of_cons in H as [->|H]|].
  exists (S n). by rewrite Hn.
Qed.

Lemma list_find_no_pair {B} (g : nat -> B) (A : list nat) i : i ∉ A ->
  list_find (fun x => x.1 = i) ((fun j => (j, g j)) <$> A) = None.
Proof. intros H. apply list_find_None. apply list.Forall_forall. intros x (j & -> & Hj)%list_elem_of_fmap. simpl. by intros ->. Qed.

Lemma filter_ext_in (P Q : nat -> Prop) `{!forall x, Decision (P x)} `{!forall x, Decision (Q x)} (A : list nat) :
  (forall i, i ∈ A -> P i <-> Q i) -> filter P A = filter Q A.
Proof.
  induction A as [|i A IH]; [done|]. intros E. rewrite !filter_cons.
  rewrite (IH (fun j Hj => E j (list_elem_of_further _ _ _ Hj))).
  pose proof (E i (list_elem_of_here _ _)). destruct (decide (P i)), (decide (Q i)); tauto || done.
Qed.

Lemma filter_all_in (P : nat -> Prop) `{!forall x, Decision (P x)} (A : list nat) :
  (forall i, i ∈ A -> P i) -> filter P A = A.
Proof.
  induction A as [|i A IH]; [done|]. intros E. rewrite filter_cons_True by (apply E; left). f_equal. apply IH.
  intros j Hj. apply E. by right.
Qed.

(** * What lanes know *)

Section machine.
Context (m : machine) (sm : SPIRVModule).

Definition has (A : list nat) (s : wave) (id : Z) (f : nat -> value) : Prop :=
  forall i, i ∈ A -> lane_value m sm s i id = Some (f i).

(** The lanes [A] get the value [f]; nothing else changes. *)
Record put (A : list nat) (id : Z) (f : nat -> value) (s s' : wave) : Prop := {
  put_env : forall i, i ∈ A -> lane_env s' i = <[id := f i]> (lane_env s i);
  put_other : forall i, i ∉ A -> lane_env s' i = lane_env s i;
  put_from : came_from s' = came_from s;
  put_position : position_of s' = position_of s;
}.

Lemma has_subset A B s id f : has A s id f -> (forall i, i ∈ B -> i ∈ A) -> has B s id f.
Proof. intros H HB i Hi. by apply H, HB. Qed.

Lemma has_ext A s id f g : has A s id f -> (forall i, i ∈ A -> f i = g i) -> has A s id g.
Proof. intros H E i Hi. by rewrite H, E. Qed.

Lemma has_filter (P : nat -> Prop) `{!forall x, Decision (P x)} A s id f : has A s id f -> has (filter P A) s id f.
Proof. intros HA. apply (has_subset A); [done|]. by intros i [_ Hi]%list_elem_of_filter. Qed.

Lemma put_has A id f s s' : put A id f s s' -> has A s' id f.
Proof. intros H i Hi. unfold lane_value. by rewrite (put_env _ _ _ _ _ H) , lookup_insert_eq. Qed.

Lemma put_keeps A id f s s' B id' g : put A id f s s' -> id' <> id -> has B s id' g -> has B s' id' g.
Proof.
  intros H Hne HB i Hi. specialize (HB i Hi). unfold lane_value in *.
  destruct (decide (i ∈ A)) as [HA|HA].
  - by rewrite (put_env _ _ _ _ _ H), lookup_insert_ne.
  - by rewrite (put_other _ _ _ _ _ H).
Qed.

Lemma put_apart A id f s s' B id' g : put A id f s s' -> (forall i, i ∈ B -> i ∉ A) -> has B s id' g -> has B s' id' g.
Proof. intros H Hd HB i Hi. specialize (HB i Hi). unfold lane_value in *. by rewrite (put_other _ _ _ _ _ H) by auto. Qed.

Lemma has_env s s' A id f : lane_env s' = lane_env s -> has A s id f -> has A s' id f.
Proof. intros E H i Hi. unfold lane_value. rewrite E. by apply H. Qed.

Lemma has_move A from p s B id f : has B (move_to A from p s) id f <-> has B s id f.
Proof. done. Qed.

(** A constant is the same for all lanes, unless a lane has an object with its id. *)
Definition unset (id : Z) (s : wave) : Prop := forall i, lane_env s i !! id = None.

Lemma wave_step_put A s inst f (Q : wave -> Prop) :
  (forall i, i ∈ A -> wave_op m sm A s inst i = Some (f i)) ->
  (forall s', put A (resultId inst) f s s' -> Q s') ->
  exists s', wave_step m sm A inst s = Some s' /\ Q s'.
Proof.
  intros Hf HQ. unfold wave_step.
  rewrite (mapM_all _ (fun i => (i, f i))) by (intros i Hi; by rewrite (Hf i Hi)). simpl.
  eexists; split; [reflexivity|]. apply HQ. split; simpl; [| |done|done].
  - intros i Hi. destruct (list_find_pair f A i Hi) as [n Hn]. by rewrite Hn.
  - intros i Hi. by rewrite (list_find_no_pair f A i Hi).
Qed.

(** ** Blocks *)

Definition block_goes (A : list nat) (l : list Instruction) (s : wave) (Q : wave -> list Instruction -> Prop) : Prop :=
  exists s' c, exec_block m sm A l s = Some (s', c) /\ Q s' c.

Lemma block_step A inst l s f (Q : wave -> list Instruction -> Prop) :
  is_control (opCode inst) = false ->
  (forall i, i ∈ A -> wave_op m sm A s inst i = Some (f i)) ->
  (forall s', put A (resultId inst) f s s' -> block_goes A l s' Q) ->
  block_goes A (inst :: l) s Q.
Proof.
  intros Hc Hf HQ. destruct (wave_step_put A s inst f _ Hf HQ) as (s' & E & s2 & c & E2 & H2).
  exists s2, c. split; [|done]. simpl. by rewrite Hc, E.
Qed.

Lemma block_end A inst l s (Q : wave -> list Instruction -> Prop) :
  is_control (opCode inst) = true -> Q s (inst :: l) -> block_goes A (inst :: l) s Q.
Proof. intros Hc HQ. exists s, (inst :: l). split; [|done]. simpl. by rewrite Hc. Qed.

(** ** Control flow *)

Section code.
Context (code : list (list Instruction)).

(** With enough fuel. *)
Definition eventually (f : nat -> option wave) (Q : wave -> Prop) : Prop :=
  exists n s, (forall fuel, (n <= fuel)%nat -> f fuel = Some s) /\ Q s.

Definition goes (entered : option (list nat)) (l : Z) (A : list nat) (stops : list Z) (s : wave) (Q : wave -> Prop) : Prop :=
  eventually (fun fuel => run_wave m sm code fuel entered l A stops s) Q.

Definition moves (l : Z) (A : list nat) (t : Z) (stops : list Z) (s : wave) (Q : wave -> Prop) : Prop :=
  let s := move_to A l (At t) s in
  if bool_decide (A = [] \/ t ∈ stops) then Q s else goes None t A stops s Q.

Definition meets (t : Z) (A : list nat) (stops : list Z) (s : wave) (Q : wave -> Prop) : Prop :=
  let A := lanes_at t A s in
  if bool_decide (A = []) then Q s else goes None t A stops s Q.

(** What the lanes do after the instructions of the block [l]. *)
Definition branches (l : Z) (A : list nat) (inst : Instruction) (stops : list Z) (s : wave) (Q : wave -> Prop) : Prop :=
  if opCode inst =? OpBranch then exists t, operands inst !! 0%nat = Some t /\ moves l A t stops s Q
  else if opCode inst =? OpBranchConditional then
    exists c t e f, operands inst = [c; t; e] /\ has A s c (fun i => VBool (f i)) /\
      moves l (lanes_where f A) t stops s (fun s => moves l (filter (fun i => f i = false) A) e stops s Q)
  else False.

Definition leaves (entered : option (list nat)) (l : Z) (A : list nat) (stops : list Z) (s : wave)
    (control : list Instruction) (Q : wave -> Prop) : Prop :=
  match control with
  | [i] =>
      if opCode i =? OpReturnValue then
        exists v, operands i !! 0%nat = Some v /\ Q (returned A (fun j => lane_value m sm s j v) s)
      else branches l A i stops s Q
  | [i; j] =>
      exists t, operands i !! 0%nat = Some t /\
        if opCode i =? OpSelectionMerge then branches l A j (t :: stops) s (fun s => meets t A stops s Q)
        else if opCode i =? OpLoopMerge then
          branches l A j (t :: l :: stops) s (fun s =>
            if bool_decide (lanes_at l A s = []) then meets t (default A entered) stops s Q
            else goes (Some (default A entered)) l (lanes_at l A s) stops s Q)
        else False
  | _ => False
  end.

Lemma eventually_bind f g (Q R : wave -> Prop) :
  eventually f Q -> (forall s, Q s -> eventually (fun n => g n s) R) -> eventually (fun n => s ← f n; g n s) R.
Proof.
  intros (n & s & Hf & Hs) HQ. destruct (HQ s Hs) as (k & r & Hg & Hr). exists (n + k)%nat, r.
  split; [|done]. intros fuel Hn. rewrite Hf by lia. simpl. apply Hg. lia.
Qed.

Lemma eventually_mono f (Q R : wave -> Prop) : eventually f Q -> (forall s, Q s -> R s) -> eventually f R.
Proof. intros (n & s & Hf & Hs) HR. exists n, s. auto. Qed.

Lemma eventually_now s (Q : wave -> Prop) : Q s -> eventually (fun _ => Some s) Q.
Proof. intros H. exists 0%nat, s. auto. Qed.

Lemma eventually_S f g (Q : wave -> Prop) : eventually f Q -> (forall n, g (S n) = f n) -> eventually g Q.
Proof.
  intros (n & s & Hf & Hs) E. exists (S n), s. split; [|done]. intros [|fuel] Hn; [lia|]. rewrite E. apply Hf. lia.
Qed.
Lemma goes_mono entered l A stops s (Q R : wave -> Prop) :
  goes entered l A stops s Q -> (forall s, Q s -> R s) -> goes entered l A stops s R.
Proof. apply eventually_mono. Qed.

Lemma moves_run l A t stops s Q : moves l A t stops s Q ->
  eventually (fun n => let s := move_to A l (At t) s in
    if bool_decide (A = [] \/ t ∈ stops) then Some s else run_wave m sm code n None t A stops s) Q.
Proof. unfold moves. cbv zeta. case_bool_decide; [apply eventually_now|done]. Qed.

Lemma meets_run t A stops s Q : meets t A stops s Q ->
  eventually (fun n => let A := lanes_at t A s in
    if bool_decide (A = []) then Some s else run_wave m sm code n None t A stops s) Q.
Proof. unfold meets. cbv zeta. case_bool_decide; [apply eventually_now|done]. Qed.

Lemma split_lanes_has A s c f : has A s c (fun i => VBool (f i)) ->
  split_lanes m sm A c s = Some (lanes_where f A, filter (fun i => f i = false) A).
Proof.
  intros H. unfold split_lanes. rewrite (mapM_all _ (fun i => (i, f i))) by (intros i Hi; by rewrite (H i Hi)). simpl.
  do 2 f_equal; apply filter_pairs.
Qed.

Lemma branches_run l A inst stops s Q : branches l A inst stops s Q ->
  eventually (fun n =>
    let goto A t stops s :=
      let s := move_to A l (At t) s in
      if bool_decide (A = [] \/ t ∈ stops) then Some s else run_wave m sm code n None t A stops s in
    if opCode inst =? OpBranch then t ← operands inst !! 0%nat; goto A t stops s
    else if opCode inst =? OpBranchConditional then
      match operands inst with
      | [c; t; e] => p ← split_lanes m sm A c s; s ← goto p.1 t stops s; goto p.2 e stops s
      | _ => None
      end
    else None) Q.
Proof.
  unfold branches. cbv zeta. destruct (opCode inst =? OpBranch).
  - intros (t & -> & H). by apply moves_run.
  - destruct (_ =? _); [|done]. intros (c & t & e & f & -> & Hc & H). rewrite (split_lanes_has _ _ _ _ Hc). simpl.
    eapply eventually_bind; [by apply moves_run|]. intros s' Hs. by apply moves_run.
Qed.

Lemma goes_block entered l A stops s i c Q :
  find_block code l = Some (i :: c) ->
  block_goes A c s (fun s c => leaves entered l A stops s c Q) ->
  goes entered l A stops s Q.
Proof.
  intros Hb (s1 & ctl & E & HQ).
  destruct ctl as [|x [|y [|? ?]]]; try done.
  - simpl in HQ. destruct (opCode x =? OpReturnValue) eqn:Hr.
    + destruct HQ as (v & Hv & HQ). exists 1%nat. eexists. split; [|exact HQ]. intros [|fuel] Hn; [lia|]. simpl.
      rewrite Hb. simpl. rewrite E. simpl. apply Z.eqb_eq in Hr as Ho. rewrite Ho. simpl. by rewrite Hv.
    + eapply eventually_S; [apply branches_run, HQ|]. intros n. simpl. rewrite Hb. simpl. rewrite E. simpl.
      rewrite Hr. destruct (opCode x =? OpReturn) eqn:Ho; [|done].
      apply Z.eqb_eq in Ho. unfold branches in HQ. by rewrite Ho in HQ.
  - destruct HQ as (t & Ht & HQ). destruct (opCode x =? OpSelectionMerge) eqn:Hs.
    + eapply eventually_S; [eapply eventually_bind; [apply branches_run, HQ|intros s' Hs'; apply meets_run, Hs']|].
      intros n. simpl. rewrite Hb. simpl. rewrite E. simpl. by rewrite Ht, Hs.
    + destruct (opCode x =? OpLoopMerge) eqn:Hl; [|done].
      eapply eventually_S; [eapply (eventually_bind _ (fun n s =>
        if bool_decide (lanes_at l A s = []) then
          let A := lanes_at t (default A entered) s in
          if bool_decide (A = []) then Some s else run_wave m sm code n None t A stops s
        else run_wave m sm code n (Some (default A entered)) l (lanes_at l A s) stops s)); [apply branches_run, HQ|]|].
      * intros s' Hs'. cbv beta in Hs' |- *. destruct (bool_decide (lanes_at l A s' = [])); [by apply meets_run|exact Hs'].
      * intros n. simpl. rewrite Hb. simpl. rewrite E. simpl. by rewrite Ht, Hs, Hl.
Qed.
End code.

(** ** Instructions *)

Section operations.
Context (A : list nat) (s : wave) (r t : Z).
Variables (i : nat) (Hi : i ∈ A).

Lemma has_arg op l n id f j : has A s id f -> l !! n = Some id -> j ∈ A ->
  wave_arg m sm s (mkInstruction r t op l) j n = Some (f j).
Proof. intros H Hl Hj. unfold wave_arg. simpl. rewrite Hl. simpl. by apply H. Qed.

Lemma has_bool op l n id f j : has A s id (fun i => VBool (f i)) -> l !! n = Some id -> j ∈ A ->
  bool_arg m sm s (mkInstruction r t op l) j n = Some (f j).
Proof. intros H Hl Hj. unfold bool_arg. by rewrite (has_arg _ _ _ _ _ _ H Hl Hj). Qed.

Lemma has_voters op l n id f : has A s id (fun i => VBool (f i)) -> l !! n = Some id ->
  voters m sm A s (mkInstruction r t op l) n = Some (lanes_where f A).
Proof.
  intros H Hl. unfold voters.
  rewrite (mapM_all _ (fun j => (j, f j))) by (intros j Hj; by rewrite (has_bool _ _ _ _ _ _ H Hl Hj)). simpl.
  by rewrite filter_pairs.
Qed.

Lemma op_ballot sc c f : has A s c (fun i => VBool (f i)) ->
  wave_op m sm A s (mkInstruction r t OpGroupNonUniformBallot [sc; c]) i = Some (ballot_value (lane_mask (lanes_where f A))).
Proof. intros H. unfold wave_op. simpl. by erewrite has_voters by done. Qed.

Lemma op_first sc v f j : head A = Some j -> has A s v f ->
  wave_op m sm A s (mkInstruction r t OpGroupNonUniformBroadcastFirst [sc; v]) i = Some (f j).
Proof.
  intros Hj H. unfold wave_op. simpl. rewrite Hj. simpl. eapply has_arg; [done|done|]. by apply head_Some_elem_of.
Qed.

Lemma op_elect sc j : head A = Some j ->
  wave_op m sm A s (mkInstruction r t OpGroupNonUniformElect [sc]) i = Some (VBool (Nat.eqb j i)).
Proof. intros Hj. unfold wave_op. simpl. by rewrite Hj. Qed.

Lemma op_quad sc v k f n : has A s v f -> has A s k (fun _ => VInt (Z.of_nat n)) -> (quad_of i + n)%nat ∈ A ->
  wave_op m sm A s (mkInstruction r t OpGroupNonUniformQuadBroadcast [sc; v; k]) i = Some (f (quad_of i + n)%nat).
Proof.
  intros H Hk Hin. unfold wave_op, int_arg_at. simpl. erewrite (has_arg _ _ 2) by done. simpl.
  rewrite Nat2Z.id, bool_decide_eq_true_2 by done. by eapply has_arg.
Qed.

Lemma op_shuffle sc v k f g : has A s v f -> has A s k (fun i => VInt (g i)) ->
  wave_op m sm A s (mkInstruction r t OpGroupNonUniformShuffle [sc; v; k]) i =
  Some (if bool_decide (Z.to_nat (g i) ∈ A) then f (Z.to_nat (g i)) else undef_value m r i).
Proof.
  intros H Hk. unfold wave_op, int_arg_at. simpl. erewrite (has_arg _ _ 2) by done. simpl.
  case_bool_decide; [by eapply has_arg|done].
Qed.

Lemma op_find_lsb sc b v x : has A s b (fun _ => v) -> ballot_mask v = Some x ->
  wave_op m sm A s (mkInstruction r t OpGroupNonUniformBallotFindLSB [sc; b]) i =
  Some (VInt (match first_lane x (wave_size m) with Some j => Z.of_nat j | None => undef_index m r i end)).
Proof.
  intros H Hx. unfold wave_op. simpl. erewrite (has_arg _ _ 1) by done. simpl.
  rewrite Hx. simpl. by destruct (first_lane _ _).
Qed.

Lemma op_bit_count sc g b x : has A s b x -> forall y, ballot_mask (x i) = Some y ->
  wave_op m sm A s (mkInstruction r t OpGroupNonUniformBallotBitCount [sc; g; b]) i =
  (if g =? GroupOperationReduce then Some (VInt (count_lanes y (wave_size m)))
   else if g =? GroupOperationExclusiveScan then Some (VInt (count_lanes y i)) else None).
Proof.
  intros H y Hy. unfold wave_op. simpl. erewrite (has_arg _ _ 2) by done. simpl. by rewrite Hy.
Qed.

Lemma op_bit_extract sc b k x g y : has A s b x -> has A s k (fun i => VInt (g i)) -> ballot_mask (x i) = Some y ->
  wave_op m sm A s (mkInstruction r t OpGroupNonUniformBallotBitExtract [sc; b; k]) i = Some (VBool (Z.testbit y (g i))).
Proof.
  intros H Hk Hy. unfold wave_op, int_arg_at. simpl. erewrite (has_arg _ _ 1 _ _ _ H) by done. simpl. rewrite Hy. simpl.
  by erewrite (has_arg _ _ 2 _ _ _ Hk) by done.
Qed.

Lemma op_exclusive_scan op sc v f : is_group_arithmetic op = true -> has A s v f ->
  wave_op m sm A s (mkInstruction r t op [sc; GroupOperationExclusiveScan; v]) i =
  Some (group_op m op t (f <$> before i A)).
Proof.
  intros Hop H. pose proof Hop as Hr. apply andb_true_iff in Hr as [H1 H2]. rewrite Z.leb_le in H1, H2.
  unfold OpGroupNonUniformIAdd, OpGroupNonUniformLogicalXor in H1, H2. unfold wave_op. cbn [opCode operands].
  repeat lazymatch goal with |- context [if op =? ?k then _ else _] =>
    rewrite (proj2 (Z.eqb_neq op k)) by (let n := eval vm_compute in k in change k with n; lia) end.
  rewrite Hop. simpl. rewrite (mapM_all _ f); [done|].
  intros j [_ Hj]%list_elem_of_filter. by eapply has_arg.
Qed.

Lemma op_phi from l id f : came_from s i = from -> phi_operand from l = Some id -> has A s id f ->
  wave_op m sm A s (mkInstruction r t OpPhi l) i = Some (f i).
Proof. intros Hf Hl H. unfold wave_op. simpl. rewrite Hf, Hl. simpl. by apply H. Qed.

Lemma op_undef l : wave_op m sm A s (mkInstruction r t OpUndef l) i = Some (undef_value m r i).
Proof. done. Qed.

Lemma op_compare op x y f g v : op ∈ [OpIEqual; OpINotEqual; OpLogicalEqual] -> has A s x f -> has A s y g ->
  compare_values op (f i) (g i) = Some v -> wave_op m sm A s (mkInstruction r t op [x; y]) i = Some v.
Proof.
  intros Hop Hx Hy Hv. rewrite !elem_of_cons in Hop.
  destruct Hop as [-> |[-> |[-> |[]%elem_of_nil]]]; unfold wave_op; simpl;
    erewrite (has_arg _ _ 0 _ _ _ Hx) by done; simpl; by erewrite (has_arg _ _ 1 _ _ _ Hy) by done.
Qed.

Lemma op_all x f v : has A s x f -> all_components (f i) = Some v ->
  wave_op m sm A s (mkInstruction r t OpAll [x]) i = Some v.
Proof. intros Hx Hv. unfold wave_op. simpl. by erewrite (has_arg _ _ 0 _ _ _ Hx) by done. Qed.

Lemma op_not x f : has A s x (fun i => VBool (f i)) ->
  wave_op m sm A s (mkInstruction r t OpLogicalNot [x]) i = Some (VBool (negb (f i))).
Proof. intros Hx. unfold wave_op. simpl. by erewrite (has_bool _ _ 0 _ _ _ Hx) by done. Qed.

Lemma op_logical op x y f g b : op ∈ [OpLogicalAnd; OpLogicalOr] ->
  has A s x (fun i => VBool (f i)) -> has A s y (fun i => VBool (g i)) -> logical op (f i) (g i) = Some b ->
  wave_op m sm A s (mkInstruction r t op [x; y]) i = Some (VBool b).
Proof.
  intros Hop Hx Hy Hb. rewrite !elem_of_cons in Hop.
  destruct Hop as [-> |[-> |[]%elem_of_nil]]; unfold wave_op; simpl;
    (erewrite (has_bool _ _ 0 _ _ _ Hx) by done); simpl; (erewrite (has_bool _ _ 1 _ _ _ Hy) by done); exact (f_equal (fmap (M:=option) VBool) Hb).
Qed.

Lemma op_select c x y f g h : has A s c (fun i => VBool (f i)) -> has A s x g -> has A s y h ->
  wave_op m sm A s (mkInstruction r t OpSelect [c; x; y]) i = Some (if f i then g i else h i).
Proof.
  intros Hc Hx Hy. unfold wave_op. simpl. erewrite (has_bool _ _ 0 _ _ _ Hc) by done. simpl.
  erewrite (has_arg _ _ 1 _ _ _ Hx) by done. simpl. by erewrite (has_arg _ _ 2 _ _ _ Hy) by done.
Qed.

Lemma op_integer op x y f g w v : op ∈ [OpBitwiseAnd; OpShiftRightLogical] -> has A s x f -> has A s y g ->
  component_width (builder sm) t = Some w ->
  lift2 (fun x y => VInt <$> int_op op w x y) (f i) (g i) = Some v ->
  wave_op m sm A s (mkInstruction r t op [x; y]) i = Some v.
Proof.
  intros Hop Hx Hy Hw Hv. rewrite !elem_of_cons in Hop.
  destruct Hop as [-> |[-> |[]%elem_of_nil]]; unfold wave_op; simpl; rewrite Hw; simpl;
    (erewrite (has_arg _ _ 0 _ _ _ Hx) by done); simpl; by erewrite (has_arg _ _ 1 _ _ _ Hy) by done.
Qed.

Lemma op_load x k : query_builtin_shader_input sm x = Some k ->
  wave_op m sm A s (mkInstruction r t OpLoad [x]) i = Some (input_value m k i).
Proof. intros Hx. unfold wave_op. simpl. by rewrite Hx. Qed.
End operations.
End machine.

(** ** Lanes that are left alone, and lanes that part *)

(** Nothing changes for the lanes outside of [A]. *)
Record same_outside (A : list nat) (s s' : wave) : Prop := {
  so_env : forall i, i ∉ A -> lane_env s' i = lane_env s i;
  so_from : forall i, i ∉ A -> came_from s' i = came_from s i;
  so_position : forall i, i ∉ A -> position_of s' i = position_of s i;
}.

Lemma same_outside_refl A s : same_outside A s s.
Proof. by split. Qed.
Lemma same_outside_trans A s s' s'' : same_outside A s s' -> same_outside A s' s'' -> same_outside A s s''.
Proof. intros [A1 A2 A3] [B1 B2 B3]. split; intros i Hi; by rewrite ?B1, ?B2, ?B3, ?A1, ?A2, ?A3. Qed.

Lemma same_outside_weaken A B s s' : same_outside A s s' -> (forall i, i ∈ A -> i ∈ B) -> same_outside B s s'.
Proof. intros [H1 H2 H3] HB. split; intros i Hi; [apply H1|apply H2|apply H3]; intros H; by apply Hi, HB. Qed.

Lemma put_outside A B id f s s' : put A id f s s' -> (forall i, i ∈ A -> i ∈ B) -> same_outside B s s'.
Proof.
  intros [H1 H2 H3 H4] HB. split; intros i Hi; [|by rewrite H3|by rewrite H4]. apply H2. intros H. by apply Hi, HB.
Qed.

Lemma move_outside A B from p s : (forall i, i ∈ A -> i ∈ B) -> same_outside B s (move_to A from p s).
Proof. intros HB. split; intros i Hi; simpl; [done| |]; rewrite bool_decide_eq_false_2; try done; intros H; by apply Hi, HB. Qed.

(** The lanes [A] leave the block [l] for [t] or for [e]. *)
Definition parted (A : list nat) (l t e : Z) (f : nat -> bool) (s : wave) : wave :=
  move_to (filter (fun i => f i = false) A) l (At e) (move_to (lanes_where f A) l (At t) s).

Section parted.
Variables (A : list nat) (l t e : Z) (f : nat -> bool) (s : wave).

Lemma parted_position i : i ∈ A -> position_of (parted A l t e f s) i = At (if f i then t else e).
Proof.
  intros Hi. simpl. destruct (f i) eqn:E.
  - rewrite bool_decide_eq_false_2, bool_decide_eq_true_2; [done| |].
    + by apply list_elem_of_filter.
    + rewrite list_elem_of_filter. intros [H _]. congruence.
  - rewrite bool_decide_eq_true_2; [done|]. by apply list_elem_of_filter.
Qed.

Lemma parted_from i : i ∈ A -> came_from (parted A l t e f s) i = l.
Proof.
  intros Hi. simpl. destruct (f i) eqn:E.
  - rewrite bool_decide_eq_false_2, bool_decide_eq_true_2; [done| |].
    + by apply list_elem_of_filter.
    + rewrite list_elem_of_filter. intros [H _]. congruence.
  - rewrite bool_decide_eq_true_2; [done|]. by apply list_elem_of_filter.
Qed.

Lemma parted_outside : same_outside A s (parted A l t e f s).
Proof. eapply same_outside_trans; apply move_outside; by intros i [_ Hi]%list_elem_of_filter. Qed.

Lemma lanes_at_parted : t <> e -> lanes_at e A (parted A l t e f s) = filter (fun i => f i = false) A.
Proof.
  intros Hne. apply filter_ext_in. intros i Hi. rewrite parted_position by done. destruct (f i); split; congruence.
Qed.
End parted.
