(* ===== verification/WaveMasks.v ===== *)
(** Sets of lanes as vectors of four words: the bits of a ballot, the operations on them, and the
    number and the first of the lanes. *)
From S2P Require Import Prelude.
From S2P Require Import SpvBuilder.
From S2P Require Import SpvEval.
From S2P Require Import OpEval.
From S2P Require Import WaveHelpers.
From S2P Require Import WaveEval.
From S2P Require Import WaveLogic.
Local Open Scope Z_scope.

Lemma lane_mask_testbit l k : 0 <= k -> Z.testbit (lane_mask l) k = bool_decide (Z.to_nat k ∈ l).
Proof.
  intros Hk. induction l as [|i l IH]; simpl; [by rewrite Z.bits_0|].
  rewrite Z.lor_spec, IH, Z.pow2_bits_eqb by lia. destruct (Z.eqb_spec (Z.of_nat i) k) as [<-|Hne]; simpl.
  - rewrite bool_decide_eq_true_2; [done|]. rewrite Nat2Z.id. left.
  - apply bool_decide_ext. rewrite elem_of_cons. split; [tauto|]. intros [Hi|Hi]; [lia|done].
Qed.

Lemma lane_mask_bit l i : Z.testbit (lane_mask l) (Z.of_nat i) = bool_decide (i ∈ l).
Proof. by rewrite lane_mask_testbit, Nat2Z.id by lia. Qed.

Lemma lane_mask_bound l n : (forall i, i ∈ l -> (i < n)%nat) -> 0 <= lane_mask l < 2 ^ Z.of_nat n.
Proof.
  intros H. assert (0 <= lane_mask l) as H0.
  { clear H. induction l as [|i l IH]; simpl; [lia|]. apply Z.lor_nonneg. split; [apply Z.pow_nonneg; lia|done]. }
  split; [done|]. destruct (Z.eq_dec (lane_mask l) 0) as [->|Hne]; [lia|].
  apply Z.log2_lt_pow2; [lia|]. pose proof (Z.bit_log2 (lane_mask l) ltac:(lia)) as Hb.
  pose proof (Z.log2_nonneg (lane_mask l)). rewrite lane_mask_testbit in Hb by done.
  apply bool_decide_eq_true, H in Hb. lia.
Qed.

Lemma land_pow2_range x y n : 0 <= x < 2 ^ n -> 0 <= y -> 0 <= n -> 0 <= Z.land x y < 2 ^ n.
Proof.
  intros Hx Hy Hn. assert (0 <= Z.land x y) by (apply Z.land_nonneg; lia). split; [done|].
  replace (Z.land x y) with (Z.land (Z.land x y) (Z.ones n)).
  - rewrite Z.land_ones by lia. apply Z.mod_pos_bound. lia.
  - rewrite <- Z.land_assoc, (Z.land_comm y), Z.land_assoc, Z.land_ones, Z.mod_small by lia. done.
Qed.

(** ** Words *)

Definition word (x : Z) (i : nat) : Z := Z.shiftr x (32 * Z.of_nat i) mod 2 ^ 32.

Lemma ballot_value_words x : ballot_value x = VComposite [VInt (word x 0); VInt (word x 1); VInt (word x 2); VInt (word x 3)].
Proof. done. Qed.

Lemma word_bit x i k : 0 <= k < 32 -> Z.testbit (word x i) k = Z.testbit x (32 * Z.of_nat i + k).
Proof.
  intros Hk. unfold word. rewrite Z.mod_pow2_bits_low, Z.shiftr_spec by lia. f_equal. lia.
Qed.

Lemma word_range x i : 0 <= word x i < 2 ^ 32.
Proof. apply Z.mod_pos_bound. lia. Qed.

Lemma word_ext x y i : (forall k, 0 <= k < 32 -> Z.testbit x k = Z.testbit (word y i) k) -> 0 <= x < 2 ^ 32 -> x = word y i.
Proof.
  intros H Hx. apply Z.bits_inj'. intros k Hk. destruct (Z_lt_ge_dec k 32); [apply H; lia|].
  rewrite !Z.bits_above_log2; try done; try lia.
  - pose proof (word_range y i). lia.
  - pose proof (word_range y i). destruct (Z.eq_dec (word y i) 0) as [->|]; [simpl; lia|].
    enough (Z.log2 (word y i) < 32) by lia. apply Z.log2_lt_pow2; lia.
  - destruct (Z.eq_dec x 0) as [->|]; [simpl; lia|]. enough (Z.log2 x < 32) by lia. apply Z.log2_lt_pow2; lia.
Qed.

Lemma words_join x : 0 <= x < 2 ^ 128 ->
  word x 0 + 2 ^ 32 * (word x 1 + 2 ^ 32 * (word x 2 + 2 ^ 32 * (word x 3 + 2 ^ 32 * 0))) = x.
Proof.
  intros Hx. unfold word. rewrite !Z.shiftr_div_pow2 by lia.
  change (32 * Z.of_nat 0) with 0. change (32 * Z.of_nat 1) with 32. change (32 * Z.of_nat 2) with 64.
  change (32 * Z.of_nat 3) with 96. rewrite Z.pow_0_r, Z.div_1_r.
  pose proof (Z.div_mod x (2 ^ 32) ltac:(lia)) as H0.
  pose proof (Z.div_mod (x / 2 ^ 32) (2 ^ 32) ltac:(lia)) as H1. rewrite Z.div_div in H1 by lia.
  pose proof (Z.div_mod (x / 2 ^ 64) (2 ^ 32) ltac:(lia)) as H2. rewrite Z.div_div in H2 by lia.
  rewrite (Z.mod_small (x / 2 ^ 96)) by (split; [apply Z.div_pos; lia|apply Z.div_lt_upper_bound; lia]).
  change (2 ^ 32 * 2 ^ 32) with (2 ^ 64) in H1. change (2 ^ 64 * 2 ^ 32) with (2 ^ 96) in H2. lia.
Qed.

Lemma ballot_mask_value x : 0 <= x < 2 ^ 128 -> ballot_mask (ballot_value x) = Some x.
Proof. intros Hx. rewrite ballot_value_words. simpl. f_equal. by apply words_join. Qed.

Lemma ballot_value_inj x y : 0 <= x < 2 ^ 128 -> 0 <= y < 2 ^ 128 ->
  word x 0 = word y 0 -> word x 1 = word y 1 -> word x 2 = word y 2 -> word x 3 = word y 3 -> x = y.
Proof.
  intros Hx Hy H0 H1 H2 H3. rewrite <- (words_join x Hx), <- (words_join y Hy). by rewrite H0, H1, H2, H3.
Qed.

(** ** Operations *)

Lemma word_and x y i : Z.land (word x i) (word y i) = word (Z.land x y) i.
Proof.
  apply word_ext.
  - intros k Hk. by rewrite Z.land_spec, !word_bit, Z.land_spec by lia.
  - apply land_pow2_range; [apply word_range|apply word_range|lia].
Qed.

Lemma mask_and x y :
  lift2 (fun x y => VInt <$> int_op OpBitwiseAnd 32 x y) (ballot_value x) (ballot_value y) = Some (ballot_value (Z.land x y)).
Proof. rewrite !ballot_value_words. simpl. by rewrite !word_and. Qed.

(** The comparison of two masks, word by word. *)
Definition equal_words (x y : Z) : value :=
  VComposite [VBool (word x 0 =? word y 0); VBool (word x 1 =? word y 1);
              VBool (word x 2 =? word y 2); VBool (word x 3 =? word y 3)].

Lemma mask_compare x y : compare_values OpIEqual (ballot_value x) (ballot_value y) = Some (equal_words x y).
Proof. done. Qed.

Lemma mask_equal x y : 0 <= x < 2 ^ 128 -> 0 <= y < 2 ^ 128 ->
  all_components (equal_words x y) = Some (VBool (bool_decide (x = y))).
Proof.
  intros Hx Hy. cbn -[word]. do 2 f_equal. apply eq_bool_prop_intro.
  split.
  - intros H. apply bool_decide_pack. unfold id in H. rewrite !andb_True in H. destruct H as (H0 & H1 & H2 & H3 & _).
    apply Is_true_true, Z.eqb_eq in H0, H1, H2, H3. by apply ballot_value_inj.
  - intros ->%bool_decide_unpack. unfold id. by rewrite !Z.eqb_refl.
Qed.

(** ** Counting *)

Lemma filter_seq_count l n : NoDup l ->
  length (filter (fun j => j ∈ l) (seq 0 n)) = length (before n l).
Proof.
  intros Hl. apply Permutation_length. apply NoDup_Permutation.
  - apply list.NoDup_filter, NoDup_seq.
  - by apply list.NoDup_filter.
  - intros j. unfold before. rewrite !list_elem_of_filter, elem_of_seq. intuition lia.
Qed.

Lemma count_lanes_mask l n : NoDup l -> count_lanes (lane_mask l) n = zlength (before n l).
Proof.
  intros Hl. unfold count_lanes, zlength. rewrite <- filter_seq_count by done. do 2 f_equal. apply filter_ext_in.
  intros j _. rewrite lane_mask_bit. apply bool_decide_eq_true.
Qed.
