(* ===== verification/WaveLoops.v ===== *)
(** The shape of the generated functions for waves: lanes that leave early, loops over the values
    that are left, and calls.

    [rounds] is the loop: every round takes the lanes with the key of the first lane that is left,
    so that it ends.  [returns] says what the lanes get from a function that was generated. *)
From S2P Require Import Prelude.
From S2P Require Import SpvBuilder.
From S2P Require Import Instrumentation.
From S2P Require Import SPIRVModule.
From S2P Require Import SpvEval.
From S2P Require Import OpEval.
From S2P Require Import WaveHelpers.
From S2P Require Import WaveEval.
From S2P Require Import WaveLogic.
Local Open Scope Z_scope.

(** * Calls and early returns *)

Section early.
Context (m : machine) (sm : SPIRVModule) (code : list (list Instruction)).

(** A block that only goes on to another one. *)
Lemma branch_goes l t i A stops s Q :
  find_block code l = Some [i; mkInstruction 0 0 OpBranch [t]] ->
  moves m sm code l A t stops s Q -> goes m sm code None l A stops s Q.
Proof. intros Hl HQ. eapply goes_block; [exact Hl|]. apply block_end; [done|]. simpl. by exists t. Qed.

Lemma moves_goes from A t s (Q : wave -> Prop) :
  (A = [] -> forall s, Q s) -> (A <> [] -> forall s', lane_env s' = lane_env s -> goes m sm code None t A [] s' Q) ->
  moves m sm code from A t [] s Q.
Proof.
  intros H1 H2. unfold moves. case_bool_decide as Hc; [|by apply H2; [tauto|]].
  destruct Hc as [Hc|[]%elem_of_nil]. by apply H1.
Qed.

(** A block that returns a value. *)
Lemma return_goes l i v A stops s f Q :
  find_block code l = Some [i; mkInstruction 0 0 OpReturnValue [v]] -> has m sm A s v f ->
  (forall s', (forall j, j ∈ A -> position_of s' j = Returned (Some (f j))) -> Q s') ->
  goes m sm code None l A stops s Q.
Proof.
  intros Hl Hv HQ. eapply goes_block; [exact Hl|]. apply block_end; [done|]. exists v. split; [done|]. apply HQ.
  intros j Hj. simpl. rewrite bool_decide_eq_true_2 by done. by rewrite (Hv j Hj).
Qed.

(** The lanes whose flag is set leave in the block [outer] and wait in the block [ret]; the others
    run from [inner] on and come from [merge] with the result. *)
Context (outer inner ret merge flag undef result phi t t' : Z).
Hypothesis Houter : exists i, find_block code outer =
  Some [i; mkInstruction undef t OpUndef []; mkInstruction 0 0 OpSelectionMerge [ret; 0];
        mkInstruction 0 0 OpBranchConditional [flag; ret; inner]].
Hypothesis Hret : exists i, find_block code ret =
  Some [i; mkInstruction phi t' OpPhi [result; merge; undef; outer]; mkInstruction 0 0 OpReturnValue [phi]].
Hypothesis Hids : flag <> undef /\ inner <> ret /\ merge <> outer.

Lemma early_goes A stops helper g s :
  let P := filter (fun i => helper i = false) A in
  has m sm A s flag (fun i => VBool (helper i)) ->
  ret ∉ stops ->
  inner ∉ stops ->
  (forall s', same_outside A s s' -> (forall B id f, id <> undef -> has m sm B s id f -> has m sm B s' id f) ->
     has m sm A s' undef (undef_value m undef) -> P <> [] ->
     goes m sm code None inner P (ret :: stops) s' (fun s'' => same_outside P s' s'' /\
       forall i, i ∈ P -> position_of s'' i = At ret /\ came_from s'' i = merge /\ lane_value m sm s'' i result = Some (g i))) ->
  goes m sm code None outer A stops s (fun s => forall i, i ∈ P -> position_of s i = Returned (Some (g i))).
Proof.
  intros P Hflag Hs1 Hs2 Hinner. destruct Houter as [io Ho], Hret as [ir Hr], Hids as (N1 & N2 & N3).
  eapply goes_block; [exact Ho|].
  eapply (block_step _ _ _ _ _ _ (undef_value m undef)); [done|by intros; apply op_undef|].
  intros s1 H1. apply block_end; [done|]. exists ret. split; [done|]. simpl.
  exists flag, ret, inner, helper. split; [done|]. split; [by eapply put_keeps|].
  unfold moves at 1. rewrite bool_decide_eq_true_2 by (right; left).
  unfold moves. fold P. set (s2 := move_to P outer (At inner) _).
  assert (s2 = parted A outer ret inner helper s1) as E2 by done. clearbody s2. subst s2.
  set (s2 := parted A outer ret inner helper s1) in *.
  pose proof (parted_outside A outer ret inner helper s1 : same_outside A s1 s2) as Ho2.
  assert (forall i, i ∈ A -> helper i = true ->
    position_of s2 i = At ret /\ came_from s2 i = outer /\ lane_value m sm s2 i undef = Some (undef_value m undef i)) as Hhelp.
  { intros i Hi E. split_and!.
    - unfold s2. by rewrite parted_position, E.
    - by apply parted_from.
    - by apply (put_has _ _ _ _ _ _ _ H1 i). }
  enough (forall s3, same_outside P s2 s3 -> (forall i, i ∈ P -> position_of s3 i = At ret /\ came_from s3 i = merge /\
      lane_value m sm s3 i result = Some (g i)) ->
    meets m sm code ret A stops s3 (fun s => forall i, i ∈ P -> position_of s i = Returned (Some (g i)))) as Hmeet.
  { case_bool_decide as Hc.
    - destruct Hc as [HP|Hc]; [|by apply elem_of_cons in Hc as [?|?]]. apply Hmeet; [apply same_outside_refl|].
      intros i Hi. rewrite HP in Hi. by apply elem_of_nil in Hi.
    - eapply goes_mono; [apply Hinner|].
      + eapply same_outside_trans; [|exact Ho2]. by eapply put_outside.
      + intros B id f Hne HB. exact (put_keeps _ _ _ _ _ _ _ _ _ _ H1 Hne HB).
      + exact (put_has _ _ _ _ _ _ _ H1).
      + intros HP. apply Hc. by left.
      + intros s3 [H3 H4]. by apply Hmeet. }
  intros s3 [F1 F2 F3] HP. unfold meets.
  assert (forall i, i ∈ A -> helper i = true -> i ∉ P) as Hdis.
  { intros i _ E [E' _]%list_elem_of_filter. congruence. }
  assert (forall i, i ∈ A -> helper i = false -> i ∈ P) as HinP by (intros; by apply list_elem_of_filter).
  replace (lanes_at ret A s3) with A.
  2: { symmetry. apply filter_all_in. intros i Hi. destruct (helper i) eqn:E; [rewrite F3 by auto; by apply Hhelp|by apply HP, HinP]. }
  case_bool_decide as HA. { intros i [_ Hi]%list_elem_of_filter. rewrite HA in Hi. by apply elem_of_nil in Hi. }
  eapply goes_block; [exact Hr|].
  eapply (block_step _ _ _ _ _ _ (fun i => if helper i then undef_value m undef i else g i)); [done| |].
  - intros i Hi. unfold wave_op. simpl. destruct (helper i) eqn:E.
    + destruct (Hhelp i Hi E) as (_ & E2 & E3). rewrite F2, E2 by auto.
      rewrite (proj2 (Z.eqb_neq merge outer)), Z.eqb_refl by done. simpl. unfold lane_value in *. by rewrite F1 by auto.
    + destruct (HP i (HinP i Hi E)) as (_ & E2 & E3). by rewrite E2, Z.eqb_refl.
  - intros s4 H4. apply block_end; [done|]. exists phi. split; [done|].
    intros i [E Hi]%list_elem_of_filter. simpl. rewrite bool_decide_eq_true_2 by done.
    by rewrite (put_has _ _ _ _ _ _ _ H4 i Hi), E.
Qed.
End early.

(** * Rounds *)

Section rounds.
Context (m : machine) (sm : SPIRVModule) (code : list (list Instruction)).
Context (A : list nat) {K : Type} `{!EqDecision K} (key : nat -> K).

(** The header of the loop and the block after it; the block that ends a round; what the lanes
    know in every round; the result of a lane. *)
Context (header merge last result : Z) (ready : wave -> Prop) (value : nat -> SpvEval.value).
(** The blocks of a round. *)
Context (inside : list Z).

Definition same_key (j i : nat) : bool := bool_decide (key i = key j).

(** What a finished lane has. *)
Definition finished (s : wave) (i : nat) : Prop :=
  position_of s i = At merge /\ came_from s i = last /\ lane_value m sm s i result = Some (value i).

Lemma finished_outside rest s s' i : same_outside rest s s' -> i ∉ rest -> finished s i -> finished s' i.
Proof.
  intros [H1 H2 H3] Hi (M1 & M2 & M3). unfold finished, lane_value in *. by rewrite H1, H2, H3.
Qed.

(** The lanes that are left have all lanes of their keys. *)
Definition closed (rest : list nat) : Prop :=
  exists P : nat -> bool, rest = lanes_where P A /\ forall i k, key i = key k -> P i = P k.

Lemma closed_subset rest : closed rest -> forall i, i ∈ rest -> i ∈ A.
Proof. intros (P & -> & _). by intros i [_ Hi]%list_elem_of_filter. Qed.

(** The lanes of a key among them are all lanes of the key. *)
Lemma closed_key rest j : closed rest -> j ∈ rest -> lanes_where (same_key j) rest = lanes_where (same_key j) A.
Proof.
  intros (P & -> & HP) [Hj _]%list_elem_of_filter. rewrite list_filter_filter. apply filter_ext_in.
  intros k _. unfold same_key. split; [naive_solver|]. intros E. split; [done|]. rewrite <- Hj. apply HP.
  by apply bool_decide_eq_true in E.
Qed.

Hypothesis round : forall rest j entered stops s Q,
  closed rest -> head rest = Some j -> (forall l, l ∈ inside -> l ∉ stops) -> default rest entered = A -> ready s ->
  (forall s', same_outside rest s s' -> ready s' ->
     (forall i, i ∈ rest -> same_key j i = true -> finished s' i) ->
     let again := filter (fun i => same_key j i = false) rest in
     if bool_decide (again = []) then meets m sm code merge A stops s' Q
     else goes m sm code (Some A) header again stops s' Q) ->
  goes m sm code entered header rest stops s Q.

(** All rounds: every one leaves fewer lanes. *)
Lemma rounds_left k : forall P rest entered stops s Q,
  (length rest <= k)%nat -> (forall i k, key i = key k -> P i = P k) -> rest = lanes_where P A -> rest <> [] ->
  (forall l, l ∈ inside -> l ∉ stops) -> default rest entered = A -> ready s ->
  (forall i, i ∈ A -> P i = false -> finished s i) ->
  (forall s', same_outside A s s' -> (forall i, i ∈ A -> finished s' i) -> meets m sm code merge A stops s' Q) ->
  goes m sm code entered header rest stops s Q.
Proof.
  induction k as [|k IH]; intros P rest entered stops s Q Hk HP Hrest Hne Hstops HA Hv Hdone HQ.
  { destruct rest; [done|simpl in Hk; lia]. }
  destruct rest as [|j rest'] eqn:Er; [done|]. rewrite <- Er in *.
  assert (head rest = Some j) as Hj by by rewrite Er.
  assert (j ∈ rest) as Hjr by by apply head_Some_elem_of.
  eapply round; [by exists P|exact Hj|done|done|done|].
  intros s1 Ho Hv1 Hm1. cbv zeta.
  assert (same_outside A s s1) as HoA.
  { eapply same_outside_weaken; [exact Ho|]. rewrite Hrest. by intros i [_ Hi]%list_elem_of_filter. }
  set (P' := fun i => P i && negb (same_key j i)).
  assert (filter (fun i => same_key j i = false) rest = lanes_where P' A) as Hagain.
  { rewrite Hrest, list_filter_filter. apply filter_ext_in. intros i _. unfold P'.
    destruct (P i), (same_key j i); naive_solver. }
  assert (forall i, i ∈ A -> P' i = false -> finished s1 i) as Hdone1.
  { intros i Hi HP'. unfold P' in HP'. destruct (P i) eqn:Ep.
    - apply Hm1; [by rewrite Hrest; apply list_elem_of_filter|]. by destruct (same_key j i).
    - eapply finished_outside; [exact Ho| |by apply Hdone]. rewrite Hrest, list_elem_of_filter. intros [? _]; congruence. }
  case_bool_decide as Hnil.
  - apply HQ; [done|]. intros i Hi. apply Hdone1; [done|]. rewrite Hagain in Hnil.
    destruct (P' i) eqn:E; [|done]. exfalso. apply (filter_nil_not_elem_of _ _ i Hnil E Hi).
  - eapply (IH P'); [|by intros i l E; unfold P', same_key; rewrite E, (HP i l E)|exact Hagain|exact Hnil|done|done|done|exact Hdone1|].
    + enough (length (filter (fun i => same_key j i = false) rest) < length rest)%nat by lia.
      eapply length_filter_lt; [exact Hjr|]. unfold same_key. by rewrite bool_decide_eq_true_2.
    + intros s2 Ho2 Hm2. apply HQ; [|done]. by eapply same_outside_trans.
Qed.

Lemma rounds_all stops s Q :
  A <> [] -> (forall l, l ∈ inside -> l ∉ stops) -> ready s ->
  (forall s', same_outside A s s' -> (forall i, i ∈ A -> finished s' i) ->
     goes m sm code None merge A stops s' Q) ->
  goes m sm code None header A stops s Q.
Proof.
  intros Hne Hstops Hs HQ.
  eapply (rounds_left _ (fun _ => true)); [reflexivity|done|by rewrite filter_all_in|done|done|done|done|done|].
  intros s' Ho Hf. unfold meets.
  replace (lanes_at merge A s') with A by (symmetry; apply filter_all_in; intros i Hi; by apply Hf).
  rewrite bool_decide_eq_false_2 by done. auto.
Qed.

(** The result is returned. *)
Lemma rounds_return s :
  (exists i, find_block code merge = Some [i; mkInstruction 0 0 OpReturnValue [result]]) -> A <> [] -> ready s ->
  goes m sm code None header A [] s (fun s => forall i, i ∈ A -> position_of s i = Returned (Some (value i))).
Proof.
  intros [im Hm] HA Hv. apply rounds_all; [done|by intros l _ ?%elem_of_nil|done|]. intros s' _ Hf.
  apply (return_goes _ _ _ _ _ _ _ _ _ value _ Hm); [|by auto]. intros i Hi. by apply Hf.
Qed.

(** The lanes go on to [ret], where others wait. *)
Lemma rounds_join ret stops s0 s :
  same_outside A s0 s ->
  (exists i, find_block code merge = Some [i; mkInstruction 0 0 OpBranch [ret]]) ->
  A <> [] -> (forall l, l ∈ inside -> l ∉ stops) -> ret ∈ stops -> ready s ->
  goes m sm code None header A stops s (fun s' => same_outside A s0 s' /\
    forall i, i ∈ A -> position_of s' i = At ret /\ came_from s' i = merge /\
      lane_value m sm s' i result = Some (value i)).
Proof.
  intros H0 [im Hm] Hne Hb Hret Hv. apply rounds_all; [done..|]. intros s' Ho Hf. eapply branch_goes; [exact Hm|].
  unfold moves. rewrite bool_decide_eq_true_2 by by right. split.
  - eapply same_outside_trans; [exact H0|]. eapply same_outside_trans; [exact Ho|]. by apply move_outside.
  - intros i Hi. simpl. rewrite bool_decide_eq_true_2 by done. split_and!; try done. by apply Hf.
Qed.
End rounds.

(** * The generated functions *)

(** The function that [build] makes in a new module. *)
Definition generate (participate : bool) (build : HM Z) : option (Z * HelperModule) :=
  match (_ ← modify (set_helper_lanes_participate_in_wave_ops participate); build) HelperModule_new with
  | Ok x => Some x
  | _ => None
  end.

(** The type of [n] 32-bit components. *)
Definition uint_components (n : nat) : MM Z :=
  t ← on_builder (makeUintType 32);
  if (n =? 1)%nat then mret t else on_builder (makeVectorType t (Z.of_nat n)).

(** The lanes [A] call the function; each lane [i] of [P] gets [f i]. *)
Definition returns (m : machine) (g : option (Z * HelperModule)) (A : list nat) (args : nat -> list value)
    (P : list nat) (f : nat -> value) : Prop :=
  exists id s n, g = Some (id, s) /\ forall fuel, (n <= fuel)%nat ->
    exists p, call_function m (spv_module s) fuel id A args = Some p /\ forall i, i ∈ P -> p i = Returned (Some (f i)).

(** A wave of 32 lanes; the operation of a group is the sum of the values. *)
Definition sample_machine : machine :=
  mkMachine 32
    (fun _ _ l => VInt (foldr (fun v n => match v with VInt x => x + n | _ => n end) 0 l))
    (fun _ _ => VInt 0) (fun _ _ => 0) (fun _ => VInt 0) (fun _ i => VInt (Z.of_nat i)).

(** The code, the first label and the parameters of the function. *)
Definition function_code (sm : SPIRVModule) (id : Z) : option (list (list Instruction) * Z * list Z) :=
  '(f, x) ← list_find (fun x => resultId (functionInstruction x) = id) (functions (builder sm));
  let code := instructions <$> filter (fun k => parent k = f) (blocks (builder sm)) in
  entry ← head code;
  l ← head entry;
  Some (code, resultId l, resultId <$> parameterInstructions x).

Lemma returns_goes m g id s code l params A args P f :
  g = Some (id, s) -> function_code (spv_module s) id = Some (code, l, params) ->
  goes m (spv_module s) code None l A [] (start_wave params args)
    (fun s => forall i, i ∈ P -> position_of s i = Returned (Some (f i))) ->
  returns m g A args P f.
Proof.
  intros -> Hc (n & s' & Hrun & Hs'). exists id, s, n. split; [done|]. intros fuel Hn. exists (position_of s'). split; [|done].
  unfold call_function, function_code in *. destruct (list_find _ _) as [[k y]|]; [|done]. simpl in *.
  destruct (head _) as [entry|]; [|done]. simpl in *. destruct (head entry) as [i|]; [|done]. simpl in *.
  injection Hc as <- <- <-. by rewrite Hrun.
Qed.

Lemma returns_ext m g A args P f f' : returns m g A args P f -> (forall i, i ∈ P -> f i = f' i) -> returns m g A args P f'.
Proof.
  intros (id & s & n & Hg & Hrun) E. exists id, s, n. split; [done|]. intros fuel Hn.
  destruct (Hrun fuel Hn) as (p & Hp & Hr). exists p. split; [done|]. intros i Hi. by rewrite <- E, Hr.
Qed.

Lemma returns_part m g A args P P' f f' : returns m g A args P' f -> (forall i, i ∈ P -> i ∈ P' /\ f i = f' i) ->
  returns m g A args P f'.
Proof.
  intros (id & s & n & Hg & Hrun) E. exists id, s, n. split; [done|]. intros fuel Hn.
  destruct (Hrun fuel Hn) as (p & Hp & Hr). exists p. split; [done|]. intros i Hi. destruct (E i Hi) as [HP <-]. auto.
Qed.

(** The lanes that take part: all of them, or those that are no helpers. *)
Definition participants (participate : bool) (helper : nat -> bool) (A : list nat) : list nat :=
  if participate then A else filter (fun i => helper i = false) A.
Definition with_flag (participate : bool) (helper : nat -> bool) (args : nat -> list value) (i : nat) : list value :=
  args i ++ (if participate then [] else [VBool (helper i)]).

Lemma start_has m sm A params args id f s :
  lane_env s = lane_env (start_wave params args) ->
  (forall i, (list_to_map (zip params (args i)) : gmap Z value) !! id = Some (f i)) -> has m sm A s id f.
Proof. intros E H i _. unfold lane_value. rewrite E. simpl. by rewrite H. Qed.

Lemma start_constant m sm A params args id v s :
  lane_env s = lane_env (start_wave params args) ->
  (forall i, (list_to_map (zip params (args i)) : gmap Z value) !! id = None) -> wave_constant m sm id = Some v ->
  has m sm A s id (fun _ => v).
Proof. intros E H Hv i _. unfold lane_value. rewrite E. simpl. by rewrite H. Qed.

(** The evaluated function: its code, and the block that the first one goes on to. *)
Ltac enter_function :=
  eapply returns_goes; [vm_compute; reflexivity|vm_compute; reflexivity|].
(** The first block goes on to another one. *)
Ltac enter_next :=
  enter_function; eapply branch_goes; [vm_compute; reflexivity|]; apply moves_goes;
    [by intros -> s i ?%elem_of_nil|].
(** The code needs only some facts of its module. *)
Lemma goes_with (F : SPIRVModule -> Prop) m sm code e l A stops s Q :
  F sm -> (forall sm, F sm -> goes m sm code e l A stops s Q) -> goes m sm code e l A stops s Q.
Proof. auto. Qed.

Ltac block_is := eexists; vm_compute; reflexivity.
Ltac by_computation := apply (bool_decide_unpack _); vm_compute; exact I.
