(* ===== verification/WaveTheorems.v ===== *)
(** The helper functions for waves do what Direct3D asks of the intrinsics, for any lanes that
    are active and any values they hold.

    Each theorem generates the function in a module and runs its code with [call_function]; the
    loops over the values that are left end because every round takes the lanes of one value. *)
From S2P Require Import Prelude.
From S2P Require Import SpvBuilder.
From S2P Require Import Instrumentation.
From S2P Require Import SPIRVModule.
From S2P Require Import SpvEval.
From S2P Require Import OpEval.
From S2P Require Import WaveHelpers.
From S2P Require Import WaveEval.
From S2P Require Import WaveLogic.
From S2P Require Import WaveLoops.
Local Open Scope Z_scope.

(** * Values *)

(** A value of one or more integer components. *)
Definition components (l : list Z) : value := match l with [x] => VInt x | _ => VComposite (VInt <$> l) end.

Lemma equal_components_ints (l l' : list Z) : length l = length l' ->
  equal_components OpIEqual (VInt <$> l) (VInt <$> l') = Some (zip_with (fun x y => VBool (x =? y)) l l').
Proof.
  revert l'; induction l as [|x l IH]; intros [|y l'] H; try done. simpl in *. rewrite IH by lia. done.
Qed.

Lemma all_equal_ints (l l' : list Z) : length l = length l' ->
  all_components (VComposite (zip_with (fun x y => VBool (x =? y)) l l')) = Some (VBool (bool_decide (l = l'))).
Proof.
  intros H. simpl. enough (mapM to_bool (zip_with (fun x y => VBool (x =? y)) l l') = Some (zip_with Z.eqb l l')) as ->.
  { simpl. do 2 f_equal. revert l' H; induction l as [|x l IH]; intros [|y l'] H; try done. simpl in *.
    rewrite IH by lia. destruct (Z.eqb_spec x y) as [->|Hne]; simpl.
    - apply bool_decide_ext. split; congruence.
    - symmetry. apply bool_decide_eq_false. congruence. }
  revert l' H; induction l as [|x l IH]; intros [|y l'] H; try done. simpl in *. by rewrite IH by lia.
Qed.

(** * The loop of WaveMatch *)

Lemma distinct3 (a b c : Z) : NoDup [a; b; c] -> a <> b /\ a <> c /\ b <> c.
Proof. rewrite !list.NoDup_cons. set_unfold. intuition congruence. Qed.
Lemma distinct5 (a b c d e : Z) : NoDup [a; b; c; d; e] ->
  a <> b /\ a <> c /\ a <> d /\ a <> e /\ b <> c /\ b <> d /\ b <> e /\ c <> d /\ c <> e /\ d <> e.
Proof. rewrite !list.NoDup_cons. set_unfold. intuition congruence. Qed.

Section wave_match.
Context (m : machine) (sm : SPIRVModule) (code : list (list Instruction)).

(** The labels of the header, the body and the merge block; the ids of the value and of the
    objects of the body. *)
Context (header body merge value first equal same result scope t_value t_equal t_bool t_mask : Z).
Context (n : nat).

(** Values of several components are compared one by one first. *)
Definition comparison : list Instruction :=
  mkInstruction equal t_equal OpIEqual [value; first] ::
  (if (n =? 1)%nat then [] else [mkInstruction same t_bool OpAll [equal]]).
Definition compared : Z := if (n =? 1)%nat then equal else same.

Definition match_header : list Instruction :=
  [mkInstruction 0 0 OpLoopMerge [merge; body; 0]; mkInstruction 0 0 OpBranch [body]].
Definition match_body : list Instruction :=
  mkInstruction first t_value OpGroupNonUniformBroadcastFirst [scope; value] ::
  comparison ++
  [mkInstruction result t_mask OpGroupNonUniformBallot [scope; compared];
   mkInstruction 0 0 OpBranchConditional [compared; merge; header]].

Hypothesis Hheader : exists i, find_block code header = Some (i :: match_header).
Hypothesis Hbody : exists i, find_block code body = Some (i :: match_body).
Hypothesis Hids : NoDup [value; first; equal; same; result].
Hypothesis Hlabels : NoDup [header; body; merge].

Variables (A : list nat) (x : nat -> list Z).
Hypothesis Hx : forall i, i ∈ A -> length (x i) = n.

Abbreviation same_value := (same_key x).
Definition match_result (i : nat) : SpvEval.value := ballot_value (lane_mask (lanes_where (same_value i) A)).

(** The comparison with the value of the lane [j]. *)
Lemma run_comparison B j s l (Q : wave -> list Instruction -> Prop) :
  (forall i, i ∈ B -> i ∈ A) -> j ∈ A ->
  has m sm B s value (fun i => components (x i)) -> has m sm B s first (fun _ => components (x j)) ->
  (forall s', has m sm B s' compared (fun i => VBool (same_value j i)) -> same_outside B s s' ->
     came_from s' = came_from s -> position_of s' = position_of s ->
     (forall C id f, id <> equal -> id <> same -> has m sm C s id f -> has m sm C s' id f) ->
     block_goes m sm B l s' Q) ->
  block_goes m sm B (comparison ++ l) s Q.
Proof.
  intros HB Hj Hv Hf HQ. unfold comparison, compared in *. destruct (Nat.eqb_spec n 1) as [Hn|Hn].
  - eapply (block_step _ _ _ _ _ _ (fun i => VBool (same_value j i))); [done| |].
    + intros i Hi. eapply op_compare; [done|left|exact Hv|exact Hf|]. cbv beta.
      destruct (x i) as [|a [|? ?]] eqn:Ei, (x j) as [|b [|? ?]] eqn:Ej;
        pose proof (Hx i (HB i Hi)) as Hi'; pose proof (Hx j Hj) as Hj'; rewrite ?Ei, ?Ej in *; simpl in *; try lia.
      unfold same_key. rewrite Ei, Ej. do 2 f_equal. apply eq_bool_prop_intro.
      split; [intros ->%Is_true_true%Z.eqb_eq; by apply bool_decide_pack|].
      intros H%bool_decide_unpack. injection H as ->. by rewrite Z.eqb_refl.
    + intros s' Hs. apply HQ; [by eapply put_has|by eapply put_outside|by destruct Hs|by destruct Hs|].
      intros C id f H1 H2. by eapply put_keeps.
  - eapply (block_step _ _ _ _ _ _ (fun i => VComposite (zip_with (fun a b => VBool (a =? b)) (x i) (x j)))); [done| |].
    + intros i Hi. eapply op_compare; [done|left|exact Hv|exact Hf|]. cbv beta.
      pose proof (Hx i (HB i Hi)) as Hi'. pose proof (Hx j Hj) as Hj'.
      unfold components. destruct (x i) as [|a [|? ?]], (x j) as [|b [|? ?]]; simpl in Hi', Hj'; try lia; try done.
      unfold compare_values. by rewrite equal_components_ints by (simpl; lia).
    + intros s' Hs. eapply (block_step _ _ _ _ _ _ (fun i => VBool (same_value j i))); [done| |].
      * intros i Hi. eapply op_all; [done|by eapply put_has|]. cbv beta. apply all_equal_ints.
        by rewrite (Hx i (HB i Hi)), (Hx j Hj).
      * intros s'' Hs'. apply HQ; [by eapply put_has| | | |].
        { eapply same_outside_trans; [by eapply put_outside|by eapply put_outside]. }
        { by destruct Hs, Hs'; congruence. } { by destruct Hs, Hs'; congruence. }
        intros C id f H1 H2 H3. eapply put_keeps; [done|done|]. by eapply put_keeps.
Qed.

(** One round: the lanes with the value of the first one are finished. *)
Lemma match_round rest j entered stops s Q :
  closed A x rest -> head rest = Some j -> (forall l, l ∈ [body] -> l ∉ stops) -> default rest entered = A ->
  has m sm A s value (fun i => components (x i)) ->
  (forall s', same_outside rest s s' -> has m sm A s' value (fun i => components (x i)) ->
     (forall i, i ∈ rest -> same_value j i = true -> finished m sm merge body result match_result s' i) ->
     let again := filter (fun i => same_value j i = false) rest in
     if bool_decide (again = []) then meets m sm code merge A stops s' Q
     else goes m sm code (Some A) header again stops s' Q) ->
  goes m sm code entered header rest stops s Q.
Proof.
  intros Hrest Hj Hstops HA Hv HQ. destruct Hheader as [ih Hh], Hbody as [ib Hb].
  assert (j ∈ rest) as Hjr by by apply head_Some_elem_of.
  pose proof (closed_subset A x rest Hrest) as Hsub.
  assert (rest <> []) as Hne by by destruct rest.
  pose proof (Hstops body (list_elem_of_here _ _)) as Hbs.
  destruct (distinct3 _ _ _ Hlabels) as (L1 & L2 & L3).
  destruct (distinct5 _ _ _ _ _ Hids) as (I1 & I2 & I3 & I4 & I5 & I6 & I7 & I8 & I9 & I10).
  eapply goes_block; [exact Hh|]. apply block_end; [done|]. exists merge. split; [done|]. simpl.
  exists body. split; [done|]. unfold moves. rewrite bool_decide_eq_false_2
    by (set_unfold; intuition congruence).
  eapply goes_block; [exact Hb|].
  eapply (block_step _ _ _ _ _ _ (fun _ => components (x j))); [done| |].
  { intros i Hi. by eapply (op_first _ _ _ _ _ _ _ _ _ (fun i => components (x i))), has_subset. }
  intros s1 Hs1. eapply (run_comparison rest j); [done|by apply Hsub| |by eapply put_has|].
  { eapply put_keeps; [done|done|]. by eapply has_subset. }
  intros s2 Hc2 Ho2 Hf2 Hp2 Hk2.
  eapply (block_step _ _ _ _ _ _ (fun _ => match_result j)); [done| |].
  { intros i Hi. erewrite op_ballot by done. unfold match_result. do 3 f_equal.
    by apply closed_key. }
  intros s3 Hs3. apply block_end; [done|].
  exists compared, merge, header, (same_value j). split; [done|].
  split. { eapply put_keeps; [done| |exact Hc2]. unfold compared. by destruct (n =? 1)%nat. }
  unfold moves. rewrite !bool_decide_eq_true_2 by (set_unfold; tauto).
  fold (parted rest body merge header (same_value j) s3). rewrite lanes_at_parted by done. rewrite HA.
  pose proof (parted_outside rest body merge header (same_value j) s3) as Ho.
  apply HQ.
  - eapply same_outside_trans; [|exact Ho]. eapply same_outside_trans; [|by eapply put_outside].
    eapply same_outside_trans; [|exact Ho2]. eapply same_outside_trans; [|by eapply put_outside]. by apply move_outside.
  - apply (put_keeps _ _ _ _ _ _ _ _ _ _ Hs3); [done|]. apply Hk2; [done..|].
    by apply (put_keeps _ _ _ _ _ _ _ _ _ _ Hs1); [done|].
  - intros i Hi E. split_and!.
    + by rewrite parted_position, E.
    + by apply parted_from.
    + change (lane_value m sm s3 i result = Some (match_result i)).
      rewrite (put_has _ _ _ _ _ _ _ Hs3 i Hi). unfold match_result. do 3 f_equal. apply filter_ext_in.
      intros k _. apply bool_decide_eq_true in E. unfold same_key. by rewrite E.
Qed.

Definition match_return := rounds_return m sm code A x header merge body result _ match_result [body] match_round.
Definition match_join := rounds_join m sm code A x header merge body result _ match_result [body] match_round.
End wave_match.

(** * WaveMatch *)

Definition wave_match_function (participate : bool) (n : nat) : option (Z * HelperModule) :=
  generate participate (t ← on_module (uint_components n); build_wave_match t).

(** [k]: the components; [id]: the result of the comparison of vectors. *)
Ltac wave_match k id :=
  lazymatch goal with
  | |- returns _ (wave_match_function true _) _ _ _ _ =>
      enter_next; intros HA s Hs;
      eapply match_return with (same := id) (n := k);
        [block_is|block_is|by_computation|by_computation|by auto|block_is|done|];
      by eapply start_has
  | |- returns _ (wave_match_function false _) _ _ (participants _ ?helper _) _ =>
      enter_next; intros _ s Hs;
      eapply early_goes with (helper := helper);
        [block_is|block_is|repeat split; lia|by eapply start_has|apply not_elem_of_nil|apply not_elem_of_nil|];
      intros s1 _ Hk _ HP;
      eapply match_join with (same := id) (n := k);
        [block_is|block_is|by_computation|by_computation|by auto|apply same_outside_refl|block_is|done|intros ? ->%list_elem_of_singleton; by_computation|left|];
      apply has_filter, Hk; [done|]; by eapply start_has
  end.

(** C24. WaveMatch of a value of one to four 32-bit components: every lane gets the set of the lanes that
    take part and hold its value, as four words; whatever lanes are active, with or without the helper
    lanes, and the loop of the function ends. *)
Theorem wave_match_correct m participate n A (x : nat -> list Z) helper :
  (1 <= n <= 4)%nat -> (forall i, length (x i) = n) ->
  let P := participants participate helper A in
  returns m (wave_match_function participate n) A (with_flag participate helper (fun i => [components (x i)])) P
    (fun i => ballot_value (lane_mask (filter (fun j => x j = x i) P))).
Proof.
  intros Hn Hx. cbv zeta. apply (returns_ext _ _ _ _ _ (match_result (participants participate helper A) x)).
  2: { intros i _. unfold match_result. do 2 f_equal. apply filter_ext_in. intros j _. apply bool_decide_eq_true. }
  assert (n = 1 \/ n = 2 \/ n = 3 \/ n = 4)%nat as [->|[->|[->| ->]]] by lia; destruct participate.
  1-2: wave_match 1%nat 0.
  - wave_match 2%nat 16.
  - wave_match 2%nat 20.
  - wave_match 3%nat 16.
  - wave_match 3%nat 20.
  - wave_match 4%nat 15.
  - wave_match 4%nat 19.
  Unshelve. all: exact 0.
Qed.

(** Four lanes with two values; the second one is a helper. *)
Lemma wave_match_correct_witness :
  returns sample_machine (wave_match_function false 2) [0; 1; 2; 3]%nat
    (with_flag false (fun i => (i =? 1)%nat) (fun i => [components [Z.of_nat i mod 2; 7]])) [0; 2; 3]%nat
    (fun i => ballot_value (lane_mask (filter (fun j => [Z.of_nat j mod 2; 7] = [Z.of_nat i mod 2; 7]) [0; 2; 3]%nat))).
Proof.
  apply (wave_match_correct sample_machine false 2 [0; 1; 2; 3]%nat (fun i => [Z.of_nat i mod 2; 7]) (fun i => (i =? 1)%nat));
    [lia|done].
Defined.
