(* ===== verification/WavePrefix.v ===== *)
(** Multi-prefix operations: each lane gets the sum (or another operation) over the lanes before it
    that have the same mask, or the number of those whose flag is set. *)
From S2P Require Import Prelude.
From S2P Require Import SpvBuilder.
From S2P Require Import Instrumentation.
From S2P Require Import SPIRVModule.
From S2P Require Import SpvEval.
From S2P Require Import OpEval.
From S2P Require Import WaveHelpers.
From S2P Require Import WaveEval.
From S2P Require Import WaveLogic.
From S2P Require Import WaveMasks.
From S2P Require Import WaveLoops.
Local Open Scope Z_scope.

(** * Masks in a loop *)

Section masks.
Context (m : machine) (sm : SPIRVModule) (code : list (list Instruction)).
Context (mask first equal same scope t_mask t_equal t_bool : Z).
Context (A : list nat) (z : nat -> Z).
Hypothesis Hz : forall i, i ∈ A -> 0 <= z i < 2 ^ 128.
Hypothesis Hids : NoDup [mask; first; equal; same].

Definition mask_comparison : list Instruction :=
  [mkInstruction first t_mask OpGroupNonUniformBroadcastFirst [scope; mask];
   mkInstruction equal t_equal OpIEqual [mask; first];
   mkInstruction same t_bool OpAll [equal]].

(** What a piece of code leaves alone. *)
Definition keeps (B : list nat) (ids : list Z) (s s' : wave) : Prop :=
  same_outside B s s' /\ came_from s' = came_from s /\ position_of s' = position_of s /\
  forall C id f, id ∉ ids -> has m sm C s id f -> has m sm C s' id f.

Lemma keeps_put B id f s s' : put B id f s s' -> keeps B [id] s s'.
Proof.
  intros H. split_and!; [by eapply put_outside|apply H|apply H|].
  intros C id' g Hne. eapply put_keeps; [done|]. intros ->. apply Hne. left.
Qed.

Lemma keeps_trans B ids ids' s s' s'' : keeps B ids s s' -> keeps B ids' s' s'' -> keeps B (ids ++ ids') s s''.
Proof.
  intros (A1 & A2 & A3 & A4) (B1 & B2 & B3 & B4). split_and!; [by eapply same_outside_trans|congruence|congruence|].
  intros C id f [H1 H2]%not_elem_of_app H. apply B4, A4; done.
Qed.

(** Which lanes have the mask of the first one? *)
Lemma run_masks B j s l (Q : wave -> list Instruction -> Prop) :
  (forall i, i ∈ B -> i ∈ A) -> head B = Some j -> has m sm A s mask (fun i => ballot_value (z i)) ->
  (forall s', has m sm B s' same (fun i => VBool (same_key z j i)) -> keeps B [first; equal; same] s s' ->
     block_goes m sm B l s' Q) ->
  block_goes m sm B (mask_comparison ++ l) s Q.
Proof.
  intros HB Hj Hm HQ. assert (j ∈ B) as HjB by by apply head_Some_elem_of.
  assert (first <> mask /\ same <> mask /\ equal <> mask) as (N1 & N2 & N3).
  { rewrite !list.NoDup_cons in Hids. set_unfold. intuition congruence. }
  eapply (block_step _ _ _ _ _ _ (fun _ => ballot_value (z j))); [done| |].
  { intros i Hi. by eapply (op_first _ _ _ _ _ _ _ _ _ (fun i => ballot_value (z i))), has_subset. }
  intros s1 Hs1. eapply (block_step _ _ _ _ _ _ (fun i => equal_words (z i) (z j))); [done| |].
  { intros i Hi. eapply (op_compare _ _ _ _ _ _ _ Hi _ _ _ (fun i => ballot_value (z i))); [left| |by eapply put_has|apply mask_compare].
    eapply put_keeps; [exact Hs1|done|]. by eapply has_subset. }
  intros s2 Hs2. eapply (block_step _ _ _ _ _ _ (fun i => VBool (same_key z j i))); [done| |].
  { intros i Hi. eapply op_all; [done|by eapply put_has|]. by apply mask_equal; apply Hz, HB. }
  intros s3 Hs3. apply HQ; [by eapply put_has|].
  exact (keeps_trans _ [first; equal] [same] _ _ _
    (keeps_trans _ [first] [equal] _ _ _ (keeps_put _ _ _ _ _ Hs1) (keeps_put _ _ _ _ _ Hs2)) (keeps_put _ _ _ _ _ Hs3)).
Qed.
End masks.

(** * The loop of WaveMultiPrefixOp *)

Section prefix.
Context (m : machine) (sm : SPIRVModule) (code : list (list Instruction)).
Context (header body merge prefix continue : Z).
Context (value mask first equal same scan result undef scope t t_mask t_equal t_bool op : Z).
Context (A : list nat) (z : nat -> Z) (v w : nat -> SpvEval.value).

Definition prefix_header : list Instruction :=
  [mkInstruction 0 0 OpLoopMerge [merge; body; 0]; mkInstruction 0 0 OpBranch [body]].
Definition prefix_body : list Instruction :=
  mask_comparison mask first equal same scope t_mask t_equal t_bool ++
  [mkInstruction 0 0 OpSelectionMerge [continue; 0]; mkInstruction 0 0 OpBranchConditional [same; prefix; continue]].
Definition prefix_code : list Instruction :=
  [mkInstruction scan t op [scope; GroupOperationExclusiveScan; value]; mkInstruction 0 0 OpBranch [continue]].
Definition prefix_continue : list Instruction :=
  [mkInstruction result t OpPhi [scan; prefix; undef; body];
   mkInstruction 0 0 OpBranchConditional [same; merge; header]].

Hypothesis Hheader : exists i, find_block code header = Some (i :: prefix_header).
Hypothesis Hbody : exists i, find_block code body = Some (i :: prefix_body).
Hypothesis Hprefix : exists i, find_block code prefix = Some (i :: prefix_code).
Hypothesis Hcontinue : exists i, find_block code continue = Some (i :: prefix_continue).
Hypothesis Hlabels : NoDup [header; body; merge; prefix; continue].
Hypothesis Hids : NoDup [mask; first; equal; same].
Hypothesis Hkeep : (value ∉ [first; equal; same; scan; result]) /\ (mask ∉ [scan; result]) /\
  (undef ∉ [first; equal; same; scan; result]) /\ same ∉ [scan; result].
Hypothesis Hop : is_group_arithmetic op = true.
Hypothesis Hz : forall i, i ∈ A -> 0 <= z i < 2 ^ 128.

(** The operation over the lanes before [i] with the same mask. *)
Definition prefix_result (i : nat) : SpvEval.value := group_op m op t (v <$> before i (lanes_where (same_key z i) A)).

Definition prefix_ready (s : wave) : Prop :=
  has m sm A s mask (fun i => ballot_value (z i)) /\ has m sm A s value v /\ has m sm A s undef w.

Lemma ready_keeps B ids s s' : keeps m sm B ids s s' -> mask ∉ ids -> value ∉ ids -> undef ∉ ids ->
  prefix_ready s -> prefix_ready s'.
Proof. intros (_ & _ & _ & H) H1 H2 H3 (R1 & R2 & R3). split_and!; by apply H. Qed.

(** The lanes of the mask of [j] get their sums, in a block of their own. *)
Lemma run_scan rest j stops s Q :
  closed A z rest -> j ∈ rest -> prefix ∉ stops -> body ∉ stops -> prefix_ready s ->
  has m sm rest s same (fun i => VBool (same_key z j i)) ->
  (forall s', prefix_ready s' -> has m sm rest s' same (fun i => VBool (same_key z j i)) -> same_outside rest s s' ->
     (forall i, i ∈ rest -> position_of s' i = At continue) ->
     (forall i, i ∈ rest -> came_from s' i = if same_key z j i then prefix else body) ->
     has m sm (lanes_where (same_key z j) rest) s' scan prefix_result -> Q s') ->
  branches m sm code body rest (mkInstruction 0 0 OpBranchConditional [same; prefix; continue]) (continue :: stops) s Q.
Proof.
  intros Hrest Hj Hp Hb Hs Hc HQ. destruct Hprefix as [ip Hpc].
  destruct Hkeep as (K1 & K2 & K3 & K4).
  exists same, prefix, continue, (same_key z j). split; [done|]. split; [done|].
  set (G := lanes_where (same_key z j) rest).
  assert (G <> []) as HG.
  { intros E. eapply (filter_nil_not_elem_of _ rest j E); [|done]. unfold same_key. by apply bool_decide_eq_true. }
  unfold moves at 1. rewrite bool_decide_eq_false_2.
  2: { rewrite !list.NoDup_cons in Hlabels. set_unfold. intuition congruence. }
  eapply goes_block; [exact Hpc|]. eapply (block_step _ _ _ _ _ _ prefix_result); [| |].
  { apply andb_true_iff in Hop as [O1 O2]. rewrite Z.leb_le in O1, O2. unfold is_control. simpl.
    apply bool_decide_eq_false. set_unfold. unfold OpGroupNonUniformIAdd in O1.
    intuition (subst; try discriminate; unfold OpBranch, OpBranchConditional, OpSelectionMerge, OpLoopMerge, OpReturn, OpReturnValue in *; lia). }
  { intros i Hi. rewrite (op_exclusive_scan m sm _ _ _ _ i op scope value v Hop).
    - unfold prefix_result. do 3 f_equal. unfold G. apply list_elem_of_filter in Hi as [E Hi].
      rewrite (closed_key A z rest j Hrest Hj). f_equal. apply filter_ext_in. intros k _. unfold same_key in *.
      apply bool_decide_eq_true in E. by rewrite E.
    - apply (has_subset _ _ A); [apply Hs|]. intros k [_ Hk]%list_elem_of_filter. by apply (closed_subset A z rest). }
  intros s1 H1. apply block_end; [done|]. simpl. exists continue. split; [done|].
  unfold moves. rewrite !bool_decide_eq_true_2 by (right; left).
  pose proof (keeps_put m sm _ _ _ _ _ H1) as HK.
  assert (forall i, i ∈ rest -> i ∉ G -> i ∈ filter (fun i => same_key z j i = false) rest) as Hrem.
  { intros i Hi HnG. apply list_elem_of_filter. split; [|done]. destruct (same_key z j i) eqn:E; [|done].
    exfalso. apply HnG. by apply list_elem_of_filter. }
  apply HQ.
  - change (prefix_ready s1). eapply ready_keeps; [exact HK| | | |exact Hs]; set_unfold; tauto.
  - eapply (put_keeps _ _ _ _ _ _ _ _ _ _ H1); [set_unfold; intuition congruence|exact Hc].
  - eapply same_outside_trans; [|apply move_outside; by intros i [_ Hi]%list_elem_of_filter].
    eapply same_outside_trans; [|apply move_outside; by intros i [_ Hi]%list_elem_of_filter].
    eapply same_outside_trans; [|eapply put_outside; [exact H1|by intros i [_ Hi]%list_elem_of_filter]].
    apply move_outside. by intros i [_ Hi]%list_elem_of_filter.
  - intros i Hi. simpl. case_bool_decide as E1; [done|]. case_bool_decide as E2; [done|]. exfalso. by apply E1, Hrem.
  - intros i Hi. simpl. destruct (same_key z j i) eqn:E.
    + rewrite bool_decide_eq_false_2 by (rewrite list_elem_of_filter; intuition congruence).
      by rewrite bool_decide_eq_true_2 by (by apply list_elem_of_filter).
    + by rewrite bool_decide_eq_true_2 by (by apply list_elem_of_filter).
  - intros i Hi. by apply (put_has _ _ _ _ _ _ _ H1).
Qed.

Definition prefix_finished := finished m sm merge continue result prefix_result.

Lemma run_continue rest j stops s Q :
  closed A z rest -> j ∈ rest -> merge ∈ stops -> header ∈ stops -> prefix_ready s ->
  has m sm rest s same (fun i => VBool (same_key z j i)) ->
  (forall i, i ∈ rest -> came_from s i = if same_key z j i then prefix else body) ->
  has m sm (lanes_where (same_key z j) rest) s scan prefix_result ->
  (forall s', prefix_ready s' -> same_outside rest s s' ->
     (forall i, i ∈ rest -> same_key z j i = true -> prefix_finished s' i) ->
     lanes_at header rest s' = filter (fun i => same_key z j i = false) rest -> Q s') ->
  goes m sm code None continue rest stops s Q.
Proof.
  intros Hrest Hj Hm Hh Hs Hc Hf Hp HQ. destruct Hcontinue as [ic Hcc]. destruct Hkeep as (K1 & K2 & K3 & K4).
  assert (prefix <> body /\ merge <> header) as [L1 L2].
  { clear -Hlabels. rewrite !list.NoDup_cons in Hlabels. set_unfold. intuition congruence. }
  eapply goes_block; [exact Hcc|].
  eapply (block_step _ _ _ _ _ _ (fun i => if same_key z j i then prefix_result i else w i)); [done| |].
  { intros i Hi. unfold wave_op. simpl. rewrite (Hf i Hi). destruct (same_key z j i) eqn:E.
    - rewrite Z.eqb_refl. simpl. apply Hp. by apply list_elem_of_filter.
    - rewrite (proj2 (Z.eqb_neq prefix body) L1), Z.eqb_refl. simpl. by apply Hs, (closed_subset A z rest). }
  intros s1 H1. apply block_end; [done|].
  exists same, merge, header, (same_key z j). split; [done|].
  split. { eapply put_keeps; [exact H1| |exact Hc]. set_unfold; tauto. }
  unfold moves. rewrite !bool_decide_eq_true_2 by tauto.
  fold (parted rest continue merge header (same_key z j) s1). apply HQ.
  - change (prefix_ready s1). eapply (ready_keeps _ [result]); [by eapply keeps_put| | | |exact Hs]; set_unfold; tauto.
  - eapply same_outside_trans; [by eapply put_outside|apply parted_outside].
  - intros i Hi E. split_and!; [by rewrite parted_position, E|by apply parted_from|].
    change (lane_value m sm s1 i result = Some (prefix_result i)).
    by rewrite (put_has _ _ _ _ _ _ _ H1 i Hi), E.
  - by apply lanes_at_parted.
Qed.

Lemma prefix_round rest j entered stops s Q :
  closed A z rest -> head rest = Some j -> (forall l, l ∈ [body; prefix; continue] -> l ∉ stops) ->
  default rest entered = A -> prefix_ready s ->
  (forall s', same_outside rest s s' -> prefix_ready s' ->
     (forall i, i ∈ rest -> same_key z j i = true -> prefix_finished s' i) ->
     let again := filter (fun i => same_key z j i = false) rest in
     if bool_decide (again = []) then meets m sm code merge A stops s' Q
     else goes m sm code (Some A) header again stops s' Q) ->
  goes m sm code entered header rest stops s Q.
Proof.
  intros Hrest Hj Hstops HA Hs HQ. destruct Hheader as [ih Hh], Hbody as [ib Hb].
  assert (j ∈ rest) as Hjr by by apply head_Some_elem_of.
  pose proof (closed_subset A z rest Hrest) as Hsub.
  assert (rest <> []) as Hne by by destruct rest.
  assert (forall l, l ∈ [body; prefix; continue] -> l ∉ merge :: header :: stops) as Hin.
  { intros l Hl. specialize (Hstops l Hl). rewrite !list.NoDup_cons in Hlabels. set_unfold. intuition congruence. }
  eapply goes_block; [exact Hh|]. apply block_end; [done|]. exists merge. split; [done|]. simpl.
  exists body. split; [done|]. unfold moves. rewrite bool_decide_eq_false_2.
  2: { intros [?|E]; [done|]. revert E. apply Hin. left. }
  eapply goes_block; [exact Hb|]. unfold prefix_body. eapply (run_masks m sm mask first equal same); [exact Hz|exact Hids|exact Hsub|exact Hj|apply Hs|].
  intros s1 Hc K1. apply block_end; [done|]. exists continue. split; [done|]. simpl.
  destruct Hkeep as (N1 & N2 & N3 & N4).
  assert (prefix_ready s1) as Hs1.
  { eapply ready_keeps; [exact K1| | | |exact Hs]; rewrite ?list.NoDup_cons in Hids; set_unfold; intuition congruence. }
  eapply run_scan; [exact Hrest|exact Hjr|apply Hin; set_unfold; tauto|apply Hin; set_unfold; tauto|exact Hs1|exact Hc|].
  intros s2 R2 C2 O2 P2 F2 V2. unfold meets.
  replace (lanes_at continue rest s2) with rest by (symmetry; by apply filter_all_in).
  rewrite bool_decide_eq_false_2 by done.
  eapply run_continue; [exact Hrest|exact Hjr|left|right; left|exact R2|exact C2|exact F2|exact V2|].
  intros s3 R3 O3 D3 ->. rewrite HA. apply HQ; [|done|done].
  eapply same_outside_trans; [|exact O3]. eapply same_outside_trans; [|exact O2].
  eapply same_outside_trans; [|apply K1]. by apply move_outside.
Qed.

Definition prefix_return := rounds_return m sm code A z header merge continue result _ prefix_result _ prefix_round.
Definition prefix_join := rounds_join m sm code A z header merge continue result _ prefix_result _ prefix_round.
End prefix.

(** * The loop of WaveMultiPrefixCountBits *)

Section count.
Context (m : machine) (sm : SPIRVModule) (code : list (list Instruction)).
Context (header body merge : Z).
Context (value mask first equal same vote ballot result scope t t_mask t_equal t_bool : Z).
Context (A : list nat) (z : nat -> Z) (v : nat -> bool).

Definition count_body : list Instruction :=
  mask_comparison mask first equal same scope t_mask t_equal t_bool ++
  [mkInstruction vote t_bool OpLogicalAnd [same; value];
   mkInstruction ballot t_mask OpGroupNonUniformBallot [scope; vote];
   mkInstruction result t OpGroupNonUniformBallotBitCount [scope; GroupOperationExclusiveScan; ballot];
   mkInstruction 0 0 OpBranchConditional [same; merge; header]].

Hypothesis Hheader : exists i, find_block code header = Some (i :: prefix_header body merge).
Hypothesis Hbody : exists i, find_block code body = Some (i :: count_body).
Hypothesis Hlabels : NoDup [header; body; merge].
Hypothesis Hids : NoDup [mask; first; equal; same].
Hypothesis Hkeep : (value ∉ [first; equal; same; vote; ballot; result]) /\ (mask ∉ [vote; ballot; result]) /\
  same ∉ [vote; ballot; result].
Hypothesis Hz : forall i, i ∈ A -> 0 <= z i < 2 ^ 128.
Hypothesis HA : NoDup A.
Hypothesis Hlanes : forall i, i ∈ A -> (i < 128)%nat.

(** The lanes before [i] with the same mask whose value is true. *)
Definition count_result (i : nat) : SpvEval.value :=
  VInt (zlength (lanes_where v (before i (lanes_where (same_key z i) A)))).

Definition count_ready (s : wave) : Prop :=
  has m sm A s mask (fun i => ballot_value (z i)) /\ has m sm A s value (fun i => VBool (v i)).

Lemma count_keeps B ids s s' : keeps m sm B ids s s' -> mask ∉ ids -> value ∉ ids -> count_ready s -> count_ready s'.
Proof. intros (_ & _ & _ & H) H1 H2 (R1 & R2). split; by apply H. Qed.

Definition count_finished := finished m sm merge body result count_result.

Lemma count_votes rest j i :
  closed A z rest -> j ∈ rest -> i ∈ rest -> same_key z j i = true ->
  VInt (count_lanes (lane_mask (lanes_where (fun k => same_key z j k && v k) rest)) i) = count_result i.
Proof.
  intros Hrest Hj Hi E. unfold count_result. f_equal.
  assert (lanes_where (fun k => same_key z j k && v k) rest = lanes_where v (lanes_where (same_key z i) A)) as ->.
  { assert (lanes_where (same_key z i) A = lanes_where (same_key z j) A) as ->.
    { apply filter_ext_in. intros k _. unfold same_key in *. apply bool_decide_eq_true in E. by rewrite E. }
    rewrite <- (closed_key A z rest j Hrest Hj), list_filter_filter. apply filter_ext_in. intros k _.
    destruct (same_key z j k), (v k); naive_solver. }
  rewrite count_lanes_mask by (by repeat apply list.NoDup_filter). unfold before.
  rewrite !list_filter_filter. f_equal. apply filter_ext_in. tauto.
Qed.

Lemma votes_bound rest : (forall i, i ∈ rest -> i ∈ A) -> 0 <= lane_mask rest < 2 ^ 128.
Proof. intros H. apply (lane_mask_bound rest 128). auto. Qed.

Lemma count_round rest j entered stops s Q :
  closed A z rest -> head rest = Some j -> (forall l, l ∈ [body] -> l ∉ stops) ->
  default rest entered = A -> count_ready s ->
  (forall s', same_outside rest s s' -> count_ready s' ->
     (forall i, i ∈ rest -> same_key z j i = true -> count_finished s' i) ->
     let again := filter (fun i => same_key z j i = false) rest in
     if bool_decide (again = []) then meets m sm code merge A stops s' Q
     else goes m sm code (Some A) header again stops s' Q) ->
  goes m sm code entered header rest stops s Q.
Proof.
  intros Hrest Hj Hstops HAe Hs HQ. destruct Hheader as [ih Hh], Hbody as [ib Hb].
  assert (j ∈ rest) as Hjr by by apply head_Some_elem_of.
  pose proof (closed_subset A z rest Hrest) as Hsub.
  assert (rest <> []) as Hne by by destruct rest.
  pose proof (Hstops body (list_elem_of_here _ _)) as Hbs.
  assert (body <> merge /\ body <> header /\ merge <> header) as (L1 & L2 & L3).
  { clear -Hlabels. rewrite !list.NoDup_cons in Hlabels. set_unfold. intuition congruence. }
  destruct Hkeep as (N1 & N2 & N3).
  eapply goes_block; [exact Hh|]. apply block_end; [done|]. exists merge. split; [done|]. simpl.
  exists body. split; [done|]. unfold moves. rewrite bool_decide_eq_false_2 by (set_unfold; tauto).
  eapply goes_block; [exact Hb|]. unfold count_body.
  eapply (run_masks m sm mask first equal same); [exact Hz|exact Hids|exact Hsub|exact Hj|apply Hs|].
  intros s1 Hc K1.
  assert (count_ready s1) as Hs1.
  { eapply count_keeps; [exact K1| | |exact Hs]; clear -Hids N1 N2; rewrite ?list.NoDup_cons in Hids; set_unfold; intuition congruence. }
  eapply (block_step _ _ _ _ _ _ (fun i => VBool (same_key z j i && v i))); [done| |].
  { intros i Hi. eapply op_logical; [done|left|exact Hc| |done]. eapply has_subset; [apply Hs1|done]. }
  intros s2 H2.
  eapply (block_step _ _ _ _ _ _ (fun _ => ballot_value (lane_mask (lanes_where (fun k => same_key z j k && v k) rest)))); [done| |].
  { intros i Hi. by apply (op_ballot m sm rest _ _ _ _ _ _ (fun k => same_key z j k && v k)), (put_has _ _ _ _ _ _ _ H2). }
  intros s3 H3.
  eapply (block_step _ _ _ _ _ _ (fun i => VInt (count_lanes (lane_mask (lanes_where (fun k => same_key z j k && v k) rest)) i))); [done| |].
  { intros i Hi. erewrite op_bit_count; [done|exact Hi|by eapply put_has|]. apply ballot_mask_value, votes_bound.
    intros k [_ Hk]%list_elem_of_filter. by apply Hsub. }
  intros s4 H4. apply block_end; [done|].
  pose proof (keeps_trans m sm rest [vote; ballot] [result] _ _ _
    (keeps_trans m sm rest [vote] [ballot] _ _ _ (keeps_put m sm _ _ _ _ _ H2) (keeps_put m sm _ _ _ _ _ H3))
    (keeps_put m sm _ _ _ _ _ H4)) as K2.
  exists same, merge, header, (same_key z j). split; [done|]. split; [by apply K2|].
  unfold moves. rewrite !bool_decide_eq_true_2 by (set_unfold; tauto).
  fold (parted rest body merge header (same_key z j) s4). rewrite lanes_at_parted by done. rewrite HAe. apply HQ.
  - eapply same_outside_trans; [|apply parted_outside]. eapply same_outside_trans; [|apply K2].
    eapply same_outside_trans; [|apply K1]. by apply move_outside.
  - change (count_ready s4). eapply count_keeps; [exact K2|exact N2| |exact Hs1]. clear -N1. simpl. set_unfold. tauto.
  - intros i Hi E. split_and!; [by rewrite parted_position, E|by apply parted_from|].
    change (lane_value m sm s4 i result = Some (count_result i)).
    rewrite (put_has _ _ _ _ _ _ _ H4 i Hi). f_equal. by apply count_votes.
Qed.

Definition count_return := rounds_return m sm code A z header merge body result _ count_result _ count_round.
Definition count_join := rounds_join m sm code A z header merge body result _ count_result _ count_round.
End count.

(** * The mask without the lanes that are not active *)

Lemma run_active m sm ballot arg mask scope yes t B mk s l (Q : wave -> list Instruction -> Prop) :
  component_width (builder sm) t = Some 32 -> arg <> ballot ->
  has m sm B s yes (fun _ => VBool true) -> has m sm B s arg (fun i => ballot_value (mk i)) ->
  (forall s', has m sm B s' mask (fun i => ballot_value (Z.land (lane_mask B) (mk i))) ->
     keeps m sm B [ballot; mask] s s' -> block_goes m sm B l s' Q) ->
  block_goes m sm B (mkInstruction ballot t OpGroupNonUniformBallot [scope; yes] ::
    mkInstruction mask t OpBitwiseAnd [ballot; arg] :: l) s Q.
Proof.
  intros Hw Hne Hy Ha HQ. 
  eapply (block_step _ _ _ _ _ _ (fun _ => ballot_value (lane_mask (lanes_where (fun _ => true) B)))); [done| |].
  { intros i Hi. by apply (op_ballot m sm B _ _ _ _ _ _ (fun _ => true)). }
  intros s1 H1. eapply (block_step _ _ _ _ _ _ (fun i => ballot_value (Z.land (lane_mask B) (mk i)))); [done| |].
  { intros i Hi. eapply op_integer; [exact Hi|left|by eapply put_has|by eapply put_keeps|exact Hw|].
    rewrite filter_all_in by done. apply mask_and. }
  intros s2 H2. apply HQ; [by eapply put_has|].
  exact (keeps_trans m sm B [ballot] [mask] _ _ _ (keeps_put m sm _ _ _ _ _ H1) (keeps_put m sm _ _ _ _ _ H2)).
Qed.

(** * The generated functions *)

Lemma moves_on m sm code from A t stops s Q :
  A <> [] -> t ∉ stops -> goes m sm code None t A stops (move_to A from (At t) s) Q -> moves m sm code from A t stops s Q.
Proof. intros HA Ht H. unfold moves. rewrite bool_decide_eq_false_2; [done|tauto]. Qed.

Definition width_in (g : option (Z * HelperModule)) (t : Z) : option Z :=
  x ← g; component_width (builder (spv_module x.2)) t.

Definition wave_multi_prefix_function (participate : bool) (op : Z) : option (Z * HelperModule) :=
  generate participate (t ← on_module (uint_components 1); build_wave_multi_prefix_op op t).

(** The mask of a lane without the lanes that do not take part. *)
Definition active_part (P : list nat) (mask : nat -> Z) (i : nat) : Z := Z.land (lane_mask P) (mask i).

Lemma active_range (A P : list nat) mask : (forall i, i ∈ A -> (i < 128)%nat) -> (forall i, i ∈ P -> i ∈ A) ->
  (forall i, i ∈ A -> 0 <= mask i < 2 ^ 128) -> forall i, i ∈ P -> 0 <= active_part P mask i < 2 ^ 128.
Proof.
  intros HA HP Hm i Hi. apply land_pow2_range; [apply (lane_mask_bound P 128); auto|apply Hm; auto|lia].
Qed.

(** From the block before the loop on. *)
Lemma join_outside m sm P ids s s1 from t : keeps m sm P ids s s1 -> same_outside P s (move_to P from t s1).
Proof. intros (K & _). eapply same_outside_trans; [exact K|]. by apply move_outside. Qed.

(** All that the code needs of its module. *)
Definition mask_module (m : machine) (t yes : Z) (sm : SPIRVModule) : Prop :=
  component_width (builder sm) t = Some 32 /\ wave_constant m sm yes = Some (VBool true).

Ltac forget_module yes Hw Hy :=
  eapply (goes_with (mask_module _ 2 yes)); [split; vm_compute; reflexivity|]; intros ? (Hw & Hy).

Ltac labels_apart := intros ?; rewrite !elem_of_cons; intros [->|[->|[->|[]%elem_of_nil]]]; by_computation.

(** The lanes at the start of the loop, and the three cases of what they hold. *)
Ltac prefix_start s2 Hz2 K2 E3 :=
  split_and!; (eapply (has_env _ _ s2); [exact E3|]);
    [exact Hz2|apply K2; [by_computation|]|apply K2; [by_computation|]].

Ltac wave_prefix helper yes :=
  lazymatch goal with
  | |- returns _ (wave_multi_prefix_function true _) _ _ _ _ =>
      enter_function; let Hw := fresh in let Hy := fresh in forget_module yes Hw Hy; eapply goes_block; [vm_compute; reflexivity|];
      eapply (block_step _ _ _ _ _ _ (undef_value _ _)); [done|by intros; apply op_undef|]; intros s1 H1;
      eapply run_active; [exact Hw|done| | |];
        [eapply put_keeps; [exact H1|done|]; eapply start_constant; [done|done|exact Hy]
        |eapply put_keeps; [exact H1|done|]; by eapply start_has|];
      intros s2 Hz2 K2; apply block_end; [done|]; simpl; eexists; split; [reflexivity|]; apply moves_goes;
        [by intros -> s i ?%elem_of_nil|]; intros Hne s3 E3;
      eapply prefix_return;
        [block_is|block_is|block_is|block_is|by_computation|by_computation|repeat split; by_computation
        |vm_compute; reflexivity|done|block_is|done|];
      prefix_start s2 Hz2 K2 E3; [by eapply put_keeps; [exact H1|done|eapply start_has]|by eapply put_has]
  | |- returns _ (wave_multi_prefix_function false _) _ _ _ _ =>
      enter_function; let Hw := fresh in let Hy := fresh in forget_module yes Hw Hy;
      eapply early_goes with (helper := helper);
        [block_is|block_is|repeat split; lia|by eapply start_has|apply not_elem_of_nil|apply not_elem_of_nil|];
      intros s1 _ Hk Hu HP;
      eapply goes_block; [vm_compute; reflexivity|];
      eapply run_active; [exact Hw|done| | |];
        [apply has_filter, Hk; [done|]; eapply start_constant; [done|done|exact Hy]
        |apply has_filter, Hk; [done|]; by eapply start_has|];
      intros s2 Hz2 K2; apply block_end; [done|]; simpl; eexists; split; [reflexivity|];
      apply moves_on; [done|by_computation|];
      eapply prefix_join;
        [block_is|block_is|block_is|block_is|by_computation|by_computation|repeat split; by_computation
        |vm_compute; reflexivity|done|by eapply join_outside|block_is|done|labels_apart|left|];
      prefix_start s2 Hz2 K2 (eq_refl (lane_env s2)); [by apply has_filter, Hk; [done|eapply start_has]|by apply has_filter]
  end.


Definition wave_count_bits_function (participate : bool) : option (Z * HelperModule) :=
  generate participate build_wave_multi_prefix_count_bits.

Ltac count_start s2 Hz2 K2 E3 :=
  split; (eapply (has_env _ _ s2); [exact E3|]); [exact Hz2|apply K2; [by_computation|]].

(** C26. The multi-prefix count: every lane gets the number of the lanes before it with the same mask whose
    value is true. *)
Theorem wave_multi_prefix_count_bits_correct m participate (A : list nat) (mask : nat -> Z) (v : nat -> bool) helper :
  NoDup A -> (forall i, i ∈ A -> (i < 128)%nat) -> (forall i, i ∈ A -> 0 <= mask i < 2 ^ 128) ->
  let P := participants participate helper A in
  let z := active_part P mask in
  returns m (wave_count_bits_function participate) A
    (with_flag participate helper (fun i => [VBool (v i); ballot_value (mask i)])) P
    (fun i => VInt (zlength (lanes_where v (before i (filter (fun j => z j = z i) P))))).
Proof.
  intros Hnd HA Hm P z.
  assert (forall i, i ∈ P -> i ∈ A) as HP.
  { unfold P, participants. destruct participate; [done|]. by intros i [_ Hi]%list_elem_of_filter. }
  assert (NoDup P) as HPd by (unfold P, participants; destruct participate; [done|by apply list.NoDup_filter]).
  assert (forall i, i ∈ P -> 0 <= z i < 2 ^ 128) as Hz by by apply (active_range A).
  assert (forall i, i ∈ P -> (i < 128)%nat) as HPl by auto.
  apply (returns_ext _ _ _ _ _ (count_result P z v)).
  2: { intros i _. unfold count_result. do 4 f_equal. apply filter_ext_in. intros j _. apply bool_decide_eq_true. }
  destruct participate.
  - enter_function; forget_module 15 Hw Hy; eapply goes_block; [vm_compute; reflexivity|].
    eapply run_active; [exact Hw|done| | |];
      [eapply start_constant; [done|done|exact Hy]|by eapply start_has|].
    intros s2 Hz2 K2; apply block_end; [done|]; simpl; eexists; split; [reflexivity|]; apply moves_goes;
        [by intros -> s i ?%elem_of_nil|]; intros Hne s3 E3.
    eapply count_return;
      [block_is|block_is|by_computation|by_computation|repeat split; by_computation|done|done|done|block_is|done|].
    count_start s2 Hz2 K2 E3. by eapply start_has.
  - enter_function; forget_module 19 Hw Hy.
    eapply early_goes with (helper := helper);
      [block_is|block_is|repeat split; lia|by eapply start_has|apply not_elem_of_nil|apply not_elem_of_nil|].
    intros s1 _ Hk Hu HPne. eapply goes_block; [vm_compute; reflexivity|].
    eapply run_active; [exact Hw|done| | |];
      [apply has_filter, Hk; [done|]; eapply start_constant; [done|done|exact Hy]
      |apply has_filter, Hk; [done|]; by eapply start_has|].
    intros s2 Hz2 K2; apply block_end; [done|]; simpl; eexists; split; [reflexivity|].
    apply moves_on; [done|by_computation|].
    eapply count_join;
      [block_is|block_is|by_computation|by_computation|repeat split; by_computation|done|done|done
      |by eapply join_outside|block_is|done|intros ? ->%list_elem_of_singleton; by_computation|left|].
    count_start s2 Hz2 K2 (eq_refl (lane_env s2)). by apply has_filter, Hk; [done|eapply start_has].
Qed.

(** * Samples *)

(** Four lanes; the masks are those of the even and of the odd ones, and have bits of other lanes. *)
Definition sample_mask (i : nat) : Z := if (i mod 2 =? 0)%nat then 0xf5 else 0xfa.


Lemma wave_multi_prefix_count_bits_correct_witness :
  returns sample_machine (wave_count_bits_function false) [0; 1; 2; 3]%nat
    (with_flag false (fun i => (i =? 2)%nat) (fun i => [VBool true; ballot_value (sample_mask i)])) [0; 1; 3]%nat
    (fun i => VInt (zlength (lanes_where (fun _ => true)
      (before i (filter (fun j => active_part [0; 1; 3]%nat sample_mask j = active_part [0; 1; 3]%nat sample_mask i)
        [0; 1; 3]%nat))))).
Proof.
  apply (wave_multi_prefix_count_bits_correct sample_machine false [0; 1; 2; 3]%nat sample_mask (fun _ => true)
    (fun i => (i =? 2)%nat)).
  - by apply (bool_decide_unpack _).
  - intros i. set_unfold. lia.
  - intros i _. unfold sample_mask. destruct (i mod 2 =? 0)%nat; lia.
Defined.
