(* ===== verification/WaveVotes.v ===== *)
(** The helper functions that ask all lanes something: the first lane, votes, and quads. *)
From S2P Require Import Prelude.
From S2P Require Import SpvBuilder.
From S2P Require Import Instrumentation.
From S2P Require Import SPIRVModule.
From S2P Require Import SpvEval.
From S2P Require Import OpEval.
From S2P Require Import WaveHelpers.
From S2P Require Import WaveEval.
From S2P Require Import WaveLogic.
From S2P Require Import WaveMasks.
From S2P Require Import WaveLoops.
From S2P Require Import WavePrefix.
Local Open Scope Z_scope.

(** * Two sides of a selection *)

Section diamond.
Context (m : machine) (sm : SPIRVModule) (code : list (list Instruction)).

(** One side: the lanes run its block and wait at [merge]. *)
Lemma side_goes from B l c ids x f merge stops s Q :
  (exists i, find_block code l = Some (i :: c)) -> l ∉ stops -> merge ∈ stops ->
  (forall s', lane_env s' = lane_env s -> B <> [] -> block_goes m sm B c s' (fun s'' r =>
     r = [mkInstruction 0 0 OpBranch [merge]] /\ keeps m sm B ids s' s'' /\ has m sm B s'' x f)) ->
  (forall s', same_outside B s s' -> (forall C id h, id ∉ ids -> has m sm C s id h -> has m sm C s' id h) ->
     has m sm B s' x f -> (forall i, i ∈ B -> position_of s' i = At merge /\ came_from s' i = l) -> Q s') ->
  moves m sm code from B l stops s Q.
Proof.
  intros [i Hl] H1 H2 Hc HQ. unfold moves. case_bool_decide as Hb.
  { destruct Hb as [->|Hb]; [|done]. apply HQ; [by apply move_outside|done|by intros j ?%elem_of_nil|by intros j ?%elem_of_nil]. }
  assert (B <> []) as HB by tauto. eapply goes_block; [exact Hl|].
  destruct (Hc (move_to B from (At l) s) eq_refl HB) as (s1 & r & E & -> & K & Hx).
  exists s1, [mkInstruction 0 0 OpBranch [merge]]. split; [exact E|]. exists merge. split; [done|].
  unfold moves. rewrite bool_decide_eq_true_2 by by right. apply HQ.
  - eapply same_outside_trans; [by apply (move_outside B B from (At l))|]. eapply same_outside_trans; [apply K|]. by apply move_outside.
  - intros C id h Hid Hh. by apply K.
  - done.
  - intros j Hj. simpl. by rewrite !bool_decide_eq_true_2.
Qed.

Context (entry side other merge flag x y phi t : Z).
(** The instructions of both sides; what they change; the values that are joined. *)
Context (c d : list Instruction) (ids ids' : list Z).
Hypothesis Hentry : exists i, find_block code entry =
  Some [i; mkInstruction 0 0 OpSelectionMerge [merge; 0]; mkInstruction 0 0 OpBranchConditional [flag; side; other]].
Hypothesis Hside : exists i, find_block code side = Some (i :: c).
Hypothesis Hother : exists i, find_block code other = Some (i :: d).
Hypothesis Hmerge : exists i, find_block code merge =
  Some [i; mkInstruction phi t OpPhi [x; other; y; side]; mkInstruction 0 0 OpReturnValue [phi]].
Hypothesis Hlabels : side <> merge /\ other <> merge /\ other <> side.

Variables (A : list nat) (helper : nat -> bool) (f g : nat -> value).
Let B := lanes_where helper A.
Let P := filter (fun i => helper i = false) A.

Lemma diamond_goes s :
  has m sm A s flag (fun i => VBool (helper i)) ->
  (forall s', lane_env s' = lane_env s -> B <> [] -> block_goes m sm B c s' (fun s'' r =>
     r = [mkInstruction 0 0 OpBranch [merge]] /\ keeps m sm B ids s' s'' /\ has m sm B s'' y f)) ->
  (forall s', (forall C id h, id ∉ ids -> has m sm C s id h -> has m sm C s' id h) -> P <> [] ->
     block_goes m sm P d s' (fun s'' r =>
       r = [mkInstruction 0 0 OpBranch [merge]] /\ keeps m sm P ids' s' s'' /\ has m sm P s'' x g)) ->
  goes m sm code None entry A [] s
    (fun s => forall i, i ∈ A -> position_of s i = Returned (Some (if helper i then f i else g i))).
Proof.
  intros Hflag Hc Hd. destruct Hentry as [ie He], Hmerge as [im Hm], Hlabels as (L1 & L2 & L3).
  assert (forall i, i ∈ A -> if helper i then i ∈ B /\ i ∉ P else i ∈ P /\ i ∉ B) as Hsplit.
  { intros i Hi. pose proof (list_elem_of_filter (fun i => helper i = true) A i) as EB.
    pose proof (list_elem_of_filter (fun i => helper i = false) A i) as EP. fold B in EB. fold P in EP.
    destruct (helper i) eqn:E; (split; [tauto|]); [rewrite EP|rewrite EB]; intros [? _]; congruence. }
  eapply goes_block; [exact He|]. apply block_end; [done|]. exists merge. split; [done|]. simpl.
  exists flag, side, other, helper. split; [done|]. split; [done|]. fold B P.
  eapply side_goes; [exact Hside|rewrite list_elem_of_singleton; tauto|left| |].
  { intros s' E. apply Hc. by rewrite E. }
  intros s1 O1 K1 V1 M1.
  eapply side_goes; [exact Hother|rewrite list_elem_of_singleton; tauto|left| |].
  { intros s' E. apply Hd. intros C id h Hid Hh. eapply has_env; [exact E|]. by apply K1. }
  intros s2 O2 K2 V2 M2. unfold meets.
  assert (forall i, i ∈ A -> position_of s2 i = At merge /\ came_from s2 i = if helper i then side else other) as HA.
  { intros i Hi. specialize (Hsplit i Hi). destruct (helper i), Hsplit as [HiB HiP].
    - destruct (M1 i HiB) as [E1 E2]. by rewrite (so_position _ _ _ O2), (so_from _ _ _ O2).
    - by apply M2. }
  replace (lanes_at merge A s2) with A by (symmetry; apply filter_all_in; intros i Hi; by apply HA).
  case_bool_decide as Hne. { intros i Hi. rewrite Hne in Hi. by apply elem_of_nil in Hi. }
  eapply goes_block; [exact Hm|].
  eapply (block_step _ _ _ _ _ _ (fun i => if helper i then f i else g i)); [done| |].
  - intros i Hi. unfold wave_op. simpl. destruct (HA i Hi) as [_ ->]. specialize (Hsplit i Hi).
    destruct (helper i), Hsplit as [HiB HiP].
    + rewrite (proj2 (Z.eqb_neq other side) L3), Z.eqb_refl. simpl.
      unfold lane_value. rewrite (so_env _ _ _ O2) by done. by apply V1.
    + rewrite Z.eqb_refl. simpl. by apply V2.
  - intros s3 H3. apply block_end; [done|]. exists phi. split; [done|].
    intros i Hi. simpl. rewrite bool_decide_eq_true_2 by done. by rewrite (put_has _ _ _ _ _ _ _ H3 i Hi).
Qed.
End diamond.

Lemma keeps_refl m sm B s : keeps m sm B [] s s.
Proof. split_and!; try done. Qed.

(** A side that only goes on. *)
Lemma empty_side m sm B merge s y f : has m sm B s y f ->
  block_goes m sm B [mkInstruction 0 0 OpBranch [merge]] s (fun s' r =>
    r = [mkInstruction 0 0 OpBranch [merge]] /\ keeps m sm B [] s s' /\ has m sm B s' y f).
Proof. intros H. apply block_end; [done|]. split_and!; try done. Qed.

(** A side with one instruction. *)
Lemma one_side m sm B inst merge s f : is_control (opCode inst) = false ->
  (forall i, i ∈ B -> wave_op m sm B s inst i = Some (f i)) ->
  block_goes m sm B [inst; mkInstruction 0 0 OpBranch [merge]] s (fun s' r =>
    r = [mkInstruction 0 0 OpBranch [merge]] /\ keeps m sm B [resultId inst] s s' /\ has m sm B s' (resultId inst) f).
Proof.
  intros Hc H. eapply block_step; [done|exact H|]. intros s' Hs. apply block_end; [done|].
  split_and!; [done|by eapply keeps_put|by eapply put_has].
Qed.

(** ** WaveIsFirstLane and WaveActiveAllEqual without the helper lanes *)

Definition wave_is_first_lane_function : option (Z * HelperModule) :=
  generate false build_wave_is_first_lane_masked.

(** Only the first lane that is no helper gets true. *)
Theorem wave_is_first_lane_correct m (A : list nat) (helper : nat -> bool) :
  returns m wave_is_first_lane_function A (fun i => [VBool (helper i)]) A
    (fun i => VBool (bool_decide (head (participants false helper A) = Some i))).
Proof.
  set (P := filter (fun i => helper i = false) A).
  apply (returns_ext _ _ _ _ _ (fun i => if helper i then VBool false else
    VBool (match head P with Some j => Nat.eqb j i | None => false end))).
  2: { intros i Hi. unfold participants. fold P. destruct (helper i) eqn:E.
    - f_equal. symmetry. apply bool_decide_eq_false. intros H%head_Some_elem_of.
      apply list_elem_of_filter in H as [H _]. congruence.
    - f_equal. destruct (head P) as [j|]; [|done]. destruct (Nat.eqb_spec j i) as [->|Hne]; symmetry;
        [by apply bool_decide_eq_true|]. apply bool_decide_eq_false. congruence. }
  enter_function. eapply (diamond_goes _ _ _ _ _ _ _ _ _ _ _ _ _ _ [] _); [block_is|block_is|block_is|block_is|repeat split; lia|by eapply start_has| |].
  - intros s Hs _. apply empty_side. by eapply start_constant; [exact Hs|done|vm_compute].
  - intros s Hk HP. apply one_side; [done|]. intros i Hi. fold P in HP, Hi |- *. destruct P as [|j l] eqn:E; [done|].
    by apply op_elect.
Qed.

(** ** WaveActiveAllEqual *)

Definition wave_all_equal_function : option (Z * HelperModule) :=
  generate false (t ← on_module (uint_components 1); build_wave_active_all_equal_masked t).

Lemma op_all_equal m sm A s r t sc v x i : i ∈ A -> has m sm A s v (fun i => VInt (x i)) ->
  wave_op m sm A s (mkInstruction r t OpGroupNonUniformAllEqual [sc; v]) i =
  Some (VBool (forallb (fun j => x j =? x i) A)).
Proof.
  intros Hi H. unfold wave_op. simpl.
  rewrite (mapM_all _ (fun j => x j =? x i)).
  - simpl. do 2 f_equal. clear. induction A as [|j A IH]; [done|]. rewrite fmap_cons. cbn [forallb]. by f_equal.
  - intros j Hj. erewrite (has_arg _ _ A _ _ _ _ _ 1 _ _ j H) by done. simpl.
    by erewrite (has_arg _ _ A _ _ _ _ _ 1 _ _ i H) by done.
Qed.

Lemma all_equal_lanes (A : list nat) (x : nat -> Z) i :
  forallb (fun j => x j =? x i) A = true <-> forall j, j ∈ A -> x j = x i.
Proof. rewrite forallb_forall. setoid_rewrite <- list_elem_of_In. by setoid_rewrite Z.eqb_eq. Qed.

Lemma all_equal_all (A : list nat) (x : nat -> Z) :
  forallb (fun i => forallb (fun j => x j =? x i) A) A = true <-> forall i j, i ∈ A -> j ∈ A -> x i = x j.
Proof.
  rewrite forallb_forall. split.
  - intros H i j Hi Hj. symmetry. apply (all_equal_lanes A x i); [|done]. by apply H, list_elem_of_In.
  - intros H i Hi%list_elem_of_In. apply all_equal_lanes. intros j Hj. by apply H.
Qed.

(** Every lane that is no helper hears whether they all hold the same number. *)
Theorem wave_all_equal_correct m (A : list nat) (x : nat -> Z) (helper : nat -> bool) :
  let P := participants false helper A in
  exists answer, (answer = true <-> forall i j, i ∈ P -> j ∈ P -> x i = x j) /\
    returns m wave_all_equal_function A (fun i => [VInt (x i); VBool (helper i)]) P (fun _ => VBool answer).
Proof.
  cbv zeta. set (P := filter (fun i => helper i = false) A).
  exists (forallb (fun i => forallb (fun j => x j =? x i) P) P). split.
  { apply all_equal_all. }
  apply (returns_ext _ _ _ _ _ (fun i => VBool (forallb (fun j => x j =? x i) P))).
  2: { intros i Hi. f_equal. apply eq_bool_prop_intro. rewrite !Is_true_true, all_equal_all, all_equal_lanes.
    split; [|by auto]. intros H k j Hk Hj. by rewrite (H j Hj), (H k Hk). }
  apply (returns_part _ _ A _ _ A (fun i => if helper i then undef_value m 11 i else VBool (forallb (fun j => x j =? x i) P))).
  2: { intros i [E Hi]%list_elem_of_filter. by rewrite E. }
  enter_function. eapply (diamond_goes _ _ _ _ _ _ _ _ _ _ _ _ _ _ [11] _); [block_is|block_is|block_is|block_is|repeat split; lia|by eapply start_has| |].
  - intros s Hs _. apply one_side; [done|]. intros. apply op_undef.
  - intros s Hk HP. apply one_side; [done|]. intros i Hi. apply op_all_equal; [done|]. apply has_filter, Hk; [by_computation|].
    by eapply start_has.
Qed.

(** ** WaveReadFirstLane *)

Definition wave_read_first_lane_function : option (Z * HelperModule) :=
  generate false (t ← on_module (uint_components 1); build_wave_read_first_lane_masked t).

Lemma first_lane_mask l n : (forall i, i ∈ l -> (i < n)%nat) ->
  match first_lane (lane_mask l) n with
  | Some j => j ∈ l /\ forall k, k ∈ l -> (j <= k)%nat
  | None => l = []
  end.
Proof.
  intros Hl. unfold first_lane. destruct (list_find _ _) as [[k j]|] eqn:E; simpl.
  - apply list_find_Some in E as (Hk & Hj & Hfirst). apply lookup_seq in Hk as [-> Hk].
    rewrite lane_mask_bit, bool_decide_eq_true in Hj. split; [done|]. intros i Hi.
    destruct (le_lt_dec k i); [done|]. exfalso. apply (Hfirst i i); [apply lookup_seq; lia|done|].
    by rewrite lane_mask_bit, bool_decide_eq_true.
  - apply list_find_None in E. rewrite list.Forall_forall in E. apply elem_of_nil_inv. intros i Hi.
    apply (E i); [apply elem_of_seq; specialize (Hl i Hi); lia|]. by rewrite lane_mask_bit, bool_decide_eq_true.
Qed.

Lemma count_lanes_all l n : NoDup l -> (forall i, i ∈ l -> (i < n)%nat) -> count_lanes (lane_mask l) n = zlength l.
Proof. intros Hd Hl. rewrite count_lanes_mask by done. unfold before. by rewrite filter_all_in. Qed.

(** The lowest of the lanes. *)
Definition lowest (l : list nat) (j : nat) : Prop := j ∈ l /\ forall k, k ∈ l -> (j <= k)%nat.

Lemma lowest_unique l j k : lowest l j -> lowest l k -> j = k.
Proof. intros [Hj Hj'] [Hk Hk']. specialize (Hj' k Hk). specialize (Hk' j Hj). lia. Qed.

Lemma first_lane_lowest l n j : (forall i, i ∈ l -> (i < n)%nat) -> lowest l j -> first_lane (lane_mask l) n = Some j.
Proof.
  intros Hl Hj. pose proof (first_lane_mask l n Hl) as H. destruct (first_lane _ _) as [k|].
  - f_equal. by eapply lowest_unique.
  - subst l. destruct Hj as [[]%elem_of_nil _].
Qed.

(** What the lanes know after some instructions. *)
Ltac known :=
  solve [eassumption
        |lazymatch goal with H : put _ _ _ ?s' ?s |- has _ _ _ ?s _ _ =>
           first [exact (put_has _ _ _ _ _ _ _ H) | apply (put_keeps _ _ _ _ _ _ _ _ _ _ H); [done|known]] end].

Ltac next_step f := eapply (block_step _ _ _ _ _ _ f); [done| |].

(** A block from its instructions to the one that returns a value. *)
Lemma block_returns m sm code l i c A s f v :
  find_block code l = Some (i :: c) ->
  block_goes m sm A c s (fun s' r => r = [mkInstruction 0 0 OpReturnValue [v]] /\ has m sm A s' v f) ->
  goes m sm code None l A [] s (fun s => forall i, i ∈ A -> position_of s i = Returned (Some (f i))).
Proof.
  intros Hl (s' & r & E & -> & Hv). eapply goes_block; [exact Hl|]. exists s', [mkInstruction 0 0 OpReturnValue [v]].
  split; [exact E|]. exists v. split; [done|]. intros j Hj. simpl. rewrite bool_decide_eq_true_2 by done. by rewrite (Hv j Hj).
Qed.

Section read_first.
Context (m : machine) (A : list nat) (helper : nat -> bool) (v : nat -> Z).
Let P := filter (fun i => helper i = false) A.
Hypothesis Hnd : NoDup A.
Hypothesis Hlanes : forall i, i ∈ A -> (i < wave_size m)%nat.
Hypothesis Hsize : (wave_size m <= 128)%nat.

(** The lane that is read, if there is one. *)
Definition source_lane (lsb : Z) (i : nat) : Z :=
  match first_lane (lane_mask P) (wave_size m) with Some j => Z.of_nat j | None => undef_index m lsb i end.
Definition shuffled (lsb shuffle : Z) (i : nat) : SpvEval.value :=
  let j := Z.to_nat (source_lane lsb i) in
  if bool_decide (j ∈ A) then VInt (v j) else undef_value m shuffle i.

Lemma read_first_goes :
  returns m wave_read_first_lane_function A (fun i => [VInt (v i); VBool (helper i)]) A
    (fun i => if negb (zlength P =? 0) then shuffled 12 13 i else null_value m 1).
Proof.
  assert (NoDup P) as HPd by by apply list.NoDup_filter.
  assert (forall i, i ∈ P -> (i < wave_size m)%nat) as HP by (intros i [_ Hi]%list_elem_of_filter; auto).
  assert (ballot_mask (ballot_value (lane_mask P)) = Some (lane_mask P)) as Hb.
  { apply ballot_mask_value, (lane_mask_bound P 128). intros i Hi%HP. lia. }
  assert (lanes_where (fun i => negb (helper i)) A = P) as EP.
  { apply filter_ext_in. intros i _. by destruct (helper i). }
  enter_function. set (s0 := start_wave _ _).
  eapply (goes_with (fun sm => has m sm A s0 4 (fun i => VInt (v i)) /\ has m sm A s0 5 (fun i => VBool (helper i)) /\
    has m sm A s0 16 (fun _ => VInt 0) /\ has m sm A s0 18 (fun _ => null_value m 1))).
  { split_and!; [by eapply start_has|by eapply start_has|eapply start_constant; [done|done|by vm_compute]..]. }
  intros sm (Hv & Hf & Hz & Hn). clearbody s0. eapply block_returns; [vm_compute; reflexivity|].
  next_step (fun i => VBool (negb (helper i))). { intros i Hi. eapply op_not; [done|known]. } intros s1 H1.
  next_step (fun _ : nat => ballot_value (lane_mask P)).
  { intros i Hi. rewrite <- EP. apply (op_ballot m sm A _ _ _ _ _ _ (fun i => negb (helper i))). known. } intros s2 H2.
  next_step (fun i => VInt (source_lane 12 i)). { intros i Hi. eapply op_find_lsb; [done|known|done]. } intros s3 H3.
  next_step (shuffled 12 13). { intros i Hi. apply (op_shuffle m sm A _ _ _ _ Hi _ _ _ (fun i => VInt (v i)) (source_lane 12)); known. } intros s4 H4.
  next_step (fun _ : nat => VInt (zlength P)).
  { intros i Hi. erewrite op_bit_count; [|done|known|exact Hb]. simpl. by rewrite count_lanes_all. } intros s5 H5.
  next_step (fun _ : nat => VBool (negb (zlength P =? 0))).
  { intros i Hi. eapply op_compare; [done|right; left|known|known|done]. } intros s6 H6.
  next_step (fun i => if negb (zlength P =? 0) then shuffled 12 13 i else null_value m 1).
  { intros i Hi. apply (op_select m sm A _ _ _ _ Hi _ _ _ (fun _ => negb (zlength P =? 0)) (shuffled 12 13) (fun _ => null_value m 1)); known. } intros s7 H7.
  apply block_end; [done|]. split; [done|known].
Qed.
End read_first.

(** C27. WaveReadFirstLane without the helper lanes: every lane, the helpers included, gets the value of the
    lowest lane that is no helper; when there is none, zero, whatever the undefined search for the lowest
    bit of an empty set gives. *)
Theorem wave_read_first_lane_correct m (A : list nat) (v : nat -> Z) (helper : nat -> bool) :
  NoDup A -> (forall i, i ∈ A -> (i < wave_size m)%nat) -> (wave_size m <= 128)%nat ->
  let P := participants false helper A in
  exists t, width_in wave_read_first_lane_function t = Some 32 /\
    forall r, (P = [] /\ r = null_value m t \/ exists j, lowest P j /\ r = VInt (v j)) ->
      returns m wave_read_first_lane_function A (fun i => [VInt (v i); VBool (helper i)]) A (fun _ => r).
Proof.
  intros Hnd HA Hs P. exists 1. split; [vm_compute; reflexivity|]. intros r Hr.
  eapply returns_ext; [by apply read_first_goes|]. intros i Hi. cbv beta. fold (participants false helper A). fold P.
  destruct Hr as [[-> ->]|(j & Hj & ->)]; [done|].
  assert (zlength P <> 0) as Hz.
  { destruct Hj as [Hj _]. destruct P; [by apply elem_of_nil in Hj|]. unfold zlength. simpl. lia. }
  rewrite (proj2 (Z.eqb_neq _ _) Hz). simpl. unfold shuffled, source_lane. fold (participants false helper A). fold P.
  assert (forall k, k ∈ P -> k ∈ A) as HP by by intros k [_ Hk]%list_elem_of_filter.
  rewrite (first_lane_lowest P _ j) by (try done; intros k Hk; auto).
  rewrite Nat2Z.id, bool_decide_eq_true_2; [done|]. apply HP, Hj.
Qed.

(** Lanes 1 to 3, of which the first one is a helper: they get the value of the second one. *)
Lemma wave_read_first_lane_correct_witness :
  exists t, width_in wave_read_first_lane_function t = Some 32 /\
    forall r, (([2; 3]%nat = [] /\ r = null_value sample_machine t) \/ exists j, lowest [2; 3]%nat j /\ r = VInt (Z.of_nat j + 5)) ->
      returns sample_machine wave_read_first_lane_function [1; 2; 3]%nat
        (fun i => [VInt (Z.of_nat i + 5); VBool (i =? 1)%nat]) [1; 2; 3]%nat (fun _ => r).
Proof.
  apply (wave_read_first_lane_correct sample_machine [1; 2; 3]%nat (fun i => Z.of_nat i + 5) (fun i => (i =? 1)%nat)).
  - by apply (bool_decide_unpack _).
  - intros i. simpl. set_unfold. lia.
  - simpl. lia.
Defined.
