(* ===== verification/WaveQuads.v ===== *)
(** The helper functions for quads: votes of the four lanes, and whether all four are active. *)
From S2P Require Import Prelude.
From S2P Require Import SpvBuilder.
From S2P Require Import Instrumentation.
From S2P Require Import SPIRVModule.
From S2P Require Import SpvEval.
From S2P Require Import OpEval.
From S2P Require Import WaveHelpers.
From S2P Require Import WaveEval.
From S2P Require Import WaveLogic.
From S2P Require Import WaveMasks.
From S2P Require Import WaveLoops.
From S2P Require Import WaveVotes.
Local Open Scope Z_scope.

(** * QuadAll and QuadAny *)

Definition quad_vote_function (all : bool) : option (Z * HelperModule) :=
  generate true (if all then build_quad_all else build_quad_any).

(** The values of the four lanes. *)
Definition quad_values (v : nat -> bool) (i : nat) : list bool := (fun k => v (quad_of i + k)%nat) <$> [0; 1; 2; 3]%nat.

Section votes.
Context (m : machine) (A : list nat) (v : nat -> bool).
Hypothesis Hquads : forall i k, i ∈ A -> (k < 4)%nat -> (quad_of i + k)%nat ∈ A.

Definition from_quad (k i : nat) : value := VBool (v (quad_of i + k)%nat).

Ltac quad_step k H :=
  next_step (from_quad k);
    [intros ? Hi; apply (op_quad _ _ _ _ _ _ _ Hi _ _ _ (fun i => VBool (v i)));
      [known|known|by apply Hquads; [|lia]]
    |intros ? H].
Ltac vote_step op f g H :=
  next_step (fun i => VBool (op (f i) (g i)));
    [intros ? Hi; apply (op_logical _ _ _ _ _ _ _ Hi _ _ _ f g); [by_computation|known|known|done]|intros ? H].

(** The votes of the four lanes, joined one after the other. *)
Lemma quad_vote_goes (all : bool) :
  returns m (quad_vote_function all) A (fun i => [VBool (v i)]) A
    (fun i => VBool (let op := if all then andb else orb in
       op (op (op (v (quad_of i + 0)%nat) (v (quad_of i + 1)%nat)) (v (quad_of i + 2)%nat)) (v (quad_of i + 3)%nat))).
Proof.
  set (q := fun k i => v (quad_of i + k)%nat).
  destruct all; enter_function; set (s0 := start_wave _ _);
   (eapply (goes_with (fun sm => has m sm A s0 3 (fun i => VBool (v i)) /\
      has m sm A s0 9 (fun _ => VInt (Z.of_nat 0)) /\ has m sm A s0 11 (fun _ => VInt (Z.of_nat 1)) /\
      has m sm A s0 13 (fun _ => VInt (Z.of_nat 2)) /\ has m sm A s0 8 (fun _ => VInt (Z.of_nat 3))));
     [split_and!; [by eapply start_has|eapply start_constant; [done|done|by vm_compute]..]|]);
   intros sm (Hv & Hk0 & Hk1 & Hk2 & Hk3); clearbody s0; (eapply block_returns; [vm_compute; reflexivity|]);
   quad_step 0%nat H1; quad_step 1%nat H2; quad_step 2%nat H3; quad_step 3%nat H4.
  - vote_step andb (q 0%nat) (q 1%nat) H5. vote_step andb (fun i => q 0%nat i && q 1%nat i) (q 2%nat) H6.
    vote_step andb (fun i => q 0%nat i && q 1%nat i && q 2%nat i) (q 3%nat) H7. apply block_end; [done|]. split; [done|known].
  - vote_step orb (q 0%nat) (q 1%nat) H5. vote_step orb (fun i => q 0%nat i || q 1%nat i) (q 2%nat) H6.
    vote_step orb (fun i => q 0%nat i || q 1%nat i || q 2%nat i) (q 3%nat) H7. apply block_end; [done|]. split; [done|known].
Qed.
End votes.

(** QuadAll and QuadAny, when all lanes of the quads are active. *)
Theorem quad_vote_correct m (A : list nat) (v : nat -> bool) (all : bool) :
  (forall i k, i ∈ A -> (k < 4)%nat -> (quad_of i + k)%nat ∈ A) ->
  returns m (quad_vote_function all) A (fun i => [VBool (v i)]) A
    (fun i => VBool (if all then forallb id (quad_values v i) else existsb id (quad_values v i))).
Proof.
  intros Hquads. eapply returns_ext; [by apply quad_vote_goes|]. intros i _. f_equal. unfold quad_values, id. simpl.
  by destruct all, (v (quad_of i + 0)%nat), (v (quad_of i + 1)%nat), (v (quad_of i + 2)%nat), (v (quad_of i + 3)%nat).
Qed.

(** * IsQuadUniformControlFlow *)

Definition quad_uniform_function : option (Z * HelperModule) := generate true build_is_quad_uniform_control_flow.

(** A bit that is set when it and the three after it were. *)
Definition four_bits (w : Z) : Z := let u := Z.land w (Z.shiftr w 2) in Z.land u (Z.shiftr u 1).

Lemma four_bits_testbit w r : 0 <= r ->
  Z.testbit (four_bits w) r = Z.testbit w r && Z.testbit w (r + 1) && Z.testbit w (r + 2) && Z.testbit w (r + 3).
Proof.
  intros Hr. unfold four_bits. rewrite !Z.land_spec, !Z.shiftr_spec, !Z.land_spec, !Z.shiftr_spec by lia.
  replace (r + 1 + 2) with (r + 3) by lia.
  destruct (Z.testbit w r), (Z.testbit w (r + 1)), (Z.testbit w (r + 2)), (Z.testbit w (r + 3)); done.
Qed.

Lemma land_shiftr_range w k : 0 <= w < 2 ^ 32 -> 0 <= k -> 0 <= Z.land w (Z.shiftr w k) < 2 ^ 32.
Proof. intros Hw Hk. apply land_pow2_range; [done| |lia]. apply Z.shiftr_nonneg. lia. Qed.

Lemma four_bits_range w : 0 <= w < 2 ^ 32 -> 0 <= four_bits w < 2 ^ 32.
Proof. intros Hw. unfold four_bits. cbv zeta. apply land_shiftr_range; [apply land_shiftr_range; lia|lia]. Qed.

(** The bits of words one after another. *)
Lemma testbit_words a y k : 0 <= a < 2 ^ 32 -> 0 <= k ->
  Z.testbit (a + 2 ^ 32 * y) k = if k <? 32 then Z.testbit a k else Z.testbit y (k - 32).
Proof.
  intros Ha Hk. destruct (Z.ltb_spec k 32).
  - rewrite <- (Z.mod_pow2_bits_low (a + 2 ^ 32 * y) 32 k) by lia.
    by rewrite (Z.mul_comm (2 ^ 32)), Z_mod_plus_full, Z.mod_small by lia.
  - replace k with (k - 32 + 32) at 1 by lia. rewrite <- Z.div_pow2_bits by lia. f_equal.
    rewrite (Z.mul_comm (2 ^ 32)), Z_div_plus_full, Z.div_small by lia. lia.
Qed.

(** The lowest lane of a quad. *)
Definition quad_bit (i : nat) : Z := Z.land (Z.of_nat i) 0xfffffffc.

Lemma quad_bit_small : forallb (fun i => quad_bit i =? Z.of_nat (quad_of i)) (seq 0 128) = true.
Proof. by vm_compute. Qed.

Lemma quad_bit_of i : (i < 128)%nat -> quad_bit i = Z.of_nat (quad_of i).
Proof.
  intros Hi. apply Z.eqb_eq. pose proof (proj1 (forallb_forall _ _) quad_bit_small i) as H. apply H, in_seq. lia.
Qed.

(** A vector of the words of a mask, each of them changed. *)
Definition on_words (f : Z -> Z) (x : Z) : value :=
  VComposite [VInt (f (word x 0)); VInt (f (word x 1)); VInt (f (word x 2)); VInt (f (word x 3))].

Lemma mask_words f x : ballot_mask (on_words f x) =
  Some (f (word x 0) + 2 ^ 32 * (f (word x 1) + 2 ^ 32 * (f (word x 2) + 2 ^ 32 * (f (word x 3) + 2 ^ 32 * 0)))).
Proof. done. Qed.

Lemma on_words_testbit f x y k : (forall w, 0 <= w < 2 ^ 32 -> 0 <= f w < 2 ^ 32) -> ballot_mask (on_words f x) = Some y ->
  0 <= k < 128 -> Z.testbit y k = Z.testbit (f (word x (Z.to_nat (k / 32)))) (k mod 32).
Proof.
  intros Hf [= <-] Hk. pose proof (fun i => Hf _ (word_range x i)) as Hr.
  pose proof (Z.div_mod k 32 ltac:(lia)) as E. pose proof (Z.mod_pos_bound k 32 ltac:(lia)) as Hm.
  assert (k / 32 = 0 \/ k / 32 = 1 \/ k / 32 = 2 \/ k / 32 = 3) as Hq.
  { assert (0 <= k / 32 < 4); [|lia]. split; [apply Z.div_pos; lia|apply Z.div_lt_upper_bound; lia]. }
  set (r := k mod 32) in *.
  destruct Hq as [Hq|[Hq|[Hq|Hq]]]; rewrite Hq in E |- *;
    repeat (rewrite testbit_words by (apply Hr || lia);
            lazymatch goal with |- context [?a <? 32] => destruct (Z.ltb_spec a 32); try lia end);
    f_equal; (done || lia).
Qed.

Section uniform.
Context (m : machine) (A : list nat).
Hypothesis Hlanes : forall i, i ∈ A -> (i < 128)%nat.
Hypothesis Hlane : forall i, i ∈ A -> input_value m BuiltInSubgroupLocalInvocationId i = VInt (Z.of_nat i).

(** What the code reads of its module. *)
Definition uniform_module (s : wave) (sm : SPIRVModule) : Prop :=
  component_width (builder sm) 1 = Some 32 /\ component_width (builder sm) 2 = Some 32 /\
  query_builtin_shader_input sm 20 = Some BuiltInSubgroupLocalInvocationId /\
  has m sm A s 9 (fun _ => VBool true) /\ has m sm A s 12 (fun _ => VComposite (VInt <$> [2; 2; 2; 2])) /\
  has m sm A s 13 (fun _ => VComposite (VInt <$> [1; 1; 1; 1])) /\ has m sm A s 22 (fun _ => VInt 0xfffffffc).

Ltac integer_step f x y H :=
  next_step f;
    [intros i Hi; apply (op_integer _ _ _ _ _ _ _ Hi _ _ _ x y 32); [by_computation|known|known|done|]|intros ? H].

(** A bit for each quad of which all lanes are active. *)
Definition full_quads : value := on_words four_bits (lane_mask A).

Lemma uniform_goes :
  returns m quad_uniform_function A (fun _ => []) A
    (fun i => VBool (Z.testbit (default 0 (ballot_mask full_quads)) (quad_bit i))).
Proof.
  enter_function. set (s0 := start_wave _ _). eapply (goes_with (uniform_module s0)).
  { split_and!; try (by vm_compute); (eapply start_constant; [done|done|by vm_compute]). }
  intros sm (W1 & W2 & Hq & Ht & H2 & H1 & Hm). clearbody s0. eapply block_returns; [vm_compute; reflexivity|].
  set (x := lane_mask A).
  next_step (fun _ : nat => on_words (fun w => w) x).
  { intros i Hi. erewrite (op_ballot m sm A _ _ _ _ _ _ (fun _ => true)) by known. by rewrite filter_all_in. }
  intros s1 S1.
  integer_step (fun _ : nat => on_words (fun w => Z.shiftr w 2) x) (fun _ : nat => on_words (fun w => w) x)
    (fun _ : nat => VComposite (VInt <$> [2; 2; 2; 2])) S2; [done|].
  integer_step (fun _ : nat => on_words (fun w => Z.land w (Z.shiftr w 2)) x) (fun _ : nat => on_words (fun w => w) x)
    (fun _ : nat => on_words (fun w => Z.shiftr w 2) x) S3; [done|].
  integer_step (fun _ : nat => on_words (fun w => Z.shiftr (Z.land w (Z.shiftr w 2)) 1) x)
    (fun _ : nat => on_words (fun w => Z.land w (Z.shiftr w 2)) x) (fun _ : nat => VComposite (VInt <$> [1; 1; 1; 1])) S4; [done|].
  integer_step (fun _ : nat => full_quads) (fun _ : nat => on_words (fun w => Z.land w (Z.shiftr w 2)) x)
    (fun _ : nat => on_words (fun w => Z.shiftr (Z.land w (Z.shiftr w 2)) 1) x) S5; [done|].
  next_step (fun i => VInt (Z.of_nat i)). { intros i Hi. erewrite op_load by done. by rewrite Hlane. } intros s6 S6.
  integer_step (fun i => VInt (quad_bit i)) (fun i => VInt (Z.of_nat i)) (fun _ : nat => VInt 0xfffffffc) S7; [done|].
  next_step (fun i => VBool (Z.testbit (default 0 (ballot_mask full_quads)) (quad_bit i))).
  { intros i Hi. apply (op_bit_extract m sm A _ _ _ _ Hi _ _ _ (fun _ => full_quads)); [known|known|done]. }
  intros s8 S8. apply block_end; [done|]. split; [done|known].
Qed.
End uniform.

Lemma full_quads_bit (A : list nat) i : (i < 128)%nat ->
  Z.testbit (default 0 (ballot_mask (full_quads A))) (quad_bit i) =
  bool_decide (quad_of i ∈ A) && bool_decide (quad_of i + 1 ∈ A)%nat && bool_decide (quad_of i + 2 ∈ A)%nat &&
  bool_decide (quad_of i + 3 ∈ A)%nat.
Proof.
  intros Hi. rewrite quad_bit_of by done. unfold full_quads.
  destruct (ballot_mask (on_words four_bits _)) as [y|] eqn:E; [|done]. simpl default.
  assert (i / 4 < 32)%nat as Hq by (apply Nat.Div0.div_lt_upper_bound; lia).
  assert (Z.of_nat (quad_of i) = 4 * Z.of_nat (i / 4)) as Hb by (unfold quad_of; lia).
  rewrite (on_words_testbit _ _ _ _ four_bits_range E) by lia.
  set (b := Z.of_nat (quad_of i)) in *. pose proof (Z.div_mod b 32 ltac:(lia)) as Ed.
  pose proof (Z.mod_pos_bound b 32 ltac:(lia)) as Hr. assert (0 <= b / 32) by (apply Z.div_pos; lia).
  assert (b mod 32 + 3 < 32) as Hr3 by lia.
  rewrite four_bits_testbit, !word_bit, !Z2Nat.id by lia.
  replace (32 * (b / 32) + b mod 32) with (Z.of_nat (quad_of i)) by lia.
  replace (32 * (b / 32) + (b mod 32 + 1)) with (Z.of_nat (quad_of i + 1)) by lia.
  replace (32 * (b / 32) + (b mod 32 + 2)) with (Z.of_nat (quad_of i + 2)) by lia.
  replace (32 * (b / 32) + (b mod 32 + 3)) with (Z.of_nat (quad_of i + 3)) by lia.
  by rewrite !lane_mask_bit.
Qed.

(** C28. IsQuadUniformControlFlow: a lane hears whether all four lanes of its quad are active, for any set of
    active lanes; the answer comes from the ballot by two shifts in its words. *)
Theorem quad_uniform_correct m (A : list nat) :
  (forall i, i ∈ A -> (i < 128)%nat) ->
  (forall i, i ∈ A -> input_value m BuiltInSubgroupLocalInvocationId i = VInt (Z.of_nat i)) ->
  returns m quad_uniform_function A (fun _ => []) A
    (fun i => VBool (bool_decide (Forall (fun k => (quad_of i + k)%nat ∈ A) [0; 1; 2; 3]%nat))).
Proof.
  intros HA Hin. eapply returns_ext; [by apply uniform_goes|]. intros i Hi. cbv beta. f_equal.
  rewrite full_quads_bit by auto. apply eq_bool_prop_intro.
  rewrite !andb_True, !bool_decide_spec, !list.Forall_cons, Nat.add_0_r, list.Forall_nil. tauto.
Qed.

(** Two quads, of which the second one has lost a lane. *)
Lemma quad_uniform_correct_witness :
  returns sample_machine quad_uniform_function [0; 1; 2; 3; 4; 6; 7]%nat (fun _ => []) [0; 1; 2; 3; 4; 6; 7]%nat
    (fun i => VBool (bool_decide (Forall (fun k => (quad_of i + k)%nat ∈ [0; 1; 2; 3; 4; 6; 7]%nat) [0; 1; 2; 3]%nat))).
Proof.
  apply (quad_uniform_correct sample_machine [0; 1; 2; 3; 4; 6; 7]%nat).
  - intros i. set_unfold. lia.
  - done.
Defined.
