(* ===== verification/ModuleAnalysis.v ===== *)
(** The analysis of a function before it is converted (dxil_converter.cpp): the values that are
    used, the operations that must be precise, and the barriers that are missing. *)
From S2P Require Import Prelude.
From S2P Require Import LLVMType.
From S2P Require Import LLVMValue.
From S2P Require Import SpvBuilder.
From S2P Require Import SPIRVModule.
From S2P Require Import Converter.
From S2P Require Import LLVMBuiltins.
From S2P Require Import FunctionConversion.
Local Open Scope Z_scope.
Local Open Scope dxil_scope.

(** * Values that are used *)

(** Constants are made where they are needed. *)
Definition mark_used_value (o : option vref) : CM unit :=
  constant ← on_llvm (isa Constant_is_base_of o);
  if (constant : bool) then mret tt
  else
    r ← derefM o;
    modify (fun s => set_llvm_used_ssa_values ({[r]} ∪ llvm_used_ssa_values s) s).

(** A PHI does not keep itself alive. *)
Definition mark_incoming_value (r : vref) (i : nat) : CM unit :=
  incoming ← on_llvm (PHINode_getIncomingValue r (Z.of_nat i));
  if bool_decide (incoming = Some r) then mret tt else mark_used_value incoming.

Definition mark_operand (r : vref) (i : nat) : CM unit :=
  o ← on_llvm (Instruction_getOperand r (Z.of_nat i)); mark_used_value o.

Definition mark_used_values (r : vref) : CM unit :=
  d ← data_of r;
  match d with
  | PHINode _ =>
      n ← on_llvm (PHINode_getNumIncomingValues r);
      for_eachM (mark_incoming_value r) (seq 0 (Z.to_nat n))
  | ReturnInst _ =>
      v ← on_llvm (ReturnInst_getReturnValue r);
      match v with Some _ => mark_used_value v | None => mret tt end
  | BranchInst _ _ =>
      conditional ← on_llvm (BranchInst_isConditional r);
      if (conditional : bool) then c ← on_llvm (BranchInst_getCondition r); mark_used_value c else mret tt
  | SwitchInst _ _ _ => c ← on_llvm (SwitchInst_getCondition r); mark_used_value c
  | _ =>
      n ← on_llvm (Instruction_getNumOperands r);
      for_eachM (mark_operand r) (seq 0 (Z.to_nat n))
  end.

(** * Precise operations *)

Definition precise_opcodes : list Z := [DXIL_FMad; DXIL_Dot2; DXIL_Dot2AddHalf; DXIL_Dot3; DXIL_Dot4].
Definition is_float_operation (op : BinaryOps) : bool :=
  match op with FAdd | FSub | FMul | FDiv | FRem => true | _ => false end.

Definition instruction_is_precise_sensitive (r : vref) : CM bool :=
  d ← data_of r;
  match d with
  | BinaryOperator op _ => mret (is_float_operation op)
  | _ => any_of (value_is_dx_op_instrinsic r) precise_opcodes
  end.

Definition instruction_requires_no_contraction (r : vref) : CM bool :=
  sensitive ← instruction_is_precise_sensitive r;
  if (sensitive : bool) then
    d ← data_of r;
    match d with
    | BinaryOperator _ fast => mret (negb fast)
    | _ => call ← on_llvm (cast (kind_is KCall) (Some r)); on_llvm (Instruction_hasMetadata call dx_precise)
    end
  else mret false.

(** The metadata is there without a node. *)
Definition set_precise (r : vref) : CM unit :=
  sensitive ← instruction_is_precise_sensitive r;
  precise ← instruction_requires_no_contraction r;
  if sensitive && negb precise then
    d ← data_of r;
    match d with
    | CallInst _ => on_llvm (Instruction_setMetadata r dx_precise None)
    | BinaryOperator _ _ => on_llvm (BinaryOperator_setFast r false)
    | _ => mret tt
    end
  else mret tt.

(** An incoming value of a PHI or an operand. *)
Definition precise_input (phi : bool) (r : vref) (i : nat) : CM (option vref) :=
  on_llvm (if phi then PHINode_getIncomingValue r (Z.of_nat i) else Instruction_getOperand r (Z.of_nat i)).

(** Whether it is a PHI, and the number of its inputs. *)
Definition precise_inputs (r : vref) : CM (bool * Z) :=
  d ← data_of r;
  match d with
  | PHINode _ => n ← on_llvm (PHINode_getNumIncomingValues r); mret (true, n)
  | _ => n ← on_llvm (Instruction_getNumOperands r); mret (false, n)
  end.

(** [mark_precise]: a constant, a variable or null ends the search. *)
Definition mark_precise (propagate : vref -> gset vref -> CM (gset vref)) (o : option vref) (cache : gset vref)
    : CM (gset vref) :=
  inst ← on_llvm (dyn_cast Instruction_is_base_of o);
  match inst with
  | None => mret cache
  | Some r => _ ← set_precise r; propagate r cache
  end.

Fixpoint propagate_precise_from (fuel : nat) (r : vref) (cache : gset vref) : CM (gset vref) :=
  match fuel with
  | O => ubM
  | S fuel' =>
      if bool_decide (r ∈ cache) then mret cache
      else
        x ← precise_inputs r;
        fold_m (fun i cache => o ← precise_input x.1 r i; mark_precise (propagate_precise_from fuel') o cache)
          (seq 0 (Z.to_nat x.2)) ({[r]} ∪ cache)
  end.

(** The instructions of a function, block by block. *)
Definition instructions_of (f : vref) : CM (list vref) :=
  d ← on_llvm (fn_at f);
  l ← mapM_list (fun bb => b ← on_llvm (bb_at bb); mret (bb_instructions b)) (fn_basic_blocks d);
  mret (concat l).

(** Every call adds an instruction to the cache or returns, so no chain of calls is longer than the
    number of values. *)
Definition propagate_precise (f : vref) : CM unit :=
  l ← instructions_of f;
  precise ← filter_m instruction_requires_no_contraction l;
  n ← gets values_count;
  _ ← fold_m (propagate_precise_from (S n)) precise ∅;
  mret tt.

(** * Missing barriers *)

Definition require_auto_group_shared_barriers (a : ShaderAnalysis) : ShaderAnalysis :=
  mkShaderAnalysis (global_undefs a) (has_group_shared_barrier a) (has_group_shared_access a) true
    (precise_f16_to_f32_observed a) (subgroup_ballot_reads_first a) (subgroup_ballot_reads_upper a).

Definition analyze_instructions_post_execution_modes : CM unit :=
  o ← gets options;
  a ← gets shader_analysis;
  if (group_shared_auto_barrier o || negb (has_group_shared_barrier a)) && has_group_shared_access a then
    mode ← gets execution_mode_meta;
    let '(x, y, z) := workgroup_threads mode in
    let num_threads := u32 (u32 (x * y) * z) in
    if group_shared_auto_barrier o || ((num_threads <=? 32) && (1 <? num_threads)) then
      modify (set_shader_analysis (require_auto_group_shared_barriers a))
    else mret tt
  else mret tt.
