(* ===== verification/PrecisePropagation.v ===== *)
(** The propagation of the precise flag (ModuleAnalysis.v).

    [paint P s] is the state [s] where the values of [P] are precise.  What the search reads of a value,
    its kind, operands and callee, is the same in both ([robust]), so every state of the search is the
    initial one with more values painted, and the cache of visited instructions makes it a depth-first
    search of the relation [precise_uses] of the initial state. *)
From S2P Require Import Prelude.
From S2P Require Import LLVMType.
From S2P Require Import LLVMValue.
From S2P Require Import SpvBuilder.
From S2P Require Import SPIRVModule.
From S2P Require Import Converter.
From S2P Require Import ConverterReads.
From S2P Require Import LLVMBuiltins.
From S2P Require Import FunctionConversion.
From S2P Require Import ModuleAnalysis.
Local Open Scope Z_scope.
Local Open Scope dxil_scope.

(** * Precise values *)

Definition precise_data (d : ValueData) : ValueData :=
  match d with BinaryOperator op _ => BinaryOperator op false | _ => d end.
Definition precise_attachments (d : ValueData) (l : gmap String_ (option mdref)) : gmap String_ (option mdref) :=
  match d with
  | CallInst _ => if decide (is_Some (l !! dx_precise)) then l else <[dx_precise := None]> l
  | _ => l
  end.
Definition make_precise (v : Value) : Value :=
  mkValue (val_type v) (precise_data (val_data v)) (val_tween v) (val_operands v) (val_terminator v)
    (precise_attachments (val_data v) (val_attachments v)).

Definition is_precise (v : Value) : bool :=
  match val_data v with
  | BinaryOperator _ fast => negb fast
  | CallInst _ => bool_decide (is_Some (val_attachments v !! dx_precise))
  | _ => false
  end.

Definition paint_heap (P : gset vref) (heap : list Value) : list Value :=
  imap (fun r v => if decide (r ∈ P) then make_precise v else v) heap.
Definition paint_llvm (P : gset vref) (v : VState) : VState :=
  mkV (v_types v) (paint_heap P (v_values v)) (v_mds v).
Definition paint (P : gset vref) (s : ConverterImpl) : ConverterImpl := set_llvm (paint_llvm P (llvm s)) s.

Lemma paint_lookup P heap r :
  paint_heap P heap !! r = (fun v => if decide (r ∈ P) then make_precise v else v) <$> heap !! r.
Proof. apply list_lookup_imap. Qed.
Lemma paint_length P heap : length (paint_heap P heap) = length heap.
Proof. apply length_imap. Qed.

Lemma make_precise_idemp v : make_precise (make_precise v) = make_precise v.
Proof.
  destruct v as [ty d tw ops te at_]. unfold make_precise. cbn. destruct d; cbn; try done. f_equal.
  repeat case_decide; try done. match goal with H : ~ is_Some _ |- _ => destruct H end.
  rewrite lookup_insert_eq. by eexists.
Qed.
Lemma make_precise_precise v : is_precise v = true -> make_precise v = v.
Proof.
  destruct v as [ty d tw ops te at_]. unfold make_precise, is_precise. cbn.
  destruct d; cbn; try done; [by destruct fast_math|]. intros H%bool_decide_eq_true. by rewrite decide_True.
Qed.

Lemma paint_empty s : paint ∅ s = s.
Proof.
  assert (paint_heap ∅ (v_values (llvm s)) = v_values (llvm s)) as E.
  { apply list_eq. intros r. rewrite paint_lookup. by destruct (v_values (llvm s) !! r). }
  unfold paint, paint_llvm. rewrite E. destruct s. cbn. by destruct llvm.
Qed.

(** * What does not depend on the flag *)

Definition vrobust {A} (m : M VState A) : Prop := forall P v a v',
  m v = Ok (a, v') -> v' = v /\ m (paint_llvm P v) = Ok (a, paint_llvm P v).
Definition robust {A} (m : CM A) : Prop := forall P s a s',
  m s = Ok (a, s') -> s' = s /\ m (paint P s) = Ok (a, paint P s).

Lemma vrobust_ret {A} (a : A) : vrobust (mret a).
Proof. by intros P v x v' [= <- <-]. Qed.
Lemma vrobust_ub {A} : vrobust (ubM : M VState A).
Proof. by intros P v x v'. Qed.
Lemma vrobust_lift {A} (r : res A) : vrobust (lift r).
Proof. intros P v x v'. unfold lift. destruct r; [|done..]. by intros [= <- <-]. Qed.
Lemma vrobust_deref {A} (o : option A) : vrobust (derefM o).
Proof. intros P v x v' [-> ->]%derefM_inv. done. Qed.
Lemma vrobust_bind {A B} (m : M VState A) (f : A -> M VState B) :
  vrobust m -> (forall a, vrobust (f a)) -> vrobust (m ≫= f).
Proof.
  intros Hm Hf P v b v' (a & v1 & E & E')%bindM_Ok. apply (Hm P) in E as [-> E].
  apply (Hf a P) in E' as [-> E']. split; [done|]. by rewrite (bindM_run _ _ _ _ _ E).
Qed.

(** Types are only read. *)
Lemma vrobust_type_at t : vrobust (on_types (type_at t)).
Proof.
  intros P v a v' E. apply zoom_Ok in E as (x & E & ->). unfold type_at in E. inv_run.
  split; [by destruct v|]. unfold on_types, zoom, type_at, mbind, M_bind, gets, derefM, lift. cbn.
  replace (type_heap (v_types v) !! t) with (Some a) by congruence. done.
Qed.

Lemma vrobust_value {A} r (k : Value -> M VState A) :
  (forall v, k (make_precise v) = k v) -> (forall v, vrobust (k v)) -> vrobust (value_at r ≫= k).
Proof.
  intros Hk Hr P s a s' (v & s1 & E & E')%bindM_Ok. unfold value_at in E. inv_run.
  apply (Hr v P) in E' as [-> E']. split; [done|].
  assert (v_values s !! r = Some v) as Hv by congruence.
  unfold value_at, mbind, M_bind, gets, derefM, lift. cbn. rewrite paint_lookup, Hv. cbn.
  case_decide; [by rewrite Hk|done].
Qed.

Lemma resolve_proxy_painted P fuel heap o :
  resolve_proxy_loop fuel (paint_heap P heap) o = resolve_proxy_loop fuel heap o.
Proof.
  revert o. induction fuel as [|fuel IH]; [done|]. intros [r|]; [|done]. cbn. rewrite paint_lookup.
  destruct (heap !! r) as [v|]; [|done]. cbn. unfold make_precise. case_decide; cbn; destruct (val_data v); cbn; try done; apply IH.
Qed.
Lemma resolve_proxy_in_painted P heap o : resolve_proxy_in (paint_heap P heap) o = resolve_proxy_in heap o.
Proof. unfold resolve_proxy_in. by rewrite paint_length, resolve_proxy_painted. Qed.
Lemma vrobust_resolve o : vrobust (resolve_proxy o).
Proof.
  intros P v a v' E. unfold resolve_proxy in *. inv_run. split; [done|].
  match goal with H : resolve_proxy_in _ _ = _ |- _ => rename H into R end.
  unfold mbind, M_bind, gets, lift, id in *. cbn [paint_llvm v_values]. by rewrite resolve_proxy_in_painted, R.
Qed.

Ltac robust_value := intros [ty d tw ops te at_]; unfold make_precise, val_kind; cbn;
  try reflexivity; destruct d; reflexivity.
Ltac vrobust_step :=
  lazymatch goal with
  | |- vrobust (value_at _ ≫= _) => apply vrobust_value; [robust_value|intros ?]
  | |- vrobust (on_types (type_at _)) => apply vrobust_type_at
  | |- vrobust (resolve_proxy _) => apply vrobust_resolve
  | |- vrobust (mbind _ _) => apply vrobust_bind; [|intros ?]
  | |- vrobust (mret _) => apply vrobust_ret
  | |- vrobust ubM => apply vrobust_ub
  | |- vrobust (lift _) => apply vrobust_lift
  | |- vrobust (assertM _) => apply vrobust_lift
  | |- vrobust (derefM _) => apply vrobust_deref
  | |- vrobust (match ?x with _ => _ end) => destruct x
  end.
Ltac unfold_head :=
  match goal with
  | |- _ ?m => let rec head t := lazymatch t with ?f _ => head f | ?f => f end in let h := head m in unfold h
  end.
Ltac vrobust := repeat first [ progress cbv beta zeta | vrobust_step | unfold_head ].

Lemma vrobust_dyn_cast is_base o : vrobust (dyn_cast is_base o).
Proof. vrobust. Qed.
Lemma vrobust_incoming r i : vrobust (PHINode_getIncomingValue r i).
Proof. vrobust. Qed.
Lemma vrobust_operand r i : vrobust (Instruction_getOperand r i).
Proof. vrobust. Qed.

Lemma robust_ret {A} (a : A) : robust (mret a).
Proof. by intros P s x s' [= <- <-]. Qed.
Lemma robust_bind {A B} (m : CM A) (f : A -> CM B) : robust m -> (forall a, robust (f a)) -> robust (m ≫= f).
Proof.
  intros Hm Hf P s b s' (a & s1 & E & E')%bindM_Ok. apply (Hm P) in E as [-> E].
  apply (Hf a P) in E' as [-> E']. split; [done|]. by rewrite (bindM_run _ _ _ _ _ E).
Qed.
Lemma robust_lift {A} (r : res A) : robust (lift r).
Proof. intros P s x s'. unfold lift. destruct r; [|done..]. by intros [= <- <-]. Qed.
Lemma robust_gets_module : robust (gets llvm_module).
Proof. by intros P s x s' [= <- <-]. Qed.
Lemma robust_llvm {A} (m : M VState A) : vrobust m -> robust (on_llvm m).
Proof.
  intros Hm P s a s' (v & E & ->)%zoom_Ok. apply (Hm P) in E as [-> E]. split; [by destruct s|].
  unfold on_llvm, zoom. cbn [llvm paint set_llvm]. by rewrite E.
Qed.

(** What is read of a value must not be its flag. *)
Lemma robust_value {A} r (k : Value -> CM A) :
  (forall v, k (make_precise v) = k v) -> (forall v, robust (k v)) -> robust (value r ≫= k).
Proof.
  intros Hk Hr P s a s' (x & s1 & (v & Hv & ->)%zoom_Ok & E')%bindM_Ok.
  unfold value_at in Hv. inv_run. assert (v_values (llvm s) !! r = Some x) as Hx by congruence.
  rewrite set_llvm_id in E'. apply (Hr _ P) in E' as [-> E']. split; [done|].
  assert (value r (paint P s) = Ok (if decide (r ∈ P) then make_precise x else x, paint P s)) as E.
  { unfold value, on_llvm, zoom, value_at, mbind, M_bind, gets, derefM, lift. cbn. rewrite paint_lookup, Hx. done. }
  rewrite (bindM_run _ _ _ _ _ E). case_decide; [by rewrite Hk|done].
Qed.

Lemma robust_ext {A} (m m' : CM A) : (forall s, m s = m' s) -> robust m' -> robust m.
Proof. intros He Hm P s a s'. rewrite !He. apply Hm. Qed.
Lemma robust_data {A} r (k : ValueData -> CM A) :
  (forall d, k (precise_data d) = k d) -> (forall d, robust (k d)) -> robust (data_of r ≫= k).
Proof.
  intros Hk Hr. apply (robust_ext _ (value r ≫= fun v => k (val_data v))).
  - intros s. unfold data_of, mbind, M_bind. by destruct (value r s) as [[]| |].
  - apply robust_value; [intros v; apply Hk|intros v; apply Hr].
Qed.
Lemma robust_kind_of r : robust (kind_of r).
Proof. apply robust_value; [|intros v; apply robust_ret]. intros [ty d tw ops te at_]. by destruct d. Qed.

Ltac robust_data := intros []; reflexivity.
Ltac robust_step :=
  lazymatch goal with
  | |- robust (data_of _ ≫= _) => apply robust_data; [robust_data|intros ?]
  | |- robust (on_llvm _) => apply robust_llvm; vrobust
  | |- robust (gets llvm_module) => apply robust_gets_module
  | |- robust (mbind _ _) => apply robust_bind; [|intros ?]
  | |- robust (mret _) => apply robust_ret
  | |- robust (lift _) => apply robust_lift
  | |- robust (derefM _) => apply robust_lift
  | |- robust (match ?x with _ => _ end) => destruct x
  end.
Ltac robust := repeat first [ progress cbv beta zeta | robust_step | unfold_head ].

Lemma robust_kind k r : robust (is_kind k r).
Proof. apply robust_bind; [apply robust_kind_of|intros x; apply robust_ret]. Qed.
Lemma robust_constant_int r : robust (constant_int r).
Proof. apply robust_bind; [apply robust_kind|]. intros c. robust. Qed.
Lemma robust_get_constant_operand r i : robust (get_constant_operand r i).
Proof.
  apply robust_bind; [robust|]. intros n. destruct (n <=? i); [apply robust_ret|].
  apply robust_bind; [robust|]. intros o. apply robust_bind; [apply robust_constant_int|]. intros c. apply robust_ret.
Qed.
Lemma robust_dx_op r op : robust (value_is_dx_op_instrinsic r op).
Proof.
  apply robust_bind; [|intros o; apply robust_ret]. apply robust_data; [robust_data|].
  intros []; try apply robust_ret. apply robust_bind; [robust|]. intros name.
  case_match; [apply robust_get_constant_operand|apply robust_ret].
Qed.
Lemma robust_any_of {X} (f : X -> CM bool) l : (forall x, robust (f x)) -> robust (any_of f l).
Proof.
  intros Hf. induction l as [|x l IH]; [apply robust_ret|].
  apply robust_bind; [apply Hf|]. intros []; [apply robust_ret|exact IH].
Qed.
Lemma robust_sensitive r : robust (instruction_is_precise_sensitive r).
Proof.
  apply robust_data; [robust_data|]. intros d.
  destruct d; try (apply robust_any_of; intros op'; apply robust_dx_op). apply robust_ret.
Qed.
Lemma robust_precise_inputs r : robust (precise_inputs r).
Proof. apply robust_data; [robust_data|]. intros d. robust. Qed.
Lemma robust_precise_input phi r i : robust (precise_input phi r i).
Proof. apply robust_llvm. destruct phi; [apply vrobust_incoming|apply vrobust_operand]. Qed.

(** * Marking an instruction *)

Definition put_value (r : vref) (v : Value) (s : ConverterImpl) : ConverterImpl :=
  set_llvm (mkV (v_types (llvm s)) (<[r := v]> (v_values (llvm s))) (v_mds (llvm s))) s.

Lemma not_dx_op s r v op : value_is s r v -> (forall callee, val_data v <> CallInst callee) ->
  value_is_dx_op_instrinsic r op s = Ok (false, s).
Proof.
  intros Hv Hd. unfold value_is_dx_op_instrinsic, dx_op_of. unfold mbind at 1, M_bind at 1.
  rewrite (bindM_run _ _ _ _ _ (data_run _ _ _ Hv)). destruct (val_data v) eqn:E; try done. by destruct (Hd callee).
Qed.

(** Only float operations and calls are sensitive. *)
Lemma sensitive_value s r c s' : instruction_is_precise_sensitive r s = Ok (c, s') ->
  exists v, value_is s r v /\
    (c = true -> (exists op fast, val_data v = BinaryOperator op fast) \/ (exists callee, val_data v = CallInst callee)).
Proof.
  intros (d & s1 & (-> & v & Hv & <-)%data_inv & E)%bindM_Ok. exists v. split; [done|]. intros ->.
  destruct (val_data v) eqn:D; try (by eauto); exfalso; revert E; generalize precise_opcodes; intros l;
    (induction l as [|o l IH]; [done|]; cbn [any_of];
     rewrite (bindM_run _ _ _ _ _ (not_dx_op s r v o Hv ltac:(by rewrite D))); exact IH).
Qed.

Lemma cast_call_run s r v callee : value_is s r v -> val_data v = CallInst callee ->
  on_llvm (cast (kind_is KCall) (Some r)) s = Ok (r, s).
Proof.
  intros Hv D. apply read_run. unfold value_is in Hv.
  assert (resolve_proxy_in (v_values (llvm s)) (Some r) = Ok (Some r)) as E.
  { apply resolve_proxy_spec. exists [r]. eapply resolves_value; [exact Hv|]. unfold val_kind. by rewrite D. }
  unfold cast, resolve_proxy. rewrite (bindM_run _ _ _ (Some r) (llvm s)).
  2:{ unfold mbind, M_bind, gets, lift, id. by rewrite E. }
  rewrite (bindM_run _ _ _ r (llvm s)) by done. rewrite (bindM_run _ _ _ _ _ (value_at_run _ _ _ Hv)).
  unfold val_kind. by rewrite D.
Qed.

Lemma no_contraction_run s r c v : instruction_is_precise_sensitive r s = Ok (c, s) -> value_is s r v ->
  instruction_requires_no_contraction r s = Ok (c && is_precise v, s).
Proof.
  intros E Hv. unfold instruction_requires_no_contraction. rewrite (bindM_run _ _ _ _ _ E).
  destruct c; [|done]. destruct (sensitive_value _ _ _ _ E) as (v' & Hv' & D).
  assert (v' = v) as -> by (unfold value_is in *; congruence).
  cbn [andb]. rewrite (bindM_run _ _ _ _ _ (data_run _ _ _ Hv)). unfold is_precise.
  destruct (D eq_refl) as [(op & fast & ->)|(callee & Hc)]; [done|].
  rewrite Hc, (bindM_run _ _ _ _ _ (cast_call_run _ _ _ _ Hv Hc)).
  apply read_run. unfold Instruction_hasMetadata. by rewrite (bindM_run _ _ _ _ _ (value_at_run _ _ _ Hv)).
Qed.

Lemma set_precise_run s r c v : instruction_is_precise_sensitive r s = Ok (c, s) -> value_is s r v ->
  set_precise r s = Ok (tt, if c then put_value r (make_precise v) s else s).
Proof.
  intros E Hv. unfold set_precise. rewrite (bindM_run _ _ _ _ _ E), (bindM_run _ _ _ _ _ (no_contraction_run _ _ _ _ E Hv)).
  destruct c; [|done]. cbn [andb]. destruct (is_precise v) eqn:Hp; cbn [negb].
  { rewrite make_precise_precise by done. unfold put_value. rewrite list_insert_id by done. destruct s. by destruct llvm. }
  rewrite (bindM_run _ _ _ _ _ (data_run _ _ _ Hv)).
  destruct (sensitive_value _ _ _ _ E) as (v' & Hv' & D).
  assert (v' = v) as -> by (unfold value_is in *; congruence).
  unfold is_precise in Hp. unfold make_precise.
  destruct (D eq_refl) as [(op & fast & Hd)|(callee & Hd)]; rewrite Hd in *; cbn.
  - apply on_llvm_run. unfold BinaryOperator_setFast. rewrite (bindM_run _ _ _ _ _ (value_at_run _ _ _ Hv)), Hd.
    unfold set_data. by rewrite (bindM_run _ _ _ _ _ (value_at_run _ _ _ Hv)).
  - apply bool_decide_eq_false in Hp. rewrite decide_False by done.
    apply on_llvm_run. unfold Instruction_setMetadata. by rewrite (bindM_run _ _ _ _ _ (value_at_run _ _ _ Hv)), Hd.
Qed.

Lemma paint_heap_insert P heap r v : heap !! r = Some v ->
  <[r := make_precise (if decide (r ∈ P) then make_precise v else v)]> (paint_heap P heap) = paint_heap ({[r]} ∪ P) heap.
Proof.
  intros Hv. apply list_eq. intros i. rewrite paint_lookup. destruct (decide (i = r)) as [->|Hne].
  - rewrite Hv, list_lookup_insert_eq.
    + cbn. rewrite (decide_True (P := r ∈ {[r]} ∪ P)) by set_solver. case_decide; [by rewrite make_precise_idemp|done].
    + rewrite paint_length. by eapply lookup_lt_Some.
  - rewrite list_lookup_insert_ne by done. rewrite paint_lookup. destruct (heap !! i); [|done]. cbn.
    rewrite (decide_ext (i ∈ {[r]} ∪ P) (i ∈ P)) by set_solver. done.
Qed.
Lemma put_painted P s r v : value_is s r v ->
  put_value r (make_precise (if decide (r ∈ P) then make_precise v else v)) (paint P s) = paint ({[r]} ∪ P) s.
Proof.
  intros Hv. unfold put_value, paint, paint_llvm. cbn [llvm set_llvm v_values v_types v_mds].
  by rewrite (paint_heap_insert _ _ _ _ Hv).
Qed.

Lemma painted_value P s r v : value_is s r v -> value_is (paint P s) r (if decide (r ∈ P) then make_precise v else v).
Proof. unfold value_is. intros Hv. cbn. by rewrite paint_lookup, Hv. Qed.

Lemma set_precise_painted P s r c : instruction_is_precise_sensitive r s = Ok (c, s) ->
  set_precise r (paint P s) = Ok (tt, paint (if c then {[r]} ∪ P else P) s).
Proof.
  intros E. destruct (sensitive_value _ _ _ _ E) as (v & Hv & _).
  apply (robust_sensitive r P) in E as [_ E].
  rewrite (set_precise_run _ _ _ _ E (painted_value P _ _ _ Hv)). destruct c; [|done].
  by rewrite put_painted.
Qed.

(** * The search *)

Definition sensitive (s : ConverterImpl) (r : vref) : Prop := instruction_is_precise_sensitive r s = Ok (true, s).
Definition precise (s : ConverterImpl) (r : vref) : Prop := instruction_requires_no_contraction r s = Ok (true, s).

Definition precise_use_at (s : ConverterImpl) (r : vref) (i : nat) (b : vref) : Prop :=
  exists x o, precise_inputs r s = Ok (x, s) /\ (i < Z.to_nat x.2)%nat /\ precise_input x.1 r i s = Ok (o, s) /\
    on_llvm (dyn_cast Instruction_is_base_of o) s = Ok (Some b, s).
(** An instruction uses another one as an operand or as an incoming value. *)
Definition precise_uses (s : ConverterImpl) (a b : vref) : Prop := exists i, precise_use_at s a i b.

(** The inputs of an instruction are values, and what is called names its function. *)
Definition followable (s : ConverterImpl) (r : vref) : Prop :=
  exists x, precise_inputs r s = Ok (x, s) /\ forall i, (i < Z.to_nat x.2)%nat ->
    exists o b, precise_input x.1 r i s = Ok (o, s) /\ on_llvm (dyn_cast Instruction_is_base_of o) s = Ok (b, s) /\
      forall y, b = Some y -> exists c, instruction_is_precise_sensitive y s = Ok (c, s).

Lemma followable_bound s r : followable s r -> (r < values_count s)%nat.
Proof.
  intros (x & (d & s1 & (-> & v & Hv & _)%data_inv & _)%bindM_Ok & _). by eapply lookup_lt_Some.
Qed.

(** What a part of the search adds: instructions [F] to the cache [C], precise values [T] to [P]. *)
Record explored (s : ConverterImpl) (F T : vref -> Prop) (P C P' C' : gset vref) : Prop := {
  ex_cache : C ⊆ C';
  ex_marked : P ⊆ P';
  ex_new : forall x, x ∈ C' -> x ∈ C \/ F x;
  ex_painted : forall x, x ∈ P' -> x ∈ P \/ (sensitive s x /\ T x);
  ex_closed : forall x y, x ∈ C' -> x ∉ C -> precise_uses s x y -> y ∈ C' /\ (sensitive s y -> y ∈ P');
}.

Section explored.
Context (s : ConverterImpl).
Implicit Types (F T : vref -> Prop) (P C : gset vref).

Lemma explored_refl F T P C : explored s F T P C P C.
Proof. by split; auto. Qed.
Lemma explored_trans F T P C P1 C1 P2 C2 :
  explored s F T P C P1 C1 -> explored s F T P1 C1 P2 C2 -> explored s F T P C P2 C2.
Proof.
  intros [A1 A2 A3 A4 A5] [B1 B2 B3 B4 B5]. split.
  - by etrans.
  - by etrans.
  - intros x [Hx|Hx]%B3; [by apply A3|by right].
  - intros x [Hx|Hx]%B4; [by apply A4|by right].
  - intros x y Hx Hn Hu. destruct (decide (x ∈ C1)) as [Hx1|Hx1]; [|by eapply B5].
    destruct (A5 x y Hx1 Hn Hu) as [Hy Hs]. split; [by apply B1|]. intros Hy'. by apply B2, Hs.
Qed.
Lemma explored_mono F T F' T' P C P' C' :
  (forall x, F x -> F' x) -> (forall x, T x -> T' x) -> explored s F T P C P' C' -> explored s F' T' P C P' C'.
Proof.
  intros HF HT [A1 A2 A3 A4 A5]. split; try done.
  - intros x [?|?]%A3; auto.
  - intros x [?|[? ?]]%A4; auto.
Qed.
Lemma explored_mark F T P C y c :
  instruction_is_precise_sensitive y s = Ok (c, s) -> T y -> explored s F T P C (if c then {[y]} ∪ P else P) C.
Proof.
  intros E HT. destruct c; [|apply explored_refl]. split; [done|set_solver|by left| |done].
  intros x [->%elem_of_singleton|Hx]%elem_of_union; [by right|by left].
Qed.
End explored.

Section search.
Context (s : ConverterImpl) (good : vref -> Prop).
Context (Hgood : forall a b, good a -> precise_uses s a b -> good b) (Hwf : forall a, good a -> followable s a).
Implicit Types (P C : gset vref).

Lemma cache_size C : (forall x, x ∈ C -> good x) -> (size C <= values_count s)%nat.
Proof.
  intros HC. rewrite <- (length_seq (values_count s) 0), <- (size_list_to_set (C := gset vref)) by apply NoDup_seq.
  apply subseteq_size. intros x Hx. apply elem_of_list_to_set, elem_of_seq.
  pose proof (followable_bound s x (Hwf x (HC x Hx))). lia.
Qed.
Lemma explored_good F T P C P' C' :
  (forall x, F x -> good x) -> (forall x, x ∈ C -> good x) -> explored s F T P C P' C' -> forall x, x ∈ C' -> good x.
Proof. intros HF HC H x Hx. destruct (ex_new _ _ _ _ _ _ _ H x Hx); auto. Qed.

(** The inputs of [r] up to [n]. *)
Definition inputs_done (r : vref) (n : nat) P C : Prop :=
  forall i y, (i < n)%nat -> precise_use_at s r i y -> y ∈ C /\ (sensitive s y -> y ∈ P).

Lemma inputs_done_explored F T r n P C P' C' :
  inputs_done r n P C -> explored s F T P C P' C' -> inputs_done r n P' C'.
Proof.
  intros H Hx i y Hi Hu. destruct (H i y Hi Hu) as [Hy Hs]. split; [by apply (ex_cache _ _ _ _ _ _ _ Hx)|].
  intros Hs'. by apply (ex_marked _ _ _ _ _ _ _ Hx), Hs.
Qed.

Lemma precise_use_at_det r i y x o b :
  precise_use_at s r i y -> precise_inputs r s = Ok (x, s) -> precise_input x.1 r i s = Ok (o, s) ->
  on_llvm (dyn_cast Instruction_is_base_of o) s = Ok (b, s) -> b = Some y.
Proof. intros (x' & o' & Ex & _ & Eo & Eb) Ex' Eo' Eb'. assert (x' = x) as -> by congruence.
  assert (o' = o) as -> by congruence. congruence. Qed.

Definition search_done (r : vref) P C (C' : gset vref) (t : ConverterImpl) : Prop :=
  exists P', t = paint P' s /\ explored s (rtc (precise_uses s) r) (tc (precise_uses s) r) P C P' C' /\ r ∈ C'.

(** One input: it is marked, then followed. *)
Lemma runs_mark propagate r i x P C :
  good r -> precise_inputs r s = Ok (x, s) -> (i < Z.to_nat x.2)%nat -> inputs_done r i P C ->
  (forall y P1, precise_uses s r y -> runs (propagate y C) (paint P1 s) (search_done y P1 C)) ->
  runs (o ← precise_input x.1 r i; mark_precise propagate o C) (paint P s) (fun C' t =>
    exists P', t = paint P' s /\ explored s (rtc (precise_uses s) r) (tc (precise_uses s) r) P C P' C' /\
      inputs_done r (S i) P' C').
Proof.
  intros Hr Ex Hi Hdone Hrec. destruct (Hwf r Hr) as (x' & Ex' & Hin). assert (x' = x) as -> by congruence.
  destruct (Hin i Hi) as (o & b & Eo & Eb & Hb). unfold runs. unfold mark_precise.
  rewrite (bindM_run _ _ _ _ _ (proj2 (robust_precise_input x.1 r i P _ _ _ Eo))).
  rewrite (bindM_run _ _ _ _ _ (proj2 (robust_llvm _ (vrobust_dyn_cast _ _) P _ _ _ Eb))).
  assert (forall j y, (j < S i)%nat -> precise_use_at s r j y -> (j < i)%nat \/ b = Some y) as Hj.
  { intros j y Hj Hu. destruct (decide (j = i)) as [->|]; [right|left; lia]. by eapply precise_use_at_det. }
  destruct b as [y|].
  2:{ exists C, (paint P s). split; [done|]. exists P. split; [done|]. split; [apply explored_refl|].
      intros j y Hlt Hu. destruct (Hj j y Hlt Hu) as [|]; [by eapply Hdone|done]. }
  destruct (Hb y eq_refl) as [c Ec]. rewrite (bindM_run _ _ _ _ _ (set_precise_painted P _ _ _ Ec)).
  assert (precise_uses s r y) as Hu by (exists i, x, o; done).
  destruct (Hrec y (if c then {[y]} ∪ P else P) Hu) as (C' & t & E & P' & -> & He & Hy).
  exists C', (paint P' s). split; [done|]. exists P'. split; [done|].
  assert (explored s (rtc (precise_uses s) r) (tc (precise_uses s) r) P C P' C') as He'.
  { eapply explored_trans; [eapply explored_mark; [exact Ec|by apply tc_once]|].
    eapply explored_mono; [| |exact He]; intros z Hz; [by eapply rtc_l|by eapply tc_l]. }
  split; [done|]. intros j z Hlt Hz. destruct (Hj j z Hlt Hz) as [Hlt'|[= ->]].
  - exact (inputs_done_explored _ _ _ _ _ _ _ _ Hdone He' j z Hlt' Hz).
  - split; [done|]. intros Hs. assert (c = true) as -> by (unfold sensitive in Hs; congruence).
    apply (ex_marked _ _ _ _ _ _ _ He). set_solver.
Qed.

Lemma runs_propagate fuel r P C :
  good r -> (forall x, x ∈ C -> good x) -> (values_count s < fuel + size C)%nat ->
  runs (propagate_precise_from fuel r C) (paint P s) (search_done r P C).
Proof.
  revert r P C. induction fuel as [|fuel IH]; intros r P C Hr HC Hfuel.
  { pose proof (cache_size C HC). lia. }
  cbn [propagate_precise_from]. case_bool_decide as Hin.
  { apply runs_ret. exists P. split; [done|]. split; [apply explored_refl|done]. }
  destruct (Hwf r Hr) as (x & Ex & _). apply runs_bind. exists x, (paint P s).
  split; [exact (proj2 (robust_precise_inputs r P _ _ _ Ex))|].
  eapply runs_mono; [apply (runs_fold _ (fun pre C1 t => exists P1, t = paint P1 s /\
    explored s (rtc (precise_uses s) r) (tc (precise_uses s) r) P ({[r]} ∪ C) P1 C1 /\ inputs_done r (length pre) P1 C1))|].
  - exists P. split; [done|]. split; [apply explored_refl|]. intros i y Hi. simpl in Hi. lia.
  - intros pre i post C1 t El (P1 & -> & He & Hd).
    assert (length pre = i /\ (i < Z.to_nat x.2)%nat) as [Hi Hlt].
    { pose proof (f_equal (fun l => l !! length pre) El) as Hl. cbn in Hl.
      rewrite list_lookup_middle in Hl by done. apply lookup_seq in Hl. lia. }
    rewrite Hi in Hd. assert (forall z, z ∈ C1 -> good z) as HC1.
    { eapply explored_good; [| |exact He].
      - intros z Hz. clear - Hr Hz Hgood. induction Hz; eauto.
      - set_solver. }
    eapply runs_mono; [eapply runs_mark; [done|exact Ex|done|exact Hd|]|].
    + intros y P2 Hu. apply IH; [by eapply Hgood|done|].
      assert (size ({[r]} ∪ C) <= size C1)%nat by apply subseteq_size, He.
      rewrite size_union, size_singleton in * by set_solver. lia.
    + intros C2 t (P2 & -> & He2 & Hd2). exists P2. split; [done|]. split; [by eapply explored_trans|].
      by rewrite length_app, Nat.add_1_r, Hi.
  - intros C' t (P' & -> & He & Hd). exists P'. split; [done|]. rewrite length_seq in Hd.
    assert (r ∈ C') as Hr' by (apply (ex_cache _ _ _ _ _ _ _ He); set_solver). split; [|done].
    destruct He as [A1 A2 A3 A4 A5]. split; [set_solver|done| |done|].
    + intros z [Hz|Hz]%A3; [|by right]. apply elem_of_union in Hz as [->%elem_of_singleton|Hz]; [right; apply rtc_refl|by left].
    + intros z y Hz Hn Hu. destruct (decide (z = r)) as [->|Hne].
      * destruct Hu as [i Hu]. apply (Hd i y); [|done]. destruct Hu as (x' & o & Ex' & Hlt & _). assert (x' = x) as -> by congruence. exact Hlt.
      * apply (A5 z y); [done|set_solver|done].
Qed.
End search.

(** * The whole propagation *)

Lemma filter_run {S X} (f : X -> M S bool) (s : S) l :
  (forall x, x ∈ l -> exists b, f x s = Ok (b, s)) ->
  exists l', filter_m f l s = Ok (l', s) /\ forall x, x ∈ l' <-> x ∈ l /\ f x s = Ok (true, s).
Proof.
  induction l as [|x l IH]; intros Hf.
  { exists []. split; [done|]. intros x. rewrite !elem_of_nil. by split; [|intros []]. }
  destruct (Hf x ltac:(by left)) as [b Hb]. destruct IH as (l' & E & Hl'); [intros y Hy; apply Hf; by right|].
  exists (if b then x :: l' else l'). split.
  { cbn. by rewrite (bindM_run _ _ _ _ _ Hb), (bindM_run _ _ _ _ _ E). }
  intros y. destruct b; rewrite ?elem_of_cons, Hl'; split.
  - intros [->|[? ?]]; split; auto.
  - intros [[->|?] ?]; auto.
  - intros [? ?]; auto.
  - intros [[->|?] ?]; [congruence|done].
Qed.

Lemma explored_uses s F T P C r z :
  explored s F T ∅ ∅ P C -> r ∈ C -> tc (precise_uses s) r z -> z ∈ C /\ (sensitive s z -> z ∈ P).
Proof.
  intros H Hr Hz. revert Hr. induction Hz as [x y Hxy|x y z Hxy _ IH]; intros Hr.
  - apply (ex_closed _ _ _ _ _ _ _ H x y); [done|set_solver|done].
  - apply IH. apply (ex_closed _ _ _ _ _ _ _ H x y); [done|set_solver|done].
Qed.

Lemma precise_after P s r c : instruction_is_precise_sensitive r s = Ok (c, s) ->
  (forall r, r ∈ P -> sensitive s r) -> precise (paint P s) r <-> precise s r \/ r ∈ P.
Proof.
  intros E HP. destruct (sensitive_value _ _ _ _ E) as (v & Hv & D).
  pose proof (no_contraction_run _ _ _ _ (proj2 (robust_sensitive r P _ _ _ E)) (painted_value P _ _ _ Hv)) as E1.
  pose proof (no_contraction_run _ _ _ _ E Hv) as E2. unfold precise. rewrite E1, E2. destruct c; cbn.
  2:{ split; [done|]. intros [?|Hr%HP]; [done|]. unfold sensitive in Hr. congruence. }
  destruct (decide (r ∈ P)) as [Hr|Hr].
  - split; [by right|]. intros _. f_equal. f_equal. unfold is_precise, make_precise. cbn.
    destruct (D eq_refl) as [(op & fast & ->)|(callee & ->)]; [done|]. cbn. apply bool_decide_eq_true.
    case_decide; [done|]. rewrite lookup_insert_eq. by eexists.
  - split.
    + intros [= ->]. by left.
    + intros [[= ->]|?]; done.
Qed.

(** C23. Propagating the precise flag ends, and makes precise exactly the sensitive operations that
    precise instructions of the function use, directly or through other instructions: float
    operations lose the fast flag and calls get the metadata [dx.precise].  Nothing else changes; in
    particular an operation needs no contraction afterwards exactly if it needed none before or is one
    of these. *)
Theorem propagate_precise_correct s f l :
  instructions_of f s = Ok (l, s) ->
  (forall r, r ∈ l -> exists c, instruction_is_precise_sensitive r s = Ok (c, s)) ->
  (forall root r, root ∈ l -> precise s root -> rtc (precise_uses s) root r -> followable s r) ->
  runs (propagate_precise f) s (fun _ s' => exists P,
    s' = paint P s /\
    (forall r, r ∈ P <-> sensitive s r /\ exists root, root ∈ l /\ precise s root /\ tc (precise_uses s) root r) /\
    (forall r c, instruction_is_precise_sensitive r s = Ok (c, s) -> precise s' r <-> precise s r \/ r ∈ P)).
Proof.
  intros El Hsens Hwf. unfold propagate_precise. apply runs_bind. exists l, s. split; [done|].
  destruct (filter_run instruction_requires_no_contraction s l) as (roots & Ef & Hroots).
  { intros r Hr. destruct (Hsens r Hr) as [c Hc]. destruct (sensitive_value _ _ _ _ Hc) as (v & Hv & _).
    eexists. by apply no_contraction_run. }
  apply runs_bind. exists roots, s. split; [done|]. apply runs_bind, runs_gets, runs_bind.
  set (good := fun r => exists root, root ∈ roots /\ rtc (precise_uses s) root r).
  set (used := fun r => exists root, root ∈ roots /\ tc (precise_uses s) root r).
  assert (forall a b, good a -> precise_uses s a b -> good b) as Hgood.
  { intros a b (root & Hr & Ha) Hab. exists root. split; [done|]. by eapply rtc_r. }
  assert (forall a, good a -> followable s a) as Hfol.
  { intros a (root & [Hr Hp]%Hroots & Ha). by eapply Hwf. }
  eapply runs_mono; [apply (runs_fold _ (fun pre C t => exists P, t = paint P s /\ explored s good used ∅ ∅ P C /\ forall r, r ∈ pre -> r ∈ C))|].
  - exists ∅. split; [by rewrite paint_empty|]. split; [apply explored_refl|]. by intros r Hr%elem_of_nil.
  - intros pre root post C t E (P & -> & He & Hpre).
    assert (root ∈ roots) as Hroot by (rewrite E; set_solver).
    eapply runs_mono; [apply (runs_propagate s good Hgood Hfol)|].
    + exists root. split; [done|]. apply rtc_refl.
    + eapply explored_good; [|intros x Hx; by apply elem_of_empty in Hx|exact He]. done.
    + lia.
    + intros C' t (P' & -> & He' & Hr). exists P'. split; [done|]. split.
      * eapply explored_trans; [exact He|]. eapply explored_mono; [| |exact He']; intros x Hx; by exists root.
      * intros x [Hx| ->%list_elem_of_singleton]%elem_of_app; [|done]. by apply (ex_cache _ _ _ _ _ _ _ He'), Hpre.
  - intros C t (P & -> & He & HC). apply runs_ret. exists P. split; [done|].
    assert (forall r, r ∈ P <-> sensitive s r /\ used r) as HP.
    { intros r. split.
      - intros [Hr|?]%(ex_painted _ _ _ _ _ _ _ He); [by apply elem_of_empty in Hr|done].
      - intros [Hs (root & Hr & Ht)]. by apply (explored_uses _ _ _ _ _ _ _ He (HC root Hr) Ht). }
    split.
    + intros r. rewrite HP. apply and_iff_compat_l. unfold used.
      split; intros (root & Hr); exists root; [|rewrite Hroots; tauto]. rewrite Hroots in Hr. tauto.
    + intros r c Hc. apply (precise_after P s r c Hc). intros x Hx. by apply HP.
Qed.

(** * A sample *)

(** In a loop, a precise addition of a product and of a call of [FMad]; the difference after it is
    used by nothing that is precise. *)
Definition precise_llvm : VState :=
  let float_ := Some 1%nat in
  mkV (mkTypes [IntegerType 32; BaseType FloatTyID; BaseType VoidTyID] [0; 1; 2]%nat)
    [ mkValue (Some 2%nat) (Function (mkFn 0 [1]%nat [8]%nat [] false)) 0 [] false ∅;
      mkValue (Some 2%nat) (BasicBlock (mkBB [2; 3; 4; 5; 6; 7]%nat [1]%nat LLVMValue.MergeNone None None)) 0 [] false ∅;
      mkValue float_ (PHINode [(Some 8%nat, Some 1%nat); (Some 5%nat, Some 1%nat)]) 0 [] false ∅;
      mkValue float_ (BinaryOperator FMul true) 0 [Some 2%nat; Some 8%nat] false ∅;
      mkValue float_ (CallInst 10) 0 [Some 9%nat; Some 8%nat; Some 8%nat; Some 8%nat] false ∅;
      mkValue float_ (BinaryOperator FAdd false) 0 [Some 3%nat; Some 4%nat] false ∅;
      mkValue float_ (BinaryOperator FSub true) 0 [Some 5%nat; Some 8%nat] false ∅;
      mkValue (Some 2%nat) (BranchInst [Some 1%nat] None) 0 [] true ∅;
      mkValue float_ (Argument 0) 0 [] false ∅;
      mkValue (Some 0%nat) (ConstantInt 46) 0 [] false ∅;
      mkValue (Some 2%nat) (Function (mkFn 1 [] [] [] false)) 0 [] false ∅ ] [].

Definition precise_converter : ConverterImpl :=
  ConverterImpl_new precise_llvm (ModuleContext.mkModule [] [] {[1 := dx_op_prefix]} ∅ []) SPIRVModule_new Options_new
    ExecutionModeMeta_new.

Example precise_converter_result :
  (fun x => is_precise <$> v_values (llvm x.2)) <$> (match propagate_precise 0 precise_converter with Ok x => Some x | _ => None end)
  = Some [false; false; false; true; true; true; false; false; false; false; false].
Proof. by vm_compute. Qed.

(** The loop, its call and the argument-free part of the block. *)
Definition precise_region : list vref := [2; 3; 4; 5]%nat.

Lemma precise_region_closed a b : a ∈ precise_region -> precise_uses precise_converter a b -> b ∈ precise_region.
Proof.
  intros Ha (i & x & o & Ex & Hi & Eo & Eb).
  repeat (apply elem_of_cons in Ha as [->|Ha];
    [vm_compute in Ex; injection Ex as <-; cbn in Hi;
     (destruct i as [|[|[|[|i]]]]; [..|lia]); try lia; vm_compute in Eo; injection Eo as <-; vm_compute in Eb;
     try discriminate Eb; injection Eb as <-; set_solver|]).
  by apply elem_of_nil in Ha.
Qed.
Lemma precise_region_followable a : a ∈ precise_region -> followable precise_converter a.
Proof.
  intros Ha.
  repeat (apply elem_of_cons in Ha as [->|Ha];
    [eexists; (split; [vm_compute; reflexivity|]); cbn; intros i Hi;
     (destruct i as [|[|[|[|i]]]]; [..|lia]); try lia; (eexists _, _; split; [vm_compute; reflexivity|]; split; [vm_compute; reflexivity|]);
     intros y [= <-]; eexists; vm_compute; reflexivity|]).
  by apply elem_of_nil in Ha.
Qed.
Lemma precise_region_reached root r : root = 5%nat -> rtc (precise_uses precise_converter) root r -> r ∈ precise_region.
Proof.
  intros ->. assert (5%nat ∈ precise_region) as H by set_solver. revert H. generalize 5%nat. intros a Ha Hr.
  induction Hr as [|x y z Hxy _ IH]; [done|]. apply IH. by eapply precise_region_closed.
Qed.

Lemma propagate_precise_correct_witness :
  runs (propagate_precise 0) precise_converter (fun _ s' => exists P,
    s' = paint P precise_converter /\
    (forall r, r ∈ P <-> sensitive precise_converter r /\ exists root, root ∈ [2; 3; 4; 5; 6; 7]%nat /\
       precise precise_converter root /\ tc (precise_uses precise_converter) root r) /\
    (forall r c, instruction_is_precise_sensitive r precise_converter = Ok (c, precise_converter) ->
       precise s' r <-> precise precise_converter r \/ r ∈ P)).
Proof.
  apply propagate_precise_correct; [by vm_compute| |].
  - intros r Hr. repeat (apply elem_of_cons in Hr as [->|Hr]; [eexists; vm_compute; reflexivity|]). by apply elem_of_nil in Hr.
  - intros root r Hroot Hp Hr. apply precise_region_followable. apply (precise_region_reached root); [|done].
    unfold precise in Hp. repeat (apply elem_of_cons in Hroot as [->|Hroot]; [first [reflexivity|vm_compute in Hp; discriminate Hp]|]).
    by apply elem_of_nil in Hroot.
Defined.
