(* ===== verification/DxilCommon.v ===== *)
(** What the translations of buffers share (opcodes/dxil/dxil_common.cpp): the index of an element
    from a byte offset, with its constants split off, and small queries.

    The helper function that wraps the index around has its id from [get_helper_call_id], an
    operation of the class [HelperCallIds]: WaveHelpers.v keeps these ids in a record of its own. *)
From S2P Require Import Prelude.
From S2P Require Import LLVMType.
From S2P Require Import LLVMValue.
From S2P Require Import IR.
From S2P Require Import SpvBuilder.
From S2P Require Import Instrumentation.
From S2P Require Import SPIRVModule.
From S2P Require Import WaveHelpers.
From S2P Require Import Converter.
From S2P Require Import LLVMBuiltins.
From S2P Require Import Instructions.
From S2P Require Import Arithmetic.
Local Open Scope Z_scope.
Local Open Scope dxil_scope.

Class HelperCallIds := get_helper_call_id : HelperCall -> CM Z.

(** * Types *)

Definition type_is_16bit (t : Type_) : bool :=
  match t with BaseType HalfTyID => true | IntegerType w => w =? 16 | _ => false end.
Definition type_is_64bit (t : Type_) : bool :=
  match t with BaseType DoubleTyID => true | IntegerType w => w =? 64 | _ => false end.

(** The alignment of a component; 1 for what has none. *)
Definition get_type_scalar_alignment (t : tyref) : CM Z :=
  x ← type_object t;
  x ← (match x with VectorType _ e => type_object e | _ => mret x end);
  native ← gets (fun s => native_16bit_operations (execution_mode_meta s));
  let widen a := if negb native && (a =? 2) then 4 else a in
  mret (match x with
        | IntegerType w => widen (w / 8)
        | BaseType HalfTyID => widen 2
        | BaseType FloatTyID => 4
        | BaseType DoubleTyID => 8
        | _ => 1
        end).

(** * Splitting an offset *)

(** [scale * dynamic_index + bias] elements. *)
Record RawBufferAccessSplit := mkSplit { scale : Z; bias : Z; dynamic_index : option vref }.

(** Signed 64-bit results must fit. *)
Definition int64 (x : Z) : CM Z := _ ← assertM ((- 2 ^ 63 <=? x) && (x <? 2 ^ 63)); mret x.
Definition signed_integer_value (r : vref) : CM Z :=
  a ← on_llvm (Constant_getUniqueInteger r); on_llvm (APInt_getSExtValue a).
(** The size as an [int]. *)
Definition int_size (element_size : Z) : Z := signed 32 element_size.

(** A constant: rounded towards zero if the element is one component. *)
Definition split_constant (index : vref) (stride element_size vecsize : Z) : CM (option RawBufferAccessSplit) :=
  v ← signed_integer_value index;
  constant_offset ← int64 (v * stride);
  pass ← (if vecsize =? 1 then mret true
          else _ ← assertM (negb (int_size element_size =? 0)); mret (Z.rem constant_offset (int_size element_size) =? 0));
  if (pass : bool) then
    _ ← assertM (negb (element_size =? 0));
    mret (Some (mkSplit 0 (Z.quot constant_offset element_size) None))
  else mret None.

(** The local variables of the loop. *)
Record split_state := mkSplitState {
  st_index : vref;
  st_scale : option vref;
  st_bias : option vref;
  st_scale_log2 : bool;
  st_bias_is_add : bool;
  st_bias_negate : bool;
}.

Definition is_bias_operation (op : BinaryOps) : bool :=
  match op with Add | Sub | Or | Xor => true | _ => false end.
Definition is_sub (op : BinaryOps) : bool := match op with Sub => true | _ => false end.
Definition is_add (op : BinaryOps) : bool := match op with Add => true | _ => false end.

(** The operand that is a constant and the other one, the left one first. *)
Definition constant_operand_of (lhs rhs : vref) : CM (option (vref * vref)) :=
  l ← is_kind KConstantInt lhs;
  if (l : bool) then mret (Some (lhs, rhs))
  else r ← is_kind KConstantInt rhs; mret (if (r : bool) then Some (rhs, lhs) else None).

(** One round of the loop; [None]: it ends. *)
Definition split_step (st : split_state) : CM (option split_state) :=
  d ← data_of (st_index st);
  match d with
  | BinaryOperator op _ =>
      lhs ← get_operand (st_index st) 0;
      rhs ← get_operand (st_index st) 1;
      if negb (bool_decide (is_Some (st_bias st))) && is_bias_operation op then
        c ← constant_operand_of lhs rhs;
        match c with
        | None => mret None
        | Some (c, other) =>
            mret (Some (mkSplitState other (st_scale st) (Some c) (st_scale_log2 st) (is_add op || is_sub op) (is_sub op)))
        end
      else
        match op with
        | Shl =>
            c ← is_kind KConstantInt rhs;
            mret (if (c : bool)
                  then Some (mkSplitState lhs (Some rhs) (st_bias st) true (st_bias_is_add st) (st_bias_negate st))
                  else None)
        | Mul =>
            c ← constant_operand_of lhs rhs;
            match c with
            | None => mret None
            | Some (c, other) =>
                mret (Some (mkSplitState other (Some c) (st_bias st) false (st_bias_is_add st) (st_bias_negate st)))
            end
        | _ => mret None
        end
  | _ => mret None
  end.

(** Each round but the last finds the bias or the scale, so three are enough. *)
Fixpoint split_loop (fuel : nat) (st : split_state) : CM split_state :=
  match fuel with
  | O => ubM
  | S fuel' =>
      match st_scale st with
      | Some _ => mret st
      | None => next ← split_step st; match next with Some st' => split_loop fuel' st' | None => mret st end
      end
  end.

Definition split_scale (st : split_state) : CM Z :=
  match st_scale st with
  | None => mret 1
  | Some c =>
      v ← integer_value c;
      if st_scale_log2 st then _ ← assertM (v <? 64); mret (u64 (Z.shiftl 1 v)) else mret v
  end.
Definition split_bias (st : split_state) : CM Z :=
  match st_bias st with
  | None => mret 0
  | Some c => v ← signed_integer_value c; if st_bias_negate st then int64 (- v) else mret v
  end.

Definition split_dynamic (st : split_state) (stride element_size : Z) : CM (option RawBufferAccessSplit) :=
  _ ← assertM (negb (element_size =? 0));
  match st_scale st, st_bias st with
  | None, None =>
      mret (if stride mod element_size =? 0 then Some (mkSplit (stride / element_size) 0 (Some (st_index st))) else None)
  | _, _ =>
      scale_factor ← split_scale st;
      bias_factor ← split_bias st;
      if negb (st_bias_is_add st) && negb (Z.land scale_factor (u64 bias_factor) =? 0) then mret None
      else
        let scale_factor := u64 (scale_factor * stride) in
        bias_factor ← int64 (bias_factor * stride);
        if (scale_factor mod element_size =? 0) && (Z.rem bias_factor element_size =? 0) then
          mret (Some (mkSplit (scale_factor / element_size) (Z.quot bias_factor (int_size element_size)) (Some (st_index st))))
        else mret None
  end.

(** A split of [stride * index] into elements of [vecsize] components. *)
Definition extract_raw_buffer_access_split (index : vref) (stride addr_shift_log2 vecsize : Z)
    : CM (option RawBufferAccessSplit) :=
  _ ← assertM (addr_shift_log2 <? 32);
  let element_size := u32 (Z.shiftl 1 addr_shift_log2 * vecsize) in
  constant ← is_kind KConstantInt index;
  if (constant : bool) then split_constant index stride element_size vecsize
  else
    st ← split_loop 3 (mkSplitState index None None false false false);
    split_dynamic st stride element_size.

(** [SplitScaleBias]; the default has no index. *)
Record SplitScaleBias := mkScaleBias { stride : Z; split_index : option vref; elem : Z }.

(** Only additions are followed; a chain of them is no longer than the heap. *)
Fixpoint scale_bias_walk (fuel : nat) (r : vref) : CM SplitScaleBias :=
  match fuel with
  | O => ubM
  | S fuel' =>
      c ← constant_int r;
      match c with
      | Some v => mret (mkScaleBias 0xffffffff None (u32 v))
      | None =>
          d ← data_of r;
          match d with
          | BinaryOperator Add _ =>
              lhs ← get_operand r 0; c0 ← constant_int lhs;
              rhs ← get_operand r 1; c1 ← constant_int rhs;
              match c0, c1 with
              | Some v, None => x ← scale_bias_walk fuel' rhs; mret (mkScaleBias (stride x) (split_index x) (u32 (elem x + v)))
              | None, Some v => x ← scale_bias_walk fuel' lhs; mret (mkScaleBias (stride x) (split_index x) (u32 (elem x + v)))
              | _, _ => mret (mkScaleBias 0 None 0)
              end
          | BinaryOperator Mul _ =>
              lhs ← get_operand r 0; c0 ← constant_int lhs;
              rhs ← get_operand r 1; c1 ← constant_int rhs;
              match c0, c1 with
              | Some v, None => mret (mkScaleBias (u32 v) (Some rhs) 0)
              | None, Some v => mret (mkScaleBias (u32 v) (Some lhs) 0)
              | _, _ => mret (mkScaleBias 0 None 0)
              end
          | _ => mret (mkScaleBias 0 None 0)
          end
      end
  end.
Definition split_index_scale_bias (r : vref) : CM SplitScaleBias :=
  n ← gets (fun s => length (v_values (llvm s))); scale_bias_walk (S n) r.

(** * Code *)

Definition ExpectAssumeQuestionableBABOverflow : Z := 1234000011.

Section code.
Context `{FreshMemory} `{HelperCallIds}.

(** A 64-bit number in two words and a word. *)
Definition emit_u32x2_u32_add (u32x2_value u32_value : Z) : CM Z :=
  uint_type ← u32_type;
  base_addr_lo ← extract uint_type u32x2_value 0;
  base_addr_hi ← extract uint_type u32x2_value 1;
  struct_type ← get_struct_type [uint_type; uint_type] 0 "AddCarry";
  add_op ← allocate_typed OpIAddCarry struct_type;
  _ ← arg_ids add_op [base_addr_lo; u32_value];
  _ ← add add_op;
  add_id ← id_of add_op;
  lo ← extract uint_type add_id 0;
  carry ← extract uint_type add_id 1;
  hi_op ← allocate_typed OpIAdd uint_type;
  hi ← finish hi_op [mret base_addr_hi; mret carry];
  build_vector uint_type [lo; hi].

(** ** The index of an element *)

Definition build_index_divider_fallback (offset : vref) (addr_shift_log2 : Z) : CM Z :=
  t ← u32_type;
  o ← allocate_typed OpShiftRightLogical t;
  finish o [get_id_for_value offset; u32_const addr_shift_log2].

(** [split.dynamic_index * split.scale + split.bias] *)
Definition build_split_index (sp : RawBufferAccessSplit) (index : vref) : CM Z :=
  scaled_id ← (if negb (scale sp =? 1) then
                 t ← u32_type;
                 o ← allocate_typed OpIMul t;
                 finish o [get_id_for_value index; u32_const (u32 (scale sp))]
               else get_id_for_value index);
  if negb (bias sp =? 0) then
    t ← u32_type;
    o ← allocate_typed (if 0 <? bias sp then OpIAdd else OpISub) t;
    finish o [mret scaled_id; u32_const (u32 (Z.abs (bias sp)))]
  else mret scaled_id.

(** The multiplication wraps around in the shader but may not in the address computation. *)
Definition wrap_byte_address (index_id addr_shift_log2 vecsize : Z) : CM Z :=
  _ ← assertM (Z.land vecsize (u32 (vecsize - 1)) =? 0);
  call_id ← get_helper_call_id ByteAddressMask;
  t ← u32_type;
  mask ← allocate_typed OpFunctionCall t;
  mask_id ← finish mask [mret call_id; mret index_id; u32_const (u32 (Z.shiftl vecsize addr_shift_log2))];
  info ← gets (fun s => instrumentation_info (options s));
  _ ← (if enabled info && bool_decide (instrumentation_type info = ExpectAssume) then
         b ← on_spv makeBoolType;
         check_invariance ← allocate_typed OpIEqual b;
         check_id ← finish check_invariance [mret mask_id; mret index_id];
         assert_op ← allocate_plain OpAssumeTrueKHR;
         _ ← finish assert_op [mret check_id; u32_const ExpectAssumeQuestionableBABOverflow];
         mret tt
       else mret tt);
  mret mask_id.

Definition build_index_divider (offset : vref) (addr_shift_log2 vecsize : Z) (byte_address_wrap : bool) : CM Z :=
  split ← extract_raw_buffer_access_split offset 1 addr_shift_log2 vecsize;
  match split with
  | Some sp =>
      match dynamic_index sp with
      | None => u32_const (u32 (bias sp))
      | Some index =>
          index_id ← build_split_index sp index;
          if byte_address_wrap then wrap_byte_address index_id addr_shift_log2 vecsize else mret index_id
      end
  | None =>
      _ ← assertM (vecsize =? 1);
      build_index_divider_fallback offset addr_shift_log2
  end.

(** ** Memory qualifiers *)

Definition OpImageRead : Z := 98.
Definition OpImageWrite : Z := 99.
Definition OpImageSparseRead : Z := 320.
Record ReferenceVkMemoryModel := mkVkmm { non_private : bool; auto_visibility : bool }.

(** The argument that holds the flags, the one for private memory and the one for visibility. *)
Definition vkmm_flags (code : Z) : option (Z * Z * Z) :=
  if code =? OpLoad then Some (1, 0x20, 0x10)
  else if code =? OpStore then Some (2, 0x20, 0x8)
  else if code =? OpCooperativeMatrixLoadKHR then Some (3, 0x20, 0x10)
  else if code =? OpCooperativeMatrixStoreKHR then Some (4, 0x20, 0x8)
  else if bool_decide (code ∈ [OpImageRead; OpImageSparseRead]) then Some (2, 0x400, 0x200)
  else if code =? OpImageWrite then Some (3, 0x400, 0x100)
  else None.
Definition ScopeQueueFamily : Z := 5.

Definition add_vkmm_access_qualifiers (o : opref) (vkmm : ReferenceVkMemoryModel) : CM unit :=
  vulkan ← gets (fun s => vulkan_memory_model (execution_mode_meta s));
  x ← on_spirv (op_at o);
  match if vulkan : bool then vkmm_flags (op x) else None with
  | None => mret tt
  | Some (index, non_private_flag, visibility_flag) =>
      let mm_flags := Z.lor (if non_private vkmm then non_private_flag else 0) (if auto_visibility vkmm then visibility_flag else 0) in
      if mm_flags =? 0 then mret tt
      else
        _ ← modify_op o (fun x => if index <? num_arguments x
                                  then a ← argument x index; set_argument x index (Z.lor a mm_flags)
                                  else add_literal fresh_words x mm_flags);
        if auto_visibility vkmm then c ← u32_const ScopeQueueFamily; arg_id o c else mret tt
  end.
End code.

(** The components of a mask without gaps; the assertion: the mask starts at the first. *)
Definition access_mask_to_vecsize (mask : Z) : res Z :=
  match list_find (fun x => Z.land mask x.2 = x.2) [(4, 0xf); (3, 0x7); (2, 0x3); (1, 0x1)] with
  | Some (_, x) => Ok x.1
  | None => UB
  end.
