(* ===== verification/RawAccess.v ===== *)
(** The index of an element in a raw or structured buffer (DxilCommon.v).

    [reads s word r] describes an offset: the constants and operations that the search looks at, and
    the number [word r] that each value is at run time. *)
From S2P Require Import Prelude.
From S2P Require Import LLVMType.
From S2P Require Import LLVMValue.
From S2P Require Import ModuleContext.
From S2P Require Import IR.
From S2P Require Import CFGNode.
From S2P Require Import SpvBuilder.
From S2P Require Import Instrumentation.
From S2P Require Import SPIRVModule.
From S2P Require Import BuilderView.
From S2P Require Import SpvEval.
From S2P Require Import EmissionSpec.
From S2P Require Import Converter.
From S2P Require Import ConverterReads.
From S2P Require Import LLVMBuiltins.
From S2P Require Import Instructions.
From S2P Require Import Arithmetic.
From S2P Require Import OpEval.
From S2P Require Import BuilderMakes.
From S2P Require Import EmitLogic.
From S2P Require Import BDATheorems.
From S2P Require Import IntrinsicTheorems.
From S2P Require Import DxilCommon.
Local Open Scope Z_scope.
Local Open Scope dxil_scope.

(** * Offsets *)

Definition is_constant (s : ConverterImpl) (r : vref) : Prop :=
  exists v, value_is s r v /\ val_kind v = KConstantInt.

(** The operations the search knows, on 32-bit words. *)
Definition word_of_operation (op : BinaryOps) (x y : Z) : option Z :=
  match op with
  | Add => Some ((x + y) mod 2 ^ 32)
  | Sub => Some ((x - y) mod 2 ^ 32)
  | Mul => Some ((x * y) mod 2 ^ 32)
  | Shl => Some (Z.shiftl x y mod 2 ^ 32)
  | Or => Some (Z.lor x y)
  | Xor => Some (Z.lxor x y)
  | _ => None
  end.

(** The operations that the search takes for a sum with a constant, or for a product with one: the
    bits of an [or] must not overlap, and nothing may be subtracted from a constant.  Constants are folded before, and shifts by the width or more have
    no defined result. *)
Definition sums_exactly (s : ConverterImpl) (word : vref -> Z) (op : BinaryOps) (a b : vref) : Prop :=
  ~ (is_constant s a /\ is_constant s b) /\
  match op with
  | Or | Xor => is_constant s a \/ is_constant s b -> Z.land (word a) (word b) = 0
  | Sub => ~ is_constant s a
  | Shl => is_constant s b -> word b < 32
  | _ => True
  end.

Inductive reads (s : ConverterImpl) (word : vref -> Z) : vref -> Prop :=
| reads_constant r v t value : value_is s r v -> val_data v = ConstantInt value -> val_type v = Some t ->
    type_heap (v_types (llvm s)) !! t = Some (IntegerType 32) -> 0 <= value < 2 ^ 64 ->
    word r = wrap 32 value -> reads s word r
| reads_operation r v op fast a b : value_is s r v -> val_data v = BinaryOperator op fast ->
    Instruction_getOperand r 0 (llvm s) = Ok (Some a, llvm s) ->
    Instruction_getOperand r 1 (llvm s) = Ok (Some b, llvm s) ->
    reads s word a -> reads s word b -> sums_exactly s word op a b ->
    (forall x, word_of_operation op (word a) (word b) = Some x -> word r = x) -> reads s word r
| reads_other r v : value_is s r v -> val_kind v <> KConstantInt -> val_kind v <> KBinaryOperator ->
    val_kind v <> KConstantExpr -> reads s word r.

Lemma signed_range w v : 0 < w -> - 2 ^ (w - 1) <= signed w v < 2 ^ (w - 1).
Proof.
  intros Hw. pose proof (wrap_range w v ltac:(lia)) as Hr. replace (2 ^ w) with (2 * 2 ^ (w - 1)) in Hr by (rewrite <- Z.pow_succ_r by lia; f_equal; lia).
  unfold signed. replace (2 ^ w) with (2 * 2 ^ (w - 1)) by (rewrite <- Z.pow_succ_r by lia; f_equal; lia). bool_case; lia.
Qed.
Lemma signed_mod w v : 0 < w -> signed w v mod 2 ^ w = wrap w v.
Proof.
  intros Hw. pose proof (wrap_range w v ltac:(lia)) as Hr. unfold signed. bool_case; [|by apply Z.mod_small].
  rewrite <- (Z_mod_plus_full _ 1). rewrite <- (Z.mod_small (wrap w v) (2 ^ w)) at 2 by done. f_equal. lia.
Qed.

Section split.
Context (s : ConverterImpl) (word : vref -> Z).
Hypothesis Hword : forall r, 0 <= word r < 2 ^ 32.


(** ** Reading *)

Lemma operand_run r v i o : value_is s r v -> val_kind v = KBinaryOperator ->
  Instruction_getOperand r i (llvm s) = Ok (Some o, llvm s) -> get_operand r i s = Ok (o, s).
Proof.
  intros Hv Hk Ho. unfold get_operand. rewrite (bindM_run _ _ _ _ _ (data_run _ _ _ Hv)).
  unfold val_kind in Hk. destruct (val_data v); try done.
  by rewrite (bindM_run _ _ _ _ _ (read_run _ _ _ Ho)).
Qed.

Lemma reads_value r : reads s word r -> exists v, value_is s r v.
Proof. by destruct 1; eexists. Qed.
Lemma reads_is_kind r : reads s word r -> exists v, value_is s r v /\
  is_kind KConstantInt r s = Ok (bool_decide (val_kind v = KConstantInt), s).
Proof. intros [v Hv]%reads_value. exists v. split; [done|by apply is_kind_run]. Qed.

Lemma constant_decided r v : value_is s r v -> is_constant s r <-> val_kind v = KConstantInt.
Proof. intros Hv. split; [intros (w & Hw & Hk); unfold value_is in *; congruence|intros Hk; by exists v]. Qed.

(** Both readings of a constant. *)
Lemma constant_reads r : reads s word r -> is_constant s r ->
  integer_value r s = Ok (word r, s) /\
  exists x, signed_integer_value r s = Ok (x, s) /\ - 2 ^ 31 <= x < 2 ^ 31 /\ x mod 2 ^ 32 = word r.
Proof.
  intros Hr (w & Hw & Hk). destruct Hr as [r v t value Hv Hd Ht Hh Hrange Hword'|r v op fast a b Hv Hd|r v Hv Hn]; [| |].
  - assert (Constant_getUniqueInteger r (llvm s) = Ok (mkAPInt (Some t) value, llvm s)) as E.
    { unfold Constant_getUniqueInteger. by rewrite (bindM_run _ _ _ _ _ (value_at_run _ _ _ Hv)), Hd, Ht. }
    assert (APInt_width (mkAPInt (Some t) value) (llvm s) = Ok (32, llvm s)) as W.
    { unfold APInt_width, deref_type. cbn [apint_type]. rewrite (bindM_run _ _ _ (IntegerType 32) (llvm s)); [done|].
      rewrite (bindM_run _ _ _ t (llvm s)) by done. apply read_types, read_type, Hh. }
    destruct (extension_values 32 value ltac:(lia) Hrange) as [Es Ez].
    unfold integer_value, signed_integer_value. rewrite !(bindM_run _ _ _ _ _ (read_run _ _ _ E)). split.
    + apply read_run. unfold APInt_getZExtValue. rewrite (bindM_run _ _ _ _ _ W). cbn [apint_value]. by rewrite Ez, Hword'.
    + exists (signed 32 value). split; [|split; [exact (signed_range 32 value ltac:(lia))|by rewrite signed_mod, Hword' by lia]].
      apply read_run. unfold APInt_getSExtValue. rewrite (bindM_run _ _ _ _ _ W). cbn [apint_value]. by rewrite Es.
  - assert (w = v) as -> by (unfold value_is in *; congruence). unfold val_kind in Hk. by rewrite Hd in Hk.
  - assert (w = v) as -> by (unfold value_is in *; congruence). done.
Qed.

Lemma constant_operand_run a b : reads s word a -> reads s word b ->
  exists o, constant_operand_of a b s = Ok (o, s) /\
    forall c other, o = Some (c, other) ->
      is_constant s c /\ ((c = a /\ other = b) \/ (c = b /\ other = a /\ ~ is_constant s a)).
Proof.
  intros Ha Hb. destruct (reads_is_kind _ Ha) as (va & Hva & Ka), (reads_is_kind _ Hb) as (vb & Hvb & Kb).
  unfold constant_operand_of. rewrite (bindM_run _ _ _ _ _ Ka). clear Ka. destruct (bool_decide_reflect (val_kind va = KConstantInt)) as [Ea|Ea].
  { eexists. split; [done|]. intros c other [= <- <-]. split; [by exists va|by left]. }
  rewrite (bindM_run _ _ _ _ _ Kb). destruct (bool_decide_reflect (val_kind vb = KConstantInt)) as [Eb|Eb].
  - eexists. split; [done|]. intros c other [= <- <-]. split; [by exists vb|]. right. split_and!; [done..|].
    by intros H%(constant_decided _ _ Hva).
  - eexists. split; [done|]. by intros c other [=].
Qed.

(** ** The loop *)

Definition factor (st : split_state) : Z :=
  match st_scale st with None => 1 | Some c => if st_scale_log2 st then 2 ^ word c else word c end.
Definition offset (st : split_state) : Z :=
  match st_bias st with None => 0 | Some c => if st_bias_negate st then - word c else word c end.

(** What was split off and what is left make up the offset [root]. *)
Record splits (root : vref) (st : split_state) : Prop := {
  sp_index : reads s word (st_index st);
  sp_dynamic : ~ is_constant s (st_index st);
  sp_scale : forall c, st_scale st = Some c -> reads s word c /\ is_constant s c /\ (st_scale_log2 st = true -> word c < 32);
  sp_bias : forall c, st_bias st = Some c -> reads s word c /\ is_constant s c;
  sp_word : exists k, word root = factor st * word (st_index st) + offset st + k * 2 ^ 32;
}.

Lemma or_is_sum x y : Z.land x y = 0 -> Z.lor x y = x + y.
Proof. intros H. by rewrite Z.add_nocarry_lxor, Z.lxor_lor. Qed.
Lemma xor_is_sum x y : Z.land x y = 0 -> Z.lxor x y = x + y.
Proof. intros H. by rewrite Z.add_nocarry_lxor. Qed.
Lemma mod_quotient x y : y = x mod 2 ^ 32 -> exists k, y = x + k * 2 ^ 32.
Proof. intros ->. exists (- (x / 2 ^ 32)). pose proof (Z.div_mod x (2 ^ 32) ltac:(lia)). lia. Qed.

(** The sum that a bias operation is. *)
Lemma bias_operation_sum op a b c other x :
  is_bias_operation op = true -> sums_exactly s word op a b -> word_of_operation op (word a) (word b) = Some x ->
  is_constant s c -> (c = a /\ other = b) \/ (c = b /\ other = a /\ ~ is_constant s a) ->
  exists k, x = word other + (if is_sub op then - word c else word c) + k * 2 ^ 32.
Proof.
  intros Hop [_ Hs] Hx Hc Hcase.
  assert (is_constant s a \/ is_constant s b) as Hab by (destruct Hcase as [[<- _]|[<- _]]; auto).
  destruct op; try done; cbn in Hx; injection Hx as <-; cbn [is_sub].
  - destruct (mod_quotient (word a + word b) _ eq_refl) as [k Hk]. exists k. rewrite Hk. destruct Hcase as [[-> ->]|(-> & -> & _)]; lia.
  - destruct (mod_quotient (word a - word b) _ eq_refl) as [k Hk]. exists k. rewrite Hk. destruct Hcase as [[-> ->]|(-> & -> & _)]; [by destruct Hs|lia].
  - exists 0. rewrite or_is_sum by auto. destruct Hcase as [[-> ->]|(-> & -> & _)]; lia.
  - exists 0. rewrite xor_is_sum by auto. destruct Hcase as [[-> ->]|(-> & -> & _)]; lia.
Qed.

(** A round keeps the sum and finds the bias or the scale. *)
Definition to_find (st : split_state) : nat :=
  (match st_scale st with None => 1 | _ => 0 end + match st_bias st with None => 1 | _ => 0 end)%nat.

Lemma other_dynamic op a b c other : sums_exactly s word op a b -> is_constant s c ->
  (c = a /\ other = b) \/ (c = b /\ other = a /\ ~ is_constant s a) -> ~ is_constant s other.
Proof. intros [Hn _] Hc [[-> ->]|(-> & -> & H)]; [|done]. intros Hb. by apply Hn. Qed.

Lemma split_step_run root st : splits root st -> st_scale st = None ->
  exists o, split_step st s = Ok (o, s) /\ forall st', o = Some st' -> splits root st' /\ (to_find st' < to_find st)%nat.
Proof.
  intros [Hi Hd _ Hb [k Hk]] Hsc. unfold factor in Hk. rewrite Hsc in Hk. unfold split_step.
  destruct Hi as [r v t value Hv Hvd|r v op fast a b Hv Hvd Ha Hbb Ra Rb Hs Hw|r v Hv Hn1 Hn2].
  { destruct Hd. apply (constant_decided _ _ Hv). unfold val_kind. by rewrite Hvd. }
  2:{ rewrite (bindM_run _ _ _ _ _ (data_run _ _ _ Hv)). unfold val_kind in Hn2.
      destruct (val_data v); first [by destruct Hn2|exists None; by split]. }
  assert (val_kind v = KBinaryOperator) as Kv by (unfold val_kind; by rewrite Hvd).
  rewrite (bindM_run _ _ _ _ _ (data_run _ _ _ Hv)), Hvd.
  rewrite (bindM_run _ _ _ _ _ (operand_run _ _ _ _ Hv Kv Ha)), (bindM_run _ _ _ _ _ (operand_run _ _ _ _ Hv Kv Hbb)).
  destruct (constant_operand_run a b Ra Rb) as (o & Eo & Ho).
  assert (forall c other, o = Some (c, other) -> reads s word c /\ reads s word other /\ ~ is_constant s other) as Hro.
  { intros c other E. destruct (Ho c other E) as [Hc Hcase]. split_and!; [| |by eapply other_dynamic]; by destruct Hcase as [[-> ->]|(-> & -> & _)]. }
  destruct (negb (bool_decide (is_Some (st_bias st))) && is_bias_operation op) eqn:Hc.
  - apply andb_true_iff in Hc as [Hnb%negb_true_iff%bool_decide_eq_false Hop]. apply eq_None_not_Some in Hnb.
    rewrite (bindM_run _ _ _ _ _ Eo). destruct o as [[c other]|]; [|by eexists; split; [done|intros ? [=]]].
    destruct (Hro c other eq_refl) as (Rc & Ro & Nc), (Ho c other eq_refl) as [Hcc Hcase].
    eexists. split; [done|]. intros st' [= <-]. split; [|unfold to_find; cbn; rewrite Hsc, Hnb; lia].
    split; cbn; [done|done|by rewrite Hsc|by intros x [= <-]|].
    destruct (word_of_operation op (word a) (word b)) as [x|] eqn:Ex; [|by destruct op].
    destruct (bias_operation_sum _ _ _ _ _ _ Hop Hs Ex Hcc Hcase) as [j Hj].
    exists (k + j). unfold factor, offset. cbn. rewrite Hsc. unfold offset in Hk. rewrite Hnb in Hk. rewrite Hk, (Hw x eq_refl). lia.
  - destruct op; try (by eexists; split; [done|intros ? [=]]).
    + rewrite (bindM_run _ _ _ _ _ Eo). destruct o as [[c other]|]; [|by eexists; split; [done|intros ? [=]]].
      destruct (Hro c other eq_refl) as (Rc & Ro & Nc), (Ho c other eq_refl) as [Hcc Hcase].
      eexists. split; [done|]. intros st' [= <-]. split; [|unfold to_find; cbn; rewrite Hsc; lia].
      split; cbn; [done|done|by intros x [= <-]|done|].
      destruct (mod_quotient (word a * word b) _ eq_refl) as [j Hj]. rewrite <- (Hw _ eq_refl) in Hj.
      exists (k + j). unfold factor, offset in *. cbn. rewrite Hk, Hj. destruct Hcase as [[-> ->]|(-> & -> & _)]; lia.
    + destruct (reads_is_kind _ Rb) as (vb & Hvb & Kb). rewrite (bindM_run _ _ _ _ _ Kb).
      destruct (bool_decide_reflect (val_kind vb = KConstantInt)) as [Eb|Eb]; [|by eexists; split; [done|intros ? [=]]].
      assert (is_constant s b) as Hcb by by exists vb. destruct Hs as [Hs1 Hs2].
      eexists. split; [done|]. intros st' [= <-]. split; [|unfold to_find; cbn; rewrite Hsc; lia].
      split; cbn; [done|by intros ?; apply Hs1|intros x [= <-]; auto|done|].
      destruct (mod_quotient (Z.shiftl (word a) (word b)) _ eq_refl) as [j Hj]. rewrite <- (Hw _ eq_refl) in Hj.
      rewrite Z.shiftl_mul_pow2 in Hj by apply Hword.
      exists (k + j). unfold factor, offset in *. cbn. rewrite Hk, Hj. lia.
Qed.

Lemma split_loop_run fuel root st : splits root st -> (to_find st < fuel)%nat ->
  exists st', split_loop fuel st s = Ok (st', s) /\ splits root st'.
Proof.
  revert st. induction fuel as [|fuel IH]; intros st H Hf; [lia|]. cbn [split_loop].
  destruct (st_scale st) as [c|] eqn:Hsc; [by exists st|].
  destruct (split_step_run root st H Hsc) as (o & Eo & Ho). rewrite (bindM_run _ _ _ _ _ Eo).
  destruct o as [st'|]; [|by exists st]. destruct (Ho st' eq_refl) as [H' Hlt]. apply IH; [done|lia].
Qed.

(** ** The result *)

Lemma split_scale_run root st : splits root st -> split_scale st s = Ok (factor st, s) /\ 0 <= factor st < 2 ^ 32.
Proof.
  intros [_ _ Hs _ _]. unfold split_scale, factor. destruct (st_scale st) as [c|]; [|by split].
  destruct (Hs c eq_refl) as (Rc & Cc & Hlog). destruct (constant_reads _ Rc Cc) as [Ei _].
  rewrite (bindM_run _ _ _ _ _ Ei). destruct (st_scale_log2 st); [|split; [done|apply Hword]].
  specialize (Hlog eq_refl). pose proof (Hword c). rewrite (proj2 (Z.ltb_lt _ _)) by lia.
  assert (0 < 2 ^ word c < 2 ^ 32) as Hp by (split; [apply Z.pow_pos_nonneg; lia|apply Z.pow_lt_mono_r; lia]).
  split; [|lia]. rewrite Z.shiftl_1_l. unfold u64, wrap. rewrite Z.mod_small by lia. done.
Qed.

Lemma split_bias_run root st : splits root st ->
  exists x k, split_bias st s = Ok (x, s) /\ offset st = x + k * 2 ^ 32 /\ - 2 ^ 31 <= x <= 2 ^ 31.
Proof.
  intros [_ _ _ Hb _]. unfold split_bias, offset. destruct (st_bias st) as [c|]; [|exists 0, 0; split_and!; done || lia].
  destruct (Hb c eq_refl) as (Rc & Cc). destruct (constant_reads _ Rc Cc) as (_ & x & Ex & Hx & Hm).
  pose proof (Z.div_mod x (2 ^ 32) ltac:(lia)) as Hdiv. rewrite Hm in Hdiv.
  rewrite (bindM_run _ _ _ _ _ Ex). destruct (st_bias_negate st).
  - exists (- x), (x / 2 ^ 32). split_and!; [|lia..]. unfold int64. rewrite (bindM_run _ _ _ tt s); [done|].
    unfold assertM, lift. rewrite (proj2 (Z.leb_le _ _)), (proj2 (Z.ltb_lt _ _)) by lia. done.
  - exists x, (- (x / 2 ^ 32)). split_and!; [done|lia..].
Qed.

Definition dynamic_word (sp : RawBufferAccessSplit) : Z := match dynamic_index sp with Some r => word r | None => 0 end.

(** [stride] times the offset in elements of [size] bytes. *)
Definition in_elements (root : vref) (stride size : Z) (sp : RawBufferAccessSplit) : Prop :=
  (stride * word root) mod 2 ^ 32 = (size * (scale sp * dynamic_word sp + bias sp)) mod 2 ^ 32.

Lemma congruent x y k : x = y + k * 2 ^ 32 -> x mod 2 ^ 32 = y mod 2 ^ 32.
Proof. intros ->. apply Z_mod_plus_full. Qed.

Lemma int64_run x : - 2 ^ 63 <= x < 2 ^ 63 -> int64 x s = Ok (x, s).
Proof.
  intros Hx. unfold int64. rewrite (bindM_run _ _ _ tt s); [done|].
  unfold assertM, lift. rewrite (proj2 (Z.leb_le _ _)), (proj2 (Z.ltb_lt _ _)) by lia. done.
Qed.
Lemma size_nonzero size : 0 < size -> assertM (S := ConverterImpl) (negb (size =? 0)) s = Ok (tt, s).
Proof. intros Hs. unfold assertM, lift. by rewrite (proj2 (Z.eqb_neq _ _)) by lia. Qed.

Lemma split_dynamic_run root st stride size :
  splits root st -> 0 <= stride < 2 ^ 32 -> 0 < size < 2 ^ 31 ->
  exists o, split_dynamic st stride size s = Ok (o, s) /\ forall sp, o = Some sp -> in_elements root stride size sp /\
    exists r, dynamic_index sp = Some r /\ st_index st = r.
Proof.
  intros H Hstride Hsize. pose proof (sp_word _ _ H) as [k Hk].
  destruct (split_scale_run root st H) as [Ef Hf], (split_bias_run root st H) as (x & j & Eb & Hj & Hx).
  assert (int_size size = size) as Hint.
  { unfold int_size, signed, wrap. rewrite Z.mod_small by lia. bool_case; lia. }
  unfold split_dynamic. rewrite (bindM_run _ _ _ _ _ (size_nonzero size ltac:(lia))).
  set (general := scale_factor ← split_scale st; _).
  assert (exists o, general s = Ok (o, s) /\ forall sp, o = Some sp -> in_elements root stride size sp /\
    exists r, dynamic_index sp = Some r /\ st_index st = r) as Hgeneral.
  { unfold general. rewrite (bindM_run _ _ _ _ _ Ef), (bindM_run _ _ _ _ _ Eb).
    destruct (negb (st_bias_is_add st) && _); [by exists None|]. cbv zeta.
    assert (factor st * stride < 2 ^ 64) by (change (2 ^ 64) with (2 ^ 32 * 2 ^ 32); nia).
    replace (u64 (factor st * stride)) with (factor st * stride) by (unfold u64, wrap; rewrite Z.mod_small by nia; done).
    rewrite (bindM_run _ _ _ _ _ (int64_run (x * stride) ltac:(change (2 ^ 63) with (2 ^ 31 * 2 ^ 32); nia))).
    destruct (factor st * stride mod size =? 0) eqn:H1; [|by exists None].
    destruct (Z.rem (x * stride) size =? 0) eqn:H2; [|by exists None]. apply Z.eqb_eq in H1, H2.
    eexists. split; [done|]. intros sp [= <-]. split; [|by eexists]. unfold in_elements, dynamic_word. cbn. rewrite Hint.
    apply (congruent _ _ (stride * (k + j))).
    pose proof (Z.quot_rem' (x * stride) size) as Q. pose proof (Z.div_mod (factor st * stride) size ltac:(lia)) as D.
    rewrite H2 in Q. rewrite H1 in D. rewrite Z.mul_add_distr_l, Z.mul_assoc.
    replace (size * (factor st * stride / size)) with (factor st * stride) by lia.
    replace (size * Z.quot (x * stride) size) with (x * stride) by lia. rewrite Hk, Hj. lia. }
  destruct (st_scale st) eqn:Hsc; [exact Hgeneral|]. destruct (st_bias st) eqn:Hbi; [exact Hgeneral|].
  clear Hgeneral. eexists. split; [done|]. intros sp Hsp. destruct (stride mod size =? 0) eqn:Hm; [|done].
  injection Hsp as <-. apply Z.eqb_eq in Hm. split; [|by eexists]. unfold in_elements, dynamic_word. cbn.
  apply (congruent _ _ (stride * k)). unfold factor, offset in Hk. rewrite Hsc, Hbi in Hk.
  pose proof (Z.div_mod stride size ltac:(lia)) as D. rewrite Hm in D.
  replace (size * (stride / size * word (st_index st) + 0)) with (size * (stride / size) * word (st_index st)) by lia.
  replace (size * (stride / size)) with stride by lia. rewrite Hk. lia.
Qed.

Lemma split_constant_run index stride size vecsize shift :
  reads s word index -> is_constant s index -> 0 <= stride < 2 ^ 32 -> 0 < size < 2 ^ 31 ->
  (vecsize = 1 -> size = 2 ^ shift /\ 0 <= shift < 32 /\ (stride * word index) mod size = 0) ->
  exists o, split_constant index stride size vecsize s = Ok (o, s) /\
    (vecsize = 1 -> is_Some o) /\
    forall sp, o = Some sp -> in_elements index stride size sp /\ dynamic_index sp = None.
Proof.
  intros Hr Hc Hstride Hsize Hone. destruct (constant_reads _ Hr Hc) as (_ & x & Ex & Hx & Hm).
  pose proof (Z.div_mod x (2 ^ 32) ltac:(lia)) as Hdiv. rewrite Hm in Hdiv.
  assert (int_size size = size) as Hint.
  { unfold int_size, signed, wrap. rewrite Z.mod_small by lia. bool_case; lia. }
  unfold split_constant. rewrite (bindM_run _ _ _ _ _ Ex).
  rewrite (bindM_run _ _ _ _ _ (int64_run (x * stride) ltac:(change (2 ^ 63) with (2 ^ 31 * 2 ^ 32); nia))).
  rewrite Hint. set (pass := if vecsize =? 1 then _ else _).
  assert (exists b : bool, pass s = Ok (b, s) /\ (vecsize = 1 -> b = true) /\ (b = true -> Z.rem (x * stride) size = 0))
    as (b & Ep & Hb1 & Hb).
  { unfold pass. destruct (Z.eqb_spec vecsize 1) as [E|E].
    - exists true. split; [done|]. split; [done|]. intros _. destruct (Hone E) as (Es & Hshift & Hal).
      apply Z.rem_divide; [lia|]. apply Z.mod_divide in Hal; [|lia].
      replace (x * stride) with (stride * word index + (stride * (x / 2 ^ 32)) * 2 ^ 32) by lia.
      apply Z.divide_add_r; [done|]. apply Z.divide_mul_r. exists (2 ^ (32 - shift)). rewrite Es, <- Z.pow_add_r by lia. f_equal. lia.
    - exists (Z.rem (x * stride) size =? 0). split; [|split; [by intros ?|by intros ?%Z.eqb_eq]].
      by rewrite (bindM_run _ _ _ _ _ (size_nonzero size ltac:(lia))). }
  rewrite (bindM_run _ _ _ _ _ Ep). destruct b; [|exists None; split_and!; [done|by intros ?%Hb1|done]].
  rewrite (bindM_run _ _ _ _ _ (size_nonzero size ltac:(lia))). eexists. split; [done|]. split; [by eexists|].
  intros sp [= <-]. split; [|done]. unfold in_elements, dynamic_word. cbn.
  apply (congruent _ _ (- (stride * (x / 2 ^ 32)))). pose proof (Z.quot_rem' (x * stride) size) as Q. rewrite Hb in Q by done.
  rewrite <- Z.add_0_r in Q. replace (size * Z.quot (x * stride) size) with (x * stride) by lia. lia.
Qed.

Lemma extract_run index stride shift vecsize :
  reads s word index -> 0 <= stride < 2 ^ 32 -> 0 <= shift -> 0 < vecsize -> 2 ^ shift * vecsize < 2 ^ 31 ->
  (vecsize = 1 -> is_constant s index -> (stride * word index) mod 2 ^ shift = 0) ->
  exists o, extract_raw_buffer_access_split index stride shift vecsize s = Ok (o, s) /\
    (vecsize = 1 -> is_constant s index -> is_Some o) /\
    forall sp, o = Some sp -> in_elements index stride (2 ^ shift * vecsize) sp /\
      match dynamic_index sp with
      | None => is_constant s index
      | Some r => reads s word r /\ ~ is_constant s r
      end.
Proof.
  intros Hr Hstride Hshift Hvec Hsize Hal.
  assert (0 < 2 ^ shift) as Hpos by (apply Z.pow_pos_nonneg; lia).
  assert (shift < 31) as Hlt by (apply (Z.pow_lt_mono_r_iff 2); [lia..|nia]).
  unfold extract_raw_buffer_access_split. rewrite (bindM_run _ _ _ tt s).
  2:{ unfold assertM, lift. by rewrite (proj2 (Z.ltb_lt _ _)) by lia. }
  cbv zeta. replace (u32 (Z.shiftl 1 shift * vecsize)) with (2 ^ shift * vecsize).
  2:{ unfold u32, wrap. rewrite Z.shiftl_1_l, Z.mod_small; [done|]. change (2 ^ 32) with (2 ^ 31 * 2). nia. }
  destruct (reads_is_kind _ Hr) as (v & Hv & Ek). rewrite (bindM_run _ _ _ _ _ Ek).
  destruct (bool_decide_reflect (val_kind v = KConstantInt)) as [E|E].
  - assert (is_constant s index) as Hc by by exists v.
    destruct (split_constant_run index stride (2 ^ shift * vecsize) vecsize shift) as (o & Eo & H1 & Ho); [done..|nia| |].
    + intros ->. rewrite Z.mul_1_r in *. split_and!; [done|lia..|by apply Hal].
    + exists o. split; [done|]. split; [auto|]. intros sp Hsp. destruct (Ho sp Hsp) as [? ->]. done.
  - assert (~ is_constant s index) as Hc by by intros ?%(constant_decided _ _ Hv).
    assert (splits index (mkSplitState index None None false false false)) as H0.
    { split; [done|done|done|done|]. exists 0. unfold factor, offset. cbn. lia. }
    destruct (split_loop_run 3 _ _ H0) as (st & El & Hst); [cbn; lia|]. rewrite (bindM_run _ _ _ _ _ El).
    destruct (split_dynamic_run index st stride (2 ^ shift * vecsize) Hst) as (o & Eo & Ho); [done|nia|].
    exists o. split; [done|]. split; [done|]. intros sp Hsp. destruct (Ho sp Hsp) as (? & r & Er & <-). rewrite Er. split; [done|].
    split; apply Hst.
Qed.
End split.


(** * The generated index *)

Section divider.
Context `{FreshMemory} `{HelperCallIds}.
Hypothesis fresh_length : forall n, length (fresh_words n) = n.
Variables (k : blockref) (c0 : list Instruction) (s0 : ConverterImpl) (node : nodref) (self : vref).
Variable env0 : environment.

Abbreviation emits := (emitting k c0 s0 node self env0 []) (only parsing).

(** The node got operations that give the object [id] the value [v]. *)
Definition gives (id : Z) (v : SpvEval.value) (s : ConverterImpl) : Prop :=
  exists nd nd0 refs O env,
    node_pool s0 !! node = Some nd0 /\ node_pool s !! node = Some nd /\
    operations (ir nd) = operations (ir nd0) ++ refs /\
    Forall2 (fun r i => exists x, pool s !! r = Some x /\ op_instructions x = [i]) refs O /\
    exec_ops (bd s) (glsl_std450_ext s) O env0 = Some env /\ lookup_value (bd s) env id = Some v.

Lemma emits_gives n K P slot s id v : emits n K P slot s -> Val id v ∈ K -> gives id v s.
Proof.
  intros [A0 I B C D E (refs & O & env & [X1 X2 X3 X4 X5 X6 X7 X8 X9]) G] Hv.
  destruct X1 as (nd & nd0 & ? & ? & ?). exists nd, nd0, refs, O, env. split_and!; try done.
  - apply X3; [apply grown_refl|done].
  - apply (X5 _ Hv). apply grown_refl.
Qed.

Lemma evaluates_shift K id t x y w sg u v : Glob t OpTypeInt [w; sg] ∈ K -> Val x (VInt u) ∈ K -> Val y (VInt v) ∈ K -> v < w ->
  evaluates K (mkInstruction id t OpShiftRightLogical [x; y]) (VInt (Z.shiftr u v)).
Proof.
  intros Ht Hx Hy Hv b e env Hk. destruct (knows_int _ _ _ _ Hk _ _ _ Ht) as (_ & _ & Hw).
  pose proof (knows_value _ _ _ _ Hk _ _ Hx) as Ex. pose proof (knows_value _ _ _ _ Hk _ _ Hy) as Ey.
  unfold eval_operation, arg. simpl. rewrite Hw, Ex, Ey. simpl. unfold arithmetic. cbn.
  by rewrite (proj2 (Z.ltb_lt _ _) Hv).
Qed.

(** An operation on a word and a constant. *)
Lemma runs_word_operation code a ida c x r n K slot s (Q : Z -> ConverterImpl -> Prop) :
  emits n K [] slot s -> Val ida (VInt x) ∈ K -> plain code = true -> uniqueId (bd s0) + n + 5 < 2 ^ 32 ->
  (forall K' id t y, Glob t OpTypeInt [32; 0] ∈ K' -> Val ida (VInt x) ∈ K' -> Val y (VInt c) ∈ K' ->
     evaluates K' (mkInstruction id t code [ida; y]) (VInt r)) ->
  (forall n' K' P' s', emits n' K' P' slot s' -> (forall f, f ∈ K -> f ∈ K') -> runs a s' (fun y s'' => y = ida /\ s'' = s')) ->
  (forall id s', emits (n + 4) (Val id (VInt r) :: K) [] slot s' -> Q id s') ->
  runs (t ← u32_type; o ← allocate_typed code t; finish o [a; u32_const c]) s Q.
Proof.
  intros He Hx Hp Hn Hev Ha HQ. apply runs_bind.
  eapply (runs_u32_type k c0 s0 node self env0); [exact He|lia|]. intros t s1 H1. apply runs_bind.
  eapply (runs_allocate_typed fresh_length k c0 s0 node self env0); [exact H1|eapply (glob_nonzero _ _ _ _ _ _ H1); left|lia|].
  intros o id s2 H2. apply (runs_finish_arg fresh_length k c0 s0 node self env0 _ _ (mkPending o code id t []) [] slot).
  eapply runs_mono; [eapply Ha; [exact H2|intros f Hf; mem]|]. intros y s3 [-> ->].
  split; [eapply (val_nonzero _ _ _ _ _ _ H2); mem|]. split; [simpl; lia|]. eexists _, _. split; [exact H2|].
  intros s3 H3. eapply (runs_finish_const fresh_length k c0 s0 node self env0 _ _ _ _ _ _ _ _ _ H3); [simpl; lia..|].
  intros y s4 H4. cbn in H4.
  eapply (runs_finish_nil k c0 s0 node self env0 _ _ _ _ _ _ (VInt r) _ _ H4); [mem|done|apply Hev; mem|].
  intros s5 H5. apply HQ. replace (n + 4) with (n + 1 + 1 + 2) by lia. eapply emits_weaken; [exact H5|].
  intros f [->|Hf]%elem_of_cons; mem.
Qed.

(** A value that has an id. *)
Lemma runs_known_id word r id n K P slot s (Q : Z -> ConverterImpl -> Prop) :
  emits n K P slot s -> reads s0 word r -> Id r id ∈ K -> Q id s -> runs (get_id_for_value r) s Q.
Proof.
  intros He Hr Hi HQ.
  assert (exists d, has_data s0 r d /\ get_value_kind d <> KConstantExpr) as (d & Hd & Hk).
  { destruct Hr as [r v ? ? Hv Hd|r v ? ? ? ? Hv Hd|r v Hv _ _ Hk].
    - exists (val_data v). split; [by exists v|by rewrite Hd].
    - exists (val_data v). split; [by exists v|by rewrite Hd].
    - exists (val_data v). split; [by exists v|done]. }
  by eapply (runs_get_id k c0 s0 node self env0 He r id d).
Qed.

(** [dynamic_index * scale + bias] on words. *)
Lemma runs_split_index word sp r ida n K slot s (Q : Z -> ConverterImpl -> Prop) :
  emits n K [] slot s -> reads s0 word r -> Id r ida ∈ K -> Val ida (VInt (word r)) ∈ K -> 0 <= word r < 2 ^ 32 ->
  uniqueId (bd s0) + n + 9 < 2 ^ 32 ->
  (forall n' K' id s', emits n' (Val id (VInt ((scale sp * word r + bias sp) mod 2 ^ 32)) :: K') [] slot s' -> Q id s') ->
  runs (build_split_index sp r) s Q.
Proof.
  intros He Hr Hi Hv Hw Hn HQ. unfold build_split_index. apply runs_bind.
  assert (forall m K1 id1 s1, emits (n + m) (Val id1 (VInt ((scale sp * word r) mod 2 ^ 32)) :: K1) [] slot s1 -> 0 <= m <= 4 ->
    runs (if negb (bias sp =? 0) then
            t ← u32_type;
            o ← allocate_typed (if 0 <? bias sp then OpIAdd else OpISub) t;
            finish o [mret id1; u32_const (u32 (Z.abs (bias sp)))]
          else mret id1) s1 Q) as Hbias.
  { intros m K1 id1 s1 H1 Hm. destruct (Z.eqb_spec (bias sp) 0) as [E|E]; cbn [negb].
    - apply runs_ret. eapply (HQ (n + m) K1). by rewrite E, Z.add_0_r.
    - eapply (runs_word_operation _ _ id1 (u32 (Z.abs (bias sp))) _ ((scale sp * word r + bias sp) mod 2 ^ 32)); [exact H1|mem|by destruct (0 <? bias sp)|lia| | |].
      + intros K' id t y Ht Hx Hy. eapply (evaluates_arithmetic _ _ _ _ _ _ 32 0); [|exact Ht|exact Hx|exact Hy|].
        * destruct (0 <? bias sp); repeat constructor.
        * destruct (Z.ltb_spec 0 (bias sp)); cbn; f_equal; unfold u32, wrap;
            rewrite ?Zplus_mod_idemp_l, ?Zplus_mod_idemp_r, ?Zminus_mod_idemp_l, ?Zminus_mod_idemp_r; f_equal; lia.
      + intros n' K' P' s' He' _. by apply runs_ret.
      + intros id s2 H2. by eapply HQ. }
  destruct (Z.eqb_spec (scale sp) 1) as [E|E]; cbn [negb].
  - eapply (runs_known_id word); [exact He|done|done|]. eapply (Hbias 0 K). 2: lia. rewrite Z.add_0_r.
    eapply emits_weaken; [exact He|]. intros f [->|Hf]%elem_of_cons; [|done].
    by rewrite E, Z.mul_1_l, Z.mod_small.
  - eapply (runs_word_operation _ _ ida (u32 (scale sp)) _ ((scale sp * word r) mod 2 ^ 32)); [exact He|done|done|lia| | |].
    + intros K' id t y Ht Hx Hy. eapply (evaluates_arithmetic _ _ _ _ _ _ 32 0); [|exact Ht|exact Hx|exact Hy|].
      * repeat constructor.
      * cbn; f_equal; unfold u32, wrap; rewrite Zmult_mod_idemp_r; f_equal; lia.
    + intros n' K' P' s' He' HK. eapply (runs_known_id word); [exact He'|done|by apply HK|done].
    + intros id s1 H1. eapply (Hbias 4 K); [exact H1|lia].
Qed.

(** The numbers an index may be: [2 ^ shift * vecsize] times it is the offset. *)
Definition index_of_offset (offset_word shift vecsize x : Z) : Prop :=
  0 <= x < 2 ^ 32 /\ (2 ^ shift * vecsize * x) mod 2 ^ 32 = offset_word.

(** The values whose ids the code needs: the offset, and what is left of it after the split. *)
Definition needed (offset : vref) (shift vecsize : Z) (r : vref) : Prop :=
  r = offset \/ exists sp, extract_raw_buffer_access_split offset 1 shift vecsize s0 = Ok (Some sp, s0) /\ dynamic_index sp = Some r.

Lemma index_of_split word offset shift vecsize sp :
  0 <= word offset < 2 ^ 32 -> in_elements word offset 1 (2 ^ shift * vecsize) sp ->
  index_of_offset (word offset) shift vecsize ((scale sp * dynamic_word word sp + bias sp) mod 2 ^ 32).
Proof.
  intros Hw Hin. unfold in_elements in Hin. rewrite Z.mul_1_l, (Z.mod_small (word offset)) in Hin by done.
  split; [by apply Z.mod_pos_bound|]. by rewrite Zmult_mod_idemp_r.
Qed.

Lemma shifted_index w shift : 0 <= shift -> 0 <= w < 2 ^ 32 -> w mod 2 ^ shift = 0 -> index_of_offset w shift 1 (Z.shiftr w shift).
Proof.
  intros Hs Hw Ha. assert (0 < 2 ^ shift) as Hp by by apply Z.pow_pos_nonneg. rewrite Z.shiftr_div_pow2 by done.
  pose proof (Z.div_mod w (2 ^ shift) ltac:(lia)) as D. rewrite Ha in D. split.
  - split; [apply Z.div_pos; lia|]. pose proof (Z.div_le_upper_bound w (2 ^ shift) w Hp). nia.
  - replace (2 ^ shift * 1 * (w / 2 ^ shift)) with w by lia. by apply Z.mod_small.
Qed.

End divider.

(** * A sample, and what the conditions exclude *)

(** [(i << 2) + 8], [(i << 2) | 8] and [15 - i]. *)
Definition offset_llvm : VState :=
  let int_ := Some 0%nat in
  mkV (mkTypes [IntegerType 32] [0]%nat)
    [ mkValue int_ (Argument 0) 0 [] false ∅;
      mkValue int_ (ConstantInt 2) 0 [] false ∅;
      mkValue int_ (ConstantInt 8) 0 [] false ∅;
      mkValue int_ (BinaryOperator Shl false) 0 [Some 0%nat; Some 1%nat] false ∅;
      mkValue int_ (BinaryOperator Add false) 0 [Some 3%nat; Some 2%nat] false ∅;
      mkValue int_ (BinaryOperator Or false) 0 [Some 3%nat; Some 2%nat] false ∅;
      mkValue int_ (ConstantInt 15) 0 [] false ∅;
      mkValue int_ (BinaryOperator Sub false) 0 [Some 6%nat; Some 0%nat] false ∅ ] [].
(** The ids 11 and 12 are those of [i] and of the first. *)
Definition offset_converter : ConverterImpl :=
  set_current_block (Some 0%nat) (set_node_pool [CFGNode_new]
    (set_value_map {[0%nat := 11; 4%nat := 12]}
      (ConverterImpl_new offset_llvm (ModuleContext.mkModule [] [] ∅ ∅ [])
         (set_builder sample_ids SPIRVModule_new) Options_new ExecutionModeMeta_new))).

(** The words of these values when [i] is [n]. *)
Definition offset_words (n : Z) (r : vref) : Z :=
  default 0 ([n; 2; 8; Z.shiftl n 2 mod 2 ^ 32; (Z.shiftl n 2 mod 2 ^ 32 + 8) mod 2 ^ 32; Z.lor (Z.shiftl n 2 mod 2 ^ 32) 8; 15;
              (15 - n) mod 2 ^ 32] !! r).

Lemma offset_reads : reads offset_converter (offset_words 5) 4.
Proof.
  eapply (reads_operation _ _ _ _ Add false 3 2); [done|done|by vm_compute|by vm_compute| | | |by intros x [= <-]].
  - eapply (reads_operation _ _ _ _ Shl false 0 1); [done|done|by vm_compute|by vm_compute| | | |by intros x [= <-]].
    + by eapply reads_other.
    + by eapply reads_constant.
    + split; [|done]. intros [(v & Hv & Hk) _]. vm_compute in Hv. injection Hv as <-. done.
  - by eapply reads_constant.
  - split; [|done]. intros [(v & Hv & Hk) _]. vm_compute in Hv. injection Hv as <-. done.
Qed.

Lemma offset_words_range r : 0 <= offset_words 5 r < 2 ^ 32.
Proof. do 8 (destruct r as [|r]; [by vm_compute|]). by vm_compute. Qed.

Example offset_split :
  extract_raw_buffer_access_split 4 1 2 1 offset_converter = Ok (Some (mkSplit 1 2 (Some 0%nat)), offset_converter).
Proof. by vm_compute. Qed.

Definition offset_args : list (vref * Z * SpvEval.value) := [(0%nat, 11, VInt 5); (4%nat, 12, VInt 28)].

Lemma offset_ready : ready_to_emit 0 [label 7] offset_converter 0 99 (sample_environment [5; 28]) offset_args.
Proof.
  split; try done.
  - split; [by apply wf_by_computation; vm_compute|done|done|by apply ids_given_by_computation; vm_compute].
  - intros x []%elem_of_nil.
  - by exists CFGNode_new.
  - apply (sample_environment_ok [5; 28]). simpl. lia.
  - intros x [->|[->|[]%elem_of_nil]%elem_of_cons]%elem_of_cons; (split_and!; [done|done|]).
    + by apply (sample_value [5; 28] 0).
    + by apply (sample_value [5; 28] 1).
Qed.

#[local] Instance sample_memory : FreshMemory := fun n => replicate n 0.
Lemma length_replicate_memory n : length (fresh_words n) = n.
Proof. apply length_replicate. Qed.
#[local] Instance sample_helper_calls : HelperCallIds := fun _ => mret 0.


(** The code only compares the constant with the scale: [(i << 2) | 8] is split like [(i << 2) + 8],
    but for [i = 2] it is the byte offset 8, not 16. *)
Lemma overlapping_or_is_split :
  extract_raw_buffer_access_split 5 1 2 1 offset_converter = Ok (Some (mkSplit 1 2 (Some 0%nat)), offset_converter) /\
  ~ in_elements (offset_words 2) 5 1 4 (mkSplit 1 2 (Some 0%nat)).
Proof. split; [by vm_compute|]. unfold in_elements. by vm_compute. Qed.

(** The constant is negated whichever operand it is: [15 - i] is split like [i - 15]. *)
Lemma subtraction_from_constant_is_split :
  extract_raw_buffer_access_split 7 16 2 4 offset_converter = Ok (Some (mkSplit 1 (-15) (Some 0%nat)), offset_converter) /\
  ~ in_elements (offset_words 3) 7 16 16 (mkSplit 1 (-15) (Some 0%nat)).
Proof. split; [by vm_compute|]. unfold in_elements. by vm_compute. Qed.
